(* ===== verification/_CoqProject ===== *)
-Q . S2P
Prelude.v
WaitQueue.v
RangeLock.v
RangeLockWait.v
Fcntl.v
Flags.v
Flock.v
Credentials.v
FileCaps.v
UserSpace.v
RwLock.v
RwMutex.v
RwMutexWait.v
Signals.v
SignalSyscalls.v
Align.v
Buddy.v
BuddyCoalesce.v
FramePools.v
FrameAlloc.v
IntervalSet.v
VmMapping.v
Vmar.v
VmarInv.v
VmarOps.v
VmarProtect.v
VmarRegion.v
VmarPages.v
VmarUnmap.v
VmarRemap.v
VmarMap.v
PageFault.v
PageFaultSpec.v
VmarSyscalls.v
VmarWf.v
VmarCalls.v
Fork.v
AlienAccess.v
Memory.v
XArray.v
XArrayTree.v
XArrayMap.v
PageCache.v
PageCacheInv.v
PageCacheIo.v
PageCacheFlush.v
PageCacheResize.v
PageCacheMmap.v
PageCacheSpec.v
StateError.v
Ext2Bitmap.v
Ext2Alloc.v
Ext2AllocSpec.v
