(* ===== verification/Prelude.v ===== *)
(** * Asterinas: a verification development of the kernel's core logic

    Asterinas is a Linux-compatible kernel in Rust: a small unsafe framework ([src/ostd]), a frame
    allocator ([src/osdk/deps/frame-allocator]) and a kernel in safe Rust ([src/kernel]).  This library
    models the parts of it whose correctness is a matter of data structures, protocols and arithmetic,
    as executable functions and step relations, and proves what they promise.

    ** How the code is modelled

    - A call that can fail returns a [result] (the messages of errors are dropped); a call that can
      panic returns a [run]: [assert!], [debug_assert!], [unwrap], an index out of bounds and an
      arithmetic operation that overflows are [Panic].  [NoFuel] is the outcome of a loop of the model
      that ran out of iterations.  Loops get as many iterations as the length or the measure they work
      on, and the theorems show that a call returns ([Ret]), so neither outcome appears.
    - Integers are [Z] with the wrap-around or the check of the source written out; flag sets are the
      bits of an integer behind the interface [Bitflags] of [Flags.v], since the [bitflags] crate is not
      part of the repository.  [Zflags] meets the interface, and the witnesses use it.
    - A method that holds a lock for its whole run is one step.  Where the code is concurrent at the
      level of single atomic accesses, each access is a step of a relation, under sequential
      consistency.
    - An [Arc] is the identity of the object it points to.  What the code learns from parts that are not
      modelled (devices, files, the frame allocator's answer to a fault, user memory) is an argument, and
      the theorems hold for all its values, or for those that meet a stated contract.

    ** Files

    Shared: [Prelude.v] (this file: errors, panics, machine integers, lists and sums), [Flags.v],
    [Align.v] ([ostd/libs/align_ext]), [UserSpace.v] (reading and writing user memory).

    File locks.  [WaitQueue.v] models [ostd/src/sync/wait.rs] and shows that [wait_until] loses no
    wake-up.  [RangeLock.v] models the POSIX record locks of [kernel/core/src/fs/vfs/range_lock]: the
    list of locks refines the map from bytes to owners and types, and conflicting locks exclude each
    other.  [RangeLockWait.v] puts any number of blocked requests beside each other and shows that none
    sleeps while it could be granted.  [Fcntl.v] is the path from [fcntl]; [Flock.v] the whole-file
    locks of [flock].

    Credentials.  [Credentials.v] models the IDs, the capability sets and the secure bits of
    [kernel/core/src/process/credentials], [capset], [prctl]'s part and the change at [execve]: the sets
    stay consistent and nothing gains privileges that it gave up.  [FileCaps.v] is the parser of
    [security.capability].

    Locks.  [RwLock.v] models the lock word of [ostd/src/sync/rwlock.rs], [RwMutex.v] the sleeping lock
    of [rwmutex.rs] with its queue, [RwMutexWait.v] its wake-ups: exclusion in every interleaving, and no
    thread sleeps while it could take the lock, unless the non-blocking calls interfere.

    Signals.  [Signals.v] models the masks, queues and dispositions of [kernel/core/src/process/signal]
    and the choice of the next signal, [SignalSyscalls.v] the system calls on them.

    Frames.  [Buddy.v] and [BuddyCoalesce.v] model the buddy sets of [chunk.rs] and [set.rs],
    [FramePools.v] the pools, caches and counters of the frame allocator, [FrameAlloc.v] the allocator
    with its users on all CPUs: no frame is ever in two hands, no free block is missed, and the
    operations return as long as the global pool is not nearly empty.

    Address spaces ([kernel/core/src/vm/vmar]).
    - [IntervalSet.v] models [interval_set.rs], [VmMapping.v] the mappings of [vm_mapping.rs] with the
      permissions of [perms.rs], the reverse mappings of [rmap.rs] and the counters of writable mappings
      of [page_cache/vmo], and [Vmar.v] the tree, the counters, and all operations of [vmar_impls].
      [view] is the abstract meaning of a tree: the attributes of each address.
    - [VmarInv.v] has the invariant and the steps that operations are made of; [VmarOps.v],
      [VmarProtect.v], [VmarRegion.v], [VmarPages.v], [VmarUnmap.v], [VmarRemap.v] and [VmarMap.v] prove
      for each operation that it returns, keeps the invariant and changes exactly the view and the pages
      that it should.
    - [PageFault.v] models the page faults of [vm_mapping.rs] and [PageFaultSpec.v] says what they do;
      [VmarWf.v] adds the permissions and flags, and shows that a fault that succeeds grants the access.
    - [VmarSyscalls.v] and [VmarCalls.v] are [mmap], [munmap], [mprotect], [madvise], [mremap] and [brk];
      [Fork.v] is the copy of an address space, [AlienAccess.v] the access from another process.
    - [Memory.v] puts any number of processes over shared memory objects and frames: in every reachable
      world all calls return, all counters are exact, sealed objects are never mapped writable, and no
      page that a process can write privately is visible anywhere else.

    Sparse arrays ([kernel/libs/xarray]).  [XArray.v] models the radix tree of [node.rs] and [mark.rs]
    over a store of nodes, and the cursors of [cursor.rs] and [range.rs]; [XArrayTree.v] has the
    invariant of the tree (its shape, its items and its bitmaps of marks) and [XArrayMap.v] shows that
    every sequence of operations has the answers of a finite map with sets of marked keys.  A walk
    along a path of the tree gets an iteration for each of the 11 heights it can have, and a search 64.

    Page cache ([kernel/core/src/vm/page_cache]).  [PageCache.v] models the pages of [cache_page.rs] with
    their locks, states and bytes, the memory objects of [vmo/mod.rs], the page cache and the block
    backend of [mod.rs], the batches of requests of [io-util], the requests of [bio.rs] and the walks of
    [rmap.rs], for one object with the address spaces that map it and the storage behind it.  Calls are
    those of one thread: a lock that is held is waited for in vain ([NoFuel]), and the device completes
    a request when it is waited for.  What the allocator, the file system and the device answer is the
    environment [Env], and [env_ok] is what is asked of it.
    - [PageCacheInv.v] has the invariant of a page cache between calls and the commits of pages,
      [PageCacheIo.v] reads and writes, [PageCacheFlush.v] write-back, [PageCacheResize.v] eviction and
      resizing, and [PageCacheMmap.v] the pages that page faults get, with the shared mappings, loads and
      stores of address spaces.  The address spaces of this file are clients, not translations: what they
      do with the pages is what [PageFault.v] models.
    - [PageCacheSpec.v] has the flat file and the refinement theorem: every sequence of calls, faults,
      loads and stores returns and has the answers of the file.  Loops over pages get one iteration for
      each page, and two for each page where a page may have been evicted.

    ** Theorems

    The theorems of the library are marked with their numbers C1, C2 and so on.  Those with hypotheses
    have a witness, named after them, which applies them to a concrete state.  Some of them show where
    the code does not do what it means to: the panic of a forced read, pages left writable by a forced
    write, the endless fault of shared graphics memory after a [fork], the limit that [mremap] does not
    check, the seal that refuses read-only mappings, the store at a large index of a sparse array, the
    writes that a failed flush loses, the pages that a write swaps when it meets an eviction, and the
    wake-up that [try_read] swallows.

    ** Not modelled

    Device drivers, file systems, networking, the scheduler, boot code and everything that is unsafe or
    specific to an architecture: their behaviour is that of hardware, of raw memory or of formats that
    are not described in the repository.  Page tables are maps from page addresses to frames and flags;
    TLB flushes and I/O memory are left out, and so are the contents of frames outside the page cache and
    the bytes that an access copies.  Interleavings of calls of one page cache are not modelled, apart
    from an eviction during a write, and neither are the requests for runs of several pages that some
    file systems make of their own.  Readers of a sparse array that run while it changes, under RCU, are
    not modelled, and neither are memory orders weaker than sequential consistency. *)

From Stdlib Require Export ZArith Lia.
From stdpp Require Export prelude list numbers sets gmap sorting.

Declare Scope aster_scope.
Delimit Scope aster_scope with aster.
#[global] Open Scope aster_scope.
#[global] Open Scope Z_scope.

(** ** Error numbers: [kernel/core/src/error.rs] *)

(** The error numbers of the kernel, in the order of the source. *)
Inductive Errno :=
  | EPERM | ENOENT | ESRCH | EINTR | EIO | ENXIO | E2BIG | ENOEXEC | EBADF | ECHILD | EAGAIN
  | ENOMEM | EACCES | EFAULT | ENOTBLK | EBUSY | EEXIST | EXDEV | ENODEV | ENOTDIR | EISDIR
  | EINVAL | ENFILE | EMFILE | ENOTTY | ETXTBSY | EFBIG | ENOSPC | ESPIPE | EROFS | EMLINK | EPIPE
  | EDOM | ERANGE | EDEADLK | ENAMETOOLONG | ENOLCK | ENOSYS | ENOTEMPTY | ELOOP | ENOMSG | EIDRM
  | ECHRNG | EL2NSYNC | EL3HLT | EL3RST | ELNRNG | EUNATCH | ENOCSI | EL2HLT | EBADE | EBADR
  | EXFULL | ENOANO | EBADRQC | EBADSLT | EBFONT | ENOSTR | ENODATA | ETIME | ENOSR | ENONET
  | ENOPKG | EREMOTE | ENOLINK | EADV | ESRMNT | ECOMM | EPROTO | EMULTIHOP | EDOTDOT | EBADMSG
  | EOVERFLOW | ENOTUNIQ | EBADFD | EREMCHG | ELIBACC | ELIBBAD | ELIBSCN | ELIBMAX | ELIBEXEC
  | EILSEQ | ERESTART | ESTRPIPE | EUSERS | ENOTSOCK | EDESTADDRREQ | EMSGSIZE | EPROTOTYPE
  | ENOPROTOOPT | EPROTONOSUPPORT | ESOCKTNOSUPPORT | EOPNOTSUPP | EPFNOSUPPORT | EAFNOSUPPORT
  | EADDRINUSE | EADDRNOTAVAIL | ENETDOWN | ENETUNREACH | ENETRESET | ECONNABORTED | ECONNRESET
  | ENOBUFS | EISCONN | ENOTCONN | ESHUTDOWN | ETOOMANYREFS | ETIMEDOUT | ECONNREFUSED | EHOSTDOWN
  | EHOSTUNREACH | EALREADY | EINPROGRESS | ESTALE | EUCLEAN | ENOTNAM | ENAVAIL | EISNAM
  | EREMOTEIO | EDQUOT | ENOMEDIUM | EMEDIUMTYPE | ECANCELED | ENOKEY | EKEYEXPIRED | EKEYREVOKED
  | EKEYREJECTED | EOWNERDEAD | ENOTRECOVERABLE | ERFKILL | EHWPOISON | ERESTARTSYS.

(** The [repr(i32)] value of each error number. *)
Definition errno_value (e : Errno) : Z :=
  match e with
  | EPERM => 1 | ENOENT => 2 | ESRCH => 3 | EINTR => 4 | EIO => 5 | ENXIO => 6 | E2BIG => 7
  | ENOEXEC => 8 | EBADF => 9 | ECHILD => 10 | EAGAIN => 11 | ENOMEM => 12 | EACCES => 13
  | EFAULT => 14 | ENOTBLK => 15 | EBUSY => 16 | EEXIST => 17 | EXDEV => 18 | ENODEV => 19
  | ENOTDIR => 20 | EISDIR => 21 | EINVAL => 22 | ENFILE => 23 | EMFILE => 24 | ENOTTY => 25
  | ETXTBSY => 26 | EFBIG => 27 | ENOSPC => 28 | ESPIPE => 29 | EROFS => 30 | EMLINK => 31
  | EPIPE => 32 | EDOM => 33 | ERANGE => 34 | EDEADLK => 35 | ENAMETOOLONG => 36 | ENOLCK => 37
  | ENOSYS => 38 | ENOTEMPTY => 39 | ELOOP => 40 | ENOMSG => 42 | EIDRM => 43 | ECHRNG => 44
  | EL2NSYNC => 45 | EL3HLT => 46 | EL3RST => 47 | ELNRNG => 48 | EUNATCH => 49 | ENOCSI => 50
  | EL2HLT => 51 | EBADE => 52 | EBADR => 53 | EXFULL => 54 | ENOANO => 55 | EBADRQC => 56
  | EBADSLT => 57 | EBFONT => 59 | ENOSTR => 60 | ENODATA => 61 | ETIME => 62 | ENOSR => 63
  | ENONET => 64 | ENOPKG => 65 | EREMOTE => 66 | ENOLINK => 67 | EADV => 68 | ESRMNT => 69
  | ECOMM => 70 | EPROTO => 71 | EMULTIHOP => 72 | EDOTDOT => 73 | EBADMSG => 74 | EOVERFLOW => 75
  | ENOTUNIQ => 76 | EBADFD => 77 | EREMCHG => 78 | ELIBACC => 79 | ELIBBAD => 80 | ELIBSCN => 81
  | ELIBMAX => 82 | ELIBEXEC => 83 | EILSEQ => 84 | ERESTART => 85 | ESTRPIPE => 86 | EUSERS => 87
  | ENOTSOCK => 88 | EDESTADDRREQ => 89 | EMSGSIZE => 90 | EPROTOTYPE => 91 | ENOPROTOOPT => 92
  | EPROTONOSUPPORT => 93 | ESOCKTNOSUPPORT => 94 | EOPNOTSUPP => 95 | EPFNOSUPPORT => 96
  | EAFNOSUPPORT => 97 | EADDRINUSE => 98 | EADDRNOTAVAIL => 99 | ENETDOWN => 100
  | ENETUNREACH => 101 | ENETRESET => 102 | ECONNABORTED => 103 | ECONNRESET => 104
  | ENOBUFS => 105 | EISCONN => 106 | ENOTCONN => 107 | ESHUTDOWN => 108 | ETOOMANYREFS => 109
  | ETIMEDOUT => 110 | ECONNREFUSED => 111 | EHOSTDOWN => 112 | EHOSTUNREACH => 113
  | EALREADY => 114 | EINPROGRESS => 115 | ESTALE => 116 | EUCLEAN => 117 | ENOTNAM => 118
  | ENAVAIL => 119 | EISNAM => 120 | EREMOTEIO => 121 | EDQUOT => 122 | ENOMEDIUM => 123
  | EMEDIUMTYPE => 124 | ECANCELED => 125 | ENOKEY => 126 | EKEYEXPIRED => 127
  | EKEYREVOKED => 128 | EKEYREJECTED => 129 | EOWNERDEAD => 130 | ENOTRECOVERABLE => 131
  | ERFKILL => 132 | EHWPOISON => 133 | ERESTARTSYS => 512
  end.

(** [TryFromInt] on [Errno]: the error number of a value, if there is one. *)
Definition errno_try_from (v : Z) : option Errno :=
  match v with
  | 1 => Some EPERM | 2 => Some ENOENT | 3 => Some ESRCH | 4 => Some EINTR | 5 => Some EIO
  | 6 => Some ENXIO | 7 => Some E2BIG | 8 => Some ENOEXEC | 9 => Some EBADF | 10 => Some ECHILD
  | 11 => Some EAGAIN | 12 => Some ENOMEM | 13 => Some EACCES | 14 => Some EFAULT
  | 15 => Some ENOTBLK | 16 => Some EBUSY | 17 => Some EEXIST | 18 => Some EXDEV
  | 19 => Some ENODEV | 20 => Some ENOTDIR | 21 => Some EISDIR | 22 => Some EINVAL
  | 23 => Some ENFILE | 24 => Some EMFILE | 25 => Some ENOTTY | 26 => Some ETXTBSY
  | 27 => Some EFBIG | 28 => Some ENOSPC | 29 => Some ESPIPE | 30 => Some EROFS
  | 31 => Some EMLINK | 32 => Some EPIPE | 33 => Some EDOM | 34 => Some ERANGE
  | 35 => Some EDEADLK | 36 => Some ENAMETOOLONG | 37 => Some ENOLCK | 38 => Some ENOSYS
  | 39 => Some ENOTEMPTY | 40 => Some ELOOP | 42 => Some ENOMSG | 43 => Some EIDRM
  | 44 => Some ECHRNG | 45 => Some EL2NSYNC | 46 => Some EL3HLT | 47 => Some EL3RST
  | 48 => Some ELNRNG | 49 => Some EUNATCH | 50 => Some ENOCSI | 51 => Some EL2HLT
  | 52 => Some EBADE | 53 => Some EBADR | 54 => Some EXFULL | 55 => Some ENOANO
  | 56 => Some EBADRQC | 57 => Some EBADSLT | 59 => Some EBFONT | 60 => Some ENOSTR
  | 61 => Some ENODATA | 62 => Some ETIME | 63 => Some ENOSR | 64 => Some ENONET
  | 65 => Some ENOPKG | 66 => Some EREMOTE | 67 => Some ENOLINK | 68 => Some EADV
  | 69 => Some ESRMNT | 70 => Some ECOMM | 71 => Some EPROTO | 72 => Some EMULTIHOP
  | 73 => Some EDOTDOT | 74 => Some EBADMSG | 75 => Some EOVERFLOW | 76 => Some ENOTUNIQ
  | 77 => Some EBADFD | 78 => Some EREMCHG | 79 => Some ELIBACC | 80 => Some ELIBBAD
  | 81 => Some ELIBSCN | 82 => Some ELIBMAX | 83 => Some ELIBEXEC | 84 => Some EILSEQ
  | 85 => Some ERESTART | 86 => Some ESTRPIPE | 87 => Some EUSERS | 88 => Some ENOTSOCK
  | 89 => Some EDESTADDRREQ | 90 => Some EMSGSIZE | 91 => Some EPROTOTYPE | 92 => Some ENOPROTOOPT
  | 93 => Some EPROTONOSUPPORT | 94 => Some ESOCKTNOSUPPORT | 95 => Some EOPNOTSUPP
  | 96 => Some EPFNOSUPPORT | 97 => Some EAFNOSUPPORT | 98 => Some EADDRINUSE
  | 99 => Some EADDRNOTAVAIL | 100 => Some ENETDOWN | 101 => Some ENETUNREACH
  | 102 => Some ENETRESET | 103 => Some ECONNABORTED | 104 => Some ECONNRESET
  | 105 => Some ENOBUFS | 106 => Some EISCONN | 107 => Some ENOTCONN | 108 => Some ESHUTDOWN
  | 109 => Some ETOOMANYREFS | 110 => Some ETIMEDOUT | 111 => Some ECONNREFUSED
  | 112 => Some EHOSTDOWN | 113 => Some EHOSTUNREACH | 114 => Some EALREADY
  | 115 => Some EINPROGRESS | 116 => Some ESTALE | 117 => Some EUCLEAN | 118 => Some ENOTNAM
  | 119 => Some ENAVAIL | 120 => Some EISNAM | 121 => Some EREMOTEIO | 122 => Some EDQUOT
  | 123 => Some ENOMEDIUM | 124 => Some EMEDIUMTYPE | 125 => Some ECANCELED | 126 => Some ENOKEY
  | 127 => Some EKEYEXPIRED | 128 => Some EKEYREVOKED | 129 => Some EKEYREJECTED
  | 130 => Some EOWNERDEAD | 131 => Some ENOTRECOVERABLE | 132 => Some ERFKILL
  | 133 => Some EHWPOISON | 512 => Some ERESTARTSYS
  | _ => None
  end.

Lemma errno_try_from_value e : errno_try_from (errno_value e) = Some e.
Proof. destruct e; reflexivity. Qed.

#[export] Instance Errno_eq_dec : EqDecision Errno.
Proof.
  intros e1 e2. destruct (decide (errno_value e1 = errno_value e2)) as [E|E].
  - left. apply (f_equal errno_try_from) in E. rewrite !errno_try_from_value in E. congruence.
  - right. congruence.
Defined.

(** ** Results and panics

    [result A] is the kernel's [Result<A>]: the message of an [Error] is dropped, since no code
    branches on it.  [run A] is the outcome of a call that may panic: an index out of bounds, a
    failed [assert!], an [unwrap] of [None].  [NoFuel] is not a behaviour of the code: it is the
    result of a loop of the model that was given too few iterations, and the termination theorems
    show that it never appears. *)
Inductive result (A : Type) :=
  | Ok (a : A)
  | Err (e : Errno).
Arguments Ok {A} _.
Arguments Err {A} _.

Inductive run (A : Type) :=
  | Ret (a : A)
  | Panic
  | NoFuel.
Arguments Ret {A} _.
Arguments Panic {A}.
Arguments NoFuel {A}.

#[export] Instance result_ret : MRet result := @Ok.
#[export] Instance result_bind : MBind result := fun A B f m =>
  match m with Ok a => f a | Err e => Err e end.
#[export] Instance run_ret : MRet run := @Ret.
#[export] Instance run_bind : MBind run := fun A B f m =>
  match m with Ret a => f a | Panic => Panic | NoFuel => NoFuel end.

(** [assert!(b)]. *)
Definition assert_run (b : bool) : run unit := if b then Ret tt else Panic.

(** [Option::unwrap] and [Option::expect]. *)
Definition unwrap {A} (o : option A) : run A :=
  match o with Some a => Ret a | None => Panic end.

(** [Result::unwrap] and [Result::expect]. *)
Definition unwrap_result {A} (r : result A) : run A :=
  match r with Ok a => Ret a | Err _ => Panic end.

Definition is_ok {A} (r : result A) : bool :=
  match r with Ok _ => true | Err _ => false end.

(** [Option::is_some]. *)
Definition is_some {A} (o : option A) : bool :=
  match o with Some _ => true | None => false end.

(** Reading a computation that returned backwards: each step of it returned. *)
Lemma bind_Ret {A B} (m : run A) (f : A -> run B) b :
  m ≫= f = Ret b -> exists a, m = Ret a /\ f a = Ret b.
Proof. destruct m as [a| |]; [|done..]. intros H. by exists a. Qed.

Lemma assert_Ret b u : assert_run b = Ret u -> b = true.
Proof. by destruct b. Qed.

Lemma unwrap_Ret {A} (o : option A) a : unwrap o = Ret a -> o = Some a.
Proof. destruct o; [|done]. by intros [= ->]. Qed.

(** [run_inv] takes the binds of such hypotheses apart. *)
Ltac run_inv :=
  repeat match goal with
  | H : mbind _ _ = Ret _ |- _ => apply bind_Ret in H as (? & ? & H); cbn beta iota in H
  | H : assert_run _ = Ret _ |- _ => apply assert_Ret in H
  | H : unwrap _ = Ret _ |- _ => apply unwrap_Ret in H
  | H : (let '(_, _) := ?x in _) = Ret _ |- _ => is_var x; destruct x; cbn beta iota in H
  | H : Ret _ = Ret _ |- _ => injection H; clear H; intros; subst
  | H : Panic = Ret _ |- _ => discriminate H
  | H : NoFuel = Ret _ |- _ => discriminate H
  end.

(** ** Total correctness

    [returns m Q]: the call returns, and what it returns meets [Q]. *)
Definition returns {A} (m : run A) (Q : A -> Prop) : Prop := exists a, m = Ret a /\ Q a.

Lemma returns_ret {A} (a : A) (Q : A -> Prop) : Q a -> returns (Ret a) Q.
Proof. intros H. by exists a. Qed.

Lemma returns_bind {A B} (m : run A) (f : A -> run B) (Q : A -> Prop) (R : B -> Prop) :
  returns m Q -> (forall a, Q a -> returns (f a) R) -> returns (m ≫= f) R.
Proof. intros (a & -> & HQ) H. by apply H. Qed.

Lemma returns_mono {A} (m : run A) (Q R : A -> Prop) : returns m Q -> (forall a, Q a -> R a) -> returns m R.
Proof. intros (a & E & HQ) H. exists a. auto. Qed.

(** A [for] loop over a list. *)
Lemma returns_foldl {A B} (f : A -> B -> run A) (I : nat -> A -> Prop) (l : list B) a :
  I 0%nat a -> (forall j x a, l !! j = Some x -> I j a -> returns (f a x) (I (S j))) ->
  returns (foldl (fun acc x => a ← acc; f a x) (Ret a) l) (I (length l)).
Proof.
  revert I a. induction l as [|x l IH]; intros I a H0 Hstep; cbn [foldl length]; [by apply returns_ret|].
  destruct (Hstep 0%nat x a eq_refl H0) as (a' & Ha' & H1). cbn [mbind run_bind]. rewrite Ha'.
  apply (IH (fun j => I (S j))); [done|]. intros j y b Hy Hb. by apply Hstep.
Qed.

(** ** Machine integers *)

Definition u64_modulus : Z := 2 ^ 64.

(** A value of type [usize] or [u64] (64-bit targets). *)
Definition is_u64 (x : Z) : Prop := 0 <= x < u64_modulus.

(** [Wrapping] arithmetic at 64 bits. *)
Definition wrap64 (x : Z) : Z := x mod u64_modulus.

(** [usize::checked_add]. *)
Definition checked_add (x y : Z) : option Z :=
  if x + y <? u64_modulus then Some (x + y) else None.

(** [usize::trailing_zeros]; 64 for zero. *)
Fixpoint tz (bits : nat) (x : Z) : nat :=
  match bits with
  | O => O
  | S bits => if Z.odd x then O else S (tz bits (x / 2))
  end.
Definition trailing_zeros (x : Z) : nat := tz 64 x.

(** [usize::leading_zeros]; 64 for zero. *)
Definition leading_zeros (x : Z) : Z := if x =? 0 then 64 else 63 - Z.log2 x.

(** [usize::next_power_of_two]; 1 for zero. *)
Definition next_power_of_two (x : Z) : Z := 2 ^ Z.log2_up x.

(** Subtraction of unsigned integers, with overflow checks. *)
Definition checked_sub (x y : Z) : run Z := if y <=? x then Ret (x - y) else Panic.

Lemma tz_spec bits x : 0 < x < 2 ^ Z.of_nat bits ->
  (tz bits x < bits)%nat /\ exists q, Z.odd q = true /\ x = q * 2 ^ Z.of_nat (tz bits x).
Proof.
  revert x. induction bits as [|bits IH]; intros x Hx; [cbn in Hx; lia|]. cbn [tz].
  destruct (Z.odd x) eqn:Eo.
  { split; [lia|]. exists x. split; [done|]. cbn. lia. }
  assert (x = 2 * (x / 2)) as Ex.
  { rewrite (Z.div_mod x 2) at 1 by lia. rewrite Zmod_odd, Eo. lia. }
  rewrite Nat2Z.inj_succ, Z.pow_succ_r in Hx by lia.
  destruct (IH (x / 2)) as (Hlt & q & Hq & E); [lia|]. split; [lia|]. exists q. split; [done|].
  rewrite Nat2Z.inj_succ, Z.pow_succ_r by lia. rewrite Ex at 1. rewrite E at 1. lia.
Qed.

Lemma tz_zero bits : tz bits 0 = bits.
Proof. induction bits as [|bits IH]; [done|]. cbn [tz]. change (Z.odd 0) with false. change (0 / 2) with 0. by rewrite IH. Qed.

Lemma tz_mult bits q k : Z.odd q = true -> 0 <= q -> (k < bits)%nat -> tz bits (q * 2 ^ Z.of_nat k) = k.
Proof.
  revert k. induction bits as [|bits IH]; intros [|k] Hq Hp Hlt; try lia; cbn [tz].
  - rewrite Z.pow_0_r, Z.mul_1_r. by rewrite Hq.
  - rewrite Nat2Z.inj_succ, Z.pow_succ_r by lia.
    replace (q * (2 * 2 ^ Z.of_nat k)) with (q * 2 ^ Z.of_nat k * 2) by lia.
    rewrite Z.odd_mul, andb_false_r, Z.div_mul by lia. f_equal. apply IH; [done|done|lia].
Qed.

(** ** Tactics *)

(** Turns boolean tests in the context and the goal into propositions. *)
Ltac boolify :=
  repeat match goal with
  | H : (_ && _)%bool = true |- _ => apply andb_true_iff in H; destruct H
  | H : (_ || _)%bool = false |- _ => apply orb_false_iff in H; destruct H
  | H : (_ || _)%bool = true |- _ => apply orb_true_iff in H
  | H : (_ && _)%bool = false |- _ => apply andb_false_iff in H
  | H : negb _ = true |- _ => apply negb_true_iff in H
  | H : negb _ = false |- _ => apply negb_false_iff in H
  | H : (_ <? _)%Z = true |- _ => apply Z.ltb_lt in H
  | H : (_ <? _)%Z = false |- _ => apply Z.ltb_ge in H
  | H : (_ <=? _)%Z = true |- _ => apply Z.leb_le in H
  | H : (_ <=? _)%Z = false |- _ => apply Z.leb_gt in H
  | H : (_ =? _)%Z = true |- _ => apply Z.eqb_eq in H
  | H : (_ =? _)%Z = false |- _ => apply Z.eqb_neq in H
  | H : (_ >? _)%Z = true |- _ => rewrite Z.gtb_ltb in H
  | H : (_ >? _)%Z = false |- _ => rewrite Z.gtb_ltb in H
  | H : (_ >=? _)%Z = true |- _ => rewrite Z.geb_leb in H
  | H : (_ >=? _)%Z = false |- _ => rewrite Z.geb_leb in H
  | H : (_ =? _)%nat = true |- _ => apply Nat.eqb_eq in H
  | H : (_ =? _)%nat = false |- _ => apply Nat.eqb_neq in H
  | H : (_ <? _)%nat = true |- _ => apply Nat.ltb_lt in H
  | H : (_ <? _)%nat = false |- _ => apply Nat.ltb_ge in H
  | H : (_ <=? _)%nat = true |- _ => apply Nat.leb_le in H
  | H : (_ <=? _)%nat = false |- _ => apply Nat.leb_gt in H
  | H : bool_decide _ = true |- _ => apply bool_decide_eq_true in H
  | H : bool_decide _ = false |- _ => apply bool_decide_eq_false in H
  end.

(** Splits on the first conditional of the goal, as propositions. *)
Ltac case_cond :=
  match goal with
  | |- context [if ?b then _ else _] =>
      match type of b with
      | bool => let E := fresh "E" in destruct b eqn:E; boolify
      end
  end.

(** The same in a hypothesis. *)
Ltac case_cond_in H :=
  match type of H with
  | context [if ?b then _ else _] =>
      match type of b with
      | bool => let E := fresh "E" in destruct b eqn:E; boolify
      end
  end.

(** ** Loops

    A loop body either goes round again or leaves the loop.  [loop] runs it a bounded number of
    times; [loop_total] is the rule for total correctness with an invariant and a measure. *)
Inductive flow (S A : Type) :=
  | Continue (s : S)
  | Break (a : A).
Arguments Continue {S A} _.
Arguments Break {S A} _.

Fixpoint loop {S A} (fuel : nat) (step : S -> run (flow S A)) (s : S) : run A :=
  match fuel with
  | O => NoFuel
  | Datatypes.S fuel' =>
      match step s with
      | Ret (Continue s') => loop fuel' step s'
      | Ret (Break a) => Ret a
      | Panic => Panic
      | NoFuel => NoFuel
      end
  end.

Lemma loop_total {S A} (step : S -> run (flow S A)) (I : S -> Prop) (Q : A -> Prop)
    (m : S -> nat) :
  (forall s, I s -> exists f, step s = Ret f /\
    match f with Continue s' => I s' /\ (m s' < m s)%nat | Break a => Q a end) ->
  forall fuel s, I s -> (m s < fuel)%nat -> exists a, loop fuel step s = Ret a /\ Q a.
Proof.
  intros Hstep fuel. induction fuel as [|fuel IH]; intros s Hs Hm; [lia|].
  destruct (Hstep s Hs) as ([s'|a] & Hf & Hpost); simpl; rewrite Hf.
  - destruct Hpost. apply IH; [done|lia].
  - eauto.
Qed.

(** ** [Vec]: indexed access panics out of range *)
Definition vec_get {A} (l : list A) (i : nat) : run A := unwrap (l !! i).

Definition vec_set {A} (l : list A) (i : nat) (x : A) : run (list A) :=
  if (i <? length l)%nat then Ret (<[i := x]> l) else Panic.

Definition vec_insert {A} (l : list A) (i : nat) (x : A) : run (list A) :=
  if (i <=? length l)%nat then Ret (take i l ++ x :: drop i l) else Panic.

Definition vec_remove {A} (l : list A) (i : nat) : run (A * list A) :=
  match l !! i with Some x => Ret (x, delete i l) | None => Panic end.

Definition vec_swap {A} (l : list A) (i j : nat) : run (list A) :=
  match l !! i, l !! j with
  | Some x, Some y => Ret (<[i := y]> (<[j := x]> l))
  | _, _ => Panic
  end.

Lemma vec_get_Ret {A} (l : list A) i x : vec_get l i = Ret x -> l !! i = Some x.
Proof. apply unwrap_Ret. Qed.

Lemma vec_set_Ret {A} (l k : list A) i x : vec_set l i x = Ret k -> (i < length l)%nat /\ k = <[i := x]> l.
Proof. unfold vec_set. destruct (Nat.ltb_spec i (length l)); [|done]. by intros [= <-]. Qed.

Lemma vec_remove_Ret {A} (l k : list A) i x : vec_remove l i = Ret (x, k) -> l !! i = Some x /\ k = delete i l.
Proof. unfold vec_remove. destruct (l !! i); [|done]. by intros [= -> <-]. Qed.

(** [Iterator::position]. *)
Fixpoint position {A} (p : A -> bool) (l : list A) : option nat :=
  match l with
  | [] => None
  | x :: l' => if p x then Some O else S <$> position p l'
  end.

(** [Iterator::find]. *)
Fixpoint find_first {A} (p : A -> bool) (l : list A) : option A :=
  match l with
  | [] => None
  | x :: l' => if p x then Some x else find_first p l'
  end.

Section vec_lemmas.
Context {A : Type}.
Implicit Types (l k : list A) (x y : A) (p : A -> bool).

Lemma vec_get_app l x k : vec_get (l ++ x :: k) (length l) = Ret x.
Proof. unfold vec_get. by rewrite list_lookup_middle. Qed.

Lemma vec_get_app_S l x y k : vec_get (l ++ x :: y :: k) (S (length l)) = Ret y.
Proof.
  unfold vec_get. replace (l ++ x :: y :: k) with ((l ++ [x]) ++ y :: k) by by rewrite <- app_assoc.
  rewrite list_lookup_middle; [done|]. rewrite length_app. simpl. lia.
Qed.

Lemma vec_set_app l x y k : vec_set (l ++ x :: k) (length l) y = Ret (l ++ y :: k).
Proof.
  unfold vec_set. rewrite length_app. simpl.
  destruct (Nat.ltb_spec (length l) (length l + S (length k))); [|lia].
  f_equal. rewrite <- (Nat.add_0_r (length l)), insert_app_r. done.
Qed.

Lemma vec_set_app_S l x y z k :
  vec_set (l ++ x :: y :: k) (S (length l)) z = Ret (l ++ x :: z :: k).
Proof.
  replace (l ++ x :: y :: k) with ((l ++ [x]) ++ y :: k) by by rewrite <- app_assoc.
  replace (S (length l)) with (length (l ++ [x])) by (rewrite length_app; simpl; lia).
  rewrite vec_set_app. by rewrite <- app_assoc.
Qed.

Lemma vec_insert_app l x k : vec_insert (l ++ k) (length l) x = Ret (l ++ x :: k).
Proof.
  unfold vec_insert. rewrite length_app.
  destruct (Nat.leb_spec (length l) (length l + length k)); [|lia].
  by rewrite take_app_length, drop_app_length.
Qed.

Lemma vec_remove_app l x k : vec_remove (l ++ x :: k) (length l) = Ret (x, l ++ k).
Proof.
  unfold vec_remove. rewrite list_lookup_middle; [|done].
  by rewrite delete_middle.
Qed.

Lemma vec_remove_app_S l x y k : vec_remove (l ++ x :: y :: k) (S (length l)) = Ret (y, l ++ x :: k).
Proof.
  replace (l ++ x :: y :: k) with ((l ++ [x]) ++ y :: k) by by rewrite <- app_assoc.
  replace (S (length l)) with (length (l ++ [x])) by (rewrite length_app; simpl; lia).
  rewrite vec_remove_app. by rewrite <- app_assoc.
Qed.

Lemma vec_swap_app l x y k :
  vec_swap (l ++ x :: y :: k) (length l) (S (length l)) = Ret (l ++ y :: x :: k).
Proof.
  pose proof (vec_get_app l x (y :: k)) as E1. pose proof (vec_get_app_S l x y k) as E2.
  pose proof (vec_set_app_S l x y x k) as E3. pose proof (vec_set_app l x y (x :: k)) as E4.
  unfold vec_get, unwrap, vec_set, vec_swap in *.
  destruct ((l ++ x :: y :: k) !! length l) eqn:F1; [|done].
  destruct ((l ++ x :: y :: k) !! S (length l)) eqn:F2; [|done]. simplify_eq.
  case_cond_in E3; [|done]. case_cond_in E4; [|done]. congruence.
Qed.

Lemma position_Some p l (i : nat) :
  position p l = Some i <->
  exists l1 x l2, l = l1 ++ x :: l2 /\ length l1 = i /\ p x = true /\ Forall (fun y => p y = false) l1.
Proof.
  revert i. induction l as [|x l IH]; intros i; simpl.
  - split; [done|]. by intros ([|??] & ? & ? & ? & _).
  - destruct (p x) eqn:E.
    + split; [intros [= <-]; by exists [], x, l|].
      intros ([|z l1] & y & l2 & ? & <- & ? & Hall); simplify_eq/=; [done|].
      inversion Hall; congruence.
    + rewrite fmap_Some. split.
      * intros (j & Hj & ->). apply IH in Hj as (l1 & y & l2 & -> & <- & ? & ?).
        exists (x :: l1), y, l2. split_and!; auto.
      * intros ([|z l1] & y & l2 & ? & <- & ? & Hall); simplify_eq/=; [congruence|].
        exists (length l1). split; [|done]. apply IH. inversion Hall; subst. eauto 8.
Qed.

Lemma position_None p l : position p l = None <-> Forall (fun y => p y = false) l.
Proof.
  induction l as [|x l IH]; simpl; [done|].
  rewrite Forall_cons. destruct (p x) eqn:E; [naive_solver|].
  rewrite fmap_None, IH. naive_solver.
Qed.

Lemma find_first_Some p l x :
  find_first p l = Some x -> x ∈ l /\ p x = true.
Proof.
  induction l as [|y l IH]; simpl; [done|].
  destruct (p y) eqn:E; [intros [= ->]; set_solver|].
  intros [? ?]%IH. set_solver.
Qed.

Lemma find_first_None p l :
  find_first p l = None <-> Forall (fun y => p y = false) l.
Proof.
  induction l as [|x l IH]; simpl; [done|].
  rewrite Forall_cons. destruct (p x) eqn:E; naive_solver.
Qed.
End vec_lemmas.

Lemma Forall_filter_keep {A} (P Q : A -> Prop) `{!forall x, Decision (Q x)} (l : list A) :
  Forall P l -> Forall P (filter Q l).
Proof.
  rewrite !Forall_forall. intros HP x Hx. apply list_elem_of_filter in Hx as [_ ?]. auto.
Qed.

(** ** Weighted counts of the elements of a list *)
Definition tally {A} (f : A -> Z) (l : list A) : Z := foldr (fun a n => f a + n) 0 l.

Section tally.
Context {A : Type} (f : A -> Z).
Implicit Types (l : list A).

Lemma tally_insert l i a b : l !! i = Some a -> tally f (<[i := b]> l) = tally f l - f a + f b.
Proof.
  revert i. induction l as [|x l IH]; intros [|i] H; simplify_eq/=; [lia|]. rewrite (IH i H). lia.
Qed.

Lemma tally_nonneg l : (forall a, 0 <= f a) -> 0 <= tally f l.
Proof. intros Hf. induction l as [|x l IH]; simpl; [lia|]. pose proof (Hf x). lia. Qed.

Lemma tally_lookup l i a : (forall a, 0 <= f a) -> l !! i = Some a -> f a <= tally f l.
Proof.
  intros Hf. revert i. induction l as [|x l IH]; intros [|i] H; simplify_eq/=.
  - pose proof (tally_nonneg l Hf). lia.
  - pose proof (IH i H). pose proof (Hf x). lia.
Qed.

Lemma tally_lookup2 l i j a b :
  (forall a, 0 <= f a) -> l !! i = Some a -> l !! j = Some b -> i <> j -> f a + f b <= tally f l.
Proof.
  intros Hf. revert i j. induction l as [|x l IH]; intros [|i] [|j] Hi Hj Hne; simplify_eq/=.
  - pose proof (tally_lookup l j b Hf Hj). lia.
  - pose proof (tally_lookup l i a Hf Hi). lia.
  - pose proof (IH i j Hi Hj ltac:(lia)). pose proof (Hf x). lia.
Qed.

Lemma tally_pos l : 0 < tally f l -> exists i a, l !! i = Some a /\ 0 < f a.
Proof.
  induction l as [|x l IH]; simpl; [lia|]. intros H. destruct (Z_lt_dec 0 (f x)); [by exists O, x|].
  destruct IH as (i & a & Hi & Ha); [lia|]. by exists (S i), a.
Qed.

Lemma tally_zero l : (forall a, a ∈ l -> f a = 0) -> tally f l = 0.
Proof.
  intros H. induction l as [|x l IH]; simpl; [done|]. rewrite (H x) by set_solver.
  rewrite IH; [done|]. intros a Ha. apply H. set_solver.
Qed.

#[export] Instance tally_perm : Proper ((≡ₚ) ==> (=)) (tally f).
Proof. intros l k H. induction H; simpl; lia. Qed.

Lemma tally_cons x l : tally f (x :: l) = f x + tally f l.
Proof. done. Qed.

Lemma tally_app l k : tally f (l ++ k) = tally f l + tally f k.
Proof. induction l as [|x l IH]; simpl; lia. Qed.
End tally.

Lemma tally_add {A} (f g : A -> Z) l : tally (fun a => f a + g a) l = tally f l + tally g l.
Proof. induction l as [|x l IH]; simpl; lia. Qed.

Lemma tally_ext {A} (f g : A -> Z) l : (forall a, f a = g a) -> tally f l = tally g l.
Proof. intros H. induction l as [|x l IH]; simpl; [done|]. rewrite (H x). lia. Qed.

Lemma tally_ext_in {A} (f g : A -> Z) l : (forall a, a ∈ l -> f a = g a) -> tally f l = tally g l.
Proof.
  induction l as [|x l IH]; intros H; [done|]. rewrite !tally_cons, (H x) by set_solver.
  rewrite IH; [done|]. intros a Ha. apply H. set_solver.
Qed.

Lemma tally_le {A} (f g : A -> Z) l : (forall a, f a <= g a) -> tally f l <= tally g l.
Proof. intros H. induction l as [|x l IH]; simpl; [lia|]. pose proof (H x). lia. Qed.

(** ** Single bits of integers *)
Lemma lor_bit a n : 0 <= n -> Z.lor a (2 ^ n) = if Z.testbit a n then a else a + 2 ^ n.
Proof.
  intros Hn. destruct (Z.testbit a n) eqn:E.
  - apply Z.bits_inj'. intros m Hm. rewrite Z.lor_spec, Z.pow2_bits_eqb by done.
    destruct (Z.eqb_spec n m) as [->|]; [by rewrite E|by rewrite orb_false_r].
  - rewrite Z.add_nocarry_lxor, Z.lxor_lor; [done| |].
    all: apply Z.bits_inj'; intros m Hm; rewrite Z.land_spec, Z.pow2_bits_eqb, Z.bits_0 by done;
      destruct (Z.eqb_spec n m) as [->|]; [by rewrite E|by rewrite andb_false_r].
Qed.

Lemma land_bit_0 a n : 0 <= n -> Z.land a (2 ^ n) = 0 <-> Z.testbit a n = false.
Proof.
  intros Hn. split.
  - intros H. apply (f_equal (fun z => Z.testbit z n)) in H. rewrite Z.land_spec, Z.pow2_bits_true, Z.bits_0, andb_true_r in H by done. done.
  - intros E. apply Z.bits_inj'. intros m Hm. rewrite Z.land_spec, Z.pow2_bits_eqb, Z.bits_0 by done.
    destruct (Z.eqb_spec n m) as [->|]; [by rewrite E|by rewrite andb_false_r].
Qed.

Lemma ldiff_bit a n : 0 <= n -> Z.ldiff a (2 ^ n) = if Z.testbit a n then a - 2 ^ n else a.
Proof.
  intros Hn. assert (Z.ldiff a (2 ^ n) = if Z.testbit a n then Z.lxor a (2 ^ n) else a) as ->.
  { apply Z.bits_inj'. intros m Hm. rewrite Z.ldiff_spec, Z.pow2_bits_eqb by done.
    destruct (Z.testbit a n) eqn:E; [rewrite Z.lxor_spec, Z.pow2_bits_eqb by done|];
      destruct (Z.eqb_spec n m) as [->|]; rewrite ?E, ?andb_true_r, ?xorb_false_r; done. }
  destruct (Z.testbit a n) eqn:E; [|done].
  assert (Z.lxor a (2 ^ n) + 2 ^ n = a); [|lia].
  rewrite Z.add_nocarry_lxor, Z.lxor_assoc, Z.lxor_nilpotent, Z.lxor_0_r; [done|].
  apply land_bit_0; [done|]. by rewrite Z.lxor_spec, Z.pow2_bits_true, E by done.
Qed.

(** ** The least key of a set from a key on *)
Definition least (S : gset Z) (k : Z) (r : option Z) : Prop :=
  match r with
  | None => forall j, j ∈ S -> j < k
  | Some j => j ∈ S /\ k <= j /\ forall i, i ∈ S -> k <= i -> j <= i
  end.

Lemma least_unique S k r r' : least S k r -> least S k r' -> r = r'.
Proof.
  destruct r as [j|], r' as [j'|]; cbn; intros H1 H2; try done.
  - destruct H1 as (Hj & Hkj & H1), H2 as (Hj' & Hkj' & H2). f_equal. specialize (H1 j' Hj' Hkj'). specialize (H2 j Hj Hkj). lia.
  - destruct H1 as (Hj & Hkj & _). specialize (H2 j Hj). lia.
  - destruct H2 as (Hj & Hkj & _). specialize (H1 j' Hj). lia.
Qed.

Definition next_key (keys : gset Z) (k : Z) : option Z :=
  foldr (fun j acc => if k <=? j then Some (match acc with Some a => Z.min a j | None => j end) else acc) None (elements keys).

Lemma next_key_least keys k : least keys k (next_key keys k).
Proof.
  unfold next_key. assert (forall l, match foldr (fun j acc => if k <=? j then Some (match acc with Some a => Z.min a j | None => j end) else acc) None l with
    | None => forall j, j ∈ l -> j < k | Some j => j ∈ l /\ k <= j /\ forall i, i ∈ l -> k <= i -> j <= i end) as H.
  { induction l as [|x l IH]; cbn [foldr]; [intros j Hj; by apply elem_of_nil in Hj|]. destruct (Z.leb_spec k x) as [Hle|Hlt].
    - destruct (foldr _ _ l) as [a|].
      + destruct IH as (Ha & Hka & Hmin). split_and!; [|lia|].
        * destruct (Z.min_spec a x) as [[_ ->]|[_ ->]]; [by right|by left].
        * intros i [->|Hi]%elem_of_cons Hki; [lia|]. specialize (Hmin i Hi Hki). lia.
      + split_and!; [by left|done|]. intros i [->|Hi]%elem_of_cons Hki; [lia|]. specialize (IH i Hi). lia.
    - destruct (foldr _ _ l) as [a|].
      + destruct IH as (Ha & Hka & Hmin). split_and!; [by right|done|]. intros i [->|Hi]%elem_of_cons Hki; [lia|by apply Hmin].
      + intros j [->|Hj]%elem_of_cons; [done|by apply IH]. }
  specialize (H (elements keys)). destruct (foldr _ _ _) as [j|]; cbn; setoid_rewrite elem_of_elements in H; done.
Qed.
