(* ===== verification/WaitQueue.v ===== *)
(** * Wait queues: [ostd/src/sync/wait.rs]

    A [WaitQueue] is a FIFO of shared [Waker]s with a counter that mirrors its length for the
    lock-free fast path.  Wakers are shared objects ([Arc<Waker>]), so they live in a store indexed
    by identity.  The first part models the operations one call at a time; the second part models
    [WaitQueue::wait_until] racing with a notifier at the granularity of the individual atomic
    accesses and critical sections. *)

From S2P Require Import Prelude.

(** ** Data *)

(** [Waker]: [has_woken] and the task that [wake_up] unparks. *)
Record Waker := mkWaker { has_woken : bool; task : Z }.

(** [WaitQueue]: the counter is an [AtomicU32]. *)
Record WaitQueue := mkWaitQueue { num_wakers : Z; wakers : list nat }.

Definition wrap32 (x : Z) : Z := x mod 2 ^ 32.

Definition WaitQueue_new : WaitQueue := mkWaitQueue 0 [].

Definition WaitQueue_is_empty (q : WaitQueue) : bool := num_wakers q =? 0.

Definition WaitQueue_enqueue (q : WaitQueue) (w : nat) : WaitQueue :=
  mkWaitQueue (wrap32 (num_wakers q + 1)) (wakers q ++ [w]).

(** ** Waking *)

(** [Waker::wake_up]: the store, whether this call woke the waiter, and the unparked task. *)
Definition Waker_wake_up (st : gmap nat Waker) (w : nat) : gmap nat Waker * bool * list Z :=
  match st !! w with
  | Some k =>
      if has_woken k then (st, false, [])
      else (<[w := mkWaker true (task k)]> st, true, [task k])
  | None => (st, false, [])
  end.

(** [Waker::close]. *)
Definition Waker_close (st : gmap nat Waker) (w : nat) : gmap nat Waker :=
  match st !! w with
  | Some k => <[w := mkWaker true (task k)]> st
  | None => st
  end.

(** The loop of [WaitQueue::wake_one]; each turn pops one waker. *)
Fixpoint wake_one_loop (num : Z) (ws : list nat) (st : gmap nat Waker)
    : WaitQueue * gmap nat Waker * list Z * bool :=
  match ws with
  | [] => (mkWaitQueue num [], st, [], false)
  | w :: ws' =>
      let num := wrap32 (num - 1) in
      let '(st, woken, up) := Waker_wake_up st w in
      if woken then (mkWaitQueue num ws', st, up, true)
      else wake_one_loop num ws' st
  end.

Definition WaitQueue_wake_one (q : WaitQueue) (st : gmap nat Waker)
    : WaitQueue * gmap nat Waker * list Z * bool :=
  if WaitQueue_is_empty q then (q, st, [], false)
  else wake_one_loop (num_wakers q) (wakers q) st.

(** The loop of [WaitQueue::wake_all]. *)
Fixpoint wake_all_loop (num : Z) (ws : list nat) (st : gmap nat Waker) (num_woken : Z)
    : WaitQueue * gmap nat Waker * list Z * Z :=
  match ws with
  | [] => (mkWaitQueue num [], st, [], num_woken)
  | w :: ws' =>
      let num := wrap32 (num - 1) in
      let '(st, woken, up) := Waker_wake_up st w in
      let num_woken := if woken then num_woken + 1 else num_woken in
      let '(q, st, ups, n) := wake_all_loop num ws' st num_woken in
      (q, st, up ++ ups, n)
  end.

Definition WaitQueue_wake_all (q : WaitQueue) (st : gmap nat Waker)
    : WaitQueue * gmap nat Waker * list Z * Z :=
  if WaitQueue_is_empty q then (q, st, [], 0)
  else wake_all_loop (num_wakers q) (wakers q) st 0.

(** ** Effects on named wait queues

    Objects that own a wait queue hold an [Arc<WaitQueue>]; the calls they make on it are recorded
    as a sequence of effects, which [run_effect] carries out on the shared queues and wakers. *)
Inductive WaitEffect :=
  | WakeAll (q : nat)
  | Enqueue (q : nat) (w : nat).

Record WaitWorld := mkWaitWorld {
  ww_queues : gmap nat WaitQueue;
  ww_wakers : gmap nat Waker
}.

Definition run_effect (ww : WaitWorld) (e : WaitEffect) : WaitWorld :=
  match e with
  | WakeAll q =>
      let '(wq, st, _, _) :=
        WaitQueue_wake_all (default WaitQueue_new (ww_queues ww !! q)) (ww_wakers ww) in
      mkWaitWorld (<[q := wq]> (ww_queues ww)) st
  | Enqueue q w =>
      mkWaitWorld
        (<[q := WaitQueue_enqueue (default WaitQueue_new (ww_queues ww !! q)) w]> (ww_queues ww))
        (ww_wakers ww)
  end.

Definition run_effects (ww : WaitWorld) (es : list WaitEffect) : WaitWorld :=
  fold_left run_effect es ww.

(** ** The race between [wait_until] and a notifier

    Waiters run [WaitQueue::wait_until]; the notifier first makes the condition true and then calls
    [wake_all].  A program counter names the next access.  A waiter that leaves [wait_until] drops
    its [Waiter], which closes the waker.  A queue holds fewer than [2^32] entries, each of which
    is a live allocation. *)
Inductive waiter_pc :=
  | WCheckFirst        (** the call of [cond] before a waker is created *)
  | WPush              (** [enqueue]: take the lock and push the waker *)
  | WCount             (** [enqueue]: increment [num_wakers] and release the lock *)
  | WCheck             (** the call of [cond] after enqueueing *)
  | WSwap              (** [do_wait]: swap [has_woken] with [false], park while it was unset *)
  | WDone.

Inductive notifier_pc :=
  | NSet               (** make the condition true *)
  | NFast              (** [is_empty]: read [num_wakers] *)
  | NPop               (** take the lock, pop the front, decrement, release *)
  | NWake (w : nat)    (** [wake_up] on the popped waker *)
  | NDone.

#[export] Instance waiter_pc_eq_dec : EqDecision waiter_pc.
Proof. solve_decision. Defined.
#[export] Instance notifier_pc_eq_dec : EqDecision notifier_pc.
Proof. solve_decision. Defined.

Record race := mkRace {
  r_waiters : nat -> waiter_pc;
  r_woken : nat -> bool;
  r_queue : list nat;
  r_num : Z;
  r_lock : option nat;        (** the waiter inside [enqueue]'s critical section *)
  r_cond : bool;
  r_notifier : notifier_pc
}.

Definition upd {A} (f : nat -> A) (i : nat) (a : A) : nat -> A :=
  fun j => if decide (j = i) then a else f j.

Inductive race_step : race -> race -> Prop :=
  | step_check_first i ws wk q n l c k :
      ws i = WCheckFirst ->
      race_step (mkRace ws wk q n l c k)
                (mkRace (upd ws i (if c then WDone else WPush)) (upd wk i false) q n l c k)
  | step_push i ws wk q n c k :
      ws i = WPush ->
      Z.of_nat (length q) + 1 < 2 ^ 32 ->
      race_step (mkRace ws wk q n None c k)
                (mkRace (upd ws i WCount) wk (q ++ [i]) n (Some i) c k)
  | step_count i ws wk q n c k :
      ws i = WCount ->
      race_step (mkRace ws wk q n (Some i) c k)
                (mkRace (upd ws i WCheck) wk q (wrap32 (n + 1)) None c k)
  | step_check i ws wk q n l c k :
      ws i = WCheck ->
      race_step (mkRace ws wk q n l c k)
                (mkRace (upd ws i (if c then WDone else WSwap))
                        (if c then upd wk i true else wk) q n l c k)
  | step_swap i ws wk q n l c k :
      ws i = WSwap -> wk i = true ->
      race_step (mkRace ws wk q n l c k)
                (mkRace (upd ws i WPush) (upd wk i false) q n l c k)
  | step_set ws wk q n l c :
      race_step (mkRace ws wk q n l c NSet) (mkRace ws wk q n l true NFast)
  | step_fast ws wk q n l c :
      race_step (mkRace ws wk q n l c NFast)
                (mkRace ws wk q n l c (if n =? 0 then NDone else NPop))
  | step_pop ws wk w q n c :
      race_step (mkRace ws wk (w :: q) n None c NPop) (mkRace ws wk q (wrap32 (n - 1)) None c (NWake w))
  | step_pop_empty ws wk n c :
      race_step (mkRace ws wk [] n None c NPop) (mkRace ws wk [] n None c NDone)
  | step_wake w ws wk q n l c :
      race_step (mkRace ws wk q n l c (NWake w)) (mkRace ws (upd wk w true) q n l c NPop).

Definition race_init (s : race) : Prop :=
  (forall i, r_waiters s i = WCheckFirst) /\ r_queue s = [] /\ r_num s = 0 /\
  r_lock s = None /\ r_cond s = false /\ r_notifier s = NSet.

Definition race_reachable (s : race) : Prop :=
  exists s0, race_init s0 /\ rtc race_step s0 s.

(** A waiter sleeps when it is about to swap a flag that is unset: [do_wait] parks it. *)
Definition asleep (s : race) (i : nat) : Prop :=
  r_waiters s i = WSwap /\ r_woken s i = false.

(** ** Lemmas on the operations *)

(** The counter mirrors the length of the queue. *)
Definition wq_ok (q : WaitQueue) : Prop :=
  num_wakers q = Z.of_nat (length (wakers q)) /\ num_wakers q < 2 ^ 32.

Lemma wrap32_small x : 0 <= x < 2 ^ 32 -> wrap32 x = x.
Proof. apply Z.mod_small. Qed.

Lemma wq_ok_new : wq_ok WaitQueue_new.
Proof. by split. Qed.

Lemma wq_ok_enqueue q w :
  wq_ok q -> num_wakers q + 1 < 2 ^ 32 -> wq_ok (WaitQueue_enqueue q w).
Proof.
  intros [Hn _] Hlt. split; simpl; rewrite wrap32_small by lia; [|lia].
  rewrite length_app. simpl. lia.
Qed.

(** A waker that has been woken stays woken until its own waiter waits again. *)
Definition woken_in (st : gmap nat Waker) (w : nat) : Prop :=
  has_woken <$> st !! w = Some true.

Definition set_woken (k : Waker) : Waker := mkWaker true (task k).

Lemma wake_up_lookup st w st' b up j :
  Waker_wake_up st w = (st', b, up) ->
  st' !! j = if decide (j = w) then set_woken <$> st !! j else st !! j.
Proof.
  unfold Waker_wake_up. intros H. case_decide as Hj; [subst j|].
  - destruct (st !! w) as [k|] eqn:E; simpl in *.
    + destruct (has_woken k) eqn:Hk; simplify_eq; [|by rewrite lookup_insert_eq].
      rewrite E. unfold set_woken. destruct k; simpl in *. by rewrite Hk.
    + by simplify_eq.
  - destruct (st !! w) as [k|] eqn:E; simpl in *; [|by simplify_eq].
    destruct (has_woken k); simplify_eq; [done|]. by rewrite lookup_insert_ne.
Qed.

Lemma set_woken_idemp k : set_woken (set_woken k) = set_woken k.
Proof. done. Qed.

(** [wake_all_loop] marks exactly the wakers of the queue and leaves it empty. *)
Lemma wake_all_loop_spec ws num st n q st' ups n' :
  wake_all_loop num ws st n = (q, st', ups, n') ->
  num = Z.of_nat (length ws) -> num < 2 ^ 32 ->
  q = WaitQueue_new /\
  (forall j, st' !! j = if decide (j ∈ ws) then set_woken <$> st !! j else st !! j) /\
  n' = n + Z.of_nat (length ups).
Proof.
  revert num st n q st' ups n'. induction ws as [|w ws IH]; intros num st n q st' ups n'; simpl.
  - intros ? -> ?; simplify_eq/=. by split_and!; [| |lia].
  - destruct (Waker_wake_up st w) as [[st1 b] up] eqn:Ew.
    destruct (wake_all_loop _ ws st1 _) as [[[q1 st2] ups1] n1] eqn:El.
    intros ? -> ?; simplify_eq.
    apply IH in El as (-> & Hst & ->); [|rewrite wrap32_small; lia|rewrite wrap32_small; lia].
    split_and!; [done| |].
    + intros j. rewrite Hst, (wake_up_lookup _ _ _ _ _ j Ew).
      repeat case_decide; try set_solver; by destruct (st !! j).
    + unfold Waker_wake_up in Ew. rewrite length_app.
      destruct (st !! w) as [k|]; [destruct (has_woken k)|]; simplify_eq/=; lia.
Qed.

Lemma wake_all_spec q st q' st' ups n :
  wq_ok q -> WaitQueue_wake_all q st = (q', st', ups, n) ->
  q' = WaitQueue_new /\
  (forall j, st' !! j = if decide (j ∈ wakers q) then set_woken <$> st !! j else st !! j) /\
  n = Z.of_nat (length ups).
Proof.
  intros [Hn Hlt]. unfold WaitQueue_wake_all, WaitQueue_is_empty. case_cond; intros H.
  - destruct q as [num [|w ws]]; simpl in *; [|lia]. by simplify_eq/=.
  - by apply (wake_all_loop_spec _ _ _ 0) in H.
Qed.

(** A sequence of [WakeAll]s wakes every waker that sat in one of the named queues. *)
Definition ww_ok (ww : WaitWorld) : Prop :=
  forall q wq, ww_queues ww !! q = Some wq -> wq_ok wq.

Definition waits_in (ww : WaitWorld) (q w : nat) : Prop :=
  exists wq, ww_queues ww !! q = Some wq /\ w ∈ wakers wq.

Definition is_wake (e : WaitEffect) : Prop :=
  match e with WakeAll _ => True | Enqueue _ _ => False end.

Lemma run_wake_all ww q :
  ww_ok ww ->
  ww_ok (run_effect ww (WakeAll q)) /\
  (forall j, ww_wakers (run_effect ww (WakeAll q)) !! j =
    if decide (j ∈ wakers (default WaitQueue_new (ww_queues ww !! q)))
    then set_woken <$> ww_wakers ww !! j else ww_wakers ww !! j) /\
  (forall q', q' <> q -> ww_queues (run_effect ww (WakeAll q)) !! q' = ww_queues ww !! q').
Proof.
  intros Hok. unfold run_effect.
  destruct (WaitQueue_wake_all _ _) as [[[wq st] ups] n] eqn:E. simpl.
  assert (wq_ok (default WaitQueue_new (ww_queues ww !! q))) as Hq.
  { destruct (ww_queues ww !! q) as [x|] eqn:Ex; simpl; [eauto|apply wq_ok_new]. }
  apply wake_all_spec in E as (-> & Hst & _); [|done]. split_and!; [|done|].
  - intros q' wq'. simpl. rewrite lookup_insert. case_decide; [|apply Hok].
    intros [= <-]. apply wq_ok_new.
  - intros q' ?. by rewrite lookup_insert_ne.
Qed.

Lemma woken_in_set_woken st st' w :
  (st' !! w = set_woken <$> st !! w \/ st' !! w = st !! w) -> woken_in st w -> woken_in st' w.
Proof. unfold woken_in. intros [-> | ->]; [|done]. by destruct (st !! w). Qed.

Lemma run_effects_monotone es ww w :
  Forall is_wake es -> ww_ok ww -> woken_in (ww_wakers ww) w ->
  woken_in (ww_wakers (run_effects ww es)) w.
Proof.
  intros Hes. revert ww. induction Hes as [|e es He Hes IH]; intros ww Hok Hw; [done|].
  destruct e as [q|]; [|done]. simpl. destruct (run_wake_all ww q Hok) as (Hok' & Hst & _).
  apply IH; [done|]. revert Hw. apply woken_in_set_woken. rewrite Hst. case_decide; auto.
Qed.

Lemma run_effects_wakes es ww q w :
  Forall is_wake es -> ww_ok ww -> WakeAll q ∈ es -> waits_in ww q w ->
  is_Some (ww_wakers ww !! w) -> woken_in (ww_wakers (run_effects ww es)) w.
Proof.
  intros Hes. revert ww. induction Hes as [|e es He Hes IH]; intros ww Hok Hin Hw Hs; [set_solver|].
  destruct e as [q0|]; [|done]. simpl. destruct (run_wake_all ww q0 Hok) as (Hok' & Hst & Hqs).
  destruct (decide (q0 = q)) as [->|Hne].
  - apply run_effects_monotone; [done..|]. unfold woken_in. rewrite Hst.
    destruct Hw as (wq & -> & ?). simpl. rewrite decide_True by done.
    by destruct Hs as [k ->].
  - apply IH; [done|set_solver| |].
    + destruct Hw as (wq & ? & ?). exists wq. by rewrite Hqs.
    + rewrite Hst. case_decide; [|done]. by apply fmap_is_Some.
Qed.

#[export] Instance WaitEffect_eq_dec : EqDecision WaitEffect.
Proof. solve_decision. Defined.

(** What a sequence of [WakeAll]s leaves alone. *)
Lemma run_effects_frame es ww :
  Forall is_wake es -> ww_ok ww ->
  ww_ok (run_effects ww es) /\
  (forall q, WakeAll q ∉ es -> ww_queues (run_effects ww es) !! q = ww_queues ww !! q) /\
  (forall w, is_Some (ww_wakers ww !! w) -> is_Some (ww_wakers (run_effects ww es) !! w)).
Proof.
  intros Hes. revert ww. induction Hes as [|e es He Hes IH]; intros ww Hok; [by split_and!|].
  destruct e as [q0|]; [|done]. simpl. destruct (run_wake_all ww q0 Hok) as (Hok' & Hst & Hqs).
  destruct (IH _ Hok') as (H1 & H2 & H3). split_and!; [done| |].
  - intros q Hq. rewrite not_elem_of_cons in Hq. destruct Hq as [Hne Hq].
    rewrite H2, Hqs; [done|congruence|done].
  - intros w Hw. apply H3. rewrite Hst. case_decide; [|done]. by apply fmap_is_Some.
Qed.

(** A waker in a queue is either still there after the effects or has been woken. *)
Lemma run_effects_waiter es ww q w :
  Forall is_wake es -> ww_ok ww -> waits_in ww q w -> is_Some (ww_wakers ww !! w) ->
  WakeAll q ∈ es /\ woken_in (ww_wakers (run_effects ww es)) w \/
  WakeAll q ∉ es /\ waits_in (run_effects ww es) q w.
Proof.
  intros Hes Hok Hw Hs. destruct (decide (WakeAll q ∈ es)) as [Hin|Hin]; [left|right].
  - eauto using run_effects_wakes.
  - split; [done|]. destruct (run_effects_frame es ww Hes Hok) as (_ & Hq & _).
    destruct Hw as (wq & ? & ?). exists wq. by rewrite Hq.
Qed.

(** ** Lemmas on the race *)

(** What the invariant says of one waiter: it holds the lock exactly between its two accesses in
    [enqueue]; from the moment it is enqueued until it waits, its waker is set, queued or in the
    notifier's hands; once the notifier is done, its waker is set if it is about to wait. *)
Definition waiter_inv (s : race) (i : nat) : Prop :=
  (r_lock s = Some i <-> r_waiters s i = WCount) /\
  (r_lock s = Some i -> i ∈ r_queue s) /\
  (r_waiters s i = WCheck \/ r_waiters s i = WSwap ->
    r_woken s i = true \/ i ∈ r_queue s \/ r_notifier s = NWake i) /\
  (r_notifier s = NDone -> r_waiters s i = WSwap -> r_woken s i = true).

Definition race_inv (s : race) : Prop :=
  r_num s = Z.of_nat (length (r_queue s)) - (if r_lock s then 1 else 0) /\
  Z.of_nat (length (r_queue s)) < 2 ^ 32 /\
  (r_cond s = false <-> r_notifier s = NSet) /\
  (forall i, waiter_inv s i).

Lemma two_in_length (q : list nat) i j : i ∈ q -> j ∈ q -> i <> j -> (2 <= length q)%nat.
Proof. destruct q as [|a [|b q]]; set_solver by lia. Qed.

Lemma race_inv_init s : race_init s -> race_inv s.
Proof.
  intros (Hw & Hq & Hn & Hl & Hc & Hk). unfold race_inv, waiter_inv.
  rewrite Hq, Hn, Hl, Hc, Hk. simpl.
  split_and!; try done; try lia; intros i; rewrite ?Hw; naive_solver.
Qed.

(** With the counter at zero, no waiter that is about to wait is still queued. *)
Lemma race_num_zero s i :
  race_inv s -> r_num s = 0 -> r_waiters s i = WSwap -> i ∉ r_queue s.
Proof.
  intros (Hn & _ & _ & Hw) H0 Hi Hin. destruct (r_lock s) as [j|] eqn:Hl.
  - destruct (Hw j) as ((Hj & _) & Hjq & _). rewrite Hl in *.
    assert (i <> j) as Hne by (intros ->; intuition congruence).
    pose proof (two_in_length _ i j Hin (Hjq eq_refl) Hne). lia.
  - destruct (r_queue s); [set_solver|]. simpl in *. lia.
Qed.

(** Case analysis on whether the waiter under scrutiny is the one that moves. *)
Ltac at_waiter j i :=
  unfold waiter_inv, upd in *; simpl in *;
  rewrite ?elem_of_app, ?elem_of_cons, ?list_elem_of_singleton, ?elem_of_nil in *;
  destruct (decide (j = i)); subst; intuition congruence.

Lemma race_inv_step s s' : race_inv s -> race_step s s' -> race_inv s'.
Proof.
  intros Hinv Hstep. pose proof Hinv as (Hn & Hlen & Hc & Hw).
  destruct Hstep as [i ws wk q n l c k Hi|i ws wk q n c k Hi Hb|i ws wk q n c k Hi|
    i ws wk q n l c k Hi|i ws wk q n l c k Hi Hk|ws wk q n l c|ws wk q n l c|ws wk w q n c|
    ws wk n c|w ws wk q n l c];
  unfold race_inv; simpl in *.
  - split_and!; [done|done|done|]. intros j. specialize (Hw j). destruct c; at_waiter j i.
  - rewrite length_app. simpl. split_and!; [lia|lia|done|].
    intros j. pose proof (Hw i). specialize (Hw j). at_waiter j i.
  - destruct (Hw i) as (_ & Hq & _). specialize (Hq eq_refl). simpl in Hq.
    assert (length q <> 0%nat) by (destruct q; [set_solver|done]).
    rewrite wrap32_small by lia. split_and!; [lia|lia|done|].
    intros j. specialize (Hw j). at_waiter j i.
  - split_and!; [done|done|done|]. intros j. specialize (Hw j). destruct c; at_waiter j i.
  - split_and!; [done|done|done|]. intros j. specialize (Hw j). at_waiter j i.
  - split_and!; [done|done|done|]. intros j. specialize (Hw j). at_waiter j j.
  - split_and!; [done|done| |].
    + case_cond; intuition congruence.
    + intros j. pose proof (race_num_zero _ j Hinv) as Hz. specialize (Hw j).
      case_cond; at_waiter j j.
  - rewrite wrap32_small by lia. split_and!; [lia|lia|intuition congruence|].
    intros j. specialize (Hw j). at_waiter j w.
  - split_and!; [done|done|intuition congruence|]. intros j. specialize (Hw j). at_waiter j j.
  - split_and!; [done|done|intuition congruence|]. intros j. specialize (Hw j). at_waiter j w.
Qed.

Lemma race_inv_reachable s : race_reachable s -> race_inv s.
Proof.
  intros (s0 & Hinit & Hsteps). apply race_inv_init in Hinit.
  induction Hsteps; eauto using race_inv_step.
Qed.

(** ** Properties *)

(** C19: waiters in [wait_until] never lose the notification.  In every interleaving of any number of
    waiters with a notifier that makes the condition true and then calls [wake_all], once the
    notifier has returned no waiter is left parked with its waker unset, although the fast path
    reads the counter without the lock. *)
Theorem wait_until_no_lost_wakeup s i :
  race_reachable s -> r_notifier s = NDone -> ~ asleep s i.
Proof.
  intros Hr Hd [Hw Hf]. apply race_inv_reachable in Hr as (_ & _ & _ & Hi).
  destruct (Hi i) as (_ & _ & _ & H). rewrite (H Hd Hw) in Hf. done.
Qed.

(** Waiter 0 enqueues itself and parks before the notifier starts. *)
Definition race_start : race :=
  mkRace (fun _ => WCheckFirst) (fun _ => false) [] 0 None false NSet.
Definition race_end : race :=
  mkRace (upd (upd (upd (upd (fun _ => WCheckFirst) 0 WPush) 0 WCount) 0 WCheck) 0 WSwap)%nat
         (upd (upd (fun _ => false) 0 false) 0 true)%nat [] 0 None true NDone.

Lemma wait_until_no_lost_wakeup_witness :
  race_reachable race_end /\ r_notifier race_end = NDone /\ ~ asleep race_end 0.
Proof.
  assert (race_reachable race_end) as Hr.
  { exists race_start. split; [by split_and!|].
    eapply rtc_l; [by apply (step_check_first 0)|].
    eapply rtc_l; [by apply (step_push 0)|].
    eapply rtc_l; [by apply (step_count 0)|].
    eapply rtc_l; [by apply (step_check 0)|].
    eapply rtc_l; [apply step_set|]. eapply rtc_l; [apply step_fast|].
    eapply rtc_l; [apply step_pop|]. eapply rtc_l; [apply step_wake|].
    eapply rtc_l; [apply step_pop_empty|]. apply rtc_refl. }
  split; [exact Hr|]. split; [reflexivity|].
  apply (wait_until_no_lost_wakeup race_end 0 Hr). reflexivity.
Defined.

(** [wake_all] on a queue whose counter mirrors its length wakes every queued waiter that was
    not yet woken, leaves the flags of all other waiters alone, unparks one task per waiter it
    woke, and leaves the queue empty. *)
Theorem wake_all_wakes_every_waiter q st :
  wq_ok q ->
  exists st' ups,
    WaitQueue_wake_all q st = (WaitQueue_new, st', ups, Z.of_nat (length ups)) /\
    forall w, st' !! w = if decide (w ∈ wakers q) then set_woken <$> st !! w else st !! w.
Proof.
  intros Hq. destruct (WaitQueue_wake_all q st) as [[[q' st'] ups] n] eqn:E.
  apply wake_all_spec in E as (-> & ? & ->); eauto.
Qed.

Lemma wake_all_wakes_every_waiter_witness :
  exists st' ups,
    WaitQueue_wake_all (mkWaitQueue 2 [7; 8]%nat)
      {[ 7%nat := mkWaker false 100; 8%nat := mkWaker true 101; 9%nat := mkWaker false 102 ]} =
      (WaitQueue_new, st', ups, Z.of_nat (length ups)) /\
    st' !! 7%nat = Some (mkWaker true 100) /\ st' !! 9%nat = Some (mkWaker false 102).
Proof.
  destruct (wake_all_wakes_every_waiter (mkWaitQueue 2 [7; 8]%nat)
    {[ 7%nat := mkWaker false 100; 8%nat := mkWaker true 101; 9%nat := mkWaker false 102 ]})
    as (st' & ups & E & H); [by split|].
  exists st', ups. split; [exact E|]. split; rewrite H; vm_compute; reflexivity.
Defined.
