(* ===== verification/RangeLock.v ===== *)
(** * POSIX advisory range locks

    [kernel/core/src/fs/vfs/range_lock/range.rs] and [mod.rs], with the entry points of
    [InodeHandle] in [kernel/core/src/fs/file/inode_handle.rs].

    A file's locks are a [Vec] of items, each with a half-open byte range, a type, an owner (a file
    table) and a shared wait queue.  The operations edit the vector in place by index; calls on wait
    queues, including those of [Drop], are recorded as [WaitEffect]s.  [place] is the same insertion
    written by recursion on the list; the loop is shown equal to it, and the meaning of a list is
    the map from an owner and a byte to the type of lock held there. *)

From S2P Require Import Prelude WaitQueue.

(** ** File ranges: [range.rs] *)

(** [i64::MAX as usize]. *)
Definition OFFSET_MAX : Z := 2 ^ 63 - 1.

Record FileRange := mkRange { start : Z; end_ : Z }.

Inductive FileRangeChange := Same | Expanded | Shrunk.

Inductive OverlapWith := ToLeft | ToRight | InMiddle | Includes.

Definition FileRange_new (s e : Z) : result FileRange :=
  if s >=? e then Err EINVAL else Ok (mkRange s e).

Definition FileRange_len (r : FileRange) : Z := end_ r - start r.

Definition FileRange_set_start (r : FileRange) (new_start : Z)
    : result (FileRange * FileRangeChange) :=
  if new_start >=? end_ r then Err EINVAL
  else
    let old_start := start r in
    let change :=
      if new_start >? old_start then Shrunk
      else if new_start <? old_start then Expanded
      else Same in
    Ok (mkRange new_start (end_ r), change).

Definition FileRange_set_end (r : FileRange) (new_end : Z)
    : result (FileRange * FileRangeChange) :=
  if new_end <=? start r then Err EINVAL
  else
    let old_end := end_ r in
    let change :=
      if new_end <? old_end then Shrunk
      else if new_end >? old_end then Expanded
      else Same in
    Ok (mkRange (start r) new_end, change).

Definition FileRange_overlap_with (a b : FileRange) : option OverlapWith :=
  if (start a >=? end_ b) || (end_ a <=? start b) then None
  else Some (
    if (start a <=? start b) && (end_ a <? end_ b) then ToLeft
    else if (start a >? start b) && (end_ a <? end_ b) then InMiddle
    else if (start a >? start b) && (end_ a >=? end_ b) then ToRight
    else Includes).

Definition FileRange_merge (a b : FileRange) : result (FileRange * FileRangeChange) :=
  if (end_ a <? start b) || (end_ b <? start a) then Err EINVAL
  else
    let '(a, change) :=
      if start b <? start a then (mkRange (start b) (end_ a), Expanded) else (a, Same) in
    let '(a, change) :=
      if end_ b >? end_ a then (mkRange (start a) (end_ b), Expanded) else (a, change) in
    Ok (a, change).

(** ** Lock items: [mod.rs] *)

Inductive RangeLockType := ReadLock | WriteLock | Unlock.

#[export] Instance RangeLockType_eq_dec : EqDecision RangeLockType.
Proof. solve_decision. Defined.

(** [RangeLockItem], with the fields of its [RangeLock] inlined; [waitqueue] is the identity of the
    shared [Arc<WaitQueue>]. *)
Record RangeLockItem := mkItem {
  owner : Z;
  pid : Z;
  type_ : RangeLockType;
  range : FileRange;
  waitqueue : nat
}.

Definition set_range (it : RangeLockItem) (r : FileRange) : RangeLockItem :=
  mkItem (owner it) (pid it) (type_ it) r (waitqueue it).

Definition set_type (it : RangeLockItem) (t : RangeLockType) : RangeLockItem :=
  mkItem (owner it) (pid it) t (range it) (waitqueue it).

Definition overlap_with (a b : RangeLockItem) : option OverlapWith :=
  FileRange_overlap_with (range a) (range b).

Definition conflict_with (a b : RangeLockItem) : bool :=
  if owner a =? owner b then false
  else if negb (is_some (overlap_with a b)) then false
  else if bool_decide (type_ a = WriteLock) || bool_decide (type_ b = WriteLock) then true
  else false.

(** [RangeLockItem::merge_with]: [expect] panics on separated ranges. *)
Definition merge_with (it other : RangeLockItem) : run RangeLockItem :=
  '(r, _) ← unwrap_result (FileRange_merge (range it) (range other));
  Ret (set_range it r).

Definition wake_if_shrunk (it : RangeLockItem) (c : FileRangeChange) : list WaitEffect :=
  match c with Shrunk => [WakeAll (waitqueue it)] | _ => [] end.

Definition set_start (it : RangeLockItem) (new_start : Z) : run (RangeLockItem * list WaitEffect) :=
  '(r, change) ← unwrap_result (FileRange_set_start (range it) new_start);
  Ret (set_range it r, wake_if_shrunk it change).

Definition set_end (it : RangeLockItem) (new_end : Z) : run (RangeLockItem * list WaitEffect) :=
  '(r, change) ← unwrap_result (FileRange_set_end (range it) new_end);
  Ret (set_range it r, wake_if_shrunk it change).

(** [Drop for RangeLockItem]. *)
Definition drop_item (it : RangeLockItem) : list WaitEffect := [WakeAll (waitqueue it)].

(** ** The list of locks *)

(** The variables of the loop of [insert_lock_into_list]. *)
Record InsertState := mkIns {
  i_list : list RangeLockItem;
  i_pre : nat;
  i_next : nat;
  i_eff : list WaitEffect
}.

Definition insert_step (s : InsertState) : run (flow InsertState (list RangeLockItem * list WaitEffect)) :=
  let '(mkIns lst pre_idx next_idx eff) := s in
  if (length lst <=? next_idx)%nat then Ret (Break (lst, eff)) else
  pre_lock ← vec_get lst pre_idx;
  next_lock ← vec_get lst next_idx;
  if negb (owner next_lock =? owner pre_lock) then Ret (Break (lst, eff)) else
  if bool_decide (type_ next_lock = type_ pre_lock) then
    if end_ (range pre_lock) <? start (range next_lock) then Ret (Break (lst, eff))
    else if end_ (range next_lock) <? start (range pre_lock) then
      lst ← vec_swap lst pre_idx next_idx;
      Ret (Continue (mkIns lst (S pre_idx) (S next_idx) eff))
    else
      next_lock ← merge_with next_lock pre_lock;
      lst ← vec_set lst next_idx next_lock;
      '(removed, lst) ← vec_remove lst pre_idx;
      Ret (Continue (mkIns lst pre_idx next_idx (eff ++ drop_item removed)))
  else
    if end_ (range pre_lock) <=? start (range next_lock) then Ret (Break (lst, eff))
    else if end_ (range next_lock) <=? start (range pre_lock) then
      lst ← vec_swap lst pre_idx next_idx;
      Ret (Continue (mkIns lst (S pre_idx) (S next_idx) eff))
    else
      overlap ← unwrap (overlap_with pre_lock next_lock);
      match overlap with
      | ToLeft =>
          '(next_lock, e) ← set_start next_lock (end_ (range pre_lock));
          lst ← vec_set lst next_idx next_lock;
          Ret (Break (lst, eff ++ e))
      | InMiddle =>
          '(right_lk, e1) ← set_start next_lock (end_ (range pre_lock));
          '(next_lock, e2) ← set_end next_lock (start (range pre_lock));
          lst ← vec_set lst next_idx next_lock;
          lst ← vec_swap lst pre_idx next_idx;
          lst ← vec_insert lst (S next_idx) right_lk;
          Ret (Break (lst, eff ++ e1 ++ e2))
      | ToRight =>
          '(next_lock, e) ← set_end next_lock (start (range pre_lock));
          lst ← vec_set lst next_idx next_lock;
          lst ← vec_swap lst pre_idx next_idx;
          Ret (Continue (mkIns lst (S pre_idx) (S next_idx) (eff ++ e)))
      | Includes =>
          '(removed, lst) ← vec_remove lst next_idx;
          Ret (Continue (mkIns lst pre_idx next_idx (eff ++ drop_item removed)))
      end.

(** [RangeLockList::insert_lock_into_list].  Every turn of the loop advances [next_idx] or shortens
    the list, so the length of the list bounds the number of turns. *)
Definition insert_lock_into_list (lst : list RangeLockItem) (lock : RangeLockItem)
    : run (list RangeLockItem * list WaitEffect) :=
  match position (fun lk => owner lk =? owner lock) lst with
  | None => Ret (lst ++ [lock], [])
  | Some first_same_owner_idx =>
      lst ← vec_insert lst first_same_owner_idx lock;
      loop (S (length lst)) insert_step
        (mkIns lst first_same_owner_idx (S first_same_owner_idx) [])
  end.

(** [RangeLockList::test_lock]: the answer, and the drop of the request it takes by value. *)
Definition test_lock (lst : list RangeLockItem) (lock : RangeLockItem)
    : RangeLockItem * list WaitEffect :=
  match find_first (conflict_with lock) lst with
  | Some existing_lock =>
      (mkItem (owner existing_lock) (pid existing_lock) (type_ existing_lock)
         (range existing_lock) (waitqueue lock), drop_item lock)
  | None => (set_type lock Unlock, drop_item lock)
  end.

(** [RangeLockList::try_set_lock]: the new list, the calls on wait queues and the result. *)
Definition try_set_lock (lst : list RangeLockItem) (req_lock : RangeLockItem) (waker : option nat)
    : run (list RangeLockItem * list WaitEffect * result unit) :=
  match find_first (conflict_with req_lock) lst with
  | Some conflict_lock =>
      let eff := match waker with Some w => [Enqueue (waitqueue conflict_lock) w] | None => [] end in
      Ret (lst, eff, Err EAGAIN)
  | None =>
      '(lst, eff) ← insert_lock_into_list lst req_lock;
      Ret (lst, eff, Ok tt)
  end.

(** The closure that [set_lock] passes to [pause_until] when it blocks: [None] goes back to sleep. *)
Definition set_lock_attempt (lst : list RangeLockItem) (req_lock : RangeLockItem) (waker : nat)
    : run (list RangeLockItem * list WaitEffect * option (result unit)) :=
  '(lst, eff, res) ← try_set_lock lst req_lock (Some waker);
  Ret (lst, eff, match res with Err EAGAIN => None | _ => Some res end).

(** The variables of the loop of [RangeLockList::unlock]. *)
Record UnlockState := mkUnl {
  u_list : list RangeLockItem;
  u_skipped : nat;
  u_eff : list WaitEffect
}.

Definition unlock_step (lock : RangeLockItem) (s : UnlockState)
    : run (flow UnlockState (list RangeLockItem * list WaitEffect)) :=
  let '(mkUnl lst skipped eff) := s in
  match position (fun lk => owner lk =? owner lock) (drop skipped lst) with
  | None => Ret (Break (lst, eff))
  | Some idx =>
      let idx := (idx + skipped)%nat in
      existing_lock ← vec_get lst idx;
      match overlap_with lock existing_lock with
      | None => Ret (Continue (mkUnl lst (S idx) eff))
      | Some ToLeft =>
          '(existing_lock, e) ← set_start existing_lock (end_ (range lock));
          lst ← vec_set lst idx existing_lock;
          Ret (Break (lst, eff ++ e))
      | Some InMiddle =>
          '(right_lk, e1) ← set_start existing_lock (end_ (range lock));
          '(existing_lock, e2) ← set_end existing_lock (start (range lock));
          lst ← vec_set lst idx existing_lock;
          lst ← vec_insert lst (S idx) right_lk;
          Ret (Break (lst, eff ++ e1 ++ e2))
      | Some ToRight =>
          '(existing_lock, e) ← set_end existing_lock (start (range lock));
          lst ← vec_set lst idx existing_lock;
          Ret (Continue (mkUnl lst (S idx) (eff ++ e)))
      | Some Includes =>
          '(removed, lst) ← vec_remove lst idx;
          Ret (Continue (mkUnl lst idx (eff ++ drop_item removed)))
      end
  end.

(** [RangeLockList::unlock]. *)
Definition unlock (lst : list RangeLockItem) (lock : RangeLockItem)
    : run (list RangeLockItem * list WaitEffect) :=
  loop (S (length lst)) (unlock_step lock) (mkUnl lst 0 []).

(** [RangeLockList::unlock_all]: the items that [retain] removes are dropped. *)
Definition unlock_all (lst : list RangeLockItem) (o : Z) : list RangeLockItem * list WaitEffect :=
  (filter (fun lk => owner lk <> o) lst,
   concat (drop_item <$> filter (fun lk => owner lk = o) lst)).

(** ** The insertion and the release by recursion on the list *)

Definition trim_left (it : RangeLockItem) (x : Z) : RangeLockItem :=
  set_range it (mkRange x (end_ (range it))).
Definition trim_right (it : RangeLockItem) (x : Z) : RangeLockItem :=
  set_range it (mkRange (start (range it)) x).
Definition hull (it other : RangeLockItem) : RangeLockItem :=
  set_range it (mkRange (Z.min (start (range it)) (start (range other)))
                        (Z.max (end_ (range it)) (end_ (range other)))).
Definition wake (it : RangeLockItem) : WaitEffect := WakeAll (waitqueue it).

Fixpoint place (pre : RangeLockItem) (rest : list RangeLockItem)
    : list RangeLockItem * list WaitEffect :=
  match rest with
  | [] => ([pre], [])
  | next :: rest' =>
      if negb (owner next =? owner pre) then (pre :: rest, [])
      else if bool_decide (type_ next = type_ pre) then
        if end_ (range pre) <? start (range next) then (pre :: rest, [])
        else if end_ (range next) <? start (range pre) then
          let '(l, e) := place pre rest' in (next :: l, e)
        else
          let '(l, e) := place (hull next pre) rest' in (l, wake pre :: e)
      else if end_ (range pre) <=? start (range next) then (pre :: rest, [])
      else if end_ (range next) <=? start (range pre) then
        let '(l, e) := place pre rest' in (next :: l, e)
      else if start (range pre) <=? start (range next) then
        if end_ (range pre) <? end_ (range next) then
          (pre :: trim_left next (end_ (range pre)) :: rest', [wake next])
        else
          let '(l, e) := place pre rest' in (l, wake next :: e)
      else
        if end_ (range pre) <? end_ (range next) then
          (trim_right next (start (range pre)) :: pre :: trim_left next (end_ (range pre)) :: rest',
           [wake next; wake next])
        else
          let '(l, e) := place pre rest' in
          (trim_right next (start (range pre)) :: l, wake next :: e)
  end.

Fixpoint release (lock : RangeLockItem) (l : list RangeLockItem)
    : list RangeLockItem * list WaitEffect :=
  match l with
  | [] => ([], [])
  | it :: l' =>
      if negb (owner it =? owner lock) then let '(l, e) := release lock l' in (it :: l, e)
      else if (end_ (range it) <=? start (range lock)) || (end_ (range lock) <=? start (range it)) then
        let '(l, e) := release lock l' in (it :: l, e)
      else if start (range lock) <=? start (range it) then
        if end_ (range lock) <? end_ (range it) then
          (trim_left it (end_ (range lock)) :: l', [wake it])
        else
          let '(l, e) := release lock l' in (l, wake it :: e)
      else
        if end_ (range lock) <? end_ (range it) then
          (trim_right it (start (range lock)) :: trim_left it (end_ (range lock)) :: l',
           [wake it; wake it])
        else
          let '(l, e) := release lock l' in
          (trim_right it (start (range lock)) :: l, wake it :: e)
  end.

(** ** Well-formed lists and their meaning *)

Definition valid (it : RangeLockItem) : Prop := start (range it) < end_ (range it).

(** Locks of one owner are ordered and disjoint, with a gap when they have the same type. *)
Definition before (a b : RangeLockItem) : Prop :=
  owner a = owner b ->
  end_ (range a) <= start (range b) /\
  (type_ a = type_ b -> end_ (range a) < start (range b)).

(** The locks of an owner are contiguous in the list. *)
Fixpoint grouped (ks : list Z) : Prop :=
  match ks with
  | [] => True
  | k :: ks' => (head ks' = Some k \/ k ∉ ks') /\ grouped ks'
  end.

Definition wf (l : list RangeLockItem) : Prop :=
  Forall valid l /\ grouped (owner <$> l) /\ StronglySorted before l.

Definition holds (it : RangeLockItem) (o x : Z) : bool :=
  (owner it =? o) && (start (range it) <=? x) && (x <? end_ (range it)).

(** The lock that owner [o] holds on byte [x]. *)
Definition lock_at (l : list RangeLockItem) (o x : Z) : option RangeLockType :=
  type_ <$> find_first (fun it => holds it o x) l.

(** ** Equivalence of the index loops with the recursive definitions *)

Lemma merge_touching a b :
  start (range b) <= end_ (range a) -> start (range a) <= end_ (range b) ->
  merge_with a b = Ret (hull a b).
Proof.
  intros H1 H2. unfold merge_with, FileRange_merge, hull.
  case_cond; [lia|].
  destruct (start (range b) <? start (range a)) eqn:E1, (range a) as [sa ea], (range b) as [sb eb];
    simpl in *; boolify;
    destruct (eb >? ea) eqn:E2; simpl; boolify; do 3 f_equal; lia.
Qed.

Lemma set_start_inside it x :
  start (range it) < x < end_ (range it) -> set_start it x = Ret (trim_left it x, [wake it]).
Proof.
  intros H. unfold set_start, FileRange_set_start. case_cond; [lia|]. simpl.
  case_cond; [done|lia].
Qed.

Lemma set_end_inside it x :
  start (range it) < x < end_ (range it) -> set_end it x = Ret (trim_right it x, [wake it]).
Proof.
  intros H. unfold set_end, FileRange_set_end. case_cond; [lia|]. simpl.
  case_cond; [done|lia].
Qed.

Lemma valid_hull a b : valid a -> valid b -> valid (hull a b).
Proof. unfold valid, hull. simpl. lia. Qed.

(** The overlap of two valid items that meet, by the position of their ends. *)
Lemma overlap_meet a b :
  start (range a) < end_ (range b) -> start (range b) < end_ (range a) ->
  overlap_with a b = Some (
    if start (range a) <=? start (range b)
    then if end_ (range a) <? end_ (range b) then ToLeft else Includes
    else if end_ (range a) <? end_ (range b) then InMiddle else ToRight).
Proof.
  intros H1 H2. unfold overlap_with, FileRange_overlap_with. rewrite !Z.geb_leb, !Z.gtb_ltb.
  repeat (case_cond; try lia); done.
Qed.

Lemma overlap_apart a b :
  end_ (range b) <= start (range a) \/ end_ (range a) <= start (range b) ->
  overlap_with a b = None.
Proof.
  intros H. unfold overlap_with, FileRange_overlap_with. rewrite Z.geb_leb.
  case_cond; [done|lia].
Qed.

Lemma app_cons_assoc {A} (l : list A) x k : l ++ x :: k = (l ++ [x]) ++ k.
Proof. by rewrite <- app_assoc. Qed.

Lemma length_snoc {A} (l : list A) x : length (l ++ [x]) = S (length l).
Proof. rewrite length_app. simpl. lia. Qed.

Lemma drop_app_S {A} (l : list A) x k : drop (S (length l)) (l ++ x :: k) = k.
Proof. rewrite app_cons_assoc, <- (length_snoc l x). apply drop_app_length. Qed.

(** One turn of the loop, on the list around [pre_idx]. *)
Lemma insert_step_eq A pre next rest eff :
  valid pre -> valid next ->
  insert_step (mkIns (A ++ pre :: next :: rest) (length A) (S (length A)) eff) =
  Ret (
    let stop := Break (A ++ pre :: next :: rest, eff) in
    let skip := Continue (mkIns (A ++ next :: pre :: rest) (S (length A)) (S (S (length A))) eff) in
    if negb (owner next =? owner pre) then stop
    else if bool_decide (type_ next = type_ pre) then
      if end_ (range pre) <? start (range next) then stop
      else if end_ (range next) <? start (range pre) then skip
      else Continue (mkIns (A ++ hull next pre :: rest) (length A) (S (length A)) (eff ++ [wake pre]))
    else if end_ (range pre) <=? start (range next) then stop
    else if end_ (range next) <=? start (range pre) then skip
    else if start (range pre) <=? start (range next) then
      if end_ (range pre) <? end_ (range next) then
        Break (A ++ pre :: trim_left next (end_ (range pre)) :: rest, eff ++ [wake next])
      else
        Continue (mkIns (A ++ pre :: rest) (length A) (S (length A)) (eff ++ [wake next]))
    else
      if end_ (range pre) <? end_ (range next) then
        Break (A ++ trim_right next (start (range pre)) :: pre ::
                 trim_left next (end_ (range pre)) :: rest, eff ++ [wake next; wake next])
      else
        Continue (mkIns (A ++ trim_right next (start (range pre)) :: pre :: rest)
                    (S (length A)) (S (S (length A))) (eff ++ [wake next]))).
Proof.
  unfold valid. intros Hp Hn. unfold insert_step.
  destruct (Nat.leb_spec (length (A ++ pre :: next :: rest)) (S (length A))) as [Hlen|_].
  { rewrite length_app in Hlen. simpl in Hlen. lia. }
  rewrite vec_get_app, vec_get_app_S. simpl.
  case_cond; [done|]. case_cond.
  - case_cond; [done|]. case_cond; [by rewrite vec_swap_app|].
    rewrite merge_touching by lia. simpl. rewrite vec_set_app_S. simpl. by rewrite vec_remove_app.
  - case_cond; [done|]. case_cond; [by rewrite vec_swap_app|].
    rewrite overlap_meet by lia. simpl. case_cond; case_cond.
    + rewrite set_start_inside by lia. simpl. by rewrite vec_set_app_S.
    + by rewrite vec_remove_app_S.
    + rewrite set_start_inside, set_end_inside by lia. simpl.
      rewrite vec_set_app_S. simpl. rewrite vec_swap_app. simpl.
      replace (S (S (length A))) with (length (A ++ [trim_right next (start (range pre)); pre]))
        by (rewrite length_app; simpl; lia).
      rewrite (app_assoc A [_; _] rest : A ++ _ :: _ :: rest = _). rewrite vec_insert_app. simpl.
      by rewrite <- app_assoc.
    + rewrite set_end_inside by lia. simpl. rewrite vec_set_app_S. simpl. by rewrite vec_swap_app.
Qed.

Lemma insert_loop_place rest A pre eff fuel :
  valid pre -> Forall valid rest -> (length rest < fuel)%nat ->
  loop fuel insert_step (mkIns (A ++ pre :: rest) (length A) (S (length A)) eff) =
  Ret (A ++ fst (place pre rest), eff ++ snd (place pre rest)).
Proof.
  revert A pre eff fuel. induction rest as [|next rest IH]; intros A pre eff [|fuel] Hp Hr Hf;
    simpl in Hf; try lia.
  - simpl. rewrite length_app. simpl.
    destruct (Nat.leb_spec (length A + 1) (S (length A))); [|lia]. by rewrite app_nil_r.
  - inversion Hr as [|?? Hn Hr']; subst. cbn [loop]. rewrite insert_step_eq by done. cbn [place].
    assert (forall B x e, loop fuel insert_step
      (mkIns (B ++ x :: pre :: rest) (S (length B)) (S (S (length B))) e) =
      Ret (B ++ x :: fst (place pre rest), e ++ snd (place pre rest))) as Hskip.
    { intros B x e. rewrite (app_cons_assoc B x (pre :: rest)), <- (length_snoc B x).
      rewrite IH by (done || lia). by rewrite <- app_assoc. }
    destruct (place pre rest) as [l e] eqn:El. destruct (place (hull next pre) rest) as [l' e'] eqn:El'.
    simpl. repeat case_cond; simpl; rewrite ?Hskip, ?app_nil_r; try done.
    all: try by rewrite <- app_assoc.
    all: rewrite IH by (done || lia || by apply valid_hull); rewrite ?El, ?El'; simpl; by rewrite <- app_assoc.
Qed.

(** [insert_lock_into_list] puts the lock in front of its owner's locks and sorts it in. *)
Lemma insert_lock_into_list_eq l lock :
  valid lock -> Forall valid l ->
  insert_lock_into_list l lock = Ret (
    match position (fun lk => owner lk =? owner lock) l with
    | None => (l ++ [lock], [])
    | Some i => (take i l ++ fst (place lock (drop i l)), snd (place lock (drop i l)))
    end).
Proof.
  intros Hv Hl. unfold insert_lock_into_list.
  destruct (position _ l) as [i|] eqn:Ei; [|done].
  apply position_Some in Ei as (A & x & B & -> & <- & _ & _).
  rewrite take_app_length, drop_app_length, vec_insert_app. cbn [mbind run_bind].
  apply Forall_app in Hl as [_ HB]. rewrite insert_loop_place; [done..|].
  rewrite length_app. simpl. lia.
Qed.

(** One turn of the release loop depends only on the locks after the skipped ones. *)
Lemma unlock_step_skip lock A it l eff :
  owner it <> owner lock ->
  unlock_step lock (mkUnl (A ++ it :: l) (length A) eff) =
  unlock_step lock (mkUnl (A ++ it :: l) (S (length A)) eff).
Proof.
  intros Ho. unfold unlock_step. rewrite drop_app_length.
  rewrite drop_app_S. simpl. destruct (Z.eqb_spec (owner it) (owner lock)); [done|].
  destruct (position _ l) as [i|]; simpl; [|done].
  by replace (S (i + length A)) with (i + S (length A))%nat by lia.
Qed.

Lemma unlock_step_eq lock A it l eff :
  valid lock -> valid it -> owner it = owner lock ->
  unlock_step lock (mkUnl (A ++ it :: l) (length A) eff) = Ret (
    if (end_ (range it) <=? start (range lock)) || (end_ (range lock) <=? start (range it)) then
      Continue (mkUnl (A ++ it :: l) (S (length A)) eff)
    else if start (range lock) <=? start (range it) then
      if end_ (range lock) <? end_ (range it) then
        Break (A ++ trim_left it (end_ (range lock)) :: l, eff ++ [wake it])
      else Continue (mkUnl (A ++ l) (length A) (eff ++ [wake it]))
    else
      if end_ (range lock) <? end_ (range it) then
        Break (A ++ trim_right it (start (range lock)) :: trim_left it (end_ (range lock)) :: l,
               eff ++ [wake it; wake it])
      else Continue (mkUnl (A ++ trim_right it (start (range lock)) :: l) (S (length A))
                       (eff ++ [wake it]))).
Proof.
  unfold valid. intros Hl Hi Ho. unfold unlock_step. rewrite drop_app_length. simpl.
  rewrite (proj2 (Z.eqb_eq _ _) Ho). simpl. rewrite vec_get_app. simpl.
  destruct ((_ <=? _) || _) eqn:E; boolify.
  { rewrite overlap_apart by lia. done. }
  rewrite overlap_meet by lia. case_cond; case_cond.
  - rewrite set_start_inside by lia. simpl. by rewrite vec_set_app.
  - by rewrite vec_remove_app.
  - rewrite set_start_inside, set_end_inside by lia. simpl. rewrite vec_set_app. simpl.
    rewrite (app_cons_assoc A (trim_right _ _) l), <- (length_snoc A (trim_right it (start (range lock)))).
    rewrite vec_insert_app. simpl. by rewrite <- app_assoc.
  - rewrite set_end_inside by lia. simpl. by rewrite vec_set_app.
Qed.

Lemma unlock_loop_release l A lock eff fuel :
  valid lock -> Forall valid l -> (length l < fuel)%nat ->
  loop fuel (unlock_step lock) (mkUnl (A ++ l) (length A) eff) =
  Ret (A ++ fst (release lock l), eff ++ snd (release lock l)).
Proof.
  revert A eff fuel. induction l as [|it l IH]; intros A eff [|fuel] Hv Hl Hf; simpl in Hf; try lia.
  - simpl. rewrite drop_app_length. simpl. by rewrite !app_nil_r.
  - inversion Hl as [|?? Hi Hl']; subst. cbn [release].
    assert (forall x e f, (length l < f)%nat ->
      loop f (unlock_step lock) (mkUnl (A ++ x :: l) (S (length A)) e) =
      Ret (A ++ x :: fst (release lock l), e ++ snd (release lock l))) as Hskip.
    { intros x e f ?. rewrite (app_cons_assoc A x l), <- (length_snoc A x).
      rewrite IH by (done || lia). by rewrite <- app_assoc. }
    destruct (decide (owner it = owner lock)) as [Ho|Ho].
    + cbn [loop]. rewrite unlock_step_eq by done. rewrite (proj2 (Z.eqb_eq _ _) Ho). cbn [negb].
      destruct (release lock l) as [l' e'] eqn:Er.
      repeat case_cond; simpl; rewrite ?Hskip by lia; try done; try by rewrite <- app_assoc.
      rewrite IH by (done || lia). by rewrite <- app_assoc.
    + rewrite (proj2 (Z.eqb_neq _ _) Ho). cbn [negb loop]. rewrite unlock_step_skip by done.
      specialize (Hskip it eff (S fuel)). cbn [loop] in Hskip. rewrite Hskip by lia.
      by destruct (release lock l).
Qed.

Lemma unlock_eq l lock :
  valid lock -> Forall valid l -> unlock l lock = Ret (release lock l).
Proof.
  intros Hv Hl. unfold unlock. rewrite (unlock_loop_release l []) by (done || lia).
  by destruct (release lock l).
Qed.

(** ** Meaning of the insertion and the release *)

Lemma lock_at_cons it l o x :
  lock_at (it :: l) o x = if holds it o x then Some (type_ it) else lock_at l o x.
Proof. unfold lock_at. simpl. by destruct (holds it o x). Qed.

Lemma lock_at_app_other A l o x :
  Forall (fun it => owner it <> o) A -> lock_at (A ++ l) o x = lock_at l o x.
Proof.
  induction 1 as [|it A Hit HA IH]; [done|]. simpl. rewrite lock_at_cons, IH.
  unfold holds. by rewrite (proj2 (Z.eqb_neq _ _) Hit).
Qed.

Lemma lock_at_app_congr A l l' o x :
  lock_at l o x = lock_at l' o x -> lock_at (A ++ l) o x = lock_at (A ++ l') o x.
Proof. intros H. induction A as [|it A IH]; [done|]. simpl. by rewrite !lock_at_cons, IH. Qed.

Lemma lock_at_Some l o x t :
  lock_at l o x = Some t -> exists it, it ∈ l /\ holds it o x = true /\ type_ it = t.
Proof.
  unfold lock_at. intros (it & Hf & ->)%fmap_Some. apply find_first_Some in Hf as [? ?]. eauto.
Qed.

Lemma lock_at_None l o x :
  lock_at l o x = None <-> Forall (fun it => holds it o x = false) l.
Proof. unfold lock_at. by rewrite fmap_None, find_first_None. Qed.

(** Decides the byte tests of the goal after unfolding them to comparisons. *)
Ltac bytes :=
  unfold holds in *; simpl in *;
  repeat match goal with
  | |- context [?a =? ?b] => destruct (Z.eqb_spec a b); simpl
  | |- context [?a <=? ?b] => destruct (Z.leb_spec a b); simpl
  | |- context [?a <? ?b] => destruct (Z.ltb_spec a b); simpl
  end; try done; try lia; try congruence.

Lemma lock_at_place pre rest o x :
  lock_at (fst (place pre rest)) o x = lock_at (pre :: rest) o x.
Proof.
  revert pre. induction rest as [|next rest IH]; intros pre; [done|]. cbn [place].
  pose proof (IH pre) as IH1. pose proof (IH (hull next pre)) as IH2. clear IH.
  destruct (place pre rest) as [l1 e1], (place (hull next pre) rest) as [l2 e2]. simpl fst in *.
  case_cond; [done|]. case_cond; [case_cond; [done|case_cond]|].
  - simpl. rewrite lock_at_cons, IH1, !lock_at_cons. clear IH1 IH2. bytes.
  - simpl. rewrite IH2, !lock_at_cons. clear IH1 IH2. bytes.
  - repeat case_cond; simpl; rewrite ?lock_at_cons, ?IH1, ?lock_at_cons; clear IH1 IH2; try done; bytes.
Qed.

(** ** Well-formedness *)

Definition owned (o : Z) (it : RangeLockItem) : Prop := owner it = o.
Definition not_owned (o : Z) (it : RangeLockItem) : Prop := owner it <> o.

Lemma grouped_tail_out k ks : grouped (k :: ks) -> head ks <> Some k -> k ∉ ks.
Proof. simpl. intuition. Qed.

(** A list with contiguous owners splits around any owner it contains. *)
Lemma group_split o x B :
  grouped (owner <$> x :: B) -> owner x = o ->
  exists G C, x :: B = G ++ C /\ G <> [] /\ Forall (owned o) G /\ Forall (not_owned o) C.
Proof.
  revert x. induction B as [|y B IH]; intros x Hg Hx.
  - exists [x], []. split_and!; [done..|by repeat constructor|constructor].
  - destruct (decide (owner y = o)) as [Hy|Hy].
    + destruct (IH y) as (G & C & E & HG & HGo & HC); [apply Hg|done|].
      exists (x :: G), C. rewrite E. split_and!; [done..|by constructor|done].
    + exists [x], (y :: B). split_and!; [done..|by repeat constructor|].
      assert (owner x ∉ owner <$> y :: B) as Hn.
      { apply (grouped_tail_out _ _ Hg). simpl. congruence. }
      apply Forall_forall. intros z Hz Ho. apply Hn, list_elem_of_fmap. exists z.
      split; [congruence|done].
Qed.

Lemma grouped_app_inv ks1 ks2 : grouped (ks1 ++ ks2) -> grouped ks2.
Proof. induction ks1; simpl; naive_solver. Qed.

Lemma grouped_replicate n k ks : k ∉ ks -> grouped ks -> grouped (replicate n k ++ ks).
Proof.
  intros Hk Hks. induction n as [|[|n] IH]; simpl in *; [done| |]; split; auto.
Qed.

(** Resizing the block of one owner keeps the others contiguous. *)
Lemma grouped_block As n m k Bs :
  k ∉ As -> k ∉ Bs -> grouped (As ++ replicate (S n) k ++ Bs) ->
  grouped (As ++ replicate m k ++ Bs).
Proof.
  intros HA HB. induction As as [|a As IH]; simpl.
  - intros [_ Hg]. apply grouped_replicate; [done|]. by apply grouped_app_inv in Hg.
  - rewrite not_elem_of_cons in HA. destruct HA as [Hne HA]. intros [Hh Hg].
    split; [|by apply IH]. destruct As as [|b As]; simpl in *.
    + right. destruct Hh as [Hh|Hh]; [congruence|].
      rewrite elem_of_app, elem_of_replicate. rewrite elem_of_cons, elem_of_app in Hh. naive_solver.
    + destruct Hh as [Hh|Hh]; [by left|right].
      rewrite elem_of_cons, !elem_of_app, elem_of_replicate in *. simpl in Hh.
      rewrite elem_of_cons, elem_of_app in Hh. naive_solver.
Qed.

Lemma fmap_owned o G : Forall (owned o) G -> owner <$> G = replicate (length G) o.
Proof.
  induction 1 as [|x G Hx HG IH]; simpl; [done|]. unfold owned in Hx. by rewrite Hx, <- IH.
Qed.

Lemma fmap_not_owned o A : Forall (not_owned o) A -> o ∉ owner <$> A.
Proof.
  intros HA (it & -> & Hit)%list_elem_of_fmap. rewrite Forall_forall in HA. by apply (HA it).
Qed.

Lemma before_other o a b : not_owned o a -> owned o b -> before a b.
Proof. unfold before, owned, not_owned. congruence. Qed.
Lemma before_other' o a b : owned o a -> not_owned o b -> before a b.
Proof. unfold before, owned, not_owned. congruence. Qed.

(** Replacing the locks of one owner by a sorted list of valid locks keeps the list well formed. *)
Lemma wf_replace_group A G G' B o :
  wf (A ++ G ++ B) -> G <> [] ->
  Forall (not_owned o) A -> Forall (owned o) G -> Forall (not_owned o) B ->
  Forall (owned o) G' -> Forall valid G' -> StronglySorted before G' ->
  wf (A ++ G' ++ B).
Proof.
  intros (Hv & Hg & Hs) HG HA HGo HB HG'o HG'v HG's.
  rewrite !Forall_app in Hv. destruct Hv as (HvA & _ & HvB).
  split_and!.
  - by rewrite !Forall_app.
  - rewrite !fmap_app, (fmap_owned o G') by done.
    rewrite !fmap_app, (fmap_owned o G) in Hg by done.
    destruct G as [|g G]; [done|].
    apply (grouped_block _ (length G)); eauto using fmap_not_owned.
  - apply StronglySorted_app in Hs as (HAB & HsA & (HGB & _ & HsB)%StronglySorted_app).
    rewrite Forall_forall in HA, HB, HG'o.
    apply StronglySorted_app. split_and!; [|done|apply StronglySorted_app; split_and!; [|done|done]].
    + intros a b Ha [Hb|Hb]%elem_of_app; [eauto using before_other|].
      apply HAB; [done|]. apply elem_of_app. auto.
    + intros a b Ha Hb. eauto using before_other'.
Qed.

Lemma place_group pre G B :
  Forall (owned (owner pre)) G -> Forall (not_owned (owner pre)) B ->
  place pre (G ++ B) = (fst (place pre G) ++ B, snd (place pre G)).
Proof.
  intros HG HB. revert pre HG HB. induction G as [|next G IH]; intros pre HG HB; simpl.
  - destruct B as [|b B]; [done|]. inversion HB as [|?? Hb]; subst. simpl.
    by rewrite (proj2 (Z.eqb_neq _ _) Hb).
  - inversion HG as [|?? Ho HG']; subst. unfold owned in Ho.
    rewrite IH by done. rewrite (IH (hull next pre)) by (simpl; by rewrite Ho).
    destruct (place pre G), (place (hull next pre) G). simpl. by repeat case_cond.
Qed.

Lemma place_valid pre rest :
  valid pre -> Forall valid rest -> Forall valid (fst (place pre rest)).
Proof.
  revert pre. induction rest as [|next rest IH]; intros pre Hp Hr; simpl; [by constructor|].
  inversion Hr as [|?? Hn Hr']; subst. pose proof (IH pre Hp Hr') as IH1.
  pose proof (IH (hull next pre) (valid_hull _ _ Hn Hp) Hr') as IH2.
  destruct (place pre rest), (place (hull next pre) rest). simpl in *.
  repeat case_cond; simpl; repeat constructor; auto; unfold valid in *; simpl in *; lia.
Qed.

Lemma place_owned pre rest :
  Forall (owned (owner pre)) rest -> Forall (owned (owner pre)) (fst (place pre rest)).
Proof.
  revert pre. induction rest as [|next rest IH]; intros pre Hr; simpl; [by repeat constructor|].
  inversion Hr as [|?? Hn Hr']; subst. pose proof (IH pre Hr') as IH1.
  pose proof (IH (hull next pre)) as IH2. simpl in IH2. unfold owned in Hn. rewrite Hn in IH2.
  specialize (IH2 Hr').
  destruct (place pre rest), (place (hull next pre) rest). simpl in *.
  repeat case_cond; simpl; repeat constructor; auto.
Qed.

Lemma place_before a pre rest :
  before a pre -> Forall (before a) rest -> Forall valid (pre :: rest) ->
  Forall (before a) (fst (place pre rest)).
Proof.
  revert pre. induction rest as [|next rest IH]; intros pre Hp Hr Hv; simpl; [by constructor|].
  inversion Hr as [|?? Hn Hr']; subst. inversion Hv as [|?? Hvp Hv']; subst.
  inversion Hv' as [|?? Hvn Hvr]; subst.
  assert (Forall (before a) (fst (place pre rest))) as IH1 by (apply IH; auto).
  assert (owner next = owner pre -> type_ next = type_ pre ->
    Forall (before a) (fst (place (hull next pre) rest))) as IH2.
  { intros Ho Ht. apply IH; [|done|constructor; [by apply valid_hull|done]].
    unfold before in *. simpl. rewrite Ho, Ht in *. intuition lia. }
  destruct (place pre rest), (place (hull next pre) rest). simpl in *.
  repeat case_cond; simpl; repeat constructor; auto; unfold before, valid in *; simpl in *;
    intuition lia.
Qed.

Lemma before_trans_same a b c :
  owner a = owner b -> valid b -> before a b -> before b c -> before a c.
Proof.
  unfold before, valid. intros Hab Hv H1 H2 Hac. specialize (H1 Hab).
  rewrite Hab in Hac. specialize (H2 Hac). intuition lia.
Qed.

(** What is left of a lock after trimming stays ordered with the locks behind it. *)
Lemma trim_left_before it x c : before it c -> before (trim_left it x) c.
Proof. done. Qed.

Lemma trim_right_before it x c :
  x < end_ (range it) -> before it c -> before (trim_right it x) c.
Proof. unfold before. simpl. intuition lia. Qed.

Lemma place_sorted pre G :
  Forall (owned (owner pre)) G -> Forall valid (pre :: G) -> StronglySorted before G ->
  StronglySorted before (fst (place pre G)).
Proof.
  revert pre. induction G as [|next G IH]; intros pre HG Hv Hs; simpl; [by repeat constructor|].
  inversion HG as [|?? Ho HG']; subst. inversion Hv as [|?? Hvp Hv']; subst.
  inversion Hv' as [|?? Hvn HvG]; subst. inversion Hs as [|?? Hs' Hnx]; subst. unfold owned in Ho.
  assert (StronglySorted before (fst (place pre G))) as IH1 by (apply IH; auto).
  assert (type_ next = type_ pre -> StronglySorted before (fst (place (hull next pre) G))) as IH2.
  { intros Ht. apply IH; simpl; [by rewrite Ho|constructor; [by apply valid_hull|done]|done]. }
  assert (forall a, before a pre -> Forall (before a) G ->
    Forall (before a) (fst (place pre G))) as Hlow by (intros; apply place_before; auto).
  assert (forall b, owner b = owner pre -> valid b -> before pre b -> Forall (before b) G ->
    Forall (before pre) (b :: G)) as Hhigh.
  { intros b Hob Hvb Hb Hbs. constructor; [done|]. eapply Forall_impl; [exact Hbs|].
    intros c Hc. by apply (before_trans_same pre b c). }
  assert (forall x, x < end_ (range next) -> Forall (before (trim_right next x)) G) as Htr.
  { intros x Hx. eapply Forall_impl; [exact Hnx|]. intros c. by apply trim_right_before. }
  destruct (place pre G) as [l e], (place (hull next pre) G) as [l' e']. simpl in *.
  unfold valid in *. case_cond; [done|]. case_cond; [case_cond|]; [|case_cond|].
  - constructor; [done|]. apply Hhigh; auto. unfold before. intuition lia.
  - constructor; [done|]. apply Hlow; auto. unfold before. intuition lia.
  - auto.
  - assert (type_ pre <> type_ next) by congruence. repeat case_cond; simpl; try done.
    + constructor; [done|]. apply Hhigh; auto. unfold before. intuition lia.
    + constructor; [done|]. apply Hlow; auto. unfold before. intuition (lia || congruence).
    + constructor; [by constructor|]. apply Hhigh; auto; unfold before; simpl; intuition lia.
    + constructor; [constructor; [by constructor|]|].
      * apply Hhigh; auto; unfold before; simpl; intuition lia.
      * constructor; [unfold before; simpl; intuition (lia || congruence)|].
        constructor; [unfold before; simpl; lia|]. apply Htr. lia.
    + constructor; [done|]. apply Hlow; [|apply Htr; lia].
      unfold before; simpl; intuition (lia || congruence).
Qed.

Lemma wf_insert l lock l' eff :
  wf l -> valid lock -> insert_lock_into_list l lock = Ret (l', eff) -> wf l'.
Proof.
  intros Hwf Hv. rewrite insert_lock_into_list_eq by (done || apply Hwf).
  destruct (position _ l) as [i|] eqn:Ei; intros [= <- <-].
  - apply position_Some in Ei as (A & x & B & -> & <- & Hx & HA). boolify.
    rewrite take_app_length, drop_app_length.
    pose proof Hwf as (_ & Hg & _). rewrite fmap_app in Hg. apply grouped_app_inv in Hg.
    destruct (group_split (owner lock) x B Hg Hx) as (G & C & E & HG & HGo & HC).
    rewrite E in *. rewrite place_group by done. simpl.
    pose proof Hwf as (HvA & _ & HsA). rewrite !Forall_app in HvA. destruct HvA as (_ & HvG & _).
    apply StronglySorted_app in HsA as (_ & _ & (_ & HsG & _)%StronglySorted_app).
    apply (wf_replace_group A G _ C (owner lock)); auto using place_owned, place_valid, place_sorted.
    eapply Forall_impl; [exact HA|]. intros y Hy. by apply Z.eqb_neq.
  - apply position_None in Ei. destruct Hwf as (Hvs & Hg & Hs).
    assert (Forall (not_owned (owner lock)) l) as Hno.
    { eapply Forall_impl; [exact Ei|]. intros y Hy. by apply Z.eqb_neq. }
    split_and!.
    + apply Forall_app. auto.
    + rewrite fmap_app. apply fmap_not_owned in Hno. simpl. revert Hg Hno. clear.
      induction (owner <$> l) as [|k ks IH]; simpl; [intros; split; [right; set_solver|done]|].
      intros [Hh Hg] Hno. split; [|apply IH; set_solver].
      destruct ks as [|k' ks]; simpl in *; [right; set_solver|].
      destruct Hh as [?|Hh]; [by left|right; set_solver].
    + apply StronglySorted_app. split_and!; [|done|by repeat constructor].
      intros a b Ha Hb%list_elem_of_singleton. subst b. rewrite Forall_forall in Hno.
      apply (before_other (owner lock)); [auto|done].
Qed.

(** ** The release *)

Lemma release_other lock B : Forall (not_owned (owner lock)) B -> release lock B = (B, []).
Proof.
  induction 1 as [|b B Hb HB IH]; [done|]. simpl. rewrite IH.
  by rewrite (proj2 (Z.eqb_neq _ _) Hb).
Qed.

Lemma release_app_other lock A l :
  Forall (not_owned (owner lock)) A ->
  release lock (A ++ l) = (A ++ fst (release lock l), snd (release lock l)).
Proof.
  induction 1 as [|a A Ha HA IH]; simpl; [by destruct (release lock l)|].
  rewrite IH. by rewrite (proj2 (Z.eqb_neq _ _) Ha).
Qed.

Lemma release_group lock G B :
  Forall (not_owned (owner lock)) B ->
  release lock (G ++ B) = (fst (release lock G) ++ B, snd (release lock G)).
Proof.
  intros HB. induction G as [|it G IH]; simpl; [by rewrite release_other|].
  rewrite IH. destruct (release lock G). simpl. by repeat case_cond.
Qed.

Lemma release_valid lock l :
  valid lock -> Forall valid l -> Forall valid (fst (release lock l)).
Proof.
  intros Hk. induction 1 as [|it l Hi Hl IH]; simpl; [done|].
  destruct (release lock l). simpl in *.
  repeat case_cond; simpl; repeat constructor; auto; unfold valid in *; simpl in *; lia.
Qed.

Lemma release_owned lock G :
  Forall (owned (owner lock)) G -> Forall (owned (owner lock)) (fst (release lock G)).
Proof.
  induction 1 as [|it l Hi Hl IH]; simpl; [done|].
  destruct (release lock l). simpl in *. repeat case_cond; simpl; repeat constructor; auto.
Qed.

Lemma release_before a lock l :
  Forall (before a) l -> Forall valid l -> valid lock -> Forall (before a) (fst (release lock l)).
Proof.
  intros Hl Hv Hk. induction Hl as [|it l Hi Hl IH]; simpl; [done|].
  inversion Hv as [|?? Hvi Hvl]; subst. specialize (IH Hvl).
  destruct (release lock l). simpl in *.
  repeat case_cond; simpl; repeat constructor; auto; unfold before, valid in *; simpl in *;
    intuition lia.
Qed.

Lemma release_sorted lock l :
  valid lock -> Forall valid l -> StronglySorted before l ->
  StronglySorted before (fst (release lock l)).
Proof.
  intros Hk Hv Hs. induction Hs as [|it l Hs IH Hb]; simpl; [constructor|].
  inversion Hv as [|?? Hvi Hvl]; subst. specialize (IH Hvl).
  pose proof (release_before it lock l Hb Hvl Hk) as Hit.
  assert (forall x, x < end_ (range it) -> Forall (before (trim_right it x)) l) as Htr.
  { intros x Hx. eapply Forall_impl; [exact Hb|]. intros c. by apply trim_right_before. }
  assert (forall x, x < end_ (range it) ->
    Forall (before (trim_right it x)) (fst (release lock l))) as Htr'.
  { intros x Hx. apply release_before; auto. }
  destruct (release lock l). simpl in *. unfold valid in *.
  repeat case_cond; simpl; try (constructor; auto); auto.
  - constructor; auto.
  - constructor; [unfold before; simpl; lia|]. apply Htr. lia.
Qed.

Lemma lock_at_release lock l o x :
  valid lock -> Forall valid l -> StronglySorted before l ->
  lock_at (fst (release lock l)) o x = if holds lock o x then None else lock_at l o x.
Proof.
  intros Hk Hv Hs. induction Hs as [|it l Hs IH Hb]; [by destruct (holds lock o x)|].
  inversion Hv as [|?? Hvi Hvl]; subst. specialize (IH Hvl). cbn [release].
  assert (owner it = owner lock -> end_ (range lock) < end_ (range it) -> holds lock o x = true ->
    lock_at l o x = None) as Hrest.
  { intros Ho He Hh. apply lock_at_None. eapply Forall_impl; [exact Hb|]. intros c Hc.
    unfold holds in *. boolify. unfold before in Hc.
    destruct (Z.eqb_spec (owner c) o); simpl; [|done].
    destruct Hc as [Hc _]; [congruence|]. bytes. }
  destruct (release lock l) as [l1 e1]. cbn [fst] in *. unfold valid in *.
  destruct (holds lock o x) eqn:Eh; repeat case_cond; cbn [fst];
    rewrite ?lock_at_cons, ?IH, ?Hrest by (done || lia); clear IH Hrest;
    unfold holds in *; simpl in *; boolify; bytes.
Qed.

Lemma wf_unlock l lock l' eff :
  wf l -> valid lock -> unlock l lock = Ret (l', eff) -> wf l'.
Proof.
  intros Hwf Hv. rewrite unlock_eq by (done || apply Hwf). intros [= E].
  destruct (position (fun lk => owner lk =? owner lock) l) as [i|] eqn:Ei.
  - apply position_Some in Ei as (A & x & B & -> & <- & Hx & HA). boolify.
    pose proof Hwf as (_ & Hg & _). rewrite fmap_app in Hg. apply grouped_app_inv in Hg.
    destruct (group_split (owner lock) x B Hg Hx) as (G & C & EG & HG & HGo & HC). rewrite EG in *.
    assert (Forall (not_owned (owner lock)) A) as HA'.
    { eapply Forall_impl; [exact HA|]. intros y Hy. by apply Z.eqb_neq. }
    rewrite release_app_other, release_group in E by done. simplify_eq/=.
    pose proof Hwf as (HvA & _ & HsA). rewrite !Forall_app in HvA. destruct HvA as (_ & HvG & _).
    apply StronglySorted_app in HsA as (_ & _ & (_ & HsG & _)%StronglySorted_app).
    apply (wf_replace_group A G _ C (owner lock));
      auto using release_owned, release_valid, release_sorted.
  - apply position_None in Ei. rewrite release_other in E; [by simplify_eq|].
    eapply Forall_impl; [exact Ei|]. intros y Hy. by apply Z.eqb_neq.
Qed.

Lemma wf_unlock_all l o : wf l -> wf (fst (unlock_all l o)).
Proof.
  intros (Hv & Hg & Hs). simpl. split_and!.
  - by apply Forall_filter_keep.
  - clear Hv Hs. induction l as [|it l IH]; [done|]. destruct Hg as [Hh Hg]. specialize (IH Hg).
    rewrite filter_cons. case_decide as Ho; [|done]. split; [|done].
    destruct Hh as [Hh|Hh].
    + destruct l as [|b l]; [done|]. simpl in Hh. injection Hh as Hb. left.
      rewrite filter_cons_True by congruence. simpl. congruence.
    + right. intros (z & Hz & Hin)%list_elem_of_fmap. apply Hh, list_elem_of_fmap.
      exists z. apply list_elem_of_filter in Hin as [_ ?]. done.
  - clear Hv Hg. induction Hs as [|it l Hs IH Hb]; [constructor|].
    rewrite filter_cons. case_decide; [|done]. constructor; [done|]. by apply Forall_filter_keep.
Qed.

Lemma lock_at_unlock_all l o o' x :
  lock_at (fst (unlock_all l o)) o' x = if decide (o' = o) then None else lock_at l o' x.
Proof.
  unfold unlock_all. cbn [fst]. induction l as [|it l IH]; [by case_decide|].
  rewrite filter_cons. destruct (decide (owner it <> o)) as [Ho|Ho].
  - rewrite !lock_at_cons, IH. unfold holds. case_decide; bytes.
  - rewrite IH, lock_at_cons. unfold holds. apply dec_stable in Ho. case_decide; bytes.
Qed.

(** ** Wake-ups *)

(** Membership in lists given by their heads. *)
Ltac mem :=
  try done; unfold subseteq, list_subseteq in *; intros;
  rewrite ?elem_of_cons, ?elem_of_nil in *; intuition (subst; auto).

(** The byte is still locked by an item with the same wait queue and type. *)
Definition still_locked (l : list RangeLockItem) (it : RangeLockItem) (x : Z) : Prop :=
  exists it', it' ∈ l /\ waitqueue it' = waitqueue it /\ type_ it' = type_ it /\
    holds it' (owner it) x = true.

(** Every byte that an item gives up is announced on the item's wait queue. *)
Definition announces (l l' : list RangeLockItem) (eff : list WaitEffect) : Prop :=
  forall it x, it ∈ l -> holds it (owner it) x = true ->
    still_locked l' it x \/ wake it ∈ eff.

Lemma still_locked_self l it x : it ∈ l -> holds it (owner it) x = true -> still_locked l it x.
Proof. intros ? ?. by exists it. Qed.

Lemma still_locked_mono l l' it x : l ⊆ l' -> still_locked l it x -> still_locked l' it x.
Proof. intros Hl (it' & ? & ?). exists it'. split; [by apply Hl|done]. Qed.

Lemma announces_cons it l l' eff :
  announces l l' eff -> announces (it :: l) (it :: l') eff.
Proof.
  intros H a x Ha Hx. apply elem_of_cons in Ha as [->|Ha].
  - left. apply still_locked_self; [mem|done].
  - destruct (H a x Ha Hx) as [?|?]; [left|by right]. eapply still_locked_mono; [|done]. mem.
Qed.

Lemma announces_refl l eff : announces l l eff.
Proof. intros it x ? ?. left. by apply still_locked_self. Qed.

(** An item whose bytes are all announced may be dropped or changed. *)
Lemma announces_woken it l l' eff :
  announces l l' eff -> announces (it :: l) l' (wake it :: eff).
Proof.
  intros H a x Ha Hx. apply elem_of_cons in Ha as [->|Ha]; [right; mem|].
  destruct (H a x Ha Hx); [by left|right; mem].
Qed.

Lemma announces_weaken l1 l2 l1' l2' e1 e2 :
  l2 ⊆ l1 -> l1' ⊆ l2' -> e1 ⊆ e2 -> announces l1 l1' e1 -> announces l2 l2' e2.
Proof.
  intros Hl Hl' He H it x Hit Hx. destruct (H it x (Hl _ Hit) Hx) as [?|?].
  - left. by eapply still_locked_mono.
  - right. by apply He.
Qed.

(** A merged item stands for the item it grew from. *)
Lemma announces_hull next pre l l' eff :
  announces (hull next pre :: l) l' eff -> announces (next :: l) l' eff.
Proof.
  intros H it x Hit Hx. apply elem_of_cons in Hit as [->|Hit].
  - apply (H (hull next pre)); [mem|]. revert Hx. bytes.
  - apply H; [mem|done].
Qed.

Lemma place_announces pre rest :
  announces (pre :: rest) (fst (place pre rest)) (snd (place pre rest)).
Proof.
  revert pre. induction rest as [|next rest IH]; intros pre; [apply announces_refl|]. cbn [place].
  pose proof (IH pre) as IH1. pose proof (IH (hull next pre)) as IH2. clear IH.
  destruct (place pre rest) as [l e], (place (hull next pre) rest) as [l' e']. cbn [fst snd] in *.
  assert (announces (pre :: next :: rest) (next :: l) e) as Hskip.
  { eapply announces_weaken; [..|apply (announces_cons next), IH1]; mem. }
  assert (announces (pre :: next :: rest) l (wake next :: e)) as Hdrop.
  { eapply announces_weaken; [..|apply (announces_woken next), IH1]; mem. }
  assert (forall k eff, wake next ∈ eff -> pre :: rest ⊆ k ->
    announces (pre :: next :: rest) k eff) as Hcut.
  { intros k eff Hw Hk it x Hit Hx. rewrite !elem_of_cons in Hit.
    destruct Hit as [->|[->|Hit]]; [|by right|];
      left; apply still_locked_self; auto; apply Hk; mem. }
  repeat case_cond; cbn [fst snd]; try apply announces_refl; try exact Hskip; try exact Hdrop;
    try solve [apply Hcut; mem].
  - apply announces_woken. by eapply announces_hull.
  - eapply announces_weaken; [..|exact Hdrop]; mem.
Qed.

Lemma release_announces lock l :
  announces l (fst (release lock l)) (snd (release lock l)).
Proof.
  induction l as [|it l IH]; [apply announces_refl|]. cbn [release].
  destruct (release lock l) as [l1 e1]. cbn [fst snd] in *.
  assert (forall k eff, wake it ∈ eff -> l ⊆ k -> announces (it :: l) k eff) as Hcut.
  { intros k eff Hw Hk a x [->|Ha]%elem_of_cons Hx; [by right|].
    left. apply still_locked_self; auto. }
  repeat case_cond; cbn [fst snd]; try (by apply announces_cons); try (by apply announces_woken);
    try solve [apply Hcut; mem].
  eapply announces_weaken; [..|apply announces_woken, IH]; mem.
Qed.

Lemma announces_app_l A l l' eff : announces l l' eff -> announces (A ++ l) (A ++ l') eff.
Proof. intros H. induction A as [|it A IH]; [done|]. by apply announces_cons. Qed.

Lemma place_wakes pre rest : Forall is_wake (snd (place pre rest)).
Proof.
  revert pre. induction rest as [|next rest IH]; intros pre; [done|]. cbn [place].
  pose proof (IH pre) as IH1. pose proof (IH (hull next pre)) as IH2.
  destruct (place pre rest), (place (hull next pre) rest). cbn [snd] in *.
  repeat case_cond; cbn [snd]; repeat first [assumption | constructor].
Qed.

Lemma release_wakes lock l : Forall is_wake (snd (release lock l)).
Proof.
  induction l as [|it l IH]; [done|]. cbn [release].
  destruct (release lock l). cbn [snd] in *.
  repeat case_cond; cbn [snd]; repeat first [assumption | constructor].
Qed.

(** ** Summary of the operations *)

(** What an edit of the list promises: the new list is well-formed, its meaning is [m], and every
    byte given up is announced with wake-ups. *)
Record edit_ok (l l' : list RangeLockItem) (eff : list WaitEffect)
    (m : Z -> Z -> option RangeLockType) : Prop := {
  edit_wf : wf l';
  edit_meaning : forall o x, lock_at l' o x = m o x;
  edit_announces : announces l l' eff;
  edit_wakes : Forall is_wake eff
}.

Lemma insert_edit_ok l lock :
  wf l -> valid lock ->
  exists l' eff, insert_lock_into_list l lock = Ret (l', eff) /\
    edit_ok l l' eff (fun o x => if holds lock o x then Some (type_ lock) else lock_at l o x).
Proof.
  intros Hwf Hv. assert (Forall valid l) as Hl by apply Hwf.
  destruct (insert_lock_into_list l lock) as [[l' eff]| |] eqn:E;
    [|by rewrite insert_lock_into_list_eq in E..].
  exists l', eff. split; [done|]. pose proof (wf_insert _ _ _ _ Hwf Hv E) as Hwf'.
  rewrite insert_lock_into_list_eq in E by done.
  destruct (position _ l) as [i|] eqn:Ei; simplify_eq.
  - apply position_Some in Ei as (A & y & B & -> & <- & Hy & HA).
    rewrite take_app_length, drop_app_length in *. split; [done| |..].
    + intros o x. rewrite (lock_at_app_congr A _ (lock :: y :: B)) by apply lock_at_place.
      destruct (holds lock o x) eqn:Eh.
      * rewrite lock_at_app_other; [by rewrite lock_at_cons, Eh|].
        eapply Forall_impl; [exact HA|]. unfold holds in Eh. intros z Hz. simpl in Hz. boolify.
        intuition lia.
      * apply lock_at_app_congr. by rewrite lock_at_cons, Eh.
    + apply announces_app_l. eapply announces_weaken; [..|apply (place_announces lock)]; mem.
    + apply place_wakes.
  - split; [done| | |done].
    + intros o x. apply position_None in Ei. destruct (holds lock o x) eqn:Eh.
      * rewrite lock_at_app_other; [by rewrite lock_at_cons, Eh|].
        eapply Forall_impl; [exact Ei|]. unfold holds in Eh. intros z Hz. simpl in Hz. boolify.
        intuition lia.
      * rewrite (lock_at_app_congr l _ []), app_nil_r; [done|]. by rewrite lock_at_cons, Eh.
    + intros it x Hit Hx. left. exists it. rewrite elem_of_app. auto.
Qed.

Lemma unlock_edit_ok l lock :
  wf l -> valid lock ->
  exists l' eff, unlock l lock = Ret (l', eff) /\
    edit_ok l l' eff (fun o x => if holds lock o x then None else lock_at l o x).
Proof.
  intros Hwf Hv. pose proof Hwf as (Hl & _ & Hs). pose proof (unlock_eq l lock Hv Hl) as E.
  exists (fst (release lock l)), (snd (release lock l)). rewrite E.
  split; [by destruct (release lock l)|]. split.
  - apply (wf_unlock l lock _ (snd (release lock l))); [done..|].
    rewrite E. by destruct (release lock l).
  - intros o x. by apply lock_at_release.
  - apply release_announces.
  - apply release_wakes.
Qed.

Lemma unlock_all_edit_ok l o :
  wf l ->
  edit_ok l (fst (unlock_all l o)) (snd (unlock_all l o))
    (fun o' x => if decide (o' = o) then None else lock_at l o' x).
Proof.
  intros Hwf. split; [by apply wf_unlock_all|intros; apply lock_at_unlock_all| |].
  - intros it x Hit Hx. simpl. destruct (decide (owner it = o)) as [Ho|Ho].
    + right. apply list_elem_of_In, in_concat. exists [wake it]. split; [|by left].
      apply list_elem_of_In, list_elem_of_fmap. exists it. split; [done|]. by apply list_elem_of_filter.
    + left. apply still_locked_self; [|done]. by apply list_elem_of_filter.
  - simpl. clear Hwf. induction l as [|it l IH]; [done|]. rewrite filter_cons. case_decide; [|done].
    constructor; [done|apply IH].
Qed.

(** ** Conflicts *)

(** Two locks meet when they are of different owners and cover a common byte, and they conflict
    when, moreover, one of them is a write lock. *)
Lemma conflict_with_spec a b :
  valid a -> valid b ->
  conflict_with a b = true <->
  owner a <> owner b /\ (type_ a = WriteLock \/ type_ b = WriteLock) /\
  exists x, holds a (owner a) x = true /\ holds b (owner b) x = true.
Proof.
  intros Ha Hb. unfold valid in *. unfold conflict_with, overlap_with, FileRange_overlap_with.
  destruct (Z.eqb_spec (owner a) (owner b)) as [|Ho]; [naive_solver|]. split.
  - destruct (start (range a) >=? end_ (range b)) eqn:E1; [done|].
    destruct (end_ (range a) <=? start (range b)) eqn:E2; [done|]. simpl. intros Ht.
    split_and!; [done|by destruct (type_ a), (type_ b); auto|]. boolify.
    exists (Z.max (start (range a)) (start (range b))). unfold holds. bytes.
  - intros (_ & Ht & x & Hx & Hy). unfold holds in *. boolify.
    replace (start (range a) >=? end_ (range b)) with false by lia.
    replace (end_ (range a) <=? start (range b)) with false by lia. simpl.
    destruct Ht as [->| ->]; [done|]. by rewrite orb_true_r.
Qed.

Lemma wf_disjoint l a b o x :
  StronglySorted before l -> a ∈ l -> b ∈ l ->
  holds a o x = true -> holds b o x = true -> a = b.
Proof.
  intros Hs. induction Hs as [|it l Hs IH Hb]; [set_solver|].
  rewrite Forall_forall in Hb. unfold before in Hb.
  rewrite !elem_of_cons. intros [->|Ha] [->|Hb'] Hx Hy; auto; exfalso.
  - specialize (Hb b Hb'). unfold holds in *. boolify. intuition lia.
  - specialize (Hb a Ha). unfold holds in *. boolify. intuition lia.
Qed.

Lemma wf_lock_at l it o x : wf l -> it ∈ l -> holds it o x = true -> lock_at l o x = Some (type_ it).
Proof.
  intros (_ & _ & Hs) Hit Hx. destruct (lock_at l o x) as [t|] eqn:E.
  - apply lock_at_Some in E as (it' & Hit' & Hx' & <-). by rewrite (wf_disjoint l it it' o x).
  - apply lock_at_None in E. rewrite Forall_forall in E. rewrite E in Hx; done.
Qed.

(** A request conflicts with the locks held on some byte of its range. *)
Definition conflicts (l : list RangeLockItem) (req : RangeLockItem) : Prop :=
  exists o x t, o <> owner req /\ holds req (owner req) x = true /\ lock_at l o x = Some t /\
    (type_ req = WriteLock \/ t = WriteLock).

Lemma find_conflict l req :
  wf l -> valid req ->
  match find_first (conflict_with req) l with
  | Some it => it ∈ l /\ conflict_with req it = true /\ conflicts l req
  | None => ~ conflicts l req
  end.
Proof.
  intros Hwf Hv. pose proof Hwf as (Hl & _). rewrite Forall_forall in Hl.
  destruct (find_first _ l) as [it|] eqn:E.
  - apply find_first_Some in E as [Hit Hc]. split_and!; [done..|].
    apply conflict_with_spec in Hc as (Ho & Ht & x & Hx & Hy); [|done|by apply Hl].
    exists (owner it), x, (type_ it). split_and!; [congruence|done|by eapply wf_lock_at|done].
  - apply find_first_None in E. rewrite Forall_forall in E.
    intros (o & x & t & Ho & Hx & (it & Hit & Hy & <-)%lock_at_Some & Ht).
    assert (owner it = o) as <- by (unfold holds in Hy; by boolify).
    specialize (E it Hit). apply not_true_iff_false in E. apply E, conflict_with_spec;
      [done|by apply Hl|]. split_and!; [congruence|done|by exists x].
Qed.

(** [try_set_lock] on a well-formed list: refused exactly on a conflict. *)
Lemma try_set_lock_cases l req waker :
  wf l -> valid req ->
  (conflicts l req /\ exists it, it ∈ l /\ conflict_with req it = true /\
     try_set_lock l req waker =
       Ret (l, match waker with Some w => [Enqueue (waitqueue it) w] | None => [] end, Err EAGAIN)) \/
  (~ conflicts l req /\ exists l' eff, try_set_lock l req waker = Ret (l', eff, Ok tt) /\
     edit_ok l l' eff (fun o x => if holds req o x then Some (type_ req) else lock_at l o x)).
Proof.
  intros Hwf Hv. pose proof (find_conflict l req Hwf Hv) as Hf. unfold try_set_lock.
  destruct (find_first _ l) as [it|]; [left|right].
  - destruct Hf as (? & ? & ?). eauto 6.
  - split; [done|]. destruct (insert_edit_ok l req Hwf Hv) as (l' & eff & -> & He). eauto.
Qed.

(** ** Mutual exclusion *)

Definition exclusive (l : list RangeLockItem) : Prop :=
  forall o1 o2 x, o1 <> o2 -> lock_at l o1 x = Some WriteLock -> lock_at l o2 x = None.

(** A transition of the list: any caller's request on any valid range. *)
Inductive list_step (l : list RangeLockItem) : list RangeLockItem -> Prop :=
  | step_set req waker l' eff res :
      valid req -> type_ req <> Unlock ->
      try_set_lock l req waker = Ret (l', eff, res) -> list_step l l'
  | step_unlock lock l' eff :
      valid lock -> unlock l lock = Ret (l', eff) -> list_step l l'
  | step_unlock_all o : list_step l (fst (unlock_all l o)).

Lemma exclusive_step l l' :
  wf l -> exclusive l -> list_step l l' -> wf l' /\ exclusive l'.
Proof.
  intros Hwf Hex [req waker l1 eff res Hv Ht E|lock l1 eff Hv E|o].
  - destruct (try_set_lock_cases l req waker Hwf Hv)
      as [(_ & it & _ & _ & E')|(Hn & l2 & eff2 & E' & He)];
      rewrite E in E'; simplify_eq; [done|].
    split; [apply He|]. intros o1 o2 x Hne. rewrite !(edit_meaning _ _ _ _ He).
    destruct (holds req o1 x) eqn:H1, (holds req o2 x) eqn:H2; try by apply Hex.
    + unfold holds in *. boolify. congruence.
    + intros [= Hw]. destruct (lock_at l o2 x) as [t|] eqn:E2; [|done]. destruct Hn.
      assert (owner req = o1) as <- by (unfold holds in H1; by boolify).
      exists o2, x, t. split_and!; auto.
    + intros Hw. destruct Hn.
      assert (owner req = o2) as <- by (unfold holds in H2; by boolify).
      exists o1, x, WriteLock. split_and!; auto.
  - destruct (unlock_edit_ok l lock Hwf Hv) as (l2 & eff2 & E' & He). rewrite E in E'. simplify_eq.
    split; [apply He|]. intros o1 o2 x Hne. rewrite !(edit_meaning _ _ _ _ He).
    repeat case_cond; try done. by apply Hex.
  - pose proof (unlock_all_edit_ok l o Hwf) as He.
    split; [apply He|]. intros o1 o2 x Hne. rewrite !(edit_meaning _ _ _ _ He).
    repeat case_decide; try done. by apply Hex.
Qed.

(** ** Properties *)

(** C10: In every state that requests, releases and closes can reach from an empty list, the list is
    well-formed (valid ranges; the locks of an owner contiguous, ordered, disjoint, and merged when
    they are adjacent and of the same type), and a byte write-locked by one owner is locked by no
    other owner. *)
Theorem range_locks_mutual_exclusion l :
  rtc list_step [] l -> wf l /\ exclusive l.
Proof.
  intros H. assert (wf [] /\ exclusive []) as H0 by (split; [split_and!; constructor|done]).
  revert H0. induction H as [|l1 l2 l3 Hstep _ IH]; [done|]. intros [Hwf Hex].
  apply IH. by apply (exclusive_step l1).
Qed.

Definition demo_a : RangeLockItem := mkItem 1 11 WriteLock (mkRange 0 10) 1.
Definition demo_b : RangeLockItem := mkItem 1 11 ReadLock (mkRange 4 6) 2.
Definition demo_c : RangeLockItem := mkItem 2 12 ReadLock (mkRange 5 9) 3.

Lemma range_locks_mutual_exclusion_witness :
  exists l, rtc list_step [] l /\ length l = 4%nat /\ exclusive l.
Proof.
  assert (exists l, rtc list_step [] l /\ length l = 4%nat) as (l & Hl & Hlen).
  { eexists. split; [|shelve].
    eapply rtc_l; [eapply (step_set _ demo_a None); [done..|vm_compute; reflexivity]|].
    eapply rtc_l; [eapply (step_set _ demo_b None); [done..|vm_compute; reflexivity]|].
    eapply rtc_l; [eapply (step_set _ (set_range demo_c (mkRange 4 6)) None);
                   [done..|vm_compute; reflexivity]|].
    apply rtc_refl. Unshelve. reflexivity. }
  exists l. split_and!; [done..|]. by apply range_locks_mutual_exclusion.
Defined.

(** [insert_lock_into_list] returns without panicking on every well-formed list.  The new list is
    well-formed and its owner's bytes in the range have the new type; every other byte of every
    owner is as it was. *)
Theorem insert_lock_into_list_refines l lock :
  wf l -> valid lock ->
  exists l' eff, insert_lock_into_list l lock = Ret (l', eff) /\ wf l' /\
    forall o x, lock_at l' o x = if holds lock o x then Some (type_ lock) else lock_at l o x.
Proof.
  intros Hwf Hv. destruct (insert_edit_ok l lock Hwf Hv) as (l' & eff & E & []). eauto.
Qed.

Definition demo_list : list RangeLockItem :=
  [mkItem 2 12 ReadLock (mkRange 0 5) 5; mkItem 1 11 ReadLock (mkRange 0 10) 6;
   mkItem 1 11 WriteLock (mkRange 20 30) 7].

Lemma demo_list_wf : wf demo_list.
Proof.
  unfold wf, demo_list. split_and!.
  - by repeat constructor.
  - simpl. split_and!; auto; right; set_solver.
  - repeat (apply SSorted_nil || apply SSorted_cons); repeat constructor;
      unfold before in *; simpl in *; try lia; try done.
Qed.

Lemma insert_lock_into_list_refines_witness :
  wf demo_list /\ valid demo_a /\
  exists l' eff, insert_lock_into_list demo_list demo_a = Ret (l', eff) /\ wf l' /\
    lock_at l' 1 9 = Some WriteLock /\ lock_at l' 2 4 = Some ReadLock /\ lock_at l' 1 10 = None.
Proof.
  split_and!; [apply demo_list_wf|done|].
  destruct (insert_lock_into_list_refines demo_list demo_a) as (l' & eff & E & Hwf & H);
    [apply demo_list_wf|done|].
  exists l', eff. rewrite !H. by split_and!.
Defined.

(** [unlock] returns without panicking on every well-formed list.  The new list is well-formed,
    its owner holds nothing in the released range, and every other byte of every owner is as it
    was. *)
Theorem unlock_refines l lock :
  wf l -> valid lock ->
  exists l' eff, unlock l lock = Ret (l', eff) /\ wf l' /\
    forall o x, lock_at l' o x = if holds lock o x then None else lock_at l o x.
Proof.
  intros Hwf Hv. destruct (unlock_edit_ok l lock Hwf Hv) as (l' & eff & E & []). eauto.
Qed.

Lemma unlock_refines_witness :
  wf demo_list /\ valid demo_b /\
  exists l' eff, unlock demo_list demo_b = Ret (l', eff) /\ wf l' /\
    lock_at l' 1 3 = Some ReadLock /\ lock_at l' 1 4 = None /\ lock_at l' 1 6 = Some ReadLock.
Proof.
  split_and!; [apply demo_list_wf|done|].
  destruct (unlock_refines demo_list demo_b) as (l' & eff & E & Hwf & H);
    [apply demo_list_wf|done|].
  exists l', eff. rewrite !H. by split_and!.
Defined.

(** [try_set_lock] fails, with [EAGAIN] and the list unchanged, exactly when some byte of the
    request is locked by another owner and one of the two locks is a write lock; a waker given to
    it is then enqueued on a conflicting lock.  Otherwise the lock is set. *)
Theorem try_set_lock_correct l req waker :
  wf l -> valid req ->
  exists l' eff res, try_set_lock l req waker = Ret (l', eff, res) /\
    (conflicts l req -> res = Err EAGAIN /\ l' = l /\
       forall w, waker = Some w ->
         exists it, it ∈ l /\ conflict_with req it = true /\ eff = [Enqueue (waitqueue it) w]) /\
    (~ conflicts l req -> res = Ok tt /\
       forall o x, lock_at l' o x = if holds req o x then Some (type_ req) else lock_at l o x).
Proof.
  intros Hwf Hv.
  destruct (try_set_lock_cases l req waker Hwf Hv) as [(Hc & it & Hit & Hci & E)|(Hn & l' & eff & E & He)].
  - do 3 eexists. split; [exact E|]. split; [|done]. intros _. split_and!; [done..|].
    intros w ->. eauto.
  - do 3 eexists. split; [exact E|]. split; [done|]. intros _. split; [done|]. apply He.
Qed.

Lemma try_set_lock_correct_witness :
  wf demo_list /\ valid demo_c /\ conflicts demo_list (set_type demo_c WriteLock) /\
  exists eff, try_set_lock demo_list (set_type demo_c WriteLock) (Some 77%nat) =
    Ret (demo_list, eff, Err EAGAIN) /\ eff <> [].
Proof.
  assert (conflicts demo_list (set_type demo_c WriteLock)) as Hc.
  { exists 1, 5, ReadLock. by split_and!; auto. }
  split_and!; [apply demo_list_wf|done|done|].
  destruct (try_set_lock_correct demo_list (set_type demo_c WriteLock) (Some 77%nat))
    as (l' & eff & res & E & H & _); [apply demo_list_wf|done|].
  destruct (H Hc) as (-> & -> & Hw). exists eff. split; [done|].
  destruct (Hw 77%nat eq_refl) as (it & _ & _ & ->). done.
Defined.

(** [test_lock] answers with an [Unlock] item exactly when [try_set_lock] would grant the request;
    otherwise it reports the owner, process, type and range of a conflicting lock of the list. *)
Theorem test_lock_correct l req :
  wf l -> valid req -> Forall (fun it => type_ it <> Unlock) l ->
  let answer := fst (test_lock l req) in
  (type_ answer = Unlock <-> ~ conflicts l req) /\
  (type_ answer <> Unlock -> exists it, it ∈ l /\ conflict_with req it = true /\
     owner answer = owner it /\ pid answer = pid it /\ type_ answer = type_ it /\
     range answer = range it).
Proof.
  intros Hwf Hv Ht. pose proof (find_conflict l req Hwf Hv) as Hf. unfold test_lock.
  destruct (find_first _ l) as [it|]; simpl; [|by split].
  destruct Hf as (Hit & Hc & Hcs). rewrite Forall_forall in Ht. specialize (Ht it Hit).
  split; [naive_solver|]. intros _. exists it. by split_and!.
Qed.

Lemma test_lock_correct_witness :
  type_ (fst (test_lock demo_list demo_c)) = Unlock /\ ~ conflicts demo_list demo_c.
Proof.
  assert (type_ (fst (test_lock demo_list demo_c)) = Unlock) as H by done. split; [done|].
  by apply (test_lock_correct demo_list demo_c demo_list_wf); [|repeat constructor|].
Defined.
