(* ===== verification/RangeLockWait.v ===== *)
(** * Blocking range-lock requests

    [RangeLockList::set_lock] with [is_nonblocking = false]
    ([kernel/core/src/fs/vfs/range_lock/mod.rs]) makes a [Waiter] and calls
    [Waiter::pause_until] ([kernel/core/src/process/signal/pause.rs], over
    [Waiter::wait_until_or_cancelled] of [ostd/src/sync/wait.rs]) with a closure that tries the
    request and enqueues the waker on the conflicting lock.  This file puts any number of such
    threads beside threads that set, release and close, and shows that no thread sleeps on a request
    that could be granted. *)

From S2P Require Import Prelude WaitQueue RangeLock.

(** ** The machine *)

(** Where a thread inside [wait_until_or_cancelled] is: about to call [cond], or in [wait]. *)
Inductive phase := Trying | Sleeping.

Record lock_sys := mkSys {
  sys_list : list RangeLockItem;
  sys_world : WaitWorld;
  sys_pending : gmap nat (RangeLockItem * phase)   (** by the identity of the thread's waker *)
}.

Definition set_waker (ww : WaitWorld) (w : nat) (k : Waker) : WaitWorld :=
  mkWaitWorld (ww_queues ww) (<[w := k]> (ww_wakers ww)).

(** Each critical section of the list's mutex is one step, with the wake-ups it makes.  A queue
    holds fewer than [2^32] entries, each of which is a live allocation. *)
Inductive sys_step : lock_sys -> lock_sys -> Prop :=
  | sys_begin l ww p w req t :
      (* [Waiter::new_pair], on the way into [pause_until] *)
      valid req -> type_ req <> Unlock -> ww_wakers ww !! w = None ->
      sys_step (mkSys l ww p) (mkSys l (set_waker ww w (mkWaker false t)) (<[w := (req, Trying)]> p))
  | sys_granted l ww p w req l' eff k :
      (* [cond] returns the result, and the waiter is dropped *)
      p !! w = Some (req, Trying) ->
      set_lock_attempt l req w = Ret (l', eff, Some (Ok tt)) ->
      ww_wakers (run_effects ww eff) !! w = Some k ->
      sys_step (mkSys l ww p)
               (mkSys l' (set_waker (run_effects ww eff) w (mkWaker true (task k))) (delete w p))
  | sys_refused l ww p w req eff :
      (* [cond] returns [None] *)
      p !! w = Some (req, Trying) ->
      set_lock_attempt l req w = Ret (l, eff, None) ->
      (forall q wq, ww_queues ww !! q = Some wq -> num_wakers wq + 1 < 2 ^ 32) ->
      sys_step (mkSys l ww p) (mkSys l (run_effects ww eff) (<[w := (req, Sleeping)]> p))
  | sys_woken l ww p w req k :
      (* [do_wait] returns after swapping [has_woken] back to [false] *)
      p !! w = Some (req, Sleeping) ->
      ww_wakers ww !! w = Some k -> has_woken k = true ->
      sys_step (mkSys l ww p)
               (mkSys l (set_waker ww w (mkWaker false (task k))) (<[w := (req, Trying)]> p))
  | sys_signal l ww p w k :
      (* a signal wakes the thread's waker *)
      ww_wakers ww !! w = Some k ->
      sys_step (mkSys l ww p) (mkSys l (set_waker ww w (mkWaker true (task k))) p)
  | sys_cancel l ww p w req k l' eff r :
      (* a signal is pending: the waker is closed, [cond] is called once more, and the thread
         leaves with its result or with [EINTR] *)
      p !! w = Some (req, Sleeping) -> ww_wakers ww !! w = Some k ->
      set_lock_attempt l req w = Ret (l', eff, r) ->
      (forall q wq, ww_queues ww !! q = Some wq -> num_wakers wq + 1 < 2 ^ 32) ->
      sys_step (mkSys l ww p)
               (mkSys l' (run_effects (set_waker ww w (mkWaker true (task k))) eff) (delete w p))
  | sys_try l ww p req l' eff res :
      (* a non-blocking request of another thread *)
      valid req -> type_ req <> Unlock ->
      try_set_lock l req None = Ret (l', eff, res) ->
      sys_step (mkSys l ww p) (mkSys l' (run_effects ww eff) p)
  | sys_unlock l ww p lock l' eff :
      valid lock -> unlock l lock = Ret (l', eff) ->
      sys_step (mkSys l ww p) (mkSys l' (run_effects ww eff) p)
  | sys_unlock_all l ww p o :
      sys_step (mkSys l ww p)
               (mkSys (fst (unlock_all l o)) (run_effects ww (snd (unlock_all l o))) p).

Definition sys_init : lock_sys := mkSys [] (mkWaitWorld ∅ ∅) ∅.

(** The thread of waker [w] sleeps on [req]: [do_wait] finds its flag unset. *)
Definition sleeps_on (s : lock_sys) (w : nat) (req : RangeLockItem) : Prop :=
  sys_pending s !! w = Some (req, Sleeping) /\
  has_woken <$> ww_wakers (sys_world s) !! w = Some false.

(** ** The invariant *)

(** A refused request has been woken since, or its waker still sits on a lock it conflicts with. *)
Definition parked (l : list RangeLockItem) (ww : WaitWorld) (w : nat) (req : RangeLockItem) : Prop :=
  woken_in (ww_wakers ww) w \/
  exists it, it ∈ l /\ conflict_with req it = true /\ waits_in ww (waitqueue it) w.

Record sys_inv (s : lock_sys) : Prop := {
  inv_wf : wf (sys_list s);
  inv_ww : ww_ok (sys_world s);
  inv_pending : forall w req ph, sys_pending s !! w = Some (req, ph) ->
    valid req /\ is_Some (ww_wakers (sys_world s) !! w) /\
    (ph = Sleeping -> parked (sys_list s) (sys_world s) w req)
}.

Lemma conflict_survives l l' eff m req it :
  edit_ok l l' eff m -> wf l -> valid req -> it ∈ l -> conflict_with req it = true ->
  wake it ∈ eff \/
  exists it', it' ∈ l' /\ conflict_with req it' = true /\ waitqueue it' = waitqueue it.
Proof.
  intros He (Hv & _) Hr Hit Hc. rewrite Forall_forall in Hv.
  apply conflict_with_spec in Hc as (Ho & Ht & x & Hx & Hy); [|done|by apply Hv].
  destruct (edit_announces _ _ _ _ He it x Hit Hy) as [(it' & Hin & Hq & Ht' & Hh)|?]; [right|by left].
  exists it'. split_and!; [done| |done].
  assert (owner it' = owner it) as Ho' by (unfold holds in Hh; by boolify).
  destruct (edit_wf _ _ _ _ He) as (Hv' & _). rewrite Forall_forall in Hv'.
  apply conflict_with_spec; [done|by apply Hv'|]. rewrite Ho', Ht'. split_and!; eauto.
Qed.

Lemma parked_edit l l' eff m ww w req :
  edit_ok l l' eff m -> wf l -> ww_ok ww -> valid req -> is_Some (ww_wakers ww !! w) ->
  parked l ww w req -> parked l' (run_effects ww eff) w req.
Proof.
  intros He Hwf Hok Hr Hs [Hw|(it & Hit & Hc & Hq)].
  - left. apply run_effects_monotone; [apply He|done..].
  - destruct (run_effects_waiter eff ww (waitqueue it) w) as [[_ ?]|[Hn ?]];
      [apply He|done..|by left|].
    destruct (conflict_survives _ _ _ _ req it He) as [Hin|(it' & ? & ? & E)]; [done..| |].
    + by destruct Hn.
    + right. exists it'. by rewrite E.
Qed.

Lemma sys_inv_edit l ww p l' eff m :
  sys_inv (mkSys l ww p) -> edit_ok l l' eff m -> sys_inv (mkSys l' (run_effects ww eff) p).
Proof.
  intros [Hwf Hok Hp] He. simpl in *.
  destruct (run_effects_frame eff ww (edit_wakes _ _ _ _ He) Hok) as (Hok' & _ & Hdom).
  split; simpl; [apply He|done|]. intros w req ph Hw.
  destruct (Hp w req ph Hw) as (Hv & Hs & Hpk). split_and!; [done|auto|].
  intros Hph. apply (parked_edit l l' eff m); auto.
Qed.

(** Steps that touch only the waker [w], without unsetting a flag that a sleeper relies on. *)
Lemma sys_inv_set_waker l ww p w k p' :
  sys_inv (mkSys l ww p) ->
  (forall j, j <> w -> p' !! j = p !! j) ->
  (forall req ph, p' !! w = Some (req, ph) -> valid req /\ (ph = Sleeping -> has_woken k = true)) ->
  sys_inv (mkSys l (set_waker ww w k) p').
Proof.
  intros [Hwf Hok Hp] Hj Hw. simpl in *. split; simpl; [done|done|].
  intros j req ph Hjp. destruct (decide (j = w)) as [->|Hne].
  - destruct (Hw req ph Hjp) as [Hv Hk]. split_and!; [done|by rewrite lookup_insert_eq|].
    intros Hph. left. unfold woken_in. simpl. rewrite lookup_insert_eq. simpl. by rewrite Hk.
  - rewrite Hj in Hjp by done. destruct (Hp j req ph Hjp) as (Hv & Hs & Hpk).
    split_and!; [done|by rewrite lookup_insert_ne|]. intros Hph.
    destruct (Hpk Hph) as [Hwk|(it & ? & ? & ?)]; [left|right; by exists it].
    unfold woken_in in *. simpl. by rewrite lookup_insert_ne.
Qed.

Lemma waits_in_enqueue ww q w q' w' :
  waits_in ww q' w' -> waits_in (run_effect ww (Enqueue q w)) q' w'.
Proof.
  intros (wq & E & Hin). simpl. unfold waits_in. simpl. rewrite lookup_insert.
  case_decide; [subst q'|by exists wq]. eexists. split; [done|]. rewrite E. simpl. set_solver.
Qed.

Lemma ww_ok_enqueue ww q w :
  ww_ok ww -> (forall q wq, ww_queues ww !! q = Some wq -> num_wakers wq + 1 < 2 ^ 32) ->
  ww_ok (run_effect ww (Enqueue q w)).
Proof.
  intros Hok Hb q' wq. simpl. rewrite lookup_insert. case_decide; [|apply Hok]. intros [= <-].
  destruct (ww_queues ww !! q) as [wq|] eqn:E; simpl; apply wq_ok_enqueue; eauto using wq_ok_new.
  simpl. lia.
Qed.

Lemma sys_inv_enqueue l ww p w req it p' :
  sys_inv (mkSys l ww p) ->
  (forall q wq, ww_queues ww !! q = Some wq -> num_wakers wq + 1 < 2 ^ 32) ->
  it ∈ l -> conflict_with req it = true ->
  (p' = p \/ exists ph, p !! w = Some (req, ph) /\ p' = <[w := (req, Sleeping)]> p) ->
  sys_inv (mkSys l (run_effects ww [Enqueue (waitqueue it) w]) p').
Proof.
  intros [Hwf Hok Hp] Hb Hit Hc Hp'. cbn [run_effects fold_left] in *. simpl in *.
  split; simpl; [done|by apply (ww_ok_enqueue ww)|].
  assert (forall j r ph, p !! j = Some (r, ph) -> valid r /\ is_Some (ww_wakers ww !! j) /\
    (ph = Sleeping -> parked l (run_effect ww (Enqueue (waitqueue it) w)) j r)) as Hkeep.
  { intros j r ph Hj. destruct (Hp j r ph Hj) as (? & ? & Hpk). split_and!; [done..|].
    intros Hph. destruct (Hpk Hph) as [?|(it' & ? & ? & ?)]; [by left|right].
    exists it'. split_and!; [done..|]. by apply waits_in_enqueue. }
  destruct Hp' as [->|(ph0 & Hw & ->)]; [done|].
  intros j r ph. rewrite lookup_insert. case_decide; [subst j|apply Hkeep]. intros [= <- <-].
  destruct (Hp w req ph0 Hw) as (? & ? & _). split_and!; [done..|]. intros _. right.
  exists it. split_and!; [done..|]. eexists. simpl. rewrite lookup_insert_eq. split; [done|].
  simpl. set_solver.
Qed.

(** An attempt under the mutex either edits the list or enqueues on a conflicting lock. *)
Lemma attempt_cases l req w l' eff r :
  wf l -> valid req -> set_lock_attempt l req w = Ret (l', eff, r) ->
  (r = Some (Ok tt) /\ exists m, edit_ok l l' eff m) \/
  (r = None /\ l' = l /\ exists it, it ∈ l /\ conflict_with req it = true /\
     eff = [Enqueue (waitqueue it) w]).
Proof.
  intros Hwf Hv E. unfold set_lock_attempt in E.
  destruct (try_set_lock_cases l req (Some w) Hwf Hv) as [(_ & it & ? & ? & Et)|(_ & l2 & e2 & Et & He)];
    rewrite Et in E; simplify_eq/=; [right|left]; eauto 8.
Qed.

Lemma sys_inv_step s s' : sys_inv s -> sys_step s s' -> sys_inv s'.
Proof.
  intros Hinv Hstep. destruct Hstep as [l ww p w req t Hv Ht Hf|l ww p w req l' eff k Hw E Hk
    |l ww p w req eff Hw E Hb|l ww p w req k Hw Hk Hwk|l ww p w k Hk
    |l ww p w req k l' eff r Hw Hk E Hb|l ww p req l' eff res Hv Ht E|l ww p lock l' eff Hv E|l ww p o];
    pose proof Hinv as [Hwf Hok Hp]; simpl in *.
  - apply (sys_inv_set_waker l ww p); [done| |].
    + intros j Hj. by rewrite lookup_insert_ne.
    + intros r ph. rewrite lookup_insert_eq. by intros [= <- <-].
  - destruct (attempt_cases l req w l' eff _ Hwf ltac:(by eapply Hp) E) as [(_ & m & He)|(? & _)]; [|done].
    apply (sys_inv_set_waker l' _ p); [by eapply sys_inv_edit| |].
    + intros j Hj. by rewrite lookup_delete_ne.
    + intros r ph. by rewrite lookup_delete_eq.
  - destruct (attempt_cases l req w l eff _ Hwf ltac:(by eapply Hp) E)
      as [(? & _)|(_ & _ & it & Hit & Hc & ->)]; [done|].
    eapply sys_inv_enqueue; [done..|]. right. eauto.
  - apply (sys_inv_set_waker l ww p); [done| |].
    + intros j Hj. by rewrite lookup_insert_ne.
    + intros r ph. rewrite lookup_insert_eq. intros [= <- <-]. split; [|done]. by eapply Hp.
  - apply (sys_inv_set_waker l ww p); [done|done|]. intros r ph Hr. split; [|done]. by eapply Hp.
  - assert (sys_inv (mkSys l (set_waker ww w (mkWaker true (task k))) (delete w p))) as Hc.
    { apply (sys_inv_set_waker l ww p); [done| |].
      - intros j Hj. by rewrite lookup_delete_ne.
      - intros r0 ph. by rewrite lookup_delete_eq. }
    destruct (attempt_cases l req w l' eff r Hwf ltac:(by eapply Hp) E)
      as [(_ & m & He)|(_ & -> & it & Hit & Hci & ->)].
    + by eapply sys_inv_edit.
    + eapply sys_inv_enqueue; [done..|]. by left.
  - destruct (try_set_lock_cases l req None Hwf Hv) as [(_ & it & _ & _ & E')|(_ & l2 & e2 & E' & He)];
      rewrite E in E'; simplify_eq; [done|]. by eapply sys_inv_edit.
  - destruct (unlock_edit_ok l lock Hwf Hv) as (l2 & e2 & E' & He). rewrite E in E'. simplify_eq.
    by eapply sys_inv_edit.
  - eapply sys_inv_edit; [done|]. by apply unlock_all_edit_ok.
Qed.

Lemma sys_inv_init : sys_inv sys_init.
Proof.
  split; simpl; [split_and!; constructor|by intros q wq|by intros w req ph].
Qed.

(** ** Properties *)

(** C3: No blocked request sleeps while it could be granted.  In every reachable state of any number
    of threads that set (blocking or not), release and close locks on a file, a thread asleep in
    [set_lock] has a request that conflicts with the list, and its waker sits on the wait queue of
    a lock of the list that it conflicts with. *)
Theorem sleeping_request_conflicts s w req :
  rtc sys_step sys_init s -> sleeps_on s w req ->
  conflicts (sys_list s) req /\
  exists it, it ∈ sys_list s /\ conflict_with req it = true /\
    waits_in (sys_world s) (waitqueue it) w.
Proof.
  intros Hr [Hp Hf]. assert (sys_inv s) as [Hwf _ Hinv].
  { pose proof sys_inv_init as H0. revert H0. induction Hr; eauto using sys_inv_step. }
  destruct (Hinv w req Sleeping Hp) as (Hv & _ & Hpk).
  destruct (Hpk eq_refl) as [Hw|(it & Hit & Hc & Hq)]; [unfold woken_in in Hw; congruence|].
  split; [|by exists it]. pose proof (find_conflict (sys_list s) req Hwf Hv) as H.
  destruct (find_first _ _) eqn:E; [apply H|].
  apply find_first_None in E. rewrite Forall_forall in E. by rewrite E in Hc.
Qed.

Lemma sleeping_request_conflicts_witness :
  exists s, rtc sys_step sys_init s /\ sleeps_on s 9 demo_c /\ conflicts (sys_list s) demo_c.
Proof.
  assert (exists s, rtc sys_step sys_init s /\ sleeps_on s 9 demo_c) as (s & Hr & Hs).
  { eexists. split.
    - eapply rtc_l; [apply (sys_try [] _ _ demo_a [demo_a] [] (Ok tt)); done|].
      eapply rtc_l; [apply (sys_begin _ _ _ 9%nat demo_c 500); done|].
      eapply rtc_l; [|apply rtc_refl].
      apply (sys_refused _ _ _ 9%nat demo_c [Enqueue 1%nat 9%nat]); [done..|].
      intros q wq. simpl. by rewrite lookup_empty.
    - done. }
  exists s. split_and!; [done..|]. by apply (sleeping_request_conflicts s 9 demo_c).
Defined.
