(* ===== verification/Fcntl.v ===== *)
(** * [fcntl] record locks

    The path from the [F_GETLK] and [F_SETLK] commands of [kernel/core/src/syscall/fcntl.rs] through
    the methods of [InodeHandle] ([kernel/core/src/fs/file/inode_handle.rs]) to the range-lock list
    of the inode.  The list lives in the inode's lock context, which is created on first use. *)

From S2P Require Import Prelude WaitQueue RangeLock.

(** ** C structures *)

(** [off_t] is [i64]; [as off_t] on a [usize] reinterprets the bits. *)
Definition is_i64 (x : Z) : Prop := - 2 ^ 63 <= x < 2 ^ 63.
Definition as_off_t (x : Z) : Z := if x <? 2 ^ 63 then x else x - 2 ^ 64.
Definition i64_checked_add (a b : Z) : option Z :=
  if (- 2 ^ 63 <=? a + b) && (a + b <? 2 ^ 63) then Some (a + b) else None.

Inductive RangeLockWhence := SEEK_SET | SEEK_CUR | SEEK_END.

Definition RangeLockWhence_try_from (v : Z) : result RangeLockWhence :=
  if v =? 0 then Ok SEEK_SET else if v =? 1 then Ok SEEK_CUR
  else if v =? 2 then Ok SEEK_END else Err EINVAL.

Definition RangeLockType_try_from (v : Z) : result RangeLockType :=
  if v =? 0 then Ok ReadLock else if v =? 1 then Ok WriteLock
  else if v =? 2 then Ok Unlock else Err EINVAL.

Definition RangeLockType_as_u16 (t : RangeLockType) : Z :=
  match t with ReadLock => 0 | WriteLock => 1 | Unlock => 2 end.

Record c_flock := mkFlock {
  l_type : Z;
  l_whence : Z;
  l_start : Z;
  l_len : Z;
  l_pid : Z
}.

Definition copy_from_range_lock (c : c_flock) (lock : RangeLockItem) : c_flock :=
  let ty := RangeLockType_as_u16 (type_ lock) in
  if bool_decide (type_ lock = Unlock)
  then mkFlock ty (l_whence c) (l_start c) (l_len c) (l_pid c)
  else mkFlock ty 0 (as_off_t (start (range lock)))
         (if end_ (range lock) =? OFFSET_MAX then 0 else as_off_t (FileRange_len (range lock)))
         (pid lock).

(** ** Files *)

(** What the lock operations read of an open file: whether it is an [O_PATH] file, its access mode
    and its offset; [fsize] is the result of the inode's [metadata]. *)
Record InodeHandle := mkHandle {
  is_o_path : bool;
  is_readable : bool;
  is_writable : bool;
  offset : Z;
  fsize : result Z
}.

Definition from_c_flock_and_file (lock : c_flock) (file : InodeHandle) : result FileRange :=
  s ← (whence ← RangeLockWhence_try_from (l_whence lock);
       match whence with
       | SEEK_SET => Ok (l_start lock)
       | SEEK_CUR =>
           match i64_checked_add (as_off_t (offset file)) (l_start lock) with
           | Some s => Ok s
           | None => Err EOVERFLOW
           end
       | SEEK_END =>
           size ← fsize file;
           match i64_checked_add (as_off_t size) (l_start lock) with
           | Some s => Ok s
           | None => Err EOVERFLOW
           end
       end);
  if s <? 0 then Err EINVAL else
  '(s, e) ← (if l_len lock >? 0 then
               match i64_checked_add s (l_len lock) with
               | Some e => Ok (s, e)
               | None => Err EOVERFLOW
               end
             else if l_len lock =? 0 then Ok (s, OFFSET_MAX)
             else
               let new_start := s + l_len lock in
               if new_start <? 0 then Err EINVAL else Ok (new_start, s));
  FileRange_new s e.

(** The locks of an inode: [None] until the lock context is created. *)
Definition LockContext := option (list RangeLockItem).

Definition test_range_lock (h : InodeHandle) (ctx : LockContext) (lock : RangeLockItem)
    : list WaitEffect * result RangeLockItem :=
  if is_o_path h then (drop_item lock, Err EBADF) else
  match ctx with
  | None => ([], Ok (set_type lock Unlock))
  | Some lst => let '(answer, eff) := test_lock lst lock in (eff, Ok answer)
  end.

Definition unlock_range_lock (ctx : LockContext) (lock : RangeLockItem)
    : run (LockContext * list WaitEffect) :=
  match ctx with
  | None => Ret (None, [])
  | Some lst => '(lst, eff) ← unlock lst lock; Ret (Some lst, eff)
  end.

Definition release_range_locks (ctx : LockContext) (o : Z) : LockContext * list WaitEffect :=
  match ctx with
  | None => (None, [])
  | Some lst => let '(lst, eff) := unlock_all lst o in (Some lst, eff)
  end.

(** [InodeHandle::set_range_lock] with [is_nonblocking = true], for which [set_lock] is one call of
    [try_set_lock]. *)
Definition set_range_lock (h : InodeHandle) (ctx : LockContext) (lock : RangeLockItem)
    : run (LockContext * list WaitEffect * result unit) :=
  let refused :=
    match type_ lock with
    | ReadLock => is_o_path h || negb (is_readable h)
    | WriteLock => is_o_path h || negb (is_writable h)
    | Unlock => is_o_path h
    end in
  if refused then Ret (ctx, [], Err EBADF) else
  if bool_decide (type_ lock = Unlock) then
    '(ctx, eff) ← unlock_range_lock ctx lock;
    Ret (ctx, eff, Ok tt)
  else
    '(lst, eff, res) ← try_set_lock (default [] ctx) lock None;
    Ret (Some lst, eff, res).

(** [handle_getlk] after the C structure has been read: the structure to write back. *)
Definition handle_getlk (owner pid : Z) (q : nat) (h : InodeHandle) (ctx : LockContext) (c : c_flock)
    : list WaitEffect * result c_flock :=
  match RangeLockType_try_from (l_type c) with
  | Err e => ([], Err e)
  | Ok Unlock => ([], Err EINVAL)
  | Ok ty =>
      match from_c_flock_and_file c h with
      | Err e => ([], Err e)
      | Ok r =>
          let '(eff, res) := test_range_lock h ctx (mkItem owner pid ty r q) in
          match res with
          | Err e => (eff, Err e)
          | Ok lock => (eff ++ drop_item lock, Ok (copy_from_range_lock c lock))
          end
      end
  end.

(** [handle_setlk] for [F_SETLK]; [still_open] is the check, made after the lock is set, that the
    descriptor still names the file. *)
Definition handle_setlk (owner pid : Z) (q : nat) (h : InodeHandle) (still_open : bool)
    (ctx : LockContext) (c : c_flock) : run (LockContext * list WaitEffect * result unit) :=
  match RangeLockType_try_from (l_type c) with
  | Err e => Ret (ctx, [], Err e)
  | Ok ty =>
      match from_c_flock_and_file c h with
      | Err e => Ret (ctx, [], Err e)
      | Ok r =>
          let lock := mkItem owner pid ty r q in
          '(ctx, eff, res) ← set_range_lock h ctx lock;
          match res with
          | Err e => Ret (ctx, eff ++ drop_item lock, Err e)
          | Ok _ =>
              if bool_decide (ty = Unlock) then Ret (ctx, eff ++ drop_item lock, Ok tt)
              else if negb still_open then
                let '(ctx, eff') := release_range_locks ctx owner in
                Ret (ctx, eff ++ eff' ++ drop_item lock, Err EBADF)
              else Ret (ctx, eff ++ drop_item lock, Ok tt)
          end
      end
  end.

(** ** Lemmas *)

Definition range_ok (r : FileRange) : Prop := 0 <= start r < end_ r /\ end_ r <= OFFSET_MAX.

(** The position that [l_whence] names. *)
Definition base_of (c : c_flock) (h : InodeHandle) (base : Z) : Prop :=
  l_whence c = 0 /\ base = 0 \/
  l_whence c = 1 /\ base = as_off_t (offset h) \/
  l_whence c = 2 /\ exists size, fsize h = Ok size /\ base = as_off_t size.

(** The bytes that the caller names, before any bound is checked. *)
Definition requested (base : Z) (c : c_flock) : FileRange :=
  let s := base + l_start c in
  if l_len c >? 0 then mkRange s (s + l_len c)
  else if l_len c =? 0 then mkRange s OFFSET_MAX
  else mkRange (s + l_len c) s.

Lemma i64_checked_add_Some a b s :
  i64_checked_add a b = Some s <-> s = a + b /\ is_i64 s.
Proof.
  unfold i64_checked_add, is_i64. case_cond; [intuition (congruence || lia)|].
  split; [done|]. intros (-> & ?). lia.
Qed.

Lemma i64_checked_add_None a b : i64_checked_add a b = None <-> ~ is_i64 (a + b).
Proof.
  unfold i64_checked_add, is_i64. case_cond; [split; [done|lia]|]. split; [lia|done].
Qed.

(** The start of the range, as the first half of [from_c_flock_and_file] computes it. *)
Definition flock_start (c : c_flock) (h : InodeHandle) : result Z :=
  whence ← RangeLockWhence_try_from (l_whence c);
  match whence with
  | SEEK_SET => Ok (l_start c)
  | SEEK_CUR =>
      match i64_checked_add (as_off_t (offset h)) (l_start c) with
      | Some s => Ok s
      | None => Err EOVERFLOW
      end
  | SEEK_END =>
      size ← fsize h;
      match i64_checked_add (as_off_t size) (l_start c) with
      | Some s => Ok s
      | None => Err EOVERFLOW
      end
  end.

Lemma flock_start_Ok c h s :
  is_i64 (l_start c) ->
  flock_start c h = Ok s <-> exists base, base_of c h base /\ s = base + l_start c /\ is_i64 s.
Proof.
  intros Hs. unfold flock_start, RangeLockWhence_try_from, base_of. split.
  - repeat case_cond; simpl; try done.
    + intros [= <-]. exists 0. split_and!; auto; lia.
    + destruct (i64_checked_add _ _) eqn:E2; [|done]. intros [= <-].
      apply i64_checked_add_Some in E2 as [-> ?]. exists (as_off_t (offset h)). naive_solver.
    + destruct (fsize h) as [size|] eqn:Ef; simpl; [|done].
      destruct (i64_checked_add _ _) eqn:E3; [|done]. intros [= <-].
      apply i64_checked_add_Some in E3 as [-> ?]. exists (as_off_t size). naive_solver.
  - intros (base & [[-> ->]|[[-> ->]|(-> & size & Hf & ->)]] & -> & Hi); simpl.
    + f_equal.
    + by rewrite (proj2 (i64_checked_add_Some _ _ _) (conj eq_refl Hi)).
    + rewrite Hf. simpl. by rewrite (proj2 (i64_checked_add_Some _ _ _) (conj eq_refl Hi)).
Qed.

Lemma flock_range_Ok (s len : Z) r :
  is_i64 s -> is_i64 len ->
  (if s <? 0 then Err EINVAL else
   '(s, e) ← (if len >? 0 then
                match i64_checked_add s len with Some e => Ok (s, e) | None => Err EOVERFLOW end
              else if len =? 0 then Ok (s, OFFSET_MAX)
              else let new_start := s + len in
                   if new_start <? 0 then Err EINVAL else Ok (new_start, s));
   FileRange_new s e) = Ok r <->
  r = (if len >? 0 then mkRange s (s + len) else if len =? 0 then mkRange s OFFSET_MAX
       else mkRange (s + len) s) /\ range_ok r.
Proof.
  unfold is_i64, range_ok, FileRange_new, OFFSET_MAX. intros Hs Hl.
  destruct (s <? 0) eqn:E0; boolify.
  { split; [done|]. intros [-> Hr]. repeat case_cond; simpl in *; lia. }
  destruct (len >? 0) eqn:E1; boolify.
  - destruct (i64_checked_add s len) as [e|] eqn:Ea.
    + apply i64_checked_add_Some in Ea as [-> ?]. unfold is_i64 in *. simpl.
      case_cond; [split; [done|]; intros [-> Hr]; simpl in *; lia|].
      split; [intros [= <-]; simpl; split; [done|lia]|by intros [-> _]].
    + apply i64_checked_add_None in Ea. unfold is_i64 in *.
      split; [done|]. intros [-> Hr]. simpl in *. lia.
  - destruct (len =? 0) eqn:E2; boolify; simpl.
    + case_cond; [split; [done|]; intros [-> Hr]; simpl in *; lia|].
      split; [intros [= <-]; simpl; split; [done|lia]|by intros [-> _]].
    + case_cond; simpl; [split; [done|]; intros [-> Hr]; simpl in *; lia|].
      case_cond; [split; [done|]; intros [-> Hr]; simpl in *; lia|].
      split; [intros [= <-]; simpl; split; [done|lia]|by intros [-> _]].
Qed.

Lemma from_c_flock_Ok c h r :
  is_i64 (l_start c) -> is_i64 (l_len c) ->
  from_c_flock_and_file c h = Ok r <->
  exists base, base_of c h base /\ r = requested base c /\ range_ok r.
Proof.
  intros Hs Hl. unfold from_c_flock_and_file. fold (flock_start c h).
  destruct (flock_start c h) as [s|e] eqn:E; simpl.
  - apply flock_start_Ok in E as (base & Hb & -> & Hi); [|done].
    rewrite (flock_range_Ok _ _ r Hi Hl). split; [intros [? ?]; by exists base|].
    intros (base' & Hb' & -> & Hr).
    assert (base' = base) as ->; [|done].
    unfold base_of in *. clear Hr. destruct Hb as [[? ->]|[[? ->]|(? & z & ? & ->)]],
      Hb' as [[? ->]|[[? ->]|(? & z' & ? & ->)]]; congruence.
  - split; [done|]. intros (base & Hb & -> & Hr).
    enough (flock_start c h = Ok (base + l_start c)) by congruence.
    apply flock_start_Ok; [done|]. exists base. split_and!; [done..|].
    revert Hr. unfold requested, range_ok, is_i64, OFFSET_MAX in *. repeat case_cond; simpl; lia.
Qed.

Lemma unlock_context_ok ctx lock :
  wf (default [] ctx) -> valid lock ->
  exists ctx' eff, unlock_range_lock ctx lock = Ret (ctx', eff) /\ wf (default [] ctx') /\
    forall o x, lock_at (default [] ctx') o x =
      if holds lock o x then None else lock_at (default [] ctx) o x.
Proof.
  intros Hwf Hv. destruct ctx as [l|]; simpl in *.
  - destruct (unlock_edit_ok l lock Hwf Hv) as (l' & eff & -> & []). simpl. eauto.
  - exists None, []. split_and!; [done..|]. intros o x. by case_cond.
Qed.

(** One non-blocking request: what the list means afterwards. *)
Lemma set_range_lock_ok h ctx lock :
  wf (default [] ctx) -> valid lock ->
  exists ctx' eff res, set_range_lock h ctx lock = Ret (ctx', eff, res) /\ wf (default [] ctx') /\
    match res with
    | Ok _ => forall o x, lock_at (default [] ctx') o x =
        if holds lock o x then (if decide (type_ lock = Unlock) then None else Some (type_ lock))
        else lock_at (default [] ctx) o x
    | Err e => (e = EBADF \/ e = EAGAIN) /\
        forall o x, lock_at (default [] ctx') o x = lock_at (default [] ctx) o x
    end.
Proof.
  intros Hwf Hv. unfold set_range_lock. case_cond; [eauto 10|]. case_cond.
  - destruct (unlock_context_ok ctx lock Hwf Hv) as (ctx' & eff & -> & ? & ?). simpl.
    rewrite decide_True by done. eauto 8.
  - destruct (try_set_lock_cases (default [] ctx) lock None Hwf Hv)
      as [(_ & it & _ & _ & ->)|(_ & l' & eff & -> & [])]; simpl.
    + eauto 10.
    + rewrite decide_False by done. eauto 10.
Qed.

Lemma release_context_ok ctx o :
  wf (default [] ctx) ->
  wf (default [] (fst (release_range_locks ctx o))) /\
  forall o' x, lock_at (default [] (fst (release_range_locks ctx o))) o' x =
    if decide (o' = o) then None else lock_at (default [] ctx) o' x.
Proof.
  intros Hwf. destruct ctx as [l|]; simpl in *.
  - destruct (unlock_all_edit_ok l o Hwf). done.
  - split; [done|]. intros o' x. by case_decide.
Qed.

(** ** Properties *)

(** [from_c_flock_and_file] succeeds exactly when the bytes the caller names, computed with
    unbounded integers from [l_whence], [l_start] and [l_len], are a non-empty range inside
    [0, i64::MAX], and it then returns that range: no wrap-around is ever visible. *)
Theorem from_c_flock_and_file_correct c h r :
  is_i64 (l_start c) -> is_i64 (l_len c) ->
  from_c_flock_and_file c h = Ok r <->
  exists base, base_of c h base /\ r = requested base c /\ range_ok r.
Proof. apply from_c_flock_Ok. Qed.

Definition demo_handle : InodeHandle := mkHandle false true true 100 (Ok 4096).

Lemma from_c_flock_and_file_correct_witness :
  from_c_flock_and_file (mkFlock 1 2 (-96) (-1000) 0) demo_handle = Ok (mkRange 3000 4000).
Proof.
  apply (from_c_flock_and_file_correct (mkFlock 1 2 (-96) (-1000) 0) demo_handle (mkRange 3000 4000));
    [by vm_compute..|].
  exists 4096. split_and!; [|done|by vm_compute].
  right. right. split; [done|]. by exists 4096.
Defined.

(** The structure that [F_GETLK] writes back for a held lock reads back as the same type and
    the same byte range, whatever file it is used with. *)
Theorem copy_from_range_lock_roundtrip c lock h :
  range_ok (range lock) -> type_ lock <> Unlock ->
  let c' := copy_from_range_lock c lock in
  from_c_flock_and_file c' h = Ok (range lock) /\
  RangeLockType_try_from (l_type c') = Ok (type_ lock) /\ l_pid c' = pid lock.
Proof.
  intros [[H0 H1] H2] Ht. unfold copy_from_range_lock. rewrite bool_decide_eq_false_2 by done. simpl.
  split_and!; [|by destruct (type_ lock)|done]. unfold OFFSET_MAX in *. unfold as_off_t, FileRange_len.
  rewrite (proj2 (Z.ltb_lt (start (range lock)) _)) by lia.
  rewrite (proj2 (Z.ltb_lt (end_ (range lock) - start (range lock)) _)) by lia.
  apply from_c_flock_Ok; unfold is_i64; simpl; [lia|case_cond; lia|].
  exists 0. split_and!; [by left| |by unfold range_ok, OFFSET_MAX].
  unfold requested, OFFSET_MAX. simpl. destruct (range lock) as [s e]; simpl in *.
  destruct (Z.eqb_spec e (2 ^ 63 - 1)) as [->|]; simpl; [done|].
  repeat case_cond; simpl in *; f_equal; lia.
Qed.

Lemma copy_from_range_lock_roundtrip_witness :
  from_c_flock_and_file (copy_from_range_lock (mkFlock 0 1 5 5 0) demo_a) demo_handle
    = Ok (mkRange 0 10).
Proof. by apply (copy_from_range_lock_roundtrip (mkFlock 0 1 5 5 0) demo_a demo_handle). Defined.

(** Names the results of a call and keeps what is to be shown of them. *)
Ltac returns := do 3 eexists; split; [reflexivity|]; split; [done|]; cbn beta iota.


