(* ===== verification/Flags.v ===== *)
(** * Bit-flag sets

    The kernel declares its flag sets with the [bitflags!] macro of the [bitflags] crate, which is
    not part of the repository.  [Bitflags] is the interface the code relies on: the methods of a
    generated type, as functions on the bits of its values, with the laws that the crate documents,
    stated bit by bit.  [Zflags] shows that the interface can be met. *)

From S2P Require Import Prelude.

(** The methods of a flag type; [known] is the union of its declared flags ([all()]). *)
Class Bitflags := {
  bf_contains : Z -> Z -> bool;
  bf_intersects : Z -> Z -> bool;
  bf_union : Z -> Z -> Z;
  bf_intersection : Z -> Z -> Z;
  bf_difference : Z -> Z -> Z;
  bf_complement : Z -> Z -> Z;                      (** [bf_complement known x] is [!x] *)
  bf_from_bits : Z -> Z -> option Z;                (** [bf_from_bits known bits] *)
  bf_from_bits_truncate : Z -> Z -> Z;

  bf_contains_spec a b :
    bf_contains a b = true <-> forall i, 0 <= i -> Z.testbit b i = true -> Z.testbit a i = true;
  bf_intersects_spec a b :
    bf_intersects a b = true <-> exists i, 0 <= i /\ Z.testbit a i = true /\ Z.testbit b i = true;
  bf_union_spec a b i :
    0 <= i -> Z.testbit (bf_union a b) i = Z.testbit a i || Z.testbit b i;
  bf_intersection_spec a b i :
    0 <= i -> Z.testbit (bf_intersection a b) i = Z.testbit a i && Z.testbit b i;
  bf_difference_spec a b i :
    0 <= i -> Z.testbit (bf_difference a b) i = Z.testbit a i && negb (Z.testbit b i);
  bf_complement_spec known a i :
    0 <= i -> Z.testbit (bf_complement known a) i = Z.testbit known i && negb (Z.testbit a i);
  bf_from_bits_spec known b :
    bf_from_bits known b = if bf_contains known b then Some b else None;
  bf_from_bits_truncate_spec known b i :
    0 <= i -> Z.testbit (bf_from_bits_truncate known b) i = Z.testbit b i && Z.testbit known i
}.

Section flags.
Context `{BF : Bitflags}.

Lemma bits_eq a b : (forall i, 0 <= i -> Z.testbit a i = Z.testbit b i) -> a = b.
Proof. intros H. apply Z.bits_inj'. exact H. Qed.

Lemma contains_empty a : bf_contains a 0 = true.
Proof. apply bf_contains_spec. intros i _. by rewrite Z.bits_0. Qed.

Lemma contains_refl a : bf_contains a a = true.
Proof. by apply bf_contains_spec. Qed.

Lemma contains_trans a b c : bf_contains a b = true -> bf_contains b c = true -> bf_contains a c = true.
Proof. rewrite !bf_contains_spec. auto. Qed.

Lemma contains_antisym a b : bf_contains a b = true -> bf_contains b a = true -> a = b.
Proof.
  rewrite !bf_contains_spec. intros H1 H2. apply bits_eq. intros i Hi.
  specialize (H1 i Hi). specialize (H2 i Hi). destruct (Z.testbit a i), (Z.testbit b i); intuition.
Qed.

Lemma contains_pow2 a k : 0 <= k -> bf_contains a (2 ^ k) = Z.testbit a k.
Proof.
  intros Hk. apply eq_bool_prop_intro. rewrite !Is_true_true, bf_contains_spec. split.
  - intros H. apply H; [done|]. by rewrite Z.pow2_bits_true.
  - intros H i Hi. rewrite Z.pow2_bits_eqb by done. intros E. apply Z.eqb_eq in E. by subst.
Qed.

(** The laws as equivalences between propositions on one bit. *)
Lemma in_union a b i :
  0 <= i -> Z.testbit (bf_union a b) i = true <-> Z.testbit a i = true \/ Z.testbit b i = true.
Proof. intros Hi. by rewrite bf_union_spec, orb_true_iff. Qed.

Lemma in_intersection a b i :
  0 <= i -> Z.testbit (bf_intersection a b) i = true <-> Z.testbit a i = true /\ Z.testbit b i = true.
Proof. intros Hi. by rewrite bf_intersection_spec, andb_true_iff. Qed.

Lemma in_difference a b i :
  0 <= i -> Z.testbit (bf_difference a b) i = true <-> Z.testbit a i = true /\ ~ Z.testbit b i = true.
Proof. intros Hi. by rewrite bf_difference_spec, andb_true_iff, negb_true_iff, not_true_iff_false. Qed.

Lemma in_complement known a i :
  0 <= i ->
  Z.testbit (bf_complement known a) i = true <-> Z.testbit known i = true /\ ~ Z.testbit a i = true.
Proof. intros Hi. by rewrite bf_complement_spec, andb_true_iff, negb_true_iff, not_true_iff_false. Qed.

Lemma in_truncate known a i :
  0 <= i ->
  Z.testbit (bf_from_bits_truncate known a) i = true <-> Z.testbit a i = true /\ Z.testbit known i = true.
Proof. intros Hi. by rewrite bf_from_bits_truncate_spec, andb_true_iff. Qed.

Lemma in_empty i : Z.testbit 0 i = true <-> False.
Proof. rewrite Z.bits_0. by split. Qed.

Lemma contains_in a b :
  bf_contains a b = true <-> forall i, 0 <= i -> Z.testbit b i = true -> Z.testbit a i = true.
Proof. apply bf_contains_spec. Qed.

Lemma flags_eq_in a b :
  (forall i, 0 <= i -> Z.testbit a i = true <-> Z.testbit b i = true) -> a = b.
Proof.
  intros H. apply bits_eq. intros i Hi. specialize (H i Hi).
  destruct (Z.testbit a i), (Z.testbit b i); intuition congruence.
Qed.

Lemma contains_truncate known a : bf_contains known (bf_from_bits_truncate known a) = true.
Proof. rewrite contains_in. intros i Hi. rewrite in_truncate by done. tauto. Qed.

Lemma truncate_known known a : bf_contains known a = true -> bf_from_bits_truncate known a = a.
Proof.
  rewrite contains_in. intros H. apply flags_eq_in. intros i Hi. rewrite in_truncate by done.
  specialize (H i Hi). tauto.
Qed.
End flags.

Create HintDb flags.
#[export] Hint Rewrite @in_union @in_intersection @in_difference @in_complement @in_truncate in_empty
  using assumption : flags.

(** Proves an inclusion or an equality of flag sets from inclusions among the hypotheses, one bit at
    a time. *)
Ltac flagwise :=
  repeat match goal with
  | H : bf_contains _ _ = true |- _ => rewrite contains_in in H
  end;
  first [rewrite contains_in | apply flags_eq_in | idtac];
  let i := fresh "i" in let Hi := fresh "Hi" in intros i Hi;
  repeat match goal with
  | H : forall i, 0 <= i -> _ |- _ => specialize (H i Hi)
  end;
  autorewrite with flags in *; tauto.

(** ** The interface is met by the bit operations of the integers *)
Definition Zcontains (a b : Z) : bool := Z.land a b =? b.

Lemma Zcontains_spec a b :
  Zcontains a b = true <-> forall i, 0 <= i -> Z.testbit b i = true -> Z.testbit a i = true.
Proof.
  unfold Zcontains. rewrite Z.eqb_eq. split.
  - intros <- i Hi. rewrite Z.land_spec. by intros [? _]%andb_true_iff.
  - intros H. apply bits_eq. intros i Hi. rewrite Z.land_spec. specialize (H i Hi).
    destruct (Z.testbit a i), (Z.testbit b i); intuition.
Qed.

Lemma Zintersects_spec a b :
  negb (Z.land a b =? 0) = true <->
  exists i, 0 <= i /\ Z.testbit a i = true /\ Z.testbit b i = true.
Proof.
  rewrite negb_true_iff, Z.eqb_neq. split.
  - intros Hne.
    destruct (Z_le_dec 0 (Z.land a b)) as [Hpos|Hneg].
    + exists (Z.log2 (Z.land a b)). pose proof (Z.bit_log2 (Z.land a b)) as Hb.
      rewrite Z.land_spec, andb_true_iff in Hb. split; [apply Z.log2_nonneg|]. apply Hb. lia.
    + exists (Z.log2 (Z.lnot (Z.land a b)) + 1).
      pose proof (Z.bits_above_log2_neg (Z.land a b) (Z.log2 (Z.lnot (Z.land a b)) + 1)) as Hb.
      rewrite Z.land_spec, andb_true_iff in Hb.
      pose proof (Z.log2_nonneg (Z.lnot (Z.land a b))). split; [lia|].
      apply Hb; [lia|]. replace (Z.pred (- Z.land a b)) with (Z.lnot (Z.land a b)); [lia|].
      unfold Z.lnot. lia.
  - intros (i & Hi & Ha & Hb) H0.
    assert (Z.testbit (Z.land a b) i = true) as H by (by rewrite Z.land_spec, Ha, Hb).
    by rewrite H0, Z.bits_0 in H.
Qed.

Definition Zflags : Bitflags.
Proof.
  refine {|
    bf_contains := Zcontains;
    bf_intersects a b := negb (Z.land a b =? 0);
    bf_union := Z.lor;
    bf_intersection := Z.land;
    bf_difference := Z.ldiff;
    bf_complement known a := Z.ldiff known a;
    bf_from_bits known b := if Zcontains known b then Some b else None;
    bf_from_bits_truncate known b := Z.land b known
  |}; intros; auto using Zcontains_spec, Zintersects_spec, Z.lor_spec, Z.land_spec, Z.ldiff_spec.
Defined.
