(* ===== verification/Flock.v ===== *)
(** * BSD file locks

    The list of whole-file locks of [kernel/core/src/fs/file/flock.rs], the methods of [InodeHandle]
    that use it ([kernel/core/src/fs/file/inode_handle.rs]) and the system call
    ([kernel/core/src/syscall/flock.rs]).

    A lock belongs to an open file, which the list refers to by a [Weak] pointer; [alive] tells which
    open files still have strong references, that is, for which [Weak::upgrade] succeeds. *)

From S2P Require Import Prelude WaitQueue Flags Fcntl.

(** ** The list *)

Inductive FlockType := SharedLock | ExclusiveLock.

#[export] Instance FlockType_eq_dec : EqDecision FlockType.
Proof. solve_decision. Defined.

(** [FlockItem]: the owner is the identity of the open file, the queue that of the shared queue. *)
Record FlockItem := mkFlockItem { fl_owner : Z; fl_type : FlockType; fl_queue : nat }.

Definition same_owner_with (a b : FlockItem) : bool := fl_owner a =? fl_owner b.

Definition flock_conflict_with (a b : FlockItem) : bool :=
  if same_owner_with a b then false
  else if bool_decide (fl_type a = ExclusiveLock) || bool_decide (fl_type b = ExclusiveLock)
       then true
  else false.

(** [Drop for FlockItem]. *)
Definition drop_flock (it : FlockItem) : list WaitEffect := [WakeAll (fl_queue it)].

(** [FlockList::try_set_lock]; the item that an assignment replaces is dropped. *)
Definition flock_try_set_lock (lst : list FlockItem) (req_lock : FlockItem) (waker : option nat)
    : run (list FlockItem * list WaitEffect * result unit) :=
  match find_first (flock_conflict_with req_lock) lst with
  | Some conflict_lock =>
      Ret (lst, match waker with Some w => [Enqueue (fl_queue conflict_lock) w] | None => [] end,
           Err EAGAIN)
  | None =>
      match position (same_owner_with req_lock) lst with
      | Some idx =>
          old ← vec_get lst idx;
          lst ← vec_set lst idx req_lock;
          Ret (lst, drop_flock old, Ok tt)
      | None => Ret (lst ++ [req_lock], [], Ok tt)
      end
  end.

(** [FlockList::unlock]: [retain] with a closure that wakes the waiters of the removed lock, which
    its drop does again; locks whose owner is gone are dropped too. *)
Fixpoint flock_unlock (alive : Z -> bool) (lst : list FlockItem) (req_owner : Z)
    : list FlockItem * list WaitEffect :=
  match lst with
  | [] => ([], [])
  | lock :: lst' =>
      let '(kept, eff) := flock_unlock alive lst' req_owner in
      if alive (fl_owner lock) then
        if fl_owner lock =? req_owner then (kept, WakeAll (fl_queue lock) :: drop_flock lock ++ eff)
        else (lock :: kept, eff)
      else (kept, drop_flock lock ++ eff)
  end.

(** ** [InodeHandle] *)

(** The methods on an open file [h] whose identity is [me]; [ctx] is the inode's lock context. *)
Definition set_flock (h : InodeHandle) (ctx : option (list FlockItem)) (lock : FlockItem)
    : run (option (list FlockItem) * list WaitEffect * result unit) :=
  if is_o_path h then Ret (ctx, drop_flock lock, Err EBADF) else
  '(lst, eff, res) ← flock_try_set_lock (default [] ctx) lock None;
  Ret (Some lst, eff ++ drop_flock lock, res).

Definition unlock_flock (alive : Z -> bool) (me : Z) (h : InodeHandle) (ctx : option (list FlockItem))
    : option (list FlockItem) * list WaitEffect * result unit :=
  if is_o_path h then (ctx, [], Err EBADF) else
  match ctx with
  | None => (None, [], Ok tt)
  | Some lst => let '(lst, eff) := flock_unlock alive lst me in (Some lst, eff, Ok tt)
  end.

(** [Drop for InodeHandle], which runs when the last strong reference is gone. *)
Definition drop_handle (alive : Z -> bool) (me : Z) (h : InodeHandle) (ctx : option (list FlockItem))
    : option (list FlockItem) * list WaitEffect :=
  let alive := fun o => alive o && negb (o =? me) in
  fst (unlock_flock alive me h ctx).

(** ** The system call *)

Definition LOCK_SH : Z := 1.
Definition LOCK_EX : Z := 2.
Definition LOCK_NB : Z := 4.
Definition LOCK_UN : Z := 8.
Definition FlockOps_all : Z := 15.

Section flock.
Context `{BF : Bitflags}.

Definition FlockOps_from_i32 (bits : Z) : result Z :=
  match bf_from_bits FlockOps_all bits with
  | None => Err EINVAL
  | Some ops =>
      if bf_contains ops LOCK_SH then
        if bf_contains ops LOCK_EX || bf_contains ops LOCK_UN then Err EINVAL else Ok ops
      else if bf_contains ops LOCK_EX then
        if bf_contains ops LOCK_UN then Err EINVAL else Ok ops
      else if negb (bf_contains ops LOCK_UN) then Err EINVAL
      else Ok ops
  end.

Definition FlockType_from (ops : Z) : run FlockType :=
  if bf_contains ops LOCK_EX then Ret ExclusiveLock
  else if bf_contains ops LOCK_SH then Ret SharedLock
  else Panic.

(** [sys_flock] on an inode file, for the requests that do not block. *)
Definition sys_flock (alive : Z -> bool) (me : Z) (q : nat) (h : InodeHandle)
    (ctx : option (list FlockItem)) (bits : Z)
    : run (option (list FlockItem) * list WaitEffect * result unit) :=
  match FlockOps_from_i32 bits with
  | Err e => Ret (ctx, [], Err e)
  | Ok ops =>
      if bf_contains ops LOCK_UN then Ret (unlock_flock alive me h ctx)
      else
        ty ← FlockType_from ops;
        set_flock h ctx (mkFlockItem me ty q)
  end.
End flock.

(** ** Invariant *)

(** One lock per open file, and an exclusive lock is the only lock. *)
Definition flock_wf (l : list FlockItem) : Prop :=
  NoDup (fl_owner <$> l) /\
  forall a b, a ∈ l -> b ∈ l -> fl_owner a <> fl_owner b ->
    fl_type a = SharedLock /\ fl_type b = SharedLock.

(** The type of the lock that an open file holds. *)
Definition flock_of (l : list FlockItem) (o : Z) : option FlockType :=
  fl_type <$> find_first (fun it => fl_owner it =? o) l.

Lemma flock_of_Some l o t :
  NoDup (fl_owner <$> l) ->
  flock_of l o = Some t <-> exists it, it ∈ l /\ fl_owner it = o /\ fl_type it = t.
Proof.
  induction l as [|it l IH]; simpl; [split; [done|intros (? & ?%elem_of_nil & _); done]|].
  intros [Hn Hd]%NoDup_cons. unfold flock_of in *. simpl.
  setoid_rewrite elem_of_cons. destruct (Z.eqb_spec (fl_owner it) o) as [E|E]; simpl.
  - split; [intros [= <-]; eauto|]. intros (it' & [->|Hin] & Ho & <-); [done|].
    destruct Hn. apply list_elem_of_fmap. exists it'. split; congruence.
  - rewrite IH by done. split; [naive_solver|]. intros (it' & [->|Hin] & ? & ?); [done|eauto].
Qed.

Lemma flock_of_None l o : flock_of l o = None <-> o ∉ fl_owner <$> l.
Proof.
  unfold flock_of. rewrite fmap_None, find_first_None, Forall_forall, list_elem_of_fmap.
  split; [|intros H it Hit; apply Z.eqb_neq; naive_solver].
  intros H (it & -> & Hit). specialize (H it Hit). simpl in H. by rewrite Z.eqb_refl in H.
Qed.

Lemma flock_conflict_spec a b :
  flock_conflict_with a b = true <->
  fl_owner a <> fl_owner b /\ (fl_type a = ExclusiveLock \/ fl_type b = ExclusiveLock).
Proof.
  unfold flock_conflict_with, same_owner_with. destruct (Z.eqb_spec (fl_owner a) (fl_owner b)); simpl.
  - naive_solver.
  - destruct (fl_type a), (fl_type b); simpl; naive_solver.
Qed.

(** The effect of a granted request on the list. *)
Lemma flock_insert_wf l1 l2 req :
  (forall it, it ∈ l1 ++ l2 -> fl_owner it <> fl_owner req) ->
  (forall it, it ∈ l1 ++ l2 -> flock_conflict_with req it = false) ->
  flock_wf (l1 ++ l2) -> flock_wf (l1 ++ req :: l2).
Proof.
  intros Ho Hc [Hd Hx]. split.
  - rewrite fmap_app in *. simpl. rewrite <- Permutation_middle. constructor; [|done].
    rewrite <- fmap_app. intros (it & E & Hit)%list_elem_of_fmap. by apply (Ho it).
  - assert (forall it, it ∈ l1 ++ l2 -> fl_type req = SharedLock /\ fl_type it = SharedLock) as Hs.
    { intros it Hit. pose proof (Ho it Hit) as Hne. specialize (Hc it Hit).
      destruct (fl_type req) eqn:E1, (fl_type it) eqn:E2; try done; exfalso;
        apply not_true_iff_false in Hc; apply Hc, flock_conflict_spec; auto. }
    intros a b Ha Hb Hne. rewrite elem_of_app, elem_of_cons in Ha, Hb.
    setoid_rewrite elem_of_app in Hs. setoid_rewrite elem_of_app in Hx.
    destruct Ha as [Ha|[->|Ha]], Hb as [Hb|[->|Hb]]; try done;
      try (by apply Hx; auto); try (by apply Hs; auto);
      match goal with H : ?x ∈ _ |- _ => destruct (Hs x) as [? ?]; auto end.
Qed.

Lemma flock_wf_sub l l' : sublist l' l -> flock_wf l -> flock_wf l'.
Proof.
  intros Hs [Hd Hx]. split.
  - eapply sublist_NoDup; [exact Hd|]. by apply fmap_sublist.
  - intros a b Ha Hb. apply Hx; eapply elem_of_submseteq; eauto using sublist_submseteq.
Qed.

Lemma flock_try_set_lock_cases l req waker :
  flock_wf l ->
  (exists it, it ∈ l /\ flock_conflict_with req it = true /\
     flock_try_set_lock l req waker =
       Ret (l, match waker with Some w => [Enqueue (fl_queue it) w] | None => [] end, Err EAGAIN)) \/
  ((forall it, it ∈ l -> flock_conflict_with req it = false) /\
   exists l' eff, flock_try_set_lock l req waker = Ret (l', eff, Ok tt) /\ flock_wf l' /\
     (forall it, it ∈ l' <-> it = req \/ it ∈ l /\ fl_owner it <> fl_owner req) /\
     (forall it, it ∈ l -> it ∉ l' -> WakeAll (fl_queue it) ∈ eff)).
Proof.
  intros Hwf. unfold flock_try_set_lock. destruct (find_first _ l) as [it|] eqn:E; [left|right].
  { apply find_first_Some in E as [? ?]. eauto. }
  apply find_first_None in E. rewrite Forall_forall in E. split; [done|].
  destruct (position _ l) as [i|] eqn:Ei.
  - apply position_Some in Ei as (l1 & old & l2 & -> & <- & Ho & Hl1). unfold same_owner_with in Ho.
    apply Z.eqb_eq in Ho. rewrite vec_get_app. simpl. rewrite vec_set_app. simpl.
    do 2 eexists. split; [done|].
    assert (forall it, it ∈ l1 ++ l2 -> fl_owner it <> fl_owner req) as Hne.
    { destruct Hwf as [Hd _]. rewrite fmap_app in Hd. simpl in Hd.
      rewrite <- Permutation_middle in Hd. apply NoDup_cons in Hd as [Hn _]. intros it Hit Heq.
      apply Hn. rewrite <- fmap_app, <- Ho, <- Heq. by apply list_elem_of_fmap_2. }
    split_and!.
    + apply flock_insert_wf; [done| |].
      * intros it Hit. apply E. set_solver.
      * eapply flock_wf_sub; [|exact Hwf]. apply sublist_app; [done|]. by apply sublist_cons.
    + intros it. specialize (Hne it). set_solver.
    + intros it. specialize (Hne it). set_solver.
  - apply position_None in Ei. rewrite Forall_forall in Ei. do 2 eexists. split; [done|].
    assert (forall it, it ∈ l -> fl_owner it <> fl_owner req) as Hne.
    { intros it Hit. specialize (Ei it Hit). apply Z.eqb_neq in Ei. congruence. }
    split_and!.
    + apply flock_insert_wf; rewrite ?app_nil_r; [done|exact E|done].
    + intros it. specialize (Hne it). set_solver.
    + set_solver.
Qed.

Lemma flock_unlock_spec alive l o :
  let '(kept, eff) := flock_unlock alive l o in
  sublist kept l /\
  (forall it, it ∈ kept <-> it ∈ l /\ alive (fl_owner it) = true /\ fl_owner it <> o) /\
  (forall it, it ∈ l -> it ∉ kept -> WakeAll (fl_queue it) ∈ eff).
Proof.
  induction l as [|it l IH]; simpl; [split_and!; [done| |]; set_solver|].
  destruct (flock_unlock alive l o) as [kept eff]. destruct IH as (Hs & Hk & Hw).
  destruct (alive (fl_owner it)) eqn:Ea; [destruct (Z.eqb_spec (fl_owner it) o) as [Eo|Eo]|].
  - split_and!; [by apply sublist_cons| |]; intros x; specialize (Hk x); specialize (Hw x);
      simpl in *; rewrite !elem_of_cons; [rewrite Hk; intuition (subst; congruence || auto)|].
    intros [->|Hx] Hn; auto.
  - split_and!; [by apply sublist_skip| |]; intros x; specialize (Hk x); specialize (Hw x);
      simpl in *; rewrite !elem_of_cons; [rewrite Hk; intuition (subst; congruence || auto)|].
    intros [->|Hx] Hn; [by destruct Hn; left|]. apply Hw; tauto.
  - split_and!; [by apply sublist_cons| |]; intros x; specialize (Hk x); specialize (Hw x);
      simpl in *; rewrite !elem_of_cons; [rewrite Hk; intuition (subst; congruence || auto)|].
    intros [->|Hx] Hn; auto.
Qed.

(** ** The life of the locks of a file *)

(** A live open file makes a request, or an open file loses its last reference. *)
Inductive flock_step `{BF : Bitflags} (files : gmap Z InodeHandle) (ctx : option (list FlockItem))
    : gmap Z InodeHandle -> option (list FlockItem) -> Prop :=
  | flock_open me h :
      files !! me = None -> flock_step files ctx (<[me := h]> files) ctx
  | flock_call me h q bits ctx' eff res :
      files !! me = Some h ->
      sys_flock (fun o => is_some (files !! o)) me q h ctx bits = Ret (ctx', eff, res) ->
      flock_step files ctx files ctx'
  | flock_close me h :
      files !! me = Some h ->
      flock_step files ctx (delete me files)
        (fst (drop_handle (fun o => is_some (files !! o)) me h ctx)).

Definition flock_pair_step `{BF : Bitflags}
    (s s' : gmap Z InodeHandle * option (list FlockItem)) : Prop :=
  flock_step (fst s) (snd s) (fst s') (snd s').

(** Locks belong to open files that may be locked. *)
Definition flock_owned (files : gmap Z InodeHandle) (l : list FlockItem) : Prop :=
  forall it, it ∈ l -> exists h, files !! fl_owner it = Some h /\ is_o_path h = false.

Lemma flock_inv_step `{BF : Bitflags} files ctx files' ctx' :
  flock_step files ctx files' ctx' ->
  flock_wf (default [] ctx) -> flock_owned files (default [] ctx) ->
  flock_wf (default [] ctx') /\ flock_owned files' (default [] ctx').
Proof.
  intros Hstep Hwf Ho. destruct Hstep as [me h Hf|me h q bits ctx' eff res Hf E|me h Hf].
  - split; [done|]. intros it Hit. destruct (Ho it Hit) as (h' & ? & ?). exists h'.
    split; [|done]. rewrite lookup_insert_ne; [done|]. congruence.
  - unfold sys_flock in E. destruct (FlockOps_from_i32 bits) as [ops|]; [|by simplify_eq].
    destruct (bf_contains ops LOCK_UN).
    + unfold unlock_flock in E. destruct (is_o_path h) eqn:Ep; [by simplify_eq|].
      destruct ctx as [l|]; [|by simplify_eq]. simpl in *.
      pose proof (flock_unlock_spec (fun o => is_some (files !! o)) l me) as Hs.
      destruct (flock_unlock _ l me) as [kept e1]. destruct Hs as (Hsub & Hk & _). simplify_eq/=.
      split; [by eapply flock_wf_sub|]. intros it Hit. apply Ho, Hk, Hit.
    + destruct (FlockType_from ops) as [ty| |]; simplify_eq/=. unfold set_flock in E.
      destruct (is_o_path h) eqn:Ep; [by simplify_eq|].
      destruct (flock_try_set_lock_cases (default [] ctx) (mkFlockItem me ty q) None Hwf)
        as [(it & _ & _ & E')|(_ & l' & e1 & E' & Hwf' & Hm & _)]; rewrite E' in E; simplify_eq/=;
        [done|]. split; [done|]. intros it [->|[Hit _]]%Hm; [eauto|by apply Ho].
  - unfold drop_handle, unlock_flock. destruct (is_o_path h) eqn:Ep; simpl.
    + split; [done|]. intros it Hit. destruct (Ho it Hit) as (h' & ? & ?). exists h'.
      split; [|done]. rewrite lookup_delete_ne; [done|]. congruence.
    + destruct ctx as [l|]; simpl in *; [|split; [done|]; intros it ?%elem_of_nil; done].
      pose proof (flock_unlock_spec (fun o => is_some (files !! o) && negb (o =? me)) l me) as Hs.
      destruct (flock_unlock _ l me) as [kept e1]. destruct Hs as (Hsub & Hk & _). simpl.
      split; [by eapply flock_wf_sub|]. intros it (Hit & _ & Hne)%Hk.
      rewrite lookup_delete_ne by congruence. by apply Ho.
Qed.

Section flock_ops.
Context `{BF : Bitflags}.

Lemma flock_bits ops :
  bf_contains ops LOCK_SH = Z.testbit ops 0 /\ bf_contains ops LOCK_EX = Z.testbit ops 1 /\
  bf_contains ops LOCK_UN = Z.testbit ops 3.
Proof.
  split_and!; [exact (contains_pow2 ops 0 ltac:(lia))|exact (contains_pow2 ops 1 ltac:(lia))
    |exact (contains_pow2 ops 3 ltac:(lia))].
Qed.

(** A request names one operation, and no unknown bit. *)
Definition flock_request (bits : Z) : Prop :=
  (forall i, 0 <= i -> Z.testbit bits i = true -> i < 4) /\
  Z.b2z (Z.testbit bits 0) + Z.b2z (Z.testbit bits 1) + Z.b2z (Z.testbit bits 3) = 1.

Lemma FlockOps_known bits :
  bf_contains FlockOps_all bits = true <-> forall i, 0 <= i -> Z.testbit bits i = true -> i < 4.
Proof.
  rewrite bf_contains_spec. change FlockOps_all with (Z.ones 4).
  split; intros H i Hi Hb; specialize (H i Hi Hb); rewrite Z.ones_spec_iff in * by lia; lia.
Qed.

Lemma FlockOps_from_i32_spec bits :
  FlockOps_from_i32 bits = Ok bits /\ flock_request bits \/
  FlockOps_from_i32 bits = Err EINVAL /\ ~ flock_request bits.
Proof.
  unfold FlockOps_from_i32, flock_request. rewrite bf_from_bits_spec.
  pose proof (FlockOps_known bits) as Hk. destruct (bf_contains FlockOps_all bits);
    [|right; split; [done|]; intros [? _]; naive_solver].
  destruct (flock_bits bits) as (-> & -> & ->).
  destruct (Z.testbit bits 0), (Z.testbit bits 1), (Z.testbit bits 3); simpl;
    ((left; split; [done|]; split; [by apply Hk|done]) || (right; split; [done|]; by intros [_ ?])).
Qed.
End flock_ops.

(** The type of lock that a request without [LOCK_UN] asks for. *)
Definition flock_requested_type (bits : Z) : FlockType :=
  if Z.testbit bits 1 then ExclusiveLock else SharedLock.

Lemma flock_of_iff l l' o :
  NoDup (fl_owner <$> l) -> NoDup (fl_owner <$> l') ->
  (forall it, fl_owner it = o -> it ∈ l' <-> it ∈ l) -> flock_of l' o = flock_of l o.
Proof.
  intros Hd Hd' H. destruct (flock_of l o) as [t|] eqn:E.
  - apply flock_of_Some in E as (it & ? & ? & ?); [|done]. apply flock_of_Some; [done|].
    exists it. by rewrite H.
  - apply flock_of_None in E. apply flock_of_None. intros (it & -> & Hit)%list_elem_of_fmap.
    apply E, list_elem_of_fmap. exists it. split; [done|]. by apply H.
Qed.

(** ** Properties *)

(** In every state that opens, [flock] calls and closes can reach, each lock of the list belongs
    to a file that is still open, no open file has two locks, and a file with an exclusive lock is
    the only one with a lock. *)
Theorem flock_mutual_exclusion `{BF : Bitflags} files ctx :
  rtc flock_pair_step (∅, None) (files, ctx) ->
  flock_owned files (default [] ctx) /\ NoDup (fl_owner <$> default [] ctx) /\
  forall o1 o2, o1 <> o2 -> flock_of (default [] ctx) o1 = Some ExclusiveLock ->
    flock_of (default [] ctx) o2 = None.
Proof.
  intros Hr. assert (flock_wf (default [] ctx) /\ flock_owned files (default [] ctx)) as [[Hd Hx] Ho].
  { remember (∅, None) as s0 eqn:E0. remember (files, ctx) as s1 eqn:E1.
    assert (flock_wf (default [] s0.2) /\ flock_owned s0.1 (default [] s0.2)) as H0.
    { subst s0. simpl. split; [split; [constructor|]|]; intros ? ; [intros ?|];
        intros Hin; by apply elem_of_nil in Hin. }
    clear E0. revert H0 E1. induction Hr as [s|s s' s'' Hstep _ IH]; intros [H1 H2] E.
    - by subst s.
    - apply IH; [|done]. by apply (flock_inv_step s.1 s.2). }
  split_and!; [done..|]. intros o1 o2 Hne (a & Ha & <- & Ht)%flock_of_Some; [|done].
  destruct (flock_of (default [] ctx) o2) as [t|] eqn:E; [|done].
  apply flock_of_Some in E as (b & Hb & <- & _); [|done].
  destruct (Hx a b Ha Hb Hne) as [? _]. congruence.
Qed.

Lemma flock_mutual_exclusion_witness :
  exists files ctx, rtc (flock_pair_step (BF := Zflags)) (∅, None) (files, ctx) /\
    flock_of (default [] ctx) 1 = Some ExclusiveLock /\ flock_of (default [] ctx) 2 = None.
Proof.
  assert (exists files ctx, rtc (flock_pair_step (BF := Zflags)) (∅, None) (files, ctx) /\
    flock_of (default [] ctx) 1 = Some ExclusiveLock) as (files & ctx & Hr & H1).
  { exists (<[2 := demo_handle]> (<[1 := demo_handle]> ∅)), (Some [mkFlockItem 1 ExclusiveLock 7]).
    split; [|done].
    eapply (rtc_l _ _ (<[1 := demo_handle]> ∅, None)); [by apply (flock_open ∅ None)|].
    eapply (rtc_l _ _ (<[2 := demo_handle]> (<[1 := demo_handle]> ∅), None));
      [by apply (flock_open (<[1 := demo_handle]> ∅) None)|].
    eapply rtc_l; [|apply rtc_refl].
    eapply (flock_call (<[2 := demo_handle]> (<[1 := demo_handle]> ∅)) None 1 demo_handle 7%nat 6);
      [done|vm_compute; reflexivity]. }
  exists files, ctx. split_and!; [done..|].
  by apply (flock_mutual_exclusion (BF := Zflags) files ctx Hr) with (o1 := 1).
Defined.

(** [flock] on a list of locks of open files returns without panicking.  It fails with [EINVAL]
    exactly when the operation is not one of [LOCK_SH], [LOCK_EX] and [LOCK_UN], and with the list's
    meaning unchanged; on success the caller's lock is the requested one, or gone, and the locks of
    the other files are as they were. *)
Theorem sys_flock_correct `{BF : Bitflags} files me q h ctx bits :
  files !! me = Some h -> flock_wf (default [] ctx) -> flock_owned files (default [] ctx) ->
  exists ctx' eff res,
    sys_flock (fun o => is_some (files !! o)) me q h ctx bits = Ret (ctx', eff, res) /\
    (res = Err EINVAL <-> ~ flock_request bits) /\
    match res with
    | Err _ => forall o, flock_of (default [] ctx') o = flock_of (default [] ctx) o
    | Ok _ => forall o, flock_of (default [] ctx') o =
        if decide (o = me) then
          if Z.testbit bits 3 then None else Some (flock_requested_type bits)
        else flock_of (default [] ctx) o
    end.
Proof.
  intros Hf Hwf Ho. unfold sys_flock.
  destruct (FlockOps_from_i32_spec bits) as [[-> Hr]|[-> Hn]]; [|by do 3 eexists].
  destruct (flock_bits bits) as (E0 & E1 & ->). pose proof Hr as [_ Hsum].
  destruct (Z.testbit bits 3) eqn:E3.
  - unfold unlock_flock. destruct (is_o_path h); [by do 3 eexists|].
    destruct ctx as [l|]; [|do 3 eexists; split_and!; [done|done|]; intros o; by case_decide].
    pose proof (flock_unlock_spec (fun o => is_some (files !! o)) l me) as Hs.
    destruct (flock_unlock _ l me) as [kept e1]. destruct Hs as (Hsub & Hk & _).
    do 3 eexists. split_and!; [done|done|]. intros o. simpl in *.
    assert (NoDup (fl_owner <$> kept)) as Hd by apply (flock_wf_sub l kept Hsub Hwf).
    case_decide as Hom.
    + apply flock_of_None. intros (it & -> & (_ & _ & Hne)%Hk)%list_elem_of_fmap. done.
    + apply flock_of_iff; [apply Hwf|done|]. intros it <-. rewrite Hk. split; [by intros [? _]|].
      intros Hit. destruct (Ho it Hit) as (h' & -> & _). done.
  - assert (FlockType_from bits = Ret (flock_requested_type bits)) as ->.
    { unfold FlockType_from, flock_requested_type. rewrite E0, E1.
      destruct (Z.testbit bits 1); [done|]. by destruct (Z.testbit bits 0). }
    simpl. unfold set_flock. destruct (is_o_path h); [by do 3 eexists|].
    destruct (flock_try_set_lock_cases (default [] ctx) (mkFlockItem me (flock_requested_type bits) q)
      None Hwf) as [(it & _ & _ & ->)|(_ & l' & e1 & -> & [Hd' _] & Hm & _)]; simpl; [by do 3 eexists|].
    do 3 eexists. split_and!; [done|done|]. intros o. simpl. case_decide as Hom.
    + subst o. apply flock_of_Some; [done|]. eexists. split; [apply Hm; by left|done].
    + apply flock_of_iff; [apply Hwf|done|]. intros it <-. rewrite Hm. simpl.
      split; [intros [->|[? _]]; done|]. auto.
Qed.

Lemma sys_flock_correct_witness :
  exists ctx' eff, sys_flock (BF := Zflags) (fun o => is_some (({[ 1 := demo_handle ]} : gmap Z _) !! o))
    1 7 demo_handle (Some [mkFlockItem 1 ExclusiveLock 3]) 5 = Ret (ctx', eff, Ok tt) /\
    flock_of (default [] ctx') 1 = Some SharedLock.
Proof.
  destruct (sys_flock_correct (BF := Zflags) {[ 1 := demo_handle ]} 1 7 demo_handle
    (Some [mkFlockItem 1 ExclusiveLock 3]) 5) as (ctx' & eff & res & E & _ & H); [done| | |].
  - split; [by apply NoDup_singleton|]. intros a b ->%list_elem_of_singleton ->%list_elem_of_singleton. done.
  - intros it ->%list_elem_of_singleton. by exists demo_handle.
  - exists ctx', eff. assert (res = Ok tt) as -> by (vm_compute in E; congruence).
    split; [done|]. by rewrite H.
Defined.
