(* ===== verification/Credentials.v ===== *)
(** * Credentials and capabilities

    [kernel/core/src/process/credentials/]: the user and group IDs, the five Linux capability sets
    and the secure bits of a thread, with every operation of [credentials_.rs], the capability-set
    conversions of [capabilities.rs], the locks of [secure_bits.rs], the [capset] system call and
    the credential changes of [execve] ([process/execve.rs]).

    A thread only changes its own credentials, so an operation is a function from the old state to
    the new state and a result; an operation that fails half-way returns the state it leaves. *)

From S2P Require Import Prelude Flags.

(** ** Capability sets *)

Definition CAP_CHOWN : Z := 2 ^ 0.
Definition CAP_DAC_OVERRIDE : Z := 2 ^ 1.
Definition CAP_DAC_READ_SEARCH : Z := 2 ^ 2.
Definition CAP_FOWNER : Z := 2 ^ 3.
Definition CAP_FSETID : Z := 2 ^ 4.
Definition CAP_SETGID : Z := 2 ^ 6.
Definition CAP_SETUID : Z := 2 ^ 7.
Definition CAP_SETPCAP : Z := 2 ^ 8.
Definition CAP_LINUX_IMMUTABLE : Z := 2 ^ 9.
Definition CAP_MKNOD : Z := 2 ^ 27.
Definition CAP_MAC_OVERRIDE : Z := 2 ^ 32.

(** [CapSet::all()]: the 41 declared capabilities. *)
Definition CapSet_all : Z := 2 ^ 41 - 1.
Definition CapSet_empty : Z := 0.

Definition most_significant_bit : Z := 40.

Section capset.
Context `{BF : Bitflags}.

Definition from_lo_hi (lo hi : Z) : Z :=
  bf_from_bits_truncate CapSet_all (Z.lor lo (Z.shiftl hi 32)).

Definition to_lo_hi (s : Z) : Z * Z := (s mod 2 ^ 32, Z.shiftr s 32 mod 2 ^ 32).

(** [from_bits(..).unwrap()] panics on an undeclared bit. *)
Definition from_capability_number (capability : Z) : run (option Z) :=
  if capability >? most_significant_bit then Ret None
  else s ← unwrap (bf_from_bits CapSet_all (Z.shiftl 1 capability)); Ret (Some s).
End capset.

(** ** Secure bits *)

Definition SECBIT_NOROOT : Z := 2 ^ 0.
Definition SECBIT_NOROOT_LOCKED : Z := 2 ^ 1.
Definition SECBIT_NO_SETUID_FIXUP : Z := 2 ^ 2.
Definition SECBIT_NO_SETUID_FIXUP_LOCKED : Z := 2 ^ 3.
Definition SECBIT_KEEP_CAPS : Z := 2 ^ 4.
Definition SECBIT_KEEP_CAPS_LOCKED : Z := 2 ^ 5.
Definition SECBIT_NO_CAP_AMBIENT_RAISE : Z := 2 ^ 6.
Definition SECBIT_NO_CAP_AMBIENT_RAISE_LOCKED : Z := 2 ^ 7.
Definition SecureBits_all : Z := 255.
Definition LOCK_MASK : Z := 170.

Section securebits.
Context `{BF : Bitflags}.

Definition locked_bits (s : Z) : Z :=
  bf_from_bits_truncate SecureBits_all (Z.shiftr (Z.land s LOCK_MASK) 1).

Definition no_root (s : Z) : bool := bf_contains s SECBIT_NOROOT.
Definition sec_keep_capabilities (s : Z) : bool := bf_contains s SECBIT_KEEP_CAPS.
Definition no_setuid_fixup (s : Z) : bool := bf_contains s SECBIT_NO_SETUID_FIXUP.
Definition no_cap_ambient_raise (s : Z) : bool := bf_contains s SECBIT_NO_CAP_AMBIENT_RAISE.

Definition SecureBits_try_from (v : Z) : result Z :=
  match bf_from_bits SecureBits_all v with Some s => Ok s | None => Err EPERM end.

(** [AtomicSecureBits::try_store]: the value afterwards and the result. *)
Definition try_store (current bits : Z) : Z * result unit :=
  let locked := locked_bits current in
  if negb (bf_intersection locked current =? bf_intersection locked bits) then (current, Err EPERM)
  else if negb (Z.land (Z.land LOCK_MASK current) (Z.lxor bits 65535) =? 0) then (current, Err EPERM)
  else (bits, Ok tt).
End securebits.

(** ** Credentials *)

Definition is_root (id : Z) : bool := id =? 0.

Record Credentials_ := mkCred {
  ruid : Z; euid : Z; suid : Z; fsuid : Z;
  rgid : Z; egid : Z; sgid : Z; fsgid : Z;
  supplementary_gids : gset Z;
  inheritable_capset : Z;
  permitted_capset : Z;
  effective_capset : Z;
  bounding_capset : Z;
  ambient_capset : Z;
  securebits : Z;
  no_new_privs : bool
}.

(** Stores to the fields. *)
Definition with_uids (c : Credentials_) (r e s : Z) : Credentials_ :=
  mkCred r e s (fsuid c) (rgid c) (egid c) (sgid c) (fsgid c) (supplementary_gids c)
    (inheritable_capset c) (permitted_capset c) (effective_capset c) (bounding_capset c)
    (ambient_capset c) (securebits c) (no_new_privs c).
Definition with_fsuid (c : Credentials_) (f : Z) : Credentials_ :=
  mkCred (ruid c) (euid c) (suid c) f (rgid c) (egid c) (sgid c) (fsgid c) (supplementary_gids c)
    (inheritable_capset c) (permitted_capset c) (effective_capset c) (bounding_capset c)
    (ambient_capset c) (securebits c) (no_new_privs c).
Definition with_gids (c : Credentials_) (r e s : Z) : Credentials_ :=
  mkCred (ruid c) (euid c) (suid c) (fsuid c) r e s (fsgid c) (supplementary_gids c)
    (inheritable_capset c) (permitted_capset c) (effective_capset c) (bounding_capset c)
    (ambient_capset c) (securebits c) (no_new_privs c).
Definition with_fsgid (c : Credentials_) (f : Z) : Credentials_ :=
  mkCred (ruid c) (euid c) (suid c) (fsuid c) (rgid c) (egid c) (sgid c) f (supplementary_gids c)
    (inheritable_capset c) (permitted_capset c) (effective_capset c) (bounding_capset c)
    (ambient_capset c) (securebits c) (no_new_privs c).
Definition with_groups (c : Credentials_) (g : gset Z) : Credentials_ :=
  mkCred (ruid c) (euid c) (suid c) (fsuid c) (rgid c) (egid c) (sgid c) (fsgid c) g
    (inheritable_capset c) (permitted_capset c) (effective_capset c) (bounding_capset c)
    (ambient_capset c) (securebits c) (no_new_privs c).
Definition with_capsets (c : Credentials_) (i p e b a : Z) : Credentials_ :=
  mkCred (ruid c) (euid c) (suid c) (fsuid c) (rgid c) (egid c) (sgid c) (fsgid c)
    (supplementary_gids c) i p e b a (securebits c) (no_new_privs c).
Definition with_securebits (c : Credentials_) (s : Z) : Credentials_ :=
  mkCred (ruid c) (euid c) (suid c) (fsuid c) (rgid c) (egid c) (sgid c) (fsgid c)
    (supplementary_gids c) (inheritable_capset c) (permitted_capset c) (effective_capset c)
    (bounding_capset c) (ambient_capset c) s (no_new_privs c).
Definition with_no_new_privs (c : Credentials_) (b : bool) : Credentials_ :=
  mkCred (ruid c) (euid c) (suid c) (fsuid c) (rgid c) (egid c) (sgid c) (fsgid c)
    (supplementary_gids c) (inheritable_capset c) (permitted_capset c) (effective_capset c)
    (bounding_capset c) (ambient_capset c) (securebits c) b.

Definition Credentials_new (uid gid capset : Z) : Credentials_ :=
  mkCred uid uid uid uid gid gid gid gid {[ gid ]}
    CapSet_empty capset capset CapSet_all CapSet_empty 0 false.

(** [Credentials::new_root]. *)
Definition Credentials_new_root : Credentials_ := Credentials_new 0 0 CapSet_all.

(** ** Operations *)
Section credentials.
Context `{BF : Bitflags}.

(** Capability-set stores. *)
Definition set_inheritable_capset (c : Credentials_) (s : Z) : Credentials_ :=
  with_capsets c s (permitted_capset c) (effective_capset c) (bounding_capset c)
    (bf_intersection (ambient_capset c) s).

Definition set_permitted_capset (c : Credentials_) (s : Z) : Credentials_ :=
  with_capsets c (inheritable_capset c) s (effective_capset c) (bounding_capset c)
    (bf_intersection (ambient_capset c) s).

Definition set_effective_capset (c : Credentials_) (s : Z) : Credentials_ :=
  with_capsets c (inheritable_capset c) (permitted_capset c) s (bounding_capset c)
    (ambient_capset c).

Definition store_ambient_capset (c : Credentials_) (s : Z) : Credentials_ :=
  with_capsets c (inheritable_capset c) (permitted_capset c) (effective_capset c)
    (bounding_capset c) s.

Definition set_bounding_capset (c : Credentials_) (s : Z) : Credentials_ :=
  with_capsets c (inheritable_capset c) (permitted_capset c) (effective_capset c) s
    (ambient_capset c).

Definition clear_ambient_capset (c : Credentials_) : Credentials_ :=
  store_ambient_capset c CapSet_empty.

Definition lower_ambient_capability (c : Credentials_) (capability : Z) : Credentials_ :=
  store_ambient_capset c (bf_difference (ambient_capset c) capability).

Definition raise_ambient_capability (c : Credentials_) (capability : Z)
    : Credentials_ * result unit :=
  if no_cap_ambient_raise (securebits c) then (c, Err EPERM)
  else if negb (bf_contains (permitted_capset c) capability)
          || negb (bf_contains (inheritable_capset c) capability) then (c, Err EPERM)
  else (store_ambient_capset c (bf_union (ambient_capset c) capability), Ok tt).

Definition drop_bounding_capability (c : Credentials_) (capability : Z)
    : Credentials_ * result unit :=
  if negb (bf_contains (effective_capset c) CAP_SETPCAP) then (c, Err EPERM)
  else (set_bounding_capset c (bf_difference (bounding_capset c) capability), Ok tt).

(** Secure bits. *)
Definition keep_capabilities (c : Credentials_) : bool := sec_keep_capabilities (securebits c).

Definition set_keep_capabilities (c : Credentials_) (keep : bool) : Credentials_ * result unit :=
  let current_bits := securebits c in
  let stored_bits :=
    if negb keep then bf_difference current_bits SECBIT_KEEP_CAPS
    else bf_union current_bits SECBIT_KEEP_CAPS in
  let '(s, res) := try_store current_bits stored_bits in
  (with_securebits c s, res).

Definition set_securebits (c : Credentials_) (bits : Z) : Credentials_ * result unit :=
  if negb (bf_contains (effective_capset c) CAP_SETPCAP) then (c, Err EPERM)
  else let '(s, res) := try_store (securebits c) bits in (with_securebits c s, res).

Definition set_no_new_privs (c : Credentials_) : Credentials_ := with_no_new_privs c true.

(** User IDs. *)
Definition cap_to_remove : Z :=
  bf_union (bf_union (bf_union (bf_union (bf_union (bf_union (bf_union
    CAP_CHOWN CAP_DAC_OVERRIDE) CAP_FOWNER) CAP_DAC_READ_SEARCH) CAP_FSETID)
    CAP_LINUX_IMMUTABLE) CAP_MAC_OVERRIDE) CAP_MKNOD.

Definition set_fsuid_unchecked (c : Credentials_) (new_fsuid : Z) : Credentials_ :=
  let old_fsuid := fsuid c in
  let c := with_fsuid c new_fsuid in
  if is_root old_fsuid && negb (is_root new_fsuid)
  then set_effective_capset c (bf_difference (effective_capset c) cap_to_remove)
  else c.

Definition set_resuid_unchecked (c : Credentials_) (r e s : option Z) : Credentials_ :=
  let old_ruid := ruid c in
  let old_euid := euid c in
  let old_suid := suid c in
  let new_ruid := default old_ruid r in
  let new_euid := default old_euid e in
  let new_suid := default old_suid s in
  let c := with_uids c new_ruid new_euid new_suid in
  let c := set_fsuid_unchecked c new_euid in
  if no_setuid_fixup (securebits c) then c else
  let had_root := is_root old_ruid || is_root old_euid || is_root old_suid in
  let all_nonroot := negb (is_root new_ruid) && negb (is_root new_euid) && negb (is_root new_suid) in
  let c :=
    if had_root && all_nonroot then
      if negb (keep_capabilities c)
      then set_effective_capset (set_permitted_capset c CapSet_empty) CapSet_empty
      else clear_ambient_capset c
    else c in
  if is_root old_euid && negb (is_root new_euid) then set_effective_capset c CapSet_empty
  else if negb (is_root old_euid) && is_root new_euid
       then set_effective_capset c (permitted_capset c)
  else c.

(** A new ID that is none of the listed ones; an absent ID is never foreign. *)
Definition foreign (id : option Z) (ids : list Z) : bool :=
  match id with Some i => forallb (fun j => negb (i =? j)) ids | None => false end.

Definition check_uid_perm (c : Credentials_) (r e s : option Z) (ruid_may_be_old_suid : bool)
    : result unit :=
  if bf_contains (effective_capset c) CAP_SETUID then Ok tt
  else if foreign r (if ruid_may_be_old_suid then [ruid c; euid c; suid c] else [ruid c; euid c])
       then Err EPERM
  else if foreign e [ruid c; euid c; suid c] then Err EPERM
  else if foreign s [ruid c; euid c; suid c] then Err EPERM
  else Ok tt.

Definition set_resuid (c : Credentials_) (r e s : option Z) : Credentials_ * result unit :=
  match check_uid_perm c r e s true with
  | Err err => (c, Err err)
  | Ok _ => (set_resuid_unchecked c r e s, Ok tt)
  end.

Definition set_reuid (c : Credentials_) (r e : option Z) : Credentials_ * result unit :=
  match check_uid_perm c r e None false with
  | Err err => (c, Err err)
  | Ok _ =>
      let should_set_suid :=
        is_some r || match e with Some e => negb (e =? ruid c) | None => false end in
      let s := if should_set_suid then Some (default (euid c) e) else None in
      (set_resuid_unchecked c r e s, Ok tt)
  end.

Definition set_uid (c : Credentials_) (uid : Z) : Credentials_ * result unit :=
  if bf_contains (effective_capset c) CAP_SETUID
  then (set_resuid_unchecked c (Some uid) (Some uid) (Some uid), Ok tt)
  else set_resuid c None (Some uid) None.

(** [set_fsuid]: [inl] and [inr] carry the old ID of [Ok] and [Err]. *)
Definition set_fsuid (c : Credentials_) (new_fsuid : option Z) : Credentials_ * (Z + Z) :=
  let old_fsuid := fsuid c in
  match new_fsuid with
  | None => (c, inl old_fsuid)
  | Some f =>
      if bf_contains (effective_capset c) CAP_SETUID then (set_fsuid_unchecked c f, inl old_fsuid)
      else if foreign (Some f) [ruid c; euid c; suid c] then (c, inr old_fsuid)
      else (set_fsuid_unchecked c f, inl old_fsuid)
  end.

Definition set_euid (c : Credentials_) (e : Z) : Credentials_ :=
  set_resuid_unchecked c None (Some e) None.
Definition set_suid (c : Credentials_) (s : Z) : Credentials_ :=
  set_resuid_unchecked c None None (Some s).

(** Group IDs. *)
Definition set_fsgid_unchecked (c : Credentials_) (f : Z) : Credentials_ := with_fsgid c f.

Definition set_resgid_unchecked (c : Credentials_) (r e s : option Z) : Credentials_ :=
  let c := with_gids c (default (rgid c) r) (default (egid c) e) (default (sgid c) s) in
  set_fsgid_unchecked c (egid c).

Definition check_gid_perm (c : Credentials_) (r e s : option Z) (rgid_may_be_old_sgid : bool)
    : result unit :=
  if bf_contains (effective_capset c) CAP_SETGID then Ok tt
  else if foreign r (if rgid_may_be_old_sgid then [rgid c; egid c; sgid c] else [rgid c; egid c])
       then Err EPERM
  else if foreign e [rgid c; egid c; sgid c] then Err EPERM
  else if foreign s [rgid c; egid c; sgid c] then Err EPERM
  else Ok tt.

Definition set_resgid (c : Credentials_) (r e s : option Z) : Credentials_ * result unit :=
  match check_gid_perm c r e s true with
  | Err err => (c, Err err)
  | Ok _ => (set_resgid_unchecked c r e s, Ok tt)
  end.

Definition set_regid (c : Credentials_) (r e : option Z) : Credentials_ * result unit :=
  match check_gid_perm c r e None false with
  | Err err => (c, Err err)
  | Ok _ =>
      let should_set_sgid :=
        is_some r || match e with Some e => negb (e =? rgid c) | None => false end in
      let s := if should_set_sgid then Some (default (egid c) e) else None in
      (set_resgid_unchecked c r e s, Ok tt)
  end.

Definition set_gid (c : Credentials_) (gid : Z) : Credentials_ * result unit :=
  if bf_contains (effective_capset c) CAP_SETGID
  then (set_resgid_unchecked c (Some gid) (Some gid) (Some gid), Ok tt)
  else set_resgid c None (Some gid) None.

Definition set_fsgid (c : Credentials_) (new_fsgid : option Z) : Credentials_ * (Z + Z) :=
  let old_fsgid := fsgid c in
  match new_fsgid with
  | None => (c, inl old_fsgid)
  | Some f =>
      if f =? old_fsgid then (c, inl old_fsgid)
      else if bf_contains (effective_capset c) CAP_SETGID
           then (set_fsgid_unchecked c f, inl old_fsgid)
      else if foreign (Some f) [rgid c; egid c; sgid c] then (c, inr old_fsgid)
      else (set_fsgid_unchecked c f, inl old_fsgid)
  end.

Definition set_egid (c : Credentials_) (e : Z) : Credentials_ :=
  set_resgid_unchecked c None (Some e) None.
Definition set_sgid (c : Credentials_) (s : Z) : Credentials_ :=
  set_resgid_unchecked c None None (Some s).
End credentials.

(** ** [execve] *)

Record FileCapabilities := mkFileCaps {
  fc_permitted : Z;
  fc_inheritable : Z;
  has_effective_flag : bool;
  root_uid : option Z
}.

Record ExecCred := mkExecCred {
  x_setuid : option Z;
  x_setgid : option Z;
  x_permitted : Z;
  x_effective : Z;
  x_ambient : Z
}.

Definition will_change_ids (x : ExecCred) : bool := is_some (x_setuid x) || is_some (x_setgid x).

Section exec.
Context `{BF : Bitflags}.

Definition calculate_capsets_for_exec (c : Credentials_) (fc : option FileCapabilities)
    (nnp : bool) (new_euid new_egid : Z) : result (Z * Z * Z) :=
  let has_file_capabilities := is_some fc in
  let new_ambient :=
    let id_changed :=
      negb (new_euid =? euid c)
      || (negb (new_egid =? fsgid c) && negb (bool_decide (new_egid ∈ supplementary_gids c))) in
    if has_file_capabilities || id_changed then CapSet_empty else ambient_capset c in
  let file_permitted := default CapSet_empty (fc_permitted <$> fc) in
  let file_inheritable := default CapSet_empty (fc_inheritable <$> fc) in
  let file_effective :=
    if default false (has_effective_flag <$> fc) then CapSet_all else CapSet_empty in
  let is_setuid_root := negb (is_root (ruid c)) && is_root new_euid in
  let '(file_permitted, file_inheritable, file_effective) :=
    if negb (no_root (securebits c)) && negb (has_file_capabilities && is_setuid_root) then
      let '(file_permitted, file_inheritable) :=
        if is_root (ruid c) || is_root new_euid then (CapSet_all, CapSet_all)
        else (file_permitted, file_inheritable) in
      let file_effective := if is_root new_euid then CapSet_all else file_effective in
      (file_permitted, file_inheritable, file_effective)
    else (file_permitted, file_inheritable, file_effective) in
  let candidate_permitted :=
    bf_union (bf_union (bf_intersection (inheritable_capset c) file_inheritable)
                       (bf_intersection file_permitted (bounding_capset c)))
             new_ambient in
  if match fc with
     | Some fc => has_effective_flag fc && negb (bf_contains candidate_permitted (fc_permitted fc))
     | None => false
     end
  then Err EPERM
  else
    let new_permitted :=
      if nnp then bf_intersection candidate_permitted (permitted_capset c) else candidate_permitted in
    let new_effective :=
      bf_union (bf_intersection file_effective new_permitted)
               (bf_intersection (bf_complement CapSet_all file_effective) new_ambient) in
    Ok (new_permitted, new_effective, new_ambient).

Definition prepare_exec_cred (c : Credentials_) (fc : option FileCapabilities)
    (setuid setgid : option Z) : result ExecCred :=
  let nnp := no_new_privs c in
  let '(setuid, setgid) := if nnp then (None, None) else (setuid, setgid) in
  let new_euid := default (euid c) setuid in
  let new_egid := default (egid c) setgid in
  '(p, e, a) ← calculate_capsets_for_exec c fc nnp new_euid new_egid;
  Ok (mkExecCred setuid setgid p e a).

Definition apply_exec_cred (c : Credentials_) (x : ExecCred) : Credentials_ * result unit :=
  let c := match x_setuid x with Some u => set_euid c u | None => c end in
  let c := set_suid c (euid c) in
  let c := match x_setgid x with Some g => set_egid c g | None => c end in
  let c := set_sgid c (egid c) in
  let c := set_permitted_capset c (x_permitted x) in
  let c := set_effective_capset c (x_effective x) in
  let c := store_ambient_capset c (x_ambient x) in
  set_keep_capabilities c false.

(** The executable, as the exec path of [process/execve.rs] reads it. *)
Record Executable := mkExe {
  on_nosuid_mount : bool;
  xattr_caps : option FileCapabilities;     (** [FileCapabilities::read_from_inode] *)
  set_uid_bit : bool;
  set_gid_bit : bool;
  file_owner : Z;
  file_group : Z
}.

(** [prepare_exec_cred] of [process/execve.rs]; the owner of the only user namespace is root. *)
Definition exec_prepare (c : Credentials_) (exe : Executable) : result ExecCred :=
  if on_nosuid_mount exe then prepare_exec_cred c None None None else
  let fc :=
    match xattr_caps exe with
    | Some fc => if default true ((fun u => u =? 0) <$> root_uid fc) then Some fc else None
    | None => None
    end in
  let setuid := if set_uid_bit exe then Some (file_owner exe) else None in
  let setgid := if set_gid_bit exe then Some (file_group exe) else None in
  prepare_exec_cred c fc setuid setgid.

(** The credential side of [execve].  The outer result is that of the preparation, which a caller
    survives; after it, a failure kills the process. *)
Definition exec_cred (c : Credentials_) (exe : Executable) : result (Credentials_ * result unit) :=
  x ← exec_prepare c exe; Ok (apply_exec_cred c x).

(** ** System calls *)

(** [CapabilityLsm::on_capable]. *)
Definition on_capable (c : Credentials_) (required_cap : Z) : result unit :=
  if bf_contains (effective_capset c) required_cap then Ok tt else Err EPERM.

(** [sys_capset] once the header and the six words have been read. *)
Definition sys_capset (c : Credentials_) (plo phi elo ehi ilo ihi : Z) : Credentials_ * result unit :=
  let permitted := from_lo_hi plo phi in
  let effective := from_lo_hi elo ehi in
  let inheritable := from_lo_hi ilo ihi in
  if negb (bf_contains (permitted_capset c) permitted) then (c, Err EPERM)
  else if negb (bf_contains permitted effective) then (c, Err EPERM)
  else
    let capable :=
      if negb (bf_contains (bf_union (inheritable_capset c) (permitted_capset c)) inheritable)
      then on_capable c CAP_SETPCAP else Ok tt in
    match capable with
    | Err e => (c, Err e)
    | Ok _ =>
        if negb (bf_contains (bf_union (inheritable_capset c) (bounding_capset c)) inheritable)
        then (c, Err EPERM)
        else
          let c := set_permitted_capset c permitted in
          let c := set_effective_capset c effective in
          let c := set_inheritable_capset c inheritable in
          (c, Ok tt)
    end.

Definition NGROUPS_MAX : Z := 65536.

(** [sys_setgroups] once the list has been read. *)
Definition sys_setgroups (c : Credentials_) (size : Z) (gids : list Z) : Credentials_ * result unit :=
  match on_capable c CAP_SETGID with
  | Err e => (c, Err e)
  | Ok _ =>
      if size >? NGROUPS_MAX then (c, Err EINVAL)
      else (with_groups c (list_to_set gids), Ok tt)
  end.
End exec.

(** ** What a thread can do to its credentials *)

Inductive cred_op :=
  | OpSetUid (uid : Z)
  | OpSetReuid (r e : option Z)
  | OpSetResuid (r e s : option Z)
  | OpSetFsuid (f : option Z)
  | OpSetGid (gid : Z)
  | OpSetRegid (r e : option Z)
  | OpSetResgid (r e s : option Z)
  | OpSetFsgid (f : option Z)
  | OpSetgroups (size : Z) (gids : list Z)
  | OpCapset (plo phi elo ehi ilo ihi : Z)
  | OpAmbientRaise (capability : Z)
  | OpAmbientLower (capability : Z)
  | OpAmbientClear
  | OpBoundingDrop (capability : Z)
  | OpKeepCaps (keep : bool)
  | OpSecurebits (v : Z)
  | OpNoNewPrivs
  | OpExec (exe : Executable).

Section ops.
Context `{BF : Bitflags}.

(** The state after an operation, whether it succeeded or failed. *)
Definition with_capability (c : Credentials_) (n : Z) (f : Z -> Credentials_) : Credentials_ :=
  match from_capability_number n with Ret (Some cap) => f cap | _ => c end.

Definition run_op (c : Credentials_) (op : cred_op) : Credentials_ :=
  match op with
  | OpSetUid uid => fst (set_uid c uid)
  | OpSetReuid r e => fst (set_reuid c r e)
  | OpSetResuid r e s => fst (set_resuid c r e s)
  | OpSetFsuid f => fst (set_fsuid c f)
  | OpSetGid gid => fst (set_gid c gid)
  | OpSetRegid r e => fst (set_regid c r e)
  | OpSetResgid r e s => fst (set_resgid c r e s)
  | OpSetFsgid f => fst (set_fsgid c f)
  | OpSetgroups size gids => fst (sys_setgroups c size gids)
  | OpCapset plo phi elo ehi ilo ihi => fst (sys_capset c plo phi elo ehi ilo ihi)
  | OpAmbientRaise n => with_capability c n (fun cap => fst (raise_ambient_capability c cap))
  | OpAmbientLower n => with_capability c n (fun cap => lower_ambient_capability c cap)
  | OpAmbientClear => clear_ambient_capset c
  | OpBoundingDrop n => with_capability c n (fun cap => fst (drop_bounding_capability c cap))
  | OpKeepCaps keep => fst (set_keep_capabilities c keep)
  | OpSecurebits v =>
      match SecureBits_try_from v with Ok bits => fst (set_securebits c bits) | Err _ => c end
  | OpNoNewPrivs => set_no_new_privs c
  | OpExec exe => match exec_cred c exe with Ok (c', _) => c' | Err _ => c end
  end.

Definition run_ops (c : Credentials_) (ops : list cred_op) : Credentials_ := fold_left run_op ops c.

Definition is_exec (op : cred_op) : bool := match op with OpExec _ => true | _ => false end.

(** File capabilities hold declared capabilities only, which [CapSet::from_lo_hi] ensures. *)
Definition op_ok (op : cred_op) : Prop :=
  match op with
  | OpExec exe => forall fc, xattr_caps exe = Some fc ->
      bf_contains CapSet_all (fc_permitted fc) = true /\
      bf_contains CapSet_all (fc_inheritable fc) = true
  | _ => True
  end.

(** Every set holds declared capabilities only; what is effective or ambient is permitted, and what
    is ambient is inheritable. *)
Record cred_ok (c : Credentials_) : Prop := {
  ok_inheritable : bf_contains CapSet_all (inheritable_capset c) = true;
  ok_permitted : bf_contains CapSet_all (permitted_capset c) = true;
  ok_bounding : bf_contains CapSet_all (bounding_capset c) = true;
  ok_effective : bf_contains (permitted_capset c) (effective_capset c) = true;
  ok_ambient_permitted : bf_contains (permitted_capset c) (ambient_capset c) = true;
  ok_ambient_inheritable : bf_contains (inheritable_capset c) (ambient_capset c) = true;
  ok_securebits : bf_contains SecureBits_all (securebits c) = true
}.
End ops.

(** ** Lemmas *)
Section lemmas.
Context `{BF : Bitflags}.
Implicit Types c : Credentials_.

(** A change that leaves the inheritable set, the bounding set, the secure bits and [no_new_privs]
    alone, adds no permitted capability, and keeps the invariant. *)
Record cap_frame c c' : Prop := {
  fr_inheritable : inheritable_capset c' = inheritable_capset c;
  fr_bounding : bounding_capset c' = bounding_capset c;
  fr_securebits : securebits c' = securebits c;
  fr_nnp : no_new_privs c' = no_new_privs c;
  fr_permitted : bf_contains (permitted_capset c) (permitted_capset c') = true;
  fr_ok : cred_ok c -> cred_ok c'
}.

Lemma cap_frame_refl c : cap_frame c c.
Proof. split; auto using contains_refl. Qed.

Lemma cap_frame_trans c1 c2 c3 : cap_frame c1 c2 -> cap_frame c2 c3 -> cap_frame c1 c3.
Proof. intros [] []. split; try congruence; eauto using contains_trans. Qed.

(** A change of IDs only. *)
Lemma cap_frame_ids c c' :
  with_capsets c 0 0 0 0 0 = with_capsets (with_uids (with_fsuid (with_gids (with_fsgid (with_groups c'
    (supplementary_gids c)) (fsgid c)) (rgid c) (egid c) (sgid c)) (fsuid c)) (ruid c) (euid c) (suid c))
    0 0 0 0 0 ->
  (inheritable_capset c', permitted_capset c', effective_capset c', bounding_capset c', ambient_capset c') =
  (inheritable_capset c, permitted_capset c, effective_capset c, bounding_capset c, ambient_capset c) ->
  cap_frame c c'.
Proof.
  destruct c, c'; cbn. intros H E. simplify_eq. split; cbn; auto using contains_refl.
  intros []. by split.
Qed.

Ltac ids := apply cap_frame_ids; reflexivity.

Lemma frame_with_uids c r e s : cap_frame c (with_uids c r e s).
Proof. ids. Qed.
Lemma frame_with_fsuid c f : cap_frame c (with_fsuid c f).
Proof. ids. Qed.
Lemma frame_with_groups c g : cap_frame c (with_groups c g).
Proof. ids. Qed.
Lemma frame_resgid c r e s : cap_frame c (set_resgid_unchecked c r e s).
Proof. ids. Qed.
Lemma frame_fsgid c f : cap_frame c (set_fsgid_unchecked c f).
Proof. ids. Qed.

Lemma frame_set_effective c s :
  (cred_ok c -> bf_contains (permitted_capset c) s = true) -> cap_frame c (set_effective_capset c s).
Proof.
  intros H. split; cbn; auto using contains_refl. intros Hc. pose proof (H Hc). destruct Hc. by split.
Qed.

Lemma frame_lower_effective c s :
  cap_frame c (set_effective_capset c (bf_difference (effective_capset c) s)).
Proof. apply frame_set_effective. intros []. flagwise. Qed.

Lemma frame_drop_all c :
  cap_frame c (set_effective_capset (set_permitted_capset c CapSet_empty) CapSet_empty).
Proof.
  split; cbn; auto using contains_empty. intros []. split; cbn; auto using contains_empty; flagwise.
Qed.

Lemma frame_store_ambient c s :
  (cred_ok c -> bf_contains (permitted_capset c) s = true /\ bf_contains (inheritable_capset c) s = true) ->
  cap_frame c (store_ambient_capset c s).
Proof.
  intros H. split; cbn; auto using contains_refl. intros Hc. destruct (H Hc), Hc. by split.
Qed.

Lemma frame_clear_ambient c : cap_frame c (clear_ambient_capset c).
Proof. apply frame_store_ambient. auto using contains_empty. Qed.

Lemma frame_fsuid_unchecked c f : cap_frame c (set_fsuid_unchecked c f).
Proof.
  unfold set_fsuid_unchecked. case_cond; [|apply frame_with_fsuid].
  eapply cap_frame_trans; [apply frame_with_fsuid|]. apply frame_lower_effective.
Qed.

Lemma frame_resuid_unchecked c r e s : cap_frame c (set_resuid_unchecked c r e s).
Proof.
  unfold set_resuid_unchecked.
  set (c1 := set_fsuid_unchecked (with_uids c _ _ _) _).
  assert (cap_frame c c1) as H1
    by (eapply cap_frame_trans; [apply frame_with_uids|apply frame_fsuid_unchecked]).
  case_cond; [done|].
  match goal with |- context [if ?b && ?d then ?x else c1] =>
    set (c2 := if b && d then x else c1) end.
  assert (cap_frame c c2) as H2.
  { subst c2. eapply cap_frame_trans; [exact H1|]. case_cond; [|apply cap_frame_refl].
    case_cond; [apply frame_drop_all|apply frame_clear_ambient]. }
  eapply cap_frame_trans; [exact H2|]. case_cond; [|case_cond; [|apply cap_frame_refl]];
    apply frame_set_effective; auto using contains_empty, contains_refl.
Qed.
End lemmas.

(** ** Secure-bit locks *)

(** The bits that have a lock bit above them. *)
Definition lockable (k : Z) : Prop := k = 0 \/ k = 2 \/ k = 4 \/ k = 6.

(** Locked bits keep their value and stay locked. *)
Definition locks_kept (s s' : Z) : Prop :=
  forall k, lockable k -> Z.testbit s (k + 1) = true ->
    Z.testbit s' (k + 1) = true /\ Z.testbit s' k = Z.testbit s k.

Section locks.
Context `{BF : Bitflags}.

Lemma locks_kept_refl s : locks_kept s s.
Proof. by intros k. Qed.

Lemma locks_kept_trans s1 s2 s3 : locks_kept s1 s2 -> locks_kept s2 s3 -> locks_kept s1 s3.
Proof.
  intros H1 H2 k Hk Hb. destruct (H1 k Hk Hb) as [Hb' <-]. by apply H2.
Qed.

Lemma locked_bits_spec s k :
  lockable k -> Z.testbit (locked_bits s) k = Z.testbit s (k + 1).
Proof.
  intros Hk. unfold locked_bits.
  rewrite bf_from_bits_truncate_spec, Z.shiftr_spec, Z.land_spec by (unfold lockable in Hk; lia).
  destruct Hk as [->|[->|[->| ->]]]; cbn; by rewrite !andb_true_r.
Qed.

Lemma try_store_locks current bits : locks_kept current (fst (try_store current bits)).
Proof.
  unfold try_store. case_cond; [apply locks_kept_refl|]. case_cond; [apply locks_kept_refl|].
  intros k Hk Hb. cbn. split.
  - destruct (Z.testbit bits (k + 1)) eqn:E'; [done|].
    assert (Z.testbit (Z.land (Z.land LOCK_MASK current) (Z.lxor bits 65535)) (k + 1) = true) as H.
    { rewrite !Z.land_spec, Z.lxor_spec, Hb, E'. by destruct Hk as [->|[->|[->| ->]]]. }
    by rewrite E0, Z.bits_0 in H.
  - pose proof (locked_bits_spec current k Hk) as Hl.
    assert (Z.testbit (bf_intersection (locked_bits current) current) k =
            Z.testbit (bf_intersection (locked_bits current) bits) k) as H by congruence.
    rewrite !bf_intersection_spec, Hl, Hb in H by (unfold lockable in Hk; lia). done.
Qed.

(** The only refusals are changes of a locked bit or of a set lock bit. *)
Lemma try_store_accepts current bits :
  bf_contains SecureBits_all current = true -> bf_contains SecureBits_all bits = true ->
  snd (try_store current bits) = Ok tt <-> locks_kept current bits.
Proof.
  intros Hc Hb. split; intros H.
  { pose proof (try_store_locks current bits) as Hl. revert H Hl. unfold try_store.
    by repeat case_cond. }
  assert (bf_intersection (locked_bits current) current = bf_intersection (locked_bits current) bits)
    as E1.
  { apply bits_eq. intros k Hk. rewrite !bf_intersection_spec by done.
    destruct (Z.testbit (locked_bits current) k) eqn:El; [|done]. cbn.
    assert (lockable k) as Hlk.
    { unfold locked_bits in El.
      rewrite bf_from_bits_truncate_spec, Z.shiftr_spec, Z.land_spec in El by done. boolify.
      destruct (Z.lt_ge_cases k 7) as [Hlt|Hge].
      - assert (k = 0 \/ k = 1 \/ k = 2 \/ k = 3 \/ k = 4 \/ k = 5 \/ k = 6) as Hs by lia.
        unfold lockable. destruct Hs as [->|[->|[->|[->|[->|[->| ->]]]]]]; auto; done.
      - exfalso. rewrite (Z.bits_above_log2 LOCK_MASK) in *; [done|done|]. cbn. lia. }
    symmetry. apply H; [done|]. by rewrite <- locked_bits_spec. }
  unfold try_store. rewrite E1, Z.eqb_refl. cbn [negb].
  enough (Z.land (Z.land LOCK_MASK current) (Z.lxor bits 65535) = 0) as -> by done.
  apply Z.bits_inj_0. intros n. destruct (Z.testbit _ n) eqn:En; [|done]. exfalso.
  destruct (Z.neg_nonneg_cases n) as [Hn|Hn]; [by rewrite Z.testbit_neg_r in En|].
  rewrite !Z.land_spec, Z.lxor_spec in En. apply andb_prop in En as [[Hm Hcn]%andb_prop Hx].
  destruct (Z.lt_ge_cases n 8) as [Hlt|Hge]; [|rewrite (Z.bits_above_log2 LOCK_MASK) in Hm;
    [done|done|cbn; lia]].
  assert (n = 0 \/ n = 1 \/ n = 2 \/ n = 3 \/ n = 4 \/ n = 5 \/ n = 6 \/ n = 7) as Hs by lia.
  destruct Hs as [->|[->|[->|[->|[->|[->|[->| ->]]]]]]]; try done;
    match type of Hx with context [Z.testbit bits ?m] =>
      destruct (H (m - 1)) as [Hk _]; [unfold lockable; lia|done|];
      change (m - 1 + 1) with m in Hk; rewrite Hk in Hx; done end.
Qed.

Lemma try_store_known current bits :
  bf_contains SecureBits_all current = true -> bf_contains SecureBits_all bits = true ->
  bf_contains SecureBits_all (fst (try_store current bits)) = true.
Proof. intros. unfold try_store. by repeat case_cond. Qed.
End locks.

(** ** One step *)
Section step.
Context `{BF : Bitflags}.
Implicit Types c : Credentials_.

(** What one operation may do to the capability sets and the secure bits. *)
Record step_ok (ex : bool) c c' : Prop := {
  st_ok : cred_ok c';
  st_bounding : bf_contains (bounding_capset c) (bounding_capset c') = true;
  st_inheritable :
    bf_contains (bf_union (inheritable_capset c) (bounding_capset c)) (inheritable_capset c') = true;
  st_permitted : bf_contains
    (bf_union (permitted_capset c) (bf_union (inheritable_capset c) (bounding_capset c)))
    (permitted_capset c') = true;
  st_no_gain : ex = false \/ no_new_privs c = true ->
    bf_contains (permitted_capset c) (permitted_capset c') = true;
  st_nnp : no_new_privs c = true -> no_new_privs c' = true;
  st_locks : locks_kept (securebits c) (securebits c')
}.

Lemma frame_step ex c c' : cred_ok c -> cap_frame c c' -> step_ok ex c c'.
Proof.
  intros Hc [Hi Hb Hs Hn Hp Hok]. split; rewrite ?Hi, ?Hb, ?Hs, ?Hn; auto using locks_kept_refl.
  - apply contains_refl.
  - flagwise.
  - flagwise.
Qed.

Lemma step_refl ex c : cred_ok c -> step_ok ex c c.
Proof. intros. apply frame_step; [done|]. apply cap_frame_refl. Qed.

(** A store of secure bits through [try_store]. *)
Lemma securebits_step ex c bits :
  cred_ok c -> bf_contains SecureBits_all bits = true ->
  step_ok ex c (with_securebits c (fst (try_store (securebits c) bits))).
Proof.
  intros Hc Hb. pose proof Hc as []. split; cbn; auto using contains_refl, try_store_locks; try flagwise.
  split; cbn; auto using try_store_known.
Qed.

Lemma keep_capabilities_step ex c keep : cred_ok c -> step_ok ex c (fst (set_keep_capabilities c keep)).
Proof.
  intros Hc. unfold set_keep_capabilities.
  match goal with |- context [try_store ?a ?b] => pose proof (securebits_step ex c b Hc) as H end.
  destruct (try_store _ _) as [s r]. cbn in *. apply H. pose proof (ok_securebits _ Hc) as Hs.
  case_cond; [flagwise|]. rewrite contains_in in *. intros i Hi. specialize (Hs i Hi).
  autorewrite with flags. intros [?|Hk]; [auto|].
  unfold SECBIT_KEEP_CAPS in Hk. rewrite Z.pow2_bits_eqb in Hk by lia. apply Z.eqb_eq in Hk as <-. done.
Qed.

Lemma set_securebits_step ex c v :
  cred_ok c ->
  step_ok ex c (match SecureBits_try_from v with Ok b => fst (set_securebits c b) | Err _ => c end).
Proof.
  intros Hc. unfold SecureBits_try_from. rewrite bf_from_bits_spec.
  case_cond; [|by apply step_refl]. unfold set_securebits. case_cond; [by apply step_refl|].
  pose proof (securebits_step ex c v Hc) as H. destruct (try_store _ _) as [s r]. cbn in *. auto.
Qed.

Lemma from_lo_hi_known lo hi : bf_contains CapSet_all (from_lo_hi lo hi) = true.
Proof. unfold from_lo_hi. flagwise. Qed.

Lemma sys_capset_step ex c plo phi elo ehi ilo ihi :
  cred_ok c -> step_ok ex c (fst (sys_capset c plo phi elo ehi ilo ihi)).
Proof.
  intros Hc. unfold sys_capset.
  pose proof (from_lo_hi_known plo phi) as Kp. pose proof (from_lo_hi_known ilo ihi) as Ki.
  set (p := from_lo_hi plo phi) in *. set (e := from_lo_hi elo ehi).
  set (i := from_lo_hi ilo ihi) in *. clearbody p e i.
  case_cond; [by apply step_refl|]. case_cond; [by apply step_refl|].
  destruct (if negb (bf_contains (bf_union (inheritable_capset c) (permitted_capset c)) i) then _ else _);
    [|by apply step_refl].
  case_cond; [by apply step_refl|]. pose proof Hc as [].
  split; cbn; auto using contains_refl, locks_kept_refl; [|flagwise].
  split; cbn; auto; flagwise.
Qed.

Lemma from_capability_number_known n cap :
  from_capability_number n = Ret (Some cap) -> bf_contains CapSet_all cap = true.
Proof.
  unfold from_capability_number. case_cond; [done|]. rewrite bf_from_bits_spec.
  destruct (bf_contains CapSet_all (Z.shiftl 1 n)) eqn:E'; cbn; [|done]. by intros [= <-].
Qed.

Lemma raise_ambient_step ex c cap :
  cred_ok c -> step_ok ex c (fst (raise_ambient_capability c cap)).
Proof.
  intros Hc. unfold raise_ambient_capability. case_cond; [by apply step_refl|].
  case_cond; [by apply step_refl|]. apply frame_step; [done|].
  apply frame_store_ambient. intros []. boolify. split; flagwise.
Qed.

Lemma drop_bounding_step ex c cap :
  cred_ok c -> step_ok ex c (fst (drop_bounding_capability c cap)).
Proof.
  intros Hc. unfold drop_bounding_capability. case_cond; [by apply step_refl|]. pose proof Hc as [].
  split; cbn; auto using contains_refl, locks_kept_refl; try flagwise.
  split; cbn; auto; flagwise.
Qed.
End step.

Section exec_step.
Context `{BF : Bitflags}.
Implicit Types c : Credentials_.

(** The sets that [execve] computes, whatever the file and the IDs. *)
Lemma calculate_capsets_bounds c fc nnp e g p ef a :
  cred_ok c ->
  (forall f, fc = Some f -> bf_contains CapSet_all (fc_permitted f) = true /\
                            bf_contains CapSet_all (fc_inheritable f) = true) ->
  calculate_capsets_for_exec c fc nnp e g = Ok (p, ef, a) ->
  bf_contains CapSet_all p = true /\ bf_contains p ef = true /\ bf_contains p a = true /\
  bf_contains (ambient_capset c) a = true /\
  bf_contains (bf_union (permitted_capset c) (bf_union (inheritable_capset c) (bounding_capset c))) p
    = true /\
  (nnp = true -> bf_contains (permitted_capset c) p = true).
Proof.
  intros Hc Hfc. pose proof Hc as []. unfold calculate_capsets_for_exec.
  set (amb := if is_some fc || _ then CapSet_empty else ambient_capset c).
  assert (bf_contains (ambient_capset c) amb = true) as Ha.
  { subst amb. case_cond; auto using contains_empty, contains_refl. }
  clearbody amb.
  match goal with |- context [if negb (no_root (securebits c)) && ?b then ?x else ?y] =>
    destruct (if negb (no_root (securebits c)) && b then x else y) as [[fp fi] fe] end.
  case_cond; [done|]. intros [= <- <- <-].
  destruct nnp; split_and!; try done; try (intros _); flagwise.
Qed.

Lemma prepare_exec_bounds c fc su sg x :
  cred_ok c ->
  (forall f, fc = Some f -> bf_contains CapSet_all (fc_permitted f) = true /\
                            bf_contains CapSet_all (fc_inheritable f) = true) ->
  prepare_exec_cred c fc su sg = Ok x ->
  bf_contains CapSet_all (x_permitted x) = true /\
  bf_contains (x_permitted x) (x_effective x) = true /\
  bf_contains (x_permitted x) (x_ambient x) = true /\
  bf_contains (ambient_capset c) (x_ambient x) = true /\
  bf_contains (bf_union (permitted_capset c) (bf_union (inheritable_capset c) (bounding_capset c)))
    (x_permitted x) = true /\
  (no_new_privs c = true -> bf_contains (permitted_capset c) (x_permitted x) = true /\
     x_setuid x = None /\ x_setgid x = None).
Proof.
  intros Hc Hfc. unfold prepare_exec_cred.
  destruct (if no_new_privs c then (None, None) else (su, sg)) as [su' sg'] eqn:Es.
  destruct (calculate_capsets_for_exec _ _ _ _ _) as [[[p e] a]|] eqn:E; cbn; [|done].
  intros [= <-]. cbn. apply calculate_capsets_bounds in E as (?&?&?&?&?&?); [|done..].
  split_and!; auto. intros Hn. rewrite Hn in *. simplify_eq. auto.
Qed.

(** The ID changes of [apply_exec_cred], before the capability sets are stored. *)
Definition exec_ids c (x : ExecCred) : Credentials_ :=
  let c := match x_setuid x with Some u => set_euid c u | None => c end in
  let c := set_suid c (euid c) in
  let c := match x_setgid x with Some g => set_egid c g | None => c end in
  set_sgid c (egid c).

Lemma exec_ids_frame c x : cap_frame c (exec_ids c x).
Proof.
  unfold exec_ids, set_euid, set_suid, set_egid, set_sgid.
  destruct (x_setuid x), (x_setgid x);
    repeat (eapply cap_frame_trans; [|first [apply frame_resgid | apply frame_resuid_unchecked]]);
    apply cap_frame_refl.
Qed.

Lemma apply_exec_eq c x :
  apply_exec_cred c x =
  set_keep_capabilities (store_ambient_capset (set_effective_capset (set_permitted_capset
    (exec_ids c x) (x_permitted x)) (x_effective x)) (x_ambient x)) false.
Proof. done. Qed.

Lemma step_trans_locks ex c c1 s :
  step_ok ex c c1 -> cred_ok (with_securebits c1 s) -> locks_kept (securebits c1) s ->
  step_ok ex c (with_securebits c1 s).
Proof. intros [] Hc Hl. split; cbn; auto. by eapply locks_kept_trans. Qed.

Lemma keep_capabilities_only c keep :
  with_securebits c (securebits (fst (set_keep_capabilities c keep))) =
  fst (set_keep_capabilities c keep).
Proof. unfold set_keep_capabilities. by destruct (try_store _ _). Qed.

Lemma exec_step c exe :
  cred_ok c -> op_ok (OpExec exe) ->
  step_ok true c (match exec_cred c exe with Ok (c', _) => c' | Err _ => c end).
Proof.
  intros Hc Hexe. unfold exec_cred. destruct (exec_prepare c exe) as [x|] eqn:E; cbn; [|by apply step_refl].
  assert (exists fc su sg, prepare_exec_cred c fc su sg = Ok x /\
    forall f, fc = Some f -> bf_contains CapSet_all (fc_permitted f) = true /\
                             bf_contains CapSet_all (fc_inheritable f) = true)
    as (fc & su & sg & Ep & Hfc).
  { unfold exec_prepare in E. case_cond_in E; [do 3 eexists; split; [exact E|done]|].
    do 3 eexists. split; [exact E|]. intros f Hf. apply Hexe.
    destruct (xattr_caps exe); [|done]. by case_cond_in Hf. }
  apply prepare_exec_bounds in Ep as (K1 & K2 & K3 & K4 & K5 & K6); [|done..].
  rewrite apply_exec_eq. destruct (exec_ids_frame c x) as [Fi Fb Fs Fn Fp Fok].
  set (c1 := store_ambient_capset _ _).
  assert (step_ok true c c1) as H1.
  { pose proof (Fok Hc) as []. pose proof Hc as []. subst c1. cbn in *.
    split; cbn; rewrite ?Fi, ?Fb, ?Fs, ?Fn in *; auto using contains_refl, locks_kept_refl.
    - split; cbn; rewrite ?Fi, ?Fb, ?Fs in *; auto. flagwise.
    - flagwise.
    - intros [?|Hn]; [done|]. by apply K6. }
  destruct (set_keep_capabilities c1 false) as [c2 r] eqn:E2. cbn.
  pose proof (keep_capabilities_step true c1 false (st_ok _ _ _ H1)) as H2. rewrite E2 in H2.
  pose proof (keep_capabilities_only c1 false) as H. rewrite E2 in H. cbn in H.
  rewrite <- H. apply step_trans_locks; [done|rewrite H; apply H2|apply H2].
Qed.

(** Closes the cases that leave the state alone or change it by a frame. *)
Ltac framed :=
  first [by apply step_refl
        | apply frame_step; [done|];
          first [apply frame_resuid_unchecked | apply frame_fsuid_unchecked | apply frame_resgid
                | apply frame_fsgid | apply frame_with_groups | apply frame_clear_ambient]].

Lemma run_op_step c op :
  cred_ok c -> op_ok op -> step_ok (is_exec op) c (run_op c op).
Proof.
  intros Hc Hop. destruct op; cbn [run_op is_exec].
  - unfold set_uid, set_resuid. case_cond; [framed|]. destruct (check_uid_perm _ _ _ _ _); framed.
  - unfold set_reuid. destruct (check_uid_perm _ _ _ _ _); framed.
  - unfold set_resuid. destruct (check_uid_perm _ _ _ _ _); framed.
  - unfold set_fsuid. destruct f; [repeat case_cond|]; framed.
  - unfold set_gid, set_resgid. case_cond; [framed|]. destruct (check_gid_perm _ _ _ _ _); framed.
  - unfold set_regid. destruct (check_gid_perm _ _ _ _ _); framed.
  - unfold set_resgid. destruct (check_gid_perm _ _ _ _ _); framed.
  - unfold set_fsgid. destruct f; [repeat case_cond|]; framed.
  - unfold sys_setgroups. destruct (on_capable _ _); [case_cond|]; framed.
  - by apply sys_capset_step.
  - unfold with_capability. repeat case_match; try framed. by apply raise_ambient_step.
  - unfold with_capability. repeat case_match; try framed.
    apply frame_step; [done|]. apply frame_store_ambient. intros []. split; flagwise.
  - framed.
  - unfold with_capability. repeat case_match; try framed. by apply drop_bounding_step.
  - by apply keep_capabilities_step.
  - by apply set_securebits_step.
  - pose proof Hc as []. split; cbn; auto using contains_refl, locks_kept_refl; try flagwise. by split.
  - by apply exec_step.
Qed.
End exec_step.

Section reach.
Context `{BF : Bitflags}.
Implicit Types c : Credentials_.

Lemma cred_ok_root : cred_ok Credentials_new_root.
Proof. split; cbn; auto using contains_refl, contains_empty. Qed.

(** Induction over a sequence of operations, for a relation that holds at the start and is kept. *)
Lemma run_ops_ind (R : Credentials_ -> Prop) c ops :
  cred_ok c -> Forall op_ok ops -> R c ->
  (forall c1 op, cred_ok c1 -> R c1 -> step_ok (is_exec op) c1 (run_op c1 op) -> R (run_op c1 op)) ->
  cred_ok (run_ops c ops) /\ R (run_ops c ops).
Proof.
  intros Hc Hops HR Hstep. revert c Hc HR. induction Hops as [|op ops Hop _ IH]; intros c Hc HR; [done|].
  cbn. pose proof (run_op_step c op Hc Hop) as Hs. apply IH; [apply Hs|auto].
Qed.

Lemma foreign_false id ids : foreign id ids = false <-> forall i, id = Some i -> i ∈ ids.
Proof.
  destruct id as [i|]; cbn; [|split; done].
  assert (forallb (fun j => negb (i =? j)) ids = false <-> i ∈ ids) as ->; [|naive_solver].
  induction ids as [|a ids IH]; cbn; [by rewrite elem_of_nil|].
  rewrite andb_false_iff, IH, elem_of_cons, negb_false_iff, Z.eqb_eq. done.
Qed.

Lemma try_store_res s b : snd (try_store s b) = Ok tt \/ snd (try_store s b) = Err EPERM.
Proof. unfold try_store. repeat case_cond; auto. Qed.
End reach.

(** ** Properties *)

(** C27: Starting from the root credentials, every sequence of the operations of a thread keeps the
    capability sets consistent: declared capabilities only, the effective and the ambient set within
    the permitted set, and the ambient set within the inheritable set. *)
Theorem credentials_stay_consistent `{BF : Bitflags} ops :
  Forall op_ok ops -> cred_ok (run_ops Credentials_new_root ops).
Proof.
  intros H. by apply (run_ops_ind (fun _ => True) Credentials_new_root ops); auto using cred_ok_root.
Qed.

Definition plain_exe : Executable := mkExe false None false false 1000 1000.

Definition demo_ops : list cred_op :=
  [OpKeepCaps true; OpCapset 4294967295 511 4294967295 511 8 0; OpAmbientRaise 3;
   OpSetUid 1000; OpExec plain_exe].

Lemma credentials_stay_consistent_witness :
  cred_ok (BF := Zflags) (run_ops (BF := Zflags) Credentials_new_root demo_ops).
Proof. apply credentials_stay_consistent. repeat constructor; done. Defined.

(** C18: Once [no_new_privs] is set, no sequence of operations, [execve] of set-user-ID programs and
    of files with capabilities included, ever adds a permitted capability, and the flag stays set. *)
Theorem no_new_privs_never_gains `{BF : Bitflags} c ops :
  cred_ok c -> no_new_privs c = true -> Forall op_ok ops ->
  bf_contains (permitted_capset c) (permitted_capset (run_ops c ops)) = true /\
  no_new_privs (run_ops c ops) = true.
Proof.
  intros Hc Hn Hops.
  apply (run_ops_ind (fun c1 => bf_contains (permitted_capset c) (permitted_capset c1) = true /\
    no_new_privs c1 = true) c ops); auto using contains_refl.
  intros c1 op _ [Hp Hn1] Hs. split; [|by apply Hs].
  eapply contains_trans; [exact Hp|]. apply Hs. by right.
Qed.

Definition demo_setuid_exe : Executable :=
  mkExe false (Some (mkFileCaps CapSet_all 0 true None)) true false 0 0.

Lemma no_new_privs_never_gains_witness :
  permitted_capset (run_ops (BF := Zflags) (set_no_new_privs (Credentials_new 1000 1000 0))
    [OpExec demo_setuid_exe; OpSetUid 0]) = 0.
Proof.
  destruct (no_new_privs_never_gains (BF := Zflags) (set_no_new_privs (Credentials_new 1000 1000 0))
    [OpExec demo_setuid_exe; OpSetUid 0]) as [H _]; [by split|done| |].
  - repeat apply Forall_cons_2; [|done|done]. cbn. by intros fc [= <-].
  - exact (contains_antisym (BF := Zflags) _ _ (contains_empty _) H).
Defined.

(** The lock bits of the secure bits are irreversible: after any sequence of operations, a lock
    that was set is set, and the bit it protects has the value it had. *)
Theorem securebits_locks_irreversible `{BF : Bitflags} c ops :
  cred_ok c -> Forall op_ok ops -> locks_kept (securebits c) (securebits (run_ops c ops)).
Proof.
  intros Hc Hops.
  apply (run_ops_ind (fun c1 => locks_kept (securebits c) (securebits c1)) c ops);
    auto using locks_kept_refl.
  intros c1 op _ Hl Hs. eapply locks_kept_trans; [exact Hl|apply Hs].
Qed.

Lemma securebits_locks_irreversible_witness :
  Z.testbit (securebits (run_ops (BF := Zflags) (with_securebits Credentials_new_root 3)
    [OpSecurebits 0; OpSecurebits 255; OpKeepCaps true])) 0 = true.
Proof.
  pose proof (securebits_locks_irreversible (BF := Zflags) (with_securebits Credentials_new_root 3)
    [OpSecurebits 0; OpSecurebits 255; OpKeepCaps true]) as H.
  destruct (H ltac:(by split) ltac:(by repeat constructor) 0) as [_ ->]; [by left|done..].
Defined.

(** C26: A capability that is in none of the permitted, inheritable and bounding sets is gone for good:
    no sequence of operations, [execve] included, makes it permitted or effective again. *)
Theorem dropped_capability_never_returns `{BF : Bitflags} c ops k :
  cred_ok c -> Forall op_ok ops -> 0 <= k ->
  Z.testbit (permitted_capset c) k = false -> Z.testbit (inheritable_capset c) k = false ->
  Z.testbit (bounding_capset c) k = false ->
  Z.testbit (permitted_capset (run_ops c ops)) k = false /\
  Z.testbit (effective_capset (run_ops c ops)) k = false.
Proof.
  intros Hc Hops Hk Hp Hi Hb. rewrite <- !not_true_iff_false in *.
  apply (run_ops_ind (fun c1 => ~ Z.testbit (permitted_capset c1) k = true /\
    ~ Z.testbit (inheritable_capset c1) k = true /\ ~ Z.testbit (bounding_capset c1) k = true) c ops)
    in Hops as [Hok (Hp' & _)]; [|done..|].
  - split; [done|]. pose proof (ok_effective _ Hok) as He. rewrite contains_in in He. auto.
  - intros c1 op _ (H1 & H2 & H3) [_ Sb Si Sp _ _ _]. rewrite !contains_in in *.
    specialize (Sb k Hk). specialize (Si k Hk). specialize (Sp k Hk).
    autorewrite with flags in *. tauto.
Qed.

Lemma dropped_capability_never_returns_witness :
  Z.testbit (effective_capset (run_ops (BF := Zflags)
    (with_capsets Credentials_new_root 0 0 0 (CapSet_all - 8) 0) [OpExec demo_setuid_exe])) 3 = false.
Proof.
  apply (dropped_capability_never_returns (BF := Zflags)
    (with_capsets Credentials_new_root 0 0 0 (CapSet_all - 8) 0) [OpExec demo_setuid_exe] 3);
    [by split| |done..].
  apply Forall_cons_2; [|done]. cbn. by intros fc [= <-].
Defined.

(** Without [CAP_SETUID], [set_resuid] succeeds exactly when every ID given is one of the old
    real, effective and saved IDs; then exactly the given IDs change and the filesystem ID follows
    the effective one.  Otherwise it fails with [EPERM] and changes nothing. *)
Theorem set_resuid_unprivileged `{BF : Bitflags} c r e s :
  bf_contains (effective_capset c) CAP_SETUID = false ->
  let ids := [ruid c; euid c; suid c] in
  let allowed := forall i, Some i ∈ [r; e; s] -> i ∈ ids in
  let '(c', res) := set_resuid c r e s in
  (res = Ok tt <-> allowed) /\ (res = Err EPERM <-> ~ allowed) /\
  (res = Ok tt -> ruid c' = default (ruid c) r /\ euid c' = default (euid c) e /\
     suid c' = default (suid c) s /\ fsuid c' = default (euid c) e) /\
  (res <> Ok tt -> c' = c).
Proof.
  intros Hcap ids allowed. unfold set_resuid, check_uid_perm. rewrite Hcap. fold ids.
  assert ((foreign r ids = false /\ foreign e ids = false /\ foreign s ids = false) <-> allowed) as Ha.
  { rewrite !foreign_false. subst allowed. setoid_rewrite elem_of_cons. setoid_rewrite elem_of_cons.
    setoid_rewrite list_elem_of_singleton. naive_solver. }
  destruct (foreign r ids), (foreign e ids), (foreign s ids);
    try (split_and!; [|split; [intros _|done]| |done]; naive_solver).
  split_and!; [naive_solver|naive_solver| |done]. intros _.
  unfold set_resuid_unchecked, set_fsuid_unchecked. repeat case_cond; done.
Qed.

Lemma set_resuid_unprivileged_witness :
  snd (set_resuid (BF := Zflags) (Credentials_new 1000 1000 0) None (Some 0) None) = Err EPERM.
Proof.
  pose proof (set_resuid_unprivileged (BF := Zflags) (Credentials_new 1000 1000 0) None (Some 0) None
    eq_refl) as H.
  destruct (set_resuid (BF := Zflags) (Credentials_new 1000 1000 0) None (Some 0) None) as [c' res].
  destruct H as (_ & H & _). apply H. intros Hall. specialize (Hall 0). set_solver.
Defined.

(** The predicate under which a process has really given up root. *)
Definition unprivileged (c : Credentials_) : Prop :=
  permitted_capset c = 0 /\ effective_capset c = 0 /\ ambient_capset c = 0.

(** [setuid] to an ordinary user by a root process, with the default secure bits, gives up root
    for good: the four user IDs become that user's, the permitted, effective and ambient sets become
    empty, and every later attempt to get user ID 0 back fails with [EPERM] and changes nothing. *)
Theorem set_uid_gives_up_root `{BF : Bitflags} c uid r e s :
  bf_contains (effective_capset c) CAP_SETUID = true -> euid c = 0 -> uid <> 0 ->
  no_setuid_fixup (securebits c) = false -> sec_keep_capabilities (securebits c) = false ->
  let c' := fst (set_uid c uid) in
  snd (set_uid c uid) = Ok tt /\
  (ruid c', euid c', suid c', fsuid c') = (uid, uid, uid, uid) /\ unprivileged c' /\
  (Some 0 ∈ [r; e; s] -> set_resuid c' r e s = (c', Err EPERM)) /\
  set_uid c' 0 = (c', Err EPERM).
Proof.
  intros Hcap He Hu Hf Hk c'. unfold c', set_uid. rewrite Hcap. cbn [fst snd].
  set (c1 := set_resuid_unchecked c (Some uid) (Some uid) (Some uid)).
  assert ((ruid c1, euid c1, suid c1, fsuid c1) = (uid, uid, uid, uid) /\ unprivileged c1)
    as [Hids Hun].
  { subst c1. unfold set_resuid_unchecked, from_option, id.
    set (c2 := set_fsuid_unchecked (with_uids c uid uid uid) uid).
    assert ((ruid c2, euid c2, suid c2, fsuid c2, securebits c2) = (uid, uid, uid, uid, securebits c))
      as [= H1 H2 H3 H4 H5] by (unfold c2, set_fsuid_unchecked; by case_cond).
    clearbody c2. unfold keep_capabilities. rewrite H5, Hf, Hk, He.
    rewrite (proj2 (Z.eqb_neq uid 0) Hu : is_root uid = false), orb_true_r. change (is_root 0) with true.
    assert (forall x, bf_intersection x 0 = 0) as Hi by (intros x; flagwise).
    unfold unprivileged. cbn. rewrite H1, H2, H3, H4. by rewrite Hi. }
  clearbody c1. injection Hids as Er Ee Es Ef. destruct Hun as (Hp & Heff & Ham).
  assert (bf_contains (effective_capset c1) CAP_SETUID = false) as Hno.
  { rewrite Heff. unfold CAP_SETUID. rewrite contains_pow2 by lia. done. }
  assert (forall r e s, Some 0 ∈ [r; e; s] -> set_resuid c1 r e s = (c1, Err EPERM)) as Hres.
  { intros r' e' s' Hin. unfold set_resuid, check_uid_perm. rewrite Hno, Er, Ee, Es.
    assert (foreign (Some 0) [uid; uid; uid] = true) as H0.
    { unfold foreign, forallb. by rewrite (proj2 (Z.eqb_neq 0 uid)) by lia. }
    rewrite !elem_of_cons in Hin. destruct Hin as [<-|[<-|[<-|[]%elem_of_nil]]]; rewrite H0; repeat case_cond; done. }
  split_and!; [done|congruence|done|apply Hres|]. rewrite Hno. apply Hres. set_solver.
Qed.

Lemma set_uid_gives_up_root_witness :
  set_uid (BF := Zflags) (fst (set_uid (BF := Zflags) Credentials_new_root 1000)) 0 =
  (fst (set_uid (BF := Zflags) Credentials_new_root 1000), Err EPERM).
Proof.
  by apply (set_uid_gives_up_root (BF := Zflags) Credentials_new_root 1000 None None None).
Defined.

(** [execve] of an ordinary file (no set-ID bits, no file capabilities) keeps all IDs; for an
    ordinary user the new permitted and effective sets are the ambient set, and for root, with the
    default secure bits, they are the inheritable and bounding sets together with the ambient set. *)
Theorem exec_ordinary_file `{BF : Bitflags} c x :
  cred_ok c -> no_new_privs c = false -> no_root (securebits c) = false ->
  (egid c = fsgid c \/ egid c ∈ supplementary_gids c) ->
  prepare_exec_cred c None None None = Ok x ->
  x_setuid x = None /\ x_setgid x = None /\ x_ambient x = ambient_capset c /\
  (ruid c <> 0 -> euid c <> 0 ->
     x_permitted x = ambient_capset c /\ x_effective x = ambient_capset c) /\
  (euid c = 0 ->
     x_permitted x = bf_union (bf_union (inheritable_capset c) (bounding_capset c)) (ambient_capset c) /\
     x_effective x = x_permitted x).
Proof.
  intros Hc Hn Hnr Hg. unfold prepare_exec_cred, calculate_capsets_for_exec. rewrite Hn, Hnr.
  cbn [default is_some orb andb negb fmap option_fmap option_map]. rewrite Z.eqb_refl. cbn [negb orb].
  replace (negb (egid c =? fsgid c) && negb (bool_decide (egid c ∈ supplementary_gids c))) with false.
  2:{ destruct Hg as [->|Hg]; [by rewrite Z.eqb_refl|]. rewrite bool_decide_eq_true_2 by done.
      by rewrite andb_false_r. }
  pose proof Hc as []. intros E. split_and!.
  - repeat case_cond_in E; by simplify_eq/=.
  - repeat case_cond_in E; by simplify_eq/=.
  - repeat case_cond_in E; by simplify_eq/=.
  - intros Hr He. rewrite (proj2 (Z.eqb_neq (euid c) 0) He : is_root (euid c) = false) in E.
    rewrite (proj2 (Z.eqb_neq (ruid c) 0) Hr : is_root (ruid c) = false) in E.
    simplify_eq/=. split; flagwise.
  - intros He. rewrite (proj2 (Z.eqb_eq (euid c) 0) He : is_root (euid c) = true), orb_true_r in E.
    simplify_eq/=. split; flagwise.
Qed.

Lemma exec_ordinary_file_witness :
  exists x, prepare_exec_cred (BF := Zflags) Credentials_new_root None None None = Ok x /\
    x_permitted x = CapSet_all /\ x_effective x = x_permitted x.
Proof.
  destruct (prepare_exec_cred (BF := Zflags) Credentials_new_root None None None) as [x|] eqn:E;
    [|vm_compute in E; congruence].
  exists x. split; [done|].
  destruct (exec_ordinary_file (BF := Zflags) Credentials_new_root x) as (_ & _ & _ & _ & H);
    [apply cred_ok_root|done|done|by left|done|]. by apply H.
Defined.

(** [set_securebits] by a thread with [CAP_SETPCAP] succeeds exactly when no locked bit changes and
    no lock is released; the bits are then the given ones, and otherwise nothing changes. *)
Theorem set_securebits_correct `{BF : Bitflags} c bits :
  cred_ok c -> bf_contains (effective_capset c) CAP_SETPCAP = true ->
  bf_contains SecureBits_all bits = true ->
  let '(c', res) := set_securebits c bits in
  (res = Ok tt <-> locks_kept (securebits c) bits) /\
  (res = Ok tt -> c' = with_securebits c bits) /\ (res <> Ok tt -> c' = c).
Proof.
  intros Hc Hcap Hb. unfold set_securebits. rewrite Hcap. cbn [negb].
  pose proof (try_store_accepts (securebits c) bits (ok_securebits _ Hc) Hb) as Ha.
  destruct (try_store (securebits c) bits) as [s res] eqn:E. cbn in Ha.
  assert (s = bits /\ res = Ok tt \/ s = securebits c /\ res = Err EPERM) as Hs.
  { revert E. unfold try_store. repeat case_cond; intros [= <- <-]; auto. }
  split; [done|]. destruct Hs as [[-> ->]|[-> ->]]; split; try done.
  intros _. by destruct c.
Qed.

Lemma set_securebits_correct_witness :
  snd (set_securebits (BF := Zflags) (with_securebits Credentials_new_root 3) 2) <> Ok tt.
Proof.
  pose proof (set_securebits_correct (BF := Zflags) (with_securebits Credentials_new_root 3) 2) as H.
  specialize (H ltac:(by split) eq_refl eq_refl).
  destruct (set_securebits (BF := Zflags) (with_securebits Credentials_new_root 3) 2) as [c' res].
  destruct H as [H _]. cbn. intros Hr. apply H in Hr. destruct (Hr 0) as [_ E]; [by left|done..].
Defined.

(** A process that has set and locked [KEEP_CAPS] cannot execute any program: [apply_exec_cred]
    stores the new IDs and capability sets and then fails with [EPERM], because it clears
    [KEEP_CAPS] through the locks.  It runs past the point of no return, so the process is killed. *)
Theorem exec_fails_with_locked_keep_caps `{BF : Bitflags} c exe x :
  cred_ok c -> Z.testbit (securebits c) 4 = true -> Z.testbit (securebits c) 5 = true ->
  exec_prepare c exe = Ok x ->
  exists c', exec_cred c exe = Ok (c', Err EPERM) /\
    permitted_capset c' = x_permitted x /\ effective_capset c' = x_effective x.
Proof.
  intros Hc H4 H5 Hx. unfold exec_cred. rewrite Hx. cbn [mbind result_bind]. rewrite apply_exec_eq.
  destruct (exec_ids_frame c x) as [_ _ Fs _ _ _].
  set (c1 := store_ambient_capset _ _). assert (securebits c1 = securebits c) as Hs by done.
  assert (permitted_capset c1 = x_permitted x /\ effective_capset c1 = x_effective x) as Hsets by done.
  clearbody c1. unfold set_keep_capabilities. rewrite Hs. cbn [negb].
  set (bits := bf_difference (securebits c) SECBIT_KEEP_CAPS).
  assert (bf_contains SecureBits_all bits = true) as Hb.
  { pose proof (ok_securebits _ Hc). unfold bits. flagwise. }
  pose proof (try_store_accepts (securebits c) bits (ok_securebits _ Hc) Hb) as Ha.
  pose proof (try_store_res (securebits c) bits) as Hr.
  destruct (try_store (securebits c) bits) as [s res]. cbn in Ha, Hr.
  destruct Hr as [->| ->]; [|eexists; split; [done|]; done].
  exfalso. destruct (proj1 Ha eq_refl 4) as [_ H]; [unfold lockable; lia|done|].
  unfold bits in H. rewrite bf_difference_spec, H4 in H by lia. done.
Qed.

Lemma exec_fails_with_locked_keep_caps_witness :
  exists c', exec_cred (BF := Zflags)
    (run_ops (BF := Zflags) Credentials_new_root [OpSecurebits 48]) plain_exe = Ok (c', Err EPERM).
Proof.
  destruct (exec_prepare (BF := Zflags) (run_ops (BF := Zflags) Credentials_new_root [OpSecurebits 48])
    plain_exe) as [x|] eqn:E; [|vm_compute in E; congruence].
  destruct (exec_fails_with_locked_keep_caps (BF := Zflags)
    (run_ops (BF := Zflags) Credentials_new_root [OpSecurebits 48]) plain_exe x) as (c' & H & _);
    [by split|done..|]. by exists c'.
Defined.

(** [NO_SETUID_FIXUP] does not keep the effective set across a change of user: a root thread that
    sets it and calls [setuid] to an ordinary user still loses the file-related capabilities, since
    [set_fsuid_unchecked] adjusts the effective set before the bit is looked at. *)
Theorem no_setuid_fixup_still_adjusts `{BF : Bitflags} c uid :
  no_setuid_fixup (securebits c) = true -> bf_contains (effective_capset c) CAP_SETUID = true ->
  fsuid c = 0 -> uid <> 0 ->
  let c' := fst (set_uid c uid) in
  effective_capset c' = bf_difference (effective_capset c) cap_to_remove /\
  permitted_capset c' = permitted_capset c /\ ambient_capset c' = ambient_capset c.
Proof.
  intros Hf Hcap Hfs Hu. unfold set_uid. rewrite Hcap. cbn [fst]. unfold set_resuid_unchecked.
  unfold set_fsuid_unchecked. cbn [fsuid with_uids from_option id]. rewrite Hfs. change (is_root 0) with true.
  rewrite (proj2 (Z.eqb_neq uid 0) Hu : is_root uid = false).
  cbn [negb andb securebits set_effective_capset with_capsets with_fsuid with_uids]. rewrite Hf. done.
Qed.

Lemma no_setuid_fixup_still_adjusts_witness :
  Z.testbit (effective_capset (with_securebits Credentials_new_root 4)) 0 = true /\
  Z.testbit (effective_capset (fst (set_uid (BF := Zflags) (with_securebits Credentials_new_root 4) 1000)))
    0 = false.
Proof.
  split; [done|].
  destruct (no_setuid_fixup_still_adjusts (BF := Zflags) (with_securebits Credentials_new_root 4) 1000)
    as (-> & _); done.
Defined.
