(* ===== verification/FileCaps.v ===== *)
(** * File capabilities

    The parser of the [security.capability] extended attribute:
    [kernel/core/src/process/credentials/file_capabilities.rs].  [encode] is the documented layout,
    used as the reference. *)

From S2P Require Import Prelude Flags Credentials.

(** ** The parser *)

Inductive VfsCapRevision := V1 | V2 | V3.

#[export] Instance VfsCapRevision_eq_dec : EqDecision VfsCapRevision.
Proof. solve_decision. Defined.

Definition revision_value (r : VfsCapRevision) : Z :=
  match r with V1 => 0x01000000 | V2 => 0x02000000 | V3 => 0x03000000 end.

Definition VfsCapRevision_try_from (v : Z) : result VfsCapRevision :=
  if v =? 0x01000000 then Ok V1 else if v =? 0x02000000 then Ok V2
  else if v =? 0x03000000 then Ok V3 else Err EINVAL.

Definition REVISION_MASK : Z := 0xff000000.
Definition FLAGS_MASK : Z := 0x00ffffff.
Definition VFS_CAP_EFFECTIVE : Z := 1.

Definition xattr_size (r : VfsCapRevision) : nat :=
  match r with V1 => 3 * 4 | V2 => 5 * 4 | V3 => 6 * 4 end.

Definition MAX_XATTR_SIZE : nat := xattr_size V3.

(** [u32::from_le_bytes] on a slice of four bytes. *)
Fixpoint from_le_bytes (bs : list Z) : Z :=
  match bs with [] => 0 | b :: bs' => b + 256 * from_le_bytes bs' end.

(** [slice::get(start..end)]. *)
Definition get_range (bytes : list Z) (s e : nat) : option (list Z) :=
  if (e <=? length bytes)%nat then Some (take (e - s) (drop s bytes)) else None.

Definition read_u32_le (bytes : list Z) (word_index : nat) : result Z :=
  let s := (word_index * 4)%nat in
  let e := (s + 4)%nat in
  match get_range bytes s e with
  | Some word => Ok (from_le_bytes word)
  | None => Err EINVAL
  end.

Definition read_v3_uid (raw_value : list Z) : result Z := read_u32_le raw_value 5.

Section parse.
Context `{BF : Bitflags}.

Definition parse_header (raw_value : list Z) : result (VfsCapRevision * Z) :=
  header ← read_u32_le raw_value 0;
  revision ← VfsCapRevision_try_from (Z.land header REVISION_MASK);
  match bf_from_bits VFS_CAP_EFFECTIVE (Z.land header FLAGS_MASK) with
  | None => Err EINVAL
  | Some flags =>
      if negb (length raw_value =? xattr_size revision)%nat then Err EINVAL
      else Ok (revision, flags)
  end.

Definition parse (raw_value : list Z) : result FileCapabilities :=
  '(revision, flags) ← parse_header raw_value;
  '(permitted, inheritable) ←
    match revision with
    | V1 =>
        p ← read_u32_le raw_value 1;
        i ← read_u32_le raw_value 2;
        Ok (from_lo_hi p 0, from_lo_hi i 0)
    | V2 | V3 =>
        plo ← read_u32_le raw_value 1;
        phi ← read_u32_le raw_value 3;
        ilo ← read_u32_le raw_value 2;
        ihi ← read_u32_le raw_value 4;
        Ok (from_lo_hi plo phi, from_lo_hi ilo ihi)
    end;
  root_uid ←
    match revision with
    | V3 => u ← read_v3_uid raw_value; Ok (Some u)
    | V1 | V2 => Ok None
    end;
  Ok (mkFileCaps permitted inheritable (bf_contains flags VFS_CAP_EFFECTIVE) root_uid).

(** [read_from_inode], given the result of [get_xattr]: the buffer and the length of the value, which
    is used as a slice bound. *)
Definition read_from_inode (xattr : result (list Z * nat)) : run (result (option FileCapabilities)) :=
  match xattr with
  | Ok (raw_value, value_len) =>
      if (value_len <=? length raw_value)%nat
      then Ret (fc ← parse (take value_len raw_value); Ok (Some fc))
      else Panic
  | Err ENODATA | Err EOPNOTSUPP => Ret (Ok None)
  | Err e => Ret (Err e)
  end.
End parse.

(** ** The layout *)

Definition to_le_bytes (x : Z) : list Z :=
  [x mod 256; x / 2 ^ 8 mod 256; x / 2 ^ 16 mod 256; x / 2 ^ 24 mod 256].

(** The attribute with the given permitted and inheritable sets; [uid] is stored by revision 3. *)
Definition encode (r : VfsCapRevision) (p i : Z) (effective : bool) (uid : Z) : list Z :=
  to_le_bytes (revision_value r + Z.b2z effective) ++
  match r with
  | V1 => to_le_bytes (fst (to_lo_hi p)) ++ to_le_bytes (fst (to_lo_hi i))
  | _ => to_le_bytes (fst (to_lo_hi p)) ++ to_le_bytes (fst (to_lo_hi i)) ++
         to_le_bytes (snd (to_lo_hi p)) ++ to_le_bytes (snd (to_lo_hi i))
  end ++
  match r with V3 => to_le_bytes uid | _ => [] end.

Lemma le_bytes_roundtrip x : 0 <= x < 2 ^ 32 -> from_le_bytes (to_le_bytes x) = x.
Proof.
  intros Hx. unfold to_le_bytes, from_le_bytes.
  change (2 ^ 8) with 256. change (2 ^ 16) with 65536. change (2 ^ 24) with 16777216.
  change (2 ^ 32) with 4294967296 in Hx. Z.to_euclidean_division_equations. lia.
Qed.

Lemma length_to_le_bytes x : length (to_le_bytes x) = 4%nat.
Proof. done. Qed.

(** Reading a word of a sequence of encoded words. *)
Lemma read_word (ws : list Z) (k : nat) w :
  ws !! k = Some w -> 0 <= w < 2 ^ 32 ->
  read_u32_le (concat (to_le_bytes <$> ws)) k = Ok w.
Proof.
  revert k. induction ws as [|v ws IH]; intros k Hk Hw; [done|].
  unfold read_u32_le, get_range in *. destruct k as [|k]; simplify_eq/=.
  - f_equal. by apply le_bytes_roundtrip.
  - specialize (IH k Hk Hw). cbn in *. destruct (Nat.leb_spec (k * 4 + 4) (length (concat (to_le_bytes <$> ws)))); [|done].
    exact IH.
Qed.

(** The words of an attribute. *)
Definition words (r : VfsCapRevision) (p i : Z) (effective : bool) (uid : Z) : list Z :=
  [revision_value r + Z.b2z effective; fst (to_lo_hi p); fst (to_lo_hi i)] ++
  match r with V1 => [] | V2 => [snd (to_lo_hi p); snd (to_lo_hi i)]
             | V3 => [snd (to_lo_hi p); snd (to_lo_hi i); uid] end.

Lemma encode_words r p i eff uid :
  encode r p i eff uid = concat (to_le_bytes <$> words r p i eff uid).
Proof. by destruct r. Qed.

Lemma lo_hi_u32 s : 0 <= fst (to_lo_hi s) < 2 ^ 32 /\ 0 <= snd (to_lo_hi s) < 2 ^ 32.
Proof. split; apply Z.mod_pos_bound; lia. Qed.

Section roundtrip.
Context `{BF : Bitflags}.

Lemma CapSet_all_bits i : 0 <= i -> Z.testbit CapSet_all i = (i <? 41).
Proof. intros Hi. change CapSet_all with (Z.ones 41). by rewrite Z.testbit_ones_nonneg by lia. Qed.

Lemma from_to_lo_hi s :
  bf_contains CapSet_all s = true -> from_lo_hi (fst (to_lo_hi s)) (snd (to_lo_hi s)) = s.
Proof.
  rewrite contains_in. intros Hs. apply bits_eq. intros i Hi. unfold from_lo_hi, to_lo_hi. cbn [fst snd].
  rewrite bf_from_bits_truncate_spec, Z.lor_spec, Z.shiftl_spec, CapSet_all_bits by done.
  specialize (Hs i Hi). rewrite CapSet_all_bits in Hs by done.
  destruct (Z.ltb_spec i 41) as [H41|H41]; [|destruct (Z.testbit s i); [by specialize (Hs eq_refl)|];
    by rewrite andb_false_r].
  rewrite andb_true_r. destruct (Z.lt_ge_cases i 32) as [H|H].
  - rewrite Z.mod_pow2_bits_low by lia. rewrite (Z.testbit_neg_r _ (i - 32)) by lia. by rewrite orb_false_r.
  - rewrite Z.mod_pow2_bits_high by lia. rewrite Z.mod_pow2_bits_low, Z.shiftr_spec by lia. cbn.
    f_equal. lia.
Qed.

Lemma from_to_lo s :
  bf_contains CapSet_all s = true -> 0 <= s < 2 ^ 32 -> from_lo_hi (fst (to_lo_hi s)) 0 = s.
Proof.
  intros Hs Hr. rewrite <- (from_to_lo_hi s Hs) at 2. f_equal. unfold to_lo_hi. cbn.
  rewrite Z.shiftr_div_pow2 by lia. by rewrite (Z.div_small s (2 ^ 32)) by lia.
Qed.

Lemma flags_from_bits (eff : bool) :
  bf_from_bits VFS_CAP_EFFECTIVE (Z.b2z eff) = Some (Z.b2z eff) /\
  bf_contains (Z.b2z eff) VFS_CAP_EFFECTIVE = eff.
Proof.
  rewrite bf_from_bits_spec. destruct eff; cbn.
  - by rewrite !contains_refl.
  - rewrite contains_empty. split; [done|]. exact (contains_pow2 0 0 ltac:(lia)).
Qed.

Lemma parse_header_encode r p i eff uid :
  parse_header (encode r p i eff uid) = Ok (r, Z.b2z eff).
Proof.
  unfold parse_header. rewrite encode_words.
  rewrite (read_word _ 0 (revision_value r + Z.b2z eff)); [|done|destruct r, eff; by cbn].
  cbn [mbind result_bind]. destruct (flags_from_bits eff) as [Hf _].
  assert (VfsCapRevision_try_from (Z.land (revision_value r + Z.b2z eff) REVISION_MASK) = Ok r) as ->
    by (destruct r, eff; reflexivity).
  assert (Z.land (revision_value r + Z.b2z eff) FLAGS_MASK = Z.b2z eff) as ->
    by (destruct r, eff; reflexivity).
  cbn [mbind result_bind]. rewrite Hf. by destruct r.
Qed.

Lemma parse_encode r p i eff uid :
  bf_contains CapSet_all p = true -> bf_contains CapSet_all i = true -> 0 <= uid < 2 ^ 32 ->
  (r = V1 -> 0 <= p < 2 ^ 32 /\ 0 <= i < 2 ^ 32) ->
  parse (encode r p i eff uid) =
  Ok (mkFileCaps p i eff (if decide (r = V3) then Some uid else None)).
Proof.
  intros Hp Hi Hu H1. unfold parse. rewrite parse_header_encode, encode_words.
  cbn [mbind result_bind]. destruct (flags_from_bits eff) as [_ ->].
  destruct (lo_hi_u32 p) as [Pl Ph], (lo_hi_u32 i) as [Il Ih]. unfold read_v3_uid.
  destruct r;
    repeat (erewrite read_word; [|reflexivity|done]; cbn [mbind result_bind]);
    rewrite ?from_to_lo, ?from_to_lo_hi by (done || by apply H1); done.
Qed.
End roundtrip.

(** ** Properties *)

(** C30: Parsing inverts the documented layout of [security.capability] for all three revisions: the
    two sets, the effective flag and, for revision 3, the root user ID come back unchanged. *)
Theorem parse_encode_roundtrip `{BF : Bitflags} r p i eff uid :
  bf_contains CapSet_all p = true -> bf_contains CapSet_all i = true -> 0 <= uid < 2 ^ 32 ->
  (r = V1 -> 0 <= p < 2 ^ 32 /\ 0 <= i < 2 ^ 32) ->
  parse (encode r p i eff uid) =
  Ok (mkFileCaps p i eff (if decide (r = V3) then Some uid else None)).
Proof. apply parse_encode. Qed.

Lemma parse_encode_roundtrip_witness :
  parse (BF := Zflags) (encode V3 CapSet_all 255 true 1000) =
  Ok (mkFileCaps CapSet_all 255 true (Some 1000)).
Proof. by apply (parse_encode_roundtrip (BF := Zflags) V3 CapSet_all 255 true 1000). Defined.

(** Whatever the bytes, what [parse] accepts has the length of its revision and holds declared
    capabilities only, which is what the invariant of the credentials asks of a file. *)
Theorem parse_sound `{BF : Bitflags} raw fc :
  parse raw = Ok fc ->
  (length raw = xattr_size V1 \/ length raw = xattr_size V2 \/ length raw = xattr_size V3) /\
  bf_contains CapSet_all (fc_permitted fc) = true /\
  bf_contains CapSet_all (fc_inheritable fc) = true /\
  (root_uid fc <> None <-> length raw = xattr_size V3).
Proof.
  unfold parse. destruct (parse_header raw) as [[r flags]|] eqn:Eh; cbn; [|done].
  assert (length raw = xattr_size r) as ->.
  { revert Eh. unfold parse_header. destruct (read_u32_le raw 0); cbn; [|done].
    destruct (VfsCapRevision_try_from _); cbn; [|done]. destruct (bf_from_bits _ _); [|done].
    case_cond; [done|]. by intros [= <- _]. }
  destruct r; unfold read_v3_uid in *;
    repeat (match goal with |- context [read_u32_le raw ?k] => destruct (read_u32_le raw k) end;
            cbn [mbind result_bind]; try done);
    intros [= <-]; cbn; split_and!; auto using from_lo_hi_known; split; done.
Qed.

Lemma parse_sound_witness :
  bf_contains (Bitflags := Zflags) CapSet_all
    (fc_permitted (mkFileCaps (from_lo_hi (BF := Zflags) 4294967295 4294967295) 0 false None)) = true.
Proof.
  destruct (parse_sound (BF := Zflags)
    (concat (to_le_bytes <$> [0x02000000; 4294967295; 0; 4294967295; 0]))
    (mkFileCaps (from_lo_hi (BF := Zflags) 4294967295 4294967295) 0 false None)) as (_ & H & _);
    [by vm_compute|exact H].
Defined.
