(* ===== verification/UserSpace.v ===== *)
(** * User-space memory

    What a system call relies on of the memory of the calling process ([CurrentUserSpace] of
    [kernel/core/src/context.rs]): reading and writing a value at an address can fail, and a value
    that was written is read back.  The page tables behind it are not modelled; the class is the
    interface, [WordMemory] an instance on which the theorems that use it are evaluated. *)

From S2P Require Import Prelude.

Class UserSpace (M V : Type) := {
  read_val : M -> Z -> result V;
  write_val : M -> Z -> V -> M * result unit;
  (** A successful write is observed by the next read of the same address. *)
  read_write : forall m a v m', write_val m a v = (m', Ok tt) -> read_val m' a = Ok v
}.

(** Values at the mapped addresses; the others fault. *)
Definition mem_read {V} (m : gmap Z V) (a : Z) : result V :=
  match m !! a with Some v => Ok v | None => Err EFAULT end.

Definition mem_write {V} (m : gmap Z V) (a : Z) (v : V) : gmap Z V * result unit :=
  match m !! a with Some _ => (<[a := v]> m, Ok tt) | None => (m, Err EFAULT) end.

#[refine] Definition WordMemory (V : Type) : UserSpace (gmap Z V) V :=
  {| read_val := mem_read; write_val := mem_write |}.
Proof.
  intros m a v m'. unfold mem_write, mem_read. destruct (m !! a); intros; simplify_eq.
  by rewrite lookup_insert_eq.
Defined.
