(* ===== verification/RwLock.v ===== *)
(** * Read-write locks: [ostd/src/sync/rwlock.rs]

    The lock word of [RwLock], shared by the sleeping [RwMutex] ([ostd/src/sync/rwmutex.rs]): a writer
    bit, an upgradeable-reader bit, a bit for an upgrade under way, and a count of readers.  Operations
    that fail leave a mark for a moment and take it back with a second access, so the word is not a
    function of who holds the lock.

    [moves] lists what a thread may do next, one atomic access at a time; memory orders are taken as
    sequentially consistent.  The protected value is not modelled: the theorems say who may access it. *)

From S2P Require Import Prelude.

(** ** The lock word *)

Definition READER : Z := 1.
Definition WRITER : Z := 2 ^ 63.
Definition UPGRADEABLE_READER : Z := 2 ^ 62.
Definition BEING_UPGRADED : Z := 2 ^ 61.
Definition MAX_READER : Z := 2 ^ 60.

(** [AtomicUsize::fetch_add], [fetch_sub], [fetch_or] and [fetch_and] with a negated flag, as the new
    word; [compare_exchange] as the new word and whether it succeeded. *)
Definition fetch_add (word x : Z) : Z := wrap64 (word + x).
Definition fetch_sub (word x : Z) : Z := wrap64 (word - x).
Definition fetch_or (word x : Z) : Z := Z.lor word x.
Definition fetch_and_not (word x : Z) : Z := Z.ldiff word x.
Definition compare_exchange (word current new : Z) : Z * bool :=
  if word =? current then (new, true) else (word, false).

(** What a thread is doing with the lock. *)
Inductive role :=
  | Outside
  | ReadUndo        (** a failed [try_read] that has not taken its increment back *)
  | Reading
  | UpreadUndo      (** a failed [try_upread] that has not taken its bit back *)
  | Upreading
  | Upgrading       (** in the loop of [upgrade] *)
  | Upgraded        (** [try_upgrade] after its exchange, before the upgradeable guard is dropped *)
  | Writing
  | Downgraded.     (** [try_downgrade] after its exchange, before the write guard is dropped *)

#[export] Instance role_eq_dec : EqDecision role.
Proof. solve_decision. Defined.

Definition try_read (word : Z) : Z * role :=
  (fetch_add word READER,
   if Z.land word (Z.lor (Z.lor WRITER MAX_READER) BEING_UPGRADED) =? 0 then Reading else ReadUndo).

Definition try_read_undo (word : Z) : Z * role := (fetch_sub word READER, Outside).

Definition try_write (word : Z) : Z * role :=
  let '(word, ok) := compare_exchange word 0 WRITER in (word, if ok then Writing else Outside).

Definition try_upread (word : Z) : Z * role :=
  let lock := Z.land word (Z.lor WRITER UPGRADEABLE_READER) in
  (fetch_or word UPGRADEABLE_READER,
   if lock =? 0 then Upreading else if lock =? WRITER then UpreadUndo else Outside).

Definition try_upread_undo (word : Z) : Z * role := (fetch_sub word UPGRADEABLE_READER, Outside).

(** The drops of the guards. *)
Definition read_drop (word : Z) : Z * role := (fetch_sub word READER, Outside).
Definition write_drop (word : Z) : Z * role := (fetch_and_not word WRITER, Outside).
Definition upread_drop (word : Z) : Z * role := (fetch_sub word UPGRADEABLE_READER, Outside).

(** [upgrade] before its loop, and one turn of the loop. *)
Definition upgrade (word : Z) : Z * role := (fetch_or word BEING_UPGRADED, Upgrading).

Definition try_upgrade (word : Z) : Z * role :=
  let '(word, ok) := compare_exchange word (Z.lor UPGRADEABLE_READER BEING_UPGRADED) (Z.lor WRITER UPGRADEABLE_READER) in
  (word, if ok then Upgraded else Upgrading).

(** [try_upgrade] drops the upgradeable guard and keeps the write guard. *)
Definition upgraded_drop (word : Z) : Z * role := (fetch_sub word UPGRADEABLE_READER, Writing).

(** What a thread may do next with the word.  [read], [write] and [upread] repeat the attempts. *)
Definition RwLock_moves (r : role) (word : Z) : list (Z * role) :=
  match r with
  | Outside => [try_read word; try_write word; try_upread word]
  | ReadUndo => [try_read_undo word]
  | Reading => [read_drop word]
  | UpreadUndo => [try_upread_undo word]
  | Upreading => [upread_drop word; upgrade word]
  | Upgrading => [try_upgrade word]
  | Upgraded => [upgraded_drop word]
  | Writing => [write_drop word]
  | Downgraded => []
  end.

(** [RwMutex] can also downgrade a write guard; the guard that is dropped clears a bit that the
    exchange has cleared already. *)
Definition try_downgrade (word : Z) : Z * role :=
  let '(word, ok) := compare_exchange word WRITER UPGRADEABLE_READER in
  (word, if ok then Downgraded else Writing).

Definition downgraded_drop (word : Z) : Z * role := (fetch_and_not word WRITER, Upreading).

Definition moves (r : role) (word : Z) : list (Z * role) :=
  RwLock_moves r word ++
  match r with
  | Writing => [try_downgrade word]
  | Downgraded => [downgraded_drop word]
  | _ => []
  end.

(** ** Who owns which part of the word *)

Definition writer (r : role) : Z := match r with Writing | Upgraded => 1 | _ => 0 end.
Definition up_bit (r : role) : Z :=
  match r with UpreadUndo | Upreading | Upgrading | Upgraded | Downgraded => 1 | _ => 0 end.
Definition upgrading (r : role) : Z := match r with Upgrading => 1 | _ => 0 end.
Definition reader (r : role) : Z := match r with Reading => 1 | _ => 0 end.
Definition undoing (r : role) : Z := match r with ReadUndo => 1 | _ => 0 end.
(** The upgradeable readers proper. *)
Definition upreader (r : role) : Z := match r with Upreading | Upgrading | Downgraded => 1 | _ => 0 end.

(** The word spells out the owners; a writer is alone.  [MAX_READER] bounds the read guards, and the
    failed attempts under way are bounded by the number of threads. *)
Record word_inv (word : Z) (rs : list role) : Prop := {
  wi_word : word = 2 ^ 63 * tally writer rs + 2 ^ 62 * tally up_bit rs + 2 ^ 61 * tally upgrading rs
                   + (tally reader rs + tally undoing rs);
  wi_writer : tally writer rs <= 1;
  wi_up : tally up_bit rs <= 1;
  wi_alone : tally writer rs = 0 \/ (tally reader rs = 0 /\ tally upreader rs = 0);
  wi_readers : tally reader rs <= 2 ^ 60;
  wi_undoing : tally undoing rs < 2 ^ 60
}.

Ltac role_cases := intros []; cbn; lia.

Lemma writer_nonneg r : 0 <= writer r. Proof. revert r. role_cases. Qed.
Lemma up_bit_nonneg r : 0 <= up_bit r. Proof. revert r. role_cases. Qed.
Lemma upgrading_nonneg r : 0 <= upgrading r. Proof. revert r. role_cases. Qed.
Lemma reader_nonneg r : 0 <= reader r. Proof. revert r. role_cases. Qed.
Lemma undoing_nonneg r : 0 <= undoing r. Proof. revert r. role_cases. Qed.
Lemma upreader_nonneg r : 0 <= upreader r. Proof. revert r. role_cases. Qed.

(** An upgradeable reader that does not upgrade, and the other owners of its bit. *)
Definition steady (r : role) : Z := match r with Upreading | Downgraded => 1 | _ => 0 end.
Definition passing (r : role) : Z := match r with UpreadUndo | Upgraded => 1 | _ => 0 end.

Lemma steady_nonneg r : 0 <= steady r. Proof. revert r. role_cases. Qed.
Lemma passing_nonneg r : 0 <= passing r. Proof. revert r. role_cases. Qed.

Lemma upreader_split rs : tally upreader rs = tally upgrading rs + tally steady rs.
Proof. rewrite <- tally_add. apply tally_ext. role_cases. Qed.
Lemma up_bit_split rs : tally up_bit rs = tally upreader rs + tally passing rs.
Proof. rewrite <- tally_add. apply tally_ext. role_cases. Qed.

(** The bits of a word that is put together like this. *)
Lemma word_bits w u b r :
  0 <= w <= 1 -> 0 <= u <= 1 -> 0 <= b <= 1 -> 0 <= r < 2 ^ 61 ->
  let word := 2 ^ 63 * w + 2 ^ 62 * u + 2 ^ 61 * b + r in
  Z.testbit word 63 = (w =? 1) /\ Z.testbit word 62 = (u =? 1) /\ Z.testbit word 61 = (b =? 1) /\
  Z.testbit word 60 = (2 ^ 60 <=? r) /\ 0 <= word < 2 ^ 64.
Proof.
  intros Hw Hu Hb Hr word. rewrite !Z.testbit_eqb by lia.
  assert (word / 2 ^ 63 = w) as -> by (symmetry; apply Z.div_unique with (2 ^ 62 * u + 2 ^ 61 * b + r); unfold word; lia).
  assert (word / 2 ^ 62 = 2 * w + u) as -> by (symmetry; apply Z.div_unique with (2 ^ 61 * b + r); unfold word; lia).
  assert (word / 2 ^ 61 = 4 * w + 2 * u + b) as -> by (symmetry; apply Z.div_unique with r; unfold word; lia).
  assert (word / 2 ^ 60 = 8 * w + 4 * u + 2 * b + r / 2 ^ 60) as ->.
  { rewrite <- Z.div_add_l by lia. f_equal. unfold word. lia. }
  assert (r / 2 ^ 60 = if 2 ^ 60 <=? r then 1 else 0) as ->.
  { destruct (Z.leb_spec (2 ^ 60) r); [symmetry; apply Z.div_unique with (r - 2 ^ 60); lia|apply Z.div_small; lia]. }
  assert (0 <= word < 2 ^ 64) as Hbound by (unfold word; lia). clearbody word.
  assert (w = 0 \/ w = 1) as [-> | ->] by lia; assert (u = 0 \/ u = 1) as [-> | ->] by lia;
    assert (b = 0 \/ b = 1) as [-> | ->] by lia; destruct (2 ^ 60 <=? r); split_and!; done || lia.
Qed.

(** What the word and the counts tell about each other. *)
Record word_view (word : Z) (rs : list role) : Prop := {
  wv_writer : Z.testbit word 63 = (tally writer rs =? 1);
  wv_up : Z.testbit word 62 = (tally up_bit rs =? 1);
  wv_upgrading : Z.testbit word 61 = (tally upgrading rs =? 1);
  wv_max : Z.testbit word 60 = (2 ^ 60 <=? tally reader rs + tally undoing rs);
  wv_range : 0 <= word < 2 ^ 64;
  wv_counts : 0 <= tally writer rs /\ 0 <= tally reader rs /\ 0 <= tally undoing rs /\
    0 <= tally upgrading rs /\ 0 <= tally steady rs /\ 0 <= tally passing rs /\
    tally upreader rs = tally upgrading rs + tally steady rs /\ tally up_bit rs = tally upreader rs + tally passing rs
}.

Lemma word_inv_view word rs : word_inv word rs -> word_view word rs.
Proof.
  intros [H1 H2 H3 H4 H5 H6].
  pose proof (tally_nonneg writer rs writer_nonneg). pose proof (tally_nonneg reader rs reader_nonneg).
  pose proof (tally_nonneg undoing rs undoing_nonneg). pose proof (tally_nonneg upgrading rs upgrading_nonneg).
  pose proof (tally_nonneg steady rs steady_nonneg). pose proof (tally_nonneg passing rs passing_nonneg).
  pose proof (upreader_split rs). pose proof (up_bit_split rs).
  destruct (word_bits (tally writer rs) (tally up_bit rs) (tally upgrading rs) (tally reader rs + tally undoing rs))
    as (B1 & B2 & B3 & B4 & B5); [lia..|]. rewrite <- H1 in B1, B2, B3, B4, B5.
  split; done || lia.
Qed.

Lemma mask3 word : (Z.land word (Z.lor (Z.lor WRITER MAX_READER) BEING_UPGRADED) =? 0) =
  negb (Z.testbit word 63) && negb (Z.testbit word 60) && negb (Z.testbit word 61).
Proof.
  assert (Z.land word (Z.lor (Z.lor WRITER MAX_READER) BEING_UPGRADED) = 0 <->
    (Z.testbit word 63 = false /\ Z.testbit word 60 = false) /\ Z.testbit word 61 = false) as H.
  { rewrite !Z.land_lor_distr_r, !Z.lor_eq_0_iff. unfold WRITER, MAX_READER, BEING_UPGRADED. by rewrite !land_bit_0 by lia. }
  destruct (Z.eqb_spec (Z.land word (Z.lor (Z.lor WRITER MAX_READER) BEING_UPGRADED)) 0) as [E|E]; rewrite H in E;
    destruct (Z.testbit word 63), (Z.testbit word 60), (Z.testbit word 61); naive_solver.
Qed.

(** The part of the word that [try_upread] looks at. *)
Lemma mask2 word : Z.land word (Z.lor WRITER UPGRADEABLE_READER) =
  (if Z.testbit word 63 then WRITER else 0) + (if Z.testbit word 62 then UPGRADEABLE_READER else 0).
Proof.
  assert (forall n, 0 <= n -> Z.land word (2 ^ n) = if Z.testbit word n then 2 ^ n else 0) as H.
  { intros n Hn. destruct (Z.testbit word n) eqn:E; [|by apply land_bit_0].
    apply Z.bits_inj'. intros m Hm. rewrite Z.land_spec, Z.pow2_bits_eqb by done.
    destruct (Z.eqb_spec n m) as [->|]; [by rewrite E|apply andb_false_r]. }
  rewrite Z.land_lor_distr_r. unfold WRITER, UPGRADEABLE_READER. rewrite !H by lia.
  destruct (Z.testbit word 63), (Z.testbit word 62); reflexivity.
Qed.

Lemma try_upread_cases word :
  try_upread word = (fetch_or word UPGRADEABLE_READER,
    if Z.testbit word 62 then Outside else if Z.testbit word 63 then UpreadUndo else Upreading).
Proof. unfold try_upread. rewrite mask2. by destruct (Z.testbit word 63), (Z.testbit word 62). Qed.

Lemma try_read_cases word :
  try_read word = (fetch_add word READER,
    if Z.testbit word 63 || Z.testbit word 60 || Z.testbit word 61 then ReadUndo else Reading).
Proof. unfold try_read. rewrite mask3. by destruct (Z.testbit word 63), (Z.testbit word 60), (Z.testbit word 61). Qed.

(** ** Every access keeps the invariant *)

(** A thread's part in the counts. *)
Ltac count_role Hi :=
  pose proof (tally_lookup writer _ _ _ writer_nonneg Hi); pose proof (tally_lookup up_bit _ _ _ up_bit_nonneg Hi);
  pose proof (tally_lookup upgrading _ _ _ upgrading_nonneg Hi); pose proof (tally_lookup reader _ _ _ reader_nonneg Hi);
  pose proof (tally_lookup undoing _ _ _ undoing_nonneg Hi); pose proof (tally_lookup steady _ _ _ steady_nonneg Hi);
  pose proof (tally_lookup passing _ _ _ passing_nonneg Hi).

Lemma wrap64_small x : 0 <= x < 2 ^ 64 -> wrap64 x = x.
Proof. intros H. unfold wrap64, u64_modulus. by apply Z.mod_small. Qed.

Lemma moves_inv word rs i r word' r' :
  word_inv word rs -> rs !! i = Some r -> (word', r') ∈ moves r word -> tally undoing (<[i := r']> rs) < 2 ^ 60 ->
  word_inv word' (<[i := r']> rs).
Proof.
  intros Hinv Hi Hm Hun. pose proof (word_inv_view _ _ Hinv) as [V1 V2 V3 V4 V5 V6]. pose proof Hinv as [H1 H2 H3 H4 H5 H6].
  count_role Hi. rewrite (tally_insert undoing _ _ _ _ Hi) in Hun.
  assert (forall w,
    w = 2 ^ 63 * (tally writer rs - writer r + writer r') + 2 ^ 62 * (tally up_bit rs - up_bit r + up_bit r') +
        2 ^ 61 * (tally upgrading rs - upgrading r + upgrading r') +
        (tally reader rs - reader r + reader r' + (tally undoing rs - undoing r + undoing r')) ->
    tally writer rs - writer r + writer r' <= 1 -> tally up_bit rs - up_bit r + up_bit r' <= 1 ->
    tally writer rs - writer r + writer r' = 0 \/
      (tally reader rs - reader r + reader r' = 0 /\ tally upreader rs - upreader r + upreader r' = 0) ->
    tally reader rs - reader r + reader r' <= 2 ^ 60 -> word_inv w (<[i := r']> rs)) as Hgoal.
  { intros w. intros. split; rewrite ?(tally_insert _ _ _ _ _ Hi); done. }
  unfold moves, RwLock_moves in Hm. rewrite try_read_cases, try_upread_cases, V1, V2, V3, V4 in Hm.
  unfold try_upgrade in Hm. change (Z.lor UPGRADEABLE_READER BEING_UPGRADED) with 6917529027641081856 in Hm.
  change (Z.lor WRITER UPGRADEABLE_READER) with 13835058055282163712 in Hm.
  unfold try_write, try_downgrade, compare_exchange, try_read_undo, read_drop, try_upread_undo, upread_drop,
    upgrade, upgraded_drop, write_drop, downgraded_drop, fetch_add, fetch_sub, fetch_or, fetch_and_not,
    WRITER, UPGRADEABLE_READER, BEING_UPGRADED, READER in Hm.
  rewrite ?lor_bit, ?ldiff_bit, ?V1, ?V2, ?V3 in Hm by lia.
  destruct r; cbn [app] in Hm; repeat (apply elem_of_cons in Hm as [Hm|Hm]); try (by apply elem_of_nil in Hm); cbn in *.
  all: repeat match type of Hm with context [if ?b then _ else _] => destruct b eqn:? end.
  all: injection Hm as -> ->; boolify; cbn in *; apply Hgoal; rewrite ?wrap64_small; lia.
Qed.

(** ** The lock and its users *)

Record rwlock := mkRwLock { rw_word : Z; rw_threads : list role }.

(** One access of one thread, among [mv].  Fewer than [2^60] failed reads are under way at a time. *)
Inductive rw_step (mv : role -> Z -> list (Z * role)) : rwlock -> rwlock -> Prop :=
  | rw_access word rs i r word' r' :
      rs !! i = Some r -> (word', r') ∈ mv r word -> tally undoing (<[i := r']> rs) < 2 ^ 60 ->
      rw_step mv (mkRwLock word rs) (mkRwLock word' (<[i := r']> rs)).

Definition RwLock_new (threads : nat) : rwlock := mkRwLock 0 (replicate threads Outside).

(** Guards that give access to the value, and those that give exclusive access. *)
Definition can_access (r : role) : bool :=
  match r with Reading | Upreading | Upgrading | Upgraded | Writing | Downgraded => true | _ => false end.
Definition can_write (r : role) : bool := match r with Upgraded | Writing => true | _ => false end.
Definition can_upgrade (r : role) : bool := match r with Upreading | Upgrading | Upgraded | Downgraded => true | _ => false end.

Lemma tally_replicate {A} (f : A -> Z) a n : f a = 0 -> tally f (replicate n a) = 0.
Proof. intros H. apply tally_zero. intros b Hb. apply elem_of_replicate in Hb as [-> _]. done. Qed.

Lemma word_inv_new n : word_inv 0 (replicate n Outside).
Proof. split; rewrite ?tally_replicate; done || lia. Qed.

Lemma rw_reachable_inv n s : rtc (rw_step moves) (RwLock_new n) s -> word_inv (rw_word s) (rw_threads s).
Proof.
  intros Hr. pose proof (word_inv_new n) as H0. change 0 with (rw_word (RwLock_new n)) in H0.
  change (replicate n Outside) with (rw_threads (RwLock_new n)) in H0. revert H0.
  induction Hr as [|x y z H1 _ IH]; [done|]. intros H. apply IH. destruct H1. by eapply moves_inv.
Qed.

Lemma rw_step_mono s s' : rw_step RwLock_moves s s' -> rw_step moves s s'.
Proof. destruct 1. eapply rw_access; [done| |done]. unfold moves. set_solver. Qed.

Lemma RwLock_reachable_inv n s : rtc (rw_step RwLock_moves) (RwLock_new n) s -> word_inv (rw_word s) (rw_threads s).
Proof.
  intros Hr. apply (rw_reachable_inv n). revert Hr. generalize (RwLock_new n). intros s0 Hr.
  induction Hr as [|x y z H _ IH]; [done|]. eapply rtc_l; [by apply rw_step_mono|done].
Qed.

(** Two threads under the invariant. *)
Lemma word_inv_pair word rs i j r q :
  word_inv word rs -> rs !! i = Some r -> rs !! j = Some q -> i <> j ->
  (can_write r = true -> can_access q = false) /\ (can_upgrade r = true -> can_upgrade q = false).
Proof.
  intros Hinv Hi Hj Hne. pose proof (word_inv_view _ _ Hinv) as [_ _ _ _ _ V]. destruct Hinv as [_ H2 H3 H4 _ _].
  pose proof (tally_lookup2 writer rs i j r q writer_nonneg Hi Hj Hne).
  pose proof (tally_lookup2 up_bit rs i j r q up_bit_nonneg Hi Hj Hne).
  pose proof (tally_lookup reader rs j q reader_nonneg Hj). pose proof (tally_lookup upreader rs j q upreader_nonneg Hj).
  pose proof (tally_lookup writer rs i r writer_nonneg Hi).
  split; intros Hr; destruct r; try done; destruct q; try done; cbn in *; lia.
Qed.

(** C29: A read-write spin lock excludes: while a thread has write access, also in the middle of an
    upgrade, no other thread has access of any kind, and there is at most one upgradeable reader;
    threads race access by access, with failed attempts leaving their marks in the word.  When all
    threads are outside the word is zero again. *)
Theorem rwlock_exclusion n s :
  rtc (rw_step RwLock_moves) (RwLock_new n) s ->
  (forall i j r q, rw_threads s !! i = Some r -> rw_threads s !! j = Some q -> i <> j ->
    (can_write r = true -> can_access q = false) /\ (can_upgrade r = true -> can_upgrade q = false)) /\
  ((forall r, r ∈ rw_threads s -> r = Outside) -> rw_word s = 0).
Proof.
  intros Hr%RwLock_reachable_inv. split.
  - intros i j r q Hi Hj Hne. by eapply word_inv_pair.
  - intros Hout. rewrite (wi_word _ _ Hr). rewrite !tally_zero; [done|intros r Hin; by rewrite (Hout r Hin)..].
Qed.

(** While a thread waits in [upgrade], no access of any thread lets in another reader, another
    upgradeable reader or a writer; and when the earlier readers and failed attempts are gone, its next
    attempt succeeds. *)
Theorem upgrade_blocks_new_readers n s i :
  rtc (rw_step RwLock_moves) (RwLock_new n) s -> rw_threads s !! i = Some Upgrading ->
  (forall s', rw_step RwLock_moves s s' -> forall j r q, i <> j -> rw_threads s !! j = Some r -> rw_threads s' !! j = Some q ->
    can_access q = true -> can_access r = true) /\
  ((forall j r, rw_threads s !! j = Some r -> i <> j -> r = Outside) -> try_upgrade (rw_word s) = (Z.lor WRITER UPGRADEABLE_READER, Upgraded)).
Proof.
  intros Hr%RwLock_reachable_inv Hi. pose proof (word_inv_view _ _ Hr) as [V1 V2 V3 V4 V5 V6]. pose proof Hr as [H1 H2 H3 H4 H5 H6].
  count_role Hi. cbn [writer up_bit upgrading reader undoing steady passing] in *. split.
  - intros s' Hst j r q Hne Hj Hj' Hq. inversion Hst as [word rs k r' word' q' Hk Hm _ Es Es']. subst s s'. cbn [rw_word rw_threads] in *.
    destruct (decide (k = j)) as [->|Hkj]; [|rewrite list_lookup_insert_ne in Hj' by done; congruence].
    rewrite list_lookup_insert_eq in Hj' by (by eapply lookup_lt_Some). rewrite Hk in Hj. injection Hj as <-. injection Hj' as <-.
    match type of Hm with _ ∈ RwLock_moves ?r0 _ => destruct r0 end; try done; unfold RwLock_moves in Hm; rewrite ?try_read_cases, ?try_upread_cases in Hm;
      repeat (apply elem_of_cons in Hm as [Hm|Hm]); try (by apply elem_of_nil in Hm); try (by injection Hm as -> ->).
    + rewrite V3, (proj2 (Z.eqb_eq _ _)), !orb_true_r in Hm by lia. by injection Hm as -> ->.
    + unfold try_write, compare_exchange in Hm. rewrite (proj2 (Z.eqb_neq word 0)) in Hm by lia. by injection Hm as -> ->.
    + rewrite V2, (proj2 (Z.eqb_eq _ _)) in Hm by lia. by injection Hm as -> ->.
  - intros Hout. unfold try_upgrade, compare_exchange.
    assert (forall f : role -> Z, f Outside = 0 -> tally f (rw_threads s) = f Upgrading) as Hone.
    { intros f Hf. assert (tally f (<[i := Outside]> (rw_threads s)) = 0) as Hz.
      { apply tally_zero. intros r [j Hj]%list_elem_of_lookup. destruct (decide (i = j)) as [<-|Hne].
        - rewrite list_lookup_insert_eq in Hj by (by eapply lookup_lt_Some). by simplify_eq.
        - rewrite list_lookup_insert_ne in Hj by done. by rewrite (Hout j r Hj Hne). }
      rewrite (tally_insert f _ _ _ _ Hi) in Hz. lia. }
    rewrite !Hone in H1 by done. cbn [writer up_bit upgrading reader undoing] in H1.
    rewrite (proj2 (Z.eqb_eq _ _)); [done|]. rewrite H1. reflexivity.
Qed.

(** Two threads: one becomes an upgradeable reader and starts to upgrade. *)
Definition upgrade_run : rwlock :=
  mkRwLock (Z.lor UPGRADEABLE_READER BEING_UPGRADED) [Upgrading; Outside].

Lemma upgrade_run_reachable : rtc (rw_step RwLock_moves) (RwLock_new 2) upgrade_run.
Proof.
  eapply rtc_l; [apply (rw_access _ 0 [Outside; Outside] 0 Outside UPGRADEABLE_READER Upreading); [done|set_solver|done]|].
  eapply rtc_l; [|apply rtc_refl]. apply (rw_access _ UPGRADEABLE_READER [Upreading; Outside] 0 Upreading); [done|set_solver|done].
Qed.

(** One thread writes, the other has failed to read. *)
Definition write_run : rwlock := mkRwLock (WRITER + READER) [Writing; ReadUndo].

Lemma write_run_reachable : rtc (rw_step RwLock_moves) (RwLock_new 2) write_run.
Proof.
  eapply rtc_l; [apply (rw_access _ 0 [Outside; Outside] 0 Outside WRITER Writing); [done|set_solver|done]|].
  eapply rtc_l; [|apply rtc_refl]. apply (rw_access _ WRITER [Writing; Outside] 1 Outside); [done|set_solver|done].
Qed.

Lemma rwlock_exclusion_witness : can_access ReadUndo = false.
Proof.
  refine (proj1 (proj1 (rwlock_exclusion 2 write_run write_run_reachable) 0%nat 1%nat Writing ReadUndo _ _ _) _);
    [reflexivity|reflexivity|discriminate|reflexivity].
Defined.

Lemma upgrade_blocks_new_readers_witness :
  try_upgrade (rw_word upgrade_run) = (Z.lor WRITER UPGRADEABLE_READER, Upgraded).
Proof.
  apply (upgrade_blocks_new_readers 2 upgrade_run 0 upgrade_run_reachable eq_refl).
  intros [|[|j]] r H Hne; cbn in H; [done|congruence|done].
Defined.
