(* ===== verification/RwMutex.v ===== *)
(** * The sleeping read-write lock: [ostd/src/sync/rwmutex.rs]

    [RwMutex] has the lock word of [RwLock] and a [WaitQueue].  [read], [write] and [upread] call
    [WaitQueue::wait_until] ([ostd/src/sync/wait.rs]) with the corresponding attempt; the drops of the
    guards wake waiters.  A thread does one atomic access or one critical section of the queue at a
    time.  [enqueue] and each pop of [wake_one] and [wake_all] are one step: they happen under the lock
    of the queue, and the counter that [is_empty] reads without it lags behind only inside of them
    ([WaitQueue] treats that race).  Wakers are named by numbers, in the order of their creation. *)

From S2P Require Import Prelude RwLock.

Inductive op := Read | Write | Upread.

(** Where an attempt is made: in a plain [try_*] call, by [wait_until] before it has a waker, or after
    it has enqueued its waker. *)
Inductive try_ctx := Once | First | Again (w : nat).

Inductive pc :=
  | Idle
  | Trying (o : op) (c : try_ctx)
  | UndoingRead (c : try_ctx)
  | UndoingUpread (c : try_ctx)
  | Enqueuing (o : op) (w : nat)
  | Sleeping (o : op) (w : nat)     (** [do_wait]: parked until [has_woken] is set *)
  | Closing (o : op) (w : nat)      (** the attempt succeeded; the [Waiter] is being dropped *)
  | Holding (o : op)
  | UpgradeLoop
  | UpgradeDone                     (** [try_upgrade] drops the upgradeable guard *)
  | DowngradeLoop
  | DowngradeDone                   (** [try_downgrade] drops the write guard *)
  | Waking (all : bool) (back : option op)               (** [is_empty] *)
  | Popping (all : bool) (back : option op)              (** pop the front of the queue *)
  | WakingUp (w : nat) (all : bool) (back : option op).  (** [wake_up] on the popped waker *)

(** The mutex, and the [has_woken] flags of the wakers. *)
Record shared := mkShared { word : Z; queue : list nat; woken : list bool }.

Definition with_word (sh : shared) (w : Z) : shared := mkShared w (queue sh) (woken sh).
Definition with_queue (sh : shared) (q : list nat) : shared := mkShared (word sh) q (woken sh).
Definition with_woken (sh : shared) (ws : list bool) : shared := mkShared (word sh) (queue sh) ws.

Definition back_to (b : option op) : pc := match b with Some o => Holding o | None => Idle end.

(** The end of an attempt.  [wait_until] makes a [Waiter] after its first failure, and after a later
    failure waits. *)
Definition finish_try (sh : shared) (o : op) (c : try_ctx) (ok : bool) : shared * pc :=
  match ok, c with
  | true, Again w => (sh, Closing o w)
  | true, _ => (sh, Holding o)
  | false, Once => (sh, Idle)
  | false, First => (with_woken sh (woken sh ++ [false]), Enqueuing o (length (woken sh)))
  | false, Again w => (sh, Sleeping o w)
  end.

Definition attempt (o : op) (w : Z) : Z * role :=
  match o with Read => try_read w | Write => try_write w | Upread => try_upread w end.

Definition do_try (sh : shared) (o : op) (c : try_ctx) : shared * pc :=
  let '(w, r) := attempt o (word sh) in
  let sh := with_word sh w in
  match r with
  | ReadUndo => (sh, UndoingRead c)
  | UpreadUndo => (sh, UndoingUpread c)
  | Outside => finish_try sh o c false
  | _ => finish_try sh o c true
  end.

(** The drops of the guards: [RwMutexReadGuard], [RwMutexWriteGuard], [RwMutexUpgradeableGuard]; [back]
    is what the thread still holds. *)
Definition RwMutex_read_drop (sh : shared) : shared * pc :=
  (with_word sh (fetch_sub (word sh) READER), if word sh =? READER then Waking false None else Idle).

Definition RwMutex_write_drop (sh : shared) (back : option op) : shared * pc :=
  (with_word sh (fetch_and_not (word sh) WRITER), Waking true back).

Definition RwMutex_upread_drop (sh : shared) (back : option op) : shared * pc :=
  (with_word sh (fetch_sub (word sh) UPGRADEABLE_READER),
   if word sh =? UPGRADEABLE_READER then Waking true back else back_to back).

(** One turn of the loops of [upgrade] and [downgrade]. *)
Definition upgrade_turn (sh : shared) : shared * pc :=
  let '(w, r) := try_upgrade (word sh) in
  (with_word sh w, if bool_decide (r = Upgraded) then UpgradeDone else UpgradeLoop).

Definition downgrade_turn (sh : shared) : shared * pc :=
  let '(w, r) := try_downgrade (word sh) in
  (with_word sh w, if bool_decide (r = Downgraded) then DowngradeDone else DowngradeLoop).

(** [WaitQueue::enqueue], and the attempt that follows. *)
Definition enqueue_waker (sh : shared) (o : op) (w : nat) : shared * pc :=
  (with_queue sh (queue sh ++ [w]), Trying o (Again w)).

(** [Waker::do_wait]: a thread whose waker was not woken is parked. *)
Definition do_wait (sh : shared) (o : op) (w : nat) : option (shared * pc) :=
  match woken sh !! w with
  | Some true => Some (with_woken sh (<[w := false]> (woken sh)), Enqueuing o w)
  | _ => None
  end.

(** [Waiter::drop]. *)
Definition close_waker (sh : shared) (o : op) (w : nat) : shared * pc :=
  (with_woken sh (<[w := true]> (woken sh)), Holding o).

(** [WaitQueue::wake_one] and [wake_all]: the fast path, one pop, and one [wake_up]. *)
Definition wake_fast_path (sh : shared) (all : bool) (back : option op) : shared * pc :=
  (sh, match queue sh with [] => back_to back | _ => Popping all back end).

Definition wake_pop (sh : shared) (all : bool) (back : option op) : shared * pc :=
  match queue sh with
  | [] => (sh, back_to back)
  | w :: q => (with_queue sh q, WakingUp w all back)
  end.

Definition wake_popped (sh : shared) (w : nat) (all : bool) (back : option op) : shared * pc :=
  match woken sh !! w with
  | Some false => (with_woken sh (<[w := true]> (woken sh)), if all then Popping all back else back_to back)
  | _ => (sh, Popping all back)
  end.

(** The next access of a thread in the middle of a call; a parked thread has none. *)
Definition go (sh : shared) (p : pc) : option (shared * pc) :=
  match p with
  | Idle | Holding _ => None
  | Trying o c => Some (do_try sh o c)
  | UndoingRead c => Some (finish_try (with_word sh (fetch_sub (word sh) READER)) Read c false)
  | UndoingUpread c => Some (finish_try (with_word sh (fetch_sub (word sh) UPGRADEABLE_READER)) Upread c false)
  | Enqueuing o w => Some (enqueue_waker sh o w)
  | Sleeping o w => do_wait sh o w
  | Closing o w => Some (close_waker sh o w)
  | UpgradeLoop => Some (upgrade_turn sh)
  | UpgradeDone => Some (RwMutex_upread_drop sh (Some Write))
  | DowngradeLoop => Some (downgrade_turn sh)
  | DowngradeDone => Some (RwMutex_write_drop sh (Some Upread))
  | Waking all back => Some (wake_fast_path sh all back)
  | Popping all back => Some (wake_pop sh all back)
  | WakingUp w all back => Some (wake_popped sh w all back)
  end.

(** The calls that a thread can make. *)
Inductive call := CTry (o : op) | CLock (o : op) | CDrop | CUpgrade | CDowngrade.

Definition start (sh : shared) (p : pc) (c : call) : option (shared * pc) :=
  match p, c with
  | Idle, CTry o => Some (sh, Trying o Once)
  | Idle, CLock o => Some (sh, Trying o First)
  | Holding Read, CDrop => Some (RwMutex_read_drop sh)
  | Holding Write, CDrop => Some (RwMutex_write_drop sh None)
  | Holding Upread, CDrop => Some (RwMutex_upread_drop sh None)
  | Holding Upread, CUpgrade => Some (with_word sh (fetch_or (word sh) BEING_UPGRADED), UpgradeLoop)
  | Holding Write, CDowngrade => Some (sh, DowngradeLoop)
  | _, _ => None
  end.

Definition act (a : option call) (sh : shared) (p : pc) : option (shared * pc) :=
  match a with None => go sh p | Some c => start sh p c end.

(** ** The mutex and its users *)

Definition held (o : op) : role := match o with Read => Reading | Write => Writing | Upread => Upreading end.
Definition back_role (b : option op) : role := match b with Some o => held o | None => Outside end.

Definition role_of (p : pc) : role :=
  match p with
  | Idle | Trying _ _ | Enqueuing _ _ | Sleeping _ _ => Outside
  | UndoingRead _ => ReadUndo
  | UndoingUpread _ => UpreadUndo
  | Closing o _ | Holding o => held o
  | UpgradeLoop => Upgrading
  | UpgradeDone => Upgraded
  | DowngradeLoop => Writing
  | DowngradeDone => Downgraded
  | Waking _ b | Popping _ b | WakingUp _ _ b => back_role b
  end.

Record rwmutex := mkMutex { m_shared : shared; m_threads : list pc }.

Definition roles (ts : list pc) : list role := role_of <$> ts.

(** Step [(i, a)]: thread [i] starts the call [a], or goes on. *)
Definition step (s : rwmutex) (ia : nat * option call) : option rwmutex :=
  let '(i, a) := ia in
  p ← m_threads s !! i;
  '(sh, q) ← act a (m_shared s) p;
  Some (mkMutex sh (<[i := q]> (m_threads s))).

Inductive m_step (allowed : call -> bool) : rwmutex -> rwmutex -> Prop :=
  | m_access s i a s' :
      step s (i, a) = Some s' -> (forall c, a = Some c -> allowed c = true) ->
      tally undoing (roles (m_threads s')) < 2 ^ 60 -> m_step allowed s s'.

Definition RwMutex_new (threads : nat) : rwmutex := mkMutex (mkShared 0 [] []) (replicate threads Idle).

(** A run of given steps. *)
Definition exec (s : rwmutex) (l : list (nat * option call)) : option rwmutex :=
  foldl (fun s ia => s ← s; step s ia) (Some s) l.

Definition any_call (c : call) : bool := true.
Definition blocking_call (c : call) : bool := match c with CTry _ => false | _ => true end.

(** ** The lock word *)

(** An access is a move on the word, or does not touch it. *)
Lemma act_moves a sh p sh' q :
  act a sh p = Some (sh', q) ->
  (word sh', role_of q) ∈ moves (role_of p) (word sh) \/ (word sh' = word sh /\ role_of q = role_of p).
Proof.
  assert (forall sh o c ok, word (fst (finish_try sh o c ok)) = word sh /\
    role_of (snd (finish_try sh o c ok)) = if ok then held o else Outside) as Hf by by intros ? ? [] [].
  assert (forall o c, let '(sh', q) := do_try sh o c in (word sh', role_of q) ∈ moves Outside (word sh)) as Ht.
  { intros o c. unfold do_try. assert (attempt o (word sh) ∈ moves Outside (word sh)) as Hm by (destruct o; cbn [attempt]; set_solver).
    destruct (attempt o (word sh)) as [w r] eqn:E.
    assert (r = Outside \/ (r = ReadUndo /\ o = Read) \/ (r = UpreadUndo /\ o = Upread) \/ r = held o) as Hr.
    { destruct o; cbn [attempt] in E; [unfold try_read in E|unfold try_write, compare_exchange in E|unfold try_upread in E];
        repeat match type of E with context [if ?b then _ else _] => destruct b end; injection E as <- <-; auto. }
    destruct Hr as [->|[[-> ->]|[[-> ->]| ->]]]; try exact Hm.
    - destruct (Hf (with_word sh w) o c false) as [E1 E2]. destruct (finish_try _ _ _ _) as [sh1 q1]. cbn [fst snd] in *. by rewrite E1, E2.
    - destruct (Hf (with_word sh w) o c true) as [E1 E2]. destruct o; cbn [held] in *;
        destruct (finish_try _ _ _ _) as [sh1 q1]; cbn [fst snd] in *; by rewrite E1, E2. }
  intros E. destruct a as [c|]; cbn [act] in E.
  - destruct p as [| | | | | | |[]| | | | | | |], c; try done; injection E as <- <-; cbn [role_of held fst snd word with_word]; auto.
    + left. unfold RwMutex_read_drop. cbn [fst snd]. destruct (_ =? _); set_solver.
    + left. set_solver.
    + left. unfold RwMutex_upread_drop. cbn [fst snd]. destruct (_ =? _); set_solver.
    + left. set_solver.
  - destruct p as [|o c|c|c|o w|o w|o w|o| | | | |all b|all b|w all b]; try done; cbn [go role_of] in *; unfold enqueue_waker, do_wait, close_waker, upgrade_turn, downgrade_turn, wake_fast_path, wake_pop, wake_popped in E.
    + left. specialize (Ht o c). destruct (do_try sh o c) as [sh1 q1]. by injection E as <- <-.
    + left. destruct (Hf (with_word sh (fetch_sub (word sh) READER)) Read c false) as [E1 E2]. destruct (finish_try _ _ _ _). simplify_eq/=. rewrite E1, E2. set_solver.
    + left. destruct (Hf (with_word sh (fetch_sub (word sh) UPGRADEABLE_READER)) Upread c false) as [E1 E2]. destruct (finish_try _ _ _ _). simplify_eq/=. rewrite E1, E2. set_solver.
    + simplify_eq. auto.
    + destruct (woken sh !! w) as [[]|]; simplify_eq; auto.
    + simplify_eq. auto.
    + left. unfold moves, RwLock_moves. destruct (try_upgrade (word sh)) as [w r] eqn:Eu. injection E as <- <-.
      unfold try_upgrade, compare_exchange in Eu. destruct (_ =? _); injection Eu as <- <-; set_solver.
    + left. unfold RwMutex_upread_drop in E. injection E as <- <-. destruct (_ =? _); set_solver.
    + left. unfold moves, RwLock_moves. destruct (try_downgrade (word sh)) as [w r] eqn:Eu. injection E as <- <-.
      unfold try_downgrade, compare_exchange in Eu. destruct (_ =? _); injection Eu as <- <-; set_solver.
    + left. unfold RwMutex_write_drop in E. injection E as <- <-. set_solver.
    + destruct b, (queue sh); simplify_eq; auto.
    + destruct b, (queue sh); simplify_eq; auto.
    + destruct b, all, (woken sh !! w) as [[]|]; simplify_eq; auto.
Qed.

Lemma step_word_inv allowed s s' :
  m_step allowed s s' -> word_inv (word (m_shared s)) (roles (m_threads s)) -> word_inv (word (m_shared s')) (roles (m_threads s')).
Proof.
  intros [s0 i a s1 E _ Hun] Hinv. unfold step in E. destruct (m_threads s0 !! i) as [p|] eqn:Hi; [|done]. cbn in E.
  destruct (act a (m_shared s0) p) as [[sh q]|] eqn:Ea; [|done]. cbn in E. injection E as <-. cbn [m_shared m_threads] in *.
  assert (roles (m_threads s0) !! i = Some (role_of p)) as Hr by (unfold roles; by rewrite list_lookup_fmap, Hi).
  assert (roles (<[i := q]> (m_threads s0)) = <[i := role_of q]> (roles (m_threads s0))) as E1 by apply list_fmap_insert.
  rewrite E1 in *. destruct (act_moves _ _ _ _ _ Ea) as [Hm|[E2 E3]].
  - by eapply moves_inv.
  - rewrite E2, E3, list_insert_id by done. done.
Qed.

Lemma m_reachable_word allowed n s :
  rtc (m_step allowed) (RwMutex_new n) s -> word_inv (word (m_shared s)) (roles (m_threads s)).
Proof.
  intros Hr. assert (word_inv (word (m_shared (RwMutex_new n))) (roles (m_threads (RwMutex_new n)))) as H0.
  { unfold RwMutex_new, roles. cbn [m_shared m_threads word]. rewrite fmap_replicate. apply word_inv_new. }
  revert H0. induction Hr as [|x y z H1 _ IH]; [done|]. intros H. apply IH. by eapply step_word_inv.
Qed.

(** C21: A sleeping read-write lock excludes in the same way, with upgrades, downgrades, blocking and
    non-blocking calls of any number of threads racing access by access. *)
Theorem rwmutex_exclusion n s i j p q :
  rtc (m_step any_call) (RwMutex_new n) s ->
  m_threads s !! i = Some p -> m_threads s !! j = Some q -> i <> j ->
  (can_write (role_of p) = true -> can_access (role_of q) = false) /\
  (can_upgrade (role_of p) = true -> can_upgrade (role_of q) = false).
Proof.
  intros Hr%m_reachable_word Hi Hj Hne. eapply word_inv_pair; [exact Hr| | |exact Hne]; unfold roles; rewrite list_lookup_fmap; by rewrite ?Hi, ?Hj.
Qed.
