(* ===== verification/RwMutexWait.v ===== *)
(** * No lost wake-ups in [RwMutex]

    Threads that use the blocking calls of [RwMutex] ([read], [write], [upread], with upgrades and
    downgrades) never end up all asleep: a failed attempt marks the word for a moment and may so keep a
    thread asleep that was just woken, but then someone is still awake who will wake it.  The plain
    [try_*] calls break this: they take their mark back without waking anyone. *)

From S2P Require Import Prelude RwLock RwMutex.

(** ** Wakers *)

(** The waker of a thread inside [wait_until]. *)
Definition wid (p : pc) : option nat :=
  match p with
  | Trying _ (Again w) | UndoingRead (Again w) | UndoingUpread (Again w) | Enqueuing _ w | Sleeping _ w | Closing _ w => Some w
  | _ => None
  end.

(** The waker of a thread that has enqueued it and has not got the lock. *)
Definition enqueued (p : pc) : option nat :=
  match p with
  | Trying _ (Again w) | UndoingRead (Again w) | UndoingUpread (Again w) | Sleeping _ w => Some w
  | _ => None
  end.

Definition undo_wid (p : pc) : option nat :=
  match p with UndoingRead (Again w) | UndoingUpread (Again w) => Some w | _ => None end.

Definition once (p : pc) : bool :=
  match p with Trying _ Once | UndoingRead Once | UndoingUpread Once => true | _ => false end.

Definition wakes (p : pc) : option nat := match p with WakingUp w _ _ => Some w | _ => None end.

Definition wakes_all (p : pc) : bool :=
  match p with Waking true _ | Popping true _ | WakingUp _ true _ => true | _ => false end.

Definition awake (ws : list bool) (p : pc) : bool :=
  match p with
  | Idle => false
  | Sleeping _ w => bool_decide (ws !! w <> Some false)
  | _ => true
  end.

Definition parked (ws : list bool) (p : pc) : Prop := exists o w, p = Sleeping o w /\ ws !! w = Some false.

(** What a step does to the wakers and the queue. *)
Inductive kind (sh : shared) : pc -> shared -> pc -> Prop :=
  | k_quiet p sh' q : queue sh' = queue sh -> woken sh' = woken sh -> wid q = wid p ->
      (forall w, enqueued q = Some w -> enqueued p = Some w) -> wakes p = None -> wakes q = None -> kind sh p sh' q
  | k_new p sh' o : queue sh' = queue sh -> woken sh' = woken sh ++ [false] -> wid p = None -> wakes p = None ->
      kind sh p sh' (Enqueuing o (length (woken sh)))
  | k_enqueue o w : kind sh (Enqueuing o w) (with_queue sh (queue sh ++ [w])) (Trying o (Again w))
  | k_unpark o w : kind sh (Sleeping o w) (with_woken sh (<[w := false]> (woken sh))) (Enqueuing o w)
  | k_close o w : kind sh (Closing o w) (with_woken sh (<[w := true]> (woken sh))) (Holding o)
  | k_pop all b w q : queue sh = w :: q -> kind sh (Popping all b) (with_queue sh q) (WakingUp w all b)
  | k_wake w all b q : wid q = None -> wakes q = None ->
      kind sh (WakingUp w all b) (with_woken sh (<[w := true]> (woken sh))) q
  | k_stale w all b : woken sh !! w <> Some false -> kind sh (WakingUp w all b) sh (Popping all b).

Lemma finish_kind sh p o c ok sh1 :
  once p = false -> queue sh1 = queue sh -> woken sh1 = woken sh -> wakes p = None ->
  match c with Again w => wid p = Some w /\ enqueued p = Some w | First => wid p = None | Once => False end ->
  kind sh p (fst (finish_try sh1 o c ok)) (snd (finish_try sh1 o c ok)).
Proof.
  intros Ho Hq Hw Hk Hc. destruct ok, c as [| |w]; cbn [finish_try fst snd]; try done.
  - by apply k_quiet.
  - destruct Hc as [H1 H2]. by apply k_quiet; cbn.
  - rewrite Hw. by apply k_new.
  - destruct Hc as [H1 H2]. apply k_quiet; cbn; try done. congruence.
Qed.

Lemma back_to_wid b : wid (back_to b) = None. Proof. by destruct b. Qed.
Lemma back_to_enqueued b : enqueued (back_to b) = None. Proof. by destruct b. Qed.
Lemma back_to_wakes b : wakes (back_to b) = None. Proof. by destruct b. Qed.

Lemma act_kind a sh p sh' q :
  act a sh p = Some (sh', q) -> (forall c, a = Some c -> blocking_call c = true) -> once p = false -> kind sh p sh' q.
Proof.
  intros E Hb Ho.
  assert (forall sh' q, queue sh' = queue sh -> woken sh' = woken sh -> wid p = None -> wid q = None -> enqueued q = None ->
    wakes p = None -> wakes q = None -> kind sh p sh' q) as Hquiet.
  { intros. apply k_quiet; congruence. }
  destruct a as [c|]; cbn [act] in E.
  - specialize (Hb c eq_refl). destruct p as [| | | | | | |[]| | | | | | |], c; try done; injection E as <- <-; apply Hquiet; try done.
    all: cbn; destruct (_ =? _); done.
  - destruct p as [|o c|c|c|o w|o w|o w|o| | | | |all b|all b|w all b]; try done; cbn [go] in *; unfold enqueue_waker, do_wait, close_waker, upgrade_turn, downgrade_turn, wake_fast_path, wake_pop, wake_popped in E.
    + injection E as E. unfold do_try in E. destruct (attempt o (word sh)) as [wd r].
      assert (match c with Again w => wid (Trying o c) = Some w /\ enqueued (Trying o c) = Some w | First => wid (Trying o c) = None | Once => False end)
        as Hc by by destruct c.
      pose proof (finish_kind sh (Trying o c) o c true (with_word sh wd) Ho eq_refl eq_refl eq_refl Hc) as K1.
      pose proof (finish_kind sh (Trying o c) o c false (with_word sh wd) Ho eq_refl eq_refl eq_refl Hc) as K2.
      destruct r; try (rewrite E in K1; exact K1); try (rewrite E in K2; exact K2); injection E as <- <-;
        apply k_quiet; try done; by destruct c.
    + injection E as E. change (finish_try (with_word sh (fetch_sub (word sh) READER)) Read c false = (sh', q)) in E.
      pose proof (finish_kind sh (UndoingRead c) Read c false (with_word sh (fetch_sub (word sh) READER)) Ho eq_refl eq_refl eq_refl) as K.
      rewrite E in K. apply K. by destruct c.
    + injection E as E. change (finish_try (with_word sh (fetch_sub (word sh) UPGRADEABLE_READER)) Upread c false = (sh', q)) in E.
      pose proof (finish_kind sh (UndoingUpread c) Upread c false (with_word sh (fetch_sub (word sh) UPGRADEABLE_READER)) Ho eq_refl eq_refl eq_refl) as K.
      rewrite E in K. apply K. by destruct c.
    + injection E as <- <-. apply k_enqueue.
    + destruct (woken sh !! w) as [[]|]; try done. injection E as <- <-. apply k_unpark.
    + injection E as <- <-. apply k_close.
    + destruct (try_upgrade (word sh)) as [wd r]. injection E as <- <-. apply Hquiet; try done; by destruct (bool_decide _).
    + injection E as <- <-. unfold RwMutex_upread_drop. apply Hquiet; try done; by destruct (_ =? _).
    + destruct (try_downgrade (word sh)) as [wd r]. injection E as <- <-. apply Hquiet; try done; by destruct (bool_decide _).
    + injection E as <- <-. by apply Hquiet.
    + injection E as <- <-. apply Hquiet; try done; destruct (queue sh), b; done.
    + destruct (queue sh) as [|w l] eqn:Eq; injection E as <- <-; [apply Hquiet; try done; by destruct b|by apply k_pop].
    + destruct (woken sh !! w) as [[]|] eqn:Ew; injection E as <- <-; [by apply k_stale; rewrite Ew| |by apply k_stale; rewrite Ew].
      apply k_wake; destruct all; auto using back_to_wid, back_to_wakes.
Qed.

(** Each waker that has not been woken belongs to one thread, and is in the queue or about to be woken
    once it has been enqueued. *)
Record waker_inv (sh : shared) (ts : list pc) : Prop := {
  wk_valid : forall i p w, ts !! i = Some p -> wid p = Some w -> (w < length (woken sh))%nat;
  wk_unique : forall i j p q w, ts !! i = Some p -> ts !! j = Some q -> wid p = Some w -> wid q = Some w -> i = j;
  wk_owner : forall w, woken sh !! w = Some false -> exists i p, ts !! i = Some p /\ wid p = Some w;
  wk_queue : forall i p w, ts !! i = Some p -> enqueued p = Some w -> woken sh !! w = Some false ->
    w ∈ queue sh \/ exists j q, ts !! j = Some q /\ wakes q = Some w
}.

Lemma enqueued_wid p w : enqueued p = Some w -> wid p = Some w.
Proof. by destruct p as [|? []|[]|[]| | | | | | | | | | |]. Qed.

Ltac kind_cases H :=
  destruct H as [p sh' q K1 K2 K3 K4 K5 K6|p sh' o K1 K2 K3 K4|o w0|o w0|o w0|all b w0 l K1|w0 all b q K1 K2|w0 all b K1].

(** The thread that moves, or another. *)
Ltac thread_cases H :=
  apply list_lookup_insert_Some in H as [(<- & <- & _)|(? & H)].

Lemma waker_valid sh p sh' q ts k :
  waker_inv sh ts -> ts !! k = Some p -> kind sh p sh' q ->
  forall i r w, <[k := q]> ts !! i = Some r -> wid r = Some w -> (w < length (woken sh'))%nat.
Proof.
  intros [Hv Hu Ho Hq] Hk Hkind i r w Hi Hw. thread_cases Hi.
  - kind_cases Hkind; cbn in *; rewrite ?length_insert; try congruence.
    + rewrite K2. eapply Hv; [exact Hk|congruence].
    + rewrite K2, length_app. cbn. simplify_eq. lia.
    + by eapply Hv.
    + by eapply Hv.
  - assert (w < length (woken sh))%nat by by eapply Hv. kind_cases Hkind; cbn in *; rewrite ?length_insert; try done.
    + by rewrite K2.
    + rewrite K2, length_app. cbn. lia.
Qed.

Lemma waker_unique sh p sh' q ts k :
  waker_inv sh ts -> ts !! k = Some p -> kind sh p sh' q ->
  forall i j r t w, <[k := q]> ts !! i = Some r -> <[k := q]> ts !! j = Some t -> wid r = Some w -> wid t = Some w -> i = j.
Proof.
  intros [Hv Hu Ho Hq] Hk Hkind.
  assert (forall w, wid q = Some w -> wid p = Some w \/ w = length (woken sh)) as Hqp.
  { intros w. kind_cases Hkind; cbn; intros; simplify_eq; auto. left. congruence. }
  intros i j r t w Hi Hj Hr Ht. thread_cases Hi; thread_cases Hj; try done.
  - apply Hqp in Hr as [Hr| ->]; [by eapply Hu|]. apply (Hv _ _ _ Hj) in Ht. lia.
  - apply Hqp in Ht as [Ht| ->]; [by eapply Hu|]. apply (Hv _ _ _ Hi) in Hr. lia.
  - by eapply Hu.
Qed.

Lemma waker_owner sh p sh' q ts k :
  waker_inv sh ts -> ts !! k = Some p -> kind sh p sh' q ->
  forall w, woken sh' !! w = Some false -> exists i r, <[k := q]> ts !! i = Some r /\ wid r = Some w.
Proof.
  intros [Hv Hu Ho Hq] Hk Hkind w Hw.
  assert (forall w, woken sh !! w = Some false -> wid p = Some w -> wid q = Some w -> exists i r, <[k := q]> ts !! i = Some r /\ wid r = Some w) as Hsame.
  { intros w' _ _ H. exists k, q. split; [|done]. apply list_lookup_insert_eq. by eapply lookup_lt_Some. }
  assert (forall w, woken sh !! w = Some false -> (wid p = Some w -> wid q = Some w) ->
    exists i r, <[k := q]> ts !! i = Some r /\ wid r = Some w) as Hold.
  { intros w' H Hpq. destruct (Ho w' H) as (i & r & Hi & Hr). destruct (decide (i = k)) as [->|Hne].
    - rewrite Hk in Hi. injection Hi as <-. by eapply Hsame; eauto.
    - exists i, r. by rewrite list_lookup_insert_ne. }
  assert (k < length ts)%nat as Hlt by by eapply lookup_lt_Some.
  kind_cases Hkind; cbn in *.
  - apply Hold; congruence.
  - rewrite K2 in Hw. apply lookup_snoc_Some in Hw as [[_ Hw]|[-> _]]; [apply Hold; congruence|].
    eexists k, _. by rewrite list_lookup_insert_eq.
  - by apply Hold.
  - apply list_lookup_insert_Some in Hw as [(<- & _ & _)|(_ & Hw)]; [|by apply Hold].
    eexists k, _. by rewrite list_lookup_insert_eq.
  - apply list_lookup_insert_Some in Hw as [(<- & [=] & _)|(Hne & Hw)]. apply Hold; congruence.
  - by apply Hold.
  - apply list_lookup_insert_Some in Hw as [(<- & [=] & _)|(Hne & Hw)]. apply Hold; congruence.
  - by apply Hold.
Qed.

Lemma waker_queue sh p sh' q ts k :
  waker_inv sh ts -> ts !! k = Some p -> kind sh p sh' q ->
  forall i r w, <[k := q]> ts !! i = Some r -> enqueued r = Some w -> woken sh' !! w = Some false ->
  w ∈ queue sh' \/ exists j t, <[k := q]> ts !! j = Some t /\ wakes t = Some w.
Proof.
  intros [Hv Hu Ho Hq] Hk Hkind i r w Hi Hr Hw. assert (k < length ts)%nat as Hlt by by eapply lookup_lt_Some.
  assert (forall i r, ts !! i = Some r -> enqueued r = Some w -> woken sh !! w = Some false -> wakes p <> Some w ->
    w ∈ queue sh \/ exists j t, <[k := q]> ts !! j = Some t /\ wakes t = Some w) as Hold.
  { intros i0 r0 H1 H2 H3 H4. destruct (Hq i0 r0 w H1 H2 H3) as [Hin|(j & t & Hj & Ht)]; [by left|right].
    exists j, t. rewrite list_lookup_insert_ne; [done|]. intros <-. rewrite Hk in Hj. congruence. }
  thread_cases Hi.
  - kind_cases Hkind; cbn in *; try done.
    + rewrite K1. rewrite K2 in Hw. eapply Hold; [exact Hk|by apply K4|done|congruence].
    + simplify_eq. left. set_solver.
    + apply enqueued_wid in Hr. congruence.
  - pose proof (enqueued_wid _ _ Hr) as Hrw. pose proof (Hv _ _ _ Hi Hrw) as Hvw. kind_cases Hkind; cbn in *.
    + rewrite K1. rewrite K2 in Hw. eapply Hold; [exact Hi|done|done|congruence].
    + rewrite K1. rewrite K2, lookup_app_l in Hw by done. eapply Hold; [exact Hi|done|done|congruence].
    + destruct (Hold _ _ Hi Hr Hw ltac:(done)) as [Hin|Hj]; [left; set_solver|by right].
    + apply list_lookup_insert_Some in Hw as [(<- & _ & _)|(_ & Hw)]; [|by eapply Hold].
      exfalso. apply H. symmetry. by eapply Hu.
    + apply list_lookup_insert_Some in Hw as [(<- & [=] & _)|(_ & Hw)]. by eapply Hold.
    + destruct (Hold _ _ Hi Hr Hw ltac:(done)) as [Hin|Hj]; [|by right]. rewrite K1 in Hin.
      apply elem_of_cons in Hin as [->|Hin]; [right|by left]. eexists k, _. by rewrite list_lookup_insert_eq.
    + apply list_lookup_insert_Some in Hw as [(<- & [=] & _)|(Hne & Hw)]. eapply Hold; [exact Hi|done|done|congruence].
    + eapply Hold; [exact Hi|done|done|]. intros [= ->]. done.
Qed.

Lemma waker_step sh p sh' q ts k :
  waker_inv sh ts -> ts !! k = Some p -> kind sh p sh' q -> waker_inv sh' (<[k := q]> ts).
Proof.
  intros Hinv Hk Hkind. split.
  - by eapply waker_valid.
  - by eapply waker_unique.
  - by eapply waker_owner.
  - by eapply waker_queue.
Qed.

(** ** Who is awake *)

Record wait_inv (sh : shared) (ts : list pc) : Prop := {
  wt_word : word_inv (word sh) (roles ts);
  wt_wakers : waker_inv sh ts;
  wt_few : Z.of_nat (length ts) < 2 ^ 60;
  wt_once : forall i p, ts !! i = Some p -> once p = false;
  (** A thread that takes back the mark of a failed attempt does not go to sleep forever: the writer
      or upgrader that made it fail is there, or is waking everyone, or the thread is being woken. *)
  wt_undo : forall i p w, ts !! i = Some p -> undo_wid p = Some w -> woken sh !! w = Some false ->
    0 < tally writer (roles ts) + tally upgrading (roles ts) \/
    (exists j q, ts !! j = Some q /\ wakes_all q = true) \/ (exists j q, ts !! j = Some q /\ wakes q = Some w);
  wt_awake : forall i p, ts !! i = Some p -> parked (woken sh) p -> exists j q, ts !! j = Some q /\ awake (woken sh) q = true
}.

Lemma role_awake ws p : role_of p <> Outside -> awake ws p = true.
Proof. by destruct p. Qed.

Lemma wakes_awake ws p w : wakes p = Some w -> awake ws p = true.
Proof. by destruct p. Qed.

Lemma wakes_all_awake ws p : wakes_all p = true -> awake ws p = true.
Proof. by destruct p. Qed.

(** A word that is not zero has an owner, who is awake. *)
Lemma owner_awake wd ts ws : word_inv wd (roles ts) -> wd <> 0 -> exists j q, ts !! j = Some q /\ awake ws q = true /\ role_of q <> Outside.
Proof.
  intros Hinv Hne. pose proof (word_inv_view _ _ Hinv) as [_ _ _ _ _ V]. rewrite (wi_word _ _ Hinv) in Hne.
  assert (exists f : role -> Z, f Outside = 0 /\ 0 < tally f (roles ts)) as (f & Hf & Hpos).
  { destruct (Z_lt_dec 0 (tally writer (roles ts))); [by exists writer|].
    destruct (Z_lt_dec 0 (tally up_bit (roles ts))); [by exists up_bit|].
    destruct (Z_lt_dec 0 (tally upgrading (roles ts))); [by exists upgrading|].
    destruct (Z_lt_dec 0 (tally reader (roles ts))); [by exists reader|].
    destruct (Z_lt_dec 0 (tally undoing (roles ts))); [by exists undoing|]. lia. }
  apply tally_pos in Hpos as (j & r & Hj & Hr). unfold roles in Hj. rewrite list_lookup_fmap in Hj.
  destruct (ts !! j) as [q|] eqn:Ej; [|done]. injection Hj as <-. exists j, q.
  assert (role_of q <> Outside) as H by (intros E; rewrite E in Hr; lia). split_and!; [done|by apply role_awake|done].
Qed.

Lemma counts_small ts : Z.of_nat (length ts) < 2 ^ 60 -> tally reader (roles ts) + tally undoing (roles ts) < 2 ^ 60.
Proof.
  intros H. rewrite <- tally_add. assert (forall l, tally (fun a => reader a + undoing a) l <= Z.of_nat (length l)) as Hl.
  { induction l as [|r l IH]; cbn [tally foldr length]; [lia|]. fold (tally (fun a => reader a + undoing a) l). destruct r; cbn [reader undoing]; lia. }
  specialize (Hl (roles ts)). unfold roles in *. rewrite length_fmap in Hl. lia.
Qed.

(** Other threads' wakers are only ever woken. *)
Lemma woken_back sh p sh' q ts k i r w :
  waker_inv sh ts -> ts !! k = Some p -> kind sh p sh' q -> i <> k -> ts !! i = Some r -> wid r = Some w ->
  woken sh' !! w = Some false -> woken sh !! w = Some false.
Proof.
  intros [Hv Hu Ho Hq] Hk Hkind Hne Hi Hr Hw. pose proof (Hv _ _ _ Hi Hr) as Hlt. kind_cases Hkind; cbn in *; try done.
  - congruence.
  - by rewrite K2, lookup_app_l in Hw.
  - apply list_lookup_insert_Some in Hw as [(<- & _ & _)|(_ & Hw)]; [|done]. exfalso. apply Hne. by eapply Hu.
  - by apply list_lookup_insert_Some in Hw as [(<- & [=] & _)|(_ & Hw)].
  - by apply list_lookup_insert_Some in Hw as [(<- & [=] & _)|(_ & Hw)].
Qed.

Lemma mutex_attempt_cases o wd :
  match snd (attempt o wd) with
  | Outside => fst (attempt o wd) <> 0
  | ReadUndo => o = Read /\ (Z.testbit wd 63 = true \/ Z.testbit wd 60 = true \/ Z.testbit wd 61 = true)
  | UpreadUndo => o = Upread /\ Z.testbit wd 63 = true
  | r => r = held o
  end.
Proof.
  destruct o; cbn [attempt].
  - rewrite try_read_cases. cbn [fst snd]. destruct (Z.testbit wd 63), (Z.testbit wd 60), (Z.testbit wd 61); cbn; auto.
  - unfold try_write, compare_exchange. destruct (Z.eqb_spec wd 0); cbn; done.
  - rewrite try_upread_cases. cbn [fst snd]. destruct (Z.testbit wd 62) eqn:E; [|by destruct (Z.testbit wd 63)].
    intros H. apply (f_equal (fun z => Z.testbit z 62)) in H. unfold fetch_or, UPGRADEABLE_READER in H.
    by rewrite Z.lor_spec, E in H.
Qed.

(** Only a thread that has just failed takes a mark back. *)
Lemma act_undo a sh p sh' q w :
  act a sh p = Some (sh', q) -> undo_wid q = Some w ->
  woken sh' = woken sh /\ wid p = Some w /\ role_of p = Outside /\ (role_of q = ReadUndo \/ role_of q = UpreadUndo) /\
  (Z.testbit (word sh) 63 = true \/ Z.testbit (word sh) 60 = true \/ Z.testbit (word sh) 61 = true).
Proof.
  intros E Hq. destruct a as [c|]; cbn [act] in E.
  { destruct p as [| | | | | | |[]| | | | | | |], c; try done; injection E as <- <-; cbn in Hq; try done; by destruct (_ =? _). }
  destruct p as [|o c|c|c|o w'|o w'|o w'|o| | | | |all b|all b|w' all b]; try done; cbn [go] in *; unfold enqueue_waker, do_wait, close_waker, upgrade_turn, downgrade_turn, wake_fast_path, wake_pop, wake_popped in E.
  - pose proof (mutex_attempt_cases o (word sh)) as Ha. unfold do_try in E. destruct (attempt o (word sh)) as [wd r]. cbn [fst snd] in Ha.
    destruct r; cbn in *; destruct c as [| |w']; simplify_eq/=; naive_solver.
  - destruct c; simplify_eq/=.
  - destruct c; simplify_eq/=.
  - simplify_eq/=.
  - destruct (woken sh !! w') as [[]|]; simplify_eq/=.
  - simplify_eq/=.
  - destruct (try_upgrade (word sh)). injection E as <- <-. by destruct (bool_decide _).
  - injection E as <- <-. cbn in Hq. by destruct (_ =? _).
  - destruct (try_downgrade (word sh)). injection E as <- <-. by destruct (bool_decide _).
  - by injection E as <- <-.
  - injection E as <- <-. by destruct (queue sh), b.
  - destruct (queue sh), b; simplify_eq/=.
  - destruct (woken sh !! w') as [[]|], all, b; simplify_eq/=.
Qed.

(** A thread that gives up write access or an upgrade wakes everyone, or downgrades an uncontended
    lock. *)
Lemma act_release a sh p sh' q :
  act a sh p = Some (sh', q) ->
  writer (role_of p) + upgrading (role_of p) <= writer (role_of q) + upgrading (role_of q) \/
  wakes_all q = true \/ word sh = WRITER.
Proof.
  intros E. destruct a as [c|]; cbn [act] in E.
  { destruct p as [| | | | | | |[]| | | | | | |], c; try done; injection E as <- <-; auto; left; cbn; try lia; destruct (_ =? _); cbn; lia. }
  destruct p as [|o c|c|c|o w'|o w'|o w'|o| | | | |all b|all b|w' all b]; try done; cbn [go] in *; unfold enqueue_waker, do_wait, close_waker, upgrade_turn, downgrade_turn, wake_fast_path, wake_pop, wake_popped in E.
  - left. cbn. destruct (role_of q); cbn; lia.
  - left. cbn. destruct (role_of q); cbn; lia.
  - left. cbn. destruct (role_of q); cbn; lia.
  - left. cbn. destruct (role_of q); cbn; lia.
  - left. cbn. destruct (role_of q); cbn; lia.
  - left. injection E as <- <-. done.
  - unfold try_upgrade, compare_exchange in E. destruct (_ =? _); injection E as <- <-; left; cbn; lia.
  - left. injection E as <- <-. destruct (_ =? _); cbn; lia.
  - unfold try_downgrade, compare_exchange in E. destruct (Z.eqb_spec (word sh) WRITER); [auto|]. injection E as <- <-. left. cbn. lia.
  - right. left. by injection E as <- <-.
  - left. injection E as <- <-. destruct (queue sh), b as [[]|]; cbn; lia.
  - left. destruct (queue sh), b as [[]|]; injection E as <- <-; cbn; lia.
  - left. destruct (woken sh !! w') as [[]|], all, b as [[]|]; injection E as <- <-; cbn; lia.
Qed.

Lemma roles_insert ts k q : roles (<[k := q]> ts) = <[k := role_of q]> (roles ts).
Proof. apply list_fmap_insert. Qed.

Lemma roles_lookup ts k p : ts !! k = Some p -> roles ts !! k = Some (role_of p).
Proof. intros H. unfold roles. by rewrite list_lookup_fmap, H. Qed.

Lemma wait_all_step a sh p sh' q :
  act a sh p = Some (sh', q) -> wakes_all p = true -> wakes_all q = true \/ (queue sh = [] /\ wakes p = None).
Proof.
  intros E Hp. destruct a as [c|]; cbn [act] in E; [by destruct p as [| | | | | | |[]| | | | | | |], c|].
  destruct p as [| | | | | | | | | | | |[] b|[] b|w [] b]; try done; cbn [go] in E; unfold enqueue_waker, do_wait, close_waker, upgrade_turn, downgrade_turn, wake_fast_path, wake_pop, wake_popped in E.
  - destruct (queue sh); [by right|]. injection E as <- <-. by left.
  - destruct (queue sh); [by right|]. injection E as <- <-. by left.
  - left. destruct (woken sh !! w) as [[]|]; injection E as <- <-; done.
Qed.

Lemma wakes_step a sh p sh' q w :
  act a sh p = Some (sh', q) -> wakes p = Some w -> woken sh' !! w <> Some false.
Proof.
  intros E Hp. destruct p as [| | | | | | | | | | | | | |w' all b]; try done. injection Hp as ->. destruct a as [c|]; cbn [act go] in E; [done|]. unfold enqueue_waker, do_wait, close_waker, upgrade_turn, downgrade_turn, wake_fast_path, wake_pop, wake_popped in E.
  destruct (woken sh !! w) as [[]|] eqn:Ew; injection E as <- <-; [by rewrite Ew| |by rewrite Ew].
  cbn. rewrite list_lookup_insert_eq; [done|]. by eapply lookup_lt_Some.
Qed.

Lemma undo_enqueued p w : undo_wid p = Some w -> enqueued p = Some w.
Proof. by destruct p as [| |[]|[]| | | | | | | | | | |]. Qed.

Lemma undo_step a sh p sh' q ts k :
  wait_inv sh ts -> ts !! k = Some p -> act a sh p = Some (sh', q) -> kind sh p sh' q ->
  forall i r w, <[k := q]> ts !! i = Some r -> undo_wid r = Some w -> woken sh' !! w = Some false ->
  0 < tally writer (roles (<[k := q]> ts)) + tally upgrading (roles (<[k := q]> ts)) \/
  (exists j t, <[k := q]> ts !! j = Some t /\ wakes_all t = true) \/ (exists j t, <[k := q]> ts !! j = Some t /\ wakes t = Some w).
Proof.
  intros [Hw Hk Hfew _ Hu _] Hp Ha Hkind i r w Hi Hr Hwk. assert (k < length ts)%nat as Hlt by by eapply lookup_lt_Some.
  rewrite roles_insert, !(tally_insert _ _ _ _ _ (roles_lookup _ _ _ Hp)).
  pose proof (word_inv_view _ _ Hw) as [V1 V2 V3 V4 V5 V6]. thread_cases Hi.
  - left. destruct (act_undo _ _ _ _ _ _ Ha Hr) as (_ & _ & Hrp & Hrq & Hbit). rewrite V1, V3, V4 in Hbit.
    pose proof (counts_small ts Hfew). assert (writer (role_of q) = 0 /\ upgrading (role_of q) = 0) as [-> ->] by (by destruct Hrq as [-> | ->]).
    rewrite Hrp. cbn [writer upgrading]. destruct Hbit as [E|[E|E]]; boolify; lia.
  - assert (woken sh !! w = Some false) as Hwk0.
    { eapply woken_back; [exact Hk|exact Hp|exact Hkind|done|exact Hi| |exact Hwk]. by apply enqueued_wid, undo_enqueued. }
    assert (forall j t, ts !! j = Some t -> j <> k -> <[k := q]> ts !! j = Some t) as Hkeep.
    { intros j t Hj Hne. by rewrite list_lookup_insert_ne. }
    assert ((exists j t, ts !! j = Some t /\ wakes t = Some w) -> exists j t, <[k := q]> ts !! j = Some t /\ wakes t = Some w) as H3.
    { intros (j & t & Hj & Ht). destruct (decide (j = k)) as [->|Hne]; [|eauto 6].
      rewrite Hp in Hj. injection Hj as <-. exfalso. by eapply wakes_step. }
    destruct (Hu i r w Hi Hr Hwk0) as [Hpos|[(j & t & Hj & Ht)|Hd]]; [| |by auto].
    + destruct (act_release _ _ _ _ _ Ha) as [Hle|[Hall|Hword]]; [left; lia|right; left; exists k, q; by rewrite list_lookup_insert_eq|].
      exfalso. pose proof (roles_lookup _ _ _ Hi) as Hri. rewrite (wi_word _ _ Hw) in Hword. unfold WRITER in Hword.
      pose proof (tally_lookup undoing _ _ _ undoing_nonneg Hri). pose proof (tally_lookup passing _ _ _ passing_nonneg Hri).
      pose proof (wi_writer _ _ Hw). pose proof (wi_up _ _ Hw). pose proof (counts_small ts Hfew).
      assert (undoing (role_of r) + passing (role_of r) = 1) by by destruct r as [| |[]|[]| | | | | | | | | | |]. lia.
    + destruct (decide (j = k)) as [->|Hne]; [|right; left; eauto 6]. rewrite Hp in Hj. injection Hj as <-.
      destruct (wait_all_step _ _ _ _ _ Ha Ht) as [Hq|[Hq Hnone]]; [right; left; exists k, q; by rewrite list_lookup_insert_eq|].
      destruct (wk_queue _ _ Hk i r w Hi (undo_enqueued _ _ Hr) Hwk0) as [Hin|Hd]; [rewrite Hq in Hin; by apply elem_of_nil in Hin|auto].
Qed.

(** How a thread stops being awake. *)
Lemma turn_off a sh p sh' q :
  0 <= word sh < 2 ^ 64 -> act a sh p = Some (sh', q) -> once p = false -> awake (woken sh') q = false ->
  word sh' <> 0 \/ (queue sh = [] /\ woken sh' = woken sh /\ q = Idle) \/
  (exists w, p = WakingUp w false None /\ woken sh !! w = Some false /\ woken sh' = <[w := true]> (woken sh)) \/
  (exists w o, undo_wid p = Some w /\ q = Sleeping o w /\ woken sh' = woken sh).
Proof.
  intros Hw E Ho Hoff.
  assert (forall x, 0 <= x < 2 ^ 64 -> word sh <> x -> fetch_sub (word sh) x <> 0) as Hsub.
  { intros x Hx Hne. unfold fetch_sub, wrap64, u64_modulus. destruct (Z_lt_dec (word sh) x).
    - replace (word sh - x) with (word sh - x + 2 ^ 64 + (-1) * 2 ^ 64) by lia. rewrite Z_mod_plus_full, Z.mod_small; lia.
    - rewrite Z.mod_small; lia. }
  destruct a as [c|]; cbn [act] in E.
  { destruct p as [| | | | | | |[]| | | | | | |], c; try done; injection E as <- <-; try done; left; cbn in *;
      match type of Hoff with context [?x =? ?y] => destruct (Z.eqb_spec x y) end; try done; by apply Hsub. }
  destruct p as [|o c|c|c|o w'|o w'|o w'|o| | | | |all b|all b|w' all b]; try done; cbn [go] in *; unfold enqueue_waker, do_wait, close_waker, upgrade_turn, downgrade_turn, wake_fast_path, wake_pop, wake_popped in E.
  - pose proof (mutex_attempt_cases o (word sh)) as Ha. unfold do_try in E. destruct (attempt o (word sh)) as [wd r]. cbn [fst snd] in Ha.
    destruct r; cbn in *; destruct c as [| |w']; simplify_eq/=; auto.
  - destruct c as [| |w]; injection E as <- <-; [done..|]. right. right. right. by exists w, Read.
  - destruct c as [| |w]; injection E as <- <-; [done..|]. right. right. right. by exists w, Upread.
  - by injection E as <- <-.
  - destruct (woken sh !! w') as [[]|]; try done. by injection E as <- <-.
  - by injection E as <- <-.
  - destruct (try_upgrade (word sh)). injection E as <- <-. by destruct (bool_decide _).
  - injection E as <- <-. cbn in Hoff. by destruct (_ =? _).
  - destruct (try_downgrade (word sh)). injection E as <- <-. by destruct (bool_decide _).
  - by injection E as <- <-.
  - injection E as <- <-. destruct (queue sh); [|done]. destruct b; [done|]. auto.
  - destruct (queue sh); injection E as <- <-; [|done]. destruct b; [done|]. auto.
  - destruct (woken sh !! w') as [[]|] eqn:Ew; injection E as <- <-; try done. destruct all; [done|]. destruct b; [done|].
    right. right. left. by exists w'.
Qed.

Lemma awake_step a sh p sh' q ts k :
  wait_inv sh ts -> ts !! k = Some p -> act a sh p = Some (sh', q) -> kind sh p sh' q ->
  word_inv (word sh') (roles (<[k := q]> ts)) ->
  forall i r, <[k := q]> ts !! i = Some r -> parked (woken sh') r ->
  exists j t, <[k := q]> ts !! j = Some t /\ awake (woken sh') t = true.
Proof.
  intros [Hw Hk Hfew Ho Hu _] Hp Ha Hkind Hw' i r Hi Hr. assert (k < length ts)%nat as Hlt by by eapply lookup_lt_Some.
  destruct (awake (woken sh') q) eqn:Eq; [exists k, q; by rewrite list_lookup_insert_eq|].
  assert (forall j t, ts !! j = Some t -> awake (woken sh') t = true -> t <> p ->
    exists j t, <[k := q]> ts !! j = Some t /\ awake (woken sh') t = true) as Hother.
  { intros j t Hj Ht Hne. exists j, t. rewrite list_lookup_insert_ne; [done|]. intros <-. congruence. }
  destruct (turn_off _ _ _ _ _ (wv_range _ _ (word_inv_view _ _ Hw)) Ha (Ho _ _ Hp) Eq)
    as [Hne|[(Hq & Hwk & ->)|[(w & -> & Hwk & Hwk')|(w & o & Hun & -> & Hwk)]]].
  - destruct (owner_awake _ _ (woken sh') Hw' Hne) as (j & t & Hj & Ht & _). eauto.
  - thread_cases Hi; [by destruct Hr as (? & ? & ? & _)|]. destruct Hr as (o & w & -> & Hw0). rewrite Hwk in *.
    destruct (wk_queue _ _ Hk i _ w Hi eq_refl Hw0) as [Hin|(j & t & Hj & Ht)]; [rewrite Hq in Hin; by apply elem_of_nil in Hin|].
    eapply Hother; [exact Hj|by eapply wakes_awake|]. intros ->.
    destruct p as [| | | | | | | | | | | | | |w' [] b]; try done; pose proof (wakes_step _ _ _ _ _ _ Ha Ht) as Hc; by rewrite Hwk in Hc.
  - destruct (wk_owner _ _ Hk w Hwk) as (j & t & Hj & Ht). eapply Hother; [exact Hj| |by intros ->].
    destruct t as [|? []|[]|[]| |o' w'| | | | | | | | |]; try done. injection Ht as ->. cbn. rewrite Hwk'.
    apply bool_decide_eq_true. rewrite list_lookup_insert_eq; [done|by eapply lookup_lt_Some].
  - assert (woken sh !! w = Some false) as Hw0.
    { cbn in Eq. apply bool_decide_eq_false in Eq. rewrite Hwk in Eq. by apply dec_stable in Eq. }
    assert (wakes_all p = false /\ wakes p = None) as [Hp1 Hp2] by by destruct p as [| |[]|[]| | | | | | | | | | |].
    destruct (Hu k p w Hp Hun Hw0) as [Hpos|[(j & t & Hj & Ht)|(j & t & Hj & Ht)]].
    + assert (exists j t, ts !! j = Some t /\ 0 < writer (role_of t) + upgrading (role_of t)) as (j & t & Hj & Ht).
      { rewrite <- tally_add in Hpos. apply tally_pos in Hpos as (j & r' & Hj & Hr'). unfold roles in Hj. rewrite list_lookup_fmap in Hj.
        destruct (ts !! j) as [t|] eqn:Ej; [|done]. injection Hj as <-. eauto. }
      eapply Hother; [exact Hj|apply role_awake; intros E; by rewrite E in Ht|]. intros ->.
      by destruct p as [| |[]|[]| | | | | | | | | | |].
    + eapply Hother; [exact Hj|by apply wakes_all_awake|]. intros ->. congruence.
    + eapply Hother; [exact Hj|by eapply wakes_awake|]. intros ->. congruence.
Qed.

Lemma act_once a sh p sh' q :
  act a sh p = Some (sh', q) -> (forall c, a = Some c -> blocking_call c = true) -> once p = false -> once q = false.
Proof.
  intros E Hb Ho. destruct a as [c|]; cbn [act] in E.
  { specialize (Hb c eq_refl). destruct p as [| | | | | | |[]| | | | | | |], c; try done; injection E as <- <-; try done; cbn; by destruct (_ =? _). }
  destruct p as [|o c|c|c|o w'|o w'|o w'|o| | | | |all b|all b|w' all b]; try done; cbn [go] in *; unfold enqueue_waker, do_wait, close_waker, upgrade_turn, downgrade_turn, wake_fast_path, wake_pop, wake_popped in E.
  - unfold do_try in E. destruct (attempt o (word sh)) as [wd r]. destruct r; cbn in E; destruct c as [| |w']; by simplify_eq/=.
  - destruct c; by simplify_eq/=.
  - destruct c; by simplify_eq/=.
  - by injection E as <- <-.
  - destruct (woken sh !! w') as [[]|]; try done. by injection E as <- <-.
  - by injection E as <- <-.
  - destruct (try_upgrade (word sh)). injection E as <- <-. by destruct (bool_decide _).
  - injection E as <- <-. cbn. by destruct (_ =? _).
  - destruct (try_downgrade (word sh)). injection E as <- <-. by destruct (bool_decide _).
  - by injection E as <- <-.
  - injection E as <- <-. by destruct (queue sh), b.
  - destruct (queue sh); injection E as <- <-; by destruct b.
  - destruct (woken sh !! w') as [[]|]; injection E as <- <-; by destruct all, b.
Qed.

Lemma wait_step s s' :
  m_step blocking_call s s' -> wait_inv (m_shared s) (m_threads s) -> wait_inv (m_shared s') (m_threads s').
Proof.
  intros Hst Hinv. pose proof (step_word_inv _ _ _ Hst (wt_word _ _ Hinv)) as Hw'. destruct Hst as [s k a s' E Hb Hun].
  unfold step in E. destruct (m_threads s !! k) as [p|] eqn:Hp; [|done]. cbn in E.
  destruct (act a (m_shared s) p) as [[sh q]|] eqn:Ha; [|done]. cbn in E. injection E as <-. cbn [m_shared m_threads] in *.
  pose proof (wt_once _ _ Hinv _ _ Hp) as Ho. pose proof (act_kind _ _ _ _ _ Ha Hb Ho) as Hkind.
  split.
  - done.
  - eapply waker_step; [apply Hinv|done|done].
  - rewrite length_insert. apply Hinv.
  - intros i r Hi. thread_cases Hi; [by eapply act_once|by eapply (wt_once _ _ Hinv)].
  - by eapply undo_step.
  - by eapply awake_step.
Qed.

Lemma wait_inv_new n : Z.of_nat n < 2 ^ 60 -> wait_inv (m_shared (RwMutex_new n)) (m_threads (RwMutex_new n)).
Proof.
  intros Hn. assert (forall i p, replicate n Idle !! i = Some p -> p = Idle) as Hi by by intros i p [-> _]%lookup_replicate.
  split; cbn [RwMutex_new m_shared m_threads word woken queue].
  - unfold roles. rewrite fmap_replicate. apply word_inv_new.
  - split; cbn; [intros i p w H; apply Hi in H; by subst|intros i j p q w H; apply Hi in H; by subst|done|intros i p w H; apply Hi in H; by subst].
  - by rewrite length_replicate.
  - intros i p H. apply Hi in H. by subst.
  - intros i p w H. apply Hi in H. by subst.
  - intros i p H (o & w & -> & _). by apply Hi in H.
Qed.


(** ** Runs *)

Lemma step_length s ia s' : step s ia = Some s' -> length (m_threads s') = length (m_threads s).
Proof.
  destruct ia as [i a]. unfold step. destruct (m_threads s !! i) as [p|]; [|done]. cbn.
  destruct (act a (m_shared s) p) as [[sh q]|]; [|done]. cbn. intros [= <-]. apply length_insert.
Qed.

Lemma exec_rtc allowed l s s' :
  exec s l = Some s' -> forallb (fun ia => match snd ia with Some c => allowed c | None => true end) l = true ->
  Z.of_nat (length (m_threads s)) < 2 ^ 60 -> rtc (m_step allowed) s s'.
Proof.
  unfold exec. revert s. induction l as [|[i a] l IH]; intros s; cbn [foldl forallb snd]; [by intros [= ->]|].
  cbn [mbind option_bind]. destruct (step s (i, a)) as [s1|] eqn:E.
  2:{ intros H. exfalso. clear -H. induction l as [|x l IH]; [done|]. cbn in H. auto. }
  intros H [Ha Hl]%andb_true_iff Hn. pose proof (step_length _ _ _ E) as Hlen.
  eapply rtc_l; [|apply IH; [done|done|by rewrite Hlen]]. eapply m_access; [exact E| |].
  - intros c ->. done.
  - pose proof (counts_small (m_threads s1) ltac:(by rewrite Hlen)). pose proof (tally_nonneg reader (roles (m_threads s1)) reader_nonneg). lia.
Qed.

(** Thread 1 writes, thread 0 waits for it with [write], and thread 2 calls [try_read] at the wrong
    moment. *)
Definition lost_wakeup_run : list (nat * option call) :=
  [(1, Some (CLock Write)); (1, None);
   (0, Some (CLock Write)); (0, None); (0, None); (0, None);
   (2, Some (CTry Read)); (2, None);
   (1, Some CDrop); (1, None); (1, None); (1, None); (1, None);
   (0, None); (0, None); (0, None);
   (2, None)]%nat.

(** C40: A [try_read] that fails while the writer leaves makes a waiting writer sleep on a free lock: in
    this reachable state thread 0 is parked in [write], the word is zero, all other threads are idle,
    and no thread has a step to go on with. *)
Theorem try_read_loses_wakeup :
  exists s, rtc (m_step any_call) (RwMutex_new 3) s /\ word (m_shared s) = 0 /\
    parked (woken (m_shared s)) (Sleeping Write 0) /\ m_threads s = [Sleeping Write 0; Idle; Idle] /\
    forall i, step s (i, None) = None.
Proof.
  assert (exec (RwMutex_new 3) lost_wakeup_run = Some (mkMutex (mkShared 0 [0%nat] [false]) [Sleeping Write 0; Idle; Idle])) as E
    by (vm_compute; reflexivity).
  eexists. split; [by eapply exec_rtc|]. split_and!; [reflexivity|exists Write, 0%nat; split; reflexivity|reflexivity|intros [|[|[|i]]]; reflexivity].
Qed.

(** A reader, an upgradeable reader, and a thread that waits in [upread]. *)
Definition upread_run : list (nat * option call) :=
  [(1, Some (CLock Read)); (1, None); (2, Some (CLock Upread)); (2, None);
   (0, Some (CLock Upread)); (0, None); (0, None); (0, None); (2, Some CDrop)]%nat.

(** The release of an upgradeable read guard does not wake a thread that waits in [upread] while a
    reader is there, although no writer and no upgradeable reader is left. *)
Theorem upread_waits_for_readers :
  exists s, rtc (m_step blocking_call) (RwMutex_new 3) s /\
    parked (woken (m_shared s)) (Sleeping Upread 0) /\ m_threads s = [Sleeping Upread 0; Holding Read; Idle] /\
    snd (try_upread (word (m_shared s))) = Upreading.
Proof.
  assert (exec (RwMutex_new 3) upread_run = Some (mkMutex (mkShared READER [0%nat] [false]) [Sleeping Upread 0; Holding Read; Idle])) as E
    by (vm_compute; reflexivity).
  eexists. split; [by eapply exec_rtc|]. split_and!; [exists Upread, 0%nat; split; reflexivity|reflexivity|vm_compute; reflexivity].
Qed.

(** A writer and a thread that waits for it. *)
Definition waiting_run : list (nat * option call) :=
  [(1, Some (CLock Write)); (1, None); (0, Some (CLock Write)); (0, None); (0, None); (0, None)]%nat.

Definition waiting_state : rwmutex := mkMutex (mkShared WRITER [0%nat] [false]) [Sleeping Write 0; Holding Write].

Lemma waiting_reachable allowed : allowed (CLock Write) = true -> rtc (m_step allowed) (RwMutex_new 2) waiting_state.
Proof.
  intros H. apply (exec_rtc _ waiting_run); [vm_compute; reflexivity| |done]. cbn. by rewrite H.
Qed.


Lemma rwmutex_exclusion_witness : can_access (role_of (Sleeping Write 0)) = false.
Proof.
  refine (proj1 (rwmutex_exclusion 2 waiting_state 1 0 (Holding Write) (Sleeping Write 0) _ _ _ _) _).
  - by apply waiting_reachable.
  - reflexivity.
  - reflexivity.
  - discriminate.
  - reflexivity.
Defined.
