(* ===== verification/Signals.v ===== *)
(** * Signals

    [kernel/core/src/process/signal/]: signal sets ([sig_mask.rs]), signal numbers ([sig_num.rs]),
    the queues of pending signals ([sig_queues.rs]), dispositions ([sig_action.rs],
    [sig_disposition.rs]) and the choice of the next signal of a thread ([pending.rs], [mod.rs]).

    A signal number is an integer between 1 and 64 and a signal set a 64-bit integer.  The abstract
    state of the queues is the list of pending signals of each number. *)

From S2P Require Import Prelude Flags.

(** ** Numbers and sets *)

Definition MIN_STD_SIG_NUM : Z := 1.
Definition MAX_STD_SIG_NUM : Z := 31.
Definition MIN_RT_SIG_NUM : Z := 32.
Definition MAX_RT_SIG_NUM : Z := 64.
Definition COUNT_STD_SIGS : nat := 31.
Definition COUNT_RT_SIGS : nat := 33.
Definition COUNT_ALL_SIGS : nat := 64.

Definition SigNum_try_from (n : Z) : result Z :=
  if negb ((MIN_STD_SIG_NUM <=? n) && (n <=? MAX_RT_SIG_NUM)) then Err EINVAL else Ok n.

Definition SigNum_from_u8 (n : Z) : run Z :=
  if (n >? MAX_RT_SIG_NUM) || (n <? MIN_STD_SIG_NUM) then Panic else Ret n.

Definition is_std (n : Z) : bool := n <=? MAX_STD_SIG_NUM.
Definition is_real_time (n : Z) : bool := n >=? MIN_RT_SIG_NUM.

Definition SIGHUP : Z := 1.
Definition SIGINT : Z := 2.
Definition SIGQUIT : Z := 3.
Definition SIGILL : Z := 4.
Definition SIGTRAP : Z := 5.
Definition SIGABRT : Z := 6.
Definition SIGBUS : Z := 7.
Definition SIGFPE : Z := 8.
Definition SIGKILL : Z := 9.
Definition SIGUSR1 : Z := 10.
Definition SIGSEGV : Z := 11.
Definition SIGUSR2 : Z := 12.
Definition SIGPIPE : Z := 13.
Definition SIGALRM : Z := 14.
Definition SIGTERM : Z := 15.
Definition SIGSTKFLT : Z := 16.
Definition SIGCHLD : Z := 17.
Definition SIGCONT : Z := 18.
Definition SIGSTOP : Z := 19.
Definition SIGTSTP : Z := 20.
Definition SIGTTIN : Z := 21.
Definition SIGTTOU : Z := 22.
Definition SIGURG : Z := 23.
Definition SIGXCPU : Z := 24.
Definition SIGXFSZ : Z := 25.
Definition SIGVTALRM : Z := 26.
Definition SIGPROF : Z := 27.
Definition SIGWINCH : Z := 28.
Definition SIGIO : Z := 29.
Definition SIGPWR : Z := 30.
Definition SIGSYS : Z := 31.

(** [SigSet]: bit [n - 1] stands for signal [n]. *)
Definition SigSet_from_signum (n : Z) : Z := Z.shiftl 1 (n - MIN_STD_SIG_NUM).
Definition SigSet_bitand (a b : Z) : Z := Z.land a b.
Definition SigSet_bitor (a b : Z) : Z := Z.lor a b.
Definition SigSet_not (a : Z) : Z := Z.lxor a (2 ^ 64 - 1).
Definition SigSet_sub (a b : Z) : Z := Z.land a (SigSet_not b).
Definition SigSet_new_empty : Z := 0.
Definition SigSet_new_full : Z := 2 ^ 64 - 1.
Definition SigSet_contains (a b : Z) : bool := Z.land a b =? b.
Definition SigSet_intersects (a b : Z) : bool := negb (Z.land a b =? 0).

(** ** Dispositions *)

Inductive SigAction :=
  | Dfl
  | Ign
  | User (handler_addr flags restorer_addr mask : Z).

Inductive SigDefaultAction := ActTerm | ActIgn | ActCore | ActStop | ActCont.

#[export] Instance SigAction_eq_dec : EqDecision SigAction.
Proof. solve_decision. Defined.
#[export] Instance SigDefaultAction_eq_dec : EqDecision SigDefaultAction.
Proof. solve_decision. Defined.

Definition one_of (n : Z) (l : list Z) : bool := existsb (Z.eqb n) l.

Definition SigDefaultAction_from_signum (n : Z) : SigDefaultAction :=
  if one_of n [SIGABRT; SIGBUS; SIGFPE; SIGILL; SIGQUIT; SIGSEGV; SIGSYS; SIGTRAP; SIGXCPU; SIGXFSZ]
  then ActCore
  else if one_of n [SIGCHLD; SIGURG; SIGWINCH] then ActIgn
  else if n =? SIGCONT then ActCont
  else if one_of n [SIGSTOP; SIGTSTP; SIGTTIN; SIGTTOU] then ActStop
  else ActTerm.

Definition SigAction_will_ignore (a : SigAction) (n : Z) : bool :=
  match a with
  | Dfl => bool_decide (SigDefaultAction_from_signum n = ActIgn)
  | Ign => true
  | User _ _ _ _ => false
  end.

(** [SigDispositions]: one action per signal number. *)
Notation SigDispositions := (list SigAction).

Definition num_to_idx (n : Z) : nat := Z.to_nat (n - MIN_STD_SIG_NUM).

Definition SigDispositions_new : SigDispositions := replicate COUNT_ALL_SIGS Dfl.

Definition disp_get (d : SigDispositions) (n : Z) : run SigAction := vec_get d (num_to_idx n).

Definition disp_set_default (d : SigDispositions) (n : Z) : run SigDispositions :=
  vec_set d (num_to_idx n) Dfl.

Definition inherit_action (a : SigAction) : SigAction :=
  match a with User _ _ _ _ => Dfl | _ => a end.

Definition disp_inherit (d : SigDispositions) : SigDispositions := inherit_action <$> d.

Definition SA_RESTORER : Z := 0x04000000.
Definition SigActionFlags_all : Z :=
  0x00000001 + 0x00000002 + 0x00000004 + 0x08000000 + 0x10000000 + 0x40000000 + 0x80000000 + 0x04000000.

Definition SIG_DFL : Z := 0.
Definition SIG_IGN : Z := 1.

Record sigaction_t := mkSigactionC {
  handler_ptr : Z;
  sa_flags : Z;
  restorer_ptr : Z;
  sa_mask : Z
}.

Section dispositions.
Context `{BF : Bitflags}.

(** [check_sigaction] on x86-64. *)
Definition check_sigaction (a : SigAction) : result unit :=
  match a with
  | User _ flags restorer_addr _ =>
      if bf_contains flags SA_RESTORER && negb (restorer_addr =? 0) then Ok tt else Err EINVAL
  | _ => Ok tt
  end.

Definition disp_set (d : SigDispositions) (n : Z) (sa : SigAction)
    : run (SigDispositions * result SigAction) :=
  match check_sigaction sa with
  | Err e => Ret (d, Err e)
  | Ok _ =>
      old ← vec_get d (num_to_idx n);
      d ← vec_set d (num_to_idx n) sa;
      Ret (d, Ok old)
  end.

Definition SigAction_from (c : sigaction_t) : SigAction :=
  if handler_ptr c =? SIG_DFL then Dfl
  else if handler_ptr c =? SIG_IGN then Ign
  else User (handler_ptr c) (bf_from_bits_truncate SigActionFlags_all (sa_flags c))
            (restorer_ptr c) (sa_mask c).

Definition as_c_type (a : SigAction) : sigaction_t :=
  match a with
  | Dfl => mkSigactionC SIG_DFL 0 0 0
  | Ign => mkSigactionC SIG_IGN 0 0 0
  | User h f r m => mkSigactionC h f r m
  end.
End dispositions.

(** ** Queues of pending signals *)

(** A [Box<dyn Signal>]: its number, and whatever else it carries. *)
Record Signal := mkSignal { s_num : Z; s_info : Z }.

#[export] Instance Signal_eq_dec : EqDecision Signal.
Proof. solve_decision. Defined.

Record Queues := mkQueues { std_queues : list (option Signal); rt_queues : list (list Signal) }.

Definition Queues_new : Queues :=
  mkQueues (replicate COUNT_STD_SIGS None) (replicate COUNT_RT_SIGS []).

Definition std_idx (n : Z) : nat := Z.to_nat (n - MIN_STD_SIG_NUM).
Definition rt_idx (n : Z) : nat := Z.to_nat (n - MIN_RT_SIG_NUM).

(** The first component of the result says whether the signal was added. *)
Definition Queues_enqueue (q : Queues) (signal : Signal) : run (Queues * bool) :=
  let signum := s_num signal in
  if is_std signum then
    slot ← vec_get (std_queues q) (std_idx signum);
    if is_some slot then Ret (q, false)
    else
      std ← vec_set (std_queues q) (std_idx signum) (Some signal);
      Ret (mkQueues std (rt_queues q), true)
  else
    queue ← vec_get (rt_queues q) (rt_idx signum);
    rt ← vec_set (rt_queues q) (rt_idx signum) (queue ++ [signal]);
    Ret (mkQueues (std_queues q) rt, true).

Definition ORDERED_STD_SIGS : list Z :=
  [SIGKILL; SIGTERM; SIGSTOP; SIGSEGV; SIGILL; SIGHUP; SIGCONT; SIGINT; SIGQUIT; SIGTRAP;
   SIGABRT; SIGBUS; SIGFPE; SIGUSR1; SIGUSR2; SIGPIPE; SIGALRM; SIGSTKFLT; SIGCHLD;
   SIGTSTP; SIGTTIN; SIGTTOU; SIGURG; SIGXCPU; SIGXFSZ; SIGVTALRM; SIGPROF; SIGWINCH;
   SIGIO; SIGPWR; SIGSYS].

(** [MIN_RT_SIG_NUM..=MAX_RT_SIG_NUM]. *)
Definition RT_SIGS : list Z := (fun i => MIN_RT_SIG_NUM + Z.of_nat i) <$> seq 0 COUNT_RT_SIGS.

Fixpoint dequeue_std (order : list Z) (std : list (option Signal)) (blocked : Z)
    : run (list (option Signal) * option Signal) :=
  match order with
  | [] => Ret (std, None)
  | signum :: rest =>
      if SigSet_contains blocked (SigSet_from_signum signum) then dequeue_std rest std blocked
      else
        slot ← vec_get std (std_idx signum);
        match slot with
        | Some signal =>
            std ← vec_set std (std_idx signum) None;
            Ret (std, Some signal)
        | None => dequeue_std rest std blocked
        end
  end.

Fixpoint dequeue_rt (order : list Z) (rt : list (list Signal)) (blocked : Z)
    : run (list (list Signal) * option Signal) :=
  match order with
  | [] => Ret (rt, None)
  | signum :: rest =>
      if SigSet_contains blocked (SigSet_from_signum signum) then dequeue_rt rest rt blocked
      else
        queue ← vec_get rt (rt_idx signum);
        match queue with
        | signal :: queue =>
            rt ← vec_set rt (rt_idx signum) queue;
            Ret (rt, Some signal)
        | [] => dequeue_rt rest rt blocked
        end
  end.

Definition Queues_dequeue (q : Queues) (blocked : Z) : run (Queues * option Signal) :=
  '(std, signal) ← dequeue_std ORDERED_STD_SIGS (std_queues q) blocked;
  match signal with
  | Some signal => Ret (mkQueues std (rt_queues q), Some signal)
  | None =>
      '(rt, signal) ← dequeue_rt RT_SIGS (rt_queues q) blocked;
      Ret (mkQueues std rt, signal)
  end.

(** [iter_mut().any(..)] over the standard queues: the queues, the number of dequeued signals and
    the answer. *)
Fixpoint pending_std (std : list (option Signal)) (blocked : Z) (disp : SigDispositions)
    : run (list (option Signal) * nat * bool) :=
  match std with
  | [] => Ret ([], 0%nat, false)
  | None :: rest =>
      '(rest, n, b) ← pending_std rest blocked disp; Ret (None :: rest, n, b)
  | Some signal :: rest =>
      if SigSet_contains blocked (SigSet_from_signum (s_num signal)) then
        '(rest, n, b) ← pending_std rest blocked disp; Ret (Some signal :: rest, n, b)
      else
        action ← disp_get disp (s_num signal);
        if SigAction_will_ignore action (s_num signal) then
          '(rest, n, b) ← pending_std rest blocked disp; Ret (None :: rest, S n, b)
        else Ret (std, 0%nat, true)
  end.

Fixpoint pending_rt (rt : list (list Signal)) (blocked : Z) (disp : SigDispositions)
    : run (list (list Signal) * nat * bool) :=
  match rt with
  | [] => Ret ([], 0%nat, false)
  | [] :: rest =>
      '(rest, n, b) ← pending_rt rest blocked disp; Ret ([] :: rest, n, b)
  | (signal :: queue) :: rest =>
      if SigSet_contains blocked (SigSet_from_signum (s_num signal)) then
        '(rest, n, b) ← pending_rt rest blocked disp; Ret ((signal :: queue) :: rest, n, b)
      else
        action ← disp_get disp (s_num signal);
        if SigAction_will_ignore action (s_num signal) then
          '(rest, n, b) ← pending_rt rest blocked disp;
          Ret ([] :: rest, (length (signal :: queue) + n)%nat, b)
        else Ret (rt, 0%nat, true)
  end.

Definition Queues_has_pending (q : Queues) (blocked : Z) (disp : SigDispositions)
    : run (Queues * nat * bool) :=
  '(std, n, b) ← pending_std (std_queues q) blocked disp;
  if (b : bool) then Ret (mkQueues std (rt_queues q), n, true)
  else
    '(rt, m, b) ← pending_rt (rt_queues q) blocked disp;
    Ret (mkQueues std rt, (n + m)%nat, b).

Definition Queues_has_pending_signal (q : Queues) (signum : Z) : run bool :=
  if is_std signum then slot ← vec_get (std_queues q) (std_idx signum); Ret (is_some slot)
  else if is_real_time signum then
    queue ← vec_get (rt_queues q) (rt_idx signum);
    Ret (match queue with [] => false | _ => true end)
  else Ret false.

(** The set bits of the non-empty queues; [base] is the number of the first one. *)
Fixpoint pending_bits {A} (nonempty : A -> bool) (base : Z) (l : list A) (acc : Z) : run Z :=
  match l with
  | [] => Ret acc
  | x :: rest =>
      if nonempty x then
        n ← SigNum_from_u8 base;
        pending_bits nonempty (base + 1) rest (SigSet_bitor acc (SigSet_from_signum n))
      else pending_bits nonempty (base + 1) rest acc
  end.

Definition Queues_sig_pending (q : Queues) : run Z :=
  pending ← pending_bits is_some MIN_STD_SIG_NUM (std_queues q) SigSet_new_empty;
  pending_bits (fun l => match l with [] => false | _ => true end) MIN_RT_SIG_NUM (rt_queues q) pending.

(** [SigQueues]: the counter is an [AtomicUsize]. *)
Record SigQueues := mkSigQueues { count : Z; queues : Queues }.

Definition SigQueues_new : SigQueues := mkSigQueues 0 Queues_new.
Definition SigQueues_is_empty (s : SigQueues) : bool := count s =? 0.

(** The boolean tells whether the [signalfd] pollers are notified. *)
Definition SigQueues_enqueue (s : SigQueues) (signal : Signal) : run (SigQueues * bool) :=
  '(q, added) ← Queues_enqueue (queues s) signal;
  if (added : bool) then Ret (mkSigQueues (wrap64 (count s + 1)) q, true)
  else Ret (mkSigQueues (count s) q, false).

Definition SigQueues_dequeue (s : SigQueues) (blocked : Z) : run (SigQueues * option Signal) :=
  if SigQueues_is_empty s then Ret (s, None)
  else
    '(q, signal) ← Queues_dequeue (queues s) blocked;
    Ret (mkSigQueues (if is_some signal then wrap64 (count s - 1) else count s) q, signal).

Definition SigQueues_has_pending (s : SigQueues) (blocked : Z) (disp : SigDispositions)
    : run (SigQueues * bool) :=
  '(q, n, b) ← Queues_has_pending (queues s) blocked disp;
  Ret (mkSigQueues (wrap64 (count s - Z.of_nat n)) q, b).

(** ** The signals of a thread *)

(** A thread sees its own queues and those of its process. *)
Record ThreadSignals := mkThread { t_queues : SigQueues; p_queues : SigQueues; t_mask : Z }.

Definition set_sig_mask (t : ThreadSignals) (mask : Z) : ThreadSignals :=
  mkThread (t_queues t) (p_queues t)
    (SigSet_sub (SigSet_sub mask (SigSet_from_signum SIGKILL)) (SigSet_from_signum SIGSTOP)).

Inductive DequeuedSignal := FromProcess (s : Signal) | FromThread (s : Signal).

Definition dequeued (d : DequeuedSignal) : Signal :=
  match d with FromProcess s | FromThread s => s end.

Definition dequeue_signal (t : ThreadSignals) (mask : Z) : run (ThreadSignals * option DequeuedSignal) :=
  '(tq, s) ← SigQueues_dequeue (t_queues t) mask;
  match s with
  | Some s => Ret (mkThread tq (p_queues t) (t_mask t), Some (FromThread s))
  | None =>
      '(pq, s) ← SigQueues_dequeue (p_queues t) mask;
      Ret (mkThread tq pq (t_mask t), option_map FromProcess s)
  end.

Definition has_pending_signal (t : ThreadSignals) (disp : SigDispositions) : run (ThreadSignals * bool) :=
  if SigQueues_is_empty (t_queues t) && SigQueues_is_empty (p_queues t) then Ret (t, false)
  else
    '(tq, b) ← SigQueues_has_pending (t_queues t) (t_mask t) disp;
    if (b : bool) then Ret (mkThread tq (p_queues t) (t_mask t), true)
    else
      '(pq, b) ← SigQueues_has_pending (p_queues t) (t_mask t) disp;
      Ret (mkThread tq pq (t_mask t), b).

(** One turn of the loop of [dequeue_pending_signal]. *)
Definition dequeue_pending_step (disp : SigDispositions) (is_traced : bool) (t : ThreadSignals)
    : run (flow ThreadSignals (ThreadSignals * option (DequeuedSignal * SigAction))) :=
  '(t, s) ← dequeue_signal t (t_mask t);
  match s with
  | None => Ret (Break (t, None))
  | Some d =>
      action ← disp_get disp (s_num (dequeued d));
      if SigAction_will_ignore action (s_num (dequeued d)) && negb is_traced then Ret (Continue t)
      else Ret (Break (t, Some (d, action)))
  end.

(** Each turn takes one signal out of the queues. *)
Definition dequeue_pending_signal (disp : SigDispositions) (is_traced : bool) (t : ThreadSignals)
    : run (ThreadSignals * option (DequeuedSignal * SigAction)) :=
  loop (S (Z.to_nat (count (t_queues t) + count (p_queues t)))) (dequeue_pending_step disp is_traced) t.

(** ** The abstract state: the pending signals of each number *)

Definition sig_valid (n : Z) : Prop := 1 <= n <= 64.

Definition blocked_in (mask n : Z) : bool := Z.testbit mask (n - 1).

Definition slot_list (x : option (option Signal)) : list Signal :=
  match x with Some (Some s) => [s] | _ => [] end.

Definition pend (q : Queues) (n : Z) : list Signal :=
  if is_std n then slot_list (std_queues q !! std_idx n) else default [] (rt_queues q !! rt_idx n).

(** The order of delivery. *)
Definition PRIORITY : list Z := ORDERED_STD_SIGS ++ RT_SIGS.

Definition prior (m n : Z) : Prop :=
  exists i j, PRIORITY !! i = Some m /\ PRIORITY !! j = Some n /\ (i < j)%nat.

Record q_wf (q : Queues) : Prop := {
  wf_std_len : length (std_queues q) = COUNT_STD_SIGS;
  wf_rt_len : length (rt_queues q) = COUNT_RT_SIGS;
  wf_nums : forall n s, sig_valid n -> s ∈ pend q n -> s_num s = n
}.

(** The number of pending signals. *)
Definition slots_total (std : list (option Signal)) : nat := length (omap id std).
Definition rt_total (rt : list (list Signal)) : nat := length (concat rt).
Definition q_total (q : Queues) : nat := (slots_total (std_queues q) + rt_total (rt_queues q))%nat.

(** ** Lemmas on sets *)

Lemma signum_bit n : sig_valid n -> SigSet_from_signum n = 2 ^ (n - 1).
Proof. intros Hn. unfold SigSet_from_signum, MIN_STD_SIG_NUM. rewrite Z.shiftl_1_l. done. Qed.

Lemma contains_signum mask n :
  sig_valid n -> SigSet_contains mask (SigSet_from_signum n) = blocked_in mask n.
Proof.
  intros Hn. rewrite signum_bit by done.
  apply (contains_pow2 (BF := Zflags)). unfold sig_valid in Hn. lia.
Qed.

Lemma testbit_full i : 0 <= i -> Z.testbit (2 ^ 64 - 1) i = (i <? 64).
Proof. intros Hi. change (2 ^ 64 - 1) with (Z.ones 64). by rewrite Z.testbit_ones_nonneg by lia. Qed.

Lemma blocked_sub mask s n :
  sig_valid n -> blocked_in (SigSet_sub mask s) n = blocked_in mask n && negb (blocked_in s n).
Proof.
  intros Hn. unfold sig_valid in Hn. unfold blocked_in, SigSet_sub, SigSet_not.
  rewrite Z.land_spec, Z.lxor_spec, testbit_full by lia.
  rewrite (proj2 (Z.ltb_lt (n - 1) 64)) by lia. by rewrite xorb_true_r.
Qed.

Lemma blocked_or mask s n : blocked_in (SigSet_bitor mask s) n = blocked_in mask n || blocked_in s n.
Proof. apply Z.lor_spec. Qed.

Lemma blocked_signum m n :
  sig_valid m -> sig_valid n -> blocked_in (SigSet_from_signum m) n = bool_decide (m = n).
Proof.
  intros Hm Hn. unfold sig_valid in *. rewrite signum_bit by done. unfold blocked_in.
  rewrite Z.pow2_bits_eqb by lia. case_bool_decide; [subst; apply Z.eqb_refl|apply Z.eqb_neq; lia].
Qed.

(** ** Lemmas on indices *)

Lemma std_idx_lt n : sig_valid n -> is_std n = true -> (std_idx n < COUNT_STD_SIGS)%nat.
Proof. unfold sig_valid, is_std, std_idx, COUNT_STD_SIGS, MAX_STD_SIG_NUM, MIN_STD_SIG_NUM. lia. Qed.

Lemma rt_idx_lt n : sig_valid n -> is_std n = false -> (rt_idx n < COUNT_RT_SIGS)%nat.
Proof. unfold sig_valid, is_std, rt_idx, COUNT_RT_SIGS, MAX_STD_SIG_NUM, MIN_RT_SIG_NUM. lia. Qed.

Lemma std_idx_inj m n : sig_valid m -> sig_valid n -> std_idx m = std_idx n -> m = n.
Proof. unfold sig_valid, std_idx, MIN_STD_SIG_NUM. lia. Qed.

Lemma rt_idx_inj m n :
  sig_valid m -> sig_valid n -> is_std m = false -> is_std n = false -> rt_idx m = rt_idx n -> m = n.
Proof. unfold sig_valid, is_std, MAX_STD_SIG_NUM, rt_idx, MIN_RT_SIG_NUM. lia. Qed.

Lemma priority_valid n : n ∈ PRIORITY <-> sig_valid n.
Proof.
  split.
  - intros Hn. assert (forallb (fun n => (1 <=? n) && (n <=? 64)) PRIORITY = true) as H by reflexivity.
    rewrite forallb_forall in H. apply list_elem_of_In in Hn. specialize (H n Hn). unfold sig_valid. lia.
  - intros Hn. unfold sig_valid in Hn.
    assert (forallb (fun i => existsb (Z.eqb (Z.of_nat i)) PRIORITY) (seq 1 64) = true) as H by reflexivity.
    rewrite forallb_forall in H. specialize (H (Z.to_nat n)).
    rewrite in_seq in H. specialize (H ltac:(lia)). apply existsb_exists in H as (m & Hm & E).
    apply list_elem_of_In. apply Z.eqb_eq in E. replace n with m by lia. done.
Qed.

Lemma priority_nodup : NoDup PRIORITY.
Proof. apply (bool_decide_unpack (NoDup PRIORITY)). reflexivity. Qed.

Lemma ordered_std n : n ∈ ORDERED_STD_SIGS -> sig_valid n /\ is_std n = true.
Proof.
  intros Hn. assert (forallb (fun n => (1 <=? n) && (n <=? 31)) ORDERED_STD_SIGS = true) as H by reflexivity.
  rewrite forallb_forall in H. apply list_elem_of_In in Hn. specialize (H n Hn).
  unfold sig_valid, is_std, MAX_STD_SIG_NUM. lia.
Qed.

Lemma ordered_rt n : n ∈ RT_SIGS -> sig_valid n /\ is_std n = false.
Proof.
  intros Hn. assert (forallb (fun n => (32 <=? n) && (n <=? 64)) RT_SIGS = true) as H by reflexivity.
  rewrite forallb_forall in H. apply list_elem_of_In in Hn. specialize (H n Hn).
  unfold sig_valid, is_std, MAX_STD_SIG_NUM. lia.
Qed.

(** What comes before a number in the order of delivery. *)
Lemma prior_split pre n post m : PRIORITY = pre ++ n :: post -> prior m n <-> m ∈ pre.
Proof.
  intros E. pose proof priority_nodup as Hd. unfold prior. split.
  - intros (i & j & Hi & Hj & Hlt).
    assert (j = length pre) as ->.
    { eapply NoDup_lookup; [exact Hd|exact Hj|]. rewrite E. by apply list_lookup_middle. }
    rewrite E, lookup_app_l in Hi by done. by eapply list_elem_of_lookup_2.
  - intros (i & Hi)%list_elem_of_lookup_1. pose proof (lookup_lt_Some _ _ _ Hi).
    exists i, (length pre). rewrite E. split_and!; [by rewrite lookup_app_l|by apply list_lookup_middle|done].
Qed.

(** ** Lemmas on the queues *)

Lemma vec_get_lt {A} (l : list A) i : (i < length l)%nat -> exists x, l !! i = Some x /\ vec_get l i = Ret x.
Proof.
  intros Hi. destruct (lookup_lt_is_Some_2 l i Hi) as [x Hx]. exists x. unfold vec_get. by rewrite Hx.
Qed.

Lemma vec_set_lt {A} (l : list A) i x : (i < length l)%nat -> vec_set l i x = Ret (<[i := x]> l).
Proof. intros Hi. unfold vec_set. by rewrite (proj2 (Nat.ltb_lt _ _) Hi). Qed.

Lemma slots_total_insert std i x y :
  std !! i = Some x ->
  (slots_total (<[i := y]> std) + length (slot_list (Some x)) =
   slots_total std + length (slot_list (Some y)))%nat.
Proof.
  unfold slots_total. revert i. induction std as [|z std IH]; intros [|i] E; simplify_eq/=.
  - destruct x, y; cbn; lia.
  - specialize (IH i E). destruct z; cbn in *; lia.
Qed.

Lemma rt_total_insert rt i x y :
  rt !! i = Some x -> (rt_total (<[i := y]> rt) + length x = rt_total rt + length y)%nat.
Proof.
  unfold rt_total. revert i. induction rt as [|z rt IH]; intros [|i] E; simplify_eq/=.
  - rewrite !length_app. lia.
  - specialize (IH i E). rewrite !length_app. lia.
Qed.

Lemma pend_std q n : is_std n = true -> pend q n = slot_list (std_queues q !! std_idx n).
Proof. unfold pend. by intros ->. Qed.

Lemma pend_rt q n : is_std n = false -> pend q n = default [] (rt_queues q !! rt_idx n).
Proof. unfold pend. by intros ->. Qed.

(** Replacing the content of one queue. *)
Definition put_std (q : Queues) (n : Z) (x : option Signal) : Queues :=
  mkQueues (<[std_idx n := x]> (std_queues q)) (rt_queues q).
Definition put_rt (q : Queues) (n : Z) (x : list Signal) : Queues :=
  mkQueues (std_queues q) (<[rt_idx n := x]> (rt_queues q)).

Lemma pend_put_std q n x m :
  q_wf q -> sig_valid n -> is_std n = true -> sig_valid m ->
  pend (put_std q n x) m = if decide (m = n) then slot_list (Some x) else pend q m.
Proof.
  intros Hq Hn Hs Hm. unfold pend. cbn. case_decide as E.
  - subst m. rewrite Hs. rewrite list_lookup_insert_eq; [done|]. rewrite wf_std_len by done. by apply std_idx_lt.
  - destruct (is_std m); [|done]. rewrite list_lookup_insert_ne; [done|]. intros H. by apply std_idx_inj in H.
Qed.

Lemma pend_put_rt q n x m :
  q_wf q -> sig_valid n -> is_std n = false -> sig_valid m ->
  pend (put_rt q n x) m = if decide (m = n) then x else pend q m.
Proof.
  intros Hq Hn Hs Hm. unfold pend. cbn. case_decide as E.
  - subst m. rewrite Hs. rewrite list_lookup_insert_eq; [done|]. rewrite wf_rt_len by done. by apply rt_idx_lt.
  - destruct (is_std m) eqn:Em; [done|]. rewrite list_lookup_insert_ne; [done|]. intros H.
    by apply rt_idx_inj in H.
Qed.

Lemma put_std_wf q n x :
  q_wf q -> sig_valid n -> is_std n = true -> (forall s, x = Some s -> s_num s = n) -> q_wf (put_std q n x).
Proof.
  intros Hq Hn Hs Hx. pose proof Hq as [H1 H2 H3]. split; cbn; [by rewrite length_insert|done|].
  intros m s Hm. rewrite pend_put_std by done. case_decide as E; [|by apply H3].
  subst m. destruct x as [y|]; cbn; [|by rewrite elem_of_nil].
  rewrite list_elem_of_singleton. intros ->. by apply Hx.
Qed.

Lemma put_rt_wf q n x :
  q_wf q -> sig_valid n -> is_std n = false -> (forall s, s ∈ x -> s_num s = n) -> q_wf (put_rt q n x).
Proof.
  intros Hq Hn Hs Hx. pose proof Hq as [H1 H2 H3]. split; cbn; [done|by rewrite length_insert|].
  intros m s Hm. rewrite pend_put_rt by done. case_decide as E; [subst m; apply Hx|by apply H3].
Qed.

Lemma put_std_total q n x :
  q_wf q -> sig_valid n -> is_std n = true ->
  (q_total (put_std q n x) + length (pend q n) = q_total q + length (slot_list (Some x)))%nat.
Proof.
  intros Hq Hn Hs. rewrite pend_std by done. unfold q_total, put_std. cbn [std_queues rt_queues].
  destruct (lookup_lt_is_Some_2 (std_queues q) (std_idx n)) as [y Hy].
  { rewrite wf_std_len by done. by apply std_idx_lt. }
  pose proof (slots_total_insert _ _ _ x Hy). rewrite Hy. lia.
Qed.

Lemma put_rt_total q n x :
  q_wf q -> sig_valid n -> is_std n = false ->
  (q_total (put_rt q n x) + length (pend q n) = q_total q + length x)%nat.
Proof.
  intros Hq Hn Hs. rewrite pend_rt by done. unfold q_total, put_rt. cbn [std_queues rt_queues].
  destruct (lookup_lt_is_Some_2 (rt_queues q) (rt_idx n)) as [y Hy].
  { rewrite wf_rt_len by done. by apply rt_idx_lt. }
  pose proof (rt_total_insert _ _ _ x Hy). rewrite Hy. cbn. lia.
Qed.

(** [enqueue] on the abstract state. *)
Lemma Queues_enqueue_spec q s :
  q_wf q -> sig_valid (s_num s) ->
  exists q' added, Queues_enqueue q s = Ret (q', added) /\ q_wf q' /\
    q_total q' = (q_total q + (if added then 1 else 0))%nat /\
    (added = false <-> is_std (s_num s) = true /\ pend q (s_num s) <> []) /\
    (forall n, sig_valid n -> pend q' n =
       if decide (n = s_num s) then (if added then pend q n ++ [s] else pend q n) else pend q n).
Proof.
  intros Hq Hn. unfold Queues_enqueue. destruct (is_std (s_num s)) eqn:Hs.
  - destruct (vec_get_lt (std_queues q) (std_idx (s_num s))) as (x & Hx & ->).
    { rewrite wf_std_len by done. by apply std_idx_lt. }
    cbn [mbind run_bind]. assert (pend q (s_num s) = slot_list (Some x)) as Hp by (by rewrite pend_std, Hx).
    destruct x as [y|]; cbn [is_some].
    + exists q, false. split_and!; [done|done|lia| |].
      * rewrite Hp. split; [intros _; by split|done].
      * intros n _. by case_decide.
    + rewrite vec_set_lt by (rewrite wf_std_len by done; by apply std_idx_lt). cbn [mbind run_bind].
      exists (put_std q (s_num s) (Some s)), true. split_and!; [done| | | |].
      * apply put_std_wf; try done. by intros ? [= <-].
      * pose proof (put_std_total q (s_num s) (Some s) Hq Hn Hs) as H. rewrite Hp in H. cbn [slot_list length] in H. lia.
      * rewrite Hp. by split; [|intros [_ []]].
      * intros n Hv. rewrite pend_put_std by done. case_decide; [subst n; by rewrite Hp|done].
  - destruct (vec_get_lt (rt_queues q) (rt_idx (s_num s))) as (x & Hx & ->).
    { rewrite wf_rt_len by done. by apply rt_idx_lt. }
    cbn [mbind run_bind]. assert (pend q (s_num s) = x) as Hp by (by rewrite pend_rt, Hx).
    rewrite vec_set_lt by (rewrite wf_rt_len by done; by apply rt_idx_lt). cbn [mbind run_bind].
    exists (put_rt q (s_num s) (x ++ [s])), true. split_and!; [done| | |by split; [|intros []]|].
    + apply put_rt_wf; try done. intros y. rewrite elem_of_app, list_elem_of_singleton.
      intros [Hy| ->]; [|done]. apply (wf_nums q Hq); [done|]. by rewrite Hp.
    + pose proof (put_rt_total q (s_num s) (x ++ [s]) Hq Hn Hs) as H. rewrite Hp, length_app in H. cbn [length] in H. lia.
    + intros n Hv. rewrite pend_put_rt by done. case_decide; [subst n; by rewrite Hp|done].
Qed.

(** The two loops of [dequeue], over any part of their order. *)
Lemma dequeue_std_spec order q blocked :
  q_wf q -> (forall n, n ∈ order -> sig_valid n /\ is_std n = true) ->
  exists std' r, dequeue_std order (std_queues q) blocked = Ret (std', r) /\
    match r with
    | None => std' = std_queues q /\ forall n, n ∈ order -> blocked_in blocked n = true \/ pend q n = []
    | Some s => exists pre n post, order = pre ++ n :: post /\ std' = std_queues (put_std q n None) /\
        blocked_in blocked n = false /\ pend q n = [s] /\
        forall m, m ∈ pre -> blocked_in blocked m = true \/ pend q m = []
    end.
Proof.
  intros Hq. induction order as [|n order IH]; intros Ho; cbn [dequeue_std].
  { do 2 eexists. split; [done|]. split; [done|]. by intros n ?%elem_of_nil. }
  destruct (Ho n) as [Hn Hs]; [set_solver|].
  destruct IH as (std' & r & E & Hr); [intros m Hm; apply Ho; set_solver|].
  assert (forall P, (blocked_in blocked n = true \/ pend q n = []) ->
    dequeue_std order (std_queues q) blocked = P -> exists std' r, P = Ret (std', r) /\
    match r with
    | None => std' = std_queues q /\
        forall m, m ∈ n :: order -> blocked_in blocked m = true \/ pend q m = []
    | Some s => exists pre k post, n :: order = pre ++ k :: post /\
        std' = std_queues (put_std q k None) /\ blocked_in blocked k = false /\ pend q k = [s] /\
        forall m, m ∈ pre -> blocked_in blocked m = true \/ pend q m = []
    end) as Hskip.
  { intros P Hd <-. exists std', r. split; [done|]. destruct r as [s|].
    - destruct Hr as (pre & k & post & -> & ? & ? & ? & Hpre). exists (n :: pre), k, post.
      split_and!; [done..|]. intros m [->|Hm]%elem_of_cons; auto.
    - destruct Hr as [-> Hall]. split; [done|]. intros m [->|Hm]%elem_of_cons; auto. }
  rewrite contains_signum by done. destruct (blocked_in blocked n) eqn:Eb; [by apply Hskip; auto|].
  destruct (vec_get_lt (std_queues q) (std_idx n)) as (x & Hx & ->).
  { rewrite wf_std_len by done. by apply std_idx_lt. }
  assert (pend q n = slot_list (Some x)) as Hp by (by rewrite pend_std, Hx). cbn [mbind run_bind].
  destruct x as [s|]; [|by apply Hskip; auto].
  rewrite vec_set_lt by (rewrite wf_std_len by done; by apply std_idx_lt). cbn [mbind run_bind].
  do 2 eexists. split; [done|]. exists [], n, order. split_and!; [done..|]. by intros m ?%elem_of_nil.
Qed.

Lemma dequeue_rt_spec order q blocked :
  q_wf q -> (forall n, n ∈ order -> sig_valid n /\ is_std n = false) ->
  exists rt' r, dequeue_rt order (rt_queues q) blocked = Ret (rt', r) /\
    match r with
    | None => rt' = rt_queues q /\ forall n, n ∈ order -> blocked_in blocked n = true \/ pend q n = []
    | Some s => exists pre n post rest, order = pre ++ n :: post /\ rt' = rt_queues (put_rt q n rest) /\
        blocked_in blocked n = false /\ pend q n = s :: rest /\
        forall m, m ∈ pre -> blocked_in blocked m = true \/ pend q m = []
    end.
Proof.
  intros Hq. induction order as [|n order IH]; intros Ho; cbn [dequeue_rt].
  { do 2 eexists. split; [done|]. split; [done|]. by intros n ?%elem_of_nil. }
  destruct (Ho n) as [Hn Hs]; [set_solver|].
  destruct IH as (rt' & r & E & Hr); [intros m Hm; apply Ho; set_solver|].
  assert (forall P, (blocked_in blocked n = true \/ pend q n = []) ->
    dequeue_rt order (rt_queues q) blocked = P -> exists rt' r, P = Ret (rt', r) /\
    match r with
    | None => rt' = rt_queues q /\
        forall m, m ∈ n :: order -> blocked_in blocked m = true \/ pend q m = []
    | Some s => exists pre k post rest, n :: order = pre ++ k :: post /\
        rt' = rt_queues (put_rt q k rest) /\ blocked_in blocked k = false /\ pend q k = s :: rest /\
        forall m, m ∈ pre -> blocked_in blocked m = true \/ pend q m = []
    end) as Hskip.
  { intros P Hd <-. exists rt', r. split; [done|]. destruct r as [s|].
    - destruct Hr as (pre & k & post & rest & -> & ? & ? & ? & Hpre). exists (n :: pre), k, post, rest.
      split_and!; [done..|]. intros m [->|Hm]%elem_of_cons; auto.
    - destruct Hr as [-> Hall]. split; [done|]. intros m [->|Hm]%elem_of_cons; auto. }
  rewrite contains_signum by done. destruct (blocked_in blocked n) eqn:Eb; [by apply Hskip; auto|].
  destruct (vec_get_lt (rt_queues q) (rt_idx n)) as (x & Hx & ->).
  { rewrite wf_rt_len by done. by apply rt_idx_lt. }
  assert (pend q n = x) as Hp by (by rewrite pend_rt, Hx). cbn [mbind run_bind].
  destruct x as [|s rest]; [by apply Hskip; auto|].
  rewrite vec_set_lt by (rewrite wf_rt_len by done; by apply rt_idx_lt). cbn [mbind run_bind].
  do 2 eexists. split; [done|]. exists [], n, order, rest. split_and!; [done..|]. by intros m ?%elem_of_nil.
Qed.

(** [dequeue] on the abstract state: the head of the first queue, in the order of delivery, that is
    neither empty nor blocked. *)
Lemma Queues_dequeue_spec q blocked :
  q_wf q ->
  exists q' r, Queues_dequeue q blocked = Ret (q', r) /\ q_wf q' /\
    match r with
    | None => q' = q /\ forall n, sig_valid n -> blocked_in blocked n = true \/ pend q n = []
    | Some s => sig_valid (s_num s) /\ blocked_in blocked (s_num s) = false /\
        pend q (s_num s) = s :: pend q' (s_num s) /\ q_total q = S (q_total q') /\
        (forall m, sig_valid m -> m <> s_num s -> pend q' m = pend q m) /\
        (forall m, prior m (s_num s) -> blocked_in blocked m = true \/ pend q m = [])
    end.
Proof.
  intros Hq. unfold Queues_dequeue.
  destruct (dequeue_std_spec ORDERED_STD_SIGS q blocked Hq ordered_std) as (std' & r & -> & Hr).
  cbn [mbind run_bind]. destruct r as [s|].
  - destruct Hr as (pre & n & post & Eo & -> & Hb & Hp & Hpre).
    destruct (ordered_std n) as [Hn Hs]; [rewrite Eo; set_solver|].
    assert (s_num s = n) as Hsn by (apply (wf_nums q Hq); [done|rewrite Hp; set_solver]).
    exists (put_std q n None), (Some s). rewrite Hsn. split_and!; [done|by apply put_std_wf|done..| | | |].
    + rewrite pend_put_std, decide_True by done. by rewrite Hp.
    + pose proof (put_std_total q n None Hq Hn Hs) as H. rewrite Hp in H. cbn [slot_list length] in H. lia.
    + intros m Hm Hne. by rewrite pend_put_std, decide_False.
    + intros m Hm. apply Hpre. revert Hm. apply (prior_split pre n (post ++ RT_SIGS)).
      unfold PRIORITY. rewrite Eo. by rewrite <- app_assoc.
  - destruct Hr as [-> Hstd].
    destruct (dequeue_rt_spec RT_SIGS q blocked Hq ordered_rt) as (rt' & r & -> & Hr).
    cbn [mbind run_bind]. destruct r as [s|].
    + destruct Hr as (pre & n & post & rest & Eo & -> & Hb & Hp & Hpre).
      destruct (ordered_rt n) as [Hn Hs]; [rewrite Eo; set_solver|].
      assert (s_num s = n) as Hsn by (apply (wf_nums q Hq); [done|rewrite Hp; set_solver]).
      exists (put_rt q n rest), (Some s). rewrite Hsn. split_and!; [done| |done..| | | |].
      * apply put_rt_wf; try done. intros y Hy. apply (wf_nums q Hq); [done|]. rewrite Hp. set_solver.
      * by rewrite pend_put_rt, decide_True.
      * pose proof (put_rt_total q n rest Hq Hn Hs) as H. rewrite Hp in H. cbn [length] in H. lia.
      * intros m Hm Hne. by rewrite pend_put_rt, decide_False.
      * intros m Hm. assert (PRIORITY = (ORDERED_STD_SIGS ++ pre) ++ n :: post) as E.
        { unfold PRIORITY. rewrite Eo. by rewrite <- app_assoc. }
        apply (prior_split _ _ _ m E) in Hm. apply elem_of_app in Hm as [Hm|Hm]; auto.
    + destruct Hr as [-> Hrt]. exists q, None. split_and!; [by destruct q|done|done|].
      intros n Hn%priority_valid. apply elem_of_app in Hn as [Hn|Hn]; auto.
Qed.

(** ** [has_pending] *)

Definition disp_wf (d : SigDispositions) : Prop := length d = COUNT_ALL_SIGS.

Definition ignored (d : SigDispositions) (n : Z) : bool :=
  match d !! num_to_idx n with Some a => SigAction_will_ignore a n | None => false end.

Lemma disp_get_valid d n :
  disp_wf d -> sig_valid n -> exists a, disp_get d n = Ret a /\ d !! num_to_idx n = Some a /\
    ignored d n = SigAction_will_ignore a n.
Proof.
  intros Hd Hn. unfold disp_get. destruct (vec_get_lt d (num_to_idx n)) as (a & Ha & ->).
  { rewrite Hd. unfold num_to_idx, MIN_STD_SIG_NUM, COUNT_ALL_SIGS, sig_valid in *. lia. }
  exists a. unfold ignored. by rewrite Ha.
Qed.

Section has_pending.
Context (blocked : Z) (d : SigDispositions) (Hd : disp_wf d).

(** A queue is as it was, or it held ignored signals that are not blocked and is now empty. *)
Definition std_kept (x y : option Signal) : Prop :=
  y = x \/ y = None /\ exists s, x = Some s /\ blocked_in blocked (s_num s) = false /\
    ignored d (s_num s) = true.
Definition rt_kept (x y : list Signal) : Prop :=
  y = x \/ y = [] /\ exists s rest, x = s :: rest /\ blocked_in blocked (s_num s) = false /\
    ignored d (s_num s) = true.

Definition deliverable (n : Z) : Prop := blocked_in blocked n = false /\ ignored d n = false.

Lemma Forall2_same {A} (R : A -> A -> Prop) l : (forall x, R x x) -> Forall2 R l l.
Proof. intros HR. induction l; auto. Qed.

Lemma pending_std_spec std :
  (forall s, Some s ∈ std -> sig_valid (s_num s)) ->
  exists std' n b, pending_std std blocked d = Ret (std', n, b) /\ Forall2 std_kept std std' /\
    slots_total std = (slots_total std' + n)%nat /\
    (b = true <-> exists s, Some s ∈ std /\ deliverable (s_num s)).
Proof.
  induction std as [|x std IH]; intros Hv.
  { do 3 eexists. split_and!; [done|constructor|done|]. split; [done|]. by intros (s & ?%elem_of_nil & _). }
  destruct IH as (std' & n & b & E & HF & Ht & Hb); [intros s Hs; apply Hv; set_solver|].
  cbn [pending_std]. destruct x as [s|].
  - assert (sig_valid (s_num s)) as Hs by (apply Hv; set_solver).
    rewrite contains_signum by done. destruct (blocked_in blocked (s_num s)) eqn:Eb.
    + rewrite E. cbn [mbind run_bind]. do 3 eexists. split_and!; [done| | |].
      * constructor; [by left|done].
      * unfold slots_total in *. cbn. lia.
      * rewrite Hb. unfold deliverable. setoid_rewrite elem_of_cons. naive_solver congruence.
    + destruct (disp_get_valid d _ Hd Hs) as (a & -> & _ & Hi). cbn [mbind run_bind]. rewrite <- Hi.
      destruct (ignored d (s_num s)) eqn:Ei.
      * rewrite E. cbn [mbind run_bind]. do 3 eexists. split_and!; [done| | |].
        -- constructor; [right; eauto|done].
        -- unfold slots_total in *. cbn. lia.
        -- rewrite Hb. unfold deliverable. setoid_rewrite elem_of_cons. naive_solver congruence.
      * do 3 eexists. split_and!; [done| | |].
        -- apply Forall2_same. by left.
        -- lia.
        -- split; [intros _|done]. exists s. split; [set_solver|done].
  - rewrite E. cbn [mbind run_bind]. do 3 eexists. split_and!; [done| |done|].
    + constructor; [by left|done].
    + rewrite Hb. setoid_rewrite elem_of_cons. naive_solver.
Qed.

Lemma pending_rt_spec rt :
  (forall l s, l ∈ rt -> s ∈ l -> sig_valid (s_num s)) ->
  (forall l s s', l ∈ rt -> s ∈ l -> s' ∈ l -> s_num s = s_num s') ->
  exists rt' n b, pending_rt rt blocked d = Ret (rt', n, b) /\ Forall2 rt_kept rt rt' /\
    rt_total rt = (rt_total rt' + n)%nat /\
    (b = true <-> exists l s, l ∈ rt /\ s ∈ l /\ deliverable (s_num s)).
Proof.
  induction rt as [|x rt IH]; intros Hv Heq.
  { do 3 eexists. split_and!; [done|constructor|done|]. split; [done|]. by intros (? & s & ?%elem_of_nil & _). }
  destruct IH as (rt' & n & b & E & HF & Ht & Hb);
    [intros l s Hl; apply Hv; set_solver|intros l s s' Hl; apply Heq; set_solver|].
  cbn [pending_rt]. destruct x as [|s rest].
  - rewrite E. cbn [mbind run_bind]. do 3 eexists. split_and!; [done| |done|].
    + constructor; [by left|done].
    + rewrite Hb. setoid_rewrite elem_of_cons. split; [naive_solver|].
      intros (l & s & [->|Hl] & Hs & ?); [by apply elem_of_nil in Hs|eauto].
  - assert (sig_valid (s_num s)) as Hs by (apply (Hv (s :: rest)); set_solver).
    assert (forall s', s' ∈ s :: rest -> s_num s' = s_num s) as Hsame.
    { intros s' Hs'. apply (Heq (s :: rest)); set_solver. }
    assert ((exists l s0, l ∈ (s :: rest) :: rt /\ s0 ∈ l /\ deliverable (s_num s0)) <->
            deliverable (s_num s) \/ b = true) as Hiff.
    { rewrite Hb. setoid_rewrite (elem_of_cons rt). split.
      - intros (l & s0 & [->|Hl] & Hs0 & Hdl); [left; by rewrite <- (Hsame s0 Hs0)|eauto 6].
      - intros [Hdl|(l & s0 & ? & ? & ?)]; [exists (s :: rest), s; set_solver|exists l, s0; set_solver]. }
    rewrite contains_signum by done. destruct (blocked_in blocked (s_num s)) eqn:Eb.
    + rewrite E. cbn [mbind run_bind]. do 3 eexists. split_and!; [done| | |].
      * constructor; [by left|done].
      * unfold rt_total in *. cbn in *. rewrite !length_app. lia.
      * rewrite Hiff. unfold deliverable. rewrite Eb. naive_solver.
    + destruct (disp_get_valid d _ Hd Hs) as (a & -> & _ & Hi). cbn [mbind run_bind]. rewrite <- Hi.
      destruct (ignored d (s_num s)) eqn:Ei.
      * rewrite E. cbn [mbind run_bind]. do 3 eexists. split_and!; [done| | |].
        -- constructor; [right; eauto 8|done].
        -- unfold rt_total in *. cbn in *. rewrite !length_app. lia.
        -- rewrite Hiff. unfold deliverable. rewrite Ei. naive_solver.
      * do 3 eexists. split_and!; [done| | |].
        -- apply Forall2_same. by left.
        -- lia.
        -- rewrite Hiff. unfold deliverable. naive_solver.
Qed.
End has_pending.

Lemma std_elem q s :
  q_wf q -> Some s ∈ std_queues q <->
  sig_valid (s_num s) /\ is_std (s_num s) = true /\ s ∈ pend q (s_num s).
Proof.
  intros Hq. split.
  - intros (i & Hi)%list_elem_of_lookup_1. set (n := Z.of_nat i + 1).
    assert (i < 31)%nat as Hlt by (apply lookup_lt_Some in Hi; by rewrite (wf_std_len q Hq) in Hi).
    assert (sig_valid n /\ is_std n = true /\ std_idx n = i) as (Hn & Hs & Hidx).
    { unfold n, sig_valid, is_std, std_idx, MAX_STD_SIG_NUM, MIN_STD_SIG_NUM. lia. }
    assert (pend q n = [s]) as Hp by (by rewrite pend_std, Hidx, Hi).
    rewrite (wf_nums q Hq n s) by (done || rewrite Hp; set_solver). rewrite Hp. set_solver.
  - intros (Hn & Hs & Hin). rewrite pend_std in Hin by done.
    destruct (std_queues q !! std_idx (s_num s)) as [[s'|]|] eqn:E; cbn in Hin;
      [|by apply elem_of_nil in Hin..].
    apply list_elem_of_singleton in Hin as ->. by eapply list_elem_of_lookup_2.
Qed.

Lemma rt_elem q l s :
  q_wf q -> l ∈ rt_queues q -> s ∈ l ->
  sig_valid (s_num s) /\ is_std (s_num s) = false /\ pend q (s_num s) = l.
Proof.
  intros Hq (i & Hi)%list_elem_of_lookup_1 Hs. set (n := Z.of_nat i + 32).
  assert (i < 33)%nat as Hlt by (apply lookup_lt_Some in Hi; by rewrite (wf_rt_len q Hq) in Hi).
  assert (sig_valid n /\ is_std n = false /\ rt_idx n = i) as (Hn & Hst & Hidx).
  { unfold n, sig_valid, is_std, rt_idx, MAX_STD_SIG_NUM, MIN_RT_SIG_NUM. lia. }
  assert (pend q n = l) as Hp by (by rewrite pend_rt, Hidx, Hi).
  rewrite (wf_nums q Hq n s) by (done || rewrite Hp; set_solver). done.
Qed.

Lemma rt_elem_conv q s :
  q_wf q -> sig_valid (s_num s) -> is_std (s_num s) = false -> s ∈ pend q (s_num s) ->
  pend q (s_num s) ∈ rt_queues q.
Proof.
  intros Hq Hn Hs Hin. rewrite pend_rt in * by done.
  destruct (rt_queues q !! rt_idx (s_num s)) eqn:E; cbn in *; [by eapply list_elem_of_lookup_2|].
  by apply elem_of_nil in Hin.
Qed.

Lemma std_kept_lookup blocked d l l' i :
  Forall2 (std_kept blocked d) l l' ->
  l' !! i = l !! i \/ l' !! i = Some None /\ exists s, l !! i = Some (Some s) /\
    blocked_in blocked (s_num s) = false /\ ignored d (s_num s) = true.
Proof.
  intros HF. revert i. induction HF as [|x y l l' Hxy _ IH]; intros [|i]; cbn; auto.
  destruct Hxy as [->|(-> & s & -> & ? & ?)]; [by left|right; eauto].
Qed.

Lemma rt_kept_lookup blocked d l l' i :
  Forall2 (rt_kept blocked d) l l' ->
  l' !! i = l !! i \/ l' !! i = Some [] /\ exists s rest, l !! i = Some (s :: rest) /\
    blocked_in blocked (s_num s) = false /\ ignored d (s_num s) = true.
Proof.
  intros HF. revert i. induction HF as [|x y l l' Hxy _ IH]; intros [|i]; cbn; auto.
  destruct Hxy as [->|(-> & s & rest & -> & ? & ?)]; [by left|right; eauto 6].
Qed.

(** Queues related by the two predicates, seen as pending signals. *)
Lemma kept_queues q std' rt' blocked d :
  q_wf q -> Forall2 (std_kept blocked d) (std_queues q) std' ->
  Forall2 (rt_kept blocked d) (rt_queues q) rt' ->
  q_wf (mkQueues std' rt') /\
  forall m, sig_valid m -> pend (mkQueues std' rt') m = pend q m \/
    pend (mkQueues std' rt') m = [] /\ blocked_in blocked m = false /\ ignored d m = true.
Proof.
  intros Hq HS HR.
  assert (forall m, sig_valid m -> pend (mkQueues std' rt') m = pend q m \/
    pend (mkQueues std' rt') m = [] /\ blocked_in blocked m = false /\ ignored d m = true) as Hp.
  { intros m Hm. destruct (is_std m) eqn:Es.
    - destruct (std_kept_lookup _ _ _ _ (std_idx m) HS) as [E|(E & s & E' & ? & ?)];
        [left; by rewrite !pend_std by done; cbn [std_queues]; rewrite E|].
      assert (s_num s = m) as <-.
      { apply (wf_nums q Hq); [done|]. rewrite pend_std, E' by done. set_solver. }
      right. rewrite pend_std by done. cbn [std_queues]. by rewrite E.
    - destruct (rt_kept_lookup _ _ _ _ (rt_idx m) HR) as [E|(E & s & rest & E' & ? & ?)];
        [left; by rewrite !pend_rt by done; cbn [rt_queues]; rewrite E|].
      assert (s_num s = m) as <-.
      { apply (wf_nums q Hq); [done|]. rewrite pend_rt, E' by done. set_solver. }
      right. rewrite pend_rt by done. cbn [rt_queues]. by rewrite E. }
  split; [|done]. split; cbn.
  - apply Forall2_length in HS. by rewrite <- HS, wf_std_len.
  - apply Forall2_length in HR. by rewrite <- HR, wf_rt_len.
  - intros m s Hm. destruct (Hp m Hm) as [->|(-> & _)]; [by apply (wf_nums q Hq)|].
    by intros ?%elem_of_nil.
Qed.

(** [has_pending] drops only signals that are ignored and not blocked, and tells whether a signal that
    is neither blocked nor ignored is pending. *)
Lemma Queues_has_pending_spec q blocked d :
  q_wf q -> disp_wf d ->
  exists q' n b, Queues_has_pending q blocked d = Ret (q', n, b) /\ q_wf q' /\
    q_total q = (q_total q' + n)%nat /\
    (b = true <-> exists m, sig_valid m /\ pend q m <> [] /\ deliverable blocked d m) /\
    (forall m, sig_valid m -> pend q' m = pend q m \/
       pend q' m = [] /\ blocked_in blocked m = false /\ ignored d m = true).
Proof.
  intros Hq Hd. unfold Queues_has_pending.
  destruct (pending_std_spec blocked d Hd (std_queues q)) as (std' & n & b & -> & HF & Ht & Hb).
  { intros s Hs. by apply (std_elem q s Hq) in Hs as (? & _). }
  destruct (pending_rt_spec blocked d Hd (rt_queues q)) as (rt' & n' & b' & Er & HR & Htr & Hb').
  { intros l s Hl Hs. by apply (rt_elem q l s). }
  { intros l s s' Hl Hs Hs'. destruct (rt_elem q l s Hq Hl Hs) as (H1 & _ & H2).
    symmetry. apply (wf_nums q Hq); [done|]. by rewrite H2. }
  assert ((exists m, sig_valid m /\ pend q m <> [] /\ deliverable blocked d m) <-> b = true \/ b' = true)
    as Hiff.
  { rewrite Hb, Hb'. split.
    - intros (m & Hm & Hne & Hdl). destruct (pend q m) as [|s rest] eqn:Ep; [done|].
      assert (s_num s = m) as Hsn by (apply (wf_nums q Hq); [done|rewrite Ep; set_solver]).
      destruct (is_std m) eqn:Es; [left|right].
      + exists s. rewrite std_elem by done. rewrite Hsn, Ep. set_solver.
      + exists (s :: rest), s. rewrite Hsn. split_and!; [|set_solver|done].
        rewrite <- Ep, <- Hsn. apply rt_elem_conv; rewrite ?Hsn, ?Ep; try done. set_solver.
    - intros [(s & Hs & Hdl)|(l & s & Hl & Hs & Hdl)]; exists (s_num s).
      + apply (std_elem q s Hq) in Hs as (? & _ & Hin). split_and!; [done| |done]. by destruct (pend q (s_num s)); [apply elem_of_nil in Hin|].
      + destruct (rt_elem q l s Hq Hl Hs) as (? & _ & ->). split_and!; [done| |done].
        by destruct l; [apply elem_of_nil in Hs|]. }
  rewrite Er. cbn [mbind run_bind]. destruct b.
  - destruct (kept_queues q std' (rt_queues q) blocked d Hq HF) as [Hw Hp].
    { apply Forall2_same. by left. }
    do 3 eexists. split_and!; [done|done| | |done].
    + unfold q_total in *. cbn [std_queues rt_queues]. lia.
    + rewrite Hiff. naive_solver.
  - destruct (kept_queues q std' rt' blocked d Hq HF HR) as [Hw Hp].
    do 3 eexists. split_and!; [done|done| | |done].
    + unfold q_total in *. cbn [std_queues rt_queues]. lia.
    + rewrite Hiff. naive_solver.
Qed.

(** ** Counted queues *)

Record sq_wf (s : SigQueues) : Prop := {
  sq_q : q_wf (queues s);
  sq_count : count s = Z.of_nat (q_total (queues s));
  sq_bound : count s < 2 ^ 64
}.

Definition pending (s : SigQueues) (n : Z) : list Signal := pend (queues s) n.

Lemma pend_total q n : q_wf q -> sig_valid n -> (length (pend q n) <= q_total q)%nat.
Proof.
  intros Hq Hn. destruct (is_std n) eqn:Hs.
  - pose proof (put_std_total q n None Hq Hn Hs). cbn [slot_list length] in *. lia.
  - pose proof (put_rt_total q n [] Hq Hn Hs). cbn [length] in *. lia.
Qed.

Lemma sq_empty s n : sq_wf s -> SigQueues_is_empty s = true -> sig_valid n -> pending s n = [].
Proof.
  intros [Hq Hc _] He Hn. unfold SigQueues_is_empty in He. apply Z.eqb_eq in He.
  pose proof (pend_total _ n Hq Hn). unfold pending. destruct (pend (queues s) n); [done|]. cbn in *. lia.
Qed.

Lemma empty_total q : q_wf q -> (forall n, sig_valid n -> pend q n = []) -> q_total q = 0%nat.
Proof.
  intros Hq Hall. unfold q_total.
  assert (slots_total (std_queues q) = 0)%nat as ->.
  { unfold slots_total. destruct (omap id (std_queues q)) as [|s l] eqn:E; [done|].
    assert (s ∈ omap id (std_queues q)) as (o & Ho & Eo)%list_elem_of_omap by (rewrite E; set_solver).
    unfold id in Eo. subst o. apply std_elem in Ho as (Hn & _ & Hin); [|done].
    rewrite Hall in Hin by done. by apply elem_of_nil in Hin. }
  unfold rt_total. destruct (concat (rt_queues q)) as [|s l] eqn:E; [done|].
  assert (In s (concat (rt_queues q))) as (l' & Hl & Hs)%in_concat by (rewrite E; by left).
  apply list_elem_of_In in Hl, Hs. destruct (rt_elem q l' s) as (Hn & _ & Hp); [done..|].
  rewrite Hall in Hp by done. subst l'. by apply elem_of_nil in Hs.
Qed.

Lemma sq_wf_new : sq_wf SigQueues_new.
Proof.
  split; [|reflexivity|reflexivity]. split; [reflexivity..|].
  intros n s Hn. unfold pend. destruct (is_std n); cbn [SigQueues_new queues Queues_new std_queues rt_queues].
  - destruct (replicate COUNT_STD_SIGS None !! std_idx n) as [o|] eqn:E; cbn; [|by intros ?%elem_of_nil].
    apply lookup_replicate in E as [-> _]. by intros ?%elem_of_nil.
  - destruct (replicate COUNT_RT_SIGS [] !! rt_idx n) as [o|] eqn:E; cbn; [|by intros ?%elem_of_nil].
    apply lookup_replicate in E as [-> _]. by intros ?%elem_of_nil.
Qed.

Lemma SigQueues_enqueue_spec s sg :
  sq_wf s -> sig_valid (s_num sg) -> count s + 1 < 2 ^ 64 ->
  exists s' notified, SigQueues_enqueue s sg = Ret (s', notified) /\ sq_wf s' /\
    (notified = false <-> is_std (s_num sg) = true /\ pending s (s_num sg) <> []) /\
    count s' = count s + (if notified then 1 else 0) /\
    forall n, sig_valid n -> pending s' n =
      if decide (n = s_num sg) then
        if is_std n && negb (bool_decide (pending s n = [])) then pending s n else pending s n ++ [sg]
      else pending s n.
Proof.
  intros [Hq Hc Hb] Hn Hlt. unfold SigQueues_enqueue.
  destruct (Queues_enqueue_spec (queues s) sg Hq Hn) as (q' & added & -> & Hq' & Ht & Ha & Hp).
  cbn [mbind run_bind]. destruct added.
  - assert (wrap64 (count s + 1) = count s + 1) as Ew
      by (unfold wrap64, u64_modulus; rewrite Z.mod_small; lia). rewrite Ew.
    do 2 eexists. split; [done|]. split_and!; [|done|done|].
    + split; cbn [queues count]; [done|lia|lia].
    + intros n Hv. unfold pending in *. cbn [queues]. rewrite Hp by done. case_decide; [subst n|done].
      destruct (is_std (s_num sg)) eqn:Es; [|done]. rewrite bool_decide_eq_true_2; [done|].
      destruct (pend (queues s) (s_num sg)) eqn:E; [done|].
      assert (true = false) by (apply Ha; split; [done|congruence]). done.
  - do 2 eexists. split; [done|]. split_and!; [|done|cbn; lia|].
    + split; cbn [queues count]; [done|lia|done].
    + intros n Hv. unfold pending in *. cbn [queues]. rewrite Hp by done. case_decide; [subst n|done].
      destruct (proj1 Ha eq_refl) as [-> Hne]. by rewrite bool_decide_eq_false_2.
Qed.

Lemma SigQueues_dequeue_spec s blocked :
  sq_wf s ->
  exists s' r, SigQueues_dequeue s blocked = Ret (s', r) /\ sq_wf s' /\
    match r with
    | None => s' = s /\ forall n, sig_valid n -> blocked_in blocked n = true \/ pending s n = []
    | Some sg => sig_valid (s_num sg) /\ blocked_in blocked (s_num sg) = false /\
        pending s (s_num sg) = sg :: pending s' (s_num sg) /\ count s = count s' + 1 /\
        (forall m, sig_valid m -> m <> s_num sg -> pending s' m = pending s m) /\
        (forall m, prior m (s_num sg) -> blocked_in blocked m = true \/ pending s m = [])
    end.
Proof.
  intros Hs. pose proof Hs as [Hq Hc Hb]. unfold SigQueues_dequeue.
  destruct (SigQueues_is_empty s) eqn:He.
  { exists s, None. split_and!; [done|done|done|]. intros n Hn. right. by apply sq_empty. }
  destruct (Queues_dequeue_spec (queues s) blocked Hq) as (q' & r & -> & Hq' & Hr). cbn [mbind run_bind].
  destruct r as [sg|]; cbn [is_some].
  - destruct Hr as (Hn & Hbl & Hp & Ht & Hm & Hpr).
    assert (wrap64 (count s - 1) = count s - 1) as Ew
      by (unfold wrap64, u64_modulus; apply Z.mod_small; lia).
    do 2 eexists. split; [done|]. split.
    + split; cbn [queues count]; [done|lia|lia].
    + unfold pending. cbn [queues count]. split_and!; try done. lia.
  - destruct Hr as [-> Hall]. exists s, None. split_and!; [by destruct s|done|done|done].
Qed.

Lemma SigQueues_has_pending_spec s blocked d :
  sq_wf s -> disp_wf d ->
  exists s' b, SigQueues_has_pending s blocked d = Ret (s', b) /\ sq_wf s' /\
    (b = true <-> exists m, sig_valid m /\ pending s m <> [] /\ deliverable blocked d m) /\
    (forall m, sig_valid m -> pending s' m = pending s m \/
       pending s' m = [] /\ blocked_in blocked m = false /\ ignored d m = true).
Proof.
  intros [Hq Hc Hb] Hd. unfold SigQueues_has_pending.
  destruct (Queues_has_pending_spec (queues s) blocked d Hq Hd) as (q' & n & b & -> & Hq' & Ht & Hiff & Hp).
  cbn [mbind run_bind]. do 2 eexists. split; [done|]. split_and!; [|done..].
  split; cbn [queues count]; [done| |]; unfold wrap64, u64_modulus; rewrite Z.mod_small; lia.
Qed.

(** ** Threads *)

Record t_wf (t : ThreadSignals) : Prop := { tw_t : sq_wf (t_queues t); tw_p : sq_wf (p_queues t) }.

(** The pending signals of a thread: its own, then those of its process. *)
Definition t_pending (t : ThreadSignals) (n : Z) : list Signal :=
  pending (t_queues t) n ++ pending (p_queues t) n.

Definition t_count (t : ThreadSignals) : nat := Z.to_nat (count (t_queues t) + count (p_queues t)).

Lemma dequeue_signal_spec t mask :
  t_wf t ->
  exists t' r, dequeue_signal t mask = Ret (t', r) /\ t_wf t' /\ t_mask t' = t_mask t /\
    match r with
    | None => t' = t /\ forall n, sig_valid n -> blocked_in mask n = true \/ t_pending t n = []
    | Some d => let n := s_num (dequeued d) in
        sig_valid n /\ blocked_in mask n = false /\ dequeued d ∈ t_pending t n /\
        t_count t = S (t_count t') /\
        (forall m, sig_valid m -> m <> n -> t_pending t' m = t_pending t m) /\
        (forall x, x ∈ t_pending t' n -> x ∈ t_pending t n)
    end.
Proof.
  intros [Ht Hp]. unfold dequeue_signal.
  destruct (SigQueues_dequeue_spec (t_queues t) mask Ht) as (tq & r & -> & Ht' & Hr).
  cbn [mbind run_bind]. pose proof (sq_count _ Ht). pose proof (sq_count _ Hp). pose proof (sq_count _ Ht').
  destruct r as [s|].
  - destruct Hr as (Hn & Hb & E & Hc & Hm & _). do 2 eexists. split; [done|]. split; [by split|].
    split; [done|]. cbn. unfold t_pending, t_count. cbn [t_queues p_queues]. split_and!; try done.
    + rewrite E. set_solver.
    + lia.
    + intros m Hv Hne. by rewrite Hm.
    + rewrite E. set_solver.
  - destruct Hr as [-> Hall].
    destruct (SigQueues_dequeue_spec (p_queues t) mask Hp) as (pq & r & -> & Hp' & Hr).
    cbn [mbind run_bind]. pose proof (sq_count _ Hp'). destruct r as [s|].
    + destruct Hr as (Hn & Hb & E & Hc & Hm & _). do 2 eexists. split; [done|]. split; [by split|].
      split; [done|]. cbn. unfold t_pending, t_count. cbn [t_queues p_queues]. split_and!; try done.
      * rewrite E. set_solver.
      * lia.
      * intros m Hv Hne. by rewrite Hm.
      * rewrite E. set_solver.
    + destruct Hr as [-> Hall']. exists t, None. split_and!; [by destruct t|done|done|done|].
      intros n Hv. destruct (Hall n Hv) as [?|E]; [by left|]. destruct (Hall' n Hv) as [?|E']; [by left|].
      right. unfold t_pending. by rewrite E, E'.
Qed.

(** The loop that picks the next signal to handle. *)
Lemma dequeue_pending_signal_spec d traced t :
  disp_wf d -> t_wf t ->
  exists t' r, dequeue_pending_signal d traced t = Ret (t', r) /\ t_wf t' /\
    match r with
    | None => forall n, sig_valid n -> blocked_in (t_mask t) n = true \/ t_pending t' n = []
    | Some (x, a) => let n := s_num (dequeued x) in
        blocked_in (t_mask t) n = false /\ (ignored d n = false \/ traced = true) /\
        d !! num_to_idx n = Some a /\ dequeued x ∈ t_pending t n
    end.
Proof.
  intros Hd Ht. unfold dequeue_pending_signal.
  destruct (loop_total (dequeue_pending_step d traced)
    (fun t1 => t_wf t1 /\ t_mask t1 = t_mask t /\
       forall n x, sig_valid n -> x ∈ t_pending t1 n -> x ∈ t_pending t n)
    (fun p => t_wf (fst p) /\
       match snd p with
       | None => forall n, sig_valid n -> blocked_in (t_mask t) n = true \/ t_pending (fst p) n = []
       | Some (x, a) => let n := s_num (dequeued x) in
           blocked_in (t_mask t) n = false /\ (ignored d n = false \/ traced = true) /\
           d !! num_to_idx n = Some a /\ dequeued x ∈ t_pending t n
       end) t_count) with (fuel := S (t_count t)) (s := t) as ([t' r] & E & Hr).
  - intros t1 (Hw & Em & Hin). unfold dequeue_pending_step.
    destruct (dequeue_signal_spec t1 (t_mask t1) Hw) as (t2 & r & -> & Hw2 & Em2 & Hr). cbn [mbind run_bind].
    destruct r as [x|].
    + destruct Hr as (Hn & Hb & Hx & Hc & Hm & Hsub).
      destruct (disp_get_valid d _ Hd Hn) as (a & -> & Ha & Hi). cbn [mbind run_bind]. rewrite <- Hi.
      destruct (ignored d (s_num (dequeued x))) eqn:Ei, traced; cbn [andb negb];
        try (eexists; split; [reflexivity|]; cbn; split; [done|]; rewrite <- Em; split_and!; auto).
      eexists. split; [reflexivity|]. split; [|lia]. split_and!; [done|congruence|].
      intros n y Hv Hy. apply Hin; [done|].
      destruct (decide (n = s_num (dequeued x))) as [->|Hne]; [auto|]. by rewrite <- Hm.
    + destruct Hr as [-> Hall]. eexists. split; [reflexivity|]. cbn. split; [done|]. by rewrite <- Em.
  - by split_and!.
  - lia.
  - exists t', r. destruct Hr. by split_and!.
Qed.

(** The bits of [sig_pending]. *)
Lemma pending_bits_spec {A} (nonempty : A -> bool) l base acc :
  1 <= base -> base + Z.of_nat (length l) <= 65 ->
  exists r, pending_bits nonempty base l acc = Ret r /\ forall n, sig_valid n ->
    blocked_in r n = blocked_in acc n ||
      (base <=? n) && match l !! Z.to_nat (n - base) with Some x => nonempty x | None => false end.
Proof.
  revert base acc. induction l as [|x l IH]; intros base acc H1 H2; cbn [pending_bits].
  { exists acc. split; [done|]. intros n _. by rewrite lookup_nil, andb_false_r, orb_false_r. }
  cbn [length] in H2.
  assert (exists acc', (forall n, sig_valid n ->
      blocked_in acc' n = blocked_in acc n || (n =? base) && nonempty x) /\
    (if nonempty x then
       n ← SigNum_from_u8 base; pending_bits nonempty (base + 1) l (SigSet_bitor acc (SigSet_from_signum n))
     else pending_bits nonempty (base + 1) l acc) = pending_bits nonempty (base + 1) l acc')
    as (acc' & Hacc & ->).
  { destruct (nonempty x).
    - exists (SigSet_bitor acc (SigSet_from_signum base)). split.
      + intros n Hn. rewrite blocked_or, blocked_signum by (unfold sig_valid in *; lia). f_equal.
        rewrite andb_true_r. case_bool_decide; symmetry; [by apply Z.eqb_eq|by apply Z.eqb_neq].
      + unfold SigNum_from_u8, MAX_RT_SIG_NUM, MIN_STD_SIG_NUM.
        destruct (Z.gtb_spec base 64), (Z.ltb_spec base 1); try lia. done.
    - exists acc. split; [|done]. intros n _. by rewrite andb_false_r, orb_false_r. }
  destruct (IH (base + 1) acc') as (r & -> & Hr); [lia..|]. exists r. split; [done|]. intros n Hn.
  rewrite Hr, Hacc by done. destruct (Z.eqb_spec n base) as [->|Hne]; cbn [andb].
  - rewrite Z.sub_diag, Z.leb_refl, (proj2 (Z.leb_gt _ _)) by lia. cbn. by rewrite orb_false_r.
  - rewrite orb_false_r. f_equal. destruct (Z.leb_spec (base + 1) n), (Z.leb_spec base n); try lia.
    cbn [andb]. by replace (Z.to_nat (n - base)) with (S (Z.to_nat (n - (base + 1)))) by lia.
Qed.

Lemma Queues_sig_pending_spec q :
  q_wf q -> exists r, Queues_sig_pending q = Ret r /\ forall n, sig_valid n ->
    blocked_in r n = negb (bool_decide (pend q n = [])).
Proof.
  intros [H1 H2 _]. unfold Queues_sig_pending.
  destruct (pending_bits_spec is_some (std_queues q) MIN_STD_SIG_NUM SigSet_new_empty) as (r1 & -> & Hr1);
    [done|by rewrite H1|]. cbn [mbind run_bind].
  destruct (pending_bits_spec (fun l : list Signal => match l with [] => false | _ => true end)
    (rt_queues q) MIN_RT_SIG_NUM r1) as (r2 & -> & Hr2); [done|by rewrite H2|].
  exists r2. split; [done|]. intros n Hn. rewrite Hr2, Hr1 by done.
  unfold pend, is_std, std_idx, rt_idx, MIN_STD_SIG_NUM, MIN_RT_SIG_NUM, MAX_STD_SIG_NUM.
  replace (blocked_in SigSet_new_empty n) with false by (unfold blocked_in; by rewrite Z.testbit_0_l).
  unfold sig_valid in Hn. destruct (Z.leb_spec 1 n); [|lia]. cbn [andb orb].
  destruct (Z.leb_spec 32 n), (Z.leb_spec n 31); try lia; cbn [andb orb].
  - rewrite (lookup_ge_None_2 (std_queues q)) by (rewrite H1; unfold COUNT_STD_SIGS; lia).
    cbn. by destruct (rt_queues q !! Z.to_nat (n - 32)) as [[]|].
  - rewrite orb_false_r. by destruct (std_queues q !! Z.to_nat (n - 1)) as [[]|].
Qed.

(** No mask can be installed that blocks SIGKILL or SIGSTOP, and it blocks the rest as asked. *)
Lemma set_sig_mask_spec t mask n :
  sig_valid n -> blocked_in (t_mask (set_sig_mask t mask)) n =
    blocked_in mask n && negb ((n =? SIGKILL) || (n =? SIGSTOP)).
Proof.
  intros Hn. unfold set_sig_mask. cbn [t_mask]. rewrite !blocked_sub by done. rewrite !blocked_signum by done.
  destruct (blocked_in mask n); [|done]. cbn [andb].
  destruct (Z.eqb_spec n SIGKILL), (Z.eqb_spec n SIGSTOP); repeat case_bool_decide; congruence || done.
Qed.

(** SIGKILL is the first in the order of delivery. *)
Lemma sigkill_not_after m : ~ prior m SIGKILL.
Proof. intros H. apply (prior_split [] SIGKILL (tail PRIORITY)) in H; [|reflexivity]. by apply elem_of_nil in H. Qed.

Lemma sigkill_prior n : sig_valid n -> n <> SIGKILL -> prior SIGKILL n.
Proof.
  intros Hn%priority_valid Hne. apply list_elem_of_lookup_1 in Hn as [j Hj].
  exists 0%nat, j. split_and!; [done|done|]. destruct j; [|lia]. by simplify_eq/=.
Qed.

Lemma sigkill_dequeued s mask sg rest :
  sq_wf s -> blocked_in mask SIGKILL = false -> pending s SIGKILL = sg :: rest ->
  exists s', SigQueues_dequeue s mask = Ret (s', Some sg) /\ sq_wf s'.
Proof.
  intros Hs Hb Hp. destruct (SigQueues_dequeue_spec s mask Hs) as (s' & r & -> & Hw & Hr).
  exists s'. split; [|done]. destruct r as [sg'|].
  - destruct Hr as (Hn & _ & E & _ & _ & Hpr). destruct (decide (s_num sg' = SIGKILL)) as [Ek|Hne].
    + rewrite Ek in E. by rewrite Hp in E; simplify_eq.
    + destruct (Hpr SIGKILL) as [?|?]; [by apply sigkill_prior|congruence..].
  - destruct Hr as [_ Hall]. destruct (Hall SIGKILL) as [?|?]; [done|congruence..].
Qed.

(** The queues that hold given signals. *)
Definition of_signals (l : list Signal) : SigQueues :=
  foldl (fun s sg => match SigQueues_enqueue s sg with Ret (s', _) => s' | _ => s end) SigQueues_new l.

Lemma of_signals_wf l :
  Forall (fun sg => sig_valid (s_num sg)) l -> Z.of_nat (length l) < 2 ^ 64 -> sq_wf (of_signals l).
Proof.
  intros Hl Hlen. assert (sq_wf (of_signals l) /\ count (of_signals l) <= Z.of_nat (length l)) as [? _]; [|done].
  unfold of_signals. revert Hl Hlen. induction l as [|sg l IH] using rev_ind; intros Hl Hlen.
  { split; [apply sq_wf_new|done]. }
  rewrite foldl_app. cbn [foldl]. apply Forall_app in Hl as [Hl Hsg]. rewrite length_app in Hlen |- *.
  cbn [length] in *. destruct IH as [Hw Hc]; [done|lia|]. rewrite Forall_singleton in Hsg.
  destruct (SigQueues_enqueue_spec _ sg Hw Hsg) as (s' & b & -> & Hw' & _ & Hc' & _); [lia|].
  split; [done|]. destruct b; lia.
Qed.

Ltac queue_wf := apply of_signals_wf; [repeat (apply Forall_cons; split; [done|]); apply Forall_nil|]; done.

(** ** Properties *)

(** [dequeue] never panics; it delivers the oldest pending signal of the first number, in the order
    of delivery, that is pending and not blocked, and leaves every other pending signal in place; it
    returns nothing exactly when every pending signal is blocked. *)
Theorem dequeue_delivers_in_order s blocked :
  sq_wf s ->
  exists s' r, SigQueues_dequeue s blocked = Ret (s', r) /\ sq_wf s' /\
    match r with
    | None => s' = s /\ forall n, sig_valid n -> blocked_in blocked n = true \/ pending s n = []
    | Some sg => sig_valid (s_num sg) /\ blocked_in blocked (s_num sg) = false /\
        pending s (s_num sg) = sg :: pending s' (s_num sg) /\ count s = count s' + 1 /\
        (forall m, sig_valid m -> m <> s_num sg -> pending s' m = pending s m) /\
        (forall m, prior m (s_num sg) -> blocked_in blocked m = true \/ pending s m = [])
    end.
Proof. apply SigQueues_dequeue_spec. Qed.

Lemma dequeue_delivers_in_order_witness :
  let s := of_signals [mkSignal SIGUSR1 8; mkSignal SIGTERM 7] in
  sq_wf s /\ exists s', SigQueues_dequeue s (SigSet_from_signum SIGTERM) = Ret (s', Some (mkSignal SIGUSR1 8)) /\
    sq_wf s'.
Proof.
  intros s. assert (sq_wf s) as W by (queue_wf).
  split; [done|].
  destruct (dequeue_delivers_in_order s (SigSet_from_signum SIGTERM) W) as (s3 & r & E3 & W3 & _).
  exists s3. split; [|done]. rewrite E3. vm_compute in E3. by simplify_eq.
Defined.

(** The operations on a queue, in any order. *)
Inductive sq_step : SigQueues -> SigQueues -> Prop :=
  | step_enqueue s sg s' b : sig_valid (s_num sg) -> count s + 1 < 2 ^ 64 ->
      SigQueues_enqueue s sg = Ret (s', b) -> sq_step s s'
  | step_dequeue s blocked s' r : SigQueues_dequeue s blocked = Ret (s', r) -> sq_step s s'
  | step_has_pending s blocked d s' b : disp_wf d ->
      SigQueues_has_pending s blocked d = Ret (s', b) -> sq_step s s'.

(** After any sequence of operations on new queues the lock-free counter is the number of pending
    signals, so that [is_empty] is exact, every signal sits in the queue of its number, and a standard
    signal is pending at most once. *)
Theorem signal_queues_consistent s :
  rtc sq_step SigQueues_new s ->
  sq_wf s /\ (SigQueues_is_empty s = true <-> forall n, sig_valid n -> pending s n = []) /\
  (forall n sg, sig_valid n -> sg ∈ pending s n -> s_num sg = n) /\
  (forall n, sig_valid n -> is_std n = true -> (length (pending s n) <= 1)%nat).
Proof.
  intros Hr. assert (sq_wf s) as Hw.
  { remember SigQueues_new as s0 eqn:E. assert (sq_wf s0) as H0 by (subst; apply sq_wf_new). clear E.
    induction Hr as [|s1 s2 s3 Hs _ IH]; [done|]. apply IH. destruct Hs as [s sg s' b Hn Hlt E|s bl s' r E|s bl d s' b Hd E].
    - destruct (SigQueues_enqueue_spec s sg H0 Hn Hlt) as (? & ? & E' & ? & _). rewrite E in E'. by simplify_eq.
    - destruct (SigQueues_dequeue_spec s bl H0) as (? & ? & E' & ? & _). rewrite E in E'. by simplify_eq.
    - destruct (SigQueues_has_pending_spec s bl d H0 Hd) as (? & ? & E' & ? & _). rewrite E in E'. by simplify_eq. }
  split_and!; [done| | |].
  - split; [intros He n; by apply sq_empty|]. intros Hall. apply empty_total in Hall; [|apply Hw].
    unfold SigQueues_is_empty. rewrite (sq_count s Hw), Hall. done.
  - intros n sg. apply (wf_nums _ (sq_q s Hw)).
  - intros n _ Hs. unfold pending. rewrite pend_std by done. by destruct (_ !! _) as [[]|]; cbn; lia.
Qed.

Lemma signal_queues_consistent_witness :
  exists s, rtc sq_step SigQueues_new s /\ count s = 1 /\ sq_wf s.
Proof.
  set (sg := mkSignal SIGUSR1 3). exists (of_signals [sg]).
  assert (rtc sq_step SigQueues_new (of_signals [sg])) as Hr.
  { apply rtc_once. apply (step_enqueue _ sg _ true); [done|done|reflexivity]. }
  split_and!; [done|reflexivity|]. by apply signal_queues_consistent.
Defined.

(** [enqueue] of a standard signal that is already pending changes nothing and wakes no [signalfd]
    poller; any other signal becomes the youngest of its number and the pollers are notified. *)
Theorem enqueue_correct s sg :
  sq_wf s -> sig_valid (s_num sg) -> count s + 1 < 2 ^ 64 ->
  exists s' notified, SigQueues_enqueue s sg = Ret (s', notified) /\ sq_wf s' /\
    (notified = false <-> is_std (s_num sg) = true /\ pending s (s_num sg) <> []) /\
    count s' = count s + (if notified then 1 else 0) /\
    forall n, sig_valid n -> pending s' n =
      if decide (n = s_num sg) then
        if is_std n && negb (bool_decide (pending s n = [])) then pending s n else pending s n ++ [sg]
      else pending s n.
Proof. apply SigQueues_enqueue_spec. Qed.

Lemma enqueue_correct_witness :
  let s := of_signals [mkSignal SIGTERM 7; mkSignal 40 1] in
  exists s', SigQueues_enqueue s (mkSignal 40 2) = Ret (s', true) /\
    pending s' 40 = [mkSignal 40 1; mkSignal 40 2] /\ pending s' SIGTERM = [mkSignal SIGTERM 7].
Proof.
  intros s. assert (sq_wf s) as W by (queue_wf).
  destruct (enqueue_correct s (mkSignal 40 2) W) as (s' & b & E & _ & _ & _ & Hp); [done|done|].
  exists s'. split; [rewrite E; vm_compute in E; by simplify_eq|]. rewrite !Hp by done. done.
Defined.



(** [dequeue_pending_signal] always returns.  What it returns is pending, not blocked, not ignored
    (unless the thread is traced) and comes with the disposition of its number; when it returns nothing
    every signal that is left is blocked. *)
Theorem dequeue_pending_signal_correct d traced t :
  disp_wf d -> t_wf t ->
  exists t' r, dequeue_pending_signal d traced t = Ret (t', r) /\ t_wf t' /\
    match r with
    | None => forall n, sig_valid n -> blocked_in (t_mask t) n = true \/ t_pending t' n = []
    | Some (x, a) => let n := s_num (dequeued x) in
        blocked_in (t_mask t) n = false /\ (ignored d n = false \/ traced = true) /\
        d !! num_to_idx n = Some a /\ dequeued x ∈ t_pending t n
    end.
Proof. apply dequeue_pending_signal_spec. Qed.

(** SIGCHLD is ignored by default: the loop skips it. *)
Lemma dequeue_pending_signal_correct_witness :
  let t := mkThread (of_signals [mkSignal SIGCHLD 1]) (of_signals [mkSignal 40 2]) 0 in
  exists t', dequeue_pending_signal SigDispositions_new false t = Ret (t', Some (FromProcess (mkSignal 40 2), Dfl)) /\
    t_wf t'.
Proof.
  intros t. assert (t_wf t) as W by (split; queue_wf).
  destruct (dequeue_pending_signal_correct SigDispositions_new false t eq_refl W) as (t' & r & E & Hw & _).
  exists t'. split; [|done]. rewrite E. vm_compute in E. by simplify_eq.
Defined.

(** [has_pending_signal] says whether the thread or its process has a pending signal that is neither
    blocked nor ignored, and drops only signals that are ignored and not blocked. *)
Theorem has_pending_signal_correct d t :
  disp_wf d -> t_wf t ->
  exists t' b, has_pending_signal t d = Ret (t', b) /\ t_wf t' /\ t_mask t' = t_mask t /\
    (b = true <-> exists n, sig_valid n /\ t_pending t n <> [] /\ deliverable (t_mask t) d n) /\
    (forall n, sig_valid n -> blocked_in (t_mask t) n = true \/ ignored d n = false ->
       t_pending t' n = t_pending t n).
Proof.
  intros Hd [Ht Hp]. unfold has_pending_signal, t_pending.
  destruct (SigQueues_is_empty (t_queues t) && SigQueues_is_empty (p_queues t)) eqn:He.
  { apply andb_true_iff in He as [H1 H2]. exists t, false. split_and!; try done.
    split; [done|]. intros (n & Hn & Hne & _). by rewrite !sq_empty in Hne. }
  destruct (SigQueues_has_pending_spec (t_queues t) (t_mask t) d Ht Hd) as (tq & b & -> & Ht' & Hb & Hk).
  cbn [mbind run_bind]. destruct b.
  - eexists _, true. split; [done|]. split_and!; [by split|done| |]; cbn.
    + split; [|done]. intros _. destruct (proj1 Hb eq_refl) as (n & Hn & Hne & Hdl). exists n. split_and!; [done| |done].
      by destruct (pending (t_queues t) n).
    + intros n Hn Hor. destruct (Hk n Hn) as [->|(_ & ? & ?)]; [done|]. destruct Hor; congruence.
  - destruct (SigQueues_has_pending_spec (p_queues t) (t_mask t) d Hp Hd) as (pq & b & -> & Hp' & Hb' & Hk').
    cbn [mbind run_bind]. eexists _, b. split; [done|]. split_and!; [by split|done| |]; cbn.
    + rewrite Hb'. split; intros (n & Hn & Hne & Hdl); exists n; (split_and!; [done| |done]).
      * destruct (pending (t_queues t) n); [done|discriminate].
      * destruct (pending (t_queues t) n) eqn:E; [done|]. assert (false = true); [apply Hb|done].
        exists n. split_and!; [done|congruence|done].
    + intros n Hn Hor. destruct (Hk n Hn) as [->|(_ & ? & ?)]; [|destruct Hor; congruence].
      destruct (Hk' n Hn) as [->|(_ & ? & ?)]; [done|destruct Hor; congruence].
Qed.

Lemma has_pending_signal_correct_witness :
  let t := mkThread (of_signals [mkSignal SIGCHLD 1]) (of_signals [mkSignal SIGTERM 2])
             (SigSet_from_signum SIGTERM) in
  exists t', has_pending_signal t SigDispositions_new = Ret (t', false) /\ t_pending t' SIGTERM = [mkSignal SIGTERM 2].
Proof.
  intros t. assert (t_wf t) as W by (split; queue_wf).
  destruct (has_pending_signal_correct SigDispositions_new t eq_refl W) as (t' & b & E & _ & _ & _ & H).
  exists t'. rewrite H by (done || by left). split; [rewrite E; vm_compute in E; by simplify_eq|reflexivity].
Defined.
