(* ===== verification/SignalSyscalls.v ===== *)
(** * The signal system calls

    [rt_sigprocmask], [rt_sigpending] and [rt_sigaction] of [kernel/core/src/syscall/], over the queues,
    masks and dispositions of [Signals] and the user memory of [UserSpace].  A system call returns the
    new state, the new user memory and its result. *)

From S2P Require Import Prelude Flags UserSpace Signals.

(** ** Signal masks *)

Inductive MaskOp := Block | Unblock | SetMask.

Definition MaskOp_try_from (how : Z) : result MaskOp :=
  match how with
  | 0 => Ok Block
  | 1 => Ok Unblock
  | 2 => Ok SetMask
  | _ => Err EINVAL
  end.

(** [size_of::<SigSet>()]. *)
Definition SIZE_OF_SIGSET : Z := 8.

Definition RequireFullSize_new (size : Z) : result unit :=
  if negb (size =? SIZE_OF_SIGSET) then Err EINVAL else Ok tt.

Definition AllowTruncSize_new (size : Z) : result Z :=
  if size >? SIZE_OF_SIGSET then Err EINVAL else Ok size.

(** [u64::to_ne_bytes] on a little-endian machine. *)
Definition to_ne_bytes (x : Z) : list Z :=
  (fun i => Z.land (Z.shiftr x (8 * Z.of_nat i)) 255) <$> seq 0 8.

Section mask_calls.
Context {M : Type} `{US : UserSpace M Z}.

Definition do_rt_sigprocmask (mask_op : MaskOp) (set_ptr oldset_ptr sigset_size : Z)
    (t : ThreadSignals) (m : M) : ThreadSignals * M * result unit :=
  let old_sig_mask_value := t_mask t in
  match RequireFullSize_new sigset_size with
  | Err e => (t, m, Err e)
  | Ok _ =>
      match (if negb (oldset_ptr =? 0) then write_val m oldset_ptr old_sig_mask_value else (m, Ok tt)) with
      | (m, Err e) => (t, m, Err e)
      | (m, Ok _) =>
          if negb (set_ptr =? 0) then
            match read_val m set_ptr with
            | Err e => (t, m, Err e)
            | Ok read_mask =>
                let t := match mask_op with
                         | Block => set_sig_mask t (SigSet_bitor old_sig_mask_value read_mask)
                         | Unblock => set_sig_mask t (SigSet_sub old_sig_mask_value read_mask)
                         | SetMask => set_sig_mask t read_mask
                         end in
                (t, m, Ok tt)
            end
          else (t, m, Ok tt)
      end
  end.

Definition sys_rt_sigprocmask (how set_ptr oldset_ptr sigset_size : Z) (t : ThreadSignals) (m : M)
    : ThreadSignals * M * result Z :=
  match MaskOp_try_from how with
  | Err e => (t, m, Err e)
  | Ok mask_op =>
      match do_rt_sigprocmask mask_op set_ptr oldset_ptr sigset_size t m with
      | (t, m, Err e) => (t, m, Err e)
      | (t, m, Ok _) => (t, m, Ok 0)
      end
  end.
End mask_calls.

Section pending_calls.
Context {M : Type} `{US : UserSpace M (list Z)}.

Definition pending_signals (t : ThreadSignals) : run Z :=
  a ← Queues_sig_pending (queues (t_queues t));
  b ← Queues_sig_pending (queues (p_queues t));
  Ret (SigSet_bitor a b).

Definition do_rt_sigpending (set_ptr sigset_size : Z) (t : ThreadSignals) (m : M) : run (M * result unit) :=
  sig_pending_value ← pending_signals t;
  let combined_signals := SigSet_bitand (t_mask t) sig_pending_value in
  match AllowTruncSize_new sigset_size with
  | Err e => Ret (m, Err e)
  | Ok requested_size =>
      Ret (write_val m set_ptr (take (Z.to_nat requested_size) (to_ne_bytes combined_signals)))
  end.

Definition sys_rt_sigpending (u_set_ptr sigset_size : Z) (t : ThreadSignals) (m : M) : run (M * result Z) :=
  '(m, r) ← do_rt_sigpending u_set_ptr sigset_size t m;
  match r with Err e => Ret (m, Err e) | Ok _ => Ret (m, Ok 0) end.
End pending_calls.

(** ** Dispositions *)

(** [while posix_thread.dequeue_signal(&mask).is_some() {}]. *)
Definition discard_step (mask : Z) (t : ThreadSignals) : run (flow ThreadSignals ThreadSignals) :=
  '(t, s) ← dequeue_signal t mask;
  Ret (if is_some s then Continue t else Break t).

Definition discard_thread (mask : Z) (t : ThreadSignals) : run ThreadSignals :=
  loop (S (Z.to_nat (count (t_queues t) + count (p_queues t)))) (discard_step mask) t.

(** [discard_signals_if_ignored] over the threads of a process, which share its queues. *)
Fixpoint discard_threads (mask : Z) (ts : list SigQueues) (p : SigQueues)
    : run (list SigQueues * SigQueues) :=
  match ts with
  | [] => Ret ([], p)
  | tq :: rest =>
      t ← discard_thread mask (mkThread tq p 0);
      '(rest, p) ← discard_threads mask rest (p_queues t);
      Ret (t_queues t :: rest, p)
  end.

Definition discard_signals_if_ignored (ts : list SigQueues) (p : SigQueues) (signum : Z)
    : run (list SigQueues * SigQueues) :=
  discard_threads (SigSet_sub SigSet_new_full (SigSet_from_signum signum)) ts p.

(** The signal state of a process: its dispositions, the queues of its threads and its own. *)
Record ProcSignals := mkProc {
  p_disp : SigDispositions;
  p_threads : list SigQueues;
  p_shared : SigQueues
}.

Section action_calls.
Context `{BF : Bitflags} {M : Type} `{US : UserSpace M sigaction_t}.

(** The first half of [sys_rt_sigaction]: the old action, after the new one has been installed. *)
Definition replace_action (sig_num sig_action_addr : Z) (p : ProcSignals) (m : M)
    : run (ProcSignals * result SigAction) :=
  if negb (sig_action_addr =? 0) then
    if (sig_num =? SIGKILL) || (sig_num =? SIGSTOP) then Ret (p, Err EINVAL)
    else
      match read_val m sig_action_addr with
      | Err e => Ret (p, Err e)
      | Ok sig_action_c =>
          let sig_action := SigAction_from sig_action_c in
          '(ts, sh) ← (if SigAction_will_ignore sig_action sig_num
                       then discard_signals_if_ignored (p_threads p) (p_shared p) sig_num
                       else Ret (p_threads p, p_shared p));
          '(d, old) ← disp_set (p_disp p) sig_num sig_action;
          Ret (mkProc d ts sh, old)
      end
  else
    old ← disp_get (p_disp p) sig_num;
    Ret (p, Ok old).

Definition sys_rt_sigaction (n sig_action_addr old_sig_action_addr sigset_size : Z)
    (p : ProcSignals) (m : M) : run (ProcSignals * M * result Z) :=
  match SigNum_try_from n with
  | Err e => Ret (p, m, Err e)
  | Ok sig_num =>
      match RequireFullSize_new sigset_size with
      | Err e => Ret (p, m, Err e)
      | Ok _ =>
          '(p, old) ← replace_action sig_num sig_action_addr p m;
          match old with
          | Err e => Ret (p, m, Err e)
          | Ok old_action =>
              if negb (old_sig_action_addr =? 0) then
                match write_val m old_sig_action_addr (as_c_type old_action) with
                | (m, Err e) => Ret (p, m, Err e)
                | (m, Ok _) => Ret (p, m, Ok 0)
                end
              else Ret (p, m, Ok 0)
          end
      end
  end.
End action_calls.

(** ** Lemmas *)

(** Discarding one number from a thread and its process. *)
Lemma discard_thread_spec n t :
  sig_valid n -> t_wf t ->
  exists t', discard_thread (SigSet_sub SigSet_new_full (SigSet_from_signum n)) t = Ret t' /\ t_wf t' /\
    t_pending t' n = [] /\ forall m, sig_valid m -> m <> n ->
      pending (t_queues t') m = pending (t_queues t) m /\ pending (p_queues t') m = pending (p_queues t) m.
Proof.
  intros Hn Ht. unfold discard_thread. set (mask := SigSet_sub _ _).
  assert (forall m, sig_valid m -> blocked_in mask m = negb (bool_decide (n = m))) as Hmask.
  { intros m Hm. unfold mask. rewrite blocked_sub, blocked_signum by done. unfold blocked_in, SigSet_new_full.
    unfold sig_valid in Hm. rewrite testbit_full by lia. by rewrite (proj2 (Z.ltb_lt (m - 1) 64)) by lia. }
  clearbody mask.
  destruct (loop_total (discard_step mask)
    (fun t1 => t_wf t1 /\ forall m, sig_valid m -> m <> n ->
       pending (t_queues t1) m = pending (t_queues t) m /\ pending (p_queues t1) m = pending (p_queues t) m)
    (fun t1 => t_wf t1 /\ t_pending t1 n = [] /\ forall m, sig_valid m -> m <> n ->
       pending (t_queues t1) m = pending (t_queues t) m /\ pending (p_queues t1) m = pending (p_queues t) m)
    t_count) with (fuel := S (t_count t)) (s := t) as (t' & E & H1 & H2 & H3); [| |lia|by exists t'].
  - intros t1 [Hw Hm]. unfold discard_step, dequeue_signal.
    pose proof Hw as [W1 W2]. pose proof (sq_count _ W1). pose proof (sq_count _ W2).
    destruct (SigQueues_dequeue_spec (t_queues t1) mask W1) as (tq & r & -> & W1' & Hr). cbn [mbind run_bind].
    pose proof (sq_count _ W1'). destruct r as [s|].
    + destruct Hr as (Hv & Hb & _ & Hc & Ho & _). cbn [mbind run_bind is_some].
      rewrite Hmask in Hb by done. apply negb_false_iff, bool_decide_eq_true in Hb.
      eexists. split; [reflexivity|]. unfold t_count. cbn. split; [|lia].
      split; [by split|]. intros m Hmv Hne. cbn. rewrite Ho by congruence. auto.
    + destruct Hr as [-> Hall].
      destruct (SigQueues_dequeue_spec (p_queues t1) mask W2) as (pq & r & -> & W2' & Hr). cbn [mbind run_bind].
      pose proof (sq_count _ W2'). destruct r as [s|]; cbn [option_map is_some].
      * destruct Hr as (Hv & Hb & _ & Hc & Ho & _).
        rewrite Hmask in Hb by done. apply negb_false_iff, bool_decide_eq_true in Hb.
        eexists. split; [reflexivity|]. unfold t_count. cbn. split; [|lia].
        split; [by split|]. intros m Hmv Hne. cbn. rewrite Ho by congruence. auto.
      * destruct Hr as [-> Hall']. eexists. split; [reflexivity|]. cbn. split_and!; [by split| |done].
        specialize (Hall n Hn). specialize (Hall' n Hn). rewrite Hmask, bool_decide_eq_true_2 in Hall, Hall' by done.
        unfold t_pending. cbn. destruct Hall as [?|E1]; [done|]; rewrite E1. by destruct Hall' as [?|E2].
  - split; [done|]. intros. done.
Qed.

Lemma discard_threads_spec n ts p :
  sig_valid n -> Forall sq_wf ts -> sq_wf p ->
  exists ts' p', discard_signals_if_ignored ts p n = Ret (ts', p') /\ Forall sq_wf ts' /\ sq_wf p' /\
    Forall2 (fun s s' => pending s' n = [] /\
      forall m, sig_valid m -> m <> n -> pending s' m = pending s m) ts ts' /\
    (ts <> [] \/ pending p n = [] -> pending p' n = []) /\
    (forall m, sig_valid m -> m <> n -> pending p' m = pending p m).
Proof.
  intros Hn Hts. unfold discard_signals_if_ignored. revert p.
  induction Hts as [|tq ts Ht Hts IH]; intros p Hp; cbn [discard_threads].
  { exists [], p. split_and!; try done. by intros []. }
  destruct (discard_thread_spec n (mkThread tq p 0) Hn) as (t' & -> & [W1 W2] & E & Hm); [by split|].
  cbn [mbind run_bind]. unfold t_pending in E. apply app_eq_nil in E as [E1 E2].
  destruct (IH (p_queues t') W2) as (ts' & p' & -> & Hw & Hw' & HF & He & Hsame). cbn [mbind run_bind].
  exists (t_queues t' :: ts'), p'. split_and!; [done|by constructor|done| | |].
  - constructor; [|done]. split; [done|]. intros m Hv Hne. by apply Hm.
  - intros _. apply He. by right.
  - intros m Hv Hne. rewrite Hsame by done. by apply Hm.
Qed.

Lemma sigprocmask_read `{US : UserSpace M Z} how set_ptr oldset_ptr t m v m1 :
  set_ptr <> 0 ->
  (if negb (oldset_ptr =? 0) then write_val m oldset_ptr (t_mask t) else (m, Ok tt)) = (m1, Ok tt) ->
  read_val m1 set_ptr = Ok v ->
  do_rt_sigprocmask how set_ptr oldset_ptr SIZE_OF_SIGSET t m =
    (set_sig_mask t (match how with
                     | Block => SigSet_bitor (t_mask t) v
                     | Unblock => SigSet_sub (t_mask t) v
                     | SetMask => v
                     end), m1, Ok tt).
Proof.
  intros Hne Ew Er. unfold do_rt_sigprocmask, RequireFullSize_new. rewrite Z.eqb_refl. cbn [negb].
  rewrite Ew, (proj2 (Z.eqb_neq _ _) Hne). cbn [negb]. rewrite Er. by destruct how.
Qed.

(** What an action installed by [rt_sigaction] looks like. *)
Definition action_ok `{BF : Bitflags} (a : SigAction) : Prop :=
  match a with
  | User h f r _ => h <> SIG_DFL /\ h <> SIG_IGN /\ bf_contains SigActionFlags_all f = true /\
      bf_contains f SA_RESTORER = true /\ r <> 0
  | _ => True
  end.

Record disp_ok `{BF : Bitflags} (d : SigDispositions) : Prop := {
  do_len : disp_wf d;
  do_actions : Forall action_ok d;
  do_kill : d !! num_to_idx SIGKILL = Some Dfl;
  do_stop : d !! num_to_idx SIGSTOP = Some Dfl
}.

Record proc_ok `{BF : Bitflags} (p : ProcSignals) : Prop := {
  po_disp : disp_ok (p_disp p);
  po_threads : Forall sq_wf (p_threads p);
  po_shared : sq_wf (p_shared p)
}.

Section actions.
Context `{BF : Bitflags}.

Lemma SigAction_from_ok c a : SigAction_from c = a -> check_sigaction a = Ok tt -> action_ok a.
Proof.
  intros <-. unfold SigAction_from. destruct (Z.eqb_spec (handler_ptr c) SIG_DFL); [done|].
  destruct (Z.eqb_spec (handler_ptr c) SIG_IGN); [done|]. cbn.
  destruct (bf_contains _ SA_RESTORER) eqn:E; [|done]. destruct (Z.eqb_spec (restorer_ptr c) 0); [done|].
  intros _. split_and!; try done. apply contains_truncate.
Qed.

Lemma ignoring_action_checked a n : SigAction_will_ignore a n = true -> check_sigaction a = Ok tt.
Proof. by destruct a. Qed.

(** The conversion to the C structure and back. *)
Lemma as_c_type_from a : action_ok a -> SigAction_from (as_c_type a) = a.
Proof.
  destruct a as [| |h f r mask]; [done..|]. intros (H1 & H2 & Hf & _). unfold SigAction_from. cbn.
  rewrite (proj2 (Z.eqb_neq _ _) H1), (proj2 (Z.eqb_neq _ _) H2). f_equal. by apply truncate_known.
Qed.

Lemma num_to_idx_inj m n : sig_valid m -> sig_valid n -> num_to_idx m = num_to_idx n -> m = n.
Proof. unfold sig_valid, num_to_idx, MIN_STD_SIG_NUM. lia. Qed.

Lemma disp_ok_insert d n a :
  disp_ok d -> sig_valid n -> n <> SIGKILL -> n <> SIGSTOP -> action_ok a -> disp_ok (<[num_to_idx n := a]> d).
Proof.
  intros [H1 H2 H3 H4] Hn Hk Hs Ha.
  split; [unfold disp_wf; by rewrite length_insert|by apply Forall_insert|rewrite list_lookup_insert_ne; [done|]..];
    intros E; apply num_to_idx_inj in E; done.
Qed.

Lemma disp_set_spec d n a :
  disp_wf d -> sig_valid n ->
  exists old, d !! num_to_idx n = Some old /\
    disp_set d n a = Ret (match check_sigaction a with
                          | Ok _ => (<[num_to_idx n := a]> d, Ok old)
                          | Err e => (d, Err e)
                          end).
Proof.
  intros Hd Hn. destruct (disp_get_valid d n Hd Hn) as (old & Hg & Hl & _). exists old. split; [done|].
  unfold disp_set, disp_get in *. destruct (check_sigaction a); [|done]. rewrite Hg. cbn [mbind run_bind].
  rewrite vec_set_lt; [done|]. by eapply lookup_lt_Some.
Qed.
End actions.

(** Nothing with number [n] is left on the process or its threads; every other signal is. *)
Definition discarded (n : Z) (p p' : ProcSignals) : Prop :=
  Forall2 (fun s s' => pending s' n = [] /\
    forall k, sig_valid k -> k <> n -> pending s' k = pending s k) (p_threads p) (p_threads p') /\
  (p_threads p <> [] -> pending (p_shared p') n = []) /\
  (forall k, sig_valid k -> k <> n -> pending (p_shared p') k = pending (p_shared p) k).

Section replace.
Context `{BF : Bitflags} {M : Type} `{US : UserSpace M sigaction_t}.

Lemma replace_action_spec n addr p (m : M) :
  proc_ok p -> sig_valid n ->
  exists p' r, replace_action n addr p m = Ret (p', r) /\ proc_ok p' /\
    match r with
    | Err _ => p' = p
    | Ok old => p_disp p !! num_to_idx n = Some old /\
        (addr = 0 /\ p' = p \/
         addr <> 0 /\ n <> SIGKILL /\ n <> SIGSTOP /\ exists c, read_val m addr = Ok c /\
           p_disp p' = <[num_to_idx n := SigAction_from c]> (p_disp p) /\
           if SigAction_will_ignore (SigAction_from c) n then discarded n p p'
           else p_threads p' = p_threads p /\ p_shared p' = p_shared p)
    end.
Proof.
  intros Hp Hn. pose proof Hp as [Hd Ht Hs]. unfold replace_action.
  destruct (Z.eqb_spec addr 0) as [->|Hne]; cbn [negb].
  { destruct (disp_get_valid (p_disp p) n (do_len _ Hd) Hn) as (a & -> & Ha & _). cbn [mbind run_bind].
    exists p, (Ok a). split_and!; try done. by left. }
  destruct (Z.eqb_spec n SIGKILL); cbn [orb]; [by exists p, (Err EINVAL)|].
  destruct (Z.eqb_spec n SIGSTOP); cbn [orb]; [by exists p, (Err EINVAL)|].
  destruct (read_val m addr) as [c|e] eqn:Er; [|by exists p, (Err e)].
  destruct (disp_set_spec (p_disp p) n (SigAction_from c) (do_len _ Hd) Hn) as (old & Hold & ->).
  destruct (SigAction_will_ignore (SigAction_from c) n) eqn:Ei.
  - destruct (discard_threads_spec n (p_threads p) (p_shared p) Hn Ht Hs)
      as (ts & sh & -> & Hts & Hsh & HF & He & Hk). cbn [mbind run_bind].
    pose proof (ignoring_action_checked _ _ Ei) as Hc. rewrite Hc. do 2 eexists. split; [done|].
    split; [split; cbn; [|done..]; apply disp_ok_insert; auto; by eapply SigAction_from_ok|].
    split; [done|]. right. split_and!; try done. exists c. rewrite Ei. split_and!; try done. unfold discarded. auto.
  - cbn [mbind run_bind]. destruct (check_sigaction (SigAction_from c)) as [[]|e] eqn:Hc.
    + do 2 eexists. split; [done|].
      split; [split; cbn; [|done..]; apply disp_ok_insert; auto; by eapply SigAction_from_ok|].
      split; [done|]. right. split_and!; try done. exists c. by rewrite Ei.
    + do 2 eexists. split; [done|]. cbn. by destruct p.
Qed.

Lemma sys_rt_sigaction_spec n addr old_addr size p (m : M) :
  proc_ok p ->
  exists p' m' r, sys_rt_sigaction n addr old_addr size p m = Ret (p', m', r) /\ proc_ok p' /\
    (is_ok r = false -> old_addr = 0 -> p' = p) /\
    (is_ok r = true -> sig_valid n /\ size = SIZE_OF_SIGSET /\
       (addr = 0 -> p' = p) /\
       (addr <> 0 -> n <> SIGKILL /\ n <> SIGSTOP /\ exists c, read_val m addr = Ok c /\
          p_disp p' = <[num_to_idx n := SigAction_from c]> (p_disp p) /\
          if SigAction_will_ignore (SigAction_from c) n then discarded n p p'
          else p_threads p' = p_threads p /\ p_shared p' = p_shared p) /\
       (old_addr <> 0 -> exists c, read_val m' old_addr = Ok c /\
          p_disp p !! num_to_idx n = Some (SigAction_from c))).
Proof.
  intros Hp. unfold sys_rt_sigaction.
  destruct (SigNum_try_from n) as [k|e] eqn:En; [|by exists p, m, (Err e)].
  assert (k = n /\ sig_valid n) as [-> Hn].
  { unfold SigNum_try_from, MIN_STD_SIG_NUM, MAX_RT_SIG_NUM in En. unfold sig_valid.
    destruct (Z.leb_spec 1 n), (Z.leb_spec n 64); cbn in En; simplify_eq. done. }
  destruct (RequireFullSize_new size) as [[]|e] eqn:Es; [|by exists p, m, (Err e)].
  assert (size = SIZE_OF_SIGSET) as -> by (unfold RequireFullSize_new in Es; destruct (Z.eqb_spec size SIZE_OF_SIGSET); done).
  destruct (replace_action_spec n addr p m Hp Hn) as (p' & r & -> & Hp' & Hr). cbn [mbind run_bind].
  destruct r as [old|e]; [|exists p', m, (Err e); by split_and!].
  destruct Hr as [Hold Hcase].
  assert (action_ok old) as Ha by (eapply Forall_lookup_1; [apply (do_actions _ (po_disp p Hp))|done]).
  assert ((addr = 0 -> p' = p) /\ (addr <> 0 -> n <> SIGKILL /\ n <> SIGSTOP /\ exists c, read_val m addr = Ok c /\
          p_disp p' = <[num_to_idx n := SigAction_from c]> (p_disp p) /\
          if SigAction_will_ignore (SigAction_from c) n then discarded n p p'
          else p_threads p' = p_threads p /\ p_shared p' = p_shared p)) as [H1 H2].
  { destruct Hcase as [[-> ->]|(Hne & Hk & Hs & c & Hc)]; [done|]. split; [done|]. intros _. eauto. }
  destruct (Z.eqb_spec old_addr 0) as [->|Hne]; cbn [negb]; [exists p', m, (Ok 0); by split_and!|].
  destruct (write_val m old_addr (as_c_type old)) as [m' [[]|e]] eqn:Ew.
  - exists p', m', (Ok 0). split_and!; try done. intros _. split_and!; try done. intros _.
    exists (as_c_type old). split; [by eapply read_write|]. by rewrite as_c_type_from.
  - exists p', m', (Err e). by split_and!.
Qed.
End replace.

(** ** Properties *)

(** [rt_sigprocmask] changes the mask of the thread only when it succeeds with a new set, and then
    the mask is the one the operation asks for, without SIGKILL and SIGSTOP; the queues are untouched.
    A successful call with an old-set pointer has stored the previous mask. *)
Theorem sys_rt_sigprocmask_correct {M} `{US : UserSpace M Z} how set_ptr oldset_ptr size t (m : M) :
  match sys_rt_sigprocmask how set_ptr oldset_ptr size t m with
  | (t', m', Err _) => t' = t
  | (t', m', Ok r) => r = 0 /\ size = SIZE_OF_SIGSET /\
      t_queues t' = t_queues t /\ p_queues t' = p_queues t /\
      (oldset_ptr <> 0 -> read_val m' oldset_ptr = Ok (t_mask t)) /\
      (oldset_ptr = 0 -> m' = m) /\
      (set_ptr = 0 -> t' = t) /\
      (set_ptr <> 0 -> exists v, read_val m' set_ptr = Ok v /\ forall n, sig_valid n ->
         blocked_in (t_mask t') n = negb ((n =? SIGKILL) || (n =? SIGSTOP)) &&
           match how with
           | 0 => blocked_in (t_mask t) n || blocked_in v n
           | 1 => blocked_in (t_mask t) n && negb (blocked_in v n)
           | _ => blocked_in v n
           end)
  end.
Proof.
  unfold sys_rt_sigprocmask. destruct (MaskOp_try_from how) as [op|] eqn:Eh; [|done].
  destruct (RequireFullSize_new size) as [[]|] eqn:Es; [|unfold do_rt_sigprocmask; by rewrite Es].
  assert (size = SIZE_OF_SIGSET) as -> by (unfold RequireFullSize_new in Es; destruct (Z.eqb_spec size SIZE_OF_SIGSET); done).
  destruct (if negb (oldset_ptr =? 0) then write_val m oldset_ptr (t_mask t) else (m, Ok tt)) as [m1 [[]|]] eqn:Ew;
    [|unfold do_rt_sigprocmask; by rewrite Es, Ew].
  assert (oldset_ptr <> 0 -> read_val m1 oldset_ptr = Ok (t_mask t)) as Hr.
  { intros Hne. rewrite (proj2 (Z.eqb_neq _ _) Hne) in Ew. cbn [negb] in Ew. by eapply read_write. }
  assert (oldset_ptr = 0 -> m1 = m) as H0 by (intros ->; cbn in Ew; congruence).
  destruct (Z.eqb_spec set_ptr 0) as [->|Hne].
  { unfold do_rt_sigprocmask. rewrite Es, Ew. by split_and!. }
  destruct (read_val m1 set_ptr) as [v|e] eqn:Er.
  - rewrite (sigprocmask_read op set_ptr oldset_ptr t m v m1) by done. split_and!; try done.
    intros _. exists v. split; [done|]. intros n Hn. rewrite set_sig_mask_spec by done. rewrite andb_comm. f_equal.
    destruct how as [|[[]|[]|]|]; try done; cbn in Eh; simplify_eq; try done; [apply blocked_or|by apply blocked_sub].
  - unfold do_rt_sigprocmask. rewrite Es, Ew, (proj2 (Z.eqb_neq _ _) Hne), Er. done.
Qed.

(** [rt_sigprocmask] stores the old mask before it reads the new set, so a caller that passes one
    buffer for both gets its own mask back as the new one: the call reports success and a [SIG_SETMASK]
    leaves the mask as it was, whatever set the buffer held. *)
Theorem sigprocmask_same_buffer_has_no_effect {M} `{US : UserSpace M Z} ptr t (m m' : M) t' r :
  ptr <> 0 -> (forall n, (n = SIGKILL \/ n = SIGSTOP) -> blocked_in (t_mask t) n = false) ->
  sys_rt_sigprocmask 2 ptr ptr SIZE_OF_SIGSET t m = (t', m', Ok r) ->
  forall n, sig_valid n -> blocked_in (t_mask t') n = blocked_in (t_mask t) n.
Proof.
  intros Hne Hks. unfold sys_rt_sigprocmask. cbn [MaskOp_try_from].
  destruct (write_val m ptr (t_mask t)) as [m1 [[]|]] eqn:Ew.
  - rewrite (sigprocmask_read SetMask ptr ptr t m (t_mask t) m1); [|done| |by eapply read_write].
    + intros [= <- <- <-] n Hn. rewrite set_sig_mask_spec by done.
      destruct (Z.eqb_spec n SIGKILL); [subst; by rewrite Hks by auto|].
      destruct (Z.eqb_spec n SIGSTOP); [subst; by rewrite Hks by auto|]. by rewrite andb_true_r.
    + by rewrite (proj2 (Z.eqb_neq _ _) Hne).
  - unfold do_rt_sigprocmask, RequireFullSize_new. rewrite Z.eqb_refl, (proj2 (Z.eqb_neq _ _) Hne).
    cbn [negb]. by rewrite Ew.
Qed.

Lemma sigprocmask_same_buffer_has_no_effect_witness :
  let t := mkThread SigQueues_new SigQueues_new 0 in
  let m : gmap Z Z := {[ 4096 := SigSet_from_signum SIGINT ]} in
  exists t' m', sys_rt_sigprocmask (US := WordMemory Z) 2 4096 4096 8 t m = (t', m', Ok 0) /\
    blocked_in (t_mask t') SIGINT = false.
Proof.
  intros t m. set (x := sys_rt_sigprocmask (US := WordMemory Z) 2 4096 4096 8 t m).
  exists (fst (fst x)), (snd (fst x)).
  assert (x = (fst (fst x), snd (fst x), Ok 0)) as E by reflexivity. split; [done|].
  apply (sigprocmask_same_buffer_has_no_effect (US := WordMemory Z) 4096 t m (snd (fst x)) (fst (fst x)) 0 ltac:(done));
    [|done|done].
  intros n _. apply Z.testbit_0_l.
Defined.

(** The steps that change the dispositions of a process. *)
Inductive disp_step `{BF : Bitflags} {M} `{US : UserSpace M sigaction_t}
    : ProcSignals * M -> ProcSignals * M -> Prop :=
  | step_sigaction n addr old_addr size p m p' m' r :
      sys_rt_sigaction n addr old_addr size p m = Ret (p', m', r) -> disp_step (p, m) (p', m')
  | step_reset n p m d : sig_valid n -> disp_set_default (p_disp p) n = Ret d ->
      disp_step (p, m) (mkProc d (p_threads p) (p_shared p), m)
  | step_execve p m : disp_step (p, m) (mkProc (disp_inherit (p_disp p)) (p_threads p) (p_shared p), m)
  | step_user p m m' : disp_step (p, m) (p, m').

Section steps.
Context `{BF : Bitflags} {M : Type} `{US : UserSpace M sigaction_t}.

Lemma disp_ok_new : disp_ok SigDispositions_new.
Proof. split; [done|by apply Forall_replicate|done..]. Qed.

Lemma disp_ok_reset d n d' : disp_ok d -> sig_valid n -> disp_set_default d n = Ret d' -> disp_ok d'.
Proof.
  intros [H1 H2 H3 H4] Hn. unfold disp_set_default, vec_set. destruct (_ <? _)%nat; [|done]. intros [= <-].
  assert (forall k, d !! k = Some Dfl -> <[num_to_idx n := Dfl]> d !! k = Some Dfl) as Hk.
  { intros k Hk. destruct (decide (num_to_idx n = k)) as [->|]; [|by rewrite list_lookup_insert_ne].
    rewrite list_lookup_insert_eq; [done|]. by eapply lookup_lt_Some. }
  split; [unfold disp_wf; by rewrite length_insert|by apply Forall_insert|auto..].
Qed.

Lemma disp_ok_inherit d : disp_ok d -> disp_ok (disp_inherit d).
Proof.
  intros [H1 H2 H3 H4]. unfold disp_inherit. split.
  - unfold disp_wf. by rewrite length_fmap.
  - apply Forall_fmap. eapply Forall_impl; [exact H2|]. by intros [] ?.
  - by rewrite list_lookup_fmap, H3.
  - by rewrite list_lookup_fmap, H4.
Qed.

Lemma disp_steps_ok (x y : ProcSignals * M) : rtc disp_step x y -> proc_ok (fst x) -> proc_ok (fst y).
Proof.
  induction 1 as [|x y z Hs _ IH]; [done|]. intros Hp. apply IH. destruct Hs as [n addr old size p m p' m' r E| | |]; cbn in *.
  - destruct (sys_rt_sigaction_spec n addr old size p m Hp) as (? & ? & ? & E' & ? & _).
    rewrite E in E'. by simplify_eq.
  - destruct Hp. split; [|done..]. by eapply disp_ok_reset.
  - destruct Hp. split; [|done..]. by apply disp_ok_inherit.
  - done.
Qed.
End steps.

(** Whatever a process does with [rt_sigaction], one-shot handlers and [execve], SIGKILL and SIGSTOP
    keep their default action and every installed handler has a restorer; the calls never panic, and
    the queues stay consistent. *)
Theorem kill_and_stop_stay_default `{BF : Bitflags} {M} `{US : UserSpace M sigaction_t} (m0 : M) p m :
  rtc disp_step (mkProc SigDispositions_new [SigQueues_new] SigQueues_new, m0) (p, m) ->
  disp_get (p_disp p) SIGKILL = Ret Dfl /\ disp_get (p_disp p) SIGSTOP = Ret Dfl /\
  (forall n h f r mask, sig_valid n -> disp_get (p_disp p) n = Ret (User h f r mask) ->
     bf_contains f SA_RESTORER = true /\ r <> 0) /\
  (forall n addr old_addr size, exists p' m' r, sys_rt_sigaction n addr old_addr size p m = Ret (p', m', r)).
Proof.
  intros Hr. assert (proc_ok p) as Hp.
  { apply (disp_steps_ok _ _ Hr). cbn. split; [apply disp_ok_new| |apply sq_wf_new].
    apply Forall_singleton, sq_wf_new. }
  pose proof (po_disp p Hp) as Hd. unfold disp_get, vec_get. split_and!.
  - by rewrite (do_kill _ Hd).
  - by rewrite (do_stop _ Hd).
  - intros n h f r mask Hn. destruct (p_disp p !! num_to_idx n) as [a|] eqn:E; [|done]. intros [= ->].
    pose proof (Forall_lookup_1 _ _ _ _ (do_actions _ Hd) E) as (_ & _ & _ & H). done.
  - intros. destruct (sys_rt_sigaction_spec n addr old_addr size p m Hp) as (p' & m' & r & E & _). eauto.
Qed.

(** Installing an action that ignores a signal discards that signal, blocked or not, from every
    thread and from the process, and no other signal; installing any other action discards nothing.
    The old action, when it is asked for, is stored in a form that converts back to it, and a call that
    fails without having been asked for it changes nothing. *)
Theorem sys_rt_sigaction_correct `{BF : Bitflags} {M} `{US : UserSpace M sigaction_t}
    n addr old_addr size p (m : M) :
  proc_ok p ->
  exists p' m' r, sys_rt_sigaction n addr old_addr size p m = Ret (p', m', r) /\ proc_ok p' /\
    (is_ok r = false -> old_addr = 0 -> p' = p) /\
    (is_ok r = true -> sig_valid n /\ size = SIZE_OF_SIGSET /\
       (addr = 0 -> p' = p) /\
       (addr <> 0 -> n <> SIGKILL /\ n <> SIGSTOP /\ exists c, read_val m addr = Ok c /\
          p_disp p' = <[num_to_idx n := SigAction_from c]> (p_disp p) /\
          if SigAction_will_ignore (SigAction_from c) n then discarded n p p'
          else p_threads p' = p_threads p /\ p_shared p' = p_shared p) /\
       (old_addr <> 0 -> exists c, read_val m' old_addr = Ok c /\
          p_disp p !! num_to_idx n = Some (SigAction_from c))).
Proof. apply sys_rt_sigaction_spec. Qed.

Definition sample_proc : ProcSignals :=
  mkProc SigDispositions_new [of_signals [mkSignal SIGUSR1 1; mkSignal SIGTERM 2]] (of_signals [mkSignal SIGUSR1 3]).

Lemma sample_proc_ok : proc_ok (BF := Zflags) sample_proc.
Proof.
  split; [apply disp_ok_new|apply Forall_singleton; queue_wf|]. cbn [p_shared sample_proc]. queue_wf.
Qed.

Definition sample_mem : gmap Z sigaction_t := {[ 64 := mkSigactionC SIG_IGN 0 0 0; 128 := mkSigactionC 5 5 5 5 ]}.

Lemma sys_rt_sigaction_correct_witness :
  exists p' m', sys_rt_sigaction (BF := Zflags) (US := WordMemory sigaction_t) SIGUSR1 64 128 8 sample_proc sample_mem =
      Ret (p', m', Ok 0) /\ discarded SIGUSR1 sample_proc p' /\ mem_read m' 128 = Ok (mkSigactionC 0 0 0 0).
Proof.
  destruct (sys_rt_sigaction_correct (BF := Zflags) (US := WordMemory sigaction_t) SIGUSR1 64 128 8
    sample_proc sample_mem sample_proc_ok) as (p' & m' & r & E & _ & _ & H).
  assert (r = Ok 0) as -> by (vm_compute in E; by simplify_eq).
  destruct (H eq_refl) as (_ & _ & _ & Ha & _). destruct (Ha ltac:(done)) as (_ & _ & c & Hc & _ & Hd).
  exists p', m'. split; [done|]. vm_compute in Hc. simplify_eq. split; [exact Hd|].
  vm_compute in E. by simplify_eq.
Defined.

Lemma kill_and_stop_stay_default_witness :
  let p := mkProc (<[num_to_idx SIGUSR1 := Ign]> SigDispositions_new) [SigQueues_new] SigQueues_new in
  disp_get (p_disp p) SIGKILL = Ret Dfl /\ disp_get (p_disp p) SIGUSR1 = Ret Ign.
Proof.
  intros p. split; [|done].
  apply (kill_and_stop_stay_default (BF := Zflags) (US := WordMemory sigaction_t) sample_mem p sample_mem).
  apply rtc_once, (step_sigaction SIGUSR1 64 0 8 _ _ _ _ (Ok 0)). reflexivity.
Defined.

Lemma testbit_byte x i j :
  (i < 8)%nat -> 0 <= j < 8 -> exists b, to_ne_bytes x !! i = Some b /\
    Z.testbit b j = Z.testbit x (8 * Z.of_nat i + j).
Proof.
  intros Hi Hj. unfold to_ne_bytes. rewrite list_lookup_fmap, lookup_seq_lt by done. cbn.
  eexists. split; [done|]. rewrite Z.land_spec, Z.shiftr_spec by lia.
  replace (Z.testbit 255 j) with true; [rewrite andb_true_r; f_equal; lia|].
  change 255 with (Z.ones 8). rewrite Z.ones_spec_low; [done|lia].
Qed.

(** [rt_sigpending] stores, in the first [size] bytes at the given address, the set of the signals
    that are both blocked and pending on the thread or its process; it never panics, and a size above
    that of a signal set is refused. *)
Theorem sys_rt_sigpending_correct {M} `{US : UserSpace M (list Z)} ptr size t (m : M) :
  t_wf t -> 0 <= size ->
  exists m' r, sys_rt_sigpending ptr size t m = Ret (m', r) /\
    (SIZE_OF_SIGSET < size -> r = Err EINVAL /\ m' = m) /\
    (is_ok r = true -> exists bytes, read_val m' ptr = Ok bytes /\ Z.of_nat (length bytes) = size /\
       forall n, sig_valid n -> (n - 1) / 8 < size ->
         exists b, bytes !! Z.to_nat ((n - 1) / 8) = Some b /\
           Z.testbit b ((n - 1) mod 8) =
             blocked_in (t_mask t) n && negb (bool_decide (t_pending t n = []))).
Proof.
  intros [Ht Hp] Hsize. unfold sys_rt_sigpending, do_rt_sigpending, pending_signals.
  destruct (Queues_sig_pending_spec _ (sq_q _ Ht)) as (a & -> & Ha). cbn [mbind run_bind].
  destruct (Queues_sig_pending_spec _ (sq_q _ Hp)) as (b & -> & Hb). cbn [mbind run_bind].
  unfold AllowTruncSize_new. destruct (Z.gtb_spec size SIZE_OF_SIGSET) as [Hgt|Hle]; cbn [mbind run_bind].
  { exists m, (Err EINVAL). split_and!; done. }
  set (x := SigSet_bitand _ _). destruct (write_val m ptr _) as [m' [[]|e]] eqn:Ew.
  - exists m', (Ok 0). split_and!; [done|lia|]. intros _. eexists. split; [by eapply read_write|].
    unfold SIZE_OF_SIGSET in Hle. split; [rewrite length_take; cbn; lia|]. intros n Hn Hlt.
    unfold sig_valid in Hn.
    destruct (testbit_byte x (Z.to_nat ((n - 1) / 8)) ((n - 1) mod 8)) as (y & Hy & E).
    { assert ((n - 1) / 8 < 8) by (apply Z.div_lt_upper_bound; lia). lia. }
    { apply Z.mod_pos_bound. lia. }
    assert (0 <= (n - 1) / 8) by (apply Z.div_pos; lia).
    exists y. rewrite lookup_take_lt by lia. split; [done|]. rewrite E, Z2Nat.id by done.
    rewrite <- (Z.div_mod (n - 1) 8) by lia. change (Z.testbit x (n - 1)) with (blocked_in x n).
    unfold x, t_pending, pending. unfold blocked_in at 1, SigSet_bitand. rewrite Z.land_spec.
    fold (blocked_in (t_mask t) n). fold (blocked_in (SigSet_bitor a b) n). rewrite blocked_or, Ha, Hb by done.
    f_equal. by destruct (pend (queues (t_queues t)) n), (pend (queues (p_queues t)) n).
  - exists m', (Err e). split_and!; [done|lia|done].
Qed.

Lemma sys_rt_sigpending_correct_witness :
  let t := mkThread (of_signals [mkSignal SIGUSR1 1]) (of_signals [mkSignal SIGHUP 1]) (SigSet_from_signum SIGHUP) in
  let m : gmap Z (list Z) := {[ 16 := [] ]} in
  exists m', sys_rt_sigpending (US := WordMemory (list Z)) 16 4 t m = Ret (m', Ok 0) /\
    mem_read m' 16 = Ok [1; 0; 0; 0].
Proof.
  intros t m. assert (t_wf t) as W by (split; queue_wf).
  destruct (sys_rt_sigpending_correct (US := WordMemory (list Z)) 16 4 t m W ltac:(done)) as (m' & r & E & _).
  exists m'. rewrite E. vm_compute in E. by simplify_eq.
Defined.
