(* ===== verification/Align.v ===== *)
(** * Alignment

    [ostd/libs/align_ext/src/lib.rs] at [usize], and the page size.  The methods panic when the
    alignment is not a power of two of at least two, or when rounding up overflows. *)

From S2P Require Import Prelude.

Definition PAGE_SIZE : Z := 4096.

(** [usize::is_power_of_two], [usize::is_multiple_of]. *)
Definition is_power_of_two (a : Z) : bool := (0 <? a) && (Z.land a (a - 1) =? 0).

Definition is_multiple_of (x a : Z) : bool := x mod a =? 0.

Definition align_up (x a : Z) : run Z :=
  _ ← assert_run (is_power_of_two a && (2 <=? a));
  y ← unwrap (checked_add x (a - 1));
  Ret (Z.ldiff y (a - 1)).

Definition align_down (x a : Z) : run Z :=
  _ ← assert_run (is_power_of_two a && (2 <=? a));
  Ret (Z.ldiff x (a - 1)).

Lemma power_of_two_log2 a : is_power_of_two a = true -> a = 2 ^ Z.log2 a.
Proof.
  unfold is_power_of_two. intros H. boolify. rename H0 into Hz.
  pose proof (Z.log2_nonneg a) as Hk. destruct (Z.log2_spec a) as [Hlo Hhi]; [done|].
  destruct (Z.eq_dec a (2 ^ Z.log2 a)) as [|Hne]; [done|]. exfalso.
  assert (Z.testbit (Z.land a (a - 1)) (Z.log2 a) = true) as Hb.
  { rewrite Z.land_spec, Z.bit_log2 by done.
    replace (Z.log2 a) with (Z.log2 (a - 1)); [rewrite Z.bit_log2 by lia; done|].
    apply Z.log2_unique; lia. }
  by rewrite Hz, Z.bits_0 in Hb.
Qed.

Lemma ldiff_pred_pow2 x k : 0 <= k -> Z.ldiff x (2 ^ k - 1) = x - x mod 2 ^ k.
Proof.
  intros Hk. rewrite <- Z.ones_equiv || replace (2 ^ k - 1) with (Z.ones k) by (rewrite Z.ones_equiv; lia).
  rewrite Z.ldiff_ones_r, Z.shiftl_mul_pow2, Z.shiftr_div_pow2 by done.
  pose proof (Z.div_mod x (2 ^ k)). lia.
Qed.

Lemma align_down_eq x a : is_power_of_two a = true -> 2 <= a -> align_down x a = Ret (x - x mod a).
Proof.
  intros Hp Ha. unfold align_down. rewrite Hp. replace (2 <=? a) with true by (symmetry; by apply Z.leb_le).
  cbn. rewrite (power_of_two_log2 a Hp) at 1 2. rewrite ldiff_pred_pow2 by apply Z.log2_nonneg.
  by rewrite <- (power_of_two_log2 a Hp).
Qed.

Lemma align_up_eq x a :
  is_power_of_two a = true -> 2 <= a -> x + (a - 1) < u64_modulus ->
  align_up x a = Ret (x + (a - 1) - (x + (a - 1)) mod a).
Proof.
  intros Hp Ha Hx. unfold align_up, checked_add. rewrite Hp. replace (2 <=? a) with true by (symmetry; by apply Z.leb_le).
  replace (x + (a - 1) <? u64_modulus) with true by (symmetry; by apply Z.ltb_lt).
  cbn. rewrite (power_of_two_log2 a Hp) at 2. rewrite ldiff_pred_pow2 by apply Z.log2_nonneg.
  by rewrite <- (power_of_two_log2 a Hp).
Qed.

(** Rounding down to a multiple. *)
Lemma round_down_spec x a : 0 < a -> (x - x mod a) mod a = 0 /\ x - a < x - x mod a <= x.
Proof.
  intros Ha. pose proof (Z.mod_pos_bound x a Ha). split; [|lia].
  rewrite Zminus_mod_idemp_r, Z.sub_diag. apply Z.mod_0_l. lia.
Qed.

(** The greatest multiple at or below a bound. *)
Lemma round_down_greatest x y a : 0 < a -> y mod a = 0 -> y <= x -> y <= x - x mod a.
Proof.
  intros Ha Hy Hle. pose proof (Z.div_mod x a). pose proof (Z.div_mod y a).
  assert (y / a <= x / a) by (apply Z.div_le_mono; lia). nia.
Qed.
