(* ===== verification/Buddy.v ===== *)
(** * The buddy system of the frame allocator

    [osdk/deps/frame-allocator/src/chunk.rs] and [set.rs]: buddy chunks, their splitting and merging,
    and the free lists of a buddy set.

    Physical addresses and sizes are integers, orders natural numbers.  [Slots] is what the code sees
    of the frame metadata of [ostd/src/mm/frame/]: which frames have a slot and which slots are in
    use.  A free chunk owns the slot of its head frame; the slots of its other frames are unused.  A
    [LinkedList] of head frames is the list of its chunks, front first.

    The abstract state of a set is the number of its chunks that contain each address. *)

From S2P Require Import Prelude Align.

(** ** Chunks *)

Definition size_of_order (order : nat) : Z := Z.shiftl 1 (Z.of_nat order) * PAGE_SIZE.

Definition greater_order_of (size : Z) : nat :=
  let size := size / PAGE_SIZE in
  trailing_zeros (next_power_of_two size).

Definition lesser_order_of (size : Z) : run nat :=
  let size := size / PAGE_SIZE in
  n ← checked_sub 64 (leading_zeros size);
  n ← checked_sub n 1;
  Ret (Z.to_nat n).

Definition max_order_from (addr : Z) : run nat :=
  n ← checked_sub (Z.of_nat (trailing_zeros addr)) (Z.of_nat (trailing_zeros PAGE_SIZE));
  Ret (Z.to_nat n).

(** [SplitChunks::next], until it returns [None]. *)
Definition split_next (st : Z * Z * list (Z * nat))
    : run (flow (Z * Z * list (Z * nat)) (list (Z * nat))) :=
  let '(addr, size, acc) := st in
  if size =? 0 then Ret (Break acc)
  else
    o1 ← max_order_from addr;
    o2 ← lesser_order_of size;
    let order := Nat.min o1 o2 in
    let chunk_size := size_of_order order in
    addr' ← unwrap (checked_add addr chunk_size);
    size ← checked_sub size chunk_size;
    Ret (Continue (addr', size, acc ++ [(addr, order)])).

(** Each chunk has at least one page. *)
Definition split_to_chunks (addr size : Z) : run (list (Z * nat)) :=
  _ ← assert_run (addr mod PAGE_SIZE =? 0);
  _ ← assert_run (size mod PAGE_SIZE =? 0);
  loop (S (Z.to_nat (size / PAGE_SIZE))) split_next (addr, size, []).

Definition split_to_order (addr : Z) (order split_order : nat) : run (list Z) :=
  _ ← assert_run (addr mod size_of_order order =? 0);
  _ ← assert_run (split_order <=? order)%nat;
  let split_count := (2 ^ (order - split_order))%nat in
  let split_size := size_of_order split_order in
  Ret ((fun i => addr + split_size * Z.of_nat i) <$> seq 0 split_count).

(** ** Frame metadata *)

(** The frames that have a slot lie between [min_paddr] and [max_paddr]; [used] are the frames whose
    slot is in use. *)
Record Slots := mkSlots { min_paddr : Z; max_paddr : Z; used : gset Z }.

Definition get_slot (sl : Slots) (paddr : Z) : bool :=
  (paddr mod PAGE_SIZE =? 0) && (min_paddr sl <=? paddr) && (paddr <? max_paddr sl).

Definition get_from_unused (sl : Slots) (paddr : Z) : option Slots :=
  if get_slot sl paddr && negb (bool_decide (paddr ∈ used sl))
  then Some (mkSlots (min_paddr sl) (max_paddr sl) ({[paddr]} ∪ used sl)) else None.

Definition reset_as_unused (sl : Slots) (paddr : Z) : Slots :=
  mkSlots (min_paddr sl) (max_paddr sl) (used sl ∖ {[paddr]}).

(** ** Free chunks *)

Record FreeChunk := mkChunk { c_addr : Z; c_order : nat }.

#[export] Instance FreeChunk_eq_dec : EqDecision FreeChunk.
Proof. solve_decision. Defined.

(** The tail frames of a chunk: [(addr + PAGE_SIZE..end).step_by(PAGE_SIZE)]. *)
Definition tail_frames (addr : Z) (order : nat) : list Z :=
  (fun i => addr + PAGE_SIZE * Z.of_nat i) <$> seq 1 (2 ^ order - 1).

Definition FreeChunk_from_unused (sl : Slots) (addr : Z) (order : nat) : run (FreeChunk * Slots) :=
  _ ← assert_run (addr mod size_of_order order =? 0);
  sl ← unwrap (get_from_unused sl addr);
  _ ← assert_run (forallb (fun p => get_slot sl p && negb (bool_decide (p ∈ used sl)))
                    (tail_frames addr order));
  Ret (mkChunk addr order, sl).

Definition buddy (c : FreeChunk) : Z := Z.lxor (c_addr c) (size_of_order (c_order c)).

Definition split_free (c : FreeChunk) (sl : Slots) : run (FreeChunk * FreeChunk * Slots) :=
  match c_order c with
  | O => Panic
  | S new_order =>
      let right_child_addr := Z.lxor (c_addr c) (size_of_order new_order) in
      sl ← unwrap (get_from_unused sl right_child_addr);
      Ret (mkChunk (c_addr c) new_order, mkChunk right_child_addr new_order, sl)
  end.

Definition merge_free (self buddy : FreeChunk) (sl : Slots) : run (FreeChunk * Slots) :=
  let '(self, buddy) := if c_addr self >? c_addr buddy then (buddy, self) else (self, buddy) in
  let sl := reset_as_unused sl (c_addr buddy) in
  _ ← assert_run (Nat.eqb (c_order self) (c_order buddy));
  _ ← assert_run (Z.lxor (c_addr self) (size_of_order (c_order self)) =? c_addr buddy);
  Ret (mkChunk (c_addr self) (S (c_order self)), sl).

(** ** Buddy sets *)

Record BuddySet := mkSet { total_size : Z; lists : list (list FreeChunk) }.

Definition new_empty (MAX_ORDER : nat) : BuddySet := mkSet 0 (replicate MAX_ORDER []).

(** The loop of [insert_chunk] over the lists from [i] on. *)
Fixpoint coalesce (n i : nat) (ls : list (list FreeChunk)) (chunk : FreeChunk) (sl : Slots)
    : run (list (list FreeChunk) * FreeChunk * Slots) :=
  match n with
  | O => Ret (ls, chunk, sl)
  | S n =>
      if (length ls <=? i + 1)%nat then Ret (ls, chunk, sl)
      else
        list ← vec_get ls i;
        match position (fun c => c_addr c =? buddy chunk) list with
        | None => Ret (ls, chunk, sl)
        | Some j =>
            '(taken, list) ← vec_remove list j;
            ls ← vec_set ls i list;
            '(chunk, sl) ← merge_free chunk taken sl;
            coalesce n (S i) ls chunk sl
        end
  end.

Definition insert_chunk (s : BuddySet) (addr : Z) (order : nat) (sl : Slots) : run (BuddySet * Slots) :=
  _ ← assert_run (order <? length (lists s))%nat;
  let inserted_size := size_of_order order in
  '(chunk, sl) ← FreeChunk_from_unused sl addr order;
  '(ls, chunk, sl) ← coalesce (length (lists s) - order) order (lists s) chunk sl;
  list ← vec_get ls (c_order chunk);
  ls ← vec_set ls (c_order chunk) (chunk :: list);
  total ← unwrap (checked_add (total_size s) inserted_size);
  Ret (mkSet total ls, sl).

(** The first non-empty list from [i] on, among [n]. *)
Fixpoint first_non_empty (n i : nat) (ls : list (list FreeChunk)) : option nat :=
  match n with
  | O => None
  | S n => match ls !! i with
           | Some (_ :: _) => Some i
           | _ => first_non_empty n (S i) ls
           end
  end.

(** [for i in (order + 1..=order + n).rev()]. *)
Fixpoint split_down (n order : nat) (ls : list (list FreeChunk)) (chunk : FreeChunk) (sl : Slots)
    : run (list (list FreeChunk) * FreeChunk * Slots) :=
  match n with
  | O => Ret (ls, chunk, sl)
  | S n =>
      '(left_sub, right_sub, sl) ← split_free chunk sl;
      _ ← assert_run (Nat.eqb (c_order right_sub) (order + n));
      list ← vec_get ls (order + n)%nat;
      ls ← vec_set ls (order + n)%nat (right_sub :: list);
      split_down n order ls left_sub sl
  end.

Definition alloc_chunk (s : BuddySet) (order : nat) (sl : Slots) : run (BuddySet * Slots * option Z) :=
  match first_non_empty (length (lists s) - order) order (lists s) with
  | None => Ret (s, sl, None)
  | Some non_empty =>
      list ← vec_get (lists s) non_empty;
      '(head, list) ← vec_remove list 0;
      ls ← vec_set (lists s) non_empty list;
      _ ← assert_run (Nat.eqb (c_order head) non_empty);
      '(ls, chunk, sl) ← split_down (non_empty - order) order ls head sl;
      let allocated_size := size_of_order order in
      total ← checked_sub (total_size s) allocated_size;
      Ret (mkSet total ls, reset_as_unused sl (c_addr chunk), Some (c_addr chunk))
  end.

(** ** Arithmetic of orders *)

Lemma size_of_order_pow o : size_of_order o = 2 ^ (Z.of_nat o + 12).
Proof.
  unfold size_of_order, PAGE_SIZE. rewrite Z.shiftl_1_l, Z.pow_add_r by lia. done.
Qed.

Lemma size_of_order_S o : size_of_order (S o) = 2 * size_of_order o.
Proof. rewrite !size_of_order_pow. replace (Z.of_nat (S o) + 12) with (Z.succ (Z.of_nat o + 12)) by lia. apply Z.pow_succ_r. lia. Qed.

Lemma size_of_order_pages o : size_of_order o = 2 ^ Z.of_nat o * PAGE_SIZE.
Proof. unfold size_of_order. by rewrite Z.shiftl_1_l. Qed.

Lemma size_of_order_pos o : 0 < size_of_order o.
Proof. rewrite size_of_order_pow. apply Z.pow_pos_nonneg; lia. Qed.

Lemma size_of_order_le o1 o2 : (o1 <= o2)%nat -> size_of_order o1 <= size_of_order o2.
Proof. intros H. rewrite !size_of_order_pow. apply Z.pow_le_mono_r; lia. Qed.

Lemma size_of_order_ge_page o : PAGE_SIZE <= size_of_order o.
Proof. apply (size_of_order_le 0 o). lia. Qed.

Lemma lesser_order_of_spec size :
  PAGE_SIZE <= size < 2 ^ 64 ->
  exists o, lesser_order_of size = Ret o /\ size_of_order o <= size < size_of_order (S o).
Proof.
  intros Hs. unfold lesser_order_of, leading_zeros. set (n := size / PAGE_SIZE).
  assert (1 <= n) as Hn by (apply Z.div_le_lower_bound; unfold PAGE_SIZE in *; lia).
  assert (n < 2 ^ 52) as Hn' by (apply Z.div_lt_upper_bound; unfold PAGE_SIZE in *; lia).
  destruct (Z.eqb_spec n 0) as [|_]; [lia|].
  pose proof (Z.log2_nonneg n). assert (Z.log2 n < 52) as Hlog by (apply Z.log2_lt_pow2; lia).
  pose proof (Z.log2_spec n ltac:(lia)) as [Hl Hu].
  unfold checked_sub. rewrite (proj2 (Z.leb_le _ _)) by lia. cbn [mbind run_bind].
  rewrite (proj2 (Z.leb_le _ _)) by lia. cbn [mbind run_bind].
  eexists. split; [done|]. rewrite size_of_order_S, !size_of_order_pages.
  replace (Z.of_nat (Z.to_nat (64 - (63 - Z.log2 n) - 1))) with (Z.log2 n) by lia.
  rewrite Z.pow_succ_r in Hu by lia. pose proof (Z.div_mod size PAGE_SIZE ltac:(done)) as E. fold n in E.
  pose proof (Z.mod_pos_bound size PAGE_SIZE ltac:(done)). nia.
Qed.

Lemma max_order_from_spec addr :
  0 <= addr < 2 ^ 64 -> addr mod PAGE_SIZE = 0 ->
  exists o, max_order_from addr = Ret o /\ (o <= 52)%nat /\ addr mod size_of_order o = 0.
Proof.
  intros Ha Hm. unfold max_order_from, trailing_zeros. replace (tz 64 PAGE_SIZE) with 12%nat by reflexivity.
  unfold checked_sub. destruct (Z.eq_dec addr 0) as [->|Hne].
  { rewrite tz_zero. cbn [Z.leb]. exists 52%nat. split_and!; [done|lia|]. by rewrite Z.mod_0_l. }
  destruct (tz_spec 64 addr) as (Hlt & q & Hq & E); [split; [lia|apply Ha]|].
  set (k := tz 64 addr) in *.
  assert (12 <= k)%nat as Hk.
  { destruct (decide (12 <= k)%nat) as [|Hk]; [done|]. exfalso.
    assert (Z.odd (addr / 2 ^ Z.of_nat k) = false) as Ho.
    { apply Z.mod_divide in Hm as [r Hr]; [|done]. rewrite Hr. unfold PAGE_SIZE.
      replace 4096 with (2 ^ (11 - Z.of_nat k) * 2 * 2 ^ Z.of_nat k).
      2:{ rewrite <- Z.mul_assoc, <- Z.pow_succ_r, <- Z.pow_add_r by lia.
          by replace (11 - Z.of_nat k + Z.succ (Z.of_nat k)) with 12 by lia. }
      rewrite !Z.mul_assoc, Z.div_mul by (apply Z.pow_nonzero; lia).
      by rewrite Z.odd_mul, andb_false_r. }
    rewrite E, Z.div_mul in Ho by (apply Z.pow_nonzero; lia). congruence. }
  rewrite (proj2 (Z.leb_le _ _)) by lia. cbn [mbind run_bind]. eexists. split; [done|]. split; [lia|].
  rewrite size_of_order_pow. replace (Z.of_nat (Z.to_nat (Z.of_nat k - Z.of_nat 12)) + 12) with (Z.of_nat k) by lia.
  rewrite E. apply Z.mod_mul. apply Z.pow_nonzero; lia.
Qed.

Lemma greater_order_of_spec size :
  0 <= size < 2 ^ 63 -> size mod PAGE_SIZE = 0 ->
  size <= size_of_order (greater_order_of size) /\ (greater_order_of size <= 51)%nat /\
  ((0 < greater_order_of size)%nat -> size_of_order (pred (greater_order_of size)) < size).
Proof.
  intros Hs Hm. unfold greater_order_of, next_power_of_two, trailing_zeros.
  set (n := size / PAGE_SIZE).
  assert (0 <= n < 2 ^ 51) as Hn.
  { split; [apply Z.div_pos; unfold PAGE_SIZE; lia|]. apply Z.div_lt_upper_bound; unfold PAGE_SIZE; lia. }
  assert (size = n * PAGE_SIZE) as Es.
  { unfold n. rewrite (Z.div_mod size PAGE_SIZE) at 1 by done. rewrite Hm. lia. }
  pose proof (Z.log2_up_nonneg n).
  assert (Z.log2_up n <= 51) as Hup.
  { destruct (Z.le_gt_cases n 1); [rewrite Z.log2_up_eqn0 by lia; lia|]. apply Z.log2_up_le_pow2; lia. }
  replace (tz 64 (2 ^ Z.log2_up n)) with (Z.to_nat (Z.log2_up n)).
  2:{ rewrite <- (Z2Nat.id (Z.log2_up n)) at 2 by lia. rewrite <- (Z.mul_1_l (2 ^ _)).
      symmetry. apply tz_mult; [done|lia|lia]. }
  rewrite size_of_order_pages, Z2Nat.id by lia. split_and!.
  - rewrite Es. apply Z.mul_le_mono_nonneg_r; [done|].
    destruct (Z.le_gt_cases n 1); [rewrite Z.log2_up_eqn0 by lia; cbn; lia|]. apply Z.log2_up_spec. lia.
  - lia.
  - intros Hpos. rewrite size_of_order_pages, Es. apply Z.mul_lt_mono_pos_r; [done|].
    destruct (Z.le_gt_cases n 1); [rewrite Z.log2_up_eqn0 in Hpos by lia; lia|].
    pose proof (Z.log2_up_spec n ltac:(lia)) as [Hl _].
    replace (Z.of_nat (pred (Z.to_nat (Z.log2_up n)))) with (Z.pred (Z.log2_up n)) by lia. done.
Qed.

(** The xor of an aligned address with a size. *)
Lemma lxor_one q : Z.lxor q 1 = if Z.odd q then q - 1 else q + 1.
Proof.
  apply Z.bits_inj'. intros i Hi. rewrite Z.lxor_spec.
  assert (forall r, Z.testbit (2 * r) i = if i =? 0 then false else Z.testbit r (i - 1)) as Heven.
  { intros r. destruct (Z.eqb_spec i 0) as [->|]; [apply Z.testbit_even_0|].
    replace i with (Z.succ (i - 1)) at 1 by lia. apply Z.testbit_even_succ. lia. }
  assert (forall r, Z.testbit (2 * r + 1) i = if i =? 0 then true else Z.testbit r (i - 1)) as Hodd.
  { intros r. destruct (Z.eqb_spec i 0) as [->|]; [apply Z.testbit_odd_0|].
    replace i with (Z.succ (i - 1)) at 1 by lia. apply Z.testbit_odd_succ. lia. }
  specialize (Hodd 0) as H1. rewrite Z.bits_0 in H1. change (2 * 0 + 1) with 1 in H1. rewrite H1.
  destruct (Z.odd q) eqn:Eo.
  - apply Z.odd_spec in Eo as [r ->]. replace (2 * r + 1 - 1) with (2 * r) by lia.
    rewrite Heven, Hodd. destruct (i =? 0); [done|apply xorb_false_r].
  - rewrite <- Z.negb_even, negb_false_iff in Eo. apply Z.even_spec in Eo as [r ->].
    rewrite Heven, Hodd. destruct (i =? 0); [done|apply xorb_false_r].
Qed.

Lemma lxor_mul q k : 0 <= k -> Z.lxor (q * 2 ^ k) (2 ^ k) = (if Z.odd q then q - 1 else q + 1) * 2 ^ k.
Proof.
  intros Hk. rewrite <- lxor_one. rewrite <- !Z.shiftl_mul_pow2 by done. rewrite <- (Z.shiftl_1_l k).
  by rewrite Z.shiftl_lxor.
Qed.

Lemma buddy_left a o :
  a mod size_of_order (S o) = 0 -> Z.lxor a (size_of_order o) = a + size_of_order o.
Proof.
  intros Hm. pose proof (size_of_order_pos o). rewrite size_of_order_S in Hm.
  apply Z.mod_divide in Hm as [q ->]; [|lia]. replace (q * (2 * size_of_order o)) with (q * 2 * size_of_order o) by lia.
  rewrite size_of_order_pow in *. rewrite lxor_mul by lia. rewrite Z.odd_mul, andb_false_r. lia.
Qed.

(** Two aligned addresses that are buddies. *)
Lemma buddy_cases a b o :
  a mod size_of_order o = 0 -> Z.lxor a (size_of_order o) = b ->
  (b = a + size_of_order o /\ a mod size_of_order (S o) = 0) \/
  (a = b + size_of_order o /\ b mod size_of_order (S o) = 0).
Proof.
  intros Hm <-. pose proof (size_of_order_pos o). rewrite size_of_order_S.
  apply Z.mod_divide in Hm as [q ->]; [|lia]. rewrite size_of_order_pow in *. rewrite lxor_mul by lia.
  set (p := 2 ^ _) in *.
  destruct (Z.odd q) eqn:Eo; [right|left]; (split; [lia|]).
  - apply Z.odd_spec in Eo as [r ->]. replace ((2 * r + 1 - 1) * p) with (r * (2 * p)) by lia. apply Z.mod_mul. lia.
  - rewrite <- Z.negb_even, negb_false_iff in Eo. apply Z.even_spec in Eo as [r ->].
    replace (2 * r * p) with (r * (2 * p)) by lia. apply Z.mod_mul. lia.
Qed.

Lemma lxor_involutive a s : Z.lxor (Z.lxor a s) s = a.
Proof. by rewrite Z.lxor_assoc, Z.lxor_nilpotent, Z.lxor_0_r. Qed.

(** ** Coverage *)

(** Whether a segment contains an address, and how many segments of a list do. *)
Definition ind (a n x : Z) : Z := if (a <=? x) && (x <? a + n) then 1 else 0.

Fixpoint cov (l : list (Z * Z)) (x : Z) : Z :=
  match l with [] => 0 | (a, n) :: l => ind a n x + cov l x end.

Fixpoint seg_size (l : list (Z * Z)) : Z :=
  match l with [] => 0 | (_, n) :: l => n + seg_size l end.

Lemma ind_split a n m x : 0 <= n -> 0 <= m -> ind a (n + m) x = ind a n x + ind (a + n) m x.
Proof.
  intros Hn Hm. unfold ind.
  destruct (Z.leb_spec a x), (Z.ltb_spec x (a + (n + m))), (Z.ltb_spec x (a + n)),
    (Z.leb_spec (a + n) x), (Z.ltb_spec x (a + n + m)); cbn; lia.
Qed.

Lemma ind_bounds a n x : 0 <= ind a n x <= 1.
Proof. unfold ind. destruct (_ && _); lia. Qed.

Lemma ind_1 a n x : ind a n x = 1 <-> a <= x < a + n.
Proof. unfold ind. destruct (Z.leb_spec a x), (Z.ltb_spec x (a + n)); cbn; lia. Qed.

Lemma cov_nonneg l x : 0 <= cov l x.
Proof. induction l as [|[a n] l IH]; cbn; [lia|]. pose proof (ind_bounds a n x). lia. Qed.

Lemma cov_app l k x : cov (l ++ k) x = cov l x + cov k x.
Proof. induction l as [|[a n] l IH]; cbn; lia. Qed.

#[export] Instance cov_proper : Proper ((≡ₚ) ==> (=) ==> (=)) cov.
Proof.
  intros l k H x ? <-. induction H as [|[] ? ? ? IH|[] []|]; cbn; lia.
Qed.

Lemma seg_size_app l k : seg_size (l ++ k) = seg_size l + seg_size k.
Proof. induction l as [|[] l IH]; cbn; lia. Qed.

#[export] Instance seg_size_proper : Proper ((≡ₚ) ==> (=)) seg_size.
Proof. intros l k H. induction H as [|[] ? ? ? IH|[] []|]; cbn; lia. Qed.

Lemma cov_elem a n l x : (a, n) ∈ l -> a <= x < a + n -> 1 <= cov l x.
Proof.
  intros Hin Hx%ind_1. induction l as [|[b m] l IH]; [by apply elem_of_nil in Hin|]. cbn.
  pose proof (cov_nonneg l x). pose proof (ind_bounds b m x).
  apply elem_of_cons in Hin as [[= <- <-]|Hin]; [lia|]. specialize (IH Hin). lia.
Qed.

Definition chunk_seg (c : FreeChunk) : Z * Z := (c_addr c, size_of_order (c_order c)).
Definition segs (cs : list FreeChunk) : list (Z * Z) := chunk_seg <$> cs.

Lemma segs_cons c cs x : cov (segs (c :: cs)) x = ind (c_addr c) (size_of_order (c_order c)) x + cov (segs cs) x.
Proof. done. Qed.

Lemma seg_size_cons c cs : seg_size (segs (c :: cs)) = size_of_order (c_order c) + seg_size (segs cs).
Proof. done. Qed.

Lemma seg_size_nonneg cs : 0 <= seg_size (segs cs).
Proof. induction cs as [|c cs IH]; [done|]. rewrite seg_size_cons. pose proof (size_of_order_pos (c_order c)). lia. Qed.

(** ** Free chunks and the slots *)

Definition heads (cs : list FreeChunk) : list Z := c_addr <$> cs.

Definition in_range (sl : Slots) (x : Z) : Prop := min_paddr sl <= x < max_paddr sl.

Definition chunk_ok (sl : Slots) (c : FreeChunk) : Prop :=
  c_addr c mod size_of_order (c_order c) = 0 /\
  min_paddr sl <= c_addr c /\ c_addr c + size_of_order (c_order c) <= max_paddr sl.

(** The chunks are aligned, disjoint and own exactly the slots of their heads. *)
Record chunks_inv (sl : Slots) (cs : list FreeChunk) : Prop := {
  ci_ok : Forall (chunk_ok sl) cs;
  ci_cov : forall x, cov (segs cs) x <= 1;
  ci_heads : forall x, x ∈ heads cs -> x ∈ used sl;
  ci_used : forall x, x ∈ used sl -> 0 < cov (segs cs) x -> x ∈ heads cs
}.

#[export] Instance segs_proper : Proper ((≡ₚ) ==> (≡ₚ)) segs.
Proof. intros l k H. unfold segs. by rewrite H. Qed.

#[export] Instance heads_proper : Proper ((≡ₚ) ==> (≡ₚ)) heads.
Proof. intros l k H. unfold heads. by rewrite H. Qed.

#[export] Instance chunks_inv_proper sl : Proper ((≡ₚ) ==> iff) (chunks_inv sl).
Proof.
  assert (forall l k, l ≡ₚ k -> chunks_inv sl l -> chunks_inv sl k) as H.
  { intros l k Hlk [H1 H2 H3 H4]. split; [by rewrite <- Hlk|intros x..]; rewrite <- Hlk; auto. }
  intros l k Hlk. split; apply H; [done|by symmetry].
Qed.

(** The slots outside the chunks do not matter. *)
Lemma chunks_inv_frame sl sl' cs :
  min_paddr sl' = min_paddr sl -> max_paddr sl' = max_paddr sl ->
  (forall x, 0 < cov (segs cs) x -> x ∈ used sl' <-> x ∈ used sl) ->
  chunks_inv sl cs -> chunks_inv sl' cs.
Proof.
  intros E1 E2 Hu [H1 H2 H3 H4]. split.
  - eapply Forall_impl; [exact H1|]. intros c. unfold chunk_ok. by rewrite E1, E2.
  - done.
  - intros x Hx. apply Hu; [|by apply H3]. unfold heads in Hx. apply list_elem_of_fmap in Hx as (c & -> & Hc).
    assert (1 <= cov (segs cs) (c_addr c)); [|lia].
    apply (cov_elem (c_addr c) (size_of_order (c_order c))).
    + unfold segs. apply list_elem_of_fmap. by exists c.
    + pose proof (size_of_order_pos (c_order c)). lia.
  - intros x Hx Hc. apply H4; [|done]. by apply Hu.
Qed.

Lemma head_covered c cs : 1 <= cov (segs (c :: cs)) (c_addr c).
Proof.
  rewrite segs_cons. pose proof (cov_nonneg (segs cs) (c_addr c)). pose proof (size_of_order_pos (c_order c)).
  rewrite (proj2 (ind_1 _ _ _)); lia.
Qed.

Lemma heads_cov x cs : x ∈ heads cs -> 1 <= cov (segs cs) x.
Proof.
  intros (c & -> & Hc)%list_elem_of_fmap. apply (cov_elem (c_addr c) (size_of_order (c_order c))).
  - apply list_elem_of_fmap. by exists c.
  - pose proof (size_of_order_pos (c_order c)). lia.
Qed.

(** A page-aligned address inside an aligned chunk. *)
Lemma mod_page a o : a mod size_of_order o = 0 -> a mod PAGE_SIZE = 0.
Proof.
  intros H. apply Z.mod_divide; [done|]. apply Z.mod_divide in H; [|pose proof (size_of_order_pos o); lia].
  etransitivity; [|exact H]. rewrite size_of_order_pages. apply Z.divide_factor_r.
Qed.

Lemma get_slot_ok sl p : p mod PAGE_SIZE = 0 -> in_range sl p -> get_slot sl p = true.
Proof.
  intros Hp [H1 H2]. unfold get_slot. rewrite Hp.
  by rewrite (proj2 (Z.leb_le (min_paddr sl) p)), (proj2 (Z.ltb_lt p (max_paddr sl))).
Qed.

Lemma get_from_unused_ok sl p :
  p mod PAGE_SIZE = 0 -> in_range sl p -> p ∉ used sl ->
  get_from_unused sl p = Some (mkSlots (min_paddr sl) (max_paddr sl) ({[p]} ∪ used sl)).
Proof. intros Hp Hr Hu. unfold get_from_unused. by rewrite get_slot_ok, bool_decide_eq_false_2. Qed.

(** Splitting a chunk gives its two halves, the right one with a slot of its own. *)
Lemma split_free_spec c cs sl :
  chunks_inv sl (c :: cs) -> (0 < c_order c)%nat ->
  exists l r sl', split_free c sl = Ret (l, r, sl') /\ chunks_inv sl' (l :: r :: cs) /\
    c_addr l = c_addr c /\ c_order l = pred (c_order c) /\ c_order r = pred (c_order c) /\
    (forall x, cov (segs (l :: r :: cs)) x = cov (segs (c :: cs)) x) /\
    (forall x, cov (segs (c :: cs)) x = 0 -> x ∈ used sl' <-> x ∈ used sl) /\
    min_paddr sl' = min_paddr sl /\ max_paddr sl' = max_paddr sl.
Proof.
  intros [H1 H2 H3 H4] Ho. destruct c as [a [|o]]; cbn in Ho; [lia|]. unfold split_free. cbn [c_order c_addr].
  apply Forall_cons in H1 as [(Hal & Hlo & Hhi) H1]. cbn [c_addr c_order] in *.
  rewrite buddy_left by done. pose proof (size_of_order_pos o) as Hpos. pose proof (size_of_order_S o) as ES.
  pose proof (size_of_order_ge_page o) as Hpg. unfold PAGE_SIZE in Hpg.
  set (r := a + size_of_order o).
  assert (forall x, cov (segs (mkChunk a o :: mkChunk r o :: cs)) x = cov (segs (mkChunk a (S o) :: cs)) x) as Hcov.
  { intros x. rewrite !segs_cons. cbn [c_addr c_order]. rewrite ES. replace (2 * size_of_order o) with (size_of_order o + size_of_order o) by lia.
    rewrite ind_split by lia. unfold r. lia. }
  assert (r mod size_of_order o = 0 /\ a mod size_of_order o = 0) as [Hr Ha].
  { rewrite ES in Hal. apply Z.mod_divide in Hal as [q Hq]; [|lia]. unfold r. rewrite Hq.
    replace (q * (2 * size_of_order o)) with (2 * q * size_of_order o) by lia.
    split; [|apply Z.mod_mul; lia]. replace (2 * q * size_of_order o + size_of_order o) with ((2 * q + 1) * size_of_order o) by lia.
    apply Z.mod_mul. lia. }
  assert (r ∉ used sl) as Hru.
  { intros Hu. assert (1 <= cov (segs (mkChunk a (S o) :: cs)) r) as Hc.
    { rewrite segs_cons. cbn [c_addr c_order]. rewrite (proj2 (ind_1 _ _ _)) by (unfold r; lia). pose proof (cov_nonneg (segs cs) r). lia. }
    apply H4 in Hu; [|lia]. cbn in Hu. apply elem_of_cons in Hu as [Hu|Hu]; [unfold r in Hu; lia|].
    apply heads_cov in Hu. specialize (H2 r). rewrite segs_cons in H2, Hc. cbn [c_addr c_order] in *.
    rewrite (proj2 (ind_1 a _ r)) in H2 by (unfold r; lia). lia. }
  rewrite get_from_unused_ok; [|by apply (mod_page r o)|split; unfold r; lia|done]. cbn [unwrap mbind run_bind].
  do 3 eexists. split; [done|]. split; [|split_and!; try done].
  - split; cbn [used min_paddr max_paddr].
    + repeat (apply Forall_cons; split); [split_and!; cbn; try done; lia|split_and!; cbn; try done; unfold r; lia|].
      eapply Forall_impl; [exact H1|]. intros c. unfold chunk_ok. done.
    + intros x. rewrite Hcov. apply H2.
    + intros x. cbn. rewrite !elem_of_cons. intros [->|[->|Hx]]; [|set_solver|].
      * apply elem_of_union_r. apply H3. cbn. set_solver.
      * apply elem_of_union_r. apply H3. cbn. set_solver.
    + intros x. rewrite Hcov. cbn. rewrite elem_of_union, elem_of_singleton. intros [->|Hx] Hc; [set_solver|].
      specialize (H4 x Hx Hc). cbn in H4. set_solver.
  - intros x Hx. cbn. rewrite elem_of_union, elem_of_singleton. split; [intros [->|]|by right]; [|done].
    rewrite <- Hcov, !segs_cons in Hx. cbn [c_addr c_order] in Hx.
    pose proof (cov_nonneg (segs cs) r). pose proof (ind_bounds a (size_of_order o) r).
    rewrite (proj2 (ind_1 r _ r)) in Hx by lia. lia.
Qed.

(** What an operation on chunks may do to the slots: those outside the given chunks are kept. *)
Definition slots_kept (cs : list (Z * Z)) (sl sl' : Slots) : Prop :=
  (forall x, cov cs x = 0 -> x ∈ used sl' <-> x ∈ used sl) /\
  min_paddr sl' = min_paddr sl /\ max_paddr sl' = max_paddr sl.

Lemma slots_kept_trans cs sl1 sl2 sl3 :
  slots_kept cs sl1 sl2 -> slots_kept cs sl2 sl3 -> slots_kept cs sl1 sl3.
Proof. intros (H1 & E1 & E1') (H2 & E2 & E2'). split_and!; [|congruence..]. intros x Hx. by rewrite H2, H1. Qed.

Lemma slots_kept_cov cs cs' sl sl' :
  (forall x, cov cs' x = 0 -> cov cs x = 0) -> slots_kept cs sl sl' -> slots_kept cs' sl sl'.
Proof. intros Hc (H & E). split; [|done]. intros x Hx. by apply H, Hc. Qed.

#[export] Instance slots_kept_proper : Proper ((≡ₚ) ==> (=) ==> (=) ==> iff) slots_kept.
Proof.
  intros l k H sl ? <- sl' ? <-. split; intros Hk; (eapply slots_kept_cov; [|exact Hk]); intros x; by rewrite H.
Qed.

Lemma tail_frames_spec a o p :
  p ∈ tail_frames a o -> a < p < a + size_of_order o /\ (a mod PAGE_SIZE = 0 -> p mod PAGE_SIZE = 0).
Proof.
  unfold tail_frames. intros (i & -> & Hi)%list_elem_of_fmap. apply elem_of_seq in Hi.
  rewrite size_of_order_pages. assert (Z.of_nat i < 2 ^ Z.of_nat o) as Hlt.
  { apply (Z.lt_le_trans _ (Z.of_nat (2 ^ o))); [lia|]. by rewrite Nat2Z.inj_pow. }
  unfold PAGE_SIZE in *. split; [nia|]. intros Hm. rewrite Z.mul_comm, Z_mod_plus_full. done.
Qed.

Lemma FreeChunk_from_unused_spec sl cs a o :
  chunks_inv sl cs -> chunk_ok sl (mkChunk a o) ->
  (forall x, ind a (size_of_order o) x = 1 -> cov (segs cs) x = 0 /\ x ∉ used sl) ->
  exists sl', FreeChunk_from_unused sl a o = Ret (mkChunk a o, sl') /\
    chunks_inv sl' (mkChunk a o :: cs) /\ slots_kept (segs (mkChunk a o :: cs)) sl sl'.
Proof.
  intros [H1 H2 H3 H4] (Hal & Hlo & Hhi) Hnew. cbn [c_addr c_order] in *. unfold FreeChunk_from_unused.
  rewrite Hal. cbn [Z.eqb assert_run mbind run_bind].
  pose proof (size_of_order_pos o) as Hpos. pose proof (mod_page a o Hal) as Hpage.
  assert (ind a (size_of_order o) a = 1) as Hia by (apply ind_1; lia). destruct (Hnew a Hia) as [Hca Hua].
  rewrite get_from_unused_ok; [|done|split; lia|done]. cbn [unwrap mbind run_bind].
  rewrite (proj2 (forallb_forall _ _)).
  2:{ intros p Hp%list_elem_of_In%tail_frames_spec. destruct Hp as [Hp Hm]. rewrite get_slot_ok; [|by apply Hm|split; cbn; lia]. cbn [used].
      rewrite bool_decide_eq_false_2; [done|]. rewrite elem_of_union, elem_of_singleton. intros [->|Hu]; [lia|].
      apply (Hnew p); [apply ind_1; lia|done]. }
  cbn [assert_run mbind run_bind]. eexists. split; [done|]. split; [split|]; cbn [used min_paddr max_paddr].
  - apply Forall_cons. split; [by split_and!|]. eapply Forall_impl; [exact H1|]. done.
  - intros x. rewrite segs_cons. cbn [c_addr c_order]. pose proof (ind_bounds a (size_of_order o) x). specialize (H2 x).
    destruct (Z.eq_dec (ind a (size_of_order o) x) 1) as [E|]; [apply Hnew in E as [E _]|]; lia.
  - intros x. cbn. rewrite elem_of_cons. intros [->|Hx]; [set_solver|]. apply elem_of_union_r. by apply H3.
  - intros x. cbn [heads fmap list_fmap c_addr]. rewrite elem_of_union, elem_of_singleton, elem_of_cons. intros [->|Hx] Hc; [by left|].
    right. apply H4; [done|]. rewrite segs_cons in Hc. cbn [c_addr c_order] in Hc. pose proof (ind_bounds a (size_of_order o) x).
    destruct (Z.eq_dec (ind a (size_of_order o) x) 1) as [E|]; [by apply Hnew in E as [_ []]|lia].
  - split; [|done]. intros x. rewrite segs_cons. cbn [c_addr c_order used]. intros Hx. rewrite elem_of_union, elem_of_singleton.
    split; [intros [->|]; [|done]|by right]. pose proof (cov_nonneg (segs cs) a). lia.
Qed.

(** Merging two buddies, in either order. *)
Lemma merge_halves sl l r o cs :
  chunks_inv sl (mkChunk l o :: mkChunk r o :: cs) -> r = l + size_of_order o -> l mod size_of_order (S o) = 0 ->
  chunks_inv (reset_as_unused sl r) (mkChunk l (S o) :: cs) /\
  (forall x, cov (segs (mkChunk l (S o) :: cs)) x = cov (segs (mkChunk l o :: mkChunk r o :: cs)) x) /\
  slots_kept (segs (mkChunk l (S o) :: cs)) sl (reset_as_unused sl r).
Proof.
  intros [H1 H2 H3 H4] Hr Hl. pose proof (size_of_order_pos o) as Hpos. pose proof (size_of_order_S o) as ES.
  assert (forall x, cov (segs (mkChunk l (S o) :: cs)) x = cov (segs (mkChunk l o :: mkChunk r o :: cs)) x) as Hcov.
  { intros x. rewrite !segs_cons. cbn [c_addr c_order]. rewrite ES.
    replace (2 * size_of_order o) with (size_of_order o + size_of_order o) by lia. rewrite ind_split by lia. rewrite Hr. lia. }
  apply Forall_cons in H1 as [(_ & Hlo & _) H1]. apply Forall_cons in H1 as [(_ & _ & Hhi) H1]. cbn [c_addr c_order] in *.
  split_and!; [split| |split]; try done; cbn [used reset_as_unused min_paddr max_paddr].
  - apply Forall_cons. split; [|eapply Forall_impl; [exact H1|done]]. split_and!; cbn; [done|done|lia].
  - intros x. rewrite Hcov. apply H2.
  - intros x Hx. apply elem_of_difference. split.
    + apply H3. cbn in *. set_solver.
    + rewrite elem_of_singleton. intros ->. cbn in Hx. apply elem_of_cons in Hx as [Hx|Hx]; [lia|].
      apply heads_cov in Hx. specialize (H2 r). rewrite !segs_cons in H2. cbn [c_addr c_order] in H2.
      rewrite (proj2 (ind_1 r _ r)) in H2 by lia. pose proof (ind_bounds l (size_of_order o) r). lia.
  - intros x. rewrite Hcov, elem_of_difference, elem_of_singleton. intros [Hx Hne] Hc. specialize (H4 x Hx Hc).
    cbn in *. set_solver.
  - intros x Hx. rewrite elem_of_difference, elem_of_singleton. split; [by intros []|]. intros Hu. split; [done|].
    intros ->. rewrite Hcov, !segs_cons in Hx. cbn [c_addr c_order] in Hx. rewrite (proj2 (ind_1 r _ r)) in Hx by lia.
    pose proof (cov_nonneg (segs cs) r). pose proof (ind_bounds l (size_of_order o) r). lia.
Qed.

Lemma merge_free_spec sl c b cs :
  chunks_inv sl (c :: b :: cs) -> c_order b = c_order c -> c_addr b = buddy c ->
  exists m sl', merge_free c b sl = Ret (m, sl') /\ c_order m = S (c_order c) /\ chunks_inv sl' (m :: cs) /\
    (forall x, cov (segs (m :: cs)) x = cov (segs (c :: b :: cs)) x) /\ slots_kept (segs (m :: cs)) sl sl'.
Proof.
  intros Hinv Ho Hb. destruct c as [a o], b as [b o']. unfold buddy in Hb. cbn [c_addr c_order] in *. subst o'.
  pose proof (Forall_inv (ci_ok _ _ Hinv)) as (Hal & _). cbn [c_addr c_order] in Hal.
  pose proof (size_of_order_pos o) as Hpos. unfold merge_free. cbn [c_addr c_order].
  destruct (buddy_cases a b o Hal (eq_sym Hb)) as [[E Hl]|[E Hl]].
  - assert (a >? b = false) as -> by (destruct (Z.gtb_spec a b); [lia|done]). cbn [c_addr c_order].
    rewrite Nat.eqb_refl, <- Hb, Z.eqb_refl. cbn [assert_run mbind run_bind].
    do 2 eexists. split; [done|]. split; [done|]. by apply merge_halves.
  - assert (a >? b = true) as -> by (destruct (Z.gtb_spec a b); [done|lia]). cbn [c_addr c_order].
    rewrite Nat.eqb_refl. replace (Z.lxor b (size_of_order o)) with a by (rewrite Hb; symmetry; apply lxor_involutive).
    rewrite Z.eqb_refl. cbn [assert_run mbind run_bind].
    assert (mkChunk a o :: mkChunk b o :: cs ≡ₚ mkChunk b o :: mkChunk a o :: cs) as Hp by constructor.
    rewrite Hp in Hinv. destruct (merge_halves sl b a o cs Hinv E Hl) as (Hi & Hc & Hk).
    do 2 eexists. split; [done|]. split_and!; try done. intros x. rewrite Hc. by rewrite Hp.
Qed.

(** ** Sets *)

Record set_inv (MAX : nat) (s : BuddySet) (sl : Slots) : Prop := {
  si_len : length (lists s) = MAX;
  si_order : forall i l c, lists s !! i = Some l -> c ∈ l -> c_order c = i;
  si_total : total_size s = seg_size (segs (concat (lists s)));
  si_chunks : chunks_inv sl (concat (lists s))
}.

Definition set_cov (s : BuddySet) (x : Z) : Z := cov (segs (concat (lists s))) x.

Lemma concat_insert {A} (ls : list (list A)) i l :
  ls !! i = Some l -> exists rest, concat ls ≡ₚ l ++ rest /\ forall k, concat (<[i := k]> ls) ≡ₚ k ++ rest.
Proof.
  intros Hi. exists (concat (take i ls) ++ concat (drop (S i) ls)). split.
  - rewrite <- (take_drop_middle ls i l Hi) at 1. rewrite concat_app. cbn. rewrite !app_assoc.
    by rewrite (Permutation_app_comm l).
  - intros k. rewrite insert_take_drop by (by eapply lookup_lt_Some). rewrite concat_app. cbn.
    rewrite !app_assoc. by rewrite (Permutation_app_comm k).
Qed.

Lemma segs_app cs ds : segs (cs ++ ds) = segs cs ++ segs ds.
Proof. apply fmap_app. Qed.

(** The orders of the chunks of each list. *)
Definition ordered (ls : list (list FreeChunk)) : Prop :=
  forall i l c, ls !! i = Some l -> c ∈ l -> c_order c = i.

Lemma ordered_insert ls i k :
  ordered ls -> (forall c, c ∈ k -> c_order c = i) -> ordered (<[i := k]> ls).
Proof.
  intros H Hk j l c. destruct (decide (i = j)) as [<-|Hne].
  - intros Hl Hc. pose proof (lookup_lt_Some _ _ _ Hl) as Hlt. rewrite length_insert in Hlt.
    rewrite list_lookup_insert_eq in Hl by done. simplify_eq. auto.
  - rewrite list_lookup_insert_ne by done. apply H.
Qed.

Lemma coalesce_spec n i ls c sl :
  chunks_inv sl (c :: concat ls) -> ordered ls -> c_order c = i -> (i < length ls)%nat ->
  exists ls' c' sl', coalesce n i ls c sl = Ret (ls', c', sl') /\
    length ls' = length ls /\ ordered ls' /\ (c_order c' < length ls)%nat /\
    chunks_inv sl' (c' :: concat ls') /\
    (forall x, cov (segs (c' :: concat ls')) x = cov (segs (c :: concat ls)) x) /\
    seg_size (segs (c' :: concat ls')) = seg_size (segs (c :: concat ls)) /\
    slots_kept (segs (c :: concat ls)) sl sl'.
Proof.
  revert i ls c sl. induction n as [|n IH]; intros i ls c sl Hinv Hord Hi Hlt; cbn [coalesce].
  { do 3 eexists. split; [done|]. split_and!; try done. lia. }
  destruct (Nat.leb_spec (length ls) (i + 1)) as [Hge|Hlt'].
  { do 3 eexists. split; [done|]. split_and!; try done. lia. }
  destruct (lookup_lt_is_Some_2 ls i Hlt) as [l Hl]. unfold vec_get. rewrite Hl. cbn [unwrap mbind run_bind].
  destruct (position (fun d => c_addr d =? buddy c) l) as [j|] eqn:Ep.
  2:{ do 3 eexists. split; [done|]. split_and!; try done. lia. }
  apply position_Some in Ep as (l1 & b & l2 & -> & Hj & Hb & _). subst j. apply Z.eqb_eq in Hb.
  rewrite vec_remove_app. cbn [mbind run_bind]. unfold vec_set. rewrite (proj2 (Nat.ltb_lt _ _)) by done. cbn [mbind run_bind].
  destruct (concat_insert ls i _ Hl) as (rest & Hcat & Hins). specialize (Hins (l1 ++ l2)).
  assert (c_order b = c_order c) as Hob by (rewrite Hi; eapply Hord; [exact Hl|set_solver]).
  assert (c :: concat ls ≡ₚ c :: b :: concat (<[i := l1 ++ l2]> ls)) as Hp.
  { rewrite Hcat, Hins. rewrite <- !app_assoc. cbn [app]. by rewrite <- Permutation_middle. }
  pose proof Hinv as Hinv'. rewrite Hp in Hinv'.
  destruct (merge_free_spec sl c b _ Hinv' Hob Hb) as (m & sl1 & -> & Hom & Hinvm & Hcov & Hkept). cbn [mbind run_bind].
  destruct (IH (S i) (<[i := l1 ++ l2]> ls) m sl1) as (ls' & c' & sl' & -> & Hlen & Hord' & Ho' & Hinv2 & Hcov2 & Hsz2 & Hk2).
  { done. }
  { apply ordered_insert; [done|]. intros d Hd. eapply Hord; [exact Hl|]. set_solver. }
  { lia. }
  { rewrite length_insert. lia. }
  rewrite length_insert in Hlen, Ho'. do 3 eexists. split; [done|]. split_and!; try done.
  - intros x. rewrite Hcov2, Hcov. by rewrite Hp.
  - rewrite Hsz2, Hp, !seg_size_cons. rewrite Hom, Hob, size_of_order_S. lia.
  - eapply slots_kept_trans.
    + eapply slots_kept_cov; [|exact Hkept]. intros x. by rewrite Hp, Hcov.
    + eapply slots_kept_cov; [|exact Hk2]. intros x. by rewrite Hp, Hcov.
Qed.

(** Inserting a chunk of unused frames adds exactly its addresses. *)
Lemma insert_chunk_spec MAX s sl a o :
  set_inv MAX s sl -> (o < MAX)%nat -> chunk_ok sl (mkChunk a o) ->
  (forall x, ind a (size_of_order o) x = 1 -> set_cov s x = 0 /\ x ∉ used sl) ->
  total_size s + size_of_order o < u64_modulus ->
  exists s' sl', insert_chunk s a o sl = Ret (s', sl') /\ set_inv MAX s' sl' /\
    total_size s' = total_size s + size_of_order o /\
    (forall x, set_cov s' x = ind a (size_of_order o) x + set_cov s x) /\
    slots_kept ((a, size_of_order o) :: segs (concat (lists s))) sl sl'.
Proof.
  intros [Hlen Hord Htot Hch] Ho Hok Hnew Hbound. unfold insert_chunk. rewrite Hlen, (proj2 (Nat.ltb_lt _ _)) by done.
  cbn [assert_run mbind run_bind].
  destruct (FreeChunk_from_unused_spec sl (concat (lists s)) a o Hch Hok Hnew) as (sl1 & -> & Hinv1 & Hk1). cbn [mbind run_bind].
  destruct (coalesce_spec (MAX - o) o (lists s) (mkChunk a o) sl1 Hinv1 Hord eq_refl ltac:(lia))
    as (ls & c & sl2 & -> & Hlen2 & Hord2 & Ho2 & Hinv2 & Hcov2 & Hsz2 & Hk2). cbn [mbind run_bind].
  destruct (lookup_lt_is_Some_2 ls (c_order c)) as [l Hl]; [lia|]. unfold vec_get. rewrite Hl. cbn [unwrap mbind run_bind].
  unfold vec_set. rewrite (proj2 (Nat.ltb_lt _ _)) by lia. cbn [mbind run_bind].
  unfold checked_add. rewrite (proj2 (Z.ltb_lt _ _)) by done. cbn [unwrap mbind run_bind].
  destruct (concat_insert ls (c_order c) l Hl) as (rest & Hcat & Hins). specialize (Hins (c :: l)).
  assert (concat (<[c_order c := c :: l]> ls) ≡ₚ c :: concat ls) as Hp by (rewrite Hins, Hcat; done).
  do 2 eexists. split; [done|]. split; [split|]; cbn [lists total_size]; [| | | |split_and!].
  - rewrite length_insert. lia.
  - apply ordered_insert; [done|]. intros d. rewrite elem_of_cons. intros [->|Hd]; [done|]. by eapply Hord2.
  - rewrite Hp, Hsz2, Htot, seg_size_cons. cbn [c_order]. lia.
  - by rewrite Hp.
  - done.
  - intros x. unfold set_cov. cbn [lists]. rewrite Hp, Hcov2. done.
  - eapply slots_kept_trans; [exact Hk1|exact Hk2].
Qed.

Lemma first_non_empty_Some n i ls j :
  first_non_empty n i ls = Some j -> (i <= j)%nat /\ exists c l, ls !! j = Some (c :: l).
Proof.
  revert i. induction n as [|n IH]; intros i; cbn; [done|].
  destruct (ls !! i) as [[|c l]|] eqn:E; [intros [? ?]%IH; split; [lia|done]| |intros [? ?]%IH; split; [lia|done]].
  intros [= <-]. split; [lia|eauto].
Qed.

Lemma first_non_empty_None n i ls j :
  first_non_empty n i ls = None -> (i <= j < i + n)%nat -> ls !! j = Some [] \/ ls !! j = None.
Proof.
  revert i. induction n as [|n IH]; intros i; cbn; [lia|]. intros H Hj.
  destruct (ls !! i) as [[|c l]|] eqn:E; [| done|].
  - destruct (decide (i = j)) as [->|]; [by left|]. apply (IH (S i) H). lia.
  - destruct (decide (i = j)) as [->|]; [by right|]. apply (IH (S i) H). lia.
Qed.

Lemma split_down_spec n o ls c sl :
  chunks_inv sl (c :: concat ls) -> ordered ls -> c_order c = (o + n)%nat -> (o + n <= length ls)%nat ->
  exists ls' c' sl', split_down n o ls c sl = Ret (ls', c', sl') /\
    length ls' = length ls /\ ordered ls' /\ c_order c' = o /\ c_addr c' = c_addr c /\
    chunks_inv sl' (c' :: concat ls') /\
    (forall x, cov (segs (c' :: concat ls')) x = cov (segs (c :: concat ls)) x) /\
    seg_size (segs (c' :: concat ls')) = seg_size (segs (c :: concat ls)) /\
    slots_kept (segs (c :: concat ls)) sl sl'.
Proof.
  revert ls c sl. induction n as [|n IH]; intros ls c sl Hinv Hord Ho Hlt; cbn [split_down].
  { do 3 eexists. split; [done|]. split_and!; try done. lia. }
  destruct (split_free_spec c (concat ls) sl Hinv ltac:(lia)) as (l & r & sl1 & -> & Hinv1 & Ea & Eol & Eor & Hcov & Hk & Hmin & Hmax).
  cbn [mbind run_bind]. rewrite Eor, (proj2 (Nat.eqb_eq _ _)) by lia. cbn [assert_run mbind run_bind].
  destruct (lookup_lt_is_Some_2 ls (o + n)) as [k Hl]; [lia|]. unfold vec_get. rewrite Hl. cbn [unwrap mbind run_bind].
  unfold vec_set. rewrite (proj2 (Nat.ltb_lt _ _)) by lia. cbn [mbind run_bind].
  destruct (concat_insert ls (o + n) k Hl) as (rest & Hcat & Hins). specialize (Hins (r :: k)).
  assert (l :: concat (<[(o + n)%nat := r :: k]> ls) ≡ₚ l :: r :: concat ls) as Hp by (rewrite Hins, Hcat; done).
  destruct (IH (<[(o + n)%nat := r :: k]> ls) l sl1) as (ls' & c' & sl' & -> & Hlen & Hord' & Ho' & Ea' & Hinv2 & Hcov2 & Hsz2 & Hk2).
  { by rewrite Hp. }
  { apply ordered_insert; [done|]. intros d. rewrite elem_of_cons. intros [->|Hd]; [lia|]. by eapply Hord. }
  { lia. }
  { rewrite length_insert. lia. }
  rewrite length_insert in Hlen. do 3 eexists. split; [done|]. split_and!; try done.
  - congruence.
  - intros x. rewrite Hcov2, Hp. apply Hcov.
  - rewrite Hsz2, Hp, !seg_size_cons. rewrite Eol, Eor. destruct (c_order c) as [|q]; [lia|]. cbn [pred]. rewrite size_of_order_S. lia.
  - eapply slots_kept_trans; [split_and!; [exact Hk|done|done]|]. eapply slots_kept_cov; [|exact Hk2]. intros x. rewrite Hp, Hcov. done.
Qed.

(** The head of a lone chunk is released. *)
Lemma release_chunk sl c cs :
  chunks_inv sl (c :: cs) ->
  chunks_inv (reset_as_unused sl (c_addr c)) cs /\
  (forall x, ind (c_addr c) (size_of_order (c_order c)) x = 1 -> x ∉ used (reset_as_unused sl (c_addr c))) /\
  slots_kept (segs (c :: cs)) sl (reset_as_unused sl (c_addr c)).
Proof.
  intros [H1 H2 H3 H4]. pose proof (size_of_order_pos (c_order c)) as Hpos.
  assert (cov (segs cs) (c_addr c) = 0) as H0.
  { specialize (H2 (c_addr c)). rewrite segs_cons, (proj2 (ind_1 _ _ _)) in H2 by lia.
    pose proof (cov_nonneg (segs cs) (c_addr c)). lia. }
  split_and!; cbn [used reset_as_unused].
  - split; cbn [used reset_as_unused].
    + apply Forall_cons in H1 as [_ H1]. eapply Forall_impl; [exact H1|done].
    + intros x. specialize (H2 x). rewrite segs_cons in H2. pose proof (ind_bounds (c_addr c) (size_of_order (c_order c)) x). lia.
    + intros x Hx. rewrite elem_of_difference, elem_of_singleton. split; [apply H3; cbn; set_solver|].
      intros ->. apply heads_cov in Hx. lia.
    + intros x. rewrite elem_of_difference, elem_of_singleton. intros [Hu Hne] Hc.
      specialize (H4 x Hu). rewrite segs_cons in H4. pose proof (ind_bounds (c_addr c) (size_of_order (c_order c)) x).
      specialize (H4 ltac:(lia)). cbn in H4. set_solver.
  - intros x Hx. rewrite elem_of_difference, elem_of_singleton. intros [Hu Hne].
    specialize (H4 x Hu). rewrite segs_cons in H4. pose proof (cov_nonneg (segs cs) x). specialize (H4 ltac:(lia)).
    cbn in H4. apply elem_of_cons in H4 as [|Hh]; [done|]. apply heads_cov in Hh. specialize (H2 x). rewrite segs_cons in H2. lia.
  - split; [|done]. intros x Hx. cbn. rewrite elem_of_difference, elem_of_singleton. split; [by intros []|]. intros Hu. split; [done|].
    intros ->. pose proof (head_covered c cs). lia.
Qed.

(** Allocating takes one chunk of the order out of the set; it fails only when no chunk of that order
    or a larger one is free. *)
Lemma alloc_chunk_spec MAX s sl o :
  set_inv MAX s sl ->
  exists s' sl' r, alloc_chunk s o sl = Ret (s', sl', r) /\ set_inv MAX s' sl' /\
    match r with
    | None => s' = s /\ sl' = sl /\ forall c, c ∈ concat (lists s) -> (c_order c < o)%nat
    | Some a => chunk_ok sl (mkChunk a o) /\ total_size s = total_size s' + size_of_order o /\
        (forall x, set_cov s x = ind a (size_of_order o) x + set_cov s' x) /\
        (forall x, ind a (size_of_order o) x = 1 -> x ∉ used sl') /\
        slots_kept (segs (concat (lists s))) sl sl'
    end.
Proof.
  intros Hs. pose proof Hs as [Hlen Hord Htot Hch]. unfold alloc_chunk. rewrite Hlen.
  destruct (first_non_empty (MAX - o) o (lists s)) as [j|] eqn:Ef.
  2:{ exists s, sl, None. split_and!; try done. intros c (l & Hl & Hc)%list_elem_of_In%in_concat.
      apply list_elem_of_In, list_elem_of_lookup_1 in Hl as [j Hj]. apply list_elem_of_In in Hc.
      rewrite (Hord j l c Hj Hc). pose proof (lookup_lt_Some _ _ _ Hj). apply Nat.nle_gt. intros Hle.
      destruct (first_non_empty_None _ _ _ j Ef) as [E|E]; [lia| |congruence].
      rewrite E in Hj. simplify_eq. by apply elem_of_nil in Hc. }
  apply first_non_empty_Some in Ef as (Hle & c & l & Hl). unfold vec_get. rewrite Hl. cbn [unwrap mbind run_bind].
  pose proof (lookup_lt_Some _ _ _ Hl) as Hlt.
  replace (vec_remove (c :: l) 0) with (Ret (c, l)) by reflexivity. cbn [mbind run_bind]. unfold vec_set.
  rewrite (proj2 (Nat.ltb_lt _ _)) by lia. cbn [mbind run_bind].
  assert (c_order c = j) as Hoc by (eapply Hord; [exact Hl|set_solver]). rewrite Hoc, Nat.eqb_refl. cbn [assert_run mbind run_bind].
  destruct (concat_insert (lists s) j _ Hl) as (rest & Hcat & Hins). specialize (Hins l).
  assert (c :: concat (<[j := l]> (lists s)) ≡ₚ concat (lists s)) as Hp by (rewrite Hins, Hcat; done).
  destruct (split_down_spec (j - o) o (<[j := l]> (lists s)) c sl) as (ls' & c' & sl1 & -> & Hlen' & Hord' & Ho' & Ea & Hinv & Hcov & Hsz & Hk).
  { by rewrite Hp. }
  { apply ordered_insert; [done|]. intros d Hd. eapply Hord; [exact Hl|]. set_solver. }
  { lia. }
  { rewrite length_insert. lia. }
  cbn [mbind run_bind]. rewrite length_insert in Hlen'. rewrite Hp in Hsz, Hk.
  rewrite seg_size_cons, Ho' in Hsz.
  assert (forall x, set_cov s x = ind (c_addr c') (size_of_order o) x + cov (segs (concat ls')) x) as Hcov'.
  { intros x. specialize (Hcov x). rewrite Hp, segs_cons, Ho' in Hcov. by rewrite Hcov. }
  assert (0 <= seg_size (segs (concat ls'))) as Hnn by apply seg_size_nonneg.
  unfold checked_sub. rewrite (proj2 (Z.leb_le _ _)) by lia. cbn [mbind run_bind].
  destruct (release_chunk sl1 c' (concat ls') Hinv) as (Hinv2 & Hunused & Hk2).
  pose proof (Forall_inv (ci_ok _ _ Hinv)) as Hok. rewrite Ho' in Hunused.
  do 3 eexists. split; [done|]. split; [split|]; cbn [lists total_size]; [lia|done|lia|done|].
  split_and!; [|lia| |done|].
  - destruct Hk as (_ & E1 & E2). unfold chunk_ok in *. rewrite E1, E2, Ho' in Hok. exact Hok.
  - exact Hcov'.
  - eapply slots_kept_trans; [exact Hk|]. eapply slots_kept_cov; [|exact Hk2].
    intros x. by rewrite segs_cons, Ho', <- Hcov'.
Qed.

(** ** Splitting ranges *)

(** The segments of a list of chunks given by address and order. *)
Definition pieces (l : list (Z * nat)) : list (Z * Z) := (fun p => (fst p, size_of_order (snd p))) <$> l.

Lemma cov_range a n x : cov [(a, n)] x = ind a n x.
Proof. cbn. lia. Qed.

Lemma ind_0 a x : ind a 0 x = 0.
Proof. unfold ind. destruct (Z.leb_spec a x), (Z.ltb_spec x (a + 0)); cbn; lia. Qed.

(** A chunk of the range, and a range that has been split up to the segment [a, n]. *)
Definition piece_ok (addr size : Z) (p : Z * nat) : Prop :=
  fst p mod size_of_order (snd p) = 0 /\ addr <= fst p /\ fst p + size_of_order (snd p) <= addr + size.

Record split_inv (addr size : Z) (a n : Z) (acc : list (Z * nat)) : Prop := {
  sp_lo : addr <= a;
  sp_rest : 0 <= n;
  sp_end : a + n = addr + size;
  sp_addr : a mod PAGE_SIZE = 0;
  sp_size : n mod PAGE_SIZE = 0;
  sp_cov : forall x, cov (pieces acc) x + ind a n x = ind addr size x;
  sp_total : seg_size (pieces acc) + n = size;
  sp_ok : Forall (piece_ok addr size) acc
}.

(** Taking a chunk off the front of the rest. *)
Lemma split_inv_step addr size a n acc o :
  split_inv addr size a n acc -> a mod size_of_order o = 0 -> size_of_order o <= n ->
  split_inv addr size (a + size_of_order o) (n - size_of_order o) (acc ++ [(a, o)]) /\
  (Z.to_nat ((n - size_of_order o) / PAGE_SIZE) < Z.to_nat (n / PAGE_SIZE))%nat.
Proof.
  intros [H1 H2 H3 H4 H5 H6 H7 H8] Hal Hle. set (c := size_of_order o) in *.
  pose proof (size_of_order_pages o) as Ec. fold c in Ec. pose proof (size_of_order_pos o) as Hpos. fold c in Hpos.
  split; [split|].
  - lia.
  - lia.
  - lia.
  - rewrite Ec, Z_mod_plus_full. done.
  - rewrite Ec. replace (n - 2 ^ Z.of_nat o * PAGE_SIZE) with (n + - 2 ^ Z.of_nat o * PAGE_SIZE) by lia.
    by rewrite Z_mod_plus_full.
  - intros x. unfold pieces. rewrite fmap_app, cov_app. cbn [fmap list_fmap fst snd]. rewrite cov_range.
    fold (pieces acc). fold c. rewrite <- H6. replace n with (c + (n - c)) at 2 by lia. rewrite ind_split by lia. lia.
  - unfold pieces. rewrite fmap_app, seg_size_app. cbn [fmap list_fmap fst snd seg_size]. fold (pieces acc). fold c. lia.
  - apply Forall_app. split; [done|]. apply Forall_singleton. split_and!; cbn [fst snd]; fold c; [done|lia|lia].
  - assert (0 < 2 ^ Z.of_nat o) by (apply Z.pow_pos_nonneg; lia).
    assert (n / PAGE_SIZE = (n - c) / PAGE_SIZE + 2 ^ Z.of_nat o) as ->.
    { rewrite <- Z.div_add by done. f_equal. lia. }
    assert (0 <= (n - c) / PAGE_SIZE) by (apply Z.div_pos; [lia|done]). lia.
Qed.

Lemma aligned_min a o1 o2 : a mod size_of_order o1 = 0 -> a mod size_of_order (Nat.min o1 o2) = 0.
Proof.
  intros H. pose proof (size_of_order_pos o1). pose proof (size_of_order_pos (Nat.min o1 o2)).
  apply Z.mod_divide in H as [q ->]; [|lia]. apply Z.mod_divide; [lia|]. apply Z.divide_mul_r.
  rewrite !size_of_order_pow. exists (2 ^ (Z.of_nat o1 - Z.of_nat (Nat.min o1 o2))).
  rewrite <- Z.pow_add_r by lia. f_equal. lia.
Qed.

(** Splitting a range of pages is total and yields aligned chunks that cover it exactly. *)
Lemma split_to_chunks_spec addr size :
  0 <= addr -> 0 <= size -> addr + size < u64_modulus -> addr mod PAGE_SIZE = 0 -> size mod PAGE_SIZE = 0 ->
  exists l, split_to_chunks addr size = Ret l /\
    (forall x, cov (pieces l) x = ind addr size x) /\ seg_size (pieces l) = size /\ Forall (piece_ok addr size) l.
Proof.
  intros Ha Hs Hb Hma Hms. unfold split_to_chunks. rewrite Hma, Hms. cbn [Z.eqb assert_run mbind run_bind].
  destruct (loop_total split_next (fun '(a, n, acc) => split_inv addr size a n acc)
    (fun l => (forall x, cov (pieces l) x = ind addr size x) /\ seg_size (pieces l) = size /\ Forall (piece_ok addr size) l)
    (fun '(_, n, _) => Z.to_nat (n / PAGE_SIZE)))
    with (fuel := S (Z.to_nat (size / PAGE_SIZE))) (s := (addr, size, @nil (Z * nat))) as (l & E & H).
  - intros [[a n] acc] Hinv. pose proof Hinv as [H1 H2 H3 H4 H5 H6 H7 H8]. cbn [split_next].
    destruct (Z.eqb_spec n 0) as [->|Hne].
    { exists (Break acc). split; [done|]. split_and!; [|lia|done]. intros x. rewrite <- H6, ind_0. lia. }
    destruct (max_order_from_spec a) as (o1 & -> & _ & Hal); [split; [lia|unfold u64_modulus in Hb; lia]|done|].
    assert (PAGE_SIZE <= n) as Hpn.
    { apply Z.mod_divide in H5 as [q ->]; [|done]. unfold PAGE_SIZE in *. nia. }
    destruct (lesser_order_of_spec n) as (o2 & -> & Hle & _); [unfold u64_modulus in Hb; lia|]. cbn [mbind run_bind].
    set (o := Nat.min o1 o2).
    assert (size_of_order o <= n) as Hcn by (etransitivity; [apply (size_of_order_le o o2); lia|done]).
    unfold checked_add. rewrite (proj2 (Z.ltb_lt _ _)) by lia. cbn [unwrap mbind run_bind].
    unfold checked_sub. rewrite (proj2 (Z.leb_le _ _)) by done. cbn [mbind run_bind].
    eexists. split; [done|]. apply split_inv_step; [done|by apply aligned_min|done].
  - by split.
  - lia.
  - exists l. by split.
Qed.

(** Splitting a chunk into chunks of a smaller order. *)
Lemma split_to_order_spec addr o k :
  addr mod size_of_order o = 0 -> (k <= o)%nat ->
  exists l, split_to_order addr o k = Ret l /\
    (forall x, cov (pieces ((fun a => (a, k)) <$> l)) x = ind addr (size_of_order o) x) /\
    seg_size (pieces ((fun a => (a, k)) <$> l)) = size_of_order o /\
    Forall (fun a => piece_ok addr (size_of_order o) (a, k)) l.
Proof.
  intros Hal Hk. unfold split_to_order. rewrite Hal, (proj2 (Nat.leb_le _ _)) by done. cbn [Z.eqb assert_run mbind run_bind].
  eexists. split; [done|]. pose proof (size_of_order_pos k) as Hpos. set (c := size_of_order k) in *.
  assert (size_of_order o = c * Z.of_nat (2 ^ (o - k))) as Eo.
  { unfold c. rewrite !size_of_order_pow, Nat2Z.inj_pow. change (Z.of_nat 2) with 2. rewrite <- Z.pow_add_r by lia. f_equal. lia. }
  assert (addr mod c = 0) as Hac.
  { unfold c. rewrite <- (Nat.min_r o k Hk). by apply aligned_min. }
  rewrite Eo in *. clear Eo Hal. generalize (2 ^ (o - k))%nat. intros m.
  induction m as [|m (IH1 & IH2 & IH3)].
  { cbn [seq fmap list_fmap]. split_and!; [|by rewrite Z.mul_0_r|constructor]. intros x. rewrite Z.mul_0_r, ind_0. done. }
  rewrite seq_S, !fmap_app. cbn [fmap list_fmap]. unfold pieces in *. rewrite !fmap_app.
  cbn [fmap list_fmap fst snd]. fold c. rewrite Nat2Z.inj_succ. split_and!.
  - intros x. rewrite cov_app, IH1, cov_range. replace (c * Z.succ (Z.of_nat m)) with (c * Z.of_nat m + c) by lia.
    rewrite ind_split by lia. cbn. done.
  - rewrite seg_size_app, IH2. cbn [seg_size]. lia.
  - apply Forall_app. split.
    + eapply Forall_impl; [exact IH3|]. intros a (H1 & H2 & H3). split_and!; [done|done|]. lia.
    + apply Forall_singleton. split_and!; cbn [fst snd]; fold c; [|lia|lia]. rewrite Z.mul_comm, Z_mod_plus_full. done.
Qed.
