(* ===== verification/BuddyCoalesce.v ===== *)
(** * Coalescing of buddies

    The buddy sets of [osdk/deps/frame-allocator/src/set.rs] never keep two free buddies apart:
    [insert_chunk] merges them and [alloc_chunk] splits no further than it must.  Hence an
    allocation from a set fails only when the set has no free aligned block of the order at all. *)

From S2P Require Import Prelude Align Buddy.

(** No list below the last holds a chunk together with its buddy. *)
Definition coalesced (ls : list (list FreeChunk)) : Prop :=
  forall i l c d, (S i < length ls)%nat -> ls !! i = Some l -> c ∈ l -> d ∈ l -> c_addr d <> buddy c.

(** What a set goes through: chunks are inserted and allocated, and the rest of the system uses and
    frees frames outside of the set. *)
Inductive set_step (MAX : nat) : BuddySet * Slots -> BuddySet * Slots -> Prop :=
  | step_insert s sl a o s' sl' :
      (o < MAX)%nat -> chunk_ok sl (mkChunk a o) ->
      (forall x, ind a (size_of_order o) x = 1 -> set_cov s x = 0 /\ x ∉ used sl) ->
      total_size s + size_of_order o < u64_modulus ->
      insert_chunk s a o sl = Ret (s', sl') -> set_step MAX (s, sl) (s', sl')
  | step_alloc_chunk s sl o s' sl' r :
      alloc_chunk s o sl = Ret (s', sl', r) -> set_step MAX (s, sl) (s', sl')
  | step_others s sl sl' :
      min_paddr sl' = min_paddr sl -> max_paddr sl' = max_paddr sl ->
      (forall x, 0 < set_cov s x -> x ∈ used sl' <-> x ∈ used sl) -> set_step MAX (s, sl) (s, sl').

Definition set_good (MAX : nat) (st : BuddySet * Slots) : Prop :=
  set_inv MAX (fst st) (snd st) /\ coalesced (lists (fst st)).

(** ** [insert_chunk] *)

Lemma lxor_self_ne a o : Z.lxor a (size_of_order o) <> a.
Proof.
  intros H. pose proof (size_of_order_pos o). apply (f_equal (Z.lxor a)) in H.
  rewrite <- Z.lxor_assoc, Z.lxor_nilpotent, Z.lxor_0_l in H. lia.
Qed.

Lemma buddy_sym c d : c_order c = c_order d -> c_addr d = buddy c -> c_addr c = buddy d.
Proof. unfold buddy. intros <- ->. by rewrite lxor_involutive. Qed.

(** Replacing a list by another that has no buddies in it. *)
Lemma coalesced_insert ls i k :
  coalesced ls -> ((S i < length ls)%nat -> forall c d, c ∈ k -> d ∈ k -> c_addr d <> buddy c) ->
  coalesced (<[i := k]> ls).
Proof.
  intros H Hk j l c d. rewrite length_insert. destruct (decide (i = j)) as [<-|Hne].
  - intros Hlt Hl. rewrite list_lookup_insert_eq in Hl by lia. simplify_eq. by apply Hk.
  - rewrite list_lookup_insert_ne by done. apply H.
Qed.

Lemma merge_free_order c b sl m sl' : merge_free c b sl = Ret (m, sl') -> c_order b = c_order c -> c_order m = S (c_order c).
Proof.
  unfold merge_free. intros H E. destruct (c_addr c >? c_addr b); run_inv; cbn [c_order]; congruence.
Qed.

Lemma coalesce_coalesced n i ls c sl ls' c' sl' :
  coalesce n i ls c sl = Ret (ls', c', sl') -> (length ls <= i + n)%nat -> ordered ls -> c_order c = i -> coalesced ls ->
  coalesced ls' /\ length ls' = length ls /\
  ((S (c_order c') < length ls')%nat -> forall l d, ls' !! c_order c' = Some l -> d ∈ l -> c_addr d <> buddy c').
Proof.
  revert i ls c sl. induction n as [|n IH]; intros i ls c sl; cbn [coalesce]; intros E Hn Hord Hi Hc.
  { run_inv. split_and!; [done..|]. lia. }
  destruct (Nat.leb_spec (length ls) (i + 1)) as [Hle|Hlt].
  { run_inv. split_and!; [done..|]. lia. }
  run_inv. destruct (position _ x) as [j|] eqn:Ep; run_inv.
  - apply vec_get_Ret in H. apply vec_remove_Ret in H0 as [Hj ->]. apply vec_set_Ret in H1 as [_ ->].
    assert (c_order f = c_order c) as Ho by (rewrite Hi; eapply Hord; [exact H|by eapply list_elem_of_lookup_2]).
    apply merge_free_order in H2; [|done].
    assert (forall d, d ∈ delete j x -> d ∈ x) as Hdel.
    { intros d (j' & Hd)%list_elem_of_lookup. rewrite list_lookup_delete in Hd. case_decide; by eapply list_elem_of_lookup_2. }
    destruct (IH _ _ _ _ E) as (H3 & H4 & H5).
    + rewrite length_insert. lia.
    + apply ordered_insert; [done|]. intros d Hd. eapply Hord; [exact H|auto].
    + by rewrite H2, Hi.
    + apply coalesced_insert; [done|]. intros Hl d e Hd He. eapply Hc; [exact Hl|exact H|auto|auto].
    + rewrite length_insert in H4. by split_and!.
  - apply vec_get_Ret in H. split_and!; [done..|]. intros _ l d Hl Hd Heq. rewrite Hl in H. simplify_eq.
    apply position_None in Ep. rewrite Forall_forall in Ep. apply Ep in Hd. lia.
Qed.

Lemma insert_chunk_coalesced s a o sl s' sl' :
  insert_chunk s a o sl = Ret (s', sl') -> ordered (lists s) -> ordered (lists s') -> coalesced (lists s) -> coalesced (lists s').
Proof.
  unfold insert_chunk. intros E Hord Hord' Hc. run_inv. unfold FreeChunk_from_unused in H0. run_inv. cbn [lists] in *.
  rename f0 into c, x0 into l0. apply vec_get_Ret in H2. apply vec_set_Ret in H3 as [Hlt ->].
  apply coalesce_coalesced in H1 as (C1 & C2 & C3); [|lia|done|done|done].
  apply coalesced_insert; [done|]. intros Hl.
  assert (forall d, d ∈ l0 -> c_order d = c_order c) as Ho.
  { intros d Hd. apply (Hord' (c_order c) (c :: l0)); [by apply list_lookup_insert_eq|set_solver]. }
  intros d e [->|Hd]%elem_of_cons [->|He]%elem_of_cons Heq.
  - unfold buddy in Heq. symmetry in Heq. by apply lxor_self_ne in Heq.
  - by apply (C3 Hl l0 e).
  - apply buddy_sym in Heq; [|by apply Ho]. by apply (C3 Hl l0 d).
  - by apply (C1 (c_order c) l0 d e).
Qed.

(** ** [alloc_chunk] *)

Lemma split_free_orders c sl l r sl' :
  split_free c sl = Ret (l, r, sl') -> c_order r = c_order l /\ S (c_order l) = c_order c.
Proof. unfold split_free. destruct (c_order c) as [|o]; [done|]. intros H. run_inv. done. Qed.

(** A lone chunk has no buddy next to it. *)
Lemma lone_chunk c d e : d ∈ [c] -> e ∈ [c] -> c_addr e <> buddy d.
Proof. rewrite !list_elem_of_singleton. intros -> -> H. symmetry in H. by apply lxor_self_ne in H. Qed.

Lemma split_down_coalesced n o ls c sl ls' c' sl' :
  split_down n o ls c sl = Ret (ls', c', sl') ->
  (forall j, (o <= j < o + n)%nat -> ls !! j = Some [] \/ ls !! j = None) -> coalesced ls -> coalesced ls'.
Proof.
  revert ls c sl. induction n as [|n IH]; intros ls c sl; cbn [split_down]; intros E He Hc; [by run_inv|].
  run_inv. apply vec_get_Ret in H1. apply vec_set_Ret in H2 as [Hlt ->].
  assert (x0 = []) as -> by (destruct (He (o + n)%nat ltac:(lia)); congruence).
  apply IH in E; [done| |].
  - intros j Hj. rewrite list_lookup_insert_ne by lia. apply He. lia.
  - apply coalesced_insert; [done|]. intros _ d e. apply lone_chunk.
Qed.

Lemma first_non_empty_first n i ls j k :
  first_non_empty n i ls = Some j -> (i <= k < j)%nat -> ls !! k = Some [] \/ ls !! k = None.
Proof.
  revert i. induction n as [|n IH]; intros i; cbn [first_non_empty]; [done|].
  destruct (ls !! i) as [[|c l]|] eqn:E; intros H Hk; [| simplify_eq; lia|].
  - destruct (decide (i = k)) as [->|]; [by left|]. apply (IH (S i) H). lia.
  - destruct (decide (i = k)) as [->|]; [by right|]. apply (IH (S i) H). lia.
Qed.

Lemma alloc_chunk_coalesced s o sl s' sl' r :
  alloc_chunk s o sl = Ret (s', sl', r) -> coalesced (lists s) -> coalesced (lists s').
Proof.
  unfold alloc_chunk. destruct (first_non_empty _ _ _) as [j|] eqn:Ef; intros E Hc; [|by run_inv].
  run_inv. cbn [lists]. apply vec_get_Ret in H. apply vec_remove_Ret in H0 as [Hh ->]. apply vec_set_Ret in H1 as [_ ->].
  apply split_down_coalesced in H3; [done| |].
  - intros k Hk. rewrite list_lookup_insert_ne by lia. eapply first_non_empty_first; [exact Ef|]. lia.
  - apply coalesced_insert; [done|]. intros Hl c d Hc' Hd'.
    destruct x as [|h x]; cbn in Hh; simplify_eq. eapply Hc; [exact Hl|exact H| |]; set_solver.
Qed.

(** ** Completeness *)

Lemma set_step_good MAX st st' : set_step MAX st st' -> set_good MAX st -> set_good MAX st'.
Proof.
  destruct 1 as [s sl a o s' sl' Ho Hok Hnew Hb E|s sl o s' sl' r E|s sl sl' E1 E2 Hu]; intros [Hi Hc]; unfold set_good; cbn [fst snd] in *.
  - destruct (insert_chunk_spec MAX s sl a o Hi Ho Hok Hnew Hb) as (s1 & sl1 & E' & Hi' & _).
    rewrite E in E'. simplify_eq. split; [done|].
    eapply insert_chunk_coalesced; [exact E|exact (si_order _ _ _ Hi)|exact (si_order _ _ _ Hi')|done].
  - destruct (alloc_chunk_spec MAX s sl o Hi) as (s1 & sl1 & r1 & E' & Hi' & _).
    rewrite E in E'. simplify_eq. split; [done|]. by eapply alloc_chunk_coalesced.
  - split; [|done]. destruct Hi as [H1 H2 H3 H4]. split; try done. by eapply chunks_inv_frame.
Qed.

Lemma cov_concat x ls : 0 < cov (segs ls) x -> exists c, c ∈ ls /\ c_addr c <= x < c_addr c + size_of_order (c_order c).
Proof.
  induction ls as [|c ls IH]; [cbn; lia|]. rewrite segs_cons. intros H.
  destruct (decide (ind (c_addr c) (size_of_order (c_order c)) x = 1)) as [E|E].
  - exists c. split; [set_solver|]. by apply ind_1.
  - pose proof (ind_bounds (c_addr c) (size_of_order (c_order c)) x). destruct IH as (d & Hd & Hx); [lia|]. exists d. split; [set_solver|done].
Qed.

(** An aligned block of a smaller order lies within an aligned chunk that contains its first byte. *)
Lemma aligned_within a b o q :
  a mod size_of_order o = 0 -> b mod size_of_order q = 0 -> (o <= q)%nat ->
  b <= a < b + size_of_order q -> a + size_of_order o <= b + size_of_order q.
Proof.
  intros Ha Hb Hle Hx. pose proof (size_of_order_pos o) as Ho.
  assert (b mod size_of_order o = 0) as Hb' by (rewrite <- (Nat.min_r q o Hle); by apply aligned_min).
  assert (size_of_order q mod size_of_order o = 0) as Hq.
  { rewrite <- (Nat.min_r q o Hle). apply aligned_min. apply Z.mod_same. pose proof (size_of_order_pos q). lia. }
  apply Z.mod_divide in Ha as [i ->]; [|lia]. apply Z.mod_divide in Hb' as [j ->]; [|lia].
  apply Z.mod_divide in Hq as [k Hk]; [|lia]. rewrite Hk in *. assert (i < j + k) by nia. nia.
Qed.

(** A fully free aligned block lies in one chunk. *)
Lemma free_block_in_chunk MAX s sl o a :
  set_inv MAX s sl -> coalesced (lists s) -> (o < MAX)%nat -> a mod size_of_order o = 0 ->
  (forall x, a <= x < a + size_of_order o -> 0 < set_cov s x) ->
  exists c, c ∈ concat (lists s) /\ (o <= c_order c)%nat /\ c_addr c <= a < c_addr c + size_of_order (c_order c).
Proof.
  intros Hi Hc. revert a. induction o as [|o IH]; intros a Ho Ha Hfree.
  { pose proof (size_of_order_pos 0). destruct (cov_concat a (concat (lists s))) as (c & Hin & Hx); [apply Hfree; lia|].
    exists c. split_and!; [done|lia|lia|lia]. }
  rewrite size_of_order_S in Hfree. pose proof (size_of_order_pos o) as Hpos.
  assert (a mod size_of_order o = 0) as Ha1.
  { rewrite <- (Nat.min_r (S o) o) by lia. by apply aligned_min. }
  assert ((a + size_of_order o) mod size_of_order o = 0) as Ha2.
  { rewrite <- (Z.mul_1_l (size_of_order o)) at 1. by rewrite Z_mod_plus_full. }
  destruct (IH a) as (c & Hin & Hle & Hx); [lia|done|intros x ?; apply Hfree; lia|].
  destruct (IH (a + size_of_order o)) as (d & Hind & Hled & Hxd); [lia|done|intros x ?; apply Hfree; lia|].
  destruct (decide (S o <= c_order c)%nat) as [Hc'|Hc']; [by exists c|].
  destruct Hi as [Hlen Hord _ [Hok _ _ _]]. rewrite Forall_forall in Hok.
  pose proof (Hok c Hin) as (Hac & _). pose proof (Hok d Hind) as (Had & _).
  assert (c_order c = o) as Eo by lia. rewrite Eo in *.
  pose proof (aligned_within a (c_addr c) o o Ha1 Hac ltac:(lia) Hx) as Hw.
  destruct (decide (S o <= c_order d)%nat) as [Hd'|Hd'].
  - exists d. split_and!; [done|done| |lia].
    assert (c_addr d mod size_of_order (S o) = 0) as Had' by (rewrite <- (Nat.min_r (c_order d) (S o)) by lia; by apply aligned_min).
    rewrite size_of_order_S in *. apply Z.mod_divide in Ha as [i Hi']; [|lia]. apply Z.mod_divide in Had' as [j Hj]; [|lia].
    assert (j <= i) by nia. nia.
  - exfalso. assert (c_order d = o) as Eod by lia. rewrite Eod in *.
    pose proof (aligned_within _ (c_addr d) o o Ha2 Had ltac:(lia) Hxd) as Hwd.
    apply list_elem_of_In, in_concat in Hin as (l & Hl & Hcl). apply list_elem_of_In, list_elem_of_lookup_1 in Hl as [i Hl].
    apply list_elem_of_In, in_concat in Hind as (k & Hk & Hdk). apply list_elem_of_In, list_elem_of_lookup_1 in Hk as [j Hk].
    apply list_elem_of_In in Hcl, Hdk. pose proof (Hord _ _ _ Hl Hcl). pose proof (Hord _ _ _ Hk Hdk).
    assert (i = o) as Ei by congruence. assert (j = o) as Ej by congruence. rewrite Ei in Hl. rewrite Ej, Hl in Hk.
    injection Hk as <-. apply (Hc o l c d); [lia|done..|]. unfold buddy. rewrite Eo.
    assert (c_addr c = a) as -> by lia. rewrite buddy_left by done. lia.
Qed.

Lemma coalesced_empty MAX : coalesced (lists (new_empty MAX)).
Proof.
  intros i l c d _ Hl Hx. apply lookup_replicate in Hl as [-> _]. by apply elem_of_nil in Hx.
Qed.

Lemma concat_replicate_nil {A} n : concat (replicate n (@nil A)) = [].
Proof. induction n; done. Qed.

Lemma set_inv_empty MAX sl : set_inv MAX (new_empty MAX) sl.
Proof.
  split; cbn [new_empty lists total_size].
  - apply length_replicate.
  - intros i l c Hl Hc. apply lookup_replicate in Hl as [-> _]. by apply elem_of_nil in Hc.
  - by rewrite concat_replicate_nil.
  - rewrite concat_replicate_nil. split; [constructor|done|by intros x ?%elem_of_nil|]. intros x _. cbn. lia.
Qed.

Lemma set_reachable_good MAX sl st : rtc (set_step MAX) (new_empty MAX, sl) st -> set_good MAX st.
Proof.
  intros Hr. assert (set_good MAX (new_empty MAX, sl)) as H0 by (split; [apply set_inv_empty|apply coalesced_empty]).
  revert H0. induction Hr as [|x y z H1 _ IH]; [done|]. intros H. apply IH. by eapply set_step_good.
Qed.

(** C15: A buddy set hands out a chunk of an order whenever it has an aligned block of that size that
    is entirely free, whatever was inserted and allocated before: free memory is never kept apart in
    smaller chunks.  The chunk lies in free memory and leaves the set. *)
Theorem alloc_chunk_complete MAX sl0 s sl o a :
  rtc (set_step MAX) (new_empty MAX, sl0) (s, sl) -> (o < MAX)%nat -> a mod size_of_order o = 0 ->
  (forall x, a <= x < a + size_of_order o -> 0 < set_cov s x) ->
  exists s' sl' b, alloc_chunk s o sl = Ret (s', sl', Some b) /\ b mod size_of_order o = 0 /\
    (forall x, set_cov s x = ind b (size_of_order o) x + set_cov s' x) /\
    total_size s = total_size s' + size_of_order o.
Proof.
  intros Hr Ho Ha Hfree. destruct (set_reachable_good _ _ _ Hr) as [Hi Hc]. cbn [fst snd] in *.
  destruct (alloc_chunk_spec MAX s sl o Hi) as (s' & sl' & [b|] & E & _ & Hres).
  - exists s', sl', b. destruct Hres as ((Hal & _) & H1 & H2 & _). by split_and!.
  - destruct Hres as (_ & _ & Hno). destruct (free_block_in_chunk MAX s sl o a Hi Hc Ho Ha Hfree) as (c & Hin & Hle & _).
    apply Hno in Hin. lia.
Qed.

(** Two pages freed one after the other are allocated as one chunk of two pages. *)
Definition two_pages : run (BuddySet * Slots) :=
  '(s, sl) ← insert_chunk (new_empty 4) 0x100000 0 (mkSlots 0 0x200000 ∅);
  insert_chunk s 0x101000 0 sl.

Lemma alloc_chunk_complete_witness :
  match two_pages with
  | Ret (s, sl) => exists s' sl' b, alloc_chunk s 1 sl = Ret (s', sl', Some b) /\ total_size s' = 0
  | _ => False
  end.
Proof.
  destruct two_pages as [[s sl]| |] eqn:E; [|exfalso; vm_compute in E; discriminate E..].
  unfold two_pages in E. apply bind_Ret in E as ([s1 sl1] & E1 & E2).
  assert (s1 = mkSet 4096 [[mkChunk 0x100000 0]; []; []; []] /\ sl1 = mkSlots 0 0x200000 {[0x100000]}) as [-> ->].
  { revert E1. vm_compute. intros [= <- <-]. done. }
  assert (s = mkSet 8192 [[]; [mkChunk 0x100000 1]; []; []]) as Es.
  { revert E2. vm_compute. intros [= <- <-]. done. }
  assert (rtc (set_step 4) (new_empty 4, mkSlots 0 0x200000 ∅) (s, sl)) as Hr.
  { eapply rtc_l; [eapply (step_insert 4 _ _ 0x100000 0 _ _); [lia|by split_and!| |done|exact E1]; intros x _; split; [done|set_solver]|].
    apply rtc_once. eapply (step_insert 4 _ _ 0x101000 0 _ _); [lia|by split_and!| |done|exact E2].
    intros x Hx. apply ind_1 in Hx. change (size_of_order 0) with 4096 in Hx. split; [|set_solver by lia].
    change (ind 0x100000 4096 x + 0 = 0). pose proof (ind_bounds 0x100000 4096 x). destruct (decide (ind 0x100000 4096 x = 1)) as [Hin|]; [apply ind_1 in Hin; lia|lia]. }
  destruct (alloc_chunk_complete 4 _ s sl 1 0x100000 Hr ltac:(lia) eq_refl) as (s' & sl' & b & Ea & _ & _ & Ht).
  { intros x Hx. subst s. change (0 < ind 0x100000 (size_of_order 1) x + 0). rewrite (proj2 (ind_1 _ _ _) Hx). lia. }
  exists s', sl', b. split; [exact Ea|]. subst s. cbn [total_size] in Ht. change (size_of_order 1) with 8192 in Ht. lia.
Defined.
