(* ===== verification/FramePools.v ===== *)
(** * The pools and caches of the frame allocator

    [osdk/deps/frame-allocator/src/]: the CPU-local and global buddy pools ([pools/mod.rs]), their
    balancing ([pools/balancing.rs]), the per-CPU caches of small segments ([cache.rs]), the counter of
    free memory ([smp_counter.rs]) and the allocator itself ([lib.rs]).

    An operation runs on one CPU with interrupts disabled.  It owns the local pool and the caches of its
    CPU, and takes the lock of the global pool at most once, when it first needs it, and holds it until
    it returns; so the operations of different CPUs are modelled as atomic steps.  The snapshot of the
    size of the global pool is read without the lock, so it may be any number: only the theorem that
    operations return when there is room asks that the snapshot shows the room, too. *)

From S2P Require Import Prelude Align Buddy.

Definition MAX_BUDDY_ORDER : nat := 32.
Definition MAX_LOCAL_BUDDY_ORDER : nat := 18.

(** ** Pools *)

(** What an operation on a CPU works on: its local pool, the global pool, whether this operation has
    taken the lock ([OnDemandGlobalLock]), the snapshot [GLOBAL_POOL_SIZE], and the frame slots. *)
Record PoolState := mkPool {
  local_pool : BuddySet;
  global_pool : BuddySet;
  locked : bool;
  pool_size : Z;
  slots : Slots
}.

Definition with_local (p : PoolState) (s : BuddySet) (sl : Slots) : PoolState :=
  mkPool s (global_pool p) (locked p) (pool_size p) sl.

(** [OnDemandGlobalLock::get], and then a new content of the global pool. *)
Definition with_global (p : PoolState) (s : BuddySet) (sl : Slots) : PoolState :=
  mkPool (local_pool p) s true (pool_size p) sl.

Definition get_global_size (p : PoolState) : Z :=
  if locked p then total_size (global_pool p) else pool_size p.

Definition drop_global_lock (p : PoolState) : PoolState :=
  mkPool (local_pool p) (global_pool p) false
    (if locked p then total_size (global_pool p) else pool_size p) (slots p).

Definition insert_piece (p : PoolState) (piece : Z * nat) : run PoolState :=
  let '(addr, order) := piece in
  if (MAX_LOCAL_BUDDY_ORDER <=? order)%nat then
    '(s, sl) ← insert_chunk (global_pool p) addr order (slots p); Ret (with_global p s sl)
  else
    '(s, sl) ← insert_chunk (local_pool p) addr order (slots p); Ret (with_local p s sl).

(** [Iterator::for_each] with a state. *)
Fixpoint for_each {A S} (f : S -> A -> run S) (l : list A) (s : S) : run S :=
  match l with
  | [] => Ret s
  | x :: l => s ← f s x; for_each f l s
  end.

Definition do_dealloc (p : PoolState) (segments : list (Z * Z)) : run PoolState :=
  for_each (fun p '(addr, size) => chunks ← split_to_chunks addr size; for_each insert_piece chunks p) segments p.

(** ** Balancing *)

Section balancing.
Context (num_cpus : Z).

Definition CACHE_EXPECTED_PORTION : Z := 2.
Definition CACHE_MINIMAL_PORTION : Z := 8.
Definition CACHE_MAXIMAL_MULTIPLIER : Z := 2.

Definition cache_expected_size (global_size : Z) : Z := global_size / num_cpus / CACHE_EXPECTED_PORTION.
Definition cache_minimal_size (global_size : Z) : Z := cache_expected_size global_size / CACHE_MINIMAL_PORTION.
Definition cache_maximal_size (global_size : Z) : Z := cache_expected_size global_size * CACHE_MAXIMAL_MULTIPLIER.

Definition insert_addr (order : nat) (st : BuddySet * Slots) (addr : Z) : run (BuddySet * Slots) :=
  let '(b, sl) := st in insert_chunk b addr order sl.

Fixpoint balance_to (order : nat) (a b : BuddySet) (sl : Slots) : run (BuddySet * BuddySet * Slots) :=
  '(a, sl, allocated_from_a) ← alloc_chunk a order sl;
  match allocated_from_a with
  | Some addr =>
      let MAX_ORDER2 := length (lists b) in
      if (MAX_ORDER2 <=? order)%nat then
        let inserted_order := (MAX_ORDER2 - 1)%nat in
        addrs ← split_to_order addr order inserted_order;
        '(b, sl) ← for_each (insert_addr inserted_order) addrs (b, sl);
        Ret (a, b, sl)
      else
        '(b, sl) ← insert_chunk b addr order sl;
        Ret (a, b, sl)
  | None =>
      match order with
      | S ((S _) as order') =>
          '(a, b, sl) ← balance_to order' a b sl;
          balance_to order' a b sl
      | _ => Ret (a, b, sl)
      end
  end.

Definition balance (p : PoolState) : run PoolState :=
  let global_size := get_global_size p in
  let minimal_local_size := cache_minimal_size global_size in
  let expected_local_size := cache_expected_size global_size in
  let maximal_local_size := cache_maximal_size global_size in
  let local_size := total_size (local_pool p) in
  if maximal_local_size <=? local_size then
    if local_size =? 0 then Ret p
    else
      expected_removal ← checked_sub local_size expected_local_size;
      lesser_order ← lesser_order_of expected_removal;
      '(l, g, sl) ← balance_to lesser_order (local_pool p) (global_pool p) (slots p);
      Ret (mkPool l g true (pool_size p) sl)
  else if local_size <? minimal_local_size then
    if global_size =? 0 then Ret p
    else
      expected_allocation ← checked_sub expected_local_size local_size;
      lesser_order ← lesser_order_of expected_allocation;
      '(g, l, sl) ← balance_to lesser_order (global_pool p) (local_pool p) (slots p);
      Ret (mkPool l g true (pool_size p) sl)
  else Ret p.

(** ** Allocation from the pools *)

Record Layout := mkLayout { l_size : Z; l_align : Z }.

(** The search for a chunk, before the rest of it is given back. *)
Definition take_chunk (p : PoolState) (order : nat) : run (PoolState * option Z) :=
  '(p, chunk_addr) ← (if (order <? MAX_LOCAL_BUDDY_ORDER)%nat then
                        '(s, sl, r) ← alloc_chunk (local_pool p) order (slots p);
                        Ret (with_local p s sl, r)
                      else Ret (p, None));
  match chunk_addr with
  | Some _ => Ret (p, chunk_addr)
  | None =>
      '(s, sl, r) ← alloc_chunk (global_pool p) order (slots p);
      Ret (with_global p s sl, r)
  end.

Definition pools_alloc (p : PoolState) (layout : Layout) : run (PoolState * option Z) :=
  let size_order := greater_order_of (l_size layout) in
  let align_order := greater_order_of (l_align layout) in
  let order := Nat.max size_order align_order in
  '(p, chunk_addr) ← take_chunk p order;
  let allocated_size := size_of_order order in
  p ← (match chunk_addr with
       | Some chunk_addr =>
           if l_size layout <? allocated_size then
             do_dealloc p [(chunk_addr + l_size layout, allocated_size - l_size layout)]
           else Ret p
       | None => Ret p
       end);
  p ← balance p;
  Ret (drop_global_lock p, chunk_addr).

Definition pools_dealloc (p : PoolState) (segments : list (Z * Z)) : run PoolState :=
  p ← do_dealloc p segments;
  p ← balance p;
  Ret (drop_global_lock p).

Definition pools_add_free_memory (p : PoolState) (addr size : Z) : run PoolState :=
  chunks ← split_to_chunks addr size;
  p ← for_each (fun p '(addr, order) =>
                  '(s, sl) ← insert_chunk (global_pool p) addr order (slots p); Ret (with_global p s sl)) chunks p;
  Ret (drop_global_lock p).
End balancing.

(** ** The per-CPU caches *)

Record CacheArray := mkCache { inner : list (option Z); c_size : nat }.

Definition CacheArray_new (COUNT : nat) : CacheArray := mkCache (replicate COUNT None) 0.

Definition push_front (COUNT : nat) (c : CacheArray) (frame : Z) : run (CacheArray * option unit) :=
  if Nat.eqb (c_size c) COUNT then Ret (c, None)
  else
    inner ← vec_set (inner c) (c_size c) (Some frame);
    Ret (mkCache inner (S (c_size c)), Some tt).

Definition pop_front (c : CacheArray) : run (CacheArray * option Z) :=
  match c_size c with
  | O => Ret (c, None)
  | S n =>
      slot ← vec_get (inner c) n;
      frame ← unwrap slot;
      inner ← vec_set (inner c) n None;
      Ret (mkCache inner n, Some frame)
  end.

Section caches.
Context (num_cpus : Z).

Section array.
Context (NR_CONT_FRAMES : Z) (COUNT : nat).

Definition segment_size : Z := NR_CONT_FRAMES * PAGE_SIZE.

Definition CacheArray_alloc (c : CacheArray) (p : PoolState) : run (CacheArray * PoolState * option Z) :=
  '(c, frame) ← pop_front c;
  match frame with
  | Some frame => Ret (c, p, Some frame)
  | None =>
      let nr_to_alloc := (COUNT * 2 / 3)%nat in
      '(p, allocated) ← pools_alloc num_cpus p (mkLayout (Z.of_nat nr_to_alloc * segment_size) PAGE_SIZE);
      match allocated with
      | None => Ret (c, p, None)
      | Some allocated =>
          c ← for_each (fun c i => '(c, _) ← push_front COUNT c (allocated + Z.of_nat i * segment_size); Ret c)
                (seq 1 (nr_to_alloc - 1)) c;
          Ret (c, p, Some allocated)
      end
  end.

(** The segments of [dealloc] after the first: [n] segments off the cache. *)
Fixpoint pop_segments (n : nat) (c : CacheArray) : run (CacheArray * list (Z * Z)) :=
  match n with
  | O => Ret (c, [])
  | S n =>
      '(c, frame) ← pop_front c;
      frame ← unwrap frame;
      '(c, rest) ← pop_segments n c;
      Ret (c, (frame, segment_size) :: rest)
  end.

Definition CacheArray_dealloc (c : CacheArray) (p : PoolState) (addr : Z) : run (CacheArray * PoolState) :=
  '(c, pushed) ← push_front COUNT c addr;
  match pushed with
  | Some _ => Ret (c, p)
  | None =>
      let nr_to_dealloc := (COUNT * 2 / 3 + 1)%nat in
      '(c, rest) ← pop_segments (nr_to_dealloc - 1) c;
      p ← pools_dealloc num_cpus p ((addr, segment_size) :: rest);
      Ret (c, p)
  end.
End array.

Record CacheOfSizes := mkCaches {
  cache1 : CacheArray;
  cache2 : CacheArray;
  cache3 : CacheArray;
  cache4 : CacheArray
}.

Definition CacheOfSizes_new : CacheOfSizes :=
  mkCaches (CacheArray_new 12) (CacheArray_new 6) (CacheArray_new 6) (CacheArray_new 6).

Definition cache_alloc (cs : CacheOfSizes) (p : PoolState) (layout : Layout)
    : run (CacheOfSizes * PoolState * option Z) :=
  let nr_frames := l_size layout / PAGE_SIZE in
  let from_pools := ('(p, r) ← pools_alloc num_cpus p layout; Ret (cs, p, r)) in
  if l_size layout <? l_align layout then from_pools
  else
    match nr_frames with
    | 1 => '(c, p, r) ← CacheArray_alloc 1 12 (cache1 cs) p;
           Ret (mkCaches c (cache2 cs) (cache3 cs) (cache4 cs), p, r)
    | 2 => '(c, p, r) ← CacheArray_alloc 2 6 (cache2 cs) p;
           Ret (mkCaches (cache1 cs) c (cache3 cs) (cache4 cs), p, r)
    | 3 => '(c, p, r) ← CacheArray_alloc 3 6 (cache3 cs) p;
           Ret (mkCaches (cache1 cs) (cache2 cs) c (cache4 cs), p, r)
    | 4 => '(c, p, r) ← CacheArray_alloc 4 6 (cache4 cs) p;
           Ret (mkCaches (cache1 cs) (cache2 cs) (cache3 cs) c, p, r)
    | _ => from_pools
    end.

Definition cache_dealloc (cs : CacheOfSizes) (p : PoolState) (addr size : Z) : run (CacheOfSizes * PoolState) :=
  let nr_frames := size / PAGE_SIZE in
  let to_pools := (p ← pools_dealloc num_cpus p [(addr, size)]; Ret (cs, p)) in
  if nr_frames >? 4 then to_pools
  else
    match nr_frames with
    | 1 => '(c, p) ← CacheArray_dealloc 1 12 (cache1 cs) p addr;
           Ret (mkCaches c (cache2 cs) (cache3 cs) (cache4 cs), p)
    | 2 => '(c, p) ← CacheArray_dealloc 2 6 (cache2 cs) p addr;
           Ret (mkCaches (cache1 cs) c (cache3 cs) (cache4 cs), p)
    | 3 => '(c, p) ← CacheArray_dealloc 3 6 (cache3 cs) p addr;
           Ret (mkCaches (cache1 cs) (cache2 cs) c (cache4 cs), p)
    | 4 => '(c, p) ← CacheArray_dealloc 4 6 (cache4 cs) p addr;
           Ret (mkCaches (cache1 cs) (cache2 cs) (cache3 cs) c, p)
    | _ => to_pools
    end.
End caches.

(** ** The allocator *)

(** The state of a CPU; its counter is an [AtomicIsize], here modulo 2^64. *)
Record Cpu := mkCpu { cpu_pool : BuddySet; cpu_cache : CacheOfSizes; cpu_counter : Z }.

Record FrameAllocator := mkAllocator {
  cpus : list Cpu;
  a_global : BuddySet;
  a_pool_size : Z;
  a_slots : Slots
}.

Definition FrameAllocator_new (num_cpus : nat) (sl : Slots) : FrameAllocator :=
  mkAllocator (replicate num_cpus (mkCpu (new_empty MAX_LOCAL_BUDDY_ORDER) CacheOfSizes_new 0))
    (new_empty MAX_BUDDY_ORDER) 0 sl.

Definition enter (f : FrameAllocator) (c : Cpu) : PoolState :=
  mkPool (cpu_pool c) (a_global f) false (a_pool_size f) (a_slots f).

Definition leave (f : FrameAllocator) (cpu : nat) (cs : CacheOfSizes) (counter : Z) (p : PoolState) : FrameAllocator :=
  mkAllocator (<[cpu := mkCpu (local_pool p) cs counter]> (cpus f)) (global_pool p) (pool_size p) (slots p).

Definition counter_add (x a : Z) : Z := wrap64 (x + a).
Definition counter_sub (x a : Z) : Z := wrap64 (x - a).

(** [FastSmpCounter::get]. *)
Definition counter_get (cs : list Cpu) : Z :=
  let total := foldl (fun t c => wrap64 (t + cpu_counter c)) 0 cs in
  if 2 ^ 63 <=? total then 0 else total.

Definition load_total_free_size (f : FrameAllocator) : Z := counter_get (cpus f).

Definition alloc (f : FrameAllocator) (cpu : nat) (layout : Layout) : run (FrameAllocator * option Z) :=
  c ← vec_get (cpus f) cpu;
  '(cs, p, res) ← cache_alloc (Z.of_nat (length (cpus f))) (cpu_cache c) (enter f c) layout;
  let counter := if is_some res then counter_sub (cpu_counter c) (l_size layout) else cpu_counter c in
  Ret (leave f cpu cs counter p, res).

Definition dealloc (f : FrameAllocator) (cpu : nat) (addr size : Z) : run FrameAllocator :=
  c ← vec_get (cpus f) cpu;
  let counter := counter_add (cpu_counter c) size in
  '(cs, p) ← cache_dealloc (Z.of_nat (length (cpus f))) (cpu_cache c) (enter f c) addr size;
  Ret (leave f cpu cs counter p).

Definition add_free_memory (f : FrameAllocator) (cpu : nat) (addr size : Z) : run FrameAllocator :=
  c ← vec_get (cpus f) cpu;
  let counter := counter_add (cpu_counter c) size in
  p ← pools_add_free_memory (enter f c) addr size;
  Ret (leave f cpu (cpu_cache c) counter p).

(** ** Two sets that share the frame slots *)

Definition set_segs (s : BuddySet) : list (Z * Z) := segs (concat (lists s)).

Record Duo := mkDuo { fst_set : BuddySet; snd_set : BuddySet; duo_slots : Slots }.

Definition dsegs (d : Duo) : list (Z * Z) := set_segs (fst_set d) ++ set_segs (snd_set d).
Definition dtotal (d : Duo) : Z := total_size (fst_set d) + total_size (snd_set d).
Definition swap (d : Duo) : Duo := mkDuo (snd_set d) (fst_set d) (duo_slots d).

Record duo_inv (M1 M2 : nat) (d : Duo) : Prop := {
  di_fst : set_inv M1 (fst_set d) (duo_slots d);
  di_snd : set_inv M2 (snd_set d) (duo_slots d);
  di_cov : forall x, cov (dsegs d) x <= 1
}.

(** What is kept when the segments [l] have been added to the sets. *)
Record adds (l : list (Z * Z)) (d d' : Duo) : Prop := {
  ad_cov : forall x, cov (dsegs d') x = cov l x + cov (dsegs d) x;
  ad_total : dtotal d' = seg_size l + dtotal d;
  ad_slots : slots_kept (l ++ dsegs d) (duo_slots d) (duo_slots d')
}.

(** The segments can be added: they are outside the sets, their frames are unused, and the sizes stay
    within the machine integers. *)
Record addable (l : list (Z * Z)) (d : Duo) : Prop := {
  aa_disjoint : forall x, cov l x + cov (dsegs d) x <= 1;
  aa_unused : forall x, 0 < cov l x -> x ∉ used (duo_slots d);
  aa_total : seg_size l + dtotal d < u64_modulus
}.

Lemma set_inv_frame MAX s sl sl' cs :
  slots_kept cs sl sl' -> (forall x, 0 < cov (set_segs s) x -> cov cs x = 0) ->
  set_inv MAX s sl -> set_inv MAX s sl'.
Proof.
  intros (Hk & E1 & E2) Hd [H1 H2 H3 H4]. split; try done.
  eapply chunks_inv_frame; [exact E1|exact E2| |exact H4]. intros x Hx. apply Hk. by apply Hd.
Qed.

Lemma set_total_nonneg MAX s sl : set_inv MAX s sl -> 0 <= total_size s.
Proof. intros [_ _ -> _]. apply seg_size_nonneg. Qed.

Lemma cov_swap d x : cov (dsegs (swap d)) x = cov (dsegs d) x.
Proof. unfold dsegs. rewrite !cov_app. cbn. lia. Qed.

Lemma duo_inv_swap M1 M2 d : duo_inv M1 M2 d -> duo_inv M2 M1 (swap d).
Proof. intros [H1 H2 H3]. split; try done. intros x. rewrite cov_swap. done. Qed.

Lemma adds_swap l d d' : adds l d d' -> adds l (swap d) (swap d').
Proof.
  intros [H1 H2 H3]. split.
  - intros x. by rewrite !cov_swap.
  - unfold dtotal in *. cbn. lia.
  - eapply slots_kept_cov; [|exact H3]. intros x. by rewrite !cov_app, cov_swap.
Qed.

Lemma addable_swap l d : addable l d -> addable l (swap d).
Proof. intros [H1 H2 H3]. split; [intros x; by rewrite cov_swap|done|]. unfold dtotal in *. cbn. lia. Qed.

Lemma adds_refl d : adds [] d d.
Proof. by split. Qed.

Lemma adds_trans l1 l2 d1 d2 d3 : adds l1 d1 d2 -> adds l2 d2 d3 -> adds (l1 ++ l2) d1 d3.
Proof.
  intros [A2 A3 A4] [B2 B3 B4]. split.
  - intros x. rewrite B2, A2, cov_app. lia.
  - rewrite B3, A3, seg_size_app. lia.
  - eapply slots_kept_trans; (eapply slots_kept_cov; [|eassumption]); intros x;
      rewrite !cov_app; pose proof (cov_nonneg l1 x); pose proof (cov_nonneg l2 x);
      pose proof (cov_nonneg (dsegs d1) x); [lia|]. rewrite A2. lia.
Qed.

(** The same addresses, in other segments. *)
Lemma adds_same l l' d d' :
  (forall x, cov l x = cov l' x) -> seg_size l = seg_size l' -> adds l d d' -> adds l' d d'.
Proof.
  intros Hc Hs [H1 H2 H3]. split; [intros x; by rewrite H1, Hc|lia|].
  eapply slots_kept_cov; [|exact H3]. intros x. by rewrite !cov_app, Hc.
Qed.

Lemma addable_same l l' d :
  (forall x, cov l x = cov l' x) -> seg_size l = seg_size l' -> addable l d -> addable l' d.
Proof. intros Hc Hs [H1 H2 H3]. split; [intros x; rewrite <- Hc; apply H1|intros x; rewrite <- Hc; apply H2|lia]. Qed.

Lemma addable_frame l1 l2 d d' : addable (l1 ++ l2) d -> adds l1 d d' -> addable l2 d'.
Proof.
  intros [H1 H2 H3] [A2 A3 (A4 & _)]. split.
  - intros x. rewrite A2. specialize (H1 x). rewrite cov_app in H1. lia.
  - intros x Hx. specialize (H1 x). specialize (H2 x). rewrite cov_app in H1, H2.
    pose proof (cov_nonneg l1 x). pose proof (cov_nonneg (dsegs d) x). rewrite A4; [apply H2; lia|].
    rewrite cov_app. lia.
  - rewrite A3. rewrite seg_size_app in H3. lia.
Qed.

Lemma addable_app_l l1 l2 d : 0 <= seg_size l2 -> addable (l1 ++ l2) d -> addable l1 d.
Proof.
  intros Hs [H1 H2 H3]. rewrite seg_size_app in H3. split; [| |lia].
  - intros x. specialize (H1 x). rewrite cov_app in H1. pose proof (cov_nonneg l2 x). lia.
  - intros x Hx. apply H2. rewrite cov_app. pose proof (cov_nonneg l2 x). lia.
Qed.

Lemma addable_app_r l1 l2 d : 0 <= seg_size l1 -> addable (l1 ++ l2) d -> addable l2 d.
Proof.
  intros Hs Ha. apply (addable_app_l l2 l1); [done|]. eapply addable_same; [| |exact Ha].
  - intros x. rewrite !cov_app. lia.
  - rewrite !seg_size_app. lia.
Qed.

(** Inserting a chunk into the second set. *)
Lemma duo_insert M1 M2 d a o :
  duo_inv M1 M2 d -> (o < M2)%nat -> chunk_ok (duo_slots d) (mkChunk a o) -> addable [(a, size_of_order o)] d ->
  exists s sl, insert_chunk (snd_set d) a o (duo_slots d) = Ret (s, sl) /\
    let d' := mkDuo (fst_set d) s sl in duo_inv M1 M2 d' /\ adds [(a, size_of_order o)] d d'.
Proof.
  intros [Hl Hg Hc] Ho Hok [Hd Hu Ht]. cbn [seg_size] in Ht. unfold dtotal in Ht.
  pose proof (set_total_nonneg _ _ _ Hl). pose proof (size_of_order_pos o).
  assert (forall x, ind a (size_of_order o) x + cov (set_segs (fst_set d)) x + cov (set_segs (snd_set d)) x <= 1) as Hd'.
  { intros x. specialize (Hd x). unfold dsegs in Hd. rewrite cov_app, cov_range in Hd. lia. }
  destruct (insert_chunk_spec M2 (snd_set d) (duo_slots d) a o Hg Ho Hok) as (s & sl & E & Hs & Htot & Hcov & Hk); [|lia|].
  { intros x Hx. specialize (Hd' x). specialize (Hu x). rewrite cov_range in Hu.
    pose proof (cov_nonneg (set_segs (fst_set d)) x). pose proof (cov_nonneg (set_segs (snd_set d)) x).
    split; [unfold set_cov; fold (set_segs (snd_set d)); lia|apply Hu; lia]. }
  change (forall x, cov (set_segs s) x = ind a (size_of_order o) x + cov (set_segs (snd_set d)) x) in Hcov.
  exists s, sl. split; [done|]. split; split; cbn [fst_set snd_set duo_slots].
  - eapply set_inv_frame; [exact Hk| |exact Hl]. intros x Hx. specialize (Hd' x). cbn [cov]. fold (set_segs (snd_set d)).
    pose proof (cov_nonneg (set_segs (snd_set d)) x). pose proof (ind_bounds a (size_of_order o) x). lia.
  - done.
  - intros x. unfold dsegs. cbn [fst_set snd_set]. rewrite cov_app, Hcov. specialize (Hd' x). lia.
  - intros x. unfold dsegs. cbn [fst_set snd_set]. rewrite !cov_app, Hcov, cov_range. lia.
  - unfold dtotal. cbn [fst_set snd_set seg_size]. lia.
  - eapply slots_kept_cov; [|exact Hk]. intros x. unfold dsegs. rewrite !cov_app, cov_range. cbn [cov]. fold (set_segs (snd_set d)).
    pose proof (cov_nonneg (set_segs (fst_set d)) x). pose proof (cov_nonneg (set_segs (snd_set d)) x).
    pose proof (ind_bounds a (size_of_order o) x). lia.
Qed.

(** What is kept when the segments [l] have been taken out of the sets. *)
Record takes (l : list (Z * Z)) (d d' : Duo) : Prop := {
  tk_cov : forall x, cov (dsegs d) x = cov l x + cov (dsegs d') x;
  tk_total : dtotal d = seg_size l + dtotal d';
  tk_unused : forall x, 0 < cov l x -> x ∉ used (duo_slots d');
  tk_slots : slots_kept (dsegs d) (duo_slots d) (duo_slots d')
}.

Lemma takes_swap l d d' : takes l d d' -> takes l (swap d) (swap d').
Proof.
  intros [H1 H2 H3 H4]. split; [| |done|].
  - intros x. by rewrite !cov_swap.
  - unfold dtotal in *. cbn. lia.
  - eapply slots_kept_cov; [|exact H4]. intros x. by rewrite cov_swap.
Qed.

Lemma takes_addable M1 M2 l d d' :
  duo_inv M1 M2 d -> dtotal d < u64_modulus -> takes l d d' -> addable l d'.
Proof.
  intros Hd Ht [H1 H2 H3 H4]. split; [|done|lia]. intros x. rewrite <- H1. apply (di_cov _ _ _ Hd).
Qed.

Lemma takes_same l l' d d' :
  (forall x, cov l x = cov l' x) -> seg_size l = seg_size l' -> takes l d d' -> takes l' d d'.
Proof.
  intros Hc Hs [H1 H2 H3 H4]. split; [intros x; rewrite <- Hc; apply H1|lia|intros x; rewrite <- Hc; apply H3|done].
Qed.

(** Giving back a part of what has been taken. *)
Lemma takes_adds l k d1 d2 d3 :
  (forall x, cov (dsegs d1) x <= 1) -> takes (l ++ k) d1 d2 -> adds k d2 d3 -> takes l d1 d3.
Proof.
  intros H0 [H1 H2 H3 H4] [A1 A2 A3]. split.
  - intros x. rewrite H1, A1, cov_app. lia.
  - rewrite seg_size_app in H2. lia.
  - intros x Hx. destruct A3 as (A3 & _). specialize (H0 x). rewrite H1, cov_app in H0. specialize (H3 x). rewrite cov_app in H3.
    pose proof (cov_nonneg k x). pose proof (cov_nonneg (dsegs d2) x). rewrite A3; [apply H3; lia|]. rewrite cov_app. lia.
  - eapply slots_kept_trans; [exact H4|]. eapply slots_kept_cov; [|exact A3]. intros x. rewrite H1, !cov_app.
    pose proof (cov_nonneg k x). pose proof (cov_nonneg l x). pose proof (cov_nonneg (dsegs d2) x). lia.
Qed.

Lemma takes_adds_all l d1 d2 d3 : takes l d1 d2 -> adds l d2 d3 -> adds [] d1 d3.
Proof.
  intros [H1 H2 H3 H4] [A1 A2 A3]. split.
  - intros x. rewrite A1, H1. done.
  - cbn. lia.
  - eapply slots_kept_trans; (eapply slots_kept_cov; [|eassumption]); intros x; rewrite !cov_app; cbn [cov]; [lia|].
    rewrite H1. pose proof (cov_nonneg l x). pose proof (cov_nonneg (dsegs d2) x). lia.
Qed.

(** Allocating from the first set. *)
Lemma duo_alloc M1 M2 d o :
  duo_inv M1 M2 d ->
  exists s sl r, alloc_chunk (fst_set d) o (duo_slots d) = Ret (s, sl, r) /\
    let d' := mkDuo s (snd_set d) sl in duo_inv M1 M2 d' /\
    match r with
    | None => d' = d /\ forall c, c ∈ concat (lists (fst_set d)) -> (c_order c < o)%nat
    | Some a => chunk_ok (duo_slots d) (mkChunk a o) /\ takes [(a, size_of_order o)] d d'
    end.
Proof.
  intros [Hl Hg Hc]. destruct (alloc_chunk_spec M1 (fst_set d) (duo_slots d) o Hl) as (s & sl & r & E & Hs & Hr).
  exists s, sl, r. split; [done|]. destruct r as [a|].
  2:{ destruct Hr as (-> & -> & Hno). cbn zeta. replace (mkDuo (fst_set d) (snd_set d) (duo_slots d)) with d by by destruct d.
      split_and!; [by split|done|done]. }
  destruct Hr as (Hok & Htot & Hcov & Hun & Hk). change (slots_kept (set_segs (fst_set d)) (duo_slots d) sl) in Hk.
  change (forall x, cov (set_segs (fst_set d)) x = ind a (size_of_order o) x + cov (set_segs s) x) in Hcov.
  split; [split|split; [done|split]]; cbn [fst_set snd_set duo_slots].
  - done.
  - eapply set_inv_frame; [exact Hk| |exact Hg]. intros x Hx. specialize (Hc x). unfold dsegs in Hc. rewrite cov_app in Hc.
    pose proof (cov_nonneg (set_segs (fst_set d)) x). lia.
  - intros x. specialize (Hc x). unfold dsegs in *. cbn [fst_set snd_set]. rewrite cov_app in *. rewrite Hcov in Hc.
    pose proof (ind_bounds a (size_of_order o) x). lia.
  - intros x. unfold dsegs. cbn [fst_set snd_set]. rewrite !cov_app, Hcov, cov_range. lia.
  - unfold dtotal. cbn [fst_set snd_set seg_size]. lia.
  - intros x. rewrite cov_range. intros Hx. apply Hun. pose proof (ind_bounds a (size_of_order o) x). lia.
  - eapply slots_kept_cov; [|exact Hk]. intros x. unfold dsegs. rewrite cov_app.
    pose proof (cov_nonneg (set_segs (fst_set d)) x). pose proof (cov_nonneg (set_segs (snd_set d)) x). lia.
Qed.

Lemma pieces_cons a o l : pieces ((a, o) :: l) = [(a, size_of_order o)] ++ pieces l.
Proof. done. Qed.

Lemma pieces_nonneg l : 0 <= seg_size (pieces l).
Proof. induction l as [|[a o] l IH]; [done|]. cbn. pose proof (size_of_order_pos o). fold (pieces l). lia. Qed.

Lemma chunk_ok_kept cs sl sl' c : slots_kept cs sl sl' -> chunk_ok sl c -> chunk_ok sl' c.
Proof. intros (_ & E1 & E2) (H1 & H2 & H3). split_and!; [done|lia|lia]. Qed.

(** Inserting several chunks of one order. *)
Lemma duo_insert_all M1 M2 k addrs d :
  duo_inv M1 M2 d -> (k < M2)%nat -> Forall (fun a => chunk_ok (duo_slots d) (mkChunk a k)) addrs ->
  addable (pieces ((fun a => (a, k)) <$> addrs)) d ->
  exists s sl, for_each (insert_addr k) addrs (snd_set d, duo_slots d) = Ret (s, sl) /\
    let d' := mkDuo (fst_set d) s sl in duo_inv M1 M2 d' /\ adds (pieces ((fun a => (a, k)) <$> addrs)) d d'.
Proof.
  revert d. induction addrs as [|a addrs IH]; intros d Hd Hk Hok Ha; cbn [for_each].
  { exists (snd_set d), (duo_slots d). split; [done|]. replace (mkDuo (fst_set d) (snd_set d) (duo_slots d)) with d by by destruct d.
    split; [done|apply adds_refl]. }
  apply Forall_cons in Hok as [Hok1 Hok]. cbn [fmap list_fmap] in *. rewrite pieces_cons in *.
  destruct (duo_insert M1 M2 d a k Hd Hk Hok1) as (s & sl & E & Hd1 & Ha1).
  { eapply addable_app_l; [|exact Ha]. apply pieces_nonneg. }
  change (insert_addr k (snd_set d, duo_slots d) a) with (insert_chunk (snd_set d) a k (duo_slots d)).
  rewrite E. cbn [mbind run_bind].
  destruct (IH (mkDuo (fst_set d) s sl)) as (s' & sl' & E' & Hd2 & Ha2).
  { done. }
  { done. }
  { eapply Forall_impl; [exact Hok|]. intros b. apply (chunk_ok_kept _ _ _ _ (ad_slots _ _ _ Ha1)). }
  { by eapply addable_frame. }
  exists s', sl'. split; [exact E'|]. split; [done|]. by eapply adds_trans.
Qed.

(** Moving a chunk that has just been taken into the second set. *)
Lemma balance_move M1 M2 d addr o :
  duo_inv M1 M2 d -> (0 < M2)%nat -> chunk_ok (duo_slots d) (mkChunk addr o) -> addable [(addr, size_of_order o)] d ->
  exists s sl,
    (if (M2 <=? o)%nat then
       addrs ← split_to_order addr o (M2 - 1);
       '(b, sl) ← for_each (insert_addr (M2 - 1)) addrs (snd_set d, duo_slots d);
       Ret (fst_set d, b, sl)
     else
       '(b, sl) ← insert_chunk (snd_set d) addr o (duo_slots d);
       Ret (fst_set d, b, sl)) = Ret (fst_set d, s, sl) /\
    let d' := mkDuo (fst_set d) s sl in duo_inv M1 M2 d' /\ adds [(addr, size_of_order o)] d d'.
Proof.
  intros Hd HM Hok Ha. destruct (Nat.leb_spec M2 o) as [Hle|Hlt].
  - pose proof Hok as (Hal & Hlo & Hhi). cbn [c_addr c_order] in *.
    destruct (split_to_order_spec addr o (M2 - 1) Hal ltac:(lia)) as (l & -> & Hcov & Hsz & Hps). cbn [mbind run_bind].
    assert (forall x, cov (pieces ((fun a => (a, (M2 - 1)%nat)) <$> l)) x = cov [(addr, size_of_order o)] x) as Hc
      by (intros x; by rewrite Hcov, cov_range).
    assert (seg_size (pieces ((fun a => (a, (M2 - 1)%nat)) <$> l)) = seg_size [(addr, size_of_order o)]) as Hs by (cbn [seg_size]; lia).
    destruct (duo_insert_all M1 M2 (M2 - 1) l d Hd ltac:(lia)) as (s & sl & -> & Hd' & Ha').
    { eapply Forall_impl; [exact Hps|]. intros a (H1 & H2 & H3). cbn [fst snd] in *. split_and!; cbn [c_addr c_order]; [done|lia|lia]. }
    { eapply addable_same; [| |exact Ha]; [intros x; by rewrite Hc|lia]. }
    cbn [mbind run_bind]. exists s, sl. split; [done|]. split; [done|]. by eapply adds_same.
  - destruct (duo_insert M1 M2 d addr o Hd Hlt Hok Ha) as (s & sl & -> & Hd' & Ha'). cbn [mbind run_bind].
    exists s, sl. by split.
Qed.

(** The second branch of [balance_to]. *)
Lemma balance_to_retry o a b sl a' sl' :
  alloc_chunk a (S (S o)) sl = Ret (a', sl', None) ->
  balance_to (S (S o)) a b sl = ('(a, b, sl) ← balance_to (S o) a' b sl'; balance_to (S o) a b sl).
Proof.
  intros E. remember (S o) as k eqn:Ek. cbn [balance_to]. rewrite E. cbn [mbind run_bind]. by rewrite Ek.
Qed.

(** Balancing moves chunks from one set to the other; nothing is lost. *)
Lemma balance_to_spec M1 M2 o d :
  duo_inv M1 M2 d -> (0 < M2)%nat -> dtotal d < u64_modulus ->
  exists a b sl, balance_to o (fst_set d) (snd_set d) (duo_slots d) = Ret (a, b, sl) /\
    duo_inv M1 M2 (mkDuo a b sl) /\ adds [] d (mkDuo a b sl).
Proof.
  intros Hd HM. revert d Hd. induction o as [o IH] using lt_wf_ind; intros d Hd Ht.
  destruct (duo_alloc M1 M2 d o Hd) as (s & sl & r & E & Hd1 & Hr).
  assert (length (lists (snd_set d)) = M2) as Hlen by apply (si_len _ _ _ (di_snd _ _ _ Hd)).
  destruct r as [addr|].
  - destruct Hr as [Hok Htk].
    destruct (balance_move M1 M2 (mkDuo s (snd_set d) sl) addr o Hd1 HM) as (b & sl' & Em & Hd2 & Ha2).
    { eapply chunk_ok_kept; [exact (tk_slots _ _ _ Htk)|done]. }
    { exact (takes_addable M1 M2 _ d _ Hd Ht Htk). }
    exists s, b, sl'. split; [|split; [done|by eapply takes_adds_all]].
    destruct o as [|o]; cbn [balance_to]; rewrite E; cbn [mbind run_bind]; rewrite Hlen; exact Em.
  - destruct Hr as [Ed _]. rewrite <- Ed in E |- *. cbn [fst_set snd_set duo_slots] in *.
    destruct o as [|[|o]].
    1,2: exists s, (snd_set d), sl; cbn [balance_to]; rewrite E; cbn [mbind run_bind]; split_and!; [done|done|apply adds_refl].
    destruct (IH (S o) ltac:(lia) d Hd Ht) as (a1 & b1 & sl1 & E1 & H1 & A1). rewrite <- Ed in E1, A1. cbn [fst_set snd_set duo_slots] in E1.
    destruct (IH (S o) ltac:(lia) (mkDuo a1 b1 sl1) H1) as (a2 & b2 & sl2 & E2 & H2 & A2).
    { rewrite (ad_total _ _ _ A1), Ed. cbn [seg_size]. lia. }
    exists a2, b2, sl2. split; [|split; [done|by eapply (adds_trans [] [])]].
    rewrite (balance_to_retry _ _ _ _ _ _ E). cbn [mbind run_bind]. rewrite E1. exact E2.
Qed.

(** ** The pools *)

Definition duo (p : PoolState) : Duo := mkDuo (local_pool p) (global_pool p) (slots p).

Definition pool_inv (p : PoolState) : Prop := duo_inv MAX_LOCAL_BUDDY_ORDER MAX_BUDDY_ORDER (duo p).

(** All frames lie below 16 TiB, so that no chunk exceeds the largest order. *)
Definition slots_ok (sl : Slots) : Prop := 0 <= min_paddr sl /\ max_paddr sl < size_of_order MAX_BUDDY_ORDER.

(** A range of whole frames that have slots. *)
Definition range_ok (sl : Slots) (r : Z * Z) : Prop :=
  fst r mod PAGE_SIZE = 0 /\ snd r mod PAGE_SIZE = 0 /\ min_paddr sl <= fst r /\ 0 <= snd r /\
  fst r + snd r <= max_paddr sl.

Lemma range_ok_kept cs sl sl' r : slots_kept cs sl sl' -> range_ok sl r -> range_ok sl' r.
Proof. intros (_ & E1 & E2) (H1 & H2 & H3 & H4 & H5). split_and!; try done; lia. Qed.

Lemma slots_ok_kept cs sl sl' : slots_kept cs sl sl' -> slots_ok sl -> slots_ok sl'.
Proof. intros (_ & E1 & E2) [H1 H2]. split; lia. Qed.

Lemma max_size : size_of_order MAX_BUDDY_ORDER = 2 ^ 44.
Proof. by rewrite size_of_order_pow. Qed.

(** A piece of a range is a chunk of a possible order. *)
Lemma piece_chunk_ok sl a n piece :
  slots_ok sl -> range_ok sl (a, n) -> piece_ok a n piece ->
  chunk_ok sl (mkChunk (fst piece) (snd piece)) /\ (snd piece < MAX_BUDDY_ORDER)%nat.
Proof.
  intros [S1 S2] (_ & _ & R1 & R2 & R3) (H1 & H2 & H3). cbn [fst snd] in *.
  split; [split_and!; cbn [c_addr c_order]; [done|lia|lia]|].
  apply Nat.nle_gt. intros Hle. apply size_of_order_le in Hle. lia.
Qed.

(** The state of the lock aside, what the operations on the pools do. *)
Definition pool_adds (l : list (Z * Z)) (p p' : PoolState) : Prop :=
  pool_inv p' /\ adds l (duo p) (duo p') /\ pool_size p' = pool_size p.

Lemma insert_piece_spec p piece :
  pool_inv p -> chunk_ok (slots p) (mkChunk (fst piece) (snd piece)) -> (snd piece < MAX_BUDDY_ORDER)%nat ->
  addable (pieces [piece]) (duo p) ->
  exists p', insert_piece p piece = Ret p' /\ pool_adds (pieces [piece]) p p'.
Proof.
  destruct piece as [a o]. cbn [fst snd]. intros Hp Hok Ho Ha. unfold insert_piece.
  destruct (Nat.leb_spec MAX_LOCAL_BUDDY_ORDER o) as [Hle|Hlt].
  - destruct (duo_insert _ _ (duo p) a o Hp Ho Hok Ha) as (s & sl & E & Hd & Had). cbn [snd_set duo duo_slots] in E.
    rewrite E. cbn [mbind run_bind]. eexists. split; [done|]. by split.
  - apply duo_inv_swap in Hp. apply addable_swap in Ha.
    destruct (duo_insert _ _ (swap (duo p)) a o Hp Hlt Hok Ha) as (s & sl & E & Hd & Had). cbn [swap fst_set snd_set duo duo_slots] in E.
    rewrite E. cbn [mbind run_bind]. eexists. split; [done|]. apply duo_inv_swap in Hd. apply adds_swap in Had. by split.
Qed.

Lemma insert_pieces_spec l p :
  pool_inv p -> Forall (fun q => chunk_ok (slots p) (mkChunk (fst q) (snd q)) /\ (snd q < MAX_BUDDY_ORDER)%nat) l ->
  addable (pieces l) (duo p) ->
  exists p', for_each insert_piece l p = Ret p' /\ pool_adds (pieces l) p p'.
Proof.
  revert p. induction l as [|q l IH]; intros p Hp Hok Ha; cbn [for_each].
  { exists p. split; [done|]. split_and!; [done|apply adds_refl|done]. }
  apply Forall_cons in Hok as [[H1 H2] Hok]. change (pieces (q :: l)) with (pieces [q] ++ pieces l) in *.
  destruct (insert_piece_spec p q Hp H1 H2) as (p1 & -> & Hp1 & A1 & E1).
  { eapply addable_app_l; [apply pieces_nonneg|exact Ha]. }
  cbn [mbind run_bind]. destruct (IH p1 Hp1) as (p2 & -> & Hp2 & A2 & E2).
  { eapply Forall_impl; [exact Hok|]. intros c [Hc Hc']. split; [|done]. by eapply chunk_ok_kept; [exact (ad_slots _ _ _ A1)|]. }
  { by eapply addable_frame. }
  exists p2. split; [done|]. split_and!; [done|by eapply adds_trans|congruence].
Qed.

Lemma insert_global_spec l p :
  pool_inv p -> Forall (fun q => chunk_ok (slots p) (mkChunk (fst q) (snd q)) /\ (snd q < MAX_BUDDY_ORDER)%nat) l ->
  addable (pieces l) (duo p) ->
  exists p', for_each (fun p '(addr, order) =>
      '(s, sl) ← insert_chunk (global_pool p) addr order (slots p); Ret (with_global p s sl)) l p = Ret p' /\
    pool_adds (pieces l) p p'.
Proof.
  revert p. induction l as [|[a o] l IH]; intros p Hp Hok Ha; cbn [for_each].
  { exists p. split; [done|]. split_and!; [done|apply adds_refl|done]. }
  apply Forall_cons in Hok as [[H1 H2] Hok]. change (pieces ((a, o) :: l)) with ([(a, size_of_order o)] ++ pieces l) in *.
  destruct (duo_insert _ _ (duo p) a o Hp H2 H1) as (s & sl & E & Hp1 & A1).
  { eapply addable_app_l; [apply pieces_nonneg|exact Ha]. }
  cbn [snd_set duo duo_slots] in E. rewrite E. cbn [mbind run_bind].
  destruct (IH (with_global p s sl) Hp1) as (p2 & -> & Hp2 & A2 & E2).
  { eapply Forall_impl; [exact Hok|]. intros c [Hc Hc']. split; [|done]. by eapply chunk_ok_kept; [exact (ad_slots _ _ _ A1)|]. }
  { by eapply addable_frame. }
  exists p2. split; [done|]. split_and!; [done|by eapply adds_trans|done].
Qed.

Lemma range_split sl a n :
  slots_ok sl -> range_ok sl (a, n) ->
  exists l, split_to_chunks a n = Ret l /\
    (forall x, cov (pieces l) x = cov [(a, n)] x) /\ seg_size (pieces l) = seg_size [(a, n)] /\
    Forall (fun q => chunk_ok sl (mkChunk (fst q) (snd q)) /\ (snd q < MAX_BUDDY_ORDER)%nat) l.
Proof.
  intros Hs Hr. pose proof Hs as [S1 S2]. pose proof Hr as (R1 & R2 & R3 & R4 & R5). cbn [fst snd] in *.
  rewrite max_size in S2.
  destruct (split_to_chunks_spec a n) as (l & E & Hc & Hz & Hf); [lia|lia|unfold u64_modulus; lia|done|done|].
  exists l. split; [done|]. split_and!.
  - intros x. by rewrite Hc, cov_range.
  - cbn [seg_size]. lia.
  - eapply Forall_impl; [exact Hf|]. intros q Hq. by eapply piece_chunk_ok.
Qed.

Lemma do_dealloc_spec l p :
  pool_inv p -> slots_ok (slots p) -> Forall (range_ok (slots p)) l -> addable l (duo p) ->
  exists p', do_dealloc p l = Ret p' /\ pool_adds l p p'.
Proof.
  unfold do_dealloc. revert p. induction l as [|[a n] l IH]; intros p Hp Hs Hr Ha; cbn [for_each].
  { exists p. split; [done|]. split_and!; [done|apply adds_refl|done]. }
  apply Forall_cons in Hr as [Hr1 Hr]. change ((a, n) :: l) with ([(a, n)] ++ l) in *.
  destruct (range_split (slots p) a n Hs Hr1) as (cs & -> & Hc & Hz & Hf). cbn [mbind run_bind].
  assert (0 <= seg_size l) as Hnn.
  { clear -Hr. induction Hr as [|[] l (_ & _ & _ & H & _) _ IH]; [done|]. cbn in *. lia. }
  destruct (insert_pieces_spec cs p Hp Hf) as (p1 & -> & Hp1 & A1 & E1).
  { eapply addable_same; [| |eapply addable_app_l; [exact Hnn|exact Ha]]; [intros x; by rewrite Hc|done]. }
  apply (adds_same _ [(a, n)]) in A1; [|done..]. cbn [mbind run_bind].
  pose proof (ad_slots _ _ _ A1) as Hk. cbn [duo duo_slots] in Hk.
  destruct (IH p1 Hp1) as (p2 & -> & Hp2 & A2 & E2).
  { by eapply slots_ok_kept. }
  { eapply Forall_impl; [exact Hr|]. intros r. by apply (range_ok_kept _ _ _ _ Hk). }
  { by eapply addable_frame. }
  exists p2. split; [done|]. split_and!; [done|by eapply adds_trans|congruence].
Qed.

Lemma lesser_order_of_small size : 0 <= size < PAGE_SIZE -> lesser_order_of size = Panic.
Proof. intros H. unfold lesser_order_of. by rewrite Z.div_small. Qed.

Section pool_specs.
Context (num_cpus : Z) (Hcpus : 0 < num_cpus).

(** The size that balancing moves, when it moves something, is at least a page. *)
Definition balance_fits (p : PoolState) : bool :=
  let global_size := get_global_size p in
  let expected := cache_expected_size num_cpus global_size in
  let local_size := total_size (local_pool p) in
  if cache_maximal_size num_cpus global_size <=? local_size then
    (local_size =? 0) || (PAGE_SIZE <=? local_size - expected)
  else if local_size <? cache_minimal_size num_cpus global_size then
    (global_size =? 0) || (PAGE_SIZE <=? expected - local_size)
  else true.

Record bounded (p : PoolState) : Prop := {
  bd_total : dtotal (duo p) < u64_modulus;
  bd_snapshot : 0 <= pool_size p < u64_modulus
}.

Lemma global_size_bound p : pool_inv p -> bounded p -> 0 <= get_global_size p < u64_modulus.
Proof.
  intros Hp [Ht Hs]. unfold get_global_size. destruct (locked p); [|done].
  pose proof (set_total_nonneg _ _ _ (di_fst _ _ _ Hp)). pose proof (set_total_nonneg _ _ _ (di_snd _ _ _ Hp)).
  unfold dtotal in Ht. cbn [duo fst_set snd_set] in *. lia.
Qed.

Lemma expected_bounds g : 0 <= g -> 0 <= cache_expected_size num_cpus g <= g.
Proof.
  intros Hg. unfold cache_expected_size, CACHE_EXPECTED_PORTION.
  assert (0 <= g / num_cpus) by (apply Z.div_pos; lia).
  assert (g / num_cpus <= g) by (apply Z.div_le_upper_bound; nia).
  assert (0 <= g / num_cpus / 2) by (apply Z.div_pos; lia).
  assert (g / num_cpus / 2 <= g / num_cpus) by (apply Z.div_le_upper_bound; lia). lia.
Qed.

(** A move between the pools. *)
Lemma balance_local p o :
  pool_inv p -> bounded p ->
  exists p', ('(l, g, sl) ← balance_to o (local_pool p) (global_pool p) (slots p);
              Ret (mkPool l g true (pool_size p) sl)) = Ret p' /\ pool_adds [] p p'.
Proof.
  intros Hp [Ht _]. destruct (balance_to_spec _ _ o (duo p) Hp ltac:(unfold MAX_BUDDY_ORDER; lia) Ht) as (a & b & sl & E & Hd & Ha).
  cbn [duo fst_set snd_set duo_slots] in E. rewrite E. cbn [mbind run_bind]. eexists. split; [done|]. by split.
Qed.

Lemma balance_global p o :
  pool_inv p -> bounded p ->
  exists p', ('(g, l, sl) ← balance_to o (global_pool p) (local_pool p) (slots p);
              Ret (mkPool l g true (pool_size p) sl)) = Ret p' /\ pool_adds [] p p'.
Proof.
  intros Hp [Ht _]. apply duo_inv_swap in Hp.
  destruct (balance_to_spec _ _ o (swap (duo p)) Hp ltac:(unfold MAX_LOCAL_BUDDY_ORDER; lia)) as (a & b & sl & E & Hd & Ha).
  { unfold dtotal in *. cbn in *. lia. }
  cbn [duo swap fst_set snd_set duo_slots] in E. rewrite E. cbn [mbind run_bind]. eexists. split; [done|].
  apply duo_inv_swap in Hd. apply adds_swap in Ha. by split.
Qed.

(** Balancing keeps the pools, or panics because it would move less than a page. *)
Lemma balance_spec p :
  pool_inv p -> bounded p ->
  if balance_fits p then exists p', balance num_cpus p = Ret p' /\ pool_adds [] p p' else balance num_cpus p = Panic.
Proof.
  intros Hp Hb. pose proof (global_size_bound p Hp Hb) as Hg. pose proof (expected_bounds _ (proj1 Hg)) as He.
  pose proof (set_total_nonneg _ _ _ (di_fst _ _ _ Hp)) as Hl. pose proof (set_total_nonneg _ _ _ (di_snd _ _ _ Hp)) as Hg0.
  pose proof (bd_total p Hb) as Ht. unfold dtotal in Ht. cbn [duo fst_set snd_set] in *.
  unfold balance, balance_fits, cache_maximal_size, cache_minimal_size, CACHE_MAXIMAL_MULTIPLIER, CACHE_MINIMAL_PORTION.
  set (g := get_global_size p) in *. set (e := cache_expected_size num_cpus g) in *. set (l := total_size (local_pool p)) in *.
  assert (0 <= e / 8 <= e) as He8 by (split; [apply Z.div_pos; lia|apply Z.div_le_upper_bound; lia]).
  unfold u64_modulus in *.
  assert (exists p', Ret p = Ret p' /\ pool_adds [] p p') as Hkeep.
  { exists p. split; [done|]. split_and!; [done|apply adds_refl|done]. }
  destruct (Z.leb_spec (e * 2) l).
  - destruct (Z.eqb_spec l 0); [done|]. cbn [orb]. unfold checked_sub. rewrite (proj2 (Z.leb_le e l)) by lia. cbn [mbind run_bind].
    destruct (Z.leb_spec PAGE_SIZE (l - e)).
    + destruct (lesser_order_of_spec (l - e)) as (o & -> & _); [lia|]. cbn [mbind run_bind]. by apply balance_local.
    + by rewrite lesser_order_of_small by lia.
  - destruct (Z.ltb_spec l (e / 8)); [|done]. destruct (Z.eqb_spec g 0); [done|]. cbn [orb].
    unfold checked_sub. rewrite (proj2 (Z.leb_le l e)) by lia. cbn [mbind run_bind].
    destruct (Z.leb_spec PAGE_SIZE (e - l)).
    + destruct (lesser_order_of_spec (e - l)) as (o & -> & _); [lia|]. cbn [mbind run_bind]. by apply balance_global.
    + by rewrite lesser_order_of_small by lia.
Qed.

(** Looking for a chunk, first locally. *)
Lemma take_chunk_spec p o :
  pool_inv p -> bounded p ->
  exists p' r, take_chunk p o = Ret (p', r) /\ pool_inv p' /\ pool_size p' = pool_size p /\
    match r with
    | None => duo p' = duo p /\ (forall c, c ∈ concat (lists (global_pool p)) -> (c_order c < o)%nat)
    | Some a => chunk_ok (slots p) (mkChunk a o) /\ takes [(a, size_of_order o)] (duo p) (duo p')
    end.
Proof.
  intros Hp Hb. unfold take_chunk.
  assert (exists p1 r1, (if (o <? MAX_LOCAL_BUDDY_ORDER)%nat then
      '(s, sl, r) ← alloc_chunk (local_pool p) o (slots p); Ret (with_local p s sl, r) else Ret (p, None)) = Ret (p1, r1) /\
      pool_inv p1 /\ pool_size p1 = pool_size p /\
      match r1 with None => duo p1 = duo p
      | Some a => chunk_ok (slots p) (mkChunk a o) /\ takes [(a, size_of_order o)] (duo p) (duo p1) end)
    as (p1 & r1 & -> & Hp1 & E1 & Hr1).
  { destruct (o <? MAX_LOCAL_BUDDY_ORDER)%nat; [|by exists p, None].
    destruct (duo_alloc _ _ (duo p) o Hp) as (s & sl & r & E & Hd & Hr). cbn [duo fst_set snd_set duo_slots] in *.
    rewrite E. cbn [mbind run_bind]. do 2 eexists. split; [done|]. split_and!; [done|done|]. destruct r; [done|by destruct Hr]. }
  cbn [mbind run_bind]. destruct r1 as [a|]; [by exists p1, (Some a)|].
  apply duo_inv_swap in Hp1 as Hp1'. destruct (duo_alloc _ _ (swap (duo p1)) o Hp1') as (s & sl & r & E & Hd & Hr).
  cbn [duo swap fst_set snd_set duo_slots] in *. rewrite E. cbn [mbind run_bind]. apply duo_inv_swap in Hd.
  assert (global_pool p1 = global_pool p /\ slots p1 = slots p) as [Eg Es] by (unfold duo in Hr1; by simplify_eq).
  do 2 eexists. split; [done|]. split_and!; [done|done|]. destruct r as [a|].
  - destruct Hr as [Hok Htk]. apply takes_swap in Htk. rewrite <- Es. split; [done|]. rewrite <- Hr1. exact Htk.
  - destruct Hr as [Ed Hno]. rewrite Eg in Hno. split; [|done]. rewrite <- Hr1. unfold duo, with_global, swap in *. cbn in *. by simplify_eq.
Qed.

Record layout_ok (layout : Layout) : Prop := {
  lo_size : 0 < l_size layout < 2 ^ 63;
  lo_pages : l_size layout mod PAGE_SIZE = 0;
  lo_align : 0 < l_align layout < 2 ^ 63
}.

Definition layout_order (layout : Layout) : nat :=
  Nat.max (greater_order_of (l_size layout)) (greater_order_of (l_align layout)).

Lemma layout_order_size layout : layout_ok layout -> l_size layout <= size_of_order (layout_order layout).
Proof.
  intros [H1 H2 _]. destruct (greater_order_of_spec (l_size layout)) as (H & _); [lia|done|].
  etransitivity; [exact H|]. apply size_of_order_le. unfold layout_order. lia.
Qed.

(** The pools after [pools_alloc] without its last step. *)
Lemma alloc_and_trim p layout :
  pool_inv p -> bounded p -> slots_ok (slots p) -> layout_ok layout ->
  exists p1 r,
    ('(p, chunk_addr) ← take_chunk p (layout_order layout);
     p ← (match chunk_addr with
          | Some chunk_addr =>
              if l_size layout <? size_of_order (layout_order layout) then
                do_dealloc p [(chunk_addr + l_size layout, size_of_order (layout_order layout) - l_size layout)]
              else Ret p
          | None => Ret p
          end);
     Ret (p, chunk_addr)) = Ret (p1, r) /\ pool_inv p1 /\ bounded p1 /\
    match r with
    | None => duo p1 = duo p /\
        (forall c, c ∈ concat (lists (global_pool p)) -> (c_order c < layout_order layout)%nat)
    | Some a => chunk_ok (slots p) (mkChunk a (layout_order layout)) /\ takes [(a, l_size layout)] (duo p) (duo p1)
    end.
Proof.
  intros Hp Hb Hs Hlo. pose proof (layout_order_size layout Hlo) as Hsz. pose proof Hlo as [H1 H2 _].
  set (o := layout_order layout) in *. set (n := l_size layout) in *.
  destruct (take_chunk_spec p o Hp Hb) as (p1 & r & -> & Hp1 & E1 & Hr). cbn [mbind run_bind].
  destruct r as [a|].
  2:{ exists p1, None. destruct Hr as [Ed Hno]. split_and!; try done. split; [rewrite Ed; apply Hb|rewrite E1; apply Hb]. }
  destruct Hr as [Hok Htk]. pose proof Hok as (Hal & Hlo' & Hhi). cbn [c_addr c_order] in *.
  pose proof (tk_slots _ _ _ Htk) as Hk. cbn [duo duo_slots] in Hk. pose proof Hk as (_ & Emin & Emax).
  assert (forall p2, takes [(a, n)] (duo p) (duo p2) -> pool_size p2 = pool_size p1 -> bounded p2) as Hbd.
  { intros p2 Ht E2. split; [|rewrite E2, E1; apply Hb]. pose proof (tk_total _ _ _ Ht). pose proof (bd_total _ Hb).
    cbn [seg_size] in *. lia. }
  destruct (Z.ltb_spec n (size_of_order o)) as [Hlt|Hge].
  - set (rest := (a + n, size_of_order o - n)).
    assert (takes ([(a, n)] ++ [rest]) (duo p) (duo p1)) as Htk'.
    { eapply takes_same; [| |exact Htk].
      - intros x. rewrite cov_app, !cov_range. unfold rest. cbn [cov]. rewrite Z.add_0_r.
        replace (size_of_order o) with (n + (size_of_order o - n)) at 1 by lia. rewrite ind_split by lia. lia.
      - unfold rest. cbn [seg_size app]. lia. }
    destruct (do_dealloc_spec [rest] p1 Hp1) as (p2 & -> & Hp2 & A2 & E2).
    { by eapply slots_ok_kept. }
    { apply Forall_singleton. unfold rest. pose proof (size_of_order_pages o) as Ep. pose proof (mod_page _ _ Hal) as Hpa.
      split_and!; cbn [fst snd]; try lia.
      - rewrite Z.add_mod, Hpa, H2 by done. done.
      - rewrite Zminus_mod, H2, Ep, Z.mod_mul by done. done. }
    { apply (addable_app_r [(a, n)]); [cbn [seg_size]; lia|]. exact (takes_addable _ _ _ _ _ Hp (bd_total _ Hb) Htk'). }
    cbn [mbind run_bind].
    assert (takes [(a, n)] (duo p) (duo p2)) as Ht2.
    { eapply takes_adds; [|exact Htk'|exact A2]. apply (di_cov _ _ _ Hp). }
    exists p2, (Some a). split_and!; try done. by apply Hbd.
  - cbn [mbind run_bind]. assert (n = size_of_order o) as En by lia. rewrite <- En in Htk.
    exists p1, (Some a). split_and!; try done. by apply Hbd.
Qed.

Lemma pools_alloc_spec p layout :
  pool_inv p -> bounded p -> slots_ok (slots p) -> layout_ok layout ->
  exists p1 r,
    if balance_fits p1 then
      exists p', pools_alloc num_cpus p layout = Ret (p', r) /\ pool_inv p' /\ locked p' = false /\
        0 <= pool_size p' < u64_modulus /\
        match r with
        | None => adds [] (duo p) (duo p') /\
            (forall c, c ∈ concat (lists (global_pool p)) -> (c_order c < layout_order layout)%nat)
        | Some a => a mod size_of_order (layout_order layout) = 0 /\ range_ok (slots p) (a, l_size layout) /\
            takes [(a, l_size layout)] (duo p) (duo p')
        end
    else pools_alloc num_cpus p layout = Panic.
Proof.
  intros Hp Hb Hs Hlo. destruct (alloc_and_trim p layout Hp Hb Hs Hlo) as (p1 & r & E & Hp1 & Hb1 & Hr).
  exists p1, r. pose proof (balance_spec p1 Hp1 Hb1) as Hbal.
  assert (pools_alloc num_cpus p layout = (p ← balance num_cpus p1; Ret (drop_global_lock p, r))) as ->.
  { unfold pools_alloc. fold (layout_order layout). revert E.
    destruct (take_chunk p (layout_order layout)) as [[p0 a]| |]; cbn [mbind run_bind]; [|done..].
    destruct (match a with Some _ => _ | None => _ end) as [p2| |]; cbn [mbind run_bind]; [|done..]. by intros [= -> ->]. }
  destruct (balance_fits p1).
  2:{ by rewrite Hbal. }
  destruct Hbal as (p2 & -> & Hp2 & A2 & E2). cbn [mbind run_bind]. eexists. split; [done|].
  split; [exact Hp2|]. split; [done|]. split.
  { assert (bounded p2) as Hb2.
    { split; [|rewrite E2; apply Hb1]. rewrite (ad_total _ _ _ A2). cbn [seg_size]. pose proof (bd_total _ Hb1). lia. }
    exact (global_size_bound p2 Hp2 Hb2). }
  destruct r as [a|].
  - destruct Hr as [(Hal & Hlo' & Hhi) Htk]. cbn [c_addr c_order] in *. split; [done|]. split.
    + pose proof (layout_order_size layout Hlo). pose proof Hlo as [H1 H2 _].
      split_and!; cbn [fst snd]; [by eapply mod_page|done|done|lia|lia].
    + eapply (takes_adds _ []); [apply (di_cov _ _ _ Hp)|rewrite app_nil_r; exact Htk|exact A2].
  - destruct Hr as [Ed Hno]. rewrite Ed in A2. split; [exact A2|exact Hno].
Qed.

Lemma adds_bounded l p p' :
  adds l (duo p) (duo p') -> pool_size p' = pool_size p -> seg_size l + dtotal (duo p) < u64_modulus -> bounded p -> bounded p'.
Proof. intros A E H [H1 H2]. split; [|by rewrite E]. by rewrite (ad_total _ _ _ A). Qed.

Lemma pools_dealloc_spec p l :
  pool_inv p -> bounded p -> slots_ok (slots p) -> Forall (range_ok (slots p)) l -> addable l (duo p) ->
  exists p1,
    if balance_fits p1 then
      exists p', pools_dealloc num_cpus p l = Ret p' /\ pool_inv p' /\ locked p' = false /\
        0 <= pool_size p' < u64_modulus /\ adds l (duo p) (duo p')
    else pools_dealloc num_cpus p l = Panic.
Proof.
  intros Hp Hb Hs Hr Ha. unfold pools_dealloc.
  destruct (do_dealloc_spec l p Hp Hs Hr Ha) as (p1 & -> & Hp1 & A1 & E1). cbn [mbind run_bind].
  assert (bounded p1) as Hb1 by (eapply adds_bounded; [exact A1|done|apply Ha|done]).
  exists p1. pose proof (balance_spec p1 Hp1 Hb1) as Hbal. destruct (balance_fits p1); [|by rewrite Hbal].
  destruct Hbal as (p2 & -> & Hp2 & A2 & E2). cbn [mbind run_bind]. eexists. split; [done|].
  split; [exact Hp2|]. split; [done|]. split.
  - apply (global_size_bound p2 Hp2). eapply adds_bounded; [exact A2|done|apply Hb1|done].
  - rewrite <- (app_nil_r l). eapply adds_trans; [exact A1|exact A2].
Qed.

Lemma pools_add_free_memory_spec p a n :
  pool_inv p -> bounded p -> slots_ok (slots p) -> range_ok (slots p) (a, n) -> addable [(a, n)] (duo p) ->
  exists p', pools_add_free_memory p a n = Ret p' /\ pool_inv p' /\ locked p' = false /\
    0 <= pool_size p' < u64_modulus /\ adds [(a, n)] (duo p) (duo p').
Proof.
  intros Hp Hb Hs Hr Ha. unfold pools_add_free_memory.
  destruct (range_split (slots p) a n Hs Hr) as (cs & -> & Hc & Hz & Hf). cbn [mbind run_bind].
  assert (addable (pieces cs) (duo p)) as Ha' by (eapply addable_same; [| |exact Ha]; [intros x; by rewrite Hc|done]).
  destruct (insert_global_spec cs p Hp Hf Ha') as (p1 & -> & Hp1 & A1 & E1). cbn [mbind run_bind].
  eexists. split; [done|]. split; [exact Hp1|]. split; [done|]. split; [|by eapply adds_same].
  apply (global_size_bound p1 Hp1). eapply adds_bounded; [exact A1|done|apply Ha'|done].
Qed.

(** ** When balancing does not panic *)

(** At least [m] bytes are free in the global pool, by its snapshot and by its size. *)
Definition roomy (m : Z) (p : PoolState) : Prop := m <= pool_size p /\ m <= total_size (global_pool p).

Lemma insert_chunk_total s a o sl s' sl' : insert_chunk s a o sl = Ret (s', sl') -> total_size s <= total_size s'.
Proof.
  unfold insert_chunk. intros E. run_inv. cbn [total_size]. revert H4. unfold checked_add. pose proof (size_of_order_pos o).
  destruct (_ <? _); [|done]. intros [= <-]. lia.
Qed.

Lemma insert_piece_roomy m p c p' : insert_piece p c = Ret p' -> roomy m p -> roomy m p'.
Proof.
  unfold insert_piece, roomy. destruct c as [a o]. destruct (_ <=? _)%nat; intros E [H1 H2]; run_inv; cbn; [|done].
  apply insert_chunk_total in H. lia.
Qed.

Lemma for_each_keeps {A S} (f : S -> A -> run S) (P : S -> Prop) l s s' :
  (forall s x s', f s x = Ret s' -> P s -> P s') -> for_each f l s = Ret s' -> P s -> P s'.
Proof.
  intros Hf. revert s. induction l as [|x l IH]; intros s; cbn [for_each]; intros E Hs; run_inv; [done|]. eauto.
Qed.

Lemma do_dealloc_roomy m l p p' : do_dealloc p l = Ret p' -> roomy m p -> roomy m p'.
Proof.
  apply for_each_keeps. intros q [a n] q' E. run_inv. revert E. apply for_each_keeps. intros. by eapply insert_piece_roomy.
Qed.

Lemma alloc_chunk_total s o sl s' sl' r : alloc_chunk s o sl = Ret (s', sl', r) -> total_size s <= total_size s' + size_of_order o.
Proof.
  unfold alloc_chunk. pose proof (size_of_order_pos o). destruct (first_non_empty _ _ _); intros E; run_inv; [|lia].
  revert H5. unfold checked_sub. destruct (_ <=? _); [|done]. intros [= <-]. cbn [total_size]. lia.
Qed.

Lemma take_chunk_roomy m p o p' r : take_chunk p o = Ret (p', r) -> roomy (m + size_of_order o) p -> roomy m p'.
Proof.
  unfold take_chunk, roomy. pose proof (size_of_order_pos o). intros E [H1 H2]. run_inv.
  assert (pool_size p0 = pool_size p /\ global_pool p0 = global_pool p) as [E1 E2].
  { destruct (_ <? _)%nat; run_inv; done. }
  destruct o0; run_inv.
  - rewrite E1, E2. lia.
  - cbn. apply alloc_chunk_total in H3. rewrite E1, <- E2 in *. lia.
Qed.

Lemma balance_fits_roomy p : roomy (4 * num_cpus * PAGE_SIZE) p -> balance_fits p = true.
Proof.
  intros [H1 H2]. assert (4 * num_cpus * PAGE_SIZE <= get_global_size p) as Hg by (unfold get_global_size; destruct (locked p); done).
  unfold balance_fits, cache_maximal_size, cache_minimal_size, CACHE_MAXIMAL_MULTIPLIER, CACHE_MINIMAL_PORTION.
  set (g := get_global_size p) in *. set (e := cache_expected_size num_cpus g). set (l := total_size (local_pool p)).
  assert (2 * PAGE_SIZE <= e) as He.
  { unfold e, cache_expected_size, CACHE_EXPECTED_PORTION. apply Z.div_le_lower_bound; [lia|]. apply Z.div_le_lower_bound; [lia|]. unfold PAGE_SIZE in *. lia. }
  pose proof (Z.mul_div_le e 8 ltac:(lia)) as He8. unfold PAGE_SIZE in *.
  destruct (Z.leb_spec (e * 2) l).
  - rewrite (proj2 (Z.leb_le 4096 (l - e))) by lia. apply orb_true_r.
  - destruct (Z.ltb_spec l (e / 8)); [|done]. rewrite (proj2 (Z.leb_le 4096 (e - l))) by lia. apply orb_true_r.
Qed.

Lemma pools_alloc_returns p layout :
  pool_inv p -> bounded p -> slots_ok (slots p) -> layout_ok layout ->
  roomy (4 * num_cpus * PAGE_SIZE + size_of_order (layout_order layout)) p -> pools_alloc num_cpus p layout <> Panic.
Proof.
  intros Hp Hb Hs Hlo Hr. destruct (alloc_and_trim p layout Hp Hb Hs Hlo) as (p1 & r & E & Hp1 & Hb1 & _).
  pose proof (balance_spec p1 Hp1 Hb1) as Hbal. rewrite balance_fits_roomy in Hbal.
  - destruct Hbal as (p2 & E2 & _). revert E. unfold pools_alloc. fold (layout_order layout).
    destruct (take_chunk p (layout_order layout)) as [[p0 a]| |]; cbn [mbind run_bind]; [|done..].
    destruct (match a with Some _ => _ | None => _ end) as [p3| |]; cbn [mbind run_bind]; [|done..]. intros [= -> ->]. by rewrite E2.
  - run_inv. apply take_chunk_roomy with (m := 4 * num_cpus * PAGE_SIZE) in H; [|done].
    destruct r as [a|]; [|by run_inv]. destruct (_ <? _); run_inv; [|done]. by eapply do_dealloc_roomy.
Qed.

Lemma pools_dealloc_returns p l :
  pool_inv p -> bounded p -> slots_ok (slots p) -> Forall (range_ok (slots p)) l -> addable l (duo p) ->
  roomy (4 * num_cpus * PAGE_SIZE) p -> pools_dealloc num_cpus p l <> Panic.
Proof.
  intros Hp Hb Hs Hl Ha Hr. unfold pools_dealloc.
  destruct (do_dealloc_spec l p Hp Hs Hl Ha) as (p1 & E & Hp1 & A1 & E1). rewrite E. cbn [mbind run_bind].
  assert (bounded p1) as Hb1 by (eapply adds_bounded; [exact A1|done|apply Ha|done]).
  pose proof (balance_spec p1 Hp1 Hb1) as Hbal. rewrite balance_fits_roomy in Hbal by by eapply do_dealloc_roomy.
  destruct Hbal as (p2 & -> & _). done.
Qed.

(** ** When balancing panics *)

(** With the local pool empty and less than a page per CPU expected locally, the request to move less
    than a page underflows in [lesser_order_of]. *)
Lemma balance_panics p :
  pool_inv p -> bounded p -> total_size (local_pool p) = 0 ->
  16 * num_cpus <= get_global_size p < 2 * num_cpus * PAGE_SIZE -> balance num_cpus p = Panic.
Proof.
  intros Hp Hb Hl Hg. pose proof (balance_spec p Hp Hb) as Hbal.
  assert (balance_fits p = false) as Hf; [|by rewrite Hf in Hbal].
  unfold balance_fits, cache_maximal_size, cache_minimal_size, CACHE_MAXIMAL_MULTIPLIER, CACHE_MINIMAL_PORTION. rewrite Hl.
  set (g := get_global_size p) in *. set (e := cache_expected_size num_cpus g).
  assert (8 <= e < PAGE_SIZE) as He.
  { unfold e, cache_expected_size, CACHE_EXPECTED_PORTION. split.
    - apply Z.div_le_lower_bound; [lia|]. apply Z.div_le_lower_bound; [lia|]. lia.
    - apply Z.div_lt_upper_bound; [lia|]. apply Z.div_lt_upper_bound; [lia|]. unfold PAGE_SIZE in *. lia. }
  assert (1 <= e / 8) by (apply Z.div_le_lower_bound; lia).
  rewrite (proj2 (Z.leb_gt (e * 2) 0)), (proj2 (Z.ltb_lt 0 (e / 8))), (proj2 (Z.eqb_neq g 0)), (proj2 (Z.leb_gt PAGE_SIZE (e - 0))) by lia.
  done.
Qed.

(** A request that the pools cannot meet, made when so little is left. *)
Lemma pools_alloc_panics p layout :
  pool_inv p -> bounded p -> slots_ok (slots p) -> layout_ok layout -> total_size (local_pool p) = 0 ->
  16 * num_cpus <= total_size (global_pool p) < 2 * num_cpus * PAGE_SIZE -> total_size (global_pool p) < l_size layout ->
  pools_alloc num_cpus p layout = Panic.
Proof.
  intros Hp Hb Hs Hlo Hl Hg Hsz. pose proof (layout_order_size layout Hlo) as Ho.
  unfold pools_alloc. fold (layout_order layout).
  destruct (take_chunk_spec p (layout_order layout) Hp Hb) as (p1 & r & E & Hp1 & E1 & Hr). rewrite E. cbn [mbind run_bind].
  destruct r as [a|].
  { destruct Hr as [_ Htk]. pose proof (tk_total _ _ _ Htk) as Ht. cbn [seg_size] in Ht. unfold dtotal in Ht. cbn [duo fst_set snd_set] in Ht.
    pose proof (set_total_nonneg _ _ _ (di_fst _ _ _ Hp1)). pose proof (set_total_nonneg _ _ _ (di_snd _ _ _ Hp1)). cbn [duo fst_set snd_set] in *. lia. }
  destruct Hr as [Ed _]. assert (locked p1 = true) as Hlk.
  { unfold take_chunk in E. run_inv. destruct o; run_inv; done. }
  injection Ed as El Eg _. cbn [mbind run_bind]. rewrite balance_panics; [done|done| |congruence|].
  - destruct Hb. split; [|by rewrite E1]. unfold dtotal in *. cbn [duo fst_set snd_set] in *. congruence.
  - unfold get_global_size. by rewrite Hlk, Eg.
Qed.
End pool_specs.

(** ** The caches *)

(** The cached segments, oldest first; the front is the last one. *)
Definition cache_frames (c : CacheArray) : list Z := omap id (inner c).

Record cache_wf (COUNT : nat) (c : CacheArray) : Prop := {
  cw_inner : inner c = (Some <$> cache_frames c) ++ replicate (COUNT - c_size c) None;
  cw_size : c_size c = length (cache_frames c);
  cw_count : (c_size c <= COUNT)%nat
}.

Lemma omap_id_some {A} (l : list A) n : omap id ((Some <$> l) ++ replicate n None) = l.
Proof.
  induction l as [|x l IH]; cbn; [|by f_equal]. induction n; [done|]. exact IHn.
Qed.

(** The cache with given frames. *)
Definition cache_of (COUNT : nat) (fs : list Z) : CacheArray :=
  mkCache ((Some <$> fs) ++ replicate (COUNT - length fs) None) (length fs).

Lemma cache_of_frames COUNT fs : cache_frames (cache_of COUNT fs) = fs.
Proof. apply omap_id_some. Qed.

Lemma cache_wf_of COUNT c : cache_wf COUNT c -> c = cache_of COUNT (cache_frames c).
Proof. intros [H1 H2 H3]. destruct c as [i n]. cbn in *. unfold cache_of. by rewrite <- H2, <- H1. Qed.

Lemma cache_of_wf COUNT fs : (length fs <= COUNT)%nat -> cache_wf COUNT (cache_of COUNT fs).
Proof. intros H. split; rewrite ?cache_of_frames; done. Qed.

Lemma push_front_spec COUNT fs f :
  (length fs <= COUNT)%nat ->
  push_front COUNT (cache_of COUNT fs) f =
    Ret (if decide (length fs = COUNT) then (cache_of COUNT fs, None) else (cache_of COUNT (fs ++ [f]), Some tt)).
Proof.
  intros H. unfold push_front. cbn [c_size cache_of inner]. destruct (Nat.eqb_spec (length fs) COUNT) as [E|E].
  { by rewrite decide_True. }
  rewrite decide_False by done. replace (COUNT - length fs)%nat with (S (COUNT - S (length fs))) by lia. cbn [replicate].
  pose proof (vec_set_app (Some <$> fs) None (Some f) (replicate (COUNT - S (length fs)) None)) as Es.
  rewrite length_fmap in Es. rewrite Es. cbn [mbind run_bind].
  unfold cache_of. rewrite length_app, fmap_app, <- app_assoc. cbn [length fmap list_fmap app]. rewrite Nat.add_1_r. done.
Qed.

Lemma pop_front_spec COUNT fs :
  (length fs <= COUNT)%nat ->
  pop_front (cache_of COUNT fs) =
    Ret (match last fs with
         | None => (cache_of COUNT fs, None)
         | Some f => (cache_of COUNT (removelast fs), Some f)
         end).
Proof.
  intros H. destruct fs as [|f fs _] using rev_ind; [done|].
  rewrite last_snoc, removelast_last. unfold pop_front. cbn [c_size cache_of inner].
  rewrite length_app in *. cbn [length] in *. rewrite Nat.add_1_r, fmap_app. cbn [fmap list_fmap]. rewrite <- app_assoc. cbn [app].
  set (rest := replicate _ None). pose proof (vec_get_app (Some <$> fs) (Some f) rest) as Eg.
  pose proof (vec_set_app (Some <$> fs) (Some f) None rest) as Es. rewrite length_fmap in Eg, Es.
  rewrite Eg. cbn [unwrap mbind run_bind]. rewrite Es. cbn [mbind run_bind]. unfold rest.
  unfold cache_of. replace (COUNT - length fs)%nat with (S (COUNT - S (length fs))) by lia. done.
Qed.

(** The cached segments [k] of a CPU, with the pools it works on. *)
Record cfg_ok (k : list (Z * Z)) (p : PoolState) : Prop := {
  cf_inv : pool_inv p;
  cf_snapshot : 0 <= pool_size p < u64_modulus;
  cf_slots : slots_ok (slots p);
  cf_range : Forall (range_ok (slots p)) k;
  cf_cov : forall x, cov k x + cov (dsegs (duo p)) x <= 1;
  cf_unused : forall x, 0 < cov k x -> x ∉ used (slots p);
  cf_size : seg_size k + dtotal (duo p) < u64_modulus
}.

(** What an operation that is given [give] and returns [got] does to them. *)
Record cfg_step (give k : list (Z * Z)) (p : PoolState) (got k' : list (Z * Z)) (p' : PoolState) : Prop := {
  cs_ok : cfg_ok k' p';
  cs_cov : forall x, cov give x + cov k x + cov (dsegs (duo p)) x = cov got x + cov k' x + cov (dsegs (duo p')) x;
  cs_size : seg_size give + seg_size k + dtotal (duo p) = seg_size got + seg_size k' + dtotal (duo p');
  cs_range : Forall (range_ok (slots p')) got;
  cs_unused : forall x, 0 < cov got x -> x ∉ used (slots p');
  cs_slots : slots_kept (give ++ k ++ dsegs (duo p)) (slots p) (slots p')
}.

Record give_ok (give k : list (Z * Z)) (p : PoolState) : Prop := {
  go_range : Forall (range_ok (slots p)) give;
  go_cov : forall x, cov give x + cov k x + cov (dsegs (duo p)) x <= 1;
  go_unused : forall x, 0 < cov give x -> x ∉ used (slots p);
  go_size : seg_size give + seg_size k + dtotal (duo p) < u64_modulus
}.

Lemma seg_size_range sl l : Forall (range_ok sl) l -> 0 <= seg_size l.
Proof. induction 1 as [|[a n] l (_ & _ & _ & H & _) _ IH]; cbn in *; lia. Qed.

Lemma cfg_bounded k p : cfg_ok k p -> bounded p.
Proof. intros [H1 H2 H3 H4 H5 H6 H7]. split; [|done]. pose proof (seg_size_range _ _ H4). lia. Qed.

Lemma give_addable l k p : cfg_ok k p -> give_ok l k p -> addable l (duo p).
Proof.
  intros [H1 H2 H3 H4 H5 H6 H7] [G1 G2 G3 G4]. pose proof (seg_size_range _ _ H4). split; [|done|lia].
  intros x. specialize (G2 x). pose proof (cov_nonneg k x). lia.
Qed.

Lemma slots_kept_refl cs sl : slots_kept cs sl sl.
Proof. by split. Qed.

(** The segments that do not take part in an operation stay as they are. *)
Lemma cfg_step_frame give k p got k' p' r :
  cfg_ok (k ++ r) p -> give_ok give (k ++ r) p -> cfg_step give k p got k' p' -> cfg_step give (k ++ r) p got (k' ++ r) p'.
Proof.
  intros [H1 H2 H3 H4 H5 H6 H7] [G1 G2 G3 G4] [S1 S2 S3 S4 S5 S6].
  apply Forall_app in H4 as [H4 H4']. pose proof (cov_nonneg give). pose proof (cov_nonneg k). pose proof (cov_nonneg r).
  rewrite seg_size_app in G4, H7.
  assert (forall x, 0 < cov r x -> x ∉ used (slots p')) as Hr.
  { intros x Hx. specialize (G2 x). rewrite cov_app in G2. destruct S6 as (S6 & _).
    pose proof (cov_nonneg give x). pose proof (cov_nonneg k x). pose proof (cov_nonneg (dsegs (duo p)) x).
    rewrite S6; [apply H6; rewrite cov_app; lia|]. rewrite !cov_app. lia. }
  split.
  - destruct S1 as [C1 C2 C3 C4 C5 C6 C7]. split; try done.
    + apply Forall_app. split; [done|]. eapply Forall_impl; [exact H4'|]. intros s. by apply (range_ok_kept _ _ _ _ S6).
    + intros x. specialize (G2 x). specialize (S2 x). rewrite cov_app in *. pose proof (cov_nonneg got x). lia.
    + intros x. rewrite cov_app. intros Hx. destruct (Z.eq_dec (cov r x) 0); [apply C6|apply Hr]; pose proof (cov_nonneg r x); lia.
    + rewrite seg_size_app. pose proof (seg_size_range _ _ S4). lia.
  - intros x. rewrite !cov_app. specialize (S2 x). lia.
  - rewrite !seg_size_app. lia.
  - done.
  - done.
  - eapply slots_kept_cov; [|exact S6]. intros x. rewrite !cov_app. specialize (G2 x).
    pose proof (cov_nonneg give x). pose proof (cov_nonneg k x). pose proof (cov_nonneg r x). pose proof (cov_nonneg (dsegs (duo p)) x). lia.
Qed.

(** Rearranging the segments. *)
Lemma cfg_ok_same k k' p : k ≡ₚ k' -> cfg_ok k p -> cfg_ok k' p.
Proof.
  intros Hk [H1 H2 H3 H4 H5 H6 H7]. split; try done; [by rewrite <- Hk|intros x; rewrite <- Hk..|by rewrite <- Hk]; auto.
Qed.

Lemma cfg_step_same give k p got k' p' k1 k1' :
  k ≡ₚ k1 -> k' ≡ₚ k1' -> cfg_step give k p got k' p' -> cfg_step give k1 p got k1' p'.
Proof.
  intros Hk Hk' [S1 S2 S3 S4 S5 S6]. split; try done.
  - by eapply cfg_ok_same.
  - intros x. rewrite <- Hk, <- Hk'. done.
  - rewrite <- Hk, <- Hk'. done.
  - by rewrite <- Hk.
Qed.

Definition fsegs (n : Z) (fs : list Z) : list (Z * Z) := (fun f => (f, n)) <$> fs.

Lemma fsegs_app n fs gs : fsegs n (fs ++ gs) = fsegs n fs ++ fsegs n gs.
Proof. apply fmap_app. Qed.

#[export] Instance fsegs_proper n : Proper ((≡ₚ) ==> (≡ₚ)) (fsegs n).
Proof. intros l k H. unfold fsegs. by rewrite H. Qed.

(** A range of [m] segments of size [n]. *)
Lemma range_segments a n m x :
  0 <= n -> cov (fsegs n ((fun i => a + Z.of_nat i * n) <$> seq 0 m)) x = ind a (Z.of_nat m * n) x.
Proof.
  intros Hn. induction m as [|m IH]; [by rewrite ind_0|].
  rewrite seq_S, fmap_app, fsegs_app, cov_app, IH. cbn [fmap list_fmap fsegs]. rewrite cov_range.
  replace (Z.of_nat (S m) * n) with (Z.of_nat m * n + n) by lia. rewrite ind_split by lia. done.
Qed.

Lemma seg_size_fsegs n fs : seg_size (fsegs n fs) = Z.of_nat (length fs) * n.
Proof. induction fs as [|f fs IH]; [done|]. cbn [fsegs fmap list_fmap seg_size length]. fold (fsegs n fs). rewrite IH. lia. Qed.

Lemma range_segments_ok sl a n m :
  n mod PAGE_SIZE = 0 -> 0 <= n -> range_ok sl (a, Z.of_nat m * n) ->
  Forall (range_ok sl) (fsegs n ((fun i => a + Z.of_nat i * n) <$> seq 0 m)).
Proof.
  intros Hn Hp (R1 & R2 & R3 & R4 & R5). cbn [fst snd] in *. apply Forall_fmap, Forall_fmap, Forall_forall. intros i Hi.
  apply elem_of_seq in Hi. split_and!; cbn; [|done|nia|done|nia].
  apply Z.mod_divide in Hn as [q ->]; [|done]. rewrite Z.mul_assoc, Z_mod_plus_full. done.
Qed.

Lemma push_all COUNT (g : nat -> Z) idx fs :
  (length fs + length idx <= COUNT)%nat ->
  for_each (fun c i => '(c, _) ← push_front COUNT c (g i); Ret c) idx (cache_of COUNT fs) =
    Ret (cache_of COUNT (fs ++ (g <$> idx))).
Proof.
  revert fs. induction idx as [|i idx IH]; intros fs H; cbn [for_each].
  { cbn. by rewrite app_nil_r. }
  cbn [length] in H. rewrite push_front_spec by lia. rewrite decide_False by lia. cbn [mbind run_bind].
  rewrite IH by (rewrite length_app; cbn; lia). cbn [fmap list_fmap]. by rewrite <- app_assoc.
Qed.

(** Operations on the pools as steps of a configuration with other segments in it. *)
Lemma pools_alloc_step num_cpus k p layout :
  0 < num_cpus -> cfg_ok k p -> layout_ok layout ->
  pools_alloc num_cpus p layout = Panic \/
  exists p' r, pools_alloc num_cpus p layout = Ret (p', r) /\
    cfg_step [] k p (match r with Some a => [(a, l_size layout)] | None => [] end) k p' /\
    match r with Some a => a mod size_of_order (layout_order layout) = 0 | None => True end.
Proof.
  intros Hn Hk Hlo. pose proof Hk as [H1 H2 H3 H4 H5 H6 H7].
  destruct (pools_alloc_spec num_cpus Hn p layout H1 (cfg_bounded _ _ Hk) H3 Hlo) as (p1 & r & Hr).
  destruct (balance_fits num_cpus p1); [right|by left].
  destruct Hr as (p' & E & Hp' & _ & Hsn & Hr). exists p', r. split; [done|].
  assert (exists l, l = match r with Some a => [(a, l_size layout)] | None => [] end /\
    (forall x, cov (dsegs (duo p)) x = cov l x + cov (dsegs (duo p')) x) /\ dtotal (duo p) = seg_size l + dtotal (duo p') /\
    (forall x, 0 < cov l x -> x ∉ used (slots p')) /\ slots_kept (dsegs (duo p)) (slots p) (slots p') /\
    Forall (range_ok (slots p')) l) as (l & <- & T1 & T2 & T3 & T4 & T5).
  { eexists. split; [done|]. destruct r as [a|].
    - destruct Hr as (_ & Hrg & [T1 T2 T3 T4]). split_and!; try done. apply Forall_singleton. by eapply range_ok_kept.
    - destruct Hr as [[A1 A2 A3] _]. cbn [cov seg_size app] in *. split_and!; try done. intros x. by rewrite A1. }
  split; [|by destruct r as [a|]; [destruct Hr|]].
  assert (forall x, 0 < cov k x -> x ∉ used (slots p')) as Hku.
  { intros x Hx. destruct T4 as (T4 & _). specialize (H5 x). pose proof (cov_nonneg (dsegs (duo p)) x). rewrite T4 by lia. auto. }
  split; try done.
  - split; try done.
    + by eapply slots_ok_kept.
    + eapply Forall_impl; [exact H4|]. intros s. by apply (range_ok_kept _ _ _ _ T4).
    + intros x. specialize (H5 x). rewrite T1 in H5. pose proof (cov_nonneg l x). lia.
    + pose proof (seg_size_range _ _ T5). lia.
  - intros x. rewrite T1. cbn [cov]. lia.
  - cbn [seg_size]. lia.
  - eapply slots_kept_cov; [|exact T4]. intros x. rewrite !cov_app. cbn [cov]. pose proof (cov_nonneg k x). pose proof (cov_nonneg (dsegs (duo p)) x). lia.
Qed.

(** Adding to the pools what an operation is given. *)
Lemma adds_cfg_step give k p p' :
  cfg_ok k p -> give_ok give k p -> pool_inv p' -> 0 <= pool_size p' < u64_modulus ->
  adds give (duo p) (duo p') -> cfg_step give k p [] k p'.
Proof.
  intros [H1 H2 H3 H4 H5 H6 H7] [G1 G2 G3 G4] Hp' Hsn [A1 A2 A3]. cbn [duo duo_slots] in A3.
  split; try done.
  - split; try done.
    + by eapply slots_ok_kept.
    + eapply Forall_impl; [exact H4|]. intros s. by apply (range_ok_kept _ _ _ _ A3).
    + intros x. rewrite A1. specialize (G2 x). lia.
    + intros x Hx. destruct A3 as (A3 & _). specialize (G2 x). pose proof (cov_nonneg give x). pose proof (cov_nonneg (dsegs (duo p)) x).
      rewrite A3; [auto|]. rewrite cov_app. lia.
    + lia.
  - intros x. rewrite A1. cbn [cov]. lia.
  - cbn [seg_size]. lia.
  - eapply slots_kept_cov; [|exact A3]. intros x. rewrite !cov_app.
    pose proof (cov_nonneg k x). pose proof (cov_nonneg give x). pose proof (cov_nonneg (dsegs (duo p)) x). lia.
Qed.

Lemma pools_dealloc_step num_cpus give k p :
  0 < num_cpus -> cfg_ok k p -> give_ok give k p ->
  pools_dealloc num_cpus p give = Panic \/
  exists p', pools_dealloc num_cpus p give = Ret p' /\ cfg_step give k p [] k p'.
Proof.
  intros Hn Hk Hg. pose proof Hg as [G1 G2 G3 G4]. pose proof Hk as [H1 H2 H3 H4 H5 H6 H7]. pose proof (seg_size_range _ _ H4) as Hnn.
  destruct (pools_dealloc_spec num_cpus Hn p give H1 (cfg_bounded _ _ Hk) H3 G1) as (p1 & Hr).
  { split; [|done|cbn in *; lia]. intros x. specialize (G2 x). pose proof (cov_nonneg k x). lia. }
  destruct (balance_fits num_cpus p1); [right|by left].
  destruct Hr as (p' & E & Hp' & _ & Hsn & A). exists p'. split; [done|]. by apply adds_cfg_step.
Qed.

(** A part of what an operation returns is kept in the cache instead. *)
Lemma cfg_step_keep give k p got k' p' g1 g2 :
  cfg_step give k p got k' p' -> (forall x, cov give x + cov k x + cov (dsegs (duo p)) x <= 1) ->
  seg_size give + seg_size k + dtotal (duo p) < u64_modulus ->
  (forall x, cov got x = cov g1 x + cov g2 x) -> seg_size got = seg_size g1 + seg_size g2 ->
  Forall (range_ok (slots p')) g1 -> Forall (range_ok (slots p')) g2 ->
  cfg_step give k p g1 (g2 ++ k') p'.
Proof.
  intros [[C1 C2 C3 C4 C5 C6 C7] S2 S3 S4 S5 S6] Hc Hs Hg Hz R1 R2. pose proof (seg_size_range _ _ R1). split; try done.
  - split; try done.
    + by apply Forall_app.
    + intros x. specialize (Hc x). specialize (S2 x). rewrite cov_app. rewrite Hg in S2. pose proof (cov_nonneg g1 x). lia.
    + intros x. rewrite cov_app. intros Hx. destruct (Z.eq_dec (cov g2 x) 0); [apply C6; lia|]. apply S5. rewrite Hg.
      pose proof (cov_nonneg g1 x). pose proof (cov_nonneg g2 x). lia.
    + rewrite seg_size_app. lia.
  - intros x. rewrite S2, Hg, cov_app. lia.
  - rewrite seg_size_app. lia.
  - intros x Hx. apply S5. rewrite Hg. pose proof (cov_nonneg g2 x). lia.
Qed.

(** Taking a segment out of the cache, and putting one into it. *)
Lemma cfg_take s k p : cfg_ok (s :: k) p -> cfg_step [] (s :: k) p [s] k p.
Proof.
  intros [H1 H2 H3 H4 H5 H6 H7]. destruct s as [a n]. apply Forall_cons in H4 as [R H4].
  pose proof (ind_bounds a n). cbn [cov seg_size] in *. pose proof R as (_ & _ & _ & Hn & _). cbn [snd] in Hn. split; try done.
  - split; try done; [intros x; specialize (H5 x); specialize (H x); lia|intros x Hx; apply H6; specialize (H x); lia|lia].
  - intros x. cbn [cov]. lia.
  - cbn [seg_size]. lia.
  - by apply Forall_singleton.
  - intros x. cbn [cov]. rewrite Z.add_0_r. intros Hx. apply H6. pose proof (cov_nonneg k x). lia.
Qed.

Lemma cfg_put s k p : cfg_ok k p -> give_ok [s] k p -> cfg_step [s] k p [] (s :: k) p.
Proof.
  intros [H1 H2 H3 H4 H5 H6 H7] [G1 G2 G3 G4]. destruct s as [a n]. cbn [cov seg_size] in *. split; try done.
  - split; try done.
    + by apply (Forall_app _ [(a, n)]). 
    + intros x. cbn [cov]. specialize (G2 x). lia.
    + intros x. cbn [cov]. intros Hx. pose proof (ind_bounds a n x). pose proof (cov_nonneg k x).
      destruct (Z.eq_dec (cov k x) 0); [apply G3|apply H6]; lia.
    + cbn [seg_size]. lia.
  - intros x. cbn [cov]. lia.
  - cbn [seg_size]. lia.
Qed.

Lemma give_ok_same give k k' p : k ≡ₚ k' -> give_ok give k p -> give_ok give k' p.
Proof. intros Hk [H1 H2 H3 H4]. split; [done|intros x; by rewrite <- Hk|done|by rewrite <- Hk]. Qed.

(** Cached segments that are handed to an operation together with what it is given. *)
Lemma cfg_release l k give p :
  cfg_ok (l ++ k) p -> give_ok give (l ++ k) p -> cfg_ok k p /\ give_ok (give ++ l) k p.
Proof.
  intros [H1 H2 H3 H4 H5 H6 H7] [G1 G2 G3 G4]. apply Forall_app in H4 as [H4 H4']. rewrite seg_size_app in *.
  pose proof (seg_size_range _ _ H4). split; split; try done.
  - intros x. specialize (H5 x). rewrite cov_app in H5. pose proof (cov_nonneg l x). lia.
  - intros x Hx. apply H6. rewrite cov_app. pose proof (cov_nonneg l x). lia.
  - lia.
  - by apply Forall_app.
  - intros x. specialize (G2 x). rewrite cov_app in *. lia.
  - intros x. rewrite cov_app. intros Hx. destruct (Z.eq_dec (cov give x) 0); [apply H6; rewrite cov_app; pose proof (cov_nonneg k x); lia|].
    apply G3. pose proof (cov_nonneg give x). lia.
  - rewrite seg_size_app. lia.
Qed.

Lemma cfg_step_released give l k p got k' p' :
  cfg_step (give ++ l) k p got k' p' -> cfg_step give (l ++ k) p got k' p'.
Proof.
  intros [S1 S2 S3 S4 S5 S6]. split; try done.
  - intros x. specialize (S2 x). rewrite cov_app in *. lia.
  - rewrite seg_size_app in *. lia.
  - by rewrite <- !app_assoc in *.
Qed.

Section arrays.
Context (num_cpus : Z) (Hcpus : 0 < num_cpus) (NR : Z) (COUNT : nat).
Context (HNR : 0 < NR <= 4) (HC : (2 <= COUNT <= 12)%nat).

Let n := segment_size NR.
Let nr := (COUNT * 2 / 3)%nat.

Lemma nr_bounds : (1 <= nr <= COUNT)%nat.
Proof. unfold nr. split; [apply Nat.div_le_lower_bound; lia|apply Nat.div_le_upper_bound; lia]. Qed.

Lemma segment_ok : 0 < n <= 4 * PAGE_SIZE /\ n mod PAGE_SIZE = 0.
Proof. unfold n, segment_size. split; [unfold PAGE_SIZE; lia|]. by apply Z.mod_mul. Qed.

Lemma CacheArray_alloc_spec fs rest p :
  (length fs <= COUNT)%nat -> cfg_ok (fsegs n fs ++ rest) p ->
  CacheArray_alloc num_cpus NR COUNT (cache_of COUNT fs) p = Panic \/
  exists fs' p' r, CacheArray_alloc num_cpus NR COUNT (cache_of COUNT fs) p = Ret (cache_of COUNT fs', p', r) /\
    (length fs' <= COUNT)%nat /\
    cfg_step [] (fsegs n fs ++ rest) p (match r with Some a => [(a, n)] | None => [] end) (fsegs n fs' ++ rest) p'.
Proof.
  intros Hfs Hk. pose proof nr_bounds as Hnr. pose proof segment_ok as [Hn Hnp]. unfold CacheArray_alloc. rewrite pop_front_spec by done.
  destruct fs as [|f fs _] using rev_ind; cbn [last mbind run_bind].
  2:{ rewrite last_snoc, removelast_last. cbn [mbind run_bind]. right. exists fs, p, (Some f). rewrite length_app in Hfs. cbn in Hfs.
      split; [done|]. split; [lia|]. rewrite fsegs_app in *. cbn [fsegs fmap list_fmap] in *. rewrite <- app_assoc in *.
      assert (fsegs n fs ++ [(f, n)] ++ rest ≡ₚ (f, n) :: fsegs n fs ++ rest) as Hp by (cbn [app]; by rewrite <- Permutation_middle).
      eapply cfg_step_same; [symmetry; exact Hp|reflexivity|]. apply cfg_take. by eapply cfg_ok_same. }
  cbn [fsegs fmap list_fmap app] in Hk |- *. fold nr. fold n.
  assert (layout_ok (mkLayout (Z.of_nat nr * n) PAGE_SIZE)) as Hlo.
  { unfold PAGE_SIZE in *. split; cbn [l_size l_align]; [nia| |lia]. apply Z.mod_divide in Hnp as [q Hq]; [|done].
    rewrite Hq, Z.mul_assoc. by apply Z.mod_mul. }
  destruct (pools_alloc_step num_cpus rest p _ Hcpus Hk Hlo) as [->|(p' & r & -> & Hst & _)]; [by left|right].
  cbn [mbind run_bind l_size] in *. destruct r as [a|]; [|by exists [], p', None; split_and!; [|cbn; lia|]].
  rewrite (push_all COUNT (fun i => a + Z.of_nat i * n) (seq 1 (nr - 1)) []) by (rewrite length_seq; cbn [length]; lia). cbn [mbind run_bind app].
  set (fs' := (fun i => a + Z.of_nat i * n) <$> seq 1 (nr - 1)).
  exists fs', p', (Some a). split; [done|]. split; [unfold fs'; rewrite length_fmap, length_seq; lia|].
  assert ((a :: fs') = ((fun i => a + Z.of_nat i * n) <$> seq 0 nr)) as Ef.
  { unfold fs'. clearbody nr. destruct nr as [|m]; [lia|]. replace (S m - 1)%nat with m by lia.
    cbn [seq fmap list_fmap]. f_equal. lia. }
  pose proof (Forall_inv (cs_range _ _ _ _ _ _ Hst)) as Hrg.
  pose proof (range_segments_ok _ a n nr Hnp ltac:(lia) Hrg) as Hrs. rewrite <- Ef in Hrs. apply Forall_cons in Hrs as [Hra Hrs].
  eapply cfg_step_keep; [exact Hst| | | | |by apply Forall_singleton|exact Hrs].
  - intros x. cbn [cov]. apply (cf_cov _ _ Hk).
  - cbn [seg_size]. pose proof (cf_size _ _ Hk). lia.
  - intros x. rewrite cov_range, <- (range_segments a n nr x) by lia. rewrite <- Ef. cbn [fsegs fmap list_fmap cov]. fold (fsegs n fs'). lia.
  - rewrite seg_size_fsegs. cbn [seg_size]. unfold fs'. rewrite length_fmap, length_seq. nia.
Qed.

Lemma pop_segments_spec m fs :
  (length fs <= COUNT)%nat -> (m <= length fs)%nat ->
  exists fs' gs, pop_segments NR m (cache_of COUNT fs) = Ret (cache_of COUNT fs', fsegs n gs) /\
    (length fs' <= COUNT)%nat /\ fs ≡ₚ fs' ++ gs.
Proof.
  revert fs. induction m as [|m IH]; intros fs Hfs Hm; cbn [pop_segments].
  { exists fs, []. by rewrite app_nil_r. }
  destruct fs as [|f fs _] using rev_ind; [cbn in Hm; lia|]. rewrite pop_front_spec by done. rewrite last_snoc, removelast_last.
  cbn [unwrap mbind run_bind]. rewrite length_app in *. cbn [length] in *.
  destruct (IH fs) as (fs' & gs & -> & Hl & Hp); [lia|lia|]. cbn [mbind run_bind].
  exists fs', (f :: gs). split; [done|]. split; [done|]. rewrite Hp. rewrite <- app_assoc. apply Permutation_app_head. apply Permutation_app_comm.
Qed.

Lemma CacheArray_dealloc_spec fs rest p addr :
  (length fs <= COUNT)%nat -> cfg_ok (fsegs n fs ++ rest) p -> give_ok [(addr, n)] (fsegs n fs ++ rest) p ->
  CacheArray_dealloc num_cpus NR COUNT (cache_of COUNT fs) p addr = Panic \/
  exists fs' p', CacheArray_dealloc num_cpus NR COUNT (cache_of COUNT fs) p addr = Ret (cache_of COUNT fs', p') /\
    (length fs' <= COUNT)%nat /\ cfg_step [(addr, n)] (fsegs n fs ++ rest) p [] (fsegs n fs' ++ rest) p'.
Proof.
  intros Hfs Hk Hg. pose proof nr_bounds as Hnr. unfold CacheArray_dealloc. rewrite push_front_spec by done. cbn [mbind run_bind].
  destruct (decide (length fs = COUNT)) as [E|E]; cbn [fst snd].
  - fold nr. fold n. replace (nr + 1 - 1)%nat with nr by lia.
    destruct (pop_segments_spec nr fs Hfs ltac:(lia)) as (fs' & gs & -> & Hl & Hp). cbn [mbind run_bind].
    assert (fsegs n fs ++ rest ≡ₚ fsegs n gs ++ fsegs n fs' ++ rest) as Hp'.
    { rewrite Hp, fsegs_app, app_assoc. by rewrite (Permutation_app_comm (fsegs n fs')). }
    destruct (cfg_release (fsegs n gs) (fsegs n fs' ++ rest) [(addr, n)] p) as [Hk' Hg'].
    { by eapply cfg_ok_same. }
    { by eapply give_ok_same. }
    destruct (pools_dealloc_step num_cpus ((addr, n) :: fsegs n gs) _ p Hcpus Hk' Hg') as [->|(p' & -> & Hst)]; [by left|right].
    cbn [mbind run_bind]. exists fs', p'. split; [done|]. split; [done|].
    eapply cfg_step_same; [symmetry; exact Hp'|reflexivity|]. by apply cfg_step_released.
  - right. exists (fs ++ [addr]), p. split; [done|]. rewrite length_app. cbn [length]. split; [lia|].
    eapply cfg_step_same; [reflexivity| |apply cfg_put; [exact Hk|exact Hg]].
    rewrite fsegs_app, <- app_assoc. cbn [fsegs fmap list_fmap app]. by rewrite <- Permutation_middle.
Qed.
End arrays.

Definition csegs (cs : CacheOfSizes) : list (Z * Z) :=
  fsegs (segment_size 1) (cache_frames (cache1 cs)) ++ fsegs (segment_size 2) (cache_frames (cache2 cs)) ++
  fsegs (segment_size 3) (cache_frames (cache3 cs)) ++ fsegs (segment_size 4) (cache_frames (cache4 cs)).

Record caches_wf (cs : CacheOfSizes) : Prop := {
  cw_1 : cache_wf 12 (cache1 cs);
  cw_2 : cache_wf 6 (cache2 cs);
  cw_3 : cache_wf 6 (cache3 cs);
  cw_4 : cache_wf 6 (cache4 cs)
}.

Lemma cache_wf_length COUNT c : cache_wf COUNT c -> (length (cache_frames c) <= COUNT)%nat.
Proof. intros [_ H1 H2]. lia. Qed.

(** One of four caches changes: [k] is the list of the others. *)
Lemma perm_second {A} (a b c : list A) : a ++ b ++ c ≡ₚ b ++ a ++ c.
Proof. rewrite !app_assoc. by rewrite (Permutation_app_comm a). Qed.

Lemma cache_wf_inv COUNT c : cache_wf COUNT c -> exists fs, c = cache_of COUNT fs /\ (length fs <= COUNT)%nat.
Proof. intros Hw. exists (cache_frames c). split; [by apply cache_wf_of|by apply cache_wf_length]. Qed.

Section cache_steps.
Context (num_cpus : Z) (Hcpus : 0 < num_cpus).

(** One array of the caches at work, with the segments of the others in [k]. *)
Lemma array_alloc_step NR COUNT c k p :
  0 < NR <= 4 -> (2 <= COUNT <= 12)%nat -> cache_wf COUNT c ->
  cfg_ok (fsegs (segment_size NR) (cache_frames c) ++ k) p ->
  CacheArray_alloc num_cpus NR COUNT c p = Panic \/
  exists c' p' r, CacheArray_alloc num_cpus NR COUNT c p = Ret (c', p', r) /\ cache_wf COUNT c' /\
    cfg_step [] (fsegs (segment_size NR) (cache_frames c) ++ k) p
      (match r with Some a => [(a, segment_size NR)] | None => [] end)
      (fsegs (segment_size NR) (cache_frames c') ++ k) p'.
Proof.
  intros HN HC (fs & -> & Hl)%cache_wf_inv. rewrite cache_of_frames. intros Hk.
  destruct (CacheArray_alloc_spec num_cpus Hcpus NR COUNT HN HC fs k p Hl Hk) as [E|(fs' & p' & r & E & Hl' & Hst)];
    [by left|right].
  exists (cache_of COUNT fs'), p', r. split_and!; [done|by apply cache_of_wf|]. by rewrite cache_of_frames.
Qed.

Lemma array_dealloc_step NR COUNT c k p addr :
  0 < NR <= 4 -> (2 <= COUNT <= 12)%nat -> cache_wf COUNT c ->
  cfg_ok (fsegs (segment_size NR) (cache_frames c) ++ k) p ->
  give_ok [(addr, segment_size NR)] (fsegs (segment_size NR) (cache_frames c) ++ k) p ->
  CacheArray_dealloc num_cpus NR COUNT c p addr = Panic \/
  exists c' p', CacheArray_dealloc num_cpus NR COUNT c p addr = Ret (c', p') /\ cache_wf COUNT c' /\
    cfg_step [(addr, segment_size NR)] (fsegs (segment_size NR) (cache_frames c) ++ k) p []
      (fsegs (segment_size NR) (cache_frames c') ++ k) p'.
Proof.
  intros HN HC (fs & -> & Hl)%cache_wf_inv. rewrite cache_of_frames. intros Hk Hg.
  destruct (CacheArray_dealloc_spec num_cpus Hcpus NR COUNT HC fs k p addr Hl Hk Hg) as [E|(fs' & p' & E & Hl' & Hst)];
    [by left|right].
  exists (cache_of COUNT fs'), p'. split_and!; [done|by apply cache_of_wf|]. by rewrite cache_of_frames.
Qed.

(** The list of all cached segments, seen from one array. *)
Definition others (j : Z) (cs : CacheOfSizes) : list (Z * Z) :=
  (if j =? 1 then [] else fsegs (segment_size 1) (cache_frames (cache1 cs))) ++
  (if j =? 2 then [] else fsegs (segment_size 2) (cache_frames (cache2 cs))) ++
  (if j =? 3 then [] else fsegs (segment_size 3) (cache_frames (cache3 cs))) ++
  (if j =? 4 then [] else fsegs (segment_size 4) (cache_frames (cache4 cs))).

Lemma csegs_others1 c cs : csegs (mkCaches c (cache2 cs) (cache3 cs) (cache4 cs)) ≡ₚ
  fsegs (segment_size 1) (cache_frames c) ++ others 1 cs.
Proof. done. Qed.
Lemma csegs_others2 c cs : csegs (mkCaches (cache1 cs) c (cache3 cs) (cache4 cs)) ≡ₚ
  fsegs (segment_size 2) (cache_frames c) ++ others 2 cs.
Proof. unfold csegs, others. cbn [cache1 cache2 cache3 cache4 Z.eqb Pos.eqb app]. apply perm_second. Qed.
Lemma csegs_others3 c cs : csegs (mkCaches (cache1 cs) (cache2 cs) c (cache4 cs)) ≡ₚ
  fsegs (segment_size 3) (cache_frames c) ++ others 3 cs.
Proof.
  unfold csegs, others. cbn [cache1 cache2 cache3 cache4 Z.eqb Pos.eqb app].
  rewrite (perm_second (fsegs (segment_size 2) _)). apply perm_second.
Qed.
Lemma csegs_others4 c cs : csegs (mkCaches (cache1 cs) (cache2 cs) (cache3 cs) c) ≡ₚ
  fsegs (segment_size 4) (cache_frames c) ++ others 4 cs.
Proof.
  unfold csegs, others. cbn [cache1 cache2 cache3 cache4 Z.eqb Pos.eqb app]. rewrite app_nil_r.
  rewrite !app_assoc. rewrite Permutation_app_comm. by rewrite !app_assoc.
Qed.

Definition opt_seg (r : option Z) (n : Z) : list (Z * Z) := match r with Some a => [(a, n)] | None => [] end.

(** The whole caches: an allocation. *)
Lemma cache_alloc_step cs p layout :
  caches_wf cs -> cfg_ok (csegs cs) p -> layout_ok layout ->
  cache_alloc num_cpus cs p layout = Panic \/
  exists cs' p' r, cache_alloc num_cpus cs p layout = Ret (cs', p', r) /\ caches_wf cs' /\
    cfg_step [] (csegs cs) p (opt_seg r (l_size layout)) (csegs cs') p'.
Proof.
  intros Hw Hk Hlo. pose proof Hw as [W1 W2 W3 W4].
  assert (let from_pools := ('(p, r) ← pools_alloc num_cpus p layout; Ret (cs, p, r)) in
    from_pools = Panic \/ exists cs' p' r, from_pools = Ret (cs', p', r) /\ caches_wf cs' /\
      cfg_step [] (csegs cs) p (opt_seg r (l_size layout)) (csegs cs') p') as Hpools.
  { destruct (pools_alloc_step num_cpus (csegs cs) p layout Hcpus Hk Hlo) as [->|(p' & r & -> & Hst & _)]; [by left|right].
    exists cs, p', r. by split_and!. }
  assert (forall NR, l_size layout / PAGE_SIZE = NR -> l_size layout = segment_size NR) as Hsz.
  { intros NR E. unfold segment_size. pose proof (lo_pages _ Hlo). rewrite (Z.div_mod (l_size layout) PAGE_SIZE) by done.
    rewrite E. lia. }
  unfold cache_alloc. destruct (l_size layout <? l_align layout); [exact Hpools|].
  assert (forall NR COUNT c (put : CacheArray -> CacheOfSizes), l_size layout / PAGE_SIZE = NR ->
    0 < NR <= 4 -> (2 <= COUNT <= 12)%nat -> cache_wf COUNT c -> (forall c', cache_wf COUNT c' -> caches_wf (put c')) ->
    csegs cs ≡ₚ fsegs (segment_size NR) (cache_frames c) ++ others NR cs ->
    (forall c', csegs (put c') ≡ₚ fsegs (segment_size NR) (cache_frames c') ++ others NR cs) ->
    let op := ('(c, p, r) ← CacheArray_alloc num_cpus NR COUNT c p; Ret (put c, p, r)) in
    op = Panic \/ exists cs' p' r, op = Ret (cs', p', r) /\ caches_wf cs' /\
      cfg_step [] (csegs cs) p (opt_seg r (l_size layout)) (csegs cs') p') as Harray.
  { intros NR COUNT c put E HN HC Hc Hput P1 P2.
    destruct (array_alloc_step NR COUNT c (others NR cs) p HN HC Hc) as [->|(c' & p' & r & -> & Hc' & Hst)];
      [by eapply cfg_ok_same|by left|right].
    cbn [mbind run_bind]. exists (put c'), p', r. split_and!; [done|by apply Hput|]. rewrite (Hsz _ E).
    eapply cfg_step_same; [symmetry; exact P1|symmetry; apply P2|exact Hst]. }
  pose proof (csegs_others1 (cache1 cs) cs) as P1. pose proof (csegs_others2 (cache2 cs) cs) as P2.
  pose proof (csegs_others3 (cache3 cs) cs) as P3. pose proof (csegs_others4 (cache4 cs) cs) as P4.
  replace (mkCaches (cache1 cs) (cache2 cs) (cache3 cs) (cache4 cs)) with cs in * by by destruct cs.
  destruct (l_size layout / PAGE_SIZE) as [|[[q|q|]|[q|[q|q|]|]|]|q] eqn:En; try exact Hpools.
  - apply (Harray 3 6%nat (cache3 cs)); [done|lia|lia|done|by split|done|intros; apply csegs_others3].
  - apply (Harray 4 6%nat (cache4 cs)); [done|lia|lia|done|by split|done|intros; apply csegs_others4].
  - apply (Harray 2 6%nat (cache2 cs)); [done|lia|lia|done|by split|done|intros; apply csegs_others2].
  - apply (Harray 1 12%nat (cache1 cs)); [done|lia|lia|done|by split|done|intros; apply csegs_others1].
Qed.

(** The whole caches: a deallocation. *)
Lemma cache_dealloc_step cs p addr size :
  caches_wf cs -> cfg_ok (csegs cs) p -> give_ok [(addr, size)] (csegs cs) p ->
  cache_dealloc num_cpus cs p addr size = Panic \/
  exists cs' p', cache_dealloc num_cpus cs p addr size = Ret (cs', p') /\ caches_wf cs' /\
    cfg_step [(addr, size)] (csegs cs) p [] (csegs cs') p'.
Proof.
  intros Hw Hk Hg. pose proof Hw as [W1 W2 W3 W4].
  assert (let to_pools := (p ← pools_dealloc num_cpus p [(addr, size)]; Ret (cs, p)) in
    to_pools = Panic \/ exists cs' p', to_pools = Ret (cs', p') /\ caches_wf cs' /\
      cfg_step [(addr, size)] (csegs cs) p [] (csegs cs') p') as Hpools.
  { destruct (pools_dealloc_step num_cpus [(addr, size)] (csegs cs) p Hcpus Hk Hg) as [->|(p' & -> & Hst)]; [by left|right].
    exists cs, p'. by split_and!. }
  unfold cache_dealloc. destruct (size / PAGE_SIZE >? 4); [exact Hpools|].
  assert (forall NR COUNT c (put : CacheArray -> CacheOfSizes), size / PAGE_SIZE = NR ->
    0 < NR <= 4 -> (2 <= COUNT <= 12)%nat -> cache_wf COUNT c -> (forall c', cache_wf COUNT c' -> caches_wf (put c')) ->
    csegs cs ≡ₚ fsegs (segment_size NR) (cache_frames c) ++ others NR cs ->
    (forall c', csegs (put c') ≡ₚ fsegs (segment_size NR) (cache_frames c') ++ others NR cs) ->
    let op := ('(c, p) ← CacheArray_dealloc num_cpus NR COUNT c p addr; Ret (put c, p)) in
    op = Panic \/ exists cs' p', op = Ret (cs', p') /\ caches_wf cs' /\
      cfg_step [(addr, size)] (csegs cs) p [] (csegs cs') p') as Harray.
  { intros NR COUNT c put E HN HC Hc Hput P1 P2.
    assert (size = segment_size NR) as Hsz.
    { pose proof (Forall_inv (go_range _ _ _ Hg)) as (_ & Hm & _). cbn [snd] in Hm. unfold segment_size.
      rewrite (Z.div_mod size PAGE_SIZE) by done. rewrite E. lia. }
    rewrite Hsz in *.
    destruct (array_dealloc_step NR COUNT c (others NR cs) p addr HN HC Hc) as [->|(c' & p' & -> & Hc' & Hst)];
      [by eapply cfg_ok_same|by eapply give_ok_same|by left|right].
    cbn [mbind run_bind]. exists (put c'), p'. split_and!; [done|by apply Hput|].
    eapply cfg_step_same; [symmetry; exact P1|symmetry; apply P2|exact Hst]. }
  pose proof (csegs_others1 (cache1 cs) cs) as P1. pose proof (csegs_others2 (cache2 cs) cs) as P2.
  pose proof (csegs_others3 (cache3 cs) cs) as P3. pose proof (csegs_others4 (cache4 cs) cs) as P4.
  replace (mkCaches (cache1 cs) (cache2 cs) (cache3 cs) (cache4 cs)) with cs in * by by destruct cs.
  destruct (size / PAGE_SIZE) as [|[[q|q|]|[q|[q|q|]|]|]|q] eqn:En; try exact Hpools.
  - apply (Harray 3 6%nat (cache3 cs)); [done|lia|lia|done|by split|done|intros; apply csegs_others3].
  - apply (Harray 4 6%nat (cache4 cs)); [done|lia|lia|done|by split|done|intros; apply csegs_others4].
  - apply (Harray 2 6%nat (cache2 cs)); [done|lia|lia|done|by split|done|intros; apply csegs_others2].
  - apply (Harray 1 12%nat (cache1 cs)); [done|lia|lia|done|by split|done|intros; apply csegs_others1].
Qed.

(** An operation of the caches panics only when the one operation on the pools that it makes does. *)
Lemma CacheArray_alloc_panic NR COUNT c p :
  (2 <= COUNT)%nat -> cache_wf COUNT c -> CacheArray_alloc num_cpus NR COUNT c p = Panic ->
  pools_alloc num_cpus p (mkLayout (Z.of_nat (COUNT * 2 / 3) * segment_size NR) PAGE_SIZE) = Panic.
Proof.
  intros HC (fs & -> & Hl)%cache_wf_inv. unfold CacheArray_alloc. rewrite pop_front_spec by done. cbn [mbind run_bind].
  destruct fs as [|f fs _] using rev_ind; [|by rewrite last_snoc]. cbn [last].
  destruct (pools_alloc _ _ _) as [[p' [a|]]| |]; cbn [mbind run_bind]; [|done..].
  rewrite (push_all COUNT (fun i => a + Z.of_nat i * segment_size NR) _ []); [done|].
  rewrite length_seq. cbn [length]. pose proof (Nat.div_le_mono (COUNT * 2) (COUNT * 3) 3 ltac:(lia) ltac:(lia)).
  rewrite Nat.div_mul in H by lia. lia.
Qed.

Lemma cache_alloc_panic cs p layout :
  caches_wf cs -> layout_ok layout -> cache_alloc num_cpus cs p layout = Panic ->
  exists l, pools_alloc num_cpus p l = Panic /\ layout_ok l /\ (layout_order l <= Nat.max 4 (layout_order layout))%nat.
Proof.
  intros [W1 W2 W3 W4] Hlo.
  assert (('(p, r) ← pools_alloc num_cpus p layout; Ret (cs, p, r)) = Panic ->
    exists l, pools_alloc num_cpus p l = Panic /\ layout_ok l /\ (layout_order l <= Nat.max 4 (layout_order layout))%nat) as Hpools.
  { intros E. exists layout. split_and!; [|done|lia]. by destruct (pools_alloc _ _ _) as [[]| |]. }
  assert (forall NR COUNT c (put : CacheArray -> CacheOfSizes),
    (NR, COUNT) ∈ [(1, 12%nat); (2, 6%nat); (3, 6%nat); (4, 6%nat)] -> cache_wf COUNT c ->
    ('(c, p, r) ← CacheArray_alloc num_cpus NR COUNT c p; Ret (put c, p, r)) = Panic ->
    exists l, pools_alloc num_cpus p l = Panic /\ layout_ok l /\ (layout_order l <= Nat.max 4 (layout_order layout))%nat) as Harray.
  { intros NR COUNT c put Hin Hc E. exists (mkLayout (Z.of_nat (COUNT * 2 / 3) * segment_size NR) PAGE_SIZE).
    assert ((2 <= COUNT)%nat /\ layout_ok (mkLayout (Z.of_nat (COUNT * 2 / 3) * segment_size NR) PAGE_SIZE) /\
      (layout_order (mkLayout (Z.of_nat (COUNT * 2 / 3) * segment_size NR) PAGE_SIZE) <= 4)%nat) as (HC & H1 & H2).
    { repeat (apply elem_of_cons in Hin as [[= -> ->]|Hin]; [split; [lia|]; split; [by split|]; vm_compute; lia|]). by apply elem_of_nil in Hin. }
    split_and!; [|done|lia]. apply CacheArray_alloc_panic with c; [done|done|].
    by destruct (CacheArray_alloc _ _ _ _ _) as [[[]]| |]. }
  unfold cache_alloc. destruct (_ <? _); [exact Hpools|].
  destruct (l_size layout / PAGE_SIZE) as [|[[q|q|]|[q|[q|q|]|]|]|q]; try exact Hpools;
    (eapply Harray; [|eassumption]; set_solver).
Qed.

Lemma CacheArray_dealloc_panic NR COUNT c p addr k :
  (2 <= COUNT <= 12)%nat -> cache_wf COUNT c ->
  cfg_ok (fsegs (segment_size NR) (cache_frames c) ++ k) p ->
  give_ok [(addr, segment_size NR)] (fsegs (segment_size NR) (cache_frames c) ++ k) p ->
  CacheArray_dealloc num_cpus NR COUNT c p addr = Panic ->
  exists l k', pools_dealloc num_cpus p l = Panic /\ cfg_ok k' p /\ give_ok l k' p.
Proof.
  intros HC (fs & -> & Hl)%cache_wf_inv. rewrite cache_of_frames. intros Hk Hg. unfold CacheArray_dealloc.
  rewrite push_front_spec by done. cbn [mbind run_bind]. destruct (decide (length fs = COUNT)) as [E|E]; cbn [fst snd]; [|done].
  replace (COUNT * 2 / 3 + 1 - 1)%nat with (COUNT * 2 / 3)%nat by lia.
  assert (COUNT * 2 / 3 <= COUNT)%nat as Hnr by (apply Nat.Div0.div_le_upper_bound; lia).
  destruct (pop_segments_spec NR COUNT HC (COUNT * 2 / 3) fs Hl ltac:(lia)) as (fs' & gs & -> & _ & Hp). cbn [mbind run_bind].
  assert (fsegs (segment_size NR) fs ++ k ≡ₚ fsegs (segment_size NR) gs ++ fsegs (segment_size NR) fs' ++ k) as Hp'.
  { rewrite Hp, fsegs_app, app_assoc. by rewrite (Permutation_app_comm (fsegs _ fs')). }
  destruct (cfg_release (fsegs (segment_size NR) gs) (fsegs (segment_size NR) fs' ++ k) [(addr, segment_size NR)] p) as [Hk' Hg'].
  { by eapply cfg_ok_same. }
  { by eapply give_ok_same. }
  intros EP. do 2 eexists. split; [|split; [exact Hk'|exact Hg']].
  cbn [app]. destruct (pools_dealloc _ _ _); done.
Qed.

Lemma cache_dealloc_panic cs p addr size :
  caches_wf cs -> cfg_ok (csegs cs) p -> give_ok [(addr, size)] (csegs cs) p -> cache_dealloc num_cpus cs p addr size = Panic ->
  exists l k, pools_dealloc num_cpus p l = Panic /\ cfg_ok k p /\ give_ok l k p.
Proof.
  intros [W1 W2 W3 W4] Hk Hg.
  assert ((p ← pools_dealloc num_cpus p [(addr, size)]; Ret (cs, p)) = Panic ->
    exists l k, pools_dealloc num_cpus p l = Panic /\ cfg_ok k p /\ give_ok l k p) as Hpools.
  { intros E. exists [(addr, size)], (csegs cs). split_and!; [|done|done]. by destruct (pools_dealloc _ _ _). }
  assert (forall NR COUNT c (put : CacheArray -> CacheOfSizes), size / PAGE_SIZE = NR -> (2 <= COUNT <= 12)%nat -> cache_wf COUNT c ->
    csegs cs ≡ₚ fsegs (segment_size NR) (cache_frames c) ++ others NR cs ->
    ('(c, p) ← CacheArray_dealloc num_cpus NR COUNT c p addr; Ret (put c, p)) = Panic ->
    exists l k, pools_dealloc num_cpus p l = Panic /\ cfg_ok k p /\ give_ok l k p) as Harray.
  { intros NR COUNT c put E HC Hc P1 EP.
    assert (size = segment_size NR) as Hsz.
    { pose proof (Forall_inv (go_range _ _ _ Hg)) as (_ & Hm & _). cbn [snd] in Hm. unfold segment_size.
      rewrite (Z.div_mod size PAGE_SIZE) by done. rewrite E. lia. }
    rewrite Hsz in *. apply CacheArray_dealloc_panic with NR COUNT c addr (others NR cs); [done|done|by eapply cfg_ok_same|by eapply give_ok_same|].
    by destruct (CacheArray_dealloc _ _ _ _ _ _) as [[]| |]. }
  pose proof (csegs_others1 (cache1 cs) cs) as P1. pose proof (csegs_others2 (cache2 cs) cs) as P2.
  pose proof (csegs_others3 (cache3 cs) cs) as P3. pose proof (csegs_others4 (cache4 cs) cs) as P4.
  replace (mkCaches (cache1 cs) (cache2 cs) (cache3 cs) (cache4 cs)) with cs in * by by destruct cs.
  unfold cache_dealloc. destruct (_ >? _); [exact Hpools|].
  destruct (size / PAGE_SIZE) as [|[[q|q|]|[q|[q|q|]|]|]|q] eqn:En; try exact Hpools;
    (eapply Harray; [done| |eassumption|done]; lia).
Qed.
End cache_steps.
