(* ===== verification/FrameAlloc.v ===== *)
(** * The frame allocator as a system

    The allocator of [osdk/deps/frame-allocator/src/lib.rs] together with its users: the ranges of
    frames they hold, the memory that was added at boot, and the frame slots that they use.  The
    contract of [GlobalFrameAllocator] ([ostd/src/mm/frame/allocator.rs]) is the guard of the steps. *)

From S2P Require Import Prelude Align Buddy BuddyCoalesce FramePools.

Definition cpu_segs (c : Cpu) : list (Z * Z) := csegs (cpu_cache c) ++ set_segs (cpu_pool c).

(** All free memory: the caches and pools of the CPUs, and the global pool. *)
Definition free_segs (f : FrameAllocator) : list (Z * Z) :=
  concat (cpu_segs <$> cpus f) ++ set_segs (a_global f).

Record cpu_ok (sl : Slots) (c : Cpu) : Prop := {
  co_pool : set_inv MAX_LOCAL_BUDDY_ORDER (cpu_pool c) sl;
  co_caches : caches_wf (cpu_cache c);
  co_range : Forall (range_ok sl) (csegs (cpu_cache c));
  co_unused : forall x, 0 < cov (csegs (cpu_cache c)) x -> x ∉ used sl
}.

(** The sum of the counters of the CPUs. *)
Definition counters (f : FrameAllocator) : Z := foldr (fun c t => cpu_counter c + t) 0 (cpus f).

(** [held] is the memory in the hands of the users. *)
Record alloc_inv (f : FrameAllocator) (held : list (Z * Z)) : Prop := {
  ai_cpus : Forall (cpu_ok (a_slots f)) (cpus f);
  ai_global : set_inv MAX_BUDDY_ORDER (a_global f) (a_slots f);
  ai_snapshot : 0 <= a_pool_size f < u64_modulus;
  ai_slots : slots_ok (a_slots f);
  ai_held : Forall (range_ok (a_slots f)) held;
  ai_cov : forall x, cov (free_segs f) x + cov held x <= 1;
  ai_size : seg_size (free_segs f) + seg_size held < 2 ^ 63;
  ai_counter : wrap64 (counters f) = wrap64 (seg_size (free_segs f))
}.

Lemma seg_size_set MAX s sl : set_inv MAX s sl -> seg_size (set_segs s) = total_size s.
Proof. by intros [_ _ -> _]. Qed.

(** The free memory, seen from one CPU. *)
Definition rest_segs (f : FrameAllocator) (cpu : nat) : list (Z * Z) :=
  concat (cpu_segs <$> (take cpu (cpus f) ++ drop (S cpu) (cpus f))).

Lemma concat_proper_app {A} (l1 l2 l3 : list (list A)) : concat (l1 ++ l2 ++ l3) ≡ₚ concat l2 ++ concat (l1 ++ l3).
Proof. rewrite !concat_app. apply perm_second. Qed.

Lemma free_segs_cpu f cpu c :
  cpus f !! cpu = Some c ->
  free_segs f ≡ₚ csegs (cpu_cache c) ++ dsegs (duo (enter f c)) ++ rest_segs f cpu.
Proof.
  intros Hc. unfold free_segs, rest_segs. rewrite <- (take_drop_middle (cpus f) cpu c Hc) at 1.
  change (c :: drop (S cpu) (cpus f)) with ([c] ++ drop (S cpu) (cpus f)). rewrite !fmap_app, concat_proper_app.
  cbn [fmap list_fmap concat]. rewrite app_nil_r. unfold cpu_segs at 1. unfold dsegs. cbn [duo enter fst_set snd_set local_pool global_pool].
  rewrite <- !app_assoc. do 2 apply Permutation_app_head. apply Permutation_app_comm.
Qed.

Lemma free_segs_leave f cpu c cs counter p :
  cpus f !! cpu = Some c ->
  free_segs (leave f cpu cs counter p) ≡ₚ csegs cs ++ dsegs (duo p) ++ rest_segs f cpu.
Proof.
  intros Hc. pose proof (lookup_lt_Some _ _ _ Hc) as Hlt.
  assert (cpus (leave f cpu cs counter p) !! cpu = Some (mkCpu (local_pool p) cs counter)) as Hl
    by (apply list_lookup_insert_eq; done).
  rewrite (free_segs_cpu _ _ _ Hl). unfold rest_segs. cbn [leave cpus cpu_cache]. do 2 apply Permutation_app_head.
  rewrite take_insert_ge by lia. rewrite drop_insert_lt by lia. done.
Qed.

Lemma counters_insert f cpu c cs counter p :
  cpus f !! cpu = Some c -> counters (leave f cpu cs counter p) = counters f - cpu_counter c + counter.
Proof.
  unfold counters, leave. cbn [cpus]. generalize (cpus f). intros l. revert cpu.
  induction l as [|d l IH]; intros [|cpu] H; simplify_eq/=; [lia|]. rewrite (IH cpu H). lia.
Qed.

(** The other CPUs do not notice. *)
Lemma cpu_ok_frame sl sl' cs c :
  slots_kept cs sl sl' -> (forall x, 0 < cov (cpu_segs c) x -> cov cs x = 0) -> cpu_ok sl c -> cpu_ok sl' c.
Proof.
  intros Hk Hd [H1 H2 H3 H4]. unfold cpu_segs in Hd. split; [|done| |].
  - eapply set_inv_frame; [exact Hk| |exact H1]. intros x Hx. apply Hd. rewrite cov_app. pose proof (cov_nonneg (csegs (cpu_cache c)) x). lia.
  - eapply Forall_impl; [exact H3|]. intros s. by apply (range_ok_kept _ _ _ _ Hk).
  - intros x Hx. destruct Hk as (Hk & _). rewrite Hk; [auto|]. apply Hd. rewrite cov_app. pose proof (cov_nonneg (set_segs (cpu_pool c)) x). lia.
Qed.

Lemma cov_concat_elem {A} (g : A -> list (Z * Z)) l c x : c ∈ l -> cov (g c) x <= cov (concat (g <$> l)) x.
Proof.
  intros Hin. induction l as [|d l IH]; [by apply elem_of_nil in Hin|]. cbn [fmap list_fmap concat]. rewrite cov_app.
  pose proof (cov_nonneg (g d) x). pose proof (cov_nonneg (concat (g <$> l)) x).
  apply elem_of_cons in Hin as [->|Hin]; [lia|]. specialize (IH Hin). lia.
Qed.

Lemma cpu_segs_nonneg sl c : cpu_ok sl c -> 0 <= seg_size (cpu_segs c).
Proof.
  intros [H1 H2 H3 H4]. unfold cpu_segs. rewrite seg_size_app. pose proof (seg_size_range _ _ H3).
  pose proof (seg_size_nonneg (concat (lists (cpu_pool c)))). unfold set_segs. lia.
Qed.

Lemma rest_size_nonneg f cpu : Forall (cpu_ok (a_slots f)) (cpus f) -> 0 <= seg_size (rest_segs f cpu).
Proof.
  intros Hf. unfold rest_segs.
  assert (Forall (cpu_ok (a_slots f)) (take cpu (cpus f) ++ drop (S cpu) (cpus f))) as H
    by (apply Forall_app; split; [by apply Forall_take|by apply Forall_drop]).
  induction H as [|c l Hc _ IH]; [done|]. cbn [fmap list_fmap concat]. rewrite seg_size_app.
  pose proof (cpu_segs_nonneg _ _ Hc). lia.
Qed.

Lemma Forall_insert_others {A} (P : A -> Prop) (l : list A) i x :
  (forall j y, l !! j = Some y -> j <> i -> P y) -> P x -> Forall P (<[i := x]> l).
Proof.
  intros Hl Hx. apply Forall_lookup. intros j y Hj. destruct (decide (i = j)) as [<-|Hne].
  - pose proof (lookup_lt_Some _ _ _ Hj) as Hlt. rewrite length_insert in Hlt.
    rewrite list_lookup_insert_eq in Hj by done. by simplify_eq.
  - rewrite list_lookup_insert_ne in Hj by done. by eapply Hl.
Qed.

Lemma lookup_take_or_drop {A} (l : list A) i j x :
  l !! j = Some x -> j <> i -> x ∈ take i l \/ x ∈ drop (S i) l.
Proof.
  intros Hj Hne. destruct (decide (j < i)%nat) as [Hlt|Hge].
  - left. apply list_elem_of_lookup_2 with j. by rewrite lookup_take_lt.
  - right. apply list_elem_of_lookup_2 with (j - S i)%nat. rewrite lookup_drop. by replace (S i + (j - S i))%nat with j by lia.
Qed.

(** The configuration of a CPU inside the allocator. *)
Lemma enter_ok f held cpu c :
  alloc_inv f held -> cpus f !! cpu = Some c -> cfg_ok (csegs (cpu_cache c)) (enter f c).
Proof.
  intros [H1 H2 H3 H4 H5 H6 H7 _] Hc. pose proof (Forall_lookup_1 _ _ _ _ H1 Hc) as [C1 C2 C3 C4].
  pose proof (free_segs_cpu f cpu c Hc) as Hp.
  assert (0 <= seg_size held) as Hh by (by eapply seg_size_range).
  assert (0 <= seg_size (rest_segs f cpu)) as Hr by (by apply rest_size_nonneg).
  split; cbn [enter pool_size slots].
  - split; cbn [duo enter fst_set snd_set duo_slots local_pool global_pool slots]; [done|done|].
    intros x. specialize (H6 x). rewrite Hp, !cov_app in H6.
    pose proof (cov_nonneg (csegs (cpu_cache c)) x). pose proof (cov_nonneg (rest_segs f cpu) x). pose proof (cov_nonneg held x). lia.
  - done.
  - done.
  - done.
  - intros x. specialize (H6 x). rewrite Hp, !cov_app in H6. pose proof (cov_nonneg (rest_segs f cpu) x). pose proof (cov_nonneg held x). lia.
  - done.
  - rewrite Hp, !seg_size_app in H7. unfold dsegs in H7. rewrite seg_size_app in H7.
    cbn [duo enter fst_set snd_set local_pool global_pool] in H7. rewrite (seg_size_set _ _ _ C1), (seg_size_set _ _ _ H2) in H7.
    unfold dtotal, u64_modulus. cbn [duo enter fst_set snd_set local_pool global_pool]. lia.
Qed.

(** An operation of a CPU, which is given [give] from outside and hands out [got]. *)
Lemma leave_inv f held cpu c give got cs counter p :
  alloc_inv f held -> cpus f !! cpu = Some c ->
  (forall x, cov give x + cov (free_segs f) x + cov held x <= 1) ->
  seg_size give + seg_size (free_segs f) + seg_size held < 2 ^ 63 ->
  cfg_step give (csegs (cpu_cache c)) (enter f c) got (csegs cs) p -> caches_wf cs ->
  wrap64 counter = wrap64 (cpu_counter c + seg_size give - seg_size got) ->
  alloc_inv (leave f cpu cs counter p) (got ++ held) /\
  (forall x, cov got x + cov (free_segs (leave f cpu cs counter p)) x = cov give x + cov (free_segs f) x) /\
  seg_size got + seg_size (free_segs (leave f cpu cs counter p)) = seg_size give + seg_size (free_segs f) /\
  slots_kept (give ++ free_segs f) (a_slots f) (slots p).
Proof.
  intros Hinv Hc Hd Hz [S1 S2 S3 S4 S5 S6] Hcs Hct. pose proof Hinv as [H1 H2 H3 H4 H5 H6 H7 H8].
  pose proof (Forall_lookup_1 _ _ _ _ H1 Hc) as Hcok. pose proof S1 as [C1 C2 C3 C4 C5 C6 C7].
  pose proof (free_segs_cpu f cpu c Hc) as Hp. pose proof (free_segs_leave f cpu c cs counter p Hc) as Hp'.
  cbn [enter slots] in S6.
  assert (forall x, cov got x + cov (free_segs (leave f cpu cs counter p)) x = cov give x + cov (free_segs f) x) as Hcov.
  { intros x. rewrite Hp, Hp', !cov_app. specialize (S2 x). lia. }
  assert (seg_size (dsegs (duo (enter f c))) = dtotal (duo (enter f c))) as Hd1.
  { unfold dsegs, dtotal. rewrite seg_size_app. cbn [duo enter fst_set snd_set local_pool global_pool].
    by rewrite (seg_size_set _ _ _ (co_pool _ _ Hcok)), (seg_size_set _ _ _ H2). }
  assert (seg_size (dsegs (duo p)) = dtotal (duo p)) as Hd2.
  { unfold dsegs, dtotal. rewrite seg_size_app.
    by rewrite (seg_size_set _ _ _ (di_fst _ _ _ C1)), (seg_size_set _ _ _ (di_snd _ _ _ C1)). }
  assert (seg_size got + seg_size (free_segs (leave f cpu cs counter p)) = seg_size give + seg_size (free_segs f)) as Hsz.
  { rewrite Hp, Hp', !seg_size_app. lia. }
  assert (slots_kept (give ++ free_segs f) (a_slots f) (slots p)) as Hk.
  { eapply slots_kept_cov; [|exact S6]. intros x. rewrite Hp, !cov_app. pose proof (cov_nonneg give x).
    pose proof (cov_nonneg (csegs (cpu_cache c)) x). pose proof (cov_nonneg (dsegs (duo (enter f c))) x). pose proof (cov_nonneg (rest_segs f cpu) x). lia. }
  split_and!; [|done..]. split; cbn [leave cpus a_global a_pool_size a_slots].
  - apply Forall_insert_others; [|split; [apply C1|done..]]. intros j d Hj Hne. pose proof (Forall_lookup_1 _ _ _ _ H1 Hj) as Hdok.
    eapply cpu_ok_frame; [exact S6| |exact Hdok]. intros x Hx. specialize (Hd x). rewrite Hp, !cov_app in Hd. rewrite !cov_app.
    assert (cov (cpu_segs d) x <= cov (rest_segs f cpu) x).
    { apply cov_concat_elem. rewrite elem_of_app. by apply lookup_take_or_drop with j. }
    pose proof (cov_nonneg give x). pose proof (cov_nonneg (csegs (cpu_cache c)) x). pose proof (cov_nonneg (dsegs (duo (enter f c))) x).
    pose proof (cov_nonneg held x). lia.
  - apply C1.
  - done.
  - done.
  - apply Forall_app. split; [done|]. eapply Forall_impl; [exact H5|]. intros s. by apply (range_ok_kept _ _ _ _ Hk).
  - intros x. specialize (Hd x). specialize (Hcov x). rewrite cov_app. lia.
  - rewrite seg_size_app. lia.
  - rewrite (counters_insert f cpu c) by done. unfold wrap64, u64_modulus in *.
    apply (f_equal (fun z => (z + (counters f - cpu_counter c) mod 2 ^ 64) mod 2 ^ 64)) in Hct.
    rewrite <- !Z.add_mod in Hct by done. rewrite Z.add_comm, Hct.
    replace (cpu_counter c + seg_size give - seg_size got + (counters f - cpu_counter c)) with (counters f + (seg_size give - seg_size got)) by lia.
    rewrite Z.add_mod, H8, <- Z.add_mod by done. f_equal. lia.
Qed.

(** ** The operations *)

Lemma alloc_step f held cpu layout :
  alloc_inv f held -> (cpu < length (cpus f))%nat -> layout_ok layout ->
  alloc f cpu layout = Panic \/
  exists f' r, alloc f cpu layout = Ret (f', r) /\ alloc_inv f' (opt_seg r (l_size layout) ++ held) /\
    (forall x, cov (opt_seg r (l_size layout)) x + cov (free_segs f') x = cov (free_segs f) x) /\
    seg_size (opt_seg r (l_size layout)) + seg_size (free_segs f') = seg_size (free_segs f) /\
    length (cpus f') = length (cpus f) /\
    (forall x, 0 < cov (opt_seg r (l_size layout)) x -> x ∉ used (a_slots f')) /\
    slots_kept (free_segs f) (a_slots f) (a_slots f').
Proof.
  intros Hinv Hlt Hlo. destruct (lookup_lt_is_Some_2 (cpus f) cpu Hlt) as [c Hc]. unfold alloc, vec_get. rewrite Hc. cbn [unwrap mbind run_bind].
  pose proof (Forall_lookup_1 _ _ _ _ (ai_cpus _ _ Hinv) Hc) as Hcok.
  destruct (cache_alloc_step (Z.of_nat (length (cpus f))) ltac:(lia) (cpu_cache c) (enter f c) layout
    (co_caches _ _ Hcok) (enter_ok _ _ _ _ Hinv Hc) Hlo) as [->|(cs & p & r & -> & Hw & Hst)]; [by left|right].
  cbn [mbind run_bind]. do 2 eexists. split; [done|].
  destruct (leave_inv f held cpu c [] (opt_seg r (l_size layout)) cs
    (if is_some r then counter_sub (cpu_counter c) (l_size layout) else cpu_counter c) p Hinv Hc) as (I1 & I2 & I3 & I4); try done.
  - intros x. cbn [cov]. apply (ai_cov _ _ Hinv).
  - cbn [seg_size]. pose proof (ai_size _ _ Hinv). lia.
  - destruct r; cbn [is_some opt_seg seg_size]; [|f_equal; lia]. unfold counter_sub, wrap64, u64_modulus. rewrite Z.mod_mod by done. f_equal. lia.
  - split; [done|]. split; [done|]. split; [done|]. split; [by cbn [leave cpus]; rewrite length_insert|]. split; [apply Hst|exact I4].
Qed.

(** A range in the hands of a user can be given to a CPU. *)
Lemma held_give_ok f held cpu c a n :
  alloc_inv f ((a, n) :: held) -> cpus f !! cpu = Some c -> (forall x, a <= x < a + n -> x ∉ used (a_slots f)) ->
  give_ok [(a, n)] (csegs (cpu_cache c)) (enter f c).
Proof.
  intros [H1 H2 H3 H4 H5 H6 H7 H8] Hc Hun. pose proof (Forall_lookup_1 _ _ _ _ H1 Hc) as Hcok.
  apply Forall_cons in H5 as [R H5]. cbn [cov seg_size] in H6, H7. pose proof (ind_bounds a n) as Hb.
  pose proof (free_segs_cpu f cpu c Hc) as Hp. pose proof (rest_size_nonneg f cpu H1) as Hr. pose proof (seg_size_range _ _ H5) as Hh.
  split; cbn [enter slots].
  - by apply Forall_singleton.
  - intros x. rewrite cov_range. specialize (H6 x). rewrite Hp, !cov_app in H6. pose proof (cov_nonneg (rest_segs f cpu) x).
    pose proof (cov_nonneg held x). lia.
  - intros x. rewrite cov_range. intros Hx. apply Hun, ind_1. specialize (Hb x). lia.
  - rewrite Hp, !seg_size_app in H7. unfold dsegs in H7. rewrite seg_size_app in H7. cbn [seg_size duo enter fst_set snd_set local_pool global_pool] in *.
    rewrite (seg_size_set _ _ _ (co_pool _ _ Hcok)), (seg_size_set _ _ _ H2) in H7.
    unfold dtotal, u64_modulus. cbn [duo enter fst_set snd_set local_pool global_pool]. lia.
Qed.

Lemma dealloc_step f held cpu a n :
  alloc_inv f ((a, n) :: held) -> (cpu < length (cpus f))%nat ->
  (forall x, a <= x < a + n -> x ∉ used (a_slots f)) ->
  dealloc f cpu a n = Panic \/
  exists f', dealloc f cpu a n = Ret f' /\ alloc_inv f' held /\
    (forall x, cov (free_segs f') x = ind a n x + cov (free_segs f) x) /\
    seg_size (free_segs f') = n + seg_size (free_segs f) /\ length (cpus f') = length (cpus f) /\
    slots_kept ((a, n) :: free_segs f) (a_slots f) (a_slots f').
Proof.
  intros Hinv Hlt Hun. destruct (lookup_lt_is_Some_2 (cpus f) cpu Hlt) as [c Hc]. unfold dealloc, vec_get. rewrite Hc. cbn [unwrap mbind run_bind].
  pose proof (Forall_lookup_1 _ _ _ _ (ai_cpus _ _ Hinv) Hc) as Hcok.
  pose proof Hinv as [H1 H2 H3 H4 H5 H6 H7 H8]. apply Forall_cons in H5 as [R H5]. cbn [cov seg_size] in H6, H7.
  pose proof R as (_ & _ & _ & Hn & _). cbn [snd] in Hn. pose proof (ind_bounds a n) as Hb.
  assert (alloc_inv f held) as Hinv'.
  { split; try done; [intros x; specialize (H6 x); specialize (Hb x); lia|lia]. }
  pose proof (free_segs_cpu f cpu c Hc) as Hp. pose proof (enter_ok _ _ _ _ Hinv' Hc) as Hk.
  pose proof (rest_size_nonneg f cpu H1) as Hr. pose proof (seg_size_range _ _ H5) as Hh.
  destruct (cache_dealloc_step (Z.of_nat (length (cpus f))) ltac:(lia) (cpu_cache c) (enter f c) a n
    (co_caches _ _ Hcok) Hk) as [->|(cs & p & -> & Hw & Hst)].
  { by apply held_give_ok with held cpu. }
  { by left. }
  right. cbn [mbind run_bind]. eexists. split; [done|].
  destruct (leave_inv f held cpu c [(a, n)] [] cs (counter_add (cpu_counter c) n) p Hinv' Hc) as (I1 & I2 & I3 & I4); try done.
  - intros x. rewrite cov_range. specialize (H6 x). lia.
  - cbn [seg_size]. lia.
  - cbn [seg_size]. unfold counter_add, wrap64, u64_modulus. rewrite Z.mod_mod by done. f_equal. lia.
  - split_and!; [done| | |by cbn [leave cpus]; rewrite length_insert|exact I4].
    + intros x. specialize (I2 x). rewrite cov_range in I2. cbn [cov] in I2. lia.
    + cbn [seg_size] in I3. lia.
Qed.

Lemma add_step f held cpu a n :
  alloc_inv f held -> (cpu < length (cpus f))%nat -> range_ok (a_slots f) (a, n) ->
  (forall x, ind a n x + cov (free_segs f) x + cov held x <= 1) ->
  (forall x, a <= x < a + n -> x ∉ used (a_slots f)) ->
  n + seg_size (free_segs f) + seg_size held < 2 ^ 63 ->
  exists f', add_free_memory f cpu a n = Ret f' /\ alloc_inv f' held /\
    (forall x, cov (free_segs f') x = ind a n x + cov (free_segs f) x) /\
    seg_size (free_segs f') = n + seg_size (free_segs f) /\ length (cpus f') = length (cpus f).
Proof.
  intros Hinv Hlt R Hd Hun Hz. destruct (lookup_lt_is_Some_2 (cpus f) cpu Hlt) as [c Hc].
  unfold add_free_memory, vec_get. rewrite Hc. cbn [unwrap mbind run_bind].
  pose proof (enter_ok _ _ _ _ Hinv Hc) as Hk. pose proof Hk as [K1 K2 K3 K4 K5 K6 K7].
  pose proof (Forall_lookup_1 _ _ _ _ (ai_cpus _ _ Hinv) Hc) as Hcok. pose proof (free_segs_cpu f cpu c Hc) as Hp.
  pose proof (rest_size_nonneg f cpu (ai_cpus _ _ Hinv)) as Hr. pose proof (seg_size_range _ _ (ai_held _ _ Hinv)) as Hh.
  pose proof (seg_size_range _ _ K4) as Hkk. pose proof (ind_bounds a n) as Hb.
  assert (forall x, ind a n x + cov (csegs (cpu_cache c)) x + cov (dsegs (duo (enter f c))) x <= 1) as Hd'.
  { intros x. specialize (Hd x). rewrite Hp, !cov_app in Hd. pose proof (cov_nonneg (rest_segs f cpu) x). pose proof (cov_nonneg held x). lia. }
  assert (n + seg_size (csegs (cpu_cache c)) + dtotal (duo (enter f c)) < u64_modulus) as Hz'.
  { rewrite Hp, !seg_size_app in Hz. unfold dsegs in Hz. rewrite seg_size_app in Hz. cbn [duo enter fst_set snd_set local_pool global_pool] in *.
    rewrite (seg_size_set _ _ _ (co_pool _ _ Hcok)), (seg_size_set _ _ _ (ai_global _ _ Hinv)) in Hz.
    unfold dtotal, u64_modulus. cbn [duo enter fst_set snd_set local_pool global_pool]. lia. }
  assert (addable [(a, n)] (duo (enter f c))) as Ha.
  { split; [intros x; rewrite cov_range; specialize (Hd' x); pose proof (cov_nonneg (csegs (cpu_cache c)) x); lia| |cbn [seg_size]; lia].
    intros x. rewrite cov_range. intros Hx. apply Hun, ind_1. specialize (Hb x). lia. }
  destruct (pools_add_free_memory_spec (enter f c) a n K1 (cfg_bounded _ _ Hk) K3 R Ha) as (p & -> & Hp1 & _ & Hsn & A).
  cbn [mbind run_bind]. eexists. split; [done|].
  assert (cfg_step [(a, n)] (csegs (cpu_cache c)) (enter f c) [] (csegs (cpu_cache c)) p) as Hst.
  { apply adds_cfg_step; try done. split; [by apply Forall_singleton|intros x; rewrite cov_range; apply Hd'| |cbn [seg_size]; lia].
    intros x. rewrite cov_range. intros Hx. apply Hun, ind_1. specialize (Hb x). lia. }
  destruct (leave_inv f held cpu c [(a, n)] [] (cpu_cache c) (counter_add (cpu_counter c) n) p Hinv Hc) as (I1 & I2 & I3 & _); try done.
  - intros x. rewrite cov_range. apply Hd.
  - cbn [seg_size]. lia.
  - apply (co_caches _ _ Hcok).
  - cbn [seg_size]. unfold counter_add, wrap64, u64_modulus. rewrite Z.mod_mod by done. f_equal. lia.
  - split_and!; [done| | |by cbn [leave cpus]; rewrite length_insert].
    + intros x. specialize (I2 x). rewrite cov_range in I2. cbn [cov] in I2. lia.
    + cbn [seg_size] in I3. lia.
Qed.

Lemma free_size_nonneg f h : alloc_inv f h -> 0 <= seg_size (free_segs f).
Proof.
  intros Hi. unfold free_segs. rewrite seg_size_app. pose proof (seg_size_nonneg (concat (lists (a_global f)))) as Hg.
  unfold set_segs. assert (0 <= seg_size (concat (cpu_segs <$> cpus f))); [|lia].
  pose proof (ai_cpus _ _ Hi) as Hc. induction Hc as [|c l Hc _ IH]; [done|]. cbn [fmap list_fmap concat].
  rewrite seg_size_app. pose proof (cpu_segs_nonneg _ _ Hc). lia.
Qed.

(** ** The allocator and its users *)

Record World := mkWorld {
  w_alloc : FrameAllocator;
  w_held : list (Z * Z);       (** the ranges in the hands of the users *)
  w_added : list (Z * Z)       (** the ranges added at boot *)
}.

(** Only slots of frames that the users hold change. *)
Definition use_slots (f : FrameAllocator) (u : gset Z) : FrameAllocator :=
  mkAllocator (cpus f) (a_global f) (a_pool_size f) (mkSlots (min_paddr (a_slots f)) (max_paddr (a_slots f)) u).

(** A user may free a part of a range it holds, once the slots of the frames are unused. *)
Inductive world_step : World -> World -> Prop :=
  | step_alloc f h m cpu layout f' r :
      (cpu < length (cpus f))%nat -> layout_ok layout -> alloc f cpu layout = Ret (f', r) ->
      world_step (mkWorld f h m) (mkWorld f' (opt_seg r (l_size layout) ++ h) m)
  | step_dealloc f h0 m cpu a n a0 n0 h f' :
      (cpu < length (cpus f))%nat -> h0 ≡ₚ (a0, n0) :: h -> a0 <= a -> 0 <= n -> a + n <= a0 + n0 ->
      a mod PAGE_SIZE = 0 -> n mod PAGE_SIZE = 0 -> (forall x, a <= x < a + n -> x ∉ used (a_slots f)) ->
      dealloc f cpu a n = Ret f' ->
      world_step (mkWorld f h0 m) (mkWorld f' ((a0, a - a0) :: (a + n, a0 + n0 - (a + n)) :: h) m)
  | step_add f h m cpu a n f' :
      (cpu < length (cpus f))%nat -> range_ok (a_slots f) (a, n) -> (forall x, ind a n x + cov m x <= 1) ->
      (forall x, a <= x < a + n -> x ∉ used (a_slots f)) -> n + seg_size m < 2 ^ 63 ->
      add_free_memory f cpu a n = Ret f' ->
      world_step (mkWorld f h m) (mkWorld f' h ((a, n) :: m))
  | step_use f h m u :
      (forall x, cov h x = 0 -> x ∈ u <-> x ∈ used (a_slots f)) ->
      world_step (mkWorld f h m) (mkWorld (use_slots f u) h m).

Record world_ok (w : World) : Prop := {
  wo_inv : alloc_inv (w_alloc w) (w_held w);
  wo_cov : forall x, cov (free_segs (w_alloc w)) x + cov (w_held w) x = cov (w_added w) x;
  wo_size : seg_size (free_segs (w_alloc w)) + seg_size (w_held w) = seg_size (w_added w)
}.

(** Rearranging the ranges that are held. *)
Lemma alloc_inv_same f h h' :
  (forall x, cov h x = cov h' x) -> seg_size h = seg_size h' -> Forall (range_ok (a_slots f)) h' ->
  alloc_inv f h -> alloc_inv f h'.
Proof.
  intros Hc Hs Hr [H1 H2 H3 H4 H5 H6 H7 H8]. split; try done; [intros x; rewrite <- Hc; apply H6|lia].
Qed.

(** A range is cut in three. *)
Lemma cov_cut a n a0 n0 h x :
  a0 <= a -> 0 <= n -> a + n <= a0 + n0 ->
  cov ((a, n) :: (a0, a - a0) :: (a + n, a0 + n0 - (a + n)) :: h) x = cov ((a0, n0) :: h) x.
Proof.
  intros H1 H2 H3. cbn [cov]. replace n0 with ((a - a0) + (n + (a0 + n0 - (a + n)))) at 2 by lia.
  rewrite ind_split by lia. rewrite ind_split by lia. replace (a0 + (a - a0)) with a by lia. lia.
Qed.

Lemma range_ok_cut sl a n a0 n0 :
  range_ok sl (a0, n0) -> a0 <= a -> 0 <= n -> a + n <= a0 + n0 -> a mod PAGE_SIZE = 0 -> n mod PAGE_SIZE = 0 ->
  Forall (range_ok sl) [(a, n); (a0, a - a0); (a + n, a0 + n0 - (a + n))].
Proof.
  intros (R1 & R2 & R3 & R4 & R5) H1 H2 H3 Ha Hn. cbn [fst snd] in *.
  assert ((a + n) mod PAGE_SIZE = 0) as Han by (rewrite Z.add_mod, Ha, Hn by done; done).
  assert ((a0 + n0) mod PAGE_SIZE = 0) as Han0 by (rewrite Z.add_mod, R1, R2 by done; done).
  repeat (apply Forall_cons; split); [..|constructor]; split_and!; cbn [fst snd]; try done; try lia.
  - by rewrite Zminus_mod, Ha, R1.
  - by rewrite Zminus_mod, Han0, Han.
Qed.

Lemma alloc_inv_use f h u :
  (forall x, cov h x = 0 -> x ∈ u <-> x ∈ used (a_slots f)) -> alloc_inv f h -> alloc_inv (use_slots f u) h.
Proof.
  intros Hu [H1 H2 H3 H4 H5 H6 H7 H8].
  assert (slots_kept h (a_slots f) (a_slots (use_slots f u))) as Hk by (split; [exact Hu|done]).
  assert (forall l x, (forall x, cov l x <= cov (free_segs f) x) -> 0 < cov l x -> cov h x = 0) as Hd.
  { intros l x Hl Hx. specialize (Hl x). specialize (H6 x). pose proof (cov_nonneg h x). lia. }
  split; try done.
  - apply Forall_lookup. intros i c Hc. pose proof (Forall_lookup_1 _ _ _ _ H1 Hc) as Hok. cbn [use_slots a_slots].
    eapply cpu_ok_frame; [exact Hk| |exact Hok]. intros x. apply Hd. intros y. unfold free_segs. rewrite cov_app.
    assert (cov (cpu_segs c) y <= cov (concat (cpu_segs <$> cpus f)) y) by (apply cov_concat_elem; by eapply list_elem_of_lookup_2).
    pose proof (cov_nonneg (set_segs (a_global f)) y). lia.
  - eapply set_inv_frame; [exact Hk| |exact H2]. intros x. apply (Hd (set_segs (a_global f))). intros y. unfold free_segs. rewrite cov_app.
    pose proof (cov_nonneg (concat (cpu_segs <$> cpus f)) y). lia.
Qed.

Lemma world_step_ok w w' : world_step w w' -> world_ok w -> world_ok w'.
Proof.
  intros Hs [Hi Hc Hz]. destruct Hs as [f h m cpu layout f' r Hlt Hlo E|f h0 m cpu a n a0 n0 h f' Hlt Hp Ha Hn Hle Hma Hmn Hun E|
    f h m cpu a n f' Hlt Hr Hd Hun Hsz E|f h m u Hu]; cbn [w_alloc w_held w_added] in *.
  - destruct (alloc_step f h cpu layout Hi Hlt Hlo) as [E'|(f1 & r1 & E' & I1 & I2 & I3 & _)]; [congruence|].
    rewrite E in E'. simplify_eq. split; cbn [w_alloc w_held w_added]; [done| |].
    + intros x. rewrite cov_app, <- Hc, <- I2. lia.
    + rewrite seg_size_app. lia.
  - assert (range_ok (a_slots f) (a0, n0)) as R0 by (pose proof (ai_held _ _ Hi) as H; rewrite Hp in H; by apply Forall_inv in H).
    pose proof (range_ok_cut _ a n a0 n0 R0 Ha Hn Hle Hma Hmn) as Hcut.
    assert (alloc_inv f ((a, n) :: (a0, a - a0) :: (a + n, a0 + n0 - (a + n)) :: h)) as Hi'.
    { eapply alloc_inv_same; [| | |exact Hi].
      - intros x. by rewrite cov_cut, Hp.
      - rewrite Hp. cbn [seg_size]. lia.
      - pose proof (ai_held _ _ Hi) as H. rewrite Hp in H. apply Forall_cons in H as [_ H].
        apply (Forall_app _ [(a, n); (a0, a - a0); (a + n, a0 + n0 - (a + n))]). done. }
    destruct (dealloc_step f _ cpu a n Hi' Hlt Hun) as [E'|(f1 & E' & I1 & I2 & I3 & _)]; [congruence|].
    rewrite E in E'. simplify_eq. split; cbn [w_alloc w_held w_added]; [done| |].
    + intros x. rewrite I2. specialize (Hc x). rewrite Hp, <- (cov_cut a n a0 n0 h x) in Hc by done. cbn [cov] in *. lia.
    + rewrite Hp in Hz. cbn [seg_size] in *. lia.
  - destruct (add_step f h cpu a n Hi Hlt Hr) as (f1 & E' & I1 & I2 & I3 & _); [|done|lia|].
    { intros x. specialize (Hd x). rewrite <- Hc in Hd. lia. }
    rewrite E in E'. simplify_eq. split; cbn [w_alloc w_held w_added cov seg_size]; [done| |lia].
    intros x. rewrite I2, <- Hc. lia.
  - split; cbn [w_alloc w_held w_added]; [by apply alloc_inv_use|done|done].
Qed.

Lemma free_segs_new n sl : free_segs (FrameAllocator_new n sl) = [].
Proof.
  unfold free_segs, FrameAllocator_new, set_segs. cbn [cpus a_global new_empty lists]. rewrite concat_replicate_nil, app_nil_r.
  induction n; done.
Qed.

Lemma world_new_ok n sl : slots_ok sl -> world_ok (mkWorld (FrameAllocator_new n sl) [] []).
Proof.
  intros Hs. split; cbn [w_alloc w_held w_added]; [|intros x; by rewrite free_segs_new|by rewrite free_segs_new].
  split; cbn [FrameAllocator_new cpus a_global a_pool_size a_slots]; try done.
  - apply Forall_replicate. split; [apply set_inv_empty| |constructor|intros x; cbn; lia].
    split; split; cbn; done || lia.
  - apply set_inv_empty.
  - intros x. by rewrite free_segs_new.
  - by rewrite free_segs_new.
  - rewrite free_segs_new. unfold counters, FrameAllocator_new. cbn [cpus seg_size]. f_equal. induction n; [done|exact IHn].
Qed.

Lemma world_steps_ok n sl w :
  slots_ok sl -> rtc world_step (mkWorld (FrameAllocator_new n sl) [] []) w -> world_ok w.
Proof.
  intros Hs Hr. assert (world_ok (mkWorld (FrameAllocator_new n sl) [] [])) as H0 by by apply world_new_ok.
  revert H0. induction Hr as [|w1 w2 w3 H1 _ IH]; [done|]. intros H. apply IH. by eapply world_step_ok.
Qed.

Lemma counter_get_spec cs t :
  wrap64 (foldr (fun c t => cpu_counter c + t) 0 cs) = t -> 0 <= t < 2 ^ 63 -> counter_get cs = t.
Proof.
  intros Hc Ht. unfold counter_get.
  assert (forall acc, foldl (fun t c => wrap64 (t + cpu_counter c)) (wrap64 acc) cs =
    wrap64 (acc + foldr (fun c t => cpu_counter c + t) 0 cs)) as H.
  { clear Hc Ht. induction cs as [|c cs IH]; intros acc; cbn [foldl foldr]; [by rewrite Z.add_0_r|].
    assert (wrap64 (wrap64 acc + cpu_counter c) = wrap64 (acc + cpu_counter c)) as ->.
    { unfold wrap64, u64_modulus. by rewrite Zplus_mod_idemp_l. }
    rewrite IH. f_equal. lia. }
  specialize (H 0). change (wrap64 0) with 0 in H. rewrite H, Z.add_0_l, Hc.
  rewrite (proj2 (Z.leb_gt _ _)); [done|lia].
Qed.

(** ** Properties *)

(** C4: However CPUs allocate, free and add memory, every address of the memory that was added is
    either free, in exactly one place of the allocator, or held by exactly one user; no address is
    lost, duplicated or made up.  The counter of free memory is exact between operations, whatever
    CPUs did the accounting. *)
Theorem frames_never_shared n sl w :
  slots_ok sl -> rtc world_step (mkWorld (FrameAllocator_new n sl) [] []) w ->
  (forall x, cov (free_segs (w_alloc w)) x + cov (w_held w) x = cov (w_added w) x /\ cov (w_added w) x <= 1) /\
  load_total_free_size (w_alloc w) = seg_size (free_segs (w_alloc w)) /\
  seg_size (free_segs (w_alloc w)) + seg_size (w_held w) = seg_size (w_added w).
Proof.
  intros Hs Hr. destruct (world_steps_ok n sl w Hs Hr) as [Hi Hc Hz]. split_and!; [|apply counter_get_spec|done].
  - intros x. split; [done|]. rewrite <- Hc. apply (ai_cov _ _ Hi).
  - pose proof (ai_counter _ _ Hi) as H. unfold counters in H. rewrite H. pose proof (ai_size _ _ Hi).
    pose proof (seg_size_range _ _ (ai_held _ _ Hi)). pose proof (free_size_nonneg _ _ Hi).
    unfold wrap64, u64_modulus. rewrite Z.mod_small; lia.
  - pose proof (ai_size _ _ Hi). pose proof (seg_size_range _ _ (ai_held _ _ Hi)). pose proof (free_size_nonneg _ _ Hi). lia.
Qed.

(** In every state that the allocator can reach, an allocation that returns has either failed and
    left the free memory as it was, or returned whole frames that were free, that no user holds, and
    whose slots are unused. *)
Theorem alloc_returns_fresh_frames n sl w cpu layout f' r :
  slots_ok sl -> rtc world_step (mkWorld (FrameAllocator_new n sl) [] []) w ->
  (cpu < length (cpus (w_alloc w)))%nat -> layout_ok layout -> alloc (w_alloc w) cpu layout = Ret (f', r) ->
  match r with
  | None => forall x, cov (free_segs f') x = cov (free_segs (w_alloc w)) x
  | Some a => a mod PAGE_SIZE = 0 /\
      forall x, a <= x < a + l_size layout ->
        cov (free_segs (w_alloc w)) x = 1 /\ cov (free_segs f') x = 0 /\ cov (w_held w) x = 0 /\ x ∉ used (a_slots f')
  end.
Proof.
  intros Hs Hr Hlt Hlo E. destruct (world_steps_ok n sl w Hs Hr) as [Hi Hc Hz].
  destruct (alloc_step (w_alloc w) (w_held w) cpu layout Hi Hlt Hlo) as [E'|(f1 & r1 & E' & I1 & I2 & _ & _ & I5 & _)]; [congruence|].
  rewrite E in E'. simplify_eq. destruct r1 as [a|]; cbn [opt_seg] in *.
  - split; [by apply (Forall_inv (ai_held _ _ I1))|]. intros x Hx%ind_1.
    pose proof (ai_cov _ _ I1 x) as H1. specialize (I2 x). specialize (I5 x). cbn [app cov] in *.
    pose proof (cov_nonneg (free_segs f1) x). pose proof (cov_nonneg (w_held w) x).
    split_and!; [lia|lia|lia|apply I5; lia].
  - intros x. specialize (I2 x). cbn [cov] in I2. lia.
Qed.


(** Near the end of memory a request that cannot be met panics instead of failing: with the local
    pool empty and less than two pages for each CPU in the global pool, [balance] asks for the order of
    less than a page. *)
Theorem alloc_panics_when_nearly_empty n sl w cpu c layout :
  slots_ok sl -> rtc world_step (mkWorld (FrameAllocator_new n sl) [] []) w -> cpus (w_alloc w) !! cpu = Some c ->
  layout_ok layout -> 4 * PAGE_SIZE < l_size layout -> total_size (cpu_pool c) = 0 ->
  let left := total_size (a_global (w_alloc w)) in let num_cpus := Z.of_nat (length (cpus (w_alloc w))) in
  16 * num_cpus <= left < 2 * num_cpus * PAGE_SIZE -> left < l_size layout ->
  alloc (w_alloc w) cpu layout = Panic.
Proof.
  intros Hs Hr Hcp Hlo Hbig Hl left nc Hleft Hsz. destruct (world_steps_ok n sl w Hs Hr) as [Hi Hc Hz]. set (f := w_alloc w) in *.
  pose proof (enter_ok _ _ _ _ Hi Hcp) as Hk. pose proof (lookup_lt_Some _ _ _ Hcp) as Hlt.
  assert (pools_alloc nc (enter f c) layout = Panic) as E.
  { apply pools_alloc_panics; [unfold nc; lia|apply Hk|by eapply cfg_bounded|apply Hk|done|done|done|done]. }
  unfold alloc, vec_get. rewrite Hcp. cbn [unwrap mbind run_bind]. unfold cache_alloc. fold nc. rewrite E. cbn [mbind run_bind].
  destruct (_ <? _); [done|]. assert (4 < l_size layout / PAGE_SIZE) as Hq.
  { pose proof (lo_pages _ Hlo) as Hm. rewrite (Z.div_mod (l_size layout) PAGE_SIZE) in Hbig by done. unfold PAGE_SIZE in *. lia. }
  destruct (l_size layout / PAGE_SIZE) as [|[[q|q|]|[q|[q|q|]|]|]|q]; done || lia.
Qed.

(** A machine with one CPU and 64 frames, from which one frame has been allocated. *)
Definition sample_slots : Slots := mkSlots 0x10000 0x200000 ∅.
Definition sample_layout : Layout := mkLayout PAGE_SIZE PAGE_SIZE.
Definition sample_boot : FrameAllocator :=
  match add_free_memory (FrameAllocator_new 1 sample_slots) 0 0x100000 0x40000 with Ret f => f | _ => FrameAllocator_new 1 sample_slots end.
Definition sample_run : FrameAllocator * option Z :=
  match alloc sample_boot 0 sample_layout with Ret x => x | _ => (sample_boot, None) end.

Lemma sample_slots_ok : slots_ok sample_slots.
Proof. split; [done|]. by rewrite max_size. Qed.

Lemma sample_layout_ok : layout_ok sample_layout.
Proof. by split. Qed.

Lemma sample_booted :
  world_step (mkWorld (FrameAllocator_new 1 sample_slots) [] []) (mkWorld sample_boot [] [(0x100000, 0x40000)]).
Proof.
  apply (step_add _ _ _ 0); [cbn; lia|by split_and!| |set_solver|done|vm_compute; reflexivity].
  intros x. cbn [cov]. pose proof (ind_bounds 0x100000 0x40000 x). lia.
Qed.

Lemma sample_allocated :
  rtc world_step (mkWorld (FrameAllocator_new 1 sample_slots) [] [])
    (mkWorld (fst sample_run) [(0x100000, PAGE_SIZE)] [(0x100000, 0x40000)]).
Proof.
  eapply rtc_l; [exact sample_booted|]. apply rtc_once.
  apply (step_alloc sample_boot [] [(0x100000, 0x40000)] 0 sample_layout (fst sample_run) (Some 0x100000));
    [vm_compute; lia|exact sample_layout_ok|vm_compute; reflexivity].
Qed.

Lemma frames_never_shared_witness :
  load_total_free_size (fst sample_run) = seg_size (free_segs (fst sample_run)) /\
  load_total_free_size (fst sample_run) = 63 * PAGE_SIZE.
Proof.
  destruct (frames_never_shared 1 sample_slots (mkWorld (fst sample_run) [(0x100000, PAGE_SIZE)] [(0x100000, 0x40000)])
    sample_slots_ok sample_allocated) as (_ & H & _).
  split; [exact H|]. vm_compute. reflexivity.
Defined.

Lemma alloc_returns_fresh_frames_witness :
  exists f' a, alloc (fst sample_run) 0 sample_layout = Ret (f', Some a) /\
    forall x, a <= x < a + PAGE_SIZE -> cov (free_segs (fst sample_run)) x = 1 /\ cov [(0x100000, PAGE_SIZE)] x = 0.
Proof.
  destruct (alloc (fst sample_run) 0 sample_layout) as [[f' [a|]]| |] eqn:E.
  2,3,4: exfalso; vm_compute in E; discriminate E.
  exists f', a. split; [reflexivity|]. intros x Hx.
  pose proof (alloc_returns_fresh_frames 1 sample_slots (mkWorld (fst sample_run) [(0x100000, PAGE_SIZE)] [(0x100000, 0x40000)])
    0 sample_layout f' (Some a) sample_slots_ok sample_allocated ltac:(vm_compute; lia) sample_layout_ok E) as [_ H].
  destruct (H x Hx) as (H1 & _ & H2 & _). exact (conj H1 H2).
Defined.


(** A machine with one frame. *)
Definition tiny_boot : FrameAllocator :=
  match add_free_memory (FrameAllocator_new 1 sample_slots) 0 0x100000 0x1000 with Ret f => f | _ => FrameAllocator_new 1 sample_slots end.

Lemma tiny_booted :
  world_step (mkWorld (FrameAllocator_new 1 sample_slots) [] []) (mkWorld tiny_boot [] [(0x100000, 0x1000)]).
Proof.
  apply (step_add _ _ _ 0); [cbn; lia|by split_and!| |set_solver|done|vm_compute; reflexivity].
  intros x. cbn [cov]. pose proof (ind_bounds 0x100000 0x1000 x). lia.
Qed.

Lemma alloc_panics_when_nearly_empty_witness :
  alloc tiny_boot 0 (mkLayout (5 * PAGE_SIZE) PAGE_SIZE) = Panic /\ load_total_free_size tiny_boot = PAGE_SIZE.
Proof.
  split; [|vm_compute; reflexivity].
  apply (alloc_panics_when_nearly_empty 1 sample_slots (mkWorld tiny_boot [] [(0x100000, 0x1000)]) 0
    (mkCpu (new_empty MAX_LOCAL_BUDDY_ORDER) CacheOfSizes_new PAGE_SIZE)).
  - exact sample_slots_ok.
  - exact (rtc_once _ _ tiny_booted).
  - vm_compute. reflexivity.
  - by split.
  - reflexivity.
  - reflexivity.
  - vm_compute. split; discriminate || reflexivity.
  - vm_compute. reflexivity.
Defined.
