(* ===== verification/IntervalSet.v ===== *)
(** * Interval sets

    [kernel/core/src/vm/vmar/interval_set.rs] and [util.rs]: the collection of disjoint intervals that
    holds the mappings of an address space.  The source keeps the items in a [BTreeMap] from the start
    of an item to the item; items are never changed in place, so the key of an item is always the start
    of its range, and the tree is the list of its items in the order of their keys. *)

From S2P Require Import Prelude.

(** [core::ops::Range<usize>]. *)
Record Range := mkRange { r_start : Z; r_end : Z }.

#[export] Instance Range_eq_dec : EqDecision Range.
Proof. solve_decision. Defined.

(** [Range::len], [Range::contains]. *)
Definition range_len (r : Range) : Z := Z.max 0 (r_end r - r_start r).

Definition range_contains (r : Range) (x : Z) : bool := (r_start r <=? x) && (x <? r_end r).

Definition is_intersected (r1 r2 : Range) : bool :=
  Z.max (r_start r1) (r_start r2) <? Z.min (r_end r1) (r_end r2).

Definition get_intersected_range (r1 r2 : Range) : run Range :=
  assert_run (is_intersected r1 r2) ≫= fun _ =>
  Ret (mkRange (Z.max (r_start r1) (r_start r2)) (Z.min (r_end r1) (r_end r2))).

(** The trait [Interval]. *)
Class Interval (V : Type) := range : V -> Range.

Section operations.
Context {V : Type} {IV : Interval V}.
Implicit Types (v : V) (l : list V) (r : Range).

Definition key v : Z := r_start (range v).

(** [BTreeMap::insert], which replaces an item with the same key, and [BTreeMap::remove]. *)
Fixpoint IntervalSet_insert v l : list V :=
  match l with
  | [] => [v]
  | x :: l' =>
      if key v <? key x then v :: l
      else if key v =? key x then v :: l'
      else x :: IntervalSet_insert v l'
  end.

Fixpoint IntervalSet_remove (k : Z) l : option (V * list V) :=
  match l with
  | [] => None
  | x :: l' =>
      if key x =? k then Some (x, l')
      else '(v, l'') ← IntervalSet_remove k l'; Some (v, x :: l'')
  end.

(** A cursor of the [BTreeMap] is a gap between the items before it and those after it.
    [lower_bound(Excluded(p))] is the gap before the first key above [p], and
    [upper_bound(Excluded(p))] the gap after the last key below [p]. *)
Record Cursor := mkCursor { before : list V; after : list V }.

Fixpoint gap (p : V -> bool) l : Cursor :=
  match l with
  | [] => mkCursor [] []
  | x :: l' => if p x then mkCursor (x :: before (gap p l')) (after (gap p l')) else mkCursor [] l
  end.

Definition lower_bound_excluded (p : Z) l : Cursor := gap (fun v => key v <=? p) l.
Definition upper_bound_excluded (p : Z) l : Cursor := gap (fun v => key v <? p) l.

Definition peek_prev (c : Cursor) : option V := last (before c).
Definition peek_next (c : Cursor) : option V := head (after c).

Definition cursor_next (c : Cursor) : option V * Cursor :=
  match after c with
  | [] => (None, c)
  | v :: a => (Some v, mkCursor (before c ++ [v]) a)
  end.

Definition find_one (point : Z) l : option V :=
  match peek_prev (lower_bound_excluded point l) with
  | Some v => if point <? r_end (range v) then Some v else None
  | None => None
  end.

Definition find_prev (point : Z) l : option V := peek_prev (upper_bound_excluded point l).
Definition find_next (point : Z) l : option V := peek_next (lower_bound_excluded point l).

(** The iterator over the items that intersect a range. *)
Record IntervalIter := mkIter { it_cursor : Cursor; it_range : Range; peeked_prev : bool }.

Definition find r l : IntervalIter := mkIter (lower_bound_excluded (r_start r) l) r false.

Definition IntervalIter_following (it : IntervalIter) : option V * IntervalIter :=
  match cursor_next (it_cursor it) with
  | (Some v, c) =>
      let it' := mkIter c (it_range it) (peeked_prev it) in
      if r_end (it_range it) <=? r_start (range v) then (None, it') else (Some v, it')
  | (None, c) => (None, mkIter c (it_range it) (peeked_prev it))
  end.

Definition IntervalIter_next (it : IntervalIter) : option V * IntervalIter :=
  if peeked_prev it then IntervalIter_following it
  else
    let it' := mkIter (it_cursor it) (it_range it) true in
    match peek_prev (it_cursor it) with
    | Some v => if r_start (it_range it) <? r_end (range v) then (Some v, it') else IntervalIter_following it'
    | None => IntervalIter_following it'
    end.

(** The items that a [for] loop over the iterator sees. *)
Fixpoint iter_collect (fuel : nat) (it : IntervalIter) : run (list V) :=
  match fuel with
  | O => NoFuel
  | S n =>
      match IntervalIter_next it with
      | (None, _) => Ret []
      | (Some v, it') => vs ← iter_collect n it'; Ret (v :: vs)
      end
  end.

Definition find_all r l : run (list V) := iter_collect (length l + 2) (find r l).
End operations.
Arguments Cursor V : clear implicits.
Arguments IntervalIter V : clear implicits.

(** ** Well-formed sets

    The items are not empty, and each one ends before the next one starts. *)
Section facts.
Context {V : Type} {IV : Interval V}.
Implicit Types (v w : V) (l k : list V) (r : Range).

Definition nonempty v : Prop := key v < r_end (range v).
Definition apart v w : Prop := r_end (range v) <= key w.

Definition intervals l : Prop := Forall nonempty l /\ StronglySorted apart l.

Definition contains v (x : Z) : Prop := key v <= x < r_end (range v).
Definition overlaps r v : Prop := r_start r < r_end (range v) /\ key v < r_end r.

#[export] Instance contains_dec v x : Decision (contains v x).
Proof. unfold contains. apply _. Defined.
#[export] Instance overlaps_dec r v : Decision (overlaps r v).
Proof. unfold overlaps. apply _. Defined.

Lemma intervals_nil : intervals [].
Proof. split; constructor. Qed.

Lemma intervals_cons v l :
  intervals (v :: l) <-> nonempty v /\ (forall w, w ∈ l -> apart v w) /\ intervals l.
Proof.
  unfold intervals. rewrite Forall_cons. split.
  - intros [[Hv Hl] Hs]. apply StronglySorted_inv in Hs as [Hs Hf].
    rewrite Forall_forall in Hf. tauto.
  - intros (Hv & Hf & Hl & Hs). split; [done|]. constructor; [done|]. by apply Forall_forall.
Qed.

Lemma intervals_app l k :
  intervals (l ++ k) <-> intervals l /\ intervals k /\ (forall v w, v ∈ l -> w ∈ k -> apart v w).
Proof.
  induction l as [|v l IH]; simpl.
  - split; [|tauto]. intros H. split; [apply intervals_nil|]. split; [done|].
    intros v w Hv. by apply elem_of_nil in Hv.
  - rewrite !intervals_cons, IH. split.
    + intros (Hv & Ha & Hl & Hk & Hc). split; [|split; [done|]].
      * split; [done|]. split; [|done]. intros w Hw. apply Ha. apply elem_of_app. by left.
      * intros u w [->|Hu]%elem_of_cons Hw; [|by apply Hc]. apply Ha. apply elem_of_app. by right.
    + intros ((Hv & Ha & Hl) & Hk & Hc). split; [done|]. split.
      * intros w [Hw|Hw]%elem_of_app; [by apply Ha|]. apply Hc; [apply elem_of_cons; by left|done].
      * split; [done|]. split; [done|]. intros u w Hu Hw. apply Hc; [apply elem_of_cons; by right|done].
Qed.

Lemma intervals_nonempty l v : intervals l -> v ∈ l -> nonempty v.
Proof. intros [Hl _] Hv. rewrite Forall_forall in Hl. by apply Hl. Qed.

(** Two items that share a point are the same item. *)
Lemma intervals_disjoint l v w x :
  intervals l -> v ∈ l -> w ∈ l -> contains v x -> contains w x -> v = w.
Proof.
  unfold contains. induction l as [|u l IH]; [by intros _ ?%elem_of_nil|].
  intros (Hu & Ha & Hl)%intervals_cons [->|Hv]%elem_of_cons [->|Hw]%elem_of_cons Cv Cw; auto.
  - specialize (Ha w Hw). unfold apart in Ha. lia.
  - specialize (Ha v Hv). unfold apart in Ha. lia.
Qed.

Lemma intervals_key_inj l v w : intervals l -> v ∈ l -> w ∈ l -> key v = key w -> v = w.
Proof.
  intros Hl Hv Hw E. pose proof (intervals_nonempty l v Hl Hv). pose proof (intervals_nonempty l w Hl Hw).
  unfold nonempty in *. apply (intervals_disjoint l v w (key v)); unfold contains; [done..|lia|lia].
Qed.

Lemma intervals_NoDup l : intervals l -> NoDup l.
Proof.
  induction l as [|v l IH]; [constructor|]. intros (Hv & Ha & Hl)%intervals_cons.
  constructor; [|by apply IH]. intros Hin. specialize (Ha v Hin). unfold apart, nonempty in *. lia.
Qed.

(** ** The meaning of the set: the item at a point *)
Definition covering (x : Z) l : option V := find_first (fun v => bool_decide (contains v x)) l.

Lemma covering_Some l x v : intervals l -> covering x l = Some v <-> v ∈ l /\ contains v x.
Proof.
  intros Hl. unfold covering. split.
  - intros [Hv Hx]%find_first_Some. apply bool_decide_eq_true in Hx. done.
  - intros [Hv Hx]. destruct (find_first _ l) as [w|] eqn:E.
    + apply find_first_Some in E as [Hw Hwx]. apply bool_decide_eq_true in Hwx.
      f_equal. by apply (intervals_disjoint l w v x Hl).
    + rewrite find_first_None in E. rewrite Forall_forall in E. specialize (E v Hv). by apply bool_decide_eq_false in E.
Qed.

Lemma covering_None l x : covering x l = None <-> forall v, v ∈ l -> ~ contains v x.
Proof.
  unfold covering. rewrite find_first_None, Forall_forall. split; intros H v Hv.
  - specialize (H v Hv). by apply bool_decide_eq_false in H.
  - apply bool_decide_eq_false. by apply H.
Qed.
(** ** Insertion and removal *)
Lemma IntervalSet_insert_elem v l w : w ∈ IntervalSet_insert v l -> w = v \/ w ∈ l.
Proof.
  induction l as [|x l IH]; simpl; [set_solver|]. repeat case_match; set_solver.
Qed.

Lemma IntervalSet_insert_spec v l :
  intervals l -> nonempty v -> (forall w, w ∈ l -> apart v w \/ apart w v) ->
  intervals (IntervalSet_insert v l) /\ IntervalSet_insert v l ≡ₚ v :: l.
Proof.
  intros Hl Hv Hd. induction l as [|x l IH]; simpl.
  - split; [|done]. apply intervals_cons. split; [done|]. split; [by intros w ?%elem_of_nil|apply intervals_nil].
  - pose proof Hl as (Hx & Ha & Hl')%intervals_cons.
    assert (apart v x \/ apart x v) as Hvx by (apply Hd; set_solver).
    unfold apart, nonempty in *. case_cond; [|case_cond].
    + split; [|done]. apply intervals_cons. split; [done|]. split; [|done].
      intros w [->|Hw]%elem_of_cons; unfold apart; [lia|]. specialize (Ha w Hw). lia.
    + exfalso. lia.
    + destruct IH as [IH1 IH2]; [done|intros w Hw; apply Hd; set_solver|]. split.
      * apply intervals_cons. split; [done|]. split; [|done].
        intros w [->|Hw]%IntervalSet_insert_elem; [unfold apart; lia|by apply Ha].
      * rewrite IH2. apply perm_swap.
Qed.

Lemma IntervalSet_remove_Some (k : Z) l v l' :
  IntervalSet_remove k l = Some (v, l') -> key v = k /\ l ≡ₚ v :: l'.
Proof.
  revert l'. induction l as [|x l IH]; simpl; [done|]. intros l'. case_cond.
  - intros [= <- <-]. done.
  - destruct (IntervalSet_remove k l) as [[w l'']|]; simpl; [|done]. intros [= <- <-].
    destruct (IH l'' eq_refl) as [? IHp]. split; [done|]. rewrite IHp. apply perm_swap.
Qed.

Lemma IntervalSet_remove_None (k : Z) l : IntervalSet_remove k l = None <-> forall v, v ∈ l -> key v <> k.
Proof.
  induction l as [|x l IH]; simpl; [set_solver|]. case_cond.
  - split; [done|]. intros H. exfalso. apply (H x); set_solver.
  - destruct (IntervalSet_remove k l) as [[w l'']|]; simpl.
    + split; [done|]. intros H. destruct IH as [_ IH]. by discriminate IH; intros v Hv; apply H; set_solver.
    + split; [|done]. intros _ v [->|Hv]%elem_of_cons; [done|]. by apply IH.
Qed.

Lemma IntervalSet_remove_intervals (k : Z) l v l' :
  intervals l -> IntervalSet_remove k l = Some (v, l') -> intervals l'.
Proof.
  revert l'. induction l as [|x l IH]; simpl; [done|]. intros l' (Hx & Ha & Hl)%intervals_cons. case_cond.
  - by intros [= <- <-].
  - destruct (IntervalSet_remove k l) as [[w l'']|] eqn:Er; simpl; [|done]. intros [= <- <-].
    apply intervals_cons. split; [done|]. split; [|by apply IH].
    apply IntervalSet_remove_Some in Er as [_ Hp]. intros u Hu. apply Ha. rewrite Hp. set_solver.
Qed.

Lemma IntervalSet_remove_spec l v :
  intervals l -> v ∈ l -> exists l', IntervalSet_remove (key v) l = Some (v, l') /\ intervals l' /\ l ≡ₚ v :: l'.
Proof.
  intros Hl Hv. destruct (IntervalSet_remove (key v) l) as [[w l']|] eqn:E.
  - pose proof (IntervalSet_remove_intervals _ _ _ _ Hl E) as Hl'.
    apply IntervalSet_remove_Some in E as [Hk Hp]. assert (w = v) as ->.
    { apply (intervals_key_inj l); [done| |done|done]. rewrite Hp. set_solver. }
    eauto.
  - rewrite IntervalSet_remove_None in E. by destruct (E v Hv).
Qed.

(** The items left after a removal are apart from the item removed. *)
Lemma intervals_perm_apart l v l' :
  intervals l -> l ≡ₚ v :: l' -> forall w, w ∈ l' -> apart v w \/ apart w v.
Proof.
  intros Hl Hp w Hw.
  assert (NoDup (v :: l')) as [Hn _]%NoDup_cons by (rewrite <- Hp; by apply intervals_NoDup).
  assert (v ∈ l) as Hv by (rewrite Hp; set_solver). assert (w ∈ l) as Hw' by (rewrite Hp; set_solver).
  destruct (list_elem_of_split _ _ Hv) as (l1 & l2 & ->).
  apply intervals_app in Hl as (_ & (_ & Ha & _)%intervals_cons & Hc).
  apply elem_of_app in Hw' as [Hw'|[->|Hw']%elem_of_cons]; [|done|left; by apply Ha].
  right. apply Hc; [done|]. set_solver.
Qed.

(** ** Searches *)
Lemma gap_app (p : V -> bool) l : l = before (gap p l) ++ after (gap p l).
Proof. induction l as [|x l IH]; simpl; [done|]. destruct (p x); simpl; congruence. Qed.

Lemma gap_before (p : V -> bool) l v : v ∈ before (gap p l) -> p v = true.
Proof. induction l as [|x l IH]; simpl; [set_solver|]. destruct (p x) eqn:E; simpl; set_solver. Qed.

Lemma gap_after (p : V -> bool) l v :
  intervals l -> (forall a b, key a < key b -> p b = true -> p a = true) -> v ∈ after (gap p l) -> p v = false.
Proof.
  intros Hl Hp. induction l as [|x l IH]; simpl; [set_solver|].
  apply intervals_cons in Hl as (Hx & Ha & Hl). destruct (p x) eqn:E; simpl; [by apply IH|].
  intros [->|Hv]%elem_of_cons; [done|]. apply not_true_iff_false. intros Hpv. specialize (Ha v Hv).
  rewrite (Hp x v) in E; [done| |done]. unfold apart, nonempty in *. lia.
Qed.

(** A gap at [point] with the items split on both sides of it. *)
Lemma lower_bound_split l (point : Z) :
  intervals l -> exists bs als, lower_bound_excluded point l = mkCursor bs als /\ l = bs ++ als /\
    (forall v, v ∈ bs -> key v <= point) /\ (forall v, v ∈ als -> point < key v).
Proof.
  intros Hl. unfold lower_bound_excluded. set (p := fun v => key v <=? point).
  exists (before (gap p l)), (after (gap p l)). split; [by destruct (gap p l)|]. split; [apply gap_app|]. split.
  - intros v Hv%gap_before. by apply Z.leb_le.
  - intros v Hv. apply (gap_after p) in Hv; [by apply Z.leb_gt|done|]. unfold p. intros a b ? ?. boolify. lia.
Qed.

Lemma upper_bound_split l (point : Z) :
  intervals l -> exists bs als, upper_bound_excluded point l = mkCursor bs als /\ l = bs ++ als /\
    (forall v, v ∈ bs -> key v < point) /\ (forall v, v ∈ als -> point <= key v).
Proof.
  intros Hl. unfold upper_bound_excluded. set (p := fun v => key v <? point).
  exists (before (gap p l)), (after (gap p l)). split; [by destruct (gap p l)|]. split; [apply gap_app|]. split.
  - intros v Hv%gap_before. by apply Z.ltb_lt.
  - intros v Hv. apply (gap_after p) in Hv; [by apply Z.ltb_ge|done|]. unfold p. intros a b ? ?. boolify. lia.
Qed.

(** The last item of a list, and how the others lie before it. *)
Lemma last_split l : l = [] /\ last l = None \/ exists k v, l = k ++ [v] /\ last l = Some v.
Proof.
  destruct l as [|x l] using rev_ind; [by left|]. right. exists l, x. by rewrite last_snoc.
Qed.

Lemma last_apart l k v : intervals l -> l = k ++ [v] -> forall w, w ∈ k -> apart w v.
Proof. intros Hl -> w Hw. apply intervals_app in Hl as (_ & _ & Hc). apply Hc; set_solver. Qed.

Lemma find_one_covering l (point : Z) : intervals l -> find_one point l = covering point l.
Proof.
  intros Hl. destruct (lower_bound_split l point Hl) as (bs & als & E & -> & Hb & Ha).
  unfold find_one, peek_prev. rewrite E. cbn [before]. symmetry.
  assert (forall v, v ∈ als -> ~ contains v point) as Hals.
  { intros v Hv [? ?]. specialize (Ha v Hv). lia. }
  pose proof Hl as (Hbs & _ & _)%intervals_app.
  destruct (last_split bs) as [[-> ->]|(k & v & -> & ->)]; [by apply covering_None|].
  assert (forall w, w ∈ k -> ~ contains w point) as Hk.
  { intros w Hw [? ?]. pose proof (last_apart _ _ _ Hbs eq_refl w Hw). unfold apart in *.
    assert (key v <= point) by (apply Hb; set_solver). lia. }
  case_cond.
  - apply covering_Some; [done|]. split; [set_solver|]. split; [apply Hb; set_solver|done].
  - apply covering_None. intros w [[Hw|Hw]%elem_of_app|Hw]%elem_of_app; [by apply Hk| |by apply Hals].
    apply list_elem_of_singleton in Hw as ->. intros [? ?]. lia.
Qed.

Lemma find_prev_spec l (point : Z) :
  intervals l ->
  match find_prev point l with
  | Some v => v ∈ l /\ key v < point /\ (forall w, w ∈ l -> w = v \/ apart w v \/ point <= key w)
  | None => forall w, w ∈ l -> point <= key w
  end.
Proof.
  intros Hl. destruct (upper_bound_split l point Hl) as (bs & als & E & -> & Hb & Ha).
  unfold find_prev, peek_prev. rewrite E. cbn [before].
  pose proof Hl as (Hbs & _ & _)%intervals_app.
  destruct (last_split bs) as [[-> ->]|(k & v & -> & ->)]; [set_solver|].
  split; [set_solver|]. split; [apply Hb; set_solver|].
  intros w [[Hw|Hw]%elem_of_app|Hw]%elem_of_app; [|set_solver|right; right; by apply Ha].
  right. left. by apply (last_apart _ _ _ Hbs eq_refl).
Qed.

Lemma find_next_spec l (point : Z) :
  intervals l ->
  match find_next point l with
  | Some v => v ∈ l /\ point < key v /\ (forall w, w ∈ l -> w = v \/ apart v w \/ key w <= point)
  | None => forall w, w ∈ l -> key w <= point
  end.
Proof.
  intros Hl. destruct (lower_bound_split l point Hl) as (bs & als & E & -> & Hb & Ha).
  unfold find_next, peek_next. rewrite E. cbn [after].
  pose proof Hl as (_ & Hals & _)%intervals_app.
  destruct als as [|v als]; simpl; [rewrite app_nil_r; done|].
  apply intervals_cons in Hals as (_ & Hv & _).
  split; [set_solver|]. split; [apply Ha; set_solver|].
  intros w [Hw|[->|Hw]%elem_of_cons]%elem_of_app; [right; right; by apply Hb|by left|right; left; by apply Hv].
Qed.

(** ** The iterator yields the items that intersect the range, in order *)
Lemma filter_none_of (P : V -> Prop) `{forall v, Decision (P v)} l : (forall v, v ∈ l -> ~ P v) -> filter P l = [].
Proof.
  induction l as [|x l IH]; [done|]. intros Hn. rewrite filter_cons_False by (apply Hn; set_solver).
  apply IH. intros v Hv. apply Hn. set_solver.
Qed.

Lemma collect_following fuel bs als r :
  intervals als -> (forall v, v ∈ als -> r_start r < key v) -> (length als < fuel)%nat ->
  iter_collect fuel (mkIter (mkCursor bs als) r true) = Ret (filter (overlaps r) als).
Proof.
  revert bs als. induction fuel as [|fuel IH]; intros bs als Hl Hk Hf; [lia|].
  cbn [iter_collect]. unfold IntervalIter_next, IntervalIter_following, cursor_next.
  cbn [peeked_prev it_cursor it_range before after].
  destruct als as [|v als]; [done|]. cbn [before after].
  pose proof Hl as (Hv & Ha & Hl')%intervals_cons. unfold nonempty in Hv.
  assert (r_start r < key v) as Hkv by (apply Hk; set_solver). unfold key in *. case_cond.
  - rewrite filter_none_of; [done|]. intros w [->|Hw]%elem_of_cons [? ?]; [unfold key in *; lia|].
    specialize (Ha w Hw). unfold apart, key in *. lia.
  - rewrite (IH (bs ++ [v]) als); [|done| |cbn in Hf; lia].
    + rewrite filter_cons_True by (unfold overlaps, key; lia). done.
    + intros w Hw. apply Hk. set_solver.
Qed.

Lemma iter_collect_S n (it : IntervalIter V) :
  iter_collect (S n) it =
  match IntervalIter_next it with
  | (None, _) => Ret []
  | (Some v, it') => vs ← iter_collect n it'; Ret (v :: vs)
  end.
Proof. done. Qed.

Lemma find_all_spec l r :
  intervals l -> r_start r < r_end r -> find_all r l = Ret (filter (overlaps r) l).
Proof.
  intros Hl Hr. destruct (lower_bound_split l (r_start r) Hl) as (bs & als & E & -> & Hb & Ha).
  unfold find_all, find. rewrite E. pose proof Hl as (Hbs & Hals & _)%intervals_app.
  rewrite length_app. rewrite filter_app.
  assert (forall fuel, (length als < fuel)%nat ->
    iter_collect fuel (mkIter (mkCursor bs als) r true) = Ret (filter (overlaps r) als)) as Hcol
    by (intros; by apply collect_following).
  destruct (last_split bs) as [[-> _]|(k & v & -> & Hlast)].
  { rewrite Nat.add_comm. cbn. rewrite <- Hcol with (fuel := S (S (length als))) by lia. done. }
  rewrite (filter_app (overlaps r) k).
  rewrite (filter_none_of _ k).
  2: { intros w Hw [? ?]. pose proof (last_apart _ _ _ Hbs eq_refl w Hw). unfold apart in *.
       assert (key v <= r_start r) by (apply Hb; set_solver). lia. }
  rewrite Nat.add_comm. cbn [plus]. rewrite iter_collect_S. unfold IntervalIter_next. cbn [peeked_prev it_cursor it_range].
  unfold peek_prev. cbn [before]. rewrite Hlast.
  assert (key v <= r_start r) by (apply Hb; set_solver). case_cond.
  - rewrite Hcol by (rewrite length_app; cbn; lia). rewrite filter_cons_True by (unfold overlaps; lia). done.
  - rewrite filter_cons_False by (unfold overlaps; lia). change (([] ++ filter (overlaps r) []) ++ filter (overlaps r) als) with (filter (overlaps r) als).
    specialize (Hcol (S (S (length (k ++ [v]) + length als)))). rewrite iter_collect_S in Hcol.
    rewrite <- Hcol by lia. done.
Qed.

Lemma find_all_elem l r vs v :
  intervals l -> r_start r < r_end r -> find_all r l = Ret vs -> v ∈ vs <-> v ∈ l /\ overlaps r v.
Proof. intros Hl Hr. rewrite find_all_spec by done. intros [= <-]. rewrite list_elem_of_filter. tauto. Qed.

Lemma intervals_filter (P : V -> Prop) `{forall v, Decision (P v)} l : intervals l -> intervals (filter P l).
Proof.
  induction l as [|x l IH]; [done|]. intros (Hx & Ha & Hl)%intervals_cons. rewrite filter_cons. case_decide; [|by apply IH].
  apply intervals_cons. split; [done|]. split; [|by apply IH]. intros w [_ Hw]%list_elem_of_filter. by apply Ha.
Qed.
End facts.
