(* ===== verification/VmMapping.v ===== *)
(** * Memory mappings

    [kernel/core/src/vm/perms.rs] and [kernel/core/src/vm/vmar/vm_mapping.rs]: the permissions of a
    mapping, the memory behind it, and how mappings are split, enlarged, moved and merged.

    An [Arc] is the identity of the object it points to, a natural number.  A memory object ([Vmo])
    counts the mappings that may be made writable; a [MappedVmo] adds itself to the counter when it is
    created or duplicated and takes itself off when it is dropped, so the operations that create or
    drop one take and return the state of the memory objects.  [debug_assert!] is taken as [assert!].

    The addresses of mappings lie below [VMAR_CAP_ADDR], so sums of addresses and sizes do not
    overflow and are sums of integers. *)

From S2P Require Import Prelude Flags Align IntervalSet.

(** ** Permissions *)
Definition VmPerms_READ : Z := 2 ^ 0.
Definition VmPerms_WRITE : Z := 2 ^ 1.
Definition VmPerms_EXEC : Z := 2 ^ 2.
Definition VmPerms_MAY_READ : Z := 2 ^ 3.
Definition VmPerms_MAY_WRITE : Z := 2 ^ 4.
Definition VmPerms_MAY_EXEC : Z := 2 ^ 5.
Definition VmPerms_ALL_PERMS : Z := 7.
Definition VmPerms_ALL_MAY_PERMS : Z := 56.
Definition VmPerms_all : Z := 63.

(** [PageFlags] of [ostd/src/mm/page_prop.rs]. *)
Definition PageFlags_R : Z := 2 ^ 0.
Definition PageFlags_W : Z := 2 ^ 1.
Definition PageFlags_X : Z := 2 ^ 2.
Definition PageFlags_ACCESSED : Z := 2 ^ 3.
Definition PageFlags_DIRTY : Z := 2 ^ 4.

Section perms.
Context `{BF : Bitflags}.

Definition VmPerms_check (p : Z) : result unit :=
  let requested := bf_intersection p VmPerms_ALL_PERMS in
  let allowed :=
    bf_from_bits_truncate VmPerms_all (Z.shiftr (bf_intersection p VmPerms_ALL_MAY_PERMS) 3) in
  if negb (bf_contains allowed requested) then Err EACCES else Ok tt.

Definition VmPerms_from_user_bits (bits : Z) : result Z :=
  match bf_from_bits VmPerms_all bits with
  | Some vm_perms => if bf_contains VmPerms_ALL_PERMS vm_perms then Ok vm_perms else Err EINVAL
  | None => Err EINVAL
  end.

Definition VmPerms_from_user_bits_truncate (bits : Z) : Z :=
  bf_intersection (bf_from_bits_truncate VmPerms_all bits) VmPerms_ALL_PERMS.

Definition VmPerms_from_flags (flags : Z) : Z :=
  let perms := 0 in
  let perms := if bf_contains flags PageFlags_R then bf_union perms VmPerms_READ else perms in
  let perms := if bf_contains flags PageFlags_W then bf_union perms VmPerms_WRITE else perms in
  if bf_contains flags PageFlags_X then bf_union perms VmPerms_EXEC else perms.

Definition PageFlags_from_perms (val : Z) : Z :=
  let flags := 0 in
  let flags := if bf_contains val VmPerms_READ then bf_union flags PageFlags_R else flags in
  let flags := if bf_contains val VmPerms_WRITE then bf_union flags PageFlags_W else flags in
  if bf_contains val VmPerms_EXEC then bf_union flags PageFlags_X else flags.
End perms.

(** ** Memory objects *)

(** [RmapEntry] and [Rmap] of [rmap.rs]; the keys of the reverse mappings are address spaces. *)
Record RmapEntry := mkEntry { re_vaddr : Z; re_offset : Z; re_size : Z }.

#[export] Instance RmapEntry_eq_dec : EqDecision RmapEntry.
Proof. solve_decision. Defined.

(** [VmoMapMode] of [page_cache/vmo/mod.rs]: what a page fault wants a page for. *)
Inductive VmoMapMode := ModePrivate | ModeSharedRead | ModeSharedWrite.

#[export] Instance VmoMapMode_eq_dec : EqDecision VmoMapMode.
Proof. solve_decision. Defined.

(** What the address spaces use of a [Vmo]. *)
Record VmoState := mkVmo { writable_mapping_status : Z; rmap : gmap nat (list RmapEntry) }.

#[export] Instance VmoState_inhabited : Inhabited VmoState := populate (mkVmo 0 ∅).

Notation Vmos := (gmap nat VmoState).

Definition with_status (v : VmoState) (s : Z) : VmoState := mkVmo s (rmap v).
Definition with_rmap (v : VmoState) (r : gmap nat (list RmapEntry)) : VmoState :=
  mkVmo (writable_mapping_status v) r.

(** [WritableMappingStatus] of [page_cache/vmo/mod.rs]. *)
Definition WritableMappingStatus_map (w : Vmos) (id : nat) : result Vmos :=
  let v := w !!! id in
  if 0 <=? writable_mapping_status v
  then Ok (<[id := with_status v (writable_mapping_status v + 1)]> w)
  else Err EPERM.

Definition WritableMappingStatus_deny (w : Vmos) (id : nat) : result Vmos :=
  let v := w !!! id in
  if writable_mapping_status v <=? 0 then Ok (<[id := with_status v (-1)]> w) else Err EBUSY.

Definition WritableMappingStatus_increment (w : Vmos) (id : nat) : Vmos :=
  let v := w !!! id in <[id := with_status v (writable_mapping_status v + 1)]> w.

Definition WritableMappingStatus_decrement (w : Vmos) (id : nat) : Vmos :=
  let v := w !!! id in <[id := with_status v (writable_mapping_status v - 1)]> w.

(** [Rmap::insert] and [Rmap::remove], on the reverse mappings of one memory object.  [swap_remove]
    puts the last entry in the place of the one removed. *)
Definition Rmap_insert (vmar : nat) (e : RmapEntry) (r : gmap nat (list RmapEntry)) : gmap nat (list RmapEntry) :=
  <[vmar := default [] (r !! vmar) ++ [e]]> r.

Definition swap_remove {A} (l : list A) (i : nat) : run (list A) :=
  x ← unwrap (last l);
  l ← vec_set l i x;
  Ret (removelast l).

Definition Rmap_remove (vmar : nat) (vaddr : Z) (r : gmap nat (list RmapEntry)) : run (gmap nat (list RmapEntry)) :=
  entries ← unwrap (r !! vmar);
  index ← unwrap (position (fun e => re_vaddr e =? vaddr) entries);
  entries ← swap_remove entries index;
  Ret (match entries with [] => delete vmar r | _ => <[vmar := entries]> r end).

(** ** Mapped memory *)
Record MappedVmo := mkMappedVmo { mv_vmo : nat; mv_offset : Z; is_writable_tracked : bool }.

(** The two types that implement [MappedObject]: the frame buffer of [device/fb.rs] and the GEM
    objects of [comps/drm/src/gem/shmem.rs]. *)
Inductive MappedObject :=
  | FbMapHandle
  | DrmGemShmemMappedObject (backend : nat) (object_offset : Z).

Inductive MappedMemory :=
  | Anonymous
  | Vmo (v : MappedVmo)
  | Device (o : MappedObject).

Inductive MmapMode := Private | Shared.

Inductive RssType := RssFile | RssAnon.

#[export] Instance MappedVmo_eq_dec : EqDecision MappedVmo.
Proof. solve_decision. Defined.
#[export] Instance MappedObject_eq_dec : EqDecision MappedObject.
Proof. solve_decision. Defined.
#[export] Instance MappedMemory_eq_dec : EqDecision MappedMemory.
Proof. solve_decision. Defined.
#[export] Instance MmapMode_eq_dec : EqDecision MmapMode.
Proof. solve_decision. Defined.
#[export] Instance RssType_eq_dec : EqDecision RssType.
Proof. solve_decision. Defined.

Definition is_shared (m : MmapMode) : bool := match m with Shared => true | Private => false end.

Definition MappedObject_dup_at_offset (o : MappedObject) (offset : Z) : MappedObject :=
  match o with
  | FbMapHandle => FbMapHandle
  | DrmGemShmemMappedObject b object_offset => DrmGemShmemMappedObject b (object_offset + offset)
  end.

Definition MappedVmo_new (vmo : nat) (offset : Z) (tracked : bool) (w : Vmos) : result (MappedVmo * Vmos) :=
  w ← (if tracked then WritableMappingStatus_map w vmo else Ok w);
  Ok (mkMappedVmo vmo offset tracked, w).

Definition MappedVmo_dup_at_offset (v : MappedVmo) (offset : Z) (w : Vmos) : MappedVmo * Vmos :=
  let w := if is_writable_tracked v then WritableMappingStatus_increment w (mv_vmo v) else w in
  (mkMappedVmo (mv_vmo v) offset (is_writable_tracked v), w).

Definition MappedVmo_dup (v : MappedVmo) (w : Vmos) : MappedVmo * Vmos := MappedVmo_dup_at_offset v (mv_offset v) w.

Definition MappedVmo_drop (v : MappedVmo) (w : Vmos) : Vmos :=
  if is_writable_tracked v then WritableMappingStatus_decrement w (mv_vmo v) else w.

Definition MappedMemory_dup (m : MappedMemory) (w : Vmos) : MappedMemory * Vmos :=
  match m with
  | Anonymous => (Anonymous, w)
  | Vmo v => let '(v, w) := MappedVmo_dup v w in (Vmo v, w)
  | Device o => (Device (MappedObject_dup_at_offset o 0), w)
  end.

Definition MappedMemory_dup_at_offset (m : MappedMemory) (offset : Z) (w : Vmos) : run (MappedMemory * Vmos) :=
  _ ← assert_run (is_multiple_of offset PAGE_SIZE);
  Ret (match m with
       | Anonymous => (Anonymous, w)
       | Vmo v => let '(v, w) := MappedVmo_dup_at_offset v (offset + mv_offset v) w in (Vmo v, w)
       | Device o => (Device (MappedObject_dup_at_offset o offset), w)
       end).

Definition MappedMemory_drop (m : MappedMemory) (w : Vmos) : Vmos :=
  match m with Vmo v => MappedVmo_drop v w | _ => w end.

(** ** Mappings *)
Record VmMapping := mkMapping {
  map_size : Z;
  map_to_addr : Z;
  mapped_mem : MappedMemory;
  file : option nat;
  map_mode : MmapMode;
  handle_page_faults_around : bool;
  perms : Z
}.

#[export] Instance VmMapping_eq_dec : EqDecision VmMapping.
Proof. solve_decision. Defined.

Definition map_end (m : VmMapping) : Z := map_to_addr m + map_size m.

#[export] Instance VmMapping_interval : Interval VmMapping := fun m => mkRange (map_to_addr m) (map_end m).

(** [VmMapping { map_size, map_to_addr, mapped_mem, ..*m }]. *)
Definition with_place (m : VmMapping) (size addr : Z) (mem : MappedMemory) : VmMapping :=
  mkMapping size addr mem (file m) (map_mode m) (handle_page_faults_around m) (perms m).

Definition with_perms (m : VmMapping) (p : Z) : VmMapping :=
  mkMapping (map_size m) (map_to_addr m) (mapped_mem m) (file m) (map_mode m) (handle_page_faults_around m) p.

(** [NonZeroUsize::new(_).unwrap()]. *)
Definition nonzero (n : Z) : run Z := if n =? 0 then Panic else Ret n.

Definition VmMapping_drop (m : VmMapping) (w : Vmos) : Vmos := MappedMemory_drop (mapped_mem m) w.

Definition new_fork (m : VmMapping) (w : Vmos) : VmMapping * Vmos :=
  let '(mem, w) := MappedMemory_dup (mapped_mem m) w in
  (with_place m (map_size m) (map_to_addr m) mem, w).

Definition clone_for_remap_at (m : VmMapping) (va : Z) (w : Vmos) : VmMapping * Vmos :=
  let '(m, w) := new_fork m w in
  (with_place m (map_size m) va (mapped_mem m), w).

Definition clone_range_for_remap_at (m : VmMapping) (r : Range) (va : Z) (w : Vmos) : run (VmMapping * Vmos) :=
  let offset_in_mapping := r_start r - map_to_addr m in
  size ← nonzero (r_end r - r_start r);
  '(mem, w) ← MappedMemory_dup_at_offset (mapped_mem m) offset_in_mapping w;
  Ret (with_place m size va mem, w).

Definition vmo (m : VmMapping) : option MappedVmo :=
  match mapped_mem m with Vmo v => Some v | _ => None end.

Definition vmo_for_rmap (m : VmMapping) : option nat :=
  match mapped_mem m with
  | Vmo v => if is_shared (map_mode m) then Some (mv_vmo v) else None
  | _ => None
  end.

Definition rss_type (m : VmMapping) : RssType :=
  match mapped_mem m with Anonymous => RssAnon | Vmo _ => RssFile | Device _ => RssFile end.

Definition can_expand (m : VmMapping) : bool :=
  match mapped_mem m with Device _ => false | _ => true end.

Definition enlarge (m : VmMapping) (extra_size : Z) : run VmMapping :=
  size ← nonzero (map_size m + extra_size);
  Ret (with_place m size (map_to_addr m) (mapped_mem m)).

Definition split (m : VmMapping) (at_ : Z) (w : Vmos) : run (VmMapping * VmMapping * Vmos) :=
  _ ← assert_run ((map_to_addr m <? at_) && (at_ <? map_end m));
  _ ← assert_run (is_multiple_of at_ PAGE_SIZE);
  let left_size := at_ - map_to_addr m in
  let right_size := map_size m - left_size in
  '(r_mapped_mem, w) ← MappedMemory_dup_at_offset (mapped_mem m) left_size w;
  left_size ← nonzero left_size;
  right_size ← nonzero right_size;
  Ret (with_place m left_size (map_to_addr m) (mapped_mem m), with_place m right_size at_ r_mapped_mem, w).

Definition split_range (m : VmMapping) (r : Range) (w : Vmos) :
    run (option VmMapping * VmMapping * option VmMapping * Vmos) :=
  let mapping_range := range m in
  if (r_start r <=? r_start mapping_range) && (r_end mapping_range <=? r_end r) then
    Ret (None, m, None, w)
  else if r_start mapping_range <? r_start r then
    '(lft, within, w) ← split m (r_start r) w;
    if r_end r <? r_end mapping_range then
      '(within, rgt, w) ← split within (r_end r) w;
      Ret (Some lft, within, Some rgt, w)
    else Ret (Some lft, within, None, w)
  else if range_contains mapping_range (r_end r) then
    '(within, rgt, w) ← split m (r_end r) w;
    Ret (None, within, Some rgt, w)
  else Panic.

(** [try_merge]: the new memory is a duplicate of the left one. *)
Definition try_merge (left right : VmMapping) (w : Vmos) : run (option (VmMapping * Vmos)) :=
  let is_adjacent := map_end left =? map_to_addr right in
  let is_type_equal :=
    bool_decide (map_mode left = map_mode right) &&
    bool_decide (handle_page_faults_around left = handle_page_faults_around right) &&
    (perms left =? perms right) &&
    bool_decide (file left = file right) in
  if negb is_adjacent || negb is_type_equal then Ret None
  else
    match mapped_mem left, mapped_mem right with
    | Anonymous, Anonymous =>
        size ← nonzero (map_size left + map_size right);
        Ret (Some (with_place left size (map_to_addr left) Anonymous, w))
    | Vmo l, Vmo r =>
        if (mv_vmo l =? mv_vmo r)%nat && (mv_offset l + map_size left =? mv_offset r) then
          let '(v, w) := MappedVmo_dup l w in
          size ← nonzero (map_size left + map_size right);
          Ret (Some (with_place left size (map_to_addr left) (Vmo v), w))
        else Ret None
    | _, _ => Ret None
    end.

(** [self.try_merge_with(vm_mapping)]; [self] is dropped when a merged mapping takes its place. *)
Definition try_merge_with (self vm_mapping : VmMapping) (w : Vmos) : run (VmMapping * option Z * Vmos) :=
  _ ← assert_run (negb (is_intersected (range self) (range vm_mapping)));
  let '(lft, rgt) :=
    if map_to_addr self <? map_to_addr vm_mapping then (self, vm_mapping) else (vm_mapping, self) in
  merged ← try_merge lft rgt w;
  Ret (match merged with
       | Some (merged, w) => (merged, Some (map_to_addr vm_mapping), VmMapping_drop self w)
       | None => (self, None, w)
       end).

(** ** What a mapping means at an address *)
Inductive Backing :=
  | OnAnonymous
  | OnVmo (vmo : nat) (offset : Z)
  | OnDevice (o : MappedObject).

Definition backing (mem : MappedMemory) (offset : Z) : Backing :=
  match mem with
  | Anonymous => OnAnonymous
  | Vmo v => OnVmo (mv_vmo v) (mv_offset v + offset)
  | Device o => OnDevice (MappedObject_dup_at_offset o offset)
  end.

Record Attr := mkAttr {
  a_perms : Z;
  a_mode : MmapMode;
  a_file : option nat;
  a_around : bool;
  a_backing : Backing
}.

(** The attributes of the byte at address [x] of a mapping. *)
Definition attr_at (m : VmMapping) (x : Z) : Attr :=
  mkAttr (perms m) (map_mode m) (file m) (handle_page_faults_around m)
    (backing (mapped_mem m) (x - map_to_addr m)).

(** The address space as a function: the attributes of each address. *)
Definition view (l : list VmMapping) (x : Z) : option Attr := (fun m => attr_at m x) <$> covering x l.

(** The mapping cut down to [a, b). *)
Definition mem_from (mem : MappedMemory) (offset : Z) : MappedMemory :=
  match mem with
  | Anonymous => Anonymous
  | Vmo v => Vmo (mkMappedVmo (mv_vmo v) (offset + mv_offset v) (is_writable_tracked v))
  | Device o => Device (MappedObject_dup_at_offset o offset)
  end.

Definition sub (m : VmMapping) (a b : Z) : VmMapping :=
  with_place m (b - a) a (mem_from (mapped_mem m) (a - map_to_addr m)).

(** The memory object on whose counter of writable mappings a mapping stands. *)
Definition tracked (m : VmMapping) : option nat :=
  match mapped_mem m with Vmo v => if is_writable_tracked v then Some (mv_vmo v) else None | _ => None end.

Definition add_tracked (m : VmMapping) (n : Z) (w : Vmos) : Vmos :=
  match tracked m with
  | Some id => <[id := with_status (w !!! id) (writable_mapping_status (w !!! id) + n)]> w
  | None => w
  end.

(** ** Splitting *)
Definition page_aligned (x : Z) : Prop := x mod PAGE_SIZE = 0.

Lemma is_multiple_of_spec x : is_multiple_of x PAGE_SIZE = true <-> page_aligned x.
Proof. unfold is_multiple_of, page_aligned. apply Z.eqb_eq. Qed.

Lemma page_aligned_sub x y : page_aligned x -> page_aligned y -> page_aligned (x - y).
Proof. unfold page_aligned. intros Hx Hy. by rewrite Zminus_mod, Hx, Hy. Qed.

Lemma page_aligned_add x y : page_aligned x -> page_aligned y -> page_aligned (x + y).
Proof. unfold page_aligned. intros Hx Hy. by rewrite Zplus_mod, Hx, Hy. Qed.

Definition mapping_ok (m : VmMapping) : Prop :=
  0 < map_size m /\ page_aligned (map_to_addr m) /\ page_aligned (map_size m).

Lemma mapping_ok_end m : mapping_ok m -> page_aligned (map_end m).
Proof. intros (_ & ? & ?). by apply page_aligned_add. Qed.

Lemma mem_from_0 mem : mem_from mem 0 = mem.
Proof. destruct mem as [|[v o t]|[|b o]]; simpl; rewrite ?Z.add_0_r; done. Qed.

Lemma mem_from_from mem a b : mem_from (mem_from mem a) b = mem_from mem (a + b).
Proof. destruct mem as [|[v o t]|[|b' o]]; simpl; do 2 f_equal; lia. Qed.

Lemma backing_from mem a b : backing (mem_from mem a) b = backing mem (a + b).
Proof. destruct mem as [|[v o t]|[|b' o]]; simpl; repeat (f_equal; try lia). Qed.

Lemma sub_self m : sub m (map_to_addr m) (map_end m) = m.
Proof.
  unfold sub, with_place, map_end. rewrite Z.sub_diag, mem_from_0.
  destruct m; simpl. f_equal. lia.
Qed.

Lemma sub_sub m a b c d : sub (sub m a b) c d = sub m c d.
Proof. unfold sub, with_place. simpl. rewrite mem_from_from. do 2 f_equal. lia. Qed.

Lemma attr_at_sub m a b x : attr_at (sub m a b) x = attr_at m x.
Proof. unfold attr_at, sub, with_place. simpl. rewrite backing_from. do 2 f_equal. lia. Qed.

Lemma map_end_sub m a b : map_end (sub m a b) = b.
Proof. unfold map_end. simpl. lia. Qed.

Lemma tracked_sub m a b : tracked (sub m a b) = tracked m.
Proof. unfold tracked. simpl. by destruct (mapped_mem m). Qed.

Lemma rss_type_sub m a b : rss_type (sub m a b) = rss_type m.
Proof. unfold rss_type. simpl. by destruct (mapped_mem m). Qed.

Lemma vmo_for_rmap_sub m a b : vmo_for_rmap (sub m a b) = vmo_for_rmap m.
Proof. unfold vmo_for_rmap. simpl. by destruct (mapped_mem m). Qed.

Lemma add_tracked_sub m a b n w : add_tracked (sub m a b) n w = add_tracked m n w.
Proof. unfold add_tracked. by rewrite tracked_sub. Qed.

Lemma add_tracked_add m n k w : add_tracked m n (add_tracked m k w) = add_tracked m (n + k) w.
Proof.
  unfold add_tracked. destruct (tracked m) as [id|]; [|done].
  rewrite lookup_total_insert_eq, insert_insert_eq. unfold with_status. simpl. do 2 f_equal. lia.
Qed.

(** What can be seen of the memory objects. *)
Definition status (w : Vmos) (id : nat) : Z := writable_mapping_status (w !!! id).
Definition rmap_of (w : Vmos) (id vmar : nat) : list RmapEntry := default [] (rmap (w !!! id) !! vmar).

Definition tracks (m : VmMapping) (id : nat) : Z := if decide (tracked m = Some id) then 1 else 0.

(** The counters change by [n] for the object that [m] is tracked on, and nothing else does. *)
Definition status_delta (m : VmMapping) (n : Z) (w w' : Vmos) : Prop :=
  (forall id, status w' id = status w id + n * tracks m id) /\ (forall id, rmap (w' !!! id) = rmap (w !!! id)).

Lemma status_delta_0 m w : status_delta m 0 w w.
Proof. split; intros; lia || done. Qed.

Lemma status_delta_add m n w : status_delta m n w (add_tracked m n w).
Proof.
  unfold status_delta, status, tracks, add_tracked. destruct (tracked m) as [k|].
  - split; intros id; destruct (decide (k = id)) as [->|Hne].
    + rewrite lookup_total_insert_eq, decide_True by done. simpl. lia.
    + rewrite lookup_total_insert_ne, decide_False by congruence. lia.
    + by rewrite lookup_total_insert_eq.
    + by rewrite lookup_total_insert_ne.
  - split; intros id; [rewrite decide_False by done; lia|done].
Qed.

Lemma status_delta_trans m n k w1 w2 w3 : status_delta m n w1 w2 -> status_delta m k w2 w3 -> status_delta m (n + k) w1 w3.
Proof.
  intros [S1 R1] [S2 R2]. split; intros id; [rewrite S2, S1; lia|by rewrite R2, R1].
Qed.

Lemma mapping_ok_sub m a b :
  a < b -> page_aligned a -> page_aligned b -> mapping_ok (sub m a b).
Proof. intros. unfold mapping_ok. simpl. repeat split; [lia|done|by apply page_aligned_sub]. Qed.

Lemma dup_at_offset_eq mem offset w :
  page_aligned offset ->
  MappedMemory_dup_at_offset mem offset w =
  Ret (mem_from mem offset, add_tracked (mkMapping 0 0 mem None Private false 0) 1 w).
Proof.
  intros Ho%is_multiple_of_spec. unfold MappedMemory_dup_at_offset. rewrite Ho. cbn.
  by destruct mem as [|[v o []]|]; cbn.
Qed.

Lemma VmMapping_drop_eq m w : VmMapping_drop m w = add_tracked m (-1) w.
Proof.
  unfold VmMapping_drop, add_tracked, tracked, MappedMemory_drop, MappedVmo_drop, WritableMappingStatus_decrement.
  by destruct (mapped_mem m) as [|[v o []]|]; cbn.
Qed.

Lemma split_eq m at_ w :
  mapping_ok m -> map_to_addr m < at_ < map_end m -> page_aligned at_ ->
  split m at_ w = Ret (sub m (map_to_addr m) at_, sub m at_ (map_end m), add_tracked m 1 w).
Proof.
  intros (Hs & Ha & Hz) [H1 H2] Hat. unfold split. unfold map_end in *.
  rewrite (proj2 (Z.ltb_lt _ _) H1), (proj2 (Z.ltb_lt _ _) H2), (proj2 (is_multiple_of_spec _) Hat). cbn.
  rewrite dup_at_offset_eq by by apply page_aligned_sub. cbn.
  unfold nonzero. rewrite !(proj2 (Z.eqb_neq _ _)) by lia. cbn.
  unfold sub. rewrite Z.sub_diag, mem_from_0. do 3 f_equal. f_equal. lia.
Qed.

(** The pieces of a mapping that a range within it cuts. *)
Definition left_of (m : VmMapping) (r : Range) : option VmMapping :=
  if map_to_addr m <? r_start r then Some (sub m (map_to_addr m) (r_start r)) else None.
Definition right_of (m : VmMapping) (r : Range) : option VmMapping :=
  if r_end r <? map_end m then Some (sub m (r_end r) (map_end m)) else None.

Definition pieces (m : VmMapping) (r : Range) : list VmMapping :=
  option_list (left_of m r) ++ option_list (right_of m r).

Lemma split_range_spec m r w :
  mapping_ok m -> map_to_addr m <= r_start r -> r_start r < r_end r -> r_end r <= map_end m ->
  page_aligned (r_start r) -> page_aligned (r_end r) ->
  exists w', split_range m r w = Ret (left_of m r, sub m (r_start r) (r_end r), right_of m r, w') /\
    status_delta m (Z.of_nat (length (pieces m r))) w w'.
Proof.
  intros Hm H1 H2 H3 Ha Hb. unfold split_range, pieces, left_of, right_of. cbn [range VmMapping_interval r_start r_end].
  case_cond; [|case_cond].
  - assert (r_start r = map_to_addr m) as -> by lia. assert (r_end r = map_end m) as -> by lia.
    rewrite !Z.ltb_irrefl, sub_self. eexists. split; [done|]. apply status_delta_0.
  - rewrite split_eq by (done || lia). cbn [mbind run_bind]. case_cond.
    + rewrite split_eq.
      * cbn [mbind run_bind]. rewrite map_end_sub, !sub_sub, add_tracked_sub, add_tracked_add.
        eexists. split; [done|]. apply status_delta_add.
      * apply mapping_ok_sub; [lia|done|by apply mapping_ok_end].
      * cbn. rewrite map_end_sub. lia.
      * done.
    + assert (r_end r = map_end m) as -> by lia. eexists. split; [done|]. apply status_delta_add.
  - assert (r_start r = map_to_addr m) as -> by lia. destruct E as [E|E]; boolify; [lia|].
    unfold range_contains. cbn [range VmMapping_interval r_start r_end].
    rewrite (proj2 (Z.leb_le _ _)), (proj2 (Z.ltb_lt _ _)) by lia. cbn [andb].
    rewrite split_eq by (done || lia). eexists. split; [done|]. apply status_delta_add.
Qed.

(** ** Merging *)
Definition mergeable (lft rgt : VmMapping) : bool :=
  (map_end lft =? map_to_addr rgt) && bool_decide (map_mode lft = map_mode rgt) &&
  bool_decide (handle_page_faults_around lft = handle_page_faults_around rgt) &&
  (perms lft =? perms rgt) && bool_decide (file lft = file rgt) &&
  match mapped_mem lft, mapped_mem rgt with
  | Anonymous, Anonymous => true
  | Vmo l, Vmo r => (mv_vmo l =? mv_vmo r)%nat && (mv_offset l + map_size lft =? mv_offset r)
  | _, _ => false
  end.

Definition merged (lft rgt : VmMapping) : VmMapping :=
  with_place lft (map_size lft + map_size rgt) (map_to_addr lft) (mapped_mem lft).

Lemma try_merge_spec lft rgt w :
  0 < map_size lft -> 0 < map_size rgt ->
  if mergeable lft rgt
  then exists w', try_merge lft rgt w = Ret (Some (merged lft rgt, w')) /\ status_delta lft 1 w w'
  else try_merge lft rgt w = Ret None.
Proof.
  intros Hl Hr. unfold mergeable, try_merge, merged.
  destruct (map_end lft =? map_to_addr rgt), (bool_decide (map_mode lft = map_mode rgt)),
    (bool_decide (handle_page_faults_around lft = handle_page_faults_around rgt)),
    (perms lft =? perms rgt), (bool_decide (file lft = file rgt)); cbn [andb orb negb]; try done.
  unfold nonzero. rewrite (proj2 (Z.eqb_neq _ _)) by lia.
  destruct (mapped_mem lft) as [|[v o t]|] eqn:El, (mapped_mem rgt) as [|[v' o' t']|] eqn:Er; try done.
  - eexists. split; [done|]. pose proof (status_delta_add lft 1 w) as H.
    unfold add_tracked, tracked in H. by rewrite El in H.
  - cbn [mv_vmo mv_offset]. destruct ((v =? v')%nat && (o + map_size lft =? o')); [|done].
    eexists. split; [done|]. pose proof (status_delta_add lft 1 w) as H.
    unfold add_tracked, tracked in H. rewrite El in H. by destruct t.
Qed.

(** Mappings are merged exactly when they are adjacent and, as functions of the address, carry the same
    attributes; mappings of devices never are. *)
Lemma mergeable_attr lft rgt x : mergeable lft rgt = true -> attr_at rgt x = attr_at lft x.
Proof.
  unfold mergeable, attr_at, map_end. intros H. boolify.
  destruct (mapped_mem lft) as [|[v o t]|], (mapped_mem rgt) as [|[v' o' t']|]; try done; f_equal; try congruence.
  boolify. cbn in *. f_equal; [congruence|lia].
Qed.

Lemma mergeable_adjacent lft rgt : mergeable lft rgt = true -> map_end lft = map_to_addr rgt.
Proof. unfold mergeable. intros H. boolify. done. Qed.

Lemma mergeable_iff lft rgt :
  can_expand lft = true -> can_expand rgt = true ->
  mergeable lft rgt = true <-> map_end lft = map_to_addr rgt /\ (forall x, attr_at lft x = attr_at rgt x).
Proof.
  intros Hl Hr. split.
  - intros H. split; [by apply mergeable_adjacent|]. intros x. symmetry. by apply mergeable_attr.
  - unfold mergeable, attr_at, can_expand, map_end in *. intros [Ha H]. specialize (H (map_to_addr rgt)).
    injection H as -> -> -> -> Hb. rewrite Ha, !Z.eqb_refl, !bool_decide_true by done. cbn [andb].
    destruct (mapped_mem lft) as [|[v o t]|], (mapped_mem rgt) as [|[v' o' t']|]; try done.
    cbn in *. injection Hb as -> Hb. rewrite Nat.eqb_refl. cbn. apply Z.eqb_eq. lia.
Qed.

Lemma attr_at_merged lft rgt x : attr_at (merged lft rgt) x = attr_at lft x.
Proof. done. Qed.

Lemma map_end_merged lft rgt : mergeable lft rgt = true -> map_end (merged lft rgt) = map_end rgt.
Proof. intros H%mergeable_adjacent. unfold map_end in *. simpl. lia. Qed.

Lemma mergeable_rss lft rgt : mergeable lft rgt = true -> rss_type rgt = rss_type lft.
Proof.
  unfold mergeable, rss_type. intros H. boolify. by destruct (mapped_mem lft), (mapped_mem rgt).
Qed.

Lemma mergeable_rmap lft rgt : mergeable lft rgt = true -> vmo_for_rmap rgt = vmo_for_rmap lft.
Proof.
  unfold mergeable, vmo_for_rmap. intros H. boolify.
  destruct (mapped_mem lft), (mapped_mem rgt); try done. boolify.
  destruct (is_shared (map_mode lft)) eqn:El, (is_shared (map_mode rgt)) eqn:Er; congruence.
Qed.
