(* ===== verification/Vmar.v ===== *)
(** * Address spaces

    [kernel/core/src/vm/vmar/vmar_impls/mod.rs] and the methods of [vm_mapping.rs] that touch the page
    table: the tree of mappings with the total size, the resident-set counters, the reverse mappings of
    the memory objects, and the allocation of regions.

    The page table ([ostd::mm::VmSpace]) is the finite map from page addresses to entries that its
    cursors offer: only pages of memory are modelled, not pages of I/O memory.  A cursor is created
    with [cursor_mut(&range).unwrap()], which panics on an empty, unaligned or too high range.
    Translation caches are not modelled. *)

From S2P Require Import Prelude Flags Align IntervalSet VmMapping.

Definition VMAR_LOWEST_ADDR : Z := 0x10000.
Definition MAX_USERSPACE_VADDR : Z := Z.shiftl 0x4000000000 9 - PAGE_SIZE.
Definition VMAR_CAP_ADDR : Z := MAX_USERSPACE_VADDR.
Definition MAP_32BIT_HIGH_LIMIT : Z := 0x80000000.
Definition INIT_STACK_SIZE : Z := 8 * 1024 * 1024.

Definition is_userspace_vaddr (vaddr : Z) : bool :=
  range_contains (mkRange VMAR_LOWEST_ADDR VMAR_CAP_ADDR) vaddr.

Definition is_userspace_vaddr_range (vaddr len : Z) : bool :=
  (VMAR_LOWEST_ADDR <=? vaddr) &&
  ((vaddr <=? VMAR_CAP_ADDR) && (len <=? VMAR_CAP_ADDR - vaddr)).

(** ** The page table *)
Record Pte := mkPte { pte_frame : nat; pte_flags : Z }.

#[export] Instance Pte_eq_dec : EqDecision Pte.
Proof. solve_decision. Defined.

Notation VmSpace := (gmap Z Pte).

(** A page lies in a range. *)
Definition in_range (r : Range) (kp : Z * Pte) : Prop := r_start r <= kp.1 < r_end r.
#[export] Instance in_range_dec r kp : Decision (in_range r kp).
Proof. unfold in_range. apply _. Defined.

Definition cursor_mut (r : Range) : run unit :=
  assert_run ((0 <=? r_start r) && (r_start r <? r_end r) && (r_end r <=? Z.shiftl 1 47) &&
              is_multiple_of (r_start r) PAGE_SIZE && is_multiple_of (r_end r) PAGE_SIZE).

(** [CursorMut::unmap] over the range of the cursor, with the number of pages unmapped. *)
Definition cursor_unmap (r : Range) (pt : VmSpace) : Z * VmSpace :=
  (Z.of_nat (size (filter (in_range r) pt)), filter (fun kp => ~ in_range r kp) pt).

(** [CursorMut::protect_next] until the end of the range of the cursor. *)
Definition cursor_protect (r : Range) (op : Z -> Z) (pt : VmSpace) : VmSpace :=
  map_imap (fun k p => Some (if decide (in_range r (k, p)) then mkPte (pte_frame p) (op (pte_flags p)) else p)) pt.

(** ** The state *)

(** An address space, with the difference of the resident-set counters that the operation in progress
    has collected ([RssDelta]), and the memory objects. *)
Record Vmar := mkVmar {
  vm_mappings : list VmMapping;
  total_vm : Z;
  vm_space : VmSpace;
  rss_counters : Z * Z;
  rss_delta : Z * Z;
  vmos : Vmos
}.

Definition Vmar_new (w : Vmos) : Vmar := mkVmar [] 0 ∅ (0, 0) (0, 0) w.

Definition with_mappings (s : Vmar) (l : list VmMapping) (t : Z) : Vmar :=
  mkVmar l t (vm_space s) (rss_counters s) (rss_delta s) (vmos s).
Definition with_space (s : Vmar) (pt : VmSpace) : Vmar :=
  mkVmar (vm_mappings s) (total_vm s) pt (rss_counters s) (rss_delta s) (vmos s).
Definition with_vmos (s : Vmar) (w : Vmos) : Vmar :=
  mkVmar (vm_mappings s) (total_vm s) (vm_space s) (rss_counters s) (rss_delta s) w.
Definition with_rss (s : Vmar) (c d : Z * Z) : Vmar :=
  mkVmar (vm_mappings s) (total_vm s) (vm_space s) c d (vmos s).

(** The element of an array of counters that belongs to a type. *)
Definition counter (c : Z * Z) (t : RssType) : Z := match t with RssFile => c.1 | RssAnon => c.2 end.
Definition counter_add (c : Z * Z) (t : RssType) (n : Z) : Z * Z :=
  match t with RssFile => (c.1 + n, c.2) | RssAnon => (c.1, c.2 + n) end.

Definition RssDelta_new (s : Vmar) : Vmar := with_rss s (rss_counters s) (0, 0).
Definition RssDelta_add (s : Vmar) (t : RssType) (n : Z) : Vmar :=
  with_rss s (rss_counters s) (counter_add (rss_delta s) t n).
Definition RssDelta_drop (s : Vmar) : Vmar :=
  with_rss s
    (counter_add (counter_add (rss_counters s) RssFile (counter (rss_delta s) RssFile))
       RssAnon (counter (rss_delta s) RssAnon)) (0, 0).

(** [VmMapping::unmap]: the mapping is dropped. *)
Definition VmMapping_unmap (m : VmMapping) (s : Vmar) : run (Z * Vmar) :=
  let r := range m in
  _ ← cursor_mut r;
  let '(num_unmapped, pt) := cursor_unmap r (vm_space s) in
  Ret (num_unmapped, with_vmos (with_space s pt) (VmMapping_drop m (vmos s))).

(** [VmMapping::protect]. *)
Definition VmMapping_protect `{Bitflags} (m : VmMapping) (p : Z) (s : Vmar) : run (VmMapping * Vmar) :=
  let new_flags :=
    match mapped_mem m with
    | Device _ => PageFlags_from_perms p
    | _ => bf_difference (PageFlags_from_perms p) PageFlags_W
    end in
  let r := range m in
  _ ← cursor_mut r;
  Ret (with_perms m p, with_space s (cursor_protect r (fun _ => new_flags) (vm_space s))).

(** ** The tree of mappings: [VmarInner] *)
Section vmar.
(** The identity of the address space, and the limit on its size that the current process has. *)
Context (me : nat) (rlimit_as : option Z).

(** A lock on the reverse mappings of a memory object ([Option<&mut Rmap>]) is the object. *)
Definition rmap_insert (rmap_guard : option nat) (m : VmMapping) (s : Vmar) : run Vmar :=
  match rmap_guard with
  | None => Ret s
  | Some id =>
      v ← unwrap (vmo m);
      let o := vmos s !!! id in
      let e := mkEntry (map_to_addr m) (mv_offset v) (map_size m) in
      Ret (with_vmos s (<[id := with_rmap o (Rmap_insert me e (rmap o))]> (vmos s)))
  end.

Definition rmap_remove (rmap_guard : option nat) (addr : Z) (s : Vmar) : run Vmar :=
  match rmap_guard with
  | None => Ret s
  | Some id =>
      let o := vmos s !!! id in
      r ← Rmap_remove me addr (rmap o);
      Ret (with_vmos s (<[id := with_rmap o r]> (vmos s)))
  end.

Definition check_extra_size_fits_rlimit (s : Vmar) (expand_size : Z) : result unit :=
  match rlimit_as with
  | None => Ok tt
  | Some limit => if Z.max 0 (limit - total_vm s) <? expand_size then Err ENOMEM else Ok tt
  end.

Definition check_lies_in_single_mapping (s : Vmar) (addr size : Z) : result Z :=
  match find_one addr (vm_mappings s) with
  | Some m => if size <=? map_end m - addr then Ok (map_to_addr m) else Err EFAULT
  | None => Err EFAULT
  end.

Definition insert_without_try_merge (m : VmMapping) (rmap_guard : option nat) (s : Vmar) : run Vmar :=
  let total := total_vm s + map_size m in
  s ← rmap_insert rmap_guard m s;
  Ret (with_mappings s (IntervalSet_insert m (vm_mappings s)) total).

(** One half of [insert_try_merge]: the attempt to merge with a neighbour, which leaves the tree (and
    is dropped) when it succeeds. *)
Definition merge_neighbour (m : VmMapping) (neighbour : option VmMapping) (rmap_guard : option nat) (s : Vmar) :
    run (VmMapping * Vmar) :=
  match neighbour with
  | None => Ret (m, s)
  | Some other =>
      '(m, to_remove, w) ← try_merge_with m other (vmos s);
      let s := with_vmos s w in
      match to_remove with
      | None => Ret (m, s)
      | Some addr =>
          let s :=
            match IntervalSet_remove addr (vm_mappings s) with
            | Some (old, l) => with_vmos (with_mappings s l (total_vm s)) (VmMapping_drop old (vmos s))
            | None => s
            end in
          s ← rmap_remove rmap_guard addr s;
          Ret (m, s)
      end
  end.

Definition insert_try_merge (m : VmMapping) (rmap_guard : option nat) (s : Vmar) : run Vmar :=
  let s := with_mappings s (vm_mappings s) (total_vm s + map_size m) in
  let addr := map_to_addr m in
  '(m, s) ← merge_neighbour m (find_prev addr (vm_mappings s)) rmap_guard s;
  '(m, s) ← merge_neighbour m (find_next addr (vm_mappings s)) rmap_guard s;
  s ← rmap_insert rmap_guard m s;
  Ret (with_mappings s (IntervalSet_insert m (vm_mappings s)) (total_vm s)).

(** [remove] with [RmapToRemove]: the mapping taken out and the object whose reverse mapping of it is
    still to be removed. *)
Definition remove (k : Z) (s : Vmar) : option (VmMapping * option nat * Vmar) :=
  '(m, l) ← IntervalSet_remove k (vm_mappings s);
  Some (m, vmo_for_rmap m, with_mappings s l (total_vm s - map_size m)).

Definition query (r : Range) (s : Vmar) : run (list VmMapping) := find_all r (vm_mappings s).

Fixpoint sum_overlap (r : Range) (ms : list VmMapping) : run Z :=
  match ms with
  | [] => Ret 0
  | m :: ms =>
      i ← get_intersected_range r (range m);
      n ← sum_overlap r ms;
      Ret (r_end i - r_start i + n)
  end.

Definition count_overlap_size (r : Range) (s : Vmar) : run Z :=
  ms ← find_all r (vm_mappings s);
  sum_overlap r ms.

Definition alloc_free_region_exact (offset size : Z) (s : Vmar) : result Range :=
  match IntervalIter_next (find (mkRange offset (offset + size)) (vm_mappings s)) with
  | (Some _, _) => Err EEXIST
  | (None, _) => Ok (mkRange offset (offset + size))
  end.

(** The body of the loop of [alloc_free_region_exact_truncate]. *)
Definition truncate_mapping (r : Range) (addr : Z) (s : Vmar) : run Vmar :=
  '(m, rmap_to_remove, s) ← unwrap (remove addr s);
  s ← rmap_remove rmap_to_remove addr s;
  let rmap_guard := rmap_to_remove in
  i ← get_intersected_range r (range m);
  '(lft, taken, rgt, w) ← split_range m i (vmos s);
  let s := with_vmos s w in
  s ← match lft with Some lft => insert_without_try_merge lft rmap_guard s | None => Ret s end;
  s ← match rgt with Some rgt => insert_without_try_merge rgt rmap_guard s | None => Ret s end;
  let t := rss_type taken in
  '(n, s) ← VmMapping_unmap taken s;
  Ret (RssDelta_add s t (- n)).

Fixpoint truncate_mappings (r : Range) (addrs : list Z) (s : Vmar) : run Vmar :=
  match addrs with
  | [] => Ret s
  | addr :: addrs => s ← truncate_mapping r addr s; truncate_mappings r addrs s
  end.

Definition alloc_free_region_exact_truncate (offset size : Z) (s : Vmar) : run (Range * Vmar) :=
  let r := mkRange offset (offset + size) in
  ms ← find_all r (vm_mappings s);
  s ← truncate_mappings r (map_to_addr <$> ms) s;
  Ret (r, s).

Definition try_alloc_in_hole (hole_start hole_end size align : Z) : run (option Range) :=
  if hole_end <? size then Ret None
  else
    start ← align_down (hole_end - size) align;
    Ret (if hole_start <=? start then Some (mkRange start (start + size)) else None).

(** The loop over the mappings from high to low addresses: a region, or the start of the last mapping
    that was looked at. *)
Fixpoint search_holes (size align low_limit high_limit : Z) (rev_mappings : list VmMapping) (prev_start : Z) :
    run (Range + Z) :=
  match rev_mappings with
  | [] => Ret (inr prev_start)
  | m :: ms =>
      let hole_start := Z.max (r_end (range m)) low_limit in
      let hole_end := Z.min prev_start high_limit in
      region ← try_alloc_in_hole hole_start hole_end size align;
      match region with
      | Some region => Ret (inl region)
      | None =>
          let prev_start := r_start (range m) in
          if prev_start <=? low_limit then Ret (inr prev_start)
          else search_holes size align low_limit high_limit ms prev_start
      end
  end.

Definition alloc_free_region_in_range (size align low_limit high_limit : Z) (s : Vmar) : run (result Range) :=
  found ← search_holes size align low_limit high_limit (rev (vm_mappings s)) high_limit;
  match found with
  | inl region => Ret (Ok region)
  | inr prev_start =>
      if low_limit <? prev_start then
        region ← try_alloc_in_hole low_limit (Z.min prev_start high_limit) size align;
        Ret (match region with Some region => Ok region | None => Err ENOMEM end)
      else Ret (Err ENOMEM)
  end.

Definition alloc_free_region (size align : Z) (s : Vmar) : run (result Range) :=
  let high_limit := VMAR_CAP_ADDR - INIT_STACK_SIZE - PAGE_SIZE * 2048 in
  let low_limit := VMAR_LOWEST_ADDR in
  alloc_free_region_in_range size align low_limit high_limit s.

Definition alloc_free_region_below_2gib (size align : Z) (s : Vmar) : run (result Range) :=
  let high_limit := Z.min MAP_32BIT_HIGH_LIMIT VMAR_CAP_ADDR in
  let low_limit := VMAR_LOWEST_ADDR in
  alloc_free_region_in_range size align low_limit high_limit s.
End vmar.

(** ** The methods of [Vmar]

    Each one holds the lock of the tree while it runs; the difference of the resident-set counters is
    applied when it leaves. *)
Section methods.
Context `{BF : Bitflags} (me : nat) (rlimit_as : option Z).

(** [unmap.rs] *)
Definition remove_mapping (r : Range) (s : Vmar) : run Vmar :=
  _ ← assert_run (is_multiple_of (r_start r) PAGE_SIZE);
  _ ← assert_run (is_multiple_of (r_end r) PAGE_SIZE);
  '(_, s) ← alloc_free_region_exact_truncate me (r_start r) (range_len r) (RssDelta_new s);
  Ret (RssDelta_drop s).

Fixpoint clear_rmaps (ms : list VmMapping) (s : Vmar) : run Vmar :=
  match ms with
  | [] => Ret s
  | m :: ms => s ← rmap_remove me (vmo_for_rmap m) (map_to_addr m) s; clear_rmaps ms s
  end.

Definition clear (s : Vmar) : run Vmar :=
  s ← clear_rmaps (vm_mappings s) s;
  let w := foldl (fun w m => VmMapping_drop m w) (vmos s) (vm_mappings s) in
  let s := with_vmos (with_mappings s [] (total_vm s)) w in
  let full_range := mkRange 0 VMAR_CAP_ADDR in
  _ ← cursor_mut full_range;
  Ret (with_space s (snd (cursor_unmap full_range (vm_space s)))).

Fixpoint discard_loop (r : Range) (ms : list VmMapping) (last_mapping_end : Z) (s : Vmar) : run (result Z * Vmar) :=
  match ms with
  | [] => Ret (Ok last_mapping_end, s)
  | m :: ms =>
      if negb (can_expand m) then Ret (Err EINVAL, s)
      else
        let last_mapping_end := if map_to_addr m <=? last_mapping_end then map_end m else last_mapping_end in
        i ← get_intersected_range r (range m);
        _ ← cursor_mut i;
        let '(n, pt) := cursor_unmap i (vm_space s) in
        discard_loop r ms last_mapping_end (RssDelta_add (with_space s pt) (rss_type m) (- n))
  end.

Definition discard_pages (r : Range) (s : Vmar) : run (result unit * Vmar) :=
  _ ← assert_run (is_multiple_of (r_start r) PAGE_SIZE);
  _ ← assert_run (is_multiple_of (r_end r) PAGE_SIZE);
  ms ← find_all r (vm_mappings s);
  '(res, s) ← discard_loop r ms (r_start r) (RssDelta_new s);
  let s := RssDelta_drop s in
  Ret (match res with
       | Err e => Err e
       | Ok last_mapping_end => if last_mapping_end <? r_end r then Err ENOMEM else Ok tt
       end, s).

(** [query.rs] *)
Fixpoint is_fully_mapped_loop (r : Range) (ms : list VmMapping) (last_mapping_end : Z) : bool :=
  match ms with
  | [] => negb (last_mapping_end <? r_end r)
  | m :: ms => if last_mapping_end <? map_to_addr m then false else is_fully_mapped_loop r ms (map_end m)
  end.

Definition is_fully_mapped (r : Range) (s : Vmar) : run bool :=
  ms ← query r s;
  Ret (is_fully_mapped_loop r ms (r_start r)).

(** [protect.rs] *)
Definition protect_mapping (r vm_mapping_range : Range) (new_perms : Z) (s : Vmar) : run Vmar :=
  match remove (r_start vm_mapping_range) s with
  | None => Ret s
  | Some (m, rmap_to_remove, s) =>
      s ← rmap_remove me rmap_to_remove (r_start vm_mapping_range) s;
      let rmap_guard := rmap_to_remove in
      i ← get_intersected_range r (range m);
      '(lft, taken, rgt, w) ← split_range m i (vmos s);
      let s := with_vmos s w in
      s ← match lft with Some lft => insert_without_try_merge me lft rmap_guard s | None => Ret s end;
      s ← match rgt with Some rgt => insert_without_try_merge me rgt rmap_guard s | None => Ret s end;
      '(taken, s) ← VmMapping_protect taken new_perms s;
      insert_try_merge me taken rmap_guard s
  end.

Fixpoint protect_loop (p : Z) (r : Range) (protect_mappings : list (Range * Z)) (last_mapping_end : Z) (s : Vmar) :
    run (result Z * Vmar) :=
  match protect_mappings with
  | [] => Ret (Ok last_mapping_end, s)
  | (vm_mapping_range, vm_mapping_perms) :: rest =>
      if last_mapping_end <? r_start vm_mapping_range then Ret (Err ENOMEM, s)
      else
        let last_mapping_end := r_end vm_mapping_range in
        if p =? bf_intersection vm_mapping_perms VmPerms_ALL_PERMS then protect_loop p r rest last_mapping_end s
        else
          let new_perms := bf_union p (bf_intersection vm_mapping_perms VmPerms_ALL_MAY_PERMS) in
          match VmPerms_check new_perms with
          | Err e => Ret (Err e, s)
          | Ok _ =>
              s ← protect_mapping r vm_mapping_range new_perms s;
              protect_loop p r rest last_mapping_end s
          end
  end.

Definition protect (p : Z) (r : Range) (s : Vmar) : run (result unit * Vmar) :=
  _ ← assert_run (is_multiple_of (r_start r) PAGE_SIZE);
  _ ← assert_run (is_multiple_of (r_end r) PAGE_SIZE);
  ms ← find_all r (vm_mappings s);
  let protect_mappings := (fun m => (range m, perms m)) <$> ms in
  '(res, s) ← protect_loop p r protect_mappings (r_start r) s;
  Ret (match res with
       | Err e => Err e
       | Ok last_mapping_end => if last_mapping_end <? r_end r then Err ENOMEM else Ok tt
       end, s).

(** [VmarInner::resize_mapping] *)
Definition resize_inner (map_addr old_size new_size : Z) (s : Vmar) : run (result unit * Vmar) :=
  _ ← assert_run (is_multiple_of map_addr PAGE_SIZE);
  _ ← assert_run (is_multiple_of old_size PAGE_SIZE);
  _ ← assert_run (is_multiple_of new_size PAGE_SIZE);
  if new_size =? 0 then Ret (Err EINVAL, s)
  else if new_size =? old_size then Ret (Ok tt, s)
  else if negb (is_userspace_vaddr_range map_addr new_size) then Ret (Err EINVAL, s)
  else if new_size <? old_size then
    match checked_add map_addr old_size with
    | None => Ret (Err EINVAL, s)
    | Some _ =>
        '(_, s) ← alloc_free_region_exact_truncate me (map_addr + new_size) (old_size - new_size) s;
        Ret (Ok tt, s)
    end
  else
    let old_map_end := map_addr + old_size in
    match alloc_free_region_exact old_map_end (new_size - old_size) s with
    | Err _ => Ret (Err ENOMEM, s)
    | Ok _ =>
        last_mapping ← unwrap (find_one (old_map_end - 1) (vm_mappings s));
        let last_mapping_addr := map_to_addr last_mapping in
        _ ← assert_run (map_end last_mapping =? old_map_end);
        if negb (can_expand last_mapping) then Ret (Err EFAULT, s)
        else
          match check_extra_size_fits_rlimit rlimit_as s (new_size - old_size) with
          | Err e => Ret (Err e, s)
          | Ok _ =>
              '(last_mapping, rmap_to_remove, s) ← unwrap (remove last_mapping_addr s);
              s ← rmap_remove me rmap_to_remove last_mapping_addr s;
              last_mapping ← enlarge last_mapping (new_size - old_size);
              s ← insert_try_merge me last_mapping rmap_to_remove s;
              Ret (Ok tt, s)
          end
    end.

(** [Vmar::resize_mapping] of [remap.rs] *)
Definition resize_mapping (map_addr old_size new_size : Z) (check_single_mapping : bool) (s : Vmar) :
    run (result unit * Vmar) :=
  let s := RssDelta_new s in
  '(res, s) ←
    (if check_single_mapping then
       match check_lies_in_single_mapping s map_addr old_size with
       | Err e => Ret (Err e, s)
       | Ok _ => resize_inner map_addr old_size new_size s
       end
     else
       match find_one map_addr (vm_mappings s) with
       | None => Ret (Err EFAULT, s)
       | Some _ => resize_inner map_addr old_size new_size s
       end);
  Ret (res, RssDelta_drop s).

(** [Vmar::move_pt]: the pages of the old range, one after the other from low to high addresses. *)
Definition pt_find_next (pt : VmSpace) (a b : Z) : option Z :=
  foldr (fun k acc => match acc with Some j => Some (Z.min k j) | None => Some k end) None
    (fst <$> map_to_list (filter (in_range (mkRange a b)) pt)).

Fixpoint move_loop (fuel : nat) (old_range new_range : Range) (current_offset : Z) (pt : VmSpace) : run VmSpace :=
  match fuel with
  | O => NoFuel
  | S fuel =>
      if current_offset <? range_len old_range then
        match pt_find_next pt (r_start old_range + current_offset) (r_end old_range) with
        | None => Ret pt
        | Some mapped_va =>
            p ← unwrap (pt !! mapped_va);
            let offset := mapped_va - r_start old_range in
            let new_map_va := r_start new_range + offset in
            let pt := delete mapped_va pt in
            _ ← assert_run (bool_decide (pt !! new_map_va = None));
            move_loop fuel old_range new_range (offset + PAGE_SIZE) (<[new_map_va := p]> pt)
        end
      else Ret pt
  end.

Definition move_pt (old_range new_range : Range) (s : Vmar) : run Vmar :=
  let total_range := mkRange (Z.min (r_start old_range) (r_start new_range)) (Z.max (r_end old_range) (r_end new_range)) in
  _ ← cursor_mut total_range;
  pt ← move_loop (S (size (vm_space s))) old_range new_range 0 (vm_space s);
  Ret (with_space s pt).

Inductive RemapOldMappingAction := Unmap | Keep.

#[export] Instance RemapOldMappingAction_eq_dec : EqDecision RemapOldMappingAction.
Proof. solve_decision. Defined.

(** The checks of [remap] on the new range, before any mapping is looked up. *)
Definition remap_check_new (old_addr old_size : Z) (new_addr : option Z) (new_size : Z) : result unit :=
  match new_addr with
  | None => Ok tt
  | Some new_addr =>
      if negb (is_multiple_of new_addr PAGE_SIZE) || negb (is_userspace_vaddr_range new_addr new_size) then Err EINVAL
      else if is_intersected (mkRange old_addr (Z.min (old_addr + old_size) (u64_modulus - 1)))
                (mkRange new_addr (new_addr + new_size)) then Err EINVAL
      else Ok tt
  end.

(** The checks of [remap] on the old mapping. *)
Definition remap_check_old (old_addr old_size new_size : Z) (s : Vmar) : result unit :=
  match find_one old_addr (vm_mappings s) with
  | None => Err EFAULT
  | Some old_mapping =>
      _ ← (if old_size <? new_size then
             if negb (can_expand old_mapping) then Err EFAULT
             else
               _ ← match vmo old_mapping with
                   | Some v =>
                       let offset := mv_offset v + (old_addr - map_to_addr old_mapping) in
                       match checked_add offset new_size with None => Err EINVAL | Some _ => Ok tt end
                   | None => Ok tt
                   end;
               check_extra_size_fits_rlimit rlimit_as s (new_size - old_size)
           else Ok tt);
      match checked_add old_addr old_size with None => Err EINVAL | Some _ => Ok tt end
  end.

(** The last part of [remap]: the mapping goes to the new range, and the pages after it. *)
Definition remap_move (old_addr old_size new_size : Z) (old_range new_range : Range) (action : RemapOldMappingAction)
    (s : Vmar) : run (result Z * Vmar) :=
  match check_lies_in_single_mapping s old_addr old_size with
  | Err e => Ret (Err e, s)
  | Ok old_mapping_addr =>
      match action with
      | Unmap =>
          '(m, rmap_to_remove, s) ← unwrap (remove old_mapping_addr s);
          s ← rmap_remove me rmap_to_remove old_mapping_addr s;
          '(lft, old_mapping, rgt, w) ← split_range m old_range (vmos s);
          let s := with_vmos s w in
          s ← match lft with Some lft => insert_without_try_merge me lft rmap_to_remove s | None => Ret s end;
          s ← match rgt with Some rgt => insert_without_try_merge me rgt rmap_to_remove s | None => Ret s end;
          let '(new_mapping, w) := clone_for_remap_at old_mapping (r_start new_range) (vmos s) in
          let s := with_vmos s w in
          new_mapping ← enlarge new_mapping (new_size - old_size);
          s ← insert_try_merge me new_mapping rmap_to_remove s;
          s ← move_pt old_range new_range s;
          let s := with_vmos s (VmMapping_drop old_mapping (vmos s)) in
          Ret (Ok (r_start new_range), s)
      | Keep =>
          old_mapping ← unwrap (find_one old_mapping_addr (vm_mappings s));
          let rmap_guard := vmo_for_rmap old_mapping in
          '(new_mapping, w) ←
            clone_range_for_remap_at old_mapping (mkRange old_addr (old_addr + old_size)) (r_start new_range) (vmos s);
          let s := with_vmos s w in
          new_mapping ← enlarge new_mapping (new_size - old_size);
          s ← insert_try_merge me new_mapping rmap_guard s;
          s ← move_pt old_range new_range s;
          Ret (Ok (r_start new_range), s)
      end
  end.

(** The fast path of [remap]: the old mapping grows where it is. *)
Definition remap_in_place (old_addr old_size new_size : Z) (old_range : Range) (s : Vmar) : run (result Z * Vmar) :=
  match check_lies_in_single_mapping s old_addr old_size with
  | Err e => Ret (Err e, s)
  | Ok old_mapping_addr =>
      '(old_mapping, rmap_to_remove, s) ← unwrap (remove old_mapping_addr s);
      s ← rmap_remove me rmap_to_remove old_mapping_addr s;
      new_mapping ← enlarge old_mapping (new_size - old_size);
      s ← insert_try_merge me new_mapping rmap_to_remove s;
      Ret (Ok (r_start old_range), s)
  end.

Definition remap_locked (old_addr old_size : Z) (new_addr : option Z) (new_size : Z) (action : RemapOldMappingAction)
    (s : Vmar) : run (result Z * Vmar) :=
  match remap_check_old old_addr old_size new_size s with
  | Err e => Ret (Err e, s)
  | Ok _ =>
      '(old_size, old_range, s) ←
        (if new_size <? old_size then
           '(_, s) ← alloc_free_region_exact_truncate me (old_addr + new_size) (old_size - new_size) s;
           Ret (new_size, mkRange old_addr (old_addr + new_size), s)
         else Ret (old_size, mkRange old_addr (old_addr + old_size), s));
      match new_addr with
      | Some new_addr =>
          '(new_range, s) ← alloc_free_region_exact_truncate me new_addr new_size s;
          remap_move old_addr old_size new_size old_range new_range action s
      | None =>
          if bool_decide (action = Unmap) && is_userspace_vaddr_range old_addr new_size &&
             is_ok (alloc_free_region_exact (r_end old_range) (new_size - old_size) s)
          then remap_in_place old_addr old_size new_size old_range s
          else
            new_range ← alloc_free_region new_size PAGE_SIZE s;
            match new_range with
            | Err e => Ret (Err e, s)
            | Ok new_range => remap_move old_addr old_size new_size old_range new_range action s
            end
      end
  end.

Definition remap (old_addr old_size : Z) (new_addr : option Z) (new_size : Z) (action : RemapOldMappingAction)
    (s : Vmar) : run (result Z * Vmar) :=
  _ ← assert_run (is_multiple_of old_addr PAGE_SIZE);
  _ ← assert_run (is_multiple_of old_size PAGE_SIZE);
  _ ← assert_run (is_multiple_of new_size PAGE_SIZE);
  match remap_check_new old_addr old_size new_addr new_size with
  | Err e => Ret (Err e, s)
  | Ok _ =>
      '(res, s) ← remap_locked old_addr old_size new_addr new_size action (RssDelta_new s);
      Ret (res, RssDelta_drop s)
  end.
End methods.

(** ** New mappings: [map.rs] *)

(** What the device behind a [Mappable] does when it is asked to map itself: the pages it installs
    through the handle, as offsets and frames, and its result. *)
Inductive MappableObject :=
  | MappableVmo (vmo : nat)
  | MappableDevice (installs : list (Z * nat)) (res : result MappedObject).

Inductive VmarMapOffset :=
  | FixedReplace (offset : Z)
  | FixedNoReplace (offset : Z)
  | Hint (offset : Z)
  | Map32Bit (hint : option Z)
  | Any.

(** The options; [o_memfd] are the seals of the inode of the file when it is a [MemfdInode]. *)
Record VmarMapOptions := mkOptions {
  o_mappable : option MappableObject;
  o_file : option nat;
  o_memfd : option Z;
  o_perms : Z;
  o_may_perms : Z;
  o_vmo_offset : Z;
  o_size : Z;
  o_offset : VmarMapOffset;
  o_align : Z;
  o_map_mode : MmapMode;
  o_handle_page_faults_around : bool
}.

(** [FileSeals] of [fs_impls/ramfs/memfd.rs]. *)
Definition F_SEAL_SEAL : Z := 0x1.
Definition F_SEAL_SHRINK : Z := 0x2.
Definition F_SEAL_GROW : Z := 0x4.
Definition F_SEAL_WRITE : Z := 0x8.
Definition F_SEAL_FUTURE_WRITE : Z := 0x10.
Definition F_SEAL_EXEC : Z := 0x20.

Section map.
Context `{BF : Bitflags} (me : nat) (rlimit_as : option Z).

(** [MemfdInode::check_writable]: the permissions that may be asked for later. *)
Definition check_writable (seals p may_perms : Z) : result Z :=
  if bf_intersects seals (bf_union F_SEAL_WRITE F_SEAL_FUTURE_WRITE) then
    if bf_contains p VmPerms_WRITE then Err EPERM else Ok (bf_difference may_perms VmPerms_MAY_WRITE)
  else Ok may_perms.

(** [MemfdInode::add_seals]; [executable] is whether the mode of the inode has an execute bit. *)
Definition add_seals (seals new_seals : Z) (executable : bool) (page_cache : nat) (w : Vmos) : result (Z * Vmos) :=
  if bf_contains seals F_SEAL_SEAL then Err EPERM
  else
    let new_seals :=
      if bf_contains new_seals F_SEAL_EXEC && executable
      then bf_union new_seals (bf_union (bf_union (bf_union F_SEAL_SHRINK F_SEAL_GROW) F_SEAL_WRITE) F_SEAL_FUTURE_WRITE)
      else new_seals in
    w ← (if bf_contains new_seals F_SEAL_WRITE then WritableMappingStatus_deny w page_cache else Ok w);
    Ok (bf_union seals new_seals, w).

(** [MapHandle::map_frame]. *)
Definition map_frame (m : VmMapping) (offset : Z) (frame : nat) (s : Vmar) : run Vmar :=
  if map_size m <=? offset then Ret s
  else
    let map_addr := map_to_addr m + offset in
    _ ← cursor_mut (mkRange map_addr (map_addr + PAGE_SIZE));
    match vm_space s !! map_addr with
    | Some _ => Ret s
    | None =>
        let s := with_space s (<[map_addr := mkPte frame (PageFlags_from_perms (perms m))]> (vm_space s)) in
        Ret (RssDelta_add s RssFile 1)
    end.

Fixpoint map_frames (m : VmMapping) (installs : list (Z * nat)) (s : Vmar) : run Vmar :=
  match installs with
  | [] => Ret s
  | (offset, frame) :: installs => s ← map_frame m offset frame s; map_frames m installs s
  end.

(** [VmMapping::populate_device]. *)
Definition populate_device (m : VmMapping) (installs : list (Z * nat)) (res : result MappedObject) (s : Vmar) :
    run (result VmMapping * Vmar) :=
  _ ← assert_run (bool_decide (mapped_mem m = Anonymous));
  s ← map_frames m installs s;
  Ret (match res with
       | Ok o => Ok (with_place m (map_size m) (map_to_addr m) (Device o))
       | Err e => Err e
       end, s).

Definition check_perms (o : VmarMapOptions) : result unit :=
  if negb (bf_contains VmPerms_ALL_MAY_PERMS (o_may_perms o)) || negb (bf_contains VmPerms_ALL_PERMS (o_perms o))
  then Err EACCES
  else VmPerms_check (bf_union (o_perms o) (o_may_perms o)).

(** The debug assertions of [check_options] repeat the tests that follow them and are left out. *)
Definition check_options (o : VmarMapOptions) : result unit :=
  if negb (is_multiple_of (o_align o) PAGE_SIZE) || negb (is_power_of_two (o_align o)) then Err EINVAL
  else if negb (is_multiple_of (o_size o) (o_align o)) then Err EINVAL
  else if negb (is_multiple_of (o_vmo_offset o) (o_align o)) then Err EINVAL
  else
    _ ← match o_offset o with
        | FixedReplace offset | FixedNoReplace offset | Hint offset | Map32Bit (Some offset) =>
            if negb (is_multiple_of offset (o_align o)) then Err EINVAL else Ok tt
        | Map32Bit None | Any => Ok tt
        end;
    check_perms o.

(** The test of the size limit; mappings that will be replaced do not count. *)
Definition build_check_rlimit (o : VmarMapOptions) (s : Vmar) : run (result unit) :=
  match check_extra_size_fits_rlimit rlimit_as s (o_size o) with
  | Ok _ => Ret (Ok tt)
  | Err e =>
      match o_offset o with
      | FixedReplace map_to_addr =>
          overlap ← count_overlap_size (mkRange map_to_addr (map_to_addr + o_size o)) s;
          Ret (check_extra_size_fits_rlimit rlimit_as s (o_size o - overlap))
      | _ => Ret (Err e)
      end
  end.

Definition region_start (r : result Range) : result Z :=
  match r with Ok r => Ok (r_start r) | Err e => Err e end.

(** The address of the new mapping. *)
Definition build_alloc (o : VmarMapOptions) (s : Vmar) : run (result Z * Vmar) :=
  match o_offset o with
  | FixedReplace map_to_addr =>
      '(_, s) ← alloc_free_region_exact_truncate me map_to_addr (o_size o) (RssDelta_new s);
      Ret (Ok map_to_addr, RssDelta_drop s)
  | FixedNoReplace map_to_addr =>
      Ret (match alloc_free_region_exact map_to_addr (o_size o) s with Ok _ => Ok map_to_addr | Err e => Err e end, s)
  | Hint map_to_addr =>
      if is_ok (alloc_free_region_exact map_to_addr (o_size o) s) then Ret (Ok map_to_addr, s)
      else r ← alloc_free_region (o_size o) (o_align o) s; Ret (region_start r, s)
  | Map32Bit addr_hint =>
      match addr_hint with
      | Some addr =>
          if range_contains (mkRange VMAR_LOWEST_ADDR MAP_32BIT_HIGH_LIMIT) addr &&
             (o_size o <=? MAP_32BIT_HIGH_LIMIT - addr) && is_ok (alloc_free_region_exact addr (o_size o) s)
          then Ret (Ok addr, s)
          else r ← alloc_free_region_below_2gib (o_size o) (o_align o) s; Ret (region_start r, s)
      | None => r ← alloc_free_region_below_2gib (o_size o) (o_align o) s; Ret (region_start r, s)
      end
  | Any => r ← alloc_free_region (o_size o) (o_align o) s; Ret (region_start r, s)
  end.

(** Whether the writable mappings of the file are counted, and the permissions that may be asked for. *)
Definition is_writable_tracked_of (o : VmarMapOptions) : result (bool * Z) :=
  match o_file o, o_memfd o with
  | Some _, Some seals =>
      if is_shared (o_map_mode o) && bf_contains (o_may_perms o) VmPerms_MAY_WRITE then
        may_perms ← check_writable seals (o_perms o) (o_may_perms o);
        Ok (true, may_perms)
      else Ok (false, o_may_perms o)
  | _, _ => Ok (false, o_may_perms o)
  end.

(** The memory behind the new mapping, and the permissions that may be asked for later. *)
Definition build_memory (o : VmarMapOptions) (s : Vmar) : result (MappedMemory * Z * Vmar) :=
  match o_mappable o with
  | Some (MappableVmo vmo) =>
      '(tracked, may_perms) ← is_writable_tracked_of o;
      '(v, w) ← MappedVmo_new vmo (o_vmo_offset o) tracked (vmos s);
      Ok (Vmo v, may_perms, with_vmos s w)
  | Some (MappableDevice _ _) =>
      if negb (is_shared (o_map_mode o)) then Err EINVAL else Ok (Anonymous, o_may_perms o, s)
  | None => Ok (Anonymous, o_may_perms o, s)
  end.

(** The pages of a device; the mapping is given up when the device fails. *)
Definition build_populate (o : VmarMapOptions) (m : VmMapping) (s : Vmar) : run (result VmMapping * Vmar) :=
  match o_mappable o with
  | Some (MappableDevice installs res) =>
      '(populated, s) ← populate_device m installs res (RssDelta_new s);
      match populated with
      | Ok m => Ret (Ok m, RssDelta_drop s)
      | Err e =>
          '(n, s) ← VmMapping_unmap m s;
          Ret (Err e, RssDelta_drop (RssDelta_add s RssFile (- n)))
      end
  | _ => Ret (Ok m, s)
  end.

Definition build (o : VmarMapOptions) (s : Vmar) : run (result Z * Vmar) :=
  match check_options o with
  | Err e => Ret (Err e, s)
  | Ok _ =>
      fits ← build_check_rlimit o s;
      match fits with
      | Err e => Ret (Err e, s)
      | Ok _ =>
          '(addr, s) ← build_alloc o s;
          match addr with
          | Err e => Ret (Err e, s)
          | Ok map_to_addr =>
              match build_memory o s with
              | Err e => Ret (Err e, s)
              | Ok (mapped_mem, may_perms, s) =>
                  size ← nonzero (o_size o);
                  let m :=
                    mkMapping size map_to_addr mapped_mem (o_file o) (o_map_mode o) (o_handle_page_faults_around o)
                      (bf_union (o_perms o) may_perms) in
                  let rmap_guard := vmo_for_rmap m in
                  '(populated, s) ← build_populate o m s;
                  match populated with
                  | Err e => Ret (Err e, s)
                  | Ok m =>
                      s ← insert_try_merge me m rmap_guard s;
                      Ret (Ok map_to_addr, s)
                  end
              end
          end
      end
  end.
End map.
