(* ===== verification/VmarInv.v ===== *)
(** * The invariant of an address space

    What the operations of [Vmar] keep: the mappings are page-aligned, disjoint and below
    [VMAR_CAP_ADDR]; the total size is the sum of their sizes; each page of the page table lies in a
    mapping, and the resident-set counters count the pages; each shared mapping of a memory object has
    one reverse mapping there; and the counter of writable mappings of each object counts its tracked
    mappings.

    While an operation runs, it has mappings in its hands that are not in the tree: the invariant takes
    them as an argument.  The lemmas are about the steps the operations are made of: taking a mapping
    out, splitting it, putting a piece back, merging, and unmapping. *)

From S2P Require Import Prelude Flags Align IntervalSet VmMapping Vmar.

(** Projections of updated states. *)
Ltac vsimpl :=
  cbn [vm_mappings total_vm vm_space rss_counters rss_delta vmos with_mappings with_space with_vmos with_rss
       RssDelta_new RssDelta_add RssDelta_drop].

(** ** Counting pages *)
Definition pages (pt : VmSpace) (r : Range) : Z := Z.of_nat (size (filter (in_range r) pt)).

Lemma pages_insert pt r k p :
  pt !! k = None -> pages (<[k := p]> pt) r = (if decide (r_start r <= k < r_end r) then 1 else 0) + pages pt r.
Proof.
  intros Hk. unfold pages. destruct (decide (r_start r <= k < r_end r)) as [Hin|Hout].
  - rewrite map_filter_insert_True by done. rewrite map_size_insert_None; [lia|].
    apply map_lookup_filter_None. by left.
  - rewrite map_filter_insert_not; [lia|]. intros y. unfold in_range. cbn. tauto.
Qed.

Lemma pages_split pt a b c :
  a <= b <= c -> pages pt (mkRange a c) = pages pt (mkRange a b) + pages pt (mkRange b c).
Proof.
  intros Hb. induction pt as [|k p pt Hk IH] using map_ind; [done|].
  rewrite !pages_insert by done. cbn [r_start r_end]. repeat case_decide; lia.
Qed.

Lemma pages_nonneg pt r : 0 <= pages pt r.
Proof. unfold pages. lia. Qed.

Lemma pages_unmapped pt r r' :
  r_end r <= r_start r' \/ r_end r' <= r_start r ->
  pages (filter (fun kp => ~ in_range r kp) pt) r' = pages pt r'.
Proof.
  intros Hd. unfold pages. rewrite map_filter_filter. do 2 f_equal. apply map_filter_ext.
  intros k p _. unfold in_range. cbn. lia.
Qed.

Lemma pages_empty pt r : (forall k, r_start r <= k < r_end r -> pt !! k = None) -> pages pt r = 0.
Proof.
  intros H. unfold pages. rewrite map_empty_filter_2; [done|].
  intros k p Hp Hin. specialize (H k Hin). congruence.
Qed.

Lemma pages_dom pt pt' r : dom pt = dom pt' -> pages pt r = pages pt' r.
Proof.
  intros Hd. unfold pages. rewrite <- !size_dom. do 2 f_equal. apply set_eq. intros k.
  rewrite !elem_of_dom. unfold is_Some. setoid_rewrite map_lookup_filter_Some. unfold in_range. cbn.
  assert (k ∈ dom pt <-> k ∈ dom pt') as Hk by by rewrite Hd. rewrite !elem_of_dom in Hk. unfold is_Some in Hk.
  naive_solver.
Qed.

Lemma dom_cursor_protect r op pt : dom (cursor_protect r op pt) = dom pt.
Proof.
  apply set_eq. intros k. rewrite !elem_of_dom. unfold cursor_protect. rewrite map_lookup_imap.
  destruct (pt !! k); cbn; split; intros [? ?]; eauto; done.
Qed.

(** ** Reverse mappings *)
Definition rmap_entry (id : nat) (m : VmMapping) : option RmapEntry :=
  match mapped_mem m with
  | Vmo v =>
      if decide (vmo_for_rmap m = Some id) then Some (mkEntry (map_to_addr m) (mv_offset v) (map_size m)) else None
  | _ => None
  end.

Lemma rmap_entry_Some id m e :
  rmap_entry id m = Some e -> vmo_for_rmap m = Some id /\ re_vaddr e = map_to_addr m.
Proof. unfold rmap_entry. destruct (mapped_mem m); try done. case_decide; [|done]. by intros [= <-]. Qed.

Lemma rmap_entry_None id m : vmo_for_rmap m <> Some id -> rmap_entry id m = None.
Proof. unfold rmap_entry. intros H. destruct (mapped_mem m); try done. by rewrite decide_False. Qed.

Lemma rmap_entry_vmo id m :
  vmo_for_rmap m = Some id -> exists v, vmo m = Some v /\ rmap_entry id m = Some (mkEntry (map_to_addr m) (mv_offset v) (map_size m)).
Proof.
  intros H. pose proof H as H'. unfold vmo_for_rmap in H'. unfold vmo, rmap_entry.
  destruct (mapped_mem m); try done. rewrite decide_True by done. eauto.
Qed.

Lemma swap_remove_spec {A} (l : list A) i x :
  l !! i = Some x -> exists k, swap_remove l i = Ret k /\ l ≡ₚ x :: k.
Proof.
  intros Hi. destruct l as [|y l _] using rev_ind; [done|]. unfold swap_remove. rewrite last_snoc. cbn [unwrap mbind run_bind].
  unfold vec_set. pose proof (lookup_lt_Some _ _ _ Hi) as Hlt. rewrite (proj2 (Nat.ltb_lt _ _) Hlt). cbn [mbind run_bind].
  rewrite length_app in Hlt. cbn in Hlt. destruct (decide (i = length l)) as [->|Hne].
  - rewrite insert_app_r_alt by lia. rewrite Nat.sub_diag. cbn. rewrite removelast_last. exists l. split; [done|].
    rewrite lookup_app_r, Nat.sub_diag in Hi by lia. injection Hi as ->. by rewrite Permutation_app_comm.
  - rewrite insert_app_l by lia. rewrite removelast_last. eexists. split; [done|].
    rewrite lookup_app_l in Hi by lia. rewrite (Permutation_app_comm l [y]). cbn.
    rewrite <- (take_drop_middle l i x) at 1 by done. rewrite insert_take_drop by lia.
    rewrite <- !Permutation_middle. apply perm_swap.
Qed.

Lemma Rmap_remove_spec me r addr (e : RmapEntry) es :
  default [] (r !! me) ≡ₚ e :: es -> re_vaddr e = addr -> (forall e', e' ∈ es -> re_vaddr e' <> addr) ->
  exists r', Rmap_remove me addr r = Ret r' /\ default [] (r' !! me) ≡ₚ es /\ (forall v, v <> me -> r' !! v = r !! v).
Proof.
  intros Hp He Hes. unfold Rmap_remove. destruct (r !! me) as [l|] eqn:Hl; cbn in Hp |- *.
  2: { apply Permutation_nil_cons in Hp. done. }
  assert (e ∈ l) as Hin by (rewrite Hp; set_solver).
  destruct (position _ l) as [i|] eqn:Ei; cbn.
  2: { apply position_None in Ei. rewrite Forall_forall in Ei. specialize (Ei e Hin). cbn in Ei. boolify. done. }
  apply position_Some in Ei as (l1 & e' & l2 & Hll & Hlen & He' & _). boolify.
  assert (l !! i = Some e') as Hi by (subst l i; apply list_lookup_middle; done). destruct (swap_remove_spec l i e' Hi) as (k & -> & Hk). cbn.
  assert (e' = e) as ->.
  { assert (e' ∈ e :: es) as [->|Hin']%elem_of_cons by (rewrite <- Hp; by apply list_elem_of_lookup_2 in Hi); [done|].
    by apply Hes in Hin'. }
  assert (k ≡ₚ es) as Hkes by (apply (Permutation_cons_inv (a := e)); by rewrite <- Hk, Hp).
  eexists. split; [done|]. destruct k as [|x k].
  - rewrite lookup_delete_eq. split; [done|]. intros v Hv. by rewrite lookup_delete_ne.
  - rewrite lookup_insert_eq. split; [done|]. intros v Hv. by rewrite lookup_insert_ne.
Qed.

(** ** The invariant *)
Definition separate (m x : VmMapping) : Prop := apart m x \/ apart x m.

Definition placed (m : VmMapping) : Prop := mapping_ok m /\ 0 <= map_to_addr m /\ map_end m <= VMAR_CAP_ADDR.

(** The pages of a mapping that count for a type. *)
Definition resident (pt : VmSpace) (ty : RssType) (m : VmMapping) : Z :=
  if decide (rss_type m = ty) then pages pt (range m) else 0.

Lemma placed_nonempty m : placed m -> nonempty m.
Proof. intros [[H _] _]. unfold nonempty, key. cbn. unfold map_end. lia. Qed.

Lemma separate_iff m x : separate m x <-> map_end m <= map_to_addr x \/ map_end x <= map_to_addr m.
Proof. done. Qed.

Lemma contains_iff m k : contains m k <-> map_to_addr m <= k < map_end m.
Proof. done. Qed.

Lemma range_mapping m : range m = mkRange (map_to_addr m) (map_end m).
Proof. done. Qed.

Lemma separate_sym m x : separate m x -> separate x m.
Proof. unfold separate. tauto. Qed.

Lemma separate_contains m x k : separate m x -> contains m k -> ~ contains x k.
Proof. unfold separate, apart, contains. lia. Qed.

Lemma separate_of l m k : intervals l -> m ∈ l -> k ∈ l -> m <> k -> separate m k.
Proof.
  intros Hl Hm Hk Hne. destruct (IntervalSet_remove_spec l m Hl Hm) as (l' & _ & _ & Hp).
  apply (intervals_perm_apart l m l' Hl Hp). rewrite Hp in Hk. set_solver.
Qed.

(** The parts of the state that only [unmap] and [protect] change. *)
Definition same_pages (s s' : Vmar) : Prop :=
  vm_space s' = vm_space s /\ rss_counters s' = rss_counters s /\ rss_delta s' = rss_delta s.

Lemma same_pages_refl s : same_pages s s.
Proof. done. Qed.

Lemma same_pages_trans s1 s2 s3 : same_pages s1 s2 -> same_pages s2 s3 -> same_pages s1 s3.
Proof. intros (? & ? & ?) (? & ? & ?). repeat split; congruence. Qed.

(** ** Pieces of mappings, and what is apart from them *)
Lemma omap_entries_vaddr id (l : list VmMapping) e :
  e ∈ omap (rmap_entry id) l -> exists m, m ∈ l /\ re_vaddr e = map_to_addr m.
Proof.
  intros (m & Hm & He)%list_elem_of_omap. exists m. split; [done|]. by apply rmap_entry_Some in He as [_ ?].
Qed.

Lemma perm_keys l m l' x : intervals l -> l ≡ₚ m :: l' -> x ∈ l' -> map_to_addr x <> map_to_addr m.
Proof.
  intros Hl Hp Hx. assert (m ∈ l) as Hm by (rewrite Hp; set_solver). assert (x ∈ l) as Hx' by (rewrite Hp; set_solver).
  intros Hk. apply (intervals_key_inj l x m Hl Hx' Hm) in Hk. subst x.
  assert (NoDup (m :: l')) as [Hn _]%NoDup_cons by (rewrite <- Hp; by apply intervals_NoDup). done.
Qed.

Lemma separate_sub m x a b : separate m x -> map_to_addr x <= a -> b <= map_end x -> separate m (sub x a b).
Proof.
  rewrite !separate_iff, map_end_sub. cbn. lia.
Qed.

Lemma placed_sub m a b :
  placed m -> map_to_addr m <= a -> a < b -> b <= map_end m -> page_aligned a -> page_aligned b -> placed (sub m a b).
Proof.
  intros (Hm & H0 & H1) ? ? ? ? ?. split; [by apply mapping_ok_sub|]. rewrite map_end_sub. cbn. lia.
Qed.

Lemma tracks_sub m a b id : tracks (sub m a b) id = tracks m id.
Proof. unfold tracks. by rewrite tracked_sub. Qed.

Lemma resident_split pt ty m a b c :
  a <= b <= c -> resident pt ty (sub m a c) = resident pt ty (sub m a b) + resident pt ty (sub m b c).
Proof.
  intros H. unfold resident. rewrite !rss_type_sub. case_decide; [|lia].
  rewrite !range_mapping, !map_end_sub. by apply pages_split.
Qed.

(** A piece of a mapping cut by a range within it. *)
Lemma pieces_elem m r x :
  x ∈ pieces m r ->
  (x = sub m (map_to_addr m) (r_start r) /\ map_to_addr m < r_start r) \/
  (x = sub m (r_end r) (map_end m) /\ r_end r < map_end m).
Proof.
  unfold pieces, left_of, right_of. intros [H|H]%elem_of_app; case_cond_in H; cbn in H;
    first [apply list_elem_of_singleton in H as ->; tauto | by apply elem_of_nil in H].
Qed.

Lemma pieces_sub m r x :
  mapping_ok m -> map_to_addr m <= r_start r -> r_start r < r_end r -> r_end r <= map_end m ->
  page_aligned (r_start r) -> page_aligned (r_end r) -> x ∈ pieces m r ++ [sub m (r_start r) (r_end r)] ->
  exists a b, x = sub m a b /\ map_to_addr m <= a /\ a < b /\ b <= map_end m /\ page_aligned a /\ page_aligned b.
Proof.
  intros Hm ? ? ? ? ?. pose proof (mapping_ok_end m Hm). destruct Hm as (? & ? & ?).
  intros [[[-> ?]|[-> ?]]%pieces_elem| ->%list_elem_of_singleton]%elem_of_app;
    eexists _, _; (split; [done|]); split_and!; lia || done.
Qed.

Lemma pieces_separate m r h :
  map_to_addr m <= r_start r -> r_start r < r_end r -> r_end r <= map_end m ->
  ForallOrdPairs separate (m :: h) -> ForallOrdPairs separate (pieces m r ++ sub m (r_start r) (r_end r) :: h).
Proof.
  intros ? ? ? Hh. inversion_clear Hh as [|? ? Hmh Hh']. rewrite Forall_forall in Hmh.
  assert (forall a b, map_to_addr m <= a -> b <= map_end m -> Forall (separate (sub m a b)) h) as Hfar.
  { intros a b ? ?. apply Forall_forall. intros x Hx. apply separate_sym, separate_sub; [|done..].
    apply separate_sym. by apply Hmh. }
  unfold pieces, left_of, right_of. repeat case_cond; cbn;
    repeat (apply FOP_cons; [repeat (apply Forall_cons; split); [..|apply Hfar]|]); try apply Hfar; try done; try lia;
    rewrite separate_iff, ?map_end_sub; cbn; lia.
Qed.

Lemma pieces_resident pt ty m r :
  map_to_addr m <= r_start r -> r_start r < r_end r -> r_end r <= map_end m ->
  tally (resident pt ty) (pieces m r) + resident pt ty (sub m (r_start r) (r_end r)) = resident pt ty m.
Proof.
  intros ? ? ?.
  assert (resident pt ty m = resident pt ty (sub m (map_to_addr m) (r_start r)) +
    (resident pt ty (sub m (r_start r) (r_end r)) + resident pt ty (sub m (r_end r) (map_end m)))) as ->.
  { rewrite <- !resident_split by lia. by rewrite sub_self. }
  assert (forall a, resident pt ty (sub m a a) = 0) as Hz.
  { intros a. pose proof (resident_split pt ty m a a a). lia. }
  unfold pieces, left_of, right_of.
  destruct (Z.ltb_spec (map_to_addr m) (r_start r)), (Z.ltb_spec (r_end r) (map_end m)); cbn.
  - lia.
  - replace (r_end r) with (map_end m) by lia. rewrite Hz. lia.
  - replace (r_start r) with (map_to_addr m) by lia. rewrite Hz. lia.
  - replace (r_end r) with (map_end m) by lia. replace (r_start r) with (map_to_addr m) by lia. rewrite !Hz. lia.
Qed.

Lemma pieces_cover m r k :
  contains m k -> exists x, x ∈ pieces m r ++ [sub m (r_start r) (r_end r)] /\ contains x k.
Proof.
  rewrite contains_iff. intros Hk. destruct (Z_lt_dec k (r_start r)); [|destruct (Z_le_dec (r_end r) k)].
  - exists (sub m (map_to_addr m) (r_start r)). split; [|rewrite contains_iff, map_end_sub; cbn; lia].
    unfold pieces, left_of. rewrite (proj2 (Z.ltb_lt (map_to_addr m) _)) by lia. set_solver.
  - exists (sub m (r_end r) (map_end m)). split; [|rewrite contains_iff, map_end_sub; cbn; lia].
    unfold pieces, right_of. rewrite (proj2 (Z.ltb_lt (r_end r) _)) by lia. set_solver.
  - exists (sub m (r_start r) (r_end r)). split; [set_solver|rewrite contains_iff, map_end_sub; cbn; lia].
Qed.

Lemma cursor_mut_ok m : placed m -> cursor_mut (range m) = Ret tt.
Proof.
  intros (Hm & H0 & H1). pose proof (mapping_ok_end m Hm) as He%is_multiple_of_spec.
  destruct Hm as (Hs & Ha%is_multiple_of_spec & _). unfold cursor_mut. rewrite range_mapping. cbn [r_start r_end].
  rewrite Ha, He, (proj2 (Z.leb_le _ _) H0). unfold map_end in *.
  rewrite (proj2 (Z.ltb_lt _ _)) by lia. rewrite (proj2 (Z.leb_le _ _)); [done|].
  unfold VMAR_CAP_ADDR, MAX_USERSPACE_VADDR, PAGE_SIZE in H1. change (Z.shiftl 274877906944 9) with 140737488355328 in H1.
  change (Z.shiftl 1 47) with 140737488355328. lia.
Qed.

Lemma counter_add_spec c t n ty : counter (counter_add c t n) ty = counter c ty + if decide (t = ty) then n else 0.
Proof. destruct t, ty; cbn; case_decide; try done; lia. Qed.

(** ** The view of an address space *)
Lemma view_Some l x m : intervals l -> m ∈ l -> contains m x -> view l x = Some (attr_at m x).
Proof. intros Hl Hm Hx. unfold view. by rewrite (proj2 (covering_Some l x m Hl)). Qed.

Lemma view_None l x : (forall m, m ∈ l -> ~ contains m x) -> view l x = None.
Proof. intros H. unfold view. by rewrite (proj2 (covering_None l x) H). Qed.

Lemma view_inv l x a : intervals l -> view l x = Some a -> exists m, m ∈ l /\ contains m x /\ a = attr_at m x.
Proof.
  intros Hl. unfold view. destruct (covering x l) as [m|] eqn:E; [|done]. intros [= <-].
  apply covering_Some in E as [Hm Hx]; [|done]. eauto.
Qed.

Lemma view_None_inv l x m : view l x = None -> m ∈ l -> ~ contains m x.
Proof.
  unfold view. destruct (covering x l) as [m'|] eqn:E; [done|]. intros _ Hm. by apply (proj1 (covering_None l x) E).
Qed.

(** A tree with one mapping more. *)
Lemma view_cons l l' m x :
  intervals l -> intervals l' -> l' ≡ₚ m :: l ->
  view l' x = if decide (contains m x) then Some (attr_at m x) else view l x.
Proof.
  intros Hl Hl' Hp. case_decide as Hx.
  - apply view_Some; [done| |done]. rewrite Hp. set_solver.
  - destruct (view l x) as [a|] eqn:E.
    + apply view_inv in E as (k & Hk & Hkx & ->); [|done]. apply view_Some; [done| |done]. rewrite Hp. set_solver.
    + apply view_None. intros k Hk. rewrite Hp in Hk. apply elem_of_cons in Hk as [->|Hk]; [done|].
      by apply (view_None_inv l).
Qed.

(** The view when a mapping is about to go into the tree. *)
Definition view_with (m : VmMapping) (s : Vmar) (x : Z) : option Attr :=
  if decide (contains m x) then Some (attr_at m x) else view (vm_mappings s) x.

(** [joined m o u]: [u] is [m] merged with its neighbour [o], on whichever side that is. *)
Definition joined (m o u : VmMapping) : Prop :=
  (mergeable m o = true /\ u = merged m o) \/ (mergeable o m = true /\ u = merged o m).

Lemma try_merge_with_spec m o w :
  placed m -> placed o -> separate m o ->
  (exists u w', try_merge_with m o w = Ret (u, Some (map_to_addr o), w') /\ joined m o u /\
     (forall id, status w' id = status w id + tracks u id - tracks m id) /\
     (forall id v, rmap_of w' id v = rmap_of w id v)) \/
  try_merge_with m o w = Ret (m, None, w).
Proof.
  intros [(Hm & _) _] [(Ho & _) _] Hs. unfold try_merge_with. rewrite !range_mapping.
  replace (is_intersected _ _) with false; cbn [negb assert_run mbind run_bind].
  2: { symmetry. unfold is_intersected. cbn [r_start r_end]. apply Z.ltb_ge. rewrite separate_iff in Hs. unfold map_end in *. lia. }
  assert (forall l r, (l, r) = (m, o) \/ (l, r) = (o, m) -> try_merge l r w = Ret None \/
    exists w', try_merge l r w = Ret (Some (merged l r, w')) /\ joined m o (merged l r) /\ status_delta l 1 w w') as H.
  { intros l r Hlr. pose proof (try_merge_spec l r w) as H.
    destruct (mergeable l r) eqn:E; [|left; apply H; destruct Hlr; simplify_eq; done].
    right. destruct H as (w' & -> & Hd); [destruct Hlr; simplify_eq; done..|]. exists w'. split; [done|]. split; [|done].
    destruct Hlr; simplify_eq; [by left|by right]. }
  destruct (map_to_addr m <? map_to_addr o).
  - destruct (H m o) as [-> |(w' & -> & Hj & Hst & Hrm)]; [by left|by right|left]. cbn. eexists _, _. split; [done|].
    split; [done|]. rewrite VmMapping_drop_eq. destruct (status_delta_add m (-1) w') as [Hst' Hrm'].
    split; intros id; [rewrite Hst', Hst; change (tracks (merged m o) id) with (tracks m id); lia|].
    intros v. unfold rmap_of. by rewrite Hrm', Hrm.
  - destruct (H o m) as [-> |(w' & -> & Hj & Hst & Hrm)]; [by right|by right|left]. cbn. eexists _, _. split; [done|].
    split; [done|]. rewrite VmMapping_drop_eq. destruct (status_delta_add m (-1) w') as [Hst' Hrm'].
    split; intros id; [rewrite Hst', Hst; change (tracks (merged o m) id) with (tracks o id); lia|].
    intros v. unfold rmap_of. by rewrite Hrm', Hrm.
Qed.

Lemma joined_perms m o u : joined m o u -> perms u = perms m /\ perms o = perms m.
Proof.
  assert (forall l r, mergeable l r = true -> perms l = perms r) as H by (unfold mergeable; intros l r H; by boolify).
  intros [[E ->]|[E ->]]; apply H in E; cbn; split; congruence.
Qed.

Lemma joined_tracked m o u : joined m o u -> tracked u = tracked m \/ tracked u = tracked o.
Proof. intros [[_ ->]|[_ ->]]; [by left|by right]. Qed.

(** [u] covers [m], with pages of the same type. *)
Definition within (m u : VmMapping) : Prop :=
  map_to_addr u <= map_to_addr m /\ map_end m <= map_end u /\ rss_type u = rss_type m.

Lemma within_refl m : within m m.
Proof. unfold within. split_and!; [lia|lia|done]. Qed.

Lemma within_trans m u v : within m u -> within u v -> within m v.
Proof. intros (? & ? & ?) (? & ? & ?). split_and!; [lia|lia|congruence]. Qed.

Lemma joined_within m o u : joined m o u -> placed m -> placed o -> within m u /\ within o u.
Proof.
  intros Hj ((? & _) & _) ((? & _) & _). unfold within.
  destruct Hj as [[E ->]|[E ->]]; rewrite (map_end_merged _ _ E); pose proof (mergeable_adjacent _ _ E); pose proof (mergeable_rss _ _ E);
    unfold map_end in *; cbn in *; split_and!; lia || done.
Qed.

(** What a merged mapping has of its parts. *)
Lemma joined_facts m o u :
  joined m o u -> placed m -> placed o ->
  placed u /\ map_size u = map_size m + map_size o /\ vmo_for_rmap u = vmo_for_rmap m /\ vmo_for_rmap o = vmo_for_rmap m /\
  (forall x, contains u x <-> contains m x \/ contains o x) /\
  (forall x, attr_at u x = attr_at m x /\ attr_at u x = attr_at o x) /\
  (forall pt ty, resident pt ty u = resident pt ty m + resident pt ty o) /\
  (forall y, separate y m -> separate y o -> placed y -> separate y u).
Proof.
  intros Hj Hm Ho.
  assert (exists l r, mergeable l r = true /\ u = merged l r /\ placed l /\ placed r /\
    ((l = m /\ r = o) \/ (l = o /\ r = m))) as (l & r & E & -> & Hl & Hr & Hlr).
  { destruct Hj as [[? ->]|[? ->]]; eexists _, _; split_and!; eauto. }
  pose proof (mergeable_adjacent _ _ E) as Hadj. pose proof (map_end_merged _ _ E) as Hend.
  pose proof (mergeable_rmap _ _ E) as Hrm. pose proof (mergeable_attr l r) as Hat. pose proof (mergeable_rss _ _ E) as Hrss.
  assert (placed (merged l r)) as Hu.
  { destruct Hl as ((? & ? & ?) & ? & ?), Hr as ((? & ? & ?) & ? & ?). split; [|rewrite Hend; done].
    split; [cbn; lia|]. split; [done|]. by apply page_aligned_add. }
  assert (forall pt ty, resident pt ty (merged l r) = resident pt ty l + resident pt ty r) as Hres.
  { intros pt ty. unfold resident. rewrite Hrss. change (rss_type (merged l r)) with (rss_type l).
    case_decide; [|lia]. rewrite !range_mapping, Hend. cbn [map_to_addr merged with_place]. rewrite <- Hadj.
    apply pages_split. unfold map_end. destruct Hl as ((? & _) & _), Hr as ((? & _) & _). unfold map_end in *. lia. }
  assert (forall x, contains (merged l r) x <-> contains l x \/ contains r x) as Hc.
  { intros x. rewrite !contains_iff, Hend. cbn. destruct Hl as ((? & _) & _), Hr as ((? & _) & _). unfold map_end in *. lia. }
  split; [done|]. split; [cbn; destruct Hlr as [[-> ->]|[-> ->]]; lia|].
  change (vmo_for_rmap (merged l r)) with (vmo_for_rmap l).
  split; [destruct Hlr as [[-> ->]|[-> ->]]; congruence|]. split; [destruct Hlr as [[-> ->]|[-> ->]]; congruence|].
  split; [intros x; rewrite Hc; destruct Hlr as [[-> ->]|[-> ->]]; tauto|].
  split; [intros x; rewrite attr_at_merged; specialize (Hat x E); destruct Hlr as [[-> ->]|[-> ->]]; by split|].
  split; [intros pt ty; rewrite Hres; destruct Hlr as [[-> ->]|[-> ->]]; lia|].
  intros y. rewrite !separate_iff, Hend. cbn [map_to_addr merged with_place]. intros ? ? ((? & _) & _). unfold map_end in *.
  destruct Hlr as [[-> ->]|[-> ->]]; lia.
Qed.

Section inv.
Context (me : nat) (base : nat -> Z) (others : nat -> nat -> list RmapEntry).

(** [hand] are the mappings that are not in the tree, [extra] the part of the total size that does not
    belong to the tree; [base] and [others] are what the other address spaces contribute to the memory
    objects. *)
Record vmar_inv (extra : Z) (hand : list VmMapping) (s : Vmar) : Prop := {
  vi_intervals : intervals (vm_mappings s);
  vi_placed : forall m, m ∈ vm_mappings s ++ hand -> placed m;
  vi_apart : forall m x, m ∈ vm_mappings s -> x ∈ hand -> separate m x;
  vi_hand : ForallOrdPairs separate hand;
  vi_total : total_vm s = tally map_size (vm_mappings s) + extra;
  vi_rmap : forall id, rmap_of (vmos s) id me ≡ₚ omap (rmap_entry id) (vm_mappings s);
  vi_others : forall id v, v <> me -> rmap_of (vmos s) id v = others id v;
  vi_status : forall id,
    status (vmos s) id = base id + tally (fun m => tracks m id) (vm_mappings s ++ hand);
  vi_rss : forall ty,
    counter (rss_counters s) ty + counter (rss_delta s) ty = tally (resident (vm_space s) ty) (vm_mappings s ++ hand);
  vi_pages : forall k p, vm_space s !! k = Some p ->
    page_aligned k /\ exists m, m ∈ vm_mappings s ++ hand /\ contains m k;
  vi_denied : forall id m, base id < 0 -> m ∈ vm_mappings s ++ hand -> tracked m <> Some id
}.

(** Changing the reverse mappings of one object. *)
Lemma rmap_update w id (r : gmap nat (list RmapEntry)) es :
  default [] (r !! me) ≡ₚ es -> (forall v, v <> me -> r !! v = rmap (w !!! id) !! v) ->
  let w' := <[id := with_rmap (w !!! id) r]> w in
  rmap_of w' id me ≡ₚ es /\ (forall id' v, id' <> id \/ v <> me -> rmap_of w' id' v = rmap_of w id' v) /\
  (forall id', status w' id' = status w id').
Proof.
  intros Hr Ho w'. unfold w', rmap_of, status. split; [|split].
  - by rewrite lookup_total_insert_eq.
  - intros id' v Hne. destruct (decide (id' = id)) as [->|Hid].
    + rewrite lookup_total_insert_eq. cbn. rewrite Ho; [done|]. by destruct Hne.
    + by rewrite lookup_total_insert_ne.
  - intros id'. destruct (decide (id' = id)) as [->|Hid].
    + by rewrite lookup_total_insert_eq.
    + by rewrite lookup_total_insert_ne.
Qed.

Lemma rmap_remove_spec s id addr e es :
  rmap_of (vmos s) id me ≡ₚ e :: es -> re_vaddr e = addr -> (forall e', e' ∈ es -> re_vaddr e' <> addr) ->
  exists w', rmap_remove me (Some id) addr s = Ret (with_vmos s w') /\ rmap_of w' id me ≡ₚ es /\
    (forall id' v, id' <> id \/ v <> me -> rmap_of w' id' v = rmap_of (vmos s) id' v) /\
    (forall id', status w' id' = status (vmos s) id').
Proof.
  intros Hp He Hes. cbn. destruct (Rmap_remove_spec me (rmap (vmos s !!! id)) addr e es Hp He Hes) as (r' & -> & Hr & Ho).
  cbn. eexists. split; [done|]. by apply rmap_update.
Qed.

Lemma rmap_insert_spec s id m e :
  rmap_entry id m = Some e ->
  exists w', rmap_insert me (Some id) m s = Ret (with_vmos s w') /\ rmap_of w' id me ≡ₚ e :: rmap_of (vmos s) id me /\
    (forall id' v, id' <> id \/ v <> me -> rmap_of w' id' v = rmap_of (vmos s) id' v) /\
    (forall id', status w' id' = status (vmos s) id').
Proof.
  intros He. pose proof (rmap_entry_Some _ _ _ He) as [Hv _].
  destruct (rmap_entry_vmo _ _ Hv) as (v & Hm & He'). rewrite He in He'. injection He' as ->.
  cbn. rewrite Hm. cbn. eexists. split; [done|]. apply rmap_update.
  - unfold Rmap_insert. rewrite lookup_insert_eq. cbn. by rewrite Permutation_app_comm.
  - intros u Hu. unfold Rmap_insert. by rewrite lookup_insert_ne.
Qed.
(** Mappings go from the tree to the hands of the operation or back. *)
Lemma vmar_inv_relocate t t' h h' s l' total w' :
  vmar_inv t h s -> intervals l' -> l' ++ h' ≡ₚ vm_mappings s ++ h ->
  (forall m x, m ∈ l' -> x ∈ h' -> separate m x) -> ForallOrdPairs separate h' ->
  total = tally map_size l' + t' ->
  (forall id, rmap_of w' id me ≡ₚ omap (rmap_entry id) l') ->
  (forall id v, v <> me -> rmap_of w' id v = rmap_of (vmos s) id v) ->
  (forall id, status w' id = status (vmos s) id) ->
  vmar_inv t' h' (with_vmos (with_mappings s l' total) w').
Proof.
  intros [Hi Hpl Ha Hh Ht Hr Ho Hs Hrss Hp Hdn] Hl Hperm Ha' Hh' Htot Hr' Ho' Hs'. constructor; vsimpl; try done.
  - intros m Hm. apply Hpl. by rewrite <- Hperm.
  - intros id v Hv. rewrite Ho' by done. by apply Ho.
  - intros id. by rewrite Hs', Hs, (tally_perm _ _ _ Hperm).
  - intros ty. by rewrite Hrss, (tally_perm _ _ _ Hperm).
  - intros k p Hk. destruct (Hp k p Hk) as [Hk1 (m & Hm & Hmk)]. split; [done|]. exists m. by rewrite Hperm.
  - intros id m Hb Hm. apply Hdn; [done|]. by rewrite <- Hperm.
Qed.

(** Removing the reverse mapping of a mapping that has left the tree. *)
Lemma rmap_remove_inv s m l :
  (forall id, rmap_of (vmos s) id me ≡ₚ omap (rmap_entry id) (m :: l)) ->
  (forall x, x ∈ l -> map_to_addr x <> map_to_addr m) ->
  exists w', rmap_remove me (vmo_for_rmap m) (map_to_addr m) s = Ret (with_vmos s w') /\
    (forall id, rmap_of w' id me ≡ₚ omap (rmap_entry id) l) /\
    (forall id v, v <> me -> rmap_of w' id v = rmap_of (vmos s) id v) /\
    (forall id, status w' id = status (vmos s) id).
Proof.
  intros Hr Hk. destruct (vmo_for_rmap m) as [id|] eqn:Ev.
  - destruct (rmap_entry_vmo _ _ Ev) as (v & _ & He). pose proof (Hr id) as Hrid. cbn in Hrid. rewrite He in Hrid.
    destruct (rmap_remove_spec s id (map_to_addr m) _ _ Hrid) as (w' & -> & H1 & H2 & H3).
    { done. }
    { intros e' (m' & Hm' & ->)%omap_entries_vaddr. by apply Hk. }
    exists w'. split; [done|]. split; [|split; [intros id' v' Hv'; apply H2; by right|done]].
    intros id'. destruct (decide (id' = id)) as [->|Hne]; [done|].
    rewrite H2 by by left. rewrite Hr. cbn. rewrite rmap_entry_None by congruence. done.
  - exists (vmos s). split; [by destruct s|]. split; [|done].
    intros id. rewrite Hr. cbn. rewrite rmap_entry_None by congruence. done.
Qed.

(** Taking a mapping out of the tree, with its reverse mapping. *)
Lemma remove_spec t h s m :
  vmar_inv t h s -> m ∈ vm_mappings s ->
  exists s1 s2, remove (map_to_addr m) s = Some (m, vmo_for_rmap m, s1) /\
    rmap_remove me (vmo_for_rmap m) (map_to_addr m) s1 = Ret s2 /\
    vmar_inv t (m :: h) s2 /\ vm_mappings s ≡ₚ m :: vm_mappings s2 /\ same_pages s s2.
Proof.
  intros Hinv Hm. pose proof (vi_intervals _ _ _ Hinv) as Hl.
  destruct (IntervalSet_remove_spec _ m Hl Hm) as (l' & Er & Hl' & Hp).
  pose proof (intervals_perm_apart _ _ _ Hl Hp) as Hap.
  pose proof (vi_rmap _ _ _ Hinv) as Hr. setoid_rewrite Hp in Hr.
  set (s1 := with_mappings s l' (total_vm s - map_size m)).
  destruct (rmap_remove_inv s1 m l' Hr) as (w' & E & H1 & H2 & H3); [intros x Hx; by apply (perm_keys (vm_mappings s) m l')|].
  exists s1, (with_vmos s1 w'). split; [unfold remove; change (map_to_addr m) with (key m); by rewrite Er|].
  split; [done|]. split; [|done].
  apply (vmar_inv_relocate t t h (m :: h) s l' (total_vm s - map_size m) w'); [done|done| | | | |done|done|done].
  - rewrite Hp. cbn. by rewrite <- Permutation_middle.
  - intros x y Hx [->|Hy]%elem_of_cons; [apply separate_sym; by apply Hap|].
    apply (vi_apart _ _ _ Hinv); [|done]. rewrite Hp. set_solver.
  - constructor; [|apply (vi_hand _ _ _ Hinv)]. apply Forall_forall. intros x Hx. by apply (vi_apart _ _ _ Hinv).
  - rewrite (vi_total _ _ _ Hinv), (tally_perm _ _ _ Hp), tally_cons. lia.
Qed.

(** The reverse mapping of a mapping that goes into the tree. *)
Lemma rmap_insert_inv s m l :
  (forall id, rmap_of (vmos s) id me ≡ₚ omap (rmap_entry id) l) ->
  exists w', rmap_insert me (vmo_for_rmap m) m s = Ret (with_vmos s w') /\
    (forall id, rmap_of w' id me ≡ₚ omap (rmap_entry id) (m :: l)) /\
    (forall id v, v <> me -> rmap_of w' id v = rmap_of (vmos s) id v) /\
    (forall id, status w' id = status (vmos s) id).
Proof.
  intros Hr. destruct (vmo_for_rmap m) as [id|] eqn:Ev.
  - destruct (rmap_entry_vmo _ _ Ev) as (v & _ & He).
    destruct (rmap_insert_spec s id m _ He) as (w' & -> & H1 & H2 & H3).
    exists w'. split; [done|]. split; [|split; [intros id' u Hu; apply H2; by right|done]].
    intros id'. cbn. destruct (decide (id' = id)) as [->|Hne].
    + rewrite He, H1, Hr. done.
    + rewrite rmap_entry_None by congruence. rewrite H2 by by left. done.
  - exists (vmos s). cbn. split; [by destruct s|]. split; [|done].
    intros id. rewrite rmap_entry_None by congruence. done.
Qed.

Lemma insert_without_try_merge_spec t h s m :
  vmar_inv t (m :: h) s ->
  exists s', insert_without_try_merge me m (vmo_for_rmap m) s = Ret s' /\ vmar_inv t h s' /\
    vm_mappings s' ≡ₚ m :: vm_mappings s /\ same_pages s s'.
Proof.
  intros Hinv. unfold insert_without_try_merge.
  destruct (rmap_insert_inv s m _ (vi_rmap _ _ _ Hinv)) as (w' & -> & H1 & H2 & H3). cbn [mbind run_bind].
  pose proof (vi_hand _ _ _ Hinv) as Hh. inversion_clear Hh as [|? ? Hmh Hh'].
  destruct (IntervalSet_insert_spec m (vm_mappings s)) as [Hl Hp].
  { apply (vi_intervals _ _ _ Hinv). }
  { apply placed_nonempty, (vi_placed _ _ _ Hinv). set_solver. }
  { intros x Hx. apply separate_sym. apply (vi_apart _ _ _ Hinv); set_solver. }
  eexists. split; [done|]. split; [|done].
  apply (vmar_inv_relocate t t (m :: h) h s (IntervalSet_insert m (vm_mappings s)) (total_vm s + map_size m) w');
    [done|done| | |done| | |done|done].
  - rewrite Hp. cbn. by rewrite <- Permutation_middle.
  - intros x y Hx Hy. rewrite Hp in Hx. apply elem_of_cons in Hx as [->|Hx].
    + rewrite Forall_forall in Hmh. by apply Hmh.
    + apply (vi_apart _ _ _ Hinv); set_solver.
  - rewrite (vi_total _ _ _ Hinv), (tally_perm _ _ _ Hp), tally_cons. lia.
  - intros id. by rewrite H1, Hp.
Qed.
(** The operation changes what it has in its hands. *)
Lemma vmar_inv_rehand t h h' s w' :
  vmar_inv t h s -> (forall x, x ∈ h' -> placed x) ->
  (forall m x, m ∈ vm_mappings s -> x ∈ h' -> separate m x) -> ForallOrdPairs separate h' ->
  (forall id v, rmap_of w' id v = rmap_of (vmos s) id v) ->
  (forall id, status w' id = status (vmos s) id + tally (fun m => tracks m id) h' - tally (fun m => tracks m id) h) ->
  (forall ty, tally (resident (vm_space s) ty) h' = tally (resident (vm_space s) ty) h) ->
  (forall x k, x ∈ h -> contains x k -> exists x', x' ∈ h' /\ contains x' k) ->
  (forall x id, x ∈ h' -> base id < 0 -> tracked x = Some id -> exists y, y ∈ vm_mappings s ++ h /\ tracked y = Some id) ->
  vmar_inv t h' (with_vmos s w').
Proof.
  intros [Hi Hpl Ha Hh Ht Hr Ho Hs Hrss Hp Hdn] Hpl' Ha' Hh' Hr' Hs' Hrss' Hc Hdn'. constructor; vsimpl; try done.
  - intros m [Hm|Hm]%elem_of_app; [apply Hpl; set_solver|by apply Hpl'].
  - intros id. rewrite Hr'. apply Hr.
  - intros id v Hv. rewrite Hr'. by apply Ho.
  - intros id. rewrite Hs', Hs, !tally_app. lia.
  - intros ty. rewrite Hrss, !tally_app, Hrss'. done.
  - intros k p Hk. destruct (Hp k p Hk) as [Hk1 (m & [Hm|Hm]%elem_of_app & Hmk)]; split; try done.
    + exists m. split; [set_solver|done].
    + destruct (Hc m k Hm Hmk) as (x' & Hx' & Hk'). exists x'. split; [set_solver|done].
  - intros id m Hb [Hm|Hm]%elem_of_app; [apply Hdn; [done|set_solver]|]. intros Et.
    destruct (Hdn' m id Hm Hb Et) as (y & Hy & Ey). by apply (Hdn id y Hb).
Qed.

Lemma split_range_inv t h s m r :
  vmar_inv t (m :: h) s ->
  map_to_addr m <= r_start r -> r_start r < r_end r -> r_end r <= map_end m ->
  page_aligned (r_start r) -> page_aligned (r_end r) ->
  exists w', split_range m r (vmos s) = Ret (left_of m r, sub m (r_start r) (r_end r), right_of m r, w') /\
    vmar_inv t (pieces m r ++ sub m (r_start r) (r_end r) :: h) (with_vmos s w').
Proof.
  intros Hinv H1 H2 H3 Ha Hb. assert (placed m) as Hm by (apply (vi_placed _ _ _ Hinv); set_solver).
  pose proof (proj1 Hm) as Hok. destruct (split_range_spec m r (vmos s)) as (w' & E & Hst & Hrm); [done..|].
  exists w'. split; [done|].
  assert (forall x, x ∈ pieces m r ++ sub m (r_start r) (r_end r) :: h -> x ∈ h \/
    exists a b, x = sub m a b /\ map_to_addr m <= a /\ a < b /\ b <= map_end m /\ page_aligned a /\ page_aligned b) as Hpc.
  { intros x Hx. destruct (decide (x ∈ h)); [by left|]. right. apply (pieces_sub m r); [done..|set_solver]. }
  apply vmar_inv_rehand with (h := m :: h); try done.
  - intros x [Hx|(a & b & -> & ? & ? & ? & ? & ?)]%Hpc; [apply (vi_placed _ _ _ Hinv); set_solver|by apply placed_sub].
  - intros x y Hx [Hy|(a & b & -> & ? & ? & ? & ? & ?)]%Hpc; [apply (vi_apart _ _ _ Hinv); set_solver|].
    apply separate_sub; [apply (vi_apart _ _ _ Hinv); set_solver|done..].
  - apply pieces_separate; [done..|]. apply (vi_hand _ _ _ Hinv).
  - intros id v. unfold rmap_of. by rewrite Hrm.
  - intros id. rewrite Hst, tally_app, !tally_cons, tracks_sub.
    unfold pieces, left_of, right_of. repeat case_cond; cbn; rewrite ?tracks_sub; lia.
  - intros ty. rewrite tally_app, !tally_cons, <- (pieces_resident _ _ m r) by done. lia.
  - intros x k [->|Hx]%elem_of_cons Hk; [|exists x; set_solver].
    destruct (pieces_cover m r k Hk) as (x & Hx & Hxk). exists x. split; [set_solver|done].
  - intros x id [Hx|(a & b & -> & _)]%Hpc _; [exists x; set_solver|]. rewrite tracked_sub. exists m. set_solver.
Qed.
(** Unmapping a mapping that is in the hands of the operation. *)
Lemma hand_separate t m h s x : vmar_inv t (m :: h) s -> x ∈ vm_mappings s ++ h -> separate m x.
Proof.
  intros Hinv [Hx|Hx]%elem_of_app; [apply separate_sym, (vi_apart _ _ _ Hinv); set_solver|].
  pose proof (vi_hand _ _ _ Hinv) as Hh. inversion_clear Hh as [|? ? Hmh _]. rewrite Forall_forall in Hmh. by apply Hmh.
Qed.

Lemma unmap_inv t h s m :
  vmar_inv t (m :: h) s ->
  exists n s1, VmMapping_unmap m s = Ret (n, s1) /\ vmar_inv t h (RssDelta_add s1 (rss_type m) (- n)) /\
    vm_mappings s1 = vm_mappings s /\ vm_space s1 = filter (fun kp => ~ in_range (range m) kp) (vm_space s) /\
    rss_counters s1 = rss_counters s.
Proof.
  intros Hinv. assert (placed m) as Hm by (apply (vi_placed _ _ _ Hinv); set_solver).
  unfold VmMapping_unmap. rewrite cursor_mut_ok by done. cbn. eexists _, _. split; [done|]. split; [|done].
  destruct (status_delta_add m (-1) (vmos s)) as [Hst Hrm]. rewrite <- VmMapping_drop_eq in Hst, Hrm.
  assert (forall x, x ∈ vm_mappings s ++ h -> separate m x) as Hsep by (intros; by eapply hand_separate).
  destruct Hinv as [Hi Hpl Ha Hh Ht Hr Ho Hs Hrss Hp Hdn]. constructor; vsimpl; try done.
  - intros x Hx. apply Hpl. set_solver.
  - intros x y Hx Hy. apply Ha; set_solver.
  - by inversion Hh.
  - intros id. unfold rmap_of in *. by rewrite Hrm.
  - intros id v Hv. unfold rmap_of in *. rewrite Hrm. by apply Ho.
  - intros id. rewrite Hst, Hs, !tally_app, tally_cons. lia.
  - intros ty. rewrite counter_add_spec, Z.add_assoc, Hrss, !tally_app, tally_cons.
    rewrite <- !tally_app, (tally_ext_in (resident (filter _ (vm_space s)) ty) (resident (vm_space s) ty)).
    + rewrite tally_app. unfold resident at 2, pages. case_decide; lia.
    + intros x Hx. unfold resident. case_decide; [|done]. apply pages_unmapped. apply Hsep in Hx. apply Hx.
  - intros k p [Hk Hout]%map_lookup_filter_Some. destruct (Hp k p Hk) as [Hk1 (x & Hx & Hxk)]. split; [done|].
    exists x. split; [|done]. apply elem_of_app in Hx as [Hx|[->|Hx]%elem_of_cons]; [set_solver| |set_solver].
    exfalso. apply Hout. apply Hxk.
  - intros id x Hb Hx. apply Hdn; [done|set_solver].
Qed.


(** ** Merging *)


(** The neighbour leaves the tree and the merged mapping takes the place of the one in hand. *)
Lemma vmar_inv_merge t h s m o u l' w' :
  vmar_inv t (m :: h) s -> joined m o u -> intervals l' -> vm_mappings s ≡ₚ o :: l' ->
  (forall id, rmap_of w' id me ≡ₚ omap (rmap_entry id) l') ->
  (forall id v, v <> me -> rmap_of w' id v = rmap_of (vmos s) id v) ->
  (forall id, status w' id = status (vmos s) id + tracks u id - tracks m id - tracks o id) ->
  vmar_inv (t + (map_size u - map_size m)) (u :: h) (with_vmos (with_mappings s l' (total_vm s)) w').
Proof.
  intros Hinv Hj Hl' Hp Hr' Ho' Hs'.
  assert (o ∈ vm_mappings s) as Hoin by (rewrite Hp; set_solver).
  assert (placed m) as Hm by (apply (vi_placed _ _ _ Hinv); set_solver).
  assert (placed o) as Ho by (apply (vi_placed _ _ _ Hinv); set_solver).
  destruct (joined_facts m o u Hj Hm Ho) as (Hu & Hsz & _ & _ & Hc & _ & Hres & Hsep).
  assert (forall x, x ∈ l' -> x ∈ vm_mappings s) as Hsub by (intros x Hx; rewrite Hp; set_solver).
  pose proof (intervals_perm_apart _ _ _ (vi_intervals _ _ _ Hinv) Hp) as Hap.
  assert (forall x, x ∈ l' -> separate x u) as Hlu.
  { intros x Hx. apply Hsep; [apply (vi_apart _ _ _ Hinv); set_solver|apply separate_sym; by apply Hap|].
    apply (vi_placed _ _ _ Hinv). set_solver. }
  assert (forall x, x ∈ h -> separate u x) as Hhu.
  { intros x Hx. apply separate_sym, Hsep; [apply separate_sym; eapply hand_separate; [done|set_solver]|
      apply separate_sym, (vi_apart _ _ _ Hinv); set_solver|apply (vi_placed _ _ _ Hinv); set_solver]. }
  pose proof Hinv as [Hi Hpl Ha Hh Ht Hr Hot Hs Hrss Hpg Hdn]. constructor; vsimpl; try done.
  - intros x [Hx|[->|Hx]%elem_of_cons]%elem_of_app; [apply Hpl; set_solver|done|apply Hpl; set_solver].
  - intros x y Hx [->|Hy]%elem_of_cons; [by apply Hlu|apply Ha; set_solver].
  - constructor; [|by inversion Hh]. by apply Forall_forall.
  - rewrite Ht, (tally_perm _ _ _ Hp), tally_cons, Hsz. lia.
  - intros id v Hv. rewrite Ho' by done. by apply Hot.
  - intros id. rewrite Hs', Hs, !tally_app, !tally_cons, (tally_perm _ _ _ Hp), tally_cons. lia.
  - intros ty. rewrite Hrss, !tally_app, !tally_cons, (tally_perm _ _ _ Hp), tally_cons, Hres. lia.
  - intros k p Hk. destruct (Hpg k p Hk) as [Hk1 (x & Hx & Hxk)]. split; [done|].
    rewrite Hp in Hx. destruct (decide (x = o \/ x = m)) as [Hxo|Hxo].
    + exists u. split; [set_solver|]. apply Hc. destruct Hxo as [-> | ->]; tauto.
    + exists x. split; [|done]. set_solver.
  - intros id x Hb [Hx|[->|Hx]%elem_of_cons]%elem_of_app; [apply Hdn; [done|set_solver]| |apply Hdn; [done|set_solver]].
    destruct (joined_tracked m o u Hj) as [-> | ->]; apply Hdn; [done|set_solver|done|set_solver].
Qed.

Lemma merge_neighbour_spec t h s m nb :
  vmar_inv t (m :: h) s -> (forall o, nb = Some o -> o ∈ vm_mappings s) ->
  exists u s', merge_neighbour me m nb (vmo_for_rmap m) s = Ret (u, s') /\
    vmar_inv (t + (map_size u - map_size m)) (u :: h) s' /\ vmo_for_rmap u = vmo_for_rmap m /\ same_pages s s' /\
    (forall x, view_with u s' x = view_with m s x) /\
    perms u = perms m /\ (forall x, x ∈ vm_mappings s -> perms x <> perms m -> x ∈ vm_mappings s') /\
    within m u /\ (forall x, x ∈ vm_mappings s -> x ∈ vm_mappings s' \/ within x u).
Proof.
  pose proof (within_refl m) as Hrefl.
  intros Hinv Hnb. destruct nb as [o|]; cbn [merge_neighbour].
  2: { exists m, s. rewrite Z.sub_diag, Z.add_0_r. split_and!; try done. intros. by left. }
  specialize (Hnb o eq_refl). assert (placed m) as Hm by (apply (vi_placed _ _ _ Hinv); set_solver).
  assert (placed o) as Ho by (apply (vi_placed _ _ _ Hinv); set_solver).
  destruct (try_merge_with_spec m o (vmos s)) as [(u & w1 & -> & Hj & Hs1 & Hr1)| ->]; [done|done| | |].
  { apply separate_sym, (vi_apart _ _ _ Hinv); set_solver. }
  2: { cbn. exists m, s. rewrite Z.sub_diag, Z.add_0_r. replace (with_vmos s (vmos s)) with s by by destruct s. split_and!; try done. intros. by left. }
  cbn [mbind run_bind]. vsimpl. destruct (IntervalSet_remove_spec _ o (vi_intervals _ _ _ Hinv) Hnb) as (l' & Er & Hl' & Hp).
  change (map_to_addr o) with (key o). rewrite Er.
  destruct (joined_facts m o u Hj Hm Ho) as (Hu & Hsz & Hrmu & Hrmo & Hc & Hat & _ & _).
  destruct (status_delta_add o (-1) w1) as [Hs2 Hr2]. rewrite <- VmMapping_drop_eq in Hs2, Hr2.
  set (s2 := with_vmos _ _). destruct (rmap_remove_inv s2 o l') as (w3 & E & H1 & H2 & H3).
  { intros id. unfold s2. vsimpl. assert (rmap_of (VmMapping_drop o w1) id me = rmap_of w1 id me) as ->
      by (unfold rmap_of; by rewrite Hr2). rewrite Hr1, (vi_rmap _ _ _ Hinv). by rewrite Hp. }
  { intros x Hx. by apply (perm_keys (vm_mappings s) o l' x (vi_intervals _ _ _ Hinv)). }
  rewrite <- Hrmo. change (key o) with (map_to_addr o). rewrite E. cbn [mbind run_bind].
  destruct (joined_perms m o u Hj) as [Hpu Hpo]. destruct (joined_within m o u Hj Hm Ho) as [Hwm Hwo].
  eexists _, _. split; [done|]. split; [|split; [congruence|split; [done|split; [|split; [done|split; [|split; [done|]]]]]]].
  - eapply (vmar_inv_merge t h s m o u l' w3); try done.
    + intros id v Hv. rewrite H2, <- Hr1 by done. unfold s2. vsimpl. unfold rmap_of. by rewrite Hr2.
    + intros id. rewrite H3. unfold s2. vsimpl. rewrite Hs2, Hs1. lia.
  - intros x. unfold view_with. vsimpl. unfold s2. vsimpl. destruct (Hat x) as [A1 A2].
    rewrite (view_cons l' (vm_mappings s) o x) by (done || apply (vi_intervals _ _ _ Hinv)).
    specialize (Hc x). repeat case_decide; try tauto; congruence.
  - intros x Hx Hne. rewrite Hp in Hx. apply elem_of_cons in Hx as [->|Hx]; [congruence|done].
  - intros x Hx. rewrite Hp in Hx. apply elem_of_cons in Hx as [->|Hx]; [by right|by left].
Qed.

Lemma insert_try_merge_spec t h s m :
  vmar_inv t (m :: h) s ->
  exists s', insert_try_merge me m (vmo_for_rmap m) s = Ret s' /\ vmar_inv t h s' /\ same_pages s s' /\
    (forall x, view (vm_mappings s') x = view_with m s x) /\
    (forall x, x ∈ vm_mappings s -> perms x <> perms m -> x ∈ vm_mappings s') /\
    (forall x, x = m \/ x ∈ vm_mappings s -> exists u, u ∈ vm_mappings s' /\ within x u).
Proof.
  intros Hinv. unfold insert_try_merge.
  set (s0 := with_mappings s (vm_mappings s) (total_vm s + map_size m)).
  assert (vmar_inv (t + map_size m) (m :: h) s0) as H0.
  { destruct Hinv as [Hi Hpl Ha Hh Ht Hr Ho Hs Hrss Hp Hdn]. constructor; unfold s0; vsimpl; try done. rewrite Ht. lia. }
  destruct (merge_neighbour_spec _ h s0 m (find_prev (map_to_addr m) (vm_mappings s0)) H0) as (u1 & s1 & -> & I1 & R1 & P1 & V1 & Q1 & M1 & W1 & W1').
  { intros o Ho. pose proof (find_prev_spec (vm_mappings s0) (map_to_addr m) (vi_intervals _ _ _ H0)) as Hf.
    rewrite Ho in Hf. apply Hf. }
  cbn [mbind run_bind]. rewrite <- R1.
  destruct (merge_neighbour_spec _ h s1 u1 (find_next (map_to_addr m) (vm_mappings s1)) I1) as (u2 & s2 & -> & I2 & R2 & P2 & V2 & Q2 & M2 & W2 & W2').
  { intros o Ho. pose proof (find_next_spec (vm_mappings s1) (map_to_addr m) (vi_intervals _ _ _ I1)) as Hf.
    rewrite Ho in Hf. apply Hf. }
  cbn [mbind run_bind]. rewrite <- R2.
  destruct (insert_without_try_merge_spec (t - map_size u2 + map_size u2) h
    (with_mappings s2 (vm_mappings s2) (total_vm s2 - map_size u2)) u2) as (s3 & E & I3 & P3 & S3).
  { pose proof I2 as [Hi Hpl Ha Hh Ht Hr Ho Hs Hrss Hp Hdn]. constructor; vsimpl; try done. rewrite Ht. lia. }
  unfold insert_without_try_merge in E. vsimpl.
  destruct (rmap_insert_inv s2 u2 _ (vi_rmap _ _ _ I2)) as (w' & Ew & _).
  assert (rmap_insert me (vmo_for_rmap u2) u2 (with_mappings s2 (vm_mappings s2) (total_vm s2 - map_size u2)) =
    Ret (with_vmos (with_mappings s2 (vm_mappings s2) (total_vm s2 - map_size u2)) w')) as Ew'.
  { unfold rmap_insert in Ew |- *. destruct (vmo_for_rmap u2).
    - destruct (vmo u2); [|done]. cbn in Ew |- *. injection Ew as Ew. by rewrite Ew.
    - injection Ew as Ew. apply (f_equal vmos) in Ew. cbn in Ew. by rewrite <- Ew. }
  rewrite Ew' in E. rewrite Ew. cbn [mbind run_bind] in E |- *. vsimpl. injection E as E.
  exists s3. split; [rewrite <- E; f_equal; unfold with_mappings, with_vmos; vsimpl; f_equal; lia|].
  split; [|split; [|split; [|split]]].
  - replace t with (t - map_size u2 + map_size u2) by lia. exact I3.
  - eapply same_pages_trans; [exact P1|]. eapply same_pages_trans; [exact P2|]. exact S3.
  - intros x. rewrite (view_cons (vm_mappings s2) _ u2 x); [|apply (vi_intervals _ _ _ I2)|apply (vi_intervals _ _ _ I3)|exact P3].
    change (view_with u2 s2 x = view_with m s x). rewrite V2, V1. done.
  - intros x Hx Hne. rewrite P3. apply elem_of_cons. right. vsimpl. apply M2; [|congruence]. by apply M1.
  - assert (u2 ∈ vm_mappings s3) as Hu2 by (rewrite P3; by left).
    intros x [->|Hx]; [exists u2; split; [done|by apply (within_trans m u1)]|].
    destruct (W1' x Hx) as [Hx1|?]; [|exists u2; split; [done|by apply (within_trans x u1)]].
    destruct (W2' x Hx1) as [Hx2|?]; [|by exists u2]. exists x. split; [rewrite P3; by right|apply within_refl].
Qed.
End inv.

(** A new address space. *)
Lemma new_inv child w : (forall id, rmap_of w id child = []) -> vmar_inv child (status w) (rmap_of w) 0 [] (Vmar_new w).
Proof.
  intros Hfresh. constructor; cbn [vm_mappings total_vm vm_space vmos Vmar_new app rss_counters rss_delta]; try done.
  - split; constructor.
  - intros m Hm. by apply elem_of_nil in Hm.
  - intros m x Hm. by apply elem_of_nil in Hm.
  - constructor.
  - intros id. by rewrite Hfresh.
  - intros id. cbn. lia.
  - by intros [].
  - intros id m _ Hm. by apply elem_of_nil in Hm.
Qed.

(** ** Merging cannot be seen *)
Section merging.
Context (me : nat).

Lemma rmap_insert_total g m s s' : rmap_insert me g m s = Ret s' -> total_vm s' = total_vm s.
Proof. unfold rmap_insert. destruct g; intros H; run_inv; done. Qed.

Lemma rmap_remove_total g a s s' : rmap_remove me g a s = Ret s' -> total_vm s' = total_vm s.
Proof. unfold rmap_remove. destruct g; intros H; run_inv; done. Qed.

Lemma merge_neighbour_total m nb g s u s' : merge_neighbour me m nb g s = Ret (u, s') -> total_vm s' = total_vm s.
Proof.
  unfold merge_neighbour. destruct nb as [o|]; [|by intros [= _ <-]]. intros H. apply bind_Ret in H as ([[m' r] w'] & _ & H).
  destruct r as [a|]; [|by injection H as _ <-]. apply bind_Ret in H as (s1 & H1 & [= _ <-]). apply rmap_remove_total in H1 as ->.
  by destruct (IntervalSet_remove a _) as [[? ?]|].
Qed.

Lemma insert_try_merge_total m g s s' : insert_try_merge me m g s = Ret s' -> total_vm s' = total_vm s + map_size m.
Proof.
  unfold insert_try_merge. intros H. run_inv.
  repeat match goal with H : merge_neighbour _ _ _ _ _ = Ret _ |- _ => apply merge_neighbour_total in H end.
  match goal with H : rmap_insert _ _ _ _ = Ret _ |- _ => apply rmap_insert_total in H end. vsimpl. cbn in *. congruence.
Qed.

Lemma insert_without_try_merge_total m g s s' : insert_without_try_merge me m g s = Ret s' -> total_vm s' = total_vm s + map_size m.
Proof. unfold insert_without_try_merge. intros H. run_inv. done. Qed.

(** C25: Inserting a mapping with an attempt to merge it with its neighbours, and inserting it without one, give
    address spaces with the same attributes at each address, the same pages and counters, and the same
    total size. *)
Theorem merging_is_invisible base others t h s m :
  vmar_inv me base others t (m :: h) s ->
  exists s1 s2, insert_try_merge me m (vmo_for_rmap m) s = Ret s1 /\ insert_without_try_merge me m (vmo_for_rmap m) s = Ret s2 /\
    (forall x, view (vm_mappings s1) x = view (vm_mappings s2) x) /\ same_pages s1 s2 /\ total_vm s1 = total_vm s2.
Proof.
  intros Hinv. destruct (insert_try_merge_spec _ _ _ _ _ _ _ Hinv) as (s1 & E1 & I1 & P1 & V1 & _).
  destruct (insert_without_try_merge_spec _ _ _ _ _ _ _ Hinv) as (s2 & E2 & I2 & L2 & P2).
  exists s1, s2. split; [done|]. split; [done|]. split; [|split].
  - intros x. rewrite V1. symmetry. apply view_cons; [apply (vi_intervals _ _ _ _ _ _ Hinv)|apply (vi_intervals _ _ _ _ _ _ I2)|done].
  - destruct P1 as (A1 & A2 & A3), P2 as (B1 & B2 & B3). split_and!; congruence.
  - by rewrite (insert_try_merge_total _ _ _ _ E1), (insert_without_try_merge_total _ _ _ _ E2).
Qed.
End merging.
