(* ===== verification/VmarOps.v ===== *)
(** * The operations of an address space

    [kernel/core/src/vm/vmar/vmar_impls/]: unmapping ([unmap.rs]), protection ([protect.rs]), resizing
    and moving ([remap.rs]), new mappings ([map.rs]) and queries ([query.rs]).  Each method takes the
    lock of the tree for its whole run, so a method is one step. *)

From S2P Require Import Prelude Flags Align IntervalSet VmMapping Vmar VmarInv.

(** ** Truncation *)
Definition inside (r : Range) (x : Z) : Prop := r_start r <= x < r_end r.
#[export] Instance inside_dec r x : Decision (inside r x).
Proof. unfold inside. apply _. Defined.

(** The intersection of an overlapping range with a mapping. *)
Definition meet (r : Range) (m : VmMapping) : Range :=
  mkRange (Z.max (r_start r) (map_to_addr m)) (Z.min (r_end r) (map_end m)).

Lemma get_intersected_eq r m :
  overlaps r m -> placed m -> r_start r < r_end r -> get_intersected_range r (range m) = Ret (meet r m).
Proof.
  intros [H1 H2] [(Hs & _) _] Hr. unfold get_intersected_range, is_intersected. rewrite range_mapping. cbn [r_start r_end].
  change (r_end (range m)) with (map_end m) in H1. change (key m) with (map_to_addr m) in H2.
  rewrite (proj2 (Z.ltb_lt _ _)); [done|]. unfold map_end in *. lia.
Qed.

Lemma meet_facts r m :
  overlaps r m -> placed m -> r_start r < r_end r -> page_aligned (r_start r) -> page_aligned (r_end r) ->
  map_to_addr m <= r_start (meet r m) /\ r_start (meet r m) < r_end (meet r m) /\ r_end (meet r m) <= map_end m /\
  page_aligned (r_start (meet r m)) /\ page_aligned (r_end (meet r m)).
Proof.
  intros [H1 H2] [Hm _] Hr Ha Hb. pose proof (mapping_ok_end m Hm). destruct Hm as (? & ? & ?).
  change (r_end (range m)) with (map_end m) in H1. change (key m) with (map_to_addr m) in H2.
  unfold meet, map_end in *. cbn. split; [lia|]. split; [lia|]. split; [lia|].
  split; [destruct (Z.max_spec (r_start r) (map_to_addr m)) as [[_ ->]|[_ ->]]|
          destruct (Z.min_spec (r_end r) (map_to_addr m + map_size m)) as [[_ ->]|[_ ->]]]; done.
Qed.

Definition meet_size (r : Range) (m : VmMapping) : Z := r_end (meet r m) - r_start (meet r m).

Lemma pieces_size m r :
  map_to_addr m <= r_start r -> r_end r <= map_end m -> tally map_size (pieces m r) = map_size m - (r_end r - r_start r).
Proof.
  intros ? ?. unfold pieces, left_of, right_of.
  destruct (Z.ltb_spec (map_to_addr m) (r_start r)), (Z.ltb_spec (r_end r) (map_end m)); cbn; unfold map_end in *; lia.
Qed.

(** The pieces and the part taken cover the mapping. *)
Lemma pieces_contains m r x k :
  map_to_addr m <= r_start r -> r_start r < r_end r -> r_end r <= map_end m -> x ∈ pieces m r -> contains x k ->
  contains m k /\ ~ inside r k /\ attr_at x k = attr_at m k.
Proof.
  intros ? ? ? [[-> ?]|[-> ?]]%pieces_elem; rewrite !contains_iff, map_end_sub, attr_at_sub; unfold inside; cbn; intros ?;
    (split; [lia|]); (split; [lia|done]).
Qed.

Lemma pieces_contains_inv m r k :
  contains m k -> ~ inside r k -> exists x, x ∈ pieces m r /\ contains x k.
Proof.
  intros Hk Hr. destruct (pieces_cover m r k Hk) as (x & [Hx|Hx%list_elem_of_singleton]%elem_of_app & Hxk); [eauto|].
  exfalso. apply Hr. subst x. rewrite contains_iff, map_end_sub in Hxk. done.
Qed.

(** Replacing a mapping by the pieces of it outside a range. *)
Lemma view_pieces l l' rest m r x :
  intervals l -> intervals l' -> l ≡ₚ m :: rest -> l' ≡ₚ pieces m r ++ rest ->
  map_to_addr m <= r_start r -> r_start r < r_end r -> r_end r <= map_end m ->
  view l' x = if decide (contains m x /\ inside r x) then None else view l x.
Proof.
  intros Hl Hl' Hp Hp' H1 H2 H3. case_decide as Hx.
  - apply view_None. intros k Hk Hkx. rewrite Hp' in Hk. apply elem_of_app in Hk as [Hk|Hk].
    + destruct (pieces_contains m r k x H1 H2 H3 Hk Hkx) as (_ & Hn & _). apply Hn, Hx.
    + assert (k <> m) as Hne.
      { intros ->. assert (NoDup (m :: rest)) as [? _]%NoDup_cons by (rewrite <- Hp; by apply intervals_NoDup). done. }
      apply Hne. apply (intervals_disjoint l k m x Hl); [rewrite Hp; by right|rewrite Hp; by left|done|apply Hx].
  - destruct (view l x) as [a|] eqn:E.
    + apply view_inv in E as (k & Hk & Hkx & ->); [|done]. rewrite Hp in Hk. apply elem_of_cons in Hk as [->|Hk].
      * destruct (pieces_contains_inv m r x Hkx) as (y & Hy & Hyx); [tauto|].
        destruct (pieces_contains m r y x H1 H2 H3 Hy Hyx) as (_ & _ & <-). apply view_Some; [done| |done]. rewrite Hp'. set_solver.
      * apply view_Some; [done| |done]. rewrite Hp'. set_solver.
    + apply view_None. intros k Hk Hkx. rewrite Hp' in Hk. apply elem_of_app in Hk as [Hk|Hk].
      * destruct (pieces_contains m r k x H1 H2 H3 Hk Hkx) as (Hmx & _ & _). revert Hmx. apply (view_None_inv l x m E). rewrite Hp. set_solver.
      * revert Hkx. apply (view_None_inv l x k E). rewrite Hp. set_solver.
Qed.
Section truncate.
Context (me : nat) (base : nat -> Z) (others : nat -> nat -> list RmapEntry).
Notation vinv := (vmar_inv me base others).

(** Putting back the pieces that a range leaves of a mapping. *)
Lemma put_pieces t h s lft rgt m r :
  lft = left_of m r -> rgt = right_of m r -> vinv t (pieces m r ++ h) s ->
  exists s1 s2,
    match lft with Some lft => insert_without_try_merge me lft (vmo_for_rmap m) s | None => Ret s end = Ret s1 /\
    match rgt with Some rgt => insert_without_try_merge me rgt (vmo_for_rmap m) s1 | None => Ret s1 end = Ret s2 /\
    vinv t h s2 /\ vm_mappings s2 ≡ₚ pieces m r ++ vm_mappings s /\ same_pages s s2.
Proof.
  intros -> -> Hinv. unfold pieces, left_of, right_of in *.
  destruct (map_to_addr m <? r_start r), (r_end r <? map_end m); cbn [option_list app] in Hinv |- *.
  - destruct (insert_without_try_merge_spec _ _ _ _ _ _ _ Hinv) as (s1 & E1 & I1 & P1 & S1).
    destruct (insert_without_try_merge_spec _ _ _ _ _ _ _ I1) as (s2 & E2 & I2 & P2 & S2).
    rewrite vmo_for_rmap_sub in E1, E2. exists s1, s2. split; [done|]. split; [done|]. split; [done|].
    split; [rewrite P2, P1; apply perm_swap|by eapply same_pages_trans].
  - destruct (insert_without_try_merge_spec _ _ _ _ _ _ _ Hinv) as (s1 & E1 & I1 & P1 & S1).
    rewrite vmo_for_rmap_sub in E1. by exists s1, s1.
  - destruct (insert_without_try_merge_spec _ _ _ _ _ _ _ Hinv) as (s1 & E1 & I1 & P1 & S1).
    rewrite vmo_for_rmap_sub in E1. by exists s, s1.
  - by exists s, s.
Qed.


Lemma truncate_mapping_spec t h s m r :
  vinv t h s -> m ∈ vm_mappings s -> overlaps r m ->
  r_start r < r_end r -> page_aligned (r_start r) -> page_aligned (r_end r) ->
  exists s', truncate_mapping me r (map_to_addr m) s = Ret s' /\ vinv t h s' /\
    (forall x, view (vm_mappings s') x = if decide (contains m x /\ inside r x) then None else view (vm_mappings s) x) /\
    (forall k, vm_space s' !! k = if decide (contains m k /\ inside r k) then None else vm_space s !! k) /\
    (forall x, x ∈ vm_mappings s -> x <> m -> x ∈ vm_mappings s') /\ rss_counters s' = rss_counters s /\
    total_vm s' = total_vm s - meet_size r m.
Proof.
  intros Hinv Hm Hov Hr Ha Hb. assert (placed m) as Hpm by (apply (vi_placed _ _ _ _ _ _ Hinv); set_solver).
  unfold truncate_mapping. destruct (remove_spec _ _ _ _ _ _ _ Hinv Hm) as (s1 & s2 & -> & E2 & I2 & P2 & (Hsp & Hrc & Hrd)).
  cbn [unwrap mbind run_bind]. rewrite E2. cbn [mbind run_bind]. rewrite get_intersected_eq by done. cbn [mbind run_bind].
  destruct (meet_facts r m Hov Hpm Hr Ha Hb) as (M1 & M2 & M3 & M4 & M5).
  destruct (split_range_inv _ _ _ _ _ _ _ _ I2 M1 M2 M3 M4 M5) as (w' & -> & I3). cbn [mbind run_bind].
  destruct (put_pieces _ _ _ _ _ m (meet r m) eq_refl eq_refl I3) as (s4 & s5 & -> & E5 & I5 & P5 & (Hsp5 & Hrc5 & Hrd5)).
  cbn [mbind run_bind]. rewrite E5. cbn [mbind run_bind]. rewrite rss_type_sub.
  destruct (unmap_inv _ _ _ _ _ _ _ I5) as (n & s6 & -> & I6 & P6 & Hsp6 & Hrc6). cbn [mbind run_bind].
  rewrite rss_type_sub in I6. eexists. split; [done|]. split; [done|].
  assert (forall x, contains m x /\ inside r x <-> contains m x /\ inside (meet r m) x) as Hmeet.
  { intros x. rewrite contains_iff. unfold inside, meet. cbn. lia. }
  split; [|split; [|split; [|split]]].
  - intros x. rewrite (decide_ext _ (contains m x /\ inside (meet r m) x) _ _ (Hmeet x)). eapply (view_pieces _ _ (vm_mappings s2)); try done.
    + apply (vi_intervals _ _ _ _ _ _ Hinv).
    + apply (vi_intervals _ _ _ _ _ _ I6).
    + vsimpl. by rewrite P6, P5.
  - intros k. vsimpl. rewrite Hsp6, Hsp5. vsimpl. rewrite Hsp, (decide_ext _ (contains m k /\ inside (meet r m) k) _ _ (Hmeet k)).
    destruct (vm_space s !! k) as [p|] eqn:Ek.
    + case_decide as Hk.
      * apply map_lookup_filter_None. right. intros p' _ Hn. apply Hn. unfold in_range. rewrite range_mapping, map_end_sub. apply Hk.
      * apply map_lookup_filter_Some. split; [done|]. unfold in_range. rewrite range_mapping, map_end_sub. intros Hin. apply Hk.
        cbn in Hin. split; [rewrite contains_iff; unfold meet in *; cbn in *; lia|exact Hin].
    + rewrite (proj2 (map_lookup_filter_None _ _ _)) by by left. by case_decide.
  - intros x Hx Hne. vsimpl. rewrite P6, P5. vsimpl. rewrite P2 in Hx. apply elem_of_app. right. set_solver.
  - vsimpl. by rewrite Hrc6, Hrc5.
  - rewrite (vi_total _ _ _ _ _ _ I6), (vi_total _ _ _ _ _ _ Hinv). vsimpl.
    rewrite P6, (tally_perm _ _ _ P5), tally_app, pieces_size, (tally_perm _ _ _ P2), tally_cons by done. vsimpl. unfold meet_size. lia.
Qed.

(** A point in one of the mappings of a list. *)
Definition covered (ms : list VmMapping) (x : Z) : Prop := Exists (fun m => contains m x) ms.

#[local] Instance covered_dec ms x : Decision (covered ms x).
Proof. unfold covered. apply _. Defined.

Lemma truncate_mappings_spec t h ms s r :
  vinv t h s -> NoDup ms -> (forall m, m ∈ ms -> m ∈ vm_mappings s /\ overlaps r m) ->
  r_start r < r_end r -> page_aligned (r_start r) -> page_aligned (r_end r) ->
  exists s', truncate_mappings me r (map_to_addr <$> ms) s = Ret s' /\ vinv t h s' /\
    (forall x, view (vm_mappings s') x = if decide (covered ms x /\ inside r x) then None else view (vm_mappings s) x) /\
    (forall k, vm_space s' !! k = if decide (covered ms k /\ inside r k) then None else vm_space s !! k) /\
    rss_counters s' = rss_counters s /\ total_vm s' = total_vm s - tally (meet_size r) ms.
Proof.
  intros Hinv Hnd Hms Hr Ha Hb. revert s Hinv Hms. induction ms as [|m ms IH]; intros s Hinv Hms.
  - exists s. split; [done|]. split; [done|]. split; [|split; [|split; [done|cbn; lia]]]; intros x;
      (rewrite decide_False; [done|]); intros [Hc _]; by apply Exists_nil in Hc.
  - apply NoDup_cons in Hnd as [Hn Hnd]. cbn [fmap list_fmap truncate_mappings].
    destruct (truncate_mapping_spec t h s m r Hinv) as (s1 & E & I1 & V1 & P1 & M1 & R1 & T1); [apply Hms; by left..|done|done|done|].
    rewrite E. cbn [mbind run_bind]. destruct (IH Hnd s1 I1) as (s2 & -> & I2 & V2 & P2 & R2 & T2).
    { intros x Hx. split; [|apply Hms; by right]. apply M1; [apply Hms; by right|]. intros ->. done. }
    exists s2. split; [done|]. split; [done|]. rewrite R2, R1, T2, T1, tally_cons. split; [|split; [|split; [done|lia]]].
    + intros x. rewrite V2, V1. assert (covered (m :: ms) x <-> contains m x \/ covered ms x) by apply Exists_cons.
      repeat case_decide; tauto.
    + intros k. rewrite P2, P1. assert (covered (m :: ms) k <-> contains m k \/ covered ms k) by apply Exists_cons.
      repeat case_decide; tauto.
Qed.

(** What truncation does to the address space: nothing is mapped in the range any more, and nothing
    outside of it changes. *)
Definition truncated (r : Range) (s s' : Vmar) : Prop :=
  (forall x, view (vm_mappings s') x = if decide (inside r x) then None else view (vm_mappings s) x) /\
  (forall k, vm_space s' !! k = if decide (inside r k) then None else vm_space s !! k).

Lemma alloc_free_region_exact_truncate_spec t s offset size :
  vinv t [] s -> 0 < size -> page_aligned offset -> page_aligned size ->
  exists s', alloc_free_region_exact_truncate me offset size s = Ret (mkRange offset (offset + size), s') /\
    vinv t [] s' /\ truncated (mkRange offset (offset + size)) s s' /\ rss_counters s' = rss_counters s /\
    total_vm s' = total_vm s - tally (meet_size (mkRange offset (offset + size))) (filter (overlaps (mkRange offset (offset + size))) (vm_mappings s)).
Proof.
  intros Hinv Hs Ho Hz. set (r := mkRange offset (offset + size)). pose proof (vi_intervals _ _ _ _ _ _ Hinv) as Hl.
  assert (r_start r < r_end r) as Hr by (cbn; lia).
  assert (page_aligned (r_end r)) as Hb by (cbn; by apply page_aligned_add).
  unfold alloc_free_region_exact_truncate. fold r. rewrite find_all_spec by done. cbn [mbind run_bind].
  destruct (truncate_mappings_spec t [] (filter (overlaps r) (vm_mappings s)) s r Hinv) as (s' & -> & I & V & P & R & T);
    [apply NoDup_filter; by apply intervals_NoDup| |done|done|done|].
  { intros m [? ?]%list_elem_of_filter. done. }
  cbn [mbind run_bind]. exists s'. split; [done|]. split; [done|]. split; [|done].
  assert (forall m x, m ∈ vm_mappings s -> contains m x -> inside r x -> covered (filter (overlaps r) (vm_mappings s)) x) as Hc.
  { intros m x Hm Hx Hi. apply Exists_exists. exists m. split; [|done]. apply list_elem_of_filter. split; [|done].
    unfold overlaps. change (key m) with (map_to_addr m). change (r_end (range m)) with (map_end m).
    rewrite contains_iff in Hx. unfold inside in Hi. lia. }
  split.
  - intros x. rewrite V. case_decide as H1; case_decide as H2; try done; [tauto|].
    destruct (view (vm_mappings s) x) eqn:E; [|done]. apply view_inv in E as (m & Hm & Hx & _); [|done].
    exfalso. apply H1. split; [by apply (Hc m)|done].
  - intros k. rewrite P. case_decide as H1; case_decide as H2; try done; [tauto|].
    destruct (vm_space s !! k) eqn:E; [|done]. apply (vi_pages _ _ _ _ _ _ Hinv) in E as (_ & m & Hm & Hk).
    rewrite app_nil_r in Hm. exfalso. apply H1. split; [by apply (Hc m)|done].
Qed.
End truncate.
