(* ===== verification/VmarProtect.v ===== *)
(** * Changing permissions

    [Vmar::protect]: the permissions change from the start of the range up to the first hole, or up to
    the first mapping that may not have the new permissions; and nothing else changes. *)

From S2P Require Import Prelude Flags Align IntervalSet VmMapping Vmar VmarInv VmarOps.

(** ** New permissions *)
Section new_perms.
Context `{BF : Bitflags}.

(** The attributes of an address after its permissions have been set to [p]. *)
Definition new_perms (p q : Z) : Z := bf_union p (bf_intersection q VmPerms_ALL_MAY_PERMS).

Definition protected (p : Z) (a : Attr) : Attr :=
  mkAttr (new_perms p (a_perms a)) (a_mode a) (a_file a) (a_around a) (a_backing a).

(** The flags of a page whose permissions have just been set. *)
Definition attr_flags (a : Attr) : Z :=
  match a_backing a with
  | OnDevice _ => PageFlags_from_perms (a_perms a)
  | _ => bf_difference (PageFlags_from_perms (a_perms a)) PageFlags_W
  end.

Definition known_perms (p : Z) : Prop := bf_contains VmPerms_all p = true.

Lemma all_perms_bits i : 0 <= i -> Z.testbit VmPerms_all i = Z.testbit VmPerms_ALL_PERMS i || Z.testbit VmPerms_ALL_MAY_PERMS i.
Proof. intros Hi. change VmPerms_all with (Z.lor VmPerms_ALL_PERMS VmPerms_ALL_MAY_PERMS). by rewrite Z.lor_spec. Qed.

(** Setting the permissions that are there already changes nothing. *)
Lemma new_perms_same q : known_perms q -> new_perms (bf_intersection q VmPerms_ALL_PERMS) q = q.
Proof.
  unfold known_perms, new_perms. rewrite contains_in. intros H. apply flags_eq_in. intros i Hi.
  specialize (H i Hi). rewrite all_perms_bits, orb_true_iff in H by done. autorewrite with flags. tauto.
Qed.

(** Permissions that differ from [p] differ from those that [p] makes. *)
Lemma new_perms_other p q m :
  bf_contains VmPerms_ALL_PERMS p = true -> p <> bf_intersection q VmPerms_ALL_PERMS -> q <> new_perms p m.
Proof.
  intros Hpp Hq ->. apply Hq. unfold new_perms. rewrite contains_in in Hpp. apply flags_eq_in. intros i Hi. specialize (Hpp i Hi).
  autorewrite with flags. split; [tauto|]. intros [[?|[_ Hmay]] Hall]; [done|]. exfalso.
  assert (Z.testbit (Z.land VmPerms_ALL_PERMS VmPerms_ALL_MAY_PERMS) i = true) as Hz by by rewrite Z.land_spec, Hmay, Hall.
  change (Z.land VmPerms_ALL_PERMS VmPerms_ALL_MAY_PERMS) with 0 in Hz. by rewrite Z.bits_0 in Hz.
Qed.
End new_perms.

Section protect.
Context `{BF : Bitflags} (me : nat) (base : nat -> Z) (others : nat -> nat -> list RmapEntry).
Notation vinv := (vmar_inv me base others).

(** Page tables with the same pages. *)
Lemma vmar_inv_space t h s pt :
  vinv t h s -> dom pt = dom (vm_space s) -> vinv t h (with_space s pt).
Proof.
  intros [Hi Hpl Ha Hh Ht Hr Ho Hs Hrss Hp Hdn] Hd. constructor; vsimpl; try done.
  - intros ty. rewrite Hrss. apply tally_ext_in. intros m _. unfold resident. case_decide; [|done]. by apply pages_dom.
  - intros k p Hk. assert (k ∈ dom (vm_space s)) as [p' Hp']%elem_of_dom by (rewrite <- Hd; apply elem_of_dom; eauto).
    by apply (Hp k p').
Qed.

(** The flags that [protect] gives to the pages of a mapping. *)
Definition protect_flags (m : VmMapping) (p : Z) : Z :=
  match mapped_mem m with
  | Device _ => PageFlags_from_perms p
  | _ => bf_difference (PageFlags_from_perms p) PageFlags_W
  end.

Lemma VmMapping_protect_inv t h s m p :
  vinv t (m :: h) s ->
  exists s', VmMapping_protect m p s = Ret (with_perms m p, s') /\ vinv t (with_perms m p :: h) s' /\
    vm_mappings s' = vm_mappings s /\ rss_counters s' = rss_counters s /\ rss_delta s' = rss_delta s /\
    (forall k, vm_space s' !! k = (fun q => if decide (contains m k) then mkPte (pte_frame q) (protect_flags m p) else q) <$> vm_space s !! k).
Proof.
  intros Hinv. assert (placed m) as Hm by (apply (vi_placed _ _ _ _ _ _ Hinv); set_solver).
  unfold VmMapping_protect. rewrite cursor_mut_ok by done. cbn [mbind run_bind]. eexists. split; [done|].
  split; [|split; [done|split; [done|split; [done|]]]].
  - pose proof (vmar_inv_space t (m :: h) s _ Hinv (dom_cursor_protect (range m) (fun _ => protect_flags m p) (vm_space s))) as H1.
    pose proof (vi_hand _ _ _ _ _ _ H1) as Hh. inversion_clear Hh as [|? ? Hmh Hh'].
    set (s1 := with_space s _) in *. change (with_space s _) with s1. replace s1 with (with_vmos s1 (vmos s1)) by by destruct s.
    eapply vmar_inv_rehand with (h := m :: h); try done.
    + intros x [->|Hx]%elem_of_cons; [exact Hm|apply (vi_placed _ _ _ _ _ _ H1); set_solver].
    + intros x y Hx [->|Hy]%elem_of_cons; [apply (vi_apart _ _ _ _ _ _ H1 x m); set_solver|apply (vi_apart _ _ _ _ _ _ H1); set_solver].
    + by constructor.
    + intros id. rewrite !tally_cons. change (tracks (with_perms m p) id) with (tracks m id). lia.
    + intros x k [->|Hx]%elem_of_cons Hk; [exists (with_perms m p)|exists x]; set_solver.
    + intros x id [->|Hx]%elem_of_cons _ Et; [exists m|exists x]; set_solver.
  - intros k. vsimpl. unfold cursor_protect. rewrite map_lookup_imap. by destruct (vm_space s !! k).
Qed.

(** One mapping of the range. *)
Lemma protect_mapping_spec t s m r p :
  vinv t [] s -> m ∈ vm_mappings s -> overlaps r m -> perms m <> p ->
  r_start r < r_end r -> page_aligned (r_start r) -> page_aligned (r_end r) ->
  exists s', protect_mapping me r (range m) p s = Ret s' /\ vinv t [] s' /\
    rss_counters s' = rss_counters s /\ rss_delta s' = rss_delta s /\
    (forall x, view (vm_mappings s') x =
       if decide (contains m x /\ inside r x) then Some (attr_at (with_perms m p) x) else view (vm_mappings s) x) /\
    (forall x, x ∈ vm_mappings s -> x <> m -> perms x <> p -> x ∈ vm_mappings s') /\
    (forall k, vm_space s' !! k = (fun q => if decide (contains m k /\ inside r k) then mkPte (pte_frame q) (protect_flags m p) else q) <$> vm_space s !! k).
Proof.
  intros Hinv Hm Hov Hne Hr Ha Hb. assert (placed m) as Hpm by (apply (vi_placed _ _ _ _ _ _ Hinv); set_solver).
  unfold protect_mapping. change (r_start (range m)) with (map_to_addr m).
  destruct (remove_spec _ _ _ _ _ _ _ Hinv Hm) as (s1 & s2 & -> & E2 & I2 & P2 & (Hsp & Hrc & Hrd)).
  rewrite E2. cbn [mbind run_bind]. rewrite get_intersected_eq by done. cbn [mbind run_bind].
  destruct (meet_facts r m Hov Hpm Hr Ha Hb) as (M1 & M2 & M3 & M4 & M5).
  destruct (split_range_inv _ _ _ _ _ _ _ _ I2 M1 M2 M3 M4 M5) as (w' & -> & I3). cbn [mbind run_bind].
  destruct (put_pieces _ _ _ _ _ _ _ _ m (meet r m) eq_refl eq_refl I3) as (s4 & s5 & -> & E5 & I5 & P5 & (Hsp5 & Hrc5 & Hrd5)).
  cbn [mbind run_bind]. rewrite E5. cbn [mbind run_bind]. set (tk := sub m (r_start (meet r m)) (r_end (meet r m))) in *.
  destruct (VmMapping_protect_inv _ _ _ _ p I5) as (s6 & -> & I6 & P6 & Hrc6 & Hrd6 & Hsp6). cbn [mbind run_bind].
  rewrite <- (vmo_for_rmap_sub m (r_start (meet r m)) (r_end (meet r m))). fold tk. change (vmo_for_rmap tk) with (vmo_for_rmap (with_perms tk p)).
  destruct (insert_try_merge_spec _ _ _ _ _ _ _ I6) as (s7 & -> & I7 & (Hsp7 & Hrc7 & Hrd7) & V7 & M7 & _).
  cbn [with_vmos rss_counters rss_delta vm_space] in Hrc5, Hrd5, Hsp5.
  exists s7. split; [done|]. split; [done|]. split; [congruence|]. split; [congruence|].
  assert (forall x, contains m x /\ inside r x <-> contains tk x) as Hmeet.
  { intros x. unfold tk. rewrite !contains_iff, map_end_sub. unfold inside, meet in *. cbn in *. lia. }
  split; [|split].
  - intros x. rewrite V7. unfold view_with. rewrite P6.
    assert (view (vm_mappings s5) x = if decide (contains m x /\ inside (meet r m) x) then None else view (vm_mappings s) x) as Hv.
    { eapply (view_pieces _ _ (vm_mappings s2)); try done.
      - apply (vi_intervals _ _ _ _ _ _ Hinv).
      - apply (vi_intervals _ _ _ _ _ _ I5). }
    change (contains (with_perms tk p) x) with (contains tk x). rewrite Hv.
    specialize (Hmeet x). assert (inside (meet r m) x <-> contains tk x) by (unfold tk; rewrite contains_iff, map_end_sub; done).
    repeat case_decide; try tauto. f_equal. change (attr_at (sub (with_perms m p) (r_start (meet r m)) (r_end (meet r m))) x = attr_at (with_perms m p) x).
    apply attr_at_sub.
  - intros x Hx Hxm Hxp. apply M7; [|done]. rewrite P6, P5. vsimpl. rewrite P2 in Hx. apply elem_of_app. right. set_solver.
  - intros k. rewrite Hsp7, Hsp6, Hsp5. vsimpl. rewrite Hsp. destruct (vm_space s !! k) as [q|]; cbn; [|done]. f_equal.
    specialize (Hmeet k). repeat case_decide; try tauto. f_equal. unfold protect_flags, tk. cbn. by destruct (mapped_mem m).
Qed.

(** ** The whole range *)

Definition page_protected (s0 s : Vmar) (k : Z) : Prop :=
  match vm_space s0 !! k, vm_space s !! k with
  | None, None => True
  | Some q0, Some q =>
      pte_frame q = pte_frame q0 /\
      ((q = q0 /\ view (vm_mappings s) k = view (vm_mappings s0) k) \/
       exists a, view (vm_mappings s) k = Some a /\ pte_flags q = attr_flags a)
  | _, _ => False
  end.

(** [s] is [s0] with the permissions set to [p] from the start of [r] up to [stop]. *)
Record protected_upto (p : Z) (r : Range) (s0 s : Vmar) (stop : Z) : Prop := {
  pu_view : forall x, view (vm_mappings s) x =
    if decide (r_start r <= x < stop) then protected p <$> view (vm_mappings s0) x else view (vm_mappings s0) x;
  pu_mapped : forall x, r_start r <= x < stop -> exists a, view (vm_mappings s0) x = Some a /\
    (p = bf_intersection (a_perms a) VmPerms_ALL_PERMS \/ VmPerms_check (new_perms p (a_perms a)) = Ok tt);
  pu_pages : forall k, page_protected s0 s k;
  pu_rss : rss_counters s = rss_counters s0 /\ rss_delta s = rss_delta s0
}.

Lemma page_protected_refl s k : page_protected s s k.
Proof. unfold page_protected. destruct (vm_space s !! k); [|done]. split; [done|]. by left. Qed.

Lemma protected_upto_refl p r s : protected_upto p r s s (r_start r).
Proof.
  constructor; [| |intros; apply page_protected_refl|done].
  - intros x. rewrite decide_False by lia. done.
  - intros x Hx. lia.
Qed.

(** The next mapping has the permissions already. *)
Lemma protected_upto_skip p r s0 s stop stop' m :
  protected_upto p r s0 s stop -> intervals (vm_mappings s0) -> m ∈ vm_mappings s0 -> known_perms (perms m) ->
  p = bf_intersection (perms m) VmPerms_ALL_PERMS -> map_to_addr m <= stop -> r_start r <= stop <= stop' -> stop' <= map_end m ->
  protected_upto p r s0 s stop'.
Proof.
  intros [Hv Hm Hp Hr] Hl Hin Hk Hpm Hs1 Hs2 Hs3.
  assert (forall x, stop <= x < stop' -> view (vm_mappings s0) x = Some (attr_at m x)) as Hx.
  { intros x Hx. apply view_Some; [done|done|]. rewrite contains_iff. lia. }
  constructor; [| |done|done].
  - intros x. rewrite Hv. repeat case_decide; try done; try lia. rewrite Hx by lia. cbn. f_equal.
    unfold attr_at, protected. cbn. by rewrite Hpm, new_perms_same.
  - intros x Hxx. destruct (Z_lt_dec x stop); [apply Hm; lia|]. exists (attr_at m x). split; [apply Hx; lia|by left].
Qed.

(** The next mapping gets the permissions. *)
Lemma protect_flags_attr m p k : protect_flags m p = attr_flags (attr_at (with_perms m p) k).
Proof. unfold protect_flags, attr_flags. cbn. by destruct (mapped_mem m). Qed.

Lemma protected_upto_step p r s0 s s' stop stop' m :
  protected_upto p r s0 s stop -> intervals (vm_mappings s0) -> m ∈ vm_mappings s0 ->
  VmPerms_check (new_perms p (perms m)) = Ok tt ->
  r_start r <= stop <= stop' -> (forall x, contains m x /\ inside r x <-> stop <= x < stop') ->
  (forall x, view (vm_mappings s') x =
     if decide (contains m x /\ inside r x) then Some (attr_at (with_perms m (new_perms p (perms m))) x)
     else view (vm_mappings s) x) ->
  (forall k, vm_space s' !! k =
     (fun q => if decide (contains m k /\ inside r k) then mkPte (pte_frame q) (protect_flags m (new_perms p (perms m))) else q)
       <$> vm_space s !! k) ->
  rss_counters s' = rss_counters s -> rss_delta s' = rss_delta s ->
  protected_upto p r s0 s' stop'.
Proof.
  intros [Hv Hm Hp [Hrc Hrd]] Hl Hin Hck Hs Hc Hv' Hp' Hrc' Hrd'.
  assert (forall x, stop <= x < stop' -> view (vm_mappings s0) x = Some (attr_at m x)) as Hx.
  { intros x Hx. apply view_Some; [done|done|]. by apply Hc. }
  constructor; [| | |split; congruence].
  - intros x. rewrite Hv', Hv. specialize (Hc x). destruct (decide (contains m x /\ inside r x)) as [Hd|Hd].
    + apply Hc in Hd. rewrite (decide_True (P := r_start r <= x < stop')) by lia. by rewrite Hx.
    + assert (~ stop <= x < stop') by tauto. repeat case_decide; done || lia.
  - intros x Hxx. destruct (Z_lt_dec x stop); [apply Hm; lia|]. exists (attr_at m x). split; [apply Hx; lia|by right].
  - intros k. specialize (Hp k). unfold page_protected in *. rewrite Hp', Hv'.
    destruct (vm_space s0 !! k) as [q0|], (vm_space s !! k) as [q|]; cbn; try done. destruct Hp as [Hf Hp].
    case_decide as Hk; [|done]. split; [done|]. right. eexists. split; [done|]. apply protect_flags_attr.
Qed.

(** How the call ends at [stop]. *)
Definition protect_outcome {A} (p : Z) (r : Range) (s0 : Vmar) (stop : Z) (res : result A) : Prop :=
  match res with
  | Ok _ => stop = r_end r
  | Err e =>
      r_start r <= stop < r_end r /\
      ((e = ENOMEM /\ view (vm_mappings s0) stop = None) \/
       (e = EACCES /\ exists a, view (vm_mappings s0) stop = Some a /\
          VmPerms_check (new_perms p (a_perms a)) = Err EACCES))
  end.

Lemma VmPerms_check_cases q : VmPerms_check q = Ok tt \/ VmPerms_check q = Err EACCES.
Proof. unfold VmPerms_check. case_match; tauto. Qed.

(** The mappings of the range that are still to come, with the address that has been reached. *)
Record pending (p : Z) (r : Range) (s0 s : Vmar) (ms : list VmMapping) (last : Z) : Prop := {
  pe_intervals : intervals ms;
  pe_elem : forall m, m ∈ ms -> m ∈ vm_mappings s0 /\ overlaps r m /\ (last = r_start r \/ last <= map_to_addr m);
  pe_tree : forall m, m ∈ ms -> p <> bf_intersection (perms m) VmPerms_ALL_PERMS -> m ∈ vm_mappings s;
  pe_rest : forall m, m ∈ vm_mappings s0 -> overlaps r m -> m ∈ ms \/ map_end m <= last;
  pe_last : r_start r <= last
}.

(** Nothing is mapped where the next mapping does not reach down. *)
Lemma pending_hole p r s0 s ms last :
  pending p r s0 s ms last -> last < r_end r -> (forall m, m ∈ ms -> last < map_to_addr m) ->
  view (vm_mappings s0) last = None.
Proof.
  intros [_ _ _ Hrest Hl] Hlt Hms. apply view_None. intros m Hm Hc. rewrite contains_iff in Hc.
  destruct (Hrest m Hm) as [Hin|Hend]; [|specialize (Hms m Hin); lia|lia].
  unfold overlaps. change (key m) with (map_to_addr m). change (r_end (range m)) with (map_end m). lia.
Qed.

Lemma pending_next p r s0 s s' m ms last :
  pending p r s0 s (m :: ms) last ->
  (forall x, x ∈ ms -> p <> bf_intersection (perms x) VmPerms_ALL_PERMS -> x ∈ vm_mappings s -> x ∈ vm_mappings s') ->
  pending p r s0 s' ms (map_end m).
Proof.
  intros [Hi He Ht Hr Hl] Hs. apply intervals_cons in Hi as (Hm & Ha & Hi). constructor; [done| | | |].
  - intros x Hx. destruct (He x) as (? & ? & _); [set_solver|]. split; [done|]. split; [done|]. right. by apply Ha.
  - intros x Hx Hp. apply Hs; [done|done|]. apply Ht; [set_solver|done].
  - intros x Hx Ho. destruct (Hr x Hx Ho) as [[->|?]%elem_of_cons|Hend]; [by right|by left|].
    right. destruct (He m) as (_ & [Ho1 Ho2] & [->|?]); [set_solver| |].
    + destruct Ho as [Hox _]. change (r_end (range x)) with (map_end x) in Hox. lia.
    + unfold nonempty in Hm. change (key m) with (map_to_addr m) in Hm. change (r_end (range m)) with (map_end m) in Hm. lia.
  - destruct (He m) as (_ & [Ho1 Ho2] & _); [set_solver|]. change (r_end (range m)) with (map_end m) in Ho1. lia.
Qed.

Lemma pending_first p r s0 s m ms last :
  pending p r s0 s (m :: ms) last -> map_to_addr m <= last -> r_start r < r_end r ->
  last < map_end m /\ last < r_end r /\
  (forall x, contains m x /\ inside r x <-> Z.min last (r_end r) <= x < Z.min (map_end m) (r_end r)).
Proof.
  intros [Hi He _ _ Hl] Hlast Hr. apply intervals_cons in Hi as (Hm & _ & _).
  destruct (He m) as (_ & [Ho1 Ho2] & Hor); [set_solver|]. unfold nonempty in Hm.
  change (key m) with (map_to_addr m) in *. change (r_end (range m)) with (map_end m) in *.
  split; [lia|]. split; [lia|]. intros x. rewrite contains_iff. unfold inside. lia.
Qed.

Lemma protect_loop_spec t p r s0 ms : 
  intervals (vm_mappings s0) -> (forall m, m ∈ vm_mappings s0 -> known_perms (perms m)) -> bf_contains VmPerms_ALL_PERMS p = true ->
  r_start r < r_end r -> page_aligned (r_start r) -> page_aligned (r_end r) ->
  forall s last, vinv t [] s -> pending p r s0 s ms last -> protected_upto p r s0 s (Z.min last (r_end r)) ->
  exists res s' stop, protect_loop me p r ((fun m => (range m, perms m)) <$> ms) last s = Ret (res, s') /\
    vinv t [] s' /\ protected_upto p r s0 s' stop /\
    match res with
    | Ok last' => stop = Z.min last' (r_end r) /\ (last' < r_end r -> view (vm_mappings s0) last' = None) /\ r_start r <= last'
    | Err e => protect_outcome p r s0 stop (Err e : result unit)
    end.
Proof.
  intros Hl Hk Hpp Hr Ha Hb. induction ms as [|m ms IH]; intros s last Hinv Hpe Hpu.
  { eexists _, _, _. split; [done|]. split; [done|]. split; [exact Hpu|]. split; [done|].
    split; [|apply (pe_last _ _ _ _ _ _ Hpe)]. intros Hlt. apply (pending_hole _ _ _ _ _ _ Hpe Hlt). intros m Hm. by apply elem_of_nil in Hm. }
  pose proof (pe_intervals _ _ _ _ _ _ Hpe) as (Hm & Hap & _)%intervals_cons.
  destruct (pe_elem _ _ _ _ _ _ Hpe m) as (Hm0 & Hov & Hlm); [set_solver|]. pose proof (pe_last _ _ _ _ _ _ Hpe) as Hlast.
  assert (map_to_addr m < r_end r) as Hmr by apply Hov.
  cbn [fmap list_fmap protect_loop]. change (r_start (range m)) with (map_to_addr m). change (r_end (range m)) with (map_end m).
  destruct (Z.ltb_spec last (map_to_addr m)) as [Hhole|Hreach].
  { eexists _, _, _. split; [done|]. split; [done|]. split; [exact Hpu|]. rewrite Z.min_l by lia. split; [lia|]. left. split; [done|].
    apply (pending_hole _ _ _ _ _ _ Hpe); [lia|]. intros x [->|Hx]%elem_of_cons; [done|]. specialize (Hap x Hx).
    unfold apart, nonempty in *. change (key m) with (map_to_addr m) in *. change (key x) with (map_to_addr x) in *. lia. }
  destruct (pending_first _ _ _ _ _ _ _ Hpe Hreach Hr) as (Hf1 & Hf2 & Hf3). rewrite Z.min_l in Hf3 by lia. rewrite Z.min_l in Hpu by lia.
  destruct (Z.eqb_spec p (bf_intersection (perms m) VmPerms_ALL_PERMS)) as [Hsame|Hdiff].
  { apply (IH s); [done|by apply (pending_next _ _ _ s _ _ _ last)|].
    apply (protected_upto_skip p r s0 s last _ m); [done|done|done|by apply Hk|done|lia..]. }
  fold (new_perms p (perms m)). destruct (VmPerms_check_cases (new_perms p (perms m))) as [Hck|Hck]; rewrite Hck.
  2: { eexists _, _, _. split; [done|]. split; [done|]. split; [exact Hpu|]. split; [lia|]. right. split; [done|].
       exists (attr_at m last). split; [|done]. apply view_Some; [done|done|]. rewrite contains_iff. lia. }
  assert (forall q, p <> bf_intersection q VmPerms_ALL_PERMS -> q <> new_perms p (perms m)) as Hnp by (intros q; by apply new_perms_other).
  destruct (protect_mapping_spec t s m r (new_perms p (perms m)) Hinv) as (s1 & -> & I1 & Hrc & Hrd & V1 & M1 & P1);
    [apply (pe_tree _ _ _ _ _ _ Hpe); [set_solver|done]|done|by apply Hnp|done..|].
  cbn [mbind run_bind]. apply (IH s1); [done| |].
  - apply (pending_next _ _ _ s _ _ _ last); [done|]. intros x Hx Hxp Hxs. apply M1; [done| |by apply Hnp].
    intros ->. specialize (Hap m Hx). unfold apart, nonempty in *. lia.
  - apply (protected_upto_step p r s0 s s1 last _ m); try done. lia.
Qed.

Lemma protect_spec t p r s :
  vinv t [] s -> (forall m, m ∈ vm_mappings s -> known_perms (perms m)) -> bf_contains VmPerms_ALL_PERMS p = true ->
  r_start r < r_end r -> page_aligned (r_start r) -> page_aligned (r_end r) ->
  exists res s' stop, protect me p r s = Ret (res, s') /\ vinv t [] s' /\
    protected_upto p r s s' stop /\ protect_outcome p r s stop res.
Proof.
  intros Hinv Hk Hpp Hr Ha Hb. pose proof (vi_intervals _ _ _ _ _ _ Hinv) as Hl. unfold protect.
  rewrite (proj2 (is_multiple_of_spec _) Ha), (proj2 (is_multiple_of_spec _) Hb). cbn [assert_run mbind run_bind].
  rewrite find_all_spec by done. cbn [mbind run_bind].
  destruct (protect_loop_spec t p r s (filter (overlaps r) (vm_mappings s)) Hl Hk Hpp Hr Ha Hb s (r_start r) Hinv)
    as (res & s' & stop & -> & I & U & O).
  - constructor; [by apply intervals_filter| | | |lia].
    + intros m [? ?]%list_elem_of_filter. split; [done|]. split; [done|]. by left.
    + intros m [? ?]%list_elem_of_filter _. done.
    + intros m Hm Ho. left. by apply list_elem_of_filter.
  - rewrite Z.min_l by lia. apply protected_upto_refl.
  - cbn [mbind run_bind]. destruct res as [last|e]; [|by eexists _, _, _].
    destruct O as (-> & Hhole & Hlast). destruct (Z.ltb_spec last (r_end r)) as [Hlt|Hge].
    + eexists _, _, _. split; [done|]. split; [done|]. split; [exact U|]. rewrite Z.min_l by lia. split; [lia|]. left. split; [done|]. by apply Hhole.
    + eexists _, _, _. split; [done|]. split; [done|]. split; [exact U|]. cbn. lia.
Qed.
End protect.
