(* ===== verification/VmarRegion.v ===== *)
(** * Free regions

    [alloc_free_region_in_range] returns the highest aligned region of a size that lies within its
    limits and meets no mapping, and fails exactly when there is none. *)

From S2P Require Import Prelude Flags Align IntervalSet VmMapping Vmar VmarInv VmarOps.

(** No mapping meets [a, a + size). *)
Definition region_free (l : list VmMapping) (a size : Z) : Prop :=
  forall m, m ∈ l -> map_end m <= a \/ a + size <= map_to_addr m.

(** An address where a region of the size can be. *)
Definition candidate (l : list VmMapping) (size align low high a : Z) : Prop :=
  low <= a /\ a + size <= high /\ a mod align = 0 /\ region_free l a size.

Definition best_region (l : list VmMapping) (size align low high : Z) (r : Range) : Prop :=
  r_end r = r_start r + size /\ candidate l size align low high (r_start r) /\
  (forall a, candidate l size align low high a -> a <= r_start r).

Section search.
Context (size align low high : Z) (l : list VmMapping).
Context (Hsize : 0 < size) (Halign : is_power_of_two align = true) (Halign2 : 2 <= align) (Hlow : 0 <= low).

Lemma try_alloc_in_hole_spec hole_start hole_end :
  0 <= hole_start ->
  exists o, try_alloc_in_hole hole_start hole_end size align = Ret o /\
    match o with
    | Some r => r_end r = r_start r + size /\ hole_start <= r_start r /\ r_end r <= hole_end /\ r_start r mod align = 0 /\
        (forall a, a mod align = 0 -> a + size <= hole_end -> a <= r_start r)
    | None => forall a, hole_start <= a -> a mod align = 0 -> hole_end < a + size
    end.
Proof.
  intros Hh. unfold try_alloc_in_hole. destruct (Z.ltb_spec hole_end size) as [Hlt|Hge].
  { eexists. split; [done|]. cbn. lia. }
  rewrite align_down_eq by done. cbn [mbind run_bind]. eexists. split; [done|].
  destruct (round_down_spec (hole_end - size) align) as [Hm Hb]; [lia|].
  assert (forall a, a mod align = 0 -> a + size <= hole_end -> a <= hole_end - size - (hole_end - size) mod align) as Hg.
  { intros a Ha Hs. apply round_down_greatest; [lia|done|lia]. }
  destruct (Z.leb_spec hole_start (hole_end - size - (hole_end - size) mod align)) as [H1|H1]; cbn.
  - split; [done|]. split; [done|]. split; [lia|]. split; [done|]. done.
  - intros a Ha Hal. destruct (Z_lt_dec hole_end (a + size)); [done|]. specialize (Hg a Hal). lia.
Qed.

(** [ms] are the mappings that have not been looked at, from high to low; the others start at [prev]
    or above. *)
Lemma search_holes_spec ms prev :
  (forall m, m ∈ l -> placed m) -> StronglySorted (fun a b => apart b a) ms ->
  (forall m, m ∈ ms -> m ∈ l) -> (forall m, m ∈ l -> m ∈ ms \/ prev <= map_to_addr m /\ forall y, y ∈ ms -> map_to_addr y <= map_to_addr m) ->
  (forall a, candidate l size align low high a -> a + size <= prev) ->
  exists found, search_holes size align low high ms prev = Ret found /\
    match found with
    | inl r => best_region l size align low high r
    | inr prev' => (forall a, candidate l size align low high a -> a + size <= prev') /\
        (low < prev' -> forall m, m ∈ l -> prev' <= map_to_addr m)
    end.
Proof.
  intros Hpl. revert prev. induction ms as [|m ms IH]; intros prev Hs Hms Hl Hc.
  { eexists. split; [done|]. split; [done|]. intros _ m Hm. destruct (Hl m Hm) as [Hin|[? _]]; [by apply elem_of_nil in Hin|done]. }
  apply StronglySorted_inv in Hs as [Hs Hbelow]. rewrite Forall_forall in Hbelow.
  assert (placed m) as Hm by (apply Hpl, Hms; set_solver). destruct Hm as ((Hsz & _) & H0 & _).
  cbn [search_holes]. change (r_end (range m)) with (map_end m). change (r_start (range m)) with (map_to_addr m).
  destruct (try_alloc_in_hole_spec (Z.max (map_end m) low) (Z.min prev high)) as (o & -> & Ho); [lia|]. cbn [mbind run_bind].
  destruct o as [r|].
  - eexists. split; [done|]. destruct Ho as (Hr1 & Hr2 & Hr3 & Hr4 & Hr5). split; [done|]. split.
    + split; [lia|]. split; [lia|]. split; [done|]. intros x Hx. destruct (Hl x Hx) as [[->|Hin]%elem_of_cons|[Hx' _]]; [lia| |lia].
      specialize (Hbelow x Hin). unfold apart in Hbelow. change (r_end (range x)) with (map_end x) in Hbelow.
      change (key m) with (map_to_addr m) in Hbelow. unfold map_end in *. lia.
    + intros a Ha. apply Hr5; [apply Ha|]. pose proof (Hc a Ha). destruct Ha as (_ & ? & _ & _). lia.
  - assert (forall a, candidate l size align low high a -> a + size <= map_to_addr m) as Hc'.
    { intros a Ha. pose proof (Hc a Ha). destruct Ha as (A1 & A2 & A3 & A4).
      destruct (A4 m) as [A5|A5]; [apply Hms; set_solver| |done]. specialize (Ho a). lia. }
    destruct (Z.leb_spec (map_to_addr m) low).
    + eexists. split; [done|]. split; [done|]. lia.
    + apply IH; [done|intros x Hx; apply Hms; set_solver| |done].
      intros x Hx. destruct (Hl x Hx) as [[->|Hin]%elem_of_cons|[_ Hy]]; [|by left|].
      * right. split; [lia|]. intros y Hy. specialize (Hbelow y Hy). unfold apart in Hbelow.
        change (r_end (range y)) with (map_end y) in Hbelow. change (key m) with (map_to_addr m) in Hbelow.
        destruct (Hpl y) as ((? & _) & _); [apply Hms; set_solver|]. unfold map_end in Hbelow. lia.
      * right. split; [apply Hy; set_solver|]. intros y Hyy. apply Hy. set_solver.
Qed.
End search.

(** ** The allocation of regions *)
Lemma rev_sorted (l : list VmMapping) : intervals l -> StronglySorted (fun a b => apart b a) (rev l).
Proof.
  intros [_ Hs]. induction Hs as [|m l Hs IH Hf]; cbn; [constructor|].
  apply StronglySorted_app. split_and!; [|done|repeat constructor].
  intros x y Hx Hy%list_elem_of_singleton. subst y.
  apply list_elem_of_In, in_rev, list_elem_of_In in Hx.
  rewrite Forall_forall in Hf. by apply Hf.
Qed.

(** The search succeeds with the best region, or there is no region. *)
Definition region_outcome (l : list VmMapping) (size align low high : Z) (res : result Range) : Prop :=
  match res with
  | Ok r => best_region l size align low high r
  | Err e => e = ENOMEM /\ forall a, ~ candidate l size align low high a
  end.

Lemma alloc_free_region_in_range_spec me base others t h s size align low high :
  vmar_inv me base others t h s -> 0 < size -> is_power_of_two align = true -> 2 <= align -> 0 <= low ->
  exists res, alloc_free_region_in_range size align low high s = Ret res /\
    region_outcome (vm_mappings s) size align low high res.
Proof.
  intros Hinv Hs Ha Ha2 Hlow. unfold alloc_free_region_in_range. pose proof (vi_intervals _ _ _ _ _ _ Hinv) as Hl.
  assert (forall m, m ∈ vm_mappings s -> placed m) as Hpl by (intros m Hm; apply (vi_placed _ _ _ _ _ _ Hinv); set_solver).
  assert (forall m, m ∈ rev (vm_mappings s) <-> m ∈ vm_mappings s) as Hrev by (intros m; by rewrite !list_elem_of_In, <- in_rev).
  destruct (search_holes_spec size align low high (vm_mappings s) Hs Ha Ha2 Hlow (rev (vm_mappings s)) high)
    as (found & -> & Hf); [done|by apply rev_sorted|intros m; by rewrite Hrev|intros m Hm; left; by rewrite Hrev|
    intros a (_ & ? & _ & _); done|].
  cbn [mbind run_bind]. destruct found as [r|prev]; [by exists (Ok r)|]. destruct Hf as [Hc Hp].
  destruct (Z.ltb_spec low prev) as [Hlt|Hge].
  - destruct (try_alloc_in_hole_spec size align Ha Ha2 low (Z.min prev high)) as (o & -> & Ho); [done|]. cbn [mbind run_bind].
    destruct o as [r|]; eexists; (split; [done|]); cbn.
    + destruct Ho as (O1 & O2 & O3 & O4 & O5). split; [done|]. split.
      * split; [lia|]. split; [lia|]. split; [done|]. intros m Hm. right. specialize (Hp Hlt m Hm). lia.
      * intros a Hca. apply O5; [apply Hca|]. pose proof (Hc a Hca). destruct Hca as (_ & ? & _ & _). lia.
    + split; [done|]. intros a Hca. pose proof (Hc a Hca). destruct Hca as (? & ? & ? & _). specialize (Ho a). lia.
  - eexists. split; [done|]. split; [done|]. intros a Hca. pose proof (Hc a Hca). destruct Hca as (? & _). lia.
Qed.
