(* ===== verification/VmarPages.v ===== *)
(** * Pages of an address space

    Adding, taking out and moving single pages of the page table, with the resident-set counters, and
    [move_pt], which moves the pages of a range. *)

From S2P Require Import Prelude Flags Align IntervalSet VmMapping Vmar VmarInv VmarOps.

(** ** The pages of one mapping *)
Lemma resident_insert pt ty m k p :
  pt !! k = None ->
  resident (<[k := p]> pt) ty m = (if decide (rss_type m = ty /\ contains m k) then 1 else 0) + resident pt ty m.
Proof.
  intros Hk. unfold resident. rewrite pages_insert by done. pose proof (contains_iff m k).
  change (r_start (range m)) with (map_to_addr m). change (r_end (range m)) with (map_end m). repeat case_decide; try lia; tauto.
Qed.

Lemma resident_delete pt ty m k p :
  pt !! k = Some p ->
  resident pt ty m = (if decide (rss_type m = ty /\ contains m k) then 1 else 0) + resident (delete k pt) ty m.
Proof.
  intros Hk. rewrite <- (resident_insert _ _ _ k p) by apply lookup_delete_eq. by rewrite insert_delete_id.
Qed.

Lemma tally_resident_insert pt ty l x l' k p :
  l ≡ₚ x :: l' -> (forall y, y ∈ l' -> ~ contains y k) -> contains x k -> pt !! k = None ->
  tally (resident (<[k := p]> pt) ty) l = tally (resident pt ty) l + (if decide (rss_type x = ty) then 1 else 0).
Proof.
  intros Hp Hn Hx Hk. rewrite Hp, !tally_cons, resident_insert by done.
  rewrite (tally_ext_in (resident (<[k := p]> pt) ty) (resident pt ty)).
  - repeat case_decide; try lia; tauto.
  - intros y Hy. rewrite resident_insert by done. rewrite decide_False; [lia|]. intros [_ Hc]. by apply (Hn y).
Qed.

Section pages.
Context (me : nat) (base : nat -> Z) (others : nat -> nat -> list RmapEntry).
Notation vinv := (vmar_inv me base others).

(** A mapping of the address space is apart from all the others. *)
Lemma vmar_inv_unique t h s x :
  vinv t h s -> x ∈ vm_mappings s ++ h ->
  exists l', vm_mappings s ++ h ≡ₚ x :: l' /\ forall y, y ∈ l' -> separate x y.
Proof.
  intros Hinv [Hx|Hx]%elem_of_app.
  - pose proof (vi_intervals _ _ _ _ _ _ Hinv) as Hl.
    destruct (IntervalSet_remove_spec (vm_mappings s) x Hl Hx) as (l' & _ & _ & Hp). exists (l' ++ h). split.
    + by rewrite Hp.
    + intros y [Hy|Hy]%elem_of_app; [by apply (intervals_perm_apart _ _ _ Hl Hp)|by apply (vi_apart _ _ _ _ _ _ Hinv)].
  - destruct (list_elem_of_split _ _ Hx) as (h1 & h2 & ->). exists (vm_mappings s ++ h1 ++ h2). split.
    + by rewrite <- Permutation_middle, <- Permutation_middle.
    + pose proof (vi_hand _ _ _ _ _ _ Hinv) as Hh. intros y [Hy|Hy]%elem_of_app.
      * apply separate_sym. apply (vi_apart _ _ _ _ _ _ Hinv); [done|set_solver].
      * clear -Hh Hy. induction h1 as [|z h1 IH]; cbn in *; inversion_clear Hh as [|? ? Hz Hh'].
        -- rewrite Forall_forall in Hz. by apply Hz.
        -- apply elem_of_cons in Hy as [->|Hy]; [|by apply IH]. apply separate_sym. rewrite Forall_forall in Hz. apply Hz. set_solver.
Qed.

(** A new page in a mapping of a type. *)
Lemma add_page_inv t h s x k p :
  vinv t h s -> x ∈ vm_mappings s ++ h -> contains x k -> page_aligned k -> vm_space s !! k = None ->
  vinv t h (RssDelta_add (with_space s (<[k := p]> (vm_space s))) (rss_type x) 1).
Proof.
  intros Hinv Hx Hc Hk Hn. destruct (vmar_inv_unique t h s x Hinv Hx) as (l' & Hp & Hsep).
  pose proof Hinv as [Hi Hpl Ha Hh Ht Hr Ho Hs Hrss Hpg Hdn]. constructor; vsimpl; try done.
  - intros ty. rewrite (tally_resident_insert (vm_space s) ty _ x l' k p Hp) by
      (try done; intros y Hy; by apply (separate_contains x y k (Hsep y Hy))).
    rewrite <- Hrss. case_decide as E; [rewrite <- E; destruct (rss_type x); cbn; lia|].
    destruct ty, (rss_type x); try done; cbn; lia.
  - intros k' p' [[<- _]|[_ Hk']]%lookup_insert_Some; [eauto|by apply (Hpg k' p')].
Qed.

(** A page goes to another mapping of the same type. *)
Lemma move_page_inv t h s x y k k' p :
  vinv t h s -> x ∈ vm_mappings s ++ h -> y ∈ vm_mappings s ++ h -> rss_type x = rss_type y ->
  contains x k -> contains y k' -> page_aligned k' -> vm_space s !! k = Some p -> delete k (vm_space s) !! k' = None ->
  forall q, vinv t h (with_space s (<[k' := q]> (delete k (vm_space s)))).
Proof.
  intros Hinv Hx Hy Hty Hcx Hcy Hk Hp Hn q.
  destruct (vmar_inv_unique t h s x Hinv Hx) as (lx & Hpx & Hsx). destruct (vmar_inv_unique t h s y Hinv Hy) as (ly & Hpy & Hsy).
  pose proof Hinv as [Hi Hpl Ha Hh Ht Hr Ho Hs Hrss Hpg Hdn]. constructor; vsimpl; try done.
  - intros ty. rewrite (tally_resident_insert _ ty _ y ly k' q Hpy) by
      (try done; intros z Hz; by apply (separate_contains y z k' (Hsy z Hz))).
    rewrite Hrss, <- (insert_delete_id (vm_space s) k p) at 1 by done.
    rewrite (tally_resident_insert _ ty _ x lx k p Hpx) by
      first [done | apply lookup_delete_eq | intros z Hz; by apply (separate_contains x z k (Hsx z Hz))].
    by rewrite Hty.
  - intros j p' [[<- _]|[_ [_ Hj]%lookup_delete_Some]]%lookup_insert_Some; [eauto|by apply (Hpg j p')].
Qed.
End pages.

(** ** Moving the pages of a range *)
Lemma fold_min_spec (l : list Z) :
  match foldr (fun k acc => match acc with Some j => Some (Z.min k j) | None => Some k end) None l with
  | Some k => k ∈ l /\ forall j, j ∈ l -> k <= j
  | None => l = []
  end.
Proof.
  induction l as [|x l IH]; cbn; [done|]. destruct (foldr _ None l) as [k|].
  - destruct IH as [Hk Hmin]. split; [destruct (Z.min_spec x k) as [[_ ->]|[_ ->]]; [by left|by right]|].
    intros j [->|Hj]%elem_of_cons; [lia|]. specialize (Hmin j Hj). lia.
  - subst l. split; [by left|]. intros j Hj%list_elem_of_singleton. lia.
Qed.

Lemma pt_find_next_spec (pt : VmSpace) a b :
  match pt_find_next pt a b with
  | Some k => a <= k < b /\ is_Some (pt !! k) /\ forall j, a <= j < k -> pt !! j = None
  | None => forall j, a <= j < b -> pt !! j = None
  end.
Proof.
  unfold pt_find_next. assert (forall j, j ∈ fst <$> map_to_list (filter (in_range (mkRange a b)) pt) <-> a <= j < b /\ is_Some (pt !! j)) as Hin.
  { intros j. rewrite list_elem_of_fmap. split.
    - intros ([k p] & -> & [Hk Hr]%elem_of_map_to_list%map_lookup_filter_Some). split; [done|eauto].
    - intros [Hr [p Hp]]. exists (j, p). split; [done|]. apply elem_of_map_to_list, map_lookup_filter_Some. done. }
  pose proof (fold_min_spec (fst <$> map_to_list (filter (in_range (mkRange a b)) pt))) as Hf.
  destruct (foldr _ None _) as [k|].
  - destruct Hf as [Hk Hmin]. apply Hin in Hk as [Hr Hp]. split; [done|]. split; [done|]. intros j Hj.
    destruct (pt !! j) as [p|] eqn:E; [|done]. assert (k <= j); [|lia]. apply Hmin, Hin. split; [lia|eauto].
  - intros j Hj. destruct (pt !! j) as [p|] eqn:E; [|done]. exfalso.
    assert (j ∈ fst <$> map_to_list (filter (in_range (mkRange a b)) pt)) as H by (apply Hin; eauto).
    rewrite Hf in H. by apply elem_of_nil in H.
Qed.

(** The pages from [old + c] to [old_end] have moved by [d]. *)
Definition pages_moved (c : Z) (old new : Range) (pt pt' : VmSpace) : Prop :=
  forall k, pt' !! k =
    if decide (r_start old + c <= k < r_end old) then None
    else if decide (r_start new + c <= k < r_start new + (r_end old - r_start old)) then pt !! (k - (r_start new - r_start old))
    else pt !! k.

(** The old range lies in one mapping and the new one in another of the same type. *)
Record movable (h : list VmMapping) (s : Vmar) (old new : Range) : Prop := {
  mo_old : r_start old < r_end old;
  mo_aligned : page_aligned (r_start old) /\ page_aligned (r_end old) /\ page_aligned (r_start new);
  mo_apart : r_end old <= r_start new \/ r_start new + (r_end old - r_start old) <= r_start old;
  mo_mappings : exists x y, x ∈ vm_mappings s ++ h /\ y ∈ vm_mappings s ++ h /\ rss_type x = rss_type y /\
    map_to_addr x <= r_start old /\ r_end old <= map_end x /\
    map_to_addr y <= r_start new /\ r_start new + (r_end old - r_start old) <= map_end y
}.

Lemma page_step a b : page_aligned a -> page_aligned b -> a < b -> a + PAGE_SIZE <= b.
Proof.
  unfold page_aligned, PAGE_SIZE. intros Ha Hb Hlt. apply Z_div_exact_full_2 in Ha, Hb; [|done..]. lia.
Qed.

Lemma pages_next pt a k b :
  a <= k -> k + PAGE_SIZE <= b -> is_Some (pt !! k) -> pages pt (mkRange (k + PAGE_SIZE) b) < pages pt (mkRange a b).
Proof.
  intros Ha Hb [p Hp]. unfold PAGE_SIZE in *.
  rewrite (pages_split pt a (k + 4096) b) by lia. rewrite <- (insert_delete_id pt k p Hp) at 2.
  rewrite pages_insert by apply lookup_delete_eq. cbn [r_start r_end]. rewrite decide_True by lia.
  pose proof (pages_nonneg (delete k pt) (mkRange a (k + 4096))). lia.
Qed.

Section move.
Context (me : nat) (base : nat -> Z) (others : nat -> nat -> list RmapEntry).
Notation vinv := (vmar_inv me base others).

(** One page, and then the rest. *)
Lemma pages_moved_step old new c k p (pt pt' : VmSpace) :
  pt !! k = Some p -> r_start old + c <= k -> k + PAGE_SIZE <= r_end old -> 0 <= c ->
  r_end old <= r_start new \/ r_start new + (r_end old - r_start old) <= r_start old ->
  (forall j, r_start old + c <= j < k + PAGE_SIZE -> j <> k -> pt !! j = None) ->
  (forall j, r_start new + c <= j < r_start new + (r_end old - r_start old) -> pt !! j = None) ->
  pages_moved (k - r_start old + PAGE_SIZE) old new (<[r_start new + (k - r_start old) := p]> (delete k pt)) pt' ->
  pages_moved c old new pt pt'.
Proof.
  unfold PAGE_SIZE. intros Hp Hk1 Hk2 Hc Hd Hold Hnew Hm j. rewrite Hm. clear Hm.
  set (k' := r_start new + (k - r_start old)).
  destruct (decide (j = k')) as [->|Hj'].
  { rewrite decide_False, decide_False, lookup_insert_eq by lia. rewrite decide_False, decide_True by lia.
    replace (k' - _) with k by lia. done. }
  destruct (decide (j = k)) as [->|Hj].
  { rewrite decide_False, decide_False, lookup_insert_ne, lookup_delete_eq by lia. by rewrite decide_True by lia. }
  repeat case_decide; try lia; try done; rewrite ?lookup_insert_ne, ?lookup_delete_ne by lia; try done;
    first [apply Hold; lia | rewrite Hnew by lia; symmetry; apply Hold; lia].
Qed.

Lemma move_loop_spec fuel t h s old new c :
  vinv t h s -> movable h s old new -> 0 <= c -> page_aligned c -> pages (vm_space s) (mkRange (r_start old + c) (r_end old)) < Z.of_nat fuel ->
  (forall k, r_start new + c <= k < r_start new + (r_end old - r_start old) -> vm_space s !! k = None) ->
  exists pt', move_loop fuel old new c (vm_space s) = Ret pt' /\ vinv t h (with_space s pt') /\ pages_moved c old new (vm_space s) pt'.
Proof.
  revert s c. induction fuel as [|fuel IH]; intros s c Hinv Hmo Hc Hca Hf Hnew.
  { pose proof (pages_nonneg (vm_space s) (mkRange (r_start old + c) (r_end old))). lia. }
  pose proof Hmo as [Hlt (Hoa & Hob & Hna) Hap (x & y & Hx & Hy & Hty & X1 & X2 & Y1 & Y2)].
  cbn [move_loop]. assert (range_len old = r_end old - r_start old) as -> by (unfold range_len; lia).
  destruct (Z.ltb_spec c (r_end old - r_start old)) as [Hcl|Hge].
  2: { exists (vm_space s). split; [done|]. split; [by destruct s|]. intros k. by rewrite !decide_False by lia. }
  pose proof (pt_find_next_spec (vm_space s) (r_start old + c) (r_end old)) as Hfind.
  destruct (pt_find_next (vm_space s) (r_start old + c) (r_end old)) as [k|].
  2: { exists (vm_space s). split; [done|]. split; [by destruct s|]. intros k. repeat case_decide; [by apply Hfind| |done].
       rewrite Hnew, Hfind by lia. done. }
  destruct Hfind as (Hk & [p Hp] & Hfirst). rewrite Hp. cbn [unwrap mbind run_bind].
  destruct (vi_pages _ _ _ _ _ _ Hinv k p Hp) as [Hka _]. pose proof (page_step k (r_end old) Hka Hob) as Hstep.
  set (k' := r_start new + (k - r_start old)).
  assert (delete k (vm_space s) !! k' = None) as Hk'.
  { rewrite lookup_delete_ne by lia. apply Hnew. lia. }
  rewrite bool_decide_true by done. cbn [assert_run mbind run_bind].
  assert (page_aligned (k - r_start old + PAGE_SIZE)) as Hca'.
  { apply page_aligned_add; [by apply page_aligned_sub|done]. }
  assert (vinv t h (with_space s (<[k' := p]> (delete k (vm_space s))))) as Hinv'.
  { apply (move_page_inv _ _ _ t h s x y k k' p); try done; try (rewrite contains_iff; lia).
    unfold k'. apply page_aligned_add; [done|by apply page_aligned_sub]. }
  destruct (IH (with_space s (<[k' := p]> (delete k (vm_space s)))) (k - r_start old + PAGE_SIZE) Hinv') as (pt' & E & I & M).
  - destruct Hmo. by constructor.
  - unfold PAGE_SIZE. lia.
  - done.
  - replace (r_start old + (k - r_start old + PAGE_SIZE)) with (k + PAGE_SIZE) by lia. vsimpl.
    assert (pages (<[k' := p]> (delete k (vm_space s))) (mkRange (k + PAGE_SIZE) (r_end old)) <= pages (vm_space s) (mkRange (k + PAGE_SIZE) (r_end old))).
    { rewrite pages_insert by done. cbn [r_start r_end]. rewrite decide_False by (unfold PAGE_SIZE in *; lia).
      rewrite <- (insert_delete_id (vm_space s) k p Hp) at 2. rewrite pages_insert by apply lookup_delete_eq. case_decide; lia. }
    assert (pages (vm_space s) (mkRange (k + PAGE_SIZE) (r_end old)) < pages (vm_space s) (mkRange (r_start old + c) (r_end old))); [|lia].
    apply pages_next; [lia|lia|eauto].
  - intros j Hj. vsimpl. unfold PAGE_SIZE in *. rewrite lookup_insert_ne by lia. destruct (decide (j = k)) as [->|]; [apply lookup_delete_eq|].
    rewrite lookup_delete_ne by done. apply Hnew. lia.
  - exists pt'. split; [exact E|]. split; [done|]. apply (pages_moved_step old new c k p); try done; try lia.
    intros j Hj Hjk. destruct (Z_lt_dec j k); [apply Hfirst; lia|]. destruct (vm_space s !! j) as [q|] eqn:Ej; [|done].
    destruct (vi_pages _ _ _ _ _ _ Hinv j q Ej) as [Hja _]. pose proof (page_step k j Hka Hja). lia.
Qed.
End move.
