(* ===== verification/VmarUnmap.v ===== *)
(** * Unmapping

    [unmap.rs] and [query.rs]: what [remove_mapping], [discard_pages], [clear] and [is_fully_mapped] do to
    an address space between two operations. *)

From S2P Require Import Prelude Flags Align IntervalSet VmMapping Vmar VmarInv VmarOps.

(** ** Between operations *)
Section rest.
Context (me : nat) (base : nat -> Z) (others : nat -> nat -> list RmapEntry).
Notation vinv := (vmar_inv me base others).

(** No operation is in progress. *)
Definition resting (s : Vmar) : Prop := vinv 0 [] s /\ rss_delta s = (0, 0).

Lemma resting_start s : resting s -> vinv 0 [] (RssDelta_new s).
Proof. intros [Hinv Hd]. unfold RssDelta_new. rewrite <- Hd. by destruct s. Qed.

Lemma resting_end s : vinv 0 [] s -> resting (RssDelta_drop s).
Proof.
  intros [Hi Hpl Ha Hh Ht Hr Ho Hs Hrss Hp Hdn]. split; [|done]. constructor; vsimpl; try done.
  intros ty. rewrite <- Hrss. destruct ty; cbn; lia.
Qed.

(** [remove_mapping] leaves nothing in the range and everything else as it was. *)
Lemma remove_mapping_spec s r :
  resting s -> r_start r < r_end r -> page_aligned (r_start r) -> page_aligned (r_end r) ->
  exists s', remove_mapping me r s = Ret s' /\ resting s' /\ truncated r s s'.
Proof.
  intros Hrest Hr Ha Hb. unfold remove_mapping.
  rewrite (proj2 (is_multiple_of_spec _) Ha), (proj2 (is_multiple_of_spec _) Hb). cbn [assert_run mbind run_bind].
  assert (range_len r = r_end r - r_start r) as Hlen by (unfold range_len; lia).
  destruct (alloc_free_region_exact_truncate_spec me base others 0 (RssDelta_new s) (r_start r) (range_len r)) as (s' & -> & I & T & _);
    [by apply resting_start|lia|done|rewrite Hlen; by apply page_aligned_sub|].
  cbn [mbind run_bind]. eexists. split; [done|]. split; [by apply resting_end|].
  rewrite Hlen in T. replace (r_start r + (r_end r - r_start r)) with (r_end r) in T by lia. by destruct r.
Qed.
End rest.

(** ** Walking over the mappings of a range

    [ms] are the mappings still to come; everything from the start of the range up to [last] is mapped,
    and if [last] is mapped, then by one of [ms]. *)
Record scanned (r : Range) (l ms : list VmMapping) (last : Z) : Prop := {
  sc_intervals : intervals ms;
  sc_elem : forall m, m ∈ ms -> m ∈ l /\ overlaps r m;
  sc_hole : forall m, m ∈ l -> contains m last -> last < r_end r -> m ∈ ms;
  sc_before : forall m, m ∈ l -> overlaps r m -> m ∈ ms \/ forall y, y ∈ ms -> apart m y;
  sc_mapped : forall x, r_start r <= x < last -> view l x <> None;
  sc_last : r_start r <= last
}.

Lemma overlaps_iff r m : overlaps r m <-> r_start r < map_end m /\ map_to_addr m < r_end r.
Proof. done. Qed.

Lemma apart_iff m x : apart m x <-> map_end m <= map_to_addr x.
Proof. done. Qed.

Lemma scanned_start r l :
  intervals l -> r_start r < r_end r -> scanned r l (filter (overlaps r) l) (r_start r).
Proof.
  intros Hl Hr. constructor; [by apply intervals_filter| | | |lia|lia].
  - intros m [? ?]%list_elem_of_filter. done.
  - intros m Hm Hc _. apply list_elem_of_filter. split; [|done]. rewrite contains_iff in Hc. rewrite overlaps_iff. lia.
  - intros m Hm Ho. left. by apply list_elem_of_filter.
Qed.

Lemma scanned_next r l m ms last :
  intervals l -> scanned r l (m :: ms) last ->
  scanned r l ms (if map_to_addr m <=? last then map_end m else last).
Proof.
  intros Hl [Hi He Hh Hb Hm Hla]. apply intervals_cons in Hi as (Hne & Hap & Hi).
  destruct (He m) as [Hin Hov]; [by left|]. destruct (proj1 (overlaps_iff r m) Hov) as [Ho1 Ho2].
  assert (map_to_addr m < map_end m) as Hsz by exact Hne.
  assert (forall x, x ∈ l -> overlaps r x -> x ∈ ms \/ forall y, y ∈ ms -> apart x y) as Hb'.
  { intros x Hx Hxo. destruct (Hb x Hx Hxo) as [[->|?]%elem_of_cons|Hall]; [by right|by left|].
    right. intros y Hy. apply Hall. by right. }
  constructor; [done|intros x Hx; apply He; by right| |done| |].
  - intros x Hx Hc Hlt. destruct (Z.leb_spec (map_to_addr m) last) as [Hle|Hgt]; rewrite contains_iff in Hc.
    + destruct (Hb x Hx) as [[->|?]%elem_of_cons|Hall]; [rewrite overlaps_iff; lia|lia|done|].
      specialize (Hall m (list_elem_of_here _ _)). rewrite apart_iff in Hall. lia.
    + assert (x ∈ m :: ms) as [->|?]%elem_of_cons by (apply Hh; [done|by rewrite contains_iff|done]); [lia|done].
  - intros x Hx. destruct (Z.leb_spec (map_to_addr m) last) as [Hle|Hgt]; [|by apply Hm].
    destruct (Z_lt_dec x last); [apply Hm; lia|]. rewrite (view_Some l x m Hl Hin); [done|]. rewrite contains_iff. lia.
  - case_cond; lia.
Qed.

(** Nothing is mapped at [last] when what is to come starts above it. *)
Lemma scanned_hole r l ms last :
  scanned r l ms last -> last < r_end r -> (forall m, m ∈ ms -> last < map_to_addr m) -> view l last = None.
Proof.
  intros Hsc Hlt Hms. apply view_None. intros m Hm Hc. pose proof (sc_hole _ _ _ _ Hsc m Hm Hc Hlt) as Hin.
  specialize (Hms m Hin). rewrite contains_iff in Hc. lia.
Qed.

Lemma is_fully_mapped_loop_spec r l ms last :
  intervals l -> scanned r l ms last ->
  is_fully_mapped_loop r ms last = true <-> forall x, inside r x -> view l x <> None.
Proof.
  intros Hl. revert last. induction ms as [|m ms IH]; intros last Hsc; cbn [is_fully_mapped_loop].
  - destruct (Z.ltb_spec last (r_end r)) as [Hlt|Hge]; cbn.
    + split; [done|]. intros Hall. exfalso. apply (Hall last); [split; [apply (sc_last _ _ _ _ Hsc)|done]|].
      apply (scanned_hole r l [] last Hsc Hlt). intros m Hm. by apply elem_of_nil in Hm.
    + split; [|done]. intros _ x [? ?]. apply (sc_mapped _ _ _ _ Hsc). lia.
  - pose proof (scanned_next r l m ms last Hl Hsc) as Hn.
    destruct (Z.ltb_spec last (map_to_addr m)) as [Hlt|Hge].
    + split; [done|]. intros Hall. exfalso. destruct (sc_elem _ _ _ _ Hsc m) as [_ Ho]; [by left|].
      rewrite overlaps_iff in Ho.
      apply (Hall last); [split; [apply (sc_last _ _ _ _ Hsc)|lia]|].
      apply (scanned_hole r l (m :: ms) last Hsc); [lia|]. intros x [->|Hx]%elem_of_cons; [done|].
      pose proof (sc_intervals _ _ _ _ Hsc) as (Hne & Hap & _)%intervals_cons.
      specialize (Hap x Hx). rewrite apart_iff in Hap. assert (map_to_addr m < map_end m) by exact Hne. lia.
    + apply IH. by rewrite (proj2 (Z.leb_le _ _) Hge) in Hn.
Qed.

(** [is_fully_mapped] tells whether each address of the range is mapped. *)
Lemma is_fully_mapped_spec me base others t h s r :
  vmar_inv me base others t h s -> r_start r < r_end r ->
  exists b, is_fully_mapped r s = Ret b /\ (b = true <-> forall x, inside r x -> view (vm_mappings s) x <> None).
Proof.
  intros Hinv Hr. pose proof (vi_intervals _ _ _ _ _ _ Hinv) as Hl. unfold is_fully_mapped, query.
  rewrite find_all_spec by done. cbn [mbind run_bind]. eexists. split; [done|].
  apply is_fully_mapped_loop_spec; [done|]. by apply scanned_start.
Qed.

(** ** Discarding pages *)
Lemma pages_discard pt i a b :
  a <= r_start i <= r_end i -> r_end i <= b ->
  pages (filter (fun kp => ~ in_range i kp) pt) (mkRange a b) = pages pt (mkRange a b) - pages pt i.
Proof.
  intros H1 H2. destruct i as [c d]. cbn in *. set (pt' := filter _ pt).
  rewrite (pages_split pt' a c b), (pages_split pt' c d b), (pages_split pt a c b), (pages_split pt c d b) by lia.
  assert (pages pt' (mkRange a c) = pages pt (mkRange a c)) by (apply pages_unmapped; cbn; lia).
  assert (pages pt' (mkRange d b) = pages pt (mkRange d b)) by (apply pages_unmapped; cbn; lia).
  rewrite (pages_empty pt' (mkRange c d)); [lia|]. intros k Hk. apply map_lookup_filter_None. right. intros p _ Hn. by apply Hn.
Qed.

Section discard.
Context (me : nat) (base : nat -> Z) (others : nat -> nat -> list RmapEntry).
Notation vinv := (vmar_inv me base others).

Lemma discard_inv t h s m i :
  vinv t h s -> m ∈ vm_mappings s -> map_to_addr m <= r_start i -> r_start i <= r_end i -> r_end i <= map_end m ->
  vinv t h (RssDelta_add (with_space s (filter (fun kp => ~ in_range i kp) (vm_space s))) (rss_type m) (- pages (vm_space s) i)).
Proof.
  intros Hinv Hm H1 H2 H3. pose proof Hinv as [Hi Hpl Ha Hh Ht Hr Ho Hs Hrss Hp Hdn]. constructor; vsimpl; try done.
  - intros ty. specialize (Hrss ty).
    assert (forall x, x ∈ vm_mappings s ++ h -> x <> m -> separate m x) as Hsep.
    { intros x [Hx|Hx]%elem_of_app Hne; [by apply (separate_of (vm_mappings s))|by apply Ha]. }
    destruct (IntervalSet_remove_spec (vm_mappings s) m Hi Hm) as (l' & _ & _ & Hpm).
    assert (~ m ∈ l') as Hnin.
    { assert (NoDup (m :: l')) as [? _]%NoDup_cons by (rewrite <- Hpm; by apply intervals_NoDup). done. }
    rewrite Hpm in Hrss |- *. rewrite <- app_comm_cons, tally_cons in Hrss |- *.
    rewrite (tally_ext_in (resident (filter _ (vm_space s)) ty) (resident (vm_space s) ty)).
    + unfold resident at 1. unfold resident at 1 in Hrss. rewrite range_mapping in *.
      rewrite pages_discard by lia. destruct (decide (rss_type m = ty)) as [<-|Hne].
      * destruct (rss_type m); cbn in Hrss |- *; lia.
      * destruct ty, (rss_type m); try done; cbn in Hrss |- *; lia.
    + intros x Hx. unfold resident. case_decide; [|done]. apply pages_unmapped. rewrite range_mapping. cbn [r_start r_end].
      assert (x <> m) as Hne.
      { intros ->. apply elem_of_app in Hx as [?|Hx]; [done|]. pose proof (Ha m m Hm Hx) as Hmm.
        rewrite separate_iff in Hmm. destruct (Hpl m) as ((? & _) & _); [set_solver|]. unfold map_end in Hmm. lia. }
      assert (separate m x) as Hsx.
      { apply Hsep; [|done]. apply elem_of_app in Hx as [Hx|Hx]; apply elem_of_app; [left|by right]. rewrite Hpm. by right. }
      rewrite separate_iff in Hsx. lia.
  - intros k p [Hk _]%map_lookup_filter_Some. by apply (Hp k p).
Qed.

(** The pages of [r] below [stop] are gone, and nothing else has changed. *)
Record discarded (r : Range) (stop : Z) (s0 s : Vmar) : Prop := {
  di_mappings : vm_mappings s = vm_mappings s0;
  di_pages : forall k, vm_space s !! k = if decide (r_start r <= k < stop) then None else vm_space s0 !! k;
  di_others : total_vm s = total_vm s0 /\ vmos s = vmos s0
}.

Lemma discarded_gap r stop stop' s0 s :
  discarded r stop s0 s -> stop <= stop' -> (forall k, stop <= k < stop' -> vm_space s !! k = None) ->
  r_start r <= stop -> discarded r stop' s0 s.
Proof.
  intros [Hm Hp Ho] Hle Hn Hr. constructor; [done| |done]. intros k. case_decide as Hk; [|rewrite Hp; apply decide_False; lia].
  destruct (Z_lt_dec k stop); [rewrite Hp; by rewrite decide_True by lia|]. apply Hn. lia.
Qed.

(** The mappings of [r] that are not in [ms] end at [stop] or below, and those in [ms] do not start
    below it, except at the start of the range. *)
Record swept (r : Range) (l ms : list VmMapping) (stop : Z) : Prop := {
  sw_range : r_start r <= stop <= r_end r;
  sw_done : forall m, m ∈ l -> overlaps r m -> m ∈ ms \/ Z.min (map_end m) (r_end r) <= stop;
  sw_left : forall m, m ∈ ms -> stop <= Z.max (r_start r) (map_to_addr m)
}.

Lemma swept_gap t r s ms stop stop' :
  vinv t [] s -> swept r (vm_mappings s) ms stop -> stop <= stop' <= r_end r ->
  (forall m, m ∈ ms -> stop' <= Z.max (r_start r) (map_to_addr m)) ->
  forall k, stop <= k < stop' -> vm_space s !! k = None.
Proof.
  intros Hinv [Hr Hd _] Hs Hms k Hk. destruct (vm_space s !! k) as [p|] eqn:Ek; [|done]. exfalso.
  apply (vi_pages _ _ _ _ _ _ Hinv) in Ek as (_ & m & Hm & Hc). rewrite app_nil_r in Hm. rewrite contains_iff in Hc.
  destruct (Hd m Hm) as [Hin|Hend]; [rewrite overlaps_iff; lia|specialize (Hms m Hin); lia|lia].
Qed.

Lemma discard_step t r s0 s m ms stop :
  vinv t [] s -> m ∈ vm_mappings s -> overlaps r m -> intervals (m :: ms) ->
  r_start r < r_end r -> page_aligned (r_start r) -> page_aligned (r_end r) ->
  discarded r stop s0 s -> swept r (vm_mappings s) (m :: ms) stop ->
  exists s', (_ ← cursor_mut (meet r m);
              let '(n, pt) := cursor_unmap (meet r m) (vm_space s) in
              Ret (RssDelta_add (with_space s pt) (rss_type m) (- n))) = Ret s' /\
    vinv t [] s' /\ vm_mappings s' = vm_mappings s /\ discarded r (Z.min (map_end m) (r_end r)) s0 s' /\
    swept r (vm_mappings s) ms (Z.min (map_end m) (r_end r)).
Proof.
  intros Hinv Hm Ho Hi Hr Ha Hb Hd Hsw. assert (placed m) as Hpm by (apply (vi_placed _ _ _ _ _ _ Hinv); set_solver).
  destruct (meet_facts r m Ho Hpm Hr Ha Hb) as (M1 & M2 & M3 & M4 & M5).
  assert (placed (sub m (r_start (meet r m)) (r_end (meet r m)))) as Hps by (apply placed_sub; done).
  apply cursor_mut_ok in Hps. rewrite range_mapping, map_end_sub in Hps. cbn [map_to_addr sub with_place] in Hps.
  change (mkRange (r_start (meet r m)) (r_end (meet r m))) with (meet r m) in Hps. rewrite Hps. cbn [mbind run_bind].
  apply intervals_cons in Hi as (Hne & Hap & Hi). pose proof (sw_range _ _ _ _ Hsw) as Hst.
  pose proof (sw_left _ _ _ _ Hsw m (list_elem_of_here _ _)) as Hsm. rewrite overlaps_iff in Ho.
  assert (discarded r (r_start (meet r m)) s0 s) as Hd'.
  { apply (discarded_gap r stop); [done|cbn; lia| |lia]. apply (swept_gap t r s (m :: ms)); [done|done|cbn; lia|].
    intros x [->|Hx]%elem_of_cons; cbn; [lia|]. specialize (Hap x Hx). rewrite apart_iff in Hap. unfold map_end in *. destruct Hpm as ((? & _) & _). lia. }
  eexists. split; [done|]. split; [apply discard_inv; done || lia|]. split; [done|]. split.
  - destruct Hd' as [D1 D2 D3]. constructor; [done| |done]. intros k. vsimpl. cbn [snd cursor_unmap].
    rewrite map_lookup_filter, D2. unfold in_range. cbn in *. repeat case_decide; try lia; try done;
    destruct (vm_space s0 !! k); cbn; try done; case_guard; try done; lia.
  - constructor; [lia| |].
    + intros x Hx Hxo. destruct (sw_done _ _ _ _ Hsw x Hx Hxo) as [[->|?]%elem_of_cons|?]; [by right|by left|]. right. lia.
    + intros x Hx. specialize (Hap x Hx). rewrite apart_iff in Hap. lia.
Qed.

(** How far [discard_pages] gets: to the end of the range, or to the first mapping of a device. *)
Definition discard_outcome (r : Range) (l : list VmMapping) (stop : Z) (res : result unit) : Prop :=
  match res with
  | Ok _ => stop = r_end r /\ forall x, inside r x -> exists a, view l x = Some a
  | Err e =>
      (e = ENOMEM /\ stop = r_end r /\ exists x, inside r x /\ view l x = None) \/
      (e = EINVAL /\ exists m, m ∈ l /\ overlaps r m /\ can_expand m = false /\ stop = Z.max (r_start r) (map_to_addr m))
  end.

Lemma discard_loop_spec t r s0 ms :
  intervals (vm_mappings s0) -> r_start r < r_end r -> page_aligned (r_start r) -> page_aligned (r_end r) ->
  forall s last stop, vinv t [] s -> vm_mappings s = vm_mappings s0 -> scanned r (vm_mappings s0) ms last ->
  discarded r stop s0 s -> swept r (vm_mappings s0) ms stop ->
  exists res s' stop', discard_loop r ms last s = Ret (res, s') /\ vinv t [] s' /\ discarded r stop' s0 s' /\
    match res with
    | Ok last' => stop' = r_end r /\ scanned r (vm_mappings s0) [] last'
    | Err e => discard_outcome r (vm_mappings s0) stop' (Err e)
    end.
Proof.
  intros Hl Hr Ha Hb. induction ms as [|m ms IH]; intros s last stop Hinv Hms Hsc Hd Hsw; cbn [discard_loop].
  - exists (Ok last), s, (r_end r). split; [done|]. split; [done|]. split; [|done].
    pose proof (sw_range _ _ _ _ Hsw). apply (discarded_gap r stop); [done|lia| |lia].
    rewrite <- Hms in Hsw. apply (swept_gap t r s []); [done|done|lia|]. intros m Hm. by apply elem_of_nil in Hm.
  - destruct (sc_elem _ _ _ _ Hsc m) as [Hm Ho]; [by left|]. pose proof (sc_intervals _ _ _ _ Hsc) as Hi.
    destruct (can_expand m) eqn:Ec; cbn [negb].
    2: { eexists _, s, (Z.max (r_start r) (map_to_addr m)). split; [done|]. split; [done|]. split; [|right; eauto 10].
         pose proof (sw_range _ _ _ _ Hsw). pose proof (sw_left _ _ _ _ Hsw m (list_elem_of_here _ _)).
         apply (discarded_gap r stop); [done|lia| |lia]. rewrite <- Hms in Hsw. rewrite overlaps_iff in Ho.
         apply (swept_gap t r s (m :: ms)); [done|done|lia|]. apply intervals_cons in Hi as (Hne & Hap & _).
         intros x [->|Hx]%elem_of_cons; [lia|]. specialize (Hap x Hx). rewrite apart_iff in Hap.
         assert (map_to_addr m < map_end m) by exact Hne. lia. }
    assert (placed m) as Hpm by (apply (vi_placed _ _ _ _ _ _ Hinv); rewrite Hms; set_solver).
    rewrite get_intersected_eq by done. cbn [mbind run_bind]. rewrite <- Hms in Hm, Hsw.
    destruct (discard_step t r s0 s m ms stop Hinv Hm Ho Hi Hr Ha Hb Hd Hsw) as (s1 & E & I1 & M1 & D1 & W1).
    destruct (cursor_mut (meet r m)); cbn [mbind run_bind] in E |- *; try done. injection E as <-.
    apply (IH _ _ (Z.min (map_end m) (r_end r))); [done|congruence| |done|congruence].
    by apply scanned_next.
Qed.

(** [discard_pages] takes the pages of the range out of the page table, up to a mapping of a device; the
    mappings stay. *)
Lemma discard_pages_spec s r :
  resting me base others s -> r_start r < r_end r -> page_aligned (r_start r) -> page_aligned (r_end r) ->
  exists res s' stop, discard_pages r s = Ret (res, s') /\ resting me base others s' /\
    discarded r stop s s' /\ discard_outcome r (vm_mappings s) stop res.
Proof.
  intros Hrest Hr Ha Hb. pose proof (resting_start _ _ _ _ Hrest) as Hinv. pose proof (vi_intervals _ _ _ _ _ _ Hinv) as Hl.
  unfold discard_pages. rewrite (proj2 (is_multiple_of_spec _) Ha), (proj2 (is_multiple_of_spec _) Hb). cbn [assert_run mbind run_bind].
  rewrite find_all_spec by done. cbn [mbind run_bind].
  destruct (discard_loop_spec 0 r (RssDelta_new s) (filter (overlaps r) (vm_mappings s)) Hl Hr Ha Hb (RssDelta_new s) (r_start r) (r_start r))
    as (res & s' & stop & -> & I & [D1 D2 D3] & O); [done|done|by apply scanned_start| | |].
  { constructor; [done| |done]. intros k. by rewrite decide_False by lia. }
  { constructor; [lia| |lia]. intros m Hm Ho. left. by apply list_elem_of_filter. }
  cbn [mbind run_bind]. eexists _, _, stop. split; [done|]. split; [by apply resting_end|]. split; [by constructor|].
  destruct res as [last|e]; [|done]. destruct O as [-> Hsc]. destruct (Z.ltb_spec last (r_end r)) as [Hlt|Hge].
  - left. split; [done|]. split; [done|]. exists last. split; [split; [apply (sc_last _ _ _ _ Hsc)|done]|].
    apply (scanned_hole r _ [] last Hsc Hlt). intros m Hm. by apply elem_of_nil in Hm.
  - split; [done|]. intros x [? ?]. assert (view (vm_mappings s) x <> None) as Hx by (apply (sc_mapped _ _ _ _ Hsc); lia).
    destruct (view (vm_mappings s) x); [eauto|done].
Qed.
End discard.

(** ** Clearing *)
Section clear.
Context (me : nat) (base : nat -> Z) (others : nat -> nat -> list RmapEntry).

Lemma clear_rmaps_spec ms s :
  intervals ms -> (forall id, rmap_of (vmos s) id me ≡ₚ omap (rmap_entry id) ms) ->
  exists w', clear_rmaps me ms s = Ret (with_vmos s w') /\ (forall id, rmap_of w' id me = []) /\
    (forall id v, v <> me -> rmap_of w' id v = rmap_of (vmos s) id v) /\
    (forall id, status w' id = status (vmos s) id).
Proof.
  revert s. induction ms as [|m ms IH]; intros s Hi Hr; cbn [clear_rmaps].
  - exists (vmos s). split; [by destruct s|]. split; [|done]. intros id. apply Permutation_nil_r. by rewrite Hr.
  - destruct (rmap_remove_inv me s m ms Hr) as (w1 & -> & H1 & H2 & H3).
    { intros x Hx. by apply (perm_keys (m :: ms) m ms). }
    cbn [mbind run_bind]. apply intervals_cons in Hi as (_ & _ & Hi).
    destruct (IH (with_vmos s w1) Hi H1) as (w2 & -> & K1 & K2 & K3). exists w2. split; [done|]. split; [done|].
    split; [intros id v Hv; rewrite K2 by done; by apply H2|]. intros id. rewrite K3. apply H3.
Qed.

Lemma drop_mappings ms w :
  (forall id, status (foldl (fun w m => VmMapping_drop m w) w ms) id = status w id - tally (fun m => tracks m id) ms) /\
  (forall id v, rmap_of (foldl (fun w m => VmMapping_drop m w) w ms) id v = rmap_of w id v).
Proof.
  revert w. induction ms as [|m ms IH]; intros w; cbn [foldl]; [split; intros; cbn; lia || done|].
  destruct (IH (VmMapping_drop m w)) as [I1 I2]. destruct (status_delta_add m (-1) w) as [Hst Hrm].
  rewrite <- VmMapping_drop_eq in Hst, Hrm. split; intros id.
  - rewrite I1, Hst, tally_cons. lia.
  - intros v. rewrite I2. unfold rmap_of. by rewrite Hrm.
Qed.

(** After [clear] nothing of the address space is left in the tree, in the page table or in the memory
    objects.  The total size and the resident-set counters keep their values: [clear] runs when the last
    process that could read them is gone. *)
Lemma clear_spec s :
  resting me base others s ->
  exists s', clear me s = Ret s' /\ vm_mappings s' = [] /\ vm_space s' = ∅ /\
    (forall id, rmap_of (vmos s') id me = []) /\ (forall id v, v <> me -> rmap_of (vmos s') id v = others id v) /\
    (forall id, status (vmos s') id = base id) /\ total_vm s' = total_vm s /\ rss_counters s' = rss_counters s.
Proof.
  intros [Hinv _]. unfold clear.
  destruct (clear_rmaps_spec (vm_mappings s) s (vi_intervals _ _ _ _ _ _ Hinv) (vi_rmap _ _ _ _ _ _ Hinv)) as (w & -> & H1 & H2 & H3).
  cbn [mbind run_bind]. change (cursor_mut (mkRange 0 VMAR_CAP_ADDR)) with (Ret tt). cbn [mbind run_bind].
  destruct (drop_mappings (vm_mappings s) w) as [D1 D2]. eexists. split; [done|]. vsimpl. split; [done|]. split.
  - apply map_eq. intros k. rewrite lookup_empty. apply map_lookup_filter_None. right. intros p Hk Hn. apply Hn.
    destruct (vi_pages _ _ _ _ _ _ Hinv k p Hk) as (_ & m & Hm & Hc). destruct (vi_placed _ _ _ _ _ _ Hinv m Hm) as (_ & ? & ?).
    rewrite contains_iff in Hc. split; cbn [fst r_start r_end]; lia.
  - split; [intros id; by rewrite D2|]. split; [intros id v Hv; rewrite D2, H2 by done; by apply (vi_others _ _ _ _ _ _ Hinv)|].
    split; [|done]. intros id. rewrite D1, H3, (vi_status _ _ _ _ _ _ Hinv), app_nil_r. lia.
Qed.
End clear.
