(* ===== verification/VmarRemap.v ===== *)
(** * Resizing and moving mappings

    [remap.rs] and [VmarInner::resize_mapping]. *)

From S2P Require Import Prelude Flags Align IntervalSet VmMapping Vmar VmarInv VmarOps VmarRegion VmarPages VmarUnmap.

Lemma CAP_bound : VMAR_CAP_ADDR <= Z.shiftl 1 47.
Proof. by vm_compute. Qed.

(** Whether a range is free. *)
Lemma alloc_free_region_exact_spec l offset size s :
  vm_mappings s = l -> intervals l -> 0 < size ->
  match alloc_free_region_exact offset size s with
  | Ok r => r = mkRange offset (offset + size) /\ region_free l offset size
  | Err e => e = EEXIST /\ exists m, m ∈ l /\ overlaps (mkRange offset (offset + size)) m
  end.
Proof.
  intros <- Hl Hs. unfold alloc_free_region_exact. set (r := mkRange offset (offset + size)).
  assert (r_start r < r_end r) as Hr by (cbn; lia). pose proof (find_all_spec (vm_mappings s) r Hl Hr) as Hf. unfold find_all in Hf.
  rewrite Nat.add_comm in Hf. cbn [Nat.add] in Hf. rewrite iter_collect_S in Hf.
  destruct (IntervalIter_next (find r (vm_mappings s))) as [[m|] it].
  - split; [done|]. exists m. assert (m ∈ filter (overlaps r) (vm_mappings s)) as [? ?]%list_elem_of_filter; [|done].
    destruct (iter_collect _ it); cbn in Hf; try done. injection Hf as <-. by left.
  - split; [done|]. injection Hf as Hf. intros m Hm. destruct (decide (overlaps r m)) as [Ho|Hn].
    + exfalso. assert (m ∈ filter (overlaps r) (vm_mappings s)) as Hin by by apply list_elem_of_filter.
      rewrite <- Hf in Hin. by apply elem_of_nil in Hin.
    + rewrite overlaps_iff in Hn. cbn in Hn. lia.
Qed.

Lemma rlimit_cases rlimit_as s n :
  check_extra_size_fits_rlimit rlimit_as s n = Ok tt \/ check_extra_size_fits_rlimit rlimit_as s n = Err ENOMEM.
Proof. unfold check_extra_size_fits_rlimit. repeat case_match; tauto. Qed.

Lemma userspace_range_spec a n :
  is_userspace_vaddr_range a n = true <-> VMAR_LOWEST_ADDR <= a /\ a <= VMAR_CAP_ADDR /\ a + n <= VMAR_CAP_ADDR.
Proof. unfold is_userspace_vaddr_range. rewrite !andb_true_iff, !Z.leb_le. lia. Qed.

Section remap.
Context (me : nat) (base : nat -> Z) (others : nat -> nat -> list RmapEntry).
Notation vinv := (vmar_inv me base others).

(** Where nothing is mapped there are no pages. *)
Lemma region_free_pages t s a size k :
  vinv t [] s -> region_free (vm_mappings s) a size -> a <= k < a + size -> vm_space s !! k = None.
Proof.
  intros Hinv Hf Hk. destruct (vm_space s !! k) as [p|] eqn:E; [|done]. exfalso.
  destruct (vi_pages _ _ _ _ _ _ Hinv k p E) as (_ & m & Hm & Hc). rewrite app_nil_r in Hm. rewrite contains_iff in Hc.
  specialize (Hf m Hm). lia.
Qed.

(** A mapping in the hands of an operation grows into a free region. *)
Lemma enlarge_inv t h s m n :
  vinv t (m :: h) s -> 0 <= n -> page_aligned n -> map_end m + n <= VMAR_CAP_ADDR ->
  (forall x, x ∈ vm_mappings s ++ h -> map_end x <= map_end m \/ map_end m + n <= map_to_addr x) ->
  let m' := with_place m (map_size m + n) (map_to_addr m) (mapped_mem m) in
  enlarge m n = Ret m' /\ vinv t (m' :: h) s.
Proof.
  intros Hinv Hn Han Hcap Hfree m'. assert (placed m) as Hm by (apply (vi_placed _ _ _ _ _ _ Hinv); set_solver).
  pose proof Hm as ((Hs & Ha & Hz) & H0 & H1).
  split; [unfold enlarge, nonzero; rewrite (proj2 (Z.eqb_neq _ _)) by lia; done|].
  assert (map_end m' = map_end m + n) as He by (unfold map_end; cbn; lia).
  assert (placed m') as Hm'. { split; [|rewrite He; done]. split; [cbn; lia|]. split; [done|]. by apply page_aligned_add. }
  assert (forall x, x ∈ vm_mappings s ++ h -> separate m' x) as Hsep.
  { intros x Hx. pose proof (hand_separate _ _ _ _ _ _ _ _ Hinv Hx) as Hmx. specialize (Hfree x Hx).
    assert (placed x) as ((? & _) & _) by (apply (vi_placed _ _ _ _ _ _ Hinv); set_solver).
    rewrite separate_iff in Hmx |- *. rewrite He. cbn [map_to_addr m' with_place]. unfold map_end in *. lia. }
  assert (forall ty, resident (vm_space s) ty m' = resident (vm_space s) ty m) as Hres.
  { intros ty. unfold resident. change (rss_type m') with (rss_type m). case_decide; [|done]. rewrite !range_mapping, He.
    cbn [map_to_addr m' with_place]. rewrite (pages_split _ _ (map_end m) _) by (unfold map_end in *; lia).
    rewrite (pages_empty (vm_space s) (mkRange (map_end m) (map_end m + n))); [lia|]. cbn [r_start r_end]. intros k Hk.
    destruct (vm_space s !! k) as [p|] eqn:E; [|done]. exfalso. destruct (vi_pages _ _ _ _ _ _ Hinv k p E) as (_ & x & Hx & Hc).
    rewrite contains_iff in Hc. apply elem_of_app in Hx as [Hx|[->|Hx]%elem_of_cons]; [|lia|];
      (destruct (Hfree x); [set_solver|lia|lia]). }
  pose proof Hinv as [Hi Hpl Hap Hh Ht Hr Ho Hst Hrss Hp Hdn].
  replace s with (with_vmos s (vmos s)) by by destruct s. apply (vmar_inv_rehand _ _ _ t (m :: h)); try done.
  - intros x [->|Hx]%elem_of_cons; [done|]. apply Hpl. set_solver.
  - intros x y Hx [->|Hy]%elem_of_cons; [apply separate_sym, Hsep; set_solver|]. apply Hap; [done|by right].
  - inversion_clear Hh as [|? ? Hmh Hh']. constructor; [|done]. apply Forall_forall. intros x Hx. apply Hsep. set_solver.
  - intros id. rewrite !tally_cons. change (tracks m' id) with (tracks m id). lia.
  - intros ty. rewrite !tally_cons, Hres. done.
  - intros x k [->|Hx]%elem_of_cons Hc; [|exists x; split; [by right|done]]. exists m'. split; [by left|].
    rewrite contains_iff in Hc |- *. rewrite He. cbn [map_to_addr m' with_place]. lia.
  - intros x id [->|Hx]%elem_of_cons _ Et; [exists m|exists x]; set_solver.
Qed.

(** The mapping [m] has grown by [n] bytes at its end, where nothing was mapped; no page has changed. *)
Definition grown (m : VmMapping) (n : Z) (s s' : Vmar) : Prop :=
  (forall x, view (vm_mappings s') x = if decide (map_end m <= x < map_end m + n) then Some (attr_at m x) else view (vm_mappings s) x) /\
  vm_space s' = vm_space s /\ region_free (vm_mappings s) (map_end m) n.

Lemma grow_spec t s m n :
  vinv t [] s -> m ∈ vm_mappings s -> 0 < n -> page_aligned n -> map_end m + n <= VMAR_CAP_ADDR ->
  region_free (vm_mappings s) (map_end m) n ->
  exists s1 s2 m' s3, remove (map_to_addr m) s = Some (m, vmo_for_rmap m, s1) /\
    rmap_remove me (vmo_for_rmap m) (map_to_addr m) s1 = Ret s2 /\ enlarge m n = Ret m' /\
    insert_try_merge me m' (vmo_for_rmap m) s2 = Ret s3 /\ vinv t [] s3 /\ grown m n s s3 /\ same_pages s s3.
Proof.
  intros Hinv Hm Hn Han Hcap Hfree. pose proof (vi_intervals _ _ _ _ _ _ Hinv) as Hl.
  assert (forall x, x ∈ vm_mappings s -> placed x) as Hpl by (intros x Hx; apply (vi_placed _ _ _ _ _ _ Hinv); set_solver).
  destruct (remove_spec _ _ _ _ _ _ _ Hinv Hm) as (s1 & s2 & E1 & E2 & I2 & P2 & S2).
  destruct (enlarge_inv t [] s2 m n I2) as [E3 I3]; [lia|done|done| |].
  { intros x Hx. rewrite app_nil_r in Hx. assert (x ∈ vm_mappings s) as Hx' by (rewrite P2; by right).
    destruct (Hfree x Hx'); [by left|by right]. }
  set (m' := with_place m (map_size m + n) (map_to_addr m) (mapped_mem m)) in *.
  destruct (insert_try_merge_spec _ _ _ _ _ _ _ I3) as (s3 & E4 & I4 & S3 & V4 & _).
  exists s1, s2, m', s3. split; [done|]. split; [done|]. split; [done|]. split; [done|]. split; [done|].
  pose proof (same_pages_trans _ _ _ S2 S3) as Hsp. split; [split; [|split; [apply Hsp|done]]|done].
  intros x. rewrite V4. unfold view_with. destruct (Hpl m Hm) as ((Hsz & _) & _).
  assert (contains m' x <-> contains m x \/ map_end m <= x < map_end m + n) as Hc.
  { rewrite !contains_iff. unfold map_end. cbn. unfold map_end. lia. }
  rewrite (view_cons (vm_mappings s2) (vm_mappings s) m x); [|apply (vi_intervals _ _ _ _ _ _ I2)|done|done].
  change (attr_at m' x) with (attr_at m x). repeat case_decide; try done; tauto.
Qed.

Lemma resting_idle s : resting me base others s -> RssDelta_drop (RssDelta_new s) = s.
Proof.
  intros [_ Hd]. destruct s as [l t pt [a b] d w]. cbn in Hd. subst d. unfold RssDelta_drop, RssDelta_new, with_rss. cbn.
  by rewrite !Z.add_0_r.
Qed.

Lemma single_mapping_spec t s a n :
  vinv t [] s ->
  match check_lies_in_single_mapping s a n with
  | Ok k => exists m, m ∈ vm_mappings s /\ k = map_to_addr m /\ map_to_addr m <= a < map_end m /\ a + n <= map_end m
  | Err e => e = EFAULT /\ forall m, m ∈ vm_mappings s -> contains m a -> map_end m < a + n
  end.
Proof.
  intros Hinv. pose proof (vi_intervals _ _ _ _ _ _ Hinv) as Hl. unfold check_lies_in_single_mapping.
  rewrite find_one_covering by done. destruct (covering a (vm_mappings s)) as [m|] eqn:E.
  - apply covering_Some in E as [Hm Hc]; [|done]. destruct (Z.leb_spec n (map_end m - a)).
    + exists m. rewrite contains_iff in Hc. split; [done|]. split; [done|]. lia.
    + split; [done|]. intros x Hx Hxc. rewrite (intervals_disjoint _ x m a Hl); [lia|done..].
  - split; [done|]. intros m Hm Hc. exfalso. by apply (proj1 (covering_None _ _) E m Hm).
Qed.

Context (rlimit_as : option Z).

(** What [resize_mapping] does.  Failures leave the address space as it was. *)
Definition resize_outcome (a old new : Z) (single : bool) (s s' : Vmar) (res : result unit) : Prop :=
  match res with
  | Ok _ =>
      0 < new /\
      (if decide (new < old) then truncated (mkRange (a + new) (a + old)) s s'
       else if decide (new = old) then s' = s
       else exists m, m ∈ vm_mappings s /\ map_to_addr m <= a /\ map_end m = a + old /\ can_expand m = true /\
         check_extra_size_fits_rlimit rlimit_as s (new - old) = Ok tt /\ grown m (new - old) s s')
  | Err e =>
      s' = s /\
      ((e = EINVAL /\ (new = 0 \/ is_userspace_vaddr_range a new = false \/ checked_add a old = None)) \/
       (e = EFAULT /\ (view (vm_mappings s) a = None \/
          (single = true /\ forall m, m ∈ vm_mappings s -> contains m a -> map_end m < a + old) \/
          exists m, m ∈ vm_mappings s /\ map_end m = a + old /\ can_expand m = false)) \/
       (e = ENOMEM /\ ((exists x, a + old <= x < a + new /\ view (vm_mappings s) x <> None) \/
          check_extra_size_fits_rlimit rlimit_as s (new - old) = Err ENOMEM)))
  end.

(** Growing, with the old range in one mapping. *)
Lemma resize_grow_spec s a old new m :
  resting me base others s -> m ∈ vm_mappings s -> map_to_addr m <= a -> a + old <= map_end m ->
  page_aligned a -> page_aligned old -> page_aligned new -> 0 < old < new -> is_userspace_vaddr_range a new = true ->
  exists res s', resize_inner me rlimit_as a old new (RssDelta_new s) = Ret (res, s') /\ vinv 0 [] s' /\
    resize_outcome a old new true s (RssDelta_drop s') res.
Proof.
  intros Hrest Hm Hma Hme Haa Hao Han Hsz Hus. pose proof (resting_start _ _ _ _ Hrest) as Hinv. pose proof (resting_idle s Hrest) as Hid.
  set (s0 := RssDelta_new s) in *. pose proof (vi_intervals _ _ _ _ _ _ Hinv) as Hl. change (vm_mappings s0) with (vm_mappings s) in Hl.
  unfold resize_inner. rewrite !(proj2 (is_multiple_of_spec _)) by done. cbn [assert_run mbind run_bind].
  rewrite !(proj2 (Z.eqb_neq _ _)) by lia. rewrite Hus. cbn [negb]. rewrite (proj2 (Z.ltb_ge _ _)) by lia.
  pose proof (alloc_free_region_exact_spec (vm_mappings s) (a + old) (new - old) s0 eq_refl Hl) as Hex.
  destruct (alloc_free_region_exact (a + old) (new - old) s0) as [r|e].
  2: { destruct Hex as (_ & x & Hx & Hov); [lia|]. eexists _, _. split; [done|]. split; [done|]. rewrite Hid. split; [done|].
       right; right. split; [done|]. left. rewrite overlaps_iff in Hov. cbn in Hov.
       assert (placed x) as ((? & _) & _) by (apply (vi_placed _ _ _ _ _ _ Hinv); vsimpl; set_solver).
       exists (Z.max (a + old) (map_to_addr x)). unfold map_end in *. split; [lia|].
       rewrite (view_Some _ _ x Hl Hx); [done|]. rewrite contains_iff. unfold map_end. lia. }
  destruct Hex as [-> Hfree]; [lia|]. assert (map_end m = a + old) as He by (destruct (Hfree m Hm); lia).
  change (vm_mappings s0) with (vm_mappings s). rewrite find_one_covering by done.
  rewrite (proj2 (covering_Some _ _ m Hl)) by (rewrite contains_iff; split; [done|lia]). cbn [unwrap mbind run_bind].
  rewrite (proj2 (Z.eqb_eq _ _) He). cbn [assert_run mbind run_bind].
  destruct (can_expand m) eqn:Ec; cbn [negb].
  2: { eexists _, _. split; [done|]. split; [done|]. rewrite Hid. split; [done|]. right; left. split; [done|]. right; right. eauto. }
  change (check_extra_size_fits_rlimit rlimit_as s0) with (check_extra_size_fits_rlimit rlimit_as s).
  destruct (rlimit_cases rlimit_as s (new - old)) as [Er|Er]; rewrite Er.
  2: { eexists _, _. split; [done|]. split; [done|]. rewrite Hid. split; [done|]. right; right. eauto. }
  rewrite userspace_range_spec in Hus.
  destruct (grow_spec 0 s0 m (new - old) Hinv Hm) as (s1 & s2 & m' & s3 & -> & E2 & E3 & E4 & I & G & _);
    [lia|by apply page_aligned_sub|lia|by rewrite He|].
  cbn [unwrap mbind run_bind]. rewrite E2. cbn [mbind run_bind]. rewrite E3. cbn [mbind run_bind]. rewrite E4. cbn [mbind run_bind].
  eexists _, _. split; [done|]. split; [done|]. split; [lia|]. rewrite decide_False, decide_False by lia. exists m. split_and!; done.
Qed.

Lemma resize_inner_spec s a old new single :
  resting me base others s -> page_aligned a -> page_aligned old -> page_aligned new -> 0 < old -> 0 <= new ->
  (old < new -> single = true /\ exists m, m ∈ vm_mappings s /\ map_to_addr m <= a /\ a + old <= map_end m) ->
  exists res s', resize_inner me rlimit_as a old new (RssDelta_new s) = Ret (res, s') /\ vinv 0 [] s' /\
    resize_outcome a old new single s (RssDelta_drop s') res.
Proof.
  intros Hrest Haa Hao Han Ho Hn Hgrow. pose proof (resting_start _ _ _ _ Hrest) as Hinv. pose proof (resting_idle s Hrest) as Hid.
  destruct (Z.eq_dec new 0) as [->|Hnz]; [|destruct (Z.eq_dec new old) as [->|Hno]; [|destruct (is_userspace_vaddr_range a new) eqn:Hus]].
  1,2,4: unfold resize_inner; rewrite !(proj2 (is_multiple_of_spec _)) by done; cbn [assert_run mbind run_bind].
  - eexists _, _. split; [done|]. split; [done|]. rewrite Hid. split; [done|]. left. tauto.
  - rewrite (proj2 (Z.eqb_neq old 0)), Z.eqb_refl by lia. eexists _, _. split; [done|]. split; [done|]. rewrite Hid.
    split; [lia|]. by rewrite decide_False, decide_True by lia.
  - rewrite (proj2 (Z.eqb_neq new 0)), (proj2 (Z.eqb_neq new old)), Hus by lia. cbn [negb].
    eexists _, _. split; [done|]. split; [done|]. rewrite Hid. split; [done|]. left. tauto.
  - destruct (Z_lt_dec old new) as [Hlt|Hge].
    { destruct (Hgrow Hlt) as (-> & m & Hm & ? & ?). by apply (resize_grow_spec s a old new m). }
    unfold resize_inner. rewrite !(proj2 (is_multiple_of_spec _)) by done. cbn [assert_run mbind run_bind].
    rewrite (proj2 (Z.eqb_neq new 0)), (proj2 (Z.eqb_neq new old)), Hus by lia. cbn [negb]. rewrite (proj2 (Z.ltb_lt _ _)) by lia.
    destruct (checked_add a old) as [e|] eqn:Ea.
    + destruct (alloc_free_region_exact_truncate_spec me base others 0 (RssDelta_new s) (a + new) (old - new)) as (s' & -> & I & T & _);
        [done|lia|by apply page_aligned_add|by apply page_aligned_sub|].
      cbn [mbind run_bind]. eexists _, _. split; [done|]. split; [done|]. split; [lia|]. rewrite decide_True by lia.
      replace (a + new + (old - new)) with (a + old) in T by lia. exact T.
    + eexists _, _. split; [done|]. split; [done|]. rewrite Hid. split; [done|]. left. tauto.
Qed.

(** [resize_mapping], called as [mremap] does: growing asks for a range in a single mapping. *)
Lemma resize_mapping_spec s a old new single :
  resting me base others s -> page_aligned a -> page_aligned old -> page_aligned new -> 0 < old -> 0 <= new ->
  (old < new -> single = true) ->
  exists res s', resize_mapping me rlimit_as a old new single s = Ret (res, s') /\ resting me base others s' /\
    resize_outcome a old new single s s' res.
Proof.
  intros Hrest Haa Hao Han Ho Hn Hsingle. pose proof (resting_start _ _ _ _ Hrest) as Hinv. pose proof (resting_idle s Hrest) as Hid.
  pose proof (vi_intervals _ _ _ _ _ _ Hinv) as Hl. change (vm_mappings (RssDelta_new s)) with (vm_mappings s) in Hl.
  assert ((old < new -> single = true /\ exists m, m ∈ vm_mappings s /\ map_to_addr m <= a /\ a + old <= map_end m) ->
    exists res s', ('(res, s1) ← resize_inner me rlimit_as a old new (RssDelta_new s); Ret (res, RssDelta_drop s1)) = Ret (res, s') /\
      resting me base others s' /\ resize_outcome a old new single s s' res) as Hinner.
  { intros H. destruct (resize_inner_spec s a old new single) as (res & s1 & -> & I & O); try done.
    eexists _, _. split; [done|]. split; [by apply resting_end|done]. }
  unfold resize_mapping. destruct single.
  - pose proof (single_mapping_spec 0 (RssDelta_new s) a old Hinv) as Hs.
    destruct (check_lies_in_single_mapping (RssDelta_new s) a old) as [k|e].
    + destruct Hs as (m & Hm & _ & ? & ?). apply Hinner. intros _. split; [done|]. exists m. split; [done|]. lia.
    + destruct Hs as [-> Hs]. eexists _, _. split; [done|]. rewrite Hid. split; [done|]. split; [done|]. right; left. auto.
  - change (vm_mappings (RssDelta_new s)) with (vm_mappings s). rewrite find_one_covering by done.
    destruct (covering a (vm_mappings s)) as [m|] eqn:E.
    + apply Hinner. intros H. by apply Hsingle in H.
    + eexists _, _. split; [done|]. rewrite Hid. split; [done|]. split; [done|]. right; left. split; [done|]. left.
      unfold view. by rewrite E.
Qed.

(** ** Moving *)

(** The copy of a piece of a mapping at another address: the piece [sub m a b] as seen from [na]. *)
Definition copy_at (m : VmMapping) (a b na : Z) : VmMapping :=
  with_place m (b - a) na (mem_from (mapped_mem m) (a - map_to_addr m)).

Lemma attr_at_copy m a b na x : attr_at (copy_at m a b na) x = attr_at m (x - (na - a)).
Proof. unfold attr_at, copy_at, with_place. cbn. rewrite backing_from. do 2 f_equal. lia. Qed.

Lemma copy_at_facts m a b na :
  map_end (copy_at m a b na) = na + (b - a) /\ vmo_for_rmap (copy_at m a b na) = vmo_for_rmap m /\
  rss_type (copy_at m a b na) = rss_type m /\ tracked (copy_at m a b na) = tracked m.
Proof. unfold vmo_for_rmap, rss_type, tracked. cbn. by destruct (mapped_mem m). Qed.

(** A copy comes into the hands of the operation. *)
Lemma copy_inv t h s m a b na :
  vinv t h s -> a < b -> page_aligned a -> page_aligned b -> page_aligned na -> 0 <= na -> na + (b - a) <= VMAR_CAP_ADDR ->
  (forall x, x ∈ vm_mappings s ++ h -> map_end x <= na \/ na + (b - a) <= map_to_addr x) ->
  (exists y, y ∈ vm_mappings s ++ h /\ tracked y = tracked m) ->
  vinv t (copy_at m a b na :: h) (with_vmos s (add_tracked m 1 (vmos s))).
Proof.
  intros Hinv Hab Ha Hb Hna H0 Hcap Hfree (src & Hsrc & Esrc). destruct (copy_at_facts m a b na) as (He & _ & Hrt & Htr).
  assert (placed (copy_at m a b na)) as Hn.
  { split; [|rewrite He; done]. split; [cbn; lia|]. split; [done|]. by apply page_aligned_sub. }
  assert (forall x, x ∈ vm_mappings s ++ h -> separate (copy_at m a b na) x) as Hsep.
  { intros x Hx. specialize (Hfree x Hx). rewrite separate_iff, He. cbn. lia. }
  destruct (status_delta_add m 1 (vmos s)) as [Hst Hrm].
  pose proof Hinv as [Hi Hpl Hap Hh Ht Hr Ho Hs Hrss Hp Hdn]. apply (vmar_inv_rehand _ _ _ t h); try done.
  - intros x [->|Hx]%elem_of_cons; [done|]. apply Hpl. set_solver.
  - intros x y Hx [->|Hy]%elem_of_cons; [apply separate_sym, Hsep; set_solver|]. by apply Hap.
  - constructor; [|done]. apply Forall_forall. intros x Hx. apply Hsep. set_solver.
  - intros id v. unfold rmap_of. by rewrite Hrm.
  - intros id. rewrite Hst, tally_cons. unfold tracks at 2. rewrite Htr. change (if decide _ then _ else _) with (tracks m id). lia.
  - intros ty. rewrite tally_cons. unfold resident at 1. case_decide; [|lia]. rewrite range_mapping, He, pages_empty; [lia|].
    cbn [r_start r_end map_to_addr copy_at with_place]. intros k Hk. destruct (vm_space s !! k) as [p|] eqn:E; [|done]. exfalso.
    destruct (Hp k p E) as (_ & x & Hx & Hc). rewrite contains_iff in Hc. specialize (Hfree x Hx). lia.
  - intros x k Hx Hc. exists x. split; [by right|done].
  - intros x id [->|Hx]%elem_of_cons _ Et; [exists src; split; [done|congruence]|exists x; set_solver].
Qed.

(** A mapping without pages is dropped. *)
Lemma drop_inv t h s o :
  vinv t (o :: h) s -> (forall k, contains o k -> vm_space s !! k = None) -> vinv t h (with_vmos s (VmMapping_drop o (vmos s))).
Proof.
  intros Hinv Hno. destruct (status_delta_add o (-1) (vmos s)) as [Hst Hrm]. rewrite <- VmMapping_drop_eq in Hst, Hrm.
  pose proof Hinv as [Hi Hpl Hap Hh Ht Hr Ho Hs Hrss Hp Hdn]. constructor; vsimpl; try done.
  - intros x Hx. apply Hpl. set_solver.
  - intros x y Hx Hy. apply Hap; [done|by right].
  - by inversion_clear Hh.
  - intros id. unfold rmap_of. rewrite Hrm. apply Hr.
  - intros id v Hv. unfold rmap_of. rewrite Hrm. by apply Ho.
  - intros id. rewrite Hst, Hs, !tally_app, tally_cons. lia.
  - intros ty. rewrite Hrss, !tally_app, tally_cons. unfold resident at 2. case_decide; [|lia].
    rewrite pages_empty; [lia|]. intros k Hk. apply Hno. done.
  - intros k p Hk. destruct (Hp k p Hk) as (Hka & x & Hx & Hc). split; [done|]. exists x. split; [|done].
    apply elem_of_app in Hx as [Hx|[->|Hx]%elem_of_cons]; [set_solver| |set_solver]. rewrite Hno in Hk; done.
  - intros id x Hb Hx. apply Hdn; [done|set_solver].
Qed.

Lemma move_pt_spec t h s old new :
  vinv t h s -> movable h s old new -> r_start new + (r_end old - r_start old) <= r_end new -> page_aligned (r_end new) ->
  r_end new <= VMAR_CAP_ADDR ->
  (forall k, r_start new <= k < r_start new + (r_end old - r_start old) -> vm_space s !! k = None) ->
  exists s', move_pt old new s = Ret s' /\ vinv t h s' /\ pages_moved 0 old new (vm_space s) (vm_space s') /\
    vm_mappings s' = vm_mappings s.
Proof.
  intros Hinv Hmo Hle Hae Hcap Hno. pose proof Hmo as [Hlt (Hoa & Hob & Hna) Hap (x & y & Hx & Hy & Hty & X1 & X2 & Y1 & Y2)].
  destruct (vi_placed _ _ _ _ _ _ Hinv x Hx) as (_ & ? & ?). destruct (vi_placed _ _ _ _ _ _ Hinv y Hy) as (_ & ? & ?).
  pose proof CAP_bound. unfold move_pt, cursor_mut. cbn [r_start r_end].
  rewrite (proj2 (Z.leb_le 0 _)), (proj2 (Z.ltb_lt _ _)), (proj2 (Z.leb_le _ (Z.shiftl 1 47))) by lia.
  rewrite (proj2 (is_multiple_of_spec (Z.min _ _))) by (destruct (Z.min_spec (r_start old) (r_start new)) as [[_ ->]|[_ ->]]; done).
  rewrite (proj2 (is_multiple_of_spec (Z.max _ _))) by (destruct (Z.max_spec (r_end old) (r_end new)) as [[_ ->]|[_ ->]]; done).
  cbn [andb assert_run mbind run_bind].
  destruct (move_loop_spec me base others (S (size (vm_space s))) t h s old new 0) as (pt' & -> & I & M); try done.
  - unfold pages. pose proof (map_size_filter (in_range (mkRange (r_start old + 0) (r_end old))) (vm_space s)). lia.
  - intros k Hk. apply Hno. lia.
  - cbn [mbind run_bind]. eexists. split; [done|]. done.
Qed.

(** The copy is enlarged and goes into the tree. *)
Lemma place_copy_spec t h s m a b na n :
  vinv t h s -> a < b -> page_aligned a -> page_aligned b -> page_aligned na -> 0 <= na -> 0 <= n -> page_aligned n ->
  na + (b - a) + n <= VMAR_CAP_ADDR ->
  (forall x, x ∈ vm_mappings s ++ h -> map_end x <= na \/ na + (b - a) + n <= map_to_addr x) ->
  (exists y, y ∈ vm_mappings s ++ h /\ tracked y = tracked m) ->
  exists c s', enlarge (copy_at m a b na) n = Ret c /\
    insert_try_merge me c (vmo_for_rmap m) (with_vmos s (add_tracked m 1 (vmos s))) = Ret s' /\
    vinv t h s' /\ vm_space s' = vm_space s /\
    (forall x, view (vm_mappings s') x =
       if decide (na <= x < na + (b - a) + n) then Some (attr_at m (x - (na - a))) else view (vm_mappings s) x) /\
    (exists u, u ∈ vm_mappings s' /\ map_to_addr u <= na /\ na + (b - a) <= map_end u /\ rss_type u = rss_type m) /\
    (forall x, x ∈ vm_mappings s -> exists u, u ∈ vm_mappings s' /\ within x u).
Proof.
  intros Hinv Hab Ha Hb Hna H0 Hn Han Hcap Hfree Hsrc. destruct (copy_at_facts m a b na) as (He & Hv & Hrt & _).
  assert (vinv t (copy_at m a b na :: h) (with_vmos s (add_tracked m 1 (vmos s)))) as I1.
  { apply copy_inv; try done; [lia|]. intros x Hx. specialize (Hfree x Hx). lia. }
  destruct (enlarge_inv t h _ _ n I1) as [E2 I2]; [done|done|lia| |].
  { intros x Hx. specialize (Hfree x Hx). rewrite He. lia. }
  set (c := with_place _ _ _ _) in *. destruct (insert_try_merge_spec _ _ _ _ _ _ _ I2) as (s' & E3 & I3 & (Hsp & _) & V3 & _ & W3).
  change (vmo_for_rmap c) with (vmo_for_rmap (copy_at m a b na)) in E3. rewrite Hv in E3.
  assert (map_end c = na + (b - a) + n) as Hec by (unfold map_end; cbn; lia).
  exists c, s'. split; [done|]. split; [done|]. split; [done|]. split; [done|]. split; [|split].
  - intros x. rewrite V3. unfold view_with. pose proof (contains_iff c x) as Hc. rewrite Hec in Hc. cbn [map_to_addr c with_place copy_at] in Hc.
    change (attr_at c x) with (attr_at (copy_at m a b na) x). rewrite attr_at_copy. repeat case_decide; try done; tauto.
  - destruct (W3 c) as (u & Hu & U1 & U2 & U3); [by left|]. exists u. split; [done|]. rewrite Hec in U2. cbn [map_to_addr c with_place copy_at] in U1.
    split; [done|]. split; [lia|]. rewrite U3. exact Hrt.
  - intros x Hx. apply W3. by right.
Qed.

(** The mappings after a move: the new range has what the old one had, and more of it when it has
    become larger. *)
Definition moved_view (action : RemapOldMappingAction) (m : VmMapping) (old new : Range) (s s' : Vmar) : Prop :=
  forall x, view (vm_mappings s') x =
    if decide (inside new x) then Some (attr_at m (x - (r_start new - r_start old)))
    else if decide (action = Unmap /\ inside old x) then None
    else view (vm_mappings s) x.

Lemma clone_for_remap_at_eq m a b na w :
  clone_for_remap_at (sub m a b) na w = (copy_at m a b na, add_tracked m 1 w).
Proof.
  unfold clone_for_remap_at, new_fork, copy_at, with_place, add_tracked, tracked. cbn.
  destruct (mapped_mem m) as [|[v o []]|o]; cbn; try done. by destruct o; cbn; rewrite ?Z.add_0_r.
Qed.

Lemma clone_range_for_remap_at_eq m a b na w :
  a < b -> page_aligned a -> page_aligned (map_to_addr m) ->
  clone_range_for_remap_at m (mkRange a b) na w = Ret (copy_at m a b na, add_tracked m 1 w).
Proof.
  intros Hab Ha Hm. unfold clone_range_for_remap_at, nonzero. cbn [r_start r_end]. rewrite (proj2 (Z.eqb_neq _ _)) by lia. cbn [mbind run_bind].
  rewrite dup_at_offset_eq by by apply page_aligned_sub. cbn [mbind run_bind]. done.
Qed.

(** A mapping can go from [old] to [new]. *)
Record target (s : Vmar) (old new : Range) : Prop := {
  ta_old : r_start old < r_end old /\ page_aligned (r_start old) /\ page_aligned (r_end old);
  ta_new : 0 <= r_start new /\ r_end new <= VMAR_CAP_ADDR /\ page_aligned (r_start new) /\ page_aligned (r_end new);
  ta_size : r_end old - r_start old <= r_end new - r_start new;
  ta_free : region_free (vm_mappings s) (r_start new) (r_end new - r_start new)
}.

Lemma target_apart s old new m :
  target s old new -> m ∈ vm_mappings s -> map_to_addr m <= r_start old -> r_end old <= map_end m ->
  r_end old <= r_start new \/ r_end new <= r_start old.
Proof. intros [(? & _) _ _ Hf] Hm ? ?. destruct (Hf m Hm); lia. Qed.

(** A piece of a mapping is taken out of the tree. *)
Lemma detach_spec t s m old :
  vinv t [] s -> m ∈ vm_mappings s -> map_to_addr m <= r_start old -> r_end old <= map_end m ->
  r_start old < r_end old -> page_aligned (r_start old) -> page_aligned (r_end old) ->
  exists s1 s2 w s3 s4, remove (map_to_addr m) s = Some (m, vmo_for_rmap m, s1) /\
    rmap_remove me (vmo_for_rmap m) (map_to_addr m) s1 = Ret s2 /\
    split_range m old (vmos s2) = Ret (left_of m old, sub m (r_start old) (r_end old), right_of m old, w) /\
    match left_of m old with Some lft => insert_without_try_merge me lft (vmo_for_rmap m) (with_vmos s2 w) | None => Ret (with_vmos s2 w) end = Ret s3 /\
    match right_of m old with Some rgt => insert_without_try_merge me rgt (vmo_for_rmap m) s3 | None => Ret s3 end = Ret s4 /\
    vinv t [sub m (r_start old) (r_end old)] s4 /\ vm_space s4 = vm_space s /\
    (forall x, view (vm_mappings s4) x = if decide (inside old x) then None else view (vm_mappings s) x) /\
    (forall x, x ∈ vm_mappings s4 ++ [sub m (r_start old) (r_end old)] ->
       exists y, y ∈ vm_mappings s /\ map_to_addr y <= map_to_addr x /\ map_end x <= map_end y).
Proof.
  intros Hinv Hm Hm1 Hm2 Hlt Hoa Hob. pose proof (vi_intervals _ _ _ _ _ _ Hinv) as Hl.
  destruct (remove_spec _ _ _ _ _ _ _ Hinv Hm) as (s1 & s2 & E1 & E2 & I2 & P2 & (Hsp2 & _)).
  destruct (split_range_inv _ _ _ _ _ _ _ _ I2 Hm1 Hlt Hm2 Hoa Hob) as (w & E3 & I3).
  destruct (put_pieces me base others _ _ _ _ _ m old eq_refl eq_refl I3) as (s3 & s4 & E4 & E5 & I5 & P5 & (Hsp5 & _)).
  change (vm_mappings (with_vmos s2 w)) with (vm_mappings s2) in P5. change (vm_space (with_vmos s2 w)) with (vm_space s2) in Hsp5.
  exists s1, s2, w, s3, s4. do 6 (split; [done|]). split; [congruence|]. split.
  - intros x. rewrite (view_pieces (vm_mappings s) (vm_mappings s4) (vm_mappings s2) m old x); try done; [|apply (vi_intervals _ _ _ _ _ _ I5)].
    apply decide_ext. rewrite contains_iff. unfold inside. lia.
  - intros x [Hx| ->%list_elem_of_singleton]%elem_of_app; [|exists m; split; [done|]; rewrite map_end_sub; cbn; lia].
    rewrite P5 in Hx. apply elem_of_app in Hx as [Hx|Hx]; [|exists x; split; [rewrite P2; by right|lia]].
    exists m. split; [done|]. apply pieces_elem in Hx as [[-> ?]|[-> ?]]; rewrite map_end_sub; cbn; lia.
Qed.

Lemma single_mapping_ok t s m a n :
  vinv t [] s -> m ∈ vm_mappings s -> map_to_addr m <= a < map_end m -> a + n <= map_end m ->
  check_lies_in_single_mapping s a n = Ok (map_to_addr m).
Proof.
  intros Hinv Hm Ha Hn. unfold check_lies_in_single_mapping. pose proof (vi_intervals _ _ _ _ _ _ Hinv) as Hl.
  rewrite find_one_covering, (proj2 (covering_Some _ _ m Hl)) by done. by rewrite (proj2 (Z.leb_le _ _)) by lia.
Qed.

Lemma remap_move_unmap t s m old new :
  vinv t [] s -> m ∈ vm_mappings s -> map_to_addr m <= r_start old -> r_end old <= map_end m -> target s old new ->
  exists s', remap_move me (r_start old) (r_end old - r_start old) (r_end new - r_start new) old new Unmap s = Ret (Ok (r_start new), s') /\
    vinv t [] s' /\ moved_view Unmap m old new s s' /\ pages_moved 0 old new (vm_space s) (vm_space s').
Proof.
  intros Hinv Hm Hm1 Hm2 Ht. pose proof (target_apart s old new m Ht Hm Hm1 Hm2) as Hap.
  destruct Ht as [(Hlt & Hoa & Hob) (H0 & Hcap & Hna & Hnb) Hsz Hfree].
  unfold remap_move. rewrite (single_mapping_ok t s m) by (done || lia).
  destruct (detach_spec t s m old Hinv Hm Hm1 Hm2 Hlt Hoa Hob) as (s1 & s2 & w & s3 & s4 & -> & E2 & E3 & E4 & E5 & I5 & Hsp & V5 & B5).
  cbn [unwrap mbind run_bind]. rewrite E2. cbn [mbind run_bind]. rewrite E3. cbn [mbind run_bind]. rewrite E4.
  cbn [mbind run_bind]. rewrite E5. cbn [mbind run_bind]. rewrite clone_for_remap_at_eq.
  set (o := sub m (r_start old) (r_end old)) in *. assert (map_end o = r_end old) as Heo by apply map_end_sub.
  destruct (place_copy_spec t [o] s4 m (r_start old) (r_end old) (r_start new) (r_end new - r_start new - (r_end old - r_start old)) I5)
    as (c & s6 & Ec & E6 & I6 & Hsp6 & V6 & (u & Hu & U1 & U2 & U3) & _); [done..|lia|apply page_aligned_sub; by apply page_aligned_sub|lia| | |].
  { intros x Hx. destruct (B5 x Hx) as (y & Hy & ? & ?). destruct (Hfree y Hy); lia. }
  { exists o. split; [set_solver|apply tracked_sub]. }
  rewrite Ec. cbn [mbind run_bind]. rewrite E6. cbn [mbind run_bind].
  destruct (move_pt_spec t [o] s6 old new I6) as (s7 & -> & I7 & P7 & M7); [|lia|done|done| |].
  { constructor; [done|done|lia|]. exists o, u. split; [set_solver|]. split; [set_solver|]. rewrite Heo, U3. unfold o.
    rewrite rss_type_sub. cbn. split; [done|]. lia. }
  { intros k Hk. rewrite Hsp6, Hsp. apply (region_free_pages t s (r_start new) (r_end new - r_start new)); [done|done|lia]. }
  cbn [mbind run_bind]. eexists. split; [done|]. rewrite Hsp6, Hsp in P7. split; [|split; [|done]].
  - apply drop_inv; [done|]. intros k Hk. rewrite contains_iff, Heo in Hk. rewrite P7. rewrite decide_True; [done|]. cbn in Hk. lia.
  - intros x. vsimpl. rewrite M7, V6, V5. replace (r_start new + _ + _) with (r_end new) by lia. unfold inside.
    repeat case_decide; try done; tauto.
Qed.

Lemma remap_move_keep t s m old new :
  vinv t [] s -> m ∈ vm_mappings s -> map_to_addr m <= r_start old -> r_end old <= map_end m -> target s old new ->
  exists s', remap_move me (r_start old) (r_end old - r_start old) (r_end new - r_start new) old new Keep s = Ret (Ok (r_start new), s') /\
    vinv t [] s' /\ moved_view Keep m old new s s' /\ pages_moved 0 old new (vm_space s) (vm_space s').
Proof.
  intros Hinv Hm Hm1 Hm2 Ht. pose proof (target_apart s old new m Ht Hm Hm1 Hm2) as Hap.
  destruct Ht as [(Hlt & Hoa & Hob) (H0 & Hcap & Hna & Hnb) Hsz Hfree]. pose proof (vi_intervals _ _ _ _ _ _ Hinv) as Hl.
  assert (placed m) as ((Hms & Hma & _) & _) by (apply (vi_placed _ _ _ _ _ _ Hinv); set_solver).
  unfold remap_move. rewrite (single_mapping_ok t s m) by (done || lia).
  rewrite find_one_covering, (proj2 (covering_Some _ _ m Hl)) by first [done | split; [done|rewrite contains_iff; unfold map_end; lia]].
  cbn [unwrap mbind run_bind]. rewrite clone_range_for_remap_at_eq by (done || lia). cbn [mbind run_bind].
  replace (r_start old + (r_end old - r_start old)) with (r_end old) by lia.
  destruct (place_copy_spec t [] s m (r_start old) (r_end old) (r_start new) (r_end new - r_start new - (r_end old - r_start old)) Hinv)
    as (c & s6 & Ec & E6 & I6 & Hsp6 & V6 & (u & Hu & U1 & U2 & U3) & W6); [done..|lia|apply page_aligned_sub; by apply page_aligned_sub|lia| | |].
  { intros x Hx. rewrite app_nil_r in Hx. destruct (Hfree x Hx); lia. }
  { exists m. set_solver. }
  rewrite Ec. cbn [mbind run_bind]. rewrite E6. cbn [mbind run_bind]. destruct (W6 m Hm) as (v & Hv & Hv1 & Hv2 & Hv3).
  destruct (move_pt_spec t [] s6 old new I6) as (s7 & -> & I7 & P7 & M7); [|lia|done|done| |].
  { constructor; [done|done|lia|]. exists v, u. rewrite app_nil_r. split; [done|]. split; [done|]. split; [congruence|]. lia. }
  { intros k Hk. rewrite Hsp6. apply (region_free_pages t s (r_start new) (r_end new - r_start new)); [done|done|lia]. }
  cbn [mbind run_bind]. eexists. split; [done|]. rewrite Hsp6 in P7. split; [done|]. split; [|done].
  intros x. rewrite M7, V6. replace (r_start new + _ + _) with (r_end new) by lia. unfold inside.
  repeat case_decide; try done; naive_solver.
Qed.

Lemma remap_move_spec t s old new action :
  vinv t [] s -> target s old new ->
  exists res s', remap_move me (r_start old) (r_end old - r_start old) (r_end new - r_start new) old new action s = Ret (res, s') /\
    vinv t [] s' /\
    match res with
    | Ok a => a = r_start new /\ exists m, m ∈ vm_mappings s /\ map_to_addr m <= r_start old /\ r_end old <= map_end m /\
        moved_view action m old new s s' /\ pages_moved 0 old new (vm_space s) (vm_space s')
    | Err e => e = EFAULT /\ s' = s
    end.
Proof.
  intros Hinv Ht. pose proof (single_mapping_spec t s (r_start old) (r_end old - r_start old) Hinv) as Hs.
  destruct (check_lies_in_single_mapping s (r_start old) (r_end old - r_start old)) as [k|e] eqn:E.
  - destruct Hs as (m & Hm & _ & ? & ?).
    destruct action; [destruct (remap_move_unmap t s m old new Hinv Hm) as (s' & -> & ?)|destruct (remap_move_keep t s m old new Hinv Hm) as (s' & -> & ?)];
      try done; try lia; (eexists _, _; split; [done|]; split; [tauto|]; split; [done|]; exists m; split; [done|]; split; [lia|]; split; [lia|tauto]).
  - destruct Hs as [-> _]. unfold remap_move. rewrite E. by eexists _, _.
Qed.
End remap.

(** ** The whole of [remap] *)

(** The attributes further on in the same mapping. *)
Definition attr_shift (at_ : Attr) (d : Z) : Attr :=
  mkAttr (a_perms at_) (a_mode at_) (a_file at_) (a_around at_)
    (match a_backing at_ with
     | OnAnonymous => OnAnonymous
     | OnVmo v o => OnVmo v (o + d)
     | OnDevice o => OnDevice (MappedObject_dup_at_offset o d)
     end).

Lemma attr_at_shift m a x : attr_at m x = attr_shift (attr_at m a) (x - a).
Proof.
  unfold attr_at, attr_shift. cbn. f_equal. destruct (mapped_mem m) as [|v|[|b o]]; cbn; try done; [f_equal|do 2 f_equal]; lia.
Qed.

(** Nothing is left in some ranges. *)
Definition removed (rs : list Range) (s s' : Vmar) : Prop :=
  (forall x, view (vm_mappings s') x = if decide (Exists (fun r => inside r x) rs) then None else view (vm_mappings s) x) /\
  (forall k, vm_space s' !! k = if decide (Exists (fun r => inside r k) rs) then None else vm_space s !! k).

Lemma removed_nil s : removed [] s s.
Proof. split; intros x; by rewrite decide_False by (intros H; by apply Exists_nil in H). Qed.

Lemma removed_cons rs r s s1 s2 : removed rs s s1 -> truncated r s1 s2 -> removed (r :: rs) s s2.
Proof.
  intros [V1 P1] [V2 P2]. split; intros x.
  - rewrite V2, V1. pose proof (Exists_cons (fun r => inside r x) r rs). repeat case_decide; try done; tauto.
  - rewrite P2, P1. pose proof (Exists_cons (fun r => inside r x) r rs). repeat case_decide; try done; tauto.
Qed.

Section whole.
Context (me : nat) (base : nat -> Z) (others : nat -> nat -> list RmapEntry) (rlimit_as : option Z).
Notation vinv := (vmar_inv me base others).

(** What [remap] unmaps on its way: the end of the old range when it shrinks, and the new range when it
    is given. *)
Definition remap_cut (a old new : Z) : list Range := if decide (new < old) then [mkRange (a + new) (a + old)] else [].
Definition remap_over (na : option Z) (new : Z) : list Range :=
  match na with Some na => [mkRange na (na + new)] | None => [] end.

(** The mapping and its pages have gone from [a, a + old) to [r, r + new). *)
Record remapped (a old new r : Z) (action : RemapOldMappingAction) (s s' : Vmar) : Prop := {
  rd_old : exists at_, view (vm_mappings s) a = Some at_ /\
    (forall x, a <= x < a + Z.min old new -> view (vm_mappings s) x = Some (attr_shift at_ (x - a))) /\
    (forall x, r <= x < r + new -> view (vm_mappings s') x = Some (attr_shift at_ (x - r)));
  rd_rest : forall x, ~ (r <= x < r + new) -> view (vm_mappings s') x =
    if decide (a <= x < a + old /\ ~ (action = Keep /\ x < a + new)) then None else view (vm_mappings s) x;
  rd_pages : forall k, vm_space s' !! k =
    if decide (r <= k < r + Z.min old new) then vm_space s !! (k - (r - a))
    else if decide (a <= k < a + old \/ r <= k < r + new) then None else vm_space s !! k
}.

Definition remap_outcome (a old : Z) (na : option Z) (new : Z) (action : RemapOldMappingAction) (s s' : Vmar) (res : result Z) : Prop :=
  match res with
  | Ok r =>
      match na with
      | Some na => r = na
      | None => page_aligned r /\ (r = a /\ action = Unmap \/ region_free (vm_mappings s) r new)
      end /\ remapped a old new r action s s'
  | Err e =>
      (e = EINVAL /\ s' = s) \/
      ((e = EFAULT \/ e = ENOMEM) /\ (s' = s \/ removed (remap_over na new ++ remap_cut a old new) s s'))
  end.

(** From the state after the cuts to the state before them. *)
Lemma remapped_after a old new r rs action s0 s m s' :
  intervals (vm_mappings s0) -> intervals (vm_mappings s) -> removed rs s0 s -> 0 < old -> 0 < new ->
  (forall x, Exists (fun q => inside q x) rs -> a + new <= x < a + old \/ r <= x < r + new) ->
  (forall x, a + new <= x < a + old -> Exists (fun q => inside q x) rs) ->
  r + new <= a \/ a + old <= r ->
  m ∈ vm_mappings s -> map_to_addr m <= a -> a + Z.min old new <= map_end m ->
  moved_view action m (mkRange a (a + Z.min old new)) (mkRange r (r + new)) s s' ->
  pages_moved 0 (mkRange a (a + Z.min old new)) (mkRange r (r + new)) (vm_space s) (vm_space s') ->
  (forall k, r <= k < r + new -> vm_space s !! k = None) ->
  remapped a old new r action s0 s'.
Proof.
  intros Hl0 Hl [Rv Rp] Ho Hn Hrs Hcut Hap Hm Hm1 Hm2 Hv Hp Hfree.
  assert (forall x, a <= x < a + Z.min old new -> view (vm_mappings s0) x = Some (attr_at m x)) as Hold.
  { intros x Hx. rewrite <- (view_Some _ x m Hl Hm) by (rewrite contains_iff; lia). rewrite Rv. rewrite decide_False; [done|].
    intros Hex. specialize (Hrs x Hex). lia. }
  constructor.
  - exists (attr_at m a). split; [apply Hold; lia|]. split.
    + intros x Hx. rewrite Hold by done. f_equal. apply attr_at_shift.
    + intros x Hx. rewrite Hv. unfold inside. cbn [r_start r_end]. rewrite decide_True by lia. f_equal.
      rewrite (attr_at_shift m a). f_equal. lia.
  - intros x Hx. rewrite Hv. unfold inside. cbn [r_start r_end]. rewrite decide_False by lia. rewrite Rv.
    pose proof (Hrs x) as Hx1. pose proof (Hcut x) as Hx2. destruct (decide (a + new <= x < a + old)) as [Hc|Hc].
    + rewrite (decide_True (P := Exists _ rs)) by auto. rewrite (decide_True (P := _ /\ ~ _)); [by case_decide|].
      split; [lia|]. intros [_ ?]. lia.
    + rewrite (decide_False (P := Exists _ rs)) by (intros Hex; specialize (Hx1 Hex); lia). apply decide_ext.
      destruct action; split; [intros [_ ?]; split; [lia|by intros [? _]]|intros [? _]; split; [done|lia]|by intros [? _]|].
      intros [? Hk]. exfalso. apply Hk. split; [done|lia].
  - intros k. rewrite Hp. cbn [r_start r_end]. pose proof (Hrs k) as Hk. pose proof (Hcut k) as Hk'. rewrite !Z.add_0_r.
    replace (r + (a + Z.min old new - a)) with (r + Z.min old new) by lia.
    destruct (decide (r <= k < r + Z.min old new)) as [Hin|Hin].
    { rewrite decide_False by lia. rewrite Rp. rewrite decide_False; [done|]. intros Hex. specialize (Hrs _ Hex). lia. }
    destruct (decide (a <= k < a + old \/ r <= k < r + new)) as [Hin'|Hout].
    + destruct (decide (a <= k < a + Z.min old new)); [done|]. destruct (decide (r <= k < r + new)); [by apply Hfree|].
      rewrite Rp, decide_True; [done|]. apply Hk'. lia.
    + rewrite decide_False by lia. rewrite Rp, decide_False; [done|]. intros Hex. specialize (Hk Hex). lia.
Qed.

(** What [mremap] guarantees about the arguments: keeping the old mapping goes with an equal size, and
    without a new address [remap] is only used to grow or to keep. *)
Record remap_args (a old : Z) (na : option Z) (new : Z) (action : RemapOldMappingAction) : Prop := {
  ra_aligned : page_aligned a /\ page_aligned old /\ page_aligned new;
  ra_sizes : 0 <= a /\ 0 < old /\ 0 < new;
  ra_keep : action = Keep -> new = old;
  ra_grow : na = None -> old <= new /\ (action = Unmap -> old < new)
}.

Lemma region_free_view l a n :
  intervals l -> (forall x, a <= x < a + n -> view l x = None) -> 0 < n -> region_free l a n.
Proof.
  intros Hl Hv Hn m Hm. destruct (Z_le_dec (map_end m) a); [by left|]. destruct (Z_le_dec (a + n) (map_to_addr m)); [by right|]. exfalso.
  assert (map_to_addr m < map_end m) by exact (intervals_nonempty l m Hl Hm).
  apply (view_None_inv l (Z.max a (map_to_addr m)) m); [apply Hv; lia|done|]. rewrite contains_iff. lia.
Qed.

(** Moving, after the cuts. *)
Lemma remap_move_after a old new r rs action s0 s :
  vinv 0 [] s0 -> vinv 0 [] s -> removed rs s0 s -> page_aligned a -> page_aligned old -> page_aligned new -> 0 < old -> 0 < new ->
  (forall x, Exists (fun q => inside q x) rs -> a + new <= x < a + old \/ r <= x < r + new) ->
  (forall x, a + new <= x < a + old -> Exists (fun q => inside q x) rs) ->
  (old <= new \/ r + new <= a \/ a + old <= r) ->
  page_aligned r -> 0 <= r -> r + new <= VMAR_CAP_ADDR -> region_free (vm_mappings s) r new ->
  exists res s', remap_move me a (Z.min old new) new (mkRange a (a + Z.min old new)) (mkRange r (r + new)) action s = Ret (res, s') /\
    vinv 0 [] s' /\ match res with Ok r' => r' = r /\ remapped a old new r action s0 s' | Err e => e = EFAULT /\ s' = s end.
Proof.
  intros Hinv0 Hinv Hrem Haa Hao Han Ho Hn Hrs Hcut Hap Hra Hr0 Hrc Hfree.
  assert (page_aligned (a + Z.min old new)) as Hmin.
  { apply page_aligned_add; [done|]. by destruct (Z.min_spec old new) as [[_ ->]|[_ ->]]. }
  assert (target s (mkRange a (a + Z.min old new)) (mkRange r (r + new))) as Ht.
  { constructor; cbn [r_start r_end]; [split; [lia|done]| |lia|by replace (r + new - r) with new by lia].
    split; [done|]. split; [done|]. split; [done|by apply page_aligned_add]. }
  destruct (remap_move_spec me base others 0 s _ _ action Hinv Ht) as (res & s' & E & I & Hres). cbn [r_start r_end] in *.
  replace (a + Z.min old new - a) with (Z.min old new) in E by lia. replace (r + new - r) with new in E by lia.
  exists res, s'. split; [done|]. split; [done|]. destruct res as [r'|e]; [|done].
  destruct Hres as (-> & m & Hm & Hm1 & Hm2 & Hv & Hp). split; [done|].
  pose proof (target_apart s _ _ m Ht Hm Hm1 Hm2) as Hta. cbn [r_start r_end] in Hta.
  apply (remapped_after a old new r rs action s0 s m); try done; try lia.
  - apply (vi_intervals _ _ _ _ _ _ Hinv0).
  - apply (vi_intervals _ _ _ _ _ _ Hinv).
  - intros k Hk. by apply (region_free_pages me base others 0 s r new).
Qed.

(** Growing in place. *)
Lemma remap_in_place_spec a old new s :
  vinv 0 [] s -> page_aligned old -> page_aligned new -> 0 < old < new -> a + new <= VMAR_CAP_ADDR ->
  region_free (vm_mappings s) (a + old) (new - old) ->
  exists res s', remap_in_place me a old new (mkRange a (a + old)) s = Ret (res, s') /\ vinv 0 [] s' /\
    match res with Ok r => r = a /\ remapped a old new a Unmap s s' | Err e => e = EFAULT /\ s' = s end.
Proof.
  intros Hinv Hao Han Hlt Hcap Hfree. unfold remap_in_place. pose proof (vi_intervals _ _ _ _ _ _ Hinv) as Hl.
  pose proof (single_mapping_spec me base others 0 s a old Hinv) as Hs.
  destruct (check_lies_in_single_mapping s a old) as [k|e]; [|destruct Hs as [-> _]; by eexists _, _].
  destruct Hs as (m & Hm & -> & Hc & Hend). assert (map_end m = a + old) as He by (destruct (Hfree m Hm); lia).
  destruct (grow_spec me base others 0 s m (new - old) Hinv Hm) as (s1 & s2 & m' & s3 & -> & E2 & E3 & E4 & I & (Gv & Gp & _) & _);
    [lia|by apply page_aligned_sub|lia|by rewrite He|].
  cbn [unwrap mbind run_bind]. rewrite E2. cbn [mbind run_bind]. rewrite E3. cbn [mbind run_bind]. rewrite E4. cbn [mbind run_bind].
  eexists _, _. split; [done|]. split; [done|]. split; [done|]. rewrite He in Gv.
  assert (forall x, a <= x < a + old -> view (vm_mappings s) x = Some (attr_at m x)) as Hold.
  { intros x Hx. apply view_Some; [done|done|]. rewrite contains_iff. lia. }
  constructor.
  - exists (attr_at m a). split; [apply Hold; lia|]. split; intros x Hx; [rewrite Hold by lia; f_equal; apply attr_at_shift|].
    rewrite Gv. rewrite <- attr_at_shift. case_decide; [done|]. apply Hold. lia.
  - intros x Hx. rewrite Gv, decide_False, decide_False; [done|intros [? _]; lia|lia].
  - intros k. rewrite Gp. replace (k - (a - a)) with k by lia. repeat case_decide; try lia; try done.
    apply (region_free_pages me base others 0 s (a + old) (new - old)); [done|done|lia].
Qed.

Lemma remap_check_old_spec a old new s :
  match remap_check_old rlimit_as a old new s with
  | Ok _ => a + old < u64_modulus
  | Err e => e = EFAULT \/ e = EINVAL \/ e = ENOMEM
  end.
Proof.
  unfold remap_check_old, checked_add. destruct (find_one a (vm_mappings s)) as [m|]; [|by left].
  destruct (old <? new).
  - destruct (can_expand m); cbn [negb]; [|by left]. destruct (vmo m) as [v|]; cbn.
    + destruct (Z.ltb_spec (mv_offset v + (a - map_to_addr m) + new) u64_modulus); cbn; [|tauto]. destruct (rlimit_cases rlimit_as s (new - old)) as [-> | ->]; cbn; [|tauto].
      destruct (Z.ltb_spec (a + old) u64_modulus); cbn; [lia|tauto].
    + destruct (rlimit_cases rlimit_as s (new - old)) as [-> | ->]; cbn; [|tauto].
      destruct (Z.ltb_spec (a + old) u64_modulus); cbn; [lia|tauto].
  - cbn. destruct (Z.ltb_spec (a + old) u64_modulus); cbn; [lia|tauto].
Qed.

(** The end of the old range is unmapped when it is too long. *)
Lemma remap_shrink_spec a old new s :
  vinv 0 [] s -> page_aligned a -> page_aligned old -> page_aligned new -> 0 < new ->
  exists s', (if new <? old then
                '(_, s) ← alloc_free_region_exact_truncate me (a + new) (old - new) s;
                Ret (new, mkRange a (a + new), s)
              else Ret (old, mkRange a (a + old), s)) = Ret (Z.min old new, mkRange a (a + Z.min old new), s') /\
    vinv 0 [] s' /\ removed (remap_cut a old new) s s'.
Proof.
  intros Hinv Haa Hao Han Hn. unfold remap_cut. destruct (Z.ltb_spec new old) as [Hlt|Hge].
  - destruct (alloc_free_region_exact_truncate_spec me base others 0 s (a + new) (old - new)) as (s' & -> & I & T & _);
      [done|lia|by apply page_aligned_add|by apply page_aligned_sub|].
    cbn [mbind run_bind]. exists s'. rewrite Z.min_r, decide_True by lia. split; [done|]. split; [done|].
    replace (a + new + (old - new)) with (a + old) in T by lia. by apply (removed_cons [] _ s s s' (removed_nil s)).
  - exists s. rewrite Z.min_l, decide_False by lia. split; [done|]. split; [done|]. apply removed_nil.
Qed.

Lemma remap_locked_fixed a old na new action s :
  vinv 0 [] s -> remap_args a old (Some na) new action -> remap_check_new a old (Some na) new = Ok tt ->
  exists res s', remap_locked me rlimit_as a old (Some na) new action s = Ret (res, s') /\ vinv 0 [] s' /\
    match res with
    | Ok r => r = na /\ remapped a old new na action s s'
    | Err e => (e = EFAULT \/ e = EINVAL \/ e = ENOMEM) /\ s' = s \/ e = EFAULT /\ removed (remap_over (Some na) new ++ remap_cut a old new) s s'
    end.
Proof.
  intros Hinv [(Haa & Hao & Han) (H0 & Ho & Hn) _ _] Hnew. unfold remap_locked. pose proof (remap_check_old_spec a old new s) as Hold.
  destruct (remap_check_old rlimit_as a old new s) as [[]|e]; [|by eexists _, _; split; [done|]; split; [done|]; left].
  unfold remap_check_new in Hnew. destruct (is_multiple_of na PAGE_SIZE) eqn:Hna; [|done]. rewrite is_multiple_of_spec in Hna.
  destruct (is_userspace_vaddr_range na new) eqn:Hus; [|done]. cbn [negb orb] in Hnew. rewrite userspace_range_spec in Hus.
  unfold is_intersected in Hnew. cbn [r_start r_end] in Hnew. destruct (Z.ltb_spec (Z.max a na) (Z.min (Z.min (a + old) (u64_modulus - 1)) (na + new))); [done|].
  destruct (remap_shrink_spec a old new s Hinv Haa Hao Han Hn) as (s1 & -> & I1 & R1). cbn [mbind run_bind].
  destruct (alloc_free_region_exact_truncate_spec me base others 0 s1 na new) as (s2 & -> & I2 & T2 & _); [done|done|done|done|].
  cbn [mbind run_bind]. pose proof (removed_cons _ _ _ _ _ R1 T2) as R2.
  destruct (remap_move_after a old new na (mkRange na (na + new) :: remap_cut a old new) action s s2) as (res & s' & -> & I3 & Hres); try done.
  - intros x [Hx|Hx]%Exists_cons; [by right|]. left. unfold remap_cut in Hx. case_decide; [|by apply Exists_nil in Hx].
    by apply Exists_cons in Hx as [Hx|Hx%Exists_nil].
  - intros x Hx. apply Exists_cons. right. unfold remap_cut. rewrite decide_True by lia. by apply Exists_cons; left.
  - lia.
  - unfold VMAR_LOWEST_ADDR in Hus. lia.
  - lia.
  - apply region_free_view; [apply (vi_intervals _ _ _ _ _ _ I2)| |done]. intros x Hx. destruct T2 as [-> _]. by rewrite decide_True.
  - eexists _, _. split; [done|]. split; [done|]. destruct res as [r|e]; [done|]. destruct Hres as [-> ->]. by right.
Qed.

(** [alloc_free_region] finds a free region below the stack, or there is none. *)
Lemma alloc_free_region_spec t s n :
  vinv t [] s -> 0 < n ->
  exists res, alloc_free_region n PAGE_SIZE s = Ret res /\
    match res with
    | Ok r => exists a, r = mkRange a (a + n) /\ page_aligned a /\ 0 <= a /\ a + n <= VMAR_CAP_ADDR /\ region_free (vm_mappings s) a n
    | Err e => e = ENOMEM
    end.
Proof.
  intros Hinv Hn. unfold alloc_free_region.
  destruct (alloc_free_region_in_range_spec me base others t [] s n PAGE_SIZE VMAR_LOWEST_ADDR (VMAR_CAP_ADDR - INIT_STACK_SIZE - PAGE_SIZE * 2048))
    as (res & -> & Hres); try done. exists res. split; [done|]. destruct res as [[a b]|e]; [|apply Hres].
  destruct Hres as (E & (C1 & C2 & C3 & C4) & _). cbn in E, C1, C2, C3, C4. subst b. exists a. split; [done|]. split; [done|].
  unfold VMAR_LOWEST_ADDR, INIT_STACK_SIZE, PAGE_SIZE in *. split; [lia|]. split; [lia|done].
Qed.

Lemma remap_locked_any a old new action s :
  vinv 0 [] s -> remap_args a old None new action ->
  exists res s', remap_locked me rlimit_as a old None new action s = Ret (res, s') /\ vinv 0 [] s' /\
    match res with
    | Ok r => (page_aligned r /\ (r = a /\ action = Unmap \/ region_free (vm_mappings s) r new)) /\ remapped a old new r action s s'
    | Err e => (e = EFAULT \/ e = EINVAL \/ e = ENOMEM) /\ s' = s
    end.
Proof.
  intros Hinv [(Haa & Hao & Han) (H0 & Ho & Hn) _ Hg]. destruct (Hg eq_refl) as [Hle Hgrow].
  unfold remap_locked. pose proof (remap_check_old_spec a old new s) as Hold.
  destruct (remap_check_old rlimit_as a old new s) as [[]|e]; [|by eexists _, _].
  rewrite (proj2 (Z.ltb_ge new old)) by lia. cbn [mbind run_bind r_start r_end]. pose proof (vi_intervals _ _ _ _ _ _ Hinv) as Hl.
  destruct (bool_decide (action = Unmap) && is_userspace_vaddr_range a new && is_ok (alloc_free_region_exact (a + old) (new - old) s)) eqn:Hfast.
  - rewrite !andb_true_iff, bool_decide_eq_true, userspace_range_spec in Hfast. destruct Hfast as [[-> Hus] Hex].
    specialize (Hgrow eq_refl). pose proof (alloc_free_region_exact_spec (vm_mappings s) (a + old) (new - old) s eq_refl Hl) as Hspec.
    destruct (alloc_free_region_exact (a + old) (new - old) s); [|done]. destruct Hspec as [_ Hfree]; [lia|].
    destruct (remap_in_place_spec a old new s Hinv Hao Han) as (res & s' & -> & I & Hres); [lia|lia|done|].
    eexists _, _. split; [done|]. split; [done|]. destruct res as [r|e]; [destruct Hres as [-> ?]; by auto|destruct Hres as [-> ->]; by auto].
  - destruct (alloc_free_region_spec 0 s new Hinv Hn) as (res & -> & Hres). cbn [mbind run_bind].
    destruct res as [r|e]; [|subst e; eexists _, _; split; [done|]; by auto].
    destruct Hres as (r0 & -> & Hra & Hr0 & Hrc & Hfree).
    destruct (remap_move_after a old new r0 [] action s s) as (res & s' & E & I & Hres); 
      first [done | apply removed_nil | by intros x Hx%Exists_nil | intros; lia | idtac].
    rewrite Z.min_l in E by done. rewrite E. eexists _, _. split; [done|]. split; [done|].
    destruct res as [r|e]; [destruct Hres as [-> ?]; by auto|destruct Hres as [-> ->]; by auto].
Qed.

(** [remap] moves or grows the mapping with its pages, or fails; a failure changes nothing but what is
    unmapped on the way. *)
Lemma remap_spec a old na new action s :
  resting me base others s -> remap_args a old na new action ->
  exists res s', remap me rlimit_as a old na new action s = Ret (res, s') /\ resting me base others s' /\
    remap_outcome a old na new action s s' res.
Proof.
  intros Hrest Hargs. pose proof (resting_start _ _ _ _ Hrest) as Hinv. pose proof (resting_idle me base others s Hrest) as Hid.
  unfold remap. pose proof (ra_aligned _ _ _ _ _ Hargs) as (Haa & Hao & Han).
  rewrite !(proj2 (is_multiple_of_spec _)) by done. cbn [assert_run mbind run_bind].
  destruct (remap_check_new a old na new) as [[]|e] eqn:Hnew.
  2: { eexists _, _. split; [done|]. split; [done|]. left. split; [|done]. unfold remap_check_new in Hnew. repeat case_match; congruence. }
  destruct na as [na|].
  - destruct (remap_locked_fixed a old na new action (RssDelta_new s) Hinv Hargs Hnew) as (res & s' & -> & I & Hres). cbn [mbind run_bind].
    eexists _, _. split; [done|]. split; [by apply resting_end|]. destruct res as [r|e].
    + destruct Hres as [-> [? ? ?]]. split; [done|]. by constructor.
    + destruct Hres as [[He ->]|[-> R]]; [rewrite Hid; cbn; tauto|]. right. split; [by left|]. by right.
  - destruct (remap_locked_any a old new action (RssDelta_new s) Hinv Hargs) as (res & s' & -> & I & Hres). cbn [mbind run_bind].
    eexists _, _. split; [done|]. split; [by apply resting_end|]. destruct res as [r|e].
    + destruct Hres as [Hr [? ? ?]]. split; [done|]. by constructor.
    + destruct Hres as [He ->]. rewrite Hid. cbn. tauto.
Qed.
End whole.
