(* ===== verification/VmarMap.v ===== *)
(** * New mappings

    [VmarMapOptions::build] of [map.rs]: where a new mapping goes, what is behind it, and what happens to
    the address space when it cannot be made. *)

From S2P Require Import Prelude Flags Align IntervalSet VmMapping Vmar VmarInv VmarOps VmarRegion VmarPages VmarUnmap VmarRemap.

Lemma sum_overlap_spec r ms :
  (forall m, m ∈ ms -> overlaps r m /\ placed m) -> r_start r < r_end r -> sum_overlap r ms = Ret (tally (meet_size r) ms).
Proof.
  intros Hms Hr. induction ms as [|m ms IH]; [done|]. cbn [sum_overlap]. destruct (Hms m) as [Ho Hp]; [by left|].
  rewrite get_intersected_eq by done. cbn [mbind run_bind]. rewrite IH by (intros x Hx; apply Hms; by right). cbn [mbind run_bind].
  by rewrite tally_cons.
Qed.

Lemma multiple_of_multiple a n : is_multiple_of n PAGE_SIZE = true -> n <> 0 -> a mod n = 0 -> page_aligned a.
Proof.
  unfold is_multiple_of, page_aligned. intros Hn%Z.eqb_eq Hz Ha. apply Z.mod_divide in Hn; [|done].
  apply Z.mod_divide; [done|]. apply Z.mod_divide in Ha; [|done]. by apply (Z.divide_trans _ n).
Qed.

Lemma MappedVmo_new_spec v offset track w :
  match MappedVmo_new v offset track w with
  | Err e => e = EPERM
  | Ok (mv, w') => mv = mkMappedVmo v offset track /\ forall m, mapped_mem m = Vmo mv ->
      status_delta m 1 w w' /\ forall id, tracked m = Some id -> 0 <= status w id
  end.
Proof.
  unfold MappedVmo_new, WritableMappingStatus_map. destruct track; cbn.
  - destruct (Z.leb_spec 0 (writable_mapping_status (w !!! v))) as [Hle|]; cbn; [|done]. split; [done|]. intros m Hm.
    pose proof (status_delta_add m 1 w) as Hs. unfold add_tracked in Hs. unfold tracked in *. rewrite Hm in *. cbn in Hs |- *.
    split; [exact Hs|]. by intros id [= <-].
  - split; [done|]. intros m Hm. unfold status_delta, tracks, tracked. rewrite Hm. cbn [is_writable_tracked]. split; [|done].
    split; [|done]. intros id. rewrite decide_False by done. lia.
Qed.

Section build.
Context (me : nat) (base : nat -> Z) (others : nat -> nat -> list RmapEntry) (rlimit_as : option Z).
Notation vinv := (vmar_inv me base others).
Notation rest := (resting me base others).

(** The bytes mapped in a range. *)
Definition overlap_size (r : Range) (s : Vmar) : Z := tally (meet_size r) (filter (overlaps r) (vm_mappings s)).

Lemma count_overlap_size_spec t h r s :
  vinv t h s -> r_start r < r_end r -> count_overlap_size r s = Ret (overlap_size r s).
Proof.
  intros Hinv Hr. unfold count_overlap_size. rewrite find_all_spec by (done || apply (vi_intervals _ _ _ _ _ _ Hinv)).
  cbn [mbind run_bind]. apply sum_overlap_spec; [|done]. intros m [Ho Hm]%list_elem_of_filter. split; [done|].
  apply (vi_placed _ _ _ _ _ _ Hinv). set_solver.
Qed.

(** What the callers of [build] guarantee: the size is not zero, an address that is given lies in user
    space with the whole mapping, and a device installs its pages at page boundaries. *)
Record options_ok (o : VmarMapOptions) : Prop := {
  oo_size : 0 < o_size o;
  oo_addr : match o_offset o with
            | FixedReplace a | FixedNoReplace a | Hint a => 0 <= a /\ a + o_size o <= VMAR_CAP_ADDR
            | Map32Bit _ | Any => True
            end;
  oo_device : forall installs res, o_mappable o = Some (MappableDevice installs res) ->
    Forall (fun i => 0 <= i.1 /\ page_aligned i.1) installs
}.

(** What [check_options] finds out. *)
Lemma check_options_spec `{BF : Bitflags} o :
  match check_options o with
  | Ok _ =>
      is_multiple_of (o_align o) PAGE_SIZE = true /\ is_power_of_two (o_align o) = true /\
      is_multiple_of (o_size o) (o_align o) = true /\ is_multiple_of (o_vmo_offset o) (o_align o) = true /\
      match o_offset o with
      | FixedReplace a | FixedNoReplace a | Hint a | Map32Bit (Some a) => is_multiple_of a (o_align o) = true
      | Map32Bit None | Any => True
      end /\ check_perms o = Ok tt
  | Err e => e = EINVAL \/ e = EACCES
  end.
Proof.
  assert (check_perms o = Ok tt \/ check_perms o = Err EACCES) as Hp.
  { unfold check_perms, VmPerms_check. repeat case_match; tauto. }
  unfold check_options. destruct (is_multiple_of (o_align o) PAGE_SIZE), (is_power_of_two (o_align o)); cbn [negb orb]; try tauto.
  destruct (is_multiple_of (o_size o) (o_align o)); cbn [negb]; [|tauto].
  destruct (is_multiple_of (o_vmo_offset o) (o_align o)); cbn [negb]; [|tauto].
  destruct (o_offset o) as [a|a|a|[a|]|]; try (destruct (is_multiple_of a (o_align o)); cbn; [|tauto]);
    cbn; destruct Hp as [-> | ->]; tauto.
Qed.

(** Where the new mapping may be. *)
Definition place_ok (o : VmarMapOptions) (addr : Z) (s : Vmar) : Prop :=
  match o_offset o with
  | FixedReplace a => addr = a
  | FixedNoReplace a => addr = a /\ region_free (vm_mappings s) a (o_size o)
  | Hint a => region_free (vm_mappings s) addr (o_size o) /\ (addr = a \/ ~ region_free (vm_mappings s) a (o_size o))
  | Map32Bit _ => region_free (vm_mappings s) addr (o_size o) /\ VMAR_LOWEST_ADDR <= addr /\ addr + o_size o <= MAP_32BIT_HIGH_LIMIT
  | Any => region_free (vm_mappings s) addr (o_size o)
  end.

(** Nothing but a replaced range has changed. *)
Definition replaced (o : VmarMapOptions) (s s' : Vmar) : Prop :=
  match o_offset o with
  | FixedReplace a =>
      truncated (mkRange a (a + o_size o)) s s' /\ total_vm s' = total_vm s - overlap_size (mkRange a (a + o_size o)) s
  | _ => s' = s
  end.

Lemma truncate_region_free a n s s' :
  rest s' -> 0 < n -> truncated (mkRange a (a + n)) s s' -> region_free (vm_mappings s') a n.
Proof.
  intros [Hinv _] Hn [Hv _]. apply region_free_view; [apply (vi_intervals _ _ _ _ _ _ Hinv)| |done]. intros x Hx. rewrite Hv. by rewrite decide_True.
Qed.

(** The outcome of the search for an address. *)
Definition alloc_outcome (o : VmarMapOptions) (s s' : Vmar) (res : result Z) : Prop :=
  match res with
  | Ok addr =>
      place_ok o addr s /\ replaced o s s' /\ region_free (vm_mappings s') addr (o_size o) /\
      page_aligned addr /\ 0 <= addr /\ addr + o_size o <= VMAR_CAP_ADDR
  | Err e =>
      s' = s /\
      match o_offset o with
      | FixedReplace _ => False
      | FixedNoReplace a => e = EEXIST /\ ~ region_free (vm_mappings s) a (o_size o)
      | _ => e = ENOMEM
      end
  end.

(** The regions that the kernel chooses. *)
Lemma choose_region s size align low high :
  rest s -> 0 < size -> is_multiple_of align PAGE_SIZE = true -> is_power_of_two align = true -> 0 <= low -> high <= VMAR_CAP_ADDR ->
  exists res, alloc_free_region_in_range size align low high s = Ret res /\
    match region_start res with
    | Ok a => region_free (vm_mappings s) a size /\ page_aligned a /\ low <= a /\ a + size <= high
    | Err e => e = ENOMEM
    end.
Proof.
  intros [Hinv _] Hs Hm Hp Hlow Hhigh. assert (2 <= align) as Ha.
  { unfold is_power_of_two in Hp. unfold is_multiple_of, PAGE_SIZE in Hm. boolify. apply Z.mod_divide in Hm as [k ->]; [|done]. lia. }
  destruct (alloc_free_region_in_range_spec me base others 0 [] s size align low high) as (res & -> & Hres); try done.
  exists res. split; [done|]. destruct res as [r|e]; [|apply Hres]. destruct Hres as (_ & (C1 & C2 & C3 & C4) & _).
  split; [done|]. split; [|done]. apply (multiple_of_multiple _ align); [done|lia|done].
Qed.

Lemma exact_iff s a n :
  rest s -> 0 < n -> is_ok (alloc_free_region_exact a n s) = true <-> region_free (vm_mappings s) a n.
Proof.
  intros [Hinv _] Hn. pose proof (vi_intervals _ _ _ _ _ _ Hinv) as Hl.
  pose proof (alloc_free_region_exact_spec (vm_mappings s) a n s eq_refl Hl Hn) as He.
  destruct (alloc_free_region_exact a n s); cbn; [tauto|]. split; [done|]. intros Hf. destruct He as (_ & m & Hm & Ho).
  rewrite overlaps_iff in Ho. cbn in Ho. destruct (Hf m Hm); lia.
Qed.

Lemma build_choose o s low high :
  rest s -> 0 < o_size o -> is_multiple_of (o_align o) PAGE_SIZE = true -> is_power_of_two (o_align o) = true ->
  0 <= low -> high <= VMAR_CAP_ADDR -> match o_offset o with FixedReplace _ | FixedNoReplace _ => False | _ => True end ->
  (forall a, low <= a -> a + o_size o <= high -> region_free (vm_mappings s) a (o_size o) -> place_ok o a s) ->
  exists res s', (r ← alloc_free_region_in_range (o_size o) (o_align o) low high s; Ret (region_start r, s)) = Ret (res, s') /\
    rest s' /\ alloc_outcome o s s' res.
Proof.
  intros Hrest Hsz Hal Hpow Hlow Hhigh Hkind Hplace.
  destruct (choose_region s (o_size o) (o_align o) low high) as (res & -> & Hres); try done.
  cbn [mbind run_bind]. eexists _, _. split; [done|]. split; [done|]. destruct (region_start res) as [a|e]; cbn.
  - destruct Hres as (? & ? & ? & ?). split; [by apply Hplace|]. split; [unfold replaced; by destruct (o_offset o)|].
    split_and!; try done; lia.
  - split; [done|]. by destruct (o_offset o).
Qed.

Lemma build_alloc_spec `{BF : Bitflags} o s :
  rest s -> options_ok o -> check_options o = Ok tt ->
  exists res s', build_alloc me o s = Ret (res, s') /\ rest s' /\ alloc_outcome o s s' res.
Proof.
  intros Hrest [Hsz Haddr _] Hck. pose proof (check_options_spec o) as Hspec. rewrite Hck in Hspec.
  destruct Hspec as (Hal & Hpow & Hsa & _ & Hoff & _).
  assert (o_align o <> 0) as Hnz by (unfold is_power_of_two in Hpow; boolify; lia).
  assert (forall a, is_multiple_of a (o_align o) = true -> page_aligned a) as Hpa.
  { intros a Ha. apply (multiple_of_multiple _ (o_align o)); [done|done|by apply Z.eqb_eq]. }
  assert (forall a, is_ok (alloc_free_region_exact a (o_size o) s) = true <-> region_free (vm_mappings s) a (o_size o)) as Hexact
    by (intros a; by apply exact_iff).
  pose proof (fun low high => build_choose o s low high Hrest Hsz Hal Hpow) as Hchoose.
  unfold build_alloc, alloc_free_region, alloc_free_region_below_2gib. unfold place_ok in Hchoose.
  destruct (o_offset o) as [a|a|a|oa|] eqn:Eo.
  - destruct (alloc_free_region_exact_truncate_spec me base others 0 (RssDelta_new s) a (o_size o)) as (s1 & -> & I & T & _ & Ht);
      [by apply resting_start|done|by apply Hpa|by apply Hpa|].
    cbn [mbind run_bind]. assert (rest (RssDelta_drop s1)) as Hrest' by by apply resting_end. eexists _, _. split; [done|]. split; [done|].
    unfold alloc_outcome, place_ok, replaced. rewrite Eo. split; [done|]. split; [split; [exact T|exact Ht]|].
    split; [by apply (truncate_region_free a (o_size o) s)|]. split; [by apply Hpa|]. lia.
  - eexists _, _. split; [done|]. split; [done|]. specialize (Hexact a). unfold alloc_outcome, place_ok, replaced. rewrite Eo.
    pose proof (alloc_free_region_exact_spec (vm_mappings s) a (o_size o) s eq_refl (vi_intervals _ _ _ _ _ _ (proj1 Hrest)) Hsz) as He.
    destruct (alloc_free_region_exact a (o_size o) s) as [r|e]; cbn in Hexact.
    + destruct He as [_ Hf]. split_and!; try done; [by apply Hpa|lia|lia].
    + destruct He as [-> _]. split; [done|]. split; [done|]. intros Hf%Hexact. done.
  - destruct (is_ok (alloc_free_region_exact a (o_size o) s)) eqn:Ee.
    + apply Hexact in Ee. eexists _, _. split; [done|]. split; [done|]. unfold alloc_outcome, place_ok, replaced. rewrite Eo.
      split; [split; [done|by left]|]. split_and!; try done; [by apply Hpa|lia|lia].
    + apply Hchoose; [done|done|done|]. intros b _ _ Hb. split; [done|]. right. intros Hf%Hexact. congruence.
  - set (chosen := (r ← alloc_free_region_in_range _ _ _ _ s; Ret (region_start r, s))).
    assert (exists res s', chosen = Ret (res, s') /\ rest s' /\ alloc_outcome o s s' res) as Hc.
    { apply Hchoose; [done|done|done|]. intros b Hb1 Hb2 Hb. split; [done|]. split; [done|]. lia. }
    destruct oa as [a|]; [|done].
    destruct (range_contains (mkRange VMAR_LOWEST_ADDR MAP_32BIT_HIGH_LIMIT) a && (o_size o <=? MAP_32BIT_HIGH_LIMIT - a) &&
      is_ok (alloc_free_region_exact a (o_size o) s)) eqn:Ee; [|done].
    unfold range_contains in Ee. cbn [r_start r_end] in Ee. boolify. rewrite Hexact in *. eexists _, _. split; [done|]. split; [done|].
    unfold alloc_outcome, place_ok, replaced. rewrite Eo. unfold VMAR_LOWEST_ADDR, MAP_32BIT_HIGH_LIMIT in *.
    assert (0x80000000 <= VMAR_CAP_ADDR) by by vm_compute. split_and!; try done; try lia. by apply Hpa.
  - apply Hchoose; [done|done|done|]. intros b _ _ Hb. done.
Qed.

(** ** The memory behind the mapping *)

(** A mapping of a free region comes into the hands of the operation. *)
Lemma new_hand_inv s m w' :
  vinv 0 [] s -> placed m -> region_free (vm_mappings s) (map_to_addr m) (map_size m) ->
  (forall id v, rmap_of w' id v = rmap_of (vmos s) id v) -> (forall id, status w' id = status (vmos s) id + tracks m id) ->
  (forall id, base id < 0 -> tracked m <> Some id) ->
  vinv 0 [m] (with_vmos s w').
Proof.
  intros Hinv Hm Hfree Hrm Hst Hden. apply (vmar_inv_rehand _ _ _ 0 []); try done.
  - by intros x ->%list_elem_of_singleton.
  - intros x y Hx ->%list_elem_of_singleton. apply separate_sym. rewrite separate_iff. specialize (Hfree x Hx). unfold map_end in *. lia.
  - repeat constructor.
  - intros id. rewrite Hst, tally_cons. cbn. lia.
  - intros ty. rewrite tally_cons. cbn. unfold resident. case_decide; [|done]. rewrite pages_empty; [done|].
    intros k Hk. by apply (region_free_pages me base others 0 s (map_to_addr m) (map_size m)).
  - intros x k Hx. by apply elem_of_nil in Hx.
  - intros x id ->%list_elem_of_singleton Hb Et. by destruct (Hden id Hb).
Qed.

Context `{BF : Bitflags}.

(** The mapping that [build] makes. *)
Definition built (o : VmarMapOptions) (addr : Z) (mem : MappedMemory) (may_perms : Z) : VmMapping :=
  mkMapping (o_size o) addr mem (o_file o) (o_map_mode o) (o_handle_page_faults_around o) (bf_union (o_perms o) may_perms).

(** Whether the mapping is counted: a shared mapping of a memory file that may be written. *)
Definition counted (o : VmarMapOptions) : bool :=
  bool_decide (o_file o <> None) && bool_decide (o_memfd o <> None) && is_shared (o_map_mode o) && bf_contains (o_may_perms o) VmPerms_MAY_WRITE.

Definition memory_ok (o : VmarMapOptions) (mem : MappedMemory) : Prop :=
  match o_mappable o with
  | Some (MappableVmo v) => mem = Vmo (mkMappedVmo v (o_vmo_offset o) (counted o))
  | Some (MappableDevice _ _) => mem = Anonymous /\ o_map_mode o = Shared
  | None => mem = Anonymous
  end.

(** The permissions that may be asked for later are those of the options, or a sealed file takes away the
    right to write. *)
Definition may_ok (o : VmarMapOptions) (may_perms : Z) : Prop :=
  may_perms = o_may_perms o \/
  (exists seals, o_memfd o = Some seals /\ bf_intersects seals (bf_union F_SEAL_WRITE F_SEAL_FUTURE_WRITE) = true) /\
  bf_contains (o_perms o) VmPerms_WRITE = false /\ may_perms = bf_difference (o_may_perms o) VmPerms_MAY_WRITE.

(** Nothing but the memory objects has changed. *)
Definition untouched (s s' : Vmar) : Prop :=
  vm_mappings s' = vm_mappings s /\ vm_space s' = vm_space s /\ total_vm s' = total_vm s.

Lemma is_writable_tracked_of_spec o :
  match is_writable_tracked_of o with Ok (track, may) => track = counted o /\ may_ok o may | Err e => e = EPERM end.
Proof.
  unfold is_writable_tracked_of, may_ok, check_writable, counted. destruct (o_file o), (o_memfd o) as [seals|]; try (split; [done|by left]).
  rewrite !bool_decide_true, !andb_true_l by done. destruct (is_shared _ && _); [|split; [done|by left]].
  destruct (bf_intersects seals _) eqn:Es; cbn; [|split; [done|by left]].
  destruct (bf_contains (o_perms o) VmPerms_WRITE) eqn:Ew; cbn; [done|]. split; [done|]. right. split; [eauto|done].
Qed.

Lemma build_memory_spec o s addr :
  rest s -> 0 < o_size o -> page_aligned addr -> page_aligned (o_size o) -> 0 <= addr -> addr + o_size o <= VMAR_CAP_ADDR ->
  region_free (vm_mappings s) addr (o_size o) ->
  match build_memory o s with
  | Err e => e = EPERM \/ e = EINVAL
  | Ok (mem, may_perms, s') =>
      memory_ok o mem /\ may_ok o may_perms /\ untouched s s' /\ rss_delta s' = (0, 0) /\
      vinv 0 [built o addr mem may_perms] s' /\ (mem = Anonymous -> s' = s)
  end.
Proof.
  intros Hrest Hsz Ha Hs Ha0 Hcap Hfree. pose proof Hrest as [Hinv Hd].
  assert (forall mem may, placed (built o addr mem may)) as Hpl.
  { intros. split; [done|]. unfold map_end. cbn [map_to_addr map_size built]. done. }
  assert (forall may, vinv 0 [built o addr Anonymous may] s) as Hanon.
  { intros may. replace s with (with_vmos s (vmos s)) by by destruct s. apply new_hand_inv; try done.
    intros id. unfold tracks, tracked. cbn [built mapped_mem]. rewrite decide_False by done. lia. }
  unfold build_memory, memory_ok. destruct (o_mappable o) as [[v|installs res]|].
  2: { destruct (o_map_mode o); cbn [is_shared negb]; [by right|]. split_and!; try done. by left. }
  2: { split_and!; try done. by left. }
  pose proof (is_writable_tracked_of_spec o) as Hmay. destruct (is_writable_tracked_of o) as [[track may]|e]; [|by left]. destruct Hmay as [-> Hmay]. cbn [mbind result_bind].
  pose proof (MappedVmo_new_spec v (o_vmo_offset o) (counted o) (vmos s)) as Hnew.
  destruct (MappedVmo_new v (o_vmo_offset o) (counted o) (vmos s)) as [[mv w]|e]; [|by left]. destruct Hnew as [-> Hst].
  destruct (Hst (built o addr (Vmo (mkMappedVmo v (o_vmo_offset o) (counted o))) may) eq_refl) as [[S1 S2] S3].
  cbn [mbind result_bind]. split; [done|]. split; [done|]. split; [done|]. split; [done|]. split; [|done].
  apply new_hand_inv; try done; [intros id u; unfold rmap_of; by rewrite S2|intros id; rewrite S1; lia|].
  intros id Hb Et. specialize (S3 id Et). rewrite (vi_status _ _ _ _ _ _ Hinv), tally_zero in S3; [lia|].
  intros x Hx. unfold tracks. rewrite decide_False; [done|]. by apply (vi_denied _ _ _ _ _ _ Hinv).
Qed.

(** ** Devices *)

(** Pages with some of the frames of a device have been added to a mapping; nothing else has changed. *)
Record populated (frames : list nat) (m : VmMapping) (s s' : Vmar) : Prop := {
  po_mappings : vm_mappings s' = vm_mappings s /\ total_vm s' = total_vm s /\ vmos s' = vmos s;
  po_pages : forall k p, vm_space s' !! k = Some p ->
    vm_space s !! k = Some p \/
    (vm_space s !! k = None /\ contains m k /\ pte_flags p = PageFlags_from_perms (perms m) /\ pte_frame p ∈ frames);
  po_kept : forall k p, vm_space s !! k = Some p -> vm_space s' !! k = Some p
}.

Lemma map_frames_spec t m dm installs s :
  vinv t [dm] s -> range dm = range m -> rss_type dm = RssFile -> Forall (fun i => 0 <= i.1 /\ page_aligned i.1) installs ->
  exists s', map_frames m installs s = Ret s' /\ vinv t [dm] s' /\ populated installs.*2 m s s'.
Proof.
  intros Hinv Hr Hty Hin. assert (placed m) as Hpm.
  { assert (placed dm) as H by (apply (vi_placed _ _ _ _ _ _ Hinv); set_solver). rewrite !range_mapping in Hr. injection Hr as Hr1 Hr2.
    destruct H as ((? & ? & ?) & ? & ?). unfold map_end in Hr2. rewrite <- !Hr1 in *. assert (map_size m = map_size dm) as Hs by lia.
    split; [|unfold map_end in *; rewrite <- Hr1, Hs; done]. unfold mapping_ok. rewrite <- Hr1, Hs. done. }
  assert (forall k, contains m k <-> contains dm k) as Hc by (intros k; unfold contains, key; by rewrite Hr).
  revert s Hinv. induction installs as [|[off f] installs IH]; intros s Hinv; cbn [map_frames].
  { exists s. split; [done|]. split; [done|]. constructor; [done|by left|done]. }
  apply Forall_cons in Hin as [[Ho1 Ho2] Hin]. cbn in Ho1, Ho2. unfold map_frame.
  assert (forall s, vinv t [dm] s -> exists s', map_frames m installs s = Ret s' /\ vinv t [dm] s' /\ populated ((off, f) :: installs).*2 m s s') as Hweak.
  { intros s0 H0. destruct (IH Hin s0 H0) as (s' & E & I & [P1 P2 P3]). exists s'. split; [done|]. split; [done|]. constructor; [done| |done].
    intros k p Hk. apply P2 in Hk as [?|(? & ? & ? & ?)]; [by left|right]. split_and!; try done. by right. }
  destruct (Z.leb_spec (map_size m) off) as [Hbig|Hlt]; cbn [mbind run_bind]; [by apply Hweak|].
  destruct Hpm as ((Hs & Ha & Hz) & H0 & H1). pose proof (page_step off (map_size m) Ho2 Hz Hlt) as Hstep.
  assert (page_aligned (map_to_addr m + off)) as Hka by by apply page_aligned_add.
  pose proof CAP_bound. unfold cursor_mut. cbn [r_start r_end]. unfold map_end in H1.
  rewrite (proj2 (Z.leb_le 0 _)), (proj2 (Z.ltb_lt _ _)), (proj2 (Z.leb_le _ (Z.shiftl 1 47))), (proj2 (is_multiple_of_spec _) Hka) by (unfold PAGE_SIZE in *; lia).
  rewrite (proj2 (is_multiple_of_spec (_ + PAGE_SIZE))) by by apply page_aligned_add. cbn [andb assert_run mbind run_bind].
  destruct (vm_space s !! (map_to_addr m + off)) as [p|] eqn:Ek; cbn [mbind run_bind]; [by apply Hweak|].
  assert (contains m (map_to_addr m + off)) as Hin' by (rewrite contains_iff; unfold map_end, PAGE_SIZE in *; lia).
  pose proof (add_page_inv me base others t [dm] s dm (map_to_addr m + off) (mkPte f (PageFlags_from_perms (perms m))) Hinv) as I1.
  rewrite Hty in I1. destruct (IH Hin _ (I1 ltac:(set_solver) ltac:(by apply Hc) Hka Ek)) as (s' & -> & I2 & [P1 P2 P3]).
  cbn [vm_space RssDelta_add with_rss with_space] in P2, P3.
  exists s'. split; [done|]. split; [done|]. constructor; [done| |].
  - intros k p Hk. apply P2 in Hk as [[[<- <-]|[_ Hk]]%lookup_insert_Some|(Hn & Hk & Hf & Hfr)]; [right|by left|right].
    + split_and!; try done. by left.
    + apply lookup_insert_None in Hn as [Hn _]. split_and!; try done. by right.
  - intros k p Hk. apply P3. rewrite lookup_insert_ne; [done|]. congruence.
Qed.

(** Giving up takes the pages out again. *)
Lemma unmap_populated frames m s s' r :
  r = range m -> populated frames m s s' -> (forall k, contains m k -> vm_space s !! k = None) ->
  filter (fun kp => ~ in_range r kp) (vm_space s') = vm_space s.
Proof.
  intros -> [_ P2 P3] Hno. apply map_eq. intros k. destruct (vm_space s !! k) as [p|] eqn:E.
  - apply map_lookup_filter_Some. split; [by apply P3|]. intros Hin. rewrite Hno in E; done.
  - apply map_lookup_filter_None. destruct (vm_space s' !! k) as [p|] eqn:E'; [|by left]. right. intros p' [= <-] Hn. apply Hn.
    apply P2 in E' as [?|(_ & Hc & _)]; [congruence|done].
Qed.

Lemma delta_drop_inv t h s : vinv t h s -> vinv t h (RssDelta_drop s).
Proof.
  intros [Hi Hpl Ha Hh Ht Hr Ho Hs Hrss Hp Hdn]. constructor; vsimpl; try done. intros ty. rewrite <- Hrss. destruct ty; cbn; lia.
Qed.

Lemma delta_new_inv t h s : vinv t h s -> rss_delta s = (0, 0) -> vinv t h (RssDelta_new s).
Proof. intros Hinv Hd. unfold RssDelta_new. rewrite <- Hd. by destruct s. Qed.

Lemma populate_device_spec m installs res s :
  rest s -> placed m -> region_free (vm_mappings s) (map_to_addr m) (map_size m) -> mapped_mem m = Anonymous ->
  Forall (fun i => 0 <= i.1 /\ page_aligned i.1) installs ->
  let dm ob := with_place m (map_size m) (map_to_addr m) (Device ob) in
  exists out s', populate_device m installs res (RssDelta_new s) = Ret (out, s') /\
    (forall ob, vinv 0 [dm ob] s') /\ populated installs.*2 m s s' /\
    out = match res with Ok ob => Ok (dm ob) | Err e => Err e end.
Proof.
  intros Hrest Hm Hfree Hmem Hin dm. unfold populate_device. rewrite bool_decide_true by done. cbn [assert_run mbind run_bind].
  assert (forall ob, vinv 0 [dm ob] (RssDelta_new s)) as I0.
  { intros ob. pose proof (resting_start _ _ _ _ Hrest) as Hinv. replace (RssDelta_new s) with (with_vmos (RssDelta_new s) (vmos s)) by done.
    apply new_hand_inv; try done. intros id. unfold tracks, tracked. cbn [dm with_place mapped_mem]. rewrite decide_False by done. vsimpl. lia. }
  destruct (map_frames_spec 0 m (dm FbMapHandle) installs (RssDelta_new s) (I0 _)) as (s' & E & _ & P); [done|done|done|].
  rewrite E. cbn [mbind run_bind]. eexists _, _. split; [done|]. split; [|split; [|by destruct res]].
  - intros ob. destruct (map_frames_spec 0 m (dm ob) installs (RssDelta_new s) (I0 _)) as (s'' & E' & I & _); [done|done|done|]. congruence.
  - destruct P as [P1 P2 P3]. by constructor.
Qed.

(** The frames that a device installs. *)
Definition device_frames (o : VmarMapOptions) : list nat :=
  match o_mappable o with Some (MappableDevice installs _) => installs.*2 | _ => [] end.

(** The mapping after [populate_device]. *)
Definition installed (o : VmarMapOptions) (m m' : VmMapping) : Prop :=
  match o_mappable o with
  | Some (MappableDevice _ res) => exists ob, res = Ok ob /\ m' = with_place m (map_size m) (map_to_addr m) (Device ob)
  | _ => m' = m
  end.

Lemma build_populate_spec o m s1 s :
  options_ok o -> placed m -> vinv 0 [m] s -> rss_delta s = (0, 0) -> region_free (vm_mappings s) (map_to_addr m) (map_size m) ->
  memory_ok o (mapped_mem m) -> (mapped_mem m = Anonymous -> s = s1) -> rest s1 ->
  exists out s', build_populate o m s = Ret (out, s') /\
    match out with
    | Ok m' => installed o m m' /\ vinv 0 [m'] s' /\ rss_delta s' = (0, 0) /\ populated (device_frames o) m s s' /\
        (can_expand m' = true -> vm_space s' = vm_space s)
    | Err e => rest s' /\ untouched s s' /\ exists installs, o_mappable o = Some (MappableDevice installs (Err e))
    end.
Proof.
  intros [_ _ Hdev] Hm Hinv Hd Hfree Hmem Hanon Hrest. unfold build_populate, installed, memory_ok, device_frames in *.
  assert (forall frames, populated frames m s s) as Hrefl by (constructor; [done|by left|done]).
  destruct (o_mappable o) as [[v|installs res]|]; [exists (Ok m), s; by split_and!| |exists (Ok m), s; by split_and!].
  destruct Hmem as [Hmem _]. pose proof (Hanon Hmem) as ->.
  destruct (populate_device_spec m installs res s1 Hrest Hm Hfree Hmem (Hdev _ _ eq_refl)) as (out & s' & -> & I & P & ->). cbn [mbind run_bind].
  destruct res as [ob|e].
  - eexists _, _. split; [done|]. split; [eauto|]. split; [by apply delta_drop_inv|]. split; [done|]. split; [|done]. destruct P. by constructor.
  - destruct (unmap_inv me base others 0 [] s' _ (I FbMapHandle)) as (n & s2 & E & I2 & M2 & Sp2 & _).
    assert (VmMapping_unmap m s' = Ret (n, s2)) as ->.
    { rewrite <- E. unfold VmMapping_unmap. change (range (with_place m (map_size m) (map_to_addr m) (Device FbMapHandle))) with (range m).
      unfold VmMapping_drop. rewrite Hmem. done. }
    cbn [mbind run_bind]. eexists _, _. split; [done|]. split; [by apply resting_end|]. split; [|eauto].
    pose proof P as [(P1 & _) _ _]. split; [vsimpl; congruence|]. split.
    + vsimpl. rewrite Sp2. apply (unmap_populated installs.*2 m s1 s'); [done|done|]. intros k Hk.
      by apply (region_free_pages me base others 0 s1 (map_to_addr m) (map_size m) k (proj1 Hrest)).
    + pose proof (vi_total _ _ _ _ _ _ I2) as T2. pose proof (vi_total _ _ _ _ _ _ (proj1 Hrest)) as T1.
      cbn [vm_mappings total_vm RssDelta_add with_rss] in T2. rewrite M2, P1 in T2. vsimpl. congruence.
Qed.

(** ** The whole of [build] *)

(** The new mapping, as the options describe it. *)
Record new_mapping (o : VmarMapOptions) (addr : Z) (m : VmMapping) : Prop := {
  nm_place : map_to_addr m = addr /\ map_size m = o_size o;
  nm_kind : file m = o_file o /\ map_mode m = o_map_mode o /\ handle_page_faults_around m = o_handle_page_faults_around o;
  nm_perms : exists may_perms, may_ok o may_perms /\ perms m = bf_union (o_perms o) may_perms;
  nm_mem : match o_mappable o with
           | Some (MappableVmo v) => mapped_mem m = Vmo (mkMappedVmo v (o_vmo_offset o) (counted o))
           | Some (MappableDevice _ res) => exists ob, res = Ok ob /\ mapped_mem m = Device ob /\ o_map_mode o = Shared
           | None => mapped_mem m = Anonymous
           end
}.

(** The address space after a successful [build]. *)
Record mapped (o : VmarMapOptions) (addr : Z) (s s' : Vmar) : Prop := {
  md_place : place_ok o addr s /\ page_aligned addr;
  md_mapping : exists m, new_mapping o addr m /\
    (forall x, view (vm_mappings s') x = if decide (contains m x) then Some (attr_at m x) else view (vm_mappings s) x) /\
    (forall k p, contains m k -> vm_space s' !! k = Some p ->
       can_expand m = false /\ pte_flags p = PageFlags_from_perms (perms m) /\ pte_frame p ∈ device_frames o);
  md_pages : forall k, ~ (addr <= k < addr + o_size o) -> vm_space s' !! k = vm_space s !! k;
  md_total : total_vm s' = total_vm s + o_size o -
    match o_offset o with FixedReplace a => overlap_size (mkRange a (a + o_size o)) s | _ => 0 end;
  md_limit : forall limit, rlimit_as = Some limit -> total_vm s' <= Z.max limit (total_vm s)
}.

(** What is left after a failure: nothing has changed, or the range to be replaced is gone. *)
Definition build_failed (o : VmarMapOptions) (s s' : Vmar) : Prop :=
  s' = s \/ exists s1, replaced o s s1 /\ untouched s1 s'.

Definition build_outcome (o : VmarMapOptions) (s s' : Vmar) (res : result Z) : Prop :=
  match res with Ok addr => mapped o addr s s' | Err _ => build_failed o s s' end.

Lemma overlap_size_nonneg t h s r : vinv t h s -> r_start r < r_end r -> 0 <= overlap_size r s.
Proof.
  intros Hinv Hr. unfold overlap_size. assert (forall m, m ∈ vm_mappings s -> placed m) as Hp by (intros m Hm; apply (vi_placed _ _ _ _ _ _ Hinv); set_solver).
  induction (vm_mappings s) as [|m l IH]; [done|]. rewrite filter_cons. case_decide as Ho; [|apply IH; intros x Hx; apply Hp; by right].
  rewrite tally_cons. assert (0 <= meet_size r m); [|assert (forall x, x ∈ l -> placed x) by (intros x Hx; apply Hp; by right); specialize (IH ltac:(done)); lia].
  destruct (Hp m) as ((? & _) & _); [by left|]. rewrite overlaps_iff in Ho. unfold meet_size, meet, map_end in *. cbn. lia.
Qed.

Lemma build_check_rlimit_spec o s :
  rest s -> 0 < o_size o ->
  exists res, build_check_rlimit rlimit_as o s = Ret res /\
    match res with
    | Ok _ => forall limit, rlimit_as = Some limit ->
        total_vm s + o_size o - match o_offset o with FixedReplace a => overlap_size (mkRange a (a + o_size o)) s | _ => 0 end
        <= Z.max limit (total_vm s)
    | Err e => e = ENOMEM
    end.
Proof.
  intros [Hinv _] Hsz. unfold build_check_rlimit.
  assert (forall a, 0 <= overlap_size (mkRange a (a + o_size o)) s) as Hov by (intros a; apply (overlap_size_nonneg 0 [] s _ Hinv); cbn; lia).
  assert (forall n, match check_extra_size_fits_rlimit rlimit_as s n with
    | Ok _ => forall limit, rlimit_as = Some limit -> total_vm s + n <= Z.max limit (total_vm s) | Err e => e = ENOMEM end) as Hfit.
  { intros n. unfold check_extra_size_fits_rlimit. destruct rlimit_as as [l|]; [|by intros ? [=]]. case_cond; [done|]. intros limit [= <-]. lia. }
  pose proof (Hfit (o_size o)) as Hf. destruct (check_extra_size_fits_rlimit rlimit_as s (o_size o)) as [[]|e].
  - eexists. split; [done|]. intros limit Hl. specialize (Hf limit Hl). destruct (o_offset o) as [a| | | |]; [specialize (Hov a)|..]; lia.
  - destruct (o_offset o) as [a| | | |]; try (eexists; split; [done|]; done).
    rewrite (count_overlap_size_spec 0 []) by (done || cbn; lia). cbn [mbind run_bind]. eexists. split; [done|].
    pose proof (Hfit (o_size o - overlap_size (mkRange a (a + o_size o)) s)) as Hf'.
    destruct (check_extra_size_fits_rlimit rlimit_as s _) as [[]|]; [|done]. intros limit Hl. specialize (Hf' limit Hl). lia.
Qed.

Lemma mapped_intro o addr s s1 s2 s3 s' m :
  0 < o_size o -> place_ok o addr s -> page_aligned addr -> replaced o s s1 -> untouched s1 s2 -> populated (device_frames o) m s2 s3 ->
  (forall k, contains m k -> vm_space s2 !! k = None) ->
  new_mapping o addr m -> (can_expand m = true -> vm_space s3 = vm_space s2) ->
  (forall x, view (vm_mappings s') x = view_with m s3 x) -> vm_space s' = vm_space s3 -> total_vm s' = total_vm s3 + map_size m ->
  (forall limit, rlimit_as = Some limit ->
     total_vm s + o_size o - match o_offset o with FixedReplace a => overlap_size (mkRange a (a + o_size o)) s | _ => 0 end <= Z.max limit (total_vm s)) ->
  mapped o addr s s'.
Proof.
  intros Hsz Hplace Haddr Hrep (U1 & U2 & U3) [(P1 & P1' & _) P2 P3] Hno Hnm Hexp Hv Hsp Htot Hlim.
  pose proof (nm_place _ _ _ Hnm) as [Hma Hms]. assert (forall x, contains m x <-> addr <= x < addr + o_size o) as Hc.
  { intros x. rewrite contains_iff. unfold map_end. lia. }
  assert (forall x, ~ contains m x -> view (vm_mappings s1) x = view (vm_mappings s) x /\ vm_space s1 !! x = vm_space s !! x) as Hout.
  { intros x Hx. rewrite Hc in Hx. unfold replaced, place_ok in *. destruct (o_offset o) as [a| | | |]; try (by subst s1).
    destruct Hrep as [[Tv Tp] _]. subst a. rewrite Tv, Tp, !decide_False by (unfold inside; cbn; lia). done. }
  assert (total_vm s' = total_vm s + o_size o -
    match o_offset o with FixedReplace a => overlap_size (mkRange a (a + o_size o)) s | _ => 0 end) as Ht.
  { rewrite Htot, P1', U3, Hms. unfold replaced in Hrep. destruct (o_offset o); first [subst s1; lia | destruct Hrep; lia]. }
  constructor; [done| | |done|intros limit Hl; rewrite Ht; by apply Hlim].
  - exists m. split; [done|]. split.
    + intros x. rewrite Hv. unfold view_with. repeat case_decide; try done. rewrite P1, U1. by apply Hout.
    + intros k p Hk Hp. rewrite Hsp in Hp. destruct (can_expand m) eqn:Ee; [rewrite Hexp, Hno in Hp; done|]. split; [done|].
      apply P2 in Hp as [Hp|(_ & _ & ?)]; [rewrite Hno in Hp; done|done].
  - intros k Hk. rewrite Hsp. rewrite <- Hc in Hk. destruct (Hout k Hk) as [_ <-]. rewrite <- U2.
    destruct (vm_space s3 !! k) as [p|] eqn:E; [|destruct (vm_space s2 !! k) as [p|] eqn:E2; [apply P3 in E2; congruence|done]].
    apply P2 in E as [?|(_ & ? & _)]; done.
Qed.

(** [build] makes the mapping that the options describe where it may be, within the limit on the size, or
    it fails. *)
Lemma build_spec o s :
  rest s -> options_ok o ->
  exists res s', build me rlimit_as o s = Ret (res, s') /\ rest s' /\ build_outcome o s s' res.
Proof.
  intros Hrest Ho. pose proof (oo_size _ Ho) as Hsz. unfold build. destruct (check_options o) as [[]|e] eqn:Hck; [|exists (Err e), s; split; [done|]; split; [done|by left]].
  destruct (build_check_rlimit_spec o s Hrest Hsz) as (fits & -> & Hlim). cbn [mbind run_bind].
  destruct fits as [[]|e]; [|exists (Err e), s; split; [done|]; split; [done|by left]].
  destruct (build_alloc_spec o s Hrest Ho Hck) as (res & s1 & -> & R1 & Hal). cbn [mbind run_bind].
  destruct res as [addr|e]; [|destruct Hal as [-> _]; exists (Err e), s; split; [done|]; split; [done|by left]].
  destruct Hal as (Hplace & Hrep & Hfree & Ha & H0 & Hcap).
  assert (page_aligned (o_size o)) as Hszp.
  { pose proof (check_options_spec o) as Hspec. rewrite Hck in Hspec. destruct Hspec as (Hm & Hpow & Hsa & _).
    apply (multiple_of_multiple _ (o_align o)); [done|unfold is_power_of_two in Hpow; boolify; lia|by apply Z.eqb_eq]. }
  pose proof (build_memory_spec o s1 addr R1 Hsz Ha Hszp H0 Hcap Hfree) as Hmem.
  destruct (build_memory o s1) as [[[mem may] s2]|e]; [|exists (Err e), s1; split; [done|]; split; [done|right; exists s1; done]].
  destruct Hmem as (Mo & My & Un & Hd & I2 & Hanon). unfold nonzero. rewrite (proj2 (Z.eqb_neq _ _)) by lia. cbn [mbind run_bind].
  change (mkMapping _ _ _ _ _ _ _) with (built o addr mem may). set (m := built o addr mem may) in *.
  assert (placed m) as Hpm by (apply (vi_placed _ _ _ _ _ _ I2); set_solver). pose proof Un as (U1 & U2 & U3).
  destruct (build_populate_spec o m s1 s2) as (out & s3 & -> & Hout); try done; [by rewrite U1|]. cbn [mbind run_bind].
  destruct out as [m'|e].
  2: { destruct Hout as (R3 & Un3 & _). exists (Err e), s3. split; [done|]. split; [done|]. right. exists s1. split; [done|].
       destruct Un3 as (? & ? & ?). split_and!; congruence. }
  destruct Hout as (Hin & I3 & Hd3 & Pop & Hexp).
  assert (new_mapping o addr m' /\ vmo_for_rmap m' = vmo_for_rmap m /\ range m' = range m /\ perms m' = perms m) as (Hnm & Hrm & Hrg & Hpe).
  { unfold installed, memory_ok in *. destruct (o_mappable o) as [[v|installs r]|] eqn:Eo.
    - subst m' mem. split_and!; try done. constructor; try done; [eauto|]. by rewrite Eo.
    - destruct Hin as (ob & -> & ->). destruct Mo as [-> ?]. split_and!; try done. constructor; try done; [eauto|]. rewrite Eo. eauto.
    - subst m' mem. split_and!; try done. constructor; try done; [eauto|]. by rewrite Eo. }
  destruct (insert_try_merge_spec _ _ _ _ _ _ _ I3) as (s4 & E4 & I4 & (S1 & S2 & S3) & V4 & _). rewrite <- Hrm, E4. cbn [mbind run_bind].
  eexists _, _. split; [done|]. split; [split; [done|congruence]|].
  apply (mapped_intro o addr s s1 s2 s3 s4 m'); try done.
  - destruct Pop as [? Pp ?]. constructor; [done| |done]. intros k p Hk. rewrite Hpe. unfold contains, key. rewrite Hrg. by apply Pp.
  - intros k Hk. rewrite U2. apply (region_free_pages me base others 0 s1 addr (o_size o)); [apply R1|done|].
    destruct (nm_place _ _ _ Hnm) as [N1 N2]. rewrite contains_iff in Hk. unfold map_end in Hk. lia.
  - by apply insert_try_merge_total in E4.
Qed.
End build.

(** ** Two adjacent mappings *)
Definition demo_mapping (addr : Z) : VmMapping := mkMapping 0x1000 addr Anonymous None Private false 0x3b.

Definition demo_space : Vmar :=
  match insert_without_try_merge 0 (demo_mapping 0x10000) None (Vmar_new ∅) with Ret s => s | _ => Vmar_new ∅ end.

Lemma demo_hand s addr :
  vmar_inv 0 (status ∅) (rmap_of ∅) 0 [] s -> placed (demo_mapping addr) -> region_free (vm_mappings s) addr 0x1000 ->
  vmar_inv 0 (status ∅) (rmap_of ∅) 0 [demo_mapping addr] s.
Proof.
  intros Hinv Hp Hf. replace s with (with_vmos s (vmos s)) by by destruct s. apply new_hand_inv; try done.
  intros id. unfold tracks. rewrite decide_False by done. lia.
Qed.

Lemma demo_placed addr : addr = 0x10000 \/ addr = 0x11000 -> placed (demo_mapping addr).
Proof. intros [->| ->]; split_and!; vm_compute; done. Qed.

Lemma demo_space_inv : vmar_inv 0 (status ∅) (rmap_of ∅) 0 [demo_mapping 0x11000] demo_space.
Proof.
  apply demo_hand; [|apply demo_placed; auto|intros m; vm_compute; by intros [= ->]%list_elem_of_singleton; left].
  assert (vmar_inv 0 (status ∅) (rmap_of ∅) 0 [demo_mapping 0x10000] (Vmar_new ∅)) as H.
  { apply demo_hand; [by apply new_inv|apply demo_placed; auto|]. intros m Hm. by apply elem_of_nil in Hm. }
  destruct (insert_without_try_merge_spec _ _ _ _ _ _ _ H) as (s' & E & I & _). unfold demo_space. change None with (vmo_for_rmap (demo_mapping 0x10000)).
  by rewrite E.
Qed.

Lemma merging_is_invisible_witness :
  exists s1 s2, insert_try_merge 0 (demo_mapping 0x11000) None demo_space = Ret s1 /\
    insert_without_try_merge 0 (demo_mapping 0x11000) None demo_space = Ret s2 /\
    (forall x, view (vm_mappings s1) x = view (vm_mappings s2) x) /\ same_pages s1 s2 /\ total_vm s1 = total_vm s2.
Proof. exact (merging_is_invisible 0 (status ∅) (rmap_of ∅) 0 [] demo_space (demo_mapping 0x11000) demo_space_inv). Defined.

(** ** A sealed memory file *)

(** C39: A shared mapping of a memory file that is sealed against writing is refused with EPERM even if it asks
    only for read permission: the permission to write later has been taken away, and the mapping is still
    counted as a writable one. *)
Theorem sealed_memfd_refuses_readonly_mapping `{BF : Bitflags} o s v f seals :
  o_mappable o = Some (MappableVmo v) -> o_file o = Some f -> o_memfd o = Some seals -> o_map_mode o = Shared ->
  bf_contains (o_may_perms o) VmPerms_MAY_WRITE = true -> bf_contains (o_perms o) VmPerms_WRITE = false ->
  bf_contains seals F_SEAL_WRITE = true -> status (vmos s) v < 0 ->
  (exists may, is_writable_tracked_of o = Ok (counted o, may) /\ counted o = true /\ bf_contains may VmPerms_MAY_WRITE = false) /\
  build_memory o s = Err EPERM.
Proof.
  intros Hm Hf Hs Hmode Hmay Hp Hseal Hst. assert (is_writable_tracked_of o = Ok (true, bf_difference (o_may_perms o) VmPerms_MAY_WRITE)) as E.
  { unfold is_writable_tracked_of, check_writable. rewrite Hf, Hs, Hmode, Hmay. cbn [is_shared andb].
    assert (bf_intersects seals (bf_union F_SEAL_WRITE F_SEAL_FUTURE_WRITE) = true) as ->; [|by rewrite Hp].
    apply bf_intersects_spec. exists 3. rewrite bf_union_spec by done. split; [done|]. split; [|done].
    unfold F_SEAL_WRITE in Hseal. change 0x8 with (2 ^ 3) in Hseal. by rewrite contains_pow2 in Hseal. }
  assert (counted o = true) as Hc by (unfold counted; by rewrite Hf, Hs, Hmode, Hmay, !bool_decide_true by done). rewrite Hc.
  split.
  - eexists. split; [exact E|]. split; [done|]. unfold VmPerms_MAY_WRITE. rewrite contains_pow2 by done. rewrite bf_difference_spec by done.
    rewrite Z.pow2_bits_eqb by done. by rewrite andb_false_r.
  - unfold build_memory. rewrite Hm, E. cbn [mbind result_bind]. unfold MappedVmo_new, WritableMappingStatus_map.
    fold (status (vmos s) v). destruct (Z.leb_spec 0 (status (vmos s) v)); [lia|done].
Qed.

Definition sealed_options : VmarMapOptions :=
  mkOptions (Some (MappableVmo 5)) (Some 3%nat) (Some F_SEAL_WRITE) VmPerms_READ VmPerms_ALL_MAY_PERMS 0 0x1000 Any 0x1000 Shared true.

Definition sealed_space : Vmar := Vmar_new {[5%nat := mkVmo (-1) ∅]}.

Lemma sealed_memfd_refuses_readonly_mapping_witness : build_memory (BF := Zflags) sealed_options sealed_space = Err EPERM.
Proof.
  apply (sealed_memfd_refuses_readonly_mapping (BF := Zflags) sealed_options sealed_space 5 3 F_SEAL_WRITE); vm_compute; reflexivity.
Defined.
