(* ===== verification/PageFault.v ===== *)
(** * Page faults

    The page faults of [kernel/core/src/vm/vmar/vm_mapping.rs] and [vmar_impls/page_fault.rs], and those of
    graphics buffers ([kernel/comps/drm/src/gem/shmem.rs]).

    What a fault learns from outside of the address space is an argument: the frame allocator's answer,
    the reference counts of frames, the sizes of the memory objects, the frames of GEM objects, and the
    answers of the memory objects to requests for a page.  The objects change while a fault waits for
    one of them, so the answers are a list: one state of the objects for each time the fault tries. *)

From S2P Require Import Prelude Flags Align IntervalSet VmMapping Vmar.

(** ** What a fault asks *)
(** [VmoCommitError]: an error, or a page that is pending, with what [commit_on] of it returns. *)
Inductive VmoCommitError :=
  | CommitErr (e : Errno)
  | CommitPending (commit_on : result unit).

Notation CommitAnswer := (VmoCommitError + nat * VmoMapMode)%type.

(** [Vmo::try_commit_page] of an object, at an offset, for a mode. *)
Notation Vmos_commit := (nat -> Z -> VmoMapMode -> CommitAnswer).

(** [err.pending_index()?] and then [commit_on(index)?]. *)
Definition commit_pending (err : VmoCommitError) : result unit :=
  match err with CommitErr e => Err e | CommitPending r => r end.

Record FaultEnv := mkEnv {
  alloc_frame : result nat;
  reference_count : nat -> Z;
  vmo_size : nat -> Z;
  gem_pages : nat -> list nat
}.

Record PageFaultInfo := mkFault { fault_address : Z; required_perms : Z; is_forced : bool }.

(** [VmSpace::cursor] and [VmSpace::cursor_mut], whose error is returned. *)
Definition cursor_at (r : Range) : result unit :=
  match cursor_mut r with Ret _ => Ok tt | _ => Err EFAULT end.

Definition valid_size (env : FaultEnv) (v : MappedVmo) : Z := range_len (mkRange (mv_offset v) (vmo_size env (mv_vmo v))).

Section fault.
Context `{BF : Bitflags} (env : FaultEnv).

Definition is_cow (m : VmMapping) : bool := negb (is_shared (map_mode m)) && bf_contains (perms m) VmPerms_MAY_WRITE.

Definition check_perms_for_page_fault (m : VmMapping) (info : PageFaultInfo) : result unit :=
  let p := perms m in
  let p :=
    if is_forced info then
      let p := if bf_contains p VmPerms_MAY_READ then bf_union p VmPerms_READ else p in
      if is_cow m then bf_union p VmPerms_WRITE else p
    else p in
  if negb (bf_contains p (required_perms info)) then Err EACCES else Ok tt.

(** [duplicate_frame] allocates a frame and copies the contents. *)
Definition duplicate_frame (frame : nat) : result nat := alloc_frame env.

Definition vmo_map_mode_from_is_write (m : VmMapping) (is_write : bool) : VmoMapMode :=
  if negb (is_shared (map_mode m)) then ModePrivate
  else if negb is_write then ModeSharedRead
  else ModeSharedWrite.

Definition get_committed_frame (commit : Vmos_commit) (v : MappedVmo) (page_offset : Z) (mode : VmoMapMode) : CommitAnswer :=
  commit (mv_vmo v) (mv_offset v + page_offset) mode.

Definition prepare_page (m : VmMapping) (page_aligned_addr : Z) (is_write : bool) (commit : option Vmos_commit) :
    run (VmoCommitError + nat * bool) :=
  let fresh := match alloc_frame env with Ok f => inr (f, false) | Err e => inl (CommitErr e) end in
  match mapped_mem m with
  | Anonymous => Ret fresh
  | Device _ => Ret (inl (CommitErr EFAULT))
  | Vmo v =>
      let page_offset := page_aligned_addr - map_to_addr m in
      if negb (is_shared (map_mode m)) && (valid_size env v <=? page_offset) then Ret fresh
      else
        match commit with
        | None => NoFuel
        | Some commit =>
            match get_committed_frame commit v page_offset (vmo_map_mode_from_is_write m is_write) with
            | inl err => Ret (inl err)
            | inr (page, mode) =>
                if negb (is_shared (map_mode m)) && is_write
                then Ret (match duplicate_frame page with Ok f => inr (f, false) | Err e => inl (CommitErr e) end)
                else Ret (inr (page, negb (is_shared (map_mode m)) || negb (bool_decide (mode = ModeSharedWrite))))
            end
        end
  end.

(** A write to a page that is mapped without the permission: the page is made writable in place, or
    replaced by a copy. *)
Definition make_writable (m : VmMapping) (addr : Z) (p : Pte) (s : Vmar) : result unit * Vmar :=
  let only_reference := reference_count env (pte_frame p) =? 1 in
  let new_flags := bf_union (bf_union PageFlags_W PageFlags_ACCESSED) PageFlags_DIRTY in
  let flags := bf_union (pte_flags p) new_flags in
  if is_shared (map_mode m) || only_reference
  then (Ok tt, with_space s (<[addr := mkPte (pte_frame p) flags]> (vm_space s)))
  else
    match duplicate_frame (pte_frame p) with
    | Err e => (Err e, s)
    | Ok new_frame => (Ok tt, with_space s (<[addr := mkPte new_frame flags]> (delete addr (vm_space s))))
    end.

(** A frame for a page that is not mapped. *)
Definition map_prepared (m : VmMapping) (addr : Z) (is_write : bool) (frame : nat) (is_readonly : bool) (s : Vmar) : Vmar :=
  let vm_perms := if is_readonly then bf_difference (perms m) VmPerms_WRITE else perms m in
  let page_flags := bf_union (PageFlags_from_perms vm_perms) PageFlags_ACCESSED in
  let page_flags := if is_write then bf_union page_flags PageFlags_DIRTY else page_flags in
  RssDelta_add (with_space s (<[addr := mkPte frame page_flags]> (vm_space s))) (rss_type m) 1.

Fixpoint handle_single_page_fault (m : VmMapping) (addr required : Z) (answers : list Vmos_commit) (s : Vmar) {struct answers} :
    run (result unit * Vmar) :=
  let retry_after (err : VmoCommitError) :=
    match commit_pending err with
    | Err e => Ret (Err e, s)
    | Ok _ => match answers with [] => NoFuel | _ :: answers => handle_single_page_fault m addr required answers s end
    end in
  match cursor_at (mkRange addr (addr + PAGE_SIZE)) with
  | Err e => Ret (Err e, s)
  | Ok _ =>
      let is_write := bf_contains required VmPerms_WRITE in
      match vm_space s !! addr with
      | Some p =>
          if bf_contains (VmPerms_from_flags (pte_flags p)) required then Ret (Ok tt, s)
          else
            _ ← assert_run is_write;
            match is_shared (map_mode m), mapped_mem m with
            | true, Vmo v =>
                match head answers with
                | None => NoFuel
                | Some commit =>
                    match get_committed_frame commit v (addr - map_to_addr m) ModeSharedWrite with
                    | inl err => retry_after err
                    | inr _ => Ret (make_writable m addr p s)
                    end
                end
            | _, _ => Ret (make_writable m addr p s)
            end
      | None =>
          prepared ← prepare_page m addr is_write (head answers);
          match prepared with
          | inr (frame, is_readonly) => Ret (Ok tt, map_prepared m addr is_write frame is_readonly s)
          | inl err => retry_after err
          end
      end
  end.

(** ** Mapping the surrounding pages *)
Definition SURROUNDING_PAGE_NUM : Z := 16.

(** [try_operate_on_range] on the pages from [addr] on: the page that could not be committed. *)
Fixpoint around_pages (m : VmMapping) (v : MappedVmo) (mode : VmoMapMode) (commit : Vmos_commit) (n : nat) (addr : Z) (s : Vmar) :
    option (Z * VmoCommitError) * Vmar :=
  match n with
  | O => (None, s)
  | S n =>
      match vm_space s !! addr with
      | Some _ => around_pages m v mode commit n (addr + PAGE_SIZE) s
      | None =>
          let offset := mv_offset v + (addr - map_to_addr m) in
          match commit (mv_vmo v) offset mode with
          | inl err => (Some (offset / PAGE_SIZE, err), s)
          | inr (frame, _) =>
              let page_flags := bf_union (PageFlags_from_perms (bf_difference (perms m) VmPerms_WRITE)) PageFlags_ACCESSED in
              let s := RssDelta_add (with_space s (<[addr := mkPte frame page_flags]> (vm_space s))) (rss_type m) 1 in
              around_pages m v mode commit n (addr + PAGE_SIZE) s
          end
      end
  end.

Fixpoint around_loop (m : VmMapping) (v : MappedVmo) (mode : VmoMapMode) (start_addr end_addr : Z) (answers : list Vmos_commit)
    (s : Vmar) : run (result unit * Vmar) :=
  match answers with
  | [] => NoFuel
  | commit :: answers =>
      match cursor_at (mkRange start_addr end_addr) with
      | Err e => Ret (Err e, s)
      | Ok _ =>
          if vmo_size env (mv_vmo v) <? mv_offset v + (end_addr - map_to_addr m) then Ret (Err EINVAL, s)
          else
            let n := Z.to_nat (range_len (mkRange start_addr end_addr) / PAGE_SIZE) in
            match around_pages m v mode commit n start_addr s with
            | (None, s) => Ret (Ok tt, s)
            | (Some (index, err), s) =>
                match commit_pending err with
                | Err e => Ret (Err e, s)
                | Ok _ => around_loop m v mode (index * PAGE_SIZE - mv_offset v + map_to_addr m) end_addr answers s
                end
            end
      end
  end.

Definition handle_page_faults_around (m : VmMapping) (page_aligned_addr required : Z) (answers : list Vmos_commit) (s : Vmar) :
    run (result unit * Vmar) :=
  v ← unwrap (vmo m);
  let around_page_addr := Z.ldiff page_aligned_addr (SURROUNDING_PAGE_NUM * PAGE_SIZE - 1) in
  let size := Z.min (valid_size env v) (map_size m) in
  let start_addr := Z.max around_page_addr (map_to_addr m) in
  let end_addr := Z.min (start_addr + SURROUNDING_PAGE_NUM * PAGE_SIZE) (map_to_addr m + size) in
  if end_addr <=? page_aligned_addr then handle_single_page_fault m page_aligned_addr required answers s
  else around_loop m v (vmo_map_mode_from_is_write m false) start_addr end_addr answers s.

(** ** Device memory *)
Definition MappedObject_handle_page_fault (o : MappedObject) (m : VmMapping) (offset : Z) (s : Vmar) : run (result unit * Vmar) :=
  match o with
  | FbMapHandle => Ret (Err EFAULT, s)
  | DrmGemShmemMappedObject backend object_offset =>
      match checked_add object_offset offset with
      | None => Ret (Err EFAULT, s)
      | Some object_offset =>
          match gem_pages env backend !! Z.to_nat (object_offset / PAGE_SIZE) with
          | None => Ret (Err EFAULT, s)
          | Some page => s ← map_frame m offset page s; Ret (Ok tt, s)
          end
      end
  end.

(** ** A fault *)
Definition VmMapping_handle_page_fault (m : VmMapping) (info : PageFaultInfo) (answers : list Vmos_commit) (s : Vmar) :
    run (result unit * Vmar) :=
  match check_perms_for_page_fault m info with
  | Err e => Ret (Err e, s)
  | Ok _ =>
      page_aligned_addr ← align_down (fault_address info) PAGE_SIZE;
      let is_write := bf_contains (required_perms info) VmPerms_WRITE in
      match negb is_write && VmMapping.handle_page_faults_around m, mapped_mem m with
      | true, Vmo _ =>
          '(res, s) ← handle_page_faults_around m page_aligned_addr (required_perms info) answers s;
          match res with
          | Ok _ => Ret (Ok tt, s)
          | Err e =>
              match cursor_at (mkRange page_aligned_addr (page_aligned_addr + PAGE_SIZE)) with
              | Err e => Ret (Err e, s)
              | Ok _ => Ret (if is_some (vm_space s !! page_aligned_addr) then Ok tt else Err e, s)
              end
          end
      | _, Device o => MappedObject_handle_page_fault o m (page_aligned_addr - map_to_addr m) s
      | _, _ => handle_single_page_fault m page_aligned_addr (required_perms info) answers s
      end
  end.

(** [Vmar::handle_page_fault]. *)
Definition handle_page_fault (info : PageFaultInfo) (answers : list Vmos_commit) (s : Vmar) : run (result unit * Vmar) :=
  match find_one (fault_address info) (vm_mappings s) with
  | None => Ret (Err EACCES, s)
  | Some m =>
      _ ← assert_run (range_contains (range m) (fault_address info));
      '(res, s) ← VmMapping_handle_page_fault m info answers (RssDelta_new s);
      Ret (res, RssDelta_drop s)
  end.
End fault.
