(* ===== verification/PageFaultSpec.v ===== *)
(** * What page faults do

    A fault that is not forced returns, whatever the memory objects answer, as long as they do not ask it
    to wait for ever.  It keeps the invariant of the address space, changes no mapping, and each page it
    sets is one of five kinds ([faulted]). *)

From S2P Require Import Prelude Flags Align IntervalSet VmMapping Vmar VmarInv VmarOps VmarProtect VmarPages VmarUnmap VmarRemap PageFault.

(** ** Flags and permissions *)
Section bits.
Context `{BF : Bitflags}.

Lemma testbit_insert_if (c : bool) a k i :
  0 <= k -> 0 <= i -> Z.testbit (if c then bf_union a (2 ^ k) else a) i = Z.testbit a i || (c && (k =? i)).
Proof.
  intros Hk Hi. destruct c; cbn [andb]; [|by rewrite orb_false_r].
  rewrite bf_union_spec by done. by rewrite Z.pow2_bits_eqb.
Qed.

Lemma three_bits p i :
  0 <= i -> (Z.testbit p 0 && (0 =? i)) || (Z.testbit p 1 && (1 =? i)) || (Z.testbit p 2 && (2 =? i)) = (i <? 3) && Z.testbit p i.
Proof.
  intros Hi. destruct (Z.ltb_spec i 3) as [Hlt|Hge]; cbn [andb].
  - assert (i = 0 \/ i = 1 \/ i = 2) as [->|[->| ->]] by lia; cbn; rewrite ?andb_true_r, ?andb_false_r, ?orb_false_r; done.
  - rewrite !(proj2 (Z.eqb_neq _ _)) by lia. by rewrite !andb_false_r.
Qed.

Lemma PageFlags_from_perms_bits p i : 0 <= i -> Z.testbit (PageFlags_from_perms p) i = (i <? 3) && Z.testbit p i.
Proof.
  intros Hi. unfold PageFlags_from_perms, VmPerms_READ, VmPerms_WRITE, VmPerms_EXEC, PageFlags_R, PageFlags_W, PageFlags_X.
  rewrite !testbit_insert_if by done. rewrite !contains_pow2 by done. rewrite Z.bits_0. cbn [orb]. by apply three_bits.
Qed.

Lemma VmPerms_from_flags_bits f i : 0 <= i -> Z.testbit (VmPerms_from_flags f) i = (i <? 3) && Z.testbit f i.
Proof.
  intros Hi. unfold VmPerms_from_flags, VmPerms_READ, VmPerms_WRITE, VmPerms_EXEC, PageFlags_R, PageFlags_W, PageFlags_X.
  rewrite !testbit_insert_if by done. rewrite !contains_pow2 by done. rewrite Z.bits_0. cbn [orb]. by apply three_bits.
Qed.
End bits.

(** The permissions that an access needs: some of read, write and execute. *)
Definition access (required : Z) : Prop := forall i, 0 <= i -> Z.testbit required i = true -> i < 3.

Definition readable (f : Z) : bool := Z.testbit f 0.
Definition writable (f : Z) : bool := Z.testbit f 1.
Definition executable (f : Z) : bool := Z.testbit f 2.

(** ** The pages that a fault sets *)
Section faults.
Context `{BF : Bitflags} (env : FaultEnv) (answers : list Vmos_commit).

Definition written_flags (f : Z) : Z := bf_union f (bf_union (bf_union PageFlags_W PageFlags_ACCESSED) PageFlags_DIRTY).

(** The flags of a new page: those of the mapping, with or without write permission, and no others
    that matter. *)
Definition new_flags (m : VmMapping) (may_write : bool) (f : Z) : Prop :=
  readable f = readable (perms m) /\ executable f = executable (perms m) /\ writable f = may_write && writable (perms m).

Inductive faulted (m : VmMapping) (required : Z) : option Pte -> Pte -> Prop :=
  | faulted_in_place p :
      writable required = true -> is_shared (map_mode m) = true \/ reference_count env (pte_frame p) = 1 ->
      faulted m required (Some p) (mkPte (pte_frame p) (written_flags (pte_flags p)))
  | faulted_copy p f :
      writable required = true -> map_mode m = Private -> alloc_frame env = Ok f ->
      faulted m required (Some p) (mkPte f (written_flags (pte_flags p)))
  | faulted_fresh f fl :
      mapped_mem m = Anonymous \/ (exists v, mapped_mem m = Vmo v) /\ map_mode m = Private ->
      alloc_frame env = Ok f -> new_flags m true fl -> faulted m required None (mkPte f fl)
  | faulted_object v f fl commit offset mode granted b :
      mapped_mem m = Vmo v -> commit ∈ answers -> commit (mv_vmo v) offset mode = inr (f, granted) ->
      new_flags m b fl -> (b = true -> map_mode m = Shared /\ granted = ModeSharedWrite) ->
      (writable required = true -> map_mode m = Shared /\ mode = ModeSharedWrite /\ b = bool_decide (granted = ModeSharedWrite)) ->
      faulted m required None (mkPte f fl)
  | faulted_device o f :
      mapped_mem m = Device o -> (exists b, f ∈ gem_pages env b) ->
      faulted m required None (mkPte f (PageFlags_from_perms (perms m))).

(** A page of the memory object, which cannot be written. *)
Definition object_page (m : VmMapping) (q : Pte) : Prop :=
  exists v commit offset mode granted, mapped_mem m = Vmo v /\ commit ∈ answers /\
    commit (mv_vmo v) offset mode = inr (pte_frame q, granted) /\ writable (pte_flags q) = false.

(** What a fault in [m] leaves as it was, and the pages it sets: one, or several read-only pages of the
    memory object. *)
Record fault_step (m : VmMapping) (required : Z) (s s' : Vmar) : Prop := {
  fs_mappings : vm_mappings s' = vm_mappings s;
  fs_total : total_vm s' = total_vm s;
  fs_vmos : vmos s' = vmos s;
  fs_pages : forall k, vm_space s' !! k = vm_space s !! k \/
    exists q, contains m k /\ page_aligned k /\ vm_space s' !! k = Some q /\ faulted m required (vm_space s !! k) q;
  fs_shape : (exists k0, forall k, k <> k0 -> vm_space s' !! k = vm_space s !! k) \/
    (forall k, vm_space s' !! k = vm_space s !! k \/ exists q, vm_space s' !! k = Some q /\ object_page m q)
}.

Lemma fault_step_refl m required s : fault_step m required s s.
Proof. constructor; [done..|by left|]. left. by exists 0. Qed.

(** The answers do not ask to wait. *)
Definition settled (commit : Vmos_commit) : Prop := forall id offset mode, commit id offset mode <> inl (CommitPending (Ok tt)).
End faults.

(** ** Proofs about one fault *)
Section flags_of_pages.
Context `{BF : Bitflags}.

Lemma writable_contains a : bf_contains a VmPerms_WRITE = writable a.
Proof. unfold VmPerms_WRITE, writable. by rewrite contains_pow2. Qed.

Lemma prepared_flags m (ro is_write : bool) :
  new_flags m (negb ro)
    (let f := bf_union (PageFlags_from_perms (if ro then bf_difference (perms m) VmPerms_WRITE else perms m)) PageFlags_ACCESSED in
     if is_write then bf_union f PageFlags_DIRTY else f).
Proof.
  cbn zeta. unfold new_flags, readable, writable, executable, PageFlags_ACCESSED, PageFlags_DIRTY, VmPerms_WRITE.
  assert (forall i, 0 <= i < 3 -> Z.testbit (if is_write then bf_union (bf_union (PageFlags_from_perms (if ro then bf_difference (perms m) (2 ^ 1) else perms m)) (2 ^ 3)) (2 ^ 4)
     else bf_union (PageFlags_from_perms (if ro then bf_difference (perms m) (2 ^ 1) else perms m)) (2 ^ 3)) i
     = Z.testbit (perms m) i && negb (ro && (i =? 1))) as H.
  { intros i Hi. destruct is_write; rewrite ?bf_union_spec, PageFlags_from_perms_bits by lia;
      rewrite (proj2 (Z.ltb_lt i 3)), !Z.pow2_bits_eqb, ?(proj2 (Z.eqb_neq _ _)) by lia; cbn [andb]; rewrite ?orb_false_r;
      destruct ro; rewrite ?bf_difference_spec, ?Z.pow2_bits_eqb, ?andb_true_r by lia; cbn [andb negb]; rewrite ?(Z.eqb_sym 1 i), ?andb_true_r; done. }
  rewrite !H by lia. destruct ro; cbn; rewrite ?andb_true_r, ?andb_false_r; done.
Qed.

Lemma written_flags_bits f i : 0 <= i -> Z.testbit (written_flags f) i = Z.testbit f i || (i =? 1) || (i =? 3) || (i =? 4).
Proof.
  intros Hi. unfold written_flags, PageFlags_W, PageFlags_ACCESSED, PageFlags_DIRTY.
  rewrite !bf_union_spec, !Z.pow2_bits_eqb by lia. rewrite !(Z.eqb_sym _ i). by rewrite !orb_assoc.
Qed.

(** When the page has what the access needs. *)
Definition grants (f required : Z) : Prop := bf_contains (VmPerms_from_flags f) required = true.

Lemma grants_iff f required :
  access required ->
  grants f required <->
  (readable required = true -> readable f = true) /\ (writable required = true -> writable f = true) /\
  (executable required = true -> executable f = true).
Proof.
  intros Ha. unfold grants, readable, writable, executable. rewrite contains_in. split.
  - intros H. split_and!; intros Hb; [specialize (H 0)|specialize (H 1)|specialize (H 2)];
      specialize (H ltac:(lia) Hb); by rewrite VmPerms_from_flags_bits in H by lia.
  - intros (H0 & H1 & H2) i Hi Hb. specialize (Ha i Hi Hb). rewrite VmPerms_from_flags_bits by done.
    rewrite (proj2 (Z.ltb_lt i 3)) by done. cbn [andb]. assert (i = 0 \/ i = 1 \/ i = 2) as [->|[->| ->]] by lia; auto.
Qed.
End flags_of_pages.

Lemma cursor_at_ok r :
  0 <= r_start r -> r_start r < r_end r -> r_end r <= VMAR_CAP_ADDR -> page_aligned (r_start r) -> page_aligned (r_end r) ->
  cursor_at r = Ok tt.
Proof.
  intros H1 H2 H3 Ha%is_multiple_of_spec Hb%is_multiple_of_spec. unfold cursor_at, cursor_mut. rewrite Ha, Hb.
  rewrite (proj2 (Z.leb_le _ _) H1), (proj2 (Z.ltb_lt _ _) H2). rewrite (proj2 (Z.leb_le _ _)); [done|].
  unfold VMAR_CAP_ADDR, MAX_USERSPACE_VADDR, PAGE_SIZE in H3. change (Z.shiftl 274877906944 9) with 140737488355328 in H3.
  change (Z.shiftl 1 47) with 140737488355328. lia.
Qed.

Lemma page_in_mapping m k : placed m -> contains m k -> page_aligned k -> 0 <= k /\ k + PAGE_SIZE <= map_end m /\ map_end m <= VMAR_CAP_ADDR.
Proof.
  intros (Hm & H0 & H1) Hc Hk. pose proof (mapping_ok_end m Hm) as He. rewrite contains_iff in Hc.
  pose proof (page_step k (map_end m) Hk He). lia.
Qed.

Lemma cursor_at_page m k : placed m -> contains m k -> page_aligned k -> cursor_at (mkRange k (k + PAGE_SIZE)) = Ok tt.
Proof.
  intros Hm Hc Hk. destruct (page_in_mapping m k Hm Hc Hk) as (H0 & H1 & H2). unfold PAGE_SIZE in *.
  apply cursor_at_ok; cbn; [lia..|done|]. apply page_aligned_add; [done|]. done.
Qed.

Definition is_device (m : VmMapping) : bool := match mapped_mem m with Device _ => true | _ => false end.

Section single.
Context `{BF : Bitflags} (env : FaultEnv) (me : nat) (base : nat -> Z) (others : nat -> nat -> list RmapEntry).
Notation vinv := (vmar_inv me base others 0 []).

(** The page that is asked for, after a fault that says it was handled. *)
Definition handled (answers : list Vmos_commit) (m : VmMapping) (addr required : Z) (s s' : Vmar) : Prop :=
  exists q, vm_space s' !! addr = Some q /\
    ((vm_space s !! addr = Some q /\ grants (pte_flags q) required) \/ faulted env answers m required (vm_space s !! addr) q).

(** A write to a page of a device that is mapped already: the device does nothing. *)
Definition stalled (m : VmMapping) (addr required : Z) (s s' : Vmar) : Prop :=
  is_device m = true /\ writable required = true /\ is_Some (vm_space s !! addr) /\ vm_space s' = vm_space s.

Record fault_done (answers : list Vmos_commit) (m : VmMapping) (addr required : Z) (res : result unit) (s s' : Vmar) : Prop := {
  fd_inv : vinv s';
  fd_rss : rss_counters s' = rss_counters s;
  fd_step : fault_step env answers m required s s';
  fd_ok : res = Ok tt -> handled answers m addr required s s' \/ stalled m addr required s s'
}.

Lemma fault_done_err answers m addr required e s : vinv s -> fault_done answers m addr required (Err e) s s.
Proof. intros Hinv. constructor; [done|done|apply fault_step_refl|done]. Qed.

(** One page is set. *)
Lemma fault_done_page answers m addr required s q s' :
  contains m addr -> page_aligned addr -> faulted env answers m required (vm_space s !! addr) q ->
  vinv s' -> rss_counters s' = rss_counters s -> vm_mappings s' = vm_mappings s -> total_vm s' = total_vm s -> vmos s' = vmos s ->
  vm_space s' = <[addr := q]> (vm_space s) -> fault_done answers m addr required (Ok tt) s s'.
Proof.
  intros Hc Ha Hf Hinv Hr Hm Ht Hw Hs. constructor; [done|done| |].
  - constructor; [done..| |].
    + intros k. destruct (decide (k = addr)) as [->|Hne]; [right|left; by rewrite Hs, lookup_insert_ne].
      exists q. by rewrite Hs, lookup_insert_eq.
    + left. exists addr. intros k Hne. by rewrite Hs, lookup_insert_ne.
  - intros _. left. exists q. rewrite Hs, lookup_insert_eq. eauto.
Qed.

Lemma insert_dom (pt : VmSpace) k p q : pt !! k = Some p -> dom (<[k := q]> pt) = dom pt.
Proof. intros Hk. rewrite dom_insert_L. apply elem_of_dom_2 in Hk. set_solver. Qed.

Lemma make_writable_spec answers m addr required p s :
  vinv s -> contains m addr -> page_aligned addr -> vm_space s !! addr = Some p -> writable required = true ->
  exists res s', make_writable env m addr p s = (res, s') /\ fault_done answers m addr required res s s'.
Proof.
  intros Hinv Hc Ha Hp Hw. unfold make_writable.
  destruct (is_shared (map_mode m) || (reference_count env (pte_frame p) =? 1)) eqn:E.
  - eexists _, _. split; [done|]. eapply fault_done_page; try done.
    + rewrite Hp. apply faulted_in_place; [done|]. apply orb_true_iff in E as [E|E]; [by left|right; lia].
    + apply vmar_inv_space; [done|]. vsimpl. by eapply insert_dom.
  - apply orb_false_iff in E as [E _]. unfold duplicate_frame. destruct (alloc_frame env) as [f|e] eqn:Ef.
    + eexists _, _. split; [done|]. rewrite insert_delete_eq. eapply fault_done_page; try done.
      * rewrite Hp. apply faulted_copy; [done| |done]. by destruct (map_mode m).
      * apply vmar_inv_space; [done|]. vsimpl. by eapply insert_dom.
    + eexists _, _. split; [done|]. by apply fault_done_err.
Qed.

Lemma map_prepared_spec answers m addr required is_write f ro s :
  vinv s -> m ∈ vm_mappings s -> contains m addr -> page_aligned addr -> vm_space s !! addr = None ->
  (forall fl, new_flags m (negb ro) fl -> faulted env answers m required None (mkPte f fl)) ->
  fault_done answers m addr required (Ok tt) s (map_prepared m addr is_write f ro s).
Proof.
  intros Hinv Hm Hc Ha Hn Hf. eapply fault_done_page; try done.
  - rewrite Hn. apply Hf, (prepared_flags m ro is_write).
  - apply (add_page_inv me base others); try done. by rewrite app_nil_r.
Qed.

Lemma prepare_page_spec answers m addr required commit :
  (forall c, commit = Some c -> c ∈ answers) ->
  (prepare_page env m addr (writable required) commit = NoFuel /\ commit = None) \/
  (exists e, prepare_page env m addr (writable required) commit = Ret (inl (CommitErr e))) \/
  (exists c id offset mode r, commit = Some c /\ c id offset mode = inl (CommitPending r) /\
     prepare_page env m addr (writable required) commit = Ret (inl (CommitPending r))) \/
  (exists f ro, prepare_page env m addr (writable required) commit = Ret (inr (f, ro)) /\
     forall fl, new_flags m (negb ro) fl -> faulted env answers m required None (mkPte f fl)).
Proof.
  intros Hc. unfold prepare_page, duplicate_frame, get_committed_frame. destruct (mapped_mem m) as [|v|o] eqn:Hm; [|  |eauto].
  - destruct (alloc_frame env) as [f|e] eqn:Ea; [|eauto]. do 3 right. eexists _, _. split; [done|]. intros fl Hfl.
    apply faulted_fresh; auto.
  - destruct (map_mode m) eqn:Hmode; cbn [is_shared negb andb orb].
    + destruct (valid_size env v <=? _).
      { destruct (alloc_frame env) as [f|e] eqn:Ea; [|eauto]. do 3 right. eexists _, _. split; [done|]. intros fl Hfl.
        apply faulted_fresh; eauto. }
      destruct commit as [c|]; [|by left]. destruct (c _ _ _) as [[e|r]|[f granted]] eqn:E; [eauto|by do 2 right; left; eauto 10|].
      destruct (writable required) eqn:Hw.
      * destruct (alloc_frame env) as [f'|e] eqn:Ea; [|eauto]. do 3 right. eexists _, _. split; [done|]. intros fl Hfl.
        apply faulted_fresh; eauto.
      * do 3 right. eexists _, _. split; [done|]. intros fl Hfl. eapply faulted_object; [done|by apply Hc|done|done|done|congruence].
    + destruct commit as [c|]; [|by left]. destruct (c _ _ _) as [[e|r]|[f granted]] eqn:E; [eauto|by do 2 right; left; eauto 10|].
      do 3 right. eexists _, _. split; [done|]. intros fl Hfl. eapply faulted_object; [done|by apply Hc|done|done| |].
      * rewrite negb_involutive. by intros ?%bool_decide_eq_true.
      * intros Hw. unfold vmo_map_mode_from_is_write. rewrite Hmode, Hw. cbn. by rewrite negb_involutive.
Qed.

Lemma handle_single_page_fault_spec all m addr required answers s :
  vinv s -> m ∈ vm_mappings s -> contains m addr -> page_aligned addr -> (forall c, c ∈ answers -> c ∈ all) -> Exists settled answers ->
  (forall p, vm_space s !! addr = Some p -> writable required = false -> grants (pte_flags p) required) ->
  exists res s', handle_single_page_fault env m addr required answers s = Ret (res, s') /\ fault_done all m addr required res s s'.
Proof.
  intros Hinv Hm Hc Ha Hall Hset Hread.
  assert (placed m) as Hpl by (apply (vi_placed _ _ _ _ _ _ Hinv); rewrite app_nil_r; done).
  induction answers as [|commit answers IH]; [by inversion Hset|].
  assert (forall err, (forall r, err = CommitPending r -> exists id offset mode, commit id offset mode = inl err) ->
    exists res s', match commit_pending err with Err e => Ret (Err e, s) | Ok _ => handle_single_page_fault env m addr required answers s end = Ret (res, s') /\
      fault_done all m addr required res s s') as Hretry.
  { intros err Herr. destruct err as [e|[[]|e]]; cbn [commit_pending]; [eauto using fault_done_err| |eauto using fault_done_err].
    apply IH; [set_solver|]. inversion Hset as [? ? Hs|]; [|done]. destruct (Herr _ eq_refl) as (id & offset & mode & E). by apply Hs in E. }
  cbn [handle_single_page_fault]. rewrite (cursor_at_page m addr) by done. rewrite writable_contains.
  destruct (vm_space s !! addr) as [p|] eqn:Hp.
  - destruct (bf_contains (VmPerms_from_flags (pte_flags p)) required) eqn:Hg.
    { eexists _, _. split; [done|]. constructor; [done|done|apply fault_step_refl|]. intros _. left. exists p. eauto. }
    destruct (writable required) eqn:Hw; cbn [assert_run mbind run_bind].
    2: { specialize (Hread p eq_refl eq_refl). unfold grants in Hread. congruence. }
    destruct (make_writable_spec all m addr required p s Hinv Hc Ha Hp Hw) as (res & s' & E & Hd).
    destruct (is_shared (map_mode m)), (mapped_mem m) as [|v|o]; rewrite ?E; eauto. cbn [head].
    destruct (get_committed_frame commit v (addr - map_to_addr m) ModeSharedWrite) as [err|] eqn:Eg; rewrite ?E; eauto.
  - destruct (prepare_page_spec all m addr required (head (commit :: answers))) as [[_ H]|[(e & E)|[(c & id & offset & mode & r & Ec & Er & E)|(f & ro & E & Hf)]]].
    { cbn. intros c [= <-]. apply Hall. by left. }
    + done.
    + rewrite E. cbn [mbind run_bind]. by apply (Hretry (CommitErr e)).
    + rewrite E. cbn [mbind run_bind]. injection Ec as <-. apply (Hretry (CommitPending r)). intros r' [= <-]. eauto.
    + rewrite E. cbn [mbind run_bind]. eexists _, _. split; [done|]. by apply map_prepared_spec.
Qed.
End single.

(** ** The surrounding pages *)
Section around.
Context `{BF : Bitflags} (env : FaultEnv) (me : nat) (base : nat -> Z) (others : nat -> nat -> list RmapEntry).
Notation vinv := (vmar_inv me base others 0 []).
Context (all : list Vmos_commit) (m : VmMapping) (required : Z) (Hread : writable required = false).

(** Only pages that were not mapped are set. *)
Record around_step (s s' : Vmar) : Prop := {
  as_inv : vinv s -> vinv s';
  as_rss : rss_counters s' = rss_counters s;
  as_mappings : vm_mappings s' = vm_mappings s;
  as_total : total_vm s' = total_vm s;
  as_vmos : vmos s' = vmos s;
  as_pages : forall k, vm_space s' !! k = vm_space s !! k \/
    (vm_space s !! k = None /\ exists q, contains m k /\ page_aligned k /\ vm_space s' !! k = Some q /\
       faulted env all m required None q /\ object_page all m q)
}.

Lemma around_step_refl s : around_step s s.
Proof. constructor; auto. Qed.

Lemma around_step_trans s1 s2 s3 : around_step s1 s2 -> around_step s2 s3 -> around_step s1 s3.
Proof.
  intros [I1 R1 M1 T1 W1 P1] [I2 R2 M2 T2 W2 P2]. constructor; [auto|congruence..|].
  intros k. destruct (P1 k) as [E1|[N1 (q & Hc & Ha & Hq & Hf & Ho)]], (P2 k) as [E2|[N2 H2]].
  - left. congruence.
  - right. split; [congruence|done].
  - right. split; [done|]. exists q. split_and!; try done. congruence.
  - congruence.
Qed.

Lemma around_step_present s s' k : around_step s s' -> is_Some (vm_space s !! k) -> is_Some (vm_space s' !! k).
Proof. intros H [p Hp]. destruct (as_pages _ _ H k) as [->|[N _]]; [eauto|congruence]. Qed.

Lemma around_step_fault s s' : around_step s s' -> fault_step env all m required s s'.
Proof.
  intros [I R M T W P]. constructor; [done..| |].
  - intros k. destruct (P k) as [->|[N (q & ? & ? & ? & ? & _)]]; [by left|right]. rewrite N. eauto.
  - right. intros k. destruct (P k) as [->|[N (q & ? & ? & ? & ? & ?)]]; [by left|right]. eauto.
Qed.

(** The pages of a range are mapped. *)
Definition present (s : Vmar) (a b : Z) : Prop := forall k, a <= k < b -> page_aligned k -> is_Some (vm_space s !! k).

Lemma present_cons s a b : page_aligned a -> is_Some (vm_space s !! a) -> present s (a + PAGE_SIZE) b -> present s a b.
Proof.
  intros Ha Hp H k Hk Hka. destruct (decide (k = a)) as [->|Hne]; [done|].
  apply H; [|done]. pose proof (page_step a k Ha Hka). lia.
Qed.

Lemma new_page_step v mode commit addr f granted s :
  mapped_mem m = Vmo v -> commit ∈ all -> m ∈ vm_mappings s -> contains m addr -> page_aligned addr -> vm_space s !! addr = None ->
  commit (mv_vmo v) (mv_offset v + (addr - map_to_addr m)) mode = inr (f, granted) ->
  around_step s (RssDelta_add (with_space s (<[addr := mkPte f
    (bf_union (PageFlags_from_perms (bf_difference (perms m) VmPerms_WRITE)) PageFlags_ACCESSED)]> (vm_space s))) (rss_type m) 1).
Proof.
  intros Hv Hall Hm Hc Ha Hn E. constructor; try done.
  - intros Hinv. apply (add_page_inv me base others); try done. by rewrite app_nil_r.
  - intros k. vsimpl. destruct (decide (k = addr)) as [->|Hne]; [right|left; by rewrite lookup_insert_ne].
    pose proof (prepared_flags m true false) as Hfl. cbn zeta iota in Hfl.
    rewrite lookup_insert_eq. split; [done|]. eexists. split_and!; [done..| |].
    2: { exists v, commit, (mv_offset v + (addr - map_to_addr m)), mode, granted. split_and!; try done. exact (proj2 (proj2 Hfl)). }
    eapply faulted_object; [done|done|done|exact (prepared_flags m true false)|done|congruence].
Qed.

Lemma around_pages_spec v mode commit n addr s :
  mapped_mem m = Vmo v -> page_aligned (mv_offset v) -> placed m -> m ∈ vm_mappings s -> commit ∈ all ->
  map_to_addr m <= addr -> page_aligned addr -> addr + Z.of_nat n * PAGE_SIZE <= map_end m ->
  exists r s', around_pages m v mode commit n addr s = (r, s') /\ around_step s s' /\
    match r with
    | None => present s' addr (addr + Z.of_nat n * PAGE_SIZE)
    | Some (index, err) => exists a, index * PAGE_SIZE - mv_offset v + map_to_addr m = a /\ addr <= a < addr + Z.of_nat n * PAGE_SIZE /\
        page_aligned a /\ present s' addr a /\ exists offset, commit (mv_vmo v) offset mode = inl err
    end.
Proof.
  intros Hv Hoff Hpl Hm Hall. revert addr s Hm. induction n as [|n IH]; intros addr s Hm H1 Ha H2.
  { eexists _, _. split; [done|]. split; [apply around_step_refl|]. intros k Hk. lia. }
  assert (0 < PAGE_SIZE) as Hps by done. assert (contains m addr) as Hc by (rewrite contains_iff; nia).
  assert (page_aligned (addr + PAGE_SIZE)) as Ha' by by apply page_aligned_add.
  assert (forall s1, around_step s s1 -> is_Some (vm_space s1 !! addr) -> exists r s', around_pages m v mode commit n (addr + PAGE_SIZE) s1 = (r, s') /\ around_step s s' /\
    match r with
    | None => present s' addr (addr + Z.of_nat (S n) * PAGE_SIZE)
    | Some (index, err) => exists a, index * PAGE_SIZE - mv_offset v + map_to_addr m = a /\ addr <= a < addr + Z.of_nat (S n) * PAGE_SIZE /\
        page_aligned a /\ present s' addr a /\ exists offset, commit (mv_vmo v) offset mode = inl err
    end) as Hnext.
  { intros s1 H01 Hs1. destruct (IH (addr + PAGE_SIZE) s1) as (r & s' & -> & H12 & Hr); [by rewrite (as_mappings _ _ H01)|lia|done|lia|].
    assert (is_Some (vm_space s' !! addr)) as Hs' by by apply (around_step_present s1).
    eexists _, _. split; [done|]. split; [by eapply around_step_trans|]. destruct r as [[index err]|].
    - destruct Hr as (a & ? & ? & ? & ? & ?). exists a. split_and!; [done|lia|lia|done|by apply present_cons|done].
    - apply present_cons; [done..|]. by replace (addr + Z.of_nat (S n) * PAGE_SIZE) with (addr + PAGE_SIZE + Z.of_nat n * PAGE_SIZE) by lia. }
  cbn [around_pages]. destruct (vm_space s !! addr) as [p|] eqn:Hp.
  { apply Hnext; [apply around_step_refl|eauto]. }
  destruct (commit (mv_vmo v) _ mode) as [err|[f granted]] eqn:E.
  - eexists _, _. split; [done|]. split; [apply around_step_refl|]. exists addr. split_and!; [|lia|lia|done|intros k Hk; lia|eauto].
    assert (page_aligned (mv_offset v + (addr - map_to_addr m))) as Hd.
    { apply page_aligned_add; [done|]. apply page_aligned_sub; [done|]. by destruct Hpl as ((_ & ? & _) & _). }
    unfold page_aligned in Hd. apply Z_div_exact_full_2 in Hd; [|done]. lia.
  - apply Hnext; [by eapply new_page_step|]. vsimpl. by rewrite lookup_insert_eq.
Qed.

(** The cases that end the loop. *)
Ltac around_err := eexists _, _; split; [done|]; split; [done || apply around_step_refl|done].

Lemma around_loop_spec v mode answers start_addr end_addr s :
  mapped_mem m = Vmo v -> page_aligned (mv_offset v) -> placed m -> m ∈ vm_mappings s ->
  (forall c, c ∈ answers -> c ∈ all) -> Exists settled answers ->
  map_to_addr m <= start_addr -> page_aligned start_addr -> start_addr < end_addr -> page_aligned end_addr -> end_addr <= map_end m ->
  exists res s', around_loop env m v mode start_addr end_addr answers s = Ret (res, s') /\ around_step s s' /\
    (res = Ok tt -> present s' start_addr end_addr).
Proof.
  intros Hv Hoff Hpl Hm Hall Hset H1 Ha H2 Hb H3. revert start_addr s Hm H1 Ha H2.
  induction answers as [|commit answers IH]; intros start_addr s Hm H1 Ha H2; [by inversion Hset|].
  cbn [around_loop]. destruct (cursor_at _) as [_|e]; [|around_err].
  case_cond; [around_err|].
  assert (Z.of_nat (Z.to_nat (range_len (mkRange start_addr end_addr) / PAGE_SIZE)) * PAGE_SIZE = end_addr - start_addr) as Hn.
  { assert (page_aligned (end_addr - start_addr)) as Hd by by apply page_aligned_sub.
    unfold range_len. cbn [r_start r_end]. unfold page_aligned in Hd. apply Z_div_exact_full_2 in Hd; [|done].
    rewrite Z.max_r by lia. unfold PAGE_SIZE in *. rewrite Z2Nat.id by lia. lia. }
  set (n := Z.to_nat _) in *. destruct (around_pages_spec v mode commit n start_addr s Hv Hoff Hpl Hm ltac:(apply Hall; by left) H1 Ha) as (r & s' & -> & Hst & Hr).
  { rewrite Hn. lia. }
  rewrite Hn in Hr. replace (start_addr + (end_addr - start_addr)) with end_addr in Hr by lia.
  destruct r as [[index err]|]; [|around_err].
  destruct Hr as (a & Ea & Har & Haa & Hpr & offset & Ec). destruct err as [e|[[]|e]]; cbn [commit_pending]; [around_err| |around_err].
  rewrite Ea. destruct (IH ltac:(set_solver)) with (start_addr := a) (s := s') as (res & s'' & -> & Hst' & Hok).
  - inversion Hset as [? ? Hs|]; [|done]. by apply Hs in Ec.
  - by rewrite (as_mappings _ _ Hst).
  - lia.
  - done.
  - lia.
  - eexists _, _. split; [done|]. split; [by eapply around_step_trans|]. intros Hres k Hk Hka. destruct (Z_lt_dec k a).
    + apply (around_step_present s'); [done|]. apply Hpr; [lia|done].
    + apply Hok; [done|lia|done].
Qed.
End around.

(** ** A fault in a mapping, and in an address space *)
Section fault.
Context `{BF : Bitflags} (env : FaultEnv) (me : nat) (base : nat -> Z) (others : nat -> nat -> list RmapEntry).
Notation vinv := (vmar_inv me base others 0 []).
Context (answers : list Vmos_commit) (Hset : Exists settled answers) (Hsizes : forall id, page_aligned (vmo_size env id)).

Definition offset_aligned (m : VmMapping) : Prop := forall v, mapped_mem m = Vmo v -> page_aligned (mv_offset v).

Lemma around_done m addr required res s s' :
  vinv s -> around_step env me base others answers m required s s' ->
  (forall p, vm_space s !! addr = Some p -> grants (pte_flags p) required) ->
  (res = Ok tt -> is_Some (vm_space s' !! addr)) -> fault_done env me base others answers m addr required res s s'.
Proof.
  intros Hinv Hst Hread Hok. constructor; [by apply (as_inv _ _ _ _ _ _ _ _ _ Hst)|apply Hst|by eapply around_step_fault|].
  intros [q Hq]%Hok. left. exists q. split; [done|]. destruct (as_pages _ _ _ _ _ _ _ _ _ Hst addr) as [E|[-> (q' & _ & _ & Hq' & Hf & _)]].
  - left. rewrite E in Hq. eauto.
  - right. congruence.
Qed.

Lemma page_aligned_min a b : page_aligned a -> page_aligned b -> page_aligned (Z.min a b).
Proof. intros. by destruct (Z.min_spec a b) as [[_ ->]|[_ ->]]. Qed.

Lemma page_aligned_max a b : page_aligned a -> page_aligned b -> page_aligned (Z.max a b).
Proof. intros. by destruct (Z.max_spec a b) as [[_ ->]|[_ ->]]. Qed.

(** The window of pages around an address. *)
Lemma around_window addr : page_aligned addr ->
  let a := Z.ldiff addr (SURROUNDING_PAGE_NUM * PAGE_SIZE - 1) in page_aligned a /\ a <= addr.
Proof.
  intros Ha. cbn zeta. change (SURROUNDING_PAGE_NUM * PAGE_SIZE - 1) with (2 ^ 16 - 1). rewrite ldiff_pred_pow2 by done.
  pose proof (Z.mod_pos_bound addr (2 ^ 16)). pose proof (Z.div_mod addr (2 ^ 16)). unfold page_aligned, PAGE_SIZE in *. split; [|lia].
  replace (addr - addr mod 2 ^ 16) with (16 * (addr / 2 ^ 16) * 4096) by lia. apply Z_mod_mult.
Qed.

Lemma handle_page_faults_around_spec m addr required s :
  vinv s -> m ∈ vm_mappings s -> contains m addr -> page_aligned addr -> offset_aligned m -> (exists v, mapped_mem m = Vmo v) ->
  writable required = false -> (forall p, vm_space s !! addr = Some p -> grants (pte_flags p) required) ->
  exists res s', handle_page_faults_around env m addr required answers s = Ret (res, s') /\
    vinv s' /\ fault_step env answers m required s s' /\ rss_counters s' = rss_counters s /\ vm_mappings s' = vm_mappings s /\
    (is_Some (vm_space s' !! addr) -> handled env answers m addr required s s') /\ (res = Ok tt -> is_Some (vm_space s' !! addr)).
Proof.
  intros Hinv Hm Hc Ha Hoff [v Hv] Hw Hread. assert (placed m) as Hpl by (apply (vi_placed _ _ _ _ _ _ Hinv); rewrite app_nil_r; done).
  pose proof Hpl as ((Hsz & Hma & Hmz) & _). rewrite contains_iff in Hc. unfold map_end in Hc.
  unfold handle_page_faults_around, vmo. rewrite Hv. cbn [unwrap mbind run_bind].
  destruct (around_window addr Ha) as [Hwa Hwl]. set (w := Z.ldiff addr _) in *.
  assert (page_aligned (valid_size env v)) as Hva by (apply page_aligned_max; [done|apply page_aligned_sub; [apply Hsizes|by apply Hoff]]).
  set (start := Z.max w (map_to_addr m)). assert (page_aligned start) as Hsa by by apply page_aligned_max.
  set (stop := Z.min (start + _) _). assert (page_aligned stop) as Hea.
  { apply page_aligned_min; [by apply page_aligned_add|apply page_aligned_add; [done|by apply page_aligned_min]]. }
  destruct (Z.leb_spec stop addr) as [Hle|Hgt].
  - destruct (handle_single_page_fault_spec env me base others answers m addr required answers s) as (res & s' & -> & [I R S O]); try done.
    { by intros p Hp _; apply Hread. }
    eexists _, _. split; [done|]. split_and!; try done; [apply S| |].
    + intros [q Hq]. exists q. split; [done|]. destruct (fs_pages _ _ _ _ _ _ S addr) as [E|(q' & _ & _ & Hq' & Hf)].
      * left. rewrite E in Hq. eauto.
      * right. congruence.
    + intros [(q & -> & _)|(Hd & _)]%O; [eauto|]. unfold is_device in Hd. by rewrite Hv in Hd.
  - destruct (around_loop_spec env me base others answers m required Hw v (vmo_map_mode_from_is_write m false) answers start stop s)
      as (res & s' & -> & Hst & Hok); try done; [by apply Hoff|lia|lia|unfold map_end; lia|].
    eexists _, _. split; [done|]. destruct (around_done m addr required res s s' Hinv Hst Hread) as [I R S _].
    { intros Hres. apply Hok; [done|lia|done]. }
    split_and!; try done; [apply S| |].
    + intros Hs. destruct (around_done m addr required (Ok tt) s s' Hinv Hst Hread ltac:(done)) as [_ _ _ O].
      destruct (O eq_refl) as [?|(Hd & _)]; [done|]. unfold is_device in Hd. by rewrite Hv in Hd.
    + intros Hres. apply Hok; [done|lia|done].
Qed.

Lemma device_fault_spec o m addr required s :
  vinv s -> m ∈ vm_mappings s -> contains m addr -> page_aligned addr -> mapped_mem m = Device o ->
  (forall p, vm_space s !! addr = Some p -> writable required = false -> grants (pte_flags p) required) ->
  exists res s', MappedObject_handle_page_fault env o m (addr - map_to_addr m) s = Ret (res, s') /\
    fault_done env me base others answers m addr required res s s'.
Proof.
  intros Hinv Hm Hc Ha Ho Hread. assert (placed m) as Hpl by (apply (vi_placed _ _ _ _ _ _ Hinv); rewrite app_nil_r; done).
  unfold MappedObject_handle_page_fault. destruct o as [|b off]; [eauto using fault_done_err|].
  destruct (checked_add _ _) as [o|]; [|eauto using fault_done_err].
  destruct (gem_pages env b !! _) as [f|] eqn:Ef; [|eauto using fault_done_err].
  unfold map_frame. rewrite contains_iff in Hc. unfold map_end in Hc. rewrite (proj2 (Z.leb_gt _ _)) by lia.
  replace (map_to_addr m + (addr - map_to_addr m)) with addr by lia.
  pose proof (cursor_at_page m addr Hpl Hc Ha) as Hcur. unfold cursor_at in Hcur. destruct (cursor_mut _); [|done..]. cbn [mbind run_bind].
  destruct (vm_space s !! addr) as [p|] eqn:Hp; cbn [mbind run_bind]; eexists _, _; (split; [done|]).
  - constructor; [done|done|apply fault_step_refl|]. intros _. destruct (writable required) eqn:Hw; [right|left].
    + unfold stalled, is_device. rewrite Ho, Hp. eauto.
    + exists p. split; [done|]. left. eauto.
  - eapply fault_done_page; try done.
    + rewrite Hp. eapply faulted_device; [done|]. exists b. by eapply list_elem_of_lookup_2.
    + pose proof (add_page_inv me base others 0 [] s m addr (mkPte f (PageFlags_from_perms (perms m))) Hinv) as H.
      unfold rss_type in H. rewrite Ho in H. apply H; try done. by rewrite app_nil_r.
Qed.

Lemma align_down_page x : align_down x PAGE_SIZE = Ret (x - x mod PAGE_SIZE).
Proof. change (Ret (Z.ldiff x (2 ^ 12 - 1)) = Ret (x - x mod 2 ^ 12)). by rewrite ldiff_pred_pow2. Qed.

Lemma align_down_contains m x : placed m -> contains m x -> contains m (x - x mod PAGE_SIZE) /\ page_aligned (x - x mod PAGE_SIZE).
Proof.
  intros ((_ & Ha & _) & _) Hc. rewrite contains_iff in *. pose proof (Z.mod_pos_bound x PAGE_SIZE ltac:(done)).
  assert (page_aligned (x - x mod PAGE_SIZE)) as Hx by (unfold page_aligned, PAGE_SIZE in *; rewrite Zminus_mod_idemp_r, Z.sub_diag; done).
  split; [|done]. unfold page_aligned, PAGE_SIZE in *. split; [|lia].
  apply Z_div_exact_full_2 in Ha; [|done]. assert (map_to_addr m / 4096 <= x / 4096) by (apply Z.div_le_mono; lia).
  pose proof (Z.div_mod x 4096). lia.
Qed.

(** What a page that is mapped must offer when it is not written. *)
Definition readable_as_needed (addr required : Z) (s : Vmar) : Prop :=
  forall p, vm_space s !! addr = Some p -> writable required = false -> grants (pte_flags p) required.

Lemma VmMapping_handle_page_fault_spec m info s :
  vinv s -> m ∈ vm_mappings s -> contains m (fault_address info) -> offset_aligned m ->
  check_perms_for_page_fault m info = Ok tt ->
  let addr := fault_address info - fault_address info mod PAGE_SIZE in
  readable_as_needed addr (required_perms info) s ->
  exists res s', VmMapping_handle_page_fault env m info answers s = Ret (res, s') /\
    fault_done env me base others answers m addr (required_perms info) res s s'.
Proof.
  intros Hinv Hm Hc Hoff Hchk addr Hread. assert (placed m) as Hpl by (apply (vi_placed _ _ _ _ _ _ Hinv); rewrite app_nil_r; done).
  destruct (align_down_contains m _ Hpl Hc) as [Hca Ha]. fold addr in Hca, Ha.
  unfold VmMapping_handle_page_fault. rewrite Hchk, align_down_page. fold addr. cbn [mbind run_bind]. rewrite writable_contains.
  assert (forall b, match (b : bool), mapped_mem m with | true, Vmo _ => b = true /\ exists v, mapped_mem m = Vmo v
    | _, Device o => is_device m = true /\ mapped_mem m = Device o | _, _ => is_device m = false end) as Hcase.
  { intros b. unfold is_device. destruct b, (mapped_mem m); eauto. }
  specialize (Hcase (negb (writable (required_perms info)) && VmMapping.handle_page_faults_around m)).
  destruct (negb (writable (required_perms info)) && VmMapping.handle_page_faults_around m) eqn:Eb, (mapped_mem m) as [|v|o] eqn:Hmem.
  all: try (destruct Hcase as [Hdev _]; apply device_fault_spec; try done; intros p Hp; apply Hread; auto; fail).
  all: try (apply handle_single_page_fault_spec; try done; intros p Hp Hw; apply Hread; auto; fail).
  destruct Hcase as [_ [v' Hv']]. apply andb_true_iff in Eb as [Hw%negb_true_iff _].
  destruct (handle_page_faults_around_spec m addr (required_perms info) s) as (res & s' & -> & I & S & R & M & O1 & O2); try done; [eauto|intros p Hp; apply Hread; auto|].
  cbn [mbind run_bind]. destruct res as [[]|e].
  - eexists _, _. split; [done|]. constructor; auto.
  - rewrite (cursor_at_page m addr) by done. eexists _, _. split; [done|]. constructor; auto.
    destruct (vm_space s' !! addr) eqn:E; [|done]. intros _. left. apply O1. eauto.
Qed.
End fault.
