(* ===== verification/VmarSyscalls.v ===== *)
(** * The memory system calls

    [kernel/core/src/syscall/{mmap,munmap,mprotect,madvise,mremap,brk}.rs] and the heap of
    [process/process_vm/heap.rs], over the address space of the calling process.

    The file that [mmap] maps is an argument: what the file table and the file say about it.  So is the
    memory object that an anonymous shared mapping allocates, and the limits of the process. *)

From S2P Require Import Prelude Flags Align IntervalSet VmMapping Vmar.

Section syscalls.
Context `{BF : Bitflags} (me : nat) (rlimit_as : option Z).

(** [if !addr.is_multiple_of(..)], the length and the upper end, as [munmap] and [madvise] check them:
    [addr..(addr + len).align_up(PAGE_SIZE)], or the error. *)
Definition user_range (addr len : Z) (too_high : Errno) : run (result (option Range)) :=
  if negb (is_multiple_of addr PAGE_SIZE) then Ret (Err EINVAL)
  else if len =? 0 then Ret (Ok None)
  else if (VMAR_CAP_ADDR <? addr) || (VMAR_CAP_ADDR - addr <? len) then Ret (Err too_high)
  else end_ ← align_up (addr + len) PAGE_SIZE; Ret (Ok (Some (mkRange addr end_))).

Definition sys_munmap (addr len : Z) (s : Vmar) : run (result Z * Vmar) :=
  r ← user_range addr len EINVAL;
  match r with
  | Err e => Ret (Err e, s)
  | Ok None => Ret (Err EINVAL, s)
  | Ok (Some addr_range) => s ← remove_mapping me addr_range s; Ret (Ok 0, s)
  end.

(** [PROT_WRITE] implies [PROT_READ]. *)
Definition with_implied_read (vm_perms : Z) : Z :=
  if negb (bf_contains vm_perms VmPerms_READ) && bf_contains vm_perms VmPerms_WRITE
  then bf_union vm_perms VmPerms_READ
  else vm_perms.

Definition sys_mprotect (addr len perms : Z) (s : Vmar) : run (result Z * Vmar) :=
  match VmPerms_from_user_bits (perms mod 2 ^ 32) with
  | Err e => Ret (Err e, s)
  | Ok vm_perms =>
      r ← user_range addr len ENOMEM;
      match r with
      | Err e => Ret (Err e, s)
      | Ok None => Ret (Ok 0, s)
      | Ok (Some addr_range) =>
          '(res, s) ← protect me (with_implied_read vm_perms) addr_range s;
          Ret (match res with Ok _ => Ok 0 | Err e => Err e end, s)
      end
  end.

(** ** [madvise] *)
Inductive MadviseBehavior :=
  | MADV_NORMAL | MADV_RANDOM | MADV_SEQUENTIAL | MADV_WILLNEED | MADV_DONTNEED | MADV_FREE | MADV_REMOVE
  | MADV_DONTFORK | MADV_DOFORK | MADV_HWPOISON | MADV_SOFT_OFFLINE | MADV_MERGEABLE | MADV_UNMERGEABLE
  | MADV_HUGEPAGE | MADV_NOHUGEPAGE | MADV_DONTDUMP | MADV_DODUMP | MADV_WIPEONFORK | MADV_KEEPONFORK
  | MADV_COLD | MADV_PAGEOUT | MADV_POPULATE_READ | MADV_POPULATE_WRITE | MADV_DONTNEED_LOCKED.

Definition MadviseBehavior_try_from (v : Z) : result MadviseBehavior :=
  match v with
  | 0 => Ok MADV_NORMAL | 1 => Ok MADV_RANDOM | 2 => Ok MADV_SEQUENTIAL | 3 => Ok MADV_WILLNEED
  | 4 => Ok MADV_DONTNEED | 8 => Ok MADV_FREE | 9 => Ok MADV_REMOVE | 10 => Ok MADV_DONTFORK
  | 11 => Ok MADV_DOFORK | 100 => Ok MADV_HWPOISON | 101 => Ok MADV_SOFT_OFFLINE | 12 => Ok MADV_MERGEABLE
  | 13 => Ok MADV_UNMERGEABLE | 14 => Ok MADV_HUGEPAGE | 15 => Ok MADV_NOHUGEPAGE | 16 => Ok MADV_DONTDUMP
  | 17 => Ok MADV_DODUMP | 18 => Ok MADV_WIPEONFORK | 19 => Ok MADV_KEEPONFORK | 20 => Ok MADV_COLD
  | 21 => Ok MADV_PAGEOUT | 22 => Ok MADV_POPULATE_READ | 23 => Ok MADV_POPULATE_WRITE
  | 24 => Ok MADV_DONTNEED_LOCKED
  | _ => Err EINVAL
  end.

Definition DUMMY_MADVISE (b : MadviseBehavior) : bool :=
  match b with
  | MADV_NORMAL | MADV_RANDOM | MADV_SEQUENTIAL | MADV_WILLNEED | MADV_FREE | MADV_MERGEABLE
  | MADV_UNMERGEABLE | MADV_HUGEPAGE | MADV_NOHUGEPAGE => true
  | _ => false
  end.

Definition sys_madvise (addr len behavior : Z) (s : Vmar) : run (result Z * Vmar) :=
  match MadviseBehavior_try_from behavior with
  | Err e => Ret (Err e, s)
  | Ok behavior =>
      r ← user_range addr len EINVAL;
      match r with
      | Err e => Ret (Err e, s)
      | Ok None => Ret (Ok 0, s)
      | Ok (Some addr_range) =>
          match behavior with
          | MADV_DONTNEED =>
              '(res, s) ← discard_pages addr_range s;
              Ret (match res with Ok _ => Ok 0 | Err e => Err e end, s)
          | _ =>
              if DUMMY_MADVISE behavior then
                fully_mapped ← is_fully_mapped addr_range s;
                Ret (if fully_mapped : bool then Ok 0 else Err ENOMEM, s)
              else Ret (Err EINVAL, s)
          end
      end
  end.

(** ** [mremap] *)
Definition MREMAP_MAYMOVE : Z := 2 ^ 0.
Definition MREMAP_FIXED : Z := 2 ^ 1.
Definition MREMAP_DONTUNMAP : Z := 2 ^ 2.

Definition do_sys_mremap (old_addr old_size new_size flags new_addr : Z) (s : Vmar) : run (result Z * Vmar) :=
  let maymove := bf_contains flags MREMAP_MAYMOVE in
  let fixed := bf_contains flags MREMAP_FIXED in
  let dontunmap := bf_contains flags MREMAP_DONTUNMAP in
  if negb (is_multiple_of old_addr PAGE_SIZE) then Ret (Err EINVAL, s)
  else if new_size =? 0 then Ret (Err EINVAL, s)
  else if old_size =? 0 then Ret (Err EINVAL, s)
  else if negb (is_some (checked_add old_size PAGE_SIZE)) || negb (is_some (checked_add new_size PAGE_SIZE)) then Ret (Err EINVAL, s)
  else if dontunmap && negb maymove then Ret (Err EINVAL, s)
  else if dontunmap && negb (new_size =? old_size) then Ret (Err EINVAL, s)
  else
    old_size ← align_up old_size PAGE_SIZE;
    new_size ← align_up new_size PAGE_SIZE;
    let action := if dontunmap then Keep else Unmap in
    let resize check_single_mapping :=
      '(res, s) ← resize_mapping me rlimit_as old_addr old_size new_size check_single_mapping s;
      Ret (match res with Ok _ => Ok old_addr | Err e => Err e end, s) in
    if negb fixed && (new_size <=? old_size) && bool_decide (action = Unmap) then resize false
    else if maymove then remap me rlimit_as old_addr old_size (if fixed then Some new_addr else None) new_size action s
    else if fixed then Ret (Err EINVAL, s)
    else resize true.

Definition sys_mremap (old_addr old_size new_size flags new_addr : Z) (s : Vmar) : run (result Z * Vmar) :=
  match bf_from_bits (bf_union (bf_union MREMAP_MAYMOVE MREMAP_FIXED) MREMAP_DONTUNMAP) flags with
  | None => Ret (Err EINVAL, s)
  | Some flags => do_sys_mremap old_addr old_size new_size flags new_addr s
  end.

(** ** [mmap] *)
Inductive MMapType := TypeShared | TypePrivate | TypeSharedValidate.

#[export] Instance MMapType_eq_dec : EqDecision MMapType.
Proof. solve_decision. Defined.

Definition MMapType_is_shared (t : MMapType) : bool :=
  match t with TypeShared | TypeSharedValidate => true | TypePrivate => false end.

Definition MMapType_try_from (v : Z) : result MMapType :=
  match v with 1 => Ok TypeShared | 2 => Ok TypePrivate | 3 => Ok TypeSharedValidate | _ => Err EINVAL end.

Definition MAP_FIXED : Z := 0x10.
Definition MAP_ANONYMOUS : Z := 0x20.
Definition MAP_32BIT : Z := 0x40.
Definition MAP_FIXED_NOREPLACE : Z := 0x100000.

(** All the flags but [MAP_FIXED_NOREPLACE]. *)
Definition LEGACY_MMAP_FLAGS : Z :=
  Z.lor MAP_FIXED (Z.lor MAP_ANONYMOUS (Z.lor MAP_32BIT (Z.lor 0x100 (Z.lor 0x800 (Z.lor 0x1000 (Z.lor 0x2000 (Z.lor 0x4000
    (Z.lor 0x8000 (Z.lor 0x10000 (Z.lor 0x20000 0x40000)))))))))).

Definition MAP_TYPE_MASK : Z := 0xf.

Record MMapOptions := mkMMap { mm_typ : MMapType; mm_flags : Z }.

Definition MMapOptions_try_from (value : Z) : result MMapOptions :=
  typ ← MMapType_try_from (Z.land value MAP_TYPE_MASK);
  let flags_raw := Z.ldiff value MAP_TYPE_MASK in
  if bool_decide (typ = TypeSharedValidate) && negb (Z.ldiff flags_raw LEGACY_MMAP_FLAGS =? 0) then Err EOPNOTSUPP
  else Ok (mkMMap typ (bf_from_bits_truncate (Z.lor LEGACY_MMAP_FLAGS MAP_FIXED_NOREPLACE) flags_raw)).

Definition is_fixed (flags : Z) : bool := bf_contains flags MAP_FIXED || bf_contains flags MAP_FIXED_NOREPLACE.

Definition check_len (len : Z) : run (result Z) :=
  if len =? 0 then Ret (Err EINVAL)
  else if VMAR_CAP_ADDR <? len then Ret (Err ENOMEM)
  else len ← align_up len PAGE_SIZE; Ret (Ok len).

Definition check_addr (addr len : Z) : result unit :=
  if VMAR_CAP_ADDR - len <? addr then Err ENOMEM
  else if negb (is_multiple_of addr PAGE_SIZE) then Err EINVAL
  else if addr <? VMAR_LOWEST_ADDR then Err EPERM
  else Ok tt.

Definition adjust_addr_hint (addr len : Z) : run Z :=
  addr ← align_down addr PAGE_SIZE;
  if addr =? 0 then Ret 0
  else
    let addr := if addr <? VMAR_LOWEST_ADDR then VMAR_LOWEST_ADDR else addr in
    Ret (if VMAR_CAP_ADDR - len <? addr then 0 else addr).

Definition ISIZE_MAX : Z := 2 ^ 63 - 1.

Definition check_offset (offset len flags : Z) : result unit :=
  if negb (is_multiple_of offset PAGE_SIZE) then Err EINVAL
  else if bf_contains flags MAP_ANONYMOUS then Ok tt
  else
    match checked_add offset len with
    | None => Err EOVERFLOW
    | Some end_ => if ISIZE_MAX <=? end_ then Err EOVERFLOW else Ok tt
    end.

(** The file behind the descriptor: its identity, whether it was opened as a path, for reading, for
    writing, and on a mount with [noexec]; what it offers to map, for a private or a shared mapping; and
    the seals when it is a [MemfdInode]. *)
Record MmapFile := mkMmapFile {
  mf_file : nat;
  mf_o_path : bool;
  mf_readable : bool;
  mf_writable : bool;
  mf_noexec : bool;
  mf_mappable : bool -> result MappableObject;
  mf_memfd : option Z
}.

(** [VmarMapOptions::new], with the offset and the mode set. *)
Definition new_map (size vm_perms : Z) (offset : VmarMapOffset) (mode : MmapMode) : VmarMapOptions :=
  mkOptions None None None vm_perms VmPerms_ALL_MAY_PERMS 0 size offset PAGE_SIZE mode false.

Definition map_offset (flags addr : Z) : VmarMapOffset :=
  if is_fixed flags then
    if bf_contains flags MAP_FIXED_NOREPLACE then FixedNoReplace addr else FixedReplace addr
  else if bf_contains flags MAP_32BIT then Map32Bit (if addr =? 0 then None else Some addr)
  else if addr =? 0 then Any else Hint addr.

(** The options for an anonymous mapping. *)
Definition anonymous_options (o : VmarMapOptions) (typ : MMapType) (shared_vmo : result nat) : result VmarMapOptions :=
  if bool_decide (typ = TypeSharedValidate) then Err EINVAL
  else if MMapType_is_shared typ then
    vmo ← shared_vmo;
    Ok (mkOptions (Some (MappableVmo vmo)) (o_file o) (o_memfd o) (o_perms o) (o_may_perms o) (o_vmo_offset o) (o_size o)
          (o_offset o) (o_align o) (o_map_mode o) (o_handle_page_faults_around o))
  else Ok o.

(** The options for the mapping of a file. *)
Definition file_options (o : VmarMapOptions) (typ : MMapType) (offset : Z) (file : result MmapFile) : result VmarMapOptions :=
  file ← file;
  if mf_o_path file then Err EBADF
  else if negb (mf_readable file) then Err EACCES
  else
    let vm_perms := o_perms o in
    let shared_readonly := MMapType_is_shared typ && negb (mf_writable file) in
    if shared_readonly && bf_contains vm_perms VmPerms_WRITE then Err EACCES
    else
      let may := VmPerms_ALL_MAY_PERMS in
      let may := if shared_readonly then bf_difference may VmPerms_MAY_WRITE else may in
      if mf_noexec file && bf_contains vm_perms VmPerms_EXEC then Err EPERM
      else
        let may := if mf_noexec file then bf_difference may VmPerms_MAY_EXEC else may in
        mappable ← mf_mappable file (is_shared (o_map_mode o));
        Ok (mkOptions (Some mappable) (Some (mf_file file)) (mf_memfd file) vm_perms may offset (o_size o)
              (o_offset o) (o_align o) (o_map_mode o) true).

Definition do_sys_mmap (addr len vm_perms : Z) (option : MMapOptions) (file : result MmapFile) (shared_vmo : result nat) (offset : Z)
    (s : Vmar) : run (result Z * Vmar) :=
  let flags := mm_flags option in
  len ← check_len len;
  match len with
  | Err e => Ret (Err e, s)
  | Ok len =>
      addr ← (if is_fixed flags then Ret (_ ← check_addr addr len; Ok addr) else addr ← adjust_addr_hint addr len; Ret (Ok addr));
      match (addr ← addr; _ ← check_offset offset len flags; Ok addr) with
      | Err e => Ret (Err e, s)
      | Ok addr =>
          let mode := if MMapType_is_shared (mm_typ option) then Shared else Private in
          let o := new_map len (with_implied_read vm_perms) (map_offset flags addr) mode in
          match (if bf_contains flags MAP_ANONYMOUS then anonymous_options o (mm_typ option) shared_vmo
                 else file_options o (mm_typ option) offset file) with
          | Err e => Ret (Err e, s)
          | Ok o => build me rlimit_as o s
          end
      end
  end.

Definition sys_mmap (addr len perms flags : Z) (file : result MmapFile) (shared_vmo : result nat) (offset : Z) (s : Vmar) :
    run (result Z * Vmar) :=
  match MMapOptions_try_from (flags mod 2 ^ 32) with
  | Err e => Ret (Err e, s)
  | Ok option => do_sys_mmap addr len (VmPerms_from_user_bits_truncate (perms mod 2 ^ 32)) option file shared_vmo offset s
  end.

(** ** The heap *)
Record HeapInner := mkHeap { data_segment_size : Z; heap_range : Range }.

Definition heap_perms : Z := bf_union VmPerms_READ VmPerms_WRITE.

(** [Heap::map_and_init_heap]; the number of padding pages is random. *)
Definition map_and_init_heap (nr_pages_padding data_size heap_base : Z) (s : Vmar) : run (result HeapInner * Vmar) :=
  base ← align_up heap_base PAGE_SIZE;
  let heap_start := base + nr_pages_padding * PAGE_SIZE in
  let heap_end := heap_start + PAGE_SIZE in
  if VMAR_CAP_ADDR <? heap_end then Ret (Err ENOMEM, s)
  else
    '(res, s) ← build me rlimit_as (new_map PAGE_SIZE heap_perms (FixedNoReplace heap_start) Private) s;
    Ret (match res with Ok _ => Ok (mkHeap data_size (mkRange heap_start heap_end)) | Err e => Err e end, s).

(** The limit [RLIMIT_DATA] has a value, possibly [RLIM_INFINITY]. *)
Definition check_data_rlimit (rlimit_data data_size : Z) (new_heap_range : Range) : bool :=
  negb (Z.max 0 (rlimit_data - data_size) <? range_len new_heap_range).

(** The new end, or the current end on failure. *)
Definition modify_heap_end (rlimit_data new_heap_end : Z) (h : HeapInner) (s : Vmar) : run (Z * HeapInner * Vmar) :=
  let heap_start := r_start (heap_range h) in
  let current_heap_end := r_end (heap_range h) in
  let new_heap_range := mkRange heap_start new_heap_end in
  if (new_heap_end <? heap_start) || (VMAR_CAP_ADDR <? new_heap_end) ||
     negb (check_data_rlimit rlimit_data (data_segment_size h) new_heap_range)
  then Ret (current_heap_end, h, s)
  else
    current_heap_end_aligned ← align_up current_heap_end PAGE_SIZE;
    new_heap_end_aligned ← align_up new_heap_end PAGE_SIZE;
    let old_size := current_heap_end_aligned - heap_start in
    let new_size := new_heap_end_aligned - heap_start in
    let h' := mkHeap (data_segment_size h) new_heap_range in
    if old_size =? new_size then Ret (new_heap_end, h', s)
    else if new_size <? old_size then
      s ← remove_mapping me (mkRange new_heap_end_aligned current_heap_end_aligned) s;
      Ret (new_heap_end, h', s)
    else
      let o := new_map (new_size - old_size) heap_perms (FixedNoReplace (heap_start + old_size)) Private in
      '(res, s) ← build me rlimit_as o s;
      Ret (match res with Ok _ => (new_heap_end, h', s) | Err _ => (current_heap_end, h, s) end).

Definition sys_brk (rlimit_data heap_end : Z) (h : HeapInner) (s : Vmar) : run (Z * HeapInner * Vmar) :=
  if heap_end =? 0 then Ret (r_end (heap_range h), h, s) else modify_heap_end rlimit_data heap_end h s.
End syscalls.
