(* ===== verification/VmarWf.v ===== *)
(** * Well-formed address spaces

    What the operations on an address space keep besides its invariant, stated on the view of the
    address space: the permissions of a mapping never exceed those that may be asked for, the pages of
    memory objects start at page boundaries, and the flags of a page agree with the permissions of its
    mapping.  Page faults rely on it: an access that the mapping allows never panics, and is granted. *)

From S2P Require Import Prelude Flags Align IntervalSet VmMapping Vmar VmarInv VmarOps VmarProtect VmarRegion VmarPages VmarUnmap VmarRemap VmarMap PageFault PageFaultSpec.

Section perms.
Context `{BF : Bitflags}.

(** Each permission comes with the right to ask for it. *)
Lemma VmPerms_check_iff p : VmPerms_check p = Ok tt <-> forall i, 0 <= i < 3 -> Z.testbit p i = true -> Z.testbit p (i + 3) = true.
Proof.
  unfold VmPerms_check. assert (forall c : bool, (if negb c then Err EACCES else Ok tt) = Ok tt <-> c = true) as -> by by intros [].
  assert (forall i, 0 <= i -> Z.testbit VmPerms_ALL_PERMS i = (i <? 3)) as H7.
  { intros i Hi. change VmPerms_ALL_PERMS with (Z.ones 3). rewrite Z.testbit_ones_nonneg by lia. done. }
  assert (forall i, 0 <= i -> Z.testbit VmPerms_ALL_MAY_PERMS i = (3 <=? i) && (i <? 6)) as H56.
  { intros i Hi. change VmPerms_ALL_MAY_PERMS with (Z.shiftl (Z.ones 3) 3). rewrite Z.shiftl_spec by done.
    destruct (Z.leb_spec 3 i); [rewrite Z.testbit_ones_nonneg by lia|rewrite Z.testbit_neg_r by lia; done]. cbn. lia. }
  assert (forall i, 0 <= i -> Z.testbit VmPerms_all i = (i <? 6)) as H63.
  { intros i Hi. change VmPerms_all with (Z.ones 6). rewrite Z.testbit_ones_nonneg by lia. done. }
  rewrite contains_in. split.
  - intros H i Hi Hb. specialize (H i ltac:(lia)). rewrite in_intersection, in_truncate, H7, H63, Z.shiftr_spec, bf_intersection_spec in H by lia.
    destruct H as [Hr _]; [split; [done|lia]|]. by apply andb_true_iff in Hr as [? _].
  - intros H i Hi. rewrite in_intersection, in_truncate, H7, H63, Z.shiftr_spec, bf_intersection_spec, H56 by lia. intros [Hb Hlt].
    split; [|lia]. rewrite H by (done || lia). lia.
Qed.

(** Permissions that a mapping can have. *)
Definition perms_ok (p : Z) : Prop := known_perms p /\ VmPerms_check p = Ok tt.

Lemma perms_ok_protect p q :
  perms_ok q -> bf_contains VmPerms_ALL_PERMS p = true ->
  p = bf_intersection q VmPerms_ALL_PERMS \/ VmPerms_check (new_perms p q) = Ok tt -> perms_ok (new_perms p q).
Proof.
  intros [Hk Hc] Hp [->|Hn]; [rewrite new_perms_same by done; by split|]. split; [|done]. unfold known_perms, new_perms in *.
  rewrite contains_in in *. intros i Hi. rewrite all_perms_bits, orb_true_iff by done. specialize (Hk i Hi). specialize (Hp i Hi).
  autorewrite with flags. tauto.
Qed.

Lemma perms_ok_build o may :
  check_perms o = Ok tt -> may_ok o may -> perms_ok (bf_union (o_perms o) may).
Proof.
  unfold check_perms. destruct (bf_contains VmPerms_ALL_MAY_PERMS (o_may_perms o)) eqn:E1, (bf_contains VmPerms_ALL_PERMS (o_perms o)) eqn:E2; cbn [negb orb]; try done.
  rewrite VmPerms_check_iff. intros Hc Hmay.
  assert (perms_ok (bf_union (o_perms o) (o_may_perms o))) as [Hk Hc'].
  { split; [|by apply VmPerms_check_iff]. unfold known_perms. rewrite contains_in in *. intros i Hi.
    rewrite all_perms_bits, orb_true_iff by done. specialize (E1 i Hi). specialize (E2 i Hi). autorewrite with flags. tauto. }
  destruct Hmay as [->|(_ & Hw & ->)]; [done|]. split.
  - unfold known_perms in *. rewrite contains_in in *. intros i Hi. specialize (Hk i Hi). autorewrite with flags in *. tauto.
  - apply VmPerms_check_iff. intros i Hi. specialize (Hc i Hi). rewrite !in_union in Hc by lia.
    rewrite !in_union, !in_difference by lia.
    assert (~ Z.testbit (o_may_perms o) i = true) as Hlow.
    { rewrite contains_in in E1. intros Hb. apply E1 in Hb; [|lia]. assert (i = 0 \/ i = 1 \/ i = 2) as [->|[->| ->]] by lia; done. }
    intros [Hb|[Hb _]]; [|done]. destruct (Hc (or_introl Hb)) as [?|?]; [by left|]. right. split; [done|].
    intros H4. change VmPerms_MAY_WRITE with (2 ^ 4) in H4. rewrite Z.pow2_bits_eqb in H4 by done. apply Z.eqb_eq in H4.
    replace i with 1 in Hb by lia. unfold VmPerms_WRITE in Hw. rewrite contains_pow2 in Hw by done. congruence.
Qed.

(** ** Well-formedness *)
Record attr_ok (k : Z) (a : Attr) : Prop := {
  ak_perms : perms_ok (a_perms a);
  ak_device : forall o, a_backing a = OnDevice o -> a_mode a = Shared;
  ak_offset : page_aligned k -> forall id offset, a_backing a = OnVmo id offset -> page_aligned offset
}.

Record page_ok (a : Attr) (p : Pte) : Prop := {
  pk_read : readable (pte_flags p) = readable (a_perms a);
  pk_exec : executable (pte_flags p) = executable (a_perms a);
  pk_write : writable (pte_flags p) = true -> writable (a_perms a) = true
}.

Record space_wf (s : Vmar) : Prop := {
  sw_attr : forall k a, view (vm_mappings s) k = Some a -> attr_ok k a;
  sw_page : forall k a p, view (vm_mappings s) k = Some a -> vm_space s !! k = Some p -> page_ok a p
}.

Lemma space_wf_empty w : space_wf (Vmar_new w).
Proof. by constructor. Qed.

(** Less of the same. *)
Lemma space_wf_shrink s s' :
  space_wf s -> (forall x a, view (vm_mappings s') x = Some a -> view (vm_mappings s) x = Some a) ->
  (forall k p, vm_space s' !! k = Some p -> vm_space s !! k = Some p) -> space_wf s'.
Proof. intros [Ha Hp] Hv Hk. constructor; eauto. Qed.
End perms.

(** ** The operations keep it *)
Section ops.
Context `{BF : Bitflags} (me : nat) (base : nat -> Z) (others : nat -> nat -> list RmapEntry) (rlimit_as : option Z).
Notation vinv := (vmar_inv me base others).
Notation rest := (resting me base others).

Lemma truncated_wf r s s' : space_wf s -> truncated r s s' -> space_wf s'.
Proof.
  intros Hwf [Hv Hp]. apply (space_wf_shrink s); [done| |].
  - intros x a. rewrite Hv. by case_decide.
  - intros k p. rewrite Hp. by case_decide.
Qed.

Lemma removed_wf rs s s' : space_wf s -> removed rs s s' -> space_wf s'.
Proof.
  intros Hwf [Hv Hp]. apply (space_wf_shrink s); [done| |].
  - intros x a. rewrite Hv. by case_decide.
  - intros k p. rewrite Hp. by case_decide.
Qed.

Lemma discarded_wf r stop s s' : space_wf s -> discarded r stop s s' -> space_wf s'.
Proof.
  intros Hwf [Hm Hp _]. apply (space_wf_shrink s); [done| |].
  - intros x a. by rewrite Hm.
  - intros k p. rewrite Hp. by case_decide.
Qed.

Lemma untouched_wf s s' : space_wf s -> untouched s s' -> space_wf s'.
Proof. intros Hwf (Hm & Hp & _). apply (space_wf_shrink s); [done| |]; [by rewrite Hm|by rewrite Hp]. Qed.

(** The flags that a page gets when its permissions are set. *)
Lemma attr_flags_ok a f : page_ok a (mkPte f (attr_flags a)).
Proof.
  assert (forall i, 0 <= i < 3 -> Z.testbit (PageFlags_from_perms (a_perms a)) i = Z.testbit (a_perms a) i) as H.
  { intros i Hi. rewrite PageFlags_from_perms_bits by lia. by rewrite (proj2 (Z.ltb_lt i 3)) by lia. }
  assert (forall i, 0 <= i -> Z.testbit (bf_difference (PageFlags_from_perms (a_perms a)) PageFlags_W) i =
     Z.testbit (PageFlags_from_perms (a_perms a)) i && negb (1 =? i)) as Hd.
  { intros i Hi. rewrite bf_difference_spec by done. unfold PageFlags_W. by rewrite Z.pow2_bits_eqb. }
  unfold attr_flags. constructor; cbn [pte_flags]; unfold readable, writable, executable; destruct (a_backing a);
    rewrite ?Hd, ?H by lia; cbn; rewrite ?andb_true_r, ?andb_false_r; done.
Qed.

Lemma attr_flags_page_ok a p : pte_flags p = attr_flags a -> page_ok a p.
Proof. intros E. destruct p as [f fl]. cbn in E. subst. apply attr_flags_ok. Qed.

Lemma protected_wf p r s s' stop :
  space_wf s -> bf_contains VmPerms_ALL_PERMS p = true -> protected_upto p r s s' stop -> space_wf s'.
Proof.
  intros [Ha Hp] Hpp [Hv Hm Hpg _]. constructor.
  - intros k a. rewrite Hv. case_decide as Hk; [|apply Ha]. destruct (Hm k Hk) as (a0 & Ea & Hck). rewrite Ea. intros [= <-].
    destruct (Ha k a0 Ea) as [Hpe Hdv Hof]. constructor; [by apply perms_ok_protect|exact Hdv|exact Hof].
  - intros k a q Hva Hq. specialize (Hpg k). unfold page_protected in Hpg. rewrite Hq in Hpg.
    destruct (vm_space s !! k) as [q0|] eqn:E0; [|done]. destruct Hpg as [_ [[-> Hsame]|(a' & Ha' & Hf)]].
    + rewrite Hva in Hsame. by apply (Hp k).
    + rewrite Hva in Ha'. injection Ha' as <-. by apply attr_flags_page_ok.
Qed.

Lemma attr_shift_ok a k d at_ :
  attr_ok a at_ -> page_aligned a -> (page_aligned k -> page_aligned d) -> attr_ok k (attr_shift at_ d).
Proof.
  intros [Hp Hdv Ho] Ha Hd. constructor; [done| |].
  { intros o. cbn. destruct (a_backing at_); try done. intros _. by eapply Hdv. }
  intros Hk id offset. cbn. destruct (a_backing at_) as [|v o|o] eqn:E; try done.
  intros [= -> <-]. apply page_aligned_add; [by apply (Ho Ha id)|by apply Hd].
Qed.

Lemma grown_wf m n s s' : rest s -> space_wf s -> m ∈ vm_mappings s -> grown m n s s' -> space_wf s'.
Proof.
  intros [Hinv _] Hwf Hm (Hv & Hp & Hfree). pose proof (vi_intervals _ _ _ _ _ _ Hinv) as Hl. pose proof Hwf as [Ha Hpg].
  assert (placed m) as ((? & Hma & _) & _) by (apply (vi_placed _ _ _ _ _ _ Hinv); rewrite app_nil_r; done).
  constructor.
  - intros k a. rewrite Hv. case_decide as Hk; [|apply Ha]. intros [= <-]. rewrite (attr_at_shift m (map_to_addr m)).
    apply (attr_shift_ok (map_to_addr m)); [|done|intros; by apply page_aligned_sub].
    apply Ha. apply view_Some; [done|done|]. rewrite contains_iff. unfold map_end. lia.
  - intros k a p. rewrite Hv, Hp. case_decide as Hk; [|apply Hpg]. intros _ Hkp. exfalso.
    rewrite (region_free_pages me base others 0 s (map_end m) n k Hinv Hfree Hk) in Hkp. done.
Qed.

Lemma remapped_wf a old new r action s s' :
  space_wf s -> remapped a old new r action s s' -> page_aligned a -> page_aligned r -> space_wf s'.
Proof.
  intros [Ha Hp] [(at_ & Ea & Hold & Hnew) Hrest Hpg] Haa Hra. constructor.
  - intros k b. destruct (decide (r <= k < r + new)) as [Hk|Hk].
    + rewrite Hnew by done. intros [= <-]. apply (attr_shift_ok a); [by apply Ha|done|intros; by apply page_aligned_sub].
    + rewrite Hrest by done. intros Hb. case_decide; [discriminate|]. by apply Ha.
  - intros k b p Hb Hq. rewrite Hpg in Hq. destruct (decide (r <= k < r + new)) as [Hk|Hk].
    + rewrite Hnew in Hb by done. injection Hb as <-. destruct (decide (r <= k < r + Z.min old new)) as [Hk'|Hk'].
      * destruct (Hp (k - (r - a)) (attr_shift at_ (k - r)) p) as [H1 H2 H3]; [|done|by constructor].
        rewrite Hold by lia. do 2 f_equal. lia.
      * rewrite decide_True in Hq by auto. done.
    + rewrite Hrest in Hb by done. rewrite decide_False in Hq by lia.
      destruct (decide (a <= k < a + old \/ r <= k < r + new)); [done|]. destruct (decide (_ /\ ~ _)); [done|]. by apply (Hp k).
Qed.

Lemma mapped_wf o addr s s' :
  space_wf s -> check_options o = Ok tt -> mapped rlimit_as o addr s s' -> space_wf s'.
Proof.
  intros [Ha Hp] Hck [[_ Haddr] (m & [[Hma Hms] (_ & Hmode & _) (may & Hmay & Hpe) Hmem] & Hv & Hpg) Hout _ _].
  pose proof (check_options_spec me base others o) as Hspec. rewrite Hck in Hspec. destruct Hspec as (Hal & Hpow & _ & Hof & _ & Hcp).
  assert (page_aligned (o_vmo_offset o)) as Hoff.
  { apply (multiple_of_multiple _ (o_align o)); [done|unfold is_power_of_two in Hpow; boolify; lia|by apply Z.eqb_eq]. }
  assert (forall x, contains m x <-> addr <= x < addr + o_size o) as Hc by (intros x; rewrite contains_iff; unfold map_end; lia).
  constructor.
  - intros k a. rewrite Hv. case_decide as Hk; [|apply Ha]. intros [= <-]. constructor; cbn.
    + rewrite Hpe. by apply perms_ok_build.
    + intros ob. rewrite Hmode. destruct (o_mappable o) as [[v|inst r]|]; [rewrite Hmem|destruct Hmem as (ob' & _ & -> & ->)|rewrite Hmem]; done.
    + intros Hka id offset. destruct (o_mappable o) as [[v|inst r]|]; [rewrite Hmem|destruct Hmem as (ob & _ & -> & _)|rewrite Hmem]; cbn; try done.
      intros [= _ <-]. apply page_aligned_add; [done|]. apply page_aligned_sub; [done|].
      by rewrite Hma.
  - intros k a p. rewrite Hv. case_decide as Hk.
    + intros [= <-] Hq. destruct (Hpg k p Hk Hq) as (Hexp & Hfl & _). apply attr_flags_page_ok. rewrite Hfl. unfold attr_flags. cbn.
      unfold can_expand in Hexp. by destruct (mapped_mem m).
    + intros Ev. rewrite Hout by (rewrite <- Hc; done). by apply Hp.
Qed.

Lemma build_Ok_options o s addr s' : build me rlimit_as o s = Ret (Ok addr, s') -> check_options o = Ok tt.
Proof. unfold build. by destruct (check_options o) as [[]|]. Qed.

Lemma replaced_wf o s s' : space_wf s -> replaced o s s' -> space_wf s'.
Proof.
  intros Hwf. unfold replaced. destruct (o_offset o); try (by intros ->). intros [Ht _]. by eapply truncated_wf.
Qed.

Lemma build_wf o s s' res :
  space_wf s -> build me rlimit_as o s = Ret (res, s') -> build_outcome rlimit_as o s s' res -> space_wf s'.
Proof.
  intros Hwf Eb. destruct res as [addr|e]; cbn.
  - apply mapped_wf; [done|]. by apply build_Ok_options in Eb.
  - intros [->|(s1 & Hr & Hu)]; [done|]. eapply untouched_wf; [|done]. by eapply replaced_wf.
Qed.

Lemma remap_Ok_aligned a old na new action s r s' :
  remap me rlimit_as a old (Some na) new action s = Ret (Ok r, s') -> page_aligned na.
Proof.
  unfold remap, remap_check_new. intros H. run_inv. destruct (is_multiple_of na PAGE_SIZE) eqn:E; [by apply is_multiple_of_spec|done].
Qed.

Lemma remap_wf a old na new action s s' res :
  space_wf s -> page_aligned a -> remap me rlimit_as a old na new action s = Ret (res, s') ->
  remap_outcome a old na new action s s' res -> space_wf s'.
Proof.
  intros Hwf Ha Er. destruct res as [r|e]; cbn.
  - intros [Hr Hrm]. apply (remapped_wf a old new r action s s'); try done. destruct na as [na|].
    + subst r. by eapply remap_Ok_aligned.
    + apply Hr.
  - intros [[_ ->]|[_ [->|Hrm]]]; [done|done|by eapply removed_wf].
Qed.

Lemma resize_wf a old new single s s' res :
  rest s -> space_wf s -> resize_outcome rlimit_as a old new single s s' res -> space_wf s'.
Proof.
  intros Hrest Hwf. destruct res as [[]|e]; cbn; [|by intros [-> _]]. intros [_ H]. repeat case_decide.
  - by eapply truncated_wf.
  - by subst.
  - destruct H as (m & Hm & _ & _ & _ & _ & Hg). by eapply grown_wf.
Qed.
End ops.

(** ** Page faults *)

(** An object that is asked for a page to be written grants just that. *)
Definition honest (commit : Vmos_commit) : Prop :=
  forall id offset f granted, commit id offset ModeSharedWrite = inr (f, granted) -> granted = ModeSharedWrite.

Section faults.
Context `{BF : Bitflags} (env : FaultEnv) (me : nat) (base : nat -> Z) (others : nat -> nat -> list RmapEntry).
Notation rest := (resting me base others).

Lemma check_perms_unforced m info :
  is_forced info = false -> check_perms_for_page_fault m info = if bf_contains (perms m) (required_perms info) then Ok tt else Err EACCES.
Proof. intros Hf. unfold check_perms_for_page_fault. rewrite Hf. by destruct (bf_contains _ _). Qed.

(** The access lies within the permissions. *)
Definition allowed (p required : Z) : Prop :=
  (readable required = true -> readable p = true) /\ (writable required = true -> writable p = true) /\
  (executable required = true -> executable p = true).

Lemma contains_allowed p required : access required -> bf_contains p required = true -> allowed p required.
Proof.
  intros Ha Hc. rewrite contains_in in Hc. split_and!; intros Hb; [by apply (Hc 0)|by apply (Hc 1)|by apply (Hc 2)].
Qed.

Lemma written_flags_rwx f :
  readable (written_flags f) = readable f /\ writable (written_flags f) = true /\ executable (written_flags f) = executable f.
Proof.
  unfold readable, writable, executable. rewrite !written_flags_bits by lia. cbn. rewrite !orb_false_r. by rewrite orb_true_r.
Qed.

Lemma faulted_page_ok answers m required old q k :
  faulted env answers m required old q -> allowed (perms m) required ->
  (forall p, old = Some p -> page_ok (attr_at m k) p) -> page_ok (attr_at m k) q.
Proof.
  intros Hf (_ & Hw & _). destruct Hf as [p Hreq _|p f Hreq _ _|f fl _ _ (R & X & W)|v f fl commit offset mode granted b Hv Hin Hc (R & X & W) Hb Hreq|o f Ho _]; intros Hold.
  1, 2: destruct (Hold p eq_refl) as [H1 H2 H3]; destruct (written_flags_rwx (pte_flags p)) as (R & W & X);
    constructor; cbn [pte_flags]; rewrite ?R, ?W, ?X; auto.
  - rewrite andb_true_l in W. constructor; cbn [pte_flags]; try done; rewrite W; done.
  - constructor; cbn [pte_flags]; try done. rewrite W. by intros [_ ?]%andb_true_iff.
  - apply attr_flags_page_ok. unfold attr_flags. cbn. by rewrite Ho.
Qed.

Lemma faulted_grants answers m required old q k :
  faulted env answers m required old q -> access required -> allowed (perms m) required -> Forall honest answers ->
  (forall p, old = Some p -> page_ok (attr_at m k) p) -> grants (pte_flags q) required.
Proof.
  intros Hf Hacc (Hr & Hw & Hx) Hhon Hold. apply grants_iff; [done|]. revert Hold. destruct Hf as [p Hreq _|p f Hreq _ _|f fl _ _ (R & X & W)|v f fl commit offset mode granted b Hv Hin Hc (R & X & W) Hb Hreq|o f Ho _]; cbn [pte_flags]; intros Hold.
  1, 2: destruct (Hold p eq_refl) as [H1 H2 _]; destruct (written_flags_rwx (pte_flags p)) as (-> & -> & ->); rewrite H1, H2; auto.
  - rewrite R, X, W. auto.
  - rewrite R, X, W. split_and!; auto. intros Hwr. destruct (Hreq Hwr) as (_ & -> & ->).
    rewrite Forall_forall in Hhon. apply (Hhon _ Hin) in Hc. subst granted. rewrite bool_decide_true by done. auto.
  - unfold readable, writable, executable in *. rewrite !PageFlags_from_perms_bits by lia. cbn. auto.
Qed.

(** The mapping at an address, as the view shows it. *)
Lemma view_mapping s k a : rest s -> view (vm_mappings s) k = Some a ->
  exists m, m ∈ vm_mappings s /\ contains m k /\ a = attr_at m k /\ find_one k (vm_mappings s) = Some m.
Proof.
  intros [Hinv _] Hv. pose proof (vi_intervals _ _ _ _ _ _ Hinv) as Hl. rewrite find_one_covering by done.
  unfold view in Hv. destruct (covering k (vm_mappings s)) as [m|] eqn:E; [|done]. injection Hv as <-.
  apply covering_Some in E as [? ?]; [|done]. eauto.
Qed.

Definition fault_page (info : PageFaultInfo) : Z := fault_address info - fault_address info mod PAGE_SIZE.

(** The fault is refused, or handled in the mapping. *)
Definition fault_outcome (answers : list Vmos_commit) (info : PageFaultInfo) (res : result unit) (s s' : Vmar) : Prop :=
  (exists m, m ∈ vm_mappings s /\ contains m (fault_address info) /\ bf_contains (perms m) (required_perms info) = true /\
     fault_step env answers m (required_perms info) s s' /\
     (res = Ok tt -> Forall honest answers -> is_device m = false ->
        exists q, vm_space s' !! fault_page info = Some q /\ grants (pte_flags q) (required_perms info))) \/
  ((forall a, view (vm_mappings s) (fault_address info) = Some a -> bf_contains (a_perms a) (required_perms info) = false) /\
   res = Err EACCES /\ s' = s).

Lemma fault_step_wf answers m required s s' :
  rest s -> space_wf s -> m ∈ vm_mappings s -> allowed (perms m) required -> fault_step env answers m required s s' -> space_wf s'.
Proof.
  intros [Hinv _] [Ha Hp] Hm Hal [Em _ _ Hpg _]. pose proof (vi_intervals _ _ _ _ _ _ Hinv) as Hl. constructor; rewrite Em; [done|].
  intros k a q Hv Hq. destruct (Hpg k) as [E|(q' & Hc & _ & Hq' & Hf)]; [rewrite E in Hq; by apply (Hp k)|].
  rewrite Hq in Hq'. injection Hq' as <-. rewrite (view_Some _ k m Hl Hm Hc) in Hv. injection Hv as <-.
  apply (faulted_page_ok answers m required (vm_space s !! k)); try done. intros p Ep. apply (Hp k); [|done]. by apply view_Some.
Qed.

Lemma handle_page_fault_spec answers info s :
  rest s -> space_wf s -> (forall id, page_aligned (vmo_size env id)) -> Exists settled answers ->
  is_forced info = false -> access (required_perms info) ->
  exists res s', handle_page_fault env info answers s = Ret (res, s') /\ rest s' /\ space_wf s' /\ fault_outcome answers info res s s'.
Proof.
  intros Hrest Hwf Hsz Hset Hun Hacc. pose proof Hrest as [Hinv _]. pose proof (vi_intervals _ _ _ _ _ _ Hinv) as Hl.
  unfold handle_page_fault. destruct (view (vm_mappings s) (fault_address info)) as [a|] eqn:Hv.
  2: { assert (covering (fault_address info) (vm_mappings s) = None) as Hn by (unfold view in Hv; by destruct (covering _ _)).
       rewrite find_one_covering, Hn by done. eexists _, _. split; [done|]. split; [done|]. split; [done|]. right.
       split; [|done]. intros a Ha. congruence. }
  destruct (view_mapping s _ a Hrest Hv) as (m & Hm & Hc & -> & ->). pose proof Hc as Hc'. rewrite contains_iff in Hc'.
  unfold range_contains. rewrite range_mapping. cbn [r_start r_end]. rewrite (proj2 (Z.leb_le _ _)), (proj2 (Z.ltb_lt _ _)) by lia.
  cbn [andb assert_run mbind run_bind]. destruct (bf_contains (perms m) (required_perms info)) eqn:Hp.
  2: { unfold VmMapping_handle_page_fault. rewrite check_perms_unforced, Hp by done. cbn [mbind run_bind].
       rewrite (resting_idle me base others) by done. eexists _, _. split; [done|]. split; [done|]. split; [done|]. right.
       split; [|done]. intros a Ha. rewrite Ha in Hv. by injection Hv as ->. }
  assert (placed m) as Hpl by (apply (vi_placed _ _ _ _ _ _ Hinv); rewrite app_nil_r; done).
  destruct (align_down_contains m _ Hpl Hc) as [Hca Hal]. fold (fault_page info) in Hca, Hal.
  pose proof (contains_allowed _ _ Hacc Hp) as Hallow.
  assert (forall p, vm_space s !! fault_page info = Some p -> page_ok (attr_at m (fault_page info)) p) as Hpage.
  { intros p Ep. apply (sw_page _ Hwf (fault_page info)); [|done]. by apply view_Some. }
  destruct (VmMapping_handle_page_fault_spec env me base others answers Hset Hsz m info (RssDelta_new s)) as (res & s' & -> & [I R S O]); try done.
  { by apply resting_start. }
  { intros v Ev. assert (view (vm_mappings s) (map_to_addr m) = Some (attr_at m (map_to_addr m))) as Hv0.
    { apply view_Some; [done|done|]. rewrite contains_iff. destruct Hpl as ((? & _) & _). unfold map_end. lia. }
    pose proof (ak_offset _ _ (sw_attr _ Hwf _ _ Hv0)) as Hof. cbn in Hof. rewrite Ev, Z.sub_diag in Hof. cbn in Hof. rewrite Z.add_0_r in Hof.
    apply (Hof (proj1 (proj2 (proj1 Hpl))) _ _ eq_refl). }
  { by rewrite check_perms_unforced, Hp. }
  { intros p Ep Hw. destruct (Hpage p Ep) as [H1 H2 H3]. apply grants_iff; [done|]. destruct Hallow as (A1 & A2 & A3). rewrite H1, H2.
    split_and!; auto. congruence. }
  cbn [mbind run_bind]. eexists _, _. split; [done|]. split; [by apply resting_end|].
  assert (fault_step env answers m (required_perms info) s (RssDelta_drop s')) as Hst by (destruct S; by constructor).
  split; [by eapply fault_step_wf|]. left. exists m. split_and!; try done. intros Hok Hhon Hnd.
  destruct (O Hok) as [(q & Hq & Hg)|(Hd & _)]; [|congruence].
  exists q. split; [done|]. destruct Hg as [[_ ?]|Hf]; [done|]. by apply (faulted_grants answers m _ (vm_space s !! fault_page info) q (fault_page info)).
Qed.
(** The mapping at the address handles the fault. *)
Lemma handle_page_fault_at s m info answers :
  intervals (vm_mappings s) -> m ∈ vm_mappings s -> contains m (fault_address info) ->
  handle_page_fault env info answers s =
    ('(res, s) ← VmMapping_handle_page_fault env m info answers (RssDelta_new s); Ret (res, RssDelta_drop s)).
Proof.
  intros Hl Hm Hc. unfold handle_page_fault. rewrite find_one_covering, (proj2 (covering_Some _ _ m Hl)) by done.
  pose proof Hc as Hc'. rewrite contains_iff in Hc'. unfold range_contains. rewrite range_mapping. cbn [r_start r_end].
  rewrite (proj2 (Z.leb_le _ _)), (proj2 (Z.ltb_lt _ _)) by lia. done.
Qed.

Lemma align_down_aligned k : 0 <= k -> page_aligned k -> align_down k PAGE_SIZE = Ret k.
Proof.
  intros H0 Hk. rewrite align_down_page by done. unfold page_aligned in Hk. rewrite Hk. f_equal. lia.
Qed.

End faults.
