(* ===== verification/VmarCalls.v ===== *)
(** * What the memory system calls do

    Each system call, with any arguments of the width of a register, returns and leaves the address space
    well-formed; and what it changes is what the operation it calls changes. *)

From S2P Require Import Prelude Flags Align IntervalSet VmMapping Vmar VmarInv VmarOps VmarProtect VmarRegion VmarPages VmarUnmap VmarRemap VmarMap PageFault PageFaultSpec VmarSyscalls VmarWf.

Lemma align_up_page x :
  0 <= x -> x + PAGE_SIZE <= u64_modulus ->
  exists y, align_up x PAGE_SIZE = Ret y /\ page_aligned y /\ x <= y < x + PAGE_SIZE.
Proof.
  intros Hx Hb. rewrite align_up_eq by (done || lia). eexists. split; [done|].
  destruct (round_down_spec (x + (PAGE_SIZE - 1)) PAGE_SIZE ltac:(done)) as [Ha Hr]. split; [done|]. lia.
Qed.

(** A page boundary at or above [x] that is not above another boundary at or above [x]. *)
Lemma align_up_le x y z : page_aligned y -> y < x + PAGE_SIZE -> page_aligned z -> x <= z -> y <= z.
Proof.
  intros Hy Hlt Hz Hle. destruct (Z_le_dec y z); [done|]. pose proof (page_step z y Hz Hy ltac:(lia)). lia.
Qed.

Lemma CAP_aligned : page_aligned VMAR_CAP_ADDR.
Proof. done. Qed.

Lemma CAP_u64 : VMAR_CAP_ADDR + PAGE_SIZE + PAGE_SIZE <= u64_modulus.
Proof. by vm_compute. Qed.

(** A call that returns before it changes anything. *)
Ltac unchanged := eexists _, _; split; [reflexivity|]; split; [done|]; split; [done|]; split; [by left|by auto || done].

Section calls.
Context `{BF : Bitflags} (me : nat) (base : nat -> Z) (others : nat -> nat -> list RmapEntry) (rlimit_as : option Z).
Notation rest := (resting me base others).

(** The bytes [addr, addr + len) up to the end of the last page. *)
Definition page_span (addr len : Z) (r : Range) : Prop :=
  r_start r = addr /\ page_aligned addr /\ page_aligned (r_end r) /\ addr + len <= r_end r < addr + len + PAGE_SIZE /\
  0 < len /\ r_end r <= VMAR_CAP_ADDR.

Definition bad_range (addr len : Z) : Prop := ~ page_aligned addr \/ VMAR_CAP_ADDR < addr + len.

Lemma user_range_spec addr len e :
  is_u64 addr -> is_u64 len ->
  exists r, user_range addr len e = Ret r /\
    match r with
    | Err e' => 0 <= len /\ bad_range addr len /\ (e' = EINVAL \/ e' = e)
    | Ok None => len = 0 /\ page_aligned addr
    | Ok (Some rg) => page_span addr len rg
    end.
Proof.
  intros [Ha _] [Hl _]. unfold user_range, bad_range. destruct (is_multiple_of addr PAGE_SIZE) eqn:E; cbn [negb].
  2: { eexists. split; [done|]. split; [done|]. split; [|by left]. left. intros H%is_multiple_of_spec. congruence. }
  apply is_multiple_of_spec in E. destruct (Z.eqb_spec len 0) as [->|Hne]; [eexists; split; done|].
  destruct ((VMAR_CAP_ADDR <? addr) || (VMAR_CAP_ADDR - addr <? len)) eqn:Eh.
  { eexists. split; [done|]. split; [done|]. split; [right|by right]. apply orb_true_iff in Eh. lia. }
  apply orb_false_iff in Eh as [E1%Z.ltb_ge E2%Z.ltb_ge]. pose proof CAP_u64. unfold PAGE_SIZE in H.
  destruct (align_up_page (addr + len)) as (y & -> & Hy & Hr); [lia|unfold PAGE_SIZE; lia|]. cbn [mbind run_bind].
  eexists. split; [done|]. unfold page_span. cbn [r_start r_end]. split_and!; try done; try lia.
  apply (align_up_le (addr + len)); [done|lia|apply CAP_aligned|lia].
Qed.

(** [munmap] unmaps the pages of the range. *)
Lemma sys_munmap_spec addr len s :
  rest s -> space_wf s -> is_u64 addr -> is_u64 len ->
  exists res s', sys_munmap me addr len s = Ret (res, s') /\ rest s' /\ space_wf s' /\
    match res with
    | Ok v => v = 0 /\ exists r, page_span addr len r /\ truncated r s s'
    | Err e => e = EINVAL /\ s' = s /\ (len = 0 \/ bad_range addr len)
    end.
Proof.
  intros Hrest Hwf Ha Hl. unfold sys_munmap. destruct (user_range_spec addr len EINVAL Ha Hl) as (r & -> & Hr). cbn [mbind run_bind].
  destruct r as [[r|]|e].
  - pose proof Hr as (E & Ha1 & Ha2 & Hb & Hl0 & _). destruct (remove_mapping_spec me base others s r Hrest) as (s' & -> & R' & T);
      [lia|by rewrite E|done|]. cbn [mbind run_bind]. eexists _, _. split; [done|]. split; [done|]. split; [by eapply truncated_wf|]. eauto.
  - eexists _, _. split; [done|]. split; [done|]. split; [done|]. tauto.
  - eexists _, _. split; [done|]. split; [done|]. split; [done|]. destruct Hr as (_ & ? & [->| ->]); auto.
Qed.

Lemma known_mappings s m : rest s -> space_wf s -> m ∈ vm_mappings s -> known_perms (perms m).
Proof.
  intros [Hinv _] Hwf Hm. pose proof (vi_intervals _ _ _ _ _ _ Hinv) as Hl.
  destruct (sw_attr _ Hwf (map_to_addr m) (attr_at m (map_to_addr m))) as [[Hk _] _ _]; [|done].
  apply view_Some; [done|done|]. destruct (vi_placed _ _ _ _ _ _ Hinv m) as ((? & _) & _); [by rewrite app_nil_r|].
  rewrite contains_iff. unfold map_end. lia.
Qed.

Lemma with_implied_read_user p : bf_contains VmPerms_ALL_PERMS p = true -> bf_contains VmPerms_ALL_PERMS (with_implied_read p) = true.
Proof.
  intros H. unfold with_implied_read. destruct (_ && _); [|done]. rewrite contains_in in *. intros i Hi. rewrite in_union by done.
  intros [?|Hr]; [auto|]. unfold VmPerms_READ in Hr. rewrite Z.pow2_bits_eqb in Hr by done. apply Z.eqb_eq in Hr. by subst.
Qed.

(** [mprotect] changes the permissions up to the first address where it may not. *)
Lemma sys_mprotect_spec addr len p s :
  rest s -> space_wf s -> is_u64 addr -> is_u64 len ->
  exists res s', sys_mprotect me addr len p s = Ret (res, s') /\ rest s' /\ space_wf s' /\
    (s' = s \/ exists q r stop, VmPerms_from_user_bits (p mod 2 ^ 32) = Ok q /\ page_span addr len r /\
       protected_upto (with_implied_read q) r s s' stop /\ protect_outcome (with_implied_read q) r s stop res) /\
    (res = Ok 0 -> page_aligned addr /\ (len = 0 \/ exists q r, VmPerms_from_user_bits (p mod 2 ^ 32) = Ok q /\ page_span addr len r /\
       protected_upto (with_implied_read q) r s s' (r_end r))).
Proof.
  intros Hrest Hwf Ha Hl. unfold sys_mprotect. destruct (VmPerms_from_user_bits (p mod 2 ^ 32)) as [q|e] eqn:Eq; [|unchanged].
  destruct (user_range_spec addr len ENOMEM Ha Hl) as (r & -> & Hr). cbn [mbind run_bind]. destruct r as [[r|]|e].
  - pose proof Hr as (E & Ha1 & Ha2 & Hb & Hl0 & _). pose proof Hrest as [Hinv Hd].
    assert (bf_contains VmPerms_ALL_PERMS (with_implied_read q) = true) as Hq.
    { apply with_implied_read_user. unfold VmPerms_from_user_bits in Eq. destruct (bf_from_bits _ _) as [q'|]; [|done].
      destruct (bf_contains VmPerms_ALL_PERMS q') eqn:E'; [|done]. by injection Eq as <-. }
    destruct (protect_spec me base others 0 (with_implied_read q) r s Hinv) as (res & s' & stop & -> & I & U & O); [|done|lia|by rewrite E|done|].
    { intros m Hm. by apply (known_mappings s). }
    cbn [mbind run_bind]. eexists _, _. split; [done|]. split; [split; [done|rewrite (proj2 (pu_rss _ _ _ _ _ U)); done]|].
    split; [by eapply protected_wf|]. destruct res as [[]|e]; cbn in O |- *.
    + split; [right; eauto 10|]. intros _. split; [done|]. right. exists q, r. subst stop. eauto.
    + split; [right; exists q, r, stop; done|done].
  - destruct Hr as [-> Hr]. unchanged.
  - unchanged.
Qed.

(** [madvise] discards pages, or says whether the range is mapped. *)
Lemma sys_madvise_spec addr len behavior s :
  rest s -> space_wf s -> is_u64 addr -> is_u64 len ->
  exists res s', sys_madvise addr len behavior s = Ret (res, s') /\ rest s' /\ space_wf s' /\
    (s' = s \/ behavior = 4 /\ exists r stop, page_span addr len r /\ discarded r stop s s') /\
    (res = Ok 0 -> behavior = 4 -> len <> 0 -> exists r, page_span addr len r /\ discarded r (r_end r) s s').
Proof.
  intros Hrest Hwf Ha Hl. unfold sys_madvise. destruct (MadviseBehavior_try_from behavior) as [b|e] eqn:Eb; [|unchanged].
  destruct (user_range_spec addr len EINVAL Ha Hl) as (r & -> & Hr). cbn [mbind run_bind]. destruct r as [[r|]|e]; [|destruct Hr as [-> _]; unchanged|unchanged].
  pose proof Hr as (E & Ha1 & Ha2 & Hb & Hl0 & _).
  assert (b = MADV_DONTNEED <-> behavior = 4) as Hdn.
  { unfold MadviseBehavior_try_from in Eb. split; [intros ->; by repeat case_match|intros ->; by injection Eb as <-]. }
  destruct (decide (behavior = 4)) as [H4|H4].
  - rewrite (proj2 Hdn H4). destruct (discard_pages_spec me base others s r Hrest) as (res & s' & stop & -> & R' & D & O); [lia|by rewrite E|done|].
    cbn [mbind run_bind]. eexists _, _. split; [done|]. split; [done|]. split; [by eapply discarded_wf|]. split; [eauto 10|].
    destruct res as [[]|e]; [|done]. intros _ _ _. exists r. destruct O as [-> _]. eauto.
  - assert (exists res, match b with MADV_DONTNEED => '(res, s) ← discard_pages r s; Ret (match res with Ok _ => Ok 0 | Err e => Err e end, s)
      | _ => if DUMMY_MADVISE b then fully_mapped ← is_fully_mapped r s; Ret (if fully_mapped : bool then Ok 0 else Err ENOMEM, s) else Ret (Err EINVAL, s) end = Ret (res, s)) as [res Hres].
    { destruct (is_fully_mapped_spec me base others 0 [] s r (proj1 Hrest)) as (fm & Efm & _); [lia|].
      destruct b; try tauto; cbn [DUMMY_MADVISE]; rewrite ?Efm; cbn [mbind run_bind]; eauto. }
    rewrite Hres. eexists _, _. split; [done|]. split; [done|]. split; [done|]. split; [by left|]. done.
Qed.

(** [mremap] resizes in place or moves. *)
Definition mremap_outcome (a old new : Z) (res : result Z) (s s' : Vmar) : Prop :=
  (exists single, resize_outcome rlimit_as a old new single s s' (match res with Ok _ => Ok tt | Err e => Err e end) /\
     forall v, res = Ok v -> v = a) \/
  (exists na action, remap_outcome a old na new action s s' res).

Lemma sys_mremap_spec a old new flags na s :
  rest s -> space_wf s -> is_u64 a -> is_u64 old -> is_u64 new ->
  exists res s', sys_mremap me rlimit_as a old new flags na s = Ret (res, s') /\ rest s' /\ space_wf s' /\
    (s' = s /\ res = Err EINVAL \/
     exists old' new', page_aligned a /\ align_up old PAGE_SIZE = Ret old' /\ align_up new PAGE_SIZE = Ret new' /\
       mremap_outcome a old' new' res s s').
Proof.
  intros Hrest Hwf [Ha _] [Ho _] [Hn _].
  assert (forall s, rest s -> space_wf s -> exists res s', Ret (Err EINVAL, s) = Ret (res, s') /\ rest s' /\ space_wf s' /\
    (s' = s /\ res = Err EINVAL \/ exists old' new', page_aligned a /\ align_up old PAGE_SIZE = Ret old' /\ align_up new PAGE_SIZE = Ret new' /\
       mremap_outcome a old' new' res s s')) as Hinval by (intros s0 ? ?; eexists _, _; split; [done|]; auto).
  unfold sys_mremap. destruct (bf_from_bits _ _) as [f|]; [|by apply Hinval]. unfold do_sys_mremap.
  destruct (is_multiple_of a PAGE_SIZE) eqn:E; cbn [negb]; [|by apply Hinval]. apply is_multiple_of_spec in E.
  destruct (Z.eqb_spec new 0); [by apply Hinval|]. destruct (Z.eqb_spec old 0); [by apply Hinval|].
  unfold checked_add. destruct (Z.ltb_spec (old + PAGE_SIZE) u64_modulus); cbn [is_some negb orb]; [|by apply Hinval].
  destruct (Z.ltb_spec (new + PAGE_SIZE) u64_modulus); cbn [is_some negb orb]; [|by apply Hinval].
  destruct (bf_contains f MREMAP_DONTUNMAP && negb (bf_contains f MREMAP_MAYMOVE)) eqn:Edm; [by apply Hinval|].
  destruct (bf_contains f MREMAP_DONTUNMAP && negb (new =? old)) eqn:Edn; [by apply Hinval|].
  destruct (align_up_page old) as (old' & Eo & Hoa & Hor); [lia|lia|]. destruct (align_up_page new) as (new' & En & Hna & Hnr); [lia|lia|].
  rewrite Eo, En. cbn [mbind run_bind].
  assert (forall single, (old' < new' -> single = true) -> exists res s', ('(res, s) ← resize_mapping me rlimit_as a old' new' single s;
    Ret (match res with Ok _ => Ok a | Err e => Err e end, s)) = Ret (res, s') /\ rest s' /\ space_wf s' /\ mremap_outcome a old' new' res s s') as Hresize.
  { intros single Hs. destruct (resize_mapping_spec me base others rlimit_as s a old' new' single) as (res & s' & -> & R' & O); try done; [lia|lia|].
    cbn [mbind run_bind]. eexists _, _. split; [done|]. split; [done|]. split; [by apply (resize_wf me base others rlimit_as a old' new' single s s' res)|]. left. exists single. destruct res as [[]|e]; split; try done. by intros v [= <-]. }
  assert (forall na action, remap_args a old' na new' action -> exists res s', remap me rlimit_as a old' na new' action s = Ret (res, s') /\
    rest s' /\ space_wf s' /\ mremap_outcome a old' new' res s s') as Hremap.
  { intros na' action Hargs. destruct (remap_spec me base others rlimit_as a old' na' new' action s Hrest Hargs) as (res & s' & Er & R' & O).
    eexists _, _. split; [done|]. split; [done|]. split; [|right; eauto].
    by apply (remap_wf me rlimit_as a old' na' new' action s s' res). }
  assert (forall X : run (result Z * Vmar), (exists res s', X = Ret (res, s') /\ rest s' /\ space_wf s' /\ mremap_outcome a old' new' res s s') ->
    exists res s', X = Ret (res, s') /\ rest s' /\ space_wf s' /\ (s' = s /\ res = Err EINVAL \/
      exists old'' new'', page_aligned a /\ Ret old' = Ret old'' /\ Ret new' = Ret new'' /\ mremap_outcome a old'' new'' res s s')) as Hwrap.
  { intros X (res & s' & ? & ? & ? & ?). exists res, s'. split_and!; try done. right. eauto 10. }
  destruct (negb (bf_contains f MREMAP_FIXED) && (new' <=? old') && bool_decide ((if bf_contains f MREMAP_DONTUNMAP then Keep else Unmap) = Unmap)) eqn:Ec.
  - apply Hwrap, Hresize. boolify. lia.
  - destruct (bf_contains f MREMAP_MAYMOVE) eqn:Em.
    + apply Hwrap, Hremap. constructor; [done|lia| |].
      * destruct (bf_contains f MREMAP_DONTUNMAP); [|done]. intros _. cbn [andb] in Edn. apply negb_false_iff, Z.eqb_eq in Edn. subst old. congruence.
      * destruct (bf_contains f MREMAP_FIXED); [done|]. intros _. destruct (bf_contains f MREMAP_DONTUNMAP).
        -- cbn [andb] in Edn. apply negb_false_iff, Z.eqb_eq in Edn. subst old. assert (old' = new') by congruence. split; [lia|done].
        -- rewrite bool_decide_true, andb_true_r in Ec by done. cbn [negb andb] in Ec. apply Z.leb_gt in Ec. split; [lia|done].
    + destruct (bf_contains f MREMAP_FIXED); [eexists _, _; split; [done|]; auto|]. apply Hwrap, Hresize. done.
Qed.

(** ** [mmap] *)

(** A file that maps itself installs its pages at page boundaries. *)
Definition file_ok (file : result MmapFile) : Prop :=
  forall f shared installs res, file = Ok f -> mf_mappable f shared = Ok (MappableDevice installs res) ->
    Forall (fun i => 0 <= i.1 /\ page_aligned i.1) installs.

Lemma check_len_spec len :
  is_u64 len ->
  exists r, check_len len = Ret r /\
    match r with
    | Ok len' => page_aligned len' /\ 0 < len /\ len <= len' < len + PAGE_SIZE /\ len' <= VMAR_CAP_ADDR
    | Err e => (len = 0 /\ e = EINVAL) \/ (VMAR_CAP_ADDR < len /\ e = ENOMEM)
    end.
Proof.
  intros [Hl _]. unfold check_len. destruct (Z.eqb_spec len 0) as [->|]; [eexists; split; [done|]; by left|].
  destruct (Z.ltb_spec VMAR_CAP_ADDR len); [eexists; split; [done|]; by right|]. pose proof CAP_u64 as Hcap. unfold PAGE_SIZE in Hcap.
  destruct (align_up_page len) as (y & -> & Hy & Hr); [lia|unfold PAGE_SIZE; lia|]. cbn [mbind run_bind]. eexists. split; [done|].
  split_and!; try done; [lia|lia|lia|]. apply (align_up_le len); [done|lia|apply CAP_aligned|lia].
Qed.

(** The address that a fixed mapping or a hint ends up with. *)
Lemma adjust_addr_hint_spec addr len :
  0 <= addr -> 0 < len <= VMAR_CAP_ADDR ->
  exists a, adjust_addr_hint addr len = Ret a /\ (a = 0 \/ page_aligned a /\ 0 <= a /\ a + len <= VMAR_CAP_ADDR).
Proof.
  intros Ha Hl. unfold adjust_addr_hint. rewrite align_down_page. cbn [mbind run_bind].
  destruct (round_down_spec addr PAGE_SIZE ltac:(done)) as [Hd Hr]. pose proof (Z.mod_pos_bound addr PAGE_SIZE ltac:(done)).
  set (a := addr - addr mod PAGE_SIZE) in *. assert (0 <= a).
  { unfold a. pose proof (Z.mod_le addr PAGE_SIZE Ha ltac:(done)). lia. }
  destruct (Z.eqb_spec a 0); [eexists; split; [done|]; by left|]. eexists. split; [done|].
  destruct (Z.ltb_spec (VMAR_CAP_ADDR - len) (if a <? VMAR_LOWEST_ADDR then VMAR_LOWEST_ADDR else a)); [by left|right].
  destruct (Z.ltb_spec a VMAR_LOWEST_ADDR); unfold VMAR_LOWEST_ADDR in *; (split; [done|]); lia.
Qed.

(** A device comes from the file. *)
Definition from_file (file : result MmapFile) (o : VmarMapOptions) : Prop :=
  forall installs res, o_mappable o = Some (MappableDevice installs res) ->
    exists f shared, file = Ok f /\ mf_mappable f shared = Ok (MappableDevice installs res).

(** The options that [mmap] builds from its arguments. *)
Record mmap_options (len vm_perms : Z) (option : MMapOptions) (file : result MmapFile) (o : VmarMapOptions) : Prop := {
  mo_size : o_size o = len;
  mo_perms : o_perms o = with_implied_read vm_perms;
  mo_mode : o_map_mode o = if MMapType_is_shared (mm_typ option) then Shared else Private;
  mo_fixed : is_fixed (mm_flags option) = true -> exists a, o_offset o = FixedReplace a \/ o_offset o = FixedNoReplace a;
  mo_device : from_file file o
}.

Lemma file_options_place o typ offset file o' :
  file_options o typ offset file = Ok o' ->
  o_size o' = o_size o /\ o_perms o' = o_perms o /\ o_map_mode o' = o_map_mode o /\ o_offset o' = o_offset o /\
  from_file file o'.
Proof.
  unfold file_options, file_ok. destruct file as [f|e]; [|done]. cbn [mbind result_bind]. intros H.
  repeat match type of H with (if ?b then _ else _) = _ => destruct b; [done|] end. destruct (mf_mappable f (is_shared (o_map_mode o))) as [ob|] eqn:E; [|done].
  injection H as <-. split_and!; try done. intros installs res [= ->]. eauto.
Qed.

Lemma anonymous_options_place o typ v o' :
  anonymous_options o typ v = Ok o' -> o_mappable o = None ->
  o_size o' = o_size o /\ o_perms o' = o_perms o /\ o_map_mode o' = o_map_mode o /\ o_offset o' = o_offset o /\
  forall file, from_file file o'.
Proof.
  unfold anonymous_options. destruct (bool_decide _); [done|]. destruct (MMapType_is_shared typ).
  - destruct v as [v|]; [|done]. intros [= <-] _. by split_and!.
  - intros [= <-] Ho. split_and!; try done. intros file i r. by rewrite Ho.
Qed.

Lemma do_sys_mmap_spec addr len vm_perms option file shared_vmo offset s :
  rest s -> space_wf s -> is_u64 addr -> is_u64 len -> file_ok file ->
  exists res s', do_sys_mmap me rlimit_as addr len vm_perms option file shared_vmo offset s = Ret (res, s') /\ rest s' /\ space_wf s' /\
    (s' = s /\ (exists e, res = Err e) \/ exists len' o, page_aligned len' /\ len <= len' < len + PAGE_SIZE /\
       mmap_options len' vm_perms option file o /\ build_outcome rlimit_as o s s' res).
Proof.
  intros Hrest Hwf [Ha _] Hl Hfile. unfold do_sys_mmap. destruct (check_len_spec len Hl) as (r & -> & Hr). cbn [mbind run_bind].
  destruct r as [len'|e]; [|eexists _, _; split; [done|]; eauto 10]. destruct Hr as (Hla & Hl0 & Hlr & Hcap).
  assert (exists a, (if is_fixed (mm_flags option) then Ret (_ ← check_addr addr len'; Ok addr) else addr ← adjust_addr_hint addr len'; Ret (Ok addr)) = Ret a /\
    forall x, a = Ok x -> x = 0 /\ is_fixed (mm_flags option) = false \/ 0 <= x /\ x + len' <= VMAR_CAP_ADDR) as (a & -> & Hplace).
  { destruct (is_fixed (mm_flags option)).
    - eexists. split; [done|]. intros x. unfold check_addr. destruct (Z.ltb_spec (VMAR_CAP_ADDR - len') addr); [done|].
      destruct (is_multiple_of addr PAGE_SIZE); [|done]. destruct (addr <? VMAR_LOWEST_ADDR); [done|]. cbn. intros [= <-]. right. lia.
    - destruct (adjust_addr_hint_spec addr len') as (x & -> & Hx); [lia|lia|]. cbn [mbind run_bind]. eexists. split; [done|]. intros y [= <-]. tauto. }
  cbn [mbind run_bind]. destruct a as [a|e]; cbn [mbind result_bind]; [|eexists _, _; split; [done|]; eauto 10].
  destruct (check_offset offset len' (mm_flags option)) as [[]|e]; cbn [mbind result_bind]; [|eexists _, _; split; [done|]; eauto 10].
  specialize (Hplace a eq_refl). set (o0 := new_map _ _ _ _).
  assert (forall o, o_size o = o_size o0 /\ o_perms o = o_perms o0 /\ o_map_mode o = o_map_mode o0 /\ o_offset o = o_offset o0 /\ from_file file o ->
    exists res s', build me rlimit_as o s = Ret (res, s') /\ rest s' /\ space_wf s' /\
    (s' = s /\ (exists e, res = Err e) \/ exists len' o, page_aligned len' /\ len <= len' < len + PAGE_SIZE /\
       mmap_options len' vm_perms option file o /\ build_outcome rlimit_as o s s' res)) as Hbuild.
  { intros o (O1 & O2 & O3 & O4 & O5). destruct (build_spec me base others rlimit_as o s Hrest) as (res & s' & Eb & R' & B).
    { constructor; [rewrite O1; cbn; lia| |intros i r E; destruct (O5 i r E) as (f & sh & E1 & E2); by apply (Hfile f sh i r)]. rewrite O4, O1. cbn. unfold map_offset. destruct Hplace as [[-> ->]|Hp].
      - destruct (bf_contains _ MAP_32BIT); done.
      - repeat (destruct (_ : bool)); try done; destruct (a =? 0); done. }
    eexists _, _. split; [done|]. split; [done|]. split; [by apply (build_wf me base others rlimit_as o s s' res)|]. right. exists len', o. split; [done|]. split; [done|]. split; [|done].
    constructor; [by rewrite O1|by rewrite O2|by rewrite O3| |done]. intros Hfix. rewrite O4. cbn. unfold map_offset. rewrite Hfix. destruct (bf_contains _ _); eauto. }
  destruct (bf_contains (mm_flags option) MAP_ANONYMOUS).
  - destruct (anonymous_options o0 (mm_typ option) shared_vmo) as [o|e] eqn:Eo; [|eexists _, _; split; [done|]; eauto 10].
    apply Hbuild. destruct (anonymous_options_place _ _ _ _ Eo eq_refl) as (? & ? & ? & ? & H5). by split_and!.
  - destruct (file_options o0 (mm_typ option) offset file) as [o|e] eqn:Eo; [|eexists _, _; split; [done|]; eauto 10].
    apply Hbuild. by apply (file_options_place _ _ _ _ _ Eo).
Qed.

(** ** The heap *)
Definition heap_ok (h : HeapInner) : Prop :=
  page_aligned (r_start (heap_range h)) /\ 0 <= r_start (heap_range h) <= r_end (heap_range h) /\ r_end (heap_range h) <= VMAR_CAP_ADDR.

(** Below [new] rounded up everything of the heap stays; the rest of it is unmapped, or mapped with the
    default permissions. *)
Definition heap_moved (h : HeapInner) (new : Z) (s s' : Vmar) : Prop :=
  exists old_end new_end, align_up (r_end (heap_range h)) PAGE_SIZE = Ret old_end /\ align_up new PAGE_SIZE = Ret new_end /\
    (old_end = new_end /\ s' = s \/
     new_end < old_end /\ truncated (mkRange new_end old_end) s s' \/
     old_end < new_end /\ mapped rlimit_as (new_map (new_end - old_end) heap_perms (FixedNoReplace old_end) Private) old_end s s').

Lemma build_spec_wf o s :
  rest s -> space_wf s -> options_ok o ->
  exists res s', build me rlimit_as o s = Ret (res, s') /\ rest s' /\ space_wf s' /\ build_outcome rlimit_as o s s' res.
Proof.
  intros Hrest Hwf Ho. destruct (build_spec me base others rlimit_as o s Hrest Ho) as (res & s' & Eb & R' & B).
  exists res, s'. split; [done|]. split; [done|]. split; [|done]. by apply (build_wf me base others rlimit_as o s s' res).
Qed.

Lemma build_noreplace_place o a s s' addr : o_offset o = FixedNoReplace a -> build_outcome rlimit_as o s s' (Ok addr) -> addr = a.
Proof. intros Ho [[Hp _] _ _ _ _]. unfold place_ok in Hp. rewrite Ho in Hp. by destruct Hp. Qed.

Lemma build_noreplace_failed o a s s' e : o_offset o = FixedNoReplace a -> build_outcome rlimit_as o s s' (Err e) -> untouched s s'.
Proof.
  intros Ho [->|(s1 & Hr & Hu)]; [done|]. unfold replaced in Hr. rewrite Ho in Hr. by subst.
Qed.

Lemma modify_heap_end_spec rlimit_data new h s :
  rest s -> space_wf s -> heap_ok h -> is_u64 new ->
  exists v h' s', modify_heap_end me rlimit_as rlimit_data new h s = Ret (v, h', s') /\ rest s' /\ space_wf s' /\ heap_ok h' /\
    v = r_end (heap_range h') /\ r_start (heap_range h') = r_start (heap_range h) /\
    (h' = h /\ untouched s s' \/ v = new /\ check_data_rlimit rlimit_data (data_segment_size h) (heap_range h') = true /\ heap_moved h new s s').
Proof.
  intros Hrest Hwf Hh [Hn _]. pose proof Hh as (Hsa & Hse & Hcap). unfold modify_heap_end.
  destruct ((new <? r_start (heap_range h)) || (VMAR_CAP_ADDR <? new) || negb (check_data_rlimit _ _ _)) eqn:Ec.
  { eexists _, _, _. split; [done|]. split_and!; try done. by left. }
  apply orb_false_iff in Ec as [[E1%Z.ltb_ge E2%Z.ltb_ge]%orb_false_iff E3%negb_false_iff]. pose proof CAP_u64 as Hu. unfold PAGE_SIZE in Hu.
  destruct (align_up_page (r_end (heap_range h))) as (oe & Eo & Hoa & Hor); [lia|unfold PAGE_SIZE; lia|].
  destruct (align_up_page new) as (ne & En & Hna & Hnr); [lia|unfold PAGE_SIZE; lia|]. rewrite Eo, En. cbn [mbind run_bind].
  assert (ne <= VMAR_CAP_ADDR) as Hncap by (apply (align_up_le new); [done|lia|apply CAP_aligned|lia]).
  assert (forall s', rest s' -> space_wf s' -> (oe = ne /\ s' = s \/ ne < oe /\ truncated (mkRange ne oe) s s' \/
     oe < ne /\ mapped rlimit_as (new_map (ne - oe) heap_perms (FixedNoReplace oe) Private) oe s s') ->
    exists v h' s'', Ret (new, mkHeap (data_segment_size h) (mkRange (r_start (heap_range h)) new), s') = Ret (v, h', s'') /\ rest s'' /\ space_wf s'' /\ heap_ok h' /\
    v = r_end (heap_range h') /\ r_start (heap_range h') = r_start (heap_range h) /\
    (h' = h /\ untouched s s'' \/ v = new /\ check_data_rlimit rlimit_data (data_segment_size h) (heap_range h') = true /\ heap_moved h new s s'')) as Hdone.
  { intros s' R' W' Hm. eexists _, _, _. split; [done|]. split_and!; try done; [split; [done|]; cbn; lia|]. right. split_and!; try done. exists oe, ne. done. }
  destruct (Z.eqb_spec (oe - r_start (heap_range h)) (ne - r_start (heap_range h))) as [He|He].
  { apply Hdone; try done. left. split; [lia|done]. }
  destruct (Z.ltb_spec (ne - r_start (heap_range h)) (oe - r_start (heap_range h))) as [Hlt|Hge].
  - destruct (remove_mapping_spec me base others s (mkRange ne oe) Hrest) as (s' & -> & R' & T); [cbn; lia|done|done|]. cbn [mbind run_bind].
    apply Hdone; [done|by eapply truncated_wf|]. right. left. split; [lia|done].
  - replace (ne - r_start (heap_range h) - (oe - r_start (heap_range h))) with (ne - oe) by lia.
    replace (r_start (heap_range h) + (oe - r_start (heap_range h))) with oe by lia. set (o := new_map (ne - oe) _ _ _) in *.
    destruct (build_spec_wf o s Hrest Hwf) as (res & s' & -> & R' & W' & B).
    { constructor; [cbn; lia|cbn; lia|done]. }
    cbn [mbind run_bind]. destruct res as [addr|e].
    + apply Hdone; try done. right. right. split; [lia|]. pose proof (build_noreplace_place o oe s s' addr eq_refl B) as ->. exact B.
    + eexists _, _, _. split; [done|]. split_and!; try done. left. split; [done|]. by apply (build_noreplace_failed o oe s s' e).
Qed.
End calls.
