(* ===== verification/Fork.v ===== *)
(** * Copying an address space

    [kernel/core/src/vm/vmar/vmar_impls/fork.rs]: the child gets the mappings of the parent and its pages,
    and the pages become read-only in both, so that the first write to one of them makes a copy. *)

From S2P Require Import Prelude Flags Align IntervalSet VmMapping Vmar VmarInv VmarOps VmarProtect VmarRegion VmarPages VmarUnmap VmarRemap VmarMap PageFault PageFaultSpec VmarWf.

Section fork.
Context `{BF : Bitflags}.

Definition cow_page (p : Pte) : Pte := mkPte (pte_frame p) (bf_difference (pte_flags p) PageFlags_W).

(** The loop of [cow_copy_pt], with the number of pages copied; each round copies a page, so there are
    at most as many as the page table has, and one that finds none. *)
Fixpoint cow_loop (fuel : nat) (va end_va : Z) (src dst : VmSpace) (num_copied : Z) : run (Z * VmSpace * VmSpace) :=
  match fuel with
  | O => NoFuel
  | S fuel =>
      match pt_find_next src va end_va with
      | None => Ret (num_copied, src, dst)
      | Some mapped_va =>
          p ← unwrap (src !! mapped_va);
          _ ← assert_run (bool_decide (dst !! mapped_va = None));
          cow_loop fuel (mapped_va + PAGE_SIZE) end_va (<[mapped_va := cow_page p]> src) (<[mapped_va := cow_page p]> dst)
            (num_copied + 1)
      end
  end.

Definition cow_copy_pt (start_va size : Z) (src dst : VmSpace) : run (Z * VmSpace * VmSpace) :=
  cow_loop (S (base.size src)) start_va (start_va + size) src dst 0.

(** One mapping: [child] is the identity of the new address space. *)
Definition fork_mapping (child : nat) (m : VmMapping) (s new : Vmar) : run (Vmar * Vmar) :=
  let '(new_mapping, w) := new_fork m (vmos new) in
  new ← insert_without_try_merge child new_mapping (vmo_for_rmap m) (with_vmos new w);
  _ ← cursor_mut (range m);
  '(num_copied, src, dst) ← cow_copy_pt (map_to_addr m) (map_size m) (vm_space s) (vm_space new);
  Ret (with_space s src, RssDelta_add (with_space new dst) (rss_type m) num_copied).

Fixpoint fork_mappings (child : nat) (ms : list VmMapping) (s new : Vmar) : run (Vmar * Vmar) :=
  match ms with
  | [] => Ret (s, new)
  | m :: ms => '(s, new) ← fork_mapping child m s new; fork_mappings child ms s new
  end.

(** [Vmar::fork_from]: the parent and the child. *)
Definition fork_from (child : nat) (s : Vmar) : run (Vmar * Vmar) :=
  '(s, new) ← fork_mappings child (vm_mappings s) s (RssDelta_new (Vmar_new (vmos s)));
  let new := RssDelta_drop new in
  Ret (with_vmos s (vmos new), new).

(** ** The pages *)

(** The pages of [a, b) have been copied. *)
Record cow_copied (a b : Z) (src dst src' dst' : VmSpace) : Prop := {
  cc_src : forall k, src' !! k = if decide (a <= k < b) then cow_page <$> src !! k else src !! k;
  cc_dst : forall k, dst' !! k = if decide (a <= k < b) then cow_page <$> src !! k else dst !! k
}.

Lemma cow_loop_spec fuel va end_va src dst n :
  (forall k p, src !! k = Some p -> page_aligned k) -> page_aligned end_va ->
  (forall k, va <= k < end_va -> dst !! k = None) -> pages src (mkRange va end_va) < Z.of_nat fuel ->
  exists src' dst', cow_loop fuel va end_va src dst n = Ret (n + pages src (mkRange va end_va), src', dst') /\
    cow_copied va end_va src dst src' dst'.
Proof.
  revert va src dst n. induction fuel as [|fuel IH]; intros va src dst n Hal He Hdst Hf.
  { pose proof (pages_nonneg src (mkRange va end_va)). lia. }
  cbn [cow_loop]. pose proof (pt_find_next_spec src va end_va) as Hfind. destruct (pt_find_next src va end_va) as [k|].
  2: { exists src, dst. rewrite pages_empty by done. rewrite Z.add_0_r. split; [done|].
       constructor; intros k; case_decide; try done; rewrite Hfind by done; [done|]. by apply Hdst. }
  destruct Hfind as (Hk & [p Hp] & Hfirst). rewrite Hp. cbn [unwrap mbind run_bind].
  rewrite bool_decide_true by by apply Hdst. cbn [assert_run mbind run_bind].
  pose proof (Hal k p Hp) as Hka. pose proof (page_step k end_va Hka He) as Hstep. unfold PAGE_SIZE in *.
  set (src1 := <[k := cow_page p]> src). set (dst1 := <[k := cow_page p]> dst).
  assert (forall r, pages src1 r = pages src r) as Hpages.
  { intros r. apply pages_dom. unfold src1. rewrite dom_insert_L. apply elem_of_dom_2 in Hp. set_solver. }
  assert (pages src (mkRange va end_va) = 1 + pages src (mkRange (k + 4096) end_va)) as Hcount.
  { rewrite (pages_split src va (k + 4096)) by lia. rewrite <- (insert_delete_id src k p Hp) at 1.
    rewrite pages_insert by apply lookup_delete_eq. cbn [r_start r_end]. rewrite decide_True by lia.
    rewrite (pages_empty (delete k src)); [lia|]. cbn [r_start r_end]. intros j Hj. destruct (decide (j = k)) as [->|Hne]; [apply lookup_delete_eq|].
    rewrite lookup_delete_ne by done. destruct (Z_lt_dec j k); [apply Hfirst; lia|]. destruct (src !! j) as [q|] eqn:Ej; [|done].
    pose proof (page_step k j Hka (Hal j q Ej)). unfold PAGE_SIZE in *. lia. }
  destruct (IH (k + 4096) src1 dst1 (n + 1)) as (src' & dst' & -> & [Cs Cd]).
  - intros j q [[<- _]|[_ Hj]]%lookup_insert_Some; [done|by apply (Hal j q)].
  - done.
  - intros j Hj. unfold dst1. rewrite lookup_insert_ne by lia. apply Hdst. lia.
  - rewrite Hpages. lia.
  - exists src', dst'. rewrite Hpages, Hcount. split; [do 3 f_equal; lia|].
    assert (forall j, va <= j < k + 4096 -> j <> k -> src !! j = None) as Hbetween.
    { intros j Hj Hne. destruct (Z_lt_dec j k); [apply Hfirst; lia|]. destruct (src !! j) as [q|] eqn:Ej; [|done].
      pose proof (page_step k j Hka (Hal j q Ej)). unfold PAGE_SIZE in *. lia. }
    constructor; intros j; rewrite ?Cs, ?Cd; unfold src1, dst1; destruct (decide (j = k)) as [->|Hne];
      rewrite ?lookup_insert_eq, ?lookup_insert_ne by done.
    + rewrite decide_False, decide_True, Hp by lia. done.
    + repeat case_decide; try lia; try done. rewrite (Hbetween j) by lia. done.
    + rewrite decide_False, decide_True, Hp by lia. done.
    + repeat case_decide; try lia; try done. rewrite (Hbetween j), Hdst by lia. done.
Qed.

(** ** The mappings *)
Lemma new_fork_eq m w : new_fork m w = (m, add_tracked m 1 w).
Proof.
  unfold new_fork, add_tracked, tracked, MappedMemory_dup, MappedVmo_dup, MappedVmo_dup_at_offset, WritableMappingStatus_increment.
  destruct m as [sz a mem fl md ar pe]. cbn. destruct mem as [|[v o []]|o]; cbn; try done. by destruct o; cbn; rewrite ?Z.add_0_r.
Qed.

#[local] Instance fork_covered_dec ms x : Decision (covered ms x).
Proof. unfold covered. apply _. Defined.

Section spec.
Context (me child : nat) (base cbase : nat -> Z) (others cothers : nat -> nat -> list RmapEntry).

(** The mappings [done] have been copied. *)
Record forking (done : list VmMapping) (s0 s new : Vmar) : Prop := {
  fk_parent : vmar_inv me base others 0 [] s;
  fk_same : vm_mappings s = vm_mappings s0 /\ total_vm s = total_vm s0 /\ vmos s = vmos s0 /\
    rss_counters s = rss_counters s0 /\ rss_delta s = rss_delta s0;
  fk_child : vmar_inv child cbase cothers 0 [] new;
  fk_mappings : vm_mappings new ≡ₚ done;
  fk_space : forall k, vm_space s !! k = if decide (covered done k) then cow_page <$> vm_space s0 !! k else vm_space s0 !! k;
  fk_new : forall k, vm_space new !! k = if decide (covered done k) then cow_page <$> vm_space s0 !! k else None;
  fk_rss : rss_counters new = (0, 0)
}.

(** The pages of a new mapping of the child come in. *)
Lemma add_pages_inv s m l src dst :
  vmar_inv child cbase cothers 0 [] s -> vm_mappings s ≡ₚ m :: l -> (forall x, x ∈ l -> separate m x) ->
  (forall k, contains m k -> vm_space s !! k = None) -> (forall k p, src !! k = Some p -> page_aligned k) ->
  (forall k, dst !! k = if decide (map_to_addr m <= k < map_end m) then cow_page <$> src !! k else vm_space s !! k) ->
  vmar_inv child cbase cothers 0 [] (RssDelta_add (with_space s dst) (rss_type m) (pages src (range m))).
Proof.
  intros [Hi Hpl Ha Hh Ht Hr Ho Hs Hrss Hp Hdn] Hl Hsep Hno Hal Hdst.
  assert (forall ty, resident dst ty m = if decide (rss_type m = ty) then pages src (range m) else 0) as Hm.
  { intros ty. unfold resident. case_decide; [|done]. unfold pages. rewrite <- !size_dom. do 2 f_equal. apply set_eq. intros k.
    rewrite !elem_of_dom. unfold is_Some. setoid_rewrite map_lookup_filter_Some. unfold in_range. rewrite range_mapping. cbn [r_start r_end fst].
    split; intros (p & Hk & Hin); rewrite Hdst, ?decide_True in * by done.
    - destruct (src !! k) as [q|]; [|done]. eauto.
    - rewrite Hk. cbn. eauto. }
  assert (forall ty x, x ∈ l -> resident dst ty x = resident (vm_space s) ty x) as Hx.
  { intros ty x Hx. unfold resident. case_decide; [|done]. unfold pages. do 2 f_equal. apply map_eq. intros k.
    specialize (Hsep x Hx). rewrite separate_iff in Hsep. apply option_eq. intros p. rewrite !map_lookup_filter_Some. unfold in_range. rewrite range_mapping.
    cbn [r_start r_end fst]. split; intros [Hk Hin]; (split; [|done]); rewrite Hdst, ?decide_False in * by lia; done. }
  constructor; vsimpl; try done.
  - intros ty. specialize (Hrss ty). rewrite app_nil_r in *. rewrite Hl, tally_cons in Hrss |- *. rewrite Hm.
    rewrite (tally_ext_in (resident dst ty) (resident (vm_space s) ty)) by apply Hx.
    assert (resident (vm_space s) ty m = 0) as H0.
    { unfold resident. case_decide; [|done]. by apply pages_empty. }
    rewrite counter_add_spec. lia.
  - intros k p. rewrite Hdst. case_decide as Hk; [|apply Hp]. destruct (src !! k) as [q|] eqn:E; [|done]. intros _.
    split; [by apply (Hal k q)|]. exists m. rewrite app_nil_r, Hl. split; [by left|done].
Qed.

Lemma fork_mapping_spec done m ms s0 s new :
  (forall id, cbase id < 0 -> base id < 0) -> forking done s0 s new -> intervals (vm_mappings s0) -> vm_mappings s0 = done ++ m :: ms ->
  exists s' new', fork_mapping child m s new = Ret (s', new') /\ forking (done ++ [m]) s0 s' new'.
Proof.
  intros Hbase [Fp (Fs1 & Fs2 & Fs3 & Fs4 & Fs5) Fc Fm Fsp Fn Frs] Hl Hsplit.
  assert (forall x, x ∈ done -> separate m x) as Hsep.
  { intros x Hx. rewrite Hsplit in Hl. pose proof (intervals_perm_apart _ m (done ++ ms) Hl) as H. apply H; [|set_solver].
    by rewrite <- Permutation_middle. }
  assert (placed m) as Hpl by (apply (vi_placed _ _ _ _ _ _ Fp); rewrite app_nil_r, Fs1, Hsplit; set_solver).
  assert (forall k, covered (done ++ [m]) k <-> covered done k \/ contains m k) as Hcov.
  { intros k. unfold covered. rewrite Exists_app, Exists_cons, Exists_nil. tauto. }
  assert (forall k, contains m k -> ~ covered done k) as Hout.
  { intros k Hk (x & Hx & Hxk)%Exists_exists. by apply (separate_contains m x k (Hsep x Hx) Hk). }
  unfold fork_mapping. rewrite new_fork_eq.
  assert (vmar_inv child cbase cothers 0 [m] (with_vmos new (add_tracked m 1 (vmos new)))) as I1.
  { destruct (status_delta_add m 1 (vmos new)) as [S1 S2]. apply new_hand_inv; try done.
    - intros x Hx. rewrite Fm in Hx. specialize (Hsep x Hx). rewrite separate_iff in Hsep. unfold map_end in *. lia.
    - intros id v. unfold rmap_of. by rewrite S2.
    - intros id. rewrite S1. lia.
    - intros id Hb. apply (vi_denied _ _ _ _ _ _ Fp); [by apply Hbase|]. rewrite app_nil_r, Fs1, Hsplit. set_solver. }
  destruct (insert_without_try_merge_spec _ _ _ _ _ _ _ I1) as (new1 & E1 & I2 & P2 & (Hsp & Hrc & Hrd)). rewrite E1. cbn [mbind run_bind].
  rewrite cursor_mut_ok by done. cbn [mbind run_bind]. cbn [with_vmos vm_space rss_counters rss_delta vm_mappings] in Hsp, Hrc, Hrd, P2.
  assert (forall k p, vm_space s !! k = Some p -> page_aligned k) as Hal by (intros k p Hk; by apply (vi_pages _ _ _ _ _ _ Fp k p)).
  unfold cow_copy_pt. destruct (cow_loop_spec (S (base.size (vm_space s))) (map_to_addr m) (map_to_addr m + map_size m) (vm_space s) (vm_space new1) 0)
    as (src' & dst' & E3 & [Cs Cd]); [done|apply mapping_ok_end; apply Hpl| | |].
  { intros k Hk. rewrite Hsp, Fn, decide_False; [done|]. apply Hout. by rewrite contains_iff. }
  { unfold pages. pose proof (map_size_filter (in_range (mkRange (map_to_addr m) (map_to_addr m + map_size m))) (vm_space s)). lia. }
  rewrite E3. cbn [mbind run_bind]. eexists _, _. split; [done|]. change (map_to_addr m + map_size m) with (map_end m) in *.
  rewrite Z.add_0_l. rewrite <- range_mapping. constructor; vsimpl; try done.
  - apply (vmar_inv_space me base others); [done|]. apply set_eq. intros k. rewrite !elem_of_dom, Cs. case_decide; [|done]. by rewrite fmap_is_Some.
  - apply (add_pages_inv _ m (vm_mappings new)); try done.
    + intros x Hx. apply Hsep. by rewrite <- Fm.
    + intros k Hk. rewrite Hsp, Fn, decide_False; [done|]. by apply Hout.
  - rewrite P2, Fm. by rewrite (Permutation_app_comm done [m]).
  - intros k. rewrite Cs, Fsp. pose proof (Hcov k) as Hc. pose proof (Hout k) as Ho. pose proof (contains_iff m k). repeat case_decide; try done; tauto.
  - intros k. rewrite Cd, Hsp, Fn, Fsp. pose proof (Hcov k) as Hc. pose proof (Hout k) as Ho. pose proof (contains_iff m k). repeat case_decide; try done; tauto.
  - congruence.
Qed.

Lemma fork_mappings_spec done ms s0 s new :
  (forall id, cbase id < 0 -> base id < 0) -> forking done s0 s new -> intervals (vm_mappings s0) -> vm_mappings s0 = done ++ ms ->
  exists s' new', fork_mappings child ms s new = Ret (s', new') /\ forking (vm_mappings s0) s0 s' new'.
Proof.
  intros Hbase Hf Hl. revert done s new Hf. induction ms as [|m ms IH]; intros done s new Hf Hsplit; cbn [fork_mappings].
  { exists s, new. rewrite app_nil_r in Hsplit. by rewrite Hsplit. }
  destruct (fork_mapping_spec done m ms s0 s new Hbase Hf Hl Hsplit) as (s1 & new1 & -> & Hf1). cbn [mbind run_bind].
  apply (IH (done ++ [m])); [done|]. by rewrite <- app_assoc.
Qed.
End spec.

(** ** [fork_from] *)
Lemma view_perm l l' x : intervals l -> intervals l' -> l ≡ₚ l' -> view l x = view l' x.
Proof.
  intros Hl Hl' Hp. destruct (view l x) as [a|] eqn:E.
  - apply view_inv in E as (m & Hm & Hc & ->); [|done]. symmetry. apply view_Some; [done| |done]. by rewrite <- Hp.
  - symmetry. apply view_None. intros m Hm. apply (view_None_inv l); [done|]. by rewrite Hp.
Qed.

(** Both address spaces have the mappings, and the pages without write permission. *)
Record forked (s s' new : Vmar) : Prop := {
  fo_parent : vm_mappings s' = vm_mappings s /\ total_vm s' = total_vm s /\ rss_counters s' = rss_counters s;
  fo_child : forall x, view (vm_mappings new) x = view (vm_mappings s) x;
  fo_total : total_vm new = total_vm s;
  fo_pages : forall k, vm_space s' !! k = cow_page <$> vm_space s !! k;
  fo_new : vm_space new = vm_space s';
  fo_vmos : vmos new = vmos s'
}.

Lemma fork_from_spec me child base others s :
  resting me base others s -> (forall id, rmap_of (vmos s) id child = []) -> child <> me ->
  exists s' new, fork_from child s = Ret (s', new) /\ forked s s' new /\
    resting me (fun id => base id + tally (fun m => tracks m id) (vm_mappings s)) (rmap_of (vmos s')) s' /\
    resting child (status (vmos s)) (rmap_of (vmos s)) new /\
    (forall id, status (vmos s') id = status (vmos s) id + tally (fun m => tracks m id) (vm_mappings s)) /\
    (forall id v, v <> child -> rmap_of (vmos s') id v = rmap_of (vmos s) id v).
Proof.
  intros Hrest Hfresh Hne. pose proof Hrest as [Hinv Hd]. pose proof (vi_intervals _ _ _ _ _ _ Hinv) as Hl.
  assert (forking me child base (status (vmos s)) others (rmap_of (vmos s)) [] s s (RssDelta_new (Vmar_new (vmos s)))) as H0.
  { constructor; try done.
    - by apply new_inv. }
  assert (forall id, 0 <= tally (fun m => tracks m id) (vm_mappings s)) as Hnn by (intros; apply tally_nonneg; intros; unfold tracks; case_decide; lia).
  assert (forall id, status (vmos s) id < 0 -> base id < 0) as Hbase.
  { intros id. rewrite (vi_status _ _ _ _ _ _ Hinv), app_nil_r. specialize (Hnn id). lia. }
  unfold fork_from. destruct (fork_mappings_spec _ _ _ _ _ _ [] (vm_mappings s) s s _ Hbase H0 Hl eq_refl) as (s1 & new & -> & [Fp (F1 & F2 & F3 & F4 & F5) Fc Fm Fsp Fn Frs]).
  cbn [mbind run_bind]. pose proof (vi_intervals _ _ _ _ _ _ Fc) as Hlc.
  assert (forall k, vm_space s1 !! k = cow_page <$> vm_space s !! k) as Hpg.
  { intros k. rewrite Fsp. case_decide as Hc; [done|]. destruct (vm_space s !! k) as [p|] eqn:E; [|done]. exfalso. apply Hc.
    destruct (vi_pages _ _ _ _ _ _ Hinv k p E) as (_ & m & Hm & Hk). rewrite app_nil_r in Hm. apply Exists_exists. eauto. }
  assert (forall id, status (vmos new) id = status (vmos s) id + tally (fun m => tracks m id) (vm_mappings s)) as Hst.
  { intros id. rewrite (vi_status _ _ _ _ _ _ Fc id), app_nil_r. by rewrite Fm. }
  assert (forall id v, v <> child -> rmap_of (vmos new) id v = rmap_of (vmos s) id v) as Hrm by apply (vi_others _ _ _ _ _ _ Fc).
  eexists _, _. split; [done|]. split; [constructor; vsimpl; try done|split; [|split; [|split; [exact Hst|exact Hrm]]]].
  - intros x. by apply view_perm.
  - rewrite (vi_total _ _ _ _ _ _ Fc), (vi_total _ _ _ _ _ _ Hinv). by rewrite Fm.
  - apply map_eq. intros k. rewrite Fn, Fsp. case_decide as Hc; [done|]. destruct (vm_space s !! k) as [p|] eqn:E; [|done]. exfalso. apply Hc.
    destruct (vi_pages _ _ _ _ _ _ Hinv k p E) as (_ & m & Hm & Hk). rewrite app_nil_r in Hm. apply Exists_exists. eauto.
  - split; [|vsimpl; by rewrite F5]. destruct Fp as [Hi Hpl Ha Hh Ht Hr Ho Hs Hrss Hp Hdn]. constructor; vsimpl; try done.
    + intros id. rewrite Hrm by done. rewrite <- F3. apply Hr.
    + intros id. rewrite Hst. pose proof (Hs id) as Hsid. rewrite F3, app_nil_r, F1 in Hsid. rewrite app_nil_r, F1. lia.
    + intros id m Hb. apply Hdn. specialize (Hnn id). lia.
  - apply resting_end. done.
Qed.
End fork.

(** ** Shared device memory after a [fork] *)
Lemma cow_page_readonly `{BF : Bitflags} p : writable (pte_flags (cow_page p)) = false.
Proof.
  unfold writable, cow_page, PageFlags_W. cbn [pte_flags]. rewrite bf_difference_spec by done. rewrite Z.pow2_bits_eqb by done. by rewrite andb_false_r.
Qed.

Section gem.
Context `{BF : Bitflags} (env : FaultEnv) (me : nat) (base : nat -> Z) (others : nat -> nat -> list RmapEntry).
Notation rest := (resting me base others).

(** A device page that [fork] has made read-only: a write fault returns, and nothing has changed. *)
Lemma gem_fault_stalls s m b o k q page answers :
  rest s -> m ∈ vm_mappings s -> contains m k -> page_aligned k -> mapped_mem m = Device (DrmGemShmemMappedObject b o) ->
  bf_contains (perms m) VmPerms_WRITE = true -> checked_add o (k - map_to_addr m) = Some (o + (k - map_to_addr m)) ->
  gem_pages env b !! Z.to_nat ((o + (k - map_to_addr m)) / PAGE_SIZE) = Some page -> vm_space s !! k = Some q ->
  handle_page_fault env (mkFault k VmPerms_WRITE false) answers s = Ret (Ok tt, s).
Proof.
  intros Hrest Hm Hc Hk Hmem Hp Ho Hg Hq. pose proof Hrest as [Hinv _]. pose proof (vi_intervals _ _ _ _ _ _ Hinv) as Hl.
  assert (placed m) as Hpl by (apply (vi_placed _ _ _ _ _ _ Hinv); set_solver). destruct (page_in_mapping m k Hpl Hc Hk) as (H0 & H1 & H2).
  rewrite (handle_page_fault_at env s m) by done. unfold VmMapping_handle_page_fault. rewrite check_perms_unforced by done. cbn [required_perms fault_address].
  rewrite Hp, align_down_aligned, Hmem by done. cbn [mbind run_bind].
  assert (MappedObject_handle_page_fault env (DrmGemShmemMappedObject b o) m (k - map_to_addr m) (RssDelta_new s) = Ret (Ok tt, RssDelta_new s)) as E.
  { unfold MappedObject_handle_page_fault. rewrite Ho, Hg. unfold map_frame. rewrite (proj2 (Z.leb_gt _ _)) by (rewrite contains_iff in Hc; unfold map_end in Hc; lia).
    replace (map_to_addr m + (k - map_to_addr m)) with k by lia. pose proof (cursor_at_page m k Hpl Hc Hk) as Hcur. unfold cursor_at in Hcur.
    destruct (cursor_mut (mkRange k (k + PAGE_SIZE))); [|done..]. cbn [mbind run_bind]. vsimpl. by rewrite Hq. }
  rewrite E. destruct (negb _ && _); cbn [mbind run_bind]; by rewrite (resting_idle me base others).
Qed.
End gem.

(** C33: After a [fork], a write fault on a resident page of a writable shared graphics buffer succeeds and changes
    nothing, so the program faults on the same page for ever. *)
Theorem gem_write_fault_stalls_after_fork `{BF : Bitflags} env me child base others s m b o k page answers :
  resting me base others s -> (forall id, rmap_of (vmos s) id child = []) -> child <> me ->
  m ∈ vm_mappings s -> contains m k -> page_aligned k -> mapped_mem m = Device (DrmGemShmemMappedObject b o) ->
  bf_contains (perms m) VmPerms_WRITE = true -> checked_add o (k - map_to_addr m) = Some (o + (k - map_to_addr m)) ->
  gem_pages env b !! Z.to_nat ((o + (k - map_to_addr m)) / PAGE_SIZE) = Some page -> vm_space s !! k <> None ->
  exists s' new q, fork_from child s = Ret (s', new) /\ vm_space s' !! k = Some q /\ writable (pte_flags q) = false /\
    handle_page_fault env (mkFault k VmPerms_WRITE false) answers s' = Ret (Ok tt, s').
Proof.
  intros Hrest Hfresh Hne Hm Hc Hk Hmem Hp Ho Hg Hq. destruct (fork_from_spec me child base others s Hrest Hfresh Hne) as (s' & new & E & F & R & _).
  destruct (vm_space s !! k) as [q|] eqn:Eq; [|done]. assert (vm_space s' !! k = Some (cow_page q)) as Hq' by (rewrite (fo_pages _ _ _ F), Eq; done).
  exists s', new, (cow_page q). split; [done|]. split; [done|]. split; [apply cow_page_readonly|].
  eapply (gem_fault_stalls env me); try done. by rewrite (proj1 (fo_parent _ _ _ F)).
Qed.
