(* ===== verification/AlienAccess.v ===== *)
(** * Access to the memory of another process

    [kernel/core/src/vm/vmar/vmar_impls/access_alien.rs]: an alien access forces a fault until the page has
    the flags it needs.  The theorems are about the cases where that goes wrong. *)

From S2P Require Import Prelude Flags Align IntervalSet VmMapping Vmar VmarInv VmarOps VmarProtect VmarRegion VmarPages VmarUnmap VmarRemap VmarMap PageFault PageFaultSpec VmarWf.

Section alien.
Context `{BF : Bitflags} (env : FaultEnv) (me : nat) (base : nat -> Z) (others : nat -> nat -> list RmapEntry).
Notation rest := (resting me base others).

(** [Vmar::query_page_with_required_flags]: each fault gets the next list of answers. *)
Fixpoint query_page_with_required_flags (faults : list (list Vmos_commit)) (vaddr required_page_flags : Z) (s : Vmar) :
    run (result nat * Vmar) :=
  _ ← assert_run (is_userspace_vaddr vaddr && is_multiple_of vaddr PAGE_SIZE);
  match cursor_at (mkRange vaddr (vaddr + PAGE_SIZE)) with
  | Err e => Ret (Err e, s)
  | Ok _ =>
      let fault :=
        match faults with
        | [] => NoFuel
        | answers :: faults =>
            '(res, s) ← handle_page_fault env (mkFault vaddr (VmPerms_from_flags required_page_flags) true) answers s;
            match res with
            | Err e => Ret (Err e, s)
            | Ok _ => query_page_with_required_flags faults vaddr required_page_flags s
            end
        end in
      match vm_space s !! vaddr with
      | Some p => if bf_contains (pte_flags p) required_page_flags then Ret (Ok (pte_frame p), s) else fault
      | None => fault
      end
  end.

Lemma READ_of_R : VmPerms_from_flags PageFlags_R = VmPerms_READ.
Proof.
  apply Z.bits_inj'. intros i Hi. rewrite VmPerms_from_flags_bits by done. unfold PageFlags_R, VmPerms_READ. rewrite Z.pow2_bits_eqb by done.
  destruct (Z.eqb_spec 0 i) as [<-|]; [done|]. by rewrite andb_false_r.
Qed.

Lemma WRITE_of_W : VmPerms_from_flags PageFlags_W = VmPerms_WRITE.
Proof.
  apply Z.bits_inj'. intros i Hi. rewrite VmPerms_from_flags_bits by done. unfold PageFlags_W, VmPerms_WRITE. rewrite Z.pow2_bits_eqb by done.
  destruct (Z.eqb_spec 1 i) as [<-|]; [done|]. by rewrite andb_false_r.
Qed.

Lemma READ_not_WRITE : bf_contains VmPerms_READ VmPerms_WRITE = false.
Proof. unfold VmPerms_WRITE. by rewrite contains_pow2. Qed.

(** A forced read of an anonymous mapping goes to [handle_single_page_fault]. *)
Lemma forced_read_single s m vaddr answers :
  intervals (vm_mappings s) -> m ∈ vm_mappings s -> placed m -> contains m vaddr -> page_aligned vaddr ->
  mapped_mem m = Anonymous -> bf_contains (perms m) VmPerms_MAY_READ = true ->
  handle_page_fault env (mkFault vaddr VmPerms_READ true) answers s =
    ('(res, s) ← handle_single_page_fault env m vaddr VmPerms_READ answers (RssDelta_new s); Ret (res, RssDelta_drop s)).
Proof.
  intros Hl Hm Hpl Hc Hk Hmem Hmay. destruct (page_in_mapping m vaddr Hpl Hc Hk) as (H0 & _).
  rewrite (handle_page_fault_at env s m) by done. unfold VmMapping_handle_page_fault, check_perms_for_page_fault. cbn [is_forced required_perms fault_address].
  rewrite Hmay. assert (bf_contains (if is_cow m then bf_union (bf_union (perms m) VmPerms_READ) VmPerms_WRITE else bf_union (perms m) VmPerms_READ) VmPerms_READ = true) as ->.
  { unfold VmPerms_READ at 3. rewrite contains_pow2 by done. destruct (is_cow m); rewrite ?bf_union_spec by done; by rewrite ?orb_true_r. }
  cbn [negb mbind run_bind]. rewrite align_down_aligned, Hmem by done. cbn [mbind run_bind]. by destruct (negb _ && _).
Qed.

(** The first fault maps the page, as readable as the mapping is. *)
Lemma forced_read_maps s m vaddr f answers :
  intervals (vm_mappings s) -> m ∈ vm_mappings s -> placed m -> contains m vaddr -> page_aligned vaddr ->
  mapped_mem m = Anonymous -> bf_contains (perms m) VmPerms_MAY_READ = true -> vm_space s !! vaddr = None -> alloc_frame env = Ok f ->
  exists fl s', handle_page_fault env (mkFault vaddr VmPerms_READ true) answers s = Ret (Ok tt, s') /\ vm_mappings s' = vm_mappings s /\
    vm_space s' = <[vaddr := mkPte f fl]> (vm_space s) /\ readable fl = readable (perms m).
Proof.
  intros Hl Hm Hpl Hc Hk Hmem Hmay Hno Hal. rewrite (forced_read_single s m) by done.
  assert (handle_single_page_fault env m vaddr VmPerms_READ answers (RssDelta_new s) = Ret (Ok tt, map_prepared m vaddr false f false (RssDelta_new s))) as ->.
  { destruct answers; cbn [handle_single_page_fault]; rewrite (cursor_at_page m vaddr) by done; vsimpl; rewrite Hno, READ_not_WRITE; unfold prepare_page; rewrite Hmem, Hal; done. }
  cbn [mbind run_bind]. eexists _, _. split; [done|]. split; [done|]. split; [done|].
  unfold readable. rewrite bf_union_spec by done. rewrite PageFlags_from_perms_bits by done. by rewrite orb_false_r.
Qed.

(** The second fault finds a page that is mapped and cannot be read. *)
Lemma forced_read_asserts s m vaddr q answers :
  intervals (vm_mappings s) -> m ∈ vm_mappings s -> placed m -> contains m vaddr -> page_aligned vaddr ->
  mapped_mem m = Anonymous -> bf_contains (perms m) VmPerms_MAY_READ = true -> vm_space s !! vaddr = Some q -> readable (pte_flags q) = false ->
  handle_page_fault env (mkFault vaddr VmPerms_READ true) answers s = Panic.
Proof.
  intros Hl Hm Hpl Hc Hk Hmem Hmay Hq Hr. rewrite (forced_read_single s m) by done.
  assert (bf_contains (VmPerms_from_flags (pte_flags q)) VmPerms_READ = false) as Hn.
  { unfold VmPerms_READ. rewrite contains_pow2 by done. rewrite VmPerms_from_flags_bits by done. exact Hr. }
  destruct answers; cbn [handle_single_page_fault]; rewrite (cursor_at_page m vaddr) by done; vsimpl; rewrite Hq, READ_not_WRITE, Hn; done.
Qed.

(** C32: The read of another process's anonymous page that may be read, but whose mapping does not permit it
    now, panics: the first forced fault maps the page without read permission, the second one finds it and
    fails its assertion that only writes get there. *)
Theorem forced_read_panics s m vaddr f answers1 answers2 faults :
  rest s -> m ∈ vm_mappings s -> contains m vaddr -> page_aligned vaddr -> is_userspace_vaddr vaddr = true ->
  mapped_mem m = Anonymous -> bf_contains (perms m) VmPerms_MAY_READ = true -> bf_contains (perms m) VmPerms_READ = false ->
  vm_space s !! vaddr = None -> alloc_frame env = Ok f ->
  query_page_with_required_flags (answers1 :: answers2 :: faults) vaddr PageFlags_R s = Panic.
Proof.
  intros Hrest Hm Hc Hk Hu Hmem Hmay Hnr Hno Hal. pose proof Hrest as [Hinv _]. pose proof (vi_intervals _ _ _ _ _ _ Hinv) as Hl.
  assert (placed m) as Hpl by (apply (vi_placed _ _ _ _ _ _ Hinv); set_solver).
  destruct (forced_read_maps s m vaddr f answers1) as (fl & s' & E & Hmap & Hsp & Hfl); try done.
  assert (readable fl = false) as Hr by (rewrite Hfl; unfold VmPerms_READ in Hnr; by rewrite contains_pow2 in Hnr).
  cbn [query_page_with_required_flags]. rewrite Hu, (proj2 (is_multiple_of_spec _)), (cursor_at_page m vaddr), Hno, READ_of_R, E by done. cbn [andb assert_run mbind run_bind].
  rewrite Hsp, lookup_insert_eq. cbn [pte_flags].
  assert (bf_contains fl PageFlags_R = false) as -> by (unfold PageFlags_R; by rewrite contains_pow2).
  rewrite (forced_read_asserts s' m vaddr (mkPte f fl)); rewrite ?Hmap, ?Hsp; try done. by rewrite lookup_insert_eq.
Qed.

(** The fault makes the page writable, and the mapping stays as it is. *)
Lemma forced_write_fault s m vaddr q f answers :
  rest s -> m ∈ vm_mappings s -> contains m vaddr -> page_aligned vaddr -> map_mode m = Private -> is_device m = false ->
  bf_contains (perms m) VmPerms_MAY_WRITE = true -> bf_contains (perms m) VmPerms_WRITE = false ->
  vm_space s !! vaddr = Some q -> writable (pte_flags q) = false -> alloc_frame env = Ok f ->
  exists s' q', handle_page_fault env (mkFault vaddr VmPerms_WRITE true) answers s = Ret (Ok tt, s') /\ vm_mappings s' = vm_mappings s /\
    vm_space s' !! vaddr = Some q' /\ writable (pte_flags q') = true.
Proof.
  intros [Hinv _] Hm Hc Hk Hmode Hdev Hmay Hnw Hq Hw Hal. pose proof (vi_intervals _ _ _ _ _ _ Hinv) as Hl.
  assert (placed m) as Hpl by (apply (vi_placed _ _ _ _ _ _ Hinv); set_solver). destruct (page_in_mapping m vaddr Hpl Hc Hk) as (H0 & _).
  rewrite (handle_page_fault_at env s m) by done. unfold VmMapping_handle_page_fault, check_perms_for_page_fault, is_cow. cbn [is_forced required_perms fault_address].
  rewrite Hmode, Hmay. cbn [is_shared negb andb]. assert (forall p, bf_contains (bf_union p VmPerms_WRITE) VmPerms_WRITE = true) as ->.
  { intros p. unfold VmPerms_WRITE. rewrite contains_pow2 by done. rewrite bf_union_spec by done. by rewrite orb_true_r. }
  cbn [negb mbind run_bind]. rewrite align_down_aligned by done. cbn [mbind run_bind].
  assert (bf_contains VmPerms_WRITE VmPerms_WRITE = true) as Hww by (unfold VmPerms_WRITE; by rewrite contains_pow2). rewrite Hww. cbn [negb andb].
  assert (bf_contains (VmPerms_from_flags (pte_flags q)) VmPerms_WRITE = false) as Hn.
  { unfold VmPerms_WRITE. rewrite contains_pow2, VmPerms_from_flags_bits by done. exact Hw. }
  assert (handle_single_page_fault env m vaddr VmPerms_WRITE answers (RssDelta_new s) = Ret (make_writable env m vaddr q (RssDelta_new s))) as E.
  { destruct answers; cbn [handle_single_page_fault]; rewrite (cursor_at_page m vaddr), Hww by done; vsimpl; rewrite Hq, Hn, Hmode; done. }
  assert (exists s1 q', make_writable env m vaddr q (RssDelta_new s) = (Ok tt, s1) /\ vm_mappings s1 = vm_mappings s /\
    vm_space s1 !! vaddr = Some q' /\ writable (pte_flags q') = true) as (s1 & q' & Em & Hmap & Hsp & Hwr).
  { unfold make_writable, duplicate_frame. rewrite Hmode, Hal. cbn [is_shared orb]. destruct (_ =? 1); eexists _, _; (split; [done|]); vsimpl;
      rewrite lookup_insert_eq; (split; [done|]); (split; [done|]); apply written_flags_rwx. }
  exists (RssDelta_drop s1), q'. split; [|done]. unfold is_device in Hdev. destruct (mapped_mem m); [rewrite E, Em; done..|done].
Qed.


(** C34: A forced write to a page of a private mapping without write permission leaves the page writable for the
    process itself, although the mapping is still read-only. *)
Theorem forced_write_makes_writable s m vaddr q f answers :
  rest s -> m ∈ vm_mappings s -> contains m vaddr -> page_aligned vaddr -> is_userspace_vaddr vaddr = true ->
  map_mode m = Private -> is_device m = false ->
  bf_contains (perms m) VmPerms_MAY_WRITE = true -> bf_contains (perms m) VmPerms_WRITE = false ->
  vm_space s !! vaddr = Some q -> writable (pte_flags q) = false -> alloc_frame env = Ok f ->
  exists s' q', query_page_with_required_flags [answers] vaddr PageFlags_W s = Ret (Ok (pte_frame q'), s') /\ vm_mappings s' = vm_mappings s /\
    vm_space s' !! vaddr = Some q' /\ writable (pte_flags q') = true.
Proof.
  intros Hrest Hm Hc Hk Hu Hmode Hdev Hmay Hnw Hq Hw Hal. pose proof Hrest as [Hinv _].
  assert (placed m) as Hpl by (apply (vi_placed _ _ _ _ _ _ Hinv); set_solver).
  destruct (forced_write_fault s m vaddr q f answers) as (s' & q' & E & Hmap & Hq' & Hw'); try done. exists s', q'. split; [|done].
  assert (forall p, bf_contains (pte_flags p) PageFlags_W = writable (pte_flags p)) as Hf by (intros p; unfold PageFlags_W; by rewrite contains_pow2).
  cbn [query_page_with_required_flags]. rewrite Hu, (proj2 (is_multiple_of_spec _)), (cursor_at_page m vaddr), Hq, Hf, Hw, WRITE_of_W, E by done.
  cbn [andb assert_run mbind run_bind]. by rewrite Hq', Hf, Hw'.
Qed.

End alien.
