(* ===== verification/Memory.v ===== *)
(** * The address spaces of all processes

    Several address spaces share the memory objects and the frames.  A step is a memory system call or a
    page fault of one process, a [fork], the exit of a process, or a memory object that takes or gives up
    frames.  In every world that can be reached each address space keeps its invariant, the counters of
    writable mappings count the mappings of all processes, and a page that a process can write through a
    private mapping is seen by no other page table entry and by no memory object. *)

From S2P Require Import Prelude Flags Align IntervalSet VmMapping Vmar VmarInv VmarOps VmarProtect VmarRegion VmarPages VmarUnmap VmarRemap VmarMap PageFault PageFaultSpec VmarSyscalls VmarWf VmarCalls Fork AlienAccess.

(** ** Processes and their calls *)
Record Process := mkProcess { p_heap : HeapInner; p_vmar : Vmar }.

Inductive MemCall :=
  | Munmap (addr len : Z)
  | Mprotect (addr len prot : Z)
  | Madvise (addr len behavior : Z)
  | Mremap (old_addr old_size new_size flags new_addr : Z)
  | Mmap (addr len prot flags : Z) (file : result MmapFile) (shared_vmo : result nat) (offset : Z)
  | Brk (rlimit_data heap_end : Z)
  | Fault (env : FaultEnv) (info : PageFaultInfo) (answers : list Vmos_commit).

Section memory.
Context `{BF : Bitflags} (rlimit_as : option Z).

Definition do_call (me : nat) (c : MemCall) (p : Process) : run (result Z * Process) :=
  let keep (r : run (result Z * Vmar)) := '(res, s) ← r; Ret (res, mkProcess (p_heap p) s) in
  match c with
  | Munmap addr len => keep (sys_munmap me addr len (p_vmar p))
  | Mprotect addr len prot => keep (sys_mprotect me addr len prot (p_vmar p))
  | Madvise addr len behavior => keep (sys_madvise addr len behavior (p_vmar p))
  | Mremap old_addr old_size new_size flags new_addr =>
      keep (sys_mremap me rlimit_as old_addr old_size new_size flags new_addr (p_vmar p))
  | Mmap addr len prot flags file shared_vmo offset =>
      keep (sys_mmap me rlimit_as addr len prot flags file shared_vmo offset (p_vmar p))
  | Brk rlimit_data heap_end =>
      '(v, h, s) ← sys_brk me rlimit_as rlimit_data heap_end (p_heap p) (p_vmar p); Ret (Ok v, mkProcess h s)
  | Fault env info answers =>
      '(res, s) ← handle_page_fault env info answers (p_vmar p);
      Ret (match res with Ok _ => Ok 0 | Err e => Err e end, mkProcess (p_heap p) s)
  end.

(** ** The world *)
Record World := mkWorld { w_procs : gmap nat Process; w_vmos : Vmos; w_held : gset nat }.

(** The address space of a process, with the memory objects as they are now. *)
Definition space_in (w : World) (p : Process) : Vmar := with_vmos (p_vmar p) (w_vmos w).

(** A page table entry of process [v] at [k] uses a frame. *)
Definition used (w : World) (v : nat) (k : Z) (f : nat) : Prop :=
  exists p q, w_procs w !! v = Some p /\ vm_space (p_vmar p) !! k = Some q /\ pte_frame q = f.

(** What the code relies on: the frame allocator gives frames that nobody uses; a frame with one reference
    has one user; the frames that memory objects and devices offer are theirs; and their sizes are whole
    pages. *)
Record env_ok (w : World) (env : FaultEnv) (answers : list Vmos_commit) : Prop := {
  eo_alloc : forall f, alloc_frame env = Ok f -> f ∉ w_held w /\ forall v k, ~ used w v k f;
  eo_count : forall f v k, reference_count env f = 1 -> used w v k f ->
    f ∉ w_held w /\ forall v' k', used w v' k' f -> v' = v /\ k' = k;
  eo_objects : forall commit id offset mode f granted, commit ∈ answers -> commit id offset mode = inr (f, granted) -> f ∈ w_held w;
  eo_devices : forall b f, f ∈ gem_pages env b -> f ∈ w_held w;
  eo_sizes : forall id, page_aligned (vmo_size env id);
  eo_settled : Exists settled answers
}.

(** Arguments of a call: words, an access that the processor can make, and a file that offers its own
    frames. *)
Definition call_ok (w : World) (c : MemCall) : Prop :=
  match c with
  | Munmap addr len | Mprotect addr len _ | Madvise addr len _ => is_u64 addr /\ is_u64 len
  | Mremap a o n _ _ => is_u64 a /\ is_u64 o /\ is_u64 n
  | Mmap addr len _ _ file _ _ =>
      is_u64 addr /\ is_u64 len /\ file_ok file /\
      forall f shared installs res, file = Ok f -> mf_mappable f shared = Ok (MappableDevice installs res) -> Forall (fun i => i.2 ∈ w_held w) installs
  | Brk _ heap_end => is_u64 heap_end
  | Fault env info answers => env_ok w env answers /\ is_forced info = false /\ access (required_perms info)
  end.

Inductive world_step : World -> World -> Prop :=
  | step_call w v p c res p' :
      w_procs w !! v = Some p -> call_ok w c -> do_call v c (mkProcess (p_heap p) (space_in w p)) = Ret (res, p') ->
      world_step w (mkWorld (<[v := p']> (w_procs w)) (vmos (p_vmar p')) (w_held w))
  | step_fork w v p child s' new :
      w_procs w !! v = Some p -> w_procs w !! child = None -> fork_from child (space_in w p) = Ret (s', new) ->
      world_step w (mkWorld (<[child := mkProcess (p_heap p) new]> (<[v := mkProcess (p_heap p) s']> (w_procs w))) (vmos new) (w_held w))
  | step_exit w v p s' :
      w_procs w !! v = Some p -> clear v (space_in w p) = Ret s' ->
      world_step w (mkWorld (delete v (w_procs w)) (vmos s') (w_held w))
  | step_seal w seals new_seals executable id seals' vm :
      add_seals seals new_seals executable id (w_vmos w) = Ok (seals', vm) -> world_step w (mkWorld (w_procs w) vm (w_held w))
  | step_objects w held' :
      (forall f, f ∈ held' -> f ∉ w_held w -> forall v k, ~ used w v k f) ->
      world_step w (mkWorld (w_procs w) (w_vmos w) held').

Inductive world_reachable (w0 : World) : World -> Prop :=
  | reachable_start : world_reachable w0 w0
  | reachable_step w w' : world_reachable w0 w -> world_step w w' -> world_reachable w0 w'.

(** ** Where pages come from *)

(** A page of a private mapping that can be written. *)
Definition private_page (s : Vmar) (k : Z) : Prop :=
  exists q a, vm_space s !! k = Some q /\ writable (pte_flags q) = true /\ view (vm_mappings s) k = Some a /\ a_mode a = Private.

(** Each page of [s'] is a page of [s], possibly from another address, and no private page unless that
    was one; or it is a page of a memory object, and not a private one. *)
Definition carried (held : gset nat) (s s' : Vmar) : Prop :=
  exists from : Z -> Z,
    (forall k q, vm_space s' !! k = Some q ->
       (exists q0, vm_space s !! from k = Some q0 /\ pte_frame q = pte_frame q0 /\ (private_page s' k -> private_page s (from k))) \/
       (pte_frame q ∈ held /\ ~ private_page s' k)) /\
    (forall k k' q q', vm_space s' !! k = Some q -> vm_space s' !! k' = Some q' -> from k = from k' -> k = k').

Lemma carried_same held s s' :
  (forall k q, vm_space s' !! k = Some q -> exists q0, vm_space s !! k = Some q0 /\ pte_frame q = pte_frame q0 /\ (private_page s' k -> private_page s k)) ->
  carried held s s'.
Proof. intros H. exists (fun k => k). split; [|done]. intros k q Hq. left. by apply H. Qed.

Lemma carried_refl held s : carried held s s.
Proof. apply carried_same. eauto. Qed.

(** Less of the same. *)
Lemma carried_shrink held s s' :
  (forall k a, view (vm_mappings s') k = Some a -> view (vm_mappings s) k = Some a) ->
  (forall k q, vm_space s' !! k = Some q -> vm_space s !! k = Some q) -> carried held s s'.
Proof.
  intros Hv Hp. apply carried_same. intros k q Hq. exists q. split; [auto|]. split; [done|].
  intros (q' & a & ? & ? & ? & ?). exists q', a. auto.
Qed.

Lemma carried_truncated held r s s' : truncated r s s' -> carried held s s'.
Proof. intros [Hv Hp]. apply carried_shrink; [intros k a; rewrite Hv|intros k q; rewrite Hp]; by case_decide. Qed.

Lemma carried_removed held rs s s' : removed rs s s' -> carried held s s'.
Proof. intros [Hv Hp]. apply carried_shrink; [intros k a; rewrite Hv|intros k q; rewrite Hp]; by case_decide. Qed.

Lemma carried_untouched held s s' : untouched s s' -> carried held s s'.
Proof. intros (Hm & Hp & _). apply carried_shrink; [by rewrite Hm|by rewrite Hp]. Qed.

Lemma carried_discarded held r stop s s' : discarded r stop s s' -> carried held s s'.
Proof. intros [Hm Hp _]. apply carried_shrink; [by rewrite Hm|intros k q; rewrite Hp; by case_decide]. Qed.

Lemma attr_flags_private s k a q :
  space_wf s -> vm_space s !! k = Some q -> view (vm_mappings s) k = Some a -> pte_flags q = attr_flags a -> ~ private_page s k.
Proof.
  intros Hwf Hq Hv Hf (q' & a' & Hq' & Hw & Hv' & Hm). rewrite Hq in Hq'. injection Hq' as <-. rewrite Hv in Hv'. injection Hv' as <-.
  rewrite Hf in Hw. unfold attr_flags in Hw. destruct (a_backing a) as [| |o] eqn:Eb.
  3: { pose proof (ak_device _ _ (sw_attr _ Hwf k a Hv) o Eb). congruence. }
  all: unfold writable in Hw; rewrite bf_difference_spec in Hw by done; unfold PageFlags_W in Hw; rewrite Z.pow2_bits_eqb in Hw by done;
    by rewrite andb_false_r in Hw.
Qed.

Lemma carried_protected held p r s s' stop : space_wf s' -> protected_upto p r s s' stop -> carried held s s'.
Proof.
  intros Hwf [_ _ Hpg _]. apply carried_same. intros k q Hq. specialize (Hpg k). unfold page_protected in Hpg. rewrite Hq in Hpg.
  destruct (vm_space s !! k) as [q0|] eqn:E0; [|done]. destruct Hpg as [Hf [[-> Hv]|(a & Hv & Hfl)]]; exists q0; (split; [done|]); (split; [done|]).
  - intros (q' & a & ? & ? & ? & ?). exists q', a. rewrite <- Hv. split_and!; try done. congruence.
  - intros Hpp. by destruct (attr_flags_private s' k a q Hwf Hq Hv Hfl).
Qed.

Lemma carried_grown held v base others m n s s' : resting v base others s -> grown m n s s' -> carried held s s'.
Proof.
  intros [Hinv _] (Hv & Hp & Hfree). apply carried_same. intros k q. rewrite Hp. intros Hq. exists q. split; [done|]. split; [done|].
  intros (q' & a & Hq' & Hw & Hva & Hm). exists q', a. rewrite Hp in Hq'. rewrite Hv in Hva. case_decide as Hk; [|done].
  by rewrite (region_free_pages v base others 0 s (map_end m) n k Hinv Hfree Hk) in Hq'.
Qed.

Lemma carried_remapped held a old new r action s s' : remapped a old new r action s s' -> carried held s s'.
Proof.
  intros [(at_ & Ea & Hold & Hnew) Hrest Hpg]. exists (fun k => if decide (r <= k < r + Z.min old new) then k - (r - a) else k). split.
  - intros k q Hq. left. rewrite Hpg in Hq. destruct (decide (r <= k < r + Z.min old new)) as [Hk|Hk].
    + exists q. split; [done|]. split; [done|]. intros (q' & b & Hq' & Hw & Hv & Hm). exists q', (attr_shift at_ (k - r)).
      rewrite Hpg, decide_True in Hq' by done. rewrite Hnew in Hv by lia. injection Hv as <-. split_and!; try done. rewrite Hold by lia. do 2 f_equal. lia.
    + destruct (decide (a <= k < a + old \/ r <= k < r + new)); [done|]. exists q. split; [done|]. split; [done|].
      intros (q' & b & Hq' & Hw & Hv & Hm). exists q', b. rewrite Hpg, !decide_False in Hq' by lia. rewrite Hrest in Hv by lia.
      destruct (decide (_ /\ ~ _)); done.
  - intros k k' q q' Hq Hq'. rewrite Hpg in Hq, Hq'. repeat case_decide; try done; lia.
Qed.

Lemma carried_mapped held o addr s s' :
  space_wf s' -> Forall (fun f => f ∈ held) (device_frames o) -> mapped rlimit_as o addr s s' -> carried held s s'.
Proof.
  intros Hwf Hheld [_ (m & [[Hma Hms] _ _ _] & Hv & Hpg) Hout _ _].
  assert (forall x, contains m x <-> addr <= x < addr + o_size o) as Hc by (intros x; rewrite contains_iff; unfold map_end; lia).
  exists (fun k => k). split; [|done]. intros k q Hq. destruct (decide (contains m k)) as [Hk|Hk].
  - right. destruct (Hpg k q Hk Hq) as (Hexp & Hfl & Hfr). rewrite Forall_forall in Hheld. split; [by apply Hheld|].
    apply (attr_flags_private s' k (attr_at m k) q Hwf Hq); [rewrite Hv; by rewrite decide_True|].
    rewrite Hfl. unfold attr_flags, can_expand in *. cbn. by destruct (mapped_mem m).
  - left. assert (vm_space s' !! k = vm_space s !! k) as E by (apply Hout; by rewrite <- Hc). exists q. rewrite <- E. split; [done|]. split; [done|].
    intros (q' & a & Hq' & Hw & Hva & Hm). exists q', a. rewrite Hv, decide_False in Hva by done. by rewrite <- E.
Qed.

Lemma carried_build held o s s' res :
  space_wf s' -> Forall (fun f => f ∈ held) (device_frames o) -> build_outcome rlimit_as o s s' res -> carried held s s'.
Proof.
  intros Hwf Hh. destruct res as [addr|e]; cbn; [by apply carried_mapped|]. intros [->|(s1 & Hr & Hu)]; [apply carried_refl|].
  destruct Hu as (Hm & Hp & _). unfold replaced in Hr. assert (s1 = s \/ exists r, truncated r s s1) as [->|[r [Tv Tp]]] by (destruct (o_offset o); try (by left); right; destruct Hr; eauto).
  - apply carried_shrink; [by rewrite Hm|by rewrite Hp].
  - apply carried_shrink; [intros k a; rewrite Hm, Tv|intros k q; rewrite Hp, Tp]; by case_decide.
Qed.

Lemma carried_resize held v base others a old new single s s' res :
  resting v base others s -> resize_outcome rlimit_as a old new single s s' res -> carried held s s'.
Proof.
  intros Hrest. destruct res as [[]|e]; cbn; [|intros [-> _]; apply carried_refl]. intros [_ H]. repeat case_decide.
  - by eapply carried_truncated.
  - subst. apply carried_refl.
  - destruct H as (m & _ & _ & _ & _ & _ & Hg). by eapply carried_grown.
Qed.

Lemma carried_remap held a old na new action s s' res : remap_outcome a old na new action s s' res -> carried held s s'.
Proof.
  destruct res as [r|e]; cbn; [intros [_ H]; by eapply carried_remapped|]. intros [[_ ->]|[_ [->|H]]]; [apply carried_refl..|by eapply carried_removed].
Qed.

(** ** One call *)
Definition call_effect (held : gset nat) (c : MemCall) (s s' : Vmar) : Prop :=
  match c with
  | Fault env info answers =>
      s' = s \/ exists m, m ∈ vm_mappings s /\ contains m (fault_address info) /\ allowed (perms m) (required_perms info) /\
        fault_step env answers m (required_perms info) s s'
  | _ => carried held s s'
  end.

(** The call returns with a consistent process; what is left is its effect. *)
Ltac call_done := eexists _, _; do 4 (split; [done|]).

Lemma do_call_spec w me base others c p :
  resting me base others (p_vmar p) -> space_wf (p_vmar p) -> heap_ok (p_heap p) -> call_ok w c ->
  exists res p', do_call me c p = Ret (res, p') /\ resting me base others (p_vmar p') /\ space_wf (p_vmar p') /\ heap_ok (p_heap p') /\
    call_effect (w_held w) c (p_vmar p) (p_vmar p').
Proof.
  intros Hrest Hwf Hh Hok. destruct c as [a l|a l pr|a l b|a o n f na|a l pr f file vmo off|rl e|env info answers]; cbn [do_call].
  - destruct Hok as [H1 H2]. destruct (sys_munmap_spec me base others a l _ Hrest Hwf H1 H2) as (res & s' & -> & R & W & O). cbn [mbind run_bind].
    call_done. cbn.
    destruct res; [destruct O as (_ & r & _ & T); by eapply carried_truncated|destruct O as (_ & -> & _); apply carried_refl].
  - destruct Hok as [H1 H2]. destruct (sys_mprotect_spec me base others a l pr _ Hrest Hwf H1 H2) as (res & s' & -> & R & W & O & _). cbn [mbind run_bind].
    call_done. cbn.
    destruct O as [->|(q & r & stop & _ & _ & U & _)]; [apply carried_refl|by eapply carried_protected].
  - destruct Hok as [H1 H2]. destruct (sys_madvise_spec me base others a l b _ Hrest Hwf H1 H2) as (res & s' & -> & R & W & O & _). cbn [mbind run_bind].
    call_done. cbn.
    destruct O as [->|(_ & r & stop & _ & D)]; [apply carried_refl|by eapply carried_discarded].
  - destruct Hok as (H1 & H2 & H3). destruct (sys_mremap_spec me base others rlimit_as a o n f na _ Hrest Hwf H1 H2 H3) as (res & s' & -> & R & W & O). cbn [mbind run_bind].
    call_done. cbn.
    destruct O as [[-> _]|(old' & new' & _ & _ & _ & [(single & O & _)|(na' & action & O)])]; [apply carried_refl|by eapply carried_resize|by eapply carried_remap].
  - destruct Hok as (H1 & H2 & H3 & H4). unfold sys_mmap. destruct (MMapOptions_try_from _) as [opt|e]; cbn [mbind run_bind].
    2: { call_done. apply carried_refl. }
    destruct (do_sys_mmap_spec me base others rlimit_as a l (VmPerms_from_user_bits_truncate (pr mod 2 ^ 32)) opt file vmo off _ Hrest Hwf H1 H2 H3) as (res & s' & -> & R & W & O).
    cbn [mbind run_bind]. call_done. cbn.
    destruct O as [[-> _]|(len' & o & _ & _ & Mo & O)]; [apply carried_refl|]. eapply carried_build; [done| |done].
    unfold device_frames. pose proof (mo_device _ _ _ _ _ Mo) as Hd. destruct (o_mappable o) as [[v|installs r]|] eqn:Eo; [by constructor| |by constructor].
    destruct (Hd installs r Eo) as (fl & sh & Ef & Em). apply Forall_fmap. by apply (H4 fl sh installs r).
  - unfold sys_brk. destruct (e =? 0); cbn [mbind run_bind].
    { call_done. apply carried_refl. }
    destruct (modify_heap_end_spec me base others rlimit_as rl e _ _ Hrest Hwf Hh Hok) as (v & h' & s' & -> & R & W & H' & _ & _ & O). cbn [mbind run_bind].
    call_done. cbn.
    destruct O as [[_ U]|(_ & _ & oe & ne & _ & _ & [[_ ->]|[[_ T]|[_ M]]])]; [by eapply carried_untouched|apply carried_refl|by eapply carried_truncated|].
    eapply carried_mapped; [done| |exact M]. by constructor.
  - destruct Hok as (He & Hun & Hacc).
    destruct (handle_page_fault_spec env me base others answers info _ Hrest Hwf (eo_sizes _ _ _ He) (eo_settled _ _ _ He) Hun Hacc) as (res & s' & -> & R & W & O).
    cbn [mbind run_bind]. call_done. cbn.
    destruct O as [(m & Hm & Hc & Hp & S & _)|(_ & _ & ->)]; [right|by left]. exists m. split_and!; try done. by apply contains_allowed.
Qed.

(** ** Isolation *)

(** A frame that a process can write through a private mapping belongs to that page only. *)
Definition isolated (w : World) : Prop :=
  forall v p k q, w_procs w !! v = Some p -> vm_space (p_vmar p) !! k = Some q -> private_page (p_vmar p) k ->
    pte_frame q ∉ w_held w /\ forall v' k', used w v' k' (pte_frame q) -> v' = v /\ k' = k.

Lemma used_intro w v p k q : w_procs w !! v = Some p -> vm_space (p_vmar p) !! k = Some q -> used w v k (pte_frame q).
Proof. intros. exists p, q. auto. Qed.

(** Pages come from pages of the same process. *)
Lemma isolated_carried w v p p' vm :
  isolated w -> w_procs w !! v = Some p -> carried (w_held w) (p_vmar p) (p_vmar p') ->
  isolated (mkWorld (<[v := p']> (w_procs w)) vm (w_held w)).
Proof.
  intros Hiso Hv (from & Hfrom & Hinj).
  assert (forall u k f, used (mkWorld (<[v := p']> (w_procs w)) vm (w_held w)) u k f -> f ∉ w_held w ->
    used w u (if decide (u = v) then from k else k) f) as Hused.
  { intros u k f (x & q & Hx & Hq & <-) Hnh. cbn in Hx. apply lookup_insert_Some in Hx as [[<- <-]|[Hne Hx]].
    - rewrite decide_True by done. destruct (Hfrom k q Hq) as [(q0 & Hq0 & -> & _)|[? _]]; [by eapply used_intro|done].
    - rewrite decide_False by done. by eapply used_intro. }
  intros u x k q Hx Hq Hpp. cbn in Hx. cbn [w_held]. apply lookup_insert_Some in Hx as [[<- <-]|[Hne Hx]].
  - destruct (Hfrom k q Hq) as [(q0 & Hq0 & Hf & Hpriv)|[_ Hn]]; [|done]. rewrite Hf.
    destruct (Hiso v p (from k) q0 Hv Hq0 (Hpriv Hpp)) as [Hnh Huse]. split; [done|]. intros u k' Hu.
    pose proof Hu as (x & q' & Hx & Hq' & _). apply Hused in Hu; [|done]. apply Huse in Hu as [-> Hk]. rewrite decide_True in Hk by done.
    cbn in Hx. rewrite lookup_insert_eq in Hx. injection Hx as <-. split; [done|]. by apply (Hinj k' k q' q).
  - destruct (Hiso u x k q Hx Hq Hpp) as [Hnh Huse]. split; [done|]. intros u' k' Hu. apply Hused in Hu; [|done].
    apply Huse in Hu as [-> Hk]. rewrite decide_False in Hk by congruence. done.
Qed.

(** Every use of a frame that no object holds is old, or of the frame that was just allocated. *)
Lemma fault_used w v p p' vm env answers m required :
  w_procs w !! v = Some p ->
  (forall commit id offset mode f granted, commit ∈ answers -> commit id offset mode = inr (f, granted) -> f ∈ w_held w) ->
  (forall b f, f ∈ gem_pages env b -> f ∈ w_held w) ->
  (forall k, vm_space (p_vmar p') !! k = vm_space (p_vmar p) !! k \/
    exists q, contains m k /\ page_aligned k /\ vm_space (p_vmar p') !! k = Some q /\ faulted env answers m required (vm_space (p_vmar p) !! k) q) ->
  forall u k f, used (mkWorld (<[v := p']> (w_procs w)) vm (w_held w)) u k f -> f ∉ w_held w ->
    used w u k f \/ (u = v /\ alloc_frame env = Ok f /\ vm_space (p_vmar p') !! k <> vm_space (p_vmar p) !! k).
Proof.
  intros Hv Hobj Hdev Hpages u k f (x & q & Hx & Hq & <-) Hnh. cbn in Hx. apply lookup_insert_Some in Hx as [[<- <-]|[Hne Hx]]; [|left; by eapply used_intro].
  destruct (Hpages k) as [E|(q' & _ & _ & Hq' & Hf)]; [left; rewrite E in Hq; by eapply used_intro|].
  rewrite Hq in Hq'. injection Hq' as <-. destruct (decide (vm_space (p_vmar p') !! k = vm_space (p_vmar p) !! k)) as [E|Hne]; [left; rewrite E in Hq; by eapply used_intro|].
  inversion Hf as [q0 Hw _ E1 E2|q0 f Hw _ Hal E1 E2|f fl _ Hal _ E1 E2|o f fl commit offset mode g b _ Hin Hc _ _ _ E1 E2|o f _ [b Hb] E1 E2]; subst q; cbn in Hnh |- *.
  - left. by eapply used_intro.
  - right. done.
  - right. done.
  - exfalso. apply Hnh. by eapply Hobj.
  - exfalso. apply Hnh. by eapply Hdev.
Qed.

(** A fault takes frames that are free, or that are the page's own, or that belong to an object. *)
Lemma isolated_fault w v p p' vm env info answers m :
  isolated w -> space_wf (p_vmar p') -> w_procs w !! v = Some p -> env_ok w env answers -> intervals (vm_mappings (p_vmar p)) ->
  m ∈ vm_mappings (p_vmar p) -> fault_step env answers m (required_perms info) (space_in w p) (p_vmar p') ->
  isolated (mkWorld (<[v := p']> (w_procs w)) vm (w_held w)).
Proof.
  intros Hiso Hwf Hv [Halloc Hcount Hobj Hdev _ _] Hl Hm [Em _ _ Hpages Hshape].
  cbn [space_in with_vmos vm_space vm_mappings] in Em, Hpages, Hshape.
  pose proof (fault_used w v p p' vm env answers m (required_perms info) Hv Hobj Hdev Hpages) as Hused.
  (* the frame that was just allocated goes to one page *)
  assert (forall f k k', alloc_frame env = Ok f -> (exists q, vm_space (p_vmar p') !! k = Some q /\ pte_frame q = f) ->
    vm_space (p_vmar p') !! k <> vm_space (p_vmar p) !! k -> vm_space (p_vmar p') !! k' <> vm_space (p_vmar p) !! k' -> k' = k) as Hone.
  { intros f k k' Hal (q & Hq & Hf) Hk Hk'. destruct Hshape as [[k0 H0]|Hob].
    - destruct (decide (k = k0)) as [->|]; [|by rewrite H0 in Hk]. destruct (decide (k' = k0)) as [->|]; [done|by rewrite H0 in Hk'].
    - exfalso. destruct (Hob k) as [?|(q' & Hq' & o & commit & offset & mode & g & _ & Hin & Hc & _)]; [done|].
      rewrite Hq in Hq'. injection Hq' as <-. apply (Hobj commit _ _ _ _ _ Hin) in Hc. rewrite Hf in Hc. by destruct (Halloc f Hal). }
  intros u x k q Hx Hq Hpp. cbn in Hx. cbn [w_held]. apply lookup_insert_Some in Hx as [[<- <-]|[Hne Hx]].
  2: { destruct (Hiso u x k q Hx Hq Hpp) as [Hnh Huse]. split; [done|]. intros u' k' [Hu|(_ & Hal & _)]%Hused; [by apply Huse| |done].
       destruct (proj2 (Halloc _ Hal) u k). by eapply used_intro. }
  pose proof Hpp as (q' & a & Hq' & Hw & Hva & Hmode). rewrite Hq in Hq'. injection Hq' as <-.
  destruct (decide (vm_space (p_vmar p') !! k = vm_space (p_vmar p) !! k)) as [E|Hch].
  { rewrite E in Hq. assert (private_page (p_vmar p) k) as Hpp'. { exists q, a. rewrite <- Em. auto. }
    destruct (Hiso v p k q Hv Hq Hpp') as [Hnh Huse]. split; [done|]. intros u' k' [Hu|(_ & Hal & _)]%Hused; [by apply Huse| |done].
    destruct (proj2 (Halloc _ Hal) v k). by eapply used_intro. }
  destruct (Hpages k) as [?|(q' & Hc & _ & Hq' & Hf)]; [done|]. rewrite Hq in Hq'. injection Hq' as <-.
  rewrite Em, (view_Some _ k m Hl Hm Hc) in Hva. injection Hva as <-. cbn in Hmode.
  assert (forall f, alloc_frame env = Ok f -> pte_frame q = f -> f ∉ w_held w /\
    forall v' k', used (mkWorld (<[v := p']> (w_procs w)) vm (w_held w)) v' k' f -> v' = v /\ k' = k) as Hfresh.
  { intros f Hal Hqf. destruct (Halloc f Hal) as [Hnh Hun]. split; [done|]. intros u' k' [Hu|(-> & _ & Hk')]%Hused; [by destruct (Hun u' k')| |done].
    split; [done|]. apply (Hone f k k'); eauto. }
  inversion Hf as [q0 Hwr Hsh E1 E2|q0 f Hwr _ Hal E1 E2|f fl _ Hal _ E1 E2|o f fl commit offset mode g b _ Hin Hco Hnf Hb _ E1 E2|o f Ho _ E1 E2]; subst q; cbn [pte_frame pte_flags] in *.
  - destruct Hsh as [Hsh|Href]; [by rewrite Hmode in Hsh|]. destruct (Hcount _ v k Href) as [Hnh Huse]; [by eapply used_intro|].
    split; [done|]. intros u' k' [Hu|(_ & Hal & _)]%Hused; [by apply Huse| |done]. destruct (proj2 (Halloc _ Hal) v k). by eapply used_intro.
  - by apply Hfresh.
  - by apply Hfresh.
  - destruct Hnf as (_ & _ & Hwf'). rewrite Hwf' in Hw. apply andb_true_iff in Hw as [-> _]. destruct (Hb eq_refl) as [? _]. congruence.
  - exfalso. assert (view (vm_mappings (p_vmar p')) k = Some (attr_at m k)) as Hv' by (rewrite Em; by apply view_Some).
    pose proof (ak_device _ _ (sw_attr _ Hwf k _ Hv') (MappedObject_dup_at_offset o (k - map_to_addr m))) as Hd. cbn in Hd. rewrite Ho in Hd.
    specialize (Hd eq_refl). congruence.
Qed.

(** After a [fork] neither process can write a page. *)
Lemma isolated_fork w v p child s s' new h vm :
  isolated w -> w_procs w !! v = Some p -> vm_space s = vm_space (p_vmar p) -> forked s s' new ->
  isolated (mkWorld (<[child := mkProcess h new]> (<[v := mkProcess h s']> (w_procs w))) vm (w_held w)).
Proof.
  intros Hiso Hv Hs [_ _ _ Hpg Hnew _].
  assert (forall k q, vm_space s' !! k = Some q -> writable (pte_flags q) = false /\ used w v k (pte_frame q)) as Hcow.
  { intros k q. rewrite Hpg, Hs. destruct (vm_space (p_vmar p) !! k) as [q0|] eqn:E; [|done]. intros [= <-].
    split; [apply cow_page_readonly|by eapply (used_intro w v p k q0)]. }
  intros u x k q Hx Hq Hpp. cbn in Hx. cbn [w_held]. pose proof Hpp as (q' & a & Hq' & Hw & _ & _). rewrite Hq in Hq'. injection Hq' as <-.
  apply lookup_insert_Some in Hx as [[<- <-]|[Hne Hx]]; [cbn in Hq; rewrite Hnew in Hq; apply Hcow in Hq as [? _]; congruence|].
  apply lookup_insert_Some in Hx as [[<- <-]|[Hne' Hx]]; [cbn in Hq; apply Hcow in Hq as [? _]; congruence|].
  destruct (Hiso u x k q Hx Hq Hpp) as [Hnh Huse]. split; [done|]. intros u' k' (y & qy & Hy & Hqy & Hf). cbn in Hy.
  apply lookup_insert_Some in Hy as [[<- <-]|[Hne'' Hy]].
  { cbn in Hqy. rewrite Hnew in Hqy. apply Hcow in Hqy as [_ Hu]. rewrite Hf in Hu. apply Huse in Hu as [? _]. congruence. }
  apply lookup_insert_Some in Hy as [[<- <-]|[Hne3 Hy]].
  { cbn in Hqy. apply Hcow in Hqy as [_ Hu]. rewrite Hf in Hu. apply Huse in Hu as [? _]. congruence. }
  apply Huse. exists y, qy. auto.
Qed.

(** ** The invariant of the world *)
Definition tracked_in (id : nat) (p : Process) : Z := tally (fun m => tracks m id) (vm_mappings (p_vmar p)).

Definition tracked_by (procs : gmap nat Process) (id : nat) : Z := map_fold (fun _ p n => tracked_in id p + n) 0 procs.

(** What the other address spaces contribute to the counters, seen from one process. *)
Definition base_of (vm : Vmos) (s : Vmar) (id : nat) : Z := status vm id - tally (fun m => tracks m id) (vm_mappings s).

Definition process_inv (vm : Vmos) (v : nat) (p : Process) : Prop :=
  resting v (base_of vm (p_vmar p)) (rmap_of vm) (with_vmos (p_vmar p) vm) /\ space_wf (p_vmar p) /\ heap_ok (p_heap p).

Lemma tracked_by_insert procs v p id :
  procs !! v = None -> tracked_by (<[v := p]> procs) id = tracked_in id p + tracked_by procs id.
Proof. intros Hv. unfold tracked_by. rewrite map_fold_insert_L; [done| |done]. intros. lia. Qed.

Lemma tracked_by_delete procs v p id :
  procs !! v = Some p -> tracked_by procs id = tracked_in id p + tracked_by (delete v procs) id.
Proof. intros Hv. rewrite <- (insert_delete_id procs v p Hv) at 1. apply tracked_by_insert, lookup_delete_eq. Qed.

Lemma tracked_by_update procs v p p' id :
  procs !! v = Some p -> tracked_by (<[v := p']> procs) id = tracked_by procs id - tracked_in id p + tracked_in id p'.
Proof.
  intros Hv. rewrite <- insert_delete_eq, tracked_by_insert by apply lookup_delete_eq. rewrite (tracked_by_delete procs v p id Hv). lia.
Qed.

Lemma tracked_in_nonneg id p : 0 <= tracked_in id p.
Proof. apply tally_nonneg. intros m. unfold tracks. case_decide; lia. Qed.

Lemma tracked_in_zero id p : tracked_in id p = 0 <-> forall m, m ∈ vm_mappings (p_vmar p) -> tracked m <> Some id.
Proof.
  unfold tracked_in. split.
  - intros Hz m Hm Ht. apply list_elem_of_lookup in Hm as [i Hi].
    pose proof (tally_lookup (fun m => tracks m id) _ i m (fun a => ltac:(unfold tracks; case_decide; lia)) Hi) as H. cbn in H.
    unfold tracks at 1 in H. rewrite decide_True in H by done. lia.
  - intros H. apply tally_zero. intros m Hm. unfold tracks. by rewrite decide_False by by apply H.
Qed.

Lemma tracked_by_zero procs id :
  0 <= tracked_by procs id /\
  (tracked_by procs id = 0 <-> forall u p m, procs !! u = Some p -> m ∈ vm_mappings (p_vmar p) -> tracked m <> Some id).
Proof.
  induction procs as [|u p procs Hu IH] using map_ind.
  { unfold tracked_by. rewrite map_fold_empty. split; [lia|]. split; [|done]. intros _ u p m Hp. by rewrite lookup_empty in Hp. }
  rewrite tracked_by_insert by done. destruct IH as [Hnn IH]. pose proof (tracked_in_nonneg id p) as Hp. pose proof (tracked_in_zero id p) as Hz.
  split; [lia|]. split.
  - intros Hs u' p' m [[<- <-]|[_ Hu']]%lookup_insert_Some; [apply Hz; lia|]. apply (proj1 IH ltac:(lia) u' p' m Hu').
  - intros H. assert (tracked_in id p = 0) as -> by (apply Hz; intros m; apply (H u p m); by rewrite lookup_insert_eq).
    apply IH. intros u' p' m Hu'. apply (H u' p' m). rewrite lookup_insert_ne by congruence. done.
Qed.

(** Each counter counts the mappings of all processes, or the object is sealed and there are none. *)
Definition counts_ok (procs : gmap nat Process) (vm : Vmos) : Prop :=
  forall id, status vm id = tracked_by procs id \/ (status vm id = -1 /\ tracked_by procs id = 0).

Lemma tracked_in_le procs v p id : procs !! v = Some p -> tracked_in id p <= tracked_by procs id.
Proof. intros Hv. rewrite (tracked_by_delete procs v p id Hv). pose proof (proj1 (tracked_by_zero (delete v procs) id)). lia. Qed.

(** The other processes count for nothing less than zero, unless the object is sealed. *)
Lemma counts_base procs vm v p id :
  counts_ok procs vm -> procs !! v = Some p -> 0 <= base_of vm (p_vmar p) id \/ tracked_in id p = 0.
Proof.
  intros Hc Hv. pose proof (tracked_in_le procs v p id Hv) as Hle. pose proof (tracked_in_nonneg id p) as Hnn.
  unfold base_of. fold (tracked_in id p). destruct (Hc id) as [-> |[-> E]]; [left|right]; lia.
Qed.

Record world_inv (w : World) : Prop := {
  wi_procs : forall v p, w_procs w !! v = Some p -> process_inv (w_vmos w) v p;
  wi_fresh : forall v, w_procs w !! v = None -> forall id, rmap_of (w_vmos w) id v = [];
  wi_status : counts_ok (w_procs w) (w_vmos w);
  wi_isolated : isolated w
}.

(** An address space at rest, seen with what the memory objects say now. *)
Lemma resting_self v base others s : resting v base others s -> resting v (base_of (vmos s) s) (rmap_of (vmos s)) (with_vmos s (vmos s)).
Proof.
  intros [[Hi Hpl Ha Hh Ht Hr Ho Hs Hrss Hp Hdn] Hd]. split; [|done]. constructor; vsimpl; try done.
  - intros id. unfold base_of. rewrite app_nil_r. lia.
  - intros id m Hb. apply Hdn. specialize (Hs id). rewrite app_nil_r in Hs. unfold base_of in Hb. lia.
Qed.

(** Other processes change the memory objects, but not the reverse mappings of this one. *)
Lemma process_inv_other vm vm' v p :
  process_inv vm v p -> (forall id, rmap_of vm' id v = rmap_of vm id v) ->
  (forall id, 0 <= base_of vm' (p_vmar p) id \/ tracked_in id p = 0) -> process_inv vm' v p.
Proof.
  intros ([[Hi Hpl Ha Hh Ht Hr Ho Hs Hrss Hp Hdn] Hd] & Hwf & Hheap) Hrm Hbase. split; [|done]. split; [|done]. constructor; vsimpl; try done.
  - intros id. rewrite Hrm. apply Hr.
  - intros id. unfold base_of. rewrite app_nil_r. lia.
  - intros id m Hb Hm. rewrite app_nil_r in Hm. apply (tracked_in_zero id p); [|done]. destruct (Hbase id); lia.
Qed.

Lemma space_wf_vmos s vm : space_wf s -> space_wf (with_vmos s vm).
Proof. intros [? ?]. by constructor. Qed.

Lemma do_call_returns w v p c :
  world_inv w -> w_procs w !! v = Some p -> call_ok w c ->
  exists res p', do_call v c (mkProcess (p_heap p) (space_in w p)) = Ret (res, p') /\
    resting v (base_of (w_vmos w) (p_vmar p)) (rmap_of (w_vmos w)) (p_vmar p') /\ space_wf (p_vmar p') /\ heap_ok (p_heap p') /\
    call_effect (w_held w) c (space_in w p) (p_vmar p').
Proof.
  intros Hw Hv Hok. destruct (wi_procs _ Hw v p Hv) as (Hrest & Hwf & Hheap).
  apply (do_call_spec w v _ _ c (mkProcess (p_heap p) (space_in w p))); try done. by apply space_wf_vmos.
Qed.

Lemma counts_call w v p p' :
  counts_ok (w_procs w) (w_vmos w) -> w_procs w !! v = Some p ->
  vmar_inv v (base_of (w_vmos w) (p_vmar p)) (rmap_of (w_vmos w)) 0 [] (p_vmar p') ->
  counts_ok (<[v := p']> (w_procs w)) (vmos (p_vmar p')).
Proof.
  intros Hc Hv Hinv id. rewrite (tracked_by_update _ v p) by done. pose proof (vi_status _ _ _ _ _ _ Hinv id) as Hs.
  rewrite app_nil_r in Hs. fold (tracked_in id p') in Hs. unfold base_of in Hs. fold (tracked_in id p) in Hs.
  pose proof (tracked_in_le _ v p id Hv). pose proof (tracked_in_nonneg id p). destruct (Hc id) as [E|[E1 E2]]; [left; lia|right].
  assert (tracked_in id p' = 0) as E3; [|lia]. apply tracked_in_zero. intros m Hm. apply (vi_denied _ _ _ _ _ _ Hinv); [|by rewrite app_nil_r].
  unfold base_of. fold (tracked_in id p). lia.
Qed.

Lemma world_inv_call w v p c res p' :
  world_inv w -> w_procs w !! v = Some p -> call_ok w c -> do_call v c (mkProcess (p_heap p) (space_in w p)) = Ret (res, p') ->
  world_inv (mkWorld (<[v := p']> (w_procs w)) (vmos (p_vmar p')) (w_held w)).
Proof.
  intros Hw Hv Hok Hc. destruct (do_call_returns w v p c Hw Hv Hok) as (res' & p'' & Hc' & R & W & H & E).
  rewrite Hc in Hc'. injection Hc' as <- <-. pose proof R as [Hinv _].
  pose proof (counts_call w v p p' (wi_status _ Hw) Hv Hinv) as Hcounts. constructor; cbn [w_procs w_vmos w_held]; [| |done|].
  - intros u x Hx. pose proof (fun id => counts_base _ _ u x id Hcounts Hx) as Hbase. apply lookup_insert_Some in Hx as [[<- <-]|[Hne Hx]]; [split; [by eapply resting_self|done]|].
    apply (process_inv_other (w_vmos w)); [by apply Hw| |done]. intros id. by apply (vi_others _ _ _ _ _ _ Hinv).
  - intros u [Hu Hne]%lookup_insert_None id. rewrite (vi_others _ _ _ _ _ _ Hinv) by done. by apply Hw.
  - destruct (wi_procs _ Hw v p Hv) as ([Hinv0 _] & _). destruct c; try (apply (isolated_carried w v p p'); [apply Hw|exact Hv|exact E]; fail).
    destruct E as [E|(m & Hm & _ & _ & S)].
    + apply (isolated_carried w v p p'); [apply Hw|done|]. rewrite E. apply (carried_refl (w_held w) (p_vmar p)).
    + destruct Hok as (He & _). apply (isolated_fault w v p p' _ env info answers m); try done; [apply Hw|exact (vi_intervals _ _ _ _ _ _ Hinv0)].
Qed.

Lemma cow_page_ok a p : page_ok a p -> page_ok a (cow_page p).
Proof.
  intros [H1 H2 _]. pose proof (cow_page_readonly p) as Hr. constructor; [| |by rewrite Hr];
    rewrite <- ?H1, <- ?H2; unfold readable, executable, cow_page, PageFlags_W; cbn [pte_flags];
    rewrite bf_difference_spec, Z.pow2_bits_eqb by done; by rewrite andb_true_r.
Qed.

Lemma forked_wf s s' new : space_wf s -> forked s s' new -> space_wf s' /\ space_wf new.
Proof.
  intros [Ha Hp] [(Em & _) Hv _ Hpg Hnew _]. split; constructor.
  - by rewrite Em.
  - intros k a q. rewrite Em, Hpg. intros Hva. destruct (vm_space s !! k) eqn:E; [|done]. intros [= <-]. apply cow_page_ok. by apply (Hp k).
  - intros k a. rewrite Hv. apply Ha.
  - intros k a q. rewrite Hv, Hnew, Hpg. intros Hva. destruct (vm_space s !! k) eqn:E; [|done]. intros [= <-]. apply cow_page_ok. by apply (Hp k).
Qed.

Lemma world_inv_fork w v p child s' new :
  world_inv w -> w_procs w !! v = Some p -> w_procs w !! child = None -> fork_from child (space_in w p) = Ret (s', new) ->
  world_inv (mkWorld (<[child := mkProcess (p_heap p) new]> (<[v := mkProcess (p_heap p) s']> (w_procs w))) (vmos new) (w_held w)).
Proof.
  intros Hw Hv Hc Hf. assert (child <> v) as Hne by congruence. destruct (wi_procs _ Hw v p Hv) as (Hrest & Hwf & Hheap).
  destruct (fork_from_spec v child _ _ _ Hrest (wi_fresh _ Hw child Hc) Hne) as (s1 & n1 & Hf' & F & R1 & R2 & St & Rm).
  unfold space_in in *. rewrite Hf in Hf'. injection Hf' as <- <-. pose proof F as [(Em & _) Hview _ _ _ Evm]. cbn [space_in with_vmos vm_mappings vmos] in *.
  destruct (forked_wf _ _ _ (space_wf_vmos _ (w_vmos w) Hwf) F) as [W1 W2].
  assert (counts_ok (<[child := mkProcess (p_heap p) new]> (<[v := mkProcess (p_heap p) s']> (w_procs w))) (vmos new)) as Hcounts.
  { intros id. rewrite tracked_by_insert by (rewrite lookup_insert_ne by congruence; done). rewrite (tracked_by_update _ v p) by done.
    pose proof (vi_status _ _ _ _ _ _ (proj1 R2) id) as Hs. rewrite app_nil_r, Evm, St in Hs. rewrite Evm, St. unfold tracked_in at 1 3 4 6. cbn [p_vmar]. rewrite Em.
    pose proof (tracked_in_le _ v p id Hv). pose proof (tracked_in_nonneg id p). fold (tracked_in id p) in *. destruct (wi_status _ Hw id) as [E|[E1 E2]]; [left|right]; lia. }
  constructor; cbn [w_procs w_vmos w_held]; [| |done|].
  - intros u x Hx. pose proof (fun id => counts_base _ _ u x id Hcounts Hx) as Hbase.
    apply lookup_insert_Some in Hx as [[<- <-]|[Hne1 [[<- <-]|[Hne2 Hx]]%lookup_insert_Some]].
    + split; [by eapply resting_self|done].
    + split; [|done]. rewrite Evm. by eapply resting_self.
    + apply (process_inv_other (w_vmos w)); [by apply Hw| |done]. intros id. rewrite Evm. apply Rm. congruence.
  - intros u [[Hu Hne1]%lookup_insert_None Hne2]%lookup_insert_None id. rewrite Evm, Rm by congruence. by apply Hw.
  - apply (isolated_fork w v p child (space_in w p) s' new (p_heap p)); try done. apply Hw.
Qed.

Lemma world_inv_exit w v p s' :
  world_inv w -> w_procs w !! v = Some p -> clear v (space_in w p) = Ret s' -> world_inv (mkWorld (delete v (w_procs w)) (vmos s') (w_held w)).
Proof.
  intros Hw Hv Hc. destruct (wi_procs _ Hw v p Hv) as (Hrest & _ & _).
  destruct (clear_spec _ _ _ _ Hrest) as (s1 & Hc' & _ & _ & R1 & R2 & St & _). unfold space_in in *. rewrite Hc in Hc'. injection Hc' as <-.
  assert (counts_ok (delete v (w_procs w)) (vmos s')) as Hcounts.
  { intros id. rewrite St. unfold base_of. fold (tracked_in id p). pose proof (tracked_by_delete _ v p id Hv) as E.
    pose proof (tracked_in_nonneg id p). pose proof (proj1 (tracked_by_zero (delete v (w_procs w)) id)). destruct (wi_status _ Hw id) as [?|[? ?]]; [left|right]; lia. }
  constructor; cbn [w_procs w_vmos w_held]; [| |done|].
  - intros u x Hx. pose proof (fun id => counts_base _ _ u x id Hcounts Hx) as Hbase. apply lookup_delete_Some in Hx as [Hne Hx].
    apply (process_inv_other (w_vmos w)); [by apply Hw| |done]. intros id. by apply R2.
  - intros u Hu id. destruct (decide (u = v)) as [->|Hne]; [apply R1|]. rewrite R2 by done. rewrite lookup_delete_ne in Hu by done. by apply Hw.
  - intros u x k q Hx Hq Hpp. cbn in Hx. apply lookup_delete_Some in Hx as [Hne Hx]. destruct (wi_isolated _ Hw u x k q Hx Hq Hpp) as [Hnh Huse]. split; [done|].
    intros u' k' (y & qy & Hy & Hqy & Hf). cbn in Hy. apply lookup_delete_Some in Hy as [_ Hy]. apply Huse. exists y, qy. auto.
Qed.

(** Sealing an object needs its counter to be zero, and changes nothing else. *)
Lemma add_seals_spec seals new_seals executable id w seals' w' :
  add_seals seals new_seals executable id w = Ok (seals', w') ->
  w' = w \/ (status w id <= 0 /\ status w' id = -1 /\ (forall id', id' <> id -> status w' id' = status w id') /\
    (forall id' v, rmap_of w' id' v = rmap_of w id' v)).
Proof.
  unfold add_seals. destruct (bf_contains seals F_SEAL_SEAL); [done|]. destruct (bf_contains (if bf_contains new_seals F_SEAL_EXEC && executable then _ else _) F_SEAL_WRITE); cbn; [|intros [= _ <-]; by left].
  unfold WritableMappingStatus_deny. fold (status w id). destruct (Z.leb_spec (status w id) 0); cbn; [|done]. intros [= _ <-]. right.
  unfold status, rmap_of. split; [done|]. rewrite lookup_total_insert_eq. split; [done|]. split.
  - intros id' Hne. by rewrite lookup_total_insert_ne.
  - intros id' v. destruct (decide (id' = id)) as [->|Hne]; [by rewrite lookup_total_insert_eq|by rewrite lookup_total_insert_ne].
Qed.

Lemma world_inv_seal w seals new_seals executable id seals' vm :
  world_inv w -> add_seals seals new_seals executable id (w_vmos w) = Ok (seals', vm) -> world_inv (mkWorld (w_procs w) vm (w_held w)).
Proof.
  intros Hw [->|(Hle & Hid & Hother & Hrm)]%add_seals_spec; [by destruct w|].
  assert (counts_ok (w_procs w) vm) as Hcounts.
  { intros id'. destruct (decide (id' = id)) as [->|Hne]; [|rewrite Hother by done; apply Hw]. right. split; [done|].
    pose proof (proj1 (tracked_by_zero (w_procs w) id)). destruct (wi_status _ Hw id) as [E|[_ E]]; lia. }
  constructor; cbn [w_procs w_vmos w_held]; [| |done|apply (wi_isolated _ Hw)].
  - intros u x Hx. apply (process_inv_other (w_vmos w)); [by apply Hw|done|]. intros id'. by apply (counts_base (w_procs w) vm u).
  - intros u Hu id'. rewrite Hrm. by apply Hw.
Qed.

Lemma world_inv_step w w' : world_inv w -> world_step w w' -> world_inv w'.
Proof.
  intros Hw Hs. destruct Hs as [w v p c res p' Hv Hok Hc|w v p child s' new Hv Hc Hf|w v p s' Hv Hc|w seals new_seals executable id seals' vm Hs|w held' Hh].
  - by apply (world_inv_call w v p c res).
  - by apply (world_inv_fork w v p child s').
  - by apply (world_inv_exit w v p).
  - by eapply world_inv_seal.
  - destruct Hw as [H1 H2 H3 H4]. constructor; try done. intros u x k q Hx Hq Hpp. destruct (H4 u x k q Hx Hq Hpp) as [Hnh Huse]. split; [|done].
    intros Hin. apply (Hh _ Hin Hnh u k). by eapply used_intro.
Qed.

(** The world of one process with an empty address space. *)
Definition init_world (v : nat) (h : HeapInner) : World := mkWorld {[v := mkProcess h (Vmar_new ∅)]} ∅ ∅.

Lemma init_world_inv v h : heap_ok h -> world_inv (init_world v h).
Proof.
  intros Hh. assert (forall id u, rmap_of ∅ id u = []) as Hr by (intros; unfold rmap_of; by rewrite lookup_total_empty).
  constructor; cbn [init_world w_procs w_vmos w_held].
  - intros u p [<- <-]%lookup_singleton_Some. split; [|split; [apply space_wf_empty|done]].
    apply (resting_self v (status ∅) (rmap_of ∅) (Vmar_new ∅)). split; [|done]. by apply new_inv.
  - done.
  - intros id. left. unfold tracked_by. rewrite map_fold_singleton. unfold tracked_in, status. by rewrite lookup_total_empty.
  - intros u p k q Hp. cbn in Hp. apply lookup_singleton_Some in Hp as [<- <-]. cbn. by rewrite lookup_empty.
Qed.

Lemma world_inv_reachable w0 w : world_inv w0 -> world_reachable w0 w -> world_inv w.
Proof. intros H0 Hr. induction Hr; [done|by eapply world_inv_step]. Qed.

(** ** Theorems *)
(** A mapping of some process that is counted on the object. *)
Definition counted_mapping (w : World) (id : nat) : Prop :=
  exists u p m, w_procs w !! u = Some p /\ m ∈ vm_mappings (p_vmar p) /\ tracked m = Some id.

Lemma not_counted_mapping w id :
  ~ counted_mapping w id <-> forall u p m, w_procs w !! u = Some p -> m ∈ vm_mappings (p_vmar p) -> tracked m <> Some id.
Proof. unfold counted_mapping. split; [intros H u p m Hp Hm Ht; apply H; eauto 10|intros H (u & p & m & Hp & Hm & Ht); by eapply H]. Qed.

Section reachable.
Context (v : nat) (h : HeapInner) (w : World).
Context (Hheap : heap_ok h) (Hreach : world_reachable (init_world v h) w).

Lemma reachable_inv : world_inv w.
Proof. apply (world_inv_reachable (init_world v h)); [by apply init_world_inv|done]. Qed.

(** C5: In every world that can be reached, whatever the processes did before, every memory system call with
    any arguments, every page fault of a program, every [fork] and every exit returns: no assertion, no
    [unwrap] and no arithmetic fails, and no loop runs for ever. *)
Theorem memory_operations_return u p c child :
  w_procs w !! u = Some p -> call_ok w c -> w_procs w !! child = None ->
  (exists res p', do_call u c (mkProcess (p_heap p) (space_in w p)) = Ret (res, p')) /\
  (exists s' new, fork_from child (space_in w p) = Ret (s', new)) /\
  (exists s', clear u (space_in w p) = Ret s').
Proof.
  intros Hp Hc Hch. pose proof reachable_inv as Hw. destruct (wi_procs _ Hw u p Hp) as (Hrest & _ & _). split_and!.
  - destruct (do_call_returns w u p c Hw Hp Hc) as (res & p' & E & _). eauto.
  - destruct (fork_from_spec u child _ _ _ Hrest (wi_fresh _ Hw child Hch)) as (s' & new & E & _); [congruence|eauto].
  - destruct (clear_spec _ _ _ _ Hrest) as (s' & E & _). eauto.
Qed.

(** C1: In every world that can be reached, a page that a process can write through a private mapping is on a
    frame that no memory object holds and that no other page table entry, of this or of another process,
    uses. *)
Theorem private_pages_isolated u p k q a :
  w_procs w !! u = Some p -> vm_space (p_vmar p) !! k = Some q -> view (vm_mappings (p_vmar p)) k = Some a ->
  a_mode a = Private -> writable (pte_flags q) = true ->
  pte_frame q ∉ w_held w /\ forall u' k', used w u' k' (pte_frame q) -> u' = u /\ k' = k.
Proof.
  intros Hp Hq Hv Hm Hw. apply (wi_isolated _ reachable_inv u p k q Hp Hq). exists q, a. auto.
Qed.

(** C8: In every world that can be reached, the mappings of each process are disjoint, aligned and in user
    space; the total size and the resident-set counters are exact; the reverse mappings of each memory
    object are exactly the shared mappings of it; and each page of the page table lies in a mapping. *)
Theorem address_spaces_consistent u p :
  w_procs w !! u = Some p ->
  intervals (vm_mappings (space_in w p)) /\ Forall placed (vm_mappings (space_in w p)) /\
  total_vm (space_in w p) = tally map_size (vm_mappings (space_in w p)) /\
  (forall ty, counter (rss_counters (space_in w p)) ty = tally (resident (vm_space (space_in w p)) ty) (vm_mappings (space_in w p))) /\
  (forall id, rmap_of (vmos (space_in w p)) id u ≡ₚ omap (rmap_entry id) (vm_mappings (space_in w p))) /\
  (forall k q, vm_space (space_in w p) !! k = Some q -> page_aligned k /\ view (vm_mappings (space_in w p)) k <> None).
Proof.
  intros Hp. destruct (wi_procs _ reachable_inv u p Hp) as ([[Hi Hpl _ _ Ht Hr _ _ Hrss Hpg Hdn] Hd] & _ & _).
  unfold space_in. cbn [with_vmos vm_mappings total_vm vm_space rss_counters rss_delta vmos] in *. split_and!; try done.
  - apply Forall_forall. intros m Hm. apply Hpl. by rewrite app_nil_r.
  - lia.
  - intros ty. specialize (Hrss ty). rewrite app_nil_r, Hd in Hrss. destruct ty; cbn in Hrss |- *; lia.
  - intros k q Hq. destruct (Hpg k q Hq) as (Hk & m & Hm & Hc). split; [done|]. rewrite app_nil_r in Hm. by rewrite (view_Some _ k m Hi Hm Hc).
Qed.

(** C9: In every world that can be reached, the sealing of a memory object against writing succeeds exactly
    when no process has a counted mapping of it; and once an object is sealed, no process ever has one. *)
Theorem sealing_sees_every_mapping id :
  (is_ok (WritableMappingStatus_deny (w_vmos w) id) = true <-> ~ counted_mapping w id) /\
  (status (w_vmos w) id < 0 -> ~ counted_mapping w id).
Proof.
  destruct (tracked_by_zero (w_procs w) id) as [Hnn Hz]. rewrite not_counted_mapping, <- Hz. unfold WritableMappingStatus_deny. fold (status (w_vmos w) id).
  destruct (wi_status _ reachable_inv id) as [E|[E1 E2]]; destruct (Z.leb_spec (status (w_vmos w) id) 0); cbn; split; try split; done || lia.
Qed.


Lemma reachable_process u p :
  w_procs w !! u = Some p -> resting u (base_of (w_vmos w) (p_vmar p)) (rmap_of (w_vmos w)) (space_in w p) /\ space_wf (space_in w p) /\ heap_ok (p_heap p).
Proof. intros Hp. destruct (wi_procs _ reachable_inv u p Hp) as (? & ? & ?). split; [done|]. split; [by apply space_wf_vmos|done]. Qed.

(** C13: [munmap] of any process in any reachable world, with any arguments, removes exactly the mappings and the
    pages of the pages that meet the range, or fails with EINVAL and changes nothing. *)
Theorem munmap_correct u p addr len :
  w_procs w !! u = Some p -> is_u64 addr -> is_u64 len ->
  exists res s', sys_munmap u addr len (space_in w p) = Ret (res, s') /\
    match res with
    | Ok _ => exists r, page_span addr len r /\ truncated r (p_vmar p) s'
    | Err e => e = EINVAL /\ s' = space_in w p /\ (len = 0 \/ bad_range addr len)
    end.
Proof.
  intros Hp Ha Hl. destruct (reachable_process u p Hp) as (Hrest & Hwf & _).
  destruct (sys_munmap_spec u _ _ addr len _ Hrest Hwf Ha Hl) as (res & s' & E & _ & _ & O). exists res, s'. split; [done|].
  destruct res; [destruct O as (_ & r & ? & T); exists r; by split|done].
Qed.

(** C23: [mprotect] with valid permissions sets them on the whole range, and on nothing else, when it succeeds;
    when it fails it has changed nothing, or a part at the beginning of the range. *)
Theorem mprotect_correct u p addr len prot q :
  w_procs w !! u = Some p -> is_u64 addr -> is_u64 len -> len <> 0 -> VmPerms_from_user_bits (prot mod 2 ^ 32) = Ok q ->
  exists res s', sys_mprotect u addr len prot (space_in w p) = Ret (res, s') /\
    (res = Ok 0 -> exists r, page_span addr len r /\ protected_upto (with_implied_read q) r (space_in w p) s' (r_end r)) /\
    (forall e, res = Err e -> s' = space_in w p \/
       exists r stop, page_span addr len r /\ stop < r_end r /\ protected_upto (with_implied_read q) r (space_in w p) s' stop).
Proof.
  intros Hp Ha Hl Hne Hq. destruct (reachable_process u p Hp) as (Hrest & Hwf & _).
  destruct (sys_mprotect_spec u _ _ addr len prot _ Hrest Hwf Ha Hl) as (res & s' & E & _ & _ & O & Hok). exists res, s'. split; [done|].
  split.
  - intros Hr. destruct (Hok Hr) as (_ & [?|(q' & r & Hq' & Hs & U)]); [done|]. rewrite Hq in Hq'. injection Hq' as <-. eauto.
  - intros e ->. destruct O as [->|(q' & r & stop & Hq' & Hs & U & O)]; [by left|right].
    rewrite Hq in Hq'. injection Hq' as <-. exists r, stop. split; [done|]. split; [|done]. apply O.
Qed.



(** [brk] returns the end of the heap.  The end has not moved and nothing has changed, or it is the one asked
    for, within the limit of the data segment, and exactly the pages between the two ends have been mapped
    or unmapped. *)
Theorem brk_correct u p rlimit_data new :
  w_procs w !! u = Some p -> is_u64 new -> new <> 0 ->
  exists v h' s', sys_brk u rlimit_as rlimit_data new (p_heap p) (space_in w p) = Ret (v, h', s') /\ v = r_end (heap_range h') /\
    (h' = p_heap p /\ untouched (space_in w p) s' \/
     v = new /\ check_data_rlimit rlimit_data (data_segment_size (p_heap p)) (heap_range h') = true /\
       heap_moved rlimit_as (p_heap p) new (space_in w p) s').
Proof.
  intros Hp Hn Hne. destruct (reachable_process u p Hp) as (Hrest & Hwf & Hh). unfold sys_brk. rewrite (proj2 (Z.eqb_neq _ _)) by done.
  destruct (modify_heap_end_spec u _ _ rlimit_as rlimit_data new _ _ Hrest Hwf Hh Hn) as (e & h' & s' & E & _ & _ & _ & Hv & _ & O).
  exists e, h', s'. auto.
Qed.


(** C24: [fork] gives the child the mappings of the parent, with the same attributes at each address, and its
    pages; the pages have lost their write permission in both, and nothing else has changed. *)
Theorem fork_correct u p child :
  w_procs w !! u = Some p -> w_procs w !! child = None ->
  exists s' new, fork_from child (space_in w p) = Ret (s', new) /\ forked (space_in w p) s' new.
Proof.
  intros Hp Hc. destruct (reachable_process u p Hp) as (Hrest & _ & _).
  destruct (fork_from_spec u child _ _ _ Hrest (wi_fresh _ reachable_inv child Hc)) as (s' & new & E & F & _); [congruence|eauto].
Qed.

(** The search for a free region returns the highest aligned region of the size below the stack that meets
    no mapping, and fails only if there is none. *)
Theorem free_region_correct u p size align :
  w_procs w !! u = Some p -> 0 < size -> is_power_of_two align = true -> 2 <= align ->
  exists res, alloc_free_region size align (space_in w p) = Ret res /\
    region_outcome (vm_mappings (p_vmar p)) size align VMAR_LOWEST_ADDR (VMAR_CAP_ADDR - INIT_STACK_SIZE - PAGE_SIZE * 2048) res.
Proof.
  intros Hp Hs Ha Ha2. destruct (reachable_process u p Hp) as ([Hinv _] & _ & _).
  by apply (alloc_free_region_in_range_spec _ _ _ _ _ _ _ _ _ _ Hinv).
Qed.
End reachable.
End memory.

(** ** A world of two processes

    The first process maps a private page, writes to it and forks. *)
Definition demo_heap : HeapInner := mkHeap 0 (mkRange 0x100000 0x101000).

Definition demo_env : FaultEnv := mkEnv (Ok 7%nat) (fun _ => 2) (fun _ => 0) (fun _ => []).

Definition demo_mmap : MemCall := Mmap 0x10000 0x1000 3 0x22 (Err EBADF) (Err ENOMEM) 0.

Definition demo_fault : MemCall := Fault demo_env (mkFault 0x10010 2 false) [fun _ _ _ => inl (CommitErr EINVAL)].

Definition after_call (v : nat) (c : MemCall) (w : World) : World :=
  match w_procs w !! v with
  | Some p =>
      match do_call (BF := Zflags) None v c (mkProcess (p_heap p) (space_in w p)) with
      | Ret (_, p') => mkWorld (<[v := p']> (w_procs w)) (vmos (p_vmar p')) (w_held w)
      | _ => w
      end
  | None => w
  end.

Definition after_fork (v child : nat) (w : World) : World :=
  match w_procs w !! v with
  | Some p =>
      match fork_from (BF := Zflags) child (space_in w p) with
      | Ret (s', new) => mkWorld (<[child := mkProcess (p_heap p) new]> (<[v := mkProcess (p_heap p) s']> (w_procs w))) (vmos new) (w_held w)
      | _ => w
      end
  | None => w
  end.

Definition mapped_world : World := after_call 1 demo_mmap (init_world 1 demo_heap).
Definition written_world : World := after_call 1 demo_fault mapped_world.
Definition forked_world : World := after_fork 1 2 written_world.

Notation reachable_demo := (world_reachable (BF := Zflags) None (init_world 1 demo_heap)).

Lemma after_call_reachable v c w : reachable_demo w -> call_ok w c -> reachable_demo (after_call v c w).
Proof.
  intros Hr Hc. unfold after_call. destruct (w_procs w !! v) as [p|] eqn:Hp; [|done].
  destruct (do_call _ _ _ _) as [[res p']| |] eqn:E; [|done|done]. eapply reachable_step; [done|]. by eapply step_call.
Qed.

Lemma after_fork_reachable v child w : reachable_demo w -> w_procs w !! child = None -> reachable_demo (after_fork v child w).
Proof.
  intros Hr Hc. unfold after_fork. destruct (w_procs w !! v) as [p|] eqn:Hp; [|done].
  destruct (fork_from _ _) as [[s' new]| |] eqn:E; [|done|done]. eapply reachable_step; [done|]. by eapply step_fork.
Qed.

Lemma no_pages_unused w f :
  map_Forall (fun _ p => vm_space (p_vmar p) = ∅) (w_procs w) -> forall v k, ~ used w v k f.
Proof. intros H v k (p & q & Hp & Hq & _). rewrite (H v p Hp), lookup_empty in Hq. done. Qed.

Lemma mapped_reachable : reachable_demo mapped_world.
Proof. apply after_call_reachable; [constructor|]. cbn. unfold is_u64. split_and!; lia || done. Qed.

Lemma access_write : access 2.
Proof. intros i Hi Ht. destruct (decide (i < 3)); [done|]. rewrite Z.bits_above_log2 in Ht; [done|lia|cbn; lia]. Qed.

Lemma demo_fault_ok : call_ok mapped_world demo_fault.
Proof.
  cbn. split; [|split; [done|]].
  - constructor; cbn; try done.
    + intros f [= <-]. split; [done|]. apply no_pages_unused. apply (bool_decide_unpack _). vm_compute. done.
    + by intros ? ? ? ? ? ? ->%list_elem_of_singleton.
    + intros b f Hf. by apply elem_of_nil in Hf.
    + by constructor.
  - apply access_write.
Qed.

Lemma written_reachable : reachable_demo written_world.
Proof. apply after_call_reachable; [apply mapped_reachable|apply demo_fault_ok]. Qed.

Lemma forked_reachable : reachable_demo forked_world.
Proof. apply after_fork_reachable; [apply written_reachable|by vm_compute]. Qed.

Lemma demo_heap_ok : heap_ok demo_heap.
Proof. unfold heap_ok, page_aligned. split_and!; vm_compute; done. Qed.

Definition demo_proc (w : World) (v : nat) : Process := default (mkProcess demo_heap (Vmar_new ∅)) (w_procs w !! v).

Lemma demo_proc_lookup w v : is_Some (w_procs w !! v) -> w_procs w !! v = Some (demo_proc w v).
Proof. unfold demo_proc. by intros [p ->]. Qed.

Lemma memory_operations_return_witness :
  (exists res p', do_call (BF := Zflags) None 2 (Munmap 0x10000 0x1000) (mkProcess demo_heap (space_in forked_world (demo_proc forked_world 2))) = Ret (res, p')) /\
  (exists s' new, fork_from (BF := Zflags) 3 (space_in forked_world (demo_proc forked_world 2)) = Ret (s', new)) /\
  (exists s', clear 2 (space_in forked_world (demo_proc forked_world 2)) = Ret s').
Proof.
  apply (memory_operations_return (BF := Zflags) None 1 demo_heap forked_world demo_heap_ok forked_reachable 2
    (demo_proc forked_world 2) (Munmap 0x10000 0x1000) 3); [by vm_compute|split; vm_compute; done|by vm_compute].
Defined.

Lemma private_pages_isolated_witness :
  7%nat ∉ w_held written_world /\ forall u' k', used written_world u' k' 7 -> u' = 1%nat /\ k' = 0x10000.
Proof.
  apply (private_pages_isolated (BF := Zflags) None 1 demo_heap written_world demo_heap_ok written_reachable 1
    (demo_proc written_world 1) 0x10000 (mkPte 7 27) (mkAttr 0x3b Private None false OnAnonymous)); by vm_compute.
Defined.

Lemma address_spaces_consistent_witness :
  total_vm (p_vmar (demo_proc forked_world 2)) = tally map_size (vm_mappings (p_vmar (demo_proc forked_world 2))) /\
  counter (rss_counters (p_vmar (demo_proc forked_world 2))) RssAnon =
    tally (resident (vm_space (p_vmar (demo_proc forked_world 2))) RssAnon) (vm_mappings (p_vmar (demo_proc forked_world 2))).
Proof.
  destruct (address_spaces_consistent (BF := Zflags) None 1 demo_heap forked_world demo_heap_ok forked_reachable 2 (demo_proc forked_world 2))
    as (_ & _ & H1 & H2 & _); [by vm_compute|]. split; [exact H1|exact (H2 RssAnon)].
Defined.

Lemma sealing_sees_every_mapping_witness : is_ok (WritableMappingStatus_deny (w_vmos forked_world) 5) = true.
Proof.
  apply (sealing_sees_every_mapping (BF := Zflags) None 1 demo_heap forked_world demo_heap_ok forked_reachable 5).
  apply not_counted_mapping. intros u p m Hp Hm. assert (map_Forall (fun _ p => Forall (fun m => tracked m <> Some 5%nat) (vm_mappings (p_vmar p))) (w_procs forked_world)) as H
    by (apply (bool_decide_unpack _); vm_compute; done).
  specialize (H u p Hp). rewrite Forall_forall in H. by apply H.
Defined.


Lemma munmap_correct_witness :
  exists res s', sys_munmap 2 0x10000 0x1000 (space_in forked_world (demo_proc forked_world 2)) = Ret (res, s') /\
    view (vm_mappings s') 0x10000 = None.
Proof.
  destruct (munmap_correct (BF := Zflags) None 1 demo_heap forked_world demo_heap_ok forked_reachable 2 (demo_proc forked_world 2) 0x10000 0x1000)
    as (res & s' & E & O); [by vm_compute|split; vm_compute; done..|]. exists res, s'. split; [done|].
  destruct res as [v|e]; [|exfalso; destruct O as (_ & _ & [H|[H|H]]); [done|by apply H|by vm_compute in H]].
  destruct O as (r & (H1 & _ & _ & H2 & _) & [V _]). rewrite V. rewrite decide_True; [done|]. unfold inside. rewrite H1. lia.
Defined.

Lemma mprotect_correct_witness :
  exists res s', sys_mprotect (BF := Zflags) 2 0x10000 0x1000 1 (space_in forked_world (demo_proc forked_world 2)) = Ret (res, s') /\ res = Ok 0 /\
    a_perms <$> view (vm_mappings s') 0x10000 = Some 0x39.
Proof.
  destruct (mprotect_correct (BF := Zflags) None 1 demo_heap forked_world demo_heap_ok forked_reachable 2 (demo_proc forked_world 2) 0x10000 0x1000 1 1)
    as (res & s' & E & O & _); [by vm_compute|split; vm_compute; done..|done|by vm_compute|]. exists res, s'. split; [done|].
  assert (res = Ok 0) as Hres by (vm_compute in E; congruence). split; [done|].
  destruct (O Hres) as (r & (H1 & _ & _ & H2 & _) & [V _ _ _]). rewrite V, decide_True by lia. by vm_compute.
Defined.



Lemma brk_correct_witness :
  exists v h' s', sys_brk (BF := Zflags) 2 None 0x10000000 0x103000 (p_heap (demo_proc forked_world 2)) (space_in forked_world (demo_proc forked_world 2)) = Ret (v, h', s') /\
    v = r_end (heap_range h').
Proof.
  destruct (brk_correct (BF := Zflags) None 1 demo_heap forked_world demo_heap_ok forked_reachable 2 (demo_proc forked_world 2) 0x10000000 0x103000)
    as (v & h' & s' & E & Hv & _); [by vm_compute|split; vm_compute; done|done|]. exists v, h', s'. split; assumption.
Defined.

Lemma fork_correct_witness :
  exists s' new, fork_from (BF := Zflags) 3 (space_in written_world (demo_proc written_world 1)) = Ret (s', new) /\
    vm_space new !! 0x10000 = Some (mkPte 7 25).
Proof.
  destruct (fork_correct (BF := Zflags) None 1 demo_heap written_world demo_heap_ok written_reachable 1 (demo_proc written_world 1) 3)
    as (s' & new & E & F); [by vm_compute..|]. exists s', new. split; [done|]. rewrite (fo_new _ _ _ F), (fo_pages _ _ _ F). by vm_compute.
Defined.

Lemma free_region_correct_witness :
  exists r, alloc_free_region 0x1000 0x1000 (space_in forked_world (demo_proc forked_world 2)) = Ret (Ok r) /\
    region_free (vm_mappings (p_vmar (demo_proc forked_world 2))) (r_start r) 0x1000.
Proof.
  destruct (free_region_correct (BF := Zflags) None 1 demo_heap forked_world demo_heap_ok forked_reachable 2 (demo_proc forked_world 2) 0x1000 0x1000)
    as (res & E & O); [by vm_compute|lia|done|lia|]. destruct res as [r|e]; [|by vm_compute in E]. exists r. split; [done|].
  by destruct O as (_ & (_ & _ & _ & H) & _).
Defined.


(** ** A page without permissions, and a page that was made read-only *)
Definition none_world : World := after_call 1 (Mmap 0x10000 0x1000 0 0x22 (Err EBADF) (Err ENOMEM) 0) (init_world 1 demo_heap).

Definition readonly_world : World := after_call 1 (Mprotect 0x10000 0x1000 1) written_world.

Lemma none_reachable : reachable_demo none_world.
Proof. apply after_call_reachable; [constructor|]. split; [split; vm_compute; done|]. split; [split; vm_compute; done|]. done. Qed.

Lemma readonly_reachable : reachable_demo readonly_world.
Proof. apply after_call_reachable; [apply written_reachable|]. split; split; vm_compute; done. Qed.

Definition none_mapping : VmMapping := mkMapping 0x1000 0x10000 Anonymous None Private false 0x38.
Definition readonly_mapping : VmMapping := mkMapping 0x1000 0x10000 Anonymous None Private false 0x39.

Lemma forced_read_panics_witness :
  query_page_with_required_flags (BF := Zflags) demo_env [[]; []] 0x10000 PageFlags_R (space_in none_world (demo_proc none_world 1)) = Panic.
Proof.
  destruct (reachable_process (BF := Zflags) None 1 demo_heap none_world demo_heap_ok none_reachable 1 (demo_proc none_world 1)) as (Hrest & _); [by vm_compute|].
  apply (forced_read_panics (BF := Zflags) demo_env 1 _ _ _ none_mapping 0x10000 7 [] [] [] Hrest); try (vm_compute; done).
  vm_compute. by left.
Defined.

Lemma forced_write_makes_writable_witness :
  exists s' q', query_page_with_required_flags (BF := Zflags) demo_env [[]] 0x10000 PageFlags_W (space_in readonly_world (demo_proc readonly_world 1)) =
    Ret (Ok (pte_frame q'), s') /\
    vm_mappings s' = vm_mappings (p_vmar (demo_proc readonly_world 1)) /\ vm_space s' !! 0x10000 = Some q' /\ writable (pte_flags q') = true.
Proof.
  destruct (reachable_process (BF := Zflags) None 1 demo_heap readonly_world demo_heap_ok readonly_reachable 1 (demo_proc readonly_world 1)) as (Hrest & _); [by vm_compute|].
  apply (forced_write_makes_writable (BF := Zflags) demo_env 1 _ _ _ readonly_mapping 0x10000 (mkPte 7 1) 7 [] Hrest); try (vm_compute; done).
  vm_compute. by left.
Defined.

(** A mapping of a graphics buffer whose page has been written. *)
Definition gem_file : MmapFile := mkMmapFile 3 false true true false (fun _ => Ok (MappableDevice [] (Ok (DrmGemShmemMappedObject 4 0)))) None.

Definition gem_env : FaultEnv := mkEnv (Ok 7%nat) (fun _ => 2) (fun _ => 0) (fun _ => [9%nat]).

Definition gem_start : World := mkWorld (w_procs (init_world 1 demo_heap)) ∅ {[9%nat]}.

Definition gem_world : World :=
  after_call 1 (Fault gem_env (mkFault 0x10000 2 false) [fun _ _ _ => inl (CommitErr EINVAL)])
    (after_call 1 (Mmap 0x10000 0x1000 3 1 (Ok gem_file) (Err ENOMEM) 0) gem_start).

Definition gem_mapping : VmMapping := mkMapping 0x1000 0x10000 (Device (DrmGemShmemMappedObject 4 0)) (Some 3%nat) Shared true 0x3b.

Lemma gem_start_reachable : reachable_demo gem_start.
Proof.
  eapply reachable_step; [constructor|]. apply (step_objects _ (init_world 1 demo_heap) {[9%nat]}).
  intros f _ _ v k (p & q & Hp & Hq & _). cbn in Hp. apply lookup_singleton_Some in Hp as [_ <-]. cbn in Hq. by rewrite lookup_empty in Hq.
Qed.

Lemma gem_reachable : reachable_demo gem_world.
Proof.
  apply after_call_reachable; [apply after_call_reachable; [apply gem_start_reachable|]|].
  - split; [split; vm_compute; done|]. split; [split; vm_compute; done|]. split.
    + intros f sh inst res [= <-] [= <- _]. by constructor.
    + intros f sh inst res [= <-] [= <- _]. by constructor.
  - split; [|split; [done|]].
    + constructor; cbn; try done.
      * intros f [= <-]. split; [by vm_compute|]. apply no_pages_unused. apply (bool_decide_unpack _). vm_compute. done.
      * by intros ? ? ? ? ? ? ->%list_elem_of_singleton.
      * intros b f ->%list_elem_of_singleton. by vm_compute.
      * by constructor.
    + apply access_write.
Qed.

Lemma gem_write_fault_stalls_after_fork_witness :
  exists s' new q, fork_from (BF := Zflags) 2 (space_in gem_world (demo_proc gem_world 1)) = Ret (s', new) /\ vm_space s' !! 0x10000 = Some q /\
    writable (pte_flags q) = false /\ handle_page_fault (BF := Zflags) gem_env (mkFault 0x10000 VmPerms_WRITE false) [] s' = Ret (Ok tt, s').
Proof.
  destruct (reachable_process (BF := Zflags) None 1 demo_heap gem_world demo_heap_ok gem_reachable 1 (demo_proc gem_world 1)) as (Hrest & _); [by vm_compute|].
  pose proof (wi_fresh (BF := Zflags) _ (reachable_inv (BF := Zflags) None 1 demo_heap gem_world demo_heap_ok gem_reachable) 2 ltac:(by vm_compute)) as Hfresh.
  apply (gem_write_fault_stalls_after_fork (BF := Zflags) gem_env 1 2 _ _ _ gem_mapping 4 0 0x10000 9 [] Hrest Hfresh); try (vm_compute; done).
  vm_compute. by left.
Defined.

(** ** Limits that are not checked *)

(** With [MREMAP_DONTUNMAP] the sizes are equal, and nothing looks at the limit. *)
Lemma dontunmap_limit `{BF : Bitflags} me limit a old new flags na s :
  bf_contains flags MREMAP_DONTUNMAP = true ->
  do_sys_mremap me limit a old new flags na s = do_sys_mremap me None a old new flags na s.
Proof.
  intros Hd. unfold do_sys_mremap. rewrite Hd. destruct (negb (is_multiple_of a PAGE_SIZE)); [done|]. destruct (new =? 0); [done|].
  destruct (old =? 0); [done|]. destruct (_ || _); [done|]. destruct (true && negb (bf_contains flags MREMAP_MAYMOVE)) eqn:Em; [done|].
  destruct (Z.eqb_spec new old) as [->|]; cbn [negb andb]; [|done]. destruct (align_up old PAGE_SIZE) as [n| |]; [|done..]. cbn [mbind run_bind].
  rewrite bool_decide_false, andb_false_r by done. destruct (bf_contains flags MREMAP_MAYMOVE); [|done].
  unfold remap, remap_locked, remap_check_old. by rewrite Z.ltb_irrefl.
Qed.

(** C38: [mremap] with [MREMAP_DONTUNMAP] never looks at the limit of the address space: with a limit of one
    page and one page mapped it maps a second one. *)
Theorem dontunmap_exceeds_rlimit :
  (forall (BF : Bitflags) me limit a old new flags na s, bf_contains flags MREMAP_DONTUNMAP = true ->
     do_sys_mremap me limit a old new flags na s = do_sys_mremap me None a old new flags na s) /\
  total_vm (space_in written_world (demo_proc written_world 1)) = 0x1000 /\
  exists r s', sys_mremap (BF := Zflags) 1 (Some 0x1000) 0x10000 0x1000 0x1000 5 0 (space_in written_world (demo_proc written_world 1)) = Ret (Ok r, s') /\
    total_vm s' = 0x2000.
Proof.
  split; [intros; by apply dontunmap_limit|]. split; [by vm_compute|]. eexists _, _. split; [vm_compute; reflexivity|done].
Qed.
