(* ===== verification/XArray.v ===== *)
(** * The sparse array of the page cache

    [kernel/libs/xarray]: [node.rs] (heights, nodes and their marks), [mark.rs], [cursor.rs] (cursors
    that read, cursors that write), [range.rs] and [lib.rs].

    An array is a radix tree of nodes with 64 slots each; nodes point to their parents, and each node
    keeps, for every mark and for the presence of items, a bitmap of the slots under which there is a
    marked item.  The nodes are a store from identities to records, since children and parents refer
    to each other and cursors hold references to nodes.  A node that leaves the tree stays in the
    store, as it does under RCU while somebody may read it; readers that run beside a writer are not
    modelled.

    Heights are between 1 and 11, so that [height_shift] is at most 60 and its arithmetic on [u8]
    cannot overflow; [max_index] does overflow, at height 11.  Overflow panics. *)

From S2P Require Import Prelude.

Definition BITS_PER_LAYER : Z := 6.
Definition SLOT_SIZE : Z := Z.shiftl 1 BITS_PER_LAYER.
Definition SLOT_MASK : Z := SLOT_SIZE - 1.

Definition NUM_MARKS : nat := 4.
Definition PRESENT_MARK : nat := 3.

Inductive XMark := Mark0 | Mark1 | Mark2.

Definition XMark_index (m : XMark) : nat :=
  match m with Mark0 => 0 | Mark1 => 1 | Mark2 => 2 end%nat.

(** ** [Height] *)

Definition height_shift (h : Z) : Z := (h - 1) * BITS_PER_LAYER.

Definition height_offset (h index : Z) : Z := Z.land (Z.shiftr index (height_shift h)) SLOT_MASK.

(** [<<] drops the bits that leave the word; the subtraction is checked. *)
Definition max_index (h : Z) : run Z := checked_sub (wrap64 (Z.shiftl SLOT_SIZE (height_shift h))) 1.

Definition index_step (h : Z) : Z := Z.shiftl 1 (height_shift h).

Definition go_root (h : Z) : Z := h + 1.
Definition go_leaf (h : Z) : Z := h - 1.

(** As many iterations as there are heights for which [height_shift] is less than 64. *)
Definition HEIGHTS : nat := 11.

Definition from_index (index : Z) : run Z :=
  loop HEIGHTS
    (fun h =>
       m ← max_index h;
       Ret (if m <? index then Continue (h + 1) else Break h))
    1.

(** ** [Mark]: a bitmap of slots *)

Definition mark_update (old_val offset : Z) (set : bool) : bool * Z :=
  let new_val := if set then Z.lor old_val (Z.shiftl 1 offset) else Z.ldiff old_val (Z.shiftl 1 offset) in
  (negb (old_val =? new_val), new_val).

Definition mark_is_marked (inner offset : Z) : bool := negb (Z.land inner (Z.shiftl 1 offset) =? 0).

Definition mark_is_clear (inner : Z) : bool := inner =? 0.

Definition mark_next_marked (inner offset : Z) : option Z :=
  let high_marks := Z.shiftr inner offset in
  if high_marks =? 0 then None else Some (offset + Z.of_nat (trailing_zeros high_marks)).

Section xarray.
Context {P : Type}.

(** ** Nodes *)

Inductive XEntry :=
  | Left (node : nat)
  | Right (item : P).

Definition entry_left (e : XEntry) : option nat := match e with Left n => Some n | Right _ => None end.
Definition entry_right (e : XEntry) : option P := match e with Left _ => None | Right x => Some x end.

(** The slots that are not [None], by their offsets. *)
Record XNode := mkXNode {
  parent : option nat;
  height : Z;
  offset_in_parent : Z;
  slots : gmap Z XEntry;
  marks : list Z
}.

Definition XNode_new (h offset : Z) : XNode := mkXNode None h offset ∅ (replicate NUM_MARKS 0).
Definition XNode_new_root (h : Z) : XNode := XNode_new h 0.

Definition with_parent (n : XNode) (p : option nat) : XNode :=
  mkXNode p (height n) (offset_in_parent n) (slots n) (marks n).
Definition with_slot (n : XNode) (offset : Z) (e : option XEntry) : XNode :=
  mkXNode (parent n) (height n) (offset_in_parent n) (partial_alter (fun _ => e) offset (slots n)) (marks n).
Definition with_mark (n : XNode) (mark : nat) (v : Z) : XNode :=
  mkXNode (parent n) (height n) (offset_in_parent n) (slots n) (<[mark := v]> (marks n)).

Definition entry_offset (n : XNode) (index : Z) : Z := height_offset (height n) index.

(** [slots[offset]]. *)
Definition entry_with (n : XNode) (offset : Z) : run (option XEntry) :=
  _ ← assert_run (offset <? SLOT_SIZE); Ret (slots n !! offset).

Definition node_is_marked (n : XNode) (offset : Z) (mark : nat) : bool := mark_is_marked (marks n !!! mark) offset.
Definition is_mark_clear (n : XNode) (mark : nat) : bool := mark_is_clear (marks n !!! mark).
Definition is_leaf (n : XNode) : bool := height n =? 1.
Definition is_empty (n : XNode) : bool := is_mark_clear n PRESENT_MARK.
Definition node_next_marked (n : XNode) (offset : Z) (mark : nat) : option Z := mark_next_marked (marks n !!! mark) offset.

(** ** The array *)

Record XArray := mkXArray {
  xa_head : option nat;
  nodes : gmap nat XNode;
  next_node : nat
}.

Definition XArray_new : XArray := mkXArray None ∅ 0.

Definition with_head (xa : XArray) (h : option nat) : XArray := mkXArray h (nodes xa) (next_node xa).
Definition with_node (xa : XArray) (n : nat) (node : XNode) : XArray :=
  mkXArray (xa_head xa) (<[n := node]> (nodes xa)) (next_node xa).

(** [Arc::new]. *)
Definition alloc_node (xa : XArray) (node : XNode) : nat * XArray :=
  (next_node xa, mkXArray (xa_head xa) (<[next_node xa := node]> (nodes xa)) (S (next_node xa))).

Definition get_node (xa : XArray) (n : nat) : run XNode := unwrap (nodes xa !! n).

Definition set_parent (xa : XArray) (n p : nat) : run XArray :=
  node ← get_node xa n; Ret (with_node xa n (with_parent node (Some p))).

Definition slot_offsets : list Z := seqZ 0 SLOT_SIZE.

Fixpoint clear_parent_at (fuel : nat) (xa : XArray) (n : nat) : run XArray :=
  match fuel with
  | O => NoFuel
  | S fuel =>
      node ← get_node xa n;
      foldl
        (fun acc offset =>
           xa ← acc;
           child ← entry_with node offset;
           match child ≫= entry_left with
           | Some c => clear_parent_at fuel xa c
           | None => Ret xa
           end)
        (Ret (with_node xa n (with_parent node None))) slot_offsets
  end.
Definition clear_parent (xa : XArray) (n : nat) : run XArray := clear_parent_at HEIGHTS xa n.

(** [marks[mark].update(..)] of a node. *)
Definition update_mark_bit (xa : XArray) (n : nat) (mark : nat) (offset : Z) (set : bool) : run (bool * XArray) :=
  node ← get_node xa n;
  let '(changed, v) := mark_update (marks node !!! mark) offset set in
  Ret (changed, with_node xa n (with_mark node mark v)).

Fixpoint propagate_mark_at (fuel : nat) (xa : XArray) (n : nat) (mark : nat) : run XArray :=
  match fuel with
  | O => NoFuel
  | S fuel =>
      node ← get_node xa n;
      match parent node with
      | None => Ret xa
      | Some p =>
          '(changed, xa) ← update_mark_bit xa p mark (offset_in_parent node) (negb (is_mark_clear node mark));
          if (changed : bool) then propagate_mark_at fuel xa p mark else Ret xa
      end
  end.
Definition propagate_mark (xa : XArray) (n : nat) (mark : nat) : run XArray := propagate_mark_at HEIGHTS xa n mark.

Definition set_mark (xa : XArray) (n : nat) (offset : Z) (mark : nat) : run XArray :=
  '(changed, xa) ← update_mark_bit xa n mark offset true;
  if (changed : bool) then propagate_mark xa n mark else Ret xa.

Definition unset_mark (xa : XArray) (n : nat) (offset : Z) (mark : nat) : run XArray :=
  '(changed, xa) ← update_mark_bit xa n mark offset false;
  if (changed : bool) then propagate_mark xa n mark else Ret xa.

Definition update_mark (xa : XArray) (n : nat) (offset : Z) : run XArray :=
  node ← get_node xa n;
  entry ← entry_with node offset;
  match entry ≫= entry_left with
  | None => Ret xa
  | Some c =>
      foldl
        (fun acc i =>
           xa ← acc;
           child ← get_node xa c;
           '(changed, xa) ← update_mark_bit xa n i offset (negb (is_mark_clear child i));
           if (changed : bool) then propagate_mark xa n i else Ret xa)
        (Ret xa) (seq 0 NUM_MARKS)
  end.

Definition set_entry (xa : XArray) (n : nat) (offset : Z) (entry : option XEntry) : run XArray :=
  node ← get_node xa n;
  old_entry ← entry_with node offset;
  xa ← match old_entry ≫= entry_left with Some c => clear_parent xa c | None => Ret xa end;
  '(is_new_node, xa) ← match entry with
                       | Some (Left c) => xa ← set_parent xa c n; Ret (true, xa)
                       | _ => Ret (false, xa)
                       end;
  let is_new_item := match entry with Some (Right _) => true | _ => false end in
  node ← get_node xa n;
  let xa := with_node xa n (with_slot node offset entry) in
  if (is_new_node : bool) then update_mark xa n offset
  else
    foldl
      (fun acc i =>
         xa ← acc;
         if (i =? PRESENT_MARK)%nat && is_new_item then set_mark xa n offset i else unset_mark xa n offset i)
      (Ret xa) (seq 0 NUM_MARKS).

(** ** Cursors *)

Inductive CursorState :=
  | Inactive
  | AtNode (node : nat) (operation_offset : Z).

Record Cursor := mkCursor {
  index : Z;
  state : CursorState
}.

Definition Cursor_new (index : Z) : Cursor := mkCursor index Inactive.

Definition with_state (c : Cursor) (st : CursorState) : Cursor := mkCursor (index c) st.

Definition reset (c : Cursor) : Cursor := with_state c Inactive.
Definition reset_to (index : Z) : Cursor := Cursor_new index.

(** [CursorState::move_to]. *)
Definition move_to (xa : XArray) (n : nat) (index : Z) : run CursorState :=
  node ← get_node xa n; Ret (AtNode n (entry_offset node index)).

Definition is_at_node (st : CursorState) : bool := match st with AtNode _ _ => true | Inactive => false end.

Definition is_at_leaf (xa : XArray) (st : CursorState) : run bool :=
  match st with
  | AtNode n _ => node ← get_node xa n; Ret (is_leaf node)
  | Inactive => Ret false
  end.

Definition into_node (st : CursorState) : option (nat * Z) :=
  match st with AtNode n off => Some (n, off) | Inactive => None end.

Definition continue_traverse_to_target (xa : XArray) (c : Cursor) : run Cursor :=
  loop (S HEIGHTS)
    (fun c =>
       at_leaf ← is_at_leaf xa (state c);
       if (at_leaf : bool) then Ret (Break c)
       else
         '(current, operation_offset) ← unwrap (into_node (state c));
         node ← get_node xa current;
         operated_entry ← entry_with node operation_offset;
         match operated_entry with
         | None => Ret (Break (reset c))
         | Some e =>
             next ← unwrap (entry_left e);
             st ← move_to xa next (index c);
             Ret (Continue (with_state c st))
         end)
    c.

Definition traverse_to_target (xa : XArray) (c : Cursor) : run Cursor :=
  if is_at_node (state c) then Ret c
  else
    match xa_head xa with
    | None => Ret c
    | Some h =>
        node ← get_node xa h;
        m ← max_index (height node);
        if m <? index c then Ret c
        else
          st ← move_to xa h (index c);
          continue_traverse_to_target xa (with_state c st)
    end.

(** The loop of [Cursor::find_marked], at a slot of a node and an index. *)
Definition find_marked_step (xa : XArray) (mark : nat) (c : Cursor) (s : nat * Z * Z) : run (flow (nat * Z * Z) (option Z * Cursor)) :=
  let '(current, operation_offset, i) := s in
  node ← get_node xa current;
  if operation_offset =? SLOT_SIZE then
    Ret match parent node with
        | None => Break (None, reset c)
        | Some p => Continue (p, offset_in_parent node + 1, i)
        end
  else
    let new_offset := default SLOT_SIZE (node_next_marked node operation_offset mark) in
    gap ← checked_sub new_offset operation_offset;
    let step := index_step (height node) in
    match (if gap =? 0 then Some i else checked_add (Z.land i (Z.lnot (step - 1))) (gap * step)) with
    | None => Ret (Break (None, reset c))
    | Some i =>
        if new_offset =? SLOT_SIZE then Ret (Continue (current, new_offset, i))
        else
          child ← entry_with node new_offset;
          match child with
          | None => Ret (Continue (current, new_offset, i))
          | Some e =>
              if negb (is_leaf node) then
                next ← unwrap (entry_left e);
                next_node ← get_node xa next;
                Ret (Continue (next, entry_offset next_node i, i))
              else Ret (Break (Some i, mkCursor i (AtNode current new_offset)))
          end
    end.

(** The search goes down to the index, up, and down to the item, with at most two iterations for each
    height and direction. *)
Definition find_fuel : nat := 64.

Definition find_marked (xa : XArray) (mark : nat) (c : Cursor) : run (option Z * Cursor) :=
  match checked_add (index c) 1 with
  | None => Ret (None, c)
  | Some start =>
      from ← match into_node (state c) with
             | Some (n, offset) => Ret (Some (n, offset + 1))
             | None =>
                 match xa_head xa with
                 | Some h =>
                     node ← get_node xa h;
                     m ← max_index (height node);
                     Ret (if start <=? m then Some (h, entry_offset node start) else None)
                 | None => Ret None
                 end
             end;
      match from with
      | None => Ret (None, reset c)
      | Some (n, offset) => loop find_fuel (find_marked_step xa mark c) (n, offset, start)
      end
  end.

Definition Cursor_load (xa : XArray) (c : Cursor) : run (option P * Cursor) :=
  c ← traverse_to_target xa c;
  match into_node (state c) with
  | None => Ret (None, c)
  | Some (n, offset) =>
      node ← get_node xa n;
      e ← entry_with node offset;
      Ret (e ≫= entry_right, c)
  end.

Definition Cursor_next (xa : XArray) (c : Cursor) : run Cursor :=
  i ← unwrap (checked_add (index c) 1);
  match into_node (state c) with
  | None => Ret (mkCursor i (state c))
  | Some (n, offset) =>
      found ← loop (S HEIGHTS)
                (fun '(current, operation_offset) =>
                   if operation_offset =? SLOT_SIZE then
                     node ← get_node xa current;
                     Ret match parent node with
                         | None => Break None
                         | Some p => Continue (p, offset_in_parent node + 1)
                         end
                   else Ret (Break (Some current)))
                (n, offset + 1);
      match found with
      | None => Ret (mkCursor i Inactive)
      | Some current =>
          st ← move_to xa current i;
          continue_traverse_to_target xa (mkCursor i st)
      end
  end.

Definition next_present (xa : XArray) (c : Cursor) : run (option Z * Cursor) := find_marked xa PRESENT_MARK c.

Definition Cursor_is_marked (xa : XArray) (m : XMark) (c : Cursor) : run (bool * Cursor) :=
  c ← traverse_to_target xa c;
  match into_node (state c) with
  | None => Ret (false, c)
  | Some (n, offset) => node ← get_node xa n; Ret (node_is_marked node offset (XMark_index m), c)
  end.

Definition Cursor_next_marked (xa : XArray) (m : XMark) (c : Cursor) : run (option Z * Cursor) :=
  find_marked xa (XMark_index m) c.

(** ** Cursors that write *)

Definition reserve (xa : XArray) (index : Z) : run XArray :=
  match xa_head xa with
  | None =>
      h ← from_index index;
      let '(new_head, xa) := alloc_node xa (XNode_new_root h) in
      Ret (with_head xa (Some new_head))
  | Some _ =>
      loop (S HEIGHTS)
        (fun xa =>
           head ← unwrap (xa_head xa);
           node ← get_node xa head;
           m ← max_index (height node);
           if index <=? m then Ret (Break xa)
           else
             let '(new_head, xa) := alloc_node xa (XNode_new_root (go_root (height node))) in
             xa ← set_entry xa new_head 0 (Some (Left head));
             Ret (Continue (with_head xa (Some new_head))))
        xa
  end.

Definition continue_traverse_to_target_mut (xa : XArray) (c : Cursor) : run (XArray * Cursor) :=
  loop (S HEIGHTS)
    (fun '(xa, c) =>
       at_leaf ← is_at_leaf xa (state c);
       if (at_leaf : bool) then Ret (Break (xa, c))
       else
         '(current, operation_offset) ← unwrap (into_node (state c));
         node ← get_node xa current;
         entry ← entry_with node operation_offset;
         xa ← match entry with
              | None =>
                  let '(new_node, xa) := alloc_node xa (XNode_new (go_leaf (height node)) operation_offset) in
                  set_entry xa current operation_offset (Some (Left new_node))
              | Some _ => Ret xa
              end;
         node ← get_node xa current;
         entry ← entry_with node operation_offset;
         next ← unwrap (entry ≫= entry_left);
         st ← move_to xa next (index c);
         Ret (Continue (xa, with_state c st)))
    (xa, c).

Definition expand_and_traverse_to_target (xa : XArray) (c : Cursor) : run (XArray * Cursor) :=
  if is_at_node (state c) then Ret (xa, c)
  else
    xa ← reserve xa (index c);
    head ← unwrap (xa_head xa);
    st ← move_to xa head (index c);
    continue_traverse_to_target_mut xa (with_state c st).

Definition CursorMut_store (xa : XArray) (c : Cursor) (item : P) : run (XArray * Cursor) :=
  '(xa, c) ← expand_and_traverse_to_target xa c;
  '(n, offset) ← unwrap (into_node (state c));
  xa ← set_entry xa n offset (Some (Right item));
  Ret (xa, c).

(** Removes empty nodes upwards from a node without items. *)
Definition remove_empty_nodes (xa : XArray) (n : nat) : run XArray :=
  loop (S HEIGHTS)
    (fun '(xa, current) =>
       node ← get_node xa current;
       match parent node with
       | None => Ret (Break (with_head xa None))
       | Some p =>
           xa ← set_entry xa p (offset_in_parent node) None;
           pnode ← get_node xa p;
           Ret (if negb (is_empty pnode) then Break xa else Continue (xa, p))
       end)
    (xa, n).

Definition CursorMut_remove (xa : XArray) (c : Cursor) : run (option P * XArray * Cursor) :=
  c ← traverse_to_target xa c;
  match into_node (state c) with
  | None => Ret (None, xa, c)
  | Some (n, off) =>
      node ← get_node xa n;
      e ← entry_with node off;
      let res := e ≫= entry_right in
      xa ← set_entry xa n off None;
      node ← get_node xa n;
      if negb (is_empty node) then Ret (res, xa, c)
      else
        xa ← remove_empty_nodes xa n;
        Ret (res, xa, reset c)
  end.

(** [CursorMut::set_mark] ([set] is true) and [unset_mark]; [None] is [SetMarkError]. *)
Definition CursorMut_set_mark (xa : XArray) (m : XMark) (set : bool) (c : Cursor) : run (option unit * XArray * Cursor) :=
  c ← traverse_to_target xa c;
  match into_node (state c) with
  | None => Ret (None, xa, c)
  | Some (n, off) =>
      node ← get_node xa n;
      e ← entry_with node off;
      match e ≫= entry_right with
      | None => Ret (None, xa, c)
      | Some _ =>
          xa ← (if set then set_mark xa n off (XMark_index m) else unset_mark xa n off (XMark_index m));
          Ret (Some tt, xa, c)
      end
  end.

(** ** [LockedXArray] and [Range] *)

Definition LockedXArray_clear (xa : XArray) : run XArray :=
  xa ← match xa_head xa with Some h => clear_parent xa h | None => Ret xa end;
  Ret (with_head xa None).

Definition LockedXArray_store (xa : XArray) (index : Z) (item : P) : run XArray :=
  '(xa, _) ← CursorMut_store xa (Cursor_new index) item; Ret xa.

Definition LockedXArray_remove (xa : XArray) (index : Z) : run (option P * XArray) :=
  '(res, xa, _) ← CursorMut_remove xa (Cursor_new index); Ret (res, xa).

Definition LockedXArray_load (xa : XArray) (index : Z) : run (option P) :=
  '(res, _) ← Cursor_load xa (Cursor_new index); Ret res.

(** [Range::next]: one iteration for each index that is left. *)
Definition Range_next (xa : XArray) (c : Cursor) (last : Z) : run (option (Z * P) * Cursor) :=
  loop (S (Z.to_nat (last - index c)))
    (fun c =>
       if last <=? index c then Ret (Break (None, c))
       else
         '(item, c) ← Cursor_load xa c;
         match item with
         | None => c ← Cursor_next xa c; Ret (Continue c)
         | Some x => let i := index c in c ← Cursor_next xa c; Ret (Break (Some (i, x), c))
         end)
    c.

End xarray.
Arguments XEntry : clear implicits.
Arguments XNode : clear implicits.
Arguments XArray : clear implicits.
