(* ===== verification/XArrayTree.v ===== *)
(** * The tree of the sparse array

    The invariant of the nodes of [XArray.v], and what the operations on single nodes do to it: changes
    of marks and their way up to the root, items that are stored in a leaf, and children that come and
    go.

    [shape] describes the tree, [bits_ok] the bitmaps of the inner nodes, [contents] the items and marks
    of the leaves; a set of exceptions names the bits that are about to be brought up to date. *)

From S2P Require Import Prelude XArray.

(** ** Heights and indices *)

(** The number of indices below a node of a height. *)
Definition span (h : Z) : Z := 64 ^ h.

Lemma span_pos h : 0 < span h \/ h < 0.
Proof. unfold span. destruct (Z_lt_le_dec h 0); [by right|left]. apply Z.pow_pos_nonneg; lia. Qed.

Lemma span_step h : 1 <= h -> span h = 64 * span (h - 1).
Proof. intros H. unfold span. rewrite <- Z.pow_succ_r by lia. f_equal. lia. Qed.

Lemma span_gt0 h : 0 <= h -> 0 < span h.
Proof. intros H. apply Z.pow_pos_nonneg; lia. Qed.

Lemma span_pow2 h : 0 <= h -> span h = 2 ^ (6 * h).
Proof. intros H. unfold span. change 64 with (2 ^ 6). by rewrite Z.pow_mul_r by lia. Qed.

Lemma span_le h h' : 0 <= h <= h' -> span h <= span h'.
Proof. intros H. unfold span. apply Z.pow_le_mono_r; lia. Qed.

Lemma index_step_span h : 1 <= h -> index_step h = span (h - 1).
Proof. intros H. unfold index_step, height_shift, BITS_PER_LAYER. rewrite Z.shiftl_1_l, span_pow2 by lia. f_equal. lia. Qed.

Lemma max_index_span h : 1 <= h <= 10 -> max_index h = Ret (span h - 1).
Proof.
  intros H. unfold max_index, height_shift, BITS_PER_LAYER.
  rewrite Z.shiftl_mul_pow2 by lia. change SLOT_SIZE with (2 ^ 6). rewrite <- Z.pow_add_r by lia.
  replace (6 + (h - 1) * 6) with (6 * h) by lia. rewrite <- span_pow2 by lia.
  assert (0 < span h) by (apply span_gt0; lia). assert (span h <= 2 ^ 60) by (apply (span_le h 10); lia).
  unfold wrap64, u64_modulus. rewrite Z.mod_small by lia. unfold checked_sub. by rewrite (proj2 (Z.leb_le _ _)) by lia.
Qed.

(** At height 11 the shift drops all bits, and the subtraction overflows. *)
Lemma max_index_overflows : max_index 11 = Panic.
Proof. reflexivity. Qed.

Lemma height_offset_span h k : 1 <= h -> height_offset h k = (k / span (h - 1)) mod 64.
Proof.
  intros H. unfold height_offset, height_shift, BITS_PER_LAYER. rewrite Z.shiftr_div_pow2 by lia.
  replace ((h - 1) * 6) with (6 * (h - 1)) by lia. rewrite <- span_pow2 by lia.
  change SLOT_MASK with (Z.ones 6). by rewrite Z.land_ones by lia.
Qed.

(** The offset of an index that a node at [b] covers. *)
Lemma height_offset_at h b k : 1 <= h -> b mod span h = 0 -> b <= k < b + span h ->
  0 <= height_offset h k < 64 /\
  b + height_offset h k * span (h - 1) <= k < b + height_offset h k * span (h - 1) + span (h - 1).
Proof.
  intros Hh Hb Hk. rewrite height_offset_span by done. pose proof (span_gt0 (h - 1) ltac:(lia)) as Hs.
  pose proof (Z.mod_pos_bound (k / span (h - 1)) 64 ltac:(lia)). split; [done|].
  apply Z.mod_divide in Hb as [q ->]; [|pose proof (span_gt0 h ltac:(lia)); lia]. rewrite span_step in Hk |- * by done.
  set (s := span (h - 1)) in *. clearbody s. remember (k - q * 64 * s) as r eqn:Er.
  replace k with (q * 64 * s + r) by lia.
  rewrite !Z.div_add_l by lia. rewrite !(Z.add_comm (q * 64)), !Z.mod_add by lia.
  assert (0 <= r / s < 64) as Hq.
  { split; [apply Z.div_pos; lia|apply Z.div_lt_upper_bound; lia]. }
  rewrite Z.mod_small by done. pose proof (Z.div_mod r s ltac:(lia)).
  pose proof (Z.mod_pos_bound r s Hs). lia.
Qed.

(** Two children of a node that share an index are the same child. *)
Lemma offset_unique s b i j k : 0 < s ->
  b + i * s <= k < b + i * s + s -> b + j * s <= k < b + j * s + s -> i = j.
Proof.
  intros Hs Hi Hj. destruct (Z.lt_trichotomy i j) as [H|[H|H]]; [|done|].
  - pose proof (Z.mul_le_mono_nonneg_r (i + 1) j s). lia.
  - pose proof (Z.mul_le_mono_nonneg_r (j + 1) i s). lia.
Qed.

(** ** Bitmaps *)

Definition is_bitmap (v : Z) : Prop := 0 <= v < 2 ^ 64.

Lemma bitmap_high v i : is_bitmap v -> 64 <= i -> Z.testbit v i = false.
Proof.
  intros [H0 H] Hi. destruct (decide (v = 0)) as [->|]; [apply Z.bits_0|].
  apply Z.bits_above_log2; [done|]. apply Z.log2_lt_pow2; [lia|]. apply Z.lt_le_trans with (2 ^ 64); [done|]. apply Z.pow_le_mono_r; lia.
Qed.

Lemma bitmap_of_bits v : 0 <= v -> (forall i, 64 <= i -> Z.testbit v i = false) -> is_bitmap v.
Proof.
  intros H0 H. split; [done|]. destruct (decide (v = 0)) as [->|]; [lia|]. apply Z.log2_lt_pow2; [lia|].
  destruct (Z_lt_le_dec (Z.log2 v) 64) as [|Hl]; [done|]. specialize (H _ Hl). by rewrite Z.bit_log2 in H by lia.
Qed.

Lemma mark_update_spec v off set : is_bitmap v -> 0 <= off < 64 ->
  exists v', mark_update v off set = (negb (Bool.eqb (Z.testbit v off) set), v') /\ is_bitmap v' /\
    forall i, 0 <= i -> Z.testbit v' i = if decide (i = off) then set else Z.testbit v i.
Proof.
  intros Hv Ho. unfold mark_update. rewrite Z.shiftl_1_l. eexists. split; [|split].
  - f_equal. f_equal. destruct set.
    + rewrite lor_bit by lia. pose proof (Z.pow_pos_nonneg 2 off). destruct (Z.testbit v off); simpl; [apply Z.eqb_refl|apply Z.eqb_neq; lia].
    + rewrite ldiff_bit by lia. pose proof (Z.pow_pos_nonneg 2 off). destruct (Z.testbit v off); simpl; [apply Z.eqb_neq; lia|apply Z.eqb_refl].
  - destruct Hv as [H0 H1]. apply bitmap_of_bits.
    + destruct set; [apply Z.lor_nonneg; split; [lia|apply Z.pow_nonneg; lia]|apply Z.ldiff_nonneg; lia].
    + intros i Hi. pose proof (bitmap_high v i (conj H0 H1) Hi) as Hb.
      destruct set; rewrite ?Z.lor_spec, ?Z.ldiff_spec, Hb, ?Z.pow2_bits_eqb by lia; [|done].
      destruct (Z.eqb_spec off i); [lia|done].
  - intros i Hi. destruct set; rewrite ?Z.lor_spec, ?Z.ldiff_spec, Z.pow2_bits_eqb by lia;
      (destruct (decide (i = off)) as [->|Hne]; [rewrite Z.eqb_refl|rewrite (proj2 (Z.eqb_neq off i)) by lia]).
    all: by rewrite ?orb_true_r, ?orb_false_r, ?andb_false_r, ?andb_true_r.
Qed.

Lemma mark_is_marked_spec v off : 0 <= off -> mark_is_marked v off = Z.testbit v off.
Proof.
  intros H. unfold mark_is_marked. rewrite Z.shiftl_1_l. pose proof (land_bit_0 v off H) as Hl.
  destruct (Z.eqb_spec (Z.land v (2 ^ off)) 0) as [E|E]; simpl.
  - symmetry. by apply Hl.
  - symmetry. destruct (Z.testbit v off); [done|]. by destruct E; apply Hl.
Qed.

Lemma nonzero_bit v : is_bitmap v -> v <> 0 <-> exists i, 0 <= i < 64 /\ Z.testbit v i = true.
Proof.
  intros Hv. split.
  - intros H. exists (Z.log2 v). destruct Hv. split; [|apply Z.bit_log2; lia]. split; [apply Z.log2_nonneg|]. apply Z.log2_lt_pow2; lia.
  - intros (i & _ & Hi) ->. by rewrite Z.bits_0 in Hi.
Qed.

Lemma trailing_zeros_bits x : 0 < x < 2 ^ 64 ->
  (trailing_zeros x < 64)%nat /\ Z.testbit x (Z.of_nat (trailing_zeros x)) = true /\
  forall i, 0 <= i < Z.of_nat (trailing_zeros x) -> Z.testbit x i = false.
Proof.
  intros Hx. unfold trailing_zeros. destruct (tz_spec 64 x Hx) as (Hlt & q & Hq & E). split; [done|].
  set (n := tz 64 x) in *. clearbody n. subst x. split.
  - rewrite Z.mul_pow2_bits, Z.sub_diag by lia. by rewrite Z.bit0_odd.
  - intros i Hi. apply Z.mul_pow2_bits_low. lia.
Qed.

Lemma mark_next_marked_spec v off : is_bitmap v -> 0 <= off < 64 ->
  match mark_next_marked v off with
  | None => forall i, off <= i -> Z.testbit v i = false
  | Some j => off <= j < 64 /\ Z.testbit v j = true /\ forall i, off <= i < j -> Z.testbit v i = false
  end.
Proof.
  intros Hv Ho. unfold mark_next_marked. destruct (Z.eqb_spec (Z.shiftr v off) 0) as [E|E].
  - intros i Hi. apply (f_equal (fun z => Z.testbit z (i - off))) in E.
    rewrite Z.shiftr_spec, Z.bits_0 in E by lia. by replace (i - off + off) with i in E by lia.
  - assert (0 <= Z.shiftr v off <= v) as Hr.
    { destruct Hv. split; [apply Z.shiftr_nonneg; lia|]. rewrite Z.shiftr_div_pow2 by lia.
      apply Z.div_le_upper_bound; [apply Z.pow_pos_nonneg; lia|]. pose proof (Z.pow_pos_nonneg 2 off). nia. }
    destruct (trailing_zeros_bits (Z.shiftr v off)) as (Hlt & Hb & Hlow); [destruct Hv; lia|].
    rewrite Z.shiftr_spec in Hb by lia. set (t := Z.of_nat (trailing_zeros (Z.shiftr v off))) in *.
    split_and!; [lia| |by rewrite Z.add_comm|].
    + destruct (Z_lt_le_dec (off + t) 64); [done|]. by rewrite bitmap_high in Hb by (done || lia).
    + intros i Hi. specialize (Hlow (i - off) ltac:(lia)). rewrite Z.shiftr_spec in Hlow by lia. by replace (i - off + off) with i in Hlow by lia.
Qed.
(** ** The shape of the tree

    [pos] gives the nodes of the tree and the first index that each of them covers; [hd] is the root. *)
Section shape.
Context {P : Type} (hd : option nat).
Implicit Types (xa : XArray P) (pos : gmap nat Z) (node : XNode P).

Definition cov (h b k : Z) : Prop := b <= k < b + span h.

Record node_ok xa pos (n : nat) (b : Z) node : Prop := {
  no_height : 1 <= height node <= 10;
  no_marks : length (marks node) = NUM_MARKS;
  no_bitmaps : Forall is_bitmap (marks node);
  no_range : 0 <= b /\ b + span (height node) <= span 10;
  no_align : b mod span (height node) = 0;
  no_slots : forall i e, slots node !! i = Some e -> 0 <= i < 64;
  no_item : forall i x, slots node !! i = Some (Right x) -> height node = 1;
  no_child : forall i c, slots node !! i = Some (Left c) ->
    exists cn, nodes xa !! c = Some cn /\ pos !! c = Some (b + i * span (height node - 1)) /\
      parent cn = Some n /\ offset_in_parent cn = i /\ height cn = height node - 1;
  no_parent : match parent node with
    | None => hd = Some n /\ b = 0 /\ offset_in_parent node = 0
    | Some p => exists pn pb, nodes xa !! p = Some pn /\ pos !! p = Some pb /\
        slots pn !! offset_in_parent node = Some (Left n)
    end
}.

Record shape xa pos : Prop := {
  sh_head : forall h, hd = Some h -> pos !! h = Some 0 /\ exists node, nodes xa !! h = Some node /\ parent node = None;
  sh_none : hd = None -> pos = ∅;
  sh_node : forall n b, pos !! n = Some b -> exists node, nodes xa !! n = Some node /\ node_ok xa pos n b node;
  sh_fresh : forall n node, nodes xa !! n = Some node -> (n < next_node xa)%nat
}.

Lemma shape_node xa pos n b node : shape xa pos -> pos !! n = Some b -> nodes xa !! n = Some node -> node_ok xa pos n b node.
Proof. intros Hs Hp Hn. destruct (sh_node _ _ Hs _ _ Hp) as (node' & E & H). by simplify_eq. Qed.

(** What a node knows of its parent. *)
Lemma parent_facts xa pos n b node p : shape xa pos -> pos !! n = Some b -> nodes xa !! n = Some node -> parent node = Some p ->
  exists pn pb, nodes xa !! p = Some pn /\ pos !! p = Some pb /\ node_ok xa pos p pb pn /\
    slots pn !! offset_in_parent node = Some (Left n) /\ 0 <= offset_in_parent node < 64 /\
    height pn = height node + 1 /\ b = pb + offset_in_parent node * span (height node).
Proof.
  intros Hs Hp Hn Hpar. pose proof (shape_node _ _ _ _ _ Hs Hp Hn) as Hok.
  pose proof (no_parent _ _ _ _ _ Hok) as Hpp. rewrite Hpar in Hpp. destruct Hpp as (pn & pb & Hpn & Hpb & Hsl).
  pose proof (shape_node _ _ _ _ _ Hs Hpb Hpn) as Hpok. exists pn, pb.
  destruct (no_child _ _ _ _ _ Hpok _ _ Hsl) as (cn & Hcn & Hcp & _ & Ho & Hh). simplify_eq.
  split_and!; try done; [by eapply no_slots..|lia|]. rewrite Hh in *. f_equal.
Qed.

(** The parent of a node covers what the node covers. *)
Lemma parent_cov xa pos n b node p : shape xa pos -> pos !! n = Some b -> nodes xa !! n = Some node -> parent node = Some p ->
  exists pn pb, nodes xa !! p = Some pn /\ pos !! p = Some pb /\ height pn = height node + 1 /\
    slots pn !! offset_in_parent node = Some (Left n) /\ b = pb + offset_in_parent node * span (height node) /\
    (forall k, cov (height node) b k -> cov (height pn) pb k /\ height_offset (height pn) k = offset_in_parent node).
Proof.
  intros Hs Hp Hn Hpar. destruct (parent_facts _ _ _ _ _ _ Hs Hp Hn Hpar) as (pn & pb & Hpn & Hpb & Hok & Hsl & Ho & Hh & Eb).
  exists pn, pb. split_and!; try done. intros k Hk. unfold cov in *.
  pose proof (no_height _ _ _ _ _ Hok). pose proof (span_step (height pn) ltac:(lia)) as Es.
  replace (height pn - 1) with (height node) in Es by lia.
  pose proof (span_gt0 (height node) ltac:(lia)).
  assert (pb <= k < pb + span (height pn)) as Hc by nia. split; [done|].
  destruct (height_offset_at (height pn) pb k) as [_ Hat]; [lia|by eapply no_align|done|].
  replace (height pn - 1) with (height node) in Hat by lia.
  eapply (offset_unique (span (height node)) pb); [lia|exact Hat|lia].
Qed.

Lemma height_le_head xa pos h hn n b node : shape xa pos -> hd = Some h -> nodes xa !! h = Some hn ->
  pos !! n = Some b -> nodes xa !! n = Some node -> height node <= height hn.
Proof.
  intros Hs Hh Hhn. remember (Z.to_nat (10 - height node)) as d eqn:Ed. revert n b node Ed.
  induction d as [|d IH]; intros n b node Ed Hp Hn; pose proof (no_height _ _ _ _ _ (shape_node _ _ _ _ _ Hs Hp Hn)).
  all: destruct (parent node) as [p|] eqn:Epar.
  - destruct (parent_facts _ _ _ _ _ _ Hs Hp Hn Epar) as (pn & pb & Hpn & Hpb & Hok & _ & _ & Hh' & _).
    pose proof (no_height _ _ _ _ _ Hok). lia.
  - pose proof (no_parent _ _ _ _ _ (shape_node _ _ _ _ _ Hs Hp Hn)) as Hpp. rewrite Epar in Hpp. destruct Hpp as (E & _). simplify_eq. lia.
  - destruct (parent_facts _ _ _ _ _ _ Hs Hp Hn Epar) as (pn & pb & Hpn & Hpb & Hok & _ & _ & Hh' & _).
    specialize (IH p pb pn ltac:(lia) Hpb Hpn). lia.
  - pose proof (no_parent _ _ _ _ _ (shape_node _ _ _ _ _ Hs Hp Hn)) as Hpp. rewrite Epar in Hpp. destruct Hpp as (E & _). simplify_eq. lia.
Qed.

(** There is a head if there is a node; a node without a parent is the head. *)
Lemma root_is_head xa pos n b node : shape xa pos -> pos !! n = Some b -> nodes xa !! n = Some node -> parent node = None ->
  hd = Some n /\ b = 0 /\ offset_in_parent node = 0.
Proof.
  intros Hs Hp Hn Hpar. pose proof (no_parent _ _ _ _ _ (shape_node _ _ _ _ _ Hs Hp Hn)) as H. by rewrite Hpar in H.
Qed.

Lemma head_exists xa pos n b : shape xa pos -> pos !! n = Some b -> exists h hn, hd = Some h /\ nodes xa !! h = Some hn /\ parent hn = None /\ pos !! h = Some 0.
Proof.
  intros Hs Hp. destruct hd as [h|] eqn:E; [|by rewrite (sh_none _ _ Hs E) in Hp].
  destruct (sh_head _ _ Hs _ E) as (? & hn & ? & ?). eauto 6.
Qed.

Lemma parent_below_head xa pos h hn n b node p : shape xa pos -> hd = Some h -> nodes xa !! h = Some hn ->
  pos !! n = Some b -> nodes xa !! n = Some node -> parent node = Some p -> height node < height hn.
Proof.
  intros Hs Hh Hhn Hp Hn Hpar. destruct (parent_facts _ _ _ _ _ _ Hs Hp Hn Hpar) as (pn & pb & Hpn & Hpb & _ & _ & _ & Hh' & _).
  pose proof (height_le_head _ _ _ _ _ _ _ Hs Hh Hhn Hpb Hpn). lia.
Qed.

(** Nodes of the same height do not overlap. *)
Lemma cov_unique xa pos n1 b1 node1 n2 b2 node2 k : shape xa pos ->
  pos !! n1 = Some b1 -> nodes xa !! n1 = Some node1 -> pos !! n2 = Some b2 -> nodes xa !! n2 = Some node2 ->
  height node1 = height node2 -> cov (height node1) b1 k -> cov (height node2) b2 k -> n1 = n2.
Proof.
  intros Hs. remember (Z.to_nat (10 - height node1)) as d eqn:Ed. revert n1 b1 node1 n2 b2 node2 Ed.
  induction d as [|d IH]; intros n1 b1 node1 n2 b2 node2 Ed Hp1 Hn1 Hp2 Hn2 Eh Hc1 Hc2.
  all: destruct (head_exists _ _ _ _ Hs Hp1) as (h & hn & Hh & Hhn & Hhp & Hhpos).
  all: pose proof (no_height _ _ _ _ _ (shape_node _ _ _ _ _ Hs Hp1 Hn1)); pose proof (no_height _ _ _ _ _ (shape_node _ _ _ _ _ Hs Hhpos Hhn)).
  all: destruct (parent node1) as [p1|] eqn:Ep1, (parent node2) as [p2|] eqn:Ep2.
  all: try (pose proof (parent_below_head _ _ _ _ _ _ _ _ Hs Hh Hhn Hp1 Hn1 Ep1)).
  all: try (pose proof (parent_below_head _ _ _ _ _ _ _ _ Hs Hh Hhn Hp2 Hn2 Ep2)).
  all: try (destruct (root_is_head _ _ _ _ _ Hs Hp1 Hn1 Ep1) as (? & _)).
  all: try (destruct (root_is_head _ _ _ _ _ Hs Hp2 Hn2 Ep2) as (? & _)).
  all: try (exfalso; simplify_eq; lia); try by simplify_eq.
  destruct (parent_cov _ _ _ _ _ _ Hs Hp1 Hn1 Ep1) as (pn1 & pb1 & Hpn1 & Hpb1 & Hh1 & Hsl1 & _ & Hk1).
  destruct (parent_cov _ _ _ _ _ _ Hs Hp2 Hn2 Ep2) as (pn2 & pb2 & Hpn2 & Hpb2 & Hh2 & Hsl2 & _ & Hk2).
  destruct (Hk1 k Hc1) as [Hc1' Ho1], (Hk2 k Hc2) as [Hc2' Ho2].
  assert (p1 = p2) as -> by (eapply (IH p1 pb1 pn1 p2 pb2 pn2); try done; lia).
  simplify_eq. rewrite <- Ho1 in Hsl1. rewrite <- Ho2 in Hsl2. by simplify_eq.
Qed.

Lemma cov_slot h b i k : 1 <= h -> 0 <= i < 64 -> cov (h - 1) (b + i * span (h - 1)) k -> cov h b k.
Proof.
  unfold cov. intros Hh Hi Hk. rewrite (span_step h) by done. pose proof (span_gt0 (h - 1) ltac:(lia)). nia.
Qed.

(** The path from a node to a lower node that covers the same index. *)
Lemma cov_child xa pos n b node l lb lnode k : shape xa pos ->
  pos !! n = Some b -> nodes xa !! n = Some node -> pos !! l = Some lb -> nodes xa !! l = Some lnode ->
  height lnode < height node -> cov (height node) b k -> cov (height lnode) lb k ->
  exists c, slots node !! height_offset (height node) k = Some (Left c).
Proof.
  intros Hs Hp Hn. remember (Z.to_nat (height node - height lnode)) as d eqn:Ed. revert l lb lnode Ed.
  induction d as [|d IH]; intros l lb lnode Ed Hlp Hln Hlt Hc Hlc; [lia|].
  destruct (head_exists _ _ _ _ Hs Hp) as (h & hn & Hh & Hhn & Hhp & Hhpos).
  pose proof (height_le_head _ _ _ _ _ _ _ Hs Hh Hhn Hp Hn) as Hle.
  destruct (parent lnode) as [p|] eqn:Epar.
  2: { destruct (root_is_head _ _ _ _ _ Hs Hlp Hln Epar) as (? & _). simplify_eq. lia. }
  destruct (parent_cov _ _ _ _ _ _ Hs Hlp Hln Epar) as (pn & pb & Hpn & Hpb & Hph & Hsl & _ & Hk).
  destruct (Hk k Hlc) as [Hpc Ho]. destruct (decide (height pn = height node)) as [E|E].
  - assert (p = n) as -> by (eapply (cov_unique xa pos p pb pn n b node k); done). simplify_eq. exists l. by rewrite Ho.
  - eapply (IH p pb pn); try done; lia.
Qed.

(** ** Contents and marks *)

(** The keys with a mark; the items themselves for the mark of presence. *)
Definition keyset (M : gmap Z P) (K : nat -> gset Z) (m : nat) : gset Z := if (m =? PRESENT_MARK)%nat then dom M else K m.

Record contents xa pos (M : gmap Z P) (K : nat -> gset Z) : Prop := {
  ct_items : forall k x, M !! k = Some x <->
    exists n b node, pos !! n = Some b /\ nodes xa !! n = Some node /\ height node = 1 /\ slots node !! (k - b) = Some (Right x);
  ct_marks : forall n b node m i, pos !! n = Some b -> nodes xa !! n = Some node -> height node = 1 -> (m < NUM_MARKS)%nat -> 0 <= i < 64 ->
    Z.testbit (marks node !!! m) i = true <-> b + i ∈ keyset M K m;
  ct_sub : forall m k, k ∈ K m -> k ∈ dom M
}.

(** A bit of an inner node is set if and only if its child has marks; except for some bits. *)
Definition bits_ok xa pos (except : nat -> Z -> nat -> Prop) : Prop :=
  forall n b node m i, pos !! n = Some b -> nodes xa !! n = Some node -> 1 < height node -> (m < NUM_MARKS)%nat -> 0 <= i < 64 ->
    except n i m \/
    (Z.testbit (marks node !!! m) i = true <->
     exists c cn, slots node !! i = Some (Left c) /\ nodes xa !! c = Some cn /\ marks cn !!! m <> 0).

Definition no_exception (n : nat) (i : Z) (m : nat) : Prop := False.

Lemma node_bitmap xa pos n b node m : node_ok xa pos n b node -> (m < NUM_MARKS)%nat -> is_bitmap (marks node !!! m).
Proof.
  intros Hok Hm. destruct (lookup_lt_is_Some_2 (marks node) m) as [v Hv]; [by rewrite (no_marks _ _ _ _ _ Hok)|].
  rewrite (list_lookup_total_correct _ _ _ Hv). eapply Forall_lookup_1; [by eapply no_bitmaps|done].
Qed.

Lemma keyset_dom xa pos M K m k : contents xa pos M K -> k ∈ keyset M K m -> k ∈ dom M.
Proof. intros Hc. unfold keyset. case_match; [done|]. apply (ct_sub _ _ _ _ Hc). Qed.

Lemma item_leaf xa pos M K k : shape xa pos -> contents xa pos M K -> k ∈ dom M ->
  exists n b node, pos !! n = Some b /\ nodes xa !! n = Some node /\ height node = 1 /\ cov 1 b k.
Proof.
  intros Hs Hc Hk. apply elem_of_dom in Hk as [x Hx]. apply (ct_items _ _ _ _ Hc) in Hx as (n & b & node & Hp & Hn & Hh & Hsl).
  exists n, b, node. split_and!; try done. pose proof (no_slots _ _ _ _ _ (shape_node _ _ _ _ _ Hs Hp Hn) _ _ Hsl). unfold cov. change (span 1) with 64. lia.
Qed.

(** What the bits of all nodes mean. *)
Lemma bits_sem xa pos M K n b node m i : shape xa pos -> bits_ok xa pos no_exception -> contents xa pos M K ->
  pos !! n = Some b -> nodes xa !! n = Some node -> (m < NUM_MARKS)%nat -> 0 <= i < 64 ->
  Z.testbit (marks node !!! m) i = true <->
  exists k, k ∈ keyset M K m /\ cov (height node - 1) (b + i * span (height node - 1)) k.
Proof.
  intros Hs Hb Hc Hp Hn Hm. remember (Z.to_nat (height node)) as d eqn:Ed. revert n b node i Ed Hp Hn.
  induction d as [|d IH]; intros n b node i Ed Hp Hn Hi; pose proof (shape_node _ _ _ _ _ Hs Hp Hn) as Hok;
    pose proof (no_height _ _ _ _ _ Hok) as Hh; [lia|].
  destruct (decide (height node = 1)) as [E|E].
  { rewrite (ct_marks _ _ _ _ Hc _ _ _ _ _ Hp Hn E Hm Hi), E. change (span (1 - 1)) with 1. unfold cov. change (span (1 - 1)) with 1.
    split; [intros H; exists (b + i); split; [done|lia]|]. intros (k & Hk & Hr). by replace (b + i) with k by lia. }
  destruct (Hb n b node m i Hp Hn ltac:(lia) Hm Hi) as [[]|Hbit]. rewrite Hbit. split.
  - intros (c & cn & Hsl & Hcn & Hnz). destruct (no_child _ _ _ _ _ Hok _ _ Hsl) as (cn' & Hcn' & Hcp & _ & _ & Hch). simplify_eq.
    pose proof (shape_node _ _ _ _ _ Hs Hcp Hcn) as Hcok.
    apply (nonzero_bit _ (node_bitmap _ _ _ _ _ _ Hcok Hm)) in Hnz as (j & Hj & Hbj).
    destruct (proj1 (IH c _ cn j ltac:(lia) Hcp Hcn Hj) Hbj) as (k & Hk & Hck). exists k. split; [done|].
    pose proof (no_height _ _ _ _ _ Hcok). rewrite <- Hch at 1. by eapply cov_slot; [lia|exact Hj|exact Hck].
  - intros (k & Hk & Hck). destruct (item_leaf _ _ _ _ _ Hs Hc (keyset_dom _ _ _ _ _ _ Hc Hk)) as (l & lb & lnode & Hlp & Hln & Hlh & Hlc).
    assert (cov (height node) b k) as Hcov by (eapply cov_slot; [lia|exact Hi|exact Hck]).
    destruct (cov_child xa pos n b node l lb lnode k) as (c & Hsl); try done; [lia|by rewrite Hlh|].
    destruct (height_offset_at (height node) b k) as [_ Hat]; [lia|by eapply no_align|done|].
    assert (height_offset (height node) k = i) as Ei.
    { eapply offset_unique; [|exact Hat|exact Hck]. apply span_gt0; lia. }
    rewrite Ei in Hsl. destruct (no_child _ _ _ _ _ Hok _ _ Hsl) as (cn & Hcn & Hcp & _ & _ & Hch).
    exists c, cn. split_and!; try done. pose proof (shape_node _ _ _ _ _ Hs Hcp Hcn) as Hcok.
    apply (nonzero_bit _ (node_bitmap _ _ _ _ _ _ Hcok Hm)).
    pose proof (no_height _ _ _ _ _ Hcok) as Hcnh.
    destruct (height_offset_at (height cn) (b + i * span (height node - 1)) k) as [Hj Hjat]; [lia|by eapply no_align|by rewrite Hch|].
    exists (height_offset (height cn) k). split; [done|]. apply (IH c _ cn _ ltac:(lia) Hcp Hcn Hj). exists k. split; [done|exact Hjat].
Qed.

Lemma marks_sem xa pos M K n b node m : shape xa pos -> bits_ok xa pos no_exception -> contents xa pos M K ->
  pos !! n = Some b -> nodes xa !! n = Some node -> (m < NUM_MARKS)%nat ->
  marks node !!! m <> 0 <-> exists k, k ∈ keyset M K m /\ cov (height node) b k.
Proof.
  intros Hs Hb Hc Hp Hn Hm. pose proof (shape_node _ _ _ _ _ Hs Hp Hn) as Hok. pose proof (no_height _ _ _ _ _ Hok).
  rewrite (nonzero_bit _ (node_bitmap _ _ _ _ _ _ Hok Hm)). split.
  - intros (i & Hi & Hbit). apply (bits_sem xa pos M K n b node m i) in Hbit as (k & Hk & Hck); try done. exists k. split; [done|].
    by eapply cov_slot; [lia|exact Hi|exact Hck].
  - intros (k & Hk & Hck). destruct (height_offset_at (height node) b k) as [Hi Hat]; [lia|by eapply no_align|done|].
    eexists. split; [exact Hi|]. apply (bits_sem xa pos M K n b node m); try done. by exists k.
Qed.

(** Every node covers an item, or the index [k]. *)
Definition full_except xa pos (M : gmap Z P) (k : Z) : Prop :=
  forall n b node, pos !! n = Some b -> nodes xa !! n = Some node ->
    cov (height node) b k \/ exists j, j ∈ dom M /\ cov (height node) b j.

Definition full xa pos (M : gmap Z P) : Prop :=
  forall n b node, pos !! n = Some b -> nodes xa !! n = Some node -> exists j, j ∈ dom M /\ cov (height node) b j.

(** ** Changes of marks *)

Definition marks_wf node : Prop := length (marks node) = NUM_MARKS /\ Forall is_bitmap (marks node).

Definition same_but_marks (a b : XNode P) : Prop :=
  parent b = parent a /\ height b = height a /\ offset_in_parent b = offset_in_parent a /\ slots b = slots a /\
  (marks_wf a -> marks_wf b).

(** Two arrays that differ in their marks only. *)
Record skel xa xa' : Prop := {
  sk_head : xa_head xa' = xa_head xa;
  sk_next : next_node xa' = next_node xa;
  sk_to : forall n a, nodes xa !! n = Some a -> exists b, nodes xa' !! n = Some b /\ same_but_marks a b;
  sk_from : forall n b, nodes xa' !! n = Some b -> exists a, nodes xa !! n = Some a /\ same_but_marks a b
}.

Lemma same_but_marks_refl a : same_but_marks a a.
Proof. unfold same_but_marks. naive_solver. Qed.

Lemma same_but_marks_trans a b c : same_but_marks a b -> same_but_marks b c -> same_but_marks a c.
Proof. unfold same_but_marks. intros (-> & -> & -> & -> & ?) (-> & -> & -> & -> & ?). naive_solver. Qed.

#[local] Instance skel_refl : Reflexive skel.
Proof. intros xa. split; try done; intros n a H; exists a; (split; [done|apply same_but_marks_refl]). Qed.

#[local] Instance skel_trans : Transitive skel.
Proof.
  intros x y z H1 H2. split.
  - by rewrite (sk_head _ _ H2), (sk_head _ _ H1).
  - by rewrite (sk_next _ _ H2), (sk_next _ _ H1).
  - intros n a Ha. destruct (sk_to _ _ H1 _ _ Ha) as (b & Hb & Hab). destruct (sk_to _ _ H2 _ _ Hb) as (c & Hc & Hbc).
    exists c. split; [done|]. by eapply same_but_marks_trans.
  - intros n c Hc. destruct (sk_from _ _ H2 _ _ Hc) as (b & Hb & Hbc). destruct (sk_from _ _ H1 _ _ Hb) as (a & Ha & Hab).
    exists a. split; [done|]. by eapply same_but_marks_trans.
Qed.

Lemma node_ok_skel xa xa' pos n b a a' : skel xa xa' -> same_but_marks a a' -> node_ok xa pos n b a -> node_ok xa' pos n b a'.
Proof.
  intros Hk (Ep & Eh & Eo & Es & Em) [H1 H2 H3 H4 H5 H6 H7 H8 H9]. destruct (Em (conj H2 H3)) as [H2' H3'].
  split; rewrite ?Ep, ?Eh, ?Eo, ?Es; try done.
  - intros i c Hsl. destruct (H8 i c Hsl) as (cn & Hcn & Hpos & Hpar & Hoff & Hh).
    destruct (sk_to _ _ Hk _ _ Hcn) as (cn' & Hcn' & Ep' & Eh' & Eo' & _). exists cn'. rewrite Ep', Eh', Eo'. done.
  - destruct (parent a) as [p|]; [|done]. destruct H9 as (pn & pb & Hpn & Hpb & Hsl).
    destruct (sk_to _ _ Hk _ _ Hpn) as (pn' & Hpn' & _ & _ & _ & Es' & _). exists pn', pb. by rewrite Es'.
Qed.

Lemma shape_skel xa xa' pos : skel xa xa' -> shape xa pos -> shape xa' pos.
Proof.
  intros Hk [H1 H2 H3 H4]. split; rewrite ?(sk_next _ _ Hk).
  - intros h Hh. destruct (H1 h Hh) as (Hp & node & Hn & Hpar). split; [done|].
    destruct (sk_to _ _ Hk _ _ Hn) as (node' & Hn' & Ep & _). exists node'. by rewrite Ep.
  - done.
  - intros n b Hp. destruct (H3 n b Hp) as (a & Ha & Hok). destruct (sk_to _ _ Hk _ _ Ha) as (a' & Ha' & Hs).
    exists a'. split; [done|]. by eapply node_ok_skel.
  - intros n b Hb. destruct (sk_from _ _ Hk _ _ Hb) as (a & Ha & _). by eapply H4.
Qed.

Lemma lookup_with_node xa n node q : nodes (with_node xa n node) !! q = if decide (q = n) then Some node else nodes xa !! q.
Proof. cbn. case_decide; subst; [by rewrite lookup_insert_eq|by rewrite lookup_insert_ne]. Qed.

Lemma marks_wf_insert node m v : marks_wf node -> is_bitmap v -> marks_wf (with_mark node m v).
Proof. intros [H1 H2] Hv. split; cbn; [by rewrite length_insert|by apply Forall_insert]. Qed.

Lemma with_mark_skel xa n node m v : nodes xa !! n = Some node -> is_bitmap v -> skel xa (with_node xa n (with_mark node m v)).
Proof.
  intros Hn Hv. assert (same_but_marks node (with_mark node m v)) as Hsb.
  { unfold same_but_marks. split_and!; try done. intros Hw. by apply marks_wf_insert. }
  split; [done|done| |]; intros q a Ha; rewrite lookup_with_node in *; case_decide; simplify_eq.
  - eauto.
  - exists a. split; [done|apply same_but_marks_refl].
  - eauto.
  - exists a. split; [done|apply same_but_marks_refl].
Qed.

Lemma with_mark_same xa n node m : nodes xa !! n = Some node -> (m < length (marks node))%nat ->
  with_node xa n (with_mark node m (marks node !!! m)) = xa.
Proof.
  intros Hn Hm. destruct xa as [h ns nx], node as [p ht o sl mk]; cbn in *. unfold with_node, with_mark; cbn.
  rewrite list_insert_id by (by apply list_lookup_lookup_total_lt). by rewrite insert_id.
Qed.

(** The exception of one bit. *)
Definition or_bit (E : nat -> Z -> nat -> Prop) (n : nat) (off : Z) (m : nat) : nat -> Z -> nat -> Prop :=
  fun q i m' => E q i m' \/ (q = n /\ i = off /\ m' = m).
Definition or_parent_bit (E : nat -> Z -> nat -> Prop) node (m : nat) : nat -> Z -> nat -> Prop :=
  fun q i m' => E q i m' \/ (parent node = Some q /\ i = offset_in_parent node /\ m' = m).

(** What the bit of an inner node should be. *)
Definition right_bit xa node (off : Z) (m : nat) (set : bool) : Prop :=
  1 < height node -> (set = true <-> exists c cn, slots node !! off = Some (Left c) /\ nodes xa !! c = Some cn /\ marks cn !!! m <> 0).

(** After one bit of a node has been set right, only its parent may have to follow. *)
Lemma set_bit_bits xa pos E n b node m off set v : shape xa pos -> pos !! n = Some b -> nodes xa !! n = Some node ->
  (m < NUM_MARKS)%nat -> 0 <= off < 64 -> bits_ok xa pos (or_bit E n off m) -> right_bit xa node off m set ->
  (forall i, 0 <= i -> Z.testbit v i = if decide (i = off) then set else Z.testbit (marks node !!! m) i) ->
  bits_ok (with_node xa n (with_mark node m v)) pos (or_parent_bit E node m).
Proof.
  intros Hs Hp Hn Hm Hoff Hb Hr Hv q qb qnode m' i Hqp Hq Hqh Hm' Hi. unfold or_parent_bit.
  pose proof (shape_node _ _ _ _ _ Hs Hp Hn) as Hok.
  assert (exists q0, nodes xa !! q = Some q0 /\ slots qnode = slots q0 /\ height qnode = height q0 /\
    (Z.testbit (marks qnode !!! m') i = if decide (q = n /\ i = off /\ m' = m) then set else Z.testbit (marks q0 !!! m') i)) as (q0 & Hq0 & Es & Eh & Et).
  { rewrite lookup_with_node in Hq. destruct (decide (q = n)) as [->|Hne]; simplify_eq.
    - exists node. split_and!; try done. cbn. destruct (decide (m' = m)) as [->|Hne'].
      + rewrite list_lookup_total_insert_eq by (by rewrite (no_marks _ _ _ _ _ Hok)). rewrite Hv by lia. repeat case_decide; naive_solver.
      + rewrite list_lookup_total_insert_ne by done. case_decide; naive_solver.
    - exists qnode. split_and!; try done. case_decide; naive_solver. }
  rewrite Es, Et.
  destruct (Hb q qb q0 m' i Hqp Hq0 ltac:(lia) Hm' Hi) as [[?|(-> & -> & ->)]|Hbit]; [by left; left| |].
  - right. rewrite decide_True by done. simplify_eq. rewrite (Hr ltac:(lia)).
    split; intros (c & cn & Hsl & Hcn & Hnz); exists c.
    all: pose proof (no_child _ _ _ _ _ Hok _ _ Hsl) as (cn0 & Hcn0 & _ & _ & _ & Hch).
    + exists cn. split_and!; try done. rewrite lookup_with_node, decide_False; [done|]. intros ->. simplify_eq. lia.
    + exists cn. split_and!; try done. rewrite lookup_with_node, decide_False in Hcn; [done|]. intros ->. simplify_eq. lia.
  - destruct (decide (q = n /\ i = off /\ m' = m)) as [(-> & -> & ->)|Hne].
    { right. simplify_eq. rewrite (Hr ltac:(lia)). split; intros (c & cn & Hsl & Hcn & Hnz); exists c, cn.
      all: pose proof (no_child _ _ _ _ _ Hok _ _ Hsl) as (cn0 & Hcn0 & _ & _ & _ & Hch).
      + split_and!; try done. rewrite lookup_with_node, decide_False; [done|]. intros ->. simplify_eq. lia.
      + split_and!; try done. rewrite lookup_with_node, decide_False in Hcn; [done|]. intros ->. simplify_eq. lia. }
    rewrite Hbit. pose proof (shape_node _ _ _ _ _ Hs Hqp Hq0) as Hqok.
    destruct (decide (slots q0 !! i ≫= entry_left = Some n /\ m' = m)) as [[Hsl ->]|Hnc].
    + destruct (slots q0 !! i) as [[c|x]|] eqn:Ei; try discriminate Hsl. injection Hsl as ->. rename Ei into Hsl.
      left. right. pose proof (no_child _ _ _ _ _ Hqok _ _ Hsl) as (cn0 & Hcn0 & _ & Hpar & Ho & _). by simplify_eq.
    + right. split; intros (c & cn & Hsl & Hcn & Hnz); exists c.
      * rewrite lookup_with_node. case_decide; [|eauto]. subst c. simplify_eq. eexists. split_and!; try done. cbn.
        rewrite list_lookup_total_insert_ne; [done|]. intros <-. apply Hnc. by rewrite Hsl.
      * rewrite lookup_with_node in Hcn. case_decide; [|eauto]. subst c. simplify_eq. exists node. split_and!; try done. cbn in Hnz.
        rewrite list_lookup_total_insert_ne in Hnz; [done|]. intros <-. apply Hnc. by rewrite Hsl.
Qed.

Definition unchanged_upto (h : Z) xa xa' : Prop := forall q nd, nodes xa !! q = Some nd -> height nd <= h -> nodes xa' !! q = Some nd.
Definition same_marks_but (m : nat) xa xa' : Prop := forall q nd nd' m', nodes xa !! q = Some nd -> nodes xa' !! q = Some nd' -> m' <> m -> marks nd' !!! m' = marks nd !!! m'.

Lemma update_mark_bit_spec xa pos n b node m off set : shape xa pos -> pos !! n = Some b -> nodes xa !! n = Some node -> (m < NUM_MARKS)%nat -> 0 <= off < 64 ->
  exists v, update_mark_bit xa n m off set =
      Ret (negb (Bool.eqb (Z.testbit (marks node !!! m) off) set), with_node xa n (with_mark node m v)) /\ is_bitmap v /\
    (forall i, 0 <= i -> Z.testbit v i = if decide (i = off) then set else Z.testbit (marks node !!! m) i) /\
    (Z.testbit (marks node !!! m) off = set -> with_node xa n (with_mark node m v) = xa).
Proof.
  intros Hs Hp Hn Hm Ho. pose proof (shape_node _ _ _ _ _ Hs Hp Hn) as Hok.
  destruct (mark_update_spec (marks node !!! m) off set) as (v & Hu & Hv & Ht); [by eapply node_bitmap|done|].
  exists v. unfold update_mark_bit, get_node. rewrite Hn. cbn [unwrap mbind run_bind]. rewrite Hu. split_and!; try done.
  intros Hsame. assert (v = marks node !!! m) as ->.
  { apply Z.bits_inj'. intros i Hi. rewrite Ht by done. case_decide; subst; done. }
  apply with_mark_same; [done|]. by rewrite (no_marks _ _ _ _ _ Hok).
Qed.

Lemma unchanged_trans h h' x y z : h <= h' -> skel x y -> unchanged_upto h x y -> unchanged_upto h' y z -> unchanged_upto h x z.
Proof. intros Hh Hk H1 H2 q nd Hq Hl. apply H2; [by apply H1|lia]. Qed.

Lemma same_marks_trans m x y z : skel x y -> same_marks_but m x y -> same_marks_but m y z -> same_marks_but m x z.
Proof.
  intros Hk H1 H2 q nd nd' m' Hq Hq' Hne. destruct (sk_to _ _ Hk _ _ Hq) as (b & Hb & _).
  rewrite (H2 q b nd' m' Hb Hq' Hne). by eapply H1.
Qed.

Lemma with_mark_same_marks xa n node m v : nodes xa !! n = Some node -> same_marks_but m xa (with_node xa n (with_mark node m v)).
Proof.
  intros Hn q nd nd' m' Hq Hq' Hne. rewrite lookup_with_node in Hq'. case_decide; simplify_eq; [|done]. cbn. by rewrite list_lookup_total_insert_ne.
Qed.

Lemma propagate_spec fuel xa pos E n b node m : shape xa pos -> pos !! n = Some b -> nodes xa !! n = Some node -> (m < NUM_MARKS)%nat ->
  bits_ok xa pos (or_parent_bit E node m) -> (forall q i m', E q i m' -> m' <> m) -> (Z.to_nat (10 - height node) < fuel)%nat ->
  returns (propagate_mark_at fuel xa n m) (fun xa' =>
    skel xa xa' /\ bits_ok xa' pos E /\ unchanged_upto (height node) xa xa' /\ same_marks_but m xa xa').
Proof.
  revert xa n b node. induction fuel as [|fuel IH]; intros xa n b node Hs Hp Hn Hm Hb HE Hf; [lia|].
  cbn [propagate_mark_at]. unfold get_node. rewrite Hn. cbn [unwrap mbind run_bind].
  destruct (parent node) as [p|] eqn:Epar.
  2: { apply returns_ret. split_and!; [reflexivity| |by intros ???|by intros q nd nd' m' ??; simplify_eq].
       intros q qb qn m' i H1 H2 H3 H4 H5. destruct (Hb q qb qn m' i H1 H2 H3 H4 H5) as [[?|(? & _)]|?]; [by left|congruence|by right]. }
  destruct (parent_facts _ _ _ _ _ _ Hs Hp Hn Epar) as (pn & pb & Hpn & Hpb & Hpok & Hsl & Ho & Hh & Eb).
  pose proof (no_height _ _ _ _ _ Hpok).
  destruct (update_mark_bit_spec xa pos p pb pn m (offset_in_parent node) (negb (is_mark_clear node m)) Hs Hpb Hpn Hm Ho) as (v & Hu & Hv & Ht & Hid).
  rewrite Hu. cbn [mbind run_bind].
  assert (bits_ok xa pos (or_bit E p (offset_in_parent node) m)) as Hb'.
  { intros q qb qn m' i H1 H2 H3 H4 H5. destruct (Hb q qb qn m' i H1 H2 H3 H4 H5) as [[?|(? & ? & ?)]|?]; [by left; left|left; right; naive_solver|by right]. }
  assert (right_bit xa pn (offset_in_parent node) m (negb (is_mark_clear node m))) as Hr.
  { intros _. unfold is_mark_clear, mark_is_clear. rewrite negb_true_iff, Z.eqb_neq. split.
    - intros Hnz. by exists n, node.
    - intros (c & cn & Hc & Hcn & Hnz). by simplify_eq. }
  pose proof (set_bit_bits xa pos E p pb pn m _ _ v Hs Hpb Hpn Hm Ho Hb' Hr Ht) as Hb2.
  destruct (Bool.eqb (Z.testbit (marks pn !!! m) (offset_in_parent node)) (negb (is_mark_clear node m))) eqn:Ec; cbn [negb].
  - apply Bool.eqb_prop in Ec. rewrite (Hid Ec) in Hb2 |- *. apply returns_ret.
    split_and!; [reflexivity| |by intros ???|by intros q nd nd' m' ??; simplify_eq].
    intros q qb qn m' i H1 H2 H3 H4 H5. destruct (Hb' q qb qn m' i H1 H2 H3 H4 H5) as [[?|(-> & -> & ->)]|?]; [by left| |by right].
    right. simplify_eq. rewrite Ec. apply Hr. lia.
  - set (xa1 := with_node xa p (with_mark pn m v)) in *.
    pose proof (with_mark_skel xa p pn m v Hpn Hv) as Hk1. fold xa1 in Hk1.
    assert (nodes xa1 !! p = Some (with_mark pn m v)) as Hp1 by (unfold xa1; by rewrite lookup_with_node, decide_True).
    eapply returns_mono; [eapply (IH xa1 p pb (with_mark pn m v)); try done; [by eapply shape_skel|cbn; lia]|].
    intros xa' (Hk & Hb3 & Hun & Hsm). split_and!; [by etrans|done| |].
    + eapply (unchanged_trans _ (height pn)); [lia|exact Hk1| |exact Hun].
      intros q nd Hq Hl. unfold xa1. rewrite lookup_with_node. case_decide; subst; simplify_eq; [lia|done].
    + eapply same_marks_trans; [exact Hk1| |exact Hsm]. by apply with_mark_same_marks.
Qed.

(** Setting a bit of a node and passing the change on. *)
Definition change_mark xa (n : nat) (m : nat) (off : Z) (set : bool) : run (XArray P) :=
  '(changed, xa) ← update_mark_bit xa n m off set;
  if (changed : bool) then propagate_mark xa n m else Ret xa.

Lemma change_mark_spec xa pos E n b node m off set : shape xa pos -> pos !! n = Some b -> nodes xa !! n = Some node ->
  (m < NUM_MARKS)%nat -> 0 <= off < 64 -> bits_ok xa pos (or_bit E n off m) -> right_bit xa node off m set ->
  (forall q i m', E q i m' -> m' <> m) ->
  returns (change_mark xa n m off set) (fun xa' =>
    skel xa xa' /\ bits_ok xa' pos E /\ same_marks_but m xa xa' /\
    (forall q nd, nodes xa !! q = Some nd -> q <> n -> height nd <= height node -> nodes xa' !! q = Some nd) /\
    (forall nd, nodes xa' !! n = Some nd -> forall i, 0 <= i -> Z.testbit (marks nd !!! m) i = if decide (i = off) then set else Z.testbit (marks node !!! m) i)).
Proof.
  intros Hs Hp Hn Hm Ho Hb Hr HE. pose proof (shape_node _ _ _ _ _ Hs Hp Hn) as Hok. pose proof (no_height _ _ _ _ _ Hok).
  destruct (update_mark_bit_spec xa pos n b node m off set Hs Hp Hn Hm Ho) as (v & Hu & Hv & Ht & Hid).
  unfold change_mark. rewrite Hu. cbn [mbind run_bind].
  destruct (Bool.eqb (Z.testbit (marks node !!! m) off) set) eqn:Ec; cbn [negb].
  - apply Bool.eqb_prop in Ec. rewrite (Hid Ec). apply returns_ret.
    split_and!; [reflexivity| |by intros q nd nd' m' ??; simplify_eq|done|].
    + intros q qb qn m' i H1 H2 H3 H4 H5. destruct (Hb q qb qn m' i H1 H2 H3 H4 H5) as [[?|(-> & -> & ->)]|?]; [by left| |by right].
      right. assert (qn = node) as -> by congruence. rewrite Ec. apply Hr. lia.
    + intros nd Hnd i Hi. assert (nd = node) as -> by congruence. by case_decide; subst.
  - pose proof (set_bit_bits xa pos E n b node m off set v Hs Hp Hn Hm Ho Hb Hr Ht) as Hb2.
    set (xa1 := with_node xa n (with_mark node m v)) in *.
    pose proof (with_mark_skel xa n node m v Hn Hv) as Hk1. fold xa1 in Hk1.
    assert (nodes xa1 !! n = Some (with_mark node m v)) as Hp1 by (unfold xa1; by rewrite lookup_with_node, decide_True).
    eapply returns_mono; [eapply (propagate_spec HEIGHTS xa1 pos E n b (with_mark node m v)); try done; [by eapply shape_skel|cbn; unfold HEIGHTS; lia]|].
    intros xa' (Hk & Hb3 & Hun & Hsm). cbn in Hun. split_and!; [by etrans|done| | |].
    + eapply same_marks_trans; [exact Hk1| |exact Hsm]. by apply with_mark_same_marks.
    + intros q nd Hq Hne Hl. apply Hun; [|done]. unfold xa1. by rewrite lookup_with_node, decide_False.
    + intros nd Hnd. rewrite (Hun n _ Hp1) in Hnd; [|done]. simplify_eq. intros i Hi. cbn.
      rewrite list_lookup_total_insert_eq by (by rewrite (no_marks _ _ _ _ _ Hok)). by apply Ht.
Qed.

(** The loops over all marks at one slot. *)
Definition rest_marks (n : nat) (off : Z) (j : nat) (q : nat) (i : Z) (m : nat) : Prop := q = n /\ i = off /\ (j <= m)%nat.

Definition bits_set xa' (n : nat) node (off : Z) (setf : nat -> bool) : Prop :=
  forall nd, nodes xa' !! n = Some nd -> forall m i, (m < NUM_MARKS)%nat -> 0 <= i ->
    Z.testbit (marks nd !!! m) i = if decide (i = off) then setf m else Z.testbit (marks node !!! m) i.

Definition others_kept xa xa' (n : nat) (h : Z) : Prop :=
  forall q nd, nodes xa !! q = Some nd -> q <> n -> height nd <= h -> nodes xa' !! q = Some nd.

Lemma all_marks_spec f xa pos n b node off setf : shape xa pos -> pos !! n = Some b -> nodes xa !! n = Some node -> 0 <= off < 64 ->
  bits_ok xa pos (rest_marks n off 0) -> (forall m, (m < NUM_MARKS)%nat -> right_bit xa node off m (setf m)) ->
  (forall xa' m, (m < NUM_MARKS)%nat -> skel xa xa' -> others_kept xa xa' n (height node) -> f xa' m = change_mark xa' n m off (setf m)) ->
  returns (foldl (fun acc i => xa ← acc; f xa i) (Ret xa) (seq 0 NUM_MARKS)) (fun xa' =>
    skel xa xa' /\ bits_ok xa' pos no_exception /\ others_kept xa xa' n (height node) /\ bits_set xa' n node off setf).
Proof.
  intros Hs Hp Hn Ho Hb Hr Hf. pose proof (shape_node _ _ _ _ _ Hs Hp Hn) as Hok.
  eapply returns_mono.
  { apply (returns_foldl f (fun j xa' => skel xa xa' /\ bits_ok xa' pos (rest_marks n off j) /\ others_kept xa xa' n (height node) /\
      (forall nd, nodes xa' !! n = Some nd -> forall m i, (m < NUM_MARKS)%nat -> 0 <= i ->
        Z.testbit (marks nd !!! m) i = if decide (i = off /\ (m < j)%nat) then setf m else Z.testbit (marks node !!! m) i))).
    { split_and!; [reflexivity|done|by intros ????|]. intros nd Hnd m i Hm Hi. simplify_eq. rewrite decide_False; [done|lia]. }
    intros j x xa1 Hx (Hk & Hb1 & Hot & Hst). apply lookup_seq in Hx as [-> Hj]. cbn [Nat.add].
    destruct (sk_to _ _ Hk _ _ Hn) as (nd & Hnd & Ep & Eh & Eo & Es & Em).
    rewrite (Hf xa1 j Hj Hk Hot). eapply returns_mono.
    { apply (change_mark_spec xa1 pos (rest_marks n off (S j)) n b nd j off (setf j)); try done; [by eapply shape_skel| | |].
      - intros q qb qn m i H1 H2 H3 H4 H5. destruct (Hb1 q qb qn m i H1 H2 H3 H4 H5) as [(-> & -> & Hle)|?]; [left|by right].
        destruct (decide (m = j)); [right; naive_solver|left; repeat split; lia].
      - intros Hh. rewrite Eh in Hh. rewrite (Hr j Hj Hh), Es.
        split; intros (c & cn & Hsl & Hcn & Hnz); destruct (no_child _ _ _ _ _ Hok _ _ Hsl) as (cn0 & Hcn0 & _ & _ & _ & Hch).
        all: assert (nodes xa1 !! c = Some cn0) as Hcn1 by (apply Hot; [done|intros ->; simplify_eq; lia|lia]).
        all: exists c, cn0; simplify_eq; done.
      - intros q i m' (_ & _ & Hle). lia. }
    intros xa2 (Hk2 & Hb2 & Hsm & Hot2 & Hbit). split_and!; [by etrans|done| |].
    - intros q qd Hq Hne Hl. apply Hot2; [by apply Hot|done|lia].
    - intros nd2 Hnd2 m i Hm Hi. destruct (decide (m = j)) as [->|Hne].
      + rewrite (Hbit nd2 Hnd2 i Hi), (Hst nd Hnd j i Hj Hi). repeat case_decide; try done; lia.
      + rewrite (Hsm n nd nd2 m Hnd Hnd2 Hne), (Hst nd Hnd m i Hm Hi). repeat case_decide; try done; lia. }
  intros xa' (Hk & Hb' & Hot & Hst). rewrite length_seq in *. split_and!; try done.
  - intros q qb qn m i H1 H2 H3 H4 H5. destruct (Hb' q qb qn m i H1 H2 H3 H4 H5) as [(_ & _ & Hle)|?]; [lia|by right].
  - intros nd Hnd m i Hm Hi. rewrite (Hst nd Hnd m i Hm Hi). repeat case_decide; try done; lia.
Qed.

(** ** Changes of slots *)

Lemma entry_with_lt node off : off < 64 -> entry_with node off = Ret (slots node !! off).
Proof. intros H. unfold entry_with. by rewrite (proj2 (Z.ltb_lt off SLOT_SIZE)). Qed.

Lemma clear_parent_childless xa n node : nodes xa !! n = Some node -> (forall i c, slots node !! i <> Some (Left c)) ->
  clear_parent xa n = Ret (with_node xa n (with_parent node None)).
Proof.
  intros Hn Hc. unfold clear_parent. change HEIGHTS with (S 10) at 1. cbn [clear_parent_at]. unfold get_node. rewrite Hn. cbn [unwrap mbind run_bind].
  assert (forall l, (forall i, i ∈ l -> i < 64) -> foldl (fun acc offset => xa ← acc; child ← entry_with node offset;
      match child ≫= entry_left with Some c => clear_parent_at 10 xa c | None => Ret xa end)
    (Ret (with_node xa n (with_parent node None))) l = Ret (with_node xa n (with_parent node None))) as Hl.
  { induction l as [|i l IH]; intros Hi; cbn [foldl]; [done|]. cbn [mbind run_bind].
    rewrite (entry_with_lt node i) by (apply Hi; by left). cbn [mbind run_bind].
    assert (forall j, j ∈ l -> j < 64) by (intros j Hj; apply Hi; by right).
    destruct (slots node !! i) as [[c|x]|] eqn:E; cbn [mbind option_bind entry_left]; [by destruct (Hc i c)|by apply IH..]. }
  apply Hl. intros i Hi. apply elem_of_seqZ in Hi. change SLOT_SIZE with 64 in Hi. lia.
Qed.

(** Two arrays with the same nodes at the same places. *)
Definition same_tree xa xa' : Prop := xa_head xa' = xa_head xa /\
  forall n a, nodes xa !! n = Some a -> exists b, nodes xa' !! n = Some b /\ height b = height a /\ parent b = parent a /\ offset_in_parent b = offset_in_parent a.

Lemma skel_same_tree xa xa' : skel xa xa' -> same_tree xa xa'.
Proof.
  intros Hk. split; [apply Hk|]. intros n a Ha. destruct (sk_to _ _ Hk _ _ Ha) as (b & Hb & ? & ? & ? & _). eauto 6.
Qed.

Lemma same_tree_trans x y z : same_tree x y -> same_tree y z -> same_tree x z.
Proof.
  intros [E1 H1] [E2 H2]. split; [by rewrite E2|]. intros n a Ha. destruct (H1 n a Ha) as (b & Hb & Eb1 & Eb2 & Eb3).
  destruct (H2 n b Hb) as (c & Hc & Ec1 & Ec2 & Ec3). exists c. by rewrite Ec1, Ec2, Ec3.
Qed.

Lemma leaf_childless xa pos n b node i c : shape xa pos -> pos !! n = Some b -> nodes xa !! n = Some node -> height node = 1 ->
  slots node !! i <> Some (Left c).
Proof.
  intros Hs Hp Hn Hh Hsl. pose proof (shape_node _ _ _ _ _ Hs Hp Hn) as Hok.
  destruct (no_child _ _ _ _ _ Hok _ _ Hsl) as (cn & Hcn & Hcp & _ & _ & Hch).
  pose proof (no_height _ _ _ _ _ (shape_node _ _ _ _ _ Hs Hcp Hcn)). lia.
Qed.

Lemma lookup_with_slot node off e i : slots (with_slot node off e) !! i = if decide (i = off) then e else slots node !! i.
Proof. cbn. case_decide; subst; [by rewrite lookup_partial_alter_eq|by rewrite lookup_partial_alter_ne]. Qed.

(** Storing items in a leaf keeps the shape. *)
Lemma leaf_slot_shape xa pos n b node off (e : option P) : shape xa pos -> pos !! n = Some b -> nodes xa !! n = Some node -> height node = 1 -> 0 <= off < 64 ->
  shape (with_node xa n (with_slot node off (Right <$> e))) pos.
Proof.
  intros Hs Hp Hn Hh Ho. pose proof Hs as [H1 H2 H3 H4].
  assert (forall q qn, nodes xa !! q = Some qn -> exists qn', nodes (with_node xa n (with_slot node off (Right <$> e))) !! q = Some qn' /\
    parent qn' = parent qn /\ height qn' = height qn /\ offset_in_parent qn' = offset_in_parent qn /\ marks qn' = marks qn /\
    (forall i c, slots qn !! i = Some (Left c) -> slots qn' !! i = Some (Left c)) /\
    (forall i y, slots qn' !! i = Some y -> slots qn !! i = Some y \/ q = n /\ i = off /\ exists x, y = Right x)) as Hto.
  { intros q qn Hq. rewrite lookup_with_node. destruct (decide (q = n)) as [->|]; [|exists qn; naive_solver].
    simplify_eq. eexists. split; [done|]. split_and!; try done.
    - intros i c Hsl. by destruct (leaf_childless _ _ _ _ _ i c Hs Hp Hn Hh).
    - intros i y. rewrite lookup_with_slot. case_decide; [|eauto]. destruct e; simpl; [|done]. naive_solver. }
  split; try done.
  - intros h Hhd. destruct (H1 h Hhd) as (Hpos & hn & Hhn & Hpar). split; [done|]. destruct (Hto _ _ Hhn) as (hn' & ? & Ep & _). exists hn'. by rewrite Ep.
  - intros q qb Hq. destruct (H3 q qb Hq) as (qn & Hqn & Hok). destruct (Hto _ _ Hqn) as (qn' & Hqn' & Ep & Eh & Eo & Em & Hl & Hsl).
    exists qn'. split; [done|]. destruct Hok as [G1 G2 G3 G4 G5 G6 G7 G8 G9]. split; rewrite ?Eh, ?Em, ?Ep, ?Eo; try done.
    + intros i y Hy. destruct (Hsl i y Hy) as [?|(-> & -> & _)]; [by eapply G6|done].
    + intros i x Hx. destruct (Hsl _ _ Hx) as [?|(-> & _)]; [by eapply G7|]. by simplify_eq.
    + intros i c Hc. destruct (Hsl _ _ Hc) as [Hc'|(_ & _ & x & ?)]; [|done].
      destruct (G8 i c Hc') as (cn & Hcn & Hcp & Hpar & Hoff & Hch). destruct (Hto _ _ Hcn) as (cn' & Hcn' & Ep' & Eh' & Eo' & _).
      exists cn'. by rewrite Ep', Eh', Eo'.
    + destruct (parent qn) as [p|]; [|done]. destruct G9 as (pn & pb & Hpn & Hpb & Hps). destruct (Hto _ _ Hpn) as (pn' & Hpn' & _ & _ & _ & _ & Hl' & _). eauto 6.
  - intros q qn. rewrite lookup_with_node. case_decide; subst; intros ?; simplify_eq; by eapply H4.
Qed.

Lemma leaf_slot_bits xa pos E n b node off (e : option P) : shape xa pos -> pos !! n = Some b -> nodes xa !! n = Some node -> height node = 1 ->
  bits_ok xa pos E -> bits_ok (with_node xa n (with_slot node off (Right <$> e))) pos E.
Proof.
  intros Hs Hp Hn Hh Hb q qb qn m i Hqp Hq Hqh Hm Hi. rewrite lookup_with_node in Hq. case_decide; simplify_eq; [cbn in Hqh; lia|].
  destruct (Hb q qb qn m i Hqp Hq Hqh Hm Hi) as [?|Hbit]; [by left|right]. rewrite Hbit.
  split; intros (c & cn & Hsl & Hcn & Hnz); exists c.
  - rewrite lookup_with_node. case_decide; subst; simplify_eq; eexists; split_and!; try done.
  - rewrite lookup_with_node in Hcn. case_decide; subst; simplify_eq; eauto.
Qed.

Lemma leaf_at xa pos n1 b1 node1 n2 b2 node2 k : shape xa pos ->
  pos !! n1 = Some b1 -> nodes xa !! n1 = Some node1 -> height node1 = 1 -> pos !! n2 = Some b2 -> nodes xa !! n2 = Some node2 -> height node2 = 1 ->
  0 <= k - b1 < 64 -> 0 <= k - b2 < 64 -> n1 = n2 /\ b1 = b2.
Proof.
  intros Hs Hp1 Hn1 Hh1 Hp2 Hn2 Hh2 H1 H2. assert (n1 = n2) as ->; [|by simplify_eq].
  eapply (cov_unique xa pos n1 b1 node1 n2 b2 node2 k); try done; [congruence|rewrite Hh1|rewrite Hh2]; unfold cov; change (span 1) with 64; lia.
Qed.

Section leaf_store.
Context xa pos (M : gmap Z P) (K : nat -> gset Z) (n : nat) (b : Z) node (off : Z) (e : option P).
Hypothesis (Hs : shape xa pos) (Hb : bits_ok xa pos no_exception) (Hc : contents xa pos M K).
Hypothesis (Hp : pos !! n = Some b) (Hn : nodes xa !! n = Some node) (Hh : height node = 1) (Ho : 0 <= off < 64).

Let node1 : XNode P := with_slot node off (Right <$> e).
Let xa1 : XArray P := with_node xa n node1.
Let setf (m : nat) : bool := (m =? PRESENT_MARK)%nat && is_some e.

Lemma leaf_store_node : nodes xa1 !! n = Some node1.
Proof. unfold xa1. by rewrite lookup_with_node, decide_True. Qed.

Lemma leaf_store_others xa' q qn : skel xa1 xa' -> others_kept xa1 xa' n 1 -> q <> n -> height qn = 1 -> nodes xa' !! q = Some qn <-> nodes xa !! q = Some qn.
Proof.
  intros Hk Hot Hne Hqh. assert (nodes xa1 !! q = nodes xa !! q) as E by (unfold xa1; by rewrite lookup_with_node, decide_False). split; intros Hq.
  - destruct (sk_from _ _ Hk _ _ Hq) as (q1 & Hq1 & _ & Eh & _). rewrite (Hot q q1 Hq1 Hne ltac:(lia)) in Hq. congruence.
  - apply Hot; [congruence|done|lia].
Qed.

Lemma leaf_store_items xa' k x : skel xa1 xa' -> others_kept xa1 xa' n 1 ->
  partial_alter (fun _ => e) (b + off) M !! k = Some x <->
  exists q qb qn, pos !! q = Some qb /\ nodes xa' !! q = Some qn /\ height qn = 1 /\ slots qn !! (k - qb) = Some (Right x).
Proof.
  intros Hk Hot. pose proof (leaf_slot_shape xa pos n b node off e Hs Hp Hn Hh Ho) as Hs1. fold node1 xa1 in Hs1.
  destruct (sk_to _ _ Hk _ _ leaf_store_node) as (nd & Hnd & _ & Eh & _ & Es & _). destruct (decide (k = b + off)) as [->|Hne].
  - rewrite lookup_partial_alter_eq. split.
    + intros ->. exists n, b, nd. rewrite Es, Eh. unfold node1. rewrite lookup_with_slot, decide_True by lia. done.
    + intros (q & qb & qn & Hq & Hqn & Hqh & Hsl). pose proof (no_slots _ _ _ _ _ (shape_node _ _ _ _ _ (shape_skel _ _ _ Hk Hs1) Hq Hqn) _ _ Hsl).
      assert (q = n) as -> by (eapply (leaf_at xa' pos q qb qn n b nd (b + off)); try done; [by eapply shape_skel|by rewrite Eh|lia]).
      simplify_eq. rewrite Es in Hsl. unfold node1 in Hsl. rewrite lookup_with_slot, decide_True in Hsl by lia. destruct e; simpl in Hsl; by simplify_eq.
  - rewrite lookup_partial_alter_ne by done. rewrite (ct_items _ _ _ _ Hc). split; intros (q & qb & qn & Hq & Hqn & Hqh & Hsl).
    all: destruct (decide (q = n)) as [->|Hqne]; [|exists q, qb, qn; split_and!; try done; by apply (leaf_store_others xa')].
    + simplify_eq. exists n, b, nd. rewrite Es, Eh. unfold node1. rewrite lookup_with_slot, decide_False by lia. done.
    + simplify_eq. exists n, b, node. split_and!; try done. rewrite Es in Hsl. unfold node1 in Hsl. rewrite lookup_with_slot in Hsl. case_decide; [lia|done].
Qed.

Lemma leaf_store_contents xa' : skel xa1 xa' -> others_kept xa1 xa' n 1 -> bits_set xa' n node1 off setf ->
  contents xa' pos (partial_alter (fun _ => e) (b + off) M) (fun m => K m ∖ {[b + off]}).
Proof.
  intros Hk Hot Hst. split.
  - intros k x. by apply leaf_store_items.
  - intros q qb qn m i Hq Hqn Hqh Hm Hi. destruct (decide (q = n)) as [->|Hqne].
    + simplify_eq. rewrite (Hst qn Hqn m i Hm ltac:(lia)). cbn [marks with_slot node1].
      pose proof (ct_marks _ _ _ _ Hc n b node m i Hp Hn Hh Hm Hi) as Hcm. unfold setf, keyset in *.
      destruct (decide (i = off)) as [->|Hio].
      * destruct (m =? PRESENT_MARK)%nat; cbn; [|split; [done|set_solver]]. rewrite elem_of_dom, lookup_partial_alter_eq. by destruct e.
      * rewrite Hcm. destruct (m =? PRESENT_MARK)%nat; [|rewrite elem_of_difference, elem_of_singleton; split; [intros; split; [done|lia]|naive_solver]].
        rewrite !elem_of_dom, lookup_partial_alter_ne by lia. done.
    + apply (leaf_store_others xa') in Hqn; [|done..]. rewrite (ct_marks _ _ _ _ Hc q qb qn m i Hq Hqn Hqh Hm Hi).
      assert (qb + i <> b + off) as Hdiff.
      { intros E. apply Hqne. eapply (leaf_at xa pos q qb qn n b node (b + off)); try done; lia. }
      unfold keyset. destruct (m =? PRESENT_MARK)%nat; [by rewrite !elem_of_dom, lookup_partial_alter_ne by done|set_solver].
  - intros m k Hk'. apply elem_of_difference in Hk' as [Hk' Hne]. rewrite elem_of_singleton in Hne.
    rewrite elem_of_dom, lookup_partial_alter_ne by done. apply elem_of_dom. by eapply ct_sub.
Qed.

(** [set_entry] on a leaf: the item [e] replaces the one at the index, and its marks are gone. *)
Lemma set_entry_leaf : returns (set_entry xa n off (Right <$> e)) (fun xa' =>
    shape xa' pos /\ bits_ok xa' pos no_exception /\ same_tree xa xa' /\
    contents xa' pos (partial_alter (fun _ => e) (b + off) M) (fun m => K m ∖ {[b + off]})).
Proof.
  unfold set_entry, get_node. rewrite Hn. cbn [unwrap mbind run_bind]. rewrite (entry_with_lt node off) by lia. cbn [mbind run_bind].
  assert (slots node !! off ≫= entry_left = None) as ->.
  { destruct (slots node !! off) as [[c|x]|] eqn:E; [|done..]. by destruct (leaf_childless _ _ _ _ _ off c Hs Hp Hn Hh). }
  cbn [mbind run_bind].
  assert (match (Right <$> e : option (XEntry P)) with Some (Left c) => xa ← set_parent xa c n; Ret (true, xa) | _ => Ret (false, xa) end = Ret (false, xa)) as -> by by destruct e.
  cbn [mbind run_bind]. rewrite Hn. cbn [unwrap mbind run_bind]. fold node1 xa1.
  pose proof (leaf_slot_shape xa pos n b node off e Hs Hp Hn Hh Ho) as Hs1. fold node1 xa1 in Hs1.
  eapply returns_mono.
  { apply (all_marks_spec _ xa1 pos n b node1 off setf); try done.
    - apply leaf_store_node.
    - intros q qb qn m i H1 H2 H3 H4 H5. right.
      destruct (leaf_slot_bits xa pos no_exception n b node off e Hs Hp Hn Hh Hb q qb qn m i H1 H2 H3 H4 H5) as [[]|?]; done.
    - intros m Hm Hlt. cbn in Hlt. lia.
    - intros xa' m Hm Hk _. unfold setf. destruct e; cbn [fmap option_fmap option_map is_some]; rewrite ?andb_true_r, ?andb_false_r; [|done].
      by destruct (m =? PRESENT_MARK)%nat. }
  intros xa' (Hk & Hb' & Hot & Hst). cbn [height with_slot node1] in Hot. rewrite Hh in Hot.
  assert (same_tree xa xa1) as Ht1.
  { split; [done|]. intros q a Ha. unfold xa1. rewrite lookup_with_node. case_decide; subst; simplify_eq; eauto 6. }
  split_and!; [by eapply shape_skel|done|by eapply same_tree_trans, skel_same_tree|by apply leaf_store_contents].
Qed.
End leaf_store.

(** ** A new child *)

Lemma pos_fresh xa pos : shape xa pos -> pos !! next_node xa = None /\ nodes xa !! next_node xa = None.
Proof.
  intros Hs. assert (nodes xa !! next_node xa = None) as Hn.
  { destruct (nodes xa !! next_node xa) as [node|] eqn:E; [|done]. apply (sh_fresh _ _ Hs) in E. lia. }
  split; [|done]. destruct (pos !! next_node xa) as [b|] eqn:E; [|done].
  destruct (sh_node _ _ Hs _ _ E) as (? & ? & _). congruence.
Qed.

(** The array after [c] was made a child of [n] and before the marks are brought up to date. *)
Definition attached xa (n : nat) node (off : Z) (c : nat) (child : XNode P) : XArray P :=
  with_node (with_node xa c (with_parent child (Some n))) n (with_slot node off (Some (Left c))).

Section attach.
Context xa pos (n : nat) (b : Z) node (off : Z).
Hypothesis (Hs : shape xa pos) (Hp : pos !! n = Some b) (Hn : nodes xa !! n = Some node).
Hypothesis (Hh : 1 < height node) (Ho : 0 <= off < 64) (Hfree : slots node !! off = None).

Let c : nat := next_node xa.
Let cb : Z := b + off * span (height node - 1).
Let child : XNode P := XNode_new (height node - 1) off.
Let xa0 : XArray P := snd (alloc_node xa child).
Let xa1 : XArray P := attached xa0 n node off c child.

Lemma attach_ne : n <> c.
Proof. intros E. destruct (pos_fresh _ _ Hs) as [_ H]. fold c in H. congruence. Qed.

Lemma attach_nodes q : nodes xa1 !! q =
  if decide (q = n) then Some (with_slot node off (Some (Left c))) else
  if decide (q = c) then Some (with_parent child (Some n)) else nodes xa !! q.
Proof.
  unfold xa1, attached. rewrite lookup_with_node. case_decide; [done|]. rewrite lookup_with_node. case_decide; [done|].
  unfold xa0, alloc_node. cbn. fold c. by rewrite lookup_insert_ne.
Qed.

Lemma attach_child_ok : node_ok xa1 (<[c := cb]> pos) c cb (with_parent child (Some n)).
Proof.
  pose proof (shape_node _ _ _ _ _ Hs Hp Hn) as Hok. pose proof (no_height _ _ _ _ _ Hok) as Hht.
  pose proof (no_range _ _ _ _ _ Hok) as Hr. pose proof (no_align _ _ _ _ _ Hok) as Ha.
  pose proof (span_step (height node) ltac:(lia)) as Es. pose proof (span_gt0 (height node - 1) ltac:(lia)) as Hpos.
  pose proof attach_ne as Hne. unfold cb. split; cbn -[span Z.mul Z.add].
  - lia.
  - done.
  - repeat constructor; unfold is_bitmap; lia.
  - nia.
  - rewrite Z.mod_add by lia. apply Z.mod_divide; [lia|]. apply Z.mod_divide in Ha; [|lia]. etrans; [|exact Ha]. exists 64. lia.
  - done.
  - done.
  - done.
  - eexists _, b. rewrite attach_nodes, decide_True by done. split; [done|]. rewrite lookup_insert_ne by done. split; [done|].
    by rewrite lookup_with_slot, decide_True.
Qed.

Lemma attach_shape : shape xa1 (<[c := cb]> pos).
Proof.
  pose proof (pos_fresh _ _ Hs) as [Hpf Hnf]. fold c in Hpf, Hnf. pose proof attach_ne as Hne.
  assert (forall q qn, nodes xa !! q = Some qn -> exists qn', nodes xa1 !! q = Some qn' /\ q <> c /\ parent qn' = parent qn /\ height qn' = height qn /\
    offset_in_parent qn' = offset_in_parent qn /\ marks qn' = marks qn /\ (forall i e, slots qn !! i = Some e -> slots qn' !! i = Some e) /\
    (forall i e, slots qn' !! i = Some e -> slots qn !! i = Some e \/ q = n /\ i = off /\ e = Left c)) as Hto.
  { intros q qn Hq. rewrite attach_nodes. destruct (decide (q = n)) as [->|Hqn].
    - simplify_eq. eexists. split_and!; try done; intros i e; rewrite lookup_with_slot; case_decide; naive_solver.
    - assert (q <> c) by congruence. rewrite decide_False by done. exists qn. naive_solver. }
  pose proof Hs as [H1 H2 H3 H4]. split.
  - intros h Hhd. destruct (H1 h Hhd) as (Hpos & hn & Hhn & Hpar). destruct (Hto _ _ Hhn) as (hn' & Hhn' & Hhc & Ep & _).
    split; [by rewrite lookup_insert_ne|]. exists hn'. by rewrite Ep.
  - intros E. rewrite (H2 E) in Hp. done.
  - intros q qb Hq. destruct (decide (q = c)) as [->|Hqc].
    { rewrite lookup_insert_eq in Hq. injection Hq as <-. eexists. split; [by rewrite attach_nodes, decide_False, decide_True|apply attach_child_ok]. }
    rewrite lookup_insert_ne in Hq by done. destruct (H3 q qb Hq) as (qn & Hqn & Hqok).
    destruct (Hto _ _ Hqn) as (qn' & Hqn' & _ & Ep & Eh & Eo & Em & Hl & Hsl). exists qn'. split; [done|].
    destruct Hqok as [G1 G2 G3 G4 G5 G6 G7 G8 G9]. split; rewrite ?Eh, ?Em, ?Ep, ?Eo; try done.
    + intros i e He. destruct (Hsl i e He) as [?|(-> & -> & _)]; [by eapply G6|done].
    + intros i x Hx. destruct (Hsl _ _ Hx) as [?|(_ & _ & ?)]; [by eapply G7|done].
    + intros i d Hd. destruct (Hsl _ _ Hd) as [Hd'|(-> & -> & E)].
      * destruct (G8 i d Hd') as (dn & Hdn & Hdp & Hpar & Hoff & Hdh). destruct (Hto _ _ Hdn) as (dn' & Hdn' & Hdc & Ep' & Eh' & Eo' & _).
        exists dn'. rewrite Ep', Eh', Eo', lookup_insert_ne by done. done.
      * injection E as ->. assert (qn = node) as -> by congruence. assert (qb = b) as -> by congruence.
        eexists. rewrite attach_nodes, decide_False, decide_True, lookup_insert_eq by done. done.
    + destruct (parent qn) as [p|]; [|done]. destruct G9 as (pn & pb & Hpn & Hpb & Hps).
      destruct (Hto _ _ Hpn) as (pn' & Hpn' & Hpc & _ & _ & _ & _ & Hl' & _). exists pn', pb. rewrite lookup_insert_ne by done. eauto.
  - intros q qn. rewrite attach_nodes. unfold xa1, attached, xa0. cbn. fold c. repeat case_decide; subst; intros ?; simplify_eq; [|lia|].
    all: match goal with H : nodes xa !! _ = Some _ |- _ => apply H4 in H; fold c in H; lia end.
Qed.

Lemma attach_bits : bits_ok xa pos no_exception -> bits_ok xa1 (<[c := cb]> pos) (rest_marks n off 0).
Proof.
  intros Hb q qb qn m i Hqp Hq Hqh Hm Hi. pose proof (pos_fresh _ _ Hs) as [Hpf Hnf]. fold c in Hpf, Hnf. pose proof attach_ne as Hne.
  destruct (decide (q = c)) as [->|Hqc].
  { rewrite lookup_insert_eq in Hqp. rewrite attach_nodes, decide_False, decide_True in Hq by done. injection Hq as <-. right. cbn.
    rewrite lookup_empty. assert (Z.testbit ([0; 0; 0; 0] !!! m) i = false) as ->.
    { unfold NUM_MARKS in *. do 4 (destruct m as [|m]; [apply Z.bits_0|]). lia. }
    split; [done|naive_solver]. }
  rewrite lookup_insert_ne in Hqp by done.
  assert (exists q0, nodes xa !! q = Some q0 /\ marks qn = marks q0 /\ height qn = height q0 /\ (q = n /\ i = off \/ slots qn !! i = slots q0 !! i)) as (q0 & Hq0 & Em & Eh & Es).
  { rewrite attach_nodes in Hq. destruct (decide (q = n)) as [->|Hqn]; simplify_eq.
    - exists node. split_and!; try done. rewrite lookup_with_slot. case_decide; naive_solver.
    - rewrite decide_False in Hq by done. eauto 6. }
  destruct Es as [[-> ->]|Es]; [left; unfold rest_marks; naive_solver lia|right]. rewrite Em, Es.
  destruct (Hb q qb q0 m i Hqp Hq0 ltac:(lia) Hm Hi) as [[]|Hbit]. rewrite Hbit.
  assert (forall d dn, nodes xa !! d = Some dn -> exists dn', nodes xa1 !! d = Some dn' /\ marks dn' = marks dn) as Hto.
  { intros d dn Hd. rewrite attach_nodes. case_decide; subst; simplify_eq; [eauto|]. case_decide; subst; [congruence|eauto]. }
  split; intros (d & dn & Hsl & Hd & Hnz); exists d.
  - destruct (Hto d dn Hd) as (dn' & Hd' & Emd). exists dn'. by rewrite Emd.
  - destruct (no_child _ _ _ _ _ (shape_node _ _ _ _ _ Hs Hqp Hq0) _ _ Hsl) as (dn0 & Hdn0 & _). destruct (Hto d dn0 Hdn0) as (dn' & Hd' & Emd).
    simplify_eq. exists dn0. by rewrite <- Emd.
Qed.

(** No item lies below the free slot. *)
Lemma attach_no_items M K k : contents xa pos M K -> cov (height node - 1) cb k -> k ∉ dom M.
Proof.
  intros Hc Hk Hd. destruct (item_leaf _ _ _ _ _ Hs Hc Hd) as (l & lb & ln & Hlp & Hln & Hlh & Hlc).
  pose proof (shape_node _ _ _ _ _ Hs Hp Hn) as Hok. pose proof (no_height _ _ _ _ _ Hok).
  assert (cov (height node) b k) as Hcov by (eapply cov_slot; [lia|exact Ho|exact Hk]).
  destruct (cov_child xa pos n b node l lb ln k) as (d & Hd'); try done; [lia|by rewrite Hlh|].
  destruct (height_offset_at (height node) b k) as [_ Hat]; [lia|by eapply no_align|done|].
  assert (height_offset (height node) k = off) as E by (eapply offset_unique; [|exact Hat|exact Hk]; apply span_gt0; lia). congruence.
Qed.

Lemma attach_contents xa' M K : contents xa pos M K -> skel xa1 xa' -> others_kept xa1 xa' n (height node) -> contents xa' (<[c := cb]> pos) M K.
Proof.
  intros Hc Hk Hot. pose proof (pos_fresh _ _ Hs) as [Hpf Hnf]. fold c in Hpf, Hnf. pose proof attach_ne as Hne.
  assert (forall q qb qn, pos !! q = Some qb -> nodes xa !! q = Some qn -> height qn = 1 -> nodes xa' !! q = Some qn /\ q <> c) as Hto.
  { intros q qb qn Hq Hqn Hqh. assert (q <> c) by congruence. assert (q <> n) by (intros ->; simplify_eq; lia).
    split; [|done]. apply Hot; [by rewrite attach_nodes, !decide_False|done|lia]. }
  assert (forall q qb qn, <[c := cb]> pos !! q = Some qb -> nodes xa' !! q = Some qn -> height qn = 1 ->
    pos !! q = Some qb /\ nodes xa !! q = Some qn \/ q = c /\ qb = cb /\ height node - 1 = 1 /\ slots qn = ∅ /\ marks qn = replicate NUM_MARKS 0) as Hfrom.
  { intros q qb qn Hq Hqn Hqh. destruct (decide (q = c)) as [->|Hqc].
    - rewrite lookup_insert_eq in Hq. injection Hq as <-. right.
      pose proof (no_height _ _ _ _ _ (shape_node _ _ _ _ _ Hs Hp Hn)).
      assert (nodes xa' !! c = Some (with_parent child (Some n))) as Hc' by (apply Hot; [by rewrite attach_nodes, decide_False, decide_True|done|cbn; lia]).
      rewrite Hc' in Hqn. injection Hqn as <-. done.
    - rewrite lookup_insert_ne in Hq by done. left. split; [done|]. destruct (sh_node _ _ Hs _ _ Hq) as (q0 & Hq0 & _).
      destruct (sk_from _ _ Hk _ _ Hqn) as (q1 & Hq1 & _ & Eh & _). rewrite attach_nodes in Hq1.
      destruct (decide (q = n)) as [->|Hqn']; [injection Hq1 as <-; cbn in Eh; lia|]. rewrite decide_False in Hq1 by done.
      assert (nodes xa' !! q = Some q1) by (eapply Hto; [exact Hq|exact Hq1|lia]). congruence. }
  split.
  - intros k x. rewrite (ct_items _ _ _ _ Hc). split; intros (q & qb & qn & Hq & Hqn & Hqh & Hsl).
    + destruct (Hto _ _ _ Hq Hqn Hqh) as [Hqn' Hqc]. exists q, qb, qn. by rewrite lookup_insert_ne.
    + destruct (Hfrom _ _ _ Hq Hqn Hqh) as [[? ?]|(-> & -> & Hh1 & Es & Em)]; [by exists q, qb, qn|]. by rewrite Es, lookup_empty in Hsl.
  - intros q qb qn m i Hq Hqn Hqh Hm Hi. destruct (Hfrom _ _ _ Hq Hqn Hqh) as [[? ?]|(-> & -> & Hh1 & _ & Em)]; [by eapply ct_marks|].
    rewrite Em. assert (Z.testbit (replicate NUM_MARKS 0 !!! m) i = false) as ->.
    { unfold NUM_MARKS in *. do 4 (destruct m as [|m]; [apply Z.bits_0|]). lia. }
    split; [done|]. intros Hin. exfalso. eapply attach_no_items; [exact Hc| |by eapply keyset_dom].
    rewrite Hh1. unfold cov. change (span 1) with 64. lia.
  - apply (ct_sub _ _ _ _ Hc).
Qed.

Lemma set_entry_attach M K : bits_ok xa pos no_exception -> contents xa pos M K ->
  returns (set_entry xa0 n off (Some (Left c))) (fun xa' =>
    shape xa' (<[c := cb]> pos) /\ bits_ok xa' (<[c := cb]> pos) no_exception /\ contents xa' (<[c := cb]> pos) M K /\ same_tree xa xa' /\
    (exists cn, nodes xa' !! c = Some cn /\ height cn = height node - 1) /\
    (exists nn, nodes xa' !! n = Some nn /\ slots nn !! off = Some (Left c))).
Proof.
  intros Hb Hc. pose proof attach_ne as Hne. pose proof (pos_fresh _ _ Hs) as [Hpf Hnf]. fold c in Hpf, Hnf.
  assert (nodes xa0 !! n = Some node) as Hn0 by (unfold xa0, alloc_node; cbn; fold c; by rewrite lookup_insert_ne).
  assert (nodes xa0 !! c = Some child) as Hc0 by (unfold xa0, alloc_node; cbn; fold c; by rewrite lookup_insert_eq).
  unfold set_entry, set_parent, get_node. rewrite Hn0. cbn [unwrap mbind run_bind].
  rewrite (entry_with_lt node off) by lia. cbn [mbind run_bind]. rewrite Hfree. cbn [mbind option_bind run_bind].
  rewrite Hc0. cbn [unwrap mbind run_bind]. rewrite lookup_with_node, decide_False by done. rewrite Hn0. cbn [unwrap mbind run_bind].
  change (with_node _ n _) with xa1. unfold update_mark, get_node.
  assert (nodes xa1 !! n = Some (with_slot node off (Some (Left c)))) as Hn1 by by rewrite attach_nodes, decide_True.
  assert (nodes xa1 !! c = Some (with_parent child (Some n))) as Hc1 by by rewrite attach_nodes, decide_False, decide_True.
  rewrite Hn1. cbn [unwrap mbind run_bind]. rewrite (entry_with_lt _ off) by lia. cbn [mbind run_bind].
  rewrite lookup_with_slot, decide_True by done. cbn [mbind option_bind entry_left].
  eapply returns_mono.
  { eapply (all_marks_spec _ xa1 (<[c := cb]> pos) n b (with_slot node off (Some (Left c))) off (fun _ => false)); try done.
    - apply attach_shape.
    - by rewrite lookup_insert_ne.
    - by apply attach_bits.
    - intros m Hm _. split; [done|]. intros (d & dn & Hsl & Hd & Hnz). rewrite lookup_with_slot, decide_True in Hsl by done. injection Hsl as <-.
      rewrite Hc1 in Hd. injection Hd as <-. exfalso. apply Hnz. cbn. unfold NUM_MARKS in *. by do 4 (destruct m as [|m]; [done|]); lia.
    - intros xa' m Hm Hk Hot. cbn [height with_slot] in Hot.
      assert (nodes xa' !! c = Some (with_parent child (Some n))) as -> by (apply Hot; [done|done|cbn; lia]). cbn [unwrap mbind run_bind].
      assert (is_mark_clear (with_parent child (Some n)) m = true) as ->; [|done].
      unfold is_mark_clear. cbn. unfold NUM_MARKS in *. by do 4 (destruct m as [|m]; [done|]); lia. }
  cbn [height with_slot]. intros xa' (Hk & Hb' & Hot & _). split_and!.
  - eapply shape_skel; [exact Hk|apply attach_shape].
  - done.
  - by apply attach_contents.
  - eapply same_tree_trans; [|by apply skel_same_tree]. split; [done|]. intros q a Ha. rewrite attach_nodes.
    case_decide; [subst; simplify_eq; eauto 6|]. rewrite decide_False by congruence. eauto 6.
  - destruct (sk_to _ _ Hk _ _ Hc1) as (cn & Hcn & _ & Eh & _). eauto.
  - destruct (sk_to _ _ Hk _ _ Hn1) as (nn & Hnn & _ & _ & _ & Es & _). exists nn. by rewrite Es, lookup_with_slot, decide_True.
Qed.

End attach.

(** ** Removing an empty child *)

Section detach.
Context xa pos (p : nat) (pb : Z) (pn : XNode P) (off : Z) (cur : nat) (cn : XNode P).
Hypothesis (Hs : shape xa pos) (Hp : pos !! p = Some pb) (Hpn : nodes xa !! p = Some pn).
Hypothesis (Hsl : slots pn !! off = Some (Left cur)) (Hcn : nodes xa !! cur = Some cn) (Hempty : slots cn = ∅).

Let xa1 : XArray P := with_node (with_node xa cur (with_parent cn None)) p (with_slot pn off None).

Lemma detach_facts : 0 <= off < 64 /\ pos !! cur = Some (pb + off * span (height pn - 1)) /\ parent cn = Some p /\ offset_in_parent cn = off /\
  height cn = height pn - 1 /\ cur <> p /\ 1 < height pn /\ hd <> Some cur.
Proof.
  pose proof (shape_node _ _ _ _ _ Hs Hp Hpn) as Hok. pose proof (no_slots _ _ _ _ _ Hok _ _ Hsl).
  destruct (no_child _ _ _ _ _ Hok _ _ Hsl) as (cn' & Hcn' & Hcp & Hpar & Hoff & Hch). assert (cn' = cn) as -> by congruence.
  pose proof (no_height _ _ _ _ _ (shape_node _ _ _ _ _ Hs Hcp Hcn)). pose proof (no_height _ _ _ _ _ Hok).
  assert (cur <> p) by (intros E; rewrite E in Hcn; assert (cn = pn) by congruence; subst cn; lia).
  assert (hd <> Some cur) by (intros E; destruct (sh_head _ _ Hs _ E) as (_ & hn & Hhn & Hhp); congruence).
  split_and!; done || lia.
Qed.

Lemma detach_nodes q : nodes xa1 !! q =
  if decide (q = p) then Some (with_slot pn off None) else
  if decide (q = cur) then Some (with_parent cn None) else nodes xa !! q.
Proof. unfold xa1. rewrite lookup_with_node. case_decide; [done|]. by rewrite lookup_with_node. Qed.

(** The nodes that stay. *)
Lemma detach_node q qn : q <> cur -> nodes xa !! q = Some qn -> exists qn', nodes xa1 !! q = Some qn' /\ parent qn' = parent qn /\
  height qn' = height qn /\ offset_in_parent qn' = offset_in_parent qn /\ marks qn' = marks qn /\
  (forall i, slots qn' !! i = if decide (q = p /\ i = off) then None else slots qn !! i).
Proof.
  intros Hq Hqn. rewrite detach_nodes. destruct (decide (q = p)) as [->|Hne].
  - assert (qn = pn) as -> by congruence. eexists. split_and!; try done. intros i. rewrite lookup_with_slot. repeat case_decide; naive_solver.
  - rewrite decide_False by done. exists qn. split_and!; try done. intros i. rewrite decide_False; naive_solver.
Qed.

(** Only one slot points to the child. *)
Lemma detach_slot q qb qn i d : pos !! q = Some qb -> nodes xa !! q = Some qn -> slots qn !! i = Some (Left d) -> ~ (q = p /\ i = off) -> d <> cur.
Proof.
  intros Hq Hqn Hd Hne ->. destruct (no_child _ _ _ _ _ (shape_node _ _ _ _ _ Hs Hq Hqn) _ _ Hd) as (d' & Hd' & _ & Hpar & Ho & _).
  destruct detach_facts as (_ & _ & Hpar' & Ho' & _). assert (d' = cn) as -> by congruence. apply Hne. split; congruence.
Qed.

Lemma detach_shape : shape xa1 (delete cur pos).
Proof.
  destruct detach_facts as (Ho & Hcp & Hpar & Hoff & Hch & Hne & Hph & Hhd). pose proof Hs as [H1 H2 H3 H4]. split.
  - intros h Hh. destruct (H1 h Hh) as (Hpos & hn & Hhn & Hhp). assert (h <> cur) by congruence.
    rewrite lookup_delete_ne by done. split; [done|]. destruct (detach_node h hn) as (hn' & Hhn' & Ep & _); [done..|]. exists hn'. by rewrite Ep.
  - intros E. rewrite (H2 E) in Hp. done.
  - intros q qb Hq. apply lookup_delete_Some in Hq as [Hqc Hq]. destruct (H3 q qb Hq) as (qn & Hqn & Hok).
    destruct (detach_node q qn) as (qn' & Hqn' & Ep & Eh & Eo & Em & Hsl'); [done..|]. exists qn'. split; [done|].
    destruct Hok as [G1 G2 G3 G4 G5 G6 G7 G8 G9]. split; rewrite ?Eh, ?Em, ?Ep, ?Eo; try done.
    + intros i e. rewrite Hsl'. destruct (decide (q = p /\ i = off)); [intros [=]|apply G6].
    + intros i x. rewrite Hsl'. destruct (decide (q = p /\ i = off)); [intros [=]|apply G7].
    + intros i d. rewrite Hsl'. destruct (decide (q = p /\ i = off)) as [|Hd]; [intros [=]|]. intros Hd'. pose proof (detach_slot _ _ _ _ _ Hq Hqn Hd' Hd) as Hdc.
      destruct (G8 i d Hd') as (dn & Hdn & Hdp & Hdpar & Hdo & Hdh). destruct (detach_node d dn) as (dn' & Hdn' & Ep' & Eh' & Eo' & _); [done..|].
      exists dn'. rewrite Ep', Eh', Eo', lookup_delete_ne by done. done.
    + destruct (parent qn) as [r|] eqn:Er; [|done]. destruct G9 as (rn & rb & Hrn & Hrb & Hrs).
      assert (r <> cur). { intros ->. assert (rn = cn) as -> by congruence. by rewrite Hempty, lookup_empty in Hrs. }
      destruct (detach_node r rn) as (rn' & Hrn' & _ & _ & _ & _ & Hsr); [done..|]. exists rn', rb. rewrite lookup_delete_ne by done.
      split_and!; try done. rewrite Hsr, decide_False; [done|]. intros [-> Er']. rewrite Er' in Hrs. congruence.
  - intros q qn. rewrite detach_nodes. change (next_node xa1) with (next_node xa).
    destruct (decide (q = p)) as [->|]; [intros _; exact (H4 p pn Hpn)|].
    destruct (decide (q = cur)) as [->|]; [intros _; exact (H4 cur cn Hcn)|apply H4].
Qed.

Lemma detach_bits : bits_ok xa pos no_exception -> bits_ok xa1 (delete cur pos) (rest_marks p off 0).
Proof.
  intros Hb q qb qn' m i Hq Hqn' Hqh Hm Hi. apply lookup_delete_Some in Hq as [Hqc Hq]. destruct (sh_node _ _ Hs _ _ Hq) as (qn & Hqn & _).
  destruct (detach_node q qn) as (qn2 & E & Ep & Eh & Eo & Em & Hsl'); [done..|]. assert (qn2 = qn') as -> by congruence.
  destruct (decide (q = p /\ i = off)) as [[-> ->]|Hne]; [left; unfold rest_marks; naive_solver lia|right].
  rewrite Hsl', decide_False, Em by done. destruct (Hb q qb qn m i Hq Hqn ltac:(lia) Hm Hi) as [[]|Hbit]. rewrite Hbit.
  split; intros (d & dn & Hd & Hdn & Hnz); exists d; pose proof (detach_slot _ _ _ _ _ Hq Hqn Hd Hne) as Hdc.
  - destruct (detach_node d dn) as (dn' & Hdn' & _ & _ & _ & Emd & _); [done..|]. exists dn'. by rewrite Emd.
  - destruct (no_child _ _ _ _ _ (shape_node _ _ _ _ _ Hs Hq Hqn) _ _ Hd) as (d0 & Hd0 & _).
    destruct (detach_node d d0) as (dn' & Hdn' & _ & _ & _ & Emd & _); [done..|]. exists d0. assert (dn' = dn) as -> by congruence. by rewrite <- Emd.
Qed.

Lemma detach_contents xa' M K : contents xa pos M K -> skel xa1 xa' -> others_kept xa1 xa' p (height pn) -> contents xa' (delete cur pos) M K.
Proof.
  intros Hc Hk Hot. destruct detach_facts as (Ho & Hcp & Hpar & Hoff & Hch & Hne & Hph & Hhd).
  assert (forall q qb qn, pos !! q = Some qb -> nodes xa !! q = Some qn -> height qn = 1 -> q <> cur -> nodes xa' !! q = Some qn) as Hto.
  { intros q qb qn Hq Hqn Hqh Hqc. assert (q <> p) by (intros ->; assert (qn = pn) as -> by congruence; lia).
    apply Hot; [by rewrite detach_nodes, !decide_False|done|lia]. }
  assert (forall q qb qn, delete cur pos !! q = Some qb -> nodes xa' !! q = Some qn -> height qn = 1 ->
    pos !! q = Some qb /\ nodes xa !! q = Some qn /\ q <> cur) as Hfrom.
  { intros q qb qn Hq Hqn Hqh. apply lookup_delete_Some in Hq as [Hqc Hq]. split_and!; [done| |done].
    destruct (sh_node _ _ Hs _ _ Hq) as (q0 & Hq0 & _). destruct (sk_from _ _ Hk _ _ Hqn) as (q1 & Hq1 & _ & Eh & _).
    rewrite detach_nodes in Hq1. destruct (decide (q = p)) as [->|Hqp]; [injection Hq1 as <-; cbn in Eh; lia|].
    rewrite decide_False in Hq1 by done. assert (nodes xa' !! q = Some q1) by (eapply Hto; [exact Hq|done|lia|done]). congruence. }
  split.
  - intros k x. rewrite (ct_items _ _ _ _ Hc). split; intros (q & qb & qn & Hq & Hqn & Hqh & Hx).
    + assert (q <> cur). { intros ->. assert (qn = cn) as -> by congruence. by rewrite Hempty, lookup_empty in Hx. }
      exists q, qb, qn. rewrite lookup_delete_ne by done. split_and!; try done. by eapply Hto.
    + destruct (Hfrom _ _ _ Hq Hqn Hqh) as (? & ? & _). by exists q, qb, qn.
  - intros q qb qn m i Hq Hqn Hqh Hm Hi. destruct (Hfrom _ _ _ Hq Hqn Hqh) as (? & ? & _). by eapply ct_marks.
  - apply (ct_sub _ _ _ _ Hc).
Qed.

Lemma set_entry_detach M K : bits_ok xa pos no_exception -> contents xa pos M K ->
  returns (set_entry xa p off None) (fun xa' =>
    shape xa' (delete cur pos) /\ bits_ok xa' (delete cur pos) no_exception /\ contents xa' (delete cur pos) M K /\ xa_head xa' = xa_head xa /\
    (forall q qn, nodes xa !! q = Some qn -> exists qn', nodes xa' !! q = Some qn' /\ height qn' = height qn) /\
    (exists pn', nodes xa' !! p = Some pn' /\ slots pn' !! off = None)).
Proof.
  intros Hb Hc. destruct detach_facts as (Ho & Hcp & Hpar & Hoff & Hch & Hne & Hph & Hhd).
  unfold set_entry, get_node. rewrite Hpn. cbn [unwrap mbind run_bind]. rewrite (entry_with_lt pn off) by lia. cbn [mbind run_bind].
  rewrite Hsl. cbn [mbind option_bind entry_left]. rewrite (clear_parent_childless xa cur cn) by (done || intros i c; by rewrite Hempty, lookup_empty).
  cbn [mbind run_bind]. rewrite lookup_with_node, decide_False by done. rewrite Hpn. cbn [unwrap mbind run_bind].
  change (with_node _ p _) with xa1.
  assert (nodes xa1 !! p = Some (with_slot pn off None)) as Hp1 by by rewrite detach_nodes, decide_True.
  eapply returns_mono.
  { eapply (all_marks_spec _ xa1 (delete cur pos) p pb (with_slot pn off None) off (fun _ => false)); try done.
    - apply detach_shape.
    - by rewrite lookup_delete_ne.
    - by apply detach_bits.
    - intros m Hm _. split; [done|]. intros (d & dn & Hd & _). by rewrite lookup_with_slot, decide_True in Hd.
    - intros xa' m Hm Hk _. by rewrite andb_false_r. }
  cbn [height with_slot]. intros xa' (Hk & Hb' & Hot & _). split_and!.
  - eapply shape_skel; [exact Hk|apply detach_shape].
  - done.
  - by apply detach_contents.
  - by rewrite (sk_head _ _ Hk).
  - intros q qn Hq. assert (exists q1, nodes xa1 !! q = Some q1 /\ height q1 = height qn) as (q1 & Hq1 & Eh1).
    { rewrite detach_nodes. repeat case_decide; subst; eexists; (split; [done|]); cbn; congruence. }
    destruct (sk_to _ _ Hk _ _ Hq1) as (qn' & Hqn' & _ & Eh & _). exists qn'. split; [done|congruence].
  - destruct (sk_to _ _ Hk _ _ Hp1) as (pn' & Hpn' & _ & _ & _ & Es & _). exists pn'. by rewrite Es, lookup_with_slot, decide_True.
Qed.

End detach.

End shape.
