(* ===== verification/XArrayMap.v ===== *)
(** * The sparse array as a map

    The operations of [XArray.v] on arrays that represent a map: cursors, searches, stores, removals and
    marks.  Every operation returns and does what it does on the map; [xarray_refines_map] puts this
    together for programs. *)

From S2P Require Import Prelude XArray XArrayTree.

(** ** Arrays that represent a map, and their cursors *)

Section repr.
Context {P : Type}.
Implicit Types (xa : XArray P) (pos : gmap nat Z) (node : XNode P) (M : gmap Z P) (K : nat -> gset Z) (c : Cursor).

(** The array holds the items [M] and the marks [K], up to nodes around [k] that may be empty. *)
Record repr_except xa pos M K (k : Z) : Prop := {
  re_shape : shape (xa_head xa) xa pos;
  re_bits : bits_ok xa pos no_exception;
  re_contents : contents xa pos M K;
  re_full : full_except xa pos M k
}.

Record repr xa pos M K : Prop := {
  rp_shape : shape (xa_head xa) xa pos;
  rp_bits : bits_ok xa pos no_exception;
  rp_contents : contents xa pos M K;
  rp_full : full xa pos M
}.

Definition leaf_node xa pos (n : nat) (b : Z) node : Prop := pos !! n = Some b /\ nodes xa !! n = Some node /\ height node = 1.

(** An active cursor is at the slot of its index. *)
Definition cursor_ok xa pos c : Prop :=
  0 <= index c < u64_modulus /\
  match state c with
  | Inactive => True
  | AtNode n off => exists b node, leaf_node xa pos n b node /\ 0 <= off < 64 /\ index c = b + off
  end.

(** A cursor on its way down. *)
Definition at_target xa pos (k : Z) (st : CursorState) : Prop :=
  exists n b node, st = AtNode n (height_offset (height node) k) /\ pos !! n = Some b /\ nodes xa !! n = Some node /\ cov (height node) b k.

Definition no_leaf xa pos (k : Z) : Prop := forall n b node, leaf_node xa pos n b node -> ~ cov 1 b k.

Definition state_height xa (st : CursorState) : nat :=
  match st with AtNode n _ => match nodes xa !! n with Some node => Z.to_nat (height node) | None => 0 end | Inactive => 0 end.

Definition landed xa pos (k : Z) c : Prop := index c = k /\ cursor_ok xa pos c /\ (state c = Inactive -> no_leaf xa pos k).

Lemma cov_offset hd xa pos n b node k : shape hd xa pos -> pos !! n = Some b -> nodes xa !! n = Some node -> cov (height node) b k ->
  0 <= height_offset (height node) k < 64 /\ cov (height node - 1) (b + height_offset (height node) k * span (height node - 1)) k.
Proof.
  intros Hs Hp Hn Hc. pose proof (shape_node _ _ _ _ _ _ Hs Hp Hn) as Hok. apply height_offset_at; [apply Hok|by eapply no_align|done].
Qed.

Lemma leaf_offset hd xa pos n b node k : shape hd xa pos -> leaf_node xa pos n b node -> cov 1 b k ->
  0 <= height_offset (height node) k < 64 /\ k = b + height_offset (height node) k.
Proof.
  intros Hs (Hp & Hn & Hh) Hc. destruct (cov_offset hd xa pos n b node k) as [Ho Hat]; try done; [by rewrite Hh|]. split; [done|].
  rewrite Hh in Hat |- *. unfold cov in Hat. change (span (1 - 1)) with 1 in Hat. lia.
Qed.

Lemma cov_bound hd xa pos n b node k : shape hd xa pos -> pos !! n = Some b -> nodes xa !! n = Some node -> cov (height node) b k -> 0 <= k < 2 ^ 60.
Proof.
  intros Hs Hp Hn Hc. pose proof (no_range _ _ _ _ _ _ (shape_node _ _ _ _ _ _ Hs Hp Hn)). change (span 10) with (2 ^ 60) in *. unfold cov in Hc. lia.
Qed.

Lemma continue_traverse_spec xa pos c : shape (xa_head xa) xa pos -> at_target xa pos (index c) (state c) ->
  returns (continue_traverse_to_target xa c) (landed xa pos (index c)).
Proof.
  intros Hs Hat. set (k := index c).
  apply (loop_total _ (fun c => index c = k /\ at_target xa pos k (state c)) _ (fun c => state_height xa (state c))).
  2: { by split. }
  2: { destruct Hat as (n & b & node & -> & Hp & Hn & _). cbn. rewrite Hn. pose proof (no_height _ _ _ _ _ _ (shape_node _ _ _ _ _ _ Hs Hp Hn)). unfold HEIGHTS. lia. }
  clear Hat. intros c1 (Ek & n & b & node & Est & Hp & Hn & Hc). rewrite Est. cbn [is_at_leaf into_node]. unfold get_node. rewrite Hn. cbn [unwrap mbind run_bind].
  pose proof (shape_node _ _ _ _ _ _ Hs Hp Hn) as Hok. pose proof (no_height _ _ _ _ _ _ Hok).
  destruct (cov_offset _ xa pos n b node k Hs Hp Hn Hc) as [Ho Hoc]. unfold is_leaf. destruct (Z.eqb_spec (height node) 1) as [E|E].
  { eexists. split; [done|]. cbn beta iota. split_and!; [done| |by rewrite Est].
    split; [rewrite Ek; pose proof (cov_bound _ _ _ _ _ _ _ Hs Hp Hn Hc); unfold u64_modulus; lia|]. rewrite Est.
    rewrite E in Hc. destruct (leaf_offset _ xa pos n b node k Hs (conj Hp (conj Hn E)) Hc) as [? ?]. exists b, node. rewrite Ek. done. }
  cbn [unwrap mbind run_bind]. rewrite Hn. cbn [unwrap mbind run_bind]. rewrite (entry_with_lt node) by lia. cbn [mbind run_bind].
  destruct (slots node !! height_offset (height node) k) as [[d|x]|] eqn:Esl.
  - destruct (no_child _ _ _ _ _ _ Hok _ _ Esl) as (dn & Hdn & Hdp & _ & _ & Hdh). cbn [entry_left unwrap mbind run_bind]. unfold move_to, get_node. rewrite Hdn.
    cbn [unwrap mbind run_bind]. eexists. split; [done|]. cbn [index state with_state]. split.
    + split; [done|]. rewrite Ek. eexists d, _, dn. split_and!; try done. by rewrite Hdh.
    + cbn. rewrite Hdn, Hn. lia.
  - pose proof (no_item _ _ _ _ _ _ Hok _ _ Esl). lia.
  - eexists. split; [done|]. cbn beta iota. split_and!; [done| |].
    + split; [cbn [index reset with_state]; rewrite Ek; pose proof (cov_bound _ _ _ _ _ _ _ Hs Hp Hn Hc); unfold u64_modulus; lia|done].
    + intros _ l lb ln (Hlp & Hln & Hlh) Hlc.
      destruct (cov_child (xa_head xa) xa pos n b node l lb ln k) as (d & Hd); try done; [lia|by rewrite Hlh|congruence].
Qed.

Lemma head_cov xa pos h hn k : shape (xa_head xa) xa pos -> xa_head xa = Some h -> nodes xa !! h = Some hn ->
  pos !! h = Some 0 /\ max_index (height hn) = Ret (span (height hn) - 1) /\ (cov (height hn) 0 k <-> 0 <= k <= span (height hn) - 1).
Proof.
  intros Hs Hh Hhn. destruct (sh_head _ _ _ Hs _ Hh) as (Hp & _). split; [done|].
  pose proof (no_height _ _ _ _ _ _ (shape_node _ _ _ _ _ _ Hs Hp Hhn)). split; [by apply max_index_span|]. unfold cov. lia.
Qed.

(** A leaf is below the head. *)
Lemma leaf_below_head xa pos h hn n b node k : shape (xa_head xa) xa pos -> xa_head xa = Some h -> nodes xa !! h = Some hn ->
  pos !! n = Some b -> nodes xa !! n = Some node -> cov (height node) b k -> cov (height hn) 0 k.
Proof.
  intros Hs Hh Hhn. remember (Z.to_nat (10 - height node)) as d eqn:Ed. revert n b node Ed.
  induction d as [|d IH]; intros n b node Ed Hp Hn Hc; pose proof (no_height _ _ _ _ _ _ (shape_node _ _ _ _ _ _ Hs Hp Hn)).
  all: destruct (parent node) as [p|] eqn:Epar; [|destruct (root_is_head _ _ _ _ _ _ Hs Hp Hn Epar) as (? & -> & _); by simplify_eq].
  all: destruct (parent_cov _ _ _ _ _ _ _ Hs Hp Hn Epar) as (pn & pb & Hpn & Hpb & Hph & _ & _ & Hk); destruct (Hk k Hc) as [Hpc _].
  all: pose proof (no_height _ _ _ _ _ _ (shape_node _ _ _ _ _ _ Hs Hpb Hpn)).
  - lia.
  - eapply (IH p pb pn); try done; lia.
Qed.

Lemma traverse_spec xa pos c : shape (xa_head xa) xa pos -> cursor_ok xa pos c ->
  returns (traverse_to_target xa c) (landed xa pos (index c)).
Proof.
  intros Hs Hc. unfold traverse_to_target. destruct (state c) as [|n off] eqn:Est; cbn [is_at_node].
  2: { apply returns_ret. split_and!; [done|done|by rewrite Est]. }
  destruct (xa_head xa) as [h|] eqn:Eh.
  2: { apply returns_ret. split_and!; [done|done|]. intros _ n b node (Hp & _). by rewrite (sh_none _ _ _ Hs eq_refl) in Hp. }
  rewrite <- Eh in Hs. destruct (sh_head _ _ _ Hs _ Eh) as (Hp & hn & Hhn & _). destruct (head_cov xa pos h hn (index c) Hs Eh Hhn) as (_ & Hm & Hcov).
  unfold get_node. rewrite Hhn. cbn [unwrap mbind run_bind]. rewrite Hm. cbn [mbind run_bind].
  destruct (Z.ltb_spec (span (height hn) - 1) (index c)).
  - apply returns_ret. split_and!; [done|done|]. intros _ n b node (Hnp & Hn & Hnh) Hnc. rewrite <- Hnh in Hnc.
    pose proof (leaf_below_head _ _ _ _ _ _ _ _ Hs Eh Hhn Hnp Hn Hnc) as Hb. apply Hcov in Hb. lia.
  - unfold move_to, get_node. rewrite Hhn. cbn [unwrap mbind run_bind].
    apply (continue_traverse_spec xa pos (with_state c (AtNode h (entry_offset hn (index c))))); [done|].
    exists h, 0, hn. split_and!; try done. apply Hcov. destruct Hc. lia.
Qed.

(** ** Loads *)

Lemma leaf_lookup xa pos M K n b node off : shape (xa_head xa) xa pos -> contents xa pos M K -> leaf_node xa pos n b node -> 0 <= off < 64 ->
  slots node !! off ≫= entry_right = M !! (b + off).
Proof.
  intros Hs Hc (Hp & Hn & Hh) Ho. apply option_eq. intros x. rewrite (ct_items _ _ _ _ Hc). split.
  - intros Hx. exists n, b, node. split_and!; try done. replace (b + off - b) with off by lia.
    destruct (slots node !! off) as [[d|y]|]; try discriminate Hx. by injection Hx as ->.
  - intros (q & qb & qn & Hq & Hqn & Hqh & Hsl).
    pose proof (no_slots _ _ _ _ _ _ (shape_node _ _ _ _ _ _ Hs Hq Hqn) _ _ Hsl).
    destruct (leaf_at (xa_head xa) xa pos q qb qn n b node (b + off)) as [-> ->]; try done; [lia|].
    assert (qn = node) as -> by congruence. replace (b + off - b) with off in Hsl by lia. by rewrite Hsl.
Qed.

Lemma no_leaf_lookup xa pos M K k : shape (xa_head xa) xa pos -> contents xa pos M K -> no_leaf xa pos k -> M !! k = None.
Proof.
  intros Hs Hc Hno. destruct (M !! k) eqn:E; [|done]. exfalso.
  destruct (item_leaf (xa_head xa) xa pos M K k) as (n & b & node & Hp & Hn & Hh & Hcov); [done|done|apply elem_of_dom; eauto|].
  by eapply (Hno n b node).
Qed.

Lemma load_spec xa pos M K c : repr xa pos M K -> cursor_ok xa pos c ->
  returns (Cursor_load xa c) (fun '(r, c') => r = M !! index c /\ index c' = index c /\ cursor_ok xa pos c').
Proof.
  intros [Hs Hb Hct Hf] Hc. unfold Cursor_load. eapply returns_bind; [by apply traverse_spec|]. intros c' (Ei & Hc' & Hno).
  destruct Hc' as [Hi Hst] eqn:E. clear E. destruct (state c') as [|n off] eqn:Est; cbn [into_node].
  - apply returns_ret. split_and!; [|done|]. { symmetry. eapply no_leaf_lookup; [done..|by apply Hno]. } split; [done|by rewrite Est].
  - destruct Hst as (b & node & Hl & Ho & Ek). pose proof Hl as (Hp & Hn & Hh). unfold get_node. rewrite Hn. cbn [unwrap mbind run_bind].
    rewrite (entry_with_lt node off) by lia. cbn [mbind run_bind]. apply returns_ret. split_and!; [|done|].
    + rewrite <- Ei, Ek. by eapply leaf_lookup.
    + split; [done|]. rewrite Est. eauto.
Qed.
End repr.

(** ** Moving on *)

Section move.
Context {P : Type}.
Implicit Types (xa : XArray P) (pos : gmap nat Z) (node : XNode P) (M : gmap Z P) (K : nat -> gset Z) (c : Cursor).

(** The place of an index at a node on the way up. *)
Definition up_at xa pos (n : nat) (o k : Z) : Prop :=
  exists b node, pos !! n = Some b /\ nodes xa !! n = Some node /\ 0 <= o <= 64 /\ k = b + o * span (height node - 1).

Definition node_depth xa (n : nat) : nat := match nodes xa !! n with Some node => Z.to_nat (10 - height node) | None => 0 end.

(** The end of a node is the beginning of its right neighbour. *)
Lemma up_parent xa pos n node k p : shape (xa_head xa) xa pos -> nodes xa !! n = Some node -> parent node = Some p -> up_at xa pos n 64 k ->
  up_at xa pos p (offset_in_parent node + 1) k /\ exists pn, nodes xa !! p = Some pn /\ height pn = height node + 1.
Proof.
  intros Hs Hn Hpar (b & node' & Hp & Hn' & _ & Ek). assert (node' = node) as -> by congruence.
  destruct (parent_facts _ _ _ _ _ _ _ Hs Hp Hn Hpar) as (pn & pb & Hpn & Hpb & _ & _ & Ho & Hh & Eb).
  pose proof (no_height _ _ _ _ _ _ (shape_node _ _ _ _ _ _ Hs Hp Hn)). split; [|eauto].
  exists pb, pn. split_and!; try done; [lia..|]. rewrite Ek, Hh. replace (height node + 1 - 1) with (height node) by lia.
  rewrite (span_step (height node)) in Eb |- * by lia. lia.
Qed.

Lemma next_spec xa pos c : shape (xa_head xa) xa pos -> cursor_ok xa pos c -> index c + 1 < u64_modulus ->
  returns (Cursor_next xa c) (fun c' => index c' = index c + 1 /\ cursor_ok xa pos c').
Proof.
  intros Hs [Hi Hc] Hlt. unfold Cursor_next, checked_add. rewrite (proj2 (Z.ltb_lt _ _)) by done. cbn [unwrap mbind run_bind].
  destruct (state c) as [|n off] eqn:Est; cbn [into_node].
  { apply returns_ret. split; [done|]. split; cbn; [lia|done]. }
  destruct Hc as (b & node & (Hp & Hn & Hh) & Ho & Ek).
  eapply (returns_bind _ _ (fun found => match found with None => True | Some n => exists b node, pos !! n = Some b /\ nodes xa !! n = Some node /\ cov (height node) b (index c + 1) end)).
  - apply (loop_total _ (fun '(n, o) => up_at xa pos n o (index c + 1)) _ (fun '(n, _) => node_depth xa n)).
    + intros [m o] Hm. pose proof Hm as (mb & mn & Hmp & Hmn & Hmo & Emk). destruct (Z.eqb_spec o SLOT_SIZE) as [->|Hne].
      * unfold get_node. rewrite Hmn. cbn [unwrap mbind run_bind]. destruct (parent mn) as [p|] eqn:Epar; (eexists; split; [done|]); cbn beta iota; [|done].
        destruct (up_parent _ _ _ _ _ _ Hs Hmn Epar Hm) as (Hup & pn & Hpn & Hph). split; [done|]. unfold node_depth. rewrite Hmn, Hpn.
        pose proof (no_height _ _ _ _ _ _ (shape_node _ _ _ _ _ _ Hs Hmp Hmn)).
        destruct Hup as (pb & pn' & Hpb & Hpn' & _). assert (pn' = pn) as -> by congruence.
        pose proof (no_height _ _ _ _ _ _ (shape_node _ _ _ _ _ _ Hs Hpb Hpn)). lia.
      * eexists. split; [done|]. cbn beta iota. exists mb, mn. split_and!; try done. change SLOT_SIZE with 64 in Hne.
        pose proof (no_height _ _ _ _ _ _ (shape_node _ _ _ _ _ _ Hs Hmp Hmn)). eapply (cov_slot _ _ o); [lia|lia|].
        rewrite Emk. unfold cov. pose proof (span_gt0 (height mn - 1)). lia.
    + exists b, node. split_and!; try done; [lia|lia|]. rewrite Hh. change (span (1 - 1)) with 1. lia.
    + unfold node_depth. rewrite Hn, Hh. unfold HEIGHTS. lia.
  - intros [m|] Hm; [|apply returns_ret; split; [done|split; cbn; [lia|done]]].
    destruct Hm as (mb & mn & Hmp & Hmn & Hmc). unfold move_to, get_node. rewrite Hmn. cbn [unwrap mbind run_bind].
    eapply returns_mono; [apply (continue_traverse_spec xa pos); [done|]|].
    + exists m, mb, mn. done.
    + intros c' (Ei & Hc' & _). split; [done|done].
Qed.

(** ** Searches *)

Lemma clear_low_bits i h : 1 <= h -> Z.land i (Z.lnot (index_step h - 1)) = i / span (h - 1) * span (h - 1).
Proof.
  intros Hh. unfold index_step, height_shift, BITS_PER_LAYER. rewrite Z.shiftl_1_l.
  replace (2 ^ ((h - 1) * 6) - 1) with (Z.ones ((h - 1) * 6)) by (rewrite Z.ones_equiv; lia).
  rewrite <- Z.ldiff_land, Z.ldiff_ones_r by lia. rewrite Z.shiftl_mul_pow2, Z.shiftr_div_pow2 by lia.
  rewrite span_pow2 by lia. by replace (6 * (h - 1)) with ((h - 1) * 6) by lia.
Qed.

Section find.
Context xa pos M K (m : nat) (start : Z).
Hypothesis (Hs : shape (xa_head xa) xa pos) (Hb : bits_ok xa pos no_exception) (Hct : contents xa pos M K) (Hm : (m < NUM_MARKS)%nat).

(** The search is at slot [o] of a node, [i] is an index below this slot, and there is no marked item before [i]. *)
Definition search_at (n : nat) (o i : Z) (b : Z) node : Prop :=
  pos !! n = Some b /\ nodes xa !! n = Some node /\ 0 <= o <= 64 /\ start <= i /\
  (forall j, j ∈ keyset M K m -> start <= j -> i <= j) /\
  b + o * span (height node - 1) <= i /\
  (o < 64 -> i < b + o * span (height node - 1) + span (height node - 1)) /\ (o = 64 -> i = b + o * span (height node - 1)).

Definition search_inv (s : nat * Z * Z) : Prop := let '(n, o, i) := s in exists b node, search_at n o i b node.

(** Down to the start, then up, then down to the item. *)
Definition search_measure (s : nat * Z * Z) : nat :=
  let '(n, o, i) := s in
  match pos !! n, nodes xa !! n with
  | Some b, Some node =>
      if i =? b + o * span (height node - 1) then
        if (o <? 64) && is_some (node_next_marked node o m) then Z.to_nat (height node)
        else (2 * Z.to_nat (10 - height node) + (if (o <? 64)%Z then 1 else 0) + 11)%nat
      else (50 + Z.to_nat (height node))%nat
  | _, _ => 0%nat
  end.

Lemma search_measure_at n o i b node : search_at n o i b node -> search_measure (n, o, i) =
  if i =? b + o * span (height node - 1) then
    if (o <? 64) && is_some (node_next_marked node o m) then Z.to_nat (height node)
    else (2 * Z.to_nat (10 - height node) + (if (o <? 64)%Z then 1 else 0) + 11)%nat
  else (50 + Z.to_nat (height node))%nat.
Proof. intros (Hp & Hn & _). unfold search_measure. by rewrite Hp, Hn. Qed.

Lemma measure_aligned_bound n o i b node : search_at n o i b node -> i = b + o * span (height node - 1) -> (search_measure (n, o, i) <= 2 * Z.to_nat (10 - height node) + 12)%nat \/ (search_measure (n, o, i) <= Z.to_nat (height node))%nat.
Proof. intros Hat E. rewrite (search_measure_at _ _ _ _ _ Hat), E, Z.eqb_refl. repeat case_match; lia. Qed.

Lemma measure_bound n o i b node : search_at n o i b node -> (search_measure (n, o, i) <= 50 + Z.to_nat (height node))%nat.
Proof.
  intros Hat. pose proof Hat as (Hp & Hn & _). pose proof (no_height _ _ _ _ _ _ (shape_node _ _ _ _ _ _ Hs Hp Hn)).
  rewrite (search_measure_at _ _ _ _ _ Hat). repeat case_match; lia.
Qed.

(** Going up from the end of a node. *)
Lemma search_up n i b node p : search_at n 64 i b node -> parent node = Some p ->
  search_inv (p, offset_in_parent node + 1, i) /\ (search_measure (p, (offset_in_parent node + 1)%Z, i) < search_measure (n, 64%Z, i))%nat.
Proof.
  intros Hat Hpar. pose proof Hat as (Hp & Hn & _ & Hst & Hk & _ & _ & Ei). specialize (Ei eq_refl).
  destruct (up_parent xa pos n node i p Hs Hn Hpar) as ((pb & pn & Hpb & Hpn & Ho & Ek) & pn' & Hpn' & Hph).
  { exists b, node. done. } assert (pn' = pn) as -> by congruence.
  pose proof (no_height _ _ _ _ _ _ (shape_node _ _ _ _ _ _ Hs Hp Hn)). pose proof (no_height _ _ _ _ _ _ (shape_node _ _ _ _ _ _ Hs Hpb Hpn)).
  pose proof (span_gt0 (height pn - 1) ltac:(lia)).
  assert (search_at p (offset_in_parent node + 1) i pb pn) as Hat' by (unfold search_at; split_and!; try done; lia).
  split; [by exists pb, pn|]. rewrite (search_measure_at _ _ _ _ _ Hat), Ei, Z.eqb_refl. cbn [Z.ltb Z.compare Pos.compare Pos.compare_cont andb].
  rewrite <- Ei. destruct (measure_aligned_bound _ _ _ _ _ Hat' Ek); lia.
Qed.

(** At the end of the head there is nothing left. *)
Lemma search_end n i b node : search_at n 64 i b node -> parent node = None -> least (keyset M K m) start None.
Proof.
  intros (Hp & Hn & _ & Hst & Hk & _ & _ & Ei) Hpar j Hj. specialize (Ei eq_refl).
  destruct (root_is_head _ _ _ _ _ _ Hs Hp Hn Hpar) as (Hhd & -> & _).
  destruct (Z_lt_le_dec j start) as [|Hle]; [done|]. specialize (Hk j Hj Hle). exfalso.
  destruct (item_leaf (xa_head xa) xa pos M K j Hs Hct (keyset_dom _ _ _ _ _ _ Hct Hj)) as (l & lb & ln & Hlp & Hln & Hlh & Hlc).
  rewrite <- Hlh in Hlc. pose proof (leaf_below_head _ _ _ _ _ _ _ _ Hs Hhd Hn Hlp Hln Hlc) as Hc.
  pose proof (no_height _ _ _ _ _ _ (shape_node _ _ _ _ _ _ Hs Hp Hn)). unfold cov in Hc. rewrite (span_step (height node)) in Hc by lia. lia.
Qed.

(** The bits of the skipped slots are clear, so there are no keys below them. *)
Lemma search_skip n o i b node o' : search_at n o i b node -> o < 64 -> o <= o' <= 64 ->
  (forall x, o <= x < o' -> Z.testbit (marks node !!! m) x = false) ->
  forall j, j ∈ keyset M K m -> start <= j -> i <= j /\ (o < o' -> b + o' * span (height node - 1) <= j).
Proof.
  intros (Hp & Hn & Ho & Hst & Hk & Hlo & Hhi & _) Ho64 Ho' Hclear j Hj Hle. specialize (Hk j Hj Hle). split; [done|]. intros Hlt.
  pose proof (shape_node _ _ _ _ _ _ Hs Hp Hn) as Hok. pose proof (no_height _ _ _ _ _ _ Hok). pose proof (span_gt0 (height node - 1) ltac:(lia)) as Hsp.
  destruct (Z_le_gt_dec (b + o' * span (height node - 1)) j) as [|Hgt]; [done|]. exfalso.
  assert (cov (height node) b j) as Hc by (unfold cov; rewrite (span_step (height node)) by lia; nia).
  destruct (cov_offset _ xa pos n b node j Hs Hp Hn Hc) as [Hx Hxc].
  set (x := height_offset (height node) j) in *.
  assert (Z.testbit (marks node !!! m) x = true) as Hbit by (apply (bits_sem (xa_head xa) xa pos M K n b node m x); try done; by exists j).
  rewrite Hclear in Hbit; [done|]. unfold cov in Hxc. nia.
Qed.

Lemma search_step_index n o i b node o' : search_at n o i b node -> o < 64 -> o <= o' <= 64 ->
  checked_add (Z.land i (Z.lnot (index_step (height node) - 1))) ((o' - o) * index_step (height node)) = Some (b + o' * span (height node - 1)).
Proof.
  intros (Hp & Hn & Ho & Hst & Hk & Hlo & Hhi & _) Hlt Ho'.
  pose proof (shape_node _ _ _ _ _ _ Hs Hp Hn) as Hok. pose proof (no_height _ _ _ _ _ _ Hok). pose proof (no_range _ _ _ _ _ _ Hok) as Hr.
  pose proof (span_gt0 (height node - 1) ltac:(lia)) as Hsp. rewrite clear_low_bits, index_step_span by lia.
  assert (i / span (height node - 1) * span (height node - 1) = b + o * span (height node - 1)) as ->.
  { pose proof (no_align _ _ _ _ _ _ Hok) as Ha. apply Z.mod_divide in Ha as [q Eq]; [|pose proof (span_gt0 (height node)); lia].
    rewrite (span_step (height node)) in Eq by lia. specialize (Hhi ltac:(done)).
    assert (i / span (height node - 1) = q * 64 + o) as ->; [|lia].
    symmetry. apply (Z.div_unique_pos _ _ _ (i - (b + o * span (height node - 1)))); lia. }
  unfold checked_add, u64_modulus. rewrite (span_step (height node)) in Hr by lia. change (span 10) with (2 ^ 60) in Hr.
  rewrite (proj2 (Z.ltb_lt _ _)) by nia. f_equal. lia.
Qed.

Lemma bit_range node o : is_bitmap (marks node !!! m) -> 0 <= o < 64 -> exists o',
  default SLOT_SIZE (node_next_marked node o m) = o' /\ o <= o' <= 64 /\
  (forall x, o <= x < o' -> Z.testbit (marks node !!! m) x = false) /\ (o' < 64 -> Z.testbit (marks node !!! m) o' = true) /\
  (is_some (node_next_marked node o m) = (o' <? 64)).
Proof.
  intros Hv Ho. unfold node_next_marked. pose proof (mark_next_marked_spec _ o Hv Ho) as H.
  destruct (mark_next_marked (marks node !!! m) o) as [o'|]; cbn [default is_some].
  - destruct H as (Hr & Hbit & Hc). exists o'. split_and!; try done; [lia..|]. symmetry. apply Z.ltb_lt. lia.
  - exists 64. change SLOT_SIZE with 64. split_and!; try done; [lia|]. intros x Hx. apply H. lia.
Qed.

Definition search_post c (r : option Z * Cursor) : Prop :=
  least (keyset M K m) start r.1 /\ match r.1 with None => r.2 = reset c | Some j => index r.2 = j /\ cursor_ok xa pos r.2 end.

(** The search continues in a child that has the bit. *)
Lemma search_down n o i b node o' i' d dn : search_at n o i b node -> o < 64 -> o <= o' < 64 -> node_next_marked node o m = Some o' ->
  (forall x, o <= x < o' -> Z.testbit (marks node !!! m) x = false) -> i' = (if o =? o' then i else b + o' * span (height node - 1)) ->
  slots node !! o' = Some (Left d) -> nodes xa !! d = Some dn -> marks dn !!! m <> 0 ->
  search_inv (d, entry_offset dn i', i') /\ (search_measure (d, entry_offset dn i', i') < search_measure (n, o, i))%nat.
Proof.
  intros Hat Ho64 Ho' Hnext Hclear Ei' Hsl Hdn Hnz. pose proof Hat as (Hp & Hn & Ho & Hst & Hk & Hlo & Hhi & _). specialize (Hhi Ho64).
  pose proof (shape_node _ _ _ _ _ _ Hs Hp Hn) as Hok. pose proof (no_height _ _ _ _ _ _ Hok).
  destruct (no_child _ _ _ _ _ _ Hok _ _ Hsl) as (dn' & Hdn' & Hdp & _ & _ & Hdh). assert (dn' = dn) as -> by congruence.
  pose proof (shape_node _ _ _ _ _ _ Hs Hdp Hdn) as Hdok. pose proof (no_height _ _ _ _ _ _ Hdok).
  pose proof (span_gt0 (height node - 1) ltac:(lia)) as Hsp. set (db := b + o' * span (height node - 1)) in *.
  assert (cov (height dn) db i') as Hc.
  { rewrite Hdh. unfold cov. subst i'. destruct (Z.eqb_spec o o') as [->|]; unfold db in *; lia. }
  destruct (cov_offset _ xa pos d db dn i' Hs Hdp Hdn Hc) as [Hox Hoc]. unfold entry_offset. set (x := height_offset (height dn) i') in *.
  assert (search_at d x i' db dn) as Hat'.
  { unfold cov in Hoc. unfold search_at. split_and!; try done; try lia.
    - subst i'. destruct (Z.eqb_spec o o') as [->|]; [done|]. assert (o < o') by lia. nia.
    - intros j Hj Hle. destruct (search_skip n o i b node o' Hat Ho64 ltac:(lia) Hclear j Hj Hle) as [? Hge].
      subst i'. destruct (Z.eqb_spec o o') as [->|]; [done|]. apply Hge. lia. }
  split; [by exists db, dn|]. rewrite (search_measure_at _ _ _ _ _ Hat), Hnext. cbn [is_some]. rewrite (proj2 (Z.ltb_lt o 64) Ho64). cbn [andb].
  destruct (Z.eqb_spec i (b + o * span (height node - 1))) as [Ea|Ea].
  - assert (i' = db) as Edb by (rewrite Ei'; unfold db; destruct (Z.eqb_spec o o') as [->|]; lia).
    assert (x = 0) as Ex. { unfold cov in Hoc. pose proof (span_gt0 (height dn - 1) ltac:(lia)). nia. }
    rewrite (search_measure_at _ _ _ _ _ Hat'), Ex, Z.mul_0_l, Z.add_0_r, Edb, Z.eqb_refl.
    destruct (bit_range dn 0) as (o2 & _ & Ho2 & Hclear2 & Hset2 & ->); [by eapply node_bitmap|lia|].
    destruct (proj1 (nonzero_bit _ (node_bitmap _ _ _ _ _ _ _ Hdok Hm)) Hnz) as (y & Hy & Hby).
    assert (o2 < 64). { destruct (Z_lt_le_dec o2 64); [done|]. rewrite Hclear2 in Hby by lia. done. }
    rewrite (proj2 (Z.ltb_lt o2 64)) by done. cbn. lia.
  - pose proof (measure_bound _ _ _ _ _ Hat'). lia.
Qed.

Lemma search_loop_step c s : search_inv s -> returns (find_marked_step xa m c s) (fun f =>
  match f with Continue s' => search_inv s' /\ (search_measure s' < search_measure s)%nat | Break r => search_post c r end).
Proof.
  destruct s as [[n o] i]. intros (b & node & Hat). pose proof Hat as (Hp & Hn & Ho & Hst & Hk & Hlo & Hhi & Hend).
  pose proof (shape_node _ _ _ _ _ _ Hs Hp Hn) as Hok. pose proof (no_height _ _ _ _ _ _ Hok) as Hht.
  unfold find_marked_step, get_node. rewrite Hn. cbn [unwrap mbind run_bind]. change SLOT_SIZE with 64.
  destruct (Z.eqb_spec o 64) as [->|Hne].
  { apply returns_ret. destruct (parent node) as [p|] eqn:Epar; [by eapply search_up|]. split; [by eapply search_end|done]. }
  assert (o < 64) as Ho64 by lia.
  destruct (bit_range node o) as (o' & Hdef & Ho' & Hclear & Hset & Hsome); [by eapply node_bitmap|lia|].
  change SLOT_SIZE with 64 in Hdef. rewrite Hdef. unfold checked_sub. rewrite (proj2 (Z.leb_le o o')) by lia. cbn [mbind run_bind].
  assert ((if o' - o =? 0 then Some i else checked_add (Z.land i (Z.lnot (index_step (height node) - 1))) ((o' - o) * index_step (height node))) =
    Some (if o =? o' then i else b + o' * span (height node - 1))) as ->.
  { rewrite (search_step_index n o i b node o' Hat Ho64 Ho'). destruct (Z.eqb_spec (o' - o) 0), (Z.eqb_spec o o'); try done; lia. }
  set (i' := if o =? o' then i else _). destruct (Z.eqb_spec o' 64) as [E64|Hlt].
  { assert (i' = b + 64 * span (height node - 1)) as Ei' by (unfold i'; rewrite E64; destruct (Z.eqb_spec o 64); [lia|done]).
    pose proof (span_gt0 (height node - 1) ltac:(lia)).
    assert (search_at n 64 i' b node) as Hat'.
    { unfold search_at. rewrite Ei'. split_and!; try done; try lia; [nia|]. intros j Hj Hle.
      destruct (search_skip n o i b node 64 Hat Ho64 ltac:(lia) ltac:(by rewrite <- E64) j Hj Hle) as [_ Hge]. apply Hge. lia. }
    apply returns_ret. rewrite E64. split; [by exists b, node|].
    rewrite (search_measure_at _ _ _ _ _ Hat'), (search_measure_at _ _ _ _ _ Hat), Hsome, E64, Ei', Z.eqb_refl, (proj2 (Z.ltb_lt o 64) Ho64).
    cbn [Z.ltb Z.compare Pos.compare Pos.compare_cont andb]. case_match; lia. }
  rewrite (entry_with_lt node o') by lia. cbn [mbind run_bind]. specialize (Hset ltac:(lia)).
  assert (node_next_marked node o m = Some o') as Hnext.
  { destruct (node_next_marked node o m); cbn in Hdef; [congruence|lia]. }
  unfold is_leaf. destruct (Z.eqb_spec (height node) 1) as [E1|E1].
  - rewrite E1 in *. change (span (1 - 1)) with 1 in *.
    pose proof (proj1 (ct_marks _ _ _ _ Hct n b node m o' Hp Hn E1 Hm ltac:(lia)) Hset) as Hkey.
    destruct (M !! (b + o')) as [x|] eqn:EM.
    2: { apply (keyset_dom _ _ _ _ _ _ Hct), elem_of_dom in Hkey as [? ?]. congruence. }
    rewrite <- (leaf_lookup xa pos M K n b node o' Hs Hct (conj Hp (conj Hn E1)) ltac:(lia)) in EM.
    destruct (slots node !! o') as [e|]; [|done]. cbn [negb]. apply returns_ret.
    assert (i' = b + o') as Ei'. { unfold i'. rewrite ?E1. change (span (1 - 1)) with 1. specialize (Hhi Ho64). destruct (Z.eqb_spec o o') as [->|]; lia. }
    rewrite Ei'. split; cbn.
    + split_and!; [done|nia|]. intros j Hj Hle. destruct (search_skip n o i b node o' Hat Ho64 Ho' Hclear j Hj Hle) as [Hij Hge].
      rewrite E1 in Hge. change (span (1 - 1)) with 1 in Hge. destruct (Z_lt_le_dec o o'); [specialize (Hge ltac:(done)); lia|lia].
    + split; [done|]. pose proof (no_range _ _ _ _ _ _ Hok) as Hr. rewrite E1 in Hr. change (span 1) with 64 in Hr. change (span 10) with (2 ^ 60) in Hr.
      split; cbn; [unfold u64_modulus; lia|]. exists b, node. split_and!; try done; lia.
  - destruct (Hb n b node m o' Hp Hn ltac:(lia) Hm ltac:(lia)) as [[]|Hbit]. apply Hbit in Hset as (d & dn & Hsl & Hdn & Hnz).
    rewrite Hsl. cbn [negb entry_left unwrap mbind run_bind]. rewrite Hdn. cbn [unwrap mbind run_bind]. apply returns_ret.
    apply (search_down n o i b node o' i' d dn); try done; lia.
Qed.
End find.

Lemma find_marked_spec xa pos M K m c : repr xa pos M K -> (m < NUM_MARKS)%nat -> cursor_ok xa pos c -> index c + 1 < u64_modulus ->
  returns (find_marked xa m c) (search_post xa pos M K m (index c + 1) c).
Proof.
  intros [Hs Hb Hct Hf] Hm [Hi Hc] Hlt. unfold find_marked, checked_add. rewrite (proj2 (Z.ltb_lt _ _)) by done.
  assert (forall n o, search_inv xa pos M K m (index c + 1) (n, o, index c + 1) ->
    returns (loop find_fuel (find_marked_step xa m c) (n, o, index c + 1)) (search_post xa pos M K m (index c + 1) c)) as Hloop.
  { intros n o Hinv. eapply (loop_total _ (search_inv xa pos M K m (index c + 1)) _ (search_measure xa pos m)); [|done|].
    - intros s Hsi. by apply search_loop_step.
    - destruct Hinv as (b & node & Hat). assert (search_measure xa pos m (n, o, (index c + 1)%Z) <= 50 + Z.to_nat (height node))%nat as Hmb by (eapply measure_bound; eassumption).
      destruct Hat as (Hp & Hn & _). pose proof (no_height _ _ _ _ _ _ (shape_node _ _ _ _ _ _ Hs Hp Hn)). unfold find_fuel. lia. }
  destruct (state c) as [|n off] eqn:Est; cbn [into_node mbind run_bind].
  - destruct (xa_head xa) as [h|] eqn:Eh; cbn [mbind run_bind].
    2: { apply returns_ret. split; [|done]. cbn. intros j Hj. apply (keyset_dom _ _ _ _ _ _ Hct), elem_of_dom in Hj as [x Hx].
         apply (ct_items _ _ _ _ Hct) in Hx as (n & b & node & Hp & _). by rewrite (sh_none _ _ _ Hs eq_refl) in Hp. }
    rewrite <- Eh in Hs. destruct (sh_head _ _ _ Hs _ Eh) as (Hp & hn & Hhn & _).
    destruct (head_cov xa pos h hn (index c + 1) Hs Eh Hhn) as (_ & Hmi & Hcov).
    unfold get_node. rewrite Hhn. cbn [unwrap mbind run_bind]. rewrite Hmi. cbn [mbind run_bind].
    destruct (Z.leb_spec (index c + 1) (span (height hn) - 1)).
    + apply Hloop. assert (cov (height hn) 0 (index c + 1)) as Hc0 by (apply Hcov; lia).
      destruct (cov_offset _ xa pos h 0 hn (index c + 1) Hs Hp Hhn Hc0) as [Ho Hoc]. exists 0, hn. unfold cov in Hoc. unfold entry_offset.
      unfold search_at. split_and!; try done; lia.
    + apply returns_ret. split; [|done]. cbn. intros j Hj.
      destruct (item_leaf (xa_head xa) xa pos M K j Hs Hct (keyset_dom _ _ _ _ _ _ Hct Hj)) as (l & lb & ln & Hlp & Hln & Hlh & Hlc).
      rewrite <- Hlh in Hlc. pose proof (leaf_below_head _ _ _ _ _ _ _ _ Hs Eh Hhn Hlp Hln Hlc) as Hb0. unfold cov in Hb0. lia.
  - destruct Hc as (b & node & (Hp & Hn & Hh) & Ho & Ek). apply Hloop. exists b, node. unfold search_at. rewrite Hh. change (span (1 - 1)) with 1.
    split_and!; try done; lia.
Qed.
End move.

(** ** A new root *)

Section grow.
Context {P : Type} (xa : XArray P) (pos : gmap nat Z) (M : gmap Z P) (K : nat -> gset Z) (h : nat) (hn : XNode P).
Hypothesis (Hs : shape (Some h) xa pos) (Hb : bits_ok xa pos no_exception) (Hct : contents xa pos M K).
Hypothesis (Hhn : nodes xa !! h = Some hn) (Hlt : height hn < 10).

Let r : nat := next_node xa.
Let root : XNode P := XNode_new_root (go_root (height hn)).
Let xa0 : XArray P := snd (alloc_node xa root).
Let xa1 : XArray P := attached xa0 r root 0 h hn.

Lemma grow_facts : pos !! h = Some 0 /\ parent hn = None /\ offset_in_parent hn = 0 /\ h <> r /\ pos !! r = None /\ nodes xa !! r = None /\ 1 <= height hn.
Proof.
  destruct (sh_head _ _ _ Hs h eq_refl) as (Hp & hn' & Hhn' & Hpar). assert (hn' = hn) as -> by congruence.
  destruct (pos_fresh _ _ _ Hs) as [Hpf Hnf]. fold r in Hpf, Hnf. destruct (root_is_head _ _ _ _ _ _ Hs Hp Hhn Hpar) as (_ & _ & Ho).
  pose proof (no_height _ _ _ _ _ _ (shape_node _ _ _ _ _ _ Hs Hp Hhn)). split_and!; try done; [congruence|lia].
Qed.

Lemma grow_nodes q : nodes xa1 !! q =
  if decide (q = r) then Some (with_slot root 0 (Some (Left h))) else
  if decide (q = h) then Some (with_parent hn (Some r)) else nodes xa !! q.
Proof.
  unfold xa1, attached. rewrite lookup_with_node. case_decide; [done|]. rewrite lookup_with_node. case_decide; [done|].
  unfold xa0, alloc_node. cbn. fold r. by rewrite lookup_insert_ne.
Qed.

(** The other nodes only change in the parent of the old root. *)
Lemma grow_node q qn : nodes xa !! q = Some qn -> q <> r /\ exists qn', nodes xa1 !! q = Some qn' /\
  parent qn' = (if decide (q = h) then Some r else parent qn) /\
  height qn' = height qn /\ offset_in_parent qn' = offset_in_parent qn /\ marks qn' = marks qn /\ slots qn' = slots qn.
Proof.
  intros Hq. destruct grow_facts as (_ & _ & _ & _ & _ & Hnf & _). assert (q <> r) by congruence. split; [done|].
  rewrite grow_nodes, decide_False by done. destruct (decide (q = h)) as [->|]; [|eauto 10].
  assert (qn = hn) as -> by congruence. eexists. split; [done|]. done.
Qed.

Lemma grow_root_ok : node_ok (Some r) xa1 (<[r := 0]> pos) r 0 (with_slot root 0 (Some (Left h))).
Proof.
  destruct grow_facts as (Hp & Hpar & Ho & Hne & Hpf & Hnf & Hh). pose proof (span_gt0 (height hn + 1) ltac:(lia)).
  split; cbn -[span Z.mul Z.add].
  - unfold go_root. lia.
  - done.
  - repeat constructor; unfold is_bitmap; lia.
  - unfold go_root. split; [lia|]. apply span_le. lia.
  - apply Z.mod_0_l. unfold go_root. lia.
  - intros i e Hi. destruct (decide (i = 0)) as [->|]; [lia|]. by rewrite lookup_partial_alter_ne in Hi.
  - intros i x Hi. destruct (decide (i = 0)) as [->|]; [by rewrite lookup_partial_alter_eq in Hi|by rewrite lookup_partial_alter_ne in Hi].
  - intros i c Hi. destruct (decide (i = 0)) as [->|]; [|by rewrite lookup_partial_alter_ne in Hi].
    rewrite lookup_partial_alter_eq in Hi. injection Hi as <-. exists (with_parent hn (Some r)). rewrite grow_nodes, decide_False, decide_True by done.
    rewrite lookup_insert_ne by done. cbn -[span]. split_and!; try done. unfold go_root. lia.
  - done.
Qed.

Lemma grow_shape : shape (Some r) xa1 (<[r := 0]> pos).
Proof.
  destruct grow_facts as (Hp & Hpar & Ho & Hne & Hpf & Hnf & Hh). pose proof Hs as [H1 H2 H3 H4]. split.
  - intros x [= <-]. rewrite lookup_insert_eq. split; [done|]. eexists. by rewrite grow_nodes, decide_True.
  - done.
  - intros q qb Hq. destruct (decide (q = r)) as [->|Hqr].
    { rewrite lookup_insert_eq in Hq. injection Hq as <-. eexists. split; [by rewrite grow_nodes, decide_True|apply grow_root_ok]. }
    rewrite lookup_insert_ne in Hq by done. destruct (H3 q qb Hq) as (qn & Hqn & [G1 G2 G3 G4 G5 G6 G7 G8 G9]).
    destruct (grow_node q qn Hqn) as (_ & qn' & Hqn' & Ep & Eh & Eo & Em & Es). exists qn'. split; [done|].
    split; rewrite ?Eh, ?Em, ?Eo, ?Es; try done.
    + intros i d Hd. destruct (G8 i d Hd) as (dn & Hdn & Hdp & Hdpar & Hdo & Hdh). destruct (grow_node d dn Hdn) as (Hdr & dn' & Hdn' & Ep' & Eh' & Eo' & _).
      exists dn'. rewrite Ep', Eh', Eo', lookup_insert_ne by done. rewrite decide_False; [done|]. intros ->. congruence.
    + rewrite Ep. destruct (decide (q = h)) as [->|Hqh].
      * assert (qn = hn) as -> by congruence. rewrite Ho. eexists _, 0. rewrite grow_nodes, decide_True, lookup_insert_eq by done. done.
      * destruct (parent qn) as [p|]; [|destruct G9 as ([= ->] & _); done]. destruct G9 as (pn & pb & Hpn & Hpb & Hps).
        destruct (grow_node p pn Hpn) as (Hpr & pn' & Hpn' & _ & _ & _ & _ & Es'). exists pn', pb. by rewrite lookup_insert_ne, Es'.
  - intros q qn. rewrite grow_nodes. change (next_node xa1) with (S (next_node xa)). fold r.
    destruct (decide (q = r)) as [->|]; [lia|]. destruct (decide (q = h)) as [->|]; [intros _; apply H4 in Hhn; fold r in Hhn; lia|].
    intros Hq. apply H4 in Hq. fold r in Hq. lia.
Qed.

Lemma grow_bits : bits_ok xa1 (<[r := 0]> pos) (rest_marks r 0 0).
Proof.
  destruct grow_facts as (Hp & Hpar & Ho & Hne & Hpf & Hnf & Hh). intros q qb qn' m i Hq Hqn' Hqh Hm Hi.
  destruct (decide (q = r)) as [->|Hqr].
  { rewrite grow_nodes, decide_True in Hqn' by done. injection Hqn' as <-. destruct (decide (i = 0)) as [->|Hi0]; [left; unfold rest_marks; naive_solver lia|right].
    cbn. rewrite lookup_partial_alter_ne, lookup_empty by done. assert (Z.testbit ([0; 0; 0; 0] !!! m) i = false) as ->.
    { unfold NUM_MARKS in *. do 4 (destruct m as [|m]; [apply Z.bits_0|]). lia. }
    split; [done|naive_solver]. }
  rewrite lookup_insert_ne in Hq by done. destruct (sh_node _ _ _ Hs _ _ Hq) as (qn & Hqn & Hqok). right.
  destruct (grow_node q qn Hqn) as (_ & qn2 & E & _ & Eh & _ & Em & Es). assert (qn2 = qn') as -> by congruence. rewrite Em, Es.
  destruct (Hb q qb qn m i Hq Hqn ltac:(lia) Hm Hi) as [[]|Hbit]. rewrite Hbit. split; intros (d & dn & Hd & Hdn & Hnz); exists d.
  - destruct (grow_node d dn Hdn) as (_ & dn' & Hdn' & _ & _ & _ & Emd & _). exists dn'. by rewrite Emd.
  - destruct (no_child _ _ _ _ _ _ Hqok _ _ Hd) as (d0 & Hd0 & _). destruct (grow_node d d0 Hd0) as (_ & dn' & Hdn' & _ & _ & _ & Emd & _).
    exists d0. assert (dn' = dn) as -> by congruence. by rewrite <- Emd.
Qed.

Lemma grow_contents xa' : skel xa1 xa' -> others_kept xa1 xa' r (height hn + 1) -> contents xa' (<[r := 0]> pos) M K.
Proof.
  intros Hk Hot. destruct grow_facts as (Hp & Hpar & Ho & Hne & Hpf & Hnf & Hh).
  assert (forall q qb qn, pos !! q = Some qb -> nodes xa !! q = Some qn -> height qn = 1 -> q <> r /\ exists qn', nodes xa' !! q = Some qn' /\ height qn' = 1 /\ slots qn' = slots qn /\ marks qn' = marks qn) as Hto.
  { intros q qb qn Hq Hqn Hqh. destruct (grow_node q qn Hqn) as (Hqr & q1 & Hq1 & _ & Eh & _ & Em & Es). split; [done|]. exists q1. rewrite Eh, Em, Es. split_and!; try done.
    apply Hot; [done|done|lia]. }
  assert (forall q qb qn, <[r := 0]> pos !! q = Some qb -> nodes xa' !! q = Some qn -> height qn = 1 ->
    pos !! q = Some qb /\ exists q0, nodes xa !! q = Some q0 /\ height q0 = 1 /\ slots qn = slots q0 /\ marks qn = marks q0) as Hfrom.
  { intros q qb qn Hq Hqn Hqh. destruct (sk_from _ _ Hk _ _ Hqn) as (q1 & Hq1 & _ & Eh & _).
    destruct (decide (q = r)) as [->|Hqr]; [rewrite grow_nodes, decide_True in Hq1 by done; injection Hq1 as <-; cbn in Eh; unfold go_root in Eh; lia|].
    rewrite lookup_insert_ne in Hq by done. split; [done|]. destruct (sh_node _ _ _ Hs _ _ Hq) as (q0 & Hq0 & _).
    destruct (grow_node q q0 Hq0) as (_ & q2 & Hq2 & _ & Eh2 & _). assert (q2 = q1) as -> by congruence.
    destruct (Hto q qb q0 Hq Hq0 ltac:(lia)) as (_ & q3 & Hq3 & ? & ? & ?). assert (q3 = qn) as -> by congruence. exists q0. split_and!; try done. lia. }
  split.
  - intros k x. rewrite (ct_items _ _ _ _ Hct). split; intros (q & qb & qn & Hq & Hqn & Hqh & Hx).
    + destruct (Hto _ _ _ Hq Hqn Hqh) as (Hqr & qn' & Hqn' & Eh & Es & _). exists q, qb, qn'. by rewrite lookup_insert_ne, Es.
    + destruct (Hfrom _ _ _ Hq Hqn Hqh) as (Hq' & q0 & Hq0 & Eh & Es & _). exists q, qb, q0. by rewrite <- Es.
  - intros q qb qn m i Hq Hqn Hqh Hm Hi. destruct (Hfrom _ _ _ Hq Hqn Hqh) as (Hq' & q0 & Hq0 & Eh & _ & Em). rewrite Em. by eapply ct_marks.
  - apply (ct_sub _ _ _ _ Hct).
Qed.

Lemma set_entry_grow : returns (set_entry xa0 r 0 (Some (Left h))) (fun xa' =>
  shape (Some r) xa' (<[r := 0]> pos) /\ bits_ok xa' (<[r := 0]> pos) no_exception /\ contents xa' (<[r := 0]> pos) M K /\
  (exists rn, nodes xa' !! r = Some rn /\ height rn = height hn + 1) /\
  (forall q qn, nodes xa !! q = Some qn -> exists qn', nodes xa' !! q = Some qn' /\ height qn' = height qn)).
Proof.
  destruct grow_facts as (Hp & Hpar & Ho & Hne & Hpf & Hnf & Hh).
  assert (nodes xa0 !! r = Some root) as Hr0 by (unfold xa0, alloc_node; cbn; fold r; by rewrite lookup_insert_eq).
  assert (nodes xa0 !! h = Some hn) as Hh0 by (unfold xa0, alloc_node; cbn; fold r; by rewrite lookup_insert_ne).
  unfold set_entry, set_parent, get_node. rewrite Hr0. cbn [unwrap mbind run_bind]. rewrite (entry_with_lt root 0) by lia. cbn [mbind run_bind].
  change (slots root !! 0) with (None : option (XEntry P)). cbn [mbind option_bind run_bind].
  rewrite Hh0. cbn [unwrap mbind run_bind]. rewrite lookup_with_node, decide_False by done. rewrite Hr0. cbn [unwrap mbind run_bind].
  change (with_node _ r _) with xa1. unfold update_mark, get_node.
  assert (nodes xa1 !! r = Some (with_slot root 0 (Some (Left h)))) as Hr1 by by rewrite grow_nodes, decide_True.
  assert (nodes xa1 !! h = Some (with_parent hn (Some r))) as Hh1 by by rewrite grow_nodes, decide_False, decide_True.
  rewrite Hr1. cbn [unwrap mbind run_bind]. rewrite (entry_with_lt _ 0) by lia. cbn [mbind run_bind].
  rewrite lookup_with_slot. cbn [decide mbind option_bind entry_left].
  eapply returns_mono.
  { eapply (all_marks_spec (Some r) _ xa1 (<[r := 0]> pos) r 0 (with_slot root 0 (Some (Left h))) 0 (fun m => negb (is_mark_clear hn m))); try done.
    - apply grow_shape.
    - by rewrite lookup_insert_eq.
    - apply grow_bits.
    - intros m Hm _. unfold is_mark_clear, mark_is_clear. rewrite negb_true_iff, Z.eqb_neq. split.
      + intros Hnz. exists h, (with_parent hn (Some r)). done.
      + intros (d & dn & Hd & Hdn & Hnz). rewrite lookup_with_slot in Hd. cbn in Hd. injection Hd as <-. rewrite Hh1 in Hdn. by injection Hdn as <-.
    - intros xa' m Hm Hk Hot. cbn [height with_slot] in Hot.
      assert (nodes xa' !! h = Some (with_parent hn (Some r))) as ->; [|done]. apply Hot; [done|done|]. cbn. unfold go_root. lia. }
  cbn [height with_slot]. intros xa' (Hk & Hb' & Hot & _). split_and!.
  - eapply shape_skel; [exact Hk|apply grow_shape].
  - done.
  - apply grow_contents; done.
  - destruct (sk_to _ _ Hk _ _ Hr1) as (rn & Hrn & _ & Eh & _). exists rn. split; [done|]. rewrite Eh. done.
  - intros q qn Hq. destruct (grow_node q qn Hq) as (_ & q1 & Hq1 & _ & Eh1 & _). destruct (sk_to _ _ Hk _ _ Hq1) as (qn' & Hqn' & _ & Eh & _).
    exists qn'. split; [done|congruence].
Qed.
End grow.

(** ** Stores *)

Section write.
Context {P : Type}.
Implicit Types (xa : XArray P) (pos : gmap nat Z) (node : XNode P) (M : gmap Z P) (K : nat -> gset Z) (c : Cursor).

Lemma shape_with_head hd xa h pos : shape hd xa pos -> shape hd (with_head xa h) pos.
Proof.
  intros [H1 H2 H3 H4]. split; try done. intros n b Hp. destruct (H3 n b Hp) as (node & Hn & [G1 G2 G3 G4 G5 G6 G7 G8 G9]). exists node. split; [done|]. by split.
Qed.

Lemma contents_with_head xa h pos M K : contents xa pos M K -> contents (with_head xa h) pos M K.
Proof. intros [H1 H2 H3]. by split. Qed.

Lemma from_index_spec k : 0 <= k < 2 ^ 60 -> returns (from_index k) (fun h => 1 <= h <= 10 /\ k < span h).
Proof.
  intros Hk. apply (loop_total _ (fun h => 1 <= h <= 10) _ (fun h => Z.to_nat (10 - h))).
  - intros h Hh. rewrite max_index_span by done. cbn [mbind run_bind]. destruct (Z.ltb_spec (span h - 1) k); (eexists; split; [done|]); cbn beta iota; [|lia].
    assert (h <> 10) by (intros ->; change (span 10) with (2 ^ 60) in *; lia). lia.
  - lia.
  - unfold HEIGHTS. lia.
Qed.

(** A first root. *)
Lemma first_root_spec xa pos M K k h : repr xa pos M K -> xa_head xa = None -> 0 <= k < span h -> 1 <= h <= 10 ->
  repr_except (with_head (snd (alloc_node xa (XNode_new_root h))) (Some (next_node xa))) {[next_node xa := 0]} M K k.
Proof.
  intros [Hs Hb Hct Hf] Eh Hk Hh. rewrite Eh in Hs. pose proof (sh_none _ _ _ Hs eq_refl) as ->.
  assert (M = ∅) as ->.
  { apply map_empty. intros j. destruct (M !! j) as [x|] eqn:E; [|done]. apply (ct_items _ _ _ _ Hct) in E as (n & b & node & Hp & _). by rewrite lookup_empty in Hp. }
  pose proof (span_gt0 h ltac:(lia)). set (r := next_node xa). set (xa' := with_head _ _).
  assert (nodes xa' !! r = Some (XNode_new_root h)) as Hr by (unfold xa'; cbn; fold r; by rewrite lookup_insert_eq).
  assert (forall n b node, ({[r := 0]} : gmap nat Z) !! n = Some b -> nodes xa' !! n = Some node -> n = r /\ b = 0 /\ node = XNode_new_root h) as Hone.
  { intros n b node Hp Hn. apply lookup_singleton_Some in Hp as [<- <-]. split_and!; congruence. }
  split.
  - split; [intros x [= <-]; rewrite lookup_singleton_eq; eauto|done| |].
    + intros n b Hp. apply lookup_singleton_Some in Hp as [<- <-]. exists (XNode_new_root h). split; [done|]. split; cbn -[span].
      all: first [done | lia | split; [lia|apply span_le; lia] | apply Z.mod_0_l; lia | repeat constructor; unfold is_bitmap; lia].
    + intros n node Hn. unfold xa' in Hn. cbn in Hn. fold r in Hn. cbn. fold r. destruct (decide (n = r)) as [->|]; [lia|].
      rewrite lookup_insert_ne in Hn by done. apply (sh_fresh _ _ _ Hs) in Hn. fold r in Hn. lia.
  - intros n b node m i Hp Hn Hnh Hm Hi. destruct (Hone _ _ _ Hp Hn) as (-> & -> & ->). right. cbn. rewrite lookup_empty.
    assert (Z.testbit ([0; 0; 0; 0] !!! m) i = false) as ->. { unfold NUM_MARKS in *. do 4 (destruct m as [|m]; [apply Z.bits_0|]). lia. }
    split; [done|naive_solver].
  - split.
    + intros j x. rewrite lookup_empty. split; [done|]. intros (n & b & node & Hp & Hn & _ & Hsl). destruct (Hone _ _ _ Hp Hn) as (-> & -> & ->). exfalso. exact (lookup_empty_Some (M := gmap Z) _ _ Hsl).
    + intros n b node m i Hp Hn Hnh Hm Hi. destruct (Hone _ _ _ Hp Hn) as (-> & -> & ->). cbn.
      assert (Z.testbit ([0; 0; 0; 0] !!! m) i = false) as ->. { unfold NUM_MARKS in *. do 4 (destruct m as [|m]; [apply Z.bits_0|]). lia. }
      split; [done|]. intros Hin. apply (keyset_dom _ _ _ _ _ _ Hct) in Hin. set_solver.
    + intros m j Hj. by apply (ct_sub _ _ _ _ Hct) in Hj.
  - intros n b node Hp Hn. destruct (Hone _ _ _ Hp Hn) as (-> & -> & ->). left. unfold cov. cbn -[span]. lia.
Qed.

Lemma repr_weaken xa pos M K k : repr xa pos M K -> repr_except xa pos M K k.
Proof. intros [H1 H2 H3 H4]. split; try done. intros n b node Hp Hn. right. by eapply H4. Qed.

(** A further root. *)
Lemma xa_grow_spec xa pos M K k h hn : repr_except xa pos M K k -> xa_head xa = Some h -> nodes xa !! h = Some hn -> height hn < 10 ->
  returns (set_entry (snd (alloc_node xa (XNode_new_root (go_root (height hn))))) (next_node xa) 0 (Some (Left h))) (fun xa' =>
    repr_except (with_head xa' (Some (next_node xa))) (<[next_node xa := 0]> pos) M K k /\
    exists rn, nodes xa' !! next_node xa = Some rn /\ height rn = height hn + 1).
Proof.
  intros [Hs Hb Hct Hf] Eh Hhn Hlt. rewrite Eh in Hs. destruct (sh_head _ _ _ Hs h eq_refl) as (Hp & _).
  eapply returns_mono; [apply (set_entry_grow xa pos M K h hn Hs Hb Hct Hhn Hlt)|].
  intros xa' (Hs' & Hb' & Hct' & (rn & Hrn & Erh) & Hhs). split; [|eauto]. split.
  - by apply shape_with_head.
  - done.
  - by apply contents_with_head.
  - intros n b node Hn Hnn. cbn in Hnn. destruct (decide (n = next_node xa)) as [->|Hne].
    + rewrite lookup_insert_eq in Hn. injection Hn as <-. assert (node = rn) as -> by congruence. rewrite Erh.
      pose proof (no_height _ _ _ _ _ _ (shape_node _ _ _ _ _ _ Hs Hp Hhn)). pose proof (span_le (height hn) (height hn + 1) ltac:(lia)). unfold cov.
      destruct (Hf h 0 hn Hp Hhn) as [Hc|(j & Hj & Hc)]; unfold cov in Hc; [left; lia|right; exists j; split; [done|lia]].
    + rewrite lookup_insert_ne in Hn by done. destruct (sh_node _ _ _ Hs _ _ Hn) as (q0 & Hq0 & _). destruct (Hhs n q0 Hq0) as (q1 & Hq1 & E).
      assert (q1 = node) as -> by congruence. rewrite E. by eapply Hf.
Qed.

Definition reserved xa' M K (k : Z) : Prop := exists pos', repr_except xa' pos' M K k /\
  exists h hn, xa_head xa' = Some h /\ nodes xa' !! h = Some hn /\ cov (height hn) 0 k.

Lemma reserve_spec xa pos M K k : repr xa pos M K -> 0 <= k < 2 ^ 60 -> returns (reserve xa k) (fun xa' => reserved xa' M K k).
Proof.
  intros Hr Hk. unfold reserve. destruct (xa_head xa) as [h|] eqn:Eh.
  2: { eapply returns_bind; [by apply from_index_spec|]. intros ht [Hht Hkh]. cbn [alloc_node]. apply returns_ret.
       exists {[next_node xa := 0]}. split; [apply (first_root_spec xa pos M K k ht); try done; lia|].
       eexists _, _. cbn. rewrite lookup_insert_eq. split_and!; try done. unfold cov. cbn -[span]. lia. }
  apply (loop_total _ (fun xa => exists pos h, repr_except xa pos M K k /\ xa_head xa = Some h) _
    (fun xa => match xa_head xa with Some h => node_depth xa h | None => 0%nat end)).
  - clear xa pos Hr h Eh. intros xa (pos & h & Hre & Eh). pose proof Hre as [Hs Hb Hct Hf]. rewrite Eh. cbn [unwrap mbind run_bind].
    destruct (sh_head _ _ _ Hs h Eh) as (Hp & hn & Hhn & _). unfold get_node. rewrite Hhn. cbn [unwrap mbind run_bind].
    pose proof (no_height _ _ _ _ _ _ (shape_node _ _ _ _ _ _ Hs Hp Hhn)) as Hht. rewrite max_index_span by done. cbn [mbind run_bind].
    destruct (Z.leb_spec k (span (height hn) - 1)) as [Hle|Hgt].
    { eexists. split; [done|]. cbn beta iota. exists pos. split; [done|]. exists h, hn. split_and!; try done. unfold cov. lia. }
    assert (height hn < 10). { destruct (decide (height hn = 10)) as [E|]; [|lia]. rewrite E in Hgt. change (span 10) with (2 ^ 60) in Hgt. lia. }
    cbn [alloc_node]. destruct (xa_grow_spec xa pos M K k h hn Hre Eh Hhn ltac:(done)) as (xa' & Hxa' & Hre' & rn & Hrn & Erh).
    unfold alloc_node in Hxa'. cbn [snd] in Hxa'. rewrite Hxa'. cbn [mbind run_bind]. eexists. split; [done|]. cbn beta iota. split; [eauto|].
    unfold node_depth. cbn. rewrite Hrn, Hhn. lia.
  - exists pos, h. split; [by apply repr_weaken|done].
  - rewrite Eh. unfold node_depth. destruct Hr as [Hs _ _ _]. destruct (sh_head _ _ _ Hs h Eh) as (Hp & hn & Hhn & _). rewrite Hhn.
    pose proof (no_height _ _ _ _ _ _ (shape_node _ _ _ _ _ _ Hs Hp Hhn)). unfold HEIGHTS. lia.
Qed.
End write.

Section store.
Context {P : Type}.
Implicit Types (xa : XArray P) (pos : gmap nat Z) (node : XNode P) (M : gmap Z P) (K : nat -> gset Z) (c : Cursor).

(** A cursor at the leaf of its index. *)
Definition at_leaf xa pos c : Prop := exists n off b node, state c = AtNode n off /\ leaf_node xa pos n b node /\ 0 <= off < 64 /\ index c = b + off.

Lemma continue_mut_spec xa pos M K c : repr_except xa pos M K (index c) -> at_target xa pos (index c) (state c) ->
  returns (continue_traverse_to_target_mut xa c) (fun '(xa', c') => exists pos', repr_except xa' pos' M K (index c) /\ index c' = index c /\ at_leaf xa' pos' c').
Proof.
  intros Hr Hat. set (k := index c) in *.
  apply (loop_total _ (fun '(xa, c) => exists pos, repr_except xa pos M K k /\ index c = k /\ at_target xa pos k (state c)) _ (fun '(xa, c) => state_height xa (state c))).
  2: { eauto. }
  2: { destruct Hr as [Hs _ _ _]. destruct Hat as (n & b & node & -> & Hp & Hn & _). cbn. rewrite Hn. pose proof (no_height _ _ _ _ _ _ (shape_node _ _ _ _ _ _ Hs Hp Hn)). unfold HEIGHTS. lia. }
  clear xa pos Hr Hat. intros [xa c1] (pos & Hr & Ek & n & b & node & Est & Hp & Hn & Hc). pose proof Hr as [Hs Hb Hct Hf].
  pose proof (shape_node _ _ _ _ _ _ Hs Hp Hn) as Hok. pose proof (no_height _ _ _ _ _ _ Hok).
  destruct (cov_offset _ xa pos n b node k Hs Hp Hn Hc) as [Ho Hoc]. set (o := height_offset (height node) k) in *.
  rewrite Est. cbn [is_at_leaf into_node]. unfold get_node. rewrite Hn. cbn [unwrap mbind run_bind]. unfold is_leaf.
  destruct (Z.eqb_spec (height node) 1) as [E|E].
  { eexists. split; [done|]. cbn beta iota. exists pos. split_and!; try done. exists n, o, b, node.
    rewrite E in Hc. destruct (leaf_offset _ xa pos n b node k Hs (conj Hp (conj Hn E)) Hc) as [_ Ek']. rewrite Ek. done. }
  cbn [unwrap mbind run_bind]. rewrite Hn. cbn [unwrap mbind run_bind]. rewrite (entry_with_lt node o) by lia. cbn [mbind run_bind].
  assert (forall xa' pos' d dn nn, repr_except xa' pos' M K k -> nodes xa' !! n = Some nn -> slots nn !! o = Some (Left d) -> nodes xa' !! d = Some dn ->
      pos' !! d = Some (b + o * span (height node - 1)) -> height dn = height node - 1 ->
      exists f, (node ← unwrap (nodes xa' !! n); entry ← entry_with node o; next ← unwrap (entry ≫= entry_left); st ← move_to xa' next (index c1); Ret (Continue (xa', with_state c1 st))) = Ret f /\
      match f with Continue s' => (let '(xa', c') := s' in exists pos, repr_except xa' pos M K k /\ index c' = k /\ at_target xa' pos k (state c')) /\ ((let '(xa', c') := s' in state_height xa' (state c')) < state_height xa (AtNode n o))%nat
                 | Break (xa', c') => exists pos', repr_except xa' pos' M K k /\ index c' = k /\ at_leaf xa' pos' c' end) as Hgo.
  { intros xa' pos' d dn nn Hr' Hnn Hsl Hdn Hdp Hdh. rewrite Hnn. cbn [unwrap mbind run_bind]. rewrite (entry_with_lt nn o) by lia. cbn [mbind run_bind].
    rewrite Hsl. cbn [mbind option_bind entry_left unwrap run_bind]. unfold move_to, get_node. rewrite Hdn. cbn [unwrap mbind run_bind].
    eexists. split; [done|]. cbn [index state with_state]. split.
    - exists pos'. split_and!; try done. rewrite Ek. eexists d, _, dn. split_and!; try done. by rewrite Hdh.
    - cbn. rewrite Hdn, Hn. lia. }
  destruct (slots node !! o) as [[d|x]|] eqn:Esl.
  - destruct (no_child _ _ _ _ _ _ Hok _ _ Esl) as (dn & Hdn & Hdp & _ & _ & Hdh). cbn [mbind run_bind]. by eapply (Hgo xa pos d dn node).
  - pose proof (no_item _ _ _ _ _ _ Hok _ _ Esl). lia.
  - cbn [alloc_node]. destruct (set_entry_attach (xa_head xa) xa pos n b node o Hs Hp Hn ltac:(lia) Ho Esl M K Hb Hct)
      as (xa' & Hxa' & Hs' & Hb' & Hct' & [Ehd Hst] & (dn & Hdn & Hdh) & (nn & Hnn & Hnsl)).
    unfold alloc_node in Hxa'. cbn [snd] in Hxa'. unfold go_leaf. rewrite Hxa'. cbn [mbind run_bind].
    apply (Hgo xa' (<[next_node xa := b + o * span (height node - 1)]> pos) (next_node xa) dn nn); try done; [|by rewrite lookup_insert_eq].
    split; [by rewrite Ehd|done|done|]. intros q qb qn Hq Hqn. destruct (decide (q = next_node xa)) as [->|Hne].
    + rewrite lookup_insert_eq in Hq. injection Hq as <-. left. assert (qn = dn) as -> by congruence. by rewrite Hdh.
    + rewrite lookup_insert_ne in Hq by done. destruct (sh_node _ _ _ Hs _ _ Hq) as (q0 & Hq0 & _). destruct (Hst q q0 Hq0) as (q1 & Hq1 & Eh & _).
      assert (q1 = qn) as -> by congruence. rewrite Eh. by eapply Hf.
Qed.

Lemma expand_spec xa pos M K c : repr xa pos M K -> cursor_ok xa pos c -> index c < 2 ^ 60 ->
  returns (expand_and_traverse_to_target xa c) (fun '(xa', c') => exists pos', repr_except xa' pos' M K (index c) /\ index c' = index c /\ at_leaf xa' pos' c').
Proof.
  intros Hr [Hi Hc] Hlt. unfold expand_and_traverse_to_target. destruct (state c) as [|n off] eqn:Est; cbn [is_at_node].
  2: { apply returns_ret. exists pos. split_and!; [by apply repr_weaken|done|]. destruct Hc as (b & node & Hl & Ho & Ek). by exists n, off, b, node. }
  eapply returns_bind; [apply (reserve_spec xa pos M K); [done|lia]|]. intros xa' (pos' & Hr' & h & hn & Eh & Hhn & Hcov).
  rewrite Eh. cbn [unwrap mbind run_bind]. unfold move_to, get_node. rewrite Hhn. cbn [unwrap mbind run_bind].
  apply (continue_mut_spec xa' pos' M K (with_state c (AtNode h (entry_offset hn (index c))))); [done|].
  destruct Hr' as [Hs' _ _ _]. destruct (sh_head _ _ _ Hs' h Eh) as (Hp & _). by exists h, 0, hn.
Qed.

Lemma cursor_same_tree xa xa' pos n b node : same_tree xa xa' -> leaf_node xa pos n b node -> exists node', leaf_node xa' pos n b node'.
Proof. intros [_ Ht] (Hp & Hn & Hh). destruct (Ht n node Hn) as (node' & Hn' & Eh & _). exists node'. unfold leaf_node. by rewrite Eh. Qed.

(** Storing an item. *)
Lemma store_spec xa pos M K c x : repr xa pos M K -> cursor_ok xa pos c -> index c < 2 ^ 60 ->
  returns (CursorMut_store xa c x) (fun '(xa', c') => exists pos',
    repr xa' pos' (<[index c := x]> M) (fun m => K m ∖ {[index c]}) /\ index c' = index c /\ cursor_ok xa' pos' c').
Proof.
  intros Hr Hc Hlt. unfold CursorMut_store. eapply returns_bind; [by apply (expand_spec xa pos M K)|].
  intros [xa1 c1] (pos1 & [Hs1 Hb1 Hct1 Hf1] & Ei & n & off & b & node & Est & (Hp & Hn & Hh) & Ho & Ek).
  rewrite Est. cbn [into_node unwrap mbind run_bind].
  eapply returns_bind; [apply (set_entry_leaf (xa_head xa1) xa1 pos1 M K n b node off (Some x) Hs1 Hb1 Hct1 Hp Hn Hh Ho)|].
  intros xa2 (Hs2 & Hb2 & Ht2 & Hct2). apply returns_ret. exists pos1. rewrite <- Ek, Ei in Hct2.
  destruct (cursor_same_tree _ _ _ _ _ _ Ht2 (conj Hp (conj Hn Hh))) as (node2 & Hl2). destruct Ht2 as [Ehd Ht2].
  split_and!; [|done|].
  - split; [by rewrite Ehd|done|exact Hct2|]. intros q qb qn Hq Hqn. destruct (sh_node _ _ _ Hs1 _ _ Hq) as (q0 & Hq0 & _).
    destruct (Ht2 q q0 Hq0) as (q1 & Hq1 & Eh & _). assert (q1 = qn) as -> by congruence. rewrite Eh.
    destruct (Hf1 q qb q0 Hq Hq0) as [Hcv|(j & Hj & Hcv)]; [exists (index c)|exists j]; (split; [|done]); rewrite dom_insert; set_solver.
  - destruct Hc as [Hi _]. split; [by rewrite Ei|]. rewrite Est. eauto.
Qed.
End store.

(** ** Removals *)

Section remove.
Context {P : Type}.
Implicit Types (xa : XArray P) (pos : gmap nat Z) (node : XNode P) (M : gmap Z P) (K : nat -> gset Z) (c : Cursor).

(** A higher node that shares an index with a node covers all of it. *)
Lemma cov_nested hd xa pos n b node q qb qn k j : shape hd xa pos ->
  pos !! n = Some b -> nodes xa !! n = Some node -> pos !! q = Some qb -> nodes xa !! q = Some qn -> height node <= height qn ->
  cov (height node) b k -> cov (height qn) qb k -> cov (height node) b j -> cov (height qn) qb j.
Proof.
  intros Hs. remember (Z.to_nat (height qn - height node)) as d eqn:Ed. revert n b node Ed.
  induction d as [|d IH]; intros n b node Ed Hp Hn Hq Hqn Hle Hck Hqk Hcj.
  { assert (n = q) as -> by (eapply (cov_unique hd xa pos n b node q qb qn k); try done; lia). by simplify_eq. }
  destruct (head_exists _ _ _ _ _ Hs Hp) as (h & hn & Hh & Hhn & Hhp & Hhpos).
  destruct (parent node) as [p|] eqn:Epar.
  - destruct (parent_cov _ _ _ _ _ _ _ Hs Hp Hn Epar) as (pn & pb & Hpn & Hpb & Hph & _ & _ & Hk).
    destruct (Hk k Hck) as [Hpk _], (Hk j Hcj) as [Hpj _]. eapply (IH p pb pn); try done; lia.
  - destruct (root_is_head _ _ _ _ _ _ Hs Hp Hn Epar) as (Hh' & _). pose proof (height_le_head _ _ _ _ _ _ _ _ Hs Hh Hhn Hq Hqn).
    assert (h = n) as -> by congruence. assert (hn = node) as -> by congruence. lia.
Qed.

Definition no_keys M (h b : Z) : Prop := forall j, cov h b j -> j ∉ dom M.

Lemma is_empty_spec xa pos M K n b node : shape (xa_head xa) xa pos -> bits_ok xa pos no_exception -> contents xa pos M K ->
  pos !! n = Some b -> nodes xa !! n = Some node ->
  if is_empty node then no_keys M (height node) b else exists j, j ∈ dom M /\ cov (height node) b j.
Proof.
  intros Hs Hb Hct Hp Hn. unfold is_empty, is_mark_clear, mark_is_clear.
  pose proof (marks_sem (xa_head xa) xa pos M K n b node PRESENT_MARK Hs Hb Hct Hp Hn ltac:(unfold PRESENT_MARK, NUM_MARKS; lia)) as Hm.
  change (keyset M K PRESENT_MARK) with (dom M) in Hm. destruct (Z.eqb_spec (marks node !!! PRESENT_MARK) 0) as [E|E].
  - intros j Hc Hj. apply Hm; [by exists j|done].
  - by apply Hm.
Qed.

(** The loop that removes empty nodes is at [cur]; nothing below it is left. *)
Definition removing xa pos M K (k : Z) (cur : nat) : Prop :=
  repr_except xa pos M K k /\ exists b node, pos !! cur = Some b /\ nodes xa !! cur = Some node /\ cov (height node) b k /\ no_keys M (height node) b /\
    forall q qb qn, pos !! q = Some qb -> nodes xa !! q = Some qn -> height qn < height node -> ~ cov (height qn) qb k.

Lemma removing_childless xa pos M K k cur b node : repr_except xa pos M K k -> pos !! cur = Some b -> nodes xa !! cur = Some node -> no_keys M (height node) b ->
  (forall q qb qn, pos !! q = Some qb -> nodes xa !! q = Some qn -> height qn < height node -> ~ cov (height qn) qb k) -> slots node = ∅.
Proof.
  intros [Hs Hb Hct Hf] Hp Hn Hno Hbelow. pose proof (shape_node _ _ _ _ _ _ Hs Hp Hn) as Hok. apply map_empty. intros i.
  destruct (slots node !! i) as [[d|x]|] eqn:Esl; [| |done]; exfalso.
  - pose proof (no_slots _ _ _ _ _ _ Hok _ _ Esl). destruct (no_child _ _ _ _ _ _ Hok _ _ Esl) as (dn & Hdn & Hdp & _ & _ & Hdh).
    pose proof (no_height _ _ _ _ _ _ Hok).
    destruct (Hf d _ dn Hdp Hdn) as [Hc|(j & Hj & Hc)]; [eapply (Hbelow d _ dn Hdp Hdn); [lia|done]|].
    apply (Hno j); [|done]. rewrite Hdh in Hc. eapply cov_slot; [lia|done|exact Hc].
  - pose proof (no_item _ _ _ _ _ _ Hok _ _ Esl) as Hh. pose proof (no_slots _ _ _ _ _ _ Hok _ _ Esl).
    pose proof (leaf_lookup xa pos M K cur b node i Hs Hct (conj Hp (conj Hn Hh)) ltac:(done)) as Hl. rewrite Esl in Hl. cbn in Hl.
    apply (Hno (b + i)); [rewrite Hh; unfold cov; change (span 1) with 64; lia|]. apply elem_of_dom. by rewrite <- Hl.
Qed.

(** The last node: the array is empty. *)
Lemma remove_root xa pos M K k cur b node : repr_except xa pos M K k -> pos !! cur = Some b -> nodes xa !! cur = Some node -> parent node = None ->
  no_keys M (height node) b -> repr (with_head xa None) ∅ M K.
Proof.
  intros [Hs Hb Hct Hf] Hp Hn Hpar Hno. destruct (root_is_head _ _ _ _ _ _ Hs Hp Hn Hpar) as (Hhd & -> & _).
  assert (M = ∅) as ->.
  { apply map_empty. intros j. destruct (M !! j) as [x|] eqn:E; [|done]. exfalso. assert (j ∈ dom M) as Hj by (apply elem_of_dom; eauto).
    destruct (item_leaf (xa_head xa) xa pos M K j Hs Hct Hj) as (l & lb & ln & Hlp & Hln & Hlh & Hlc). rewrite <- Hlh in Hlc.
    apply (Hno j); [|done]. by eapply (leaf_below_head xa pos cur node l lb ln). }
  split; [split; try done; apply (sh_fresh _ _ _ Hs)|by intros n b|split|by intros n b].
  - intros j x. rewrite lookup_empty. split; [done|]. intros (n & b & node' & Hp' & _). by rewrite lookup_empty in Hp'.
  - by intros n b.
  - apply (ct_sub _ _ _ _ Hct).
Qed.

(** After the removal of a child of [p], no node below [p] covers the index, and the nodes above cover [p]. *)
Lemma removed_below xa' pos' k p pb pn' off : shape (xa_head xa') xa' pos' -> pos' !! p = Some pb -> nodes xa' !! p = Some pn' ->
  cov (height pn') pb k -> off = height_offset (height pn') k -> slots pn' !! off = None ->
  forall q qb qn, pos' !! q = Some qb -> nodes xa' !! q = Some qn -> height qn < height pn' -> ~ cov (height qn) qb k.
Proof.
  intros Hs Hp Hpn Hc -> Hsl q qb qn Hq Hqn Hlt Hqc. destruct (cov_child (xa_head xa') xa' pos' p pb pn' q qb qn k) as (d & Hd); try done. congruence.
Qed.

Lemma removed_full xa' pos' M K k p pb pn' : repr_except xa' pos' M K k -> pos' !! p = Some pb -> nodes xa' !! p = Some pn' -> cov (height pn') pb k ->
  (exists j, j ∈ dom M /\ cov (height pn') pb j) ->
  (forall q qb qn, pos' !! q = Some qb -> nodes xa' !! q = Some qn -> height qn < height pn' -> ~ cov (height qn) qb k) -> repr xa' pos' M K.
Proof.
  intros [Hs Hb Hct Hf] Hp Hpn Hc (j & Hj & Hcj) Hbelow. split; try done. intros q qb qn Hq Hqn.
  destruct (Hf q qb qn Hq Hqn) as [Hqc|?]; [|done]. exists j. split; [done|].
  destruct (Z_lt_le_dec (height qn) (height pn')) as [Hlt|Hle]; [by destruct (Hbelow q qb qn Hq Hqn Hlt)|].
  by eapply (cov_nested (xa_head xa') xa' pos' p pb pn' q qb qn k j).
Qed.

Lemma remove_empty_nodes_spec xa pos M K k n : removing xa pos M K k n -> returns (remove_empty_nodes xa n) (fun xa' => exists pos', repr xa' pos' M K).
Proof.
  intros Hrm. apply (loop_total _ (fun '(xa, cur) => exists pos, removing xa pos M K k cur) _ (fun '(xa, cur) => node_depth xa cur)).
  2: { eauto. }
  2: { destruct Hrm as ([Hs _ _ _] & b & node & Hp & Hn & _). unfold node_depth. rewrite Hn.
       pose proof (no_height _ _ _ _ _ _ (shape_node _ _ _ _ _ _ Hs Hp Hn)). unfold HEIGHTS. lia. }
  clear xa pos n Hrm. intros [xa cur] (pos & Hr & b & node & Hp & Hn & Hc & Hno & Hbelow). unfold get_node. rewrite Hn. cbn [unwrap mbind run_bind].
  destruct (parent node) as [p|] eqn:Epar.
  2: { eexists. split; [done|]. cbn beta iota. exists ∅. by eapply remove_root. }
  pose proof (removing_childless _ _ _ _ _ _ _ _ Hr Hp Hn Hno Hbelow) as Hempty. pose proof Hr as [Hs Hb Hct Hf].
  destruct (parent_cov _ _ _ _ _ _ _ Hs Hp Hn Epar) as (pn & pb & Hpn & Hpb & Hph & Hsl & _ & Hk). destruct (Hk k Hc) as [Hpc Hpo].
  destruct (set_entry_detach (xa_head xa) xa pos p pb pn (offset_in_parent node) cur node Hs Hpb Hpn Hsl Hn Hempty M K Hb Hct)
    as (xa' & Hxa' & Hs' & Hb' & Hct' & Ehd & Hhs & pn' & Hpn' & Hpsl').
  rewrite Hxa'. cbn [mbind run_bind]. rewrite Hpn'. cbn [unwrap mbind run_bind]. eexists. split; [done|].
  assert (p <> cur) as Hne by (intros ->; assert (pn = node) as -> by congruence; lia).
  destruct (Hhs p pn Hpn) as (pn2 & E & Eph). assert (pn2 = pn') as -> by congruence. rewrite <- Ehd in Hs'.
  assert (delete cur pos !! p = Some pb) as Hpb' by by rewrite lookup_delete_ne.
  assert (repr_except xa' (delete cur pos) M K k) as Hr'.
  { split; try done. intros q qb qn Hq Hqn. apply lookup_delete_Some in Hq as [Hqc Hq]. destruct (sh_node _ _ _ Hs _ _ Hq) as (q0 & Hq0 & _).
    destruct (Hhs q q0 Hq0) as (q1 & Hq1 & Eq). assert (q1 = qn) as -> by congruence. rewrite Eq. by eapply Hf. }
  rewrite <- Eph in Hpc, Hpo.
  pose proof (removed_below xa' _ k p pb pn' _ Hs' Hpb' Hpn' Hpc eq_refl ltac:(by rewrite Hpo)) as Hbelow'.
  pose proof (is_empty_spec xa' _ M K p pb pn' Hs' Hb' Hct' Hpb' Hpn') as Hem. destruct (is_empty pn'); cbn [negb].
  - split.
    + exists (delete cur pos). split; [done|]. by exists pb, pn'.
    + unfold node_depth. rewrite Hpn', Hn. pose proof (no_height _ _ _ _ _ _ (shape_node _ _ _ _ _ _ Hs Hp Hn)).
      pose proof (no_height _ _ _ _ _ _ (shape_node _ _ _ _ _ _ Hs Hpb Hpn)). lia.
  - exists (delete cur pos). by eapply removed_full.
Qed.

Lemma contents_ext xa pos M K K' : (forall m, K m = K' m) -> contents xa pos M K -> contents xa pos M K'.
Proof.
  intros E [H1 H2 H3]. split; [done| |].
  - intros n b node m i Hp Hn Hh Hm Hi. rewrite (H2 n b node m i Hp Hn Hh Hm Hi). unfold keyset. by rewrite E.
  - intros m k Hk. apply (H3 m). by rewrite E.
Qed.

Lemma repr_ext xa pos M K K' : (forall m, K m = K' m) -> repr xa pos M K -> repr xa pos M K'.
Proof. intros E [H1 H2 H3 H4]. split; try done. by eapply contents_ext. Qed.

Lemma repr_absent xa pos M K k : repr xa pos M K -> M !! k = None -> repr xa pos (delete k M) (fun m => K m ∖ {[k]}).
Proof.
  intros Hr Hk. rewrite delete_id by done. eapply repr_ext; [|exact Hr]. intros m. cbn. apply set_eq. intros j. rewrite elem_of_difference, elem_of_singleton.
  split; [|tauto]. intros Hj. split; [done|]. intros ->. destruct Hr as [_ _ Hct _]. apply (ct_sub _ _ _ _ Hct), elem_of_dom in Hj. rewrite Hk in Hj. by destruct Hj.
Qed.

Lemma xa_remove_spec xa pos M K c : repr xa pos M K -> cursor_ok xa pos c ->
  returns (CursorMut_remove xa c) (fun '(r, xa', c') => r = M !! index c /\ exists pos',
    repr xa' pos' (delete (index c) M) (fun m => K m ∖ {[index c]}) /\ index c' = index c /\ cursor_ok xa' pos' c').
Proof.
  intros Hr Hc. pose proof Hr as [Hs Hb Hct Hf]. unfold CursorMut_remove. eapply returns_bind; [by apply traverse_spec|]. intros c1 (Ei & [Hi1 Hst] & Hno).
  destruct (state c1) as [|n off] eqn:Est; cbn [into_node].
  { apply returns_ret. pose proof (no_leaf_lookup _ _ _ _ _ Hs Hct (Hno eq_refl)) as Hnone. split; [done|]. exists pos.
    split_and!; [by apply repr_absent|done|]. split; [done|by rewrite Est]. }
  destruct Hst as (b & node & Hl & Ho & Ek). pose proof Hl as (Hp & Hn & Hh). unfold get_node. rewrite Hn. cbn [unwrap mbind run_bind].
  rewrite (entry_with_lt node off) by lia. cbn [mbind run_bind]. rewrite (leaf_lookup xa pos M K n b node off Hs Hct Hl Ho).
  eapply returns_bind; [apply (set_entry_leaf (xa_head xa) xa pos M K n b node off None Hs Hb Hct Hp Hn Hh Ho)|].
  intros xa2 (Hs2 & Hb2 & [Ehd Ht2] & Hct2). rewrite <- Ehd in Hs2. rewrite <- Ek, Ei in Hct2 |- *. change (partial_alter (fun _ => None) (index c) M) with (delete (index c) M) in Hct2.
  destruct (Ht2 n node Hn) as (node2 & Hn2 & Eh2 & _). rewrite Hn2. cbn [unwrap mbind run_bind].
  assert (cov (height node2) b (index c)) as Hcov by (rewrite Eh2, Hh; unfold cov; change (span 1) with 64; lia).
  assert (repr_except xa2 pos (delete (index c) M) (fun m => K m ∖ {[index c]}) (index c)) as Hr2.
  { split; try done. intros q qb qn Hq Hqn. destruct (sh_node _ _ _ Hs _ _ Hq) as (q0 & Hq0 & _). destruct (Ht2 q q0 Hq0) as (q1 & Hq1 & Eq & _).
    assert (q1 = qn) as -> by congruence. rewrite Eq. destruct (Hf q qb q0 Hq Hq0) as (j & Hj & Hcj).
    destruct (decide (j = index c)) as [->|]; [by left|right]. exists j. split; [|done]. rewrite dom_delete. set_solver. }
  assert (forall q qb qn, pos !! q = Some qb -> nodes xa2 !! q = Some qn -> height qn < height node2 -> ~ cov (height qn) qb (index c)) as Hbelow.
  { intros q qb qn Hq Hqn Hlt. pose proof (no_height _ _ _ _ _ _ (shape_node _ _ _ _ _ _ Hs2 Hq Hqn)). lia. }
  pose proof (is_empty_spec xa2 pos _ _ n b node2 Hs2 Hb2 Hct2 Hp Hn2) as Hem. destruct (is_empty node2); cbn [negb].
  - eapply returns_bind; [apply (remove_empty_nodes_spec xa2 pos (delete (index c) M) (fun m => K m ∖ {[index c]}) (index c) n)|].
    { split; [done|]. by exists b, node2. }
    intros xa3 (pos3 & Hr3). apply returns_ret. split; [done|]. exists pos3. split_and!; [done|done|]. split; [done|done].
  - apply returns_ret. split; [done|]. exists pos. split_and!; [by eapply removed_full|done|]. split; [done|]. rewrite Est.
    exists b, node2. split; [split_and!; try done; congruence|split; [done|lia]].
Qed.
End remove.

(** ** Marks, and clearing the array *)

Section mark.
Context {P : Type}.
Implicit Types (xa : XArray P) (pos : gmap nat Z) (node : XNode P) (M : gmap Z P) (K : nat -> gset Z) (c : Cursor).

Definition mark_key K (mk : nat) (k : Z) (set : bool) (m : nat) : gset Z :=
  if (m =? mk)%nat then (if set then {[k]} ∪ K m else K m ∖ {[k]}) else K m.

Lemma XMark_index_lt mk : (XMark_index mk < PRESENT_MARK)%nat.
Proof. destruct mk; unfold PRESENT_MARK; cbn; lia. Qed.

Lemma change_leaf_mark xa pos M K n b node off mk set : repr xa pos M K -> leaf_node xa pos n b node -> 0 <= off < 64 -> (mk < PRESENT_MARK)%nat ->
  is_Some (M !! (b + off)) ->
  returns (change_mark xa n mk off set) (fun xa' => repr xa' pos M (mark_key K mk (b + off) set) /\ same_tree xa xa').
Proof.
  intros [Hs Hb Hct Hf] (Hp & Hn & Hh) Ho Hmk HM. eapply returns_mono.
  { apply (change_mark_spec (xa_head xa) xa pos no_exception n b node mk off set); try done; [unfold NUM_MARKS, PRESENT_MARK in *; lia| |intros Hlt; lia].
    intros q qb qn m i H1 H2 H3 H4 H5. destruct (Hb q qb qn m i H1 H2 H3 H4 H5) as [[]|?]. by right. }
  intros xa' (Hk & Hb' & Hsm & Hot & Hbit). pose proof (skel_same_tree _ _ Hk) as Ht. split; [|done].
  assert (forall q qn', nodes xa' !! q = Some qn' -> exists qn, nodes xa !! q = Some qn /\ height qn' = height qn /\ slots qn' = slots qn) as Hfrom.
  { intros q qn' Hq. destruct (sk_from _ _ Hk _ _ Hq) as (qn & Hqn & _ & ? & _ & ? & _). eauto. }
  split; [rewrite (sk_head _ _ Hk); by eapply shape_skel|done|split|].
  - intros k x. rewrite (ct_items _ _ _ _ Hct). split; intros (q & qb & qn & Hq & Hqn & Hqh & Hx).
    + destruct (sk_to _ _ Hk _ _ Hqn) as (qn' & Hqn' & _ & Eh & _ & Es & _). exists q, qb, qn'. by rewrite Eh, Es.
    + destruct (Hfrom q qn Hqn) as (q0 & Hq0 & Eh & Es). exists q, qb, q0. by rewrite <- Eh, <- Es.
  - intros q qb qn' m i Hq Hqn' Hqh Hm Hi. destruct (Hfrom q qn' Hqn') as (qn & Hqn & Eh & _).
    pose proof (ct_marks _ _ _ _ Hct q qb qn m i Hq Hqn ltac:(lia) Hm Hi) as Hold.
    assert (Z.testbit (marks qn' !!! m) i = if decide (q = n /\ m = mk /\ i = off) then set else Z.testbit (marks qn !!! m) i) as ->.
    { destruct (decide (m = mk)) as [->|Hne]; [|rewrite (Hsm q qn qn' m Hqn Hqn' Hne), decide_False by tauto; done].
      destruct (decide (q = n)) as [->|Hqn2].
      - rewrite (Hbit qn' Hqn' i ltac:(lia)). assert (qn = node) as -> by congruence. repeat case_decide; naive_solver.
      - rewrite decide_False by tauto. assert (nodes xa' !! q = Some qn) by (apply Hot; [done|done|lia]). congruence. }
    unfold keyset, mark_key in *. destruct (Nat.eqb_spec m PRESENT_MARK) as [->|Hp3].
    { rewrite decide_False by lia. done. }
    destruct (Nat.eqb_spec m mk) as [->|Hne]; [|rewrite decide_False by tauto; done].
    destruct (decide (q = n /\ mk = mk /\ i = off)) as [(-> & _ & ->)|Hdiff].
    + assert (qb = b) as -> by congruence. destruct set; set_solver.
    + assert (qb + i <> b + off) as Hne.
      { intros E. apply Hdiff. destruct (leaf_at (xa_head xa) xa pos q qb qn n b node (b + off)) as [-> ->]; try done; [lia..|]. split_and!; try done; lia. }
      rewrite Hold. destruct set; set_solver.
  - intros m k. unfold mark_key. destruct (m =? mk)%nat; [|apply (ct_sub _ _ _ _ Hct)]. destruct set; intros Hin.
    + apply elem_of_union in Hin as [->%elem_of_singleton|Hin]; [by apply elem_of_dom|by apply (ct_sub _ _ _ _ Hct m)].
    + apply elem_of_difference in Hin as [Hin _]. by apply (ct_sub _ _ _ _ Hct m).
  - intros q qb qn' Hq Hqn'. destruct (Hfrom q qn' Hqn') as (qn & Hqn & Eh & _). rewrite Eh. by eapply Hf.
Qed.

Lemma set_mark_spec xa pos M K c mk set : repr xa pos M K -> cursor_ok xa pos c ->
  returns (CursorMut_set_mark xa mk set c) (fun '(r, xa', c') => r = (M !! index c ≫= fun _ => Some tt) /\
    repr xa' pos M (if M !! index c then mark_key K (XMark_index mk) (index c) set else K) /\ index c' = index c /\ cursor_ok xa' pos c').
Proof.
  intros Hr Hc. pose proof Hr as [Hs Hb Hct Hf]. unfold CursorMut_set_mark. eapply returns_bind; [by apply traverse_spec|]. intros c1 (Ei & [Hi1 Hst] & Hno).
  destruct (state c1) as [|n off] eqn:Est; cbn [into_node].
  { apply returns_ret. rewrite (no_leaf_lookup _ _ _ _ _ Hs Hct (Hno eq_refl)). cbn. split_and!; try done. split; [done|by rewrite Est]. }
  destruct Hst as (b & node & Hl & Ho & Ek). pose proof Hl as (Hp & Hn & Hh). unfold get_node. rewrite Hn. cbn [unwrap mbind run_bind].
  rewrite (entry_with_lt node off) by lia. cbn [mbind run_bind]. rewrite (leaf_lookup xa pos M K n b node off Hs Hct Hl Ho), <- Ek, Ei.
  destruct (M !! index c) as [x|] eqn:EM; cbn [mbind option_bind].
  2: { apply returns_ret. split_and!; try done. split; [done|]. rewrite Est. eauto. }
  assert (returns (if set then set_mark xa n off (XMark_index mk) else unset_mark xa n off (XMark_index mk)) (fun xa' => repr xa' pos M (mark_key K (XMark_index mk) (b + off) set) /\ same_tree xa xa')) as Hch.
  { replace (if set then set_mark xa n off (XMark_index mk) else unset_mark xa n off (XMark_index mk)) with (change_mark xa n (XMark_index mk) off set) by by destruct set.
    eapply change_leaf_mark; try done; [apply XMark_index_lt|]. rewrite <- Ek, Ei, EM. eauto. }
  eapply returns_bind; [exact Hch|]. intros xa' [Hr' Ht]. apply returns_ret. split_and!; try done; [by rewrite <- Ei, Ek|].
  split; [done|]. rewrite Est. destruct (cursor_same_tree _ _ _ _ _ _ Ht Hl) as (node' & Hl'). eauto.
Qed.

Lemma is_marked_spec xa pos M K c mk : repr xa pos M K -> cursor_ok xa pos c ->
  returns (Cursor_is_marked xa mk c) (fun '(r, c') => r = bool_decide (index c ∈ K (XMark_index mk)) /\ index c' = index c /\ cursor_ok xa pos c').
Proof.
  intros Hr Hc. pose proof Hr as [Hs Hb Hct Hf]. unfold Cursor_is_marked. eapply returns_bind; [by apply traverse_spec|]. intros c1 (Ei & [Hi1 Hst] & Hno).
  destruct (state c1) as [|n off] eqn:Est; cbn [into_node].
  { apply returns_ret. split_and!; [|done|split; [done|by rewrite Est]]. symmetry. apply bool_decide_eq_false. intros Hin.
    apply (ct_sub _ _ _ _ Hct), elem_of_dom in Hin. rewrite (no_leaf_lookup _ _ _ _ _ Hs Hct (Hno eq_refl)) in Hin. by destruct Hin. }
  destruct Hst as (b & node & Hl & Ho & Ek). pose proof Hl as (Hp & Hn & Hh). unfold get_node. rewrite Hn. cbn [unwrap mbind run_bind].
  apply returns_ret. split_and!; [|done|split; [done|rewrite Est; eauto]]. unfold node_is_marked. rewrite mark_is_marked_spec by lia.
  pose proof (XMark_index_lt mk) as Hlt. unfold PRESENT_MARK in Hlt.
  pose proof (ct_marks _ _ _ _ Hct n b node (XMark_index mk) off Hp Hn Hh ltac:(unfold NUM_MARKS; lia) Ho) as Hm. unfold keyset in Hm.
  rewrite (proj2 (Nat.eqb_neq (XMark_index mk) PRESENT_MARK)) in Hm by (unfold PRESENT_MARK; lia). rewrite <- Ek, Ei in Hm.
  symmetry. destruct (Z.testbit _ _); [apply bool_decide_eq_true, Hm; done|apply bool_decide_eq_false; intros Hin; by apply Hm in Hin].
Qed.

(** What [clear_parent] leaves alone. *)
Record same_slots xa xa' : Prop := {
  ss_next : next_node xa' = next_node xa;
  ss_to : forall n a, nodes xa !! n = Some a -> exists b, nodes xa' !! n = Some b /\ slots b = slots a;
  ss_from : forall n b, nodes xa' !! n = Some b -> is_Some (nodes xa !! n)
}.

Lemma clear_parent_spec hd fuel xa pos n b node xa' : shape hd xa pos -> pos !! n = Some b -> nodes xa !! n = Some node -> height node <= Z.of_nat fuel ->
  same_slots xa xa' -> returns (clear_parent_at fuel xa' n) (same_slots xa).
Proof.
  intros Hs. revert n b node xa'. induction fuel as [|fuel IH]; intros n b node xa' Hp Hn Hf Hss;
    pose proof (shape_node _ _ _ _ _ _ Hs Hp Hn) as Hok; pose proof (no_height _ _ _ _ _ _ Hok); [lia|].
  cbn [clear_parent_at]. unfold get_node. destruct (ss_to _ _ Hss _ _ Hn) as (node' & Hn' & Es). rewrite Hn'. cbn [unwrap mbind run_bind].
  apply (returns_foldl (fun xa2 offset => child ← entry_with node' offset; match child ≫= entry_left with Some d => clear_parent_at fuel xa2 d | None => Ret xa2 end) (fun _ => same_slots xa)).
  - split; [apply Hss| |].
    + intros q a Ha. destruct (ss_to _ _ Hss _ _ Ha) as (a' & Ha' & Ea). rewrite lookup_with_node. case_decide; [|eauto]. subst q.
      assert (a' = node') as -> by congruence. eexists. split; [done|]. cbn. congruence.
    + intros q a. rewrite lookup_with_node. case_decide; [subst; eauto|apply (ss_from _ _ Hss)].
  - intros j x xa2 Hx Hss2. apply lookup_seqZ in Hx as [-> Hx]. change SLOT_SIZE with 64 in Hx. rewrite (entry_with_lt node' _) by lia. cbn [mbind run_bind]. rewrite Es.
    destruct (slots node !! (0 + Z.of_nat j)) as [[d|y]|] eqn:Esl; cbn [mbind option_bind entry_left]; [|by apply returns_ret..].
    destruct (no_child _ _ _ _ _ _ Hok _ _ Esl) as (dn & Hdn & Hdp & _ & _ & Hdh). eapply (IH d _ dn); try done; lia.
Qed.

Lemma xa_clear_spec xa pos M K : repr xa pos M K -> returns (LockedXArray_clear xa) (fun xa' => repr xa' ∅ ∅ (fun _ => ∅)).
Proof.
  intros [Hs Hb Hct Hf]. unfold LockedXArray_clear.
  eapply (returns_bind _ _ (same_slots xa)).
  - destruct (xa_head xa) as [h|] eqn:Eh.
    + destruct (sh_head _ _ _ Hs h eq_refl) as (Hp & hn & Hhn & _). pose proof (no_height _ _ _ _ _ _ (shape_node _ _ _ _ _ _ Hs Hp Hhn)).
      eapply (clear_parent_spec (Some h)); try done; [unfold HEIGHTS; lia|]. split; eauto.
    + apply returns_ret. split; eauto.
  - intros xa' Hss. apply returns_ret. split; [split; try done|by intros n b|split|by intros n b].
    + intros n node Hn. destruct (ss_from _ _ Hss n node Hn) as [a Ha]. cbn. rewrite (ss_next _ _ Hss). by eapply sh_fresh.
    + intros k x. rewrite lookup_empty. split; [done|]. intros (n & b & node & Hp & _). by rewrite lookup_empty in Hp.
    + by intros n b.
    + set_solver.
Qed.
End mark.

(** ** The array as a map *)

Section spec.
Context {P : Type}.
Implicit Types (xa : XArray P) (pos : gmap nat Z) (M : gmap Z P) (K : nat -> gset Z) (c : Cursor).

(** What a program does with a locked array: it creates a cursor, moves it, and reads and writes. *)
Inductive XOp :=
  | OpCursor (index : Z)
  | OpReset
  | OpLoad
  | OpStore (item : P)
  | OpRemove
  | OpNext
  | OpNextPresent
  | OpNextMarked (m : XMark)
  | OpIsMarked (m : XMark)
  | OpSetMark (m : XMark)
  | OpUnsetMark (m : XMark)
  | OpClear.

Inductive XOut :=
  | OutDone
  | OutItem (item : option P)
  | OutIndex (index : option Z)
  | OutMarked (marked : bool)
  | OutMark (result : option unit).

(** An operation on the array; [OpClear] ends the life of the cursor. *)
Definition xarray_op (xa : XArray P) (c : Cursor) (op : XOp) : run (XOut * XArray P * Cursor) :=
  match op with
  | OpCursor i => Ret (OutDone, xa, reset_to i)
  | OpReset => Ret (OutDone, xa, reset c)
  | OpLoad => '(r, c) ← Cursor_load xa c; Ret (OutItem r, xa, c)
  | OpStore x => '(xa, c) ← CursorMut_store xa c x; Ret (OutDone, xa, c)
  | OpRemove => '(r, xa, c) ← CursorMut_remove xa c; Ret (OutItem r, xa, c)
  | OpNext => c ← Cursor_next xa c; Ret (OutDone, xa, c)
  | OpNextPresent => '(r, c) ← next_present xa c; Ret (OutIndex r, xa, c)
  | OpNextMarked m => '(r, c) ← Cursor_next_marked xa m c; Ret (OutIndex r, xa, c)
  | OpIsMarked m => '(r, c) ← Cursor_is_marked xa m c; Ret (OutMarked r, xa, c)
  | OpSetMark m => '(r, xa, c) ← CursorMut_set_mark xa m true c; Ret (OutMark r, xa, c)
  | OpUnsetMark m => '(r, xa, c) ← CursorMut_set_mark xa m false c; Ret (OutMark r, xa, c)
  | OpClear => xa ← LockedXArray_clear xa; Ret (OutDone, xa, Cursor_new (index c))
  end.

Fixpoint xarray_run (xa : XArray P) (c : Cursor) (ops : list XOp) : run (list XOut) :=
  match ops with
  | [] => Ret []
  | op :: ops =>
      '(out, xa, c) ← xarray_op xa c op;
      outs ← xarray_run xa c ops;
      Ret (out :: outs)
  end.

(** The same on a map with sets of marked keys and an index. *)
Record AMap := mkAMap {
  a_items : gmap Z P;
  a_marked : nat -> gset Z;
  a_index : Z
}.

Definition AMap_new : AMap := mkAMap ∅ (fun _ => ∅) 0.

(** [None] where the code panics: items at 2^60 and above, and moving past the last index. *)
Definition amap_op (a : AMap) (op : XOp) : option (XOut * AMap) :=
  let at_index i := mkAMap (a_items a) (a_marked a) i in
  let found r := (OutIndex r, at_index (default (a_index a) r)) in
  let marked m set := mkAMap (a_items a) (mark_key (a_marked a) (XMark_index m) (a_index a) set) (a_index a) in
  match op with
  | OpCursor i => if (0 <=? i) && (i <? u64_modulus) then Some (OutDone, at_index i) else None
  | OpReset => Some (OutDone, a)
  | OpLoad => Some (OutItem (a_items a !! a_index a), a)
  | OpStore x =>
      if a_index a <? 2 ^ 60 then
        Some (OutDone, mkAMap (<[a_index a := x]> (a_items a)) (fun m => a_marked a m ∖ {[a_index a]}) (a_index a))
      else None
  | OpRemove =>
      Some (OutItem (a_items a !! a_index a),
        mkAMap (delete (a_index a) (a_items a)) (fun m => a_marked a m ∖ {[a_index a]}) (a_index a))
  | OpNext => if a_index a + 1 <? u64_modulus then Some (OutDone, at_index (a_index a + 1)) else None
  | OpNextPresent => Some (found (next_key (dom (a_items a)) (a_index a + 1)))
  | OpNextMarked m => Some (found (next_key (a_marked a (XMark_index m)) (a_index a + 1)))
  | OpIsMarked m => Some (OutMarked (bool_decide (a_index a ∈ a_marked a (XMark_index m))), a)
  | OpSetMark m => Some (if a_items a !! a_index a then (OutMark (Some tt), marked m true) else (OutMark None, a))
  | OpUnsetMark m => Some (if a_items a !! a_index a then (OutMark (Some tt), marked m false) else (OutMark None, a))
  | OpClear => Some (OutDone, mkAMap ∅ (fun _ => ∅) (a_index a))
  end.

Fixpoint amap_run (a : AMap) (ops : list XOp) : option (list XOut) :=
  match ops with
  | [] => Some []
  | op :: ops =>
      '(out, a) ← amap_op a op;
      outs ← amap_run a ops;
      Some (out :: outs)
  end.

(** The array and the map correspond. *)
Definition simulates xa c (a : AMap) : Prop :=
  exists pos, repr xa pos (a_items a) (a_marked a) /\ cursor_ok xa pos c /\ index c = a_index a.

Lemma new_simulates : simulates XArray_new (Cursor_new 0) AMap_new.
Proof.
  exists ∅. split_and!; [|split; [cbn; unfold u64_modulus; lia|done]|done]. split; [split; try done|by intros n b|split|by intros n b].
  - intros k x. cbn. rewrite lookup_empty. split; [done|]. intros (n & b & node & Hp & _). by rewrite lookup_empty in Hp.
  - by intros n b.
  - cbn. set_solver.
Qed.

(** Keys are below 2^60. *)
Lemma key_bound xa pos M K k : repr xa pos M K -> k ∈ dom M -> 0 <= k < 2 ^ 60.
Proof.
  intros [Hs _ Hct _] Hk. destruct (item_leaf (xa_head xa) xa pos M K k Hs Hct Hk) as (n & b & node & Hp & Hn & Hh & Hc).
  eapply (cov_bound (xa_head xa) xa pos n b node); try done. by rewrite Hh.
Qed.

Lemma find_simulates xa c a m : simulates xa c a -> (m < NUM_MARKS)%nat ->
  let r := next_key (keyset (a_items a) (a_marked a) m) (a_index a + 1) in
  returns (find_marked xa m c) (fun '(r', c') => r' = r /\ simulates xa c' (mkAMap (a_items a) (a_marked a) (default (a_index a) r))).
Proof.
  intros (pos & Hr & Hc & Ei) Hm r. destruct (Z_lt_le_dec (index c + 1) u64_modulus) as [Hlt|Hge].
  - eapply returns_mono; [by apply (find_marked_spec xa pos (a_items a) (a_marked a))|]. intros [r' c'] [Hl Hpost]. cbn [fst snd] in *. rewrite Ei in Hl.
    assert (r' = r) as -> by (eapply least_unique; [exact Hl|apply next_key_least]). split; [done|]. exists pos. split; [done|].
    destruct r as [j|]; cbn [default a_index].
    + destruct Hpost. done.
    + subst c'. split; [|done]. destruct Hc as [Hi _]. split; done.
  - unfold find_marked, checked_add. rewrite (proj2 (Z.ltb_ge _ _)) by done. apply returns_ret.
    assert (None = r) as <-.
    { eapply least_unique; [|apply next_key_least]. intros j Hj. pose proof (key_bound xa pos _ _ j Hr (keyset_dom _ _ _ _ _ _ (rp_contents _ _ _ _ Hr) Hj)). unfold u64_modulus in Hge. lia. }
    split; [done|]. exists pos. done.
Qed.

Lemma mark_simulates xa c a mk set : simulates xa c a ->
  returns (CursorMut_set_mark xa mk set c) (fun '(r, xa', c') =>
    (OutMark r, xa', c') = (OutMark (if a_items a !! a_index a then Some tt else None), xa', c') /\
    simulates xa' c' (if a_items a !! a_index a then mkAMap (a_items a) (mark_key (a_marked a) (XMark_index mk) (a_index a) set) (a_index a) else a)).
Proof.
  intros (pos & Hr & Hc & Ei). eapply returns_mono; [by apply (set_mark_spec xa pos (a_items a) (a_marked a))|].
  intros [[r xa'] c'] (-> & Hr' & Ei' & Hc'). rewrite Ei in *. destruct (a_items a !! a_index a); (split; [done|]); exists pos; by rewrite Ei'.
Qed.

Lemma op_simulates xa c a op out a' : simulates xa c a -> amap_op a op = Some (out, a') ->
  returns (xarray_op xa c op) (fun '(out', xa', c') => out' = out /\ simulates xa' c' a').
Proof.
  intros Hsim Hop. pose proof Hsim as (pos & Hr & Hc & Ei). destruct op as [i| | |x| | | |m|m|m|m|]; cbn [amap_op xarray_op] in *.
  - case_cond_in Hop; [|done]. injection Hop as <- <-. apply returns_ret. split; [done|]. exists pos. by split_and!.
  - injection Hop as <- <-. apply returns_ret. split; [done|]. exists pos. split_and!; try done. destruct Hc. by split.
  - injection Hop as <- <-. eapply returns_bind; [by apply (load_spec xa pos (a_items a) (a_marked a))|]. intros [r c'] (-> & Ei' & Hc').
    apply returns_ret. rewrite Ei. split; [done|]. exists pos. split_and!; try done. congruence.
  - case_cond_in Hop; [|done]. injection Hop as <- <-. eapply returns_bind; [apply (store_spec xa pos (a_items a) (a_marked a)); [done|done|by rewrite Ei]|].
    intros [xa' c'] (pos' & Hr' & Ei' & Hc'). apply returns_ret. split; [done|]. exists pos'. rewrite Ei in *. done.
  - injection Hop as <- <-. eapply returns_bind; [by apply (xa_remove_spec xa pos (a_items a) (a_marked a))|].
    intros [[r xa'] c'] (-> & pos' & Hr' & Ei' & Hc'). apply returns_ret. rewrite Ei in *. split; [done|]. exists pos'. done.
  - case_cond_in Hop; [|done]. injection Hop as <- <-. eapply returns_bind; [apply (next_spec xa pos); [apply Hr|done|by rewrite Ei]|].
    intros c' (Ei' & Hc'). apply returns_ret. split; [done|]. exists pos. split_and!; try done. cbn. congruence.
  - injection Hop as <- <-. eapply returns_bind; [apply (find_simulates xa c a PRESENT_MARK); [done|unfold PRESENT_MARK, NUM_MARKS; lia]|]. intros [r c'] (-> & Hs). apply returns_ret. by split.
  - injection Hop as <- <-. pose proof (XMark_index_lt m) as Hlt. unfold PRESENT_MARK in Hlt.
    eapply returns_bind; [apply (find_simulates xa c a (XMark_index m)); [done|unfold NUM_MARKS; lia]|]. intros [r c'] (-> & Hs). apply returns_ret.
    unfold keyset in *. rewrite (proj2 (Nat.eqb_neq (XMark_index m) PRESENT_MARK)) in * by (unfold PRESENT_MARK; lia). by split.
  - injection Hop as <- <-. eapply returns_bind; [by apply (is_marked_spec xa pos (a_items a) (a_marked a))|]. intros [r c'] (-> & Ei' & Hc').
    apply returns_ret. rewrite Ei. split; [done|]. exists pos. split_and!; try done. congruence.
  - injection Hop as Hop. eapply returns_bind; [by apply mark_simulates|]. intros [[r xa'] c'] [[= ->] Hs]. apply returns_ret.
    destruct (a_items a !! a_index a); injection Hop as <- <-; done.
  - injection Hop as Hop. eapply returns_bind; [by apply mark_simulates|]. intros [[r xa'] c'] [[= ->] Hs]. apply returns_ret.
    destruct (a_items a !! a_index a); injection Hop as <- <-; done.
  - injection Hop as <- <-. eapply returns_bind; [by apply (xa_clear_spec xa pos (a_items a) (a_marked a))|]. intros xa' Hr'. apply returns_ret. split; [done|].
    exists ∅. split_and!; try done. destruct Hc. split; done.
Qed.

Lemma run_simulates xa c a ops outs : simulates xa c a -> amap_run a ops = Some outs -> xarray_run xa c ops = Ret outs.
Proof.
  revert xa c a outs. induction ops as [|op ops IH]; intros xa c a outs Hsim Hrun; cbn [amap_run xarray_run] in *; [by injection Hrun as <-|].
  destruct (amap_op a op) as [[out a']|] eqn:Eop; [|done]. cbn [mbind option_bind] in Hrun.
  destruct (amap_run a' ops) as [outs'|] eqn:Er; [|done]. injection Hrun as <-.
  destruct (op_simulates xa c a op out a' Hsim Eop) as ([[out' xa'] c'] & -> & -> & Hs'). cbn [mbind run_bind]. by rewrite (IH xa' c' a' outs' Hs' Er).
Qed.

(** C17: The array is a map.  Any sequence of operations on a new array, through any cursors, returns,
    without a panic and without getting stuck in a search, exactly what the same operations return on
    a finite map with sets of marked keys: items are found where they were stored, a removed or
    overwritten item loses its marks, and [next_present] and [next_marked] find the least key behind
    the cursor.  Where the map has no answer, because an index is at or above 2^60 or past the last
    index, nothing is claimed. *)
Theorem xarray_refines_map (ops : list XOp) (outs : list XOut) :
  amap_run AMap_new ops = Some outs -> xarray_run XArray_new (Cursor_new 0) ops = Ret outs.
Proof. apply run_simulates, new_simulates. Qed.

(** ** [Range] *)

Lemma range_next_spec xa pos M K c last : repr xa pos M K -> cursor_ok xa pos c -> last < u64_modulus ->
  returns (Range_next xa c last) (fun '(r, c') => cursor_ok xa pos c' /\ index c <= index c' /\
    match r with
    | None => forall k, index c <= k < last -> M !! k = None
    | Some (k, x) => index c <= k < last /\ M !! k = Some x /\ index c' = k + 1 /\ forall j, index c <= j < k -> M !! j = None
    end).
Proof.
  intros Hr Hc Hl. unfold Range_next.
  apply (loop_total _ (fun c1 => cursor_ok xa pos c1 /\ index c <= index c1 /\ forall j, index c <= j < index c1 -> M !! j = None) _
    (fun c1 => Z.to_nat (last - index c1))).
  - intros c1 (Hc1 & Hle & Hno). destruct (Z.leb_spec last (index c1)) as [Hend|Hlt].
    { eexists. split; [done|]. cbn beta iota. split_and!; try done. intros k Hk. apply Hno. lia. }
    destruct (load_spec xa pos M K c1 Hr Hc1) as ([item c2] & -> & -> & Ei2 & Hc2). cbn [mbind run_bind].
    destruct (next_spec xa pos c2 (rp_shape _ _ _ _ Hr) Hc2) as (c3 & Hn3 & Ei3 & Hc3); [lia|].
    destruct (M !! index c1) as [x|] eqn:EM; rewrite Hn3; cbn [mbind run_bind]; (eexists; split; [done|]); cbn beta iota.
    + split_and!; try done; try lia; [by rewrite Ei2|]. intros j Hj. apply Hno. lia.
    + split; [|lia]. split_and!; try done; [lia|]. intros j Hj. destruct (decide (j = index c1)) as [->|]; [done|]. apply Hno. lia.
  - split_and!; [done|lia|lia].
  - lia.
Qed.
End spec.

(** Both sides of the theorem on a short program, and its use. *)
Definition demo_ops : list (XOp (P := Z)) :=
  [OpStore 7; OpCursor 5000; OpStore 8; OpSetMark Mark1; OpCursor 0; OpNextPresent; OpLoad; OpIsMarked Mark1; OpRemove;
   OpNextPresent; OpCursor 0; OpNextMarked Mark1; OpLoad; OpClear; OpLoad].

Lemma xarray_refines_map_witness :
  amap_run AMap_new demo_ops =
    Some [OutDone; OutDone; OutDone; OutMark (Some tt); OutDone; OutIndex (Some 5000); OutItem (Some 8); OutMarked true; OutItem (Some 8);
          OutIndex None; OutDone; OutIndex None; OutItem (Some 7); OutDone; OutItem None] /\
  xarray_run XArray_new (Cursor_new 0) demo_ops =
    Ret [OutDone; OutDone; OutDone; OutMark (Some tt); OutDone; OutIndex (Some 5000); OutItem (Some 8); OutMarked true; OutItem (Some 8);
         OutIndex None; OutDone; OutIndex None; OutItem (Some 7); OutDone; OutItem None].
Proof. split; [vm_compute; reflexivity|]. apply xarray_refines_map. vm_compute. reflexivity. Defined.

(** C35: Storing at an index of 2^60 or more in an empty array panics: for the height 11 that it needs,
    [max_index] computes [0 - 1]. *)
Theorem store_at_2_60_panics {P : Type} (k : Z) (x : P) : 2 ^ 60 <= k -> xarray_run XArray_new (reset_to k) [OpStore x] = Panic.
Proof.
  intros Hk. cbn [xarray_run xarray_op]. unfold CursorMut_store, expand_and_traverse_to_target.
  cbn [reset_to Cursor_new state is_at_node index]. unfold reserve. cbn [XArray_new xa_head].
  assert (from_index k = Panic) as ->; [|done]. unfold from_index, HEIGHTS.
  do 10 (cbn [loop]; rewrite max_index_span by lia; cbn [mbind run_bind Z.add Pos.add Pos.succ];
    match goal with |- context [span ?h - 1 <? k] => assert (span h <= span 10) by (apply span_le; lia); change (span 10) with (2 ^ 60) in *; rewrite (proj2 (Z.ltb_lt (span h - 1) k)) by lia end; cbn beta iota).
  reflexivity.
Qed.

Lemma store_at_2_60_panics_witness : 2 ^ 60 <= 2 ^ 60 /\ xarray_run XArray_new (reset_to (2 ^ 60)) [OpStore 1] = Panic.
Proof. split; [lia|]. apply (store_at_2_60_panics (2 ^ 60) 1). lia. Defined.
