(* ===== verification/PageCache.v ===== *)
(** * The page cache: the model

    The pages of [kernel/core/src/vm/page_cache/cache_page.rs], the memory objects of [vmo/mod.rs] and
    [vmo/options.rs], the page cache and its block backend of [mod.rs], the batches of asynchronous
    requests of [kernel/libs/io-util/src/batch.rs], and the walks over the reverse mappings of
    [vm/vmar/rmap.rs].

    A [Cache] is one memory object with everything its operations touch: the frames it has allocated,
    the sparse array of pages, the reverse mappings with the page tables of the address spaces they
    name, the storage behind the backend, and the requests that are in flight.  Operations are calls of
    a state and error monad.  A call that waits for something that only another thread could do, such as
    a page lock that is held, is [NoFuel].

    What the code learns from outside is the environment [Env]: whether an allocation succeeds, what is
    in a frame that was not cleared, how the file system answers a request, and how the device completes
    it.  Each question gets the next number of the clock, so that answers may change at any time. *)

From S2P Require Import Prelude Flags Align IntervalSet VmMapping Vmar.

(** ** Pages: [cache_page.rs] *)

Inductive PageState := Uninit | UpToDate | Dirty | Evicted.

#[export] Instance PageState_eq_dec : EqDecision PageState.
Proof. solve_decision. Defined.

Definition is_uninit (s : PageState) : bool := match s with Uninit => true | _ => false end.
Definition is_up_to_date (s : PageState) : bool := match s with UpToDate => true | _ => false end.
Definition is_dirty (s : PageState) : bool := match s with Dirty => true | _ => false end.
Definition is_evicted (s : PageState) : bool := match s with Evicted => true | _ => false end.

(** [CachePageMeta] and the bytes of the frame. *)
Record CachePage := mkPage {
  page_state : PageState;
  page_lock : bool;
  is_writing_back : bool;
  page_data : list Z
}.

Definition zero_page : list Z := replicate (Z.to_nat PAGE_SIZE) 0.

Definition with_page_state (s : PageState) (p : CachePage) : CachePage := mkPage s (page_lock p) (is_writing_back p) (page_data p).
Definition with_lock (b : bool) (p : CachePage) : CachePage := mkPage (page_state p) b (is_writing_back p) (page_data p).
Definition with_writing_back (b : bool) (p : CachePage) : CachePage := mkPage (page_state p) (page_lock p) b (page_data p).
Definition with_data (d : list Z) (p : CachePage) : CachePage := mkPage (page_state p) (page_lock p) (is_writing_back p) d.

(** ** Requests: [kernel/core/comps/block/src/bio.rs] *)

Inductive BioStatus := BioInit | BioSubmit | BioComplete | BioNotSupported | BioNoSpace | BioIoError | BioZeros.
Inductive BioType := BioRead | BioWrite.

#[export] Instance BioStatus_eq_dec : EqDecision BioStatus.
Proof. solve_decision. Defined.

(** A request for one page, with the bytes that the page had at submission. *)
Record Bio := mkBio { bio_id : nat; bio_type : BioType; bio_idx : Z; bio_frame : nat; bio_data : list Z }.

(** How a file system answers [submit_read_bio]: it fails, it calls the callback with
    [BioStatus::Zeros], or it hands the request to the device. *)
Inductive ReadAnswer := ReadErr (e : Errno) | ReadZeros | ReadQueued.

(** ** Memory of the caller: [ostd/src/mm/io/mod.rs]

    A reader holds the bytes that are left; a writer holds the bytes written so far and the space that
    is left.  A buffer in user memory may have a page that faults: then [Some n] is the number of bytes
    before it. *)
Record VmReader := mkReader { rd_data : list Z; rd_fault : option Z }.
Record VmWriter := mkWriter { wr_data : list Z; wr_avail : Z; wr_fault : option Z }.

Definition len (l : list Z) : Z := Z.of_nat (length l).

Definition remain (r : VmReader) : Z := len (rd_data r).

(** The number of bytes that [memcpy] copies of [n]. *)
Definition copied_len (fault : option Z) (n : Z) : Z := match fault with Some k => Z.min k n | None => n end.

Definition fault_after (fault : option Z) (n : Z) : option Z := option_map (fun k => k - n) fault.

(** [VmReader::read_fallible] from memory of the kernel. *)
Definition read_fallible (src : list Z) (w : VmWriter) : result VmWriter :=
  let copy_len := Z.min (len src) (wr_avail w) in
  if copy_len =? 0 then Ok w
  else
    let n := copied_len (wr_fault w) copy_len in
    if n <? copy_len then Err EFAULT
    else Ok (mkWriter (wr_data w ++ take (Z.to_nat n) src) (wr_avail w - n) (fault_after (wr_fault w) n)).

(** [VmWriter::write_fallible] into a page from [offset] on: the new bytes of the page, the rest of the
    reader, the number of bytes copied, and whether the copy was stopped by a fault. *)
Definition splice (dst : list Z) (offset : Z) (bytes : list Z) : list Z :=
  take (Z.to_nat offset) dst ++ bytes ++ drop (Z.to_nat offset + length bytes) dst.

Definition write_fallible (dst : list Z) (offset : Z) (r : VmReader) : list Z * VmReader * Z * bool :=
  let copy_len := Z.min (len dst - offset) (remain r) in
  let n := if copy_len =? 0 then 0 else copied_len (rd_fault r) copy_len in
  (splice dst offset (take (Z.to_nat n) (rd_data r)), mkReader (drop (Z.to_nat n) (rd_data r)) (fault_after (rd_fault r) n),
   n, n <? copy_len).

(** ** The environment *)

Record Env := mkEnv {
  env_alloc : nat -> bool;                        (** does the frame allocator have a frame *)
  env_garbage : nat -> list Z;                    (** the bytes of a frame that was not written *)
  env_capacity : nat -> Z -> Z;                   (** [Vec::with_capacity] *)
  env_read : nat -> Z -> list Z -> ReadAnswer;    (** the answer to a read of a page with these bytes *)
  env_write : nat -> Z -> option Errno;           (** the error of a write *)
  env_status : nat -> BioType -> BioStatus;       (** how the device completes a request *)
  env_dma : nat -> list Z -> list Z -> list Z;    (** the bytes written, from those at submission and at completion *)
  env_evicts : nat -> option Range                (** an eviction by another thread *)
}.

(** ** The state *)

(** What the reverse mappings reach of an address space: its page table and its counter of file pages. *)
Record Space := mkSpace { sp_table : VmSpace; sp_rss : Z }.

Record Cache := mkCache {
  frames : gmap nat CachePage;
  next_frame : nat;
  vmo_pages : gmap Z nat;
  vmo_size : Z;
  vmo_flags : Z;
  vmo_backend : option bool;                      (** a weak reference, which may be dead *)
  vmo_rmap : gmap nat (list RmapEntry);
  spaces : gmap nat Space;
  disk : gmap Z (list Z);
  bios : list Bio;
  statuses : gmap nat BioStatus;
  clock : nat
}.

Definition disk_page (c : Cache) (i : Z) : list Z := default zero_page (disk c !! i).

Definition with_frames (fr : gmap nat CachePage) (c : Cache) : Cache :=
  mkCache fr (next_frame c) (vmo_pages c) (vmo_size c) (vmo_flags c) (vmo_backend c) (vmo_rmap c) (spaces c) (disk c) (bios c) (statuses c) (clock c).
Definition with_new_frame (p : CachePage) (c : Cache) : Cache :=
  mkCache (<[next_frame c := p]> (frames c)) (S (next_frame c)) (vmo_pages c) (vmo_size c) (vmo_flags c) (vmo_backend c) (vmo_rmap c) (spaces c)
    (disk c) (bios c) (statuses c) (clock c).
Definition with_pages (ps : gmap Z nat) (c : Cache) : Cache :=
  mkCache (frames c) (next_frame c) ps (vmo_size c) (vmo_flags c) (vmo_backend c) (vmo_rmap c) (spaces c) (disk c) (bios c) (statuses c) (clock c).
Definition with_size (s : Z) (c : Cache) : Cache :=
  mkCache (frames c) (next_frame c) (vmo_pages c) s (vmo_flags c) (vmo_backend c) (vmo_rmap c) (spaces c) (disk c) (bios c) (statuses c) (clock c).
Definition with_spaces (r : gmap nat (list RmapEntry)) (sps : gmap nat Space) (c : Cache) : Cache :=
  mkCache (frames c) (next_frame c) (vmo_pages c) (vmo_size c) (vmo_flags c) (vmo_backend c) r sps (disk c) (bios c) (statuses c) (clock c).
Definition with_io (d : gmap Z (list Z)) (bs : list Bio) (st : gmap nat BioStatus) (c : Cache) : Cache :=
  mkCache (frames c) (next_frame c) (vmo_pages c) (vmo_size c) (vmo_flags c) (vmo_backend c) (vmo_rmap c) (spaces c) d bs st (clock c).
Definition with_clock (t : nat) (c : Cache) : Cache :=
  mkCache (frames c) (next_frame c) (vmo_pages c) (vmo_size c) (vmo_flags c) (vmo_backend c) (vmo_rmap c) (spaces c) (disk c) (bios c) (statuses c) t.

(** ** The monad *)

Definition PC (A : Type) : Type := Cache -> run (result A * Cache).

#[export] Instance pc_ret : MRet PC := fun A a c => Ret (Ok a, c).
#[export] Instance pc_bind : MBind PC := fun A B f m c =>
  '(r, c) ← m c;
  match r with Ok a => f a c | Err e => Ret (Err e, c) end.

Definition throw {A} (e : Errno) : PC A := fun c => Ret (Err e, c).
Definition blocked {A} : PC A := fun _ => NoFuel.
Definition lift {A} (m : run A) : PC A := fun c => a ← m; Ret (Ok a, c).
Definition of_result {A} (r : result A) : PC A := fun c => Ret (r, c).
Definition get {A} (f : Cache -> A) : PC A := fun c => Ret (Ok (f c), c).
Definition modify (f : Cache -> Cache) : PC unit := fun c => Ret (Ok tt, f c).
Definition tick : PC nat := fun c => Ret (Ok (clock c), with_clock (S (clock c)) c).

(** The outcome of a call as a value. *)
Definition outcome {A} (m : PC A) : PC (result A) := fun c => '(r, c) ← m c; Ret (Ok r, c).

(** A [for] loop. *)
Fixpoint for_each {A} (l : list A) (f : A -> PC unit) : PC unit :=
  match l with
  | [] => mret tt
  | x :: l => _ ← f x; for_each l f
  end.

(** A [for] loop that threads a value. *)
Fixpoint for_fold {A B} (l : list A) (f : B -> A -> PC B) (b : B) : PC B :=
  match l with
  | [] => mret b
  | x :: l => b ← f b x; for_fold l f b
  end.

(** A [while] loop with a bound on its iterations. *)
Fixpoint while_fuel {A B} (fuel : nat) (f : A -> PC (flow A B)) (a : A) : PC B :=
  match fuel with
  | O => blocked
  | S fuel =>
      r ← f a;
      match r with
      | Continue a => while_fuel fuel f a
      | Break b => mret b
      end
  end.

(** Arithmetic of [usize] with overflow checks. *)
Definition uadd (x y : Z) : run Z := unwrap (checked_add x y).
Definition umul (x y : Z) : run Z := if x * y <? u64_modulus then Ret (x * y) else Panic.

Section cache.
Context `{BF : Bitflags} (env : Env).

(** ** Page locks and states *)

Definition page (f : nat) : PC CachePage := fun c => p ← unwrap (frames c !! f); Ret (Ok p, c).

Definition update_page (f : nat) (g : CachePage -> CachePage) : PC unit :=
  p ← page f;
  modify (fun c => with_frames (<[f := g p]> (frames c)) c).

Definition try_lock_page (f : nat) : PC bool :=
  p ← page f;
  if page_lock p then mret false else _ ← update_page f (with_lock true); mret true.

Definition lock_page (f : nat) : PC unit :=
  locked ← try_lock_page f;
  if (locked : bool) then mret tt else blocked.

Definition unlock_page (f : nat) : PC unit := update_page f (with_lock false).

Definition state (f : nat) : PC PageState := p ← page f; mret (page_state p).
Definition set_state (f : nat) (s : PageState) : PC unit := update_page f (with_page_state s).
Definition set_up_to_date (f : nat) : PC unit := set_state f UpToDate.
Definition set_dirty (f : nat) : PC unit := set_state f Dirty.
Definition set_evicted (f : nat) : PC unit := set_state f Evicted.
Definition set_writing_back (f : nat) : PC unit := update_page f (with_writing_back true).
Definition clear_writing_back (f : nat) : PC unit := update_page f (with_writing_back false).

(** A new frame, or [ENOMEM]. *)
Definition alloc_frame_with (p : nat -> CachePage) : PC nat :=
  t ← tick;
  if env_alloc env t then
    f ← get next_frame;
    _ ← modify (with_new_frame (p t));
    mret f
  else throw ENOMEM.

Definition alloc_uninit : PC nat := alloc_frame_with (fun t => mkPage Uninit false false (env_garbage env t)).
Definition alloc_zero : PC nat := alloc_frame_with (fun _ => mkPage UpToDate false false zero_page).

(** [init_fn] takes over the page lock. *)
Definition ensure_init (f : nat) (init_fn : PC unit) : PC unit :=
  s ← state f;
  if negb (is_uninit s) then mret tt
  else
    _ ← lock_page f;
    s ← state f;
    if negb (is_uninit s) then unlock_page f else init_fn.

(** ** Requests *)

(** The callback of [prepare_read_page]; dropping the locked page unlocks it. *)
Definition complete_read_page (f : nat) (status : BioStatus) : PC unit :=
  _ ← match status with
      | BioZeros => _ ← update_page f (with_data zero_page); set_up_to_date f
      | BioComplete => set_up_to_date f
      | _ => mret tt
      end;
  unlock_page f.

Definition complete_write_page (f : nat) : PC unit := clear_writing_back f.

(** The device transfers the bytes of a request, and [SubmittedBio::complete] calls the callback and
    publishes the status. *)
Definition transfer (b : Bio) (status : BioStatus) : PC unit :=
  match bio_type b with
  | BioRead =>
      d ← get (fun c => disk_page c (bio_idx b));
      update_page (bio_frame b)
        (with_data (if bool_decide (status = BioComplete) then d else env_garbage env (bio_id b)))
  | BioWrite =>
      p ← page (bio_frame b);
      let d := if bool_decide (status = BioComplete) then env_dma env (bio_id b) (bio_data b) (page_data p) else env_garbage env (bio_id b) in
      modify (fun c => with_io (<[bio_idx b := d]> (disk c)) (bios c) (statuses c) c)
  end.

Definition complete (b : Bio) : PC unit :=
  let status := env_status env (bio_id b) (bio_type b) in
  _ ← lift (assert_run (negb (bool_decide (status = BioInit)) && negb (bool_decide (status = BioSubmit))));
  _ ← transfer b status;
  _ ← modify (fun c => with_io (disk c) (filter (fun b' => bio_id b' <> bio_id b) (bios c)) (statuses c) c);
  _ ← match bio_type b with
      | BioRead => complete_read_page (bio_frame b) status
      | BioWrite => complete_write_page (bio_frame b)
      end;
  modify (fun c => with_io (disk c) (bios c) (<[bio_id b := status]> (statuses c)) c).

(** [BioMetadata::wait], with [IoError] turned into an [Error]: a request in flight is completed. *)
Definition wait_bio (id : nat) : PC unit :=
  o ← get (fun c => find_first (fun b => (bio_id b =? id)%nat) (bios c));
  _ ← match o with Some b => complete b | None => mret tt end;
  status ← get (fun c => statuses c !! id);
  match status with
  | None => blocked
  | Some BioComplete => mret tt
  | Some BioNotSupported => throw EOPNOTSUPP
  | Some BioNoSpace => throw ENOSPC
  | Some BioIoError => throw EIO
  | Some _ => lift Panic
  end.

(** [IoBatch::wait_all]. *)
Definition wait_all (batch : list nat) : PC unit :=
  first_error ← for_fold batch
    (fun first_error id =>
       r ← outcome (wait_bio id);
       mret (match r, first_error with Err e, None => Some e | _, _ => first_error end))
    None;
  match first_error with Some e => throw e | None => mret tt end.

(** [LockedCachePage::wait_until_finish_writing_back]: the device completes the writes of the page. *)
Definition wait_until_finish_writing_back (f : nat) : PC unit := fun c =>
  while_fuel (S (length (bios c)))
    (fun _ =>
       p ← page f;
       if is_writing_back p then
         o ← get (fun c => find_first (fun b => bool_decide (bio_frame b = f)) (bios c));
         match o with Some b => _ ← complete b; mret (Continue tt) | None => blocked end
       else mret (Break tt))
    tt c.

(** [Bio::submit] to the queue of the device, which pushes the record into the batch. *)
Definition submit (t : nat) (type : BioType) (idx : Z) (f : nat) (batch : list nat) : PC (list nat) :=
  p ← page f;
  _ ← modify (fun c => with_io (disk c) (bios c ++ [mkBio t type idx f (page_data p)]) (statuses c) c);
  mret (batch ++ [t]).

(** ** The block backend: [BlockAsPageCacheBackend]

    A call that takes a batch returns it beside its result, since it keeps the requests that were
    submitted when it fails. *)

(** [submit_read_bio] with the callback of [prepare_read_page]: dropping the callback unlocks the page. *)
Definition read_page_async (idx : Z) (f : nat) (batch : list nat) : PC (result unit * list nat) :=
  t ← tick;
  d ← get (fun c => disk_page c idx);
  match env_read env t idx d with
  | ReadErr e => _ ← unlock_page f; mret (Err e, batch)
  | ReadZeros => _ ← complete_read_page f BioZeros; mret (Ok tt, batch)
  | ReadQueued => batch ← submit t BioRead idx f batch; mret (Ok tt, batch)
  end.

Definition read_page (idx : Z) (f : nat) : PC unit :=
  '(r, batch) ← read_page_async idx f [];
  _ ← of_result r;
  wait_all batch.

Definition prepare_write_page (f : nat) : PC unit :=
  _ ← wait_until_finish_writing_back f;
  _ ← set_writing_back f;
  _ ← set_up_to_date f;
  unlock_page f.

(** [submit_write_bio]. *)
Definition submit_write_bio (idx : Z) (f : nat) (batch : list nat) : PC (result unit * list nat) :=
  t ← tick;
  match env_write env t idx with
  | Some e => mret (Err e, batch)
  | None => batch ← submit t BioWrite idx f batch; mret (Ok tt, batch)
  end.

Definition write_page_async (idx : Z) (f : nat) (batch : list nat) : PC (result unit * list nat) :=
  _ ← prepare_write_page f;
  '(r, batch) ← submit_write_bio idx f batch;
  if is_ok r then mret (r, batch)
  else
    _ ← lock_page f;
    _ ← set_dirty f;
    _ ← clear_writing_back f;
    _ ← unlock_page f;
    mret (r, batch).

(** [submit_write_page_run], the default: the pages that are left of the run when it fails come back. *)
Fixpoint write_pages_async (pages : list (Z * nat)) (batch : list nat) : PC (result unit * list nat * list (Z * nat)) :=
  match pages with
  | [] => mret (Ok tt, batch, [])
  | (idx, f) :: pages =>
      '(r, batch) ← write_page_async idx f batch;
      match r with
      | Err e => mret (Err e, batch, pages)
      | Ok _ => write_pages_async pages batch
      end
  end.

(** ** Reverse mappings: [rmap.rs] *)

(** The addresses of a mapping that show the given range of the object, if there are any. *)
Definition entry_addrs (offset : Range) (e : RmapEntry) : run (option Range) :=
  e_end ← uadd (re_offset e) (re_size e);
  let vmo_range := mkRange (Z.max (re_offset e) (r_start offset)) (Z.min e_end (r_end offset)) in
  if r_end vmo_range <=? r_start vmo_range then Ret None
  else
    a_start ← uadd (r_start vmo_range - re_offset e) (re_vaddr e);
    a_end ← uadd (r_end vmo_range - re_offset e) (re_vaddr e);
    Ret (Some (mkRange a_start a_end)).

Definition unmap_entry (offset : Range) (sp : Space) (e : RmapEntry) : run Space :=
  o ← entry_addrs offset e;
  match o with
  | None => Ret sp
  | Some r =>
      _ ← cursor_mut r;
      let '(n, pt) := cursor_unmap r (sp_table sp) in
      Ret (mkSpace pt (sp_rss sp - n))
  end.

Definition freeze_entry (offset : Range) (sp : Space) (e : RmapEntry) : run Space :=
  o ← entry_addrs offset e;
  match o with
  | None => Ret sp
  | Some r =>
      _ ← cursor_mut r;
      Ret (mkSpace (cursor_protect r (fun fl => bf_difference fl PageFlags_W) (sp_table sp)) (sp_rss sp))
  end.

(** [BTreeMap::retain] over the reverse mappings: the entries of address spaces that are gone are
    dropped, the others are visited in turn. *)
Definition retain_step (visit : Space -> RmapEntry -> run Space) (s : gmap nat (list RmapEntry) * gmap nat Space)
    (p : nat * list RmapEntry) : run (gmap nat (list RmapEntry) * gmap nat Space) :=
  let '(r, sps) := s in
  match sps !! p.1 with
  | None => Ret (delete p.1 r, sps)
  | Some sp =>
      sp ← foldl (fun acc e => sp ← acc; visit sp e) (Ret sp) p.2;
      Ret (r, <[p.1 := sp]> sps)
  end.

Definition retain (visit : Space -> RmapEntry -> run Space) (offset : Range) : PC unit := fun c =>
  _ ← assert_run (is_multiple_of (r_start offset) PAGE_SIZE && is_multiple_of (r_end offset) PAGE_SIZE);
  '(r, sps) ← foldl (fun acc p => s ← acc; retain_step visit s p) (Ret (vmo_rmap c, spaces c)) (map_to_list (vmo_rmap c));
  Ret (Ok tt, with_spaces r sps c).

Definition Rmap_unmap (offset : Range) : PC unit := retain (unmap_entry offset) offset.
Definition Rmap_freeze (offset : Range) : PC unit := retain (freeze_entry offset) offset.

(** ** Memory objects: [vmo/mod.rs] *)

Inductive CommitMode := CommitRead | CommitOverwrite.

Definition skips_backend_read (m : CommitMode) : bool := match m with CommitOverwrite => true | CommitRead => false end.

Inductive VmoCommitError :=
  | CommitErr (e : Errno)
  | NeedIo (index : Z)
  | WaitUntilInit (index : Z) (f : nat).

Definition mode_is_write (m : VmoMapMode) : bool := match m with ModeSharedWrite => true | _ => false end.
Definition mode_is_shared (m : VmoMapMode) : bool := match m with ModePrivate => false | _ => true end.

(** [VmoMapMode::ensure]. *)
Definition ensure (m : VmoMapMode) (f : nat) : PC unit :=
  s ← state f;
  match s with
  | UpToDate =>
      if mode_is_write m then
        _ ← lock_page f;
        s ← state f;
        _ ← (if is_up_to_date s then set_dirty f else mret tt);
        unlock_page f
      else mret tt
  | Dirty => mret tt
  | Uninit | Evicted =>
      if is_evicted s && negb (mode_is_shared m) then mret tt
      else
        _ ← lift (assert_run (is_evicted s));
        _ ← lock_page f;
        unlock_page f
  end.

(** [VmoMapMode::try_ensure]. *)
Definition try_ensure (m : VmoMapMode) (idx : Z) (f : nat) : PC (VmoCommitError + VmoMapMode) :=
  s ← state f;
  match s with
  | UpToDate =>
      if mode_is_write m then
        locked ← try_lock_page f;
        if (locked : bool) then
          s ← state f;
          if is_up_to_date s then _ ← set_dirty f; _ ← unlock_page f; mret (inr ModeSharedWrite)
          else _ ← unlock_page f; mret (inl (NeedIo idx))
        else mret (inl (NeedIo idx))
      else mret (inr ModeSharedRead)
  | Dirty => mret (inr ModeSharedWrite)
  | Evicted => mret (if negb (mode_is_shared m) then inr ModePrivate else inl (NeedIo idx))
  | Uninit => mret (inl (NeedIo idx))
  end.

(** [as_backed_vmo().is_some()] and [has_backend]. *)
Definition backed (c : Cache) : bool := match vmo_backend c with Some alive => alive | None => false end.
Definition has_backend (c : Cache) : bool := is_some (vmo_backend c).

Definition div_ceil (x y : Z) : Z := (x + (y - 1)) / y.

Definition get_page_idx_range (r : Range) : run Range :=
  s ← align_down (r_start r) PAGE_SIZE;
  e ← align_up (r_end r) PAGE_SIZE;
  Ret (mkRange (s / PAGE_SIZE) (e / PAGE_SIZE)).

Definition load (idx : Z) : PC (option nat) := get (fun c => vmo_pages c !! idx).
Definition store (idx : Z) (f : nat) : PC unit := modify (fun c => with_pages (<[idx := f]> (vmo_pages c)) c).

(** [commit_on_anonymous]. *)
Definition commit_on_anonymous (idx : Z) : PC nat :=
  size ← get vmo_size;
  if div_ceil size PAGE_SIZE <=? idx then throw EINVAL
  else
    o ← load idx;
    match o with
    | Some f => mret f
    | None => f ← alloc_zero; _ ← store idx f; mret f
    end.

(** [BackedVmo::commit_on_internal]. *)
Definition commit_on_backed (idx : Z) (m : CommitMode) : PC nat :=
  size ← get vmo_size;
  if div_ceil size PAGE_SIZE <=? idx then throw EINVAL
  else
    o ← load idx;
    match o with
    | Some f =>
        if negb (skips_backend_read m) then _ ← ensure_init f (read_page idx f); mret f else mret f
    | None =>
        f ← alloc_uninit;
        _ ← store idx f;
        if skips_backend_read m then mret f
        else _ ← ensure_init f (read_page idx f); mret f
    end.

(** [Vmo::commit_on_internal]. *)
Definition commit_on_internal (idx : Z) (m : CommitMode) : PC nat :=
  b ← get backed;
  if (b : bool) then commit_on_backed idx m else commit_on_anonymous idx.

Definition commit_on (idx : Z) (m : VmoMapMode) : PC unit :=
  f ← commit_on_internal idx CommitRead;
  ensure m f.

(** [Vmo::try_commit_with_cursor] and [BackedVmo::try_commit_with_cursor], with the cursor at [idx]. *)
Definition try_commit_with_cursor (idx : Z) (m : CommitMode) : PC (VmoCommitError + Z * nat) :=
  b ← get backed;
  o ← load idx;
  if (b : bool) then
    match o with
    | None => mret (inl (NeedIo idx))
    | Some f =>
        s ← state f;
        mret (if negb (skips_backend_read m) && is_uninit s then inl (WaitUntilInit idx f) else inr (idx, f))
    end
  else
    match o with
    | Some f => mret (inr (idx, f))
    | None =>
        r ← outcome (commit_on_anonymous idx);
        mret (match r with Ok f => inr (idx, f) | Err e => inl (CommitErr e) end)
    end.

Definition try_commit_page (offset : Z) (m : VmoMapMode) : PC (VmoCommitError + nat * VmoMapMode) :=
  let idx := offset / PAGE_SIZE in
  size ← get vmo_size;
  if size <=? offset then mret (inl (CommitErr EINVAL))
  else
    r ← try_commit_with_cursor idx CommitOverwrite;
    match r with
    | inl e => mret (inl e)
    | inr (_, f) =>
        r ← try_ensure m idx f;
        mret (match r with inl e => inl e | inr m => inr (f, m) end)
    end.

(** The loop of [try_operate_on_range_internal]; [operate] gets the state it has captured and the
    function that commits the page at the cursor. *)
Fixpoint operate_on {S} (operate : S -> PC (VmoCommitError + Z * nat) -> PC (S * option VmoCommitError)) (m : CommitMode)
    (n : nat) (idx : Z) (s : S) : PC (S * option VmoCommitError) :=
  match n with
  | O => mret (s, None)
  | Datatypes.S n =>
      '(s, e) ← operate s (try_commit_with_cursor idx m);
      match e with
      | Some e => mret (s, Some e)
      | None => idx ← lift (uadd idx 1); operate_on operate m n idx s
      end
  end.

Definition try_operate_on_range_internal {S} (r : Range)
    (operate : S -> PC (VmoCommitError + Z * nat) -> PC (S * option VmoCommitError)) (m : CommitMode) (s : S) : PC (S * option VmoCommitError) :=
  size ← get vmo_size;
  if size <? r_end r then mret (s, Some (CommitErr EINVAL))
  else
    idxs ← lift (get_page_idx_range r);
    operate_on operate m (Z.to_nat (range_len idxs)) (r_start idxs) s.

Definition try_operate_on_range {S} (r : Range)
    (operate : S -> PC (VmoCommitError + Z * nat) -> PC (S * option VmoCommitError)) (mode : VmoMapMode) (s : S) : PC (S * option VmoCommitError) :=
  try_operate_on_range_internal r
    (fun s commit_fn =>
       operate s
         (r ← commit_fn;
          match r with
          | inl e => mret (inl e)
          | inr (idx, f) =>
              r ← try_ensure mode idx f;
              mret (match r with inl e => inl e | inr _ => inr (idx, f) end)
          end))
    CommitOverwrite s.

(** ** Flushing, evicting and decommitting *)

Inductive PageSelection := SelectFlush | SelectEvict.

Definition should_collect (sel : PageSelection) (f : nat) : PC bool :=
  s ← state f;
  match sel with
  | SelectFlush =>
      if is_dirty s then mret true
      else if is_uninit s then mret false
      else
        locked ← try_lock_page f;
        if (locked : bool) then p ← page f; _ ← unlock_page f; mret (is_writing_back p) else mret true
  | SelectEvict => mret (is_up_to_date s)
  end.

(** A walk over the pages of a range of indices in order, as [Cursor::next_present] leads it. *)
Definition walk {A} (idxs : Range) (visit : A -> Z -> PC A) (a : A) : PC A := fun c =>
  while_fuel (S (size (vmo_pages c)))
    (fun '(a, index) =>
       a ← visit a index;
       next ← get (fun c => next_key (dom (vmo_pages c)) (index + 1));
       mret (match next with
             | None => Break a
             | Some index => if r_end idxs <=? index then Break a else Continue (a, index)
             end))
    (a, r_start idxs) c.

Definition collect_pages_if (idxs : Range) (sel : PageSelection) : PC (list (Z * nat)) :=
  if r_end idxs <=? r_start idxs then mret []
  else
    walk idxs
      (fun collected index =>
         o ← load index;
         match o with
         | Some f => b ← should_collect sel f; mret (if (b : bool) then collected ++ [(index, f)] else collected)
         | None => mret collected
         end)
      [].

(** [CursorMut::remove]. *)
Definition remove (idx : Z) : PC (option nat) :=
  o ← load idx;
  _ ← modify (fun c => with_pages (delete idx (vmo_pages c)) c);
  mret o.

Definition remove_pages_in (idxs : Range) : PC (list (Z * nat)) :=
  if r_end idxs <=? r_start idxs then mret []
  else
    walk idxs
      (fun removed index =>
         o ← remove index;
         mret (match o with Some f => removed ++ [(index, f)] | None => removed end))
      [].

(** [chunk_by_mut] into runs of consecutive indices. *)
Fixpoint chunk_by_next (l : list (Z * nat)) : list (list (Z * nat)) :=
  match l with
  | [] => []
  | (i, f) :: l =>
      match chunk_by_next l with
      | ((j, g) :: run) :: runs => if i + 1 =? j then ((i, f) :: (j, g) :: run) :: runs else [(i, f)] :: ((j, g) :: run) :: runs
      | runs => [(i, f)] :: runs
      end
  end.

Definition byte_range (idxs : Range) : run Range :=
  s ← umul (r_start idxs) PAGE_SIZE;
  e ← umul (r_end idxs) PAGE_SIZE;
  Ret (mkRange s e).

(** The loop of [flush_dirty_pages] that locks the dirty pages and marks them clean. *)
Definition mark_pages (pages : list (Z * nat)) : PC (list (Z * nat) * list nat) :=
  for_fold pages
    (fun '(dirty, maybe) '(idx, f) =>
       s ← state f;
       if negb (is_dirty s) then mret (dirty, maybe ++ [f])
       else
         _ ← lock_page f;
         p ← page f;
         if is_dirty (page_state p) then _ ← set_up_to_date f; mret (dirty ++ [(idx, f)], maybe)
         else
           _ ← unlock_page f;
           mret (if is_writing_back p then (dirty, maybe ++ [f]) else (dirty, maybe)))
    ([], []).

Definition unlock_all (pages : list (Z * nat)) : PC unit := for_each pages (fun '(_, f) => unlock_page f).

(** The loop of [flush_dirty_pages] over the runs; leaving the function drops the pages that are still
    locked. *)
Fixpoint flush_runs (runs : list (list (Z * nat))) (batch : list nat) : PC (list nat) :=
  match runs with
  | [] => mret batch
  | [(idx, f)] :: runs =>
      '(r, batch) ← write_page_async idx f batch;
      match r with
      | Ok _ => flush_runs runs batch
      | Err e => _ ← unlock_all (concat runs); throw e
      end
  | pages :: runs =>
      '(r, batch, rest) ← write_pages_async pages batch;
      match r with
      | Ok _ => flush_runs runs batch
      | Err e =>
          _ ← for_each rest (fun '(_, f) => _ ← set_dirty f; unlock_page f);
          _ ← outcome (wait_all batch);
          _ ← unlock_all (concat runs);
          throw e
      end
  end.

Definition flush_dirty_pages (r : Range) : PC unit :=
  size ← get vmo_size;
  if size <=? r_start r then mret tt
  else
    idxs ← lift (get_page_idx_range r);
    pages_to_flush ← collect_pages_if idxs SelectFlush;
    if bool_decide (pages_to_flush = []) then mret tt
    else
      '(locked_dirty_pages, maybe_writing_back_pages) ← mark_pages pages_to_flush;
      br ← lift (byte_range idxs);
      _ ← Rmap_freeze br;
      io_batch ← flush_runs (chunk_by_next locked_dirty_pages) [];
      _ ← wait_all io_batch;
      for_each maybe_writing_back_pages
        (fun f => _ ← lock_page f; _ ← wait_until_finish_writing_back f; unlock_page f).

(** The first loop of [evict_up_to_date_pages]. *)
Definition mark_evicted (pages : list (Z * nat)) : PC (list (Z * nat)) :=
  for_fold pages
    (fun locked '(idx, f) =>
       _ ← lock_page f;
       s ← state f;
       if negb (is_up_to_date s) then _ ← unlock_page f; mret locked
       else _ ← set_evicted f; mret (locked ++ [(idx, f)]))
    [].

Definition evict_up_to_date_pages (r : Range) : PC unit :=
  size ← get vmo_size;
  if size <=? r_start r then mret tt
  else
    idxs ← lift (get_page_idx_range r);
    up_to_date_pages ← collect_pages_if idxs SelectEvict;
    if bool_decide (up_to_date_pages = []) then mret tt
    else
      locked_pages ← mark_evicted up_to_date_pages;
      if bool_decide (locked_pages = []) then mret tt
      else
        br ← lift (byte_range idxs);
        _ ← Rmap_unmap br;
        for_each locked_pages
          (fun '(idx, f) =>
             _ ← wait_until_finish_writing_back f;
             o ← remove idx;
             removed ← lift (unwrap o);
             _ ← lift (assert_run (removed =? f)%nat);
             unlock_page f).

Definition decommit_pages (r : Range) : PC unit :=
  idxs ← lift (get_page_idx_range r);
  removed_pages ← remove_pages_in idxs;
  if bool_decide (removed_pages = []) then mret tt
  else
    br ← lift (byte_range idxs);
    _ ← Rmap_unmap br;
    for_each removed_pages
      (fun '(_, f) => _ ← lock_page f; _ ← wait_until_finish_writing_back f; unlock_page f).

Definition decommit_anon_pages (r : Range) : PC unit :=
  b ← get has_backend;
  _ ← lift (assert_run (negb b));
  idxs ← lift (get_page_idx_range r);
  _ ← walk idxs (fun _ index => _ ← remove index; mret tt) tt;
  br ← lift (byte_range idxs);
  Rmap_unmap br.

(** ** Reading and writing *)

Definition PAGE_BATCH_CAPACITY : Z := 32.

(** [Vec::with_capacity]. *)
Definition vec_with_capacity (n : Z) : PC Z := t ← tick; mret (env_capacity env t n).

Definition handle_commit_error (err : VmoCommitError) (m : CommitMode) : PC (Z * nat) :=
  match err with
  | CommitErr e => throw e
  | NeedIo index => f ← commit_on_internal index m; mret (index, f)
  | WaitUntilInit index f =>
      b ← get backed;
      _ ← ensure_init f (_ ← lift (assert_run b); read_page index f);
      mret (index, f)
  end.

(** The closure of [collect_pages]. *)
Definition push_page (pages : list (Z * nat)) (commit_fn : PC (VmoCommitError + Z * nat)) : PC (list (Z * nat) * option VmoCommitError) :=
  r ← commit_fn;
  mret (match r with inl e => (pages, Some e) | inr p => (pages ++ [p], None) end).

(** The pages are collected in a vector of the given capacity. *)
Definition collect_pages (start_idx end_idx : Z) (m : CommitMode) (capacity : Z) : PC (list (Z * nat)) :=
  cap_end ← lift (uadd start_idx capacity);
  let end_idx := Z.min end_idx cap_end in
  r ← lift (byte_range (mkRange start_idx end_idx));
  while_fuel (S (Z.to_nat (end_idx - start_idx)))
    (fun '(pages, current_start) =>
       '(pages, err) ← try_operate_on_range_internal (mkRange current_start (r_end r)) push_page m pages;
       match err with
       | None => mret (Break pages)
       | Some err =>
           '(idx, f) ← handle_commit_error err m;
           next ← lift (uadd idx 1);
           current_start ← lift (umul next PAGE_SIZE);
           mret (if r_end r <=? current_start then Break (pages ++ [(idx, f)]) else Continue (pages ++ [(idx, f)], current_start))
       end)
    ([], r_start r).

(** The index behind the last page of a batch. *)
Definition batch_end (pages : list (Z * nat)) : run Z :=
  '(idx, _) ← unwrap (last pages);
  uadd idx 1.

(** [Vmo::read]: the writer after a read that succeeds. *)
Definition read (offset : Z) (w : VmWriter) : PC VmWriter :=
  size ← get vmo_size;
  let read_len := Z.min (wr_avail w) (Z.max 0 (size - offset)) in
  if read_len =? 0 then mret w
  else
    read_end ← lift (uadd offset read_len);
    idxs ← lift (get_page_idx_range (mkRange offset read_end));
    capacity ← vec_with_capacity (Z.min (range_len idxs) PAGE_BATCH_CAPACITY);
    while_fuel (S (Z.to_nat (range_len idxs)))
      (fun '(current_idx, page_offset, w) =>
         if current_idx <? r_end idxs then
           batch ← collect_pages current_idx (r_end idxs) CommitRead capacity;
           '(page_offset, w) ← for_fold batch
             (fun '(page_offset, w) '(_, f) =>
                p ← page f;
                _ ← lift (assert_run (page_offset <=? len (page_data p)));
                w ← of_result (read_fallible (drop (Z.to_nat page_offset) (page_data p)) w);
                mret (0, w))
             (page_offset, w);
           current_idx ← lift (batch_end batch);
           mret (Continue (current_idx, page_offset, w))
         else mret (Break w))
      (r_start idxs, offset mod PAGE_SIZE, w).

(** The position of a write: the offset in the next page and the bytes that are left. *)
Notation WritePos := (Z * VmReader)%type.

(** The body of the loop of [write_anonymous_pages] over a batch. *)
Definition write_anonymous_page (pos : WritePos) (p : Z * nat) : PC WritePos :=
  let '(page_offset, reader) := pos in
  p' ← page p.2;
  _ ← lift (assert_run (page_offset <=? len (page_data p')));
  let '(d, reader, _, fault) := write_fallible (page_data p') page_offset reader in
  _ ← update_page p.2 (with_data d);
  if (fault : bool) then throw EFAULT else mret (0, reader).

Definition write_anonymous_pages (r : Range) (pos : WritePos) (capacity : Z) : PC WritePos :=
  idxs ← lift (get_page_idx_range r);
  while_fuel (S (Z.to_nat (range_len idxs)))
    (fun '(current_idx, pos) =>
       if current_idx <? r_end idxs then
         batch ← collect_pages current_idx (r_end idxs) CommitRead capacity;
         pos ← for_fold batch write_anonymous_page pos;
         current_idx ← lift (batch_end batch);
         mret (Continue (current_idx, pos))
       else mret (Break pos))
    (r_start idxs, pos).

(** Before a page is locked, another thread may evict pages. *)
Definition other_evicts : PC unit :=
  t ← tick;
  match env_evicts env t with Some r => evict_up_to_date_pages r | None => mret tt end.

(** The body of the loop of [write_pages_with_backend] over a batch. *)
Definition write_page (s : Z * WritePos) (p : Z * nat) : PC (Z * WritePos) :=
  let '(next_idx, (page_offset, reader)) := s in
  let '(idx, f) := p in
  _ ← other_evicts;
  _ ← lock_page f;
  p ← page f;
  if is_evicted (page_state p) then _ ← unlock_page f; mret (idx, (page_offset, reader))
  else
    _ ← lift (assert_run (page_offset <=? len (page_data p)));
    let '(d, reader, written_size, fault) := write_fallible (page_data p) page_offset reader in
    _ ← update_page f (with_data d);
    if (fault : bool) then
      _ ← (if (0 <? written_size) && is_up_to_date (page_state p) then set_dirty f else mret tt);
      _ ← unlock_page f;
      throw EFAULT
    else
      _ ← (if 0 <? written_size then set_dirty f else mret tt);
      _ ← unlock_page f;
      mret (next_idx, (0, reader)).

(** A page that another thread has evicted is tried again, so the loop may take more iterations than
    there are pages. *)
Definition write_pages_with_backend (r : Range) (m : CommitMode) (capacity : Z) (pos : WritePos) : PC WritePos :=
  idxs ← lift (get_page_idx_range r);
  while_fuel (S (2 * Z.to_nat (range_len idxs)))
    (fun '(current_idx, pos) =>
       if current_idx <? r_end idxs then
         batch ← collect_pages current_idx (r_end idxs) m capacity;
         next_idx ← lift (batch_end batch);
         '(next_idx, pos) ← for_fold batch write_page (next_idx, pos);
         mret (Continue (next_idx, pos))
       else mret (Break pos))
    (r_start idxs, pos).

(** [Vmo::write]: the reader after a write that succeeds. *)
Definition write (offset : Z) (reader : VmReader) : PC VmReader :=
  size ← get vmo_size;
  let write_len := Z.min (remain reader) (Z.max 0 (size - offset)) in
  if write_len =? 0 then mret reader
  else
    write_end ← lift (uadd offset write_len);
    let pos := (offset mod PAGE_SIZE, reader) in
    capacity ← vec_with_capacity (Z.min (div_ceil write_len PAGE_SIZE) PAGE_BATCH_CAPACITY);
    has ← get has_backend;
    '(_, reader) ←
      (if negb has then write_anonymous_pages (mkRange offset write_end) pos capacity
       else if write_len <? PAGE_SIZE then write_pages_with_backend (mkRange offset write_end) CommitRead capacity pos
       else
         up_align_start ← lift (align_up offset PAGE_SIZE);
         down_align_end ← lift (align_down write_end PAGE_SIZE);
         pos ← (if offset =? up_align_start then mret pos
                else write_pages_with_backend (mkRange offset up_align_start) CommitRead capacity pos);
         pos ← (if up_align_start =? down_align_end then mret pos
                else write_pages_with_backend (mkRange up_align_start down_align_end) CommitOverwrite capacity pos);
         if down_align_end =? write_end then mret pos
         else write_pages_with_backend (mkRange down_align_end write_end) CommitRead capacity pos);
    mret reader.

Definition fill_zeros (r : Range) : PC unit :=
  if r_end r <=? r_start r then mret tt
  else
    size ← get vmo_size;
    if size <? r_end r then throw EINVAL
    else
      while_fuel (S (Z.to_nat (div_ceil (range_len r) PAGE_SIZE) + 1))
        (fun current_offset =>
           if current_offset <? r_end r then
             let page_remaining := PAGE_SIZE - current_offset mod PAGE_SIZE in
             let write_len := Z.min (r_end r - current_offset) page_remaining in
             _ ← write current_offset (mkReader (take (Z.to_nat write_len) zero_page) None);
             current_offset ← lift (uadd current_offset write_len);
             mret (Continue current_offset)
           else mret (Break tt))
        (r_start r).

(** ** The page cache: [mod.rs] *)

Definition VmoFlags_RESIZABLE : Z := Z.shiftl 1 0.
Definition VmoFlags_CONTIGUOUS : Z := Z.shiftl 1 1.

Definition resize (new_file_size old_file_size : Z) : PC unit :=
  flags ← get vmo_flags;
  _ ← lift (assert_run (bf_contains flags VmoFlags_RESIZABLE));
  _ ← (if (new_file_size <? old_file_size) && negb (is_multiple_of new_file_size PAGE_SIZE) then
         up ← lift (align_up new_file_size PAGE_SIZE);
         fill_zeros (mkRange new_file_size (Z.min old_file_size up))
       else if (old_file_size <? new_file_size) && negb (is_multiple_of old_file_size PAGE_SIZE) then
         up ← lift (align_up old_file_size PAGE_SIZE);
         fill_zeros (mkRange old_file_size (Z.min new_file_size up))
       else mret tt);
  new_cache_size ← lift (align_up new_file_size PAGE_SIZE);
  old_cache_size ← get vmo_size;
  if new_cache_size =? old_cache_size then mret tt
  else
    _ ← modify (with_size new_cache_size);
    if new_file_size <? old_file_size then
      b ← get backed;
      if (b : bool) then decommit_pages (mkRange new_cache_size old_cache_size)
      else decommit_anon_pages (mkRange new_cache_size old_cache_size)
    else mret tt.

Definition flush_range (r : Range) : PC unit :=
  b ← get backed;
  if (b : bool) then flush_dirty_pages r else mret tt.

Definition evict_range (r : Range) : PC unit :=
  b ← get backed;
  if (b : bool) then evict_up_to_date_pages r else mret tt.

Definition invalidate_range (r : Range) : PC unit :=
  b ← get backed;
  if (b : bool) then _ ← flush_dirty_pages r; evict_up_to_date_pages r else mret tt.

(** ** Creating memory objects: [vmo/options.rs] *)

(** The frames of a contiguous object are zeroed, with the default metadata. *)
Definition committed_pages_if_continuous (flags size : Z) : PC unit :=
  if bf_contains flags VmoFlags_CONTIGUOUS then
    t ← tick;
    if env_alloc env t then
      for_each (seqZ 0 (size / PAGE_SIZE))
        (fun idx =>
           f ← get next_frame;
           _ ← modify (with_new_frame (mkPage Uninit false false zero_page));
           store idx f)
    else throw ENOMEM
  else mret tt.

(** [alloc_vmo], over the storage [d]. *)
Definition alloc_vmo (size flags : Z) (backend : option bool) (d : gmap Z (list Z)) (t : nat) : run (result unit * Cache) :=
  size ← align_up size PAGE_SIZE;
  committed_pages_if_continuous flags size (mkCache ∅ 0 ∅ size flags backend ∅ ∅ d [] ∅ t).

(** [VmoOptions::new_anon] and [VmoOptions::new_page_cache]. *)
Definition new_anon (size : Z) (t : nat) : run (result unit * Cache) := alloc_vmo size VmoFlags_RESIZABLE None ∅ t.
Definition new_with_backend (size : Z) (d : gmap Z (list Z)) (t : nat) : run (result unit * Cache) :=
  alloc_vmo size VmoFlags_RESIZABLE (Some true) d t.
End cache.
