(* ===== verification/PageCacheInv.v ===== *)
(** * The page cache: invariant and page commits

    The rules for calls of the page cache ([wp]: a call returns, and its result and the state after it
    meet a condition), what is assumed of the environment, the invariant [wf] of a page cache between
    calls, and the calls that bring pages into the cache: they return, keep the invariant and do not
    change the contents of the file. *)

From S2P Require Import Prelude Flags Align IntervalSet VmMapping Vmar PageCache.

(** ** Rules *)

Definition wp {A} (m : PC A) (c : Cache) (Q : result A -> Cache -> Prop) : Prop := returns (m c) (fun rc => Q rc.1 rc.2).

Lemma wp_bind {A B} (m : PC A) (k : A -> PC B) c Q :
  wp m c (fun r c' => match r with Ok a => wp (k a) c' Q | Err e => Q (Err e) c' end) -> wp (m ≫= k) c Q.
Proof.
  intros ([r c'] & E & H). unfold wp, mbind, pc_bind. rewrite E. cbn [mbind run_bind]. cbn in H.
  destruct r; [done|]. by apply returns_ret.
Qed.

Lemma wp_mono {A} (m : PC A) c (Q R : result A -> Cache -> Prop) : wp m c Q -> (forall r c', Q r c' -> R r c') -> wp m c R.
Proof. intros H HQ. eapply returns_mono; [exact H|]. intros [r c']. apply HQ. Qed.

Lemma wp_ret {A} (a : A) c (Q : result A -> Cache -> Prop) : Q (Ok a) c -> wp (mret a) c Q.
Proof. intros H. by apply returns_ret. Qed.

Lemma wp_throw {A} e c (Q : result A -> Cache -> Prop) : Q (Err e) c -> wp (throw e) c Q.
Proof. intros H. by apply returns_ret. Qed.

Lemma wp_get {A} (g : Cache -> A) c (Q : result A -> Cache -> Prop) : Q (Ok (g c)) c -> wp (get g) c Q.
Proof. intros H. by apply returns_ret. Qed.

Lemma wp_modify g c (Q : result unit -> Cache -> Prop) : Q (Ok tt) (g c) -> wp (modify g) c Q.
Proof. intros H. by apply returns_ret. Qed.

Lemma wp_tick c (Q : result nat -> Cache -> Prop) : Q (Ok (clock c)) (with_clock (S (clock c)) c) -> wp tick c Q.
Proof. intros H. by apply returns_ret. Qed.

Lemma wp_lift {A} (m : run A) a c (Q : result A -> Cache -> Prop) : m = Ret a -> Q (Ok a) c -> wp (lift m) c Q.
Proof. intros -> H. unfold wp, lift. by apply returns_ret. Qed.

Lemma wp_of_result {A} (r : result A) c (Q : result A -> Cache -> Prop) : Q r c -> wp (of_result r) c Q.
Proof. intros H. by apply returns_ret. Qed.

Lemma wp_outcome {A} (m : PC A) c (Q : result (result A) -> Cache -> Prop) : wp m c (fun r c' => Q (Ok r) c') -> wp (outcome m) c Q.
Proof. intros ([r c'] & E & H). unfold wp, outcome. rewrite E. cbn. by apply returns_ret. Qed.

(** A change of one page. *)
Definition put (f : nat) (p : CachePage) (c : Cache) : Cache := with_frames (<[f := p]> (frames c)) c.

Lemma put_put f p p' c : put f p' (put f p c) = put f p' c.
Proof. unfold put, with_frames. cbn. by rewrite insert_insert_eq. Qed.

Lemma put_id f p c : frames c !! f = Some p -> put f p c = c.
Proof. intros E. unfold put, with_frames. rewrite insert_id by done. by destruct c. Qed.

Lemma frames_put f p c : frames (put f p c) !! f = Some p.
Proof. apply lookup_insert_eq. Qed.

(** Changes of pages commute with changes of the clock and of the requests. *)
Lemma put_clock f p t c : put f p (with_clock t c) = with_clock t (put f p c).
Proof. done. Qed.

Lemma put_io f p d b st c : put f p (with_io d b st c) = with_io d b st (put f p c).
Proof. done. Qed.

Lemma frames_clock t c : frames (with_clock t c) = frames c.
Proof. done. Qed.

Lemma frames_io d b st c : frames (with_io d b st c) = frames c.
Proof. done. Qed.

Lemma wp_page f p c (Q : result CachePage -> Cache -> Prop) : frames c !! f = Some p -> Q (Ok p) c -> wp (page f) c Q.
Proof. intros E H. unfold wp, page. rewrite E. by apply returns_ret. Qed.

Lemma wp_update f g p c (Q : result unit -> Cache -> Prop) : frames c !! f = Some p -> Q (Ok tt) (put f (g p) c) -> wp (update_page f g) c Q.
Proof. intros E H. unfold update_page. apply wp_bind. eapply wp_page; [exact E|]. by apply wp_modify. Qed.

Lemma wp_state f p c (Q : result PageState -> Cache -> Prop) : frames c !! f = Some p -> Q (Ok (page_state p)) c -> wp (state f) c Q.
Proof. intros E H. unfold state. apply wp_bind. eapply wp_page; [exact E|]. by apply wp_ret. Qed.

Lemma wp_try_lock f p c (Q : result bool -> Cache -> Prop) :
  frames c !! f = Some p -> page_lock p = false -> Q (Ok true) (put f (with_lock true p) c) -> wp (try_lock_page f) c Q.
Proof.
  intros E El H. unfold try_lock_page. apply wp_bind. eapply wp_page; [exact E|]. rewrite El.
  apply wp_bind. eapply wp_update; [exact E|]. by apply wp_ret.
Qed.

Lemma wp_lock f p c (Q : result unit -> Cache -> Prop) :
  frames c !! f = Some p -> page_lock p = false -> Q (Ok tt) (put f (with_lock true p) c) -> wp (lock_page f) c Q.
Proof. intros E El H. unfold lock_page. apply wp_bind. eapply wp_try_lock; [exact E|done|]. by apply wp_ret. Qed.

(** [pc] takes a step of a call; pages are found in the context or as the last change of the state. *)
Ltac pc_lookup := rewrite ?frames_clock, ?frames_io; first [eassumption | apply frames_put].
Ltac pc1 :=
  lazymatch goal with
  | |- wp (mbind _ _) _ _ => apply wp_bind
  | |- wp (mret _) _ _ => apply wp_ret
  | |- wp (throw _) _ _ => apply wp_throw
  | |- wp (for_fold [] _ _) _ _ => apply wp_ret
  | |- wp (for_each [] _) _ _ => apply wp_ret
  | |- wp (get _) _ _ => apply wp_get
  | |- wp (modify _) _ _ => apply wp_modify
  | |- wp tick _ _ => apply wp_tick
  | |- wp (of_result _) _ _ => apply wp_of_result
  | |- wp (outcome _) _ _ => apply wp_outcome
  | |- wp (lift (assert_run true)) _ _ => apply (wp_lift _ tt); [reflexivity|]
  | |- wp (page _) _ _ => eapply wp_page; [solve [pc_lookup]|]
  | |- wp (state _) _ _ => eapply wp_state; [solve [pc_lookup]|]
  | |- wp (update_page _ _) _ _ => eapply wp_update; [solve [pc_lookup]|]; rewrite ?put_clock, ?put_io, ?put_put
  | |- wp (set_state _ _) _ _ => unfold set_state
  | |- wp (set_up_to_date _) _ _ => unfold set_up_to_date
  | |- wp (set_dirty _) _ _ => unfold set_dirty
  | |- wp (set_evicted _) _ _ => unfold set_evicted
  | |- wp (set_writing_back _) _ _ => unfold set_writing_back
  | |- wp (clear_writing_back _) _ _ => unfold clear_writing_back
  | |- wp (unlock_page _) _ _ => unfold unlock_page
  | |- wp (try_lock_page _) _ _ => eapply wp_try_lock; [solve [pc_lookup]|solve [eassumption|reflexivity]|]; rewrite ?put_clock, ?put_io, ?put_put
  | |- wp (lock_page _) _ _ => eapply wp_lock; [solve [pc_lookup]|solve [eassumption|reflexivity]|]; rewrite ?put_clock, ?put_io, ?put_put
  end.
Ltac pc := repeat (pc1; cbn beta iota).

(** ** Loops *)

Lemma wp_for_fold {A B} (l : list A) (f : B -> A -> PC B) (I : nat -> B -> Cache -> Prop) (Q : result B -> Cache -> Prop) b c :
  I 0%nat b c ->
  (forall j x b c, l !! j = Some x -> I j b c -> wp (f b x) c (fun r c' => match r with Ok b' => I (S j) b' c' | Err e => Q (Err e) c' end)) ->
  (forall b c, I (length l) b c -> Q (Ok b) c) ->
  wp (for_fold l f b) c Q.
Proof.
  revert I b c. induction l as [|x l IH]; intros I b c H0 Hstep Hend; cbn [for_fold].
  - apply wp_ret. by apply Hend.
  - apply wp_bind. eapply wp_mono; [by apply (Hstep 0%nat)|]. intros [b'|e] c' H; [|done].
    apply (IH (fun j => I (S j))); [done|intros j y b2 c2 Hy H2; by apply Hstep|done].
Qed.

Lemma wp_for_each {A} (l : list A) (f : A -> PC unit) (I : nat -> Cache -> Prop) (Q : result unit -> Cache -> Prop) c :
  I 0%nat c ->
  (forall j x c, l !! j = Some x -> I j c -> wp (f x) c (fun r c' => match r with Ok _ => I (S j) c' | Err e => Q (Err e) c' end)) ->
  (forall c, I (length l) c -> Q (Ok tt) c) ->
  wp (for_each l f) c Q.
Proof.
  revert I c. induction l as [|x l IH]; intros I c H0 Hstep Hend; cbn [for_each].
  - apply wp_ret. by apply Hend.
  - apply wp_bind. eapply wp_mono; [by apply (Hstep 0%nat)|]. intros [[]|e] c' H; [|done].
    apply (IH (fun j => I (S j))); [done|intros j y c2 Hy H2; by apply Hstep|done].
Qed.

Lemma wp_while {A B} (f : A -> PC (flow A B)) (I : A -> Cache -> Prop) (m : A -> nat) (Q : result B -> Cache -> Prop) :
  (forall a c, I a c -> wp (f a) c (fun r c' =>
     match r with Ok (Continue a') => I a' c' /\ (m a' < m a)%nat | Ok (Break b) => Q (Ok b) c' | Err e => Q (Err e) c' end)) ->
  forall fuel a c, I a c -> (m a < fuel)%nat -> wp (while_fuel fuel f a) c Q.
Proof.
  intros Hstep fuel. induction fuel as [|fuel IH]; intros a c Ha Hm; [lia|]. cbn [while_fuel]. apply wp_bind.
  eapply wp_mono; [by apply Hstep|]. intros [[a'|b]|e] c' H; [|by apply wp_ret|done]. destruct H. apply IH; [done|lia].
Qed.

(** ** The environment

    Vectors have the capacity asked for, a request is answered with zeros only for a page of zeros, the
    device completes requests and transfers the bytes of a page that does not change meanwhile.  Reads
    and allocations may fail; writes do not, and nobody else evicts pages.  What happens otherwise is
    shown at the end of [PageCacheSpec.v]. *)
Record env_ok (env : Env) : Prop := {
  ok_garbage t : len (env_garbage env t) = PAGE_SIZE;
  ok_capacity t n : 0 <= n <= PAGE_BATCH_CAPACITY -> n <= env_capacity env t n < 2 ^ 63;
  ok_zeros t i d : env_read env t i d = ReadZeros -> d = zero_page;
  ok_read_status t : env_status env t BioRead ∈ [BioComplete; BioNotSupported; BioNoSpace; BioIoError];
  ok_write_status t : env_status env t BioWrite = BioComplete;
  ok_dma t d : env_dma env t d d = d;
  ok_write t i : env_write env t i = None;
  ok_evicts t : env_evicts env t = None
}.

(** A call for pages within the object fails only if a frame cannot be allocated or a page cannot be read. *)
Definition failing (env : Env) : Prop :=
  (exists t, env_alloc env t = false) \/ (exists t i d e, env_read env t i d = ReadErr e) \/ (exists t, env_status env t BioRead <> BioComplete).

(** ** The contents of the file *)

(** The bytes of a page that is not in the cache. *)
Definition backing (c : Cache) (i : Z) : list Z := if backed c then disk_page c i else zero_page.

Definition file_page (c : Cache) (i : Z) : list Z :=
  match vmo_pages c !! i with
  | Some f =>
      match frames c !! f with
      | Some p => if is_uninit (page_state p) then backing c i else page_data p
      | None => []
      end
  | None => backing c i
  end.

Definition file_byte (c : Cache) (o : Z) : Z := file_page c (o / PAGE_SIZE) !!! Z.to_nat (o mod PAGE_SIZE).

(** ** The invariant *)

Definition entry_ok (e : RmapEntry) : Prop :=
  0 <= re_offset e /\ 0 <= re_vaddr e /\ 0 < re_size e /\ re_vaddr e + re_size e <= 2 ^ 47 /\ re_offset e + re_size e < u64_modulus /\
  (PAGE_SIZE | re_offset e) /\ (PAGE_SIZE | re_vaddr e) /\ (PAGE_SIZE | re_size e).

(** Address [va] of the address space [v] belongs to a shared mapping of the object and shows page [i]. *)
Definition shows (c : Cache) (v : nat) (va i : Z) : Prop :=
  exists es e, vmo_rmap c !! v = Some es /\ e ∈ es /\ re_vaddr e <= va < re_vaddr e + re_size e /\
    i = (va - re_vaddr e + re_offset e) / PAGE_SIZE.

Definition can_write (q : Pte) : bool := Z.testbit (pte_flags q) 1.

(** A page of the cache between calls; [d] is the page on the storage, if the object has a backend. *)
Definition page_ok (d : option (list Z)) (p : CachePage) : Prop :=
  page_lock p = false /\ is_writing_back p = false /\ len (page_data p) = PAGE_SIZE /\ page_state p <> Evicted /\
  match d with Some d => page_state p = UpToDate -> page_data p = d | None => page_state p <> Uninit end.

Definition disk_of (c : Cache) (i : Z) : option (list Z) := if backed c then Some (disk_page c i) else None.

Record wf (c : Cache) : Prop := {
  wf_size : 0 <= vmo_size c /\ (PAGE_SIZE | vmo_size c) /\ vmo_size c + PAGE_SIZE <= u64_modulus;
  wf_backend : vmo_backend c <> Some false;
  wf_index i f : vmo_pages c !! i = Some f -> 0 <= i < vmo_size c / PAGE_SIZE;
  wf_inj i j f : vmo_pages c !! i = Some f -> vmo_pages c !! j = Some f -> i = j;
  wf_page i f : vmo_pages c !! i = Some f -> exists p, frames c !! f = Some p /\ page_ok (disk_of c i) p;
  wf_next f p : frames c !! f = Some p -> (f < next_frame c)%nat;
  wf_disk i : len (disk_page c i) = PAGE_SIZE;
  wf_bios : bios c = [];
  wf_rmap v es e : vmo_rmap c !! v = Some es -> e ∈ es -> entry_ok e;
  wf_pte v sp va q i : spaces c !! v = Some sp -> sp_table sp !! va = Some q -> shows c v va i ->
    exists p, vmo_pages c !! i = Some (pte_frame q) /\ frames c !! pte_frame q = Some p /\ page_state p <> Uninit /\
      (can_write q = true -> page_state p = Dirty)
}.

Lemma wf_clock t c : wf c -> wf (with_clock t c).
Proof. intros []. by constructor. Qed.

Lemma wf_statuses st c : wf c -> wf (with_io (disk c) (bios c) st c).
Proof. intros []. by constructor. Qed.

Lemma len_zero_page : len zero_page = PAGE_SIZE.
Proof. unfold len, zero_page. rewrite length_replicate. by rewrite Z2Nat.id. Qed.

Lemma len_backing c i : wf c -> len (backing c i) = PAGE_SIZE.
Proof. intros H. unfold backing. destruct (backed c); [apply (wf_disk _ H)|apply len_zero_page]. Qed.

Lemma file_page_cached c i f p : vmo_pages c !! i = Some f -> frames c !! f = Some p -> page_state p <> Uninit -> file_page c i = page_data p.
Proof. intros E Ef Hs. unfold file_page. rewrite E, Ef. by destruct (page_state p). Qed.

Lemma len_file_page c i : wf c -> len (file_page c i) = PAGE_SIZE.
Proof.
  intros H. unfold file_page. destruct (vmo_pages c !! i) as [f|] eqn:E; [|by apply len_backing].
  destruct (wf_page _ H i f E) as (p & -> & _ & _ & Hl & _). destruct (is_uninit (page_state p)); [by apply len_backing|done].
Qed.

(** A page of the cache changes, and every mapping of it stays correct. *)
Lemma wf_put c i f p p' : wf c -> vmo_pages c !! i = Some f -> frames c !! f = Some p -> page_ok (disk_of c i) p' ->
  (page_state p <> Uninit -> page_state p' <> Uninit) -> (page_state p = Dirty -> page_state p' = Dirty) ->
  wf (put f p' c).
Proof.
  intros H Ei Ef Hok Hinit Hdirty. constructor; try apply H.
  - intros j g Ej. cbn in *. destruct (decide (g = f)) as [->|Hne].
    + exists p'. rewrite lookup_insert_eq. split; [done|]. by rewrite (wf_inj _ H j i f Ej Ei).
    + rewrite lookup_insert_ne by done. by apply (wf_page _ H).
  - intros g q. cbn. destruct (decide (g = f)) as [->|Hne]; [intros _; by eapply (wf_next _ H)|].
    rewrite lookup_insert_ne by done. apply (wf_next _ H).
  - intros v sp va q j Hsp Hq Hsh. destruct (wf_pte _ H v sp va q j Hsp Hq Hsh) as (p0 & Hj & Hp0 & Hu & Hw). cbn.
    destruct (decide (pte_frame q = f)) as [E|Hne].
    + rewrite E in *. exists p'. rewrite lookup_insert_eq. assert (p0 = p) as -> by congruence. split_and!; auto.
    + exists p0. rewrite lookup_insert_ne by done. done.
Qed.

(** ** Pages are loaded

    [loads c c']: pages were added and filled from the storage; pages that were initialised have not
    changed, and neither has the file. *)
Record loads (c c' : Cache) : Prop := {
  ld_wf : wf c';
  ld_same : vmo_size c' = vmo_size c /\ vmo_flags c' = vmo_flags c /\ vmo_backend c' = vmo_backend c /\ vmo_rmap c' = vmo_rmap c /\
    spaces c' = spaces c /\ disk c' = disk c;
  ld_pages i f : vmo_pages c !! i = Some f -> vmo_pages c' !! i = Some f;
  ld_frames f p : frames c !! f = Some p -> page_state p <> Uninit -> frames c' !! f = Some p;
  ld_file i : file_page c' i = file_page c i
}.

Lemma loads_refl c : wf c -> loads c c.
Proof. by constructor. Qed.

Lemma loads_trans c1 c2 c3 : loads c1 c2 -> loads c2 c3 -> loads c1 c3.
Proof.
  intros [W1 (S1 & S2 & S3 & S4 & S5 & S6) P1 F1 E1] [W2 (T1 & T2 & T3 & T4 & T5 & T6) P2 F2 E2]. constructor.
  - done.
  - split_and!; congruence.
  - auto.
  - auto.
  - intros i. by rewrite E2.
Qed.

Lemma loads_clock c c' t : loads c c' -> loads c (with_clock t c').
Proof. intros [W S P F E]. constructor; try done. by apply wf_clock. Qed.

Lemma loads_statuses c c' st : loads c c' -> loads c (with_io (disk c') (bios c') st c').
Proof. intros [W S P F E]. constructor; try done. by apply wf_statuses. Qed.

(** The clock and the status of requests that are done do not matter. *)
Definition quiet (c c' : Cache) : Prop := c' = with_io (disk c) (bios c) (statuses c') (with_clock (clock c') c).

Lemma loads_quiet c d c' : loads c d -> quiet d c' -> loads c c'.
Proof. intros H ->. apply loads_statuses with (c' := with_clock _ d). by apply loads_clock. Qed.

Lemma loads_backed c c' : loads c c' -> backed c' = backed c.
Proof. intros [_ (_ & _ & E & _) _ _ _]. unfold backed. by rewrite E. Qed.

(** A page that was not initialised is filled, or its bytes are lost. *)
Lemma loads_put c i f p p' : wf c -> vmo_pages c !! i = Some f -> frames c !! f = Some p -> page_state p = Uninit ->
  page_ok (disk_of c i) p' -> (page_state p' = Uninit \/ page_data p' = backing c i) -> loads c (put f p' c).
Proof.
  intros H Ei Ef Hu Hok Hdata. constructor.
  - apply (wf_put c i f p); try done; congruence.
  - done.
  - done.
  - intros g q Eg Hq. cbn. destruct (decide (g = f)) as [->|]; [congruence|]. by rewrite lookup_insert_ne.
  - intros j. unfold file_page. cbn. destruct (vmo_pages c !! j) as [g|] eqn:Ej; [|done].
    destruct (decide (g = f)) as [->|]; [|by rewrite lookup_insert_ne].
    rewrite lookup_insert_eq, Ef, Hu. cbn [is_uninit]. rewrite (wf_inj _ H j i f Ej Ei).
    destruct Hdata as [->|Hd]; [done|]. rewrite Hd. by destruct (is_uninit _).
Qed.

(** A page is added. *)
Definition add_page (i : Z) (p : CachePage) (c : Cache) : Cache :=
  with_pages (<[i := next_frame c]> (vmo_pages c)) (with_new_frame p c).

Lemma loads_add c i p : wf c -> vmo_pages c !! i = None -> 0 <= i < vmo_size c / PAGE_SIZE -> page_ok (disk_of c i) p ->
  (page_state p = Uninit \/ page_data p = backing c i) -> loads c (add_page i p c).
Proof.
  intros H Ei Hi Hok Hdata. assert (frames c !! next_frame c = None) as Hfresh.
  { destruct (frames c !! next_frame c) as [q|] eqn:E; [|done]. pose proof (wf_next _ H _ _ E). lia. }
  assert (forall j f, vmo_pages c !! j = Some f -> f <> next_frame c) as Hne.
  { intros j f Ej ->. destruct (wf_page _ H j _ Ej) as (q & E & _). congruence. }
  assert (forall f, is_Some (frames c !! f) -> <[next_frame c := p]> (frames c) !! f = frames c !! f) as Hold.
  { intros f [q E]. rewrite lookup_insert_ne; [done|]. congruence. }
  constructor.
  - constructor; try apply H; cbn.
    + intros j f. destruct (decide (j = i)) as [->|]; [done|]. rewrite lookup_insert_ne by done. apply (wf_index _ H).
    + intros j k f. destruct (decide (j = i)) as [->|], (decide (k = i)) as [->|]; rewrite ?lookup_insert_eq, ?lookup_insert_ne by done; try done.
      * intros [= <-] E. by destruct (Hne k _ E).
      * intros E [= <-]. by destruct (Hne j _ E).
      * apply (wf_inj _ H).
    + intros j f. destruct (decide (j = i)) as [->|]; rewrite ?lookup_insert_eq, ?lookup_insert_ne by done.
      * intros [= <-]. exists p. by rewrite lookup_insert_eq.
      * intros E. destruct (wf_page _ H j f E) as (q & Eq & Hq). exists q. by rewrite lookup_insert_ne by (symmetry; by eapply Hne).
    + intros f q. destruct (decide (f = next_frame c)) as [->|]; [lia|]. rewrite lookup_insert_ne by done.
      intros E. pose proof (wf_next _ H _ _ E). lia.
    + intros v sp va q j Hsp Hq Hsh. destruct (wf_pte _ H v sp va q j Hsp Hq Hsh) as (p0 & Hj & Hp0 & Hu & Hw).
      exists p0. split_and!; try done; [|by rewrite Hold]. rewrite lookup_insert_ne; [done|]. intros ->. congruence.
  - done.
  - intros j f E. cbn. rewrite lookup_insert_ne; [done|]. intros ->. congruence.
  - intros f q E _. cbn. by rewrite Hold.
  - intros j. unfold file_page. cbn. destruct (decide (j = i)) as [->|].
    + rewrite !lookup_insert_eq, Ei. destruct Hdata as [->|Hd]; [done|]. rewrite Hd. by destruct (is_uninit _).
    + rewrite lookup_insert_ne by done. destruct (vmo_pages c !! j) as [f|] eqn:Ej; [|done].
      by rewrite lookup_insert_ne by (symmetry; by eapply Hne).
Qed.

(** The page at [i] is in frame [f], and initialised unless it will be overwritten. *)
Definition ready (c : Cache) (m : CommitMode) (i : Z) (f : nat) : Prop :=
  vmo_pages c !! i = Some f /\ (m = CommitRead -> exists p, frames c !! f = Some p /\ page_state p <> Uninit).

Lemma loads_ready c c' m i f : loads c c' -> ready c m i f -> ready c' m i f.
Proof.
  intros H [Hi Hm]. split; [by apply (ld_pages _ _ H)|]. intros E. destruct (Hm E) as (p & Ef & Hp). exists p.
  split; [by apply (ld_frames _ _ H)|done].
Qed.

(** Equality tests of constants. *)
Ltac bool_const :=
  repeat match goal with
  | |- context [bool_decide ?P] => first [change (bool_decide P) with true | change (bool_decide P) with false]
  | H : context [bool_decide ?P] |- _ => first [change (bool_decide P) with true in H | change (bool_decide P) with false in H]
  end; cbn [negb andb] in *.

Section commit.
Context `{BF : Bitflags} (env : Env).
Hypothesis (Henv : env_ok env).

(** ** Requests *)

Lemma wp_complete_read b c p (Q : result unit -> Cache -> Prop) :
  bio_type b = BioRead -> frames c !! bio_frame b = Some p ->
  (forall st, env_status env (bio_id b) BioRead = st -> st ∈ [BioComplete; BioNotSupported; BioNoSpace; BioIoError] ->
     let done := bool_decide (st = BioComplete) in
     Q (Ok tt) (with_io (disk c) (filter (fun b' => bio_id b' <> bio_id b) (bios c)) (<[bio_id b := st]> (statuses c))
       (put (bio_frame b)
         (mkPage (if done then UpToDate else page_state p) false (is_writing_back p) (if done then disk_page c (bio_idx b) else env_garbage env (bio_id b))) c))) ->
  wp (complete env b) c Q.
Proof.
  intros Et Ef HQ. pose proof (ok_read_status _ Henv (bio_id b)) as Hst. unfold complete, transfer. rewrite Et.
  specialize (HQ _ eq_refl Hst). cbv zeta in HQ. destruct (env_status env (bio_id b) BioRead); try (exfalso; set_solver); clear Hst; bool_const.
  all: pc; unfold complete_read_page; pc; exact HQ.
Qed.

Lemma wp_complete_write b c p (Q : result unit -> Cache -> Prop) :
  bio_type b = BioWrite -> frames c !! bio_frame b = Some p ->
  Q (Ok tt) (with_io (<[bio_idx b := env_dma env (bio_id b) (bio_data b) (page_data p)]> (disk c)) (filter (fun b' => bio_id b' <> bio_id b) (bios c))
    (<[bio_id b := BioComplete]> (statuses c)) (put (bio_frame b) (with_writing_back false p) c)) ->
  wp (complete env b) c Q.
Proof.
  intros Et Ef HQ. unfold complete, transfer. rewrite Et, (ok_write_status _ Henv). bool_const.
  pc. unfold complete_write_page. pc. exact HQ.
Qed.

(** Waiting for the only request, a read. *)
Lemma wp_wait_read t i f d p c (Q : result unit -> Cache -> Prop) : frames c !! f = Some p ->
  (forall st, Q (Ok tt) (with_io (disk c) [] st (put f (mkPage UpToDate false (is_writing_back p) (disk_page c i)) c))) ->
  (forall e st, failing env -> Q (Err e) (with_io (disk c) [] st (put f (mkPage (page_state p) false (is_writing_back p) (env_garbage env t)) c))) ->
  wp (wait_all env [t]) (with_io (disk c) [mkBio t BioRead i f d] (statuses c) c) Q.
Proof.
  intros Ef HO HE. unfold wait_all. cbn [for_fold]. unfold wait_bio. pc. cbn [bios with_io find_first bio_id]. rewrite Nat.eqb_refl.
  eapply wp_complete_read; [done|exact Ef|]. intros st Est Hst. cbn [bio_id bio_frame bio_idx bio_type] in *. cbv zeta. cbn [bios with_io].
  rewrite filter_cons_False, filter_nil by (cbn; tauto). pc. cbn [statuses with_io]. rewrite lookup_insert_eq.
  rewrite put_io. change (disk_page (with_io _ _ _ c) i) with (disk_page c i).
  revert HE HO. generalize (disk_page c i), (env_garbage env t). intros dp g HE HO.
  repeat (apply elem_of_cons in Hst as [->|Hst]; [bool_const; pc; first [apply HO|apply HE; right; right; exists t; by rewrite Est]|]). by apply elem_of_nil in Hst.
Qed.

(** The page is locked and not initialised. *)
Lemma read_page_spec c i f p : wf c -> backed c = true -> vmo_pages c !! i = Some f -> frames c !! f = Some p -> page_state p = Uninit ->
  wp (read_page env i f) (put f (with_lock true p) c) (fun r c' => loads c c' /\ match r with Ok _ => ready c' CommitRead i f | Err _ => failing env end).
Proof.
  intros H Hb Ei Ef Hu. destruct (wf_page _ H i f Ei) as (p1 & Ep1 & Hok). assert (p1 = p) as -> by congruence. clear Ep1.
  destruct Hok as (Hl & Hwb & Hlen & Hev & Hd). assert (disk_of c i = Some (disk_page c i)) as Edk by (unfold disk_of; by rewrite Hb).
  assert (backing c i = disk_page c i) as Ebk by (unfold backing; by rewrite Hb).
  assert (forall t st, quiet (put f (mkPage UpToDate false (is_writing_back p) (disk_page c i)) c)
    (with_io (disk c) [] st (with_clock t (put f (mkPage UpToDate false (is_writing_back p) (disk_page c i)) c)))) as Hq.
  { intros t st. unfold quiet. cbn [bios put with_frames]. by rewrite (wf_bios _ H). }
  assert (forall d t st, len d = PAGE_SIZE -> loads c (with_io (disk c) [] st (with_clock t (put f (mkPage Uninit false (is_writing_back p) d) c)))) as Hlost.
  { intros d t st Hd'. eapply loads_quiet; [apply (loads_put c i f p (mkPage Uninit false (is_writing_back p) d)); try done; [|by left]; rewrite Edk; split_and!; done|].
    unfold quiet. cbn [bios put with_frames]. by rewrite (wf_bios _ H). }
  assert (forall t st, loads c (with_io (disk c) [] st (with_clock t (put f (mkPage UpToDate false (is_writing_back p) (disk_page c i)) c)))) as Hfull.
  { intros t st. eapply loads_quiet; [apply (loads_put c i f p (mkPage UpToDate false (is_writing_back p) (disk_page c i))); try done; [|right; by rewrite Ebk]|apply Hq].
    rewrite Edk. split_and!; try done. apply (wf_disk _ H). }
  assert (forall p0 t st, page_state p0 <> Uninit -> ready (with_io (disk c) [] st (with_clock t (put f p0 c))) CommitRead i f) as Hready.
  { intros p0 t st Hp0. split; [done|]. intros _. exists p0. rewrite frames_io, frames_clock, frames_put. done. }
  assert (forall t p0, with_clock t (put f p0 c) = with_io (disk c) [] (statuses c) (with_clock t (put f p0 c))) as Eq.
  { intros t p0. rewrite <- (wf_bios _ H). done. }
  unfold read_page, read_page_async. pc. change (clock (put f _ c)) with (clock c). change (disk_page _ i) with (disk_page c i). destruct (env_read env _ i _) as [e| |] eqn:Er.
  - pc. rewrite Eq. split; [|right; left; by repeat eexists]. replace (with_lock false (with_lock true p)) with (mkPage Uninit false (is_writing_back p) (page_data p)); [by apply Hlost|].
    destruct p; cbn in *; by subst.
  - apply (ok_zeros _ Henv) in Er. unfold complete_read_page, wait_all. pc. rewrite Eq, <- Er. split; [apply Hfull|by apply Hready].
  - unfold submit. pc. change (bios _) with (bios c). rewrite (wf_bios _ H). cbn [app]. apply wp_wait_read with (p := with_lock true p).
    + by rewrite frames_clock, frames_put.
    + intros st. rewrite put_clock, put_put. split; [apply Hfull|by apply Hready].
    + intros e st Hfail. rewrite put_clock, put_put. cbn [page_state with_lock]. rewrite Hu. split; [|done]. apply Hlost, (ok_garbage _ Henv).
Qed.

(** ** Committing a page *)

Lemma wf_ready c m i f : wf c -> backed c = false -> vmo_pages c !! i = Some f -> ready c m i f.
Proof.
  intros H Hb Ei. split; [done|]. intros _. destruct (wf_page _ H i f Ei) as (p & Ef & _ & _ & _ & _ & Hp). exists p.
  split; [done|]. unfold disk_of in Hp. by rewrite Hb in Hp.
Qed.

Lemma ensure_init_spec c i f (init : PC unit) : wf c -> backed c = true -> vmo_pages c !! i = Some f ->
  (forall c Q, wp (read_page env i f) c Q -> wp init c Q) ->
  wp (ensure_init f init) c (fun r c' => loads c c' /\ match r with Ok _ => ready c' CommitRead i f | Err _ => failing env end).
Proof.
  intros H Hb Ei Hinit. destruct (wf_page _ H i f Ei) as (p & Ef & Hok). destruct Hok as (Hl & _). unfold ensure_init. pc.
  destruct (is_uninit (page_state p)) eqn:Hu; cbn [negb].
  - pc. cbn [with_lock page_state]. rewrite Hu. cbn [negb]. apply Hinit, read_page_spec; try done. by destruct (page_state p).
  - pc. split; [by apply loads_refl|]. split; [done|]. intros _. exists p. split; [done|]. by destruct (page_state p).
Qed.

Lemma div_ceil_pages c : wf c -> div_ceil (vmo_size c) PAGE_SIZE = vmo_size c / PAGE_SIZE.
Proof.
  intros H. destruct (wf_size _ H) as (H0 & [k Hk] & _). unfold div_ceil. rewrite Hk. unfold PAGE_SIZE.
  rewrite Z.div_mul by lia. replace (k * 4096 + (4096 - 1)) with (4095 + k * 4096) by lia. rewrite Z.div_add by lia. by rewrite Z.div_small by lia.
Qed.

Lemma alloc_spec (g : nat -> CachePage) c (Q : result nat -> Cache -> Prop) :
  (forall t, Q (Ok (next_frame c)) (with_new_frame (g t) (with_clock (S (clock c)) c))) -> (failing env -> Q (Err ENOMEM) (with_clock (S (clock c)) c)) ->
  wp (alloc_frame_with env g) c Q.
Proof. intros H1 H2. unfold alloc_frame_with. pc. destruct (env_alloc env (clock c)) eqn:E; pc; [apply H1|apply H2; left; by eexists]. Qed.

Lemma commit_on_anonymous_spec c i m : wf c -> backed c = false -> 0 <= i ->
  wp (commit_on_anonymous env i) c (fun r c' => loads c c' /\ match r with Ok f => ready c' m i f | Err _ => failing env \/ vmo_size c / PAGE_SIZE <= i end).
Proof.
  intros H Hb Hi. unfold commit_on_anonymous, load, store. pc. rewrite (div_ceil_pages _ H). case_cond.
  { pc. split; [by apply loads_refl|]. right. lia. }
  pc. destruct (vmo_pages c !! i) as [f|] eqn:Ei.
  { pc. split; [by apply loads_refl|by apply wf_ready]. }
  unfold alloc_zero. pc. apply alloc_spec.
  - intros _. pc. assert (loads c (add_page i (mkPage UpToDate false false zero_page) c)) as Hadd.
    { apply loads_add; try done; [unfold disk_of; rewrite Hb; split_and!; try done; apply len_zero_page|]. right. unfold backing. by rewrite Hb. }
    split; [by apply (loads_clock _ _ (S (clock c))) in Hadd|]. cbn.
    split; [cbn; by rewrite lookup_insert_eq|]. intros _. cbn. rewrite lookup_insert_eq. by eexists.
  - intros Hfail. split; [by apply loads_clock, loads_refl|by left].
Qed.

Lemma commit_on_backed_spec c i m : wf c -> backed c = true -> 0 <= i ->
  wp (commit_on_backed env i m) c (fun r c' => loads c c' /\ match r with Ok f => ready c' m i f | Err _ => failing env \/ vmo_size c / PAGE_SIZE <= i end).
Proof.
  intros H Hb Hi. unfold commit_on_backed, load, store. pc. rewrite (div_ceil_pages _ H). case_cond.
  { pc. split; [by apply loads_refl|]. right. lia. }
  pc. destruct (vmo_pages c !! i) as [f|] eqn:Ei.
  { destruct m; cbn [skips_backend_read negb].
    - pc. eapply wp_mono; [by eapply ensure_init_spec|]. intros [[]|e] c' [Hld Hr]; [pc; auto|split; [done|by left]].
    - pc. split; [by apply loads_refl|]. by split. }
  unfold alloc_uninit. pc. apply alloc_spec; [|intros Hfail; split; [by apply loads_clock, loads_refl|by left]].
  intros t. set (p := mkPage Uninit _ _ _). assert (loads c (with_clock (S (clock c)) (add_page i p c))) as Hadd.
  { apply loads_clock, loads_add; try done; [|by left]. unfold disk_of. rewrite Hb. split_and!; try done. apply (ok_garbage _ Henv). }
  pc. change (with_pages _ _) with (with_clock (S (clock c)) (add_page i p c)). set (c1 := with_clock _ _) in *.
  assert (vmo_pages c1 !! i = Some (next_frame c)) as Ei1 by (cbn; by rewrite lookup_insert_eq). destruct m; cbn [skips_backend_read].
  - pc. eapply wp_mono; [eapply ensure_init_spec; [apply (ld_wf _ _ Hadd)|by rewrite (loads_backed _ _ Hadd)|exact Ei1|done]|].
    intros [[]|e] c' [Hld Hr]; pc; (split; [by eapply loads_trans|]); [done|by left].
  - pc. split; [done|]. by split.
Qed.

Lemma commit_on_internal_spec c i m : wf c -> 0 <= i ->
  wp (commit_on_internal env i m) c (fun r c' => loads c c' /\ match r with Ok f => ready c' m i f | Err _ => failing env \/ vmo_size c / PAGE_SIZE <= i end).
Proof.
  intros H Hi. unfold commit_on_internal. pc. destruct (backed c) eqn:Hb; [by apply commit_on_backed_spec|by apply commit_on_anonymous_spec].
Qed.

(** ** Collecting pages *)

(** What is left to do for page [i]. *)
Definition pending (c : Cache) (i : Z) (err : VmoCommitError) : Prop :=
  match err with
  | CommitErr _ => failing env \/ vmo_size c / PAGE_SIZE <= i
  | NeedIo j => j = i
  | WaitUntilInit j f => j = i /\ backed c = true /\ vmo_pages c !! i = Some f
  end.

Lemma try_commit_with_cursor_spec c i m : wf c -> 0 <= i ->
  wp (try_commit_with_cursor env i m) c (fun r c' => loads c c' /\
    match r with Ok (inr (j, f)) => j = i /\ ready c' m i f | Ok (inl err) => pending c' i err | Err _ => False end).
Proof.
  intros H Hi. unfold try_commit_with_cursor, load. pc. destruct (backed c) eqn:Hb.
  - destruct (vmo_pages c !! i) as [f|] eqn:Ei; [|pc; split; [by apply loads_refl|done]].
    destruct (wf_page _ H i f Ei) as (p & Ef & Hok). pc. split; [by apply loads_refl|].
    destruct (negb (skips_backend_read m) && is_uninit (page_state p)) eqn:E; [done|]. split; [done|]. split; [done|]. intros ->.
    exists p. split; [done|]. cbn in E. by destruct (page_state p).
  - destruct (vmo_pages c !! i) as [f|] eqn:Ei.
    + pc. split; [by apply loads_refl|]. split; [done|]. by apply wf_ready.
    + pc. eapply wp_mono; [by apply (commit_on_anonymous_spec c i m)|]. intros [f|e] c' [Hld Hr]; pc; [done|]. split; [done|]. cbn. destruct (ld_same _ _ Hld) as (-> & _). done.
Qed.

(** A list of pages with consecutive indices from [s] on. *)
Definition pages_from (c : Cache) (m : CommitMode) (s : Z) (l : list (Z * nat)) : Prop :=
  forall k i f, l !! k = Some (i, f) -> i = s + Z.of_nat k /\ ready c m i f.

Lemma pages_from_loads c c' m s l : loads c c' -> pages_from c m s l -> pages_from c' m s l.
Proof. intros Hld H k i f E. destruct (H k i f E). split; [done|]. by eapply loads_ready. Qed.

Lemma pages_from_snoc c m s l i f : pages_from c m s l -> i = s + Z.of_nat (length l) -> ready c m i f -> pages_from c m s (l ++ [(i, f)]).
Proof.
  intros H Hi Hr k j g E. apply lookup_app_Some in E as [E|[Hk E]]; [by apply H|].
  destruct (k - length l)%nat as [|n] eqn:Ek; [|done]. injection E as <- <-. split; [lia|done].
Qed.

Lemma uadd_eq x y : x + y < u64_modulus -> uadd x y = Ret (x + y).
Proof. intros H. unfold uadd, checked_add. by rewrite (proj2 (Z.ltb_lt _ _)). Qed.

Lemma umul_eq x y : x * y < u64_modulus -> umul x y = Ret (x * y).
Proof. intros H. unfold umul. by rewrite (proj2 (Z.ltb_lt _ _)). Qed.

Lemma operate_on_spec c m s n acc i : wf c -> pages_from c m s acc -> i = s + Z.of_nat (length acc) -> 0 <= s -> i + Z.of_nat n < u64_modulus ->
  wp (operate_on env push_page m n i acc) c (fun r c' => loads c c' /\
    match r with
    | Ok (acc', err) => pages_from c' m s acc' /\ (length acc <= length acc')%nat /\
        match err with
        | None => length acc' = (length acc + n)%nat
        | Some err => (length acc' < length acc + n)%nat /\ pending c' (s + Z.of_nat (length acc')) err
        end
    | Err _ => False
    end).
Proof.
  revert c acc i. induction n as [|n IH]; intros c acc i H Hacc Hi Hs Hn; cbn [operate_on].
  { pc. split; [by apply loads_refl|]. split_and!; [done|lia|lia]. }
  apply wp_bind, wp_bind. eapply wp_mono; [apply try_commit_with_cursor_spec; [done|lia]|].
  intros [[err|[j f]]|e] c1 [Hld Hr]; [..|done].
  - pc. split; [done|]. split_and!; [by eapply pages_from_loads|lia|lia|by rewrite <- Hi].
  - pc. destruct Hr as [-> Hr]. apply (wp_lift _ (i + 1)); [apply uadd_eq; lia|].
    eapply wp_mono; [apply (IH c1); [apply Hld|apply pages_from_snoc; [by eapply pages_from_loads|done|done]|rewrite length_app; cbn; lia|done|lia]|].
    intros [[acc' err]|e] c2 [Hld2 Hr2]; [|done]. rewrite length_app in Hr2. cbn [length] in Hr2. split; [by eapply loads_trans|].
    destruct Hr2 as (Hp & Hl & Hr2). split; [done|]. split; [lia|]. destruct err; [|lia]. destruct Hr2. split; [lia|done].
Qed.

Lemma handle_commit_error_spec c m i err : wf c -> 0 <= i -> pending c i err ->
  wp (handle_commit_error env err m) c (fun r c' => loads c c' /\ match r with Ok (j, f) => j = i /\ ready c' m i f | Err _ => failing env \/ vmo_size c / PAGE_SIZE <= i end).
Proof.
  intros H Hi Hp. destruct err as [e|j|j f]; cbn in Hp |- *.
  - pc. split; [by apply loads_refl|done].
  - subst j. pc. eapply wp_mono; [by apply (commit_on_internal_spec c i m)|]. intros [f|e] c' [Hld Hr]; pc; done.
  - destruct Hp as (-> & Hb & Ei). pc. rewrite Hb. eapply wp_mono; [by eapply ensure_init_spec; try done; intros; pc|].
    intros [[]|e] c' [Hld Hr]; pc; (split; [done|]); [|by left]. split; [done|]. destruct m; [by apply Hr|]. split; [|done]. by apply Hr.
Qed.

Lemma get_page_idx_range_eq a b : 0 <= a -> b + (PAGE_SIZE - 1) < u64_modulus ->
  get_page_idx_range (mkRange a b) = Ret (mkRange (a / PAGE_SIZE) (div_ceil b PAGE_SIZE)).
Proof.
  intros Ha Hb. unfold get_page_idx_range, div_ceil. cbn [r_start r_end].
  rewrite align_down_eq, align_up_eq by (done || (unfold PAGE_SIZE in *; lia)). cbn [mbind run_bind]. f_equal. f_equal.
  - rewrite <- (Z.div_mul (a / PAGE_SIZE) PAGE_SIZE) by done. f_equal. pose proof (Z.div_mod a PAGE_SIZE). unfold PAGE_SIZE in *. lia.
  - set (x := b + (PAGE_SIZE - 1)). rewrite <- (Z.div_mul (x / PAGE_SIZE) PAGE_SIZE) by done. f_equal. pose proof (Z.div_mod x PAGE_SIZE). unfold PAGE_SIZE in *. lia.
Qed.

Lemma div_ceil_mul k : div_ceil (k * PAGE_SIZE) PAGE_SIZE = k.
Proof.
  unfold div_ceil, PAGE_SIZE. replace (k * 4096 + (4096 - 1)) with (4095 + k * 4096) by lia. rewrite Z.div_add by lia. by rewrite Z.div_small by lia.
Qed.

Lemma collect_pages_spec c s e m cap : wf c -> 0 <= s < e -> e * PAGE_SIZE <= vmo_size c -> 1 <= cap < 2 ^ 63 ->
  wp (collect_pages env s e m cap) c (fun r c' => loads c c' /\
    match r with Ok l => pages_from c' m s l /\ Z.of_nat (length l) = Z.min e (s + cap) - s | Err _ => failing env end).
Proof.
  intros H Hs He Hcap. destruct (wf_size _ H) as (Hsz & _ & Hmax). unfold u64_modulus in Hmax.
  assert (e < 2 ^ 63) as He' by (unfold PAGE_SIZE in *; lia).
  unfold collect_pages. apply wp_bind, (wp_lift _ (s + cap)); [apply uadd_eq; unfold u64_modulus; lia|]. cbv zeta. set (e' := Z.min e (s + cap)) in *.
  assert (s < e' <= e) as Hse by lia. apply wp_bind, (wp_lift _ (mkRange (s * PAGE_SIZE) (e' * PAGE_SIZE))).
  { unfold byte_range. cbn [r_start r_end]. rewrite !umul_eq by (unfold PAGE_SIZE, u64_modulus in *; lia). done. }
  cbn [r_end r_start].
  apply (wp_while _ (fun '(l, a) c1 => loads c c1 /\ pages_from c1 m s l /\ a = (s + Z.of_nat (length l)) * PAGE_SIZE /\ s + Z.of_nat (length l) < e')
    (fun '(l, _) => Z.to_nat (e' - s - Z.of_nat (length l)))).
  2:{ split_and!; [by apply loads_refl|intros k i f E; by rewrite lookup_nil in E|cbn; lia|cbn; lia]. } 2:{ cbn. lia. }
  intros [l a] c1 (Hld & Hl & -> & Hlt). apply wp_bind. unfold try_operate_on_range_internal. pc.
  destruct (ld_same _ _ Hld) as (Esz & _). cbn [r_end]. rewrite Esz. rewrite (proj2 (Z.ltb_ge _ _)) by (unfold PAGE_SIZE in *; lia).
  apply wp_bind. eapply wp_lift; [apply get_page_idx_range_eq; unfold PAGE_SIZE, u64_modulus in *; lia|]. cbn [r_start r_end range_len].
  rewrite Z.div_mul, div_ceil_mul by done. set (n := Z.to_nat _). assert (Z.of_nat n = e' - s - Z.of_nat (length l)) as En by (unfold n, range_len; cbn; lia).
  eapply wp_mono; [apply (operate_on_spec c1 m s n l); [apply Hld|done|done|lia|unfold u64_modulus; lia]|].
  intros [[l' [err|]]|err] c2 [Hld2 Hr]; [..|done].
  - destruct Hr as (Hl' & Hle & Hlt' & Hp). assert (loads c c2) as Hld' by (by eapply loads_trans).
    apply wp_bind. eapply wp_mono; [apply (handle_commit_error_spec c2 m (s + Z.of_nat (length l'))); [apply Hld2|lia|done]|].
    intros [[i f]|err'] c3 [Hld3 Hr3]; [|split; [by eapply loads_trans|]].
    2:{ destruct Hr3 as [|Hout]; [done|]. destruct (ld_same _ _ Hld') as (Es2 & _). rewrite Es2 in Hout. pose proof (Z.div_le_lower_bound (vmo_size c) PAGE_SIZE e ltac:(done)). lia. }
    destruct Hr3 as [-> Hr3].
    apply wp_bind. eapply wp_lift; [apply uadd_eq; unfold u64_modulus; lia|]. apply wp_bind. eapply wp_lift; [apply umul_eq; unfold PAGE_SIZE, u64_modulus in *; lia|].
    assert (pages_from c3 m s (l' ++ [(s + Z.of_nat (length l'), f)])) as Hl3 by (apply pages_from_snoc; [by eapply pages_from_loads|done|done]).
    pc. destruct (Z.leb_spec (e' * PAGE_SIZE) ((s + Z.of_nat (length l') + 1) * PAGE_SIZE)).
    + split; [by eapply loads_trans|]. split; [done|]. rewrite length_app. cbn. unfold PAGE_SIZE in *. lia.
    + split; [|rewrite length_app; cbn; lia]. split_and!; [by eapply loads_trans|done|rewrite length_app; cbn; f_equal; lia|rewrite length_app; cbn; unfold PAGE_SIZE in *; lia].
  - destruct Hr as (Hl' & _ & Elen). pc. split; [by eapply loads_trans|]. split; [done|]. lia.
Qed.
End commit.
