(* ===== verification/PageCacheIo.v ===== *)
(** * The page cache: reading and writing

    [Vmo::read] returns the bytes of the file, and [Vmo::write] and [Vmo::fill_zeros] change exactly the
    bytes of their range: all of them when they succeed, those at its beginning when they fail. *)

From S2P Require Import Prelude Flags Align IntervalSet VmMapping Vmar PageCache PageCacheInv.

(** ** Bytes *)

Lemma len_app l1 l2 : len (l1 ++ l2) = len l1 + len l2.
Proof. unfold len. rewrite length_app. lia. Qed.

Lemma len_take n l : 0 <= n -> len (take (Z.to_nat n) l) = Z.min n (len l).
Proof. intros Hn. unfold len. rewrite length_take. lia. Qed.

Lemma len_drop n l : 0 <= n -> len (drop (Z.to_nat n) l) = Z.max 0 (len l - n).
Proof. intros Hn. unfold len. rewrite length_drop. lia. Qed.

Lemma len_splice d o bs : 0 <= o -> o + len bs <= len d -> len (splice d o bs) = len d.
Proof. intros Ho Hl. unfold splice, len in *. rewrite !length_app, length_take, length_drop. lia. Qed.

Definition byte (l : list Z) (k : Z) : Z := l !!! Z.to_nat k.

Lemma byte_splice d o bs k : 0 <= o -> o + len bs <= len d -> 0 <= k ->
  byte (splice d o bs) k = if (o <=? k) && (k <? o + len bs) then byte bs (k - o) else byte d k.
Proof.
  intros Ho Hl Hk. unfold byte, splice, len in *. rewrite !list_lookup_total_alt.
  destruct (Z.leb_spec o k) as [Hok|Hok]; cbn [andb].
  - rewrite lookup_app_r by (rewrite length_take; lia). rewrite length_take. destruct (Z.ltb_spec k (o + Z.of_nat (length bs))) as [Hlt|Hge].
    + rewrite lookup_app_l by lia. do 2 f_equal. lia.
    + rewrite lookup_app_r by lia. rewrite lookup_drop. do 2 f_equal. lia.
  - rewrite lookup_app_l by (rewrite length_take; lia). by rewrite lookup_take_lt by lia.
Qed.

Lemma byte_take n l k : 0 <= k < n -> byte (take (Z.to_nat n) l) k = byte l k.
Proof. intros Hk. unfold byte. rewrite !list_lookup_total_alt. by rewrite lookup_take_lt by lia. Qed.

Lemma byte_drop n l k : 0 <= n -> 0 <= k -> byte (drop (Z.to_nat n) l) k = byte l (n + k).
Proof. intros Hn Hk. unfold byte. rewrite !list_lookup_total_alt, lookup_drop. do 2 f_equal. lia. Qed.

Lemma byte_app l1 l2 k : 0 <= k -> byte (l1 ++ l2) k = if k <? len l1 then byte l1 k else byte l2 (k - len l1).
Proof.
  intros Hk. unfold byte, len. rewrite !list_lookup_total_alt. destruct (Z.ltb_spec k (Z.of_nat (length l1))).
  - by rewrite lookup_app_l by lia.
  - rewrite lookup_app_r by lia. do 2 f_equal. lia.
Qed.

Lemma file_byte_page c i k : 0 <= k < PAGE_SIZE -> file_byte c (i * PAGE_SIZE + k) = byte (file_page c i) k.
Proof.
  intros Hk. unfold file_byte, byte. rewrite Z.add_comm, Z.div_add, Z.mod_add by done. by rewrite Z.div_small, Z.mod_small.
Qed.

(** The bytes of the file from [o] on. *)
Definition file_slice (c : Cache) (o n : Z) : list Z := file_byte c <$> seqZ o n.

Lemma file_slice_app c o n1 n2 : 0 <= n1 -> 0 <= n2 -> file_slice c o (n1 + n2) = file_slice c o n1 ++ file_slice c (o + n1) n2.
Proof. intros H1 H2. unfold file_slice. by rewrite seqZ_app, fmap_app. Qed.

Lemma file_slice_ext c c' o n : (forall x, file_byte c' x = file_byte c x) -> file_slice c' o n = file_slice c o n.
Proof. intros H. unfold file_slice. apply list_fmap_ext. intros _ x _. apply H. Qed.

Lemma page_slice c i o n : len (file_page c i) = PAGE_SIZE -> 0 <= o -> 0 <= n -> o + n <= PAGE_SIZE ->
  take (Z.to_nat n) (drop (Z.to_nat o) (file_page c i)) = file_slice c (i * PAGE_SIZE + o) n.
Proof.
  intros Hl Ho Hn Hb. unfold len in Hl. apply list_eq_same_length with (n := Z.to_nat n).
  - unfold file_slice. rewrite length_fmap, length_seqZ. done.
  - rewrite length_take, length_drop. lia.
  - intros k x y Hk Hx Hy. rewrite lookup_take_lt, lookup_drop in Hx by lia. unfold file_slice in Hy. rewrite list_lookup_fmap, lookup_seqZ_lt in Hy by lia.
    cbn in Hy. injection Hy as <-. replace (i * PAGE_SIZE + o + Z.of_nat k) with (i * PAGE_SIZE + (o + Z.of_nat k)) by lia.
    rewrite file_byte_page by lia. unfold byte. symmetry. apply list_lookup_total_correct. rewrite <- Hx. f_equal. lia.
Qed.

Lemma loads_byte c c' x : loads c c' -> file_byte c' x = file_byte c x.
Proof. intros H. unfold file_byte. by rewrite (ld_file _ _ H). Qed.

(** ** Reading *)

(** Of [total] bytes from [offset] on, those before page [j], and the offset in page [j] at which they
    go on. *)
Definition done_before (offset total j : Z) : Z := Z.min total (Z.max 0 (j * PAGE_SIZE - offset)).
Definition offset_in (offset j : Z) : Z := Z.max 0 (offset - j * PAGE_SIZE).

(** [W] is what a failed call tells: the memory of the caller faults or the environment fails. *)
Section reason.
Context (W : Prop).

Definition fault_ok (fault : option Z) : Prop := match fault with Some k => 0 <= k /\ W | None => True end.

(** The writer after [n] bytes of the file from [offset] on. *)
Definition has_read (c : Cache) (offset n : Z) (w w' : VmWriter) : Prop :=
  wr_data w' = wr_data w ++ file_slice c offset n /\ wr_avail w' = wr_avail w - n /\ fault_ok (wr_fault w').

Lemma fault_ok_after fault n m : fault_ok fault -> n <= copied_len fault m -> fault_ok (fault_after fault n).
Proof. destruct fault as [k|]; cbn; [|done]. intros [? ?] ?. split; [lia|done]. Qed.

(** A copy that is cut short tells that the memory faults. *)
Lemma short_copy fault m : fault_ok fault -> copied_len fault m < m -> W.
Proof. destruct fault as [k|]; cbn; [by intros [? ?]|lia]. Qed.

Lemma read_fails src w e : fault_ok (wr_fault w) -> read_fallible src w = Err e -> W.
Proof. unfold read_fallible. intros Hf. case_cond; [done|]. case_cond; [|done]. intros _. by eapply short_copy. Qed.

Lemma read_fallible_spec c i src offset total w w1 w' : len (file_page c i) = PAGE_SIZE -> src = file_page c i ->
  0 <= offset -> 0 < total <= wr_avail w -> offset / PAGE_SIZE <= i -> i * PAGE_SIZE < offset + total ->
  (total = wr_avail w \/ (i + 1) * PAGE_SIZE <= offset + total) ->
  has_read c offset (done_before offset total i) w w1 ->
  read_fallible (drop (Z.to_nat (offset_in offset i)) src) w1 = Ok w' ->
  has_read c offset (done_before offset total (i + 1)) w w'.
Proof.
  intros Hlen -> Ho Ht Hi Hlt Hcut (Ed & Ea & Hf). unfold read_fallible. set (o := offset_in offset i) in *. set (k := done_before offset total i) in *.
  pose proof (Z.div_mod offset PAGE_SIZE ltac:(done)) as Hdm. pose proof (Z.mod_pos_bound offset PAGE_SIZE ltac:(done)) as Hmb.
  assert (0 <= o < PAGE_SIZE) as Hob by (unfold o, offset_in, PAGE_SIZE in *; lia).
  assert (i * PAGE_SIZE + o = offset + k /\ 0 <= k < total) as [Hpos Hk] by (unfold o, k, offset_in, done_before, PAGE_SIZE in *; lia).
  rewrite len_drop by lia. rewrite Hlen, Ea. set (m := Z.min _ _).
  assert (0 < m <= PAGE_SIZE - o) as Hm by lia. assert (done_before offset total (i + 1) = k + m) as -> by (unfold m, o, k, offset_in, done_before, PAGE_SIZE in *; lia).
  rewrite (proj2 (Z.eqb_neq m 0)) by lia. destruct (Z.ltb_spec (copied_len (wr_fault w1) m) m) as [|Hfull]; [done|]. intros [= <-].
  assert (copied_len (wr_fault w1) m = m) as Em by (destruct (wr_fault w1); cbn in *; lia). rewrite Em. split_and!; cbn [wr_data wr_avail wr_fault].
  - rewrite Ed, file_slice_app by lia. rewrite <- app_assoc. f_equal. f_equal. rewrite <- Hpos. apply page_slice; lia.
  - lia.
  - eapply fault_ok_after; [done|]. by rewrite Em.
Qed.

(** ** Writing *)

(** The bytes [bs] have been written at [o], pages may have been loaded, and nothing else has changed. *)
Record writes (c c' : Cache) (o : Z) (bs : list Z) : Prop := {
  wr_wf : wf c';
  wr_same : vmo_size c' = vmo_size c /\ vmo_flags c' = vmo_flags c /\ vmo_backend c' = vmo_backend c /\ vmo_rmap c' = vmo_rmap c /\
    spaces c' = spaces c /\ disk c' = disk c;
  wr_pages i f : vmo_pages c !! i = Some f -> vmo_pages c' !! i = Some f;
  wr_ready m i f : ready c m i f -> ready c' m i f;
  wr_byte x : 0 <= x -> file_byte c' x = if (o <=? x) && (x <? o + len bs) then byte bs (x - o) else file_byte c x
}.

Lemma loads_writes c c' o : loads c c' -> writes c c' o [].
Proof.
  intros H. constructor; [apply H|apply H|apply H|intros; by eapply loads_ready|]. intros x Hx. rewrite (loads_byte _ _ _ H).
  destruct (Z.leb_spec o x), (Z.ltb_spec x (o + len [])); cbn [andb]; try done. unfold len in *. cbn in *. lia.
Qed.

Lemma writes_trans c1 c2 c3 o o' bs bs' : writes c1 c2 o bs -> writes c2 c3 o' bs' -> o' = o + len bs -> writes c1 c3 o (bs ++ bs').
Proof.
  intros [W1 (S1 & S2 & S3 & S4 & S5 & S6) P1 R1 E1] [W2 (T1 & T2 & T3 & T4 & T5 & T6) P2 R2 E2] ->. constructor.
  - done.
  - split_and!; congruence.
  - auto.
  - auto.
  - intros x Hx. rewrite E2, E1, len_app by done. assert (0 <= len bs /\ 0 <= len bs') by (unfold len; lia).
    destruct (Z.leb_spec (o + len bs) x), (Z.ltb_spec x (o + len bs + len bs')), (Z.leb_spec o x), (Z.ltb_spec x (o + len bs)), (Z.ltb_spec x (o + (len bs + len bs')));
      cbn [andb]; try lia; try done; rewrite byte_app by lia.
    + rewrite (proj2 (Z.ltb_ge _ _)) by lia. f_equal. lia.
    + by rewrite (proj2 (Z.ltb_lt _ _)) by lia.
Qed.

Lemma writes_clock c c' o bs t : writes c c' o bs -> writes c (with_clock t c') o bs.
Proof. intros [W0 S P R E]. constructor; try done. by apply wf_clock. Qed.

Lemma writes_backed c c' o bs : writes c c' o bs -> backed c' = backed c /\ has_backend c' = has_backend c.
Proof. intros [_ (_ & _ & E & _) _ _ _]. unfold backed, has_backend. by rewrite E. Qed.

(** Some bytes of a page are written. *)
Lemma writes_put c i f p p' off bs : wf c -> vmo_pages c !! i = Some f -> frames c !! f = Some p -> page_ok (disk_of c i) p' ->
  page_state p' <> Uninit -> (page_state p = Dirty -> page_state p' = Dirty) -> 0 <= off -> off + len bs <= PAGE_SIZE ->
  page_data p' = splice (page_data p) off bs -> (page_state p = Uninit -> off = 0 /\ len bs = PAGE_SIZE) ->
  writes c (put f p' c) (i * PAGE_SIZE + off) bs.
Proof.
  intros H Ei Ef Hok Hinit Hdirty Hoff Hlen Hd Hu. destruct (wf_page _ H i f Ei) as (p0 & Ef0 & _ & _ & Hl & _).
  assert (p0 = p) as -> by congruence. clear Ef0. constructor.
  - by apply (wf_put c i f p).
  - done.
  - done.
  - intros m j g [Ej Hg]. split; [done|]. intros E. destruct (Hg E) as (q & Eq & Hq). cbn. destruct (decide (g = f)) as [->|].
    + exists p'. by rewrite lookup_insert_eq.
    + exists q. by rewrite lookup_insert_ne.
  - intros x Hx. pose proof (Z.div_mod x PAGE_SIZE ltac:(done)) as Hdm. pose proof (Z.mod_pos_bound x PAGE_SIZE ltac:(done)) as Hmb.
    set (j := x / PAGE_SIZE) in *. set (k := x mod PAGE_SIZE) in *. assert (x = j * PAGE_SIZE + k) as Ex by lia. rewrite Ex, !file_byte_page by lia.
    destruct (decide (j = i)) as [Ej|Hj].
    + rewrite Ej. assert (file_page (put f p' c) i = page_data p') as ->.
      { apply (file_page_cached _ i f); [done|by rewrite frames_put|done]. }
      rewrite Hd, byte_splice by lia. destruct (Z.leb_spec off k), (Z.leb_spec (i * PAGE_SIZE + off) (i * PAGE_SIZE + k)),
        (Z.ltb_spec k (off + len bs)), (Z.ltb_spec (i * PAGE_SIZE + k) (i * PAGE_SIZE + off + len bs)); cbn [andb]; try lia; try (f_equal; lia).
      all: destruct (decide (page_state p = Uninit)) as [Eu|Hnu]; [destruct (Hu Eu); lia|]; by rewrite (file_page_cached c i f p).
    + assert (file_page (put f p' c) j = file_page c j) as ->.
      { unfold file_page. cbn. destruct (vmo_pages c !! j) as [g|] eqn:Eg; [|done]. rewrite lookup_insert_ne; [done|].
        intros <-. destruct Hj. by apply (wf_inj _ H j i f). }
      destruct (Z.leb_spec (i * PAGE_SIZE + off) (j * PAGE_SIZE + k)), (Z.ltb_spec (j * PAGE_SIZE + k) (i * PAGE_SIZE + off + len bs)); cbn [andb]; try done.
      exfalso. unfold PAGE_SIZE in *. lia.
Qed.

(** What [write_fallible] does. *)
Lemma write_fallible_spec dst off r d r' n fault : write_fallible dst off r = (d, r', n, fault) -> fault_ok (rd_fault r) -> 0 <= off <= len dst ->
  let m := Z.min (len dst - off) (remain r) in
  0 <= n <= m /\ d = splice dst off (take (Z.to_nat n) (rd_data r)) /\ rd_data r' = drop (Z.to_nat n) (rd_data r) /\ fault_ok (rd_fault r') /\ if fault : bool then W else n = m.
Proof.
  unfold write_fallible. intros [= <- <- <- <-] Hf Hoff. cbv zeta. cbn [rd_data rd_fault]. set (m := Z.min _ _).
  assert (0 <= m) by (unfold m, remain, len in *; lia). destruct (Z.eqb_spec m 0) as [E|Hne].
  - rewrite (proj2 (Z.ltb_ge 0 m)) by lia. split_and!; try lia; try done. rewrite E in *. eapply fault_ok_after with (m := 0); [done|]. destruct (rd_fault r); cbn in *; lia.
  - assert (0 <= copied_len (rd_fault r) m <= m) by (destruct (rd_fault r); cbn in *; lia).
    split_and!; try lia; try done; [by eapply fault_ok_after|]. destruct (Z.ltb_spec (copied_len (rd_fault r) m) m); [by eapply short_copy|lia].
Qed.

Section io.
Context `{BF : Bitflags} (env : Env).
Hypothesis (Henv : env_ok env) (HW : failing env -> W).

(** The loop over a batch of pages. *)
Lemma read_batch_spec c c1 s l offset total w w1 : loads c c1 -> pages_from c1 CommitRead s l -> 0 <= offset -> 0 < total <= wr_avail w ->
  offset / PAGE_SIZE <= s -> (s + Z.of_nat (length l) - 1) * PAGE_SIZE < offset + total ->
  (total = wr_avail w \/ (s + Z.of_nat (length l)) * PAGE_SIZE <= offset + total) ->
  has_read c offset (done_before offset total s) w w1 ->
  wp (for_fold l
        (fun '(page_offset, w) '(_, f) =>
           p ← page f;
           _ ← lift (assert_run (page_offset <=? len (page_data p)));
           w ← of_result (read_fallible (drop (Z.to_nat page_offset) (page_data p)) w);
           mret (0, w))
        (offset_in offset s, w1)) c1
    (fun r c' => c' = c1 /\ match r with
       | Ok (o, w') => o = offset_in offset (s + Z.of_nat (length l)) /\ has_read c offset (done_before offset total (s + Z.of_nat (length l))) w w'
       | Err _ => W end).
Proof.
  intros Hld Hl Ho Ht Hs Hlt Hcut Hw. pose proof (Z.mod_pos_bound offset PAGE_SIZE ltac:(done)) as Hmb. pose proof (Z.div_mod offset PAGE_SIZE ltac:(done)) as Hdm.
  apply (wp_for_fold _ _ (fun j b c' => c' = c1 /\ b.1 = offset_in offset (s + Z.of_nat j) /\
    has_read c offset (done_before offset total (s + Z.of_nat j)) w b.2)).
  - cbn. rewrite Z.add_0_r. done.
  - intros j [i f] [o w2] c' Ej (-> & Eo & Hw2). cbn [fst snd] in *. subst o. destruct (Hl j i f Ej) as (-> & Hi & Hinit). destruct (Hinit eq_refl) as (p & Ef & Hp).
    pose proof (lookup_lt_Some _ _ _ Ej) as Hj. pose proof (file_page_cached _ _ _ _ Hi Ef Hp) as Efp. rewrite (ld_file _ _ Hld) in Efp.
    assert (len (file_page c (s + Z.of_nat j)) = PAGE_SIZE) as Hlen by (rewrite <- (ld_file _ _ Hld); apply len_file_page, Hld).
    pc. apply (wp_lift _ tt).
    { rewrite <- Efp, Hlen. rewrite (proj2 (Z.leb_le _ _)); [done|]. unfold offset_in, PAGE_SIZE in *. lia. }
    apply wp_bind, wp_of_result. destruct (read_fallible _ w2) as [w3|e] eqn:Er; [|split; [done|by eapply read_fails; [apply Hw2|]]]. pc. cbn [fst snd]. split; [done|]. split.
    { unfold offset_in, PAGE_SIZE in *. lia. }
    replace (s + Z.of_nat (S j)) with (s + Z.of_nat j + 1) by lia.
    eapply (read_fallible_spec c (s + Z.of_nat j) (page_data p)); try done; unfold PAGE_SIZE in *; lia.
  - intros [o w2] c' (-> & Eo & Hw2). cbn [fst snd] in *. done.
Qed.

Lemma batch_end_spec c m s l : pages_from c m s l -> l <> [] -> s + Z.of_nat (length l) < u64_modulus -> batch_end l = Ret (s + Z.of_nat (length l)).
Proof.
  intros Hl Hne Hlt. unfold batch_end. destruct (last l) as [[i f]|] eqn:E; [|by apply last_None in E]. cbn.
  rewrite last_lookup in E. destruct (Hl _ _ _ E) as [-> _]. assert (length l <> 0)%nat by (by destruct l). rewrite uadd_eq by lia. f_equal. lia.
Qed.

(** The pages that a range of bytes touches. *)
Lemma div_ceil_bounds b : 0 <= b -> (div_ceil b PAGE_SIZE - 1) * PAGE_SIZE < b <= div_ceil b PAGE_SIZE * PAGE_SIZE.
Proof.
  intros Hb. unfold div_ceil. pose proof (Z.div_mod (b + (PAGE_SIZE - 1)) PAGE_SIZE ltac:(done)) as H1.
  pose proof (Z.mod_pos_bound (b + (PAGE_SIZE - 1)) PAGE_SIZE ltac:(done)). unfold PAGE_SIZE in *. lia.
Qed.

Lemma div_ceil_size c b : wf c -> 0 <= b <= vmo_size c -> div_ceil b PAGE_SIZE * PAGE_SIZE <= vmo_size c.
Proof.
  intros H Hb. destruct (wf_size _ H) as (_ & [k Hk] & _). pose proof (div_ceil_bounds b ltac:(lia)). rewrite Hk in *. unfold PAGE_SIZE in *. lia.
Qed.

Lemma read_spec c offset w : wf c -> 0 <= offset -> 0 <= wr_avail w -> fault_ok (wr_fault w) ->
  wp (read env offset w) c (fun r c' => loads c c' /\
    match r with Ok w' => has_read c offset (Z.min (wr_avail w) (Z.max 0 (vmo_size c - offset))) w w' | Err _ => W end).
Proof.
  intros H Ho Ha Hf. destruct (wf_size _ H) as (Hsz & Hal & Hmax). unfold read. pc. set (total := Z.min _ _).
  destruct (Z.eqb_spec total 0) as [E0|Hne].
  { pc. split; [by apply loads_refl|]. rewrite E0. split_and!; [unfold file_slice; cbn; by rewrite app_nil_r|lia|done]. }
  assert (0 < total <= wr_avail w /\ offset + total <= vmo_size c) as [Ht Hend] by lia.
  apply wp_bind, (wp_lift _ (offset + total)); [apply uadd_eq; unfold u64_modulus, PAGE_SIZE in *; lia|].
  apply wp_bind. eapply wp_lift; [apply get_page_idx_range_eq; unfold u64_modulus, PAGE_SIZE in *; lia|]. set (e := div_ceil (offset + total) PAGE_SIZE).
  pose proof (div_ceil_bounds (offset + total) ltac:(lia)) as He. fold e in He. pose proof (div_ceil_size c (offset + total) H ltac:(lia)) as Hes. fold e in Hes.
  pose proof (Z.div_mod offset PAGE_SIZE ltac:(done)) as Hdm. pose proof (Z.mod_pos_bound offset PAGE_SIZE ltac:(done)) as Hmb.
  set (s := offset / PAGE_SIZE) in *. assert (0 <= s < e) as Hse by (unfold PAGE_SIZE in *; lia). unfold vec_with_capacity. pc. cbn [r_start r_end]. unfold range_len at 1. cbn [r_start r_end].
  destruct (ok_capacity _ Henv (clock c) (Z.min (Z.max 0 (e - s)) PAGE_BATCH_CAPACITY)) as [Hc1 Hc2]; [unfold PAGE_BATCH_CAPACITY; lia|].
  set (cap := env_capacity _ _ _) in *. assert (1 <= cap) by (unfold PAGE_BATCH_CAPACITY in *; lia).
  apply (wp_while _ (fun '(i, o, w1) c1 => loads c c1 /\ s <= i <= e /\ o = offset_in offset i /\ has_read c offset (done_before offset total i) w w1)
    (fun '(i, _, _) => Z.to_nat (e - i))).
  2:{ split_and!; [by apply loads_clock, loads_refl|lia|lia|unfold offset_in, PAGE_SIZE in *; lia|].
      unfold done_before. rewrite Z.max_l, Z.min_r by (unfold PAGE_SIZE in *; lia). split_and!; [unfold file_slice; cbn; by rewrite app_nil_r|lia|done]. }
  2:{ unfold range_len. cbn. lia. }
  intros [[i o] w1] c1 (Hld & Hi & -> & Hw). destruct (ld_same _ _ Hld) as (Esz & _). destruct (Z.ltb_spec i e) as [Hlt|Hge].
  - apply wp_bind. eapply wp_mono; [eapply (collect_pages_spec env Henv c1 i e CommitRead cap); [apply Hld|lia|lia|lia]|].
    intros [l|err] c2 [Hld2 Hl]; [|split; [by eapply loads_trans|auto]]. destruct Hl as [Hl Hlen]. assert (loads c c2) as Hld' by (by eapply loads_trans).
    apply wp_bind. eapply wp_mono; [eapply (read_batch_spec c c2 i l offset total w w1); try done; unfold PAGE_SIZE in *; lia|].
    intros [[o' w2]|err] c3 [-> Hr]; [|done]. destruct Hr as [-> Hr]. apply wp_bind. eapply wp_lift.
    { eapply batch_end_spec; [exact Hl|intros ->; cbn in Hlen; lia|unfold u64_modulus, PAGE_SIZE in *; lia]. }
    pc. split; [|lia]. split_and!; try done; lia.
  - pc. split; [done|]. replace total with (done_before offset total i); [done|]. unfold done_before. assert (i = e) as -> by lia. unfold PAGE_SIZE in *. lia.
Qed.

(** A part of the bytes has been written. *)
Definition wrote_some (c c' : Cache) (o n : Z) (bs : list Z) : Prop := W /\ exists k, 0 <= k <= n /\ writes c c' o (take (Z.to_nat k) bs).

Lemma write_page_spec c m i f off r next : wf c -> backed c = true -> ready c m i f -> 0 <= off < PAGE_SIZE -> fault_ok (rd_fault r) -> 0 < remain r ->
  (m = CommitOverwrite -> off = 0 /\ PAGE_SIZE <= remain r) ->
  let n := Z.min (PAGE_SIZE - off) (remain r) in
  wp (write_page env (next, (off, r)) (i, f)) c (fun res c' =>
    match res with
    | Ok (next', (o', r')) => next' = next /\ o' = 0 /\ rd_data r' = drop (Z.to_nat n) (rd_data r) /\ fault_ok (rd_fault r') /\
        writes c c' (i * PAGE_SIZE + off) (take (Z.to_nat n) (rd_data r))
    | Err _ => wrote_some c c' (i * PAGE_SIZE + off) n (rd_data r)
    end).
Proof.
  intros H Hb [Ei Hm] Hoff Hf Hr Hover. cbv zeta. destruct (wf_page _ H i f Ei) as (p & Ef & Hl & Hwb & Hlen & Hev & Hd).
  assert (page_state p = Uninit -> off = 0 /\ PAGE_SIZE <= remain r) as Hu.
  { intros E. apply Hover. destruct m; [|done]. destruct (Hm eq_refl) as (q & Eq & Hq). congruence. }
  unfold write_page, other_evicts. pc. rewrite (ok_evicts _ Henv). pc. cbn [page_state with_lock page_data].
  replace (is_evicted (page_state p)) with false by (by destruct (page_state p)).
  apply wp_bind, (wp_lift _ tt); [rewrite Hlen, (proj2 (Z.leb_le _ _)) by lia; done|].
  destruct (write_fallible (page_data p) off r) as [[[d r'] n] fault] eqn:Ew. apply write_fallible_spec in Ew as (Hn & -> & Er' & Hf' & Hfull); [|done|lia].
  rewrite Hlen in *. set (mx := Z.min (PAGE_SIZE - off) (remain r)) in *. set (bs := take (Z.to_nat n) (rd_data r)) in *.
  assert (len bs = n) as Hbs by (unfold bs; rewrite len_take by lia; unfold remain in *; lia).
  assert (len (splice (page_data p) off bs) = PAGE_SIZE) as Hsl by (rewrite len_splice; lia).
  assert ((page_state p = Uninit -> n = PAGE_SIZE) ->
    writes c (put f (mkPage Dirty false (is_writing_back p) (splice (page_data p) off bs)) c) (i * PAGE_SIZE + off) bs) as Hput.
  { intros Hu'. apply (writes_put c i f p); try done; try lia; [unfold disk_of; by rewrite Hb|]. intros E. destruct (Hu E). specialize (Hu' E). lia. }
  apply wp_bind. eapply wp_update; [solve [pc_lookup]|]. rewrite put_clock, put_put. destruct fault.
  - unfold wrote_some. destruct (page_state p) eqn:Es; cbn [is_up_to_date]; rewrite ?andb_false_r, ?andb_true_r; [| |pc|done].
    + pc. split; [done|]. exists 0. split; [lia|]. apply loads_writes, loads_clock, (loads_put c i f p); try done; [|left; cbn; exact Es].
      unfold disk_of. rewrite Hb. split_and!; try done; cbn; rewrite Es; done.
    + destruct (Z.ltb_spec 0 n) as [Hpos|Hz]; pc.
      * split; [done|]. exists n. split; [lia|]. apply writes_clock. by apply Hput.
      * split; [done|]. exists 0. split; [lia|]. apply loads_writes, loads_clock. assert (n = 0) as En by lia. unfold bs, splice. rewrite En. change (take (Z.to_nat 0) (rd_data r)) with (@nil Z). cbn [app length].
        rewrite Nat.add_0_r, take_drop. rewrite put_id; [by apply loads_refl|]. rewrite Ef. f_equal. clearbody bs. destruct p; cbn in *. by subst.
    + split; [done|]. exists n. split; [lia|]. apply writes_clock. assert (with_lock false (with_data (splice (page_data p) off bs) (with_lock true p)) =
        mkPage Dirty false (is_writing_back p) (splice (page_data p) off bs)) as -> by (clearbody bs; destruct p; cbn in *; by subst). by apply Hput.
  - assert (n = mx) as -> by (exact Hfull). rewrite (proj2 (Z.ltb_lt 0 mx)) by lia. pc. split_and!; try done. apply writes_clock, Hput.
    intros E. destruct (Hu E). unfold mx. lia.
Qed.

Lemma write_anonymous_page_spec c m i f off r : wf c -> backed c = false -> ready c m i f -> 0 <= off < PAGE_SIZE -> fault_ok (rd_fault r) -> 0 < remain r ->
  let n := Z.min (PAGE_SIZE - off) (remain r) in
  wp (write_anonymous_page (off, r) (i, f)) c (fun res c' =>
    match res with
    | Ok (o', r') => o' = 0 /\ rd_data r' = drop (Z.to_nat n) (rd_data r) /\ fault_ok (rd_fault r') /\
        writes c c' (i * PAGE_SIZE + off) (take (Z.to_nat n) (rd_data r))
    | Err _ => wrote_some c c' (i * PAGE_SIZE + off) n (rd_data r)
    end).
Proof.
  intros H Hb [Ei _] Hoff Hf Hr. cbv zeta. destruct (wf_page _ H i f Ei) as (p & Ef & Hl & Hwb & Hlen & Hev & Hd).
  assert (page_state p <> Uninit) as Hu by (unfold disk_of in Hd; by rewrite Hb in Hd).
  unfold write_anonymous_page. cbn [snd]. pc. apply (wp_lift _ tt); [rewrite Hlen, (proj2 (Z.leb_le _ _)) by lia; done|].
  destruct (write_fallible (page_data p) off r) as [[[d r'] n] fault] eqn:Ew. apply write_fallible_spec in Ew as (Hn & -> & Er' & Hf' & Hfull); [|done|lia].
  rewrite Hlen in *. set (mx := Z.min (PAGE_SIZE - off) (remain r)) in *. set (bs := take (Z.to_nat n) (rd_data r)) in *.
  assert (len bs = n) as Hbs by (unfold bs; rewrite len_take by lia; unfold remain in *; lia).
  assert (writes c (put f (with_data (splice (page_data p) off bs) p) c) (i * PAGE_SIZE + off) bs) as Hput.
  { apply (writes_put c i f p); try done; try lia. unfold disk_of. rewrite Hb. split_and!; try done. cbn. rewrite len_splice; lia. }
  pc. destruct fault; pc.
  - split; [done|]. exists n. split; [lia|done].
  - assert (n = mx) as -> by (exact Hfull). split_and!; done.
Qed.

(** ** Batches of pages

    What both kinds of writes need of the code for one page; [pos] is the position and [tag] what the
    code keeps for later. *)
Definition body_spec {B T} (body : B -> Z * nat -> PC B) (pos : B -> Z * VmReader) (tag : B -> T) (ok : Cache -> Prop) : Prop :=
  forall c m i f b off r, wf c -> ok c -> pos b = (off, r) -> ready c m i f -> 0 <= off < PAGE_SIZE -> fault_ok (rd_fault r) -> 0 < remain r ->
    (m = CommitOverwrite -> off = 0 /\ PAGE_SIZE <= remain r) ->
    wp (body b (i, f)) c (fun res c' =>
      let n := Z.min (PAGE_SIZE - off) (remain r) in
      match res with
      | Ok b' => exists r', pos b' = (0, r') /\ tag b' = tag b /\ rd_data r' = drop (Z.to_nat n) (rd_data r) /\ fault_ok (rd_fault r') /\
          writes c c' (i * PAGE_SIZE + off) (take (Z.to_nat n) (rd_data r))
      | Err _ => wrote_some c c' (i * PAGE_SIZE + off) n (rd_data r)
      end).

Lemma write_page_body : body_spec (write_page env) snd fst (fun c => backed c = true).
Proof.
  intros c m i f [next [o r0]] off r H Hb [= -> ->] Hr Hoff Hf Hrem Hover. cbv zeta.
  eapply wp_mono; [by eapply write_page_spec|]. cbv zeta. intros [[next' [o' r']]|e] c' Hres; [|done]. destruct Hres as (-> & -> & ? & ? & ?). exists r'. done.
Qed.

Lemma write_anonymous_page_body : body_spec write_anonymous_page id (fun _ => tt) (fun c => backed c = false).
Proof.
  intros c m i f [o r0] off r H Hb [= -> ->] Hr Hoff Hf Hrem Hover. cbv zeta.
  eapply wp_mono; [by eapply write_anonymous_page_spec|]. cbv zeta. intros [[o' r']|e] c' Hres; [|done]. destruct Hres as (-> & ? & ? & ?). exists r'. done.
Qed.

(** Of the bytes [bs], to be written at [a], those before page [j] are written; [b] is the position. *)
Definition written_to {B} (pos : B -> Z * VmReader) (c : Cache) (a total : Z) (bs : list Z) (j : Z) (b : B) (c' : Cache) : Prop :=
  exists r, pos b = (offset_in a j, r) /\ fault_ok (rd_fault r) /\ rd_data r = drop (Z.to_nat (done_before a total j)) bs /\
    writes c c' a (take (Z.to_nat (done_before a total j)) bs).

Lemma take_split n m (l : list Z) : 0 <= n -> 0 <= m -> take (Z.to_nat (n + m)) l = take (Z.to_nat n) l ++ take (Z.to_nat m) (drop (Z.to_nat n) l).
Proof. intros Hn Hm. rewrite take_take_drop. f_equal. lia. Qed.

Lemma pages_from_writes c c' m s l o bs : writes c c' o bs -> pages_from c m s l -> pages_from c' m s l.
Proof. intros Hw H k i f E. destruct (H k i f E). split; [done|]. by eapply wr_ready. Qed.

(** The arithmetic of one page of a write. *)
Lemma done_step a total n j : 0 <= a -> 0 < total <= n -> a / PAGE_SIZE <= j -> j * PAGE_SIZE < a + total -> (total = n \/ (j + 1) * PAGE_SIZE <= a + total) ->
  let k := done_before a total j in let o := offset_in a j in
  0 <= o < PAGE_SIZE /\ 0 <= k < total /\ j * PAGE_SIZE + o = a + k /\ done_before a total (j + 1) = k + Z.min (PAGE_SIZE - o) (n - k) /\
  k + Z.min (PAGE_SIZE - o) (n - k) <= total /\ offset_in a (j + 1) = 0.
Proof.
  intros Ha Ht Hj Hlt Hcut. cbv zeta. pose proof (Z.div_mod a PAGE_SIZE ltac:(done)) as Hdm. pose proof (Z.mod_pos_bound a PAGE_SIZE ltac:(done)) as Hmb.
  unfold done_before, offset_in, PAGE_SIZE in *. lia.
Qed.

Lemma write_batch_spec {B T} (body : B -> Z * nat -> PC B) (pos : B -> Z * VmReader) (tag : B -> T) (ok : Cache -> Prop) c c1 m s l a total bs b :
  body_spec body pos tag ok -> (forall c c' o x, ok c -> writes c c' o x -> ok c') -> wf c1 -> ok c1 -> pages_from c1 m s l -> 0 <= a -> 0 < total <= len bs ->
  a / PAGE_SIZE <= s -> (s + Z.of_nat (length l) - 1) * PAGE_SIZE < a + total -> (total = len bs \/ (s + Z.of_nat (length l)) * PAGE_SIZE <= a + total) ->
  (m = CommitOverwrite -> (PAGE_SIZE | a) /\ (PAGE_SIZE | total)) -> written_to pos c a total bs s b c1 ->
  wp (for_fold l body b) c1 (fun r c' => match r with
    | Ok b' => tag b' = tag b /\ wf c' /\ ok c' /\ written_to pos c a total bs (s + Z.of_nat (length l)) b' c'
    | Err _ => wrote_some c c' a total bs end).
Proof.
  intros Hbody Hstable H1 Hok Hl Ha Ht Hs Hlt Hcut Hover Hw.
  apply (wp_for_fold _ _ (fun j b' c' => tag b' = tag b /\ wf c' /\ ok c' /\ pages_from c' m s l /\ written_to pos c a total bs (s + Z.of_nat j) b' c')).
  - rewrite Z.add_0_r. done.
  - intros j [i f] b1 c2 Ej (Etag & H2 & Hok2 & Hl2 & r & Epos & Hf & Er & Hwr). destruct (Hl2 j i f Ej) as [-> Hready]. pose proof (lookup_lt_Some _ _ _ Ej) as Hj.
    destruct (done_step a total (len bs) (s + Z.of_nat j)) as (Ho & Hk & Hpos & Hnext & Hle & Hoff'); [unfold PAGE_SIZE in *; lia..|].
    set (k := done_before a total (s + Z.of_nat j)) in *. set (o := offset_in a (s + Z.of_nat j)) in *.
    assert (remain r = len bs - k) as Hrem by (unfold remain; rewrite Er, len_drop; lia).
    eapply wp_mono; [eapply (Hbody c2 m); try done; [lia|]|].
    { intros Em. destruct (Hover Em) as [[q Hq] [q' Hq']]. rewrite Hrem. unfold k, o, done_before, offset_in, PAGE_SIZE in *. lia. }
    cbv zeta. rewrite Hrem, Hpos, Er. set (n := Z.min _ _) in *. intros [b'|e] c3 Hres.
    + destruct Hres as (r' & Epos' & Etag' & Er' & Hf' & Hwr'). split; [congruence|]. split; [apply Hwr'|]. split; [by eapply Hstable|].
      split; [by eapply pages_from_writes|]. exists r'. replace (s + Z.of_nat (S j)) with (s + Z.of_nat j + 1) by lia. rewrite Hnext, Hoff'. split; [done|]. split; [done|]. split.
      * rewrite Er', drop_drop. f_equal. lia.
      * rewrite take_split by lia. eapply writes_trans; [exact Hwr|exact Hwr'|]. rewrite len_take by lia. lia.
    + destruct Hres as (HWhy & k' & Hk' & Hwr'). split; [done|]. exists (k + k'). split; [lia|]. rewrite take_split by lia. eapply writes_trans; [exact Hwr|exact Hwr'|].
      rewrite len_take by lia. lia.
  - intros b' c' (? & ? & ? & _ & ?). done.
Qed.

Lemma writes_loads c c1 c2 o bs : writes c c1 o bs -> loads c1 c2 -> writes c c2 o bs.
Proof. intros Hw Hld. rewrite <- (app_nil_r bs). eapply writes_trans; [done|by apply loads_writes|done]. Qed.

Lemma written_loads {B} (pos : B -> Z * VmReader) c a total bs j b c1 c2 :
  written_to pos c a total bs j b c1 -> loads c1 c2 -> written_to pos c a total bs j b c2.
Proof. intros (r & ? & ? & ? & Hw) Hld. exists r. split_and!; try done. by eapply writes_loads. Qed.

(** What a part of a write does: the bytes from [a] to [b] are written. *)
Definition part_spec (c : Cache) (a b : Z) (r : VmReader) (res : result (Z * VmReader)) (c' : Cache) : Prop :=
  match res with
  | Ok (o', r') => o' = 0 /\ rd_data r' = drop (Z.to_nat (b - a)) (rd_data r) /\ fault_ok (rd_fault r') /\ writes c c' a (take (Z.to_nat (b - a)) (rd_data r))
  | Err _ => wrote_some c c' a (b - a) (rd_data r)
  end.

(** The conditions on a part: it is not empty, and ends with a page or with the bytes to write. *)
Definition part_ok (c : Cache) (m : CommitMode) (a b : Z) (r : VmReader) : Prop :=
  0 <= a < b /\ b <= vmo_size c /\ b - a <= remain r /\ (b - a = remain r \/ (PAGE_SIZE | b)) /\ fault_ok (rd_fault r) /\
  (m = CommitOverwrite -> (PAGE_SIZE | a) /\ (PAGE_SIZE | b)).

(** The loop over the pages of a part, with the code for a batch given by its specification. *)
Lemma write_loop_spec (fuel : nat) (step : Z * (Z * VmReader) -> PC (flow (Z * (Z * VmReader)) (Z * VmReader))) (ok : Cache -> Prop) c m a b r :
  wf c -> ok c -> part_ok c m a b r ->
  let s := a / PAGE_SIZE in let e := div_ceil b PAGE_SIZE in
  (Z.to_nat (e - s) < fuel)%nat -> (forall pos, step (e, pos) = mret (Break pos)) ->
  (forall i pos c1, wf c1 -> ok c1 -> vmo_size c1 = vmo_size c -> s <= i < e -> written_to id c a (b - a) (rd_data r) i pos c1 ->
     wp (step (i, pos)) c1 (fun res c' => match res with
       | Ok (Continue (i', pos')) => i < i' <= e /\ wf c' /\ ok c' /\ written_to id c a (b - a) (rd_data r) i' pos' c'
       | Ok (Break _) => False
       | Err _ => wrote_some c c' a (b - a) (rd_data r) end)) ->
  wp (while_fuel fuel step (s, (a mod PAGE_SIZE, r))) c (part_spec c a b r).
Proof.
  intros H Hok (Hab & Hb & Hrem & Hcut & Hf & _). cbv zeta. intros Hfuel Hbreak Hiter.
  pose proof (Z.div_mod a PAGE_SIZE ltac:(done)) as Hdm. pose proof (Z.mod_pos_bound a PAGE_SIZE ltac:(done)) as Hmb. pose proof (div_ceil_bounds b ltac:(lia)) as He.
  set (s := a / PAGE_SIZE) in *. set (e := div_ceil b PAGE_SIZE) in *.
  apply (wp_while _ (fun '(i, pos) c1 => wf c1 /\ ok c1 /\ s <= i <= e /\ written_to id c a (b - a) (rd_data r) i pos c1) (fun '(i, _) => Z.to_nat (e - i))); [| |exact Hfuel].
  - intros [i pos] c1 (H1 & Hok1 & Hi & Hw). destruct (decide (i = e)) as [->|Hne].
    + rewrite Hbreak. pc. destruct Hw as (r' & Epos & Hf' & Er' & Hw). unfold id in Epos.
      replace (done_before a (b - a) e) with (b - a) in * by (unfold done_before, PAGE_SIZE in *; lia). subst pos. cbn. split_and!; try done. unfold offset_in, PAGE_SIZE in *. lia.
    + eapply wp_mono; [apply Hiter; try done; [|lia]|].
      { destruct Hw as (? & _ & _ & _ & Hw). by destruct (wr_same _ _ _ _ Hw). }
      intros [[[i' pos']|pos']|err] c2 Hres; [|done|done]. destruct Hres as (Hi' & ? & ? & ?). split; [|lia]. split_and!; try done; lia.
  - split_and!; try done; [unfold PAGE_SIZE in *; lia|]. exists r. unfold offset_in, done_before. rewrite (Z.max_l 0 (s * PAGE_SIZE - a)), Z.min_r by (unfold PAGE_SIZE in *; lia). split_and!; try done.
    + unfold id. f_equal. unfold PAGE_SIZE in *. lia.
    + cbn. by apply loads_writes, loads_refl.
Qed.

(** The preconditions of a batch follow from those of the part. *)
Lemma part_batch c m a b r i l : part_ok c m a b r -> a / PAGE_SIZE <= i < div_ceil b PAGE_SIZE -> i + Z.of_nat (length l) <= div_ceil b PAGE_SIZE -> l <> ([] : list (Z * nat)) ->
  (i + Z.of_nat (length l) - 1) * PAGE_SIZE < a + (b - a) /\ (b - a = len (rd_data r) \/ (i + Z.of_nat (length l)) * PAGE_SIZE <= a + (b - a)) /\
  (m = CommitOverwrite -> (PAGE_SIZE | a) /\ (PAGE_SIZE | b - a)).
Proof.
  intros (Hab & Hbs & Hrem & Hcut & Hf & Hover) Hi Hl Hne. pose proof (div_ceil_bounds b ltac:(lia)) as He. split_and!.
  - unfold PAGE_SIZE in *. lia.
  - destruct Hcut as [Hcut|[q Hq]]; [by left|right]. unfold PAGE_SIZE in *. lia.
  - intros Em. destruct (Hover Em). split; [done|]. by apply Z.divide_sub_r.
Qed.

Lemma write_pages_with_backend_spec c m a b r cap : wf c -> backed c = true -> part_ok c m a b r -> 1 <= cap < 2 ^ 63 ->
  wp (write_pages_with_backend env (mkRange a b) m cap (a mod PAGE_SIZE, r)) c (part_spec c a b r).
Proof.
  intros H Hb Hpart Hcap. pose proof Hpart as (Hab & Hbs & Hrem & _). destruct (wf_size _ H) as (_ & _ & Hmax). unfold write_pages_with_backend.
  apply wp_bind. eapply wp_lift; [apply get_page_idx_range_eq; unfold u64_modulus, PAGE_SIZE in *; lia|]. unfold range_len. cbn [r_start r_end].
  set (e := div_ceil b PAGE_SIZE) in *. pose proof (div_ceil_bounds b ltac:(lia)) as He. fold e in He. pose proof (div_ceil_size c b H ltac:(lia)) as Hes. fold e in Hes.
  assert (0 <= a / PAGE_SIZE) as Ha by (apply Z.div_pos; [lia|done]).
  apply (write_loop_spec _ _ (fun c => backed c = true) c m); try done; [lia|intros pos; cbn beta iota; by rewrite Z.ltb_irrefl|].
  intros i pos c1 H1 Hb1 Esz Hi Hw. fold e in Hi. rewrite (proj2 (Z.ltb_lt i e)) by lia.
  apply wp_bind. eapply wp_mono; [eapply (collect_pages_spec env Henv c1 i e m cap); [done|lia|lia|lia]|].
  intros [l|err] c2 [Hld Hl].
  2:{ destruct Hw as (r' & _ & _ & _ & Hw). split; [auto|]. exists (done_before a (b - a) i). split; [unfold done_before; lia|by eapply writes_loads]. }
  destruct Hl as [Hl Hlen]. assert (l <> []) as Hne by (intros ->; cbn in Hlen; lia). destruct (part_batch c m a b r i l Hpart) as (P1 & P2 & P3); [lia|lia|done|].
  apply wp_bind. eapply wp_lift; [eapply batch_end_spec; [exact Hl|done|unfold u64_modulus, PAGE_SIZE in *; lia]|].
  apply wp_bind. eapply wp_mono; [eapply (write_batch_spec (write_page env) snd fst (fun c => backed c = true) c c2 m i l a (b - a) (rd_data r)
    (i + Z.of_nat (length l), pos) write_page_body); try done|].
  all: try (unfold remain in *; lia).
  - intros d d' o x Hd Hdw. by rewrite (proj1 (writes_backed _ _ _ _ Hdw)).
  - apply Hld.
  - by rewrite (loads_backed _ _ Hld).
  - by eapply written_loads in Hw.
  - intros [[i' pos']|err] c3 Hres; [|done]. destruct Hres as (Ei' & ? & ? & ?). cbn [fst snd] in *. subst i'. pc. split_and!; try done; lia.
Qed.

Lemma write_anonymous_pages_spec c a b r cap : wf c -> backed c = false -> part_ok c CommitRead a b r -> 1 <= cap < 2 ^ 63 ->
  wp (write_anonymous_pages env (mkRange a b) (a mod PAGE_SIZE, r) cap) c (part_spec c a b r).
Proof.
  intros H Hb Hpart Hcap. pose proof Hpart as (Hab & Hbs & Hrem & _). destruct (wf_size _ H) as (_ & _ & Hmax). unfold write_anonymous_pages.
  apply wp_bind. eapply wp_lift; [apply get_page_idx_range_eq; unfold u64_modulus, PAGE_SIZE in *; lia|]. unfold range_len. cbn [r_start r_end].
  set (e := div_ceil b PAGE_SIZE) in *. pose proof (div_ceil_bounds b ltac:(lia)) as He. fold e in He. pose proof (div_ceil_size c b H ltac:(lia)) as Hes. fold e in Hes.
  assert (0 <= a / PAGE_SIZE) as Ha by (apply Z.div_pos; [lia|done]).
  apply (write_loop_spec _ _ (fun c => backed c = false) c CommitRead); try done; [lia|intros pos; cbn beta iota; by rewrite Z.ltb_irrefl|].
  intros i pos c1 H1 Hb1 Esz Hi Hw. fold e in Hi. rewrite (proj2 (Z.ltb_lt i e)) by lia.
  apply wp_bind. eapply wp_mono; [eapply (collect_pages_spec env Henv c1 i e CommitRead cap); [done|lia|lia|lia]|].
  intros [l|err] c2 [Hld Hl].
  2:{ destruct Hw as (r' & _ & _ & _ & Hw). split; [auto|]. exists (done_before a (b - a) i). split; [unfold done_before; lia|by eapply writes_loads]. }
  destruct Hl as [Hl Hlen]. assert (l <> []) as Hne by (intros ->; cbn in Hlen; lia). destruct (part_batch c CommitRead a b r i l Hpart) as (P1 & P2 & P3); [lia|lia|done|].
  apply wp_bind. eapply wp_mono; [eapply (write_batch_spec write_anonymous_page id (fun _ => tt) (fun c => backed c = false) c c2 CommitRead i l a (b - a) (rd_data r)
    pos write_anonymous_page_body); try done|].
  all: try (unfold remain in *; lia).
  - intros d d' o x Hd Hdw. by rewrite (proj1 (writes_backed _ _ _ _ Hdw)).
  - apply Hld.
  - by rewrite (loads_backed _ _ Hld).
  - by eapply written_loads in Hw.
  - intros [pos'|err] c3 Hres; [|done]. destruct Hres as (_ & ? & ? & ?). apply wp_bind.
    eapply wp_lift; [eapply batch_end_spec; [exact Hl|done|unfold u64_modulus, PAGE_SIZE in *; lia]|]. pc. split_and!; try done; lia.
Qed.

(** A write has come to the offset [a]: the bytes before it are written, the others are left. *)
Definition reached (c : Cache) (o : Z) (bs : list Z) (a : Z) (r : VmReader) (c1 : Cache) : Prop :=
  writes c c1 o (take (Z.to_nat (a - o)) bs) /\ rd_data r = drop (Z.to_nat (a - o)) bs /\ fault_ok (rd_fault r).

Lemma part_reached c o bs a b r c1 n res c' : reached c o bs a r c1 -> o <= a <= b -> b - o <= n <= len bs -> part_spec c1 a b r res c' ->
  match res with Ok (o', r') => o' = 0 /\ reached c o bs b r' c' | Err _ => wrote_some c c' o n bs end.
Proof.
  intros (Hw & Er & Hf) Hab Hn Hpart. assert (len (take (Z.to_nat (a - o)) bs) = a - o) as Hlen by (rewrite len_take; lia).
  destruct res as [[o' r']|e]; cbn in Hpart; rewrite Er in Hpart.
  - destruct Hpart as (-> & Er' & Hf' & Hw'). split; [done|]. split_and!; try done.
    + replace (b - o) with ((a - o) + (b - a)) by lia. rewrite take_split by lia. eapply writes_trans; [done..|lia].
    + rewrite Er', drop_drop. f_equal. lia.
  - destruct Hpart as (HWhy & k & Hk & Hw'). split; [done|]. exists ((a - o) + k). split; [lia|]. rewrite take_split by lia. eapply writes_trans; [done..|lia].
Qed.

Lemma wf_has_backend c : wf c -> has_backend c = backed c.
Proof. intros H. pose proof (wf_backend _ H). unfold has_backend, backed. by destruct (vmo_backend c) as [[]|]. Qed.

(** A part of a write with a backend. *)
Lemma write_part c o bs a b r c1 n m cap off : wf c1 -> backed c1 = true -> reached c o bs a r c1 -> off = a mod PAGE_SIZE -> part_ok c1 m a b r -> 1 <= cap < 2 ^ 63 ->
  o <= a <= b -> b - o <= n <= len bs ->
  wp (write_pages_with_backend env (mkRange a b) m cap (off, r)) c1 (fun res c' =>
    match res with Ok (o', r') => o' = 0 /\ reached c o bs b r' c' | Err _ => wrote_some c c' o n bs end).
Proof.
  intros H1 Hb1 Hre -> Hpart Hcap Hab Hn. eapply wp_mono; [by apply write_pages_with_backend_spec|]. intros res c' Hres. by eapply part_reached.
Qed.

(** The rounded ends of a range. *)
Lemma rounded_up x : 0 <= x -> x + PAGE_SIZE <= u64_modulus -> exists y, align_up x PAGE_SIZE = Ret y /\ (PAGE_SIZE | y) /\ x <= y < x + PAGE_SIZE.
Proof.
  intros Hx Hm. eexists. split; [apply align_up_eq; [done|done|unfold PAGE_SIZE in *; lia]|].
  destruct (round_down_spec (x + (PAGE_SIZE - 1)) PAGE_SIZE) as [Hmod Hb]; [done|]. split; [by apply Z.mod_divide|]. lia.
Qed.

Lemma rounded_down x : exists y, align_down x PAGE_SIZE = Ret y /\ (PAGE_SIZE | y) /\ x - PAGE_SIZE < y <= x.
Proof.
  eexists. split; [by apply align_down_eq|]. destruct (round_down_spec x PAGE_SIZE) as [Hmod Hb]; [done|]. split; [by apply Z.mod_divide|]. lia.
Qed.

Lemma reached_remain c o bs a r c1 : reached c o bs a r c1 -> 0 <= a - o <= len bs -> remain r = len bs - (a - o).
Proof. intros (_ & E & _) Ha. unfold remain. rewrite E, len_drop; lia. Qed.

(** The part of [Vmo::write] for a range that covers a page: head, middle and tail. *)
Lemma write_split_spec c o n r c1 cap : wf c1 -> backed c1 = true -> 0 <= o -> PAGE_SIZE <= n <= remain r -> o + n <= vmo_size c1 ->
  (n = remain r \/ o + n = vmo_size c1) -> 1 <= cap < 2 ^ 63 -> reached c o (rd_data r) o r c1 ->
  wp (up_align_start ← lift (align_up o PAGE_SIZE);
      down_align_end ← lift (align_down (o + n) PAGE_SIZE);
      pos ← (if o =? up_align_start then mret (o mod PAGE_SIZE, r)
             else write_pages_with_backend env (mkRange o up_align_start) CommitRead cap (o mod PAGE_SIZE, r));
      pos ← (if up_align_start =? down_align_end then mret pos
             else write_pages_with_backend env (mkRange up_align_start down_align_end) CommitOverwrite cap pos);
      if down_align_end =? (o + n) then mret pos
      else write_pages_with_backend env (mkRange down_align_end (o + n)) CommitRead cap pos) c1
    (fun res c' => match res with Ok (o', r') => reached c o (rd_data r) (o + n) r' c' | Err _ => wrote_some c c' o n (rd_data r) end).
Proof.
  intros H1 Hb1 Ho Hn Hsz Hcut Hcap Hre. destruct (wf_size _ H1) as (_ & Hal & Hmax). fold (remain r) in *. unfold remain in *.
  destruct (rounded_up o) as (u & Eu & Hu & Hub); [lia|unfold PAGE_SIZE in *; lia|]. destruct (rounded_down (o + n)) as (d & Ed & Hd & Hdb).
  assert (u <= d) as Hud by (destruct Hu as [q ->], Hd as [q' ->]; unfold PAGE_SIZE in *; lia).
  apply wp_bind. eapply wp_lift; [exact Eu|]. apply wp_bind. eapply wp_lift; [exact Ed|]. set (D := rd_data r) in *.
  apply wp_bind. apply (wp_mono _ _ (fun res c' => match res with
    | Ok (o', r') => o' = u mod PAGE_SIZE /\ reached c o D u r' c' | Err _ => wrote_some c c' o n D end)).
  { destruct (Z.eqb_spec o u) as [<-|Hne]; [pc; split; done|]. pose proof (reached_remain _ _ _ _ _ _ Hre ltac:(lia)) as Hrem.
    eapply wp_mono; [apply (write_part c o D o u r c1 n); try done; try lia|].
    - split_and!; try lia; [by right|by destruct Hre as (_ & _ & ?)|done].
    - intros [[o' r']|e] c' Hres; [|done]. destruct Hres as [-> Hr']. split; [|done]. symmetry. by apply Z.mod_divide. }
  intros [[o1 r1]|e] c2 Hres; [|done]. destruct Hres as [-> Hr1]. assert (wf c2 /\ backed c2 = true /\ vmo_size c2 = vmo_size c1) as (H2 & Hb2 & Es2).
  { destruct Hre as (Hw & _), Hr1 as (Hw1 & _). split; [apply Hw1|]. rewrite (proj1 (writes_backed _ _ _ _ Hw1)), <- (proj1 (writes_backed _ _ _ _ Hw)).
    split; [done|]. destruct (wr_same _ _ _ _ Hw), (wr_same _ _ _ _ Hw1). congruence. }
  apply wp_bind. apply (wp_mono _ _ (fun res c' => match res with
    | Ok (o', r') => o' = d mod PAGE_SIZE /\ reached c o D d r' c' | Err _ => wrote_some c c' o n D end)).
  { destruct (Z.eqb_spec u d) as [<-|Hne]; [pc; split; done|]. pose proof (reached_remain _ _ _ _ _ _ Hr1 ltac:(lia)) as Hrem.
    eapply wp_mono; [apply (write_part c o D u d r1 c2 n); try done; try lia|].
    - split_and!; try lia; [by right|by destruct Hr1 as (_ & _ & ?)|done].
    - intros [[o' r']|e] c' Hres; [|done]. destruct Hres as [-> Hr']. split; [|done]. symmetry. by apply Z.mod_divide. }
  intros [[o2 r2]|e] c3 Hres; [|done]. destruct Hres as [-> Hr2]. destruct (Z.eqb_spec d (o + n)) as [<-|Hne]; [by pc|].
  assert (wf c3 /\ backed c3 = true /\ vmo_size c3 = vmo_size c2) as (H3 & Hb3 & Es3).
  { destruct Hr1 as (Hw & _), Hr2 as (Hw1 & _). split; [apply Hw1|]. rewrite (proj1 (writes_backed _ _ _ _ Hw1)), <- (proj1 (writes_backed _ _ _ _ Hw)).
    split; [done|]. destruct (wr_same _ _ _ _ Hw), (wr_same _ _ _ _ Hw1). congruence. }
  pose proof (reached_remain _ _ _ _ _ _ Hr2 ltac:(lia)) as Hrem. eapply wp_mono; [apply (write_part c o D d (o + n) r2 c3 n); try done; try lia|].
  - split_and!; try lia; [|by destruct Hr2 as (_ & _ & ?)|done]. destruct Hcut as [->|Hcut]; [left; lia|].
    right. rewrite Hcut. done.
  - intros [[o' r']|e] c' Hres; [|done]. by destruct Hres.
Qed.

Lemma div_ceil_pos n : 0 < n -> 1 <= div_ceil n PAGE_SIZE.
Proof. intros Hn. pose proof (div_ceil_bounds n ltac:(lia)). unfold PAGE_SIZE in *. lia. Qed.

Lemma write_spec c offset r : wf c -> 0 <= offset -> fault_ok (rd_fault r) ->
  let n := Z.min (remain r) (Z.max 0 (vmo_size c - offset)) in
  wp (write env offset r) c (fun res c' => match res with
    | Ok r' => writes c c' offset (take (Z.to_nat n) (rd_data r)) /\ rd_data r' = drop (Z.to_nat n) (rd_data r)
    | Err _ => wrote_some c c' offset n (rd_data r) end).
Proof.
  intros H Ho Hf. cbv zeta. destruct (wf_size _ H) as (Hsz & Hal & Hmax). unfold write. pc. set (n := Z.min _ _). cbv zeta.
  destruct (Z.eqb_spec n 0) as [E0|Hne]; [pc; rewrite E0; split; [by apply loads_writes, loads_refl|done]|].
  assert (0 < n <= remain r /\ offset + n <= vmo_size c) as [Hn Hend] by (unfold remain, len in *; lia).
  assert (n = remain r \/ offset + n = vmo_size c) as Hcut by lia.
  apply wp_bind, (wp_lift _ (offset + n)); [apply uadd_eq; unfold u64_modulus, PAGE_SIZE in *; lia|]. unfold vec_with_capacity. pc.
  pose proof (div_ceil_pos n ltac:(lia)) as Hdc. destruct (ok_capacity _ Henv (clock c) (Z.min (div_ceil n PAGE_SIZE) PAGE_BATCH_CAPACITY)) as [Hc1 Hc2]; [unfold PAGE_BATCH_CAPACITY; lia|].
  set (cap := env_capacity _ _ _) in *. assert (1 <= cap < 2 ^ 63) as Hcap by (unfold PAGE_BATCH_CAPACITY in *; lia). set (c1 := with_clock _ c).
  assert (wf c1) as H1 by (by apply wf_clock). change (has_backend c1) with (has_backend c). rewrite (wf_has_backend c H).
  assert (reached c offset (rd_data r) offset r c1) as Hre.
  { rewrite <- (Z.add_0_r offset) at 2. unfold reached. replace (offset + 0 - offset) with 0 by lia. split_and!; try done. by apply loads_writes, loads_clock, loads_refl. }
  apply (wp_mono _ _ (fun res c' => match res with Ok (_, r') => reached c offset (rd_data r) (offset + n) r' c' | Err _ => wrote_some c c' offset n (rd_data r) end)).
  2:{ intros [[o' r']|e] c' Hres; [|done]. pc. destruct Hres as (Hw & Er & _). replace (offset + n - offset) with n in * by lia. done. }
  assert (part_ok c1 CommitRead offset (offset + n) r) as Hpart.
  { unfold part_ok. change (vmo_size c1) with (vmo_size c). do 3 (split; [lia|]). split; [|done]. destruct Hcut as [->|Hcut]; [left; lia|right; by rewrite Hcut]. }
  destruct (backed c) eqn:Hb; cbn [negb].
  - case_cond.
    + eapply wp_mono; [apply (write_part c offset (rd_data r) offset (offset + n) r c1 n); try done; unfold remain in *; lia|].
      intros [[o' r']|e] c' Hres; [by destruct Hres|done].
    + apply write_split_spec; try done; unfold remain in *; lia.
  - eapply wp_mono; [by apply write_anonymous_pages_spec|]. intros res c' Hres.
    eapply part_reached with (n := n) in Hres; [|exact Hre|lia|unfold remain in *; lia]. by destruct res as [[o' r']|e]; [destruct Hres|].
Qed.

(** ** Filling with zeros *)

Definition zeros (n : Z) : list Z := replicate (Z.to_nat n) 0.

Lemma take_zero_page n : 0 <= n <= PAGE_SIZE -> take (Z.to_nat n) zero_page = zeros n.
Proof. intros Hn. unfold zero_page, zeros. rewrite take_replicate. f_equal. lia. Qed.

Lemma len_zeros n : 0 <= n -> len (zeros n) = n.
Proof. intros Hn. unfold len, zeros. rewrite length_replicate. lia. Qed.

Lemma zeros_app n m : 0 <= n -> 0 <= m -> zeros n ++ zeros m = zeros (n + m).
Proof. intros Hn Hm. unfold zeros. rewrite <- replicate_add. f_equal. lia. Qed.

Lemma take_zeros k n : 0 <= k <= n -> take (Z.to_nat k) (zeros n) = zeros k.
Proof. intros Hk. unfold zeros. rewrite take_replicate. f_equal. lia. Qed.

Lemma fill_zeros_spec c a b : wf c -> 0 <= a ->
  wp (fill_zeros env (mkRange a b)) c (fun res c' => match res with
    | Ok _ => writes c c' a (zeros (b - a))
    | Err _ => (W \/ vmo_size c < b) /\ exists k, 0 <= k <= Z.max 0 (b - a) /\ writes c c' a (zeros k) end).
Proof.
  intros H Ha. destruct (wf_size _ H) as (Hsz & Hal & Hmax). unfold fill_zeros. cbn [r_start r_end]. destruct (Z.leb_spec b a) as [Hle|Hlt].
  { pc. replace (zeros (b - a)) with (@nil Z) by (unfold zeros; by replace (Z.to_nat (b - a)) with 0%nat by lia). by apply loads_writes, loads_refl. }
  pc. destruct (Z.ltb_spec (vmo_size c) b) as [Hgt|Hle].
  { pc. split; [by right|]. exists 0. split; [lia|]. by apply loads_writes, loads_refl. }
  set (m := fun x => if x <? b then Z.to_nat (div_ceil b PAGE_SIZE - x / PAGE_SIZE) else 0%nat).
  apply (wp_while _ (fun x c1 => a <= x <= b /\ writes c c1 a (zeros (x - a))) m).
  - intros x c1 [Hx Hw]. pose proof (Z.div_mod x PAGE_SIZE ltac:(done)) as Hdm. pose proof (Z.mod_pos_bound x PAGE_SIZE ltac:(done)) as Hmb.
    destruct (Z.ltb_spec x b) as [Hxb|Hxb].
    2:{ pc. replace x with b in Hw by lia. done. }
    set (n := Z.min (b - x) (PAGE_SIZE - x mod PAGE_SIZE)). assert (0 < n <= PAGE_SIZE) as Hn by lia. rewrite take_zero_page by lia.
    apply wp_bind. eapply wp_mono; [apply (write_spec c1 x (mkReader (zeros n) None)); [apply Hw|lia|done]|]. cbv zeta. unfold remain. cbn [rd_data].
    destruct (wr_same _ _ _ _ Hw) as (Es & _). rewrite len_zeros, Es by lia. replace (Z.min n (Z.max 0 (vmo_size c - x))) with n by lia.
    intros [r'|e] c2 Hres.
    + destruct Hres as [Hw2 _]. apply wp_bind, (wp_lift _ (x + n)); [apply uadd_eq; unfold u64_modulus, PAGE_SIZE in *; lia|]. pc. split; [split; [lia|]|].
      * rewrite take_zeros in Hw2 by lia. replace (x + n - a) with ((x - a) + n) by lia. rewrite <- zeros_app by lia.
        eapply writes_trans; [exact Hw|exact Hw2|]. rewrite len_zeros; lia.
      * unfold m. rewrite (proj2 (Z.ltb_lt x b)) by lia. pose proof (div_ceil_bounds b ltac:(lia)). destruct (Z.ltb_spec (x + n) b) as [Hc|Hc]; [|unfold PAGE_SIZE in *; lia].
        assert (x + n = (x / PAGE_SIZE + 1) * PAGE_SIZE) as -> by lia. rewrite Z.div_mul by done. unfold PAGE_SIZE in *. lia.
    + destruct Hres as (HWhy & k & Hk & Hw2). split; [by left|]. exists ((x - a) + k). split; [lia|]. rewrite take_zeros in Hw2 by lia. rewrite <- zeros_app by lia.
      eapply writes_trans; [exact Hw|exact Hw2|]. rewrite len_zeros; lia.
  - split; [lia|]. rewrite Z.sub_diag. by apply loads_writes, loads_refl.
  - unfold m, range_len. cbn [r_start r_end]. rewrite (proj2 (Z.ltb_lt a b)) by lia. rewrite Z.max_r by lia.
    pose proof (div_ceil_bounds b ltac:(lia)). pose proof (div_ceil_bounds (b - a) ltac:(lia)).
    pose proof (Z.div_mod a PAGE_SIZE ltac:(done)). pose proof (Z.mod_pos_bound a PAGE_SIZE ltac:(done)). unfold PAGE_SIZE in *. lia.
Qed.
End io.
End reason.
