(* ===== verification/PageCacheFlush.v ===== *)
(** * The page cache: flushing

    [flush_dirty_pages] makes the file durable and does not change it.  The reverse mappings are followed
    so that no page table entry for a clean page is writable. *)

From S2P Require Import Prelude Flags Align IntervalSet VmMapping Vmar PageCache PageCacheInv PageCacheIo.

(** ** Walks over the pages *)

Lemma wp_walk {A} (idxs : Range) (visit : A -> Z -> PC A) (D : gset Z) (I : Z -> A -> Cache -> Prop) (Q : result A -> Cache -> Prop) a c :
  r_start idxs < r_end idxs -> dom (vmo_pages c) = D -> I (r_start idxs) a c ->
  (forall k a c, r_start idxs <= k < r_end idxs -> I k a c ->
     wp (visit a k) c (fun r c' => match r with Ok a' => I (k + 1) a' c' | Err e => Q (Err e) c' end)) ->
  (forall k a c, I k a c -> forall j, k <= j -> j ∈ dom (vmo_pages c) <-> j ∈ D) ->
  (forall k k' a c, I k a c -> k <= k' -> (forall j, k <= j < k' -> j ∉ D) -> I k' a c) ->
  (forall a c, I (r_end idxs) a c -> Q (Ok a) c) ->
  wp (walk idxs visit a) c Q.
Proof.
  intros Hne ED H0 Hstep Hdom Hskip Hend. unfold walk.
  change (wp (while_fuel (S (size (vmo_pages c))) (fun '(a, index) =>
       a ← visit a index;
       next ← get (fun c => next_key (dom (vmo_pages c)) (index + 1));
       mret (match next with
             | None => Break a
             | Some index => if r_end idxs <=? index then Break a else Continue (a, index)
             end)) (a, r_start idxs)) c Q).
  set (above := fun k => size (filter (fun j => k < j) D)).
  apply (wp_while _ (fun '(a, k) c => r_start idxs <= k < r_end idxs /\ I k a c) (fun '(_, k) => above k)).
  - intros [b k] d [Hk HI]. pc. eapply wp_mono; [by apply Hstep|]. intros [b'|e] d' HI'; [|done]. pc.
    pose proof (next_key_least (dom (vmo_pages d')) (k + 1)) as Hl. destruct (next_key _ _) as [j|]; cbn in Hl.
    + destruct Hl as (Hj & Hkj & Hmin). pose proof (proj1 (Hdom _ _ _ HI' j Hkj) Hj) as HjD.
      assert (forall i, k + 1 <= i < j -> i ∉ D) as Hgap.
      { intros i Hi HiD. apply (Hdom _ _ _ HI' i) in HiD; [|lia]. specialize (Hmin i HiD). lia. }
      case_cond.
      * apply Hend. apply (Hskip (k + 1)); [done|lia|]. intros i Hi. apply Hgap. lia.
      * split; [split; [lia|]; by apply (Hskip (k + 1))|]. unfold above. apply subset_size. split.
        { intros i. rewrite !elem_of_filter. intros [? ?]. split; [lia|done]. }
        intros Hsub. specialize (Hsub j). rewrite !elem_of_filter in Hsub. destruct Hsub; [split; [lia|done]|lia].
    + apply Hend. apply (Hskip (k + 1)); [done|lia|]. intros i Hi HiD. apply (Hdom _ _ _ HI' i) in HiD; [|lia]. specialize (Hl i HiD). lia.
  - split; [lia|done].
  - unfold above. rewrite <- (size_dom (vmo_pages c)), ED. apply Nat.lt_succ_r, subseteq_size. set_solver.
Qed.

(** ** Walks over the reverse mappings *)

(** What a loop over a list without duplicates has not seen yet. *)
Lemma take_fmap_fresh {A B} (g : A -> B) (l : list A) j x : NoDup (g <$> l) -> l !! j = Some x -> g x ∉ g <$> take j l.
Proof.
  intros Hnd Ej (y & Ey & Hin)%list_elem_of_fmap. apply elem_of_take in Hin as (k & Ek & Hk).
  assert (k = j); [|lia]. eapply (NoDup_lookup (g <$> l)); [done|rewrite list_lookup_fmap, Ek; done|rewrite list_lookup_fmap, Ej; cbn; by rewrite Ey].
Qed.

(** Every address space that is mapped is visited once; those that are gone are forgotten. *)
Lemma retain_spec (visit : Space -> RmapEntry -> run Space) (offset : Range) (R : nat -> list RmapEntry -> Space -> Space -> Prop) c (Q : result unit -> Cache -> Prop) :
  is_multiple_of (r_start offset) PAGE_SIZE = true -> is_multiple_of (r_end offset) PAGE_SIZE = true ->
  (forall v es sp, vmo_rmap c !! v = Some es -> spaces c !! v = Some sp ->
     returns (foldl (fun acc e => sp ← acc; visit sp e) (Ret sp) es) (R v es sp)) ->
  (forall r sps,
     (forall v es, r !! v = Some es <-> vmo_rmap c !! v = Some es /\ is_Some (spaces c !! v)) ->
     (forall v sp', sps !! v = Some sp' -> exists sp, spaces c !! v = Some sp /\ match vmo_rmap c !! v with Some es => R v es sp sp' | None => sp' = sp end) ->
     (forall v, is_Some (sps !! v) <-> is_Some (spaces c !! v)) ->
     Q (Ok tt) (with_spaces r sps c)) ->
  wp (retain visit offset) c Q.
Proof.
  intros Hs He Hvisit HQ. unfold wp, retain. rewrite Hs, He. cbn [andb assert_run mbind run_bind].
  set (l := map_to_list (vmo_rmap c)). assert (NoDup l.*1) as Hnd by apply NoDup_fst_map_to_list.
  assert (forall v es, (v, es) ∈ l <-> vmo_rmap c !! v = Some es) as Hl by (intros; apply elem_of_map_to_list).
  eapply returns_bind.
  - apply (returns_foldl (retain_step visit)
     (fun j '(r, sps) =>
        (forall v es, r !! v = Some es <-> vmo_rmap c !! v = Some es /\ (v ∈ (take j l).*1 -> is_Some (spaces c !! v))) /\
        (forall v, is_Some (sps !! v) <-> is_Some (spaces c !! v)) /\
        (forall v sp', sps !! v = Some sp' -> exists sp, spaces c !! v = Some sp /\
           (if decide (v ∈ (take j l).*1) then exists es, vmo_rmap c !! v = Some es /\ R v es sp sp' else sp' = sp)))).
    + cbn. split_and!; [set_solver|done|]. intros v sp' E. exists sp'. split; [done|]. rewrite decide_False; [done|]. intros Hin. by apply elem_of_nil in Hin.
    + intros j [v es] [r sps] Ej (Hr & Hdom & Hsp). assert (vmo_rmap c !! v = Some es) as Ev by (apply Hl; by eapply list_elem_of_lookup_2).
      pose proof (take_fmap_fresh fst l j (v, es) Hnd Ej) as Hv. cbn in Hv.
      assert (forall u, u ∈ (take (S j) l).*1 <-> u ∈ (take j l).*1 \/ u = v) as Htake.
      { intros u. rewrite (take_S_r _ _ _ Ej), fmap_app, elem_of_app. cbn. rewrite list_elem_of_singleton. done. }
      unfold retain_step. cbn [fst snd]. destruct (sps !! v) as [sp|] eqn:Esp.
      * destruct (Hsp v sp Esp) as (sp0 & Esp0 & Heq). rewrite decide_False in Heq by done. subst sp0.
        destruct (Hvisit v es sp Ev Esp0) as (sp' & -> & HR). cbn. apply returns_ret. split_and!.
        -- intros u es'. rewrite Hr, Htake. naive_solver.
        -- intros u. destruct (decide (u = v)) as [->|]; [rewrite lookup_insert_eq; naive_solver|by rewrite lookup_insert_ne].
        -- intros u sp1. destruct (decide (u = v)) as [->|Hne].
           ++ rewrite lookup_insert_eq. intros [= <-]. exists sp. split; [done|]. rewrite decide_True by (apply Htake; by right). eauto.
           ++ rewrite lookup_insert_ne by done. intros E. destruct (Hsp u sp1 E) as (sp0 & E0 & Hu). exists sp0. split; [done|].
              destruct (decide (u ∈ (take j l).*1)) as [Hin|Hnin]; [by rewrite decide_True by (apply Htake; by left)|].
              rewrite decide_False; [done|]. rewrite Htake. by intros [?|?].
      * apply returns_ret. assert (spaces c !! v = None) as Enone by (apply eq_None_not_Some; rewrite <- Hdom, Esp; by apply is_Some_None || (intros [? ?]; done)).
        split_and!; [|done|].
        -- intros u es'. rewrite Htake. destruct (decide (u = v)) as [->|Hne].
           ++ rewrite lookup_delete_eq. split; [done|]. intros [_ Hsome]. destruct Hsome as [? ?]; [by right|]. congruence.
           ++ rewrite lookup_delete_ne by done. rewrite Hr. naive_solver.
        -- intros u sp1 E. destruct (Hsp u sp1 E) as (sp0 & E0 & Hu). exists sp0. split; [done|].
           assert (u <> v) by congruence. destruct (decide (u ∈ (take j l).*1)) as [Hin|Hnin]; [by rewrite decide_True by (apply Htake; by left)|].
           rewrite decide_False; [done|]. rewrite Htake. by intros [?|?].
  - rewrite take_ge by lia. intros [r sps] (Hr & Hdom & Hsp). apply returns_ret. cbn [fst snd]. apply HQ; [..|done].
    + intros v es. rewrite Hr. split; [|naive_solver]. intros [Ev Hs']. split; [done|]. apply Hs', list_elem_of_fmap. exists (v, es). split; [done|]. by apply Hl.
    + intros v sp' E. destruct (Hsp v sp' E) as (sp & E0 & Hu). exists sp. split; [done|]. destruct (decide _) as [Hin|Hnin].
      * destruct Hu as (es & -> & HR). done.
      * destruct (vmo_rmap c !! v) as [es|] eqn:Ev; [|done]. destruct Hnin. apply list_elem_of_fmap. exists (v, es). split; [done|]. by apply Hl.
Qed.

(** Address [va] of a mapping shows a page from [s] to [t]. *)
Definition shows_in (s t : Z) (e : RmapEntry) (va : Z) : Prop :=
  re_vaddr e <= va < re_vaddr e + re_size e /\ s <= (va - re_vaddr e + re_offset e) / PAGE_SIZE < t.

Lemma multiple_of x : (PAGE_SIZE | x) -> is_multiple_of x PAGE_SIZE = true.
Proof. intros H. unfold is_multiple_of. apply Z.eqb_eq. by apply Z.mod_divide. Qed.

Lemma in_pages o s t : s <= o / PAGE_SIZE < t <-> s * PAGE_SIZE <= o < t * PAGE_SIZE.
Proof.
  pose proof (Z.div_mod o PAGE_SIZE ltac:(done)). pose proof (Z.mod_pos_bound o PAGE_SIZE ltac:(done)). unfold PAGE_SIZE in *. lia.
Qed.

Lemma entry_addrs_spec s t e : entry_ok e -> 0 <= s -> t * PAGE_SIZE < u64_modulus ->
  returns (entry_addrs (mkRange (s * PAGE_SIZE) (t * PAGE_SIZE)) e) (fun o =>
    match o with
    | None => forall va, ~ shows_in s t e va
    | Some r => cursor_mut r = Ret tt /\ forall va, r_start r <= va < r_end r <-> shows_in s t e va
    end).
Proof.
  intros (H1 & H2 & H3 & H4 & H5 & D1 & D2 & D3) Hs Ht. unfold entry_addrs. rewrite uadd_eq by done. cbn [mbind run_bind r_start r_end].
  set (lo := Z.max _ _). set (hi := Z.min _ _).
  assert (forall va, shows_in s t e va <-> lo <= va - re_vaddr e + re_offset e < hi) as Hin by (intros va; unfold shows_in; rewrite in_pages; lia).
  case_cond; [apply returns_ret; intros va; rewrite Hin; lia|].
  assert ((PAGE_SIZE | lo) /\ (PAGE_SIZE | hi)) as [Dlo Dhi].
  { assert (PAGE_SIZE | re_offset e + re_size e) by (by apply Z.divide_add_r). unfold lo, hi.
    split; [destruct (Z.max_spec (re_offset e) (s * PAGE_SIZE)) as [[_ ->]|[_ ->]]|destruct (Z.min_spec (re_offset e + re_size e) (t * PAGE_SIZE)) as [[_ ->]|[_ ->]]]; try done; apply Z.divide_factor_r. }
  rewrite !uadd_eq by (unfold u64_modulus in *; lia). cbn [mbind run_bind]. apply returns_ret. cbn [r_start r_end]. split.
  - unfold cursor_mut. cbn [r_start r_end]. rewrite !multiple_of by (apply Z.divide_add_r; [by apply Z.divide_sub_r|done]).
    rewrite (proj2 (Z.leb_le _ _)), (proj2 (Z.ltb_lt _ _)), (proj2 (Z.leb_le _ (Z.shiftl 1 47))); [done|change (Z.shiftl 1 47) with (2 ^ 47); lia|lia|lia].
  - intros va. rewrite Hin. lia.
Qed.

(** What a walk leaves of an entry of a page table: the frame, and not more permissions. *)
Definition weaker (q0 q : Pte) : Prop := pte_frame q = pte_frame q0 /\ (can_write q = true -> can_write q0 = true).

(** After the walk, no entry for a page from [s] to [t] has the property [bad]. *)
Definition wiped (bad : Pte -> bool) (s t : Z) (es : list RmapEntry) (sp sp' : Space) : Prop :=
  forall va q, sp_table sp' !! va = Some q ->
    exists q0, sp_table sp !! va = Some q0 /\ weaker q0 q /\ (bad q = true -> bad q0 = true /\ forall e, e ∈ es -> ~ shows_in s t e va).

Lemma wiped_foldl bad s t visit es sp :
  (forall sp e, e ∈ es -> returns (visit sp e) (wiped bad s t [e] sp)) ->
  returns (foldl (fun acc e => sp ← acc; visit sp e) (Ret sp) es) (wiped bad s t es sp).
Proof.
  intros Hvisit. eapply returns_mono.
  - apply (returns_foldl visit (fun j => wiped bad s t (take j es) sp)).
    + intros va q E. exists q. cbn. split_and!; [done|by split|]. intros Hb. split; [done|]. intros e He. by apply elem_of_nil in He.
    + intros j e sp1 Ej Hw. eapply returns_mono; [apply Hvisit; by eapply list_elem_of_lookup_2|]. intros sp2 Hw2 va q E.
      destruct (Hw2 va q E) as (q1 & E1 & [Hf1 Hp1] & Hb1). destruct (Hw va q1 E1) as (q0 & E0 & [Hf0 Hp0] & Hb0). exists q0.
      split_and!; [done|split; [congruence|auto]|]. intros Hb. destruct (Hb1 Hb) as [Hbad1 Hno1], (Hb0 (proj1 (Hb1 Hb))) as [Hbad0 Hno0]. split; [done|].
      intros e'. rewrite (take_S_r _ _ _ Ej), elem_of_app, list_elem_of_singleton. intros [He| ->]; [by apply Hno0|]. apply Hno1. by left.
  - intros sp' Hw. by rewrite take_ge in Hw by lia.
Qed.

Section walks.
Context `{BF : Bitflags}.

Lemma unmap_entry_spec s t sp e : entry_ok e -> 0 <= s -> t * PAGE_SIZE < u64_modulus ->
  returns (unmap_entry (mkRange (s * PAGE_SIZE) (t * PAGE_SIZE)) sp e) (wiped (fun _ => true) s t [e] sp).
Proof.
  intros He Hs Ht. unfold unmap_entry. eapply returns_bind; [by apply entry_addrs_spec|]. intros [r|] Hr.
  - destruct Hr as [-> Hr]. cbn. apply returns_ret. intros va q E. cbn in E. apply map_lookup_filter_Some in E as [E Hnin]. exists q.
    split_and!; [done|by split|]. intros _. split; [done|]. intros e' ->%list_elem_of_singleton. unfold in_range in Hnin. cbn in Hnin. by rewrite <- Hr.
  - apply returns_ret. intros va q E. exists q. split_and!; [done|by split|]. intros _. split; [done|]. by intros e' ->%list_elem_of_singleton.
Qed.

Lemma frozen_flags fl : Z.testbit (bf_difference fl PageFlags_W) 1 = false.
Proof. rewrite bf_difference_spec by done. unfold PageFlags_W. rewrite Z.pow2_bits_true by done. apply andb_false_r. Qed.

Lemma freeze_entry_spec s t sp e : entry_ok e -> 0 <= s -> t * PAGE_SIZE < u64_modulus ->
  returns (freeze_entry (mkRange (s * PAGE_SIZE) (t * PAGE_SIZE)) sp e) (wiped can_write s t [e] sp).
Proof.
  intros He Hs Ht. unfold freeze_entry. eapply returns_bind; [by apply entry_addrs_spec|]. intros [r|] Hr.
  - destruct Hr as [-> Hr]. cbn. apply returns_ret. intros va q E. cbn [sp_table] in E. unfold cursor_protect in E. rewrite map_lookup_imap in E.
    destruct (sp_table sp !! va) as [q0|] eqn:E0; [|done]. cbn in E. injection E as <-. exists q0. split; [done|]. unfold in_range. cbn [fst].
    destruct (decide _) as [Hin|Hnin].
    + unfold weaker, can_write. cbn [pte_frame pte_flags]. rewrite frozen_flags. done.
    + split; [by split|]. intros Hw. split; [done|]. intros e' ->%list_elem_of_singleton. by rewrite <- Hr.
  - apply returns_ret. intros va q E. exists q. split_and!; [done|by split|]. intros Hw. split; [done|]. by intros e' ->%list_elem_of_singleton.
Qed.

(** Mappings of address spaces that are gone may be dropped, and entries of page tables removed or made
    weaker. *)
Definition remapped (c : Cache) (rm : gmap nat (list RmapEntry)) (sps : gmap nat Space) : Prop :=
  (forall v es, rm !! v = Some es -> vmo_rmap c !! v = Some es) /\
  (forall v es, vmo_rmap c !! v = Some es -> is_Some (spaces c !! v) -> rm !! v = Some es) /\
  (forall v, is_Some (sps !! v) <-> is_Some (spaces c !! v)) /\
  (forall v sp' va q, sps !! v = Some sp' -> sp_table sp' !! va = Some q ->
     exists sp q0, spaces c !! v = Some sp /\ sp_table sp !! va = Some q0 /\ weaker q0 q).

(** The reverse mappings have been followed: no entry for a page from [s] to [t] has the property [bad]. *)
Definition walked (bad : Pte -> bool) (s t : Z) (c : Cache) (rm : gmap nat (list RmapEntry)) (sps : gmap nat Space) : Prop :=
  remapped c rm sps /\
  forall v sp' va q i, sps !! v = Some sp' -> sp_table sp' !! va = Some q -> bad q = true -> shows c v va i -> ~ s <= i < t.

Lemma remapped_refl c : remapped c (vmo_rmap c) (spaces c).
Proof. split_and!; try done. intros v sp va q E Eq. exists sp, q. by split_and!. Qed.

Lemma walk_spec bad s t c visit :
  (forall v es e, vmo_rmap c !! v = Some es -> e ∈ es -> entry_ok e) -> 0 <= s -> t * PAGE_SIZE < u64_modulus ->
  (forall sp e, entry_ok e -> returns (visit sp e) (wiped bad s t [e] sp)) ->
  wp (retain visit (mkRange (s * PAGE_SIZE) (t * PAGE_SIZE))) c (fun r c' => r = Ok tt /\ exists rm sps, c' = with_spaces rm sps c /\ walked bad s t c rm sps).
Proof.
  intros Hent Hs Ht Hvisit.
  apply (retain_spec _ _ (fun v es sp sp' => wiped bad s t es sp sp')).
  - apply multiple_of, Z.divide_factor_r.
  - apply multiple_of, Z.divide_factor_r.
  - intros v es sp Ev _. apply wiped_foldl. intros sp0 e He. apply Hvisit. by eapply Hent.
  - intros r sps Hr Hsps Hdom. split; [done|]. exists r, sps. split; [done|].
    assert (forall v sp' va q, sps !! v = Some sp' -> sp_table sp' !! va = Some q -> exists sp q0, spaces c !! v = Some sp /\ sp_table sp !! va = Some q0 /\ weaker q0 q /\
      (bad q = true -> forall i, shows c v va i -> ~ s <= i < t)) as Hpt.
    { intros v sp' va q Esp' Eq. destruct (Hsps v sp' Esp') as (sp & Esp & HR). exists sp. destruct (vmo_rmap c !! v) as [es|] eqn:Ev.
      - destruct (HR va q Eq) as (q0 & E0 & Hweak & Hbad). exists q0. split_and!; try done. intros Hb i (es' & e & Ees & He & Hva & ->).
        assert (es' = es) as -> by congruence. destruct (Hbad Hb) as [_ Hno]. intros Hi. by apply (Hno e He).
      - subst sp'. exists q. split_and!; try done. intros _ i (es' & e & Ees & _). congruence. }
    split; [split_and!; try done|].
    + intros v es E. by apply Hr.
    + intros v es E Hs'. by apply Hr.
    + intros v sp' va q E Eq. destruct (Hpt v sp' va q E Eq) as (sp & q0 & ? & ? & ? & _). by exists sp, q0.
    + intros v sp' va q i E Eq Hb. destruct (Hpt v sp' va q E Eq) as (sp & q0 & ? & ? & ? & Hbad). by apply Hbad.
Qed.

Lemma Rmap_unmap_spec s t c : (forall v es e, vmo_rmap c !! v = Some es -> e ∈ es -> entry_ok e) -> 0 <= s -> t * PAGE_SIZE < u64_modulus ->
  wp (Rmap_unmap (mkRange (s * PAGE_SIZE) (t * PAGE_SIZE))) c (fun r c' => r = Ok tt /\ exists rm sps, c' = with_spaces rm sps c /\ walked (fun _ => true) s t c rm sps).
Proof. intros Hent Hs Ht. apply walk_spec; try done. intros sp e He. by apply unmap_entry_spec. Qed.

Lemma Rmap_freeze_spec s t c : (forall v es e, vmo_rmap c !! v = Some es -> e ∈ es -> entry_ok e) -> 0 <= s -> t * PAGE_SIZE < u64_modulus ->
  wp (Rmap_freeze (mkRange (s * PAGE_SIZE) (t * PAGE_SIZE))) c (fun r c' => r = Ok tt /\ exists rm sps, c' = with_spaces rm sps c /\ walked can_write s t c rm sps).
Proof. intros Hent Hs Ht. apply walk_spec; try done. intros sp e He. by apply freeze_entry_spec. Qed.
End walks.

(** ** Collecting and removing pages *)

Definition select (sel : PageSelection) (p : CachePage) : bool :=
  match sel with SelectFlush => is_dirty (page_state p) | SelectEvict => is_up_to_date (page_state p) end.

(** The pages of the cache from [s] to [t] that meet a condition. *)
Definition selected (c : Cache) (s t : Z) (cond : CachePage -> bool) (l : list (Z * nat)) : Prop :=
  NoDup l.*1 /\ forall i f, (i, f) ∈ l <-> vmo_pages c !! i = Some f /\ s <= i < t /\ exists p, frames c !! f = Some p /\ cond p = true.

Lemma should_collect_spec c i f p sel : wf c -> vmo_pages c !! i = Some f -> frames c !! f = Some p ->
  wp (should_collect sel f) c (fun r c' => r = Ok (select sel p) /\ c' = c).
Proof.
  intros H Ei Ef. destruct (wf_page _ H i f Ei) as (p' & Ef' & Hl & Hwb & _). assert (p' = p) as -> by congruence.
  unfold should_collect, select. pc. destruct sel; [|by pc]. destruct (page_state p); cbn [is_dirty is_uninit]; pc; try done.
  all: cbn [with_lock is_writing_back]; rewrite Hwb; split; [done|]; apply put_id; rewrite Ef; f_equal; by destruct p; cbn in *; subst.
Qed.

Lemma selected_snoc (P : Z -> nat -> Prop) (l : list (Z * nat)) s k f :
  NoDup l.*1 -> (forall i g, (i, g) ∈ l <-> P i g /\ s <= i < k) -> P k f -> (forall g, P k g -> g = f) -> s <= k ->
  NoDup (l ++ [(k, f)]).*1 /\ forall i g, (i, g) ∈ l ++ [(k, f)] <-> P i g /\ s <= i < k + 1.
Proof.
  intros Hnd Hl HP Hu Hk. split.
  - rewrite fmap_app. apply NoDup_app. split_and!; [done| |apply NoDup_singleton]. intros i ([i' g] & -> & Hin)%list_elem_of_fmap Hin2. cbn in Hin2.
    apply list_elem_of_singleton in Hin2 as ->. apply Hl in Hin as [_ ?]. cbn in *. lia.
  - intros i g. rewrite elem_of_app, Hl, list_elem_of_singleton. split.
    + intros [[HP' Hi]|[= -> ->]]; [split; [done|lia]|split; [done|lia]].
    + intros [HP' Hi]. destruct (decide (i = k)) as [->|]; [right; by rewrite (Hu g HP')|left; split; [done|lia]].
Qed.

Lemma selected_skip (P : Z -> nat -> Prop) (l : list (Z * nat)) s k k' :
  (forall i g, (i, g) ∈ l <-> P i g /\ s <= i < k) -> k <= k' -> (forall i g, k <= i < k' -> ~ P i g) -> forall i g, (i, g) ∈ l <-> P i g /\ s <= i < k'.
Proof.
  intros Hl Hk Hno i g. rewrite Hl. split; [intros [? ?]; split; [done|lia]|]. intros [HP Hi]. split; [done|].
  destruct (decide (i < k)); [lia|]. destruct (Hno i g); [lia|done].
Qed.

Lemma collect_pages_if_spec c s t sel : wf c ->
  wp (collect_pages_if (mkRange s t) sel) c (fun r c' => c' = c /\ exists l, r = Ok l /\ selected c s t (select sel) l).
Proof.
  intros H. unfold collect_pages_if. cbn [r_start r_end]. destruct (Z.leb_spec t s) as [Hle|Hlt].
  { pc. split; [done|]. exists []. split; [done|]. split; [constructor|]. intros i f. split; [intros Hin; by apply elem_of_nil in Hin|lia]. }
  set (P := fun i f => vmo_pages c !! i = Some f /\ exists p, frames c !! f = Some p /\ select sel p = true).
  apply (wp_walk _ _ (dom (vmo_pages c)) (fun k l c' => c' = c /\ NoDup l.*1 /\ forall i f, (i, f) ∈ l <-> P i f /\ s <= i < k)); cbn [r_start r_end]; try done.
  - split_and!; [done|constructor|]. intros i f. split; [intros Hin; by apply elem_of_nil in Hin|lia].
  - intros k l c' Hk (-> & Hnd & Hl). unfold load. pc. destruct (vmo_pages c !! k) as [f|] eqn:Ek.
    + destruct (wf_page _ H k f Ek) as (p & Ef & _). apply wp_bind. eapply wp_mono; [by apply (should_collect_spec c k f p)|]. intros r c' [-> ->]. pc. split; [done|].
      destruct (select sel p) eqn:Esel.
      * apply selected_snoc; try done; [split; [done|by exists p]| |lia]. intros g [Eg _]. congruence.
      * split; [done|]. eapply selected_skip; [exact Hl|lia|]. intros i g Hi [Eg (q & Eq & Hq)]. assert (i = k) as -> by lia. congruence.
    + pc. split_and!; try done. eapply selected_skip; [exact Hl|lia|]. intros i g Hi [Eg _]. assert (i = k) as -> by lia. congruence.
  - by intros k l c' (-> & _).
  - intros k k' l c' (-> & Hnd & Hl) Hk Hgap. split_and!; try done. eapply selected_skip; [exact Hl|done|]. intros i g Hi [Eg _].
    destruct (Hgap i Hi). apply elem_of_dom. by exists g.
  - intros l c' (-> & Hnd & Hl). split; [done|]. exists l. split; [done|]. split; [done|]. intros i f. rewrite Hl. unfold P. naive_solver.
Qed.

(** ** Writing pages back *)

(** The parts of the state that writing pages back does not touch. *)
Definition same_object (c c' : Cache) : Prop :=
  next_frame c' = next_frame c /\ vmo_pages c' = vmo_pages c /\ vmo_size c' = vmo_size c /\ vmo_flags c' = vmo_flags c /\
  vmo_backend c' = vmo_backend c /\ vmo_rmap c' = vmo_rmap c /\ spaces c' = spaces c.

Lemma same_object_trans c1 c2 c3 : same_object c1 c2 -> same_object c2 c3 -> same_object c1 c3.
Proof. unfold same_object. intros (? & ? & ? & ? & ? & ? & ?) (? & ? & ? & ? & ? & ? & ?). split_and!; congruence. Qed.

(** The pages of the frames in [F] have changed by [g]. *)
Definition changed (g : CachePage -> CachePage) (F : list nat) (c c' : Cache) : Prop :=
  forall f, frames c' !! f = (if decide (f ∈ F) then g <$> frames c !! f else frames c !! f).

Lemma changed_nil g c c' : frames c' = frames c -> changed g [] c c'.
Proof. intros E f. by rewrite E. Qed.

Lemma changed_cons g f F c c1 c2 p : frames c !! f = Some p -> frames c1 = <[f := g p]> (frames c) -> f ∉ F -> changed g F c1 c2 -> changed g (f :: F) c c2.
Proof.
  intros Ef E1 Hf H2 h. rewrite (H2 h), E1. destruct (decide (h = f)) as [->|Hne].
  - rewrite decide_False by done. rewrite decide_True by (by left). by rewrite lookup_insert_eq, Ef.
  - rewrite lookup_insert_ne by done. destruct (decide (h ∈ F)); [by rewrite decide_True by (by right)|].
    rewrite decide_False; [done|]. by intros [->|?]%elem_of_cons.
Qed.

Lemma changed_snoc g f F c c1 c2 p : frames c !! f = Some p -> changed g F c c1 -> f ∉ F -> frames c2 = <[f := g p]> (frames c1) -> changed g (F ++ [f]) c c2.
Proof.
  intros Ef H1 Hf E2 h. rewrite E2. destruct (decide (h = f)) as [->|Hne].
  - rewrite decide_True by (apply elem_of_app; right; by left). by rewrite lookup_insert_eq, Ef.
  - rewrite lookup_insert_ne, (H1 h) by done. destruct (decide (h ∈ F)); [by rewrite decide_True by (apply elem_of_app; by left)|].
    rewrite decide_False; [done|]. by intros [?|?%list_elem_of_singleton]%elem_of_app.
Qed.

Definition data_of (c : Cache) (f : nat) : list Z := match frames c !! f with Some p => page_data p | None => [] end.

Section writeback.
Context `{BF : Bitflags} (env : Env).
Hypothesis (Henv : env_ok env).

Lemma wp_not_writing_back f p c (Q : result unit -> Cache -> Prop) :
  frames c !! f = Some p -> is_writing_back p = false -> Q (Ok tt) c -> wp (wait_until_finish_writing_back env f) c Q.
Proof.
  intros Ef Hwb HQ. unfold wait_until_finish_writing_back.
  match goal with |- wp (fun c => while_fuel _ ?body tt c) _ _ => change (wp (while_fuel (S (length (bios c))) body tt) c Q) end.
  cbn [while_fuel]. pc. rewrite Hwb. by pc.
Qed.

(** A page that is locked and not being written back. *)
Definition locked (c : Cache) (f : nat) : Prop := exists p, frames c !! f = Some p /\ page_lock p = true /\ is_writing_back p = false.

Definition in_flight (p : CachePage) : CachePage := mkPage UpToDate false true (page_data p).

(** The requests for pages, numbered from [t] on. *)
Fixpoint bios_from (c : Cache) (t : nat) (l : list (Z * nat)) : list Bio :=
  match l with
  | [] => []
  | (i, f) :: l => mkBio t BioWrite i f (data_of c f) :: bios_from c (S t) l
  end.

Lemma bios_from_ext c c' t l : (forall i f, (i, f) ∈ l -> data_of c' f = data_of c f) -> bios_from c' t l = bios_from c t l.
Proof.
  revert t. induction l as [|[i f] l IH]; intros t H; [done|]. cbn. rewrite (H i f) by (by left). f_equal. apply IH. intros j g Hj. apply (H j). by right.
Qed.

(** The pages in [l] have been handed to the device. *)
Definition submitted (l : list (Z * nat)) (c c' : Cache) : Prop :=
  same_object c c' /\ disk c' = disk c /\ clock c' = (clock c + length l)%nat /\ changed in_flight l.*2 c c' /\ bios c' = bios c ++ bios_from c (clock c) l.

Lemma submitted_nil c : submitted [] c c.
Proof. unfold submitted. split_and!; try done. by rewrite app_nil_r. Qed.

Lemma submitted_app l1 l2 c c1 c2 : NoDup (l1 ++ l2).*2 -> submitted l1 c c1 -> submitted l2 c1 c2 -> submitted (l1 ++ l2) c c2.
Proof.
  intros Hnd (S1 & D1 & T1 & F1 & B1) (S2 & D2 & T2 & F2 & B2). rewrite fmap_app in Hnd. apply NoDup_app in Hnd as (_ & Hdis & _).
  unfold submitted. split_and!; [by eapply same_object_trans|congruence|rewrite length_app; lia| |].
  - intros f. rewrite (F2 f), (F1 f), fmap_app. destruct (decide (f ∈ l2.*2)) as [H2|H2].
    + rewrite (decide_True _ _ (proj2 (elem_of_app _ _ _) (or_intror H2))). rewrite decide_False; [done|]. intros H1. by apply (Hdis f).
    + destruct (decide (f ∈ l1.*2)) as [H1|H1]; [by rewrite decide_True by (apply elem_of_app; by left)|].
      rewrite decide_False; [done|]. by intros [?|?]%elem_of_app.
  - rewrite B2, B1, <- app_assoc. f_equal. assert (forall l t, bios_from c t (l1 ++ l) = bios_from c t l1 ++ bios_from c (t + length l1) l) as Happ.
    { clear. induction l1 as [|[i f] l1 IH]; intros l t; cbn; [by rewrite Nat.add_0_r|]. rewrite IH. by rewrite Nat.add_succ_r. }
    rewrite Happ, T1. f_equal. apply bios_from_ext. intros i f Hin. unfold data_of. rewrite (F1 f), decide_False; [done|].
    intros H1. apply (Hdis f); [done|]. apply list_elem_of_fmap. by exists (i, f).
Qed.

Lemma submitted_locked l c c' f : submitted l c c' -> f ∉ l.*2 -> locked c f -> locked c' f.
Proof. intros (_ & _ & _ & F & _) Hf (p & Ef & Hp). exists p. by rewrite (F f), decide_False. Qed.

Lemma write_page_async_spec i f batch c : locked c f ->
  wp (write_page_async env i f batch) c (fun r c' => r = Ok (Ok tt, batch ++ [clock c]) /\ submitted [(i, f)] c c').
Proof.
  intros (p & Ef & Hl & Hwb). unfold write_page_async, prepare_write_page. apply wp_bind, wp_bind. eapply wp_not_writing_back; [done..|]. pc.
  unfold submit_write_bio. pc. rewrite (ok_write _ Henv). unfold submit. pc. cbn [is_ok]. pc. split; [done|]. unfold submitted. split_and!; try done; [cbn; lia| |].
  - apply (changed_cons in_flight f [] c (put f (in_flight p) c) _ p); [done|done|apply not_elem_of_nil|]. by apply changed_nil.
  - cbn. f_equal. f_equal. unfold data_of. by rewrite Ef.
Qed.

Lemma write_pages_async_spec l : forall batch c, NoDup l.*2 -> (forall i f, (i, f) ∈ l -> locked c f) ->
  wp (write_pages_async env l batch) c (fun r c' => r = Ok (Ok tt, batch ++ seq (clock c) (length l), []) /\ submitted l c c').
Proof.
  induction l as [|[i f] l IH]; intros batch c Hnd Hl; cbn [write_pages_async].
  { pc. split; [by rewrite app_nil_r|apply submitted_nil]. }
  apply NoDup_cons in Hnd as [Hf Hnd']. apply wp_bind. eapply wp_mono; [apply write_page_async_spec, (Hl i); by left|]. intros r c1 [-> Hs1]. cbn beta iota.
  assert (clock c1 = S (clock c)) as Et by (destruct Hs1 as (_ & _ & -> & _); cbn; lia).
  eapply wp_mono; [apply IH; [done|]|].
  - intros j g Hj. eapply submitted_locked; [exact Hs1| |apply (Hl j); by right]. intros Hg. cbn in Hg.
    apply list_elem_of_singleton in Hg as ->. apply Hf, list_elem_of_fmap. by exists (j, f).
  - intros r c2 [-> Hs2]. split; [cbn [length seq]; by rewrite Et, <- app_assoc|]. apply (submitted_app [(i, f)] l c c1 c2); try done. by constructor.
Qed.

Lemma flush_runs_spec runs : forall batch c, NoDup (concat runs).*2 -> (forall i f, (i, f) ∈ concat runs -> locked c f) ->
  wp (flush_runs env runs batch) c (fun r c' => r = Ok (batch ++ seq (clock c) (length (concat runs))) /\ submitted (concat runs) c c').
Proof.
  induction runs as [|l runs IH]; intros batch c Hnd Hl.
  { cbn. pc. split; [by rewrite app_nil_r|apply submitted_nil]. }
  cbn [concat] in *. pose proof Hnd as Hnd0. rewrite fmap_app in Hnd. apply NoDup_app in Hnd as (Hnd1 & Hdis & Hnd2).
  assert (forall b1 c1, b1 = batch ++ seq (clock c) (length l) -> submitted l c c1 ->
    wp (flush_runs env runs b1) c1 (fun r c' => r = Ok (batch ++ seq (clock c) (length (l ++ concat runs))) /\ submitted (l ++ concat runs) c c')) as Hrest.
  { intros b1 c1 -> Hs1. assert (clock c1 = clock c + length l)%nat as Et by (by destruct Hs1 as (_ & _ & -> & _)). eapply wp_mono; [apply IH; [done|]|].
    - intros j g Hj. eapply submitted_locked; [exact Hs1| |apply (Hl j), elem_of_app; by right]. intros Hg. apply (Hdis g Hg), list_elem_of_fmap. by exists (j, g).
    - intros r c2 [-> Hs2]. split; [by rewrite Et, length_app, seq_app, <- app_assoc|]. by apply (submitted_app l (concat runs) c c1). }
  assert (forall i f, (i, f) ∈ l -> locked c f) as Hl1 by (intros i f Hi; apply (Hl i), elem_of_app; by left).
  assert (wp ('(r, b, rest) ← write_pages_async env l batch;
      match r with
      | Ok _ => flush_runs env runs b
      | Err e => _ ← for_each rest (fun '(_, f) => _ ← set_dirty f; unlock_page f); _ ← outcome (wait_all env b); _ ← unlock_all (concat runs); throw e
      end) c (fun r c' => r = Ok (batch ++ seq (clock c) (length (l ++ concat runs))) /\ submitted (l ++ concat runs) c c')) as Hmulti.
  { apply wp_bind. eapply wp_mono; [by apply write_pages_async_spec|]. intros r c1 [-> Hs1]. by apply Hrest. }
  destruct l as [|[i f] [|x l]]; cbn [flush_runs]; [exact Hmulti| |exact Hmulti].
  apply wp_bind. eapply wp_mono; [apply write_page_async_spec, (Hl1 i); by left|]. intros r c1 [-> Hs1]. by apply Hrest.
Qed.

Lemma concat_chunks l : concat (chunk_by_next l) = l.
Proof.
  induction l as [|[i f] l IH]; [done|]. cbn. destruct (chunk_by_next l) as [|[|[j g] r] rs]; cbn in *; [by rewrite <- IH|by rewrite IH|].
  destruct (i + 1 =? j); cbn; by rewrite IH.
Qed.

(** The pages in [l] have reached the storage. *)
Definition settled (l : list (Z * nat)) (c c' : Cache) : Prop :=
  same_object c c' /\ changed (with_writing_back false) l.*2 c c' /\ bios c' = [] /\
  (forall i f, (i, f) ∈ l -> disk_page c' i = data_of c f) /\ (forall i, i ∉ l.*1 -> disk_page c' i = disk_page c i).

Lemma bios_from_above c t t' l : (t < t')%nat -> filter (fun b => bio_id b <> t) (bios_from c t' l) = bios_from c t' l.
Proof.
  revert t'. induction l as [|[i f] l IH]; intros t' Ht; [done|]. cbn [bios_from]. rewrite filter_cons_True by (cbn; lia). f_equal. apply IH. lia.
Qed.

Lemma wp_wait_write t i f d rest p c (Q : result unit -> Cache -> Prop) : bios c = mkBio t BioWrite i f d :: rest -> frames c !! f = Some p ->
  Q (Ok tt) (with_io (<[i := env_dma env t d (page_data p)]> (disk c)) (filter (fun b => bio_id b <> t) (bios c)) (<[t := BioComplete]> (statuses c))
    (put f (with_writing_back false p) c)) ->
  wp (wait_bio env t) c Q.
Proof.
  intros Hb Ef HQ. unfold wait_bio. pc. rewrite Hb. cbn [find_first bio_id]. rewrite Nat.eqb_refl.
  eapply wp_complete_write; [done|done|exact Ef|]. cbn [bio_id bio_frame bio_idx bio_data]. pc. cbn [statuses with_io]. rewrite lookup_insert_eq. pc. exact HQ.
Qed.

Lemma wait_all_spec l : forall c t, NoDup l.*1 -> NoDup l.*2 -> bios c = bios_from c t l -> (forall i f, (i, f) ∈ l -> is_Some (frames c !! f)) ->
  wp (wait_all env (seq t (length l))) c (fun r c' => r = Ok tt /\ settled l c c').
Proof.
  intros c t Hn1 Hn2 Hb Hf. unfold wait_all.
  apply wp_bind. apply (wp_mono _ _ (fun r c' => r = Ok None /\ settled l c c')); [|intros r c' [-> Hs]; by pc].
  revert c t Hn1 Hn2 Hb Hf. induction l as [|[i f] l IH]; intros c t Hn1 Hn2 Hb Hf; cbn [length seq for_fold].
  { pc. split; [done|]. unfold settled. split_and!; try done. intros i f Hin. by apply elem_of_nil in Hin. }
  apply NoDup_cons in Hn1 as [Hi Hn1]. apply NoDup_cons in Hn2 as [Hf2 Hn2]. destruct (Hf i f) as [p Ef]; [by left|].
  pc. eapply (wp_wait_write t i f); [exact Hb|exact Ef|]. pc.
  set (c1 := with_io _ _ _ _).
  assert (data_of c f = page_data p) as Ed by (unfold data_of; by rewrite Ef).
  assert (forall g, data_of c1 g = data_of c g) as Hdata.
  { intros g. unfold data_of. cbn. destruct (decide (g = f)) as [->|]; [by rewrite lookup_insert_eq, Ef|by rewrite lookup_insert_ne]. }
  eapply wp_mono; [apply (IH c1 (S t)); try done|].
  - cbn. rewrite Hb. cbn [bios_from]. rewrite filter_cons_False by (cbn; tauto). rewrite bios_from_above by lia. symmetry. by apply bios_from_ext.
  - intros j g Hj. cbn. destruct (decide (g = f)) as [->|]; [rewrite lookup_insert_eq; by eexists|rewrite lookup_insert_ne by done]. apply (Hf j). by right.
  - intros r c2 [-> (S2 & F2 & B2 & D2 & E2)]. split; [done|]. unfold settled. split; [done|]. split; [|split; [done|split]].
    + change (((i, f) :: l).*2) with (f :: l.*2). by apply (changed_cons (with_writing_back false) f l.*2 c c1 c2 p).
    + intros j g [[= -> ->]|Hj]%elem_of_cons; [|by rewrite (D2 j g Hj)]. rewrite E2 by done. unfold disk_page. cbn. rewrite lookup_insert_eq. cbn.
      by rewrite Ed, (ok_dma _ Henv).
    + intros j Hj. cbn in Hj. apply not_elem_of_cons in Hj as [Hji Hj]. rewrite E2 by done. unfold disk_page. cbn. by rewrite lookup_insert_ne.
Qed.
End writeback.

(** ** Flushing *)

Lemma selected_frames c s t cond l : wf c -> selected c s t cond l -> NoDup l.*2.
Proof.
  intros H [Hnd Hl]. apply NoDup_alt. intros j k f Ej Ek. rewrite list_lookup_fmap in Ej, Ek.
  destruct (l !! j) as [[i1 f1]|] eqn:E1; [|done]. destruct (l !! k) as [[i2 f2]|] eqn:E2; [|done]. cbn in Ej, Ek. injection Ej as ->. injection Ek as ->.
  assert (i1 = i2) as ->.
  { apply (wf_inj _ H i1 i2 f); [apply (Hl i1 f)|apply (Hl i2 f)]; by eapply list_elem_of_lookup_2. }
  eapply (NoDup_lookup l.*1); [done|rewrite list_lookup_fmap, E1; done|rewrite list_lookup_fmap, E2; done].
Qed.

(** The frame of a page is selected if the page is. *)
Lemma selected_inj c s t cond l i f : wf c -> selected c s t cond l -> vmo_pages c !! i = Some f -> f ∈ l.*2 -> (i, f) ∈ l.
Proof.
  intros H [_ Hl] Ei ([j g] & -> & Hin)%list_elem_of_fmap. cbn in *. destruct (proj1 (Hl j g) Hin) as (Ej & _). by rewrite (wf_inj _ H i j g Ei Ej).
Qed.

Lemma selected_idx c s t cond l i f : selected c s t cond l -> vmo_pages c !! i = Some f -> i ∈ l.*1 -> (i, f) ∈ l.
Proof. intros [_ Hl] Ei ([j g] & -> & Hin)%list_elem_of_fmap. cbn in *. destruct (proj1 (Hl j g) Hin) as (Ej & _). congruence. Qed.

(** The pages of a loop over [l], without those before position [j]. *)
Lemma take_fresh (l : list (Z * nat)) j i f : NoDup l.*1 -> NoDup l.*2 -> l !! j = Some (i, f) -> i ∉ (take j l).*1 /\ f ∉ (take j l).*2.
Proof.
  intros Hn1 Hn2 Ej. split; [exact (take_fmap_fresh fst l j (i, f) Hn1 Ej)|exact (take_fmap_fresh snd l j (i, f) Hn2 Ej)].
Qed.

Definition lock_clean (p : CachePage) : CachePage := mkPage UpToDate true (is_writing_back p) (page_data p).

Lemma mark_pages_spec c s t l : wf c -> selected c s t (select SelectFlush) l ->
  wp (mark_pages l) c (fun r c' => r = Ok (l, []) /\ c' = with_frames (frames c') c /\ changed lock_clean l.*2 c c').
Proof.
  intros H Hsel. pose proof (selected_frames _ _ _ _ _ H Hsel) as Hn2. destruct Hsel as [Hn1 Hl]. unfold mark_pages.
  apply (wp_for_fold _ _ (fun j b c' => b = (take j l, []) /\ c' = with_frames (frames c') c /\ changed lock_clean (take j l).*2 c c')).
  - split_and!; [done|by destruct c|by apply changed_nil].
  - intros j [i f] [dirty maybe] c1 Ej ([= -> ->] & E1 & Hch). assert ((i, f) ∈ l) as Hin by (by eapply list_elem_of_lookup_2).
    destruct (proj1 (Hl i f) Hin) as (Ei & _ & p & Ef & Hp). cbn in Hp. destruct (wf_page _ H i f Ei) as (p' & Ef' & Hlk & _). assert (p' = p) as -> by congruence.
    destruct (take_fresh l j i f Hn1 Hn2 Ej) as [_ Hf].
    assert (frames c1 !! f = Some p) as Ef1 by (by rewrite (Hch f), decide_False). pc. rewrite Hp. cbn [negb]. pc. cbn [with_lock page_state]. rewrite Hp. pc.
    split_and!; [by rewrite (take_S_r _ _ _ Ej)| |].
    + rewrite E1. done.
    + rewrite (take_S_r _ _ _ Ej), fmap_app. by apply (changed_snoc lock_clean f _ c c1 _ p).
  - intros b c' (-> & ? & ?). rewrite take_ge in * by lia. done.
Qed.

Lemma remapped_shows c c' v va i : remapped c (vmo_rmap c') (spaces c') -> shows c' v va i -> shows c v va i.
Proof. intros (Hr & _) (es & e & Ev & Hs). exists es, e. split; [|done]. by apply Hr. Qed.

Lemma changed_trans g1 g2 F c c1 c2 : changed g1 F c c1 -> changed g2 F c1 c2 -> changed (g2 ∘ g1) F c c2.
Proof. intros H1 H2 f. rewrite (H2 f), (H1 f). destruct (decide (f ∈ F)); [by rewrite option_fmap_compose|done]. Qed.

Lemma changed_ext g g' F c c' : (forall f p, f ∈ F -> frames c !! f = Some p -> g p = g' p) -> changed g F c c' -> changed g' F c c'.
Proof. intros Hg H f. rewrite (H f). destruct (decide (f ∈ F)) as [Hf|]; [|done]. destruct (frames c !! f) as [p|] eqn:E; [|done]. cbn. f_equal. by eapply Hg. Qed.

Lemma changed_data g F c c' : (forall p, page_data (g p) = page_data p) -> changed g F c c' -> forall f, data_of c' f = data_of c f.
Proof. intros Hg H f. unfold data_of. rewrite (H f). destruct (decide (f ∈ F)); [|done]. destruct (frames c !! f); cbn; auto. Qed.

(** What flushing the pages from [s] to [t] does: the file is the same, and it is on the storage. *)
Definition flushed (s t : Z) (c c' : Cache) : Prop :=
  wf c' /\ vmo_size c' = vmo_size c /\ vmo_flags c' = vmo_flags c /\ vmo_backend c' = vmo_backend c /\
  remapped c (vmo_rmap c') (spaces c') /\ (forall i, file_page c' i = file_page c i) /\
  (forall i, s <= i < t -> disk_page c' i = file_page c i) /\ (forall i, ~ s <= i < t -> disk_page c' i = disk_page c i).

Definition clean_page (p : CachePage) : CachePage := mkPage UpToDate false false (page_data p).

Section flushed.
Context (c c' : Cache) (s t : Z) (l : list (Z * nat)).
Hypothesis (H : wf c) (Hb : backed c = true) (Hsel : selected c s t (select SelectFlush) l).
Hypothesis (Hobj : next_frame c' = next_frame c /\ vmo_pages c' = vmo_pages c /\ vmo_size c' = vmo_size c /\ vmo_flags c' = vmo_flags c /\ vmo_backend c' = vmo_backend c).
Hypothesis (Hch : changed clean_page l.*2 c c') (Hbios : bios c' = []) (Hwalk : walked can_write s t c (vmo_rmap c') (spaces c')).
Hypothesis (Hd1 : forall i f, (i, f) ∈ l -> disk_page c' i = data_of c f) (Hd2 : forall i, i ∉ l.*1 -> disk_page c' i = disk_page c i).

Lemma flushed_disk i f p : vmo_pages c !! i = Some f -> frames c !! f = Some p -> f ∉ l.*2 -> disk_page c' i = disk_page c i.
Proof. intros Ei Ef Hf. apply Hd2. intros Hi. apply Hf, list_elem_of_fmap. exists (i, f). split; [done|]. by eapply selected_idx. Qed.

Lemma flushed_page i f : vmo_pages c !! i = Some f -> exists p p', frames c !! f = Some p /\ frames c' !! f = Some p' /\
  page_data p' = page_data p /\ page_ok (Some (disk_page c' i)) p' /\ (page_state p' = Uninit <-> page_state p = Uninit) /\
  (page_state p' <> Dirty \/ (~ s <= i < t)) /\ (page_state p = Dirty -> ~ s <= i < t -> page_state p' = Dirty).
Proof.
  intros Ei. destruct (wf_page _ H i f Ei) as (p & Ef & Hl & Hwb & Hlen & Hev & Hcl). unfold disk_of in Hcl. rewrite Hb in Hcl.
  exists p. destruct (decide (f ∈ l.*2)) as [Hin|Hnin].
  - pose proof (selected_inj _ _ _ _ _ i f H Hsel Ei Hin) as Hil. destruct Hsel as [_ Hl']. destruct (proj1 (Hl' i f) Hil) as (_ & Hi & p' & Ef' & Hp').
    assert (p' = p) as -> by congruence. cbn in Hp'. exists (clean_page p). rewrite (Hch f), decide_True, Ef by done.
    split; [done|]. split; [done|]. split; [done|]. split; [|split; [|split; [by left|]]].
    + unfold page_ok. cbn. split_and!; try done. intros _. rewrite (Hd1 i f Hil). unfold data_of. by rewrite Ef.
    + cbn. by destruct (page_state p).
    + done.
  - exists p. rewrite (Hch f), decide_False by done. split; [done|]. split; [done|]. split; [done|]. split; [|split; [done|split; [|done]]].
    + unfold page_ok. split_and!; try done. intros Hu. rewrite (flushed_disk i f p) by done. by apply Hcl.
    + destruct (decide (page_state p = Dirty)) as [Ed|]; [|by left]. right. intros Hi. apply Hnin, list_elem_of_fmap. exists (i, f). split; [done|].
      destruct Hsel as [_ Hl']. apply Hl'. split; [done|]. split; [done|]. exists p. split; [done|]. cbn. by rewrite Ed.
Qed.

Lemma flushed_backed : backed c' = true.
Proof. destruct Hobj as (_ & _ & _ & _ & E). unfold backed. rewrite E. exact Hb. Qed.

Lemma flushed_wf : wf c'.
Proof.
  destruct Hobj as (On & Op & Os & Of & Ob). pose proof flushed_backed as Hb'. constructor.
  - rewrite Os. apply H.
  - rewrite Ob. apply H.
  - intros i f. rewrite Op, Os. apply (wf_index _ H).
  - intros i j f. rewrite Op. apply (wf_inj _ H).
  - intros i f. rewrite Op. intros Ei. destruct (flushed_page i f Ei) as (p & p' & _ & Ef' & _ & Hok & _). exists p'. split; [done|]. unfold disk_of. by rewrite Hb'.
  - intros f p'. rewrite (Hch f), On. intros E. destruct (frames c !! f) as [p|] eqn:Ef; [by eapply (wf_next _ H)|]. by destruct (decide _).
  - intros i. destruct (decide (i ∈ l.*1)) as [([j f] & -> & Hin)%list_elem_of_fmap|Hnin]; [|rewrite (Hd2 i Hnin); apply (wf_disk _ H)].
    cbn. rewrite (Hd1 j f Hin). destruct Hsel as [_ Hl']. destruct (proj1 (Hl' j f) Hin) as (Ej & _). destruct (wf_page _ H j f Ej) as (p & Ef & _ & _ & Hlen & _).
    unfold data_of. by rewrite Ef.
  - done.
  - intros v es e Ev. destruct Hwalk as ((Hr & _) & _). apply (wf_rmap _ H v es). by apply Hr.
  - intros v sp' va q i Esp Eq Hsh. destruct Hwalk as [Hre Hbad]. pose proof (remapped_shows _ _ _ _ _ Hre Hsh) as Hsh0.
    destruct Hre as (_ & _ & _ & Hpt). destruct (Hpt v sp' va q Esp Eq) as (sp & q0 & Esp0 & Eq0 & [Hfr Hcw]). destruct (wf_pte _ H v sp va q0 i Esp0 Eq0 Hsh0) as (p & Ei & Ef & Hu & Hw).
    destruct (flushed_page i _ Ei) as (p1 & p' & Ef1 & Ef' & _ & _ & Huu & _ & Hdd). assert (p1 = p) as -> by congruence. exists p'. rewrite Op, Hfr.
    split_and!; try done; [tauto|]. intros Hq. apply Hdd; [by apply Hw, Hcw|by eapply Hbad].
Qed.

Lemma flushed_file i : file_page c' i = file_page c i.
Proof.
  destruct Hobj as (_ & Op & _). unfold file_page, backing. rewrite flushed_backed, Hb, Op. destruct (vmo_pages c !! i) as [f|] eqn:Ei.
  - destruct (flushed_page i f Ei) as (p & p' & Ef & -> & Hd & Hok & Hu & _). rewrite Ef. destruct (is_uninit (page_state p)) eqn:E.
    + assert (page_state p = Uninit) as Eu by (by destruct (page_state p)). rewrite (proj2 Hu Eu). cbn. apply Hd2. intros Hi.
      pose proof (selected_idx _ _ _ _ _ i f Hsel Ei Hi) as Hin. destruct Hsel as [_ Hl']. destruct (proj1 (Hl' i f) Hin) as (_ & _ & q & Eq & Hq).
      assert (q = p) as -> by congruence. cbn in Hq. by rewrite Eu in Hq.
    + assert (page_state p' <> Uninit) as Hn' by (intros E'; apply Hu in E'; by rewrite E' in E). by destruct (page_state p').
  - apply Hd2. intros ([j f] & -> & Hin)%list_elem_of_fmap. destruct Hsel as [_ Hl']. destruct (proj1 (Hl' j f) Hin) as (Ej & _). cbn in Ei. congruence.
Qed.
End flushed.

(** A clean page of a file with a backend is on the storage. *)
Lemma clean_on_disk c i : wf c -> backed c = true -> (forall f p, vmo_pages c !! i = Some f -> frames c !! f = Some p -> page_state p <> Dirty) ->
  disk_page c i = file_page c i.
Proof.
  intros H Hb Hnd. unfold file_page, backing. rewrite Hb. destruct (vmo_pages c !! i) as [f|] eqn:Ei; [|done].
  destruct (wf_page _ H i f Ei) as (p & Ef & _ & _ & _ & Hev & Hcl). unfold disk_of in Hcl. rewrite Hb in Hcl. rewrite Ef.
  specialize (Hnd f p eq_refl Ef). destruct (page_state p); cbn; try done. symmetry. by apply Hcl.
Qed.

Lemma flushed_refl s t c : wf c -> backed c = true -> (forall i f p, s <= i < t -> vmo_pages c !! i = Some f -> frames c !! f = Some p -> page_state p <> Dirty) -> flushed s t c c.
Proof.
  intros H Hb Hnd. unfold flushed. split_and!; try done; [apply remapped_refl|]. intros i Hi. apply clean_on_disk; [done..|]. intros f p. by apply Hnd.
Qed.

Section flush.
Context `{BF : Bitflags} (env : Env).
Hypothesis (Henv : env_ok env).

Lemma byte_range_eq s t : s * PAGE_SIZE < u64_modulus -> t * PAGE_SIZE < u64_modulus -> byte_range (mkRange s t) = Ret (mkRange (s * PAGE_SIZE) (t * PAGE_SIZE)).
Proof. intros Hs Ht. unfold byte_range. cbn [r_start r_end]. by rewrite !umul_eq. Qed.

(** The second half of [flush_dirty_pages], when the pages are marked. *)
Lemma write_back_spec c c1 s t l : wf c -> backed c = true -> selected c s t (select SelectFlush) l -> c1 = with_frames (frames c1) c -> changed lock_clean l.*2 c c1 ->
  0 <= s -> s * PAGE_SIZE < u64_modulus -> t * PAGE_SIZE < u64_modulus ->
  wp (br ← lift (byte_range (mkRange s t));
      _ ← Rmap_freeze br;
      io_batch ← flush_runs env (chunk_by_next l) [];
      _ ← wait_all env io_batch;
      for_each [] (fun f => _ ← lock_page f; _ ← wait_until_finish_writing_back env f; unlock_page f)) c1
    (fun r c' => r = Ok tt /\ flushed s t c c').
Proof.
  intros H Hb Hsel E1 Hch1 Hs Hsm Htm. pose proof (selected_frames _ _ _ _ _ H Hsel) as Hn2. pose proof Hsel as [Hn1 Hl].
  apply wp_bind. eapply wp_lift; [by apply byte_range_eq|]. apply wp_bind. eapply wp_mono; [apply Rmap_freeze_spec; [rewrite E1; apply H|done|done]|].
  intros r c2 (-> & rm & sps & E2 & Hwalk). assert (walked can_write s t c rm sps) as Hwalk0 by (rewrite E1 in Hwalk; exact Hwalk).
  assert (frames c2 = frames c1) as Ef2 by (by rewrite E2). assert (bios c2 = []) as Eb2 by (rewrite E2, E1; apply H).
  assert (forall i f, (i, f) ∈ l -> exists p, frames c !! f = Some p /\ is_writing_back p = false /\ frames c2 !! f = Some (lock_clean p)) as Hlk.
  { intros i f Hin. destruct (proj1 (Hl i f) Hin) as (Ei & _). destruct (wf_page _ H i f Ei) as (p & Ef & _ & Hwb & _). exists p. split_and!; try done.
    rewrite Ef2, (Hch1 f), decide_True, Ef; [done|]. apply list_elem_of_fmap. by exists (i, f). }
  apply wp_bind. eapply wp_mono; [apply (flush_runs_spec env Henv); rewrite concat_chunks; [done|]|].
  { intros i f Hin. destruct (Hlk i f Hin) as (p & _ & Hwb & E). exists (lock_clean p). done. }
  intros r c3 [-> Hsub]. rewrite concat_chunks in *. cbn [app]. destruct Hsub as (O3 & D3 & T3 & F3 & B3). rewrite Eb2 in B3. cbn [app] in B3.
  assert (forall f, data_of c3 f = data_of c2 f) as Hdat3 by (by apply (changed_data in_flight l.*2)).
  apply wp_bind. eapply wp_mono; [apply (wait_all_spec env Henv l c3 (clock c2)); try done|].
  { rewrite B3. symmetry. by apply bios_from_ext. }
  { intros i f Hin. destruct (Hlk i f Hin) as (p & _ & _ & E). rewrite (F3 f), E. by destruct (decide _). }
  intros r c4 [-> (O4 & F4 & B4 & D4 & D4')]. pc. split; [done|].
  assert (same_object c2 c4) as O24 by (by eapply same_object_trans). destruct O24 as (On & Op & Os & Of & Ob & Or & Osp).
  assert (forall f, data_of c3 f = data_of c f) as Hdat by (intros f; rewrite Hdat3; unfold data_of; rewrite Ef2; apply (changed_data lock_clean l.*2 c c1 ltac:(done) Hch1 f)).
  assert (changed clean_page l.*2 c c4) as Hch.
  { assert (changed lock_clean l.*2 c c2) as Hch2 by (intros f; rewrite Ef2; apply Hch1).
    eapply changed_ext; [|eapply changed_trans; [exact Hch2|eapply changed_trans; [exact F3|exact F4]]]. done. }
  rewrite E2, E1 in On, Op, Os, Of, Ob, Or, Osp. cbn in On, Op, Os, Of, Ob, Or, Osp.
  assert (walked can_write s t c (vmo_rmap c4) (spaces c4)) as Hw4 by (by rewrite Or, Osp).
  assert (forall i, i ∉ l.*1 -> disk_page c4 i = disk_page c i) as Hd2.
  { intros i Hi. rewrite (D4' i Hi). unfold disk_page. rewrite D3, E2, E1. done. }
  assert (forall i f, (i, f) ∈ l -> disk_page c4 i = data_of c f) as Hd1 by (intros i f Hin; by rewrite (D4 i f Hin)).
  assert (wf c4) as H4 by (by eapply (flushed_wf c c4 s t l)).
  assert (forall i, file_page c4 i = file_page c i) as Hfile by (by apply (flushed_file c c4 s t l)).
  unfold flushed. split_and!; try done; [by destruct Hw4| |].
  - intros i Hi. rewrite <- Hfile. apply clean_on_disk; [done|by apply (flushed_backed c c4)|]. intros f p'. rewrite Op. intros Ei Ef'.
    destruct (flushed_page c c4 s t l H Hb Hsel Hch Hd1 Hd2 i f Ei) as (p & p1 & _ & Ep1 & _ & _ & _ & [Hnd|Hnd] & _); congruence.
  - intros i Hi. apply Hd2. intros ([j f] & -> & Hin)%list_elem_of_fmap. cbn in Hi. apply Hi. by destruct (proj1 (Hl j f) Hin) as (_ & ? & _).
Qed.

Lemma flush_dirty_pages_spec c a b : wf c -> backed c = true -> 0 <= a -> 0 <= b -> b + PAGE_SIZE <= u64_modulus ->
  wp (flush_dirty_pages env (mkRange a b)) c (fun r c' => r = Ok tt /\ flushed (a / PAGE_SIZE) (div_ceil b PAGE_SIZE) c c').
Proof.
  intros H Hb Ha Hb0 Hbmax. unfold flush_dirty_pages. pc. cbn [r_start]. set (s := a / PAGE_SIZE). set (t := div_ceil b PAGE_SIZE).
  destruct (Z.leb_spec (vmo_size c) a) as [Hle|Hlt].
  { pc. split; [done|]. apply flushed_refl; try done. intros i f p Hi Ei _. pose proof (wf_index _ H i f Ei). exfalso.
    assert (vmo_size c / PAGE_SIZE <= s) by (apply Z.div_le_mono; [done|lia]). lia. }
  apply wp_bind. eapply wp_lift; [apply get_page_idx_range_eq; [done|unfold PAGE_SIZE in *; lia]|]. fold s t.
  apply wp_bind. eapply wp_mono; [by apply collect_pages_if_spec|]. intros r c0 [-> (l & -> & Hsel)]. case_cond.
  { subst l. pc. split; [done|]. apply flushed_refl; try done. intros i f p Hi Ei Ef Hd. destruct Hsel as [_ Hl].
    assert ((i, f) ∈ ([] : list (Z * nat))) as Hin; [|by apply elem_of_nil in Hin]. apply Hl. split; [done|]. split; [done|]. exists p. split; [done|]. cbn. by rewrite Hd. }
  apply wp_bind. eapply wp_mono; [by eapply mark_pages_spec|]. intros r c1 (-> & E1 & Hch1). cbn beta iota.
  pose proof (div_ceil_bounds b Hb0). destruct (wf_size _ H) as (_ & _ & Hmax). pose proof (Z.div_mod a PAGE_SIZE ltac:(done)). pose proof (Z.mod_pos_bound a PAGE_SIZE ltac:(done)).
  eapply write_back_spec; try done; unfold s, t, PAGE_SIZE in *; lia.
Qed.
End flush.
