(* ===== verification/PageCacheResize.v ===== *)
(** * The page cache: evicting and resizing

    [evict_range] and [invalidate_range] do not change the file, and [resize] cuts it or fills the end of
    its last page with zeros.  The reverse mappings are followed so that no page table entry for a page
    that has left the cache survives. *)

From S2P Require Import Prelude Flags Align IntervalSet VmMapping Vmar PageCache PageCacheInv PageCacheIo PageCacheFlush.

(** ** Removing pages *)

(** The pages in [l], all of them from [s] to [t], have been removed and unmapped. *)
Record dropped (c : Cache) (s t : Z) (l : list (Z * nat)) (c' : Cache) : Prop := {
  dr_list i f : (i, f) ∈ l -> vmo_pages c !! i = Some f /\ s <= i < t;
  dr_size : 0 <= vmo_size c' /\ (PAGE_SIZE | vmo_size c') /\ vmo_size c' + PAGE_SIZE <= u64_modulus;
  dr_object : next_frame c' = next_frame c /\ vmo_backend c' = vmo_backend c /\ disk c' = disk c /\ bios c' = bios c;
  dr_pages i : vmo_pages c' !! i = if decide (i ∈ l.*1) then None else vmo_pages c !! i;
  dr_frames f : f ∉ l.*2 -> frames c' !! f = frames c !! f;
  dr_dom f : is_Some (frames c' !! f) -> is_Some (frames c !! f);
  dr_index i f : vmo_pages c' !! i = Some f -> i < vmo_size c' / PAGE_SIZE;
  dr_walk : walked (fun _ => true) s t c (vmo_rmap c') (spaces c')
}.

Section dropped.
Context (c c' : Cache) (s t : Z) (l : list (Z * nat)).
Hypothesis (H : wf c) (Hd : dropped c s t l c').

Lemma dropped_idx i f : vmo_pages c' !! i = Some f -> vmo_pages c !! i = Some f /\ i ∉ l.*1.
Proof. rewrite (dr_pages _ _ _ _ _ Hd). by destruct (decide _). Qed.

Lemma dropped_kept i f : vmo_pages c !! i = Some f -> i ∉ l.*1 -> f ∉ l.*2.
Proof.
  intros Ei Hi ([j g] & -> & Hin)%list_elem_of_fmap. apply Hi, list_elem_of_fmap. exists (j, g). split; [|done]. cbn in *.
  apply (wf_inj _ H i j g); [done|]. by apply (dr_list _ _ _ _ _ Hd).
Qed.

Lemma dropped_frame i f : vmo_pages c' !! i = Some f -> frames c' !! f = frames c !! f.
Proof. intros [Ei Hi]%dropped_idx. by eapply (dr_frames _ _ _ _ _ Hd), dropped_kept. Qed.

Lemma dropped_disk_of i : disk_of c' i = disk_of c i /\ backing c' i = backing c i.
Proof. destruct (dr_object _ _ _ _ _ Hd) as (_ & Eb & Ed & _). unfold disk_of, backing, backed, disk_page. by rewrite Eb, Ed. Qed.

Lemma dropped_wf : wf c'.
Proof.
  destruct (dr_object _ _ _ _ _ Hd) as (En & Eb & Ed & Ebio). constructor.
  - apply Hd.
  - rewrite Eb. apply H.
  - intros i f Ei. pose proof (dr_index _ _ _ _ _ Hd i f Ei). apply dropped_idx in Ei as [Ei _]. pose proof (wf_index _ H i f Ei). lia.
  - intros i j f [Ei _]%dropped_idx [Ej _]%dropped_idx. by apply (wf_inj _ H i j f).
  - intros i f Ei. rewrite (dropped_frame i f Ei), (proj1 (dropped_disk_of i)). apply dropped_idx in Ei as [Ei _]. by apply (wf_page _ H).
  - intros f p E. destruct (dr_dom _ _ _ _ _ Hd f) as [p0 E0]; [by exists p|]. rewrite En. by eapply (wf_next _ H).
  - intros i. unfold disk_page. rewrite Ed. apply (wf_disk _ H).
  - rewrite Ebio. apply H.
  - intros v es e Ev. destruct (dr_walk _ _ _ _ _ Hd) as ((Hr & _) & _). apply (wf_rmap _ H v es). by apply Hr.
  - intros v sp' va q i Esp Eq Hsh. destruct (dr_walk _ _ _ _ _ Hd) as [Hre Hbad]. pose proof (remapped_shows _ _ _ _ _ Hre Hsh) as Hsh0.
    pose proof (Hbad v sp' va q i Esp Eq eq_refl Hsh0) as Hi. destruct Hre as (_ & _ & _ & Hpt).
    destruct (Hpt v sp' va q Esp Eq) as (sp & q0 & Esp0 & Eq0 & [Hfr Hcw]). destruct (wf_pte _ H v sp va q0 i Esp0 Eq0 Hsh0) as (p & Ei & Ef & Hu & Hw).
    assert (i ∉ l.*1) as Hil by (intros ([j g] & -> & Hin)%list_elem_of_fmap; by destruct (dr_list _ _ _ _ _ Hd j g Hin)).
    assert (vmo_pages c' !! i = Some (pte_frame q0)) as Ei' by (rewrite (dr_pages _ _ _ _ _ Hd); by rewrite decide_False).
    exists p. rewrite Hfr, (dropped_frame i _ Ei'). split_and!; try done. intros Hq. by apply Hw, Hcw.
Qed.

Lemma dropped_file i : file_page c' i = if decide (i ∈ l.*1) then backing c i else file_page c i.
Proof.
  unfold file_page. pose proof (dr_pages _ _ _ _ _ Hd i) as Ei. rewrite (proj2 (dropped_disk_of i)). destruct (decide (i ∈ l.*1)) as [Hi|Hi]; rewrite Ei; [done|].
  destruct (vmo_pages c !! i) as [f|] eqn:E; [|done]. by rewrite (dropped_frame i f).
Qed.
End dropped.

(** What evicting does: the file and the storage are the same. *)
Definition evicted (c c' : Cache) : Prop :=
  wf c' /\ vmo_size c' = vmo_size c /\ vmo_flags c' = vmo_flags c /\ vmo_backend c' = vmo_backend c /\ disk c' = disk c /\
  remapped c (vmo_rmap c') (spaces c') /\ forall i, file_page c' i = file_page c i.

Lemma evicted_refl c : wf c -> evicted c c.
Proof. intros H. unfold evicted. split_and!; try done. apply remapped_refl. Qed.

Definition lock_evicted (p : CachePage) : CachePage := mkPage Evicted true (is_writing_back p) (page_data p).

Lemma mark_evicted_spec c s t l : wf c -> selected c s t (select SelectEvict) l ->
  wp (mark_evicted l) c (fun r c' => r = Ok l /\ c' = with_frames (frames c') c /\ changed lock_evicted l.*2 c c').
Proof.
  intros H Hsel. pose proof (selected_frames _ _ _ _ _ H Hsel) as Hn2. destruct Hsel as [Hn1 Hl]. unfold mark_evicted.
  apply (wp_for_fold _ _ (fun j b c' => b = take j l /\ c' = with_frames (frames c') c /\ changed lock_evicted (take j l).*2 c c')).
  - split_and!; [done|by destruct c|by apply changed_nil].
  - intros j [i f] b c1 Ej (-> & E1 & Hch). assert ((i, f) ∈ l) as Hin by (by eapply list_elem_of_lookup_2).
    destruct (proj1 (Hl i f) Hin) as (Ei & _ & p & Ef & Hp). cbn in Hp. destruct (wf_page _ H i f Ei) as (p' & Ef' & Hlk & _). assert (p' = p) as -> by congruence.
    destruct (take_fresh l j i f Hn1 Hn2 Ej) as [_ Hf].
    assert (frames c1 !! f = Some p) as Ef1 by (by rewrite (Hch f), decide_False). pc. cbn [with_lock page_state]. rewrite Hp. cbn [negb]. pc.
    split_and!; [by rewrite (take_S_r _ _ _ Ej)|by rewrite E1|]. rewrite (take_S_r _ _ _ Ej), fmap_app. by apply (changed_snoc lock_evicted f _ c c1 _ p).
  - intros b c' (-> & ? & ?). rewrite take_ge in * by lia. done.
Qed.

(** Lock, eviction and removal of the pages in [l], one after the other. *)
Definition gone (l : list (Z * nat)) (c c' : Cache) : Prop :=
  c' = with_pages (vmo_pages c') (with_frames (frames c') c) /\
  (forall i, vmo_pages c' !! i = if decide (i ∈ l.*1) then None else vmo_pages c !! i) /\ changed (with_lock false) l.*2 c c'.

Lemma gone_snoc l i f p c c1 : gone l c c1 -> i ∉ l.*1 -> f ∉ l.*2 -> frames c !! f = Some p ->
  gone (l ++ [(i, f)]) c (put f (with_lock false p) (with_pages (delete i (vmo_pages c1)) c1)).
Proof.
  intros (E1 & Hp1 & Hch) Hi Hf Ef. split; [|split].
  - rewrite E1. done.
  - intros j. cbn. rewrite fmap_app. cbn. destruct (decide (j = i)) as [->|Hne].
    + rewrite lookup_delete_eq, decide_True; [done|]. apply elem_of_app. right. by left.
    + rewrite lookup_delete_ne, Hp1 by done. destruct (decide (j ∈ l.*1)); [by rewrite decide_True by (apply elem_of_app; by left)|].
      rewrite decide_False; [done|]. by intros [?|?%list_elem_of_singleton]%elem_of_app.
  - rewrite fmap_app. by apply (changed_snoc (with_lock false) f _ c c1 _ p).
Qed.

Section evict.
Context `{BF : Bitflags} (env : Env).
Hypothesis (Henv : env_ok env).

Lemma drop_pages_spec l c : NoDup l.*1 -> NoDup l.*2 ->
  (forall i f, (i, f) ∈ l -> vmo_pages c !! i = Some f /\ exists p, frames c !! f = Some p /\ is_writing_back p = false) ->
  wp (for_each l (fun '(idx, f) =>
        _ ← wait_until_finish_writing_back env f;
        o ← remove idx;
        removed ← lift (unwrap o);
        _ ← lift (assert_run (removed =? f)%nat);
        unlock_page f)) c (fun r c' => r = Ok tt /\ gone l c c').
Proof.
  intros Hn1 Hn2 Hl. apply (wp_for_each _ _ (fun j => gone (take j l) c)).
  - split; [by destruct c|]. split; [done|]. by apply changed_nil.
  - intros j [i f] c1 Ej Hg. destruct (Hl i f) as (Ei & p & Ef & Hwb); [by eapply list_elem_of_lookup_2|].
    destruct (take_fresh l j i f Hn1 Hn2 Ej) as [Hi Hf]. pose proof Hg as (E1 & Hp1 & Hch).
    assert (frames c1 !! f = Some p) as Ef1 by (by rewrite (Hch f), decide_False). assert (vmo_pages c1 !! i = Some f) as Ei1 by (by rewrite Hp1, decide_False).
    apply wp_bind. eapply wp_not_writing_back; [done..|]. unfold remove, load. pc. rewrite Ei1. apply (wp_lift _ f); [done|]. pc. apply (wp_lift _ tt); [by rewrite Nat.eqb_refl|].
    unfold unlock_page. eapply wp_update; [exact Ef1|]. rewrite (take_S_r _ _ _ Ej). by apply gone_snoc.
  - intros c' Hg. by rewrite take_ge in Hg by lia.
Qed.

Lemma evict_up_to_date_pages_spec c a b : wf c -> backed c = true -> 0 <= a -> b + PAGE_SIZE <= u64_modulus ->
  wp (evict_up_to_date_pages env (mkRange a b)) c (fun r c' => r = Ok tt /\ evicted c c').
Proof.
  intros H Hb Ha Hm. unfold evict_up_to_date_pages. pc. cbn [r_start]. case_cond; [pc; split; [done|by apply evicted_refl]|].
  apply wp_bind. eapply wp_lift; [apply get_page_idx_range_eq; [done|unfold PAGE_SIZE in *; lia]|]. set (s := a / PAGE_SIZE). set (t := div_ceil b PAGE_SIZE).
  apply wp_bind. eapply wp_mono; [by apply collect_pages_if_spec|]. intros r c1 (-> & l & -> & Hsel).
  case_bool_decide; [pc; split; [done|by apply evicted_refl]|].
  apply wp_bind. eapply wp_mono; [by apply (mark_evicted_spec c s t)|]. intros r c1 (-> & E1 & Hch1). rewrite bool_decide_false by done.
  assert (0 <= s /\ s * PAGE_SIZE < u64_modulus /\ t * PAGE_SIZE < u64_modulus) as (Hs & Hsm & Htm).
  { destruct (wf_size _ H) as (_ & _ & ?). pose proof (Z.div_mod a PAGE_SIZE ltac:(done)). pose proof (Z.mod_pos_bound a PAGE_SIZE ltac:(done)).
    pose proof (Z.div_mod (b + (PAGE_SIZE - 1)) PAGE_SIZE ltac:(done)). pose proof (Z.mod_pos_bound (b + (PAGE_SIZE - 1)) PAGE_SIZE ltac:(done)).
    subst s t. unfold div_ceil. unfold PAGE_SIZE in *. lia. }
  pose proof (selected_frames _ _ _ _ _ H Hsel) as Hn2. pose proof Hsel as [Hn1 Hl].
  apply wp_bind. eapply wp_lift; [by apply byte_range_eq|]. apply wp_bind. eapply wp_mono; [apply Rmap_unmap_spec; [rewrite E1; apply H|done|done]|].
  intros r c2 (-> & rm & sps & E2 & Hwalk). rewrite E1 in Hwalk. change (walked (fun _ => true) s t c rm sps) in Hwalk.
  assert (frames c2 = frames c1 /\ vmo_pages c2 = vmo_pages c) as [Ef2 Ep2] by (by rewrite E2, E1).
  eapply wp_mono; [apply drop_pages_spec; [done|done|]|].
  { intros i f Hin. rewrite Ep2, Ef2. destruct (proj1 (Hl i f) Hin) as (Ei & _). split; [done|]. destruct (wf_page _ H i f Ei) as (p & Ef & _ & Hwb & _).
    exists (lock_evicted p). rewrite (Hch1 f), decide_True, Ef; [done|]. apply list_elem_of_fmap. by exists (i, f). }
  intros r c3 (-> & E3 & Hp3 & Hch3). split; [done|]. rewrite Ep2 in Hp3.
  assert (dropped c s t l c3) as Hd.
  { constructor.
    - intros i f Hin. by destruct (proj1 (Hl i f) Hin) as (? & ? & _).
    - rewrite E3, E2, E1. apply H.
    - by rewrite E3, E2, E1.
    - done.
    - intros f Hf. by rewrite (Hch3 f), decide_False, Ef2, (Hch1 f), decide_False.
    - intros f. rewrite (Hch3 f), Ef2, (Hch1 f). destruct (decide _); [|done]. by rewrite !fmap_is_Some.
    - intros i f. rewrite Hp3, E3, E2, E1. destruct (decide _); [done|]. apply (wf_index _ H).
    - by rewrite E3, E2. }
  unfold evicted. split; [by eapply dropped_wf|]. split_and!; try (by rewrite E3, E2, E1); [apply Hd|].
  intros i. rewrite (dropped_file c c3 s t l) by done. destruct (decide _) as [Hi|]; [|done]. unfold backing. rewrite Hb. apply clean_on_disk; [done..|].
  intros f p Ei Ef. pose proof (selected_idx _ _ _ _ _ i f Hsel Ei Hi) as Hin. destruct (proj1 (Hl i f) Hin) as (_ & _ & q & Eq & Hq). cbn in Hq. assert (q = p) as -> by congruence. intros Ed. by rewrite Ed in Hq.
Qed.
End evict.

(** ** Decommitting pages *)

(** A walk that removes the pages it visits, [view l] being what it returns for the pages in [l]. *)
Lemma sweep_spec {A} c s t (visit : A -> Z -> PC A) (view : list (Z * nat) -> A) : s < t ->
  (forall l k c, wp (visit (view l) k) c (fun r c' =>
     r = Ok (view (match vmo_pages c !! k with Some f => l ++ [(k, f)] | None => l end)) /\ c' = with_pages (delete k (vmo_pages c)) c)) ->
  wp (walk (mkRange s t) visit (view [])) c (fun r c' => exists l, r = Ok (view l) /\ NoDup l.*1 /\
    (forall i f, (i, f) ∈ l <-> vmo_pages c !! i = Some f /\ s <= i < t) /\
    c' = with_pages (vmo_pages c') c /\ forall i, vmo_pages c' !! i = if decide (s <= i < t) then None else vmo_pages c !! i).
Proof.
  intros Hst Hvisit.
  apply (wp_walk _ _ (dom (vmo_pages c)) (fun k a c' => exists l, a = view l /\ NoDup l.*1 /\ (forall i f, (i, f) ∈ l <-> vmo_pages c !! i = Some f /\ s <= i < k) /\
    c' = with_pages (vmo_pages c') c /\ forall i, vmo_pages c' !! i = if decide (s <= i < k) then None else vmo_pages c !! i)); cbn [r_start r_end]; try done.
  - exists []. split; [done|]. split; [constructor|]. split; [intros i f; split; [intros Hin; by apply elem_of_nil in Hin|lia]|]. split; [by destruct c|].
    intros i. rewrite decide_False by lia. done.
  - intros k a c1 Hk (l & -> & Hnd & Hl & E1 & Hp). eapply wp_mono; [apply Hvisit|]. intros r c2 [-> ->].
    assert (vmo_pages c1 !! k = vmo_pages c !! k) as Ek by (rewrite Hp, decide_False by lia; done). rewrite Ek. eexists. split; [done|].
    assert (forall l', (NoDup l'.*1 /\ forall i f, (i, f) ∈ l' <-> vmo_pages c !! i = Some f /\ s <= i < k + 1) -> NoDup l'.*1 /\ (forall i f, (i, f) ∈ l' <-> vmo_pages c !! i = Some f /\ s <= i < k + 1) /\
      with_pages (delete k (vmo_pages c1)) c1 = with_pages (delete k (vmo_pages c1)) c /\ forall i, delete k (vmo_pages c1) !! i = if decide (s <= i < k + 1) then None else vmo_pages c !! i) as Hrest.
    { intros l' [Hnd' Hl']. split; [done|]. split; [done|]. split; [by rewrite E1|]. intros i. destruct (decide (i = k)) as [->|Hne].
      - rewrite lookup_delete_eq, decide_True by lia. done.
      - rewrite lookup_delete_ne, Hp by done. destruct (decide (s <= i < k)), (decide (s <= i < k + 1)); try done; lia. }
    apply Hrest. destruct (vmo_pages c !! k) as [f|] eqn:E.
    + apply (selected_snoc (fun i f => vmo_pages c !! i = Some f)); try done; [intros g Eg; congruence|lia].
    + split; [done|]. eapply (selected_skip (fun i f => vmo_pages c !! i = Some f)); [exact Hl|lia|]. intros i g Hi Eg. assert (i = k) as -> by lia. congruence.
  - intros k a c1 (l & _ & _ & _ & _ & Hp) j Hj. rewrite !elem_of_dom, Hp, decide_False by lia. done.
  - intros k k' a c1 (l & -> & Hnd & Hl & E1 & Hp) Hk Hgap. exists l. split; [done|]. split; [done|]. split; [|split; [done|]].
    + eapply (selected_skip (fun i f => vmo_pages c !! i = Some f)); [exact Hl|done|]. intros i g Hi Eg. destruct (Hgap i Hi). apply elem_of_dom. by exists g.
    + intros i. rewrite Hp. destruct (decide (s <= i < k)), (decide (s <= i < k')); try done; [lia|]. apply not_elem_of_dom, Hgap. lia.
  - intros a c1 (l & -> & ?). by exists l.
Qed.

(** The file is cut at [n]. *)
Definition cut (n : Z) (c c' : Cache) : Prop :=
  wf c' /\ vmo_size c' = n /\ vmo_flags c' = vmo_flags c /\ vmo_backend c' = vmo_backend c /\ disk c' = disk c /\
  remapped c (vmo_rmap c') (spaces c') /\ forall i, file_page c' i = if decide (n / PAGE_SIZE <= i) then backing c i else file_page c i.

Lemma dropped_cut c c' n l : wf c -> dropped c (n / PAGE_SIZE) (vmo_size c / PAGE_SIZE) l c' -> vmo_size c' = n -> vmo_flags c' = vmo_flags c ->
  (forall i f, vmo_pages c !! i = Some f -> n / PAGE_SIZE <= i -> i ∈ l.*1) -> cut n c c'.
Proof.
  intros H Hd Hn Hf Hl. pose proof (dr_object _ _ _ _ _ Hd) as (_ & Eb & Ed & _). unfold cut. split; [by eapply dropped_wf|].
  split_and!; try done; [apply Hd|]. intros i. rewrite (dropped_file c c' _ _ l H Hd). destruct (decide (i ∈ l.*1)) as [Hi|Hi].
  - rewrite decide_True; [done|]. apply list_elem_of_fmap in Hi as ([j f] & -> & Hin). apply (dr_list _ _ _ _ _ Hd) in Hin. cbn. lia.
  - destruct (decide _) as [Hni|]; [|done]. unfold file_page. destruct (vmo_pages c !! i) as [f|] eqn:E; [|done]. by destruct (Hi (Hl i f E Hni)).
Qed.

Section decommit.
Context `{BF : Bitflags} (env : Env).
Hypothesis (Henv : env_ok env).
Context (c : Cache) (n : Z).
Hypothesis (H : wf c) (Hn : 0 <= n < vmo_size c) (Hdiv : (PAGE_SIZE | n)).

Lemma cut_idxs : get_page_idx_range (mkRange n (vmo_size c)) = Ret (mkRange (n / PAGE_SIZE) (vmo_size c / PAGE_SIZE)) /\ n / PAGE_SIZE < vmo_size c / PAGE_SIZE.
Proof.
  destruct (wf_size _ H) as (_ & [m Hm'] & Hm). destruct Hdiv as [k Hk]. rewrite get_page_idx_range_eq by (unfold PAGE_SIZE in *; lia). rewrite (div_ceil_pages c H).
  split; [done|]. rewrite Hk, Hm', !Z.div_mul by done. unfold PAGE_SIZE in *. lia.
Qed.

Lemma cut_bytes : byte_range (mkRange (n / PAGE_SIZE) (vmo_size c / PAGE_SIZE)) = Ret (mkRange n (vmo_size c)) /\ n / PAGE_SIZE * PAGE_SIZE = n /\ vmo_size c / PAGE_SIZE * PAGE_SIZE = vmo_size c.
Proof.
  destruct (wf_size _ H) as (_ & [m Hm'] & Hm). destruct Hdiv as [k Hk]. assert (n / PAGE_SIZE * PAGE_SIZE = n /\ vmo_size c / PAGE_SIZE * PAGE_SIZE = vmo_size c) as [En Es] by (rewrite Hk, Hm'; by rewrite !Z.div_mul).
  rewrite byte_range_eq by (unfold PAGE_SIZE in *; lia). by rewrite En, Es.
Qed.

(** The size has been set, and the pages above [n] removed. *)
Section swept.
Context (l : list (Z * nat)) (c1 : Cache).
Hypothesis (Hl : forall i f, (i, f) ∈ l <-> vmo_pages c !! i = Some f /\ n / PAGE_SIZE <= i < vmo_size c / PAGE_SIZE).
Hypothesis (E1 : c1 = with_pages (vmo_pages c1) (with_size n c)).
Hypothesis (Hp : forall i, vmo_pages c1 !! i = if decide (n / PAGE_SIZE <= i < vmo_size c / PAGE_SIZE) then None else vmo_pages c !! i).

Lemma swept_cut rm sps : walked (fun _ => true) (n / PAGE_SIZE) (vmo_size c / PAGE_SIZE) c rm sps -> cut n c (with_spaces rm sps c1).
Proof.
  intros Hwalk. assert (forall i, i ∈ l.*1 <-> is_Some (vmo_pages c !! i) /\ n / PAGE_SIZE <= i < vmo_size c / PAGE_SIZE) as Hl1.
  { intros i. rewrite list_elem_of_fmap. split; [intros ([j f] & -> & Hin); apply Hl in Hin as [? ?]; by split; [eexists|]|].
    intros [[f Ef] Hi]. exists (i, f). split; [done|]. by apply Hl. }
  apply (dropped_cut c _ n l H); [|by rewrite E1|by rewrite E1|].
  - constructor; [by intros i f ?%Hl| | | |by intros; rewrite E1|by rewrite E1| |done].
    + rewrite E1. cbn. destruct (wf_size _ H) as (_ & _ & Hm). split_and!; [lia|done|lia].
    + by rewrite E1.
    + intros i. cbn. rewrite Hp. destruct (decide (i ∈ l.*1)) as [Hi|Hi]; [apply Hl1 in Hi as [_ Hi]; by rewrite decide_True|].
      destruct (decide (n / PAGE_SIZE <= i < _)); [|done]. destruct (vmo_pages c !! i) eqn:E; [|done]. destruct Hi. apply Hl1. by rewrite E.
    + intros i f. cbn. rewrite Hp, E1. cbn. destruct (decide _) as [|Hi]; [done|]. intros E. pose proof (wf_index _ H i f E). lia.
  - intros i f E Hi. apply Hl1. rewrite E. split; [done|]. pose proof (wf_index _ H i f E). lia.
Qed.

(** Pages that are not in the cache are not mapped. *)
Lemma absent_walked : l = [] -> walked (fun _ => true) (n / PAGE_SIZE) (vmo_size c / PAGE_SIZE) c (vmo_rmap c) (spaces c).
Proof.
  intros El. split; [apply remapped_refl|]. intros v sp va q i Esp Eq _ Hsh Hi. destruct (wf_pte _ H v sp va q i Esp Eq Hsh) as (p & Ei & _).
  assert ((i, pte_frame q) ∈ l) as Hin by (by apply Hl). rewrite El in Hin. by apply elem_of_nil in Hin.
Qed.

Lemma unmap_cut : wp (Rmap_unmap (mkRange n (vmo_size c))) c1 (fun r c2 => r = Ok tt /\ frames c2 = frames c /\ cut n c c2).
Proof.
  destruct cut_bytes as (_ & En & Es). destruct (wf_size _ H) as (_ & _ & Hm).
  assert (0 <= n / PAGE_SIZE) as H0 by (apply Z.div_pos; [lia|done]). replace (mkRange n (vmo_size c)) with (mkRange (n / PAGE_SIZE * PAGE_SIZE) (vmo_size c / PAGE_SIZE * PAGE_SIZE)) by (by rewrite En, Es).
  eapply wp_mono; [apply Rmap_unmap_spec; [rewrite E1; apply H|done|unfold PAGE_SIZE in *; lia]|].
  intros r c2 (-> & rm & sps & -> & Hwalk). split; [done|]. split; [by rewrite E1|]. apply swept_cut. rewrite E1 in Hwalk. exact Hwalk.
Qed.
End swept.

Lemma decommit_pages_spec : wp (decommit_pages env (mkRange n (vmo_size c))) (with_size n c) (fun r c' => r = Ok tt /\ cut n c c').
Proof.
  destruct cut_idxs as [Eidx Hlt]. unfold decommit_pages. apply wp_bind. eapply wp_lift; [exact Eidx|]. unfold remove_pages_in. cbn [r_start r_end].
  rewrite (proj2 (Z.leb_gt _ _)) by done. apply wp_bind. eapply wp_mono; [apply (sweep_spec _ _ _ _ (fun l => l) Hlt)|].
  { intros l k c1. unfold remove, load. pc. done. }
  intros r c1 (l & -> & Hnd & Hl & E1 & Hp). change (vmo_pages (with_size n c)) with (vmo_pages c) in *. case_bool_decide as El.
  { pc. split; [done|]. replace c1 with (with_spaces (vmo_rmap c) (spaces c) c1) by (by rewrite E1). apply (swept_cut l c1); try done. by apply (absent_walked l). }
  destruct cut_bytes as (Ebr & _). apply wp_bind. eapply wp_lift; [exact Ebr|]. apply wp_bind. eapply wp_mono; [by apply (unmap_cut l)|]. intros r c2 (-> & Ef & Hcut).
  apply (wp_for_each _ _ (fun _ c' => c' = c2)); [done| |by intros ? ->]. intros j [i f] c' Ej ->. assert ((i, f) ∈ l) as Hin by (by eapply list_elem_of_lookup_2).
  apply Hl in Hin as [Ei _]. destruct (wf_page _ H i f Ei) as (p & Ep & Hlk & Hwb & _). rewrite <- Ef in Ep. pc.
  eapply (wp_not_writing_back env f (with_lock true p)); [apply frames_put|done|]. pc. apply put_id. rewrite Ep. f_equal. destruct p; cbn in *; by subst.
Qed.

Lemma decommit_anon_pages_spec : backed c = false -> wp (decommit_anon_pages (mkRange n (vmo_size c))) (with_size n c) (fun r c' => r = Ok tt /\ cut n c c').
Proof.
  intros Hb. destruct cut_idxs as [Eidx Hlt]. unfold decommit_anon_pages. pc. change (has_backend (with_size n c)) with (has_backend c). rewrite (wf_has_backend _ H), Hb. cbn [negb]. pc.
  eapply wp_lift; [exact Eidx|]. apply wp_bind. eapply wp_mono; [apply (sweep_spec _ _ _ _ (fun _ => tt) Hlt)|].
  { intros l k c1. unfold remove, load. pc. done. }
  intros r c1 (l & -> & Hnd & Hl & E1 & Hp). destruct cut_bytes as (Ebr & _). apply wp_bind. eapply wp_lift; [exact Ebr|].
  eapply wp_mono; [by apply (unmap_cut l)|]. by intros r c2 (-> & _ & ?).
Qed.
End decommit.

(** ** Resizing *)

Definition page_up (x : Z) : Z := div_ceil x PAGE_SIZE * PAGE_SIZE.

Lemma align_up_eq_page_up x : x + PAGE_SIZE <= u64_modulus -> align_up x PAGE_SIZE = Ret (page_up x).
Proof.
  intros Hx. rewrite align_up_eq by (done || (unfold PAGE_SIZE in *; lia)). f_equal. unfold page_up, div_ceil.
  pose proof (Z.div_mod (x + (PAGE_SIZE - 1)) PAGE_SIZE ltac:(done)). unfold PAGE_SIZE in *. lia.
Qed.

Lemma page_up_bounds x : 0 <= x -> x <= page_up x < x + PAGE_SIZE /\ (PAGE_SIZE | page_up x).
Proof. intros Hx. pose proof (div_ceil_bounds x Hx). unfold page_up. split; [unfold PAGE_SIZE in *; lia|apply Z.divide_factor_r]. Qed.

Lemma page_up_mono x y : x <= y -> page_up x <= page_up y.
Proof. intros Hxy. unfold page_up, div_ceil. apply Z.mul_le_mono_nonneg_r; [done|]. apply Z.div_le_mono; [done|lia]. Qed.

(** The bytes a change of the size of the file fills with zeros: the rest of the last page of the shorter
    file, as far as it is in the longer one. *)
Definition zeroed (new old : Z) : Range := mkRange (Z.min new old) (Z.min (Z.max new old) (page_up (Z.min new old))).

(** The bytes of the cache after a change of the size of the file. *)
Definition resized_byte (c : Cache) (new old x : Z) : Z :=
  if (r_start (zeroed new old) <=? x) && (x <? r_end (zeroed new old)) then 0
  else if (new <? old) && (page_up new <=? x) then byte (backing c (x / PAGE_SIZE)) (x mod PAGE_SIZE) else file_byte c x.

Definition resized (new old : Z) (c c' : Cache) : Prop :=
  wf c' /\ vmo_size c' = page_up new /\ vmo_flags c' = vmo_flags c /\ vmo_backend c' = vmo_backend c /\ disk c' = disk c /\
  remapped c (vmo_rmap c') (spaces c') /\ forall x, 0 <= x -> file_byte c' x = resized_byte c new old x.

Lemma wf_grow c n : wf c -> vmo_size c <= n -> (PAGE_SIZE | n) -> n + PAGE_SIZE <= u64_modulus -> wf (with_size n c).
Proof.
  intros H Hn Hd Hm. constructor; try apply H.
  - cbn. split_and!; [|done|done]. destruct (wf_size _ H). lia.
  - intros i f E. pose proof (wf_index _ H i f E). cbn. pose proof (Z.div_le_mono (vmo_size c) n PAGE_SIZE ltac:(done) Hn). lia.
Qed.

Lemma byte_zeros n k : 0 <= k < n -> byte (zeros n) k = 0.
Proof. intros Hk. unfold byte, zeros. apply lookup_total_replicate_2. lia. Qed.

(** The zeros are written, then pages are cut off or the size set. *)
Lemma zeros_resized c c1 new old c' : 0 <= new -> 0 <= old -> writes c c1 (r_start (zeroed new old)) (zeros (r_end (zeroed new old) - r_start (zeroed new old))) ->
  wf c' -> vmo_size c' = page_up new -> vmo_flags c' = vmo_flags c1 -> vmo_backend c' = vmo_backend c1 -> disk c' = disk c1 -> remapped c1 (vmo_rmap c') (spaces c') ->
  (forall x, 0 <= x -> file_byte c' x = if (new <? old) && (page_up new <=? x) then byte (backing c1 (x / PAGE_SIZE)) (x mod PAGE_SIZE) else file_byte c1 x) ->
  resized new old c c'.
Proof.
  intros Hn Ho Hw H' Hsz Hfl Hbk Hdk Hre Hbyte. destruct (wr_same _ _ _ _ Hw) as (E1 & E2 & E3 & E4 & E5 & E6). unfold resized.
  split_and!; try congruence; [unfold remapped in *; by rewrite E4, E5 in Hre|]. intros x Hx. rewrite (Hbyte x Hx).
  assert (backing c1 (x / PAGE_SIZE) = backing c (x / PAGE_SIZE)) as -> by (unfold backing, backed, disk_page; by rewrite E3, E6).
  unfold resized_byte. rewrite (wr_byte _ _ _ _ Hw x Hx). pose proof (page_up_bounds (Z.min new old) ltac:(lia)).
  assert (r_start (zeroed new old) <= r_end (zeroed new old)) as Hle by (unfold zeroed; cbn; lia). rewrite len_zeros by lia.
  replace (r_start (zeroed new old) + (r_end (zeroed new old) - r_start (zeroed new old))) with (r_end (zeroed new old)) by lia.
  assert (forall e, (if (r_start (zeroed new old) <=? x) && (x <? r_end (zeroed new old)) then byte (zeros (r_end (zeroed new old) - r_start (zeroed new old))) (x - r_start (zeroed new old)) else e) =
    if (r_start (zeroed new old) <=? x) && (x <? r_end (zeroed new old)) then 0 else e) as ->.
  { intros e. destruct (Z.leb_spec (r_start (zeroed new old)) x), (Z.ltb_spec x (r_end (zeroed new old))); cbn [andb]; try done. apply byte_zeros. lia. }
  destruct (Z.ltb_spec new old) as [Hlt|]; cbn [andb]; [|done]. destruct (Z.leb_spec (page_up new) x); [|done].
  rewrite (proj2 (Z.ltb_ge x _)), andb_false_r; [done|]. unfold zeroed. cbn. rewrite (Z.min_l new old) by lia. lia.
Qed.

Section resize.
Context `{BF : Bitflags} (env : Env).
Hypothesis (Henv : env_ok env).

(** A failed resize has filled a part of these bytes. *)
Definition zeroed_some (c c' : Cache) (new old : Z) : Prop :=
  failing env /\ exists k, 0 <= k <= r_end (zeroed new old) - r_start (zeroed new old) /\ writes c c' (r_start (zeroed new old)) (zeros k).

(** The first half of [resize]. *)
Lemma resize_zeros_spec c new old : wf c -> vmo_size c = page_up old -> 0 <= new -> new + PAGE_SIZE <= u64_modulus -> 0 <= old -> old + PAGE_SIZE <= u64_modulus ->
  wp (if (new <? old) && negb (is_multiple_of new PAGE_SIZE) then
         up ← lift (align_up new PAGE_SIZE);
         fill_zeros env (mkRange new (Z.min old up))
       else if (old <? new) && negb (is_multiple_of old PAGE_SIZE) then
         up ← lift (align_up old PAGE_SIZE);
         fill_zeros env (mkRange old (Z.min new up))
       else mret tt) c (fun r c' => match r with
    | Ok _ => writes c c' (r_start (zeroed new old)) (zeros (r_end (zeroed new old) - r_start (zeroed new old)))
    | Err _ => zeroed_some c c' new old end).
Proof.
  intros H Hsz Hn Hnm Ho Hom. destruct (page_up_bounds old Ho) as [Hob _]. assert (forall x, 0 <= x -> is_multiple_of x PAGE_SIZE = true -> page_up x = x) as Haligned.
  { intros x Hx E. unfold is_multiple_of in E. apply Z.eqb_eq, Z.mod_divide in E as [k ->]; [|done]. unfold page_up. by rewrite div_ceil_mul. }
  assert (forall lo hi, 0 <= lo < hi -> Z.min hi (page_up lo) <= vmo_size c -> zeroed new old = mkRange lo (Z.min hi (page_up lo)) -> lo + PAGE_SIZE <= u64_modulus ->
    wp (up ← lift (align_up lo PAGE_SIZE); fill_zeros env (mkRange lo (Z.min hi up))) c (fun r c' => match r with
    | Ok _ => writes c c' (r_start (zeroed new old)) (zeros (r_end (zeroed new old) - r_start (zeroed new old)))
    | Err _ => zeroed_some c c' new old end)) as Hfill.
  { intros lo hi Hlo Hle Ez Hm. unfold zeroed_some. rewrite Ez. apply wp_bind. eapply wp_lift; [by apply align_up_eq_page_up|]. eapply wp_mono; [apply (fill_zeros_spec (failing env) env Henv (fun x => x) c lo); [done|lia]|].
    intros [u|e] c' Hr; [done|]. destruct Hr as ([Hfail|?] & k & Hk & Hr); [|lia]. split; [done|]. exists k. split; [|done]. cbn. pose proof (page_up_bounds lo ltac:(lia)). lia. }
  assert (r_end (zeroed new old) = r_start (zeroed new old) -> wp (mret tt) c (fun r c' => match r with
    | Ok _ => writes c c' (r_start (zeroed new old)) (zeros (r_end (zeroed new old) - r_start (zeroed new old)))
    | Err _ => zeroed_some c c' new old end)) as Hnone.
  { intros ->. pc. rewrite Z.sub_diag. by apply loads_writes, loads_refl. }
  destruct (Z.ltb_spec new old) as [Hlt|Hge]; cbn [andb].
  - destruct (is_multiple_of new PAGE_SIZE) eqn:Em; cbn [negb].
    + rewrite (proj2 (Z.ltb_ge old new)) by lia. cbn [andb]. apply Hnone. unfold zeroed. cbn. rewrite !(Z.min_l new old), Z.max_r, (Haligned new) by (lia || done). lia.
    + apply Hfill; [lia|lia| |done]. unfold zeroed. by rewrite !(Z.min_l new old), Z.max_r by lia.
  - destruct (Z.ltb_spec old new) as [Hlt|Hge']; cbn [andb].
    + destruct (is_multiple_of old PAGE_SIZE) eqn:Em; cbn [negb].
      * apply Hnone. unfold zeroed. cbn. rewrite !(Z.min_r new old), Z.max_l, (Haligned old) by (lia || done). lia.
      * apply Hfill; [lia|lia| |done]. unfold zeroed. by rewrite !(Z.min_r new old), Z.max_l by lia.
    + apply Hnone. unfold zeroed. cbn. pose proof (page_up_bounds (Z.min new old) ltac:(lia)). lia.
Qed.

Lemma cut_byte n c c' x : (PAGE_SIZE | n) -> cut n c c' -> 0 <= x -> file_byte c' x = if n <=? x then byte (backing c (x / PAGE_SIZE)) (x mod PAGE_SIZE) else file_byte c x.
Proof.
  intros [k Hk] (_ & _ & _ & _ & _ & _ & Hf) Hx. unfold file_byte. rewrite Hf, Hk, Z.div_mul by done.
  pose proof (Z.div_mod x PAGE_SIZE ltac:(done)). pose proof (Z.mod_pos_bound x PAGE_SIZE ltac:(done)).
  destruct (decide _), (Z.leb_spec (k * PAGE_SIZE) x); try done; unfold PAGE_SIZE in *; lia.
Qed.

Lemma resize_spec c new old : wf c -> bf_contains (vmo_flags c) VmoFlags_RESIZABLE = true -> vmo_size c = page_up old ->
  0 <= new -> page_up new + PAGE_SIZE <= u64_modulus -> 0 <= old ->
  wp (resize env new old) c (fun r c' => match r with
    | Ok _ => resized new old c c'
    | Err _ => zeroed_some c c' new old end).
Proof.
  intros H Hfl Hold Hn Hnm Ho. destruct (page_up_bounds new Hn) as [Hnb Hnd]. destruct (page_up_bounds old Ho) as [Hob Hod]. destruct (wf_size _ H) as (_ & _ & Hm).
  unfold resize. pc. rewrite Hfl. pc. eapply wp_mono; [apply resize_zeros_spec; [done|done|done|lia|done|lia]|]. intros [u|e] c1 Hw; [|done].
  destruct (wr_same _ _ _ _ Hw) as (E1 & E2 & E3 & E4 & E5 & E6). pose proof (wr_wf _ _ _ _ Hw) as H1.
  apply wp_bind. eapply wp_lift; [apply align_up_eq_page_up; lia|]. pc. rewrite E1, Hold. destruct (Z.eqb_spec (page_up new) (page_up old)) as [Heq|Hne].
  { pc. apply (zeros_resized c c1); try done; [by rewrite E1, Hold|apply remapped_refl|]. intros x Hx. destruct (Z.ltb_spec new old); [|done]. cbn [andb].
    destruct (Z.leb_spec (page_up new) x); [|done]. unfold file_byte, file_page, byte. destruct (vmo_pages c1 !! (x / PAGE_SIZE)) as [f|] eqn:E; [|done].
    pose proof (wf_index _ H1 _ _ E) as Hi. rewrite E1, Hold, <- Heq in Hi. pose proof (Z.div_le_mono (page_up new) x PAGE_SIZE ltac:(done)). lia. }
  pc. rewrite <- Hold, <- E1. destruct (Z.ltb_spec new old) as [Hlt|Hge].
  - assert (page_up new < vmo_size c1) as Hsm by (rewrite E1, Hold; pose proof (page_up_mono new old ltac:(lia)); lia).
    assert (forall r c', r = Ok tt /\ cut (page_up new) c1 c' -> match r with Ok _ => resized new old c c' | Err _ => zeroed_some c c' new old end) as Hend.
    { intros r c' [-> Hcut]. pose proof Hcut as (W & S1 & S2 & S3 & S4 & S5 & _). apply (zeros_resized c c1); try done. intros x Hx. rewrite (cut_byte _ _ _ _ Hnd Hcut Hx).
      by rewrite (proj2 (Z.ltb_lt new old)) by done. }
    pc. change (backed (with_size _ c1)) with (backed c1). destruct (backed c1) eqn:Hb; (eapply wp_mono; [|exact Hend]).
    + apply (decommit_pages_spec env c1); [done|lia|done].
    + apply (decommit_anon_pages_spec c1); [done|lia|done|done].
  - pc. apply (zeros_resized c c1); try done.
    + apply wf_grow; [done| |done|done]. rewrite E1, Hold. by apply page_up_mono.
    + exact (remapped_refl c1).
    + intros x Hx. by rewrite (proj2 (Z.ltb_ge new old)).
Qed.

(** ** The calls for ranges of bytes *)

Lemma flush_range_spec c a b : wf c -> 0 <= a -> 0 <= b -> b + PAGE_SIZE <= u64_modulus ->
  wp (flush_range env (mkRange a b)) c (fun r c' => r = Ok tt /\ if backed c then flushed (a / PAGE_SIZE) (div_ceil b PAGE_SIZE) c c' else c' = c).
Proof. intros H Ha Hb Hm. unfold flush_range. pc. destruct (backed c) eqn:E; [by apply (flush_dirty_pages_spec env Henv)|by pc]. Qed.

Lemma evict_range_spec c a b : wf c -> 0 <= a -> b + PAGE_SIZE <= u64_modulus ->
  wp (evict_range env (mkRange a b)) c (fun r c' => r = Ok tt /\ evicted c c').
Proof. intros H Ha Hm. unfold evict_range. pc. destruct (backed c) eqn:E; [by apply evict_up_to_date_pages_spec|]. pc. split; [done|]. by apply evicted_refl. Qed.

(** Flushing and evicting the same pages. *)
Lemma invalidate_range_spec c a b : wf c -> 0 <= a -> 0 <= b -> b + PAGE_SIZE <= u64_modulus ->
  wp (invalidate_range env (mkRange a b)) c (fun r c' => r = Ok tt /\
    if backed c then exists c1, flushed (a / PAGE_SIZE) (div_ceil b PAGE_SIZE) c c1 /\ evicted c1 c' else c' = c).
Proof.
  intros H Ha Hb Hm. unfold invalidate_range. pc. destruct (backed c) eqn:E; [|by pc]. apply wp_bind. eapply wp_mono; [by apply (flush_dirty_pages_spec env Henv)|].
  intros r c1 [-> Hf]. eapply wp_mono; [apply evict_up_to_date_pages_spec; [apply Hf| |done|done]|].
  - destruct Hf as (_ & _ & _ & Eb & _). unfold backed in *. by rewrite Eb.
  - intros r c2 [-> He]. split; [done|]. by exists c1.
Qed.
End resize.
