(* ===== verification/PageCacheMmap.v ===== *)
(** * The page cache: shared mappings

    The pages that page faults get from the cache ([commit_on] and [try_commit_page]), and the address
    spaces that map the object: shared mappings come and go, and user programs load and store bytes
    through the page tables.  A load sees the bytes of the file, and a store changes them. *)

From S2P Require Import Prelude Flags Align IntervalSet VmMapping Vmar VmarInv PageCache PageCacheInv PageCacheIo PageCacheFlush PageCacheResize.

(** ** Nothing but the pages in the cache changes *)

(** Pages may have been loaded or become dirty. *)
Notation touched c c' := (writes c c' 0 []).

Lemma touched_refl c : wf c -> touched c c.
Proof. intros H. by apply loads_writes, loads_refl. Qed.

Lemma touched_trans c1 c2 c3 : touched c1 c2 -> touched c2 c3 -> touched c1 c3.
Proof. intros H1 H2. by apply (writes_trans c1 c2 c3 0 0 [] []). Qed.

Lemma touched_byte c c' x : touched c c' -> 0 <= x -> file_byte c' x = file_byte c x.
Proof. intros H Hx. rewrite (wr_byte _ _ _ _ H x Hx). destruct (Z.leb_spec 0 x), (Z.ltb_spec x (0 + len [])); try done. unfold len in *. cbn in *. lia. Qed.

(** A page in the cache changes its bytes and becomes dirty. *)
Lemma dirty_wf c i f p d : wf c -> vmo_pages c !! i = Some f -> frames c !! f = Some p -> page_state p <> Uninit -> len d = PAGE_SIZE ->
  wf (put f (mkPage Dirty false false d) c) /\
  forall j, file_page (put f (mkPage Dirty false false d) c) j = if decide (j = i) then d else file_page c j.
Proof.
  intros H Ei Ef Hu Hd. split.
  - apply (wf_put c i f p); try done. destruct (disk_of c i); unfold page_ok; by split_and!.
  - intros j. unfold file_page. cbn. destruct (decide (j = i)) as [->|Hne].
    + by rewrite Ei, lookup_insert_eq.
    + destruct (vmo_pages c !! j) as [g|] eqn:Ej; [|done]. rewrite lookup_insert_ne; [done|]. intros ->. by destruct Hne; apply (wf_inj _ H j i g).
Qed.

Lemma dirty_touched c i f p : wf c -> vmo_pages c !! i = Some f -> frames c !! f = Some p -> page_state p <> Uninit ->
  touched c (put f (mkPage Dirty false false (page_data p)) c).
Proof.
  intros H Ei Ef Hu. destruct (wf_page _ H i f Ei) as (p' & Ef' & _ & _ & Hlen & _). assert (p' = p) as -> by congruence.
  destruct (dirty_wf c i f p (page_data p) H Ei Ef Hu Hlen) as [W Hfile]. constructor; try done.
  - intros m j g [Ej Hm]. split; [done|]. intros E. destruct (Hm E) as (q & Eq & Hq). cbn. destruct (decide (g = f)) as [->|]; [rewrite lookup_insert_eq; by eexists|].
    rewrite lookup_insert_ne by done. by exists q.
  - intros x Hx. assert (file_byte (put f (mkPage Dirty false false (page_data p)) c) x = file_byte c x) as ->.
    + unfold file_byte. rewrite Hfile. destruct (decide _) as [->|]; [|done]. by rewrite (file_page_cached c i f p).
    + destruct (Z.leb_spec 0 x), (Z.ltb_spec x (0 + len [])); try done. unfold len in *. cbn in *. lia.
Qed.

(** ** Committing pages for mappings *)

(** Frame [f] holds page [i], and may be written through a mapping if [w]. *)
Definition mappable (c : Cache) (i : Z) (f : nat) (w : bool) : Prop :=
  exists p, vmo_pages c !! i = Some f /\ frames c !! f = Some p /\ page_state p <> Uninit /\ (w = true -> page_state p = Dirty).

Section commit.
Context `{BF : Bitflags} (env : Env).
Hypothesis (Henv : env_ok env).

Lemma dirty_page p : is_writing_back p = false -> with_lock false (with_page_state Dirty (with_lock true p)) = mkPage Dirty false false (page_data p).
Proof. destruct p. cbn. by intros ->. Qed.

Lemma ensure_spec c i f m : wf c -> ready c CommitRead i f ->
  wp (ensure m f) c (fun r c' => r = Ok tt /\ touched c c' /\ mappable c' i f (mode_is_write m)).
Proof.
  intros H [Ei Hr]. destruct (Hr eq_refl) as (p & Ef & Hu). destruct (wf_page _ H i f Ei) as (p' & Ef' & Hl & Hwb & _ & Hev & _). assert (p' = p) as -> by congruence.
  unfold ensure. pc. destruct (page_state p) eqn:Es; [done| | |done].
  - destruct (mode_is_write m).
    + pc. cbn [with_lock page_state]. rewrite Es. cbn [is_up_to_date]. pc. rewrite (dirty_page p) by done. split; [done|]. split; [eapply dirty_touched; [done..|congruence]|].
      exists (mkPage Dirty false false (page_data p)). by rewrite frames_put.
    + pc. split; [done|]. split; [by apply touched_refl|]. exists p. by rewrite Es.
  - pc. split; [done|]. split; [by apply touched_refl|]. exists p. by rewrite Es.
Qed.

Lemma commit_on_spec c i m : wf c -> 0 <= i ->
  wp (commit_on env i m) c (fun r c' => touched c c' /\ match r with Ok _ => exists f, mappable c' i f (mode_is_write m) | Err _ => failing env \/ vmo_size c / PAGE_SIZE <= i end).
Proof.
  intros H Hi. unfold commit_on. apply wp_bind. eapply wp_mono; [by apply (commit_on_internal_spec env Henv c i CommitRead)|].
  intros [f|e] c1 [Hld Hr]; [|split; [by apply loads_writes|done]].
  eapply wp_mono; [by apply (ensure_spec c1 i f m); [apply Hld|]|]. intros r c2 (-> & Ht & Hm). split; [|by exists f].
  eapply touched_trans; [by apply loads_writes|done].
Qed.

(** A page that is there is never refused. *)
Lemma try_ensure_spec c i f m : wf c -> mode_is_shared m = true -> vmo_pages c !! i = Some f ->
  wp (try_ensure m i f) c (fun r c' => touched c c' /\
    match r with
    | Ok (inr m') => mappable c' i f (mode_is_write m') /\ (mode_is_write m = true -> mode_is_write m' = true)
    | Ok (inl err) => err = NeedIo i /\ c' = c /\ ~ mappable c i f false
    | Err _ => False
    end).
Proof.
  intros H Hm Ei. destruct (wf_page _ H i f Ei) as (p & Ef & Hl & Hwb & _ & Hev & _). unfold try_ensure. pc. destruct (page_state p) eqn:Es; [| | |done].
  - pc. split; [by apply touched_refl|]. split_and!; try done. intros (q & _ & Eq & Hq & _). congruence.
  - destruct (mode_is_write m).
    + pc. cbn [with_lock page_state]. rewrite Es. cbn [is_up_to_date]. pc. rewrite (dirty_page p) by done. split; [eapply dirty_touched; [done..|congruence]|].
      split; [|done]. exists (mkPage Dirty false false (page_data p)). by rewrite frames_put.
    + pc. split; [by apply touched_refl|]. split; [|done]. exists p. by rewrite Es.
  - pc. split; [by apply touched_refl|]. split; [|done]. exists p. by rewrite Es.
Qed.

Lemma page_in_size c o : wf c -> o < vmo_size c <-> o / PAGE_SIZE < vmo_size c / PAGE_SIZE.
Proof.
  intros H. destruct (wf_size _ H) as (_ & [k Hk] & _). rewrite Hk, Z.div_mul by done. pose proof (Z.div_mod o PAGE_SIZE ltac:(done)).
  pose proof (Z.mod_pos_bound o PAGE_SIZE ltac:(done)). unfold PAGE_SIZE in *. lia.
Qed.

Lemma try_commit_page_spec c o m : wf c -> mode_is_shared m = true -> 0 <= o ->
  wp (try_commit_page env o m) c (fun r c' => touched c c' /\
    match r with
    | Ok (inr (f, m')) => mappable c' (o / PAGE_SIZE) f (mode_is_write m') /\ (mode_is_write m = true -> mode_is_write m' = true)
    | Ok (inl (CommitErr e)) => (failing env \/ vmo_size c <= o) /\ ~ exists f, mappable c (o / PAGE_SIZE) f false /\ o < vmo_size c
    | Ok (inl err) => err = NeedIo (o / PAGE_SIZE) /\ ~ exists f, mappable c (o / PAGE_SIZE) f false
    | Err _ => False
    end).
Proof.
  intros H Hm Ho. unfold try_commit_page. pc. case_cond.
  { pc. split; [by apply touched_refl|]. split; [right; lia|]. intros (f & _ & ?). lia. }
  assert (0 <= o / PAGE_SIZE) as Hi by (by apply Z.div_pos). set (i := o / PAGE_SIZE) in *.
  match goal with |- wp _ _ ?R => set (Q := R) end.
  assert (forall c1 f, loads c c1 -> vmo_pages c1 !! i = Some f -> ((exists g, mappable c i g false) -> mappable c1 i f false) -> wp (try_ensure m i f) c1 (fun r c' =>
    match r with Ok a => wp (mret (match a with inl e => inl e | inr m => inr (f, m) end)) c' Q | Err e => Q (Err e) c' end)) as Hens.
  { intros c1 f Hld Ei Hmap. eapply wp_mono; [apply (try_ensure_spec c1 i f m); [apply Hld|done|done]|].
    intros [[err|m']|e] c2 [Ht Hr]; [| |done]; pc; (split; [eapply touched_trans; [by apply loads_writes|done]|]); [|done].
    destruct Hr as (-> & -> & Hno). split; [done|]. intros Hex. by apply Hno, Hmap. }
  unfold try_commit_with_cursor, load. pc. destruct (backed c) eqn:Hb.
  - destruct (vmo_pages c !! i) as [f|] eqn:Ei.
    + destruct (wf_page _ H i f Ei) as (p & Ef & _). pc. cbn [skips_backend_read negb andb]. pc. apply Hens; [by apply loads_refl|done|]. intros (g & Hg). pose proof Hg as (q & Eq & _). congruence.
    + pc. split; [by apply touched_refl|]. split; [done|]. intros (f & p & Ei' & _). congruence.
  - destruct (vmo_pages c !! i) as [f|] eqn:Ei.
    + pc. apply Hens; [by apply loads_refl|done|]. intros (g & Hg). pose proof Hg as (q & Eq & _). congruence.
    + pc. eapply wp_mono; [by apply (commit_on_anonymous_spec env c i CommitRead)|]. intros [f|e] c1 [Hld Hr]; pc.
      * apply Hens; [done|apply Hr|]. intros _. destruct Hr as [E1 Hr]. destruct (Hr eq_refl) as (p & Ef & Hu). by exists p.
      * split; [by apply loads_writes|]. split; [|intros (f & (p & Ei' & _) & _); congruence]. left. destruct Hr as [|Hout]; [done|].
        pose proof (proj1 (page_in_size c o H) ltac:(lia)) as Hlt. fold i in Hlt. lia.
Qed.
End commit.

(** ** The address spaces *)

Definition covers (e : RmapEntry) (va : Z) : bool := (re_vaddr e <=? va) && (va <? re_vaddr e + re_size e).

(** The offset in the file of an address of a shared mapping. *)
Definition offset_at (v : nat) (va : Z) (c : Cache) : option Z :=
  (fun e => va - re_vaddr e + re_offset e) <$> find_first (fun e => covers e va) (default [] (vmo_rmap c !! v)).

Definition page_base (va : Z) : Z := va - va mod PAGE_SIZE.

Section clients.
Context `{BF : Bitflags} (env : Env).

(** A page fault tries to get the page, and again when it has waited for the page. *)
Fixpoint fault (n : nat) (o : Z) (m : VmoMapMode) : PC (nat * VmoMapMode) :=
  match n with
  | O => blocked
  | S n =>
      r ← try_commit_page env o m;
      match r with
      | inr p => mret p
      | inl (CommitErr e) => throw e
      | inl (NeedIo i) | inl (WaitUntilInit i _) => _ ← commit_on env i m; fault n o m
      end
  end.

Definition set_pte (v : nat) (va : Z) (q : Pte) (c : Cache) : Cache :=
  with_spaces (vmo_rmap c) (alter (fun sp => mkSpace (<[va := q]> (sp_table sp)) (if bool_decide (is_Some (sp_table sp !! va)) then sp_rss sp else sp_rss sp + 1)) v (spaces c)) c.

(** The frame for an access to an address of a shared mapping, after a page fault if it is needed. *)
Definition access (v : nat) (va : Z) (is_write : bool) : PC nat :=
  o ← get (offset_at v (page_base va));
  sp ← get (fun c => spaces c !! v);
  match sp, o with
  | Some sp, Some o =>
      match sp_table sp !! page_base va with
      | Some q => if negb is_write || can_write q then mret (pte_frame q) else
          '(f, m) ← fault 2 o ModeSharedWrite;
          _ ← modify (set_pte v (page_base va) (mkPte f (bf_union PageFlags_R PageFlags_W)));
          mret f
      | None =>
          '(f, m) ← fault 2 o (if is_write then ModeSharedWrite else ModeSharedRead);
          _ ← modify (set_pte v (page_base va) (mkPte f (if mode_is_write m then bf_union PageFlags_R PageFlags_W else PageFlags_R)));
          mret f
      end
  | _, _ => throw EFAULT
  end.

Definition user_load (v : nat) (va : Z) : PC Z :=
  f ← access v va false;
  p ← page f;
  mret (byte (page_data p) (va mod PAGE_SIZE)).

Definition user_store (v : nat) (va b : Z) : PC unit :=
  f ← access v va true;
  p ← page f;
  update_page f (with_data (splice (page_data p) (va mod PAGE_SIZE) [b])).

Definition clear_range (e : RmapEntry) (sp : Space) : Space :=
  let '(n, pt) := cursor_unmap (mkRange (re_vaddr e) (re_vaddr e + re_size e)) (sp_table sp) in mkSpace pt (sp_rss sp - n).

Definition entry_okb (e : RmapEntry) : bool :=
  (0 <=? re_offset e) && (0 <=? re_vaddr e) && (0 <? re_size e) && (re_vaddr e + re_size e <=? 2 ^ 47) && (re_offset e + re_size e <? u64_modulus) &&
  is_multiple_of (re_offset e) PAGE_SIZE && is_multiple_of (re_vaddr e) PAGE_SIZE && is_multiple_of (re_size e) PAGE_SIZE.

(** A new shared mapping, at addresses where there is none. *)
Definition map_shared (v : nat) (e : RmapEntry) : PC bool :=
  sp ← get (fun c => spaces c !! v);
  es ← get (fun c => default [] (vmo_rmap c !! v));
  match sp with
  | Some sp =>
      if entry_okb e && forallb (fun e' => (re_vaddr e' + re_size e' <=? re_vaddr e) || (re_vaddr e + re_size e <=? re_vaddr e')) es
      then _ ← modify (fun c => with_spaces (Rmap_insert v e (vmo_rmap c)) (<[v := clear_range e sp]> (spaces c)) c); mret true
      else mret false
  | None => mret false
  end.

Definition unmap_shared (v : nat) (vaddr : Z) : PC bool :=
  sp ← get (fun c => spaces c !! v);
  es ← get (fun c => default [] (vmo_rmap c !! v));
  match sp, find_first (fun e => re_vaddr e =? vaddr) es with
  | Some sp, Some e =>
      r ← get vmo_rmap;
      r ← lift (Rmap_remove v vaddr r);
      _ ← modify (fun c => with_spaces r (<[v := clear_range e sp]> (spaces c)) c);
      mret true
  | _, _ => mret false
  end.

(** Address spaces are created and go away; the mappings of one that is gone are found later. *)
Definition new_space (v : nat) : PC bool :=
  fresh ← get (fun c => bool_decide (spaces c !! v = None) && bool_decide (vmo_rmap c !! v = None));
  if (fresh : bool) then _ ← modify (fun c => with_spaces (vmo_rmap c) (<[v := mkSpace ∅ 0]> (spaces c)) c); mret true else mret false.

Definition drop_space (v : nat) : PC unit := modify (fun c => with_spaces (vmo_rmap c) (delete v (spaces c)) c).
End clients.

(** The mappings of an address space are apart. *)
Definition apart (es : list RmapEntry) : Prop :=
  NoDup es /\ forall e e' va, e ∈ es -> e' ∈ es -> covers e va = true -> covers e' va = true -> e = e'.

Definition all_apart (c : Cache) : Prop := forall v es, vmo_rmap c !! v = Some es -> apart es.

(** Address [va] shows the byte at [o]. *)
Definition shows_at (c : Cache) (v : nat) (va o : Z) : Prop :=
  exists es e, vmo_rmap c !! v = Some es /\ e ∈ es /\ covers e va = true /\ o = va - re_vaddr e + re_offset e.

Lemma covers_true e va : covers e va = true <-> re_vaddr e <= va < re_vaddr e + re_size e.
Proof. unfold covers. rewrite andb_true_iff, Z.leb_le, Z.ltb_lt. done. Qed.

Lemma apart_eq es e e' va : apart es -> e ∈ es -> e' ∈ es -> covers e va = true -> covers e' va = true -> e = e'.
Proof. intros [_ Ha]. by apply Ha. Qed.

Lemma shows_at_inj c v va o o' : all_apart c -> shows_at c v va o -> shows_at c v va o' -> o = o'.
Proof.
  intros Ha (es & e & Ev & He & Hc & ->) (es' & e' & Ev' & He' & Hc' & ->). assert (es' = es) as -> by congruence.
  by rewrite (apart_eq es e e' va (Ha v es Ev) He He' Hc Hc').
Qed.

Lemma offset_at_Some c v va o : all_apart c -> offset_at v va c = Some o <-> shows_at c v va o.
Proof.
  intros Ha. unfold offset_at. split.
  - intros E. apply fmap_Some in E as (e & E & ->). apply find_first_Some in E as [He Hc]. destruct (vmo_rmap c !! v) as [es|] eqn:Ev; cbn in He; [|by apply elem_of_nil in He]. by exists es, e.
  - intros Hs. pose proof Hs as (es & e & Ev & He & Hc & ->). rewrite Ev. cbn. destruct (find_first _ es) as [e'|] eqn:E.
    + apply find_first_Some in E as [He' Hc']. by rewrite (apart_eq es e e' va (Ha v es Ev) He He' Hc Hc').
    + apply find_first_None in E. rewrite Forall_forall in E. specialize (E e He). cbn in E. congruence.
Qed.

Lemma shows_at_page c v va i : shows c v va i <-> exists o, shows_at c v va o /\ i = o / PAGE_SIZE.
Proof.
  split.
  - intros (es & e & Ev & He & Hva & ->). eexists. split; [exists es, e; split_and!; try done; by apply covers_true|done].
  - intros (o & (es & e & Ev & He & Hc & ->) & ->). exists es, e. split_and!; try done; by apply covers_true.
Qed.

(** A mapping covers whole pages. *)
Lemma shows_at_base c v va o : wf c -> shows_at c v va o -> shows_at c v (page_base va) (page_base o) /\ o mod PAGE_SIZE = va mod PAGE_SIZE /\ 0 <= o.
Proof.
  intros H (es & e & Ev & He & Hc & ->). destruct (wf_rmap _ H v es e Ev He) as (H1 & H2 & H3 & H4 & H5 & [a D1] & [b D2] & [d D3]). apply covers_true in Hc.
  assert ((va - re_vaddr e + re_offset e) mod PAGE_SIZE = va mod PAGE_SIZE) as Em.
  { rewrite D1, D2. replace (va - b * PAGE_SIZE + a * PAGE_SIZE) with (va + (a - b) * PAGE_SIZE) by lia. by rewrite Z_mod_plus_full. }
  pose proof (Z.div_mod va PAGE_SIZE ltac:(done)). pose proof (Z.mod_pos_bound va PAGE_SIZE ltac:(done)). unfold page_base. rewrite Em. split_and!; [|done|lia].
  exists es, e. split_and!; try done; [|lia]. apply covers_true. rewrite D2, D3 in *. unfold PAGE_SIZE in *. lia.
Qed.

(** ** Accesses *)

(** What is the same after an access: everything but pages in the cache and entries of page tables. *)
Definition accessed (c c' : Cache) : Prop :=
  wf c' /\ vmo_size c' = vmo_size c /\ vmo_flags c' = vmo_flags c /\ vmo_backend c' = vmo_backend c /\ vmo_rmap c' = vmo_rmap c /\ disk c' = disk c /\
  forall v, is_Some (spaces c' !! v) <-> is_Some (spaces c !! v).

Lemma touched_accessed c c' : touched c c' -> accessed c c'.
Proof. intros H. destruct (wr_same _ _ _ _ H) as (E1 & E2 & E3 & E4 & E5 & E6). unfold accessed. rewrite E5. split_and!; try done. apply H. Qed.

Lemma accessed_trans c1 c2 c3 : accessed c1 c2 -> accessed c2 c3 -> accessed c1 c3.
Proof.
  intros (_ & ? & ? & ? & ? & ? & Hl1) (? & ? & ? & ? & ? & ? & Hl2). unfold accessed. split_and!; try congruence. intros v. by rewrite Hl2.
Qed.

Lemma set_pte_accessed v va o i q c : wf c -> all_apart c -> shows_at c v va o -> i = o / PAGE_SIZE -> mappable c i (pte_frame q) (can_write q) ->
  accessed c (set_pte v va q c) /\ forall j, file_page (set_pte v va q c) j = file_page c j.
Proof.
  intros H Ha Hs -> (p & Ei & Ef & Hu & Hw). split; [|done]. unfold accessed. split; [|split_and!; try done].
  - constructor; try apply H. intros u sp ua q' j. cbn. intros Esp Eq Hsh. change (shows (set_pte v va q c) u ua j) with (shows c u ua j) in Hsh.
    destruct (decide (u = v)) as [->|Hne]; [|rewrite lookup_alter_ne in Esp by done; by eapply (wf_pte _ H)].
    rewrite lookup_alter in Esp. destruct (decide (v = v)) as [_|]; [|done]. apply fmap_Some in Esp as (sp0 & Esp0 & ->). cbn in Eq. destruct (decide (ua = va)) as [->|Hna].
    + rewrite lookup_insert_eq in Eq. injection Eq as <-. apply shows_at_page in Hsh as (o' & Hs' & ->). rewrite (shows_at_inj c v va o' o) by done. by exists p.
    + rewrite lookup_insert_ne in Eq by done. by eapply (wf_pte _ H).
  - intros u. cbn. destruct (decide (u = v)) as [->|]; [|by rewrite lookup_alter_ne]. rewrite lookup_alter. destruct (decide (v = v)); [|done]. apply fmap_is_Some.
Qed.

Section access.
Context `{BF : Bitflags} (env : Env).
Hypothesis (Henv : env_ok env).

Lemma mappable_weaken c i f w : mappable c i f w -> mappable c i f false.
Proof. intros (p & ? & ? & ? & _). by exists p. Qed.

(** Two attempts are enough. *)
Lemma fault_spec c o m : wf c -> mode_is_shared m = true -> 0 <= o ->
  wp (fault env 2 o m) c (fun r c' => touched c c' /\
    match r with Ok (f, m') => mappable c' (o / PAGE_SIZE) f (mode_is_write m') /\ (mode_is_write m = true -> mode_is_write m' = true) | Err _ => failing env \/ vmo_size c <= o end).
Proof.
  intros H Hm Ho. assert (0 <= o / PAGE_SIZE) as Hi by (by apply Z.div_pos). cbn [fault].
  apply wp_bind. eapply wp_mono; [by apply (try_commit_page_spec env c o m)|]. intros [[err|[f m']]|e] c1 [Ht1 Hr1]; [|by pc|done].
  assert (wf c1) as H1 by apply Ht1. destruct (wr_same _ _ _ _ Ht1) as (Es1 & _).
  assert (forall i, i = o / PAGE_SIZE -> wp (_ ← commit_on env i m;
      r ← try_commit_page env o m;
      match r with
      | inr p => mret p
      | inl (CommitErr e) => throw e
      | inl (NeedIo i) | inl (WaitUntilInit i _) => _ ← commit_on env i m; blocked
      end) c1 (fun r c' => touched c c' /\
    match r with Ok (f, m') => mappable c' (o / PAGE_SIZE) f (mode_is_write m') /\ (mode_is_write m = true -> mode_is_write m' = true) | Err _ => failing env \/ vmo_size c <= o end)) as Hagain.
  { intros i ->. apply wp_bind. eapply wp_mono; [by apply (commit_on_spec env Henv c1 _ m)|]. intros [u|e] c2 [Ht2 Hr2]; [|split; [by eapply touched_trans|]].
    2:{ rewrite Es1, <- Z.nlt_ge, <- page_in_size, Z.nlt_ge in Hr2 by done. done. }
    assert (touched c c2) as Ht by (by eapply touched_trans). destruct Hr2 as [f Hf].
    apply wp_bind. eapply wp_mono; [apply (try_commit_page_spec env c2 o m); [apply Ht|done|done]|]. intros [[err'|[g m']]|e] c3 [Ht3 Hr3]; [| |done].
    - assert (touched c c3) as Ht' by (by eapply touched_trans). destruct err' as [e|i|i g]; [pc; split; [done|]; destruct (wr_same _ _ _ _ Ht) as (<- & _); by destruct Hr3| |].
      all: destruct Hr3 as [_ Hno]; destruct Hno; exists f; by eapply mappable_weaken.
    - pc. split; [by eapply touched_trans|done]. }
  destruct err as [e|i|i g]; [pc; by destruct Hr1|apply Hagain; by destruct Hr1 as [[= ->] _]|by destruct Hr1].
Qed.

Lemma rw_flags w : can_write (mkPte 0 (if w : bool then bf_union PageFlags_R PageFlags_W else PageFlags_R)) = true -> w = true.
Proof. by destruct w. Qed.

Lemma access_spec c v va w : wf c -> all_apart c ->
  wp (access env v va w) c (fun r c' => accessed c c' /\ (forall x, 0 <= x -> file_byte c' x = file_byte c x) /\
    match r with Ok f => is_Some (spaces c !! v) /\ exists o, shows_at c v (page_base va) o /\ mappable c' (o / PAGE_SIZE) f w
    | Err _ => failing env \/ forall o, is_Some (spaces c !! v) -> shows_at c v (page_base va) o -> vmo_size c <= o end).
Proof.
  intros H Ha. unfold access. pc. assert (accessed c c) as Hsame by (by apply touched_accessed, touched_refl).
  destruct (spaces c !! v) as [sp|] eqn:Esp; [|pc; split_and!; try done; right; by intros o [? ?]].
  destruct (offset_at v (page_base va) c) as [o|] eqn:Eo; [|pc; split_and!; try done; right; intros o _ Hs; apply (offset_at_Some c) in Hs; [congruence|done]].
  apply offset_at_Some in Eo; [|done].
  destruct (shows_at_base _ _ _ _ H Eo) as (_ & _ & Ho).
  assert (forall m0 (g : VmoMapMode -> Z), mode_is_shared m0 = true -> (w = true -> mode_is_write m0 = true) ->
    (forall m', (mode_is_write m0 = true -> mode_is_write m' = true) -> can_write (mkPte 0 (g m')) = true -> mode_is_write m' = true) ->
    wp ('(f, m) ← fault env 2 o m0; _ ← modify (set_pte v (page_base va) (mkPte f (g m))); mret f) c (fun r c' => accessed c c' /\ (forall x, 0 <= x -> file_byte c' x = file_byte c x) /\
    match r with Ok f => is_Some (Some sp) /\ exists o, shows_at c v (page_base va) o /\ mappable c' (o / PAGE_SIZE) f w
    | Err _ => failing env \/ forall o, is_Some (Some sp) -> shows_at c v (page_base va) o -> vmo_size c <= o end)) as Hfault.
  { intros m0 g Hsh Hw Hg. apply wp_bind. eapply wp_mono; [by apply (fault_spec c o m0)|]. intros [[f m]|e] c1 [Ht Hr].
    2:{ split; [by apply touched_accessed|]. split; [intros x Hx; by apply touched_byte|]. destruct Hr as [|Hout]; [by left|right]. intros o' _ Hs'. by rewrite (shows_at_inj c v (page_base va) o' o). }
    destruct Hr as [Hmap Hmode]. pc. destruct (wr_same _ _ _ _ Ht) as (_ & _ & _ & Erm & _).
    assert (shows_at c1 v (page_base va) o) as Hs1 by (unfold shows_at; by rewrite Erm).
    destruct (set_pte_accessed v (page_base va) o (o / PAGE_SIZE) (mkPte f (g m)) c1) as [Hacc Hfile]; [apply Ht|intros u es; rewrite Erm; apply Ha|done|done| |].
    { destruct Hmap as (p & Ei & Ef & Hu & Hd). exists p. split_and!; try done. intros Hcw. apply Hd. by apply Hg. }
    split; [eapply accessed_trans; [by apply touched_accessed|done]|]. split; [intros x Hx; unfold file_byte; rewrite Hfile; by apply (touched_byte c c1)|].
    split; [done|]. exists o. split; [done|]. destruct Hmap as (p & Ei & Ef & Hu & Hd). exists p. split_and!; try done. intros Ew. auto. }
  destruct (sp_table sp !! page_base va) as [q|] eqn:Eq.
  - destruct (negb w || can_write q) eqn:Ew.
    + pc. split; [done|]. split; [done|]. split; [done|]. exists o. split; [done|].
      destruct (wf_pte _ H v sp (page_base va) q (o / PAGE_SIZE) Esp Eq) as (p & Ei & Ef & Hu & Hw); [apply shows_at_page; by exists o|]. exists p. split_and!; try done.
      intros ->. by apply Hw.
    + apply (Hfault ModeSharedWrite (fun _ => bf_union PageFlags_R PageFlags_W)); try done. intros m' Hm' _. by apply Hm'.
  - apply (Hfault _ (fun m => if mode_is_write m then bf_union PageFlags_R PageFlags_W else PageFlags_R)); try done; [by destruct w|by destruct w|]. intros m' _ Hcw. by apply (rw_flags (mode_is_write m')).
Qed.
End access.

(** ** Loads and stores *)

(** The offset in the file of an address of an address space that is there. *)
Definition shown (c : Cache) (v : nat) (va : Z) : option Z := if decide (is_Some (spaces c !! v)) then offset_at v va c else None.

Lemma shown_Some c v va o : all_apart c -> shown c v va = Some o <-> is_Some (spaces c !! v) /\ shows_at c v va o.
Proof. intros Ha. unfold shown. rewrite <- offset_at_Some by done. destruct (decide _); naive_solver. Qed.

Lemma base_shows_at c v va o : wf c -> shows_at c v (page_base va) o -> shows_at c v va (o + va mod PAGE_SIZE) /\ o mod PAGE_SIZE = 0 /\ 0 <= o.
Proof.
  intros H Hs. destruct (shows_at_base _ _ _ _ H Hs) as (_ & Em & Ho). pose proof (Z.div_mod va PAGE_SIZE ltac:(done)). pose proof (Z.mod_pos_bound va PAGE_SIZE ltac:(done)).
  assert (page_base va mod PAGE_SIZE = 0) as Eb.
  { unfold page_base. replace (va - va mod PAGE_SIZE) with (va / PAGE_SIZE * PAGE_SIZE) by lia. by apply Z.mod_mul. }
  split; [|split; [congruence|done]]. destruct Hs as (es & e & Ev & He & Hc & ->). exists es, e. split_and!; try done; [|unfold page_base; lia].
  destruct (wf_rmap _ H v es e Ev He) as (L1 & L2 & L3 & L4 & L5 & [a D1] & [b D2] & [d D3]). apply covers_true in Hc. apply covers_true. unfold page_base in *. rewrite D2, D3 in *. unfold PAGE_SIZE in *. lia.
Qed.

Lemma file_byte_at c f i w o x : mappable c i f w -> o mod PAGE_SIZE = 0 -> i = o / PAGE_SIZE -> 0 <= x < PAGE_SIZE -> exists p, frames c !! f = Some p /\ file_byte c (o + x) = byte (page_data p) x.
Proof.
  intros (p & Ei & Ef & Hu & _) Ho -> Hx. exists p. split; [done|]. pose proof (Z.div_mod o PAGE_SIZE ltac:(done)).
  replace (o + x) with (o / PAGE_SIZE * PAGE_SIZE + x) by lia. rewrite file_byte_page by done. by rewrite (file_page_cached c _ f p).
Qed.

Section user.
Context `{BF : Bitflags} (env : Env).
Hypothesis (Henv : env_ok env).

(** An access fails behind the end of the object. *)
Lemma access_failed c v va : wf c -> all_apart c -> (forall o, is_Some (spaces c !! v) -> shows_at c v (page_base va) o -> vmo_size c <= o) ->
  forall o, shown c v va = Some o -> vmo_size c <= o.
Proof.
  intros H Ha Hout o [Hv Hs]%shown_Some; [|done]. destruct (shows_at_base _ _ _ _ H Hs) as (Hs' & _ & Ho). specialize (Hout _ Hv Hs').
  unfold page_base in Hout. pose proof (Z.mod_pos_bound o PAGE_SIZE ltac:(done)). lia.
Qed.

Lemma mapped_in_size c c1 o k f w : wf c1 -> vmo_size c1 = vmo_size c -> mappable c1 (o / PAGE_SIZE) f w -> o mod PAGE_SIZE = 0 -> 0 <= k < PAGE_SIZE -> o + k < vmo_size c.
Proof.
  intros H1 <- (p & Ei & _) Ho Hk. apply (page_in_size c1 _ H1). pose proof (wf_index _ H1 _ _ Ei) as Hi. pose proof (Z.div_mod o PAGE_SIZE ltac:(done)) as Hdm.
  replace ((o + k) / PAGE_SIZE) with (o / PAGE_SIZE); [lia|]. apply Z.div_unique with k; [lia|]. lia.
Qed.

(** A load that succeeds gets the byte of the file that is mapped there. *)
Lemma user_load_spec c v va : wf c -> all_apart c ->
  wp (user_load env v va) c (fun r c' => accessed c c' /\ (forall x, 0 <= x -> file_byte c' x = file_byte c x) /\
    match r with
    | Ok b => exists o, shown c v va = Some o /\ 0 <= o < vmo_size c /\ b = file_byte c o
    | Err _ => failing env \/ forall o, shown c v va = Some o -> vmo_size c <= o
    end).
Proof.
  intros H Ha. unfold user_load. apply wp_bind. eapply wp_mono; [by apply access_spec|]. intros [f|e] c1 (Hacc & Hby & Hr).
  2:{ split_and!; try done. destruct Hr as [|Hr]; [by left|right]. by eapply access_failed. }
  destruct Hr as (Hv & o & Hs & Hmap). destruct (base_shows_at c v va o H Hs) as (Hs' & Ho & Ho0). pose proof (Z.mod_pos_bound va PAGE_SIZE ltac:(done)) as Hb.
  destruct (file_byte_at c1 f _ false o (va mod PAGE_SIZE) Hmap Ho eq_refl Hb) as (p & Ef & Ebyte). pc. split; [done|]. split; [done|].
  exists (o + va mod PAGE_SIZE). split; [apply shown_Some; [done|by split]|].
  split; [split; [lia|]; eapply (mapped_in_size c c1); try done; apply Hacc|]. rewrite <- Ebyte. apply Hby. lia.
Qed.

(** A store that succeeds changes this byte of the file and no other. *)
Lemma user_store_spec c v va b : wf c -> all_apart c ->
  wp (user_store env v va b) c (fun r c' => accessed c c' /\
    match r with
    | Ok _ => exists o, shown c v va = Some o /\ 0 <= o < vmo_size c /\ forall x, 0 <= x -> file_byte c' x = if x =? o then b else file_byte c x
    | Err _ => (forall x, 0 <= x -> file_byte c' x = file_byte c x) /\ (failing env \/ forall o, shown c v va = Some o -> vmo_size c <= o)
    end).
Proof.
  intros H Ha. unfold user_store. apply wp_bind. eapply wp_mono; [by apply access_spec|]. intros [f|e] c1 (Hacc & Hby & Hr).
  2:{ split_and!; try done. destruct Hr as [|Hr]; [by left|right]. by eapply access_failed. }
  destruct Hr as (Hv & o & Hs & Hmap). pose proof Hmap as (p & Ei & Ef & Hu & Hd). destruct (base_shows_at c v va o H Hs) as (Hs' & Ho & Ho0). pose proof (Z.mod_pos_bound va PAGE_SIZE ltac:(done)) as Hb.
  set (k := va mod PAGE_SIZE) in *. assert (wf c1) as H1 by apply Hacc. destruct (wf_page _ H1 _ f Ei) as (p' & Ef' & Hl & Hwb & Hlen & _). assert (p' = p) as -> by congruence.
  set (d := splice (page_data p) k [b]). assert (len d = PAGE_SIZE) as Hld by (unfold d; rewrite len_splice; [done|lia|rewrite Hlen; unfold len; cbn; lia]).
  pc. fold d. assert (with_data d p = mkPage Dirty false false d) as ->.
  { destruct p; cbn in *. rewrite (Hd eq_refl), Hl, Hwb. done. }
  destruct (dirty_wf c1 _ f p d H1 Ei Ef Hu Hld) as [W Hfile]. split.
  - destruct Hacc as (_ & A1 & A2 & A3 & A4 & A5 & A6). unfold accessed. by split_and!.
  - exists (o + k). split; [apply shown_Some; [done|by split]|]. split; [split; [lia|]; eapply (mapped_in_size c c1); try done; apply Hacc|]. intros x Hx. rewrite <- (Hby x Hx). unfold file_byte. rewrite Hfile.
    pose proof (Z.div_mod o PAGE_SIZE ltac:(done)). pose proof (Z.div_mod x PAGE_SIZE ltac:(done)). pose proof (Z.mod_pos_bound x PAGE_SIZE ltac:(done)) as Hxb.
    destruct (decide (x / PAGE_SIZE = o / PAGE_SIZE)) as [Eq|Hne].
    + change (d !!! Z.to_nat (x mod PAGE_SIZE)) with (byte d (x mod PAGE_SIZE)). unfold d. rewrite byte_splice by (rewrite ?Hlen; unfold len; cbn; lia).
      rewrite Eq, (file_page_cached c1 _ f p) by done. unfold len. cbn [length].
      destruct (Z.leb_spec k (x mod PAGE_SIZE)), (Z.ltb_spec (x mod PAGE_SIZE) (k + Z.of_nat 1)), (Z.eqb_spec x (o + k)); cbn [andb]; try done; try (exfalso; unfold PAGE_SIZE in *; lia).
      replace (x mod PAGE_SIZE - k) with 0 by lia. done.
    + destruct (Z.eqb_spec x (o + k)) as [->|]; [|done]. exfalso. apply Hne. unfold PAGE_SIZE in *. lia.
Qed.
End user.

(** ** Mappings come and go *)

(** The cache is the same, only the address spaces have changed. *)
Definition rearranged (c c' : Cache) : Prop :=
  wf c' /\ all_apart c' /\ vmo_size c' = vmo_size c /\ vmo_flags c' = vmo_flags c /\ vmo_backend c' = vmo_backend c /\ disk c' = disk c /\
  forall i, file_page c' i = file_page c i.

Lemma rearranged_spaces c rm sps : wf c ->
  (forall v es, rm !! v = Some es -> apart es /\ forall e, e ∈ es -> entry_ok e) ->
  (forall v sp va q es e, sps !! v = Some sp -> sp_table sp !! va = Some q -> rm !! v = Some es -> e ∈ es -> covers e va = true ->
     exists sp0 es0, spaces c !! v = Some sp0 /\ sp_table sp0 !! va = Some q /\ vmo_rmap c !! v = Some es0 /\ e ∈ es0) ->
  rearranged c (with_spaces rm sps c).
Proof.
  intros H Hrm Hsp. unfold rearranged. split; [|split; [|done]].
  - constructor; try apply H.
    + intros v es e Ev He. by apply (Hrm v es Ev).
    + intros v sp va q i Esp Eq (es & e & Ev & He & Hc & ->). apply covers_true in Hc. destruct (Hsp v sp va q es e Esp Eq Ev He Hc) as (sp0 & es0 & Esp0 & Eq0 & Ev0 & He0).
      apply (wf_pte _ H v sp0 va q _ Esp0 Eq0). exists es0, e. split_and!; try done; by apply covers_true.
  - intros v es Ev. by apply (Hrm v es Ev).
Qed.

Lemma clear_range_lookup e sp va q : sp_table (clear_range e sp) !! va = Some q -> sp_table sp !! va = Some q /\ covers e va = false.
Proof.
  unfold clear_range, cursor_unmap. cbn. intros [E Hn]%map_lookup_filter_Some. split; [done|]. apply not_true_iff_false. rewrite covers_true. exact Hn.
Qed.

Lemma entry_okb_ok e : entry_okb e = true -> entry_ok e.
Proof.
  unfold entry_okb, entry_ok, is_multiple_of. rewrite !andb_true_iff, !Z.leb_le, !Z.ltb_lt, !Z.eqb_eq. intros H. split_and!; try tauto.
  all: apply Z.mod_divide; [done|tauto].
Qed.

Section arrange.
Context `{BF : Bitflags}.

Lemma map_shared_spec c v e : wf c -> all_apart c ->
  wp (map_shared v e) c (fun r c' =>
    (r = Ok false /\ c' = c) \/
    (r = Ok true /\ rearranged c c' /\ forall u va, shown c' u va = if bool_decide (u = v) && covers e va then Some (va - re_vaddr e + re_offset e) else shown c u va)).
Proof.
  intros H Ha. unfold map_shared. pc. destruct (spaces c !! v) as [sp|] eqn:Esp; [|pc; by left]. set (es := default [] _).
  assert (apart es /\ forall e', e' ∈ es -> entry_ok e') as [Hes Hok].
  { unfold es. destruct (vmo_rmap c !! v) as [l|] eqn:Ev; cbn; [split; [by apply (Ha v)|intros e'; by apply (wf_rmap _ H v)]|].
    split; [split; [constructor|]|]; intros ? * Hin; by apply elem_of_nil in Hin. }
  destruct (entry_okb e && _) eqn:Eg; [|pc; by left]. apply andb_true_iff in Eg as [Hek Hfree]. apply entry_okb_ok in Hek. rewrite forallb_forall in Hfree.
  assert (forall e' va, e' ∈ es -> covers e' va = true -> covers e va = true -> False) as Hdis.
  { intros e' va He' Hc' Hc. specialize (Hfree e' (proj1 (list_elem_of_In _ _) He')). apply covers_true in Hc', Hc. rewrite orb_true_iff, !Z.leb_le in Hfree. lia. }
  assert (covers e (re_vaddr e) = true) as Hself by (apply covers_true; destruct Hek as (_ & _ & ? & _); lia).
  pc. right. split; [done|]. set (c' := with_spaces _ _ c).
  assert (vmo_rmap c' = <[v := es ++ [e]]> (vmo_rmap c)) as Erm by done.
  assert (apart (es ++ [e])) as Hap.
  { destruct Hes as [Hnd Hd]. split.
    - apply NoDup_app. split_and!; [done| |apply NoDup_singleton]. intros e' He' ->%list_elem_of_singleton. by eapply (Hdis e).
    - intros e1 e2 va. rewrite !elem_of_app, !list_elem_of_singleton. intros [H1| ->] [H2| ->] Hc1 Hc2; [by eapply Hd|by destruct (Hdis e1 va)|by destruct (Hdis e2 va)|done]. }
  assert (rearranged c c') as Hre.
  { apply rearranged_spaces; [done| |].
    - intros u l. destruct (decide (u = v)) as [->|Hne]; unfold Rmap_insert; [rewrite lookup_insert_eq; intros [= <-]|rewrite lookup_insert_ne by done; intros Eu].
      + split; [done|]. intros e'. fold es. rewrite elem_of_app, list_elem_of_singleton. intros [?| ->]; [by apply Hok|done].
      + split; [by apply (Ha u)|]. intros e'. by apply (wf_rmap _ H u).
    - intros u sp' va q l e' Esp' Eq El He' Hc. destruct (decide (u = v)) as [->|Hne]; unfold Rmap_insert in El.
      + rewrite lookup_insert_eq in Esp'. rewrite lookup_insert_eq in El. injection Esp' as <-. injection El as <-. apply clear_range_lookup in Eq as [Eq Hnc]. fold es in He'.
        apply elem_of_app in He' as [He'| ->%list_elem_of_singleton]; [|congruence]. exists sp. unfold es in He'. destruct (vmo_rmap c !! v) as [l|]; [|by apply elem_of_nil in He']. by exists l.
      + rewrite lookup_insert_ne in Esp' by done. rewrite lookup_insert_ne in El by done. by exists sp', l. }
  split; [done|]. intros u va. apply option_eq. intros o. destruct Hre as (_ & Ha' & _). rewrite shown_Some by done.
  destruct (bool_decide_reflect (u = v)) as [->|Hne]; cbn [andb].
  - assert (is_Some (spaces c' !! v)) as Hlive by (cbn; rewrite lookup_insert_eq; by eexists).
    assert (shows_at c' v va o <-> (covers e va = true /\ o = va - re_vaddr e + re_offset e) \/ shows_at c v va o) as ->.
    { unfold shows_at. rewrite Erm. split.
      - intros (l & e' & El & He' & Hc & ->). rewrite lookup_insert_eq in El. injection El as <-. apply elem_of_app in He' as [He'| ->%list_elem_of_singleton]; [|by left].
        right. unfold es in He'. destruct (vmo_rmap c !! v) as [l|]; [|by apply elem_of_nil in He']. by exists l, e'.
      - intros [[Hc ->]|(l & e' & El & He' & Hc & ->)]; eexists; [exists e|exists e']; rewrite lookup_insert_eq; (split; [done|]); rewrite elem_of_app, list_elem_of_singleton; [by split_and!; [right|..]|].
        split_and!; try done. left. unfold es. by rewrite El. }
    destruct (covers e va) eqn:Ec.
    + split; [|intros [= <-]; split; [done|by left]]. intros [_ [[_ ->]|(l & e' & El & He' & Hc & _)]]; [done|]. exfalso. eapply (Hdis e' va); try done. unfold es. by rewrite El.
    + rewrite shown_Some by done. rewrite Esp. split; [intros [_ [[? _]|?]]; [done|by split]|intros [_ ?]; split; [done|by right]].
  - rewrite shown_Some by done. assert (shows_at c' u va o <-> shows_at c u va o) as -> by (unfold shows_at; rewrite Erm, lookup_insert_ne by done; done).
    cbn. by rewrite lookup_insert_ne.
Qed.

Lemma unmap_shared_spec c v vaddr : wf c -> all_apart c ->
  wp (unmap_shared v vaddr) c (fun r c' =>
    (r = Ok false /\ c' = c) \/
    (r = Ok true /\ rearranged c c' /\ exists e, re_vaddr e = vaddr /\ (forall va, covers e va = true -> shown c v va = Some (va - re_vaddr e + re_offset e)) /\
      forall u va, shown c' u va = if bool_decide (u = v) && covers e va then None else shown c u va)).
Proof.
  intros H Ha. unfold unmap_shared. pc. destruct (spaces c !! v) as [sp|] eqn:Esp; [|pc; by left].
  destruct (find_first _ _) as [e|] eqn:Ef; [|pc; by left]. apply find_first_Some in Ef as [He Hva]. apply Z.eqb_eq in Hva.
  destruct (vmo_rmap c !! v) as [es|] eqn:Ev; cbn in He; [|by apply elem_of_nil in He]. pose proof (Ha v es Ev) as [Hnd Hd].
  assert (forall e', e' ∈ es -> entry_ok e') as Hok by (intros e'; by apply (wf_rmap _ H v)).
  assert (forall e', e' ∈ es -> covers e' (re_vaddr e') = true) as Hself by (intros e' He'; apply covers_true; destruct (Hok e' He') as (_ & _ & ? & _); lia).
  apply elem_of_Permutation in He as [rest Hp]. rewrite Hp in Hnd. apply NoDup_cons in Hnd as [He Hnd].
  assert (e ∈ es) as Hin by (rewrite Hp; by left). assert (forall e', e' ∈ rest -> e' ∈ es) as Hrest by (intros e' ?; rewrite Hp; by right).
  assert (forall e' va, e' ∈ rest -> covers e' va = true -> covers e va = true -> False) as Hdis by (intros e' va Hr Hc' Hc; apply He; rewrite (Hd e e' va); auto).
  destruct (Rmap_remove_spec v (vmo_rmap c) vaddr e rest) as (rm & Erm & Hrm & Hother); [by rewrite Ev|done| |].
  { intros e' Hr Eq. eapply (Hdis e' vaddr Hr); [rewrite <- Eq; auto|rewrite <- Hva; auto]. }
  pc. eapply wp_lift; [exact Erm|]. pc. right. split; [done|].
  assert (forall l e', rm !! v = Some l -> e' ∈ l <-> e' ∈ rest) as Hl by (intros l e' El; rewrite El in Hrm; cbn in Hrm; by rewrite Hrm).
  set (c' := with_spaces _ _ c). assert (rearranged c c') as Hre.
  { apply rearranged_spaces; [done| |].
    - intros u l El. destruct (decide (u = v)) as [->|Hne]; [|rewrite Hother in El by done; split; [by apply (Ha u)|intros e'; by apply (wf_rmap _ H u)]].
      split; [split|]; [rewrite El in Hrm; cbn in Hrm; by rewrite Hrm| |intros e' Hr%(Hl l e' El); auto].
      intros e1 e2 va Hr1%(Hl l e1 El) Hr2%(Hl l e2 El) Hc1 Hc2. apply (Hd e1 e2 va); auto.
    - intros u sp' va q l e' Esp' Eq El He' Hc. destruct (decide (u = v)) as [->|Hne].
      + rewrite lookup_insert_eq in Esp'. injection Esp' as <-. apply clear_range_lookup in Eq as [Eq _]. exists sp, es. apply (Hl l e' El) in He'. auto.
      + rewrite lookup_insert_ne in Esp' by done. rewrite Hother in El by done. by exists sp', l. }
  split; [done|]. exists e. split; [done|]. split; [intros va Hc; apply shown_Some; [done|]; rewrite Esp; split; [done|]; by exists es, e|].
  intros u va. apply option_eq. intros o. destruct Hre as (_ & Ha' & _). rewrite shown_Some by done.
  destruct (bool_decide_reflect (u = v)) as [->|Hne]; cbn [andb].
  - assert (shows_at c' v va o <-> exists e', e' ∈ rest /\ covers e' va = true /\ o = va - re_vaddr e' + re_offset e') as ->.
    { unfold shows_at. cbn. split; [intros (l & e' & El & He'%(Hl l e' El) & ? & ?); by exists e'|]. intros (e' & Hr & ? & ?).
      destruct (rm !! v) as [l|] eqn:El; cbn in Hrm; [|rewrite <- Hrm in Hr; by apply elem_of_nil in Hr]. exists l, e'. split_and!; try done. by apply (Hl l e' eq_refl). }
    cbn. rewrite lookup_insert_eq. destruct (covers e va) eqn:Ec; [split; [|done]; intros [_ (e' & Hr & Hc & _)]; by destruct (Hdis e' va)|].
    rewrite shown_Some, Esp by done. split; [intros [_ (e' & Hr & Hc & ->)]|intros [_ (l & e' & El & He' & Hc & ->)]]; (split; [done|]); [exists es, e'; by auto|].
    assert (l = es) as -> by congruence. rewrite Hp in He'. apply elem_of_cons in He' as [->|He']; [congruence|]. by exists e'.
  - rewrite shown_Some by done. assert (shows_at c' u va o <-> shows_at c u va o) as -> by (unfold shows_at; cbn; rewrite Hother by done; done).
    cbn. by rewrite lookup_insert_ne.
Qed.

Lemma new_space_spec c v : wf c -> all_apart c ->
  wp (new_space v) c (fun r c' => rearranged c c' /\ (exists b, r = Ok b) /\ forall u va, shown c' u va = shown c u va).
Proof.
  intros H Ha. unfold new_space. pc. destruct (bool_decide_reflect (spaces c !! v = None)) as [Es|]; cbn [andb]; [|pc; by split_and!; [..|eexists|]].
  destruct (bool_decide_reflect (vmo_rmap c !! v = None)) as [Er|]; [|pc; by split_and!; [..|eexists|]]. pc.
  assert (rearranged c (with_spaces (vmo_rmap c) (<[v:=mkSpace ∅ 0]> (spaces c)) c)) as Hre.
  { apply rearranged_spaces; [done|intros u es Eu; split; [by apply (Ha u)|intros e; by apply (wf_rmap _ H u)]|].
    intros u sp va q es e Esp Eq Eu He Hc. destruct (decide (u = v)) as [->|]; [congruence|]. rewrite lookup_insert_ne in Esp by done. by exists sp, es. }
  split; [done|]. split; [by eexists|]. intros u va. apply option_eq. intros o. rewrite !shown_Some by (done || apply Hre). unfold shows_at. cbn.
  destruct (decide (u = v)) as [->|]; [|by rewrite lookup_insert_ne]. rewrite Er, Es. split; [intros [_ (es & e & ? & _)]; done|by intros [[? ?] _]].
Qed.

Lemma drop_space_spec c v : wf c -> all_apart c ->
  wp (drop_space v) c (fun r c' => rearranged c c' /\ r = Ok tt /\ forall u va, shown c' u va = if bool_decide (u = v) then None else shown c u va).
Proof.
  intros H Ha. unfold drop_space. pc. assert (rearranged c (with_spaces (vmo_rmap c) (delete v (spaces c)) c)) as Hre.
  { apply rearranged_spaces; [done|intros u es Eu; split; [by apply (Ha u)|intros e; by apply (wf_rmap _ H u)]|].
    intros u sp va q es e Esp Eq Eu He Hc. apply lookup_delete_Some in Esp as [_ Esp]. by exists sp, es. }
  split; [done|]. split; [done|]. intros u va. unfold shown. cbn. case_bool_decide as E.
  - subst u. rewrite lookup_delete_eq. by destruct (decide _) as [[? ?]|].
  - by rewrite lookup_delete_ne.
Qed.
End arrange.
