(* ===== verification/PageCacheSpec.v ===== *)
(** * The page cache: a cached file is a file

    A flat file, an array of bytes with a copy on the storage, and what the calls of the page cache and
    the accesses of user programs do to it.  Every sequence of calls and accesses on a page cache returns
    and does what the flat file does: reads and loads get the bytes of the file, writes and stores change
    them, a flush brings them to the storage, and eviction is not seen. *)

From S2P Require Import Prelude Flags Align IntervalSet VmMapping Vmar PageCache PageCacheInv PageCacheIo PageCacheFlush PageCacheResize PageCacheMmap.

(** ** Calls *)

(** The calls of a file system, of address spaces and of user programs; the memory of the caller of a
    read or a write may fault after some bytes. *)
Inductive Call :=
  | Read (offset n : Z) (fault : option Z)
  | Write (offset : Z) (bytes : list Z) (fault : option Z)
  | FillZeros (start end_ : Z)
  | Resize (new_size : Z)
  | Flush (start end_ : Z)
  | Evict (start end_ : Z)
  | Invalidate (start end_ : Z)
  | Map (v : nat) (e : RmapEntry)
  | Unmap (v : nat) (vaddr : Z)
  | NewSpace (v : nat)
  | DropSpace (v : nat)
  | Load (v : nat) (va : Z)
  | Store (v : nat) (va b : Z).

Inductive Answer :=
  | Bytes (l : list Z)
  | Done
  | Failed (e : Errno)
  | Refused.

(** The file system knows the size of the file in bytes, the cache in pages. *)
Record Sys := mkSys { sys_cache : Cache; sys_len : Z }.

Section serve.
Context `{BF : Bitflags} (env : Env).

Definition serve_pc {A} (m : PC A) (answer : A -> Answer) (s : Sys) : run (Answer * Sys) :=
  '(r, c) ← m (sys_cache s);
  Ret (match r with Ok a => (answer a, mkSys c (sys_len s)) | Err e => (Failed e, mkSys c (sys_len s)) end).

Definition done_if (b : bool) : Answer := if b then Done else Refused.

Definition serve (call : Call) (s : Sys) : run (Answer * Sys) :=
  match call with
  | Read offset n fault => serve_pc (PageCache.read env offset (mkWriter [] n fault)) (fun w => Bytes (wr_data w)) s
  | Write offset bytes fault => serve_pc (PageCache.write env offset (mkReader bytes fault)) (fun _ => Done) s
  | FillZeros a b => serve_pc (fill_zeros env (mkRange a b)) (fun _ => Done) s
  | Resize new =>
      '(answer, s') ← serve_pc (PageCache.resize env new (sys_len s)) (fun _ => Done) s;
      Ret (answer, match answer with Done => mkSys (sys_cache s') new | _ => s' end)
  | Flush a b => serve_pc (flush_range env (mkRange a b)) (fun _ => Done) s
  | Evict a b => serve_pc (evict_range env (mkRange a b)) (fun _ => Done) s
  | Invalidate a b => serve_pc (invalidate_range env (mkRange a b)) (fun _ => Done) s
  | Map v e => serve_pc (map_shared v e) done_if s
  | Unmap v vaddr => serve_pc (unmap_shared v vaddr) done_if s
  | NewSpace v => serve_pc (new_space v) done_if s
  | DropSpace v => serve_pc (drop_space v) (fun _ => Done) s
  | Load v va => serve_pc (user_load env v va) (fun b => Bytes [b]) s
  | Store v va b => serve_pc (user_store env v va b) (fun _ => Done) s
  end.

Fixpoint serve_all (calls : list Call) (s : Sys) : run (list Answer * Sys) :=
  match calls with
  | [] => Ret ([], s)
  | call :: calls =>
      '(answer, s) ← serve call s;
      '(answers, s) ← serve_all calls s;
      Ret (answer :: answers, s)
  end.
End serve.

(** The arguments that the callers give. *)
Definition range_ok (a b : Z) : Prop := 0 <= a /\ 0 <= b /\ b + PAGE_SIZE <= u64_modulus.
Definition memory_ok (fault : option Z) : Prop := match fault with Some k => 0 <= k | None => True end.

Definition call_ok (call : Call) : Prop :=
  match call with
  | Read offset n fault => 0 <= offset /\ 0 <= n /\ memory_ok fault
  | Write offset _ fault => 0 <= offset /\ memory_ok fault
  | FillZeros a b => 0 <= a
  | Resize new => 0 <= new /\ page_up new + PAGE_SIZE <= u64_modulus
  | Flush a b | Evict a b | Invalidate a b => range_ok a b
  | _ => True
  end.

(** ** The flat file *)

(** A file in whole pages, its copy on the storage, and the bytes that addresses show. *)
Record File := mkFile {
  a_len : Z;
  a_size : Z;
  a_backed : bool;
  a_byte : Z -> Z;
  a_disk : Z -> Z;
  a_at : nat -> Z -> option Z
}.

(** The bytes [bs] have been written at [o]. *)
Definition written (a a' : File) (o : Z) (bs : list Z) : Prop :=
  forall x, 0 <= x -> a_byte a' x = if (o <=? x) && (x <? o + len bs) then byte bs (x - o) else a_byte a x.

Definition same_bytes (a a' : File) : Prop := forall x, 0 <= x -> a_byte a' x = a_byte a x.
Definition same_disk (a a' : File) : Prop := forall x, 0 <= x -> a_disk a' x = a_disk a x.
Definition same_maps (a a' : File) : Prop := forall v va, a_at a' v va = a_at a v va.
Definition same_size (a a' : File) : Prop := a_len a' = a_len a /\ a_size a' = a_size a /\ a_backed a' = a_backed a.

Definition unchanged (a a' : File) : Prop := same_size a a' /\ same_bytes a a' /\ same_disk a a' /\ same_maps a a'.

(** The number of bytes from [o] on that there are. *)
Definition within (a : File) (o n : Z) : Z := Z.min n (Z.max 0 (a_size a - o)).

(** A change of bytes only. *)
Definition only_written (a a' : File) (o : Z) (bs : list Z) : Prop :=
  same_size a a' /\ same_disk a a' /\ same_maps a a' /\ written a a' o bs.

Definition flushes (a a' : File) (s t : Z) : Prop :=
  same_size a a' /\ same_bytes a a' /\ same_maps a a' /\
  forall x, 0 <= x -> a_disk a' x = if a_backed a && (s / PAGE_SIZE <=? x / PAGE_SIZE) && (x / PAGE_SIZE <? div_ceil t PAGE_SIZE) then a_byte a x else a_disk a x.

(** The bytes after a change of the size: bytes behind the old end read as zeros up to the end of the
    page, and pages that are cut off lose their bytes. *)
Definition resizes (a a' : File) (new : Z) : Prop :=
  a_len a' = new /\ a_size a' = page_up new /\ a_backed a' = a_backed a /\ same_disk a a' /\ same_maps a a' /\
  forall x, 0 <= x -> a_byte a' x =
    if (r_start (zeroed new (a_len a)) <=? x) && (x <? r_end (zeroed new (a_len a))) then 0
    else if (new <? a_len a) && (page_up new <=? x) then (if a_backed a then a_disk a x else 0)
    else a_byte a x.

(** What a call may do; [failing] says whether memory or the device may fail. *)
Definition file_step (failing : Prop) (a : File) (call : Call) (answer : Answer) (a' : File) : Prop :=
  match call, answer with
  | Read o n _, Bytes bs => unchanged a a' /\ bs = a_byte a <$> seqZ o (within a o n)
  | Read _ _ fault, Failed _ => unchanged a a' /\ (failing \/ fault <> None)
  | Write o bs _, Done => only_written a a' o (take (Z.to_nat (within a o (len bs))) bs)
  | Write o bs fault, Failed _ =>
      (exists k, 0 <= k <= within a o (len bs) /\ only_written a a' o (take (Z.to_nat k) bs)) /\ (failing \/ fault <> None)
  | FillZeros s t, Done => only_written a a' s (zeros (t - s))
  | FillZeros s t, Failed _ => (exists k, 0 <= k <= Z.max 0 (t - s) /\ only_written a a' s (zeros k)) /\ (failing \/ a_size a < t)
  | Resize new, Done => resizes a a' new
  | Resize new, Failed _ =>
      (exists k, 0 <= k <= r_end (zeroed new (a_len a)) - r_start (zeroed new (a_len a)) /\ only_written a a' (r_start (zeroed new (a_len a))) (zeros k)) /\ failing
  | Flush s t, Done | Invalidate s t, Done => flushes a a' s t
  | Evict _ _, Done => unchanged a a'
  | Map v e, Done =>
      same_size a a' /\ same_bytes a a' /\ same_disk a a' /\
      forall u va, a_at a' u va = if bool_decide (u = v) && covers e va then Some (va - re_vaddr e + re_offset e) else a_at a u va
  | Unmap v vaddr, Done =>
      same_size a a' /\ same_bytes a a' /\ same_disk a a' /\
      exists e, re_vaddr e = vaddr /\ (forall va, covers e va = true -> a_at a v va = Some (va - re_vaddr e + re_offset e)) /\
        forall u va, a_at a' u va = if bool_decide (u = v) && covers e va then None else a_at a u va
  | NewSpace _, Done => unchanged a a'
  | DropSpace v, Done =>
      same_size a a' /\ same_bytes a a' /\ same_disk a a' /\ forall u va, a_at a' u va = if bool_decide (u = v) then None else a_at a u va
  | Load v va, Bytes bs => unchanged a a' /\ exists o, a_at a v va = Some o /\ o < a_size a /\ bs = [a_byte a o]
  | Store v va b, Done => exists o, a_at a v va = Some o /\ o < a_size a /\ only_written a a' o [b]
  | Load v va, Failed _ | Store v va _, Failed _ => unchanged a a' /\ (failing \/ forall o, a_at a v va = Some o -> a_size a <= o)
  | Map _ _, Refused | Unmap _ _, Refused | NewSpace _, Refused => unchanged a a'
  | _, _ => False
  end.

Inductive file_steps (failing : Prop) : File -> list Call -> list Answer -> File -> Prop :=
  | file_steps_nil a : file_steps failing a [] [] a
  | file_steps_cons a call answer a1 calls answers a' :
      file_step failing a call answer a1 -> file_steps failing a1 calls answers a' -> file_steps failing a (call :: calls) (answer :: answers) a'.

(** ** The file of a page cache *)

Definition disk_byte (c : Cache) (x : Z) : Z := byte (disk_page c (x / PAGE_SIZE)) (x mod PAGE_SIZE).

Definition abs (s : Sys) : File :=
  let c := sys_cache s in mkFile (sys_len s) (vmo_size c) (backed c) (file_byte c) (disk_byte c) (shown c).

Section refine.
Context `{BF : Bitflags} (env : Env).
Hypothesis (Henv : env_ok env).

Record inv (s : Sys) : Prop := {
  inv_wf : wf (sys_cache s);
  inv_apart : all_apart (sys_cache s);
  inv_flags : bf_contains (vmo_flags (sys_cache s)) VmoFlags_RESIZABLE = true;
  inv_size : 0 <= sys_len s /\ vmo_size (sys_cache s) = page_up (sys_len s)
}.

(** The parts of the object that stay. *)
Definition same_vmo (c c' : Cache) : Prop := vmo_size c' = vmo_size c /\ vmo_flags c' = vmo_flags c /\ vmo_backend c' = vmo_backend c.

Lemma inv_same s c' : inv s -> wf c' -> all_apart c' -> same_vmo (sys_cache s) c' -> inv (mkSys c' (sys_len s)) /\ same_size (abs s) (abs (mkSys c' (sys_len s))).
Proof.
  intros [H Ha Hf Hs] H' Ha' (E1 & E2 & E3). split; [constructor; cbn; try done; congruence|]. unfold same_size. cbn. split_and!; try done. unfold backed. by rewrite E3.
Qed.

Lemma shown_same c c' : vmo_rmap c' = vmo_rmap c -> (forall v, is_Some (spaces c' !! v) <-> is_Some (spaces c !! v)) -> forall v va, shown c' v va = shown c v va.
Proof. intros E Hl v va. unfold shown, offset_at. rewrite E. by destruct (decide _) as [H1|H1], (decide _) as [H2|H2]; rewrite Hl in H1 || rewrite <- Hl in H2. Qed.

Lemma remapped_apart c c' : remapped c (vmo_rmap c') (spaces c') -> all_apart c -> all_apart c'.
Proof. intros (Hr & _) Ha v es Ev. apply (Ha v). by apply Hr. Qed.

Lemma shown_remapped c c' : remapped c (vmo_rmap c') (spaces c') -> forall v va, shown c' v va = shown c v va.
Proof.
  intros (H1 & H2 & H3 & _) v va. unfold shown, offset_at. destruct (decide (is_Some (spaces c' !! v))) as [Hv|Hv]; rewrite H3 in Hv; [rewrite decide_True by done|by rewrite decide_False].
  destruct (vmo_rmap c !! v) as [es|] eqn:E; [by rewrite (H2 v es E Hv)|]. destruct (vmo_rmap c' !! v) as [es|] eqn:E'; [|done]. apply H1 in E'. congruence.
Qed.

Lemma disk_byte_same c c' : disk c' = disk c -> forall x, disk_byte c' x = disk_byte c x.
Proof. intros E x. unfold disk_byte, disk_page. by rewrite E. Qed.

(** A call whose outcome is known by a rule. *)
Lemma serve_rule {A} (m : PC A) answer s Q (R : Answer * Sys -> Prop) : wp m (sys_cache s) Q ->
  (forall r c', Q r c' -> R (match r with Ok a => (answer a, mkSys c' (sys_len s)) | Err e => (Failed e, mkSys c' (sys_len s)) end)) ->
  returns (serve_pc m answer s) R.
Proof. intros ([r c'] & E & HQ) HR. unfold serve_pc. rewrite E. cbn. apply returns_ret. by apply (HR r). Qed.

Notation steps s call p := (inv p.2 /\ file_step (failing env) (abs s) call p.1 (abs p.2)).

Lemma writes_only s c' o bs : inv s -> writes (sys_cache s) c' o bs -> inv (mkSys c' (sys_len s)) /\ only_written (abs s) (abs (mkSys c' (sys_len s))) o bs.
Proof.
  intros Hi Hw. destruct (wr_same _ _ _ _ Hw) as (E1 & E2 & E3 & E4 & E5 & E6). destruct (inv_same s c') as [Hi' Hsz]; [done|apply Hw|intros v es; rewrite E4; apply Hi|done|].
  split; [done|]. split_and!; try done; try apply Hsz; [intros x _; by apply disk_byte_same|intros v va; apply (shown_same (sys_cache s) c'); [done|by rewrite E5]|]. intros x Hx. by apply (wr_byte _ _ _ _ Hw).
Qed.

Lemma written_nil a a' o : only_written a a' o [] -> unchanged a a'.
Proof.
  intros (Hs & Hd & Hm & Hw). unfold unchanged. split_and!; try done; try apply Hs. intros x Hx. rewrite (Hw x Hx). unfold len. cbn [length].
  destruct (Z.leb_spec o x), (Z.ltb_spec x (o + Z.of_nat 0)); cbn [andb]; try done. lia.
Qed.

Lemma memory_reason fault : memory_ok fault -> fault_ok (failing env \/ fault <> None) fault.
Proof. destruct fault as [k|]; cbn; [|done]. intros Hk. split; [done|by right]. Qed.

Lemma serve_read s o n fault : inv s -> call_ok (Read o n fault) -> returns (serve env (Read o n fault) s) (fun p => steps s (Read o n fault) p).
Proof.
  intros Hi (Ho & Hn & Hf). eapply serve_rule; [apply (read_spec (failing env \/ fault <> None) env Henv (or_introl (B := _))); [apply Hi|done|done|by apply memory_reason]|].
  intros r c' [Hld Hr]. apply (loads_writes _ _ o) in Hld. destruct (writes_only s c' o [] Hi Hld) as [Hi' Hw]. apply written_nil in Hw.
  destruct r as [w|e]; (split; [done|]); cbn; [|done]. split; [done|]. by destruct Hr as (-> & _).
Qed.

Lemma serve_write s o bs fault : inv s -> call_ok (Write o bs fault) -> returns (serve env (Write o bs fault) s) (fun p => steps s (Write o bs fault) p).
Proof.
  intros Hi (Ho & Hf). eapply serve_rule; [apply (write_spec (failing env \/ fault <> None) env Henv (or_introl (B := _))); [apply Hi|done|by apply memory_reason]|].
  intros [r'|e] c' Hr; cbn [fst snd].
  - destruct Hr as [Hw _]. by destruct (writes_only s c' o _ Hi Hw) as [Hi' Hw'].
  - destruct Hr as (HW & k & Hk & Hw). destruct (writes_only s c' o _ Hi Hw) as [Hi' Hw']. split; [done|]. cbn. split; [by exists k|done].
Qed.

Lemma serve_fill_zeros s a b : inv s -> call_ok (FillZeros a b) -> returns (serve env (FillZeros a b) s) (fun p => steps s (FillZeros a b) p).
Proof.
  intros Hi Ha. eapply serve_rule; [apply (fill_zeros_spec (failing env) env Henv (fun x => x)); [apply Hi|done]|].
  intros [[]|e] c' Hr; cbn [fst snd].
  - by destruct (writes_only s c' a _ Hi Hr) as [Hi' Hw'].
  - destruct Hr as (HW & k & Hk & Hw). destruct (writes_only s c' a _ Hi Hw) as [Hi' Hw']. split; [done|]. cbn. split; [by exists k|done].
Qed.

Lemma byte_backing c x : byte (backing c (x / PAGE_SIZE)) (x mod PAGE_SIZE) = if backed c then disk_byte c x else 0.
Proof.
  unfold backing. destruct (backed c); [done|]. pose proof (Z.mod_pos_bound x PAGE_SIZE ltac:(done)). unfold byte, zero_page. apply lookup_total_replicate_2. lia.
Qed.

Lemma serve_resize s new : inv s -> call_ok (Resize new) -> returns (serve env (Resize new) s) (fun p => steps s (Resize new) p).
Proof.
  intros Hi (Hn & Hm). pose proof Hi as [H Ha Hf [Hl Hs]]. cbn [serve].
  eapply returns_bind; [eapply (serve_rule _ _ s _ (fun p => (p.1 = Done /\ resized new (sys_len s) (sys_cache s) (sys_cache p.2)) \/
    (exists e, p.1 = Failed e) /\ sys_len p.2 = sys_len s /\ zeroed_some env (sys_cache s) (sys_cache p.2) new (sys_len s))); [by apply (resize_spec env Henv)|]|].
  { intros [[]|e] c' Hr; cbn [fst snd]; [by left|right]. by split; [eexists|]. }
  intros [ans [c' l']] [[Ea Hr]|((e & Ea) & El & HW & k & Hk & Hw)]; cbn [fst snd sys_cache sys_len] in *; subst; apply returns_ret; cbn [fst snd sys_cache].
  - destruct Hr as (W & S1 & S2 & S3 & S4 & S5 & S6). split.
    + constructor; cbn; [done|by eapply remapped_apart|congruence|done].
    + cbn [file_step]. unfold resizes. cbn. split_and!; try done; [unfold backed; by rewrite S3|intros x _; by apply disk_byte_same|intros v va; by apply shown_remapped|].
      intros x Hx. rewrite (S6 x Hx). unfold resized_byte. by rewrite byte_backing.
  - destruct (writes_only s c' _ _ Hi Hw) as [Hi' Hw']. split; [done|]. cbn [file_step]. split; [by exists k|done].
Qed.

(** Flushing brings the pages to the storage. *)
Lemma flushed_flushes s c' a b : inv s -> backed (sys_cache s) = true -> flushed (a / PAGE_SIZE) (div_ceil b PAGE_SIZE) (sys_cache s) c' ->
  inv (mkSys c' (sys_len s)) /\ flushes (abs s) (abs (mkSys c' (sys_len s))) a b.
Proof.
  intros Hi Hb (W & S1 & S2 & S3 & S4 & S5 & S6 & S7). destruct (inv_same s c') as [Hi' Hsz]; [done|done|eapply remapped_apart; [done|apply Hi]|done|].
  split; [done|]. unfold flushes. split_and!; try apply Hsz; [intros x _; cbn; unfold file_byte; by rewrite S5|intros v va; by apply (shown_remapped (sys_cache s) c')|].
  intros x Hx. cbn. rewrite Hb. cbn [andb]. unfold disk_byte. destruct (Z.leb_spec (a / PAGE_SIZE) (x / PAGE_SIZE)), (Z.ltb_spec (x / PAGE_SIZE) (div_ceil b PAGE_SIZE)); cbn [andb].
  - rewrite S6 by lia. done.
  - rewrite S7 by lia. done.
  - rewrite S7 by lia. done.
  - rewrite S7 by lia. done.
Qed.

Lemma unchanged_refl a : unchanged a a.
Proof. done. Qed.

Lemma unbacked_flushes s a b : backed (sys_cache s) = false -> flushes (abs s) (abs s) a b.
Proof. intros Hb. unfold flushes. split_and!; try done. intros x Hx. cbn. by rewrite Hb. Qed.

Lemma evicted_unchanged s c' : inv s -> evicted (sys_cache s) c' -> inv (mkSys c' (sys_len s)) /\ unchanged (abs s) (abs (mkSys c' (sys_len s))).
Proof.
  intros Hi (W & S1 & S2 & S3 & S4 & S5 & S6). destruct (inv_same s c') as [Hi' Hsz]; [done|done|eapply remapped_apart; [done|apply Hi]|done|].
  split; [done|]. unfold unchanged. split_and!; try apply Hsz; [intros x _; cbn; unfold file_byte; by rewrite S6|intros x _; by apply (disk_byte_same (sys_cache s) c')|].
  intros v va. by apply (shown_remapped (sys_cache s) c').
Qed.

Lemma serve_flush s a b : inv s -> call_ok (Flush a b) -> returns (serve env (Flush a b) s) (fun p => steps s (Flush a b) p).
Proof.
  intros Hi (Ha & Hb & Hm). eapply serve_rule; [by apply (flush_range_spec env Henv); [apply Hi|..]|]. intros r c' [-> Hr]. cbn [fst snd file_step].
  destruct (backed (sys_cache s)) eqn:E; [by apply flushed_flushes|]. subst c'. destruct s. cbn in *. split; [done|]. by apply unbacked_flushes.
Qed.

Lemma serve_evict s a b : inv s -> call_ok (Evict a b) -> returns (serve env (Evict a b) s) (fun p => steps s (Evict a b) p).
Proof.
  intros Hi (Ha & Hb & Hm). eapply serve_rule; [apply (evict_range_spec env); [apply Hi|done|done]|]. intros r c' [-> Hr]. cbn [fst snd file_step]. by apply evicted_unchanged.
Qed.

Lemma flushes_unchanged a a1 a' s t : flushes a a1 s t -> unchanged a1 a' -> flushes a a' s t.
Proof.
  intros ((L1 & L2 & L3) & B1 & M1 & D1) ((K1 & K2 & K3) & B2 & D2 & M2). unfold flushes, same_size. split_and!; try congruence.
  - intros x Hx. rewrite B2, B1 by done. done.
  - intros x Hx. rewrite D2, D1 by done. done.
Qed.

Lemma serve_invalidate s a b : inv s -> call_ok (Invalidate a b) -> returns (serve env (Invalidate a b) s) (fun p => steps s (Invalidate a b) p).
Proof.
  intros Hi (Ha & Hb & Hm). eapply serve_rule; [by apply (invalidate_range_spec env Henv); [apply Hi|..]|]. intros r c' [-> Hr]. cbn [fst snd file_step].
  destruct (backed (sys_cache s)) eqn:E.
  - destruct Hr as (c1 & Hf & He). destruct (flushed_flushes s c1 a b Hi E Hf) as [Hi1 Hf1]. destruct (evicted_unchanged _ c' Hi1 He) as [Hi2 He2]. split; [done|]. by eapply flushes_unchanged.
  - subst c'. destruct s. cbn in *. split; [done|]. by apply unbacked_flushes.
Qed.

(** A change of the address spaces. *)
Lemma rearranged_file s c' : inv s -> rearranged (sys_cache s) c' ->
  inv (mkSys c' (sys_len s)) /\ same_size (abs s) (abs (mkSys c' (sys_len s))) /\ same_bytes (abs s) (abs (mkSys c' (sys_len s))) /\ same_disk (abs s) (abs (mkSys c' (sys_len s))).
Proof.
  intros Hi (W & A & S1 & S2 & S3 & S4 & S5). destruct (inv_same s c') as [Hi' Hsz]; [done..|]. split_and!; try done; try apply Hsz; intros x _; cbn.
  - unfold file_byte. by rewrite S5.
  - by apply disk_byte_same.
Qed.

Lemma serve_map s v e : inv s -> returns (serve env (Map v e) s) (fun p => steps s (Map v e) p).
Proof.
  intros Hi. eapply serve_rule; [apply map_shared_spec; apply Hi|]. intros r c' [[-> ->]|(-> & Hre & Hsh)]; cbn [fst snd done_if file_step].
  - by destruct s.
  - destruct (rearranged_file s c' Hi Hre) as (Hi' & Hz & Hb & Hd). done.
Qed.

Lemma serve_unmap s v va : inv s -> returns (serve env (Unmap v va) s) (fun p => steps s (Unmap v va) p).
Proof.
  intros Hi. eapply serve_rule; [apply unmap_shared_spec; apply Hi|]. intros r c' [[-> ->]|(-> & Hre & Hsh)]; cbn [fst snd done_if file_step].
  - by destruct s.
  - destruct (rearranged_file s c' Hi Hre) as (Hi' & Hz & Hb & Hd). done.
Qed.

Lemma serve_new_space s v : inv s -> returns (serve env (NewSpace v) s) (fun p => steps s (NewSpace v) p).
Proof.
  intros Hi. eapply serve_rule; [apply new_space_spec; apply Hi|]. intros r c' (Hre & (b & ->) & Hsh). destruct (rearranged_file s c' Hi Hre) as (Hi' & Hz & Hb & Hd).
  by destruct b.
Qed.

Lemma serve_drop_space s v : inv s -> returns (serve env (DropSpace v) s) (fun p => steps s (DropSpace v) p).
Proof.
  intros Hi. eapply serve_rule; [apply drop_space_spec; apply Hi|]. intros r c' (Hre & -> & Hsh). destruct (rearranged_file s c' Hi Hre) as (Hi' & Hz & Hb & Hd). done.
Qed.

Lemma accessed_file s c' : inv s -> accessed (sys_cache s) c' ->
  inv (mkSys c' (sys_len s)) /\ same_size (abs s) (abs (mkSys c' (sys_len s))) /\ same_disk (abs s) (abs (mkSys c' (sys_len s))) /\ same_maps (abs s) (abs (mkSys c' (sys_len s))).
Proof.
  intros Hi (W & S1 & S2 & S3 & S4 & S5 & S6). destruct (inv_same s c') as [Hi' Hsz]; [done|done|intros v es; rewrite S4; apply Hi|done|].
  split_and!; try done; try apply Hsz; [intros x _; by apply (disk_byte_same (sys_cache s) c')|]. intros v va. by apply (shown_same (sys_cache s) c').
Qed.

Lemma serve_load s v va : inv s -> returns (serve env (Load v va) s) (fun p => steps s (Load v va) p).
Proof.
  intros Hi. eapply serve_rule; [apply (user_load_spec env Henv); apply Hi|]. intros r c' (Hacc & Hby & Hr). destruct (accessed_file s c' Hi Hacc) as (Hi' & Hz & Hd & Hm).
  assert (unchanged (abs s) (abs (mkSys c' (sys_len s)))) as Hun by (by split_and!; try apply Hz).
  destruct r as [b|e]; (split; [done|]); cbn [fst snd file_step]; (split; [done|]).
  - destruct Hr as (o & Ho & Hlt & ->). exists o. split; [done|]. split; [apply Hlt|done].
  - done.
Qed.

Lemma serve_store s v va b : inv s -> returns (serve env (Store v va b) s) (fun p => steps s (Store v va b) p).
Proof.
  intros Hi. eapply serve_rule; [apply (user_store_spec env Henv); apply Hi|]. intros r c' (Hacc & Hr). destruct (accessed_file s c' Hi Hacc) as (Hi' & Hz & Hd & Hm).
  destruct r as [[]|e]; (split; [done|]); cbn [fst snd file_step].
  - destruct Hr as (o & Ho & Hlt & Hw). exists o. split; [done|]. split; [apply Hlt|]. split_and!; try done; try apply Hz. intros x Hx. cbn. rewrite (Hw x Hx).
    destruct (Z.eqb_spec x o) as [->|Hne].
    + rewrite Z.leb_refl, (proj2 (Z.ltb_lt o (o + len [b]))) by (unfold len; cbn; lia). cbn [andb]. by rewrite Z.sub_diag.
    + destruct (Z.leb_spec o x), (Z.ltb_spec x (o + len [b])); cbn [andb]; try done. unfold len in *. cbn in *. lia.
  - destruct Hr as [Hby Hr]. split; [|done]. by split_and!; try apply Hz.
Qed.

Lemma serve_spec s call : inv s -> call_ok call -> returns (serve env call s) (fun p => steps s call p).
Proof.
  intros Hi Hok. destruct call.
  - by apply serve_read.
  - by apply serve_write.
  - by apply serve_fill_zeros.
  - by apply serve_resize.
  - by apply serve_flush.
  - by apply serve_evict.
  - by apply serve_invalidate.
  - by apply serve_map.
  - by apply serve_unmap.
  - by apply serve_new_space.
  - by apply serve_drop_space.
  - by apply serve_load.
  - by apply serve_store.
Qed.

Lemma serve_all_spec calls : forall s, inv s -> Forall call_ok calls ->
  returns (serve_all env calls s) (fun p => inv p.2 /\ file_steps (failing env) (abs s) calls p.1 (abs p.2)).
Proof.
  induction calls as [|call calls IH]; intros s Hi Hok; cbn [serve_all].
  { apply returns_ret. split; [done|constructor]. }
  apply Forall_cons in Hok as [Hok1 Hok]. eapply returns_bind; [by apply serve_spec|]. intros [ans s1] [Hi1 Hs1]. cbn [fst snd] in *.
  eapply returns_bind; [by apply IH|]. intros [answers s2] [Hi2 Hs2]. apply returns_ret. split; [done|]. by econstructor.
Qed.
End refine.

(** ** New page caches *)

(** The file on the storage, in a new page cache, and a new anonymous object. *)
Definition stored (d : gmap Z (list Z)) (x : Z) : Z := byte (default zero_page (d !! (x / PAGE_SIZE))) (x mod PAGE_SIZE).

Definition new_file (backed : bool) (size : Z) (d : gmap Z (list Z)) : File :=
  mkFile size (page_up size) backed (if backed then stored d else fun _ => 0) (stored d) (fun _ _ => None).

(** A new object over the storage [d]. *)
Definition create `{Bitflags} (env : Env) (backed : bool) (size : Z) (d : gmap Z (list Z)) (t : nat) : run (result unit * Cache) :=
  if backed then new_with_backend env size d t else new_anon env size t.

Definition storage_ok (backed : bool) (d : gmap Z (list Z)) : Prop :=
  if backed then map_Forall (fun _ p => len p = PAGE_SIZE) d else d = ∅.

Section create.
Context `{BF : Bitflags} (env : Env).

Lemma not_contiguous : bf_contains VmoFlags_RESIZABLE VmoFlags_CONTIGUOUS = false.
Proof. unfold VmoFlags_CONTIGUOUS. change (Z.shiftl 1 1) with (2 ^ 1). by rewrite contains_pow2. Qed.

Lemma create_spec b size d t : 0 <= size -> page_up size + PAGE_SIZE <= u64_modulus -> storage_ok b d ->
  exists c, create env b size d t = Ret (Ok tt, c) /\ inv (mkSys c size) /\ unchanged (new_file b size d) (abs (mkSys c size)).
Proof.
  intros Hs Hm Hd. destruct (page_up_bounds size Hs) as [Hb Hdiv].
  set (c := mkCache ∅ 0 ∅ (page_up size) VmoFlags_RESIZABLE (if b then Some true else None) ∅ ∅ d [] ∅ t).
  assert (create env b size d t = Ret (Ok tt, c)) as Ec.
  { unfold create, new_with_backend, new_anon, alloc_vmo, committed_pages_if_continuous. rewrite align_up_eq_page_up by lia. cbn [mbind run_bind].
    rewrite not_contiguous. destruct b; [done|]. cbn in Hd. by subst d. }
  exists c. split; [done|]. assert (backed c = b) as Eb by (by destruct b). assert (forall i, len (disk_page c i) = PAGE_SIZE) as Hlen.
  { intros i. unfold disk_page. cbn. destruct (d !! i) as [p|] eqn:E; cbn; [|apply len_zero_page]. destruct b; cbn in Hd; [by apply (Hd i)|by subst d]. }
  split; [constructor; [constructor|..]|].
  - cbn. split_and!; [lia|done|done].
  - cbn. by destruct b.
  - by intros i f.
  - by intros i j f.
  - by intros i f.
  - by intros f p.
  - done.
  - done.
  - by intros v es e.
  - by intros v sp va q i.
  - by intros v es.
  - cbn. apply contains_refl.
  - done.
  - unfold unchanged, same_size. cbn. split_and!; try done.
    intros x Hx. cbn. unfold file_byte, file_page. cbn. rewrite lookup_empty. pose proof (byte_backing c x) as Hbb. unfold byte in Hbb. rewrite Hbb, Eb. by destruct b.
Qed.
End create.

(** The states of a page cache in use. *)
Definition reachable `{Bitflags} (env : Env) (s : Sys) : Prop :=
  exists b size d t calls c answers, 0 <= size /\ page_up size + PAGE_SIZE <= u64_modulus /\ storage_ok b d /\ Forall call_ok calls /\
    create env b size d t = Ret (Ok tt, c) /\ serve_all env calls (mkSys c size) = Ret (answers, s).

Lemma cache_reachable_inv `{Bitflags} env s : env_ok env -> reachable env s -> inv s.
Proof.
  intros Henv (b & size & d & t & calls & c & answers & Hs & Hm & Hd & Hok & Ec & E). destruct (create_spec env b size d t Hs Hm Hd) as (c' & Ec' & Hi & _).
  assert (c' = c) as -> by congruence. destruct (serve_all_spec env Henv calls (mkSys c size) Hi Hok) as ([answers' s'] & E' & Hi' & _). cbn in Hi'. congruence.
Qed.

(** ** The theorems *)




(** ** An environment in which nothing fails *)

Definition plain_env : Env :=
  mkEnv (fun _ => true) (fun _ => zero_page) (fun _ n => n) (fun _ _ _ => ReadQueued) (fun _ _ => None) (fun _ _ => BioComplete) (fun _ d _ => d) (fun _ => None).

Lemma plain_env_ok : env_ok plain_env.
Proof.
  constructor; try done.
  - intros t n Hn. unfold PAGE_BATCH_CAPACITY in Hn. cbn [plain_env env_capacity]. lia.
  - intros t. by left.
Qed.

Lemma plain_env_works : ~ failing plain_env.
Proof. intros [(t & E)|[(t & i & d & e & E)|(t & E)]]; done. Qed.

#[local] Existing Instance Zflags.

(** Two address spaces map the first page of a file of two pages. *)
Definition demo_calls : list Call :=
  [NewSpace 0; NewSpace 1; Map 0 (mkEntry 0x10000 0 PAGE_SIZE); Map 1 (mkEntry 0x20000 0 PAGE_SIZE)].
Definition demo_cache : Cache := mkCache ∅ 0 ∅ (2 * PAGE_SIZE) VmoFlags_RESIZABLE (Some true) ∅ ∅ ∅ [] ∅ 0.
Definition demo_state : Sys := match serve_all plain_env demo_calls (mkSys demo_cache (2 * PAGE_SIZE)) with Ret (_, s) => s | _ => mkSys demo_cache 0 end.

Lemma demo_calls_ok : Forall call_ok demo_calls.
Proof. by repeat constructor. Qed.

Lemma demo_storage_ok : storage_ok true ∅.
Proof. apply map_Forall_empty. Qed.

Lemma demo_reachable : reachable plain_env demo_state.
Proof.
  exists true, (2 * PAGE_SIZE), ∅, 0%nat, demo_calls, demo_cache, [Done; Done; Done; Done]. split; [done|]. split; [done|]. split; [apply demo_storage_ok|].
  split; [apply demo_calls_ok|]. split; vm_compute; reflexivity.
Qed.




(** ** When the environment does not keep to [env_ok] *)

Definition answers_of (m : run (list Answer * Sys)) : run (list Answer) := '(l, _) ← m; Ret l.

(** The queue of the device is full for the first page of the file. *)
Definition busy_env : Env :=
  mkEnv (fun _ => true) (fun _ => zero_page) (fun _ n => n) (fun _ _ _ => ReadQueued) (fun _ i => if i =? 0 then Some EBUSY else None) (fun _ _ => BioComplete) (fun _ d _ => d) (fun _ => None).

(** Another thread evicts the first page of the file at time [k]. *)
Definition evicting_env (k : nat) : Env :=
  mkEnv (fun _ => true) (fun _ => zero_page) (fun _ n => n) (fun _ _ _ => ReadQueued) (fun _ _ => None) (fun _ _ => BioComplete) (fun _ d _ => d)
    (fun t => if (t =? k)%nat then Some (mkRange 0 PAGE_SIZE) else None).

Definition empty_cache (pages : Z) : Cache := mkCache ∅ 0 ∅ (pages * PAGE_SIZE) VmoFlags_RESIZABLE (Some true) ∅ ∅ ∅ [] ∅ 0.



(** The page of a new contiguous object of one page. *)
Definition contiguous_page : Cache := add_page 0 (mkPage Uninit false false zero_page) (mkCache ∅ 0 ∅ PAGE_SIZE VmoFlags_CONTIGUOUS None ∅ ∅ ∅ [] ∅ 1).

(** pages of a contiguous object cannot be mapped.  They are made with the default metadata and stay
    uninitialised: a page fault is told to wait for the page, and the call that waits fails its assertion
    that the page was evicted. *)
Theorem contiguous_pages_cannot_be_mapped m :
  alloc_vmo plain_env PAGE_SIZE VmoFlags_CONTIGUOUS None ∅ 0 = Ret (Ok tt, contiguous_page) /\
  try_commit_page plain_env 0 m contiguous_page = Ret (Ok (inl (NeedIo 0)), contiguous_page) /\
  commit_on plain_env 0 m contiguous_page = Panic.
Proof. destruct m; split_and!; vm_compute; reflexivity. Qed.
