(* ===== verification/StateError.v ===== *)
(** * Stateful calls that may fail or panic

    A call on a state of type [S] that returns a [Result<A>]: it may panic, and an error keeps the state
    that it was raised in, as [?] does.  [wp m s Q]: the call returns from [s], and its result and the
    state after it meet [Q].  The tactic [sm] takes the steps of a call for which there is nothing to
    show. *)

From S2P Require Import Prelude.

Definition SM (S A : Type) : Type := S -> run (result A * S).

#[export] Instance sm_ret S : MRet (SM S) := fun A a s => Ret (Ok a, s).
#[export] Instance sm_bind S : MBind (SM S) := fun A B f m s =>
  '(r, s) ← m s;
  match r with Ok a => f a s | Err e => Ret (Err e, s) end.

Section calls.
Context {S : Type}.

Definition raise {A} (e : Errno) : SM S A := fun s => Ret (Err e, s).
Definition liftr {A} (m : run A) : SM S A := fun s => a ← m; Ret (Ok a, s).
Definition gets {A} (f : S -> A) : SM S A := fun s => Ret (Ok (f s), s).
Definition update (f : S -> S) : SM S unit := fun s => Ret (Ok tt, f s).

(** The result of a call as a value: [match call() { .. }]. *)
Definition attempt {A} (m : SM S A) : SM S (result A) := fun s => '(r, s) ← m s; Ret (Ok r, s).

(** [for x in l]. *)
Fixpoint for_in {A} (l : list A) (f : A -> SM S unit) : SM S unit :=
  match l with
  | [] => mret tt
  | x :: l => _ ← f x; for_in l f
  end.

(** [while]: the body says whether the loop goes on. *)
Fixpoint repeat_while {A B} (fuel : nat) (f : A -> SM S (flow A B)) (a : A) : SM S B :=
  match fuel with
  | O => fun _ => NoFuel
  | Datatypes.S fuel =>
      r ← f a;
      match r with
      | Continue a => repeat_while fuel f a
      | Break b => mret b
      end
  end.

Definition wp {A} (m : SM S A) (s : S) (Q : result A -> S -> Prop) : Prop := returns (m s) (fun rs => Q rs.1 rs.2).

Lemma sm_wp_bind {A B} (m : SM S A) (k : A -> SM S B) s Q :
  wp m s (fun r s' => match r with Ok a => wp (k a) s' Q | Err e => Q (Err e) s' end) -> wp (m ≫= k) s Q.
Proof.
  intros ([r s'] & E & H). unfold wp, mbind, sm_bind. rewrite E. cbn [mbind run_bind]. cbn in H.
  destruct r; [done|]. by apply returns_ret.
Qed.

Lemma sm_wp_mono {A} (m : SM S A) s (Q R : result A -> S -> Prop) : wp m s Q -> (forall r s', Q r s' -> R r s') -> wp m s R.
Proof. intros H HQ. eapply returns_mono; [exact H|]. intros [r s']. apply HQ. Qed.

Lemma sm_wp_ret {A} (a : A) s (Q : result A -> S -> Prop) : Q (Ok a) s -> wp (mret a) s Q.
Proof. intros H. by apply returns_ret. Qed.

Lemma sm_wp_raise {A} e s (Q : result A -> S -> Prop) : Q (Err e) s -> wp (raise e) s Q.
Proof. intros H. by apply returns_ret. Qed.

Lemma sm_wp_gets {A} (g : S -> A) s (Q : result A -> S -> Prop) : Q (Ok (g s)) s -> wp (gets g) s Q.
Proof. intros H. by apply returns_ret. Qed.

Lemma sm_wp_update g s (Q : result unit -> S -> Prop) : Q (Ok tt) (g s) -> wp (update g) s Q.
Proof. intros H. by apply returns_ret. Qed.

Lemma sm_wp_lift {A} (m : run A) a s (Q : result A -> S -> Prop) : m = Ret a -> Q (Ok a) s -> wp (liftr m) s Q.
Proof. intros -> H. by apply returns_ret. Qed.

Lemma sm_wp_lift_returns {A} (m : run A) s (Q : result A -> S -> Prop) : returns m (fun a => Q (Ok a) s) -> wp (liftr m) s Q.
Proof. intros (a & -> & H). by apply returns_ret. Qed.

Lemma sm_wp_attempt {A} (m : SM S A) s (Q : result (result A) -> S -> Prop) : wp m s (fun r s' => Q (Ok r) s') -> wp (attempt m) s Q.
Proof. intros ([r s'] & E & H). unfold wp, attempt. rewrite E. cbn. by apply returns_ret. Qed.

Lemma sm_wp_for_in {A} (l : list A) (f : A -> SM S unit) (I : nat -> S -> Prop) (Q : result unit -> S -> Prop) s :
  I 0%nat s ->
  (forall j x s, l !! j = Some x -> I j s -> wp (f x) s (fun r s' => match r with Ok _ => I (Datatypes.S j) s' | Err e => Q (Err e) s' end)) ->
  (forall s, I (length l) s -> Q (Ok tt) s) ->
  wp (for_in l f) s Q.
Proof.
  revert I s. induction l as [|x l IH]; intros I s H0 Hstep Hend; cbn [for_in].
  - apply sm_wp_ret. by apply Hend.
  - apply sm_wp_bind. eapply sm_wp_mono; [by apply (Hstep 0%nat)|]. intros [[]|e] s' H; [|done].
    apply (IH (fun j => I (Datatypes.S j))); [done|intros j y s2 Hy H2; by apply Hstep|done].
Qed.

Lemma sm_wp_while {A B} (f : A -> SM S (flow A B)) (I : A -> S -> Prop) (m : A -> nat) (Q : result B -> S -> Prop) :
  (forall a s, I a s -> wp (f a) s (fun r s' =>
     match r with Ok (Continue a') => I a' s' /\ (m a' < m a)%nat | Ok (Break b) => Q (Ok b) s' | Err e => Q (Err e) s' end)) ->
  forall fuel a s, I a s -> (m a < fuel)%nat -> wp (repeat_while fuel f a) s Q.
Proof.
  intros Hstep fuel. induction fuel as [|fuel IH]; intros a s Ha Hm; [lia|]. cbn [repeat_while]. apply sm_wp_bind.
  eapply sm_wp_mono; [by apply Hstep|]. intros [[a'|b]|e] s' H; [|by apply sm_wp_ret|done]. destruct H. apply IH; [done|lia].
Qed.

End calls.

Ltac sm1 :=
  lazymatch goal with
  | |- wp (mbind _ _) _ _ => apply sm_wp_bind
  | |- wp (mret _) _ _ => apply sm_wp_ret
  | |- wp (raise _) _ _ => apply sm_wp_raise
  | |- wp (gets _) _ _ => apply sm_wp_gets
  | |- wp (update _) _ _ => apply sm_wp_update
  | |- wp (attempt _) _ _ => apply sm_wp_attempt
  | |- wp (liftr (assert_run true)) _ _ => apply (sm_wp_lift _ tt); [reflexivity|]
  | |- wp (liftr (Ret _)) _ _ => eapply sm_wp_lift; [reflexivity|]
  end.
Ltac sm := repeat (sm1; cbn beta iota).
