(* ===== verification/Ext2Bitmap.v ===== *)
(** * The bitmaps of ext2: [kernel/core/src/fs/utils/id_bitmap.rs]

    A block of the disk as a set of identifiers, with the least identifier that is free.  The bits of a
    buffer are those of the [bitvec] crate, which is not part of the repository: [BitView] is what the
    code relies on, and [lsb0] shows that it can be met.  Allocation finds a run of free identifiers
    whenever there is one, and takes the first. *)

From S2P Require Import Prelude.

Definition BLOCK_SIZE : Z := 4096.

(** [AsBits::as_bits], [AsMutBits::as_mut_bits] with [BitSlice::set], and [BitSlice::first_zero]. *)
Class BitView := {
  as_bits : list Z -> list bool;
  set_bit : list Z -> nat -> bool -> list Z;
  first_zero : list bool -> option nat;

  as_bits_length b : length (as_bits b) = (8 * length b)%nat;
  set_bit_length b i v : length (set_bit b i v) = length b;
  as_bits_set b i v : (i < 8 * length b)%nat -> as_bits (set_bit b i v) = <[i := v]> (as_bits b);
  first_zero_spec l :
    match first_zero l with
    | Some i => l !! i = Some false /\ forall j, (j < i)%nat -> l !! j = Some true
    | None => forall j v, l !! j = Some v -> v = true
    end
}.

Record IdBitmap := mkBitmap { buf : list Z; first_available_id : Z; bm_len : Z }.

(** A half-open range of integers. *)
Notation Range := (Z * Z)%type.

(** The integers of a range, in order. *)
Definition range_list (a b : Z) : list Z := (fun i => a + Z.of_nat i) <$> seq 0 (Z.to_nat (b - a)).

Section bitmap.
Context `{BV : BitView}.

Definition capacity : Z := BLOCK_SIZE * 8.

Definition bit_slice (m : IdBitmap) : run (list bool) :=
  if (length (as_bits (buf m)) <? Z.to_nat (bm_len m))%nat then Panic else Ret (take (Z.to_nat (bm_len m)) (as_bits (buf m))).

(** [bit_slice_mut().set(id, v)]. *)
Definition set (m : IdBitmap) (id : Z) (v : bool) : run IdBitmap :=
  bits ← bit_slice m;
  if (Z.to_nat id <? length bits)%nat then Ret (mkBitmap (set_bit (buf m) (Z.to_nat id) v) (first_available_id m) (bm_len m)) else Panic.

(** Sets the bits of a range, one after the other. *)
Definition set_all (m : IdBitmap) (ids : list Z) (v : bool) : run IdBitmap :=
  foldl (fun acc id => m ← acc; set m id v) (Ret m) ids.

Definition update_first_available_id (m : IdBitmap) (start : Z) : run IdBitmap :=
  bits ← bit_slice m;
  if bm_len m <? start then Panic
  else Ret (mkBitmap (buf m) (match first_zero (drop (Z.to_nat start) bits) with Some o => start + Z.of_nat o | None => bm_len m end) (bm_len m)).

Definition from_buf (b : list Z) (len : Z) : run IdBitmap :=
  _ ← assert_run (len <=? capacity);
  update_first_available_id (mkBitmap b 0 len) 0.

Definition is_allocated (m : IdBitmap) (id : Z) : run bool :=
  bits ← bit_slice m;
  vec_get bits (Z.to_nat id).

Definition alloc (m : IdBitmap) : run (option Z * IdBitmap) :=
  if first_available_id m <? bm_len m then
    let id := first_available_id m in
    m ← set m id true;
    m ← update_first_available_id m (id + 1);
    Ret (Some id, m)
  else Ret (None, m).

(** The loop over [curr_range]. *)
Definition scan_step (bits : list bool) (len count : Z) (r : Range) : run (flow Range Range) :=
  let '(s, e) := r in
  if (e - s <? count) && (e <? len) then
    b ← vec_get bits (Z.to_nat e);
    if (b : bool) then Ret (Continue (e + 1, e + 1)) else Ret (Continue (s, e + 1))
  else Ret (Break r).

Definition alloc_consecutive (m : IdBitmap) (count : Z) : run (option Range * IdBitmap) :=
  if count =? 0 then Ret (None, m)
  else if 2 ^ 16 <=? first_available_id m + count then Ret (None, m)
  else if bm_len m <? first_available_id m + count then Ret (None, m)
  else
    bits ← bit_slice m;
    '(s, e) ← loop (S (Z.to_nat (bm_len m))) (scan_step bits (bm_len m) count) (first_available_id m, first_available_id m + 1);
    if e - s <? count then Ret (None, m)
    else
      m ← set_all m (range_list s e) true;
      first ← is_allocated m (first_available_id m);
      m ← (if (first : bool) then update_first_available_id m e else Ret m);
      Ret (Some (s, e), m).

Definition free (m : IdBitmap) (id : Z) : run IdBitmap :=
  allocated ← is_allocated m id;
  _ ← assert_run allocated;
  m ← set m id false;
  Ret (if id <? first_available_id m then mkBitmap (buf m) id (bm_len m) else m).

Definition free_consecutive (m : IdBitmap) (r : Range) : run IdBitmap :=
  let '(s, e) := r in
  if e <=? s then Ret m
  else
    m ← foldl (fun acc id =>
          m ← acc;
          allocated ← is_allocated m id;
          _ ← assert_run allocated;
          set m id false) (Ret m) (range_list s e);
    Ret (if s <? first_available_id m then mkBitmap (buf m) s (bm_len m) else m).

(** ** The set of identifiers *)

Definition bits (m : IdBitmap) : list bool := take (Z.to_nat (bm_len m)) (as_bits (buf m)).

(** Is the identifier in use?  Those out of range are not. *)
Definition bit (m : IdBitmap) (id : Z) : bool := bool_decide (0 <= id) && default false (bits m !! Z.to_nat id).

Record bitmap_ok (m : IdBitmap) : Prop := {
  bm_buf : Z.of_nat (length (buf m)) = BLOCK_SIZE;
  bm_bound : 0 <= bm_len m <= capacity;
  bm_first_range : 0 <= first_available_id m <= bm_len m;
  bm_first_free : first_available_id m < bm_len m -> bit m (first_available_id m) = false;
  bm_first_least id : 0 <= id < first_available_id m -> bit m id = true
}.

(** The buffer is a block, and the identifiers fit in it. *)
Definition shaped (m : IdBitmap) : Prop := Z.of_nat (length (buf m)) = BLOCK_SIZE /\ 0 <= bm_len m <= capacity.

(** The number of free identifiers. *)
Definition free_ids (m : IdBitmap) : Z := tally (fun b : bool => if b then 0 else 1) (bits m).

(** ** Lemmas *)

Lemma range_list_lookup a b j x : range_list a b !! j = Some x -> x = a + Z.of_nat j /\ (j < Z.to_nat (b - a))%nat.
Proof.
  unfold range_list. rewrite list_lookup_fmap. destruct (seq 0 (Z.to_nat (b - a)) !! j) eqn:E; [|done].
  apply lookup_seq in E. cbn. intros [= <-]. lia.
Qed.

Lemma range_list_length a b : length (range_list a b) = Z.to_nat (b - a).
Proof. unfold range_list. by rewrite length_fmap, length_seq. Qed.

Lemma elem_of_range_list a b x : x ∈ range_list a b <-> a <= x < b.
Proof.
  unfold range_list. rewrite list_elem_of_fmap. setoid_rewrite elem_of_seq. split.
  - intros (y & -> & ?). lia.
  - intros ?. exists (Z.to_nat (x - a)). lia.
Qed.

Lemma range_list_NoDup a b : NoDup (range_list a b).
Proof. apply NoDup_fmap; [intros ??; lia|apply NoDup_seq]. Qed.

Lemma bitmap_shaped m : bitmap_ok m -> shaped m.
Proof. intros []. by split. Qed.

Lemma bits_total m : shaped m -> length (bits m) = Z.to_nat (bm_len m).
Proof.
  intros [Hb Hl]. unfold bits. rewrite length_take, as_bits_length. unfold capacity, BLOCK_SIZE in *. lia.
Qed.

Lemma bit_slice_shaped m : shaped m -> bit_slice m = Ret (bits m).
Proof.
  intros [Hb Hl]. unfold bit_slice. rewrite as_bits_length. case_cond; [|done]. unfold capacity, BLOCK_SIZE in *. lia.
Qed.

Lemma bit_lookup m id v : 0 <= id -> bits m !! Z.to_nat id = Some v -> bit m id = v.
Proof. intros ? E. unfold bit. rewrite E, bool_decide_true by done. done. Qed.

Lemma bits_lookup m id : shaped m -> 0 <= id < bm_len m -> bits m !! Z.to_nat id = Some (bit m id).
Proof.
  intros Hs ?. destruct (lookup_lt_is_Some_2 (bits m) (Z.to_nat id)) as [v Hv]; [rewrite bits_total by done; lia|].
  rewrite Hv. f_equal. symmetry. apply bit_lookup; [lia|done].
Qed.

Lemma bit_in_range m id : shaped m -> bit m id = true -> 0 <= id < bm_len m.
Proof.
  intros Hs. unfold bit. case_bool_decide; [|done]. cbn. destruct (bits m !! Z.to_nat id) eqn:E; [|done].
  intros _. apply lookup_lt_Some in E. rewrite bits_total in E by done. lia.
Qed.

Lemma is_allocated_ok m id : shaped m -> 0 <= id < bm_len m -> is_allocated m id = Ret (bit m id).
Proof.
  intros Hs ?. unfold is_allocated. rewrite bit_slice_shaped by done. cbn. unfold vec_get. by rewrite bits_lookup.
Qed.

(** [m'] is [m] with other bits. *)
Definition rebits (m m' : IdBitmap) (bs : list bool) : Prop :=
  shaped m' /\ bm_len m' = bm_len m /\ first_available_id m' = first_available_id m /\ bits m' = bs.

Lemma set_ok m id v : shaped m -> 0 <= id < bm_len m -> returns (set m id v) (fun m' => rebits m m' (<[Z.to_nat id := v]> (bits m))).
Proof.
  intros Hs ?. unfold set. rewrite bit_slice_shaped by done. cbn [mbind run_bind]. rewrite bits_total by done.
  case_cond; [|lia]. apply returns_ret. destruct Hs as [Hb Hl]. split; [|split; [|split]]; [|done..|].
  - split; cbn; [by rewrite set_bit_length|done].
  - unfold bits. cbn. rewrite as_bits_set by (unfold capacity, BLOCK_SIZE in *; lia). by rewrite take_insert_lt by lia.
Qed.

(** The bits after a loop that writes [v] at the identifiers of a list. *)
Definition fill (ids : list Z) (v : bool) (bs : list bool) : list bool := foldl (fun bs id => <[Z.to_nat id := v]> bs) bs ids.

Lemma fill_app ids id v bs : fill (ids ++ [id]) v bs = <[Z.to_nat id := v]> (fill ids v bs).
Proof. unfold fill. by rewrite foldl_app. Qed.

Lemma fill_lookup ids v bs i : (forall id, id ∈ ids -> 0 <= id) ->
  fill ids v bs !! i = if bool_decide (Z.of_nat i ∈ ids) then (fun _ => v) <$> bs !! i else bs !! i.
Proof.
  induction ids as [|id ids IH] using rev_ind; intros Hpos; [done|]. rewrite fill_app.
  assert (length (fill ids v bs) = length bs) as Hlen.
  { clear. induction ids as [|id ids IH] using rev_ind; [done|]. by rewrite fill_app, length_insert. }
  pose proof (Hpos id ltac:(set_solver)). destruct (decide (i = Z.to_nat id)) as [->|Hne].
  - rewrite bool_decide_true by (rewrite Z2Nat.id by done; set_solver).
    destruct (bs !! Z.to_nat id) eqn:E; cbn.
    + apply lookup_lt_Some in E. by rewrite list_lookup_insert_eq by lia.
    + apply lookup_ge_None in E. apply lookup_ge_None. rewrite length_insert. lia.
  - rewrite list_lookup_insert_ne, IH by (done || set_solver).
    assert (Z.of_nat i <> id) by lia. case_bool_decide; case_bool_decide; set_solver.
Qed.

Lemma set_all_ok m ids v : shaped m -> (forall id, id ∈ ids -> 0 <= id < bm_len m) ->
  returns (set_all m ids v) (fun m' => rebits m m' (fill ids v (bits m))).
Proof.
  intros Hs Hids. unfold set_all.
  eapply returns_mono; [apply (returns_foldl _ (fun j m' => rebits m m' (fill (take j ids) v (bits m))))|].
  - by repeat split; try apply Hs.
  - intros j id m' Hj (Hs' & El & Ef & Eb). eapply returns_mono; [apply set_ok; [done|]|].
    { rewrite El. apply Hids. by eapply list_elem_of_lookup_2. }
    intros m2 (? & E2 & E3 & E4). split; [done|]. rewrite E2, E3, E4, Eb, El, Ef.
    split_and!; [done..|]. by rewrite (take_S_r _ _ id), fill_app.
  - intros m'. by rewrite firstn_all.
Qed.

Lemma bit_rebits m m' ids v id : shaped m -> (forall id, id ∈ ids -> 0 <= id < bm_len m) -> rebits m m' (fill ids v (bits m)) ->
  bit m' id = if bool_decide (id ∈ ids) then v else bit m id.
Proof.
  intros Hs Hids (_ & _ & _ & Eb). unfold bit. rewrite Eb. destruct (decide (0 <= id)) as [Hpos|Hneg].
  - rewrite !bool_decide_true by done. rewrite fill_lookup by (intros ? ?%Hids; lia). rewrite Z2Nat.id by done. cbn.
    case_bool_decide as Hin; [|done]. rewrite bits_lookup by (done || by apply Hids). done.
  - rewrite !(bool_decide_false (0 <= id)) by done. rewrite bool_decide_false; [done|]. intros ?%Hids. lia.
Qed.

Lemma tally_fill ids v bs : NoDup ids -> (forall id, id ∈ ids -> 0 <= id /\ bs !! Z.to_nat id = Some (negb v)) ->
  tally (fun b : bool => if b then 0 else 1) (fill ids v bs) = tally (fun b : bool => if b then 0 else 1) bs + (if v then -1 else 1) * Z.of_nat (length ids).
Proof.
  induction ids as [|id ids IH] using rev_ind; intros Hnd Hids; [unfold fill; cbn [foldl length]; destruct v; lia|]. rewrite fill_app, length_app.
  apply NoDup_app in Hnd as (Hnd & Hni & _). destruct (Hids id) as [Hp Hb]; [set_solver|].
  rewrite (tally_insert _ _ _ (negb v)).
  - rewrite IH by (done || set_solver). cbn [length]. destruct v; cbn [negb]; lia.
  - rewrite fill_lookup by (intros ? ?; apply Hids; set_solver). rewrite Z2Nat.id by done.
    rewrite bool_decide_false by set_solver. done.
Qed.

(** The identifiers from [s] to [e] are taken, or given back. *)
Record taken (m m' : IdBitmap) (s e : Z) : Prop := {
  tk_ok : bitmap_ok m';
  tk_len : bm_len m' = bm_len m;
  tk_range : 0 <= s <= e /\ e <= bm_len m;
  tk_before id : s <= id < e -> bit m id = false;
  tk_bit id : bit m' id = bool_decide (s <= id < e) || bit m id;
  tk_free : free_ids m' = free_ids m - (e - s)
}.

Record given_back (m m' : IdBitmap) (s e : Z) : Prop := {
  gb_ok : bitmap_ok m';
  gb_len : bm_len m' = bm_len m;
  gb_range : 0 <= s <= e /\ e <= bm_len m;
  gb_before id : s <= id < e -> bit m id = true;
  gb_bit id : bit m' id = negb (bool_decide (s <= id < e)) && bit m id;
  gb_free : free_ids m' = free_ids m + (e - s)
}.

Lemma update_first_ok m start : shaped m -> 0 <= start <= bm_len m ->
  returns (update_first_available_id m start) (fun m' =>
    buf m' = buf m /\ bm_len m' = bm_len m /\ start <= first_available_id m' <= bm_len m /\
    (first_available_id m' < bm_len m -> bit m (first_available_id m') = false) /\
    forall id, start <= id < first_available_id m' -> bit m id = true).
Proof.
  intros Hs Hst. unfold update_first_available_id. rewrite bit_slice_shaped by done. cbn [mbind run_bind].
  case_cond; [lia|]. apply returns_ret. cbn [buf bm_len first_available_id].
  pose proof (first_zero_spec (drop (Z.to_nat start) (bits m))) as Hz. destruct (first_zero _) as [o|].
  - destruct Hz as [Hz Hlt]. rewrite lookup_drop in Hz. pose proof (lookup_lt_Some _ _ _ Hz) as Hl.
    rewrite bits_total in Hl by done. split_and!; [done..|lia|lia| |].
    + intros _. apply bit_lookup; [lia|]. rewrite <- Hz. f_equal. lia.
    + intros id Hid. apply bit_lookup; [lia|]. rewrite <- (Hlt (Z.to_nat (id - start))) by lia.
      rewrite lookup_drop. f_equal. lia.
  - split_and!; [done..|lia|lia|lia|]. intros id Hid. apply (Hz (Z.to_nat (id - start))).
    rewrite lookup_drop, <- bits_lookup by (done || lia). f_equal. lia.
Qed.

Lemma bit_same_buf m m' id : buf m' = buf m -> bm_len m' = bm_len m -> bit m' id = bit m id.
Proof. intros E1 E2. unfold bit, bits. by rewrite E1, E2. Qed.

Lemma free_ids_same_buf m m' : buf m' = buf m -> bm_len m' = bm_len m -> free_ids m' = free_ids m.
Proof. intros E1 E2. unfold free_ids, bits. by rewrite E1, E2. Qed.

(** Bits that were clear are set, and the least free identifier is found again. *)
Lemma take_range m m1 s e : bitmap_ok m -> 0 <= s <= e -> e <= bm_len m -> (forall id, s <= id < e -> bit m id = false) ->
  rebits m m1 (fill (range_list s e) true (bits m)) ->
  (forall id, bit m1 id = bool_decide (s <= id < e) || bit m id) /\ free_ids m1 = free_ids m - (e - s).
Proof.
  intros Hm Hse Hl Hb Hr. pose proof (bitmap_shaped m Hm) as Hs. split.
  - intros id. rewrite (bit_rebits m m1 (range_list s e) true) by (done || (intros ? ?%elem_of_range_list; lia)).
    rewrite (bool_decide_ext _ _ (elem_of_range_list s e id)). by case_bool_decide.
  - destruct Hr as (_ & _ & _ & E). unfold free_ids. rewrite E, tally_fill.
    + rewrite range_list_length. lia.
    + apply range_list_NoDup.
    + intros id Hid%elem_of_range_list. split; [lia|]. rewrite bits_lookup by (done || lia). by rewrite Hb.
Qed.

Lemma alloc_ok m : bitmap_ok m -> returns (alloc m) (fun rm =>
  match rm.1 with
  | Some id => taken m rm.2 id (id + 1) /\ forall id', 0 <= id' < id -> bit m id' = true
  | None => rm.2 = m /\ forall id, 0 <= id < bm_len m -> bit m id = true
  end).
Proof.
  intros Hm. pose proof (bitmap_shaped m Hm) as Hs. pose proof Hm as [Hb Hl Hfr Hff Hfl]. unfold alloc.
  case_cond; [|apply returns_ret; split; [done|]; intros id ?; apply Hfl; lia].
  set (id := first_available_id m) in *.
  eapply returns_bind; [apply set_ok; [done|lia]|]. intros m1 Hr.
  destruct (take_range m m1 id (id + 1)) as [Hbit Hfree]; [done|lia|lia|intros ? ?; replace id0 with id by lia; auto|..].
  { replace (range_list id (id + 1)) with [id]; [exact Hr|]. unfold range_list. replace (Z.to_nat (id + 1 - id)) with 1%nat by lia. cbn. f_equal. lia. }
  destruct Hr as (Hs1 & El1 & Ef1 & _).
  eapply returns_bind; [apply update_first_ok; [done|lia]|]. intros m2 (Eb2 & El2 & Hf2 & Hff2 & Hfl2). apply returns_ret. cbn [fst snd].
  split; [|intros; by apply Hfl].
  assert (forall i, bit m2 i = bit m1 i) as Hb2 by (intros; by apply bit_same_buf).
  constructor; [|lia|lia| |intros i; by rewrite Hb2|by rewrite (free_ids_same_buf m1 m2)].
  - destruct Hs1. constructor; [by rewrite Eb2|by rewrite El2|lia|rewrite Hb2; intros; apply Hff2; lia|].
    intros i Hi. rewrite Hb2. destruct (decide (id + 1 <= i)); [apply Hfl2; lia|]. rewrite Hbit.
    destruct (decide (i = id)) as [->|]; [by rewrite bool_decide_true by lia|]. rewrite Hfl by lia. by rewrite orb_true_r.
  - intros i Hi. replace i with id by lia. auto.
Qed.

(** No run of [count] free identifiers starts before [limit]. *)
Definition no_run (m : IdBitmap) (count limit : Z) : Prop :=
  forall a, 0 <= a < limit -> a + count <= bm_len m -> exists id, a <= id < a + count /\ bit m id = true.

Lemma scan_ok m count : bitmap_ok m -> 0 < count -> first_available_id m + count <= bm_len m ->
  returns (loop (S (Z.to_nat (bm_len m))) (scan_step (bits m) (bm_len m) count) (first_available_id m, first_available_id m + 1))
    (fun '(s, e) =>
      0 <= s <= e /\ e <= bm_len m /\ (forall id, s <= id < e -> bit m id = false) /\
      (e - s = count /\ no_run m count s \/ e - s < count /\ no_run m count (bm_len m))).
Proof.
  intros Hm Hc Hl. pose proof (bitmap_shaped m Hm) as Hs. destruct Hm as [_ _ Hfr Hff Hfl].
  refine (loop_total _ (fun '(s, e) => 0 <= s <= e /\ e <= bm_len m /\ e - s <= count /\ (forall id, s <= id < e -> bit m id = false) /\ no_run m count s)
            _ (fun '(s, e) => Z.to_nat (bm_len m - e)) _ _ _ _ _); [|split_and!; try lia|lia].
  - intros [s e] (Hse & He & Hcn & Hz & Hn). unfold scan_step. case_cond.
    + unfold vec_get. rewrite bits_lookup by (done || lia). cbn [unwrap mbind run_bind].
      destruct (bit m e) eqn:Eb; eexists; (split; [done|]); (split; [|lia]); split_and!; try lia; [| |done].
      * intros a Ha Hal. destruct (decide (a < s)); [apply Hn; lia|]. exists e. split; [lia|done].
      * intros id Hid. destruct (decide (id = e)) as [->|]; [done|]. apply Hz. lia.
    + eexists. split; [done|]. split_and!; try lia; [done|]. destruct (decide (e - s = count)); [by left|right].
      split; [lia|]. intros a Ha Hal. destruct (decide (a < s)); [by apply Hn; lia|]. destruct E; boolify; lia.
  - intros id Hid. replace id with (first_available_id m) by lia. apply Hff. lia.
  - intros a Ha _. exists a. split; [lia|]. by apply Hfl.
Qed.

(** A run is found if there is one, and it is the first. *)
Lemma alloc_consecutive_ok m count : bitmap_ok m -> 0 < count -> returns (alloc_consecutive m count) (fun rm =>
  match rm.1 with
  | Some (s, e) => e = s + count /\ taken m rm.2 s e /\ no_run m count s
  | None => rm.2 = m /\ no_run m count (bm_len m)
  end).
Proof.
  intros Hm Hc. pose proof (bitmap_shaped m Hm) as Hs. pose proof Hm as [Hb Hl Hfr Hff Hfl]. unfold alloc_consecutive.
  assert (bm_len m < first_available_id m + count -> no_run m count (bm_len m)) as Hfar.
  { intros ? a Ha Hal. exists a. split; [lia|]. apply Hfl. lia. }
  case_cond; [lia|]. case_cond; [apply returns_ret; split; [done|]; apply Hfar; unfold capacity, BLOCK_SIZE in *; lia|].
  case_cond; [apply returns_ret; split; [done|]; auto|]. rewrite bit_slice_shaped by done. cbn [mbind run_bind].
  eapply returns_bind; [apply scan_ok; [done..|lia]|]. intros [s e] (Hse & He & Hz & Hcase).
  case_cond; [apply returns_ret; split; [done|]; destruct Hcase as [[? _]|[_ ?]]; [lia|done]|].
  destruct Hcase as [[Hec Hn]|[? _]]; [|lia].
  eapply returns_bind; [apply (set_all_ok m); [done|intros ? ?%elem_of_range_list; lia]|]. intros m1 Hr.
  destruct (take_range m m1 s e Hm Hse He Hz Hr) as [Hbit Hfree]. destruct Hr as (Hs1 & El1 & Ef1 & _).
  rewrite is_allocated_ok by (done || lia). cbn [mbind run_bind].
  assert (forall m2, buf m2 = buf m1 -> bm_len m2 = bm_len m1 -> bitmap_ok m2 -> e = s + count /\ taken m m2 s e /\ no_run m count s) as Hfin.
  { intros m2 Eb2 El2 Hok. split; [lia|]. split; [|done]. constructor; [done|lia|lia|done| |].
    - intros id. by rewrite (bit_same_buf m1 m2).
    - by rewrite (free_ids_same_buf m1 m2). }
  destruct (bit m1 (first_available_id m1)) eqn:Ebf.
  - eapply returns_bind; [apply update_first_ok; [done|lia]|]. intros m2 (Eb2 & El2 & Hf2 & Hff2 & Hfl2). apply returns_ret. cbn [fst snd].
    assert (forall i, bit m2 i = bit m1 i) as Hb2 by (intros; by apply bit_same_buf).
    apply Hfin; [done|done|]. destruct Hs1. constructor; [by rewrite Eb2|by rewrite El2|lia|rewrite Hb2; intros; apply Hff2; lia|].
    intros i Hi. rewrite Hb2. destruct (decide (e <= i)); [apply Hfl2; lia|]. rewrite Hbit.
    destruct (decide (s <= i)); [by rewrite bool_decide_true by lia|]. rewrite Hbit, Ef1, Hff in Ebf by lia.
    rewrite orb_false_r in Ebf. apply bool_decide_eq_true in Ebf. rewrite Hfl by lia. by rewrite orb_true_r.
  - cbn [mbind run_bind]. apply returns_ret. cbn [fst snd]. apply Hfin; [done..|]. destruct Hs1.
    constructor; [done|done|lia|done|]. intros id Hid. rewrite Hbit, Hfl by lia. by rewrite orb_true_r.
Qed.

(** A cleared range keeps the map in order, with its start as the least free identifier if that is less. *)
Lemma give_range m m1 s e : bitmap_ok m -> 0 <= s < e -> e <= bm_len m -> (forall id, s <= id < e -> bit m id = true) ->
  rebits m m1 (fill (range_list s e) false (bits m)) ->
  given_back m (if s <? first_available_id m1 then mkBitmap (buf m1) s (bm_len m1) else m1) s e.
Proof.
  intros Hm Hse Hl Hb Hr. pose proof (bitmap_shaped m Hm) as Hs. set (m2 := if _ <? _ then _ else _).
  assert (buf m2 = buf m1 /\ bm_len m2 = bm_len m1) as [Eb El] by (unfold m2; by case_cond).
  assert (first_available_id m2 = Z.min s (first_available_id m1)) as Ef by (unfold m2; case_cond; cbn; lia).
  assert (forall id, bit m2 id = negb (bool_decide (s <= id < e)) && bit m id) as Hbit.
  { intros id. rewrite (bit_same_buf m1 m2) by done.
    rewrite (bit_rebits m m1 (range_list s e) false) by (done || (intros ? ?%elem_of_range_list; lia)).
    rewrite (bool_decide_ext _ _ (elem_of_range_list s e id)). by case_bool_decide. }
  destruct Hr as ([Hs1 Hs1'] & El1 & Ef1 & E1). destruct Hm as [_ _ Hfr Hff Hfl].
  constructor; [constructor|..]; rewrite ?Eb, ?El, ?Ef, ?Ef1, ?El1; [done|lia|lia| | |done|lia|done|done|].
  - intros _. rewrite Hbit. destruct (decide (first_available_id m < s)).
    + rewrite Z.min_r by lia. rewrite Hff by lia. apply andb_false_r.
    + rewrite Z.min_l by lia. by rewrite bool_decide_true by lia.
  - intros id Hid. rewrite Hbit, bool_decide_false by lia. rewrite Hfl by lia. done.
  - rewrite (free_ids_same_buf m1 m2) by done. unfold free_ids. rewrite E1, tally_fill.
    + rewrite range_list_length. lia.
    + apply range_list_NoDup.
    + intros id Hid%elem_of_range_list. split; [lia|]. rewrite bits_lookup by (done || lia). by rewrite Hb.
Qed.

Lemma free_ok m id : bitmap_ok m -> bit m id = true -> returns (free m id) (fun m' => given_back m m' id (id + 1)).
Proof.
  intros Hm Hb. pose proof (bitmap_shaped m Hm) as Hs. pose proof (bit_in_range m id Hs Hb). unfold free.
  rewrite is_allocated_ok, Hb by done. cbn [mbind run_bind assert_run].
  eapply returns_bind; [by apply set_ok|]. intros m1 Hr. apply returns_ret.
  apply give_range; [done|lia|lia|intros i ?; by replace i with id by lia|].
  unfold range_list. replace (Z.to_nat (id + 1 - id)) with 1%nat by lia. cbn. by rewrite Z.add_0_r.
Qed.

Lemma free_consecutive_ok m s e : bitmap_ok m -> 0 <= s < e -> e <= bm_len m -> (forall id, s <= id < e -> bit m id = true) ->
  returns (free_consecutive m (s, e)) (fun m' => given_back m m' s e).
Proof.
  intros Hm Hse Hl Hb. pose proof (bitmap_shaped m Hm) as Hs. unfold free_consecutive. case_cond; [lia|].
  eapply returns_bind; [apply (returns_foldl _ (fun j m' => rebits m m' (fill (take j (range_list s e)) false (bits m))))|].
  - by repeat split; try apply Hs.
  - intros j id m' Hj Hr. pose proof (range_list_lookup _ _ _ _ Hj) as [Eid Hjl].
    assert (forall x, x ∈ take j (range_list s e) -> 0 <= x < bm_len m) as Hin.
    { intros x Hx. apply elem_of_take in Hx as (i & Hx & ?). apply range_list_lookup in Hx as [-> ?]. lia. }
    pose proof (bit_rebits m m' _ false id Hs Hin Hr) as Hbit. destruct Hr as (Hs' & El & Ef & Eb).
    rewrite bool_decide_false in Hbit.
    2: { intros (i & Hx & ?)%elem_of_take. apply range_list_lookup in Hx as [? ?]. lia. }
    rewrite is_allocated_ok, Hbit, Hb by (done || lia). cbn [mbind run_bind assert_run].
    eapply returns_mono; [apply set_ok; [done|lia]|]. intros m2 (? & E2 & E3 & E4). split; [done|]. rewrite E2, E3, E4, Eb, El, Ef.
    split_and!; [done..|]. by rewrite (take_S_r _ _ id), fill_app.
  - intros m1. rewrite firstn_all. intros Hr. apply returns_ret. by apply give_range.
Qed.

Lemma from_buf_ok b len : Z.of_nat (length b) = BLOCK_SIZE -> 0 <= len <= capacity ->
  returns (from_buf b len) (fun m => bitmap_ok m /\ buf m = b /\ bm_len m = len).
Proof.
  intros Hb Hl. unfold from_buf. destruct (Z.leb_spec len capacity); [|lia]. cbn [mbind run_bind assert_run].
  assert (shaped (mkBitmap b 0 len)) as Hs by done.
  eapply returns_mono; [apply update_first_ok; [done|cbn; lia]|]. intros m (Eb & El & Hf & Hff & Hfl). cbn in *. subst.
  split; [|done]. constructor; [done|done|lia|..]; intros; rewrite (bit_same_buf (mkBitmap (buf m) 0 (bm_len m)) m) by done; auto.
Qed.

Lemma bit_ext_free_ids m m' : shaped m -> shaped m' -> bm_len m' = bm_len m -> (forall id, bit m' id = bit m id) -> free_ids m' = free_ids m.
Proof.
  intros Hs Hs' El Hb. unfold free_ids. f_equal. apply list_eq. intros i.
  destruct (decide (Z.of_nat i < bm_len m)) as [Hi|Hi].
  - rewrite <- (Nat2Z.id i). rewrite !bits_lookup by (done || lia). by rewrite Hb.
  - rewrite !lookup_ge_None_2; [done|rewrite bits_total by done; lia..].
Qed.

End bitmap.

(** ** Bits in the order [Lsb0] *)

Definition byte_bits (x : Z) : list bool := (fun i => Z.testbit x (Z.of_nat i)) <$> seq 0 8.

Definition lsb0_bits (b : list Z) : list bool := b ≫= byte_bits.

Definition lsb0_set (b : list Z) (i : nat) (v : bool) : list Z :=
  alter (fun x : Z => if v then Z.setbit x (Z.of_nat (i mod 8)) else Z.clearbit x (Z.of_nat (i mod 8))) (i / 8)%nat b.

Lemma lsb0_length b : length (lsb0_bits b) = (8 * length b)%nat.
Proof. induction b as [|x b IH]; [done|]. unfold lsb0_bits in *. cbn [mbind list_bind]. rewrite length_app, IH. cbn [length]. unfold byte_bits. rewrite length_fmap, length_seq. lia. Qed.

Lemma byte_bits_set x i (v : bool) : (i < 8)%nat ->
  byte_bits (if v then Z.setbit x (Z.of_nat i) else Z.clearbit x (Z.of_nat i)) = <[i := v]> (byte_bits x).
Proof.
  intros Hi. apply list_eq. intros j. unfold byte_bits. destruct (decide (j < 8)%nat) as [Hj|Hj].
  2: { rewrite !lookup_ge_None_2; [done|rewrite ?length_insert, length_fmap, length_seq; lia..]. }
  rewrite list_lookup_fmap, lookup_seq_lt by done. cbn [fmap option_fmap option_map plus]. destruct (decide (j = i)) as [->|Hne].
  - rewrite list_lookup_insert_eq by (rewrite length_fmap, length_seq; lia). f_equal.
    destruct v; [apply Z.setbit_eq; lia|apply Z.clearbit_eq].
  - rewrite list_lookup_insert_ne, list_lookup_fmap, lookup_seq_lt by done. cbn. f_equal.
    destruct v; [apply Z.setbit_neq; lia|apply Z.clearbit_neq; lia].
Qed.

Lemma lsb0_bits_set b i v : (i < 8 * length b)%nat -> lsb0_bits (lsb0_set b i v) = <[i := v]> (lsb0_bits b).
Proof.
  revert i. induction b as [|x b IH]; intros i Hi; cbn [length] in Hi; [lia|]. unfold lsb0_bits, lsb0_set in *.
  assert (length (byte_bits x) = 8%nat) as Hx by (unfold byte_bits; by rewrite length_fmap, length_seq).
  destruct (decide (i < 8)%nat) as [Hlt|Hge].
  - rewrite Nat.div_small, Nat.mod_small by done. cbn [alter list_alter mbind list_bind]. rewrite byte_bits_set by done.
    by rewrite insert_app_l by lia.
  - replace i with (8 + (i - 8))%nat by lia. set (k := (i - 8)%nat).
    replace ((8 + k) / 8)%nat with (S (k / 8)) by (pose proof (Nat.div_add_l 1 8 k ltac:(lia)) as E; cbn [Nat.add Nat.mul] in *; lia).
    replace ((8 + k) mod 8)%nat with (k mod 8)%nat by (pose proof (Nat.Div0.mod_add k 1 8) as E; rewrite Nat.add_comm; cbn [Nat.add Nat.mul] in *; lia).
    cbn [alter list_alter mbind list_bind]. replace (8 + k)%nat with (length (byte_bits x) + k)%nat by (by rewrite Hx). rewrite insert_app_r. f_equal. apply IH. lia.
Qed.

#[export] Program Instance lsb0 : BitView := {|
  as_bits := lsb0_bits;
  set_bit := lsb0_set;
  first_zero := position negb
|}.
Next Obligation. apply lsb0_length. Qed.
Next Obligation. intros. unfold lsb0_set. apply length_alter. Qed.
Next Obligation. intros. by apply lsb0_bits_set. Qed.
Next Obligation.
  intros l. cbn. destruct (position negb l) as [i|] eqn:E.
  - apply position_Some in E as (l1 & x & l2 & -> & <- & Hx & Hall). destruct x; [done|]. rewrite lookup_app_r, Nat.sub_diag by lia.
    split; [done|]. intros j Hj. destruct (lookup_lt_is_Some_2 l1 j Hj) as [y Hy]. rewrite lookup_app_l, Hy by lia.
    rewrite Forall_lookup in Hall. specialize (Hall j y Hy). by destruct y.
  - apply position_None in E. intros j v Hv. rewrite Forall_lookup in E. specialize (E j v Hv). by destruct v.
Qed.
