(* ===== verification/Ext2Alloc.v ===== *)
(** * Block groups and the allocation of blocks and inodes: [kernel/core/src/fs/fs_impls/ext2]

    The validated superblock of [super_block.rs] with the geometry of the volume, the block groups of
    [block_group.rs] with their bitmaps and counters, and the calls of [fs.rs] that allocate and free
    blocks and inodes.  A call holds the lock of the superblock for its whole run, so it is one step.
    The caller of an allocation is the thread that [can_alloc] asks for: none, or one with its
    capability and IDs.  Bitmaps and descriptors are written back elsewhere; [Dirty] keeps track of what
    has to be written. *)

From S2P Require Import Prelude Flags StateError Ext2Bitmap.

(** ** [utils.rs] *)

Record Dirty (A : Type) := mkDirty { value : A; dirty : bool }.
Arguments mkDirty {A} _ _.
Arguments value {A} _.
Arguments dirty {A} _.

(** [DerefMut::deref_mut], with the change that follows. *)
Definition deref_mut {A} (f : A -> A) (d : Dirty A) : Dirty A := mkDirty (f (value d)) true.

(** The loop of [is_power_of]; [usize] numbers are below [2 ^ 64]. *)
Definition is_power_of (n x : Z) : run bool :=
  loop 65 (fun power =>
    if power <? n then if u64_modulus <=? power * x then Panic else Ret (Continue (power * x))
    else Ret (Break (power =? n))) x.

(** ** [super_block.rs] *)

Definition MAGIC_NUM : Z := 0xef53.
Definition SUPER_BLOCK_OFFSET : Z := 1024.
Definition SUPER_BLOCK_SIZE : Z := 1024.

(** The fields that the checks and the geometry depend on; the others are copied as they are. *)
Record RawSuperBlock := mkRawSuperBlock {
  raw_inodes_count : Z;
  raw_blocks_count : Z;
  raw_reserved_blocks_count : Z;
  raw_free_blocks_count : Z;
  raw_free_inodes_count : Z;
  raw_first_data_block : Z;
  raw_log_block_size : Z;
  raw_log_frag_size : Z;
  raw_blocks_per_group : Z;
  raw_inodes_per_group : Z;
  raw_magic : Z;
  raw_state : Z;
  raw_errors : Z;
  raw_creator_os : Z;
  raw_rev_level : Z;
  raw_default_reserved_uid : Z;
  raw_default_reserved_gid : Z;
  raw_first_ino : Z;
  raw_inode_size : Z;
  raw_feature_incompat : Z;
  raw_feature_ro_compat : Z
}.

Record SuperBlock := mkSuperBlock {
  inodes_count : Z;
  blocks_count : Z;
  reserved_blocks_count : Z;
  sb_free_blocks_count : Z;
  sb_free_inodes_count : Z;
  first_data_block : Z;
  nr_blocks_per_group : Z;
  nr_inodes_per_group : Z;
  nr_inode_table_blocks_per_group : Z;
  default_reserved_uid : Z;
  default_reserved_gid : Z;
  first_ino : Z;
  inode_size : Z;
  feature_ro_compat : Z
}.

Definition with_free_blocks (n : Z) (sb : SuperBlock) : SuperBlock :=
  mkSuperBlock (inodes_count sb) (blocks_count sb) (reserved_blocks_count sb) n (sb_free_inodes_count sb) (first_data_block sb) (nr_blocks_per_group sb)
    (nr_inodes_per_group sb) (nr_inode_table_blocks_per_group sb) (default_reserved_uid sb) (default_reserved_gid sb) (first_ino sb) (inode_size sb)
    (feature_ro_compat sb).
Definition with_free_inodes (n : Z) (sb : SuperBlock) : SuperBlock :=
  mkSuperBlock (inodes_count sb) (blocks_count sb) (reserved_blocks_count sb) (sb_free_blocks_count sb) n (first_data_block sb) (nr_blocks_per_group sb)
    (nr_inodes_per_group sb) (nr_inode_table_blocks_per_group sb) (default_reserved_uid sb) (default_reserved_gid sb) (first_ino sb) (inode_size sb)
    (feature_ro_compat sb).

Definition FILETYPE : Z := 2.
Definition SPARSE_SUPER : Z := 1.
Definition LARGE_FILE : Z := 2.
Definition BTREE_DIR : Z := 4.
Definition FS_STATE_ALL : Z := 3.

(** [div_ceil]. *)
Definition div_ceil (x y : Z) : Z := (x + y - 1) / y.

Definition verify (b : bool) (e : Errno) : result unit := if b then Ok tt else Err e.

(** The first inode that is not reserved, and the size of an inode. *)
Definition rev_level_params (sb : RawSuperBlock) : result (Z * Z) :=
  if raw_rev_level sb =? 0 then Ok (11, 128)
  else if raw_rev_level sb =? 1 then
    _ ← verify (128 <=? raw_inode_size sb) EINVAL;
    _ ← verify (raw_inode_size sb <=? BLOCK_SIZE) EINVAL;
    _ ← verify (raw_inode_size sb =? next_power_of_two (raw_inode_size sb)) EINVAL;
    Ok (raw_first_ino sb, raw_inode_size sb)
  else Err EINVAL.

Section superblock.
Context `{BF : Bitflags}.

Definition try_from (sb : RawSuperBlock) : result SuperBlock :=
  _ ← verify (raw_magic sb =? MAGIC_NUM) EINVAL;
  _ ← verify (raw_log_block_size sb =? 2) EINVAL;
  _ ← verify (raw_log_frag_size sb =? raw_log_block_size sb) EINVAL;
  _ ← verify (is_some (bf_from_bits FS_STATE_ALL (raw_state sb))) EINVAL;
  _ ← verify (raw_errors sb =? 1) EINVAL;
  _ ← verify (raw_creator_os sb =? 0) EINVAL;
  '(first_ino, inode_size) ← rev_level_params sb;
  let ipg := raw_inodes_per_group sb in
  let bpg := raw_blocks_per_group sb in
  _ ← verify (negb ((ipg =? 0) || (bpg =? 0))) EINVAL;
  let inodes_per_block := BLOCK_SIZE / inode_size in
  _ ← verify (inodes_per_block <=? ipg) EINVAL;
  let max_bits_per_group := BLOCK_SIZE * 8 in
  _ ← verify (ipg <=? max_bits_per_group) EINVAL;
  _ ← verify (bpg <=? max_bits_per_group) EINVAL;
  let table_blocks := ipg / inodes_per_block in
  _ ← verify (table_blocks + 3 <? bpg) EINVAL;
  _ ← verify (raw_first_data_block sb + 1 <? raw_blocks_count sb) EINVAL;
  let blocks_after_first_data := raw_blocks_count sb - raw_first_data_block sb - 1 in
  let nr_block_groups := blocks_after_first_data / bpg + 1 in
  let max_inodes := nr_block_groups * ipg in
  let min_inodes := (nr_block_groups - 1) * ipg in
  _ ← verify (negb ((raw_inodes_count sb <=? min_inodes) || (max_inodes <? raw_inodes_count sb))) EINVAL;
  _ ← verify (raw_free_blocks_count sb <=? raw_blocks_count sb) EINVAL;
  _ ← verify (raw_free_inodes_count sb <=? raw_inodes_count sb) EINVAL;
  _ ← verify (Z.ldiff (raw_feature_incompat sb) FILETYPE =? 0) EINVAL;
  _ ← verify (Z.ldiff (raw_feature_ro_compat sb) (Z.lor (Z.lor SPARSE_SUPER LARGE_FILE) BTREE_DIR) =? 0) EINVAL;
  Ok (mkSuperBlock (raw_inodes_count sb) (raw_blocks_count sb) (raw_reserved_blocks_count sb) (raw_free_blocks_count sb) (raw_free_inodes_count sb)
        (raw_first_data_block sb) bpg ipg table_blocks (raw_default_reserved_uid sb) (raw_default_reserved_gid sb) first_ino inode_size
        (bf_from_bits_truncate 7 (raw_feature_ro_compat sb))).

(** Does the group keep a copy of the superblock? *)
Definition is_backup_group (sb : SuperBlock) (idx : Z) : run bool :=
  if idx =? 0 then Ret false
  else if bf_contains (feature_ro_compat sb) SPARSE_SUPER then
    if idx =? 1 then Ret true
    else
      p3 ← is_power_of idx 3;
      if (p3 : bool) then Ret true
      else
        p5 ← is_power_of idx 5;
        if (p5 : bool) then Ret true else is_power_of idx 7
  else Ret true.

End superblock.

(** Arithmetic of [u32] and [u16] with overflow checks. *)
Definition add32 (x y : Z) : run Z := if x + y <? 2 ^ 32 then Ret (x + y) else Panic.
Definition mul32 (x y : Z) : run Z := if x * y <? 2 ^ 32 then Ret (x * y) else Panic.

Definition nr_block_groups (sb : SuperBlock) : Z := div_ceil (blocks_count sb) (nr_blocks_per_group sb).

Definition group_first_block_no (sb : SuperBlock) (group_idx : Z) : run Z :=
  n ← mul32 group_idx (nr_blocks_per_group sb);
  add32 n (first_data_block sb).

Definition group_last_block_no (sb : SuperBlock) (group_idx : Z) : run Z :=
  n ← checked_sub (nr_block_groups sb) 1;
  if group_idx =? n then checked_sub (blocks_count sb) 1
  else
    first ← group_first_block_no sb group_idx;
    e ← add32 first (nr_blocks_per_group sb);
    checked_sub e 1.

Definition is_data_block_valid (sb : SuperBlock) (start_blk count : Z) : bool :=
  if count =? 0 then false
  else if 2 ^ 32 <=? start_blk + (count - 1) then false
  else
    let end_blk := start_blk + (count - 1) in
    if (start_blk <=? first_data_block sb) || (blocks_count sb <=? end_blk) then false
    else
      let sb_bid := if BLOCK_SIZE =? SUPER_BLOCK_SIZE then 1 else 0 in
      negb ((start_blk <=? sb_bid) && (sb_bid <=? end_blk)).

Definition inc_free_blocks (count : Z) (sb : SuperBlock) : result SuperBlock :=
  if sb_free_blocks_count sb + count <? 2 ^ 32 then Ok (with_free_blocks (sb_free_blocks_count sb + count) sb) else Err EIO.
Definition dec_free_blocks (count : Z) (sb : SuperBlock) : result SuperBlock :=
  if count <=? sb_free_blocks_count sb then Ok (with_free_blocks (sb_free_blocks_count sb - count) sb) else Err EIO.
Definition inc_free_inodes (sb : SuperBlock) : result SuperBlock :=
  if sb_free_inodes_count sb + 1 <? 2 ^ 32 then Ok (with_free_inodes (sb_free_inodes_count sb + 1) sb) else Err EIO.
Definition dec_free_inodes (sb : SuperBlock) : result SuperBlock :=
  if 1 <=? sb_free_inodes_count sb then Ok (with_free_inodes (sb_free_inodes_count sb - 1) sb) else Err EIO.

(** The number of blocks of the largest file; the arithmetic is that of [u64]. *)
Definition max_blocks (block_size : Z) : run Z :=
  let DIRECT_BLOCKS := 12 in
  let block_size_bits := Z.of_nat (trailing_zeros block_size) in
  let ptrs_per_block := Z.shiftl 1 (block_size_bits - 2) in
  let upper_limit := Z.shiftr (Z.shiftl 1 32 - 1) (block_size_bits - 9) in
  let max_blocks := DIRECT_BLOCKS + Z.shiftl 1 (block_size_bits - 2) + Z.shiftl 1 (2 * (block_size_bits - 2)) + Z.shiftl 1 (3 * (block_size_bits - 2)) in
  let metadata_blocks := 1 + (1 + ptrs_per_block) + (1 + ptrs_per_block + ptrs_per_block * ptrs_per_block) in
  if upper_limit <? max_blocks + metadata_blocks then
    let max_blocks := upper_limit in
    upper_limit ← checked_sub upper_limit DIRECT_BLOCKS;
    let metadata_blocks := 1 in
    upper_limit ← checked_sub upper_limit ptrs_per_block;
    if upper_limit <? ptrs_per_block * ptrs_per_block then
      checked_sub max_blocks (metadata_blocks + (1 + div_ceil upper_limit ptrs_per_block))
    else
      let metadata_blocks := metadata_blocks + (1 + ptrs_per_block) in
      upper_limit ← checked_sub upper_limit (ptrs_per_block * ptrs_per_block);
      checked_sub max_blocks
        (metadata_blocks + (1 + div_ceil upper_limit ptrs_per_block + div_ceil upper_limit (ptrs_per_block * ptrs_per_block)))
  else Ret max_blocks.

Definition max_file_size (block_size : Z) : run Z :=
  n ← max_blocks block_size;
  Ret (Z.min (wrap64 (Z.shiftl n (Z.of_nat (trailing_zeros block_size)))) (2 ^ 63 - 1)).

(** ** [block_group.rs] *)

Record BlockGroupDesc := mkDesc {
  block_bitmap_bid : Z;
  inode_bitmap_bid : Z;
  inode_table_bid : Z;
  free_blocks_count : Z;
  free_inodes_count : Z;
  used_dirs_count : Z
}.

Definition with_blocks (n : Z) (d : BlockGroupDesc) : BlockGroupDesc :=
  mkDesc (block_bitmap_bid d) (inode_bitmap_bid d) (inode_table_bid d) n (free_inodes_count d) (used_dirs_count d).
Definition with_inodes (n dirs : Z) (d : BlockGroupDesc) : BlockGroupDesc :=
  mkDesc (block_bitmap_bid d) (inode_bitmap_bid d) (inode_table_bid d) (free_blocks_count d) n dirs.

Record BlockGroup := mkGroup {
  group_idx : Z;
  desc : Dirty BlockGroupDesc;
  block_bitmap : Dirty IdBitmap;
  inode_bitmap : Dirty IdBitmap;
  first_block : Z;
  last_block : Z;
  table_blocks : Z;                               (** [nr_inode_table_blocks_per_group] *)
  group_inodes : Z                                (** [nr_inodes_per_group] *)
}.

Definition with_desc (f : BlockGroupDesc -> BlockGroupDesc) (g : BlockGroup) : BlockGroup :=
  mkGroup (group_idx g) (deref_mut f (desc g)) (block_bitmap g) (inode_bitmap g) (first_block g) (last_block g) (table_blocks g) (group_inodes g).
Definition with_block_bitmap (m : IdBitmap) (g : BlockGroup) : BlockGroup :=
  mkGroup (group_idx g) (desc g) (deref_mut (fun _ => m) (block_bitmap g)) (inode_bitmap g) (first_block g) (last_block g) (table_blocks g) (group_inodes g).
Definition with_inode_bitmap (m : IdBitmap) (g : BlockGroup) : BlockGroup :=
  mkGroup (group_idx g) (desc g) (block_bitmap g) (deref_mut (fun _ => m) (inode_bitmap g)) (first_block g) (last_block g) (table_blocks g) (group_inodes g).

Definition range_empty (r : Range) : bool := r.2 <=? r.1.

Definition ranges_overlap (a b : Range) : bool :=
  negb (range_empty a) && negb (range_empty b) && (a.1 <? b.2) && (b.1 <? a.2).

Definition overlaps_system_zone_with (g : BlockGroup) (d : BlockGroupDesc) (r : Range) : run bool :=
  if range_empty r then Ret false
  else
    be ← add32 (block_bitmap_bid d) 1;
    ie ← add32 (inode_bitmap_bid d) 1;
    te ← add32 (inode_table_bid d) (table_blocks g);
    Ret (ranges_overlap r (block_bitmap_bid d, be) || ranges_overlap r (inode_bitmap_bid d, ie) || ranges_overlap r (inode_table_bid d, te)).

Definition validate_free_counts (d : BlockGroupDesc) (nr_blocks_in_group nr_inodes_in_group : Z) : result unit :=
  _ ← verify (free_blocks_count d <=? nr_blocks_in_group) EINVAL;
  verify (free_inodes_count d <=? nr_inodes_in_group) EINVAL.

Section groups.
Context `{BV : BitView}.

(** Is the block in the group and marked? *)
Definition is_valid_fn (m : IdBitmap) (first_block max_bit bid : Z) : run bool :=
  if bid <? first_block then Ret false
  else if max_bit <? bid - first_block then Ret false
  else is_allocated m (bid - first_block).

Definition validate_metadata_blocks (d : BlockGroupDesc) (m : IdBitmap) (first_block last_block table_blocks : Z) : run (result unit) :=
  max_bit ← checked_sub last_block first_block;
  v ← is_valid_fn m first_block max_bit (block_bitmap_bid d);
  if negb v then Ret (Err EINVAL)
  else
    v ← is_valid_fn m first_block max_bit (inode_bitmap_bid d);
    if negb v then Ret (Err EINVAL)
    else if (inode_table_bid d <? first_block) || (max_bit <? inode_table_bid d - first_block) then Ret (Err EINVAL)
    else
      let table_start_bit := inode_table_bid d - first_block in
      table_end_bit ← add32 table_start_bit table_blocks;
      last ← checked_sub table_end_bit 1;
      if max_bit <? last then Ret (Err EINVAL)
      else
        foldl (fun acc bit =>
          r ← acc;
          match r with
          | Err e => Ret (Err e)
          | Ok _ => a ← is_allocated m bit; Ret (if (a : bool) then Ok tt else Err EINVAL)
          end) (Ret (Ok tt)) (range_list table_start_bit table_end_bit).

(** Loads a group from its descriptor and the bytes of its bitmaps. *)
Definition load (d : BlockGroupDesc) (idx : Z) (sb : SuperBlock) (block_buf inode_buf : option (list Z)) : run (result BlockGroup) :=
  first ← group_first_block_no sb idx;
  last ← group_last_block_no sb idx;
  last_idx ← checked_sub (nr_block_groups sb) 1;
  nr_inodes_in_group ← (if idx =? last_idx then n ← mul32 idx (nr_inodes_per_group sb); checked_sub (inodes_count sb) n else Ret (nr_inodes_per_group sb));
  max_bit ← checked_sub last first;
  match validate_free_counts d (max_bit + 1) nr_inodes_in_group, block_buf, inode_buf with
  | Err e, _, _ => Ret (Err e)
  | Ok _, None, _ => Ret (Err EIO)
  | Ok _, Some _, None => Ret (Err EIO)
  | Ok _, Some block_buf, Some inode_buf =>
      _ ← assert_run (max_bit + 1 <=? capacity);
      bm ← from_buf block_buf (max_bit + 1);
      _ ← assert_run (nr_inodes_per_group sb <=? capacity);
      im ← from_buf inode_buf (nr_inodes_per_group sb);
      r ← validate_metadata_blocks d bm first last (nr_inode_table_blocks_per_group sb);
      match r with
      | Err e => Ret (Err e)
      | Ok _ =>
          Ret (Ok (mkGroup idx (mkDirty d false) (mkDirty bm false) (mkDirty im false) first last
                     (nr_inode_table_blocks_per_group sb) (nr_inodes_per_group sb)))
      end
  end.

(** The loop over smaller and smaller counts. *)
Definition try_alloc (requested : Z) : SM BlockGroup (flow Z (option Range)) :=
  if requested <=? 0 then mret (Break None)
  else
    m ← gets (fun g => value (block_bitmap g));
    '(candidate, m) ← liftr (alloc_consecutive m requested);
    _ ← update (with_block_bitmap m);
    match candidate with
    | Some r => mret (Break (Some r))
    | None => mret (Continue (requested / 2))
    end.

Definition BlockGroup_alloc_blocks (count sb_free_blocks : Z) : SM BlockGroup Range :=
  first ← gets first_block;
  last ← gets last_block;
  size ← liftr (checked_sub last first);
  let group_size := size + 1 in
  _ ← liftr (assert_run (group_size <=? capacity));
  d ← gets (fun g => value (desc g));
  let requested := Z.min (Z.min (Z.min count group_size) (free_blocks_count d)) sb_free_blocks mod 2 ^ 16 in
  r ← repeat_while 17 try_alloc requested;
  match r with
  | None => if 0 <? free_blocks_count d then raise EIO else mret (0, 0)
  | Some (s, e) =>
      let alloc_count := e - s in
      abs_start ← liftr (add32 first s);
      abs_end ← liftr (add32 abs_start alloc_count);
      overlap ← (fun g => o ← overlaps_system_zone_with g d (abs_start, abs_end); Ret (Ok o, g));
      if overlap || (free_blocks_count d <? alloc_count) || (sb_free_blocks <? alloc_count) then
        m ← gets (fun g => value (block_bitmap g));
        m ← liftr (free_consecutive m (s, e));
        _ ← update (with_block_bitmap m);
        raise EIO
      else
        let alloc_count := alloc_count mod 2 ^ 16 in
        _ ← liftr (assert_run (alloc_count <=? free_blocks_count d));
        _ ← update (with_desc (with_blocks (free_blocks_count d - alloc_count)));
        range_start ← liftr (add32 first s);
        range_end ← liftr (add32 first e);
        mret (range_start, range_end)
  end.

(** One bit of [free_blocks]; the number of blocks freed so far. *)
Definition free_bit (freed : Z) (block_bit : Z) : SM BlockGroup Z :=
  m ← gets (fun g => value (block_bitmap g));
  a ← liftr (is_allocated m block_bit);
  if negb a then mret freed
  else
    m ← liftr (free m block_bit);
    _ ← update (with_block_bitmap m);
    mret (freed + 1).

Fixpoint free_bits (freed : Z) (bits : list Z) : SM BlockGroup Z :=
  match bits with
  | [] => mret freed
  | b :: bits => freed ← free_bit freed b; free_bits freed bits
  end.

Definition BlockGroup_free_blocks (bit_range : Range) : SM BlockGroup Z :=
  let '(start_bit, end_bit) := bit_range in
  let group_count := Z.max 0 (end_bit - start_bit) in
  first ← gets first_block;
  abs_start ← liftr (add32 first start_bit);
  abs_end ← liftr (add32 first end_bit);
  d ← gets (fun g => value (desc g));
  overlap ← (fun g => o ← overlaps_system_zone_with g d (abs_start, abs_end); Ret (Ok o, g));
  if (overlap : bool) then raise EIO
  else
    stop ← liftr (add32 start_bit group_count);
    freed ← free_bits 0 (range_list (start_bit mod 2 ^ 16) (stop mod 2 ^ 16));
    d ← gets (fun g => value (desc g));
    if free_blocks_count d + freed mod 2 ^ 16 <? 2 ^ 16 then
      _ ← update (with_desc (with_blocks (free_blocks_count d + freed mod 2 ^ 16)));
      mret freed
    else raise EIO.

Definition BlockGroup_alloc_ino (is_directory : bool) : SM BlockGroup (option Z) :=
  d ← gets (fun g => value (desc g));
  if free_inodes_count d =? 0 then mret None
  else if is_directory && (used_dirs_count d =? 2 ^ 16 - 1) then raise EIO
  else
    m ← gets (fun g => value (inode_bitmap g));
    '(id, m) ← liftr (alloc m);
    _ ← update (with_inode_bitmap m);
    match id with
    | None => mret None
    | Some inode_idx =>
        if free_inodes_count d <? 1 then raise EIO
        else
          let dirs := if is_directory then used_dirs_count d + 1 else used_dirs_count d in
          _ ← liftr (assert_run (dirs <? 2 ^ 16));
          _ ← update (with_desc (with_inodes (free_inodes_count d - 1) dirs));
          mret (Some inode_idx)
    end.

Definition inode_idx_in_group (g : BlockGroup) (ino : Z) : run Z :=
  _ ← assert_run (0 <? ino);
  _ ← assert_run ((ino - 1) / group_inodes g =? group_idx g);
  Ret (((ino - 1) mod group_inodes g) mod 2 ^ 16).

Definition BlockGroup_free_inode (ino : Z) (is_directory : bool) : SM BlockGroup bool :=
  g ← gets (fun g => g);
  inode_idx ← liftr (inode_idx_in_group g ino);
  let m := value (inode_bitmap g) in
  let d := value (desc g) in
  a ← liftr (is_allocated m inode_idx);
  if negb a then mret false
  else if 2 ^ 16 <=? free_inodes_count d + 1 then raise EIO
  else if is_directory && (used_dirs_count d <? 1) then raise EIO
  else
    m ← liftr (free m inode_idx);
    _ ← update (with_inode_bitmap m);
    _ ← update (with_desc (with_inodes (free_inodes_count d + 1) (if is_directory then used_dirs_count d - 1 else used_dirs_count d)));
    mret true.

(** ** [fs.rs] *)

Record Ext2 := mkExt2 { super_block : Dirty SuperBlock; block_groups : list BlockGroup }.

Definition with_sb (sb : SuperBlock) (fs : Ext2) : Ext2 := mkExt2 (deref_mut (fun _ => sb) (super_block fs)) (block_groups fs).

(** A thread: may it use the reserved blocks, and its IDs. *)
Record Caller := mkCaller { sys_resource : bool; fsuid : Z; fsgid : Z; groups : list Z }.

Definition can_alloc (caller : option Caller) (free_blocks reserved_blocks reserved_uid reserved_gid : Z) : bool :=
  if reserved_blocks <? free_blocks then true
  else
    match caller with
    | None => true
    | Some t =>
        sys_resource t || (fsuid t =? reserved_uid) ||
        negb (reserved_gid =? 0) && ((fsgid t =? reserved_gid) || bool_decide (reserved_gid ∈ groups t))
    end.

(** Runs a call on a group of the file system; an index out of range panics. *)
Definition on_group {A} (idx : Z) (m : SM BlockGroup A) : SM Ext2 A := fun fs =>
  g ← vec_get (block_groups fs) (Z.to_nat idx);
  '(r, g) ← m g;
  Ret (r, mkExt2 (super_block fs) (<[Z.to_nat idx := g]> (block_groups fs))).

(** A change of a counter of the superblock. *)
Definition on_sb (f : SuperBlock -> result SuperBlock) : SM Ext2 unit :=
  sb ← gets (fun fs => value (super_block fs));
  match f sb with
  | Ok sb => update (with_sb sb)
  | Err e => raise e
  end.

(** The search for a group with free blocks, from the goal's group on. *)
Fixpoint search_groups (count sb_free_blocks goal_group nr_block_groups : Z) (offsets : list Z) : SM Ext2 Range :=
  match offsets with
  | [] => raise ENOSPC
  | offset :: offsets =>
      r ← on_group ((goal_group + offset) mod nr_block_groups) (BlockGroup_alloc_blocks count sb_free_blocks);
      if range_empty r then search_groups count sb_free_blocks goal_group nr_block_groups offsets
      else
        _ ← on_sb (dec_free_blocks (r.2 - r.1));
        mret r
  end.

Definition alloc_blocks (caller : option Caller) (count goal : Z) : SM Ext2 Range :=
  if count =? 0 then raise EINVAL
  else
    sb ← gets (fun fs => value (super_block fs));
    let sb_free_blocks := sb_free_blocks_count sb in
    if sb_free_blocks =? 0 then raise ENOSPC
    else if negb (can_alloc caller sb_free_blocks (reserved_blocks_count sb) (default_reserved_uid sb) (default_reserved_gid sb)) then raise ENOSPC
    else
      last_group ← liftr (checked_sub (nr_block_groups sb) 1);
      let goal_group := if first_data_block sb <? goal then (goal - first_data_block sb) / nr_blocks_per_group sb else 0 in
      search_groups count sb_free_blocks (Z.min goal_group last_group) (nr_block_groups sb) (range_list 0 (nr_block_groups sb)).

(** One group's part of a range of blocks; the rest of the range. *)
Definition free_step (r : Z * Z) : SM Ext2 (flow (Z * Z) unit) :=
  let '(current_block, remaining_blocks) := r in
  if remaining_blocks <=? 0 then mret (Break tt)
  else
    sb ← gets (fun fs => value (super_block fs));
    rel ← liftr (checked_sub current_block (first_data_block sb));
    let idx := rel / nr_blocks_per_group sb in
    first ← on_group idx (gets first_block);
    last ← on_group idx (gets last_block);
    size ← liftr (checked_sub last first);
    let group_size := size + 1 in
    group_start_bit ← liftr (checked_sub current_block first);
    room ← liftr (checked_sub group_size group_start_bit);
    let blocks_in_group := Z.min remaining_blocks room in
    freed_count ← on_group idx (BlockGroup_free_blocks (group_start_bit, group_start_bit + blocks_in_group));
    _ ← (if 0 <? freed_count then on_sb (inc_free_blocks freed_count) else mret tt);
    current ← liftr (add32 current_block blocks_in_group);
    mret (Continue (current, remaining_blocks - blocks_in_group)).

Definition free_blocks (start count : Z) : SM Ext2 unit :=
  if count =? 0 then mret tt
  else
    sb ← gets (fun fs => value (super_block fs));
    if negb (is_data_block_valid sb start count) then raise EIO
    else repeat_while (S (Z.to_nat count)) free_step (start, count).

(** The group of an inode. *)
Definition find_group (fs : Ext2) (ino : Z) : run (option Z) :=
  _ ← assert_run (0 <? ino);
  let idx := (ino - 1) / nr_inodes_per_group (value (super_block fs)) in
  Ret (if idx <? Z.of_nat (length (block_groups fs)) then Some idx else None).

Definition ROOT_INO : Z := 2.

Fixpoint search_inode_groups (is_directory : bool) (parent_group nr_block_groups : Z) (offsets : list Z) : SM Ext2 Z :=
  match offsets with
  | [] => raise ENOSPC
  | offset :: offsets =>
      let idx := (parent_group + offset) mod nr_block_groups in
      r ← on_group idx (BlockGroup_alloc_ino is_directory);
      match r with
      | None => search_inode_groups is_directory parent_group nr_block_groups offsets
      | Some inode_idx =>
          sb ← gets (fun fs => value (super_block fs));
          n ← liftr (mul32 idx (nr_inodes_per_group sb));
          n ← liftr (add32 n inode_idx);
          ino ← liftr (add32 n 1);
          if (ino <? first_ino sb) || (inodes_count sb <? ino) then raise EIO
          else
            _ ← on_sb dec_free_inodes;
            mret ino
      end
  end.

Definition alloc_ino (parent_ino : Z) (is_directory : bool) : SM Ext2 Z :=
  sb ← gets (fun fs => value (super_block fs));
  if (parent_ino <? ROOT_INO) || (inodes_count sb <? parent_ino) then raise EIO
  else if sb_free_inodes_count sb =? 0 then raise ENOSPC
  else
    let parent_group := (parent_ino - 1) / nr_inodes_per_group sb in
    search_inode_groups is_directory parent_group (nr_block_groups sb) (range_list 0 (nr_block_groups sb)).

Definition free_inode (ino : Z) (is_directory : bool) : SM Ext2 unit :=
  sb ← gets (fun fs => value (super_block fs));
  if (ino <? first_ino sb) || (inodes_count sb <? ino) then raise EIO
  else
    g ← (fun fs => g ← find_group fs ino; Ret (Ok g, fs));
    match g with
    | None => raise EIO
    | Some idx =>
        was_allocated ← on_group idx (BlockGroup_free_inode ino is_directory);
        if (was_allocated : bool) then on_sb inc_free_inodes else mret tt
    end.

End groups.
