(* ===== verification/Ext2AllocSpec.v ===== *)
(** * Allocation in ext2: correctness

    The invariant of a consistent volume: the groups tile it, each bitmap and its counter agree, the
    metadata of each group is marked, and the superblock counts what the groups count.  An allocation
    hands out blocks that nobody has, fails only if there is none for the caller, and freeing gives back
    exactly the blocks it is asked to.  [BlockAlloc] is what the rest of the file system relies on. *)

From S2P Require Import Prelude Flags StateError Ext2Bitmap Ext2Alloc.

Section spec.
Context `{BV : BitView}.

(** ** Groups *)

Definition group_size (g : BlockGroup) : Z := last_block g - first_block g + 1.

(** The blocks with the bitmaps and the inode table of the group. *)
Definition zone (g : BlockGroup) (b : Z) : Prop :=
  let d := value (desc g) in
  b = block_bitmap_bid d \/ b = inode_bitmap_bid d \/ inode_table_bid d <= b < inode_table_bid d + table_blocks g.

Record group_ok (g : BlockGroup) : Prop := {
  go_range : 0 <= first_block g <= last_block g /\ last_block g + 1 < 2 ^ 32;
  go_size : group_size g <= capacity;
  go_table : 0 < table_blocks g;
  go_bitmap : bitmap_ok (value (block_bitmap g));
  go_len : bm_len (value (block_bitmap g)) = group_size g;
  go_count : free_blocks_count (value (desc g)) = free_ids (value (block_bitmap g));
  go_zone b : zone g b -> first_block g <= b <= last_block g /\ bit (value (block_bitmap g)) (b - first_block g) = true
}.

(** What an operation on blocks does not touch. *)
Record same_group (g g' : BlockGroup) : Prop := {
  sg_idx : group_idx g' = group_idx g;
  sg_first : first_block g' = first_block g;
  sg_last : last_block g' = last_block g;
  sg_table : table_blocks g' = table_blocks g;
  sg_inodes : group_inodes g' = group_inodes g;
  sg_bitmap : inode_bitmap g' = inode_bitmap g;
  sg_desc : with_blocks 0 (value (desc g')) = with_blocks 0 (value (desc g))
}.

Lemma same_group_refl g : same_group g g.
Proof. by constructor. Qed.

Lemma same_group_trans g1 g2 g3 : same_group g1 g2 -> same_group g2 g3 -> same_group g1 g3.
Proof. intros [] []. constructor; congruence. Qed.

Lemma same_group_bitmap g m : same_group g (with_block_bitmap m g).
Proof. by constructor. Qed.

Lemma same_group_desc g n : same_group g (with_desc (with_blocks n) g).
Proof. by constructor. Qed.

Lemma same_group_zone g g' b : same_group g g' -> zone g' b <-> zone g b.
Proof.
  intros []. unfold zone. unfold with_blocks in sg_desc0. injection sg_desc0 as -> -> -> _ _. by rewrite sg_table0.
Qed.

Lemma free_ids_bounds m : shaped m -> 0 <= free_ids m <= bm_len m.
Proof.
  intros Hs. unfold free_ids. split; [apply tally_nonneg; by intros []|].
  assert (forall l, tally (fun b : bool => if b then 0 else 1) l <= Z.of_nat (length l)) as H.
  { induction l as [|x l IH]; [done|]. rewrite tally_cons. cbn [length]. destruct x; lia. }
  specialize (H (bits m)). rewrite bits_total in H by done. destruct Hs. lia.
Qed.

Lemma free_ids_zero m : shaped m -> no_run m 1 (bm_len m) -> free_ids m = 0.
Proof.
  intros Hs Hn. apply tally_zero. intros b (i & Hi)%list_elem_of_lookup.
  pose proof (lookup_lt_Some _ _ _ Hi) as Hl. rewrite bits_total in Hl by done.
  destruct (Hn (Z.of_nat i)) as (id & Hid & Hb); [lia..|]. replace id with (Z.of_nat i) in Hb by lia.
  rewrite (bit_lookup m _ b) in Hb; [by subst|lia|by rewrite Nat2Z.id].
Qed.

Lemma overlaps_ok g s e : group_ok g -> s < e ->
  returns (overlaps_system_zone_with g (value (desc g)) (s, e)) (fun o => o = true <-> exists b, s <= b < e /\ zone g b).
Proof.
  intros Hg Hse. unfold overlaps_system_zone_with, range_empty. cbn [fst snd]. case_cond; [lia|].
  destruct Hg as [Hr _ Ht _ _ _ Hz]. unfold zone in *. set (d := value (desc g)) in *. cbn zeta in Hz.
  destruct (Hz (block_bitmap_bid d)) as [Hb _]; [by left|].
  destruct (Hz (inode_bitmap_bid d)) as [Hi _]; [right; by left|].
  destruct (Hz (inode_table_bid d)) as [Ht0 _]; [right; right; lia|].
  destruct (Hz (inode_table_bid d + table_blocks g - 1)) as [Ht1 _]; [right; right; lia|].
  unfold add32. repeat (case_cond; [|lia]; cbn [mbind run_bind]). apply returns_ret.
  unfold ranges_overlap, range_empty. cbn [fst snd]. rewrite !orb_true_iff, !andb_true_iff, !negb_true_iff, !Z.leb_gt, !Z.ltb_lt. split.
  - intros [[H|H]|H]; [exists (block_bitmap_bid d)|exists (inode_bitmap_bid d)|exists (Z.max s (inode_table_bid d))]; lia.
  - intros (b & Hb' & [->|[->|H]]); lia.
Qed.

(** ** Allocation in a group *)

(** The same group, except for dirty flags. *)
Definition untouched (g g' : BlockGroup) : Prop :=
  same_group g g' /\ desc g' = desc g /\ value (block_bitmap g') = value (block_bitmap g).

Lemma try_alloc_ok g r : group_ok g -> 0 <= r <= capacity -> (0 < r -> 0 < free_ids (value (block_bitmap g))) ->
  wp (repeat_while 17 try_alloc r) g (fun res g' =>
    match res with
    | Ok (Some (s, e)) => 0 < e - s <= r /\ same_group g g' /\ desc g' = desc g /\ taken (value (block_bitmap g)) (value (block_bitmap g')) s e
    | Ok None => r = 0 /\ g' = g
    | Err _ => False
    end).
Proof.
  intros Hg Hr Hfree. set (m := value (block_bitmap g)) in *.
  apply (sm_wp_while _ (fun a g' => 0 <= a <= r /\ untouched g g' /\ (a = 0 -> r = 0 \/ no_run m 1 (bm_len m)) /\ (a = r -> g' = g))
           (fun a => if a <=? 0 then 0%nat else S (Z.to_nat (Z.log2 a)))).
  - intros a g' (Ha & (Hsame & Ed & Em) & Hz & Hrg). unfold try_alloc. case_cond.
    + sm. assert (a = 0) as -> by lia. destruct (decide (r = 0)) as [->|]; [by split; [|apply Hrg]|].
      destruct Hz as [?|Hz]; [done|lia|]. pose proof (free_ids_zero m (bitmap_shaped _ (go_bitmap g Hg)) Hz). lia.
    + sm. rewrite Em. fold m. apply sm_wp_lift_returns. eapply returns_mono; [apply alloc_consecutive_ok; [by apply go_bitmap|lia]|].
      intros [[[s e]|] m'] H; cbn [fst snd] in H.
      * destruct H as (-> & Ht & _). sm. split; [lia|]. split; [|done]. eapply same_group_trans; [exact Hsame|apply same_group_bitmap].
      * destruct H as [-> Hn]. pose proof (Z.div_mod a 2 ltac:(lia)). pose proof (Z.mod_pos_bound a 2 ltac:(lia)). sm. split.
        -- split; [lia|]. split; [|split; [|intros; exfalso; lia]].
           ++ split; [|done]. eapply same_group_trans; [exact Hsame|apply same_group_bitmap].
           ++ intros ?. right. assert (a = 1) as -> by lia. done.
        -- case_cond; [lia|]. assert (0 < a / 2) by lia. assert (Z.log2 a = Z.succ (Z.log2 (a / 2))) as ->; [|pose proof (Z.log2_nonneg (a / 2)); lia].
           rewrite <- Z.log2_double by lia. destruct (Z.eq_dec (a mod 2) 0) as [Ev|Ev].
           { f_equal. lia. }
           rewrite (Z.div_mod a 2) at 1 by lia. replace (a mod 2) with 1 by lia. rewrite Z.log2_succ_double, Z.log2_double by lia. lia.
  - split; [lia|]. split; [by split; [apply same_group_refl|]|]. split; [|done]. intros ->. by left.
  - case_cond; [lia|]. assert (Z.log2 r <= Z.log2 capacity) by (apply Z.log2_le_mono; lia). change (Z.log2 capacity) with 15 in *. lia.
Qed.

(** A group with another bitmap, in which its metadata is still marked. *)
Lemma group_ok_change g g' : group_ok g -> same_group g g' -> bitmap_ok (value (block_bitmap g')) ->
  bm_len (value (block_bitmap g')) = bm_len (value (block_bitmap g)) -> free_blocks_count (value (desc g')) = free_ids (value (block_bitmap g')) ->
  (forall b, zone g b -> bit (value (block_bitmap g')) (b - first_block g) = true) -> group_ok g'.
Proof.
  intros [Hr Hs Ht Hb Hl Hn Hz] Hsame Hb' Hl' Hn' Hz'. unfold group_size in *.
  constructor; unfold group_size; rewrite ?(sg_first _ _ Hsame), ?(sg_last _ _ Hsame), ?(sg_table _ _ Hsame); [done..|lia|done|].
  intros b Hb0. apply (same_group_zone g g' b Hsame) in Hb0. split; [by apply Hz|by apply Hz'].
Qed.

Lemma BlockGroup_alloc_blocks_ok g count sb_free : group_ok g -> 0 < count -> 0 < sb_free ->
  wp (BlockGroup_alloc_blocks count sb_free) g (fun res g' =>
    match res with
    | Ok (s, e) =>
        s = 0 /\ e = 0 /\ g' = g /\ free_blocks_count (value (desc g)) = 0 \/
        s < e /\ e - s <= count /\ e - s <= sb_free /\ group_ok g' /\ same_group g g' /\
        free_blocks_count (value (desc g')) = free_blocks_count (value (desc g)) - (e - s) /\
        taken (value (block_bitmap g)) (value (block_bitmap g')) (s - first_block g) (e - first_block g)
    | Err _ => False
    end).
Proof.
  intros Hg Hc Hsf. pose proof Hg as [Hr Hs Ht Hb Hl Hn Hz]. unfold group_size in *. set (d := value (desc g)) in *.
  pose proof (free_ids_bounds _ (bitmap_shaped _ Hb)) as Hfb. rewrite Hl in Hfb.
  unfold BlockGroup_alloc_blocks. sm. eapply sm_wp_lift; [unfold checked_sub; case_cond; [reflexivity|lia]|]. sm.
  rewrite (proj2 (Z.leb_le _ _) Hs). sm. fold d.
  rewrite Z.mod_small by (change capacity with 32768 in *; lia).
  eapply sm_wp_mono; [apply (try_alloc_ok g); [done|lia|lia]|]. intros [[[s e]|]|] g1 H; [|destruct H as [H ->]|done].
  2: { sm. case_cond; [lia|]. sm. left. split_and!; [done..|]. lia. }
  destruct H as (Hse & Hsame & Ed & Htk). pose proof (tk_range _ _ _ _ Htk) as Hrange. rewrite Hl in Hrange.
  assert (forall x y, 0 <= x -> x + y <= last_block g + 1 -> add32 x y = Ret (x + y)) as Hadd by (intros; unfold add32; case_cond; [done|lia]).
  sm. eapply sm_wp_lift; [apply Hadd; lia|]. sm. eapply sm_wp_lift; [apply Hadd; lia|]. sm.
  destruct (overlaps_ok g (first_block g + s) (first_block g + s + (e - s)) Hg) as (o & Ho & Hov); [lia|].
  assert (overlaps_system_zone_with g1 d (first_block g + s, first_block g + s + (e - s)) = Ret o) as Ho1.
  { rewrite <- Ho. unfold overlaps_system_zone_with. by rewrite (sg_table _ _ Hsame). }
  assert (o = false) as ->.
  { destruct o; [|done]. destruct (proj1 Hov eq_refl) as (b & Hbr & Hbz). destruct (Hz b Hbz) as [_ Hbit].
    rewrite (tk_before _ _ _ _ Htk) in Hbit by lia. done. }
  unfold wp at 1. rewrite Ho1. cbn [mbind run_bind]. apply returns_ret. cbn [fst snd orb].
  repeat (case_cond; [lia|]). rewrite (Z.mod_small (e - s)) by (change capacity with 32768 in *; lia).
  rewrite (proj2 (Z.leb_le (e - s) (free_blocks_count d))) by lia. sm.
  eapply sm_wp_lift; [apply Hadd; lia|]. sm. eapply sm_wp_lift; [apply Hadd; lia|]. sm. right.
  assert (same_group g (with_desc (with_blocks (free_blocks_count d - (e - s))) g1)) as Hsame'.
  { eapply same_group_trans; [exact Hsame|apply same_group_desc]. }
  split_and!; [lia|lia|lia| |done|cbn; lia|].
  - apply (group_ok_change g); [done|done|apply Htk|apply Htk|cbn; rewrite (tk_free _ _ _ _ Htk); lia|].
    intros b Hbz. cbn. rewrite (tk_bit _ _ _ _ Htk), (proj2 (Hz b Hbz)). apply orb_true_r.
  - replace (first_block g + s - first_block g) with s by lia. by replace (first_block g + e - first_block g) with e by lia.
Qed.

Lemma given_back_refl m a : bitmap_ok m -> 0 <= a <= bm_len m -> given_back m m a a.
Proof.
  intros Hm ?. constructor; [done|done|lia|lia| |lia]. intros id. by rewrite bool_decide_false by lia.
Qed.

Lemma given_back_trans m m1 m2 a b c : given_back m m1 a b -> given_back m1 m2 b c -> given_back m m2 a c.
Proof.
  intros [H1 E1 R1 B1 T1 F1] [H2 E2 R2 B2 T2 F2]. constructor; [done|lia|lia| | |lia].
  - intros id Hid. destruct (decide (id < b)); [apply B1; lia|]. specialize (B2 id ltac:(lia)). rewrite T1 in B2. apply andb_true_iff in B2. by destruct B2.
  - intros id. rewrite T2, T1. repeat case_bool_decide; try lia; done.
Qed.

Lemma free_bits_ok n : forall g a freed, bitmap_ok (value (block_bitmap g)) -> 0 <= a -> a + Z.of_nat n <= bm_len (value (block_bitmap g)) ->
  (forall id, a <= id < a + Z.of_nat n -> bit (value (block_bitmap g)) id = true) ->
  wp (free_bits freed (range_list a (a + Z.of_nat n))) g (fun res g' =>
    res = Ok (freed + Z.of_nat n) /\ same_group g g' /\ desc g' = desc g /\
    given_back (value (block_bitmap g)) (value (block_bitmap g')) a (a + Z.of_nat n)).
Proof.
  induction n as [|n IH]; intros g a freed Hb Ha Hl Hbits.
  - rewrite Z.add_0_r. unfold range_list. rewrite Z.sub_diag. change (Z.to_nat 0) with 0%nat. cbn [seq fmap list_fmap free_bits]. sm. split_and!; [f_equal; lia|apply same_group_refl|done|].
    apply given_back_refl; [done|lia].
  - assert (range_list a (a + Z.of_nat (S n)) = a :: range_list (a + 1) (a + 1 + Z.of_nat n)) as ->.
    { unfold range_list. replace (Z.to_nat (a + Z.of_nat (S n) - a)) with (S n) by lia. replace (Z.to_nat (a + 1 + Z.of_nat n - (a + 1))) with n by lia.
      cbn [seq fmap list_fmap]. f_equal; [lia|]. rewrite <- fmap_S_seq, <- list_fmap_compose. apply list_fmap_ext. intros; cbn; lia. }
    cbn [free_bits]. unfold free_bit. sm. eapply sm_wp_lift; [apply is_allocated_ok; [by apply bitmap_shaped|lia]|].
    rewrite Hbits by lia. cbn [negb]. sm. apply sm_wp_lift_returns. eapply returns_mono; [apply free_ok; [done|apply Hbits; lia]|].
    intros m1 Hg1. sm. eapply sm_wp_mono; [apply (IH (with_block_bitmap m1 g))|]; cbn [with_block_bitmap block_bitmap deref_mut value].
    + apply Hg1.
    + lia.
    + rewrite (gb_len _ _ _ _ Hg1). lia.
    + intros id Hid. rewrite (gb_bit _ _ _ _ Hg1), bool_decide_false by lia. apply Hbits. lia.
    + intros res g' (-> & Hsame & Ed & Hgb). split_and!; [f_equal; lia| |done|].
      * eapply same_group_trans; [apply same_group_bitmap|exact Hsame].
      * eapply given_back_trans; [exact Hg1|]. by replace (a + Z.of_nat (S n)) with (a + 1 + Z.of_nat n) by lia.
Qed.

Lemma BlockGroup_free_blocks_ok g a b : group_ok g -> 0 <= a < b -> b <= group_size g ->
  (forall id, a <= id < b -> bit (value (block_bitmap g)) id = true /\ ~ zone g (first_block g + id)) ->
  wp (BlockGroup_free_blocks (a, b)) g (fun res g' =>
    res = Ok (b - a) /\ group_ok g' /\ same_group g g' /\
    free_blocks_count (value (desc g')) = free_blocks_count (value (desc g)) + (b - a) /\
    given_back (value (block_bitmap g)) (value (block_bitmap g')) a b).
Proof.
  intros Hg Hab Hbs Hbits. pose proof Hg as [Hr Hs Ht Hb Hl Hn Hz]. unfold group_size in *.
  unfold BlockGroup_free_blocks. replace (Z.max 0 (b - a)) with (b - a) by lia. sm.
  assert (forall x y, 0 <= x -> x + y <= last_block g + 1 -> add32 x y = Ret (x + y)) as Hadd by (intros; unfold add32; case_cond; [done|lia]).
  eapply sm_wp_lift; [apply Hadd; lia|]. sm. eapply sm_wp_lift; [apply Hadd; lia|]. sm.
  destruct (overlaps_ok g (first_block g + a) (first_block g + b) Hg) as (o & Ho & Hov); [lia|].
  assert (o = false) as ->.
  { destruct o; [|done]. destruct (proj1 Hov eq_refl) as (x & Hx & Hxz). destruct (Hbits (x - first_block g)) as [_ Hnz]; [lia|].
    exfalso. apply Hnz. by replace (first_block g + (x - first_block g)) with x by lia. }
  unfold wp at 1. rewrite Ho. cbn [mbind run_bind]. apply returns_ret. cbn [fst snd]. sm.
  eapply sm_wp_lift; [apply Hadd; lia|]. change capacity with 32768 in *. rewrite !Z.mod_small by lia. sm.
  pose proof (free_bits_ok (Z.to_nat (b - a)) g a 0 Hb) as Hf. rewrite Z2Nat.id in Hf by lia. replace (a + (b - a)) with b in * by lia.
  eapply sm_wp_mono; [apply Hf; [lia|lia|intros id ?; by apply Hbits]|]. intros res g1 (-> & Hsame & Ed & Hgb). sm. rewrite Ed.
  pose proof (free_ids_bounds _ (bitmap_shaped _ (gb_ok _ _ _ _ Hgb))) as Hfb. rewrite (gb_free _ _ _ _ Hgb), (gb_len _ _ _ _ Hgb), Hl in Hfb.
  pose proof (free_ids_bounds _ (bitmap_shaped _ Hb)). rewrite Z.add_0_l, (Z.mod_small (b - a)) by lia. case_cond; [|lia]. sm.
  assert (same_group g (with_desc (with_blocks (free_blocks_count (value (desc g)) + (b - a))) g1)) as Hsame'.
  { eapply same_group_trans; [exact Hsame|apply same_group_desc]. }
  split_and!; [done| |done|done|done].
  apply (group_ok_change g); [done|done|apply Hgb|apply Hgb|cbn; rewrite (gb_free _ _ _ _ Hgb); lia|].
  intros x Hxz. cbn. rewrite (gb_bit _ _ _ _ Hgb), (proj2 (Hz x Hxz)). rewrite bool_decide_false; [done|].
  intros Hin. destruct (Hbits _ Hin) as [_ Hnz]. apply Hnz. by replace (first_block g + (x - first_block g)) with x by lia.
Qed.

(** ** The volume *)

Definition sb_of (fs : Ext2) : SuperBlock := value (super_block fs).

(** Is the block in use? *)
Definition used (fs : Ext2) (b : Z) : bool :=
  match block_groups fs !! Z.to_nat ((b - first_data_block (sb_of fs)) / nr_blocks_per_group (sb_of fs)) with
  | Some g => bit (value (block_bitmap g)) (b - first_block g)
  | None => false
  end.

Definition group_free (g : BlockGroup) : Z := free_blocks_count (value (desc g)).

Record blocks_ok (fs : Ext2) : Prop := {
  bo_first : 0 <= first_data_block (sb_of fs);
  bo_per_group : 0 < nr_blocks_per_group (sb_of fs) <= capacity;
  bo_count : blocks_count (sb_of fs) < 2 ^ 32;
  bo_groups : nr_block_groups (sb_of fs) = Z.of_nat (length (block_groups fs));
  bo_last : 0 < Z.of_nat (length (block_groups fs)) /\
    first_data_block (sb_of fs) + (Z.of_nat (length (block_groups fs)) - 1) * nr_blocks_per_group (sb_of fs) < blocks_count (sb_of fs);
  bo_group i g : block_groups fs !! i = Some g ->
    group_ok g /\ first_block g = first_data_block (sb_of fs) + Z.of_nat i * nr_blocks_per_group (sb_of fs) /\
    last_block g = Z.min (first_block g + nr_blocks_per_group (sb_of fs)) (blocks_count (sb_of fs)) - 1;
  bo_super : used fs (first_data_block (sb_of fs)) = true;
  bo_total : sb_free_blocks_count (sb_of fs) = tally group_free (block_groups fs)
}.

(** The blocks that files may have: not the superblock, nor the metadata of a group. *)
Definition in_zone (fs : Ext2) (b : Z) : Prop := exists i g, block_groups fs !! i = Some g /\ zone g b.
Definition data_block (fs : Ext2) (b : Z) : Prop :=
  first_data_block (sb_of fs) < b < blocks_count (sb_of fs) /\ ~ in_zone fs b.

(** The parts of a volume that never change. *)
Record same_volume (fs fs' : Ext2) : Prop := {
  sv_sb : with_free_inodes 0 (with_free_blocks 0 (sb_of fs')) = with_free_inodes 0 (with_free_blocks 0 (sb_of fs));
  sv_groups : Forall2 (fun g g' => group_idx g' = group_idx g /\ first_block g' = first_block g /\ last_block g' = last_block g /\
    table_blocks g' = table_blocks g /\ group_inodes g' = group_inodes g /\
    with_inodes 0 0 (with_blocks 0 (value (desc g'))) = with_inodes 0 0 (with_blocks 0 (value (desc g)))) (block_groups fs) (block_groups fs')
}.

Lemma same_volume_refl fs : same_volume fs fs.
Proof. constructor; [done|]. apply Forall2_same_length_lookup_2; [done|]. intros i g g' E1 E2. rewrite E1 in E2. by simplify_eq. Qed.

Lemma same_volume_trans fs1 fs2 fs3 : same_volume fs1 fs2 -> same_volume fs2 fs3 -> same_volume fs1 fs3.
Proof.
  intros [S1 G1] [S2 G2]. constructor; [congruence|]. revert G1 G2. generalize (block_groups fs1) (block_groups fs2) (block_groups fs3).
  intros l1 l2 l3 G1. revert l3. induction G1 as [|g1 g2 l1 l2 Hg G1 IH]; intros l3 G2; inversion G2 as [|? g3 ? l3' Hg' G2']; subst; constructor; [|auto].
  destruct Hg as (?&?&?&?&?&?), Hg' as (?&?&?&?&?&?). split_and!; congruence.
Qed.

(** The fields of the superblock that an allocation reads. *)
Lemma same_volume_sb fs fs' : same_volume fs fs' ->
  first_data_block (sb_of fs') = first_data_block (sb_of fs) /\ nr_blocks_per_group (sb_of fs') = nr_blocks_per_group (sb_of fs) /\
  blocks_count (sb_of fs') = blocks_count (sb_of fs).
Proof. intros [E _]. destruct (sb_of fs), (sb_of fs'). cbn in *. by simplify_eq. Qed.

Lemma same_volume_zone fs fs' b : same_volume fs fs' -> in_zone fs' b <-> in_zone fs b.
Proof.
  intros [_ G]. unfold in_zone, zone. split; intros (i & g & Hg & Hz).
  - destruct (Forall2_lookup_r _ _ _ _ _ G Hg) as (g0 & Hg0 & (_ & _ & _ & Et & _ & Ed)). exists i, g0. split; [done|].
    destruct (value (desc g)), (value (desc g0)). cbn in *. simplify_eq. by rewrite <- Et.
  - destruct (Forall2_lookup_l _ _ _ _ _ G Hg) as (g0 & Hg0 & (_ & _ & _ & Et & _ & Ed)). exists i, g0. split; [done|].
    destruct (value (desc g)), (value (desc g0)). cbn in *. simplify_eq. by rewrite Et.
Qed.

Lemma same_volume_data fs fs' b : same_volume fs fs' -> data_block fs' b <-> data_block fs b.
Proof. intros H. unfold data_block. rewrite (same_volume_zone fs fs' b H). destruct (same_volume_sb fs fs' H) as (-> & _ & ->). done. Qed.

Lemma group_index fs i g b : blocks_ok fs -> block_groups fs !! i = Some g -> first_block g <= b <= last_block g ->
  Z.to_nat ((b - first_data_block (sb_of fs)) / nr_blocks_per_group (sb_of fs)) = i.
Proof.
  intros Hfs Hg Hb. destruct (bo_group fs Hfs i g Hg) as (_ & Ef & El). pose proof (bo_per_group fs Hfs).
  rewrite <- (Z.div_unique_pos _ (nr_blocks_per_group (sb_of fs)) (Z.of_nat i) (b - first_block g)); lia.
Qed.

Lemma used_group fs i g b : blocks_ok fs -> block_groups fs !! i = Some g -> first_block g <= b <= last_block g ->
  used fs b = bit (value (block_bitmap g)) (b - first_block g).
Proof. intros Hfs Hg Hb. unfold used. by rewrite (group_index fs i g b), Hg. Qed.

Lemma div_ceil_bound x y : 0 < y -> x <= div_ceil x y * y.
Proof. intros Hy. unfold div_ceil. pose proof (Z.div_mod (x + y - 1) y ltac:(lia)). pose proof (Z.mod_pos_bound (x + y - 1) y Hy). lia. Qed.

(** Every block of the volume is in a group. *)
Lemma find_block_group fs b : blocks_ok fs -> first_data_block (sb_of fs) <= b < blocks_count (sb_of fs) ->
  exists i g, block_groups fs !! i = Some g /\ first_block g <= b <= last_block g /\
    (b - first_data_block (sb_of fs)) / nr_blocks_per_group (sb_of fs) = Z.of_nat i.
Proof.
  intros Hfs Hb. pose proof (bo_per_group fs Hfs) as Hp. set (sb := sb_of fs) in *. set (q := (b - first_data_block sb) / nr_blocks_per_group sb).
  pose proof (Z.div_mod (b - first_data_block sb) (nr_blocks_per_group sb) ltac:(lia)) as Hd. fold q in Hd.
  pose proof (Z.mod_pos_bound (b - first_data_block sb) (nr_blocks_per_group sb) ltac:(lia)) as Hm.
  pose proof (div_ceil_bound (blocks_count sb) (nr_blocks_per_group sb) ltac:(lia)) as Hc.
  pose proof (bo_groups fs Hfs) as Hn. unfold nr_block_groups in Hn. fold sb in Hn. rewrite Hn in Hc. pose proof (bo_first fs Hfs). fold sb in H.
  assert (0 <= q) by (apply Z.div_pos; lia).
  destruct (lookup_lt_is_Some_2 (block_groups fs) (Z.to_nat q)) as [g Hg]; [nia|]. exists (Z.to_nat q), g.
  destruct (bo_group fs Hfs _ g Hg) as (_ & Ef & El). fold sb in Ef, El. split; [done|]. split; [nia|]. lia.
Qed.

Lemma bit_outside g b : group_ok g -> ~ (first_block g <= b <= last_block g) -> bit (value (block_bitmap g)) (b - first_block g) = false.
Proof.
  intros Hg Hb. destruct (bit _ _) eqn:E; [|done]. apply bit_in_range in E; [|by apply bitmap_shaped, go_bitmap].
  rewrite (go_len g Hg) in E. unfold group_size in E. lia.
Qed.

(** A group is replaced, and the superblock counts the difference. *)
Lemma change_group fs i g g' sbd : blocks_ok fs -> block_groups fs !! i = Some g -> same_group g g' -> group_ok g' ->
  value sbd = with_free_blocks (sb_free_blocks_count (sb_of fs) - group_free g + group_free g') (sb_of fs) ->
  let fs' := mkExt2 sbd (<[i := g']> (block_groups fs)) in
  (forall b, used fs' b = if bool_decide (first_block g <= b <= last_block g) then bit (value (block_bitmap g')) (b - first_block g) else used fs b) /\
  same_volume fs fs' /\
  (used fs' (first_data_block (sb_of fs)) = true -> blocks_ok fs').
Proof.
  intros Hfs Hg Hsame Hg' Esb fs'. pose proof (lookup_lt_Some _ _ _ Hg) as Hi. pose proof (bo_group fs Hfs i g Hg) as (Hgok & Ef & El).
  assert (sb_of fs' = with_free_blocks (sb_free_blocks_count (sb_of fs) - group_free g + group_free g') (sb_of fs)) as Esb' by done.
  split; [|split].
  - intros b. unfold used at 1. rewrite Esb'. cbn [with_free_blocks first_data_block nr_blocks_per_group]. unfold fs'. cbn [block_groups].
    case_bool_decide as Hb.
    + rewrite (group_index fs i g b Hfs Hg Hb), list_lookup_insert_eq by done. by rewrite (sg_first _ _ Hsame).
    + destruct (decide (Z.to_nat ((b - first_data_block (sb_of fs)) / nr_blocks_per_group (sb_of fs)) = i)) as [E|E].
      * unfold used. rewrite E, list_lookup_insert_eq, Hg by done. rewrite !bit_outside; [done|done|done|done|].
        by rewrite (sg_first _ _ Hsame), (sg_last _ _ Hsame).
      * unfold used. by rewrite list_lookup_insert_ne.
  - constructor; [by rewrite Esb'|]. apply Forall2_same_length_lookup_2; [cbn; by rewrite length_insert|]. intros j x y Hx Hy. cbn in Hy.
    destruct (decide (j = i)) as [->|Hne].
    + rewrite list_lookup_insert_eq in Hy by done. injection Hy as <-. rewrite Hg in Hx. injection Hx as <-. destruct Hsame. split_and!; try done.
      destruct (value (desc g)), (value (desc g')). cbn in *. by simplify_eq.
    + rewrite list_lookup_insert_ne in Hy by done. by simplify_eq.
  - intros Hsup. destruct Hfs as [H1 H2 H3 H4 H5 H6 H7 H8]. constructor; rewrite ?Esb'; try done.
    + unfold fs'. cbn [block_groups]. by rewrite length_insert.
    + unfold fs'. cbn [block_groups]. by rewrite length_insert.
    + intros j x Hx. cbn in Hx. cbn. destruct (decide (j = i)) as [->|Hne].
      * rewrite list_lookup_insert_eq in Hx by done. injection Hx as <-. by rewrite (sg_first _ _ Hsame), (sg_last _ _ Hsame).
      * rewrite list_lookup_insert_ne in Hx by done. by apply H6.
    + unfold fs'. cbn [block_groups with_free_blocks sb_free_blocks_count]. rewrite (tally_insert _ _ _ g) by done. lia.
Qed.

(** ** Allocation *)

(** The blocks from [s] to [e], which nobody had, are handed out. *)
Record allocated (fs fs' : Ext2) (s e : Z) : Prop := {
  al_ok : blocks_ok fs';
  al_volume : same_volume fs fs';
  al_range : s < e;
  al_fresh b : s <= b < e -> used fs b = false /\ data_block fs b;
  al_used b : used fs' b = bool_decide (s <= b < e) || used fs b;
  al_count : sb_free_blocks_count (sb_of fs') = sb_free_blocks_count (sb_of fs) - (e - s)
}.

Lemma zone_used fs b : blocks_ok fs -> in_zone fs b -> used fs b = true.
Proof.
  intros Hfs (i & g & Hg & Hz). destruct (bo_group fs Hfs i g Hg) as (Hok & _). destruct (go_zone g Hok b Hz) as [Hb Hbit].
  by rewrite (used_group fs i g b).
Qed.

Lemma wp_on_group {A} idx (m : SM BlockGroup A) fs g (Q : result A -> Ext2 -> Prop) : block_groups fs !! Z.to_nat idx = Some g ->
  wp m g (fun r g' => Q r (mkExt2 (super_block fs) (<[Z.to_nat idx := g']> (block_groups fs)))) -> wp (on_group idx m) fs Q.
Proof.
  intros Hg ([r g'] & E & H). unfold wp, on_group, vec_get. rewrite Hg. cbn [unwrap mbind run_bind]. rewrite E. by apply returns_ret.
Qed.

Lemma search_groups_ok fs count goal n offsets : blocks_ok fs -> 0 < count -> 0 < sb_free_blocks_count (sb_of fs) ->
  n = Z.of_nat (length (block_groups fs)) ->
  (exists o i g, o ∈ offsets /\ (goal + o) mod n = Z.of_nat i /\ block_groups fs !! i = Some g /\ 0 < group_free g) ->
  wp (search_groups count (sb_free_blocks_count (sb_of fs)) goal n offsets) fs (fun r fs' =>
    exists s e, r = Ok (s, e) /\ e - s <= count /\ allocated fs fs' s e).
Proof.
  intros Hfs Hc Hfree Hn. pose proof (proj1 (bo_last fs Hfs)) as Hpos. induction offsets as [|o offsets IH]; intros (o' & i & g & Ho & Ei & Hg & Hgf); [set_solver|].
  cbn [search_groups]. apply sm_wp_bind.
  assert (0 <= (goal + o) mod n < n) as Hidx by (apply Z.mod_pos_bound; lia).
  destruct (lookup_lt_is_Some_2 (block_groups fs) (Z.to_nat ((goal + o) mod n))) as [g0 Hg0]; [lia|].
  pose proof (bo_group fs Hfs _ g0 Hg0) as (Hg0ok & Ef0 & El0).
  eapply wp_on_group; [exact Hg0|]. eapply sm_wp_mono; [by apply BlockGroup_alloc_blocks_ok|].
  intros [[s e]|] g' Hpost; [|done]. unfold range_empty. cbn [fst snd]. destruct Hpost as [(-> & -> & -> & Hz)|(Hse & Hsc & Hsf & Hg' & Hsame & Hcnt & Htk)].
  - change (0 <=? 0) with true. cbn iota. rewrite list_insert_id by done. destruct fs as [sbd gs]. cbn in *. apply IH.
    exists o', i, g. split_and!; [|done..]. apply elem_of_cons in Ho as [->|]; [|done]. exfalso. rewrite Ei, Nat2Z.id in Hg0. simplify_eq. unfold group_free in Hgf. lia.
  - case_cond; [lia|]. apply sm_wp_bind. unfold on_sb. apply sm_wp_bind. apply sm_wp_gets. cbn [super_block].
    unfold dec_free_blocks. fold (sb_of fs). case_cond; [|lia]. apply sm_wp_update. apply sm_wp_ret. exists s, e. split; [done|]. split; [done|].
    unfold with_sb, deref_mut. cbn [super_block block_groups value].
    destruct (change_group fs _ g0 g' (mkDirty (with_free_blocks (sb_free_blocks_count (sb_of fs) - (e - s)) (sb_of fs)) true) Hfs Hg0 Hsame Hg') as (Hu & Hv & Hok).
    { cbn. unfold group_free. f_equal. lia. }
    destruct (tk_range _ _ _ _ Htk) as [_ Hlim]. rewrite (go_len g0 Hg0ok) in Hlim. unfold group_size in Hlim. pose proof (proj1 (tk_range _ _ _ _ Htk)) as Hlow.
    assert (forall b, used (mkExt2 (mkDirty (with_free_blocks (sb_free_blocks_count (sb_of fs) - (e - s)) (sb_of fs)) true) (<[Z.to_nat ((goal + o) mod n):=g']> (block_groups fs))) b
              = bool_decide (s <= b < e) || used fs b) as Hu'.
    { intros b. rewrite Hu. case_bool_decide as Hb.
      - rewrite (tk_bit _ _ _ _ Htk). rewrite (used_group fs _ g0 b Hfs Hg0 Hb). f_equal. apply bool_decide_ext. lia.
      - rewrite (bool_decide_false (s <= b < e)) by lia. done. }
    assert (forall b, s <= b < e -> used fs b = false) as Hfresh.
    { intros b Hb. rewrite (used_group fs _ g0 b Hfs Hg0) by lia. apply (tk_before _ _ _ _ Htk). lia. }
    constructor; [|done|lia| |done|done].
    + apply Hok. rewrite Hu', (bo_super fs Hfs). apply orb_true_r.
    + intros b Hb. split; [by apply Hfresh|]. split; [|by intros Hz%zone_used; [rewrite Hfresh in Hz|]].
      assert (b <> first_data_block (sb_of fs)); [|pose proof (bo_per_group fs Hfs); nia].
      intros ->. pose proof (bo_super fs Hfs) as Hsup. by rewrite Hfresh in Hsup.
Qed.

(** An allocation fails only if nothing is free for the caller; otherwise it hands out at least one block and at most [count]. *)
Lemma alloc_blocks_ok fs caller count goal : blocks_ok fs -> 0 < count -> 0 <= goal ->
  wp (alloc_blocks caller count goal) fs (fun r fs' =>
    match r with
    | Ok (s, e) => e - s <= count /\ allocated fs fs' s e
    | Err x => x = ENOSPC /\ fs' = fs /\
        (sb_free_blocks_count (sb_of fs) = 0 \/
         can_alloc caller (sb_free_blocks_count (sb_of fs)) (reserved_blocks_count (sb_of fs)) (default_reserved_uid (sb_of fs)) (default_reserved_gid (sb_of fs)) = false)
    end).
Proof.
  intros Hfs Hc Hgoal. unfold alloc_blocks. case_cond; [lia|]. sm. fold (sb_of fs). case_cond; [sm; auto|].
  destruct (can_alloc _ _ _ _ _) eqn:Ecan; cbn [negb]; [|sm; auto].
  pose proof (bo_groups fs Hfs) as Hn. pose proof (bo_last fs Hfs) as [Hpos _]. rewrite Hn.
  sm. eapply sm_wp_lift; [unfold checked_sub; case_cond; [reflexivity|lia]|]. sm.
  assert (0 <= tally group_free (block_groups fs)) as Hnn.
  { rewrite (tally_ext_in _ (fun g => Z.max 0 (group_free g))); [apply tally_nonneg; lia|]. intros g (i & Hg)%list_elem_of_lookup.
    destruct (bo_group fs Hfs i g Hg) as (Hok & _). unfold group_free. rewrite (go_count g Hok).
    pose proof (free_ids_bounds _ (bitmap_shaped _ (go_bitmap g Hok))). lia. }
  rewrite <- (bo_total fs Hfs) in Hnn.
  eapply sm_wp_mono; [apply search_groups_ok; [done|done|lia|done|]|].
  - destruct (tally_pos group_free (block_groups fs)) as (i & g & Hg & Hgf); [rewrite <- (bo_total fs Hfs); lia|].
    set (n := Z.of_nat (length (block_groups fs))) in *. set (goal' := Z.min _ _).
    exists ((Z.of_nat i - goal') mod n), i, g. pose proof (lookup_lt_Some _ _ _ Hg). split_and!; [|by rewrite Z.add_mod_idemp_r, Zplus_minus, Z.mod_small by lia|done|done].
    apply elem_of_range_list. apply Z.mod_pos_bound. lia.
  - intros r fs' (s & e & -> & Hse & Hal). auto.
Qed.
End spec.
